(* ===== verification/_CoqProject ===== *)
-Q . S2P
Prelude.v
Machine.v
Bytes.v
Common.v
Redb.v
Cas.v
CasBackends.v
Bloom.v
HotTier.v
Tiered.v
Ring.v
Replicated.v
ActionCache.v
Gc.v
GcBarrier.v
CasDemo.v
CasTheorems.v
Fs.v
Tree.v
TreeSpec.v
TreeExact.v
TreePack.v
TreeTheorems.v
Fuse.v
FuseSpec.v
FuseMount.v
FuseRead.v
FuseTheorems.v
MetaKv.v
RaftTypes.v
RaftProtocol.v
RaftAgreement.v
RaftRng.v
RaftWire.v
RaftStore.v
RaftStorage.v
RaftConfig.v
RaftNode.v
RaftNodeSpec.v
RaftReceiver.v
RaftLogRel.v
RaftHandlers.v
RaftSim.v
RaftSimCalls.v
RaftSimLog.v
RaftSimClient.v
RaftDriver.v
RaftDriverSpec.v
RaftCluster.v
RaftSafety.v
RaftDemo.v
RaftTheorems.v
RaftConsensus.v
RaftKv.v
FairQueue.v
Lease.v
Registry.v
Scheduling.v
Scheduler.v
SchedulerSpec.v
SchedulerRun.v
Execute.v
KvTheorems.v
SchedulerTheorems.v
ExecuteTheorems.v
Policy.v
PolicyTheorems.v
ClusterView.v
ClusterTheorems.v
Services.v
Client.v
Worker.v
ServiceTheorems.v
ClientTheorems.v
WorkerTheorems.v
EndToEnd.v
Seccomp.v
Sandbox.v
SandboxTheorems.v
SandboxHost.v
