(* ===== verification/Prelude.v ===== *)
(** * Brokkr: a verification development

    Brokkr is a remote build-execution service.  Clients upload inputs to a
    content-addressed store (CAS) and ask the control plane to run actions;
    workers run them, upload the outputs and report an [ActionResult], which the
    action cache keeps.  Several control-plane servers agree on their metadata
    through Raft.  The crates and who calls whom:

    - [brokkr-common]: digests and identifiers, used everywhere;
    - [brokkr-raft]: a Raft library.  [node.rs] is the protocol as a state
      machine without I/O; [storage.rs] is its durable log in redb; [driver.rs]
      is the event loop that owns a node, applies committed entries to a state
      machine and answers callers; [transport.rs] carries its messages;
    - [brokkr-cas]: the store trait with its backends and decorators, placement,
      replication and repair, the action cache, and the garbage collector that
      works on both stores;
    - [brokkr-control]: the control plane.  Its metadata store is a key-value
      state machine on the Raft log; its scheduler queues jobs fairly by tenant,
      leases them to connected workers and answers the callers that wait;
    - [brokkr-policy]: a host for scheduling policies compiled to WebAssembly,
      which the scheduler may ask where to place a job;
    - [brokkr-worker]: attaches to a control-plane node, runs the actions it is
      assigned and uploads their output; [fuse/] mounts an input tree instead of
      writing it to disk;
    - [brokkr-sdk]: the client library, which uploads a command, asks for its
      execution and follows the leader; [brokkr-cli]: the command line on it;
    - [brokkr-sandbox]: isolation of actions.

    ** How the code is represented

    A function over [&mut self] that returns a [Result] is an effect
    [eff S E A := S -> S * outcome E A] ([Prelude]).  The state survives an
    error, as it does in Rust after [?].  The third outcome, [Halt], is a panic
    or a loop that ran out of fuel.  Specifications are total-correctness triples
    [wp m Q X s]: the call returns, with [Q] on success and [X] on error, and
    never halts; so a specification also says that the loops of the code end and
    that no index is out of range.  [async] calls are such effects too: a call
    runs from its start to its result, and where the interleaving of calls
    matters ([GcBarrier], [RaftCluster], [SchedulerRun]) the interleaving is
    explicit, one step per call or per section that holds a lock.

    Integers that can overflow keep their width: [u64] is a record with its bound
    ([Machine]), saturating and wrapping operations are written out.

    redb, prost, sha2 and tonic are not part of the repository.  redb is an
    ordered table whose transactions take effect as a whole or fail, on an
    arbitrary schedule of failures ([RaftStorage], [Redb]).  A protobuf encoding
    is a pair of functions of which only the round trip on the messages at hand
    is assumed ([RaftCodec], [ArCodec], [DirCodec], [KvCodec],
    [ExecEncoder], [ExecuteResponseCodec]).  SHA-256 is a function of which only the
    shape of its output is assumed, and only where that matters; it is never
    assumed injective, except that [EndToEnd] asks of the three messages of a
    build that nothing else has their hash.  tonic is what the code sees of it:
    status codes, messages and metadata ([Services]), and calls that carry a
    request to a node ([Wire] of [Client]).  The [Demo] files and the witnesses
    instantiate all of them.

    ** The files

    - [Prelude] (this file): effects, [wp], tactics and generic lemmas;
      [Machine], [Bytes]: machine integers, UTF-8, time, ordered byte keys;
      [Redb]: a table behind a semaphore.
    - [Common]: [digest.rs], [ids.rs].
    - [Cas], [CasBackends], [Bloom], [HotTier], [Tiered], [Ring], [Replicated],
      [ActionCache], [Gc], [GcBarrier], [CasDemo], [CasTheorems]: the crate
      [brokkr-cas], described below.
    - [Fs], [Tree], [TreeSpec], [TreeExact], [TreePack], [TreeTheorems]: input
      trees ([tree.rs] of [brokkr-cas]) on a file system.
    - [Fuse], [FuseSpec], [FuseMount], [FuseRead], [FuseTheorems]:
      mounted input trees ([fuse/] of [brokkr-worker]).
    - [MetaKv], [RaftKv], [FairQueue], [Lease], [Registry], [Scheduling],
      [Scheduler], [SchedulerSpec], [SchedulerRun], [Execute], [KvTheorems],
      [SchedulerTheorems], [ExecuteTheorems], [ClusterView], [ClusterTheorems]:
      the crate [brokkr-control], described below.
    - [Services], [ServiceTheorems]: its gRPC services.
    - [Client], [ClientTheorems]: the crate [brokkr-sdk].
    - [Worker], [WorkerTheorems]: the rest of [brokkr-worker].
    - [EndToEnd]: client, services, scheduler and worker put together.
    - [Seccomp], [Sandbox], [SandboxTheorems], [SandboxHost]: the crate
      [brokkr-sandbox].
    - [Policy], [PolicyTheorems]: the crate [brokkr-policy] and the strategy of
      [brokkr-control] that uses it.
    - [RaftTypes], [RaftRng], [RaftWire], [RaftStore], [RaftStorage],
      [RaftConfig], [RaftNode], [RaftNodeSpec], [RaftReceiver], [RaftHandlers],
      [RaftDriver], [RaftDriverSpec], [RaftCluster], [RaftDemo], [RaftTheorems]:
      the crate [brokkr-raft], described below;
    - [RaftProtocol], [RaftAgreement], [RaftLogRel], [RaftSim], [RaftSimCalls],
      [RaftSimLog], [RaftSimClient], [RaftSafety], [RaftConsensus]: the protocol
      it implements, and the proof that it does.

    ** brokkr-raft

    [RaftTypes] models [types.rs], [state.rs] and [error.rs]; [RaftRng] models
    [rng.rs]; [RaftWire] models [transport.rs].  [RaftStore] is the interface
    between the node and its log, as a class of operations with a contract over
    an abstract view of the disk; [RaftStorage] models [storage.rs] and proves
    the contract.  [RaftConfig] models [ConfigTracker] and [RaftNode] the rest of
    [node.rs], one definition per method.  [RaftNodeSpec], [RaftReceiver] and
    [RaftHandlers] give each method its specification against the contract.
    [RaftDriver] models [driver.rs], one definition per message of the event
    loop, and [RaftDriverSpec] its invariant.  [RaftCluster] is a step relation
    over a set of servers that crash and restart, and a network that loses,
    duplicates and reorders messages.

    What the library is meant to do is [RaftProtocol]: the Raft protocol with
    joint membership changes, snapshots and restarts, as a step relation on
    servers that hold their whole log as a list, with the history of leaders,
    ballots and commits as ghost state.  [RaftAgreement] proves its invariant.
    The node's log is the end of such a list behind a snapshot ([RaftLogRel]);
    [RaftSim] relates a node to a server of the protocol, and [RaftSimCalls],
    [RaftSimLog] and [RaftSimClient] show that every method, however it ends, is
    a sequence of protocol steps; [RaftSafety] carries this over to clusters.

    The theorems: a cluster refines the protocol, so a term has one leader, logs
    match, leaders have every committed entry, a committed entry is final, the
    commit index never falls, and replicas that applied as many entries are in
    the same state ([RaftConsensus]).  They assume that all servers were first
    started with the same voters, that term and index counters are not within two
    of 2^64, and, for the last one, that a server compacts by a snapshot of its
    own state, as the event loop does.  [RaftTheorems], and the codecs and
    quorums in [RaftTypes], [RaftRng], [RaftWire]: every call of a node and every
    turn of the event loop preserves its invariant on every branch, storage
    failures included; no step takes back a durable term, vote or a leader's
    entry; the commit rule, the vote rule, the merge of AppendEntries, snapshots,
    membership changes and linearizable reads do what the protocol asks; recovery
    restores what was durable; the state machine is always the replay of the
    committed log.

    Fuel: [advance_commit_index] calls itself through the follow-up of a
    committed configuration; its fuel of three is never exhausted
    ([advance_commit_index_terminates]).  The loops of the driver run on the
    distance between applied and commit index.

    ** brokkr-cas

    [Cas] is the trait, with its contract: what is acknowledged matches its
    digest and stays; what is not held is reported missing; what is read has the
    digest's hash.  [CasBackends] ([in_memory.rs], [redb_backend.rs]), [Bloom]
    ([bloom.rs], [bloom_cas.rs]) and [Tiered] ([tiered.rs], over the LRU of
    [HotTier]) are instances of it.  [Ring] models [ring.rs] and [router.rs];
    [Replicated] models [replicated.rs] and [peer.rs] over any store that keeps
    the contract.  [ActionCache] models [action_cache.rs], [Gc] models [gc.rs].
    [GcBarrier] runs a collector and any number of workers side by side.

    The theorems ([CasTheorems]): acknowledged blobs are served from then on, by
    each of the stores and through any stack of them; a quorum write survives the loss of less
    than a quorum; placement is by rank and moves little; repair accounts for
    every digest; a sweep deletes exactly what nothing refers to, and among writers
    that hold the barrier for their cache write, as the handlers do, it deletes
    nothing a cached result refers to; a blob that is uploaded before a sweep and
    referred to after it is lost all the same, which is a finding.

    Fuel: the eviction loop of [HotTier] runs on the length of its list; every
    other loop is a recursion over the list the code iterates.

    [Fs] is a file system with directories, links and modes whose every call may
    fail; [Tree] models [tree.rs] on it: materializing a tree of [Directory]
    messages and packing a directory into a store.  [TreeTheorems]: a walk stays
    inside its target when directory names differ from each other and from link
    names, escapes it when they do not, writes exactly the tree into an empty
    directory, and undoes packing.  Fuel: the depth of the tree.

    ** brokkr-control

    [MetaKv] models [metakv.rs]: the trait with its contract, the redb store, the
    action cache on any such store.  [RaftKv] models [raftkv.rs]: the key-value
    state machine, shown to keep the contract the Raft driver asks of a machine,
    and the store over a Raft handle.  [FairQueue], [Lease], [Registry] (with
    [matching.rs]) and [Scheduling] (with [locality.rs] and the history of
    [views/job.rs]) model the files of those names.  [Scheduler] models the
    dispatch state of [scheduler.rs], one definition per section that holds its
    lock; [SchedulerSpec] specifies them; [SchedulerRun] is the state machine of
    all their interleavings.  [Execute] models [execute] before and after its
    dispatch.

    The theorems: the replicated map is the last committed write of each key
    ([KvTheorems]); fair queueing is fair, dispatch takes the right job to a
    right worker and ends with nothing left to place, no interleaving loses a job
    or exceeds a quota, and three of them misplace one ([SchedulerTheorems]); a
    node that does not lead executes without its cache, and a cached result is the
    answer from then on ([ExecuteTheorems]).

    Fuel: [try_dispatch] ends within as many rounds as there are connections and
    queued jobs ([try_dispatch_work_conserving]); the restore loop of the
    key-value machine runs on the length of the snapshot.

    [ClusterView] models [views/] and [cluster/]: what each node says of itself,
    the snapshot made of the answers, and the events between two snapshots.
    [ClusterTheorems]: the leader a snapshot names is a leader of the Raft cluster
    of the files above, at the highest term that was reported; the snapshot does
    not depend on the order of the answers; the events carry a client from one
    snapshot to the next.

    [Services] models the handlers of [services/], [auth.rs], [membership.rs] and
    [worker_service.rs], the stream of a worker and the eviction task as the calls
    they make, actions of [SchedulerRun].  [ServiceTheorems]: an upload that is acknowledged is served,
    a request runs as the tenant of its token, a topology generation names one
    view; a stream that ends releases its worker ([Services]).

    ** brokkr-sdk

    [Client] models [redirect.rs] and [client.rs].  [ClientTheorems]: a read asked
    of a follower ends at the leader, and redirects are bounded.  The hops are the
    list the code's loop counts through.

    ** brokkr-policy

    [Policy] models the engine ([engine.rs], [error.rs], [lib.rs]) over a
    parameter that says what compiling, linking and running a module does, the
    snapshot handed to the module ([policy_abi.rs]), the strategy
    ([wasm_strategy.rs]) and the reload loop ([policy_reload.rs]).
    [PolicyTheorems]: the strategy keeps the contract of the scheduler's
    strategies whatever the module does, every decision is counted once, and a
    failing module is run only as often as the quarantine allows.

    ** brokkr-worker

    [Fuse] models [fuse/inode.rs] and [fuse/mount.rs]: the inode table built from
    a tree, the callbacks of the file system, and files fetched into a cache
    directory and mapped from there.  [FuseSpec] says what a table shows,
    [FuseMount] compares it with a tree on disk, [FuseRead] follows the maps
    through reads and failures, and the paging of directories.
    [FuseTheorems]: a mount serves what materializing the tree would have
    written; paging lists every entry once; a read is exact or an error, unless
    two files of the tree are the same, when one can end the process.  Fuel: the
    depth of the tree, and one page more than there are entries.

    [Worker] models [endpoint.rs], [runner.rs] and the job handling and attempts
    of [worker.rs].  [WorkerTheorems]: a working directory stays below its base,
    captured output is exact up to its cap, a worker finds a node that is up, and
    one that keeps its cadence is not evicted.

    [EndToEnd] connects them: the calls of a client are the handlers behind the
    authentication, an execution that misses the cache becomes a job, and a worker
    runs it and uploads through the storage service.  The dispatch in between,
    which [SchedulerRun] interleaves, is here the fate of the job.  Its theorem: a
    command run twice is executed once, and both times answered with what the
    sandbox did.

    ** brokkr-sandbox

    [Seccomp] models [runner/seccomp.rs]: the two filters, from the lists of the
    source, as the kernel evaluates them.  [Sandbox] models [config.rs] and the
    rest of [runner/], one definition per function, over a process whose every
    system call may fail.  [SandboxTheorems]: an action is executed isolated or not
    at all, and it is executed where no call fails.  [SandboxHost] models [host/],
    [outcome.rs] and [error.rs]; what the runner does is a parameter.  Its theorems:
    a run is let go on only under its limits of memory, processes and processor, it
    fails to return in three cases only (one of them in spite of a deadline: a
    process left behind that has the output), it leaves no process of its group
    that the kernel did not refuse to kill, and the counters of a cgroup and the
    exit code of an action are reported as they are.

    ** Not modelled

    - [main.rs] of the control plane, the worker and the command line, and the
      crate roots: process set-up and configuration, with no state of their own.
      The observability services and their client copy the views of [ClusterView]
      into messages and forward calls.
    - Of [brokkr-sandbox] the checks of the host that are printed for an operator,
      the pipe for the configuration and its JSON, the bytes of a netlink message
      and the search for the runner binary.  The kernel is modelled by what the
      runner relies on of the manual pages.
    - Of a mount, its unmounting; of a worker session, the opening of its
      channels; of the topology, the subscription to it.
    - wasmtime, jsonwebtoken and the modules and tokens they are given: the model
      takes every answer there may be.
    - tokio tasks, channels and wall-clock time: events come in any order and at
      any instant.
    - The floating-point sizing of a Bloom filter: its results are inputs. *)

From stdpp Require Import prelude gmap strings sorting.
From Stdlib Require Import Lia.

(** ** Outcomes and effects

    A Rust function returning [Result<A, E>] over [&mut self] becomes a function
    from the state before to the state after and an [outcome].  The state
    survives an error: [?] returns early and leaves behind whatever was already
    written.  [Halt] is the outcome of a call that never returns (a panic, or a
    recursion that exhausts the fuel of its model); every specification below
    rules it out. *)

Inductive outcome (E A : Type) : Type :=
| Ok (a : A)
| Err (e : E)
| Halt.

Arguments Ok {E A} a.
Arguments Err {E A} e.
Arguments Halt {E A}.

Definition eff (S E A : Type) : Type := S → S * outcome E A.

#[export] Instance eff_ret {S E} : MRet (eff S E) := λ A a s, (s, Ok a).

#[export] Instance eff_bind {S E} : MBind (eff S E) := λ A B k m s,
  match m s with
  | (s', Ok a) => k a s'
  | (s', Err e) => (s', Err e)
  | (s', Halt) => (s', Halt)
  end.

Definition throw {S E A} (e : E) : eff S E A := λ s, (s, Err e).
Definition halt {S E A} : eff S E A := λ s, (s, Halt).

(** Read a projection of the state, and update the state in place. *)
Definition gets {S E A} (f : S → A) : eff S E A := λ s, (s, Ok (f s)).
Definition modify {S E} (f : S → S) : eff S E () := λ s, (f s, Ok ()).

(** Run an effect on one field of a larger state. *)
Definition zoom {S T E A} (get : S → T) (set : T → S → S) (m : eff T E A) : eff S E A :=
  λ s, let '(t, r) := m (get s) in (set t s, r).

(** [Result::ok_or_else] and the lifting of an already computed result. *)
Definition of_outcome {S E A} (r : outcome E A) : eff S E A := λ s, (s, r).

(** [Result::map_err], [.ok()], and a handler for the error. *)
Definition map_err {S E E' A} (f : E → E') (m : eff S E A) : eff S E' A := λ s,
  match m s with
  | (s', Ok a) => (s', Ok a)
  | (s', Err e) => (s', Err (f e))
  | (s', Halt) => (s', Halt)
  end.

Definition ok_or_none {S E E' A} (m : eff S E A) : eff S E' (option A) := λ s,
  match m s with
  | (s', Ok a) => (s', Ok (Some a))
  | (s', Err _) => (s', Ok None)
  | (s', Halt) => (s', Halt)
  end.

(** The [Result] itself, to be matched on. *)
Definition attempt {S E E' A} (m : eff S E A) : eff S E' (E + A) := λ s,
  match m s with
  | (s', Ok a) => (s', Ok (inr a))
  | (s', Err e) => (s', Ok (inl e))
  | (s', Halt) => (s', Halt)
  end.

Definition or_else {S E A} (m : eff S E A) (h : E → eff S E A) : eff S E A := λ s,
  match m s with
  | (s', Err e) => h e s'
  | r => r
  end.

(** [for a in l { f(a)? }]. *)
Fixpoint each {S E A} (f : A → eff S E ()) (l : list A) : eff S E () :=
  match l with
  | [] => mret ()
  | a :: l => f a;; each f l
  end.

(** ** Weakest preconditions

    [wp m Q X s]: run from [s], [m] returns, and ends in [Q] if it succeeds and
    in [X] if it fails.  Total correctness: [Halt] satisfies nothing. *)
Definition wp {S E A} (m : eff S E A) (Q : A → S → Prop) (X : E → S → Prop) (s : S) : Prop :=
  match m s with
  | (s', Ok a) => Q a s'
  | (s', Err e) => X e s'
  | (_, Halt) => False
  end.

Lemma wp_ret {S E A} (a : A) (Q : A → S → Prop) (X : E → S → Prop) s :
  Q a s → wp (mret a) Q X s.
Proof. done. Qed.

Lemma wp_throw {S E A} (e : E) (Q : A → S → Prop) (X : E → S → Prop) s :
  X e s → wp (throw e) Q X s.
Proof. done. Qed.

Lemma wp_gets {S E A} (f : S → A) (Q : A → S → Prop) (X : E → S → Prop) s :
  Q (f s) s → wp (gets f) Q X s.
Proof. done. Qed.

Lemma wp_modify {S E} (f : S → S) (Q : () → S → Prop) (X : E → S → Prop) s :
  Q () (f s) → wp (modify f) Q X s.
Proof. done. Qed.

Lemma wp_bind {S E A B} (m : eff S E A) (k : A → eff S E B) Q X s :
  wp m (λ a s', wp (k a) Q X s') X s → wp (m ≫= k) Q X s.
Proof.
  unfold wp, mbind, eff_bind. destruct (m s) as [s' [a|e|]]; done.
Qed.

Lemma bind_err {S E A B} (m : eff S E A) (k : A → eff S E B) s s' e : m s = (s', Err e) → (m ≫= k) s = (s', Err e).
Proof. unfold mbind, eff_bind. by intros ->. Qed.

Lemma wp_zoom {S T E A} (get : S → T) (set : T → S → S) (m : eff T E A) Q X s :
  wp m (λ a t, Q a (set t s)) (λ e t, X e (set t s)) (get s) →
  wp (zoom get set m) Q X s.
Proof. unfold wp, zoom. destruct (m (get s)) as [t [a|e|]]; done. Qed.

Lemma wp_mono {S E A} (m : eff S E A) (Q Q' : A → S → Prop) (X X' : E → S → Prop) s :
  wp m Q X s →
  (∀ a s', Q a s' → Q' a s') →
  (∀ e s', X e s' → X' e s') →
  wp m Q' X' s.
Proof. unfold wp. destruct (m s) as [s' [a|e|]]; eauto. Qed.

Lemma wp_and {S E A} (m : eff S E A) (Q Q' : A → S → Prop) (X X' : E → S → Prop) s :
  wp m Q X s → wp m Q' X' s →
  wp m (λ a s', Q a s' ∧ Q' a s') (λ e s', X e s' ∧ X' e s') s.
Proof. unfold wp. destruct (m s) as [s' [a|e|]]; auto. Qed.

(** What a [wp] says of a run that is known to have succeeded. *)
Lemma wp_ok_inv {S E A} (m : eff S E A) Q X s s' a :
  wp m Q X s → m s = (s', Ok a) → Q a s'.
Proof. unfold wp. by intros Hwp Hm; rewrite Hm in Hwp. Qed.

Lemma wp_err_inv {S E A} (m : eff S E A) Q X s s' e :
  wp m Q X s → m s = (s', Err e) → X e s'.
Proof. unfold wp. by intros Hwp Hm; rewrite Hm in Hwp. Qed.

(** The value of a run, where it succeeded. *)
Definition returned {S E A} (r : S * outcome E A) : option A :=
  match r.2 with Ok a => Some a | _ => None end.

Lemma wp_returned {S E A} (m : eff S E A) Q X s a :
  wp m Q X s → returned (m s) = Some a → Q a (m s).1.
Proof. unfold wp, returned. destruct (m s) as [s' [b|e|]]; simpl; [by intros ? [= ->]|done..]. Qed.

Lemma returned_eq {S E A} (r : S * outcome E A) a : returned r = Some a → r = (r.1, Ok a).
Proof. destruct r as [s [b|e|]]; [by intros [= ->]|done..]. Qed.

Lemma wp_returns {S E A} (m : eff S E A) Q X s :
  wp m Q X s → (m s).2 ≠ Halt.
Proof. unfold wp. destruct (m s) as [s' [a|e|]]; done. Qed.

(** A loop over a list, with an invariant carried from element to element. *)
Lemma wp_mapM {S E A B} (f : A → eff S E B) (I : list B → S → Prop) X (l : list A) s :
  I [] s →
  (∀ a done_ s', a ∈ l → I done_ s' →
     wp (f a) (λ b s'', I (done_ ++ [b]) s'') X s') →
  wp (mapM f l) I X s.
Proof.
  intros HI Hf.
  enough (∀ l' pre s', l' ⊆ l → I pre s' →
    wp (mapM f l') (λ bs s'', I (pre ++ bs) s'') X s') as Hgen.
  { eapply wp_mono; [apply (Hgen l [] s); done| |]; done. }
  induction l' as [|a l' IH]; intros pre s' Hsub Hpre; simpl.
  { apply wp_ret. by rewrite app_nil_r. }
  apply wp_bind. eapply wp_mono; [apply Hf; [set_solver|done]| |done].
  intros b s'' Hb. apply wp_bind.
  eapply wp_mono; [apply (IH (pre ++ [b])); [set_solver|done]| |done].
  intros bs s3 Hbs. apply wp_ret. cbn beta in Hbs. by rewrite <-app_assoc in Hbs.
Qed.

(** The same with the processed inputs in the invariant. *)
Lemma wp_mapM_pre {S E A B} (f : A → eff S E B) (I : list A → list B → S → Prop) X (l : list A) s :
  I [] [] s →
  (∀ pre a bs s', I pre bs s' → a ∈ l → wp (f a) (λ b s'', I (pre ++ [a]) (bs ++ [b]) s'') X s') →
  wp (mapM f l) (I l) X s.
Proof.
  intros HI Hf.
  enough (∀ l' pre bs s', l' ⊆ l → I pre bs s' →
    wp (mapM f l') (λ bs' s'', I (pre ++ l') (bs ++ bs') s'') X s') as Hgen.
  { eapply wp_mono; [apply (Hgen l [] [] s); done| |]; done. }
  induction l' as [|a l' IH]; intros pre bs s' Hsub Hpre; simpl.
  { apply wp_ret. by rewrite !app_nil_r. }
  apply wp_bind. eapply wp_mono; [apply Hf; [done|set_solver]| |done].
  intros b s'' Hb. apply wp_bind.
  eapply wp_mono; [apply (IH (pre ++ [a]) (bs ++ [b])); [set_solver|exact Hb]| |done].
  intros bs' s3 Hbs. apply wp_ret. cbn beta in Hbs. by rewrite <-!app_assoc in Hbs.
Qed.

Lemma wp_map_err {S E E' A} (f : E → E') (m : eff S E A) Q X s :
  wp m Q (λ e, X (f e)) s → wp (map_err f m) Q X s.
Proof. unfold wp, map_err. destruct (m s) as [s' [a|e|]]; done. Qed.

Lemma wp_ok_or_none {S E E' A} (m : eff S E A) Q (X : E' → S → Prop) s :
  wp m (λ a, Q (Some a)) (λ _, Q None) s → wp (ok_or_none m) Q X s.
Proof. unfold wp, ok_or_none. destruct (m s) as [s' [a|e|]]; done. Qed.

Lemma wp_attempt {S E E' A} (m : eff S E A) Q (X : E' → S → Prop) s :
  wp m (λ a, Q (inr a)) (λ e, Q (inl e)) s → wp (attempt m) Q X s.
Proof. unfold wp, attempt. destruct (m s) as [s' [a|e|]]; done. Qed.

Lemma wp_or_else {S E A} (m : eff S E A) h Q X s :
  wp m Q (λ e, wp (h e) Q X) s → wp (or_else m h) Q X s.
Proof. unfold wp, or_else. destruct (m s) as [s' [a|e|]]; done. Qed.

Lemma wp_of_outcome {S E A} (r : outcome E A) Q (X : E → S → Prop) s :
  match r with Ok a => Q a s | Err e => X e s | Halt => False end → wp (of_outcome r) Q X s.
Proof. done. Qed.

Lemma wp_each {S E A} (f : A → eff S E ()) (I : list A → S → Prop) X (l : list A) s :
  I [] s →
  (∀ pre a post s', l = pre ++ a :: post → I pre s' → wp (f a) (λ _, I (pre ++ [a])) X s') →
  wp (each f l) (λ _, I l) X s.
Proof.
  intros HI Hf.
  enough (∀ post pre s', l = pre ++ post → I pre s' → wp (each f post) (λ _, I l) X s') as Hgen
    by (by apply (Hgen l [])).
  induction post as [|a post IH]; intros pre s' -> Hpre; simpl.
  { apply wp_ret. by rewrite app_nil_r. }
  apply wp_bind. eapply wp_mono; [by eapply Hf| |done]. intros [] s'' Ha.
  apply (IH (pre ++ [a])); [by rewrite <-app_assoc|done].
Qed.

(** Symbolic execution of the structural steps of an effect. *)
Ltac wp_step :=
  lazymatch goal with
  | |- wp (_ ≫= _) _ _ _ => apply wp_bind
  | |- wp (mret _) _ _ _ => apply wp_ret
  | |- wp (gets _) _ _ _ => apply wp_gets
  | |- wp (modify _) _ _ _ => apply wp_modify
  | |- wp (throw _) _ _ _ => apply wp_throw
  | |- wp (match ?x with _ => _ end) _ _ _ => destruct x eqn:?
  end.

Ltac wp_steps := repeat (wp_step; cbn beta iota).

Lemma foldl_delete_lookup `{Countable K} {A} (ks : list K) (m : gmap K A) k :
  foldl (λ m key, delete key m) m ks !! k = if decide (k ∈ ks) then None else m !! k.
Proof.
  revert m. induction ks as [|k' ks IH]; intros m; cbn [foldl]; [by rewrite decide_False by apply not_elem_of_nil|].
  rewrite IH. destruct (decide (k = k')) as [->|Hne].
  - rewrite lookup_delete_eq, (decide_True (P := k' ∈ k' :: ks)) by set_solver. by case_decide.
  - rewrite lookup_delete_ne by done. do 2 case_decide; set_solver.
Qed.

Lemma is_Some_by {A} (o : option A) : (if o then true else false) = true → is_Some o.
Proof. destruct o; [eauto|done]. Qed.

Lemma is_Some_default {A} (o : option A) a : is_Some o → o = Some (default a o).
Proof. by intros [b ->]. Qed.

(** A decidable fact about concrete data, by evaluating its decision. *)
Ltac by_vm := refine (bool_decide_eq_true_1 _ _); vm_compute; reflexivity.
