(* ===== verification/Machine.v ===== *)
(** * Machine-level data: 64-bit integers, bytes, UTF-8, ordered containers

    What the Brokkr crates use of Rust's primitive types and of [std]:
    [u64] at its width with its saturating and wrapping operations, its
    little-endian encoding, [String]'s UTF-8 invariant, [Duration] and
    [Instant], and the iteration order of [BTreeSet] and of a table sorted by
    its [u64] key. *)

From stdpp Require Import prelude gmap strings sorting.
From Stdlib Require Import Lia Strings.Byte.
From S2P Require Import Prelude.

Local Open Scope N_scope.

(** ** u64 *)

Definition u64_max : N := 18446744073709551615.

(** A proof of a boolean condition that computes to [I] on closed terms, so
    that equal values of a validated type are convertible. *)
Definition istrue_of {b : bool} (H : b = true) : Is_true b := @eq_ind_r bool true Is_true I b H.

Record u64 : Type := U64 {
  u64_val :> N;
  u64_in_range : Is_true (u64_val <=? u64_max)
}.

(** [n] as a [u64] when it fits, [d] otherwise. *)
Definition u64_of (n : N) (d : u64) : u64 :=
  match n <=? u64_max as b return (n <=? u64_max) = b → u64 with
  | true => λ H, U64 n (istrue_of H)
  | false => λ _, d
  end eq_refl.

Definition u64_0 : u64 := U64 0 I.
Definition u64_1 : u64 := U64 1 I.
Definition u64_MAX : u64 := U64 u64_max I.

(** A literal, clipped to the type's range. *)
Definition u64_sat (n : N) : u64 := u64_of n u64_MAX.

(** The low 64 bits: what a release build's [+] and [as u64] leave. *)
Definition u64_wrap (n : N) : u64 := u64_of (n mod (u64_max + 1)) u64_0.

Definition saturating_add (a b : u64) : u64 := u64_sat (a + b).
Definition saturating_sub (a b : u64) : u64 := u64_sat (a - b).
Definition wrapping_add (a b : u64) : u64 := u64_wrap (a + b).

Lemma u64_le_max (a : u64) : a ≤ u64_max.
Proof. destruct a as [n Hn]; simpl. by apply N.leb_le, Is_true_true. Qed.

Lemma u64_inj (a b : u64) : u64_val a = u64_val b → a = b.
Proof.
  destruct a as [n Hn], b as [m Hm]; simpl. intros ->.
  by rewrite (proof_irrel Hn Hm).
Qed.

#[export] Instance u64_eq_dec : EqDecision u64 := λ a b,
  match decide (u64_val a = u64_val b) with
  | left H => left (u64_inj a b H)
  | right H => right (λ E, H (f_equal u64_val E))
  end.

Lemma u64_of_cases n d : u64_of n d = d ∧ u64_max < n ∨ u64_val (u64_of n d) = n ∧ n ≤ u64_max.
Proof.
  unfold u64_of. generalize (eq_refl (n <=? u64_max)).
  enough (∀ b (E : (n <=? u64_max) = b) (f := match b as b' return (n <=? u64_max) = b' → u64 with
    | true => λ H, U64 n (istrue_of H) | false => λ _, d end),
    f E = d ∧ u64_max < n ∨ u64_val (f E) = n ∧ n ≤ u64_max) as H by apply H.
  intros [] E; simpl; [right|left]; split; try done; [by apply N.leb_le|by apply N.leb_gt].
Qed.

Lemma u64_of_val n d : n ≤ u64_max → u64_val (u64_of n d) = n.
Proof. destruct (u64_of_cases n d) as [[_ ?]|[? _]]; [lia|done]. Qed.

Lemma u64_of_default n d : ¬ n ≤ u64_max → u64_of n d = d.
Proof. destruct (u64_of_cases n d) as [[? _]|[_ ?]]; [done|lia]. Qed.

Lemma u64_sat_val n : u64_val (u64_sat n) = N.min n u64_max.
Proof.
  unfold u64_sat. destruct (decide (n ≤ u64_max)).
  - rewrite u64_of_val by done. lia.
  - rewrite u64_of_default by done. simpl. lia.
Qed.

Lemma u64_wrap_val n : u64_val (u64_wrap n) = n mod (u64_max + 1).
Proof.
  unfold u64_wrap. apply u64_of_val.
  pose proof (N.mod_lt n (u64_max + 1) ltac:(done)). lia.
Qed.

Lemma u64_of_val_id (a : u64) : u64_sat a = a.
Proof. apply u64_inj. rewrite u64_sat_val. pose proof (u64_le_max a). lia. Qed.

Lemma saturating_add_val a b : u64_val (saturating_add a b) = N.min (a + b) u64_max.
Proof. apply u64_sat_val. Qed.

Lemma saturating_sub_val (a b : u64) : u64_val (saturating_sub a b) = a - b.
Proof. unfold saturating_sub. rewrite u64_sat_val. pose proof (u64_le_max a). lia. Qed.

Lemma wrapping_add_val a b : u64_val (wrapping_add a b) = (a + b) mod (u64_max + 1).
Proof. apply u64_wrap_val. Qed.

Lemma wrapping_add_small (a b : u64) : a + b ≤ u64_max → u64_val (wrapping_add a b) = a + b.
Proof. intros H. rewrite wrapping_add_val. apply N.mod_small. lia. Qed.

#[global] Opaque u64_sat u64_wrap.
#[global] Arguments u64_max : simpl never.

Create HintDb u64.
#[export] Hint Rewrite u64_sat_val u64_wrap_val u64_of_val_id saturating_add_val
  saturating_sub_val wrapping_add_val : u64.

(** Arithmetic on [u64] values: expose the operations' values and the range of
    every [u64] in sight, then decide. *)
Ltac u64_bounds :=
  repeat match goal with
  | a : u64 |- _ =>
      lazymatch goal with
      | _ : u64_val a ≤ u64_max |- _ => fail
      | _ => pose proof (u64_le_max a)
      end
  end.

Ltac u64_lia :=
  autorewrite with u64 in *; u64_bounds; unfold u64_0, u64_1, u64_MAX in *; simpl u64_val in *;
  unfold u64_max in *; lia.

(** ** Bytes *)

Notation bytes := (list byte).

Definition byte_of (n : N) : byte :=
  match Byte.of_N (n mod 256) with Some b => b | None => x00 end.

Lemma byte_of_val n : Byte.to_N (byte_of n) = n mod 256.
Proof.
  unfold byte_of. destruct (Byte.of_N (n mod 256)) as [b|] eqn:Hb.
  - by apply Byte.to_of_N.
  - apply Byte.of_N_None_iff in Hb. pose proof (N.mod_lt n 256 ltac:(done)). lia.
Qed.

Fixpoint le_bytes (k : nat) (n : N) : bytes :=
  match k with
  | O => []
  | S k => byte_of n :: le_bytes k (n / 256)
  end.

Fixpoint from_le (l : bytes) : N :=
  match l with
  | [] => 0
  | b :: l => Byte.to_N b + 256 * from_le l
  end.

(** [u64::to_le_bytes]. *)
Definition to_le_bytes (a : u64) : bytes := le_bytes 8 a.

Lemma le_bytes_length k n : length (le_bytes k n) = k.
Proof. revert n. induction k as [|k IH]; intros n; simpl; [done|]. by rewrite IH. Qed.

Lemma from_le_bytes k n : from_le (le_bytes k n) = n mod 256 ^ N.of_nat k.
Proof.
  revert n. induction k as [|k IH]; intros n; cbn [le_bytes from_le].
  { by rewrite N.pow_0_r, N.mod_1_r. }
  rewrite IH, byte_of_val, Nat2N.inj_succ, N.pow_succ_r'.
  rewrite N.Div0.mod_mul_r. done.
Qed.

Lemma from_to_le_bytes (a : u64) : from_le (to_le_bytes a) = a.
Proof.
  unfold to_le_bytes. rewrite from_le_bytes. apply N.mod_small.
  pose proof (u64_le_max a) as Ha. unfold u64_max in Ha. simpl. lia.
Qed.

(** ** Strings and UTF-8 *)

(** [str::as_bytes]. *)
Definition as_bytes (s : string) : bytes := String.list_byte_of_string s.

Definition in_range (lo hi : N) (b : byte) : bool :=
  (lo <=? Byte.to_N b) && (Byte.to_N b <=? hi).

Definition utf8_cont : byte → bool := in_range 128 191.

(** Well-formed UTF-8 (the table of the Unicode standard that [std::str]
    implements): no overlong forms, no surrogates, nothing above U+10FFFF. *)
Fixpoint utf8_valid (l : bytes) : bool :=
  match l with
  | [] => true
  | b0 :: l1 =>
      if in_range 0 127 b0 then utf8_valid l1 else
      match l1 with
      | [] => false
      | b1 :: l2 =>
          if in_range 194 223 b0 then utf8_cont b1 && utf8_valid l2 else
          match l2 with
          | [] => false
          | b2 :: l3 =>
              if in_range 224 239 b0 then
                in_range (if Byte.to_N b0 =? 224 then 160 else 128)
                         (if Byte.to_N b0 =? 237 then 159 else 191) b1
                && utf8_cont b2 && utf8_valid l3
              else
              match l3 with
              | [] => false
              | b3 :: l4 =>
                  in_range 240 244 b0
                  && in_range (if Byte.to_N b0 =? 240 then 144 else 128)
                              (if Byte.to_N b0 =? 244 then 143 else 191) b1
                  && utf8_cont b2 && utf8_cont b3 && utf8_valid l4
              end
          end
      end
  end.

(** [std::str::from_utf8]. *)
Definition from_utf8 (b : bytes) : option string :=
  if utf8_valid b then Some (String.string_of_list_byte b) else None.

Lemma from_utf8_as_bytes s : utf8_valid (as_bytes s) = true → from_utf8 (as_bytes s) = Some s.
Proof.
  intros Hv. unfold from_utf8, as_bytes in *.
  by rewrite Hv, String.string_of_list_byte_of_string.
Qed.

(** ** Time

    An [Instant] and a [Duration] are counts of nanoseconds; an instant counts
    from an arbitrary origin. *)
Definition Duration : Type := N.
Definition Instant : Type := N.

Definition from_millis (ms : N) : Duration := ms * 1000000.
Definition as_millis (d : Duration) : N := d / 1000000.

(** [now.checked_duration_since(then).unwrap_or_default()]. *)
Definition duration_since (now then_ : Instant) : Duration := now - then_.

(** ** Ordered iteration *)

(** [BTreeSet<T>] and the keys of a [BTreeMap<T, _>], ascending by the string
    [T] wraps. *)
Definition btree_iter {A} `{Countable A} (key : A → string) (s : gset A) : list A :=
  merge_sort (λ a b, String.le (key a) (key b)) (elements s).

Lemma btree_iter_elem {A} `{Countable A} (key : A → string) (s : gset A) a :
  a ∈ btree_iter key s ↔ a ∈ s.
Proof. unfold btree_iter. by rewrite merge_sort_Permutation, elem_of_elements. Qed.

Lemma btree_iter_NoDup {A} `{Countable A} (key : A → string) (s : gset A) :
  NoDup (btree_iter key s).
Proof. unfold btree_iter. rewrite merge_sort_Permutation. apply NoDup_elements. Qed.

(** A table keyed by [u64], in ascending key order. *)
Definition key_le {A} (p q : N * A) : Prop := p.1 ≤ q.1.

#[export] Instance key_le_dec {A} (p q : N * A) : Decision (key_le p q) := _ : Decision (_ ≤ _).
#[export] Instance key_le_trans {A} : Transitive (@key_le A).
Proof. intros p q r. unfold key_le. lia. Qed.
#[export] Instance key_le_total {A} : Total (@key_le A).
Proof. intros p q. unfold key_le. lia. Qed.

Definition table_asc {A} (m : gmap N A) : list (N * A) := merge_sort key_le (map_to_list m).

Definition table_first {A} (m : gmap N A) : option (N * A) := head (table_asc m).
Definition table_last {A} (m : gmap N A) : option (N * A) := last (table_asc m).
Definition table_range {A} (from : N) (m : gmap N A) : list (N * A) :=
  filter (λ p, from ≤ p.1) (table_asc m).

Lemma table_asc_elem {A} (m : gmap N A) k a : (k, a) ∈ table_asc m ↔ m !! k = Some a.
Proof. unfold table_asc. rewrite merge_sort_Permutation. apply elem_of_map_to_list. Qed.

Lemma table_asc_sorted {A} (m : gmap N A) : StronglySorted key_le (table_asc m).
Proof. apply StronglySorted_merge_sort; apply _. Qed.

Lemma table_asc_NoDup {A} (m : gmap N A) : NoDup (table_asc m).*1.
Proof. unfold table_asc. rewrite merge_sort_Permutation. apply NoDup_fst_map_to_list. Qed.

Lemma StronglySorted_impl_elem {A} (R R' : A → A → Prop) l :
  (∀ x y, x ∈ l → y ∈ l → R x y → R' x y) → StronglySorted R l → StronglySorted R' l.
Proof.
  intros HR. induction 1 as [|x l Hl IH Hx]; constructor.
  - apply IH. intros y z Hy Hz. apply HR; set_solver.
  - rewrite Forall_forall in *. intros y Hy. apply HR; [set_solver..|auto].
Qed.

Lemma StronglySorted_filter {A} (R : A → A → Prop) (P : A → Prop) `{∀ x, Decision (P x)} l :
  StronglySorted R l → StronglySorted R (filter P l).
Proof.
  induction 1 as [|x l Hl IH Hx]; [constructor|]. rewrite filter_cons. case_decide; [|done].
  constructor; [done|]. rewrite Forall_forall in *. intros y [_ Hy]%list_elem_of_filter. auto.
Qed.

Lemma StronglySorted_snoc {A} (R : A → A → Prop) l x :
  StronglySorted R l → (∀ y, y ∈ l → R y x) → StronglySorted R (l ++ [x]).
Proof.
  intros Hl Hx. apply StronglySorted_app. split_and!; [|done|repeat constructor].
  intros y z Hy ->%list_elem_of_singleton. auto.
Qed.

Lemma StronglySorted_irrefl_NoDup {A} (R : A → A → Prop) l :
  (∀ x, ¬ R x x) → StronglySorted R l → NoDup l.
Proof.
  intros HR. induction 1 as [|x l Hl IH Hx]; constructor; [|done].
  rewrite Forall_forall in Hx. intros Hin. by apply (HR x), Hx.
Qed.

Lemma table_asc_strict {A} (m : gmap N A) : StronglySorted (λ p q, p.1 < q.1) (table_asc m).
Proof.
  pose proof (table_asc_sorted m) as Hs. pose proof (table_asc_NoDup m) as Hn.
  induction Hs as [|p l Hl IH Hp]; [constructor|]. apply NoDup_cons in Hn as [Hni Hn].
  constructor; [auto|]. rewrite Forall_forall in *. intros q Hq.
  specialize (Hp q Hq). unfold key_le in Hp.
  assert (p.1 ≠ q.1); [|lia]. intros Heq. apply Hni. rewrite Heq. by apply list_elem_of_fmap_2.
Qed.

Lemma table_asc_nil {A} (m : gmap N A) : table_asc m = [] → m = ∅.
Proof.
  intros Hnil. apply map_eq. intros k. rewrite lookup_empty.
  destruct (m !! k) as [a|] eqn:Hk; [|done].
  apply table_asc_elem in Hk. rewrite Hnil in Hk. by apply elem_of_nil in Hk.
Qed.

Lemma table_last_Some {A} (m : gmap N A) k a :
  table_last m = Some (k, a) → m !! k = Some a ∧ ∀ k' a', m !! k' = Some a' → k' ≤ k.
Proof.
  unfold table_last. intros Hlast. pose proof (table_asc_sorted m) as Hs.
  apply last_Some in Hlast as [l Hl]. split.
  - apply table_asc_elem. rewrite Hl. set_solver.
  - intros k' a' Hk'. apply table_asc_elem in Hk'. rewrite Hl in Hk', Hs.
    apply elem_of_app in Hk' as [Hk'|Hk'%list_elem_of_singleton]; [|by simplify_eq].
    apply (StronglySorted_app_1_elem_of key_le l [(k, a)] (k', a') (k, a)); set_solver.
Qed.

Lemma table_last_None {A} (m : gmap N A) : table_last m = None ↔ m = ∅.
Proof.
  unfold table_last. rewrite last_None. split; [apply table_asc_nil|by intros ->].
Qed.

Lemma table_first_Some {A} (m : gmap N A) k a :
  table_first m = Some (k, a) → m !! k = Some a ∧ ∀ k' a', m !! k' = Some a' → k ≤ k'.
Proof.
  unfold table_first. intros Hh. pose proof (table_asc_sorted m) as Hs.
  destruct (table_asc m) as [|p l] eqn:Hl; simplify_eq/=.
  apply StronglySorted_cons in Hs as [Hs _]. split.
  - apply table_asc_elem. rewrite Hl. set_solver.
  - intros k' a' Hk'. apply table_asc_elem in Hk'. rewrite Hl in Hk'.
    apply elem_of_cons in Hk' as [?|Hk']; [by simplify_eq|].
    rewrite Forall_forall in Hs. by apply (Hs _ Hk').
Qed.

Lemma table_range_elem {A} from (m : gmap N A) k a :
  (k, a) ∈ table_range from m ↔ from ≤ k ∧ m !! k = Some a.
Proof. unfold table_range. by rewrite list_elem_of_filter, table_asc_elem. Qed.

Lemma table_last_unique {A} (m : gmap N A) k a :
  m !! k = Some a → (∀ k' a', m !! k' = Some a' → k' ≤ k) → table_last m = Some (k, a).
Proof.
  intros Hk Hmax. destruct (table_last m) as [[k' a']|] eqn:Hl.
  - apply table_last_Some in Hl as [Hk' Hmax'].
    assert (k = k') as -> by (specialize (Hmax _ _ Hk'); specialize (Hmax' _ _ Hk); lia).
    by simplify_eq.
  - apply table_last_None in Hl as ->. by rewrite lookup_empty in Hk.
Qed.

Lemma table_asc_fmap {A B} (f : A → B) (m : gmap N A) :
  table_asc (f <$> m) = prod_map id f <$> table_asc m.
Proof.
  apply (StronglySorted_unique_strong key_le).
  - intros [k1 b1] [k2 b2] H1 H2 Hle Hge. unfold key_le in *; simpl in *.
    assert (k1 = k2) as <- by lia. f_equal.
    apply table_asc_elem in H1. rewrite lookup_fmap in H1.
    apply list_elem_of_fmap in H2 as ([k a] & ? & Ha). apply table_asc_elem in Ha.
    simplify_eq/=. rewrite Ha in H1. by simplify_eq/=.
  - apply table_asc_sorted.
  - apply (StronglySorted_fmap _ key_le); [done|]. apply table_asc_sorted.
  - unfold table_asc. by rewrite !merge_sort_Permutation, map_to_list_fmap.
Qed.

Lemma table_first_fmap {A B} (f : A → B) (m : gmap N A) :
  table_first (f <$> m) = prod_map id f <$> table_first m.
Proof. unfold table_first. rewrite table_asc_fmap. by destruct (table_asc m). Qed.

Lemma table_last_fmap {A B} (f : A → B) (m : gmap N A) :
  table_last (f <$> m) = prod_map id f <$> table_last m.
Proof. unfold table_last. by rewrite table_asc_fmap, fmap_last. Qed.

Lemma table_range_fmap {A B} (f : A → B) from (m : gmap N A) :
  table_range from (f <$> m) = prod_map id f <$> table_range from m.
Proof.
  unfold table_range. rewrite table_asc_fmap. induction (table_asc m) as [|[k a] l IH]; [done|].
  rewrite fmap_cons, !filter_cons, IH. simpl. by case_decide.
Qed.
