(* ===== verification/Bytes.v ===== *)
(** * Byte strings as ordered keys

    The lexicographic order of [Vec<u8>] keys, the ascending iteration of a
    [BTreeMap<Vec<u8>, _>] or of a redb table with byte keys, and the prefix
    scan both are used for: a range from the prefix on, cut at the first key
    that does not start with it. *)

From stdpp Require Import prelude gmap sorting.
From Stdlib Require Import Lia Strings.Byte.
From S2P Require Import Prelude Machine.

Local Open Scope N_scope.

Lemma to_N_inj (a b : byte) : Byte.to_N a = Byte.to_N b → a = b.
Proof. intros Hab. pose proof (Byte.of_to_N a) as Ha. rewrite Hab, Byte.of_to_N in Ha. congruence. Qed.

#[export] Instance byte_eq_dec : EqDecision byte := Byte.byte_eq_dec.

#[export] Program Instance byte_countable : Countable byte := inj_countable Byte.to_N Byte.of_N _.
Next Obligation. intros b. apply Byte.of_to_N. Qed.

(** ** The order of keys *)

Fixpoint bytes_leb (a b : bytes) : bool :=
  match a, b with
  | [], _ => true
  | _ :: _, [] => false
  | x :: a, y :: b =>
      (Byte.to_N x <? Byte.to_N y) || (Byte.to_N x =? Byte.to_N y) && bytes_leb a b
  end.

Definition bytes_le (a b : bytes) : Prop := bytes_leb a b = true.

#[export] Instance bytes_le_dec a b : Decision (bytes_le a b) := _ : Decision (_ = true).

Lemma bytes_le_cons x y a b :
  bytes_le (x :: a) (y :: b) ↔ Byte.to_N x < Byte.to_N y ∨ x = y ∧ bytes_le a b.
Proof.
  unfold bytes_le. simpl. rewrite orb_true_iff, andb_true_iff, N.ltb_lt, N.eqb_eq.
  split; (intros [?|[? ?]]; [by left|right]); [|by subst]. split; [by apply to_N_inj|done].
Qed.

#[export] Instance bytes_le_trans : Transitive bytes_le.
Proof.
  intros a. induction a as [|x a IH]; intros [|y b] [|z c]; try done. rewrite !bytes_le_cons.
  intros [?|[-> ?]] [?|[-> ?]]; [left; lia|by left|by left|right]. eauto.
Qed.

#[export] Instance bytes_le_total : Total bytes_le.
Proof.
  intros a. induction a as [|x a IH]; intros [|y b]; [by left|by left|by right|].
  rewrite !bytes_le_cons. destruct (N.lt_total (Byte.to_N x) (Byte.to_N y)) as [?|[Heq|?]]; [auto| |auto].
  apply to_N_inj in Heq as ->. destruct (IH b); auto.
Qed.

#[export] Instance bytes_le_antisymm : AntiSymm (=) bytes_le.
Proof.
  intros a. induction a as [|x a IH]; intros [|y b]; [done..|]. rewrite !bytes_le_cons.
  intros [?|[-> ?]] [?|[? ?]]; [lia|subst; lia|lia|]. f_equal. auto.
Qed.

Lemma bytes_le_refl a : bytes_le a a.
Proof. by destruct (total bytes_le a a). Qed.

(** ** Prefixes *)

(** [slice::starts_with]. *)
Fixpoint starts_with (p k : bytes) : bool :=
  match p, k with
  | [], _ => true
  | _ :: _, [] => false
  | x :: p, y :: k => bool_decide (x = y) && starts_with p k
  end.

Lemma starts_with_app p k : starts_with p k = true ↔ ∃ t, k = p ++ t.
Proof.
  revert k. induction p as [|x p IH]; intros k; simpl; [naive_solver|].
  destruct k as [|y k]; [naive_solver|]. rewrite andb_true_iff, bool_decide_eq_true, IH. naive_solver.
Qed.

Lemma starts_with_le p k : starts_with p k = true → bytes_le p k.
Proof.
  intros [t ->]%starts_with_app. induction p as [|x p IH]; [by destruct t|]. simpl. rewrite bytes_le_cons. auto.
Qed.

(** Between two keys of a namespace there are only keys of that namespace. *)
Lemma starts_with_convex p a b :
  bytes_le p a → bytes_le a b → starts_with p b = true → starts_with p a = true.
Proof.
  revert a b. induction p as [|x p IH]; intros a b Hpa Hab Hb; [done|].
  destruct a as [|y a]; [done|]. destruct b as [|z b]; [done|]. simpl in *.
  apply andb_true_iff in Hb as [->%bool_decide_eq_true Hb]. rewrite bytes_le_cons in Hpa, Hab.
  destruct Hpa as [?|[-> ?]]; [destruct Hab as [?|[-> ?]]; lia|].
  destruct Hab as [?|[_ ?]]; [lia|]. rewrite bool_decide_eq_true_2 by done. simpl. by eapply IH.
Qed.

(** ** Ordered tables *)

Definition entry_le {A} (p q : bytes * A) : Prop := bytes_le p.1 q.1.

#[export] Instance entry_le_dec {A} (p q : bytes * A) : Decision (entry_le p q) := _ : Decision (bytes_le _ _).
#[export] Instance entry_le_trans {A} : Transitive (@entry_le A).
Proof. intros p q r. unfold entry_le. apply bytes_le_trans. Qed.
#[export] Instance entry_le_total {A} : Total (@entry_le A).
Proof. intros p q. unfold entry_le. apply (total bytes_le). Qed.

(** Ascending iteration. *)
Definition bmap_asc {A} (m : gmap bytes A) : list (bytes * A) := merge_sort entry_le (map_to_list m).

(** [range(from..)]. *)
Definition bmap_range {A} (from : bytes) (m : gmap bytes A) : list (bytes * A) :=
  filter (λ p, bytes_le from p.1) (bmap_asc m).

(** [take_while(|(k, _)| k.starts_with(prefix))], also as a loop with a [break]. *)
Fixpoint take_prefix {A} (prefix : bytes) (l : list (bytes * A)) : list (bytes * A) :=
  match l with
  | [] => []
  | p :: l => if starts_with prefix p.1 then p :: take_prefix prefix l else []
  end.

Definition prefix_scan {A} (prefix : bytes) (m : gmap bytes A) : list (bytes * A) :=
  take_prefix prefix (bmap_range prefix m).

Lemma bmap_asc_elem {A} (m : gmap bytes A) k a : (k, a) ∈ bmap_asc m ↔ m !! k = Some a.
Proof. unfold bmap_asc. rewrite merge_sort_Permutation. apply elem_of_map_to_list. Qed.

Lemma bmap_asc_sorted {A} (m : gmap bytes A) : StronglySorted entry_le (bmap_asc m).
Proof. apply StronglySorted_merge_sort; apply _. Qed.

Lemma bmap_asc_NoDup {A} (m : gmap bytes A) : NoDup (bmap_asc m).*1.
Proof. unfold bmap_asc. rewrite merge_sort_Permutation. apply NoDup_fst_map_to_list. Qed.

(** Cutting at the first foreign key loses nothing, because keys are ordered. *)
Lemma take_prefix_filter {A} (prefix : bytes) (l : list (bytes * A)) :
  StronglySorted entry_le l → (∀ p, p ∈ l → bytes_le prefix p.1) →
  take_prefix prefix l = filter (λ p, starts_with prefix p.1 = true) l.
Proof.
  induction 1 as [|p l Hl IH Hp]; intros Hle; [done|]. simpl. rewrite filter_cons.
  destruct (starts_with prefix p.1) eqn:Hs.
  - rewrite decide_True by done. f_equal. apply IH. intros q Hq. apply Hle. set_solver.
  - rewrite decide_False by done. symmetry. rewrite Forall_forall in Hp.
    assert (∀ q, q ∈ l → starts_with prefix q.1 ≠ true) as Hno.
    { intros q Hq Hsq. rewrite (starts_with_convex prefix p.1 q.1) in Hs; [done|apply Hle; set_solver|by apply Hp|done]. }
    clear -Hno. induction l as [|q l IH]; [done|]. rewrite filter_cons, decide_False by (apply Hno; set_solver).
    apply IH. intros r Hr. apply Hno. set_solver.
Qed.

Lemma prefix_scan_elem {A} (prefix : bytes) (m : gmap bytes A) k a :
  (k, a) ∈ prefix_scan prefix m ↔ m !! k = Some a ∧ starts_with prefix k = true.
Proof.
  unfold prefix_scan, bmap_range. rewrite take_prefix_filter.
  - rewrite !list_elem_of_filter, bmap_asc_elem. simpl. split; [tauto|].
    intros [? Hs]. split_and!; [done|by apply starts_with_le|done].
  - apply StronglySorted_filter, bmap_asc_sorted.
  - intros p [? _]%list_elem_of_filter. done.
Qed.

Lemma prefix_scan_sorted {A} (prefix : bytes) (m : gmap bytes A) : StronglySorted entry_le (prefix_scan prefix m).
Proof.
  unfold prefix_scan, bmap_range. rewrite take_prefix_filter.
  - by apply StronglySorted_filter, StronglySorted_filter, bmap_asc_sorted.
  - apply StronglySorted_filter, bmap_asc_sorted.
  - intros p [? _]%list_elem_of_filter. done.
Qed.

Lemma prefix_scan_NoDup {A} (prefix : bytes) (m : gmap bytes A) : NoDup (prefix_scan prefix m).*1.
Proof.
  unfold prefix_scan, bmap_range. rewrite take_prefix_filter.
  - pose proof (bmap_asc_NoDup m) as Hnd. induction (bmap_asc m) as [|p l IH]; [done|].
    apply NoDup_cons in Hnd as [Hni Hnd]. rewrite filter_cons. case_decide; [|by apply IH].
    rewrite filter_cons. case_decide; [|by apply IH]. simpl. constructor; [|by apply IH].
    intros (q & Hq & Hin)%list_elem_of_fmap. apply Hni. rewrite Hq. apply list_elem_of_fmap_2.
    by apply list_elem_of_filter in Hin as [_ [_ ?]%list_elem_of_filter].
  - apply StronglySorted_filter, bmap_asc_sorted.
  - intros p [? _]%list_elem_of_filter. done.
Qed.

(** ** A positive number as bytes, for codecs of concrete inputs *)

(** Its bits, one byte each. *)
Fixpoint pos_to_bytes (p : positive) : bytes :=
  match p with
  | xH => []
  | xO p => x00 :: pos_to_bytes p
  | xI p => x01 :: pos_to_bytes p
  end.

Fixpoint bytes_to_pos (b : bytes) : positive :=
  match b with
  | [] => xH
  | x00 :: b => xO (bytes_to_pos b)
  | _ :: b => xI (bytes_to_pos b)
  end.

Lemma bytes_to_pos_to_bytes p : bytes_to_pos (pos_to_bytes p) = p.
Proof. induction p; simpl; congruence. Qed.
