(* ===== verification/Common.v ===== *)
(** * brokkr-common: digests and identifiers

    Models [crates/brokkr-common/src/digest.rs] and [ids.rs]: content digests
    with their validation, verification and textual form, and the validated
    identifiers of workers, jobs and tenants.  SHA-256 and its hexadecimal
    encoding ([sha2], [hex]) are a parameter. *)

From stdpp Require Import prelude gmap strings pretty.
From Stdlib Require Import Lia Ascii.
From S2P Require Import Prelude Machine.

Local Open Scope N_scope.

(** ** Machine integers and decimal text *)

(** [x as i64] for a [usize]. *)
Definition as_i64 (n : N) : Z := if n <? 2 ^ 63 then Z.of_N n else (Z.of_N n - 2 ^ 64)%Z.

Definition i64_ok (z : Z) : Prop := (- 2 ^ 63 ≤ z < 2 ^ 63)%Z.

Definition digit_val (c : ascii) : option N :=
  let n := N_of_ascii c in
  if (48 <=? n) && (n <=? 57) then Some (n - 48) else None.

(** The value of a run of decimal digits, added to [acc]. *)
Fixpoint digits (acc : N) (s : string) : option N :=
  match s with
  | EmptyString => Some acc
  | String c s => d ← digit_val c; digits (10 * acc + d) s
  end.

Definition parse_N (s : string) : option N :=
  match s with EmptyString => None | _ => digits 0 s end.

(** [str::parse::<i64>]: an optional sign, at least one digit, in range. *)
Definition parse_i64 (s : string) : option Z :=
  match s with
  | String "-" s => n ← parse_N s; if n <=? 2 ^ 63 then Some (- Z.of_N n)%Z else None
  | String "+" s => n ← parse_N s; if n <? 2 ^ 63 then Some (Z.of_N n) else None
  | _ => n ← parse_N s; if n <? 2 ^ 63 then Some (Z.of_N n) else None
  end.

(** [i64]'s [Display]. *)
Definition show_i64 (z : Z) : string :=
  if (z <? 0)%Z then "-" +:+ pretty (Z.to_N (- z)) else pretty (Z.to_N z).

Lemma digit_val_char n : n < 10 → digit_val (pretty_N_char n) = Some n.
Proof.
  intros Hn. assert (n ∈ [0; 1; 2; 3; 4; 5; 6; 7; 8; 9]) as Hin.
  { rewrite !elem_of_cons. lia. }
  rewrite !elem_of_cons, elem_of_nil in Hin. naive_solver.
Qed.

Lemma digits_pretty_go x s : digits 0 (pretty_N_go x s) = digits x s.
Proof.
  revert s. induction (N.lt_wf_0 x) as [x _ IH]; intros s.
  destruct (decide (x = 0)) as [->|Hx]; [done|].
  rewrite pretty_N_go_step by lia. rewrite IH by (apply N.div_lt; lia). cbn [digits].
  rewrite digit_val_char by (apply N.mod_lt; lia). simpl. f_equal.
  pose proof (N.div_mod x 10 ltac:(lia)). lia.
Qed.

Lemma pretty_N_first (x : N) : ∃ c s, pretty x = String c s ∧ is_Some (digit_val c).
Proof.
  unfold pretty, pretty_N. case_decide as Hx; [by exists "0"%char, ""|].
  assert (∀ y s, (∃ c t, s = String c t ∧ is_Some (digit_val c)) →
    ∃ c t, pretty_N_go y s = String c t ∧ is_Some (digit_val c)) as Hgo.
  { intros y. induction (N.lt_wf_0 y) as [y _ IH]; intros s Hs. destruct (decide (y = 0)) as [->|Hy]; [done|].
    rewrite pretty_N_go_step by lia. apply IH; [apply N.div_lt; lia|]. do 2 eexists. split; [done|].
    rewrite digit_val_char by (apply N.mod_lt; lia). eauto. }
  rewrite pretty_N_go_step by lia. apply Hgo. do 2 eexists. split; [done|].
  rewrite digit_val_char by (apply N.mod_lt; lia). eauto.
Qed.

Lemma parse_pretty (x : N) : parse_N (pretty x) = Some x.
Proof.
  destruct (pretty_N_first x) as (c & s & Hp & _). unfold parse_N. rewrite Hp, <-Hp.
  unfold pretty, pretty_N. case_decide as Hx; [by subst|]. by rewrite digits_pretty_go.
Qed.

(** What is printed parses back. *)
Lemma parse_show_i64 z : i64_ok z → parse_i64 (show_i64 z) = Some z.
Proof.
  unfold i64_ok, show_i64. intros Hz. destruct (Z.ltb_spec z 0).
  - change (parse_i64 ("-" +:+ pretty (Z.to_N (- z)))) with
      (n ← parse_N (pretty (Z.to_N (- z))); if n <=? 2 ^ 63 then Some (- Z.of_N n)%Z else None).
    rewrite parse_pretty. simpl. destruct (N.leb_spec (Z.to_N (- z)) (2 ^ 63)); [|lia].
    f_equal. lia.
  - destruct (pretty_N_first (Z.to_N z)) as (c & s & Hp & [d Hd]).
    assert (parse_i64 (pretty (Z.to_N z)) =
      (n ← parse_N (pretty (Z.to_N z)); if n <? 2 ^ 63 then Some (Z.of_N n) else None)) as ->.
    { rewrite Hp. destruct c as [[] [] [] [] [] [] [] []]; done. }
    rewrite parse_pretty. simpl. destruct (N.ltb_spec (Z.to_N z) (2 ^ 63)); [|lia]. f_equal. lia.
Qed.

(** ** Digests *)

(** [hex::encode(Sha256::digest(bytes))]. *)
Class Sha256 : Type := sha256_hex : bytes → string.

Definition SHA256_HEX_LEN : N := 64.

Inductive DigestError : Type :=
| InvalidLength (n : N)
| InvalidHex (s : string)
| HashMismatch (declared actual : string)
| SizeMismatch (declared actual : Z)
| NegativeSize (n : Z).

Record Digest : Type := mkDigest {
  hash : string;
  size_bytes : Z
}.

#[export] Instance Digest_eq_dec : EqDecision Digest.
Proof. solve_decision. Defined.

#[export] Program Instance Digest_countable : Countable Digest :=
  inj_countable' (λ d, (hash d, size_bytes d)) (λ p, mkDigest p.1 p.2) _.
Next Obligation. by intros []. Qed.

Definition hex_char (c : ascii) : bool :=
  let n := N_of_ascii c in (48 <=? n) && (n <=? 57) || (97 <=? n) && (n <=? 102).

(** [hash.bytes().all(..)]. *)
Fixpoint all_chars (p : ascii → bool) (s : string) : bool :=
  match s with EmptyString => true | String c s => p c && all_chars p s end.

Definition str_bytes (s : string) : N := N.of_nat (String.length s).

(** The documented shape of a SHA-256 in hexadecimal. *)
Class Sha256Spec `{Sha256} : Prop :=
  sha256_shape b : str_bytes (sha256_hex b) = SHA256_HEX_LEN ∧ all_chars hex_char (sha256_hex b) = true.

Definition Digest_new (hash : string) (size_bytes : Z) : outcome DigestError Digest :=
  if negb (str_bytes hash =? SHA256_HEX_LEN) then Err (InvalidLength (str_bytes hash))
  else if negb (all_chars hex_char hash) then Err (InvalidHex hash)
  else if (size_bytes <? 0)%Z then Err (NegativeSize size_bytes)
  else Ok (mkDigest hash size_bytes).

Section digest.
Context `{Sha256}.

Definition Digest_of (b : bytes) : Digest :=
  mkDigest (sha256_hex b) (as_i64 (N.of_nat (length b))).

Definition Digest_verify (d : Digest) (b : bytes) : outcome DigestError () :=
  let actual_size := as_i64 (N.of_nat (length b)) in
  if negb (actual_size =? size_bytes d)%Z then Err (SizeMismatch (size_bytes d) actual_size)
  else
    let actual := sha256_hex b in
    if negb (String.eqb actual (hash d)) then Err (HashMismatch (hash d) actual)
    else Ok ().

End digest.

(** [Display for Digest]. *)
Definition Digest_display (d : Digest) : string := hash d +:+ "/" +:+ show_i64 (size_bytes d).

(** [str::split_once]. *)
Fixpoint split_once (c : ascii) (s : string) : option (string * string) :=
  match s with
  | EmptyString => None
  | String c' s =>
      if decide (c' = c) then Some (EmptyString, s)
      else p ← split_once c s; Some (String c' p.1, p.2)
  end.

(** [FromStr for Digest]. *)
Definition Digest_from_str (s : string) : outcome DigestError Digest :=
  match split_once "/" s with
  | None => Err (InvalidHex ("expected '<hex>/<size>', got " +:+ s))
  | Some (h, size) =>
      match parse_i64 size with
      | None => Err (InvalidHex ("invalid size " +:+ size))
      | Some n => Digest_new h n
      end
  end.

(** A digest the constructors produce. *)
Definition digest_ok (d : Digest) : Prop :=
  str_bytes (hash d) = SHA256_HEX_LEN ∧ all_chars hex_char (hash d) = true ∧ (0 ≤ size_bytes d < 2 ^ 63)%Z.

Lemma Digest_new_ok h n d : i64_ok n → Digest_new h n = Ok d ↔ d = mkDigest h n ∧ digest_ok d.
Proof.
  unfold Digest_new, digest_ok, i64_ok. intros Hn.
  destruct (N.eqb_spec (str_bytes h) SHA256_HEX_LEN) as [Hl|Hl]; simpl.
  2:{ split; [done|]. intros (-> & ? & _). by destruct Hl. }
  destruct (all_chars hex_char h) eqn:Hx; simpl.
  2:{ split; [done|]. intros (-> & _ & Hx' & _). simpl in Hx'. congruence. }
  destruct (Z.ltb_spec n 0).
  - split; [done|]. intros (-> & _ & _ & ?). simpl in *. lia.
  - split; [intros [= <-]; simpl; split_and!; [done..|lia|lia]|]. by intros (-> & _).
Qed.

Lemma hex_not_slash s t : all_chars hex_char s = true → split_once "/" (s +:+ String "/" t) = Some (s, t).
Proof.
  induction s as [|c s IH]; simpl; [done|]. intros [Hc Hs]%andb_true_iff.
  case_decide as Heq; [subst c; done|]. by rewrite IH.
Qed.

Lemma parse_i64_ok s z : parse_i64 s = Some z → i64_ok z.
Proof.
  assert (∀ t, (n ← parse_N t; if n <? 2 ^ 63 then Some (Z.of_N n) else None) = Some z → i64_ok z) as Hpos.
  { intros t (n & _ & Hz)%bind_Some. destruct (N.ltb_spec n (2 ^ 63)); simplify_eq. unfold i64_ok. lia. }
  assert (∀ t, (n ← parse_N t; if n <=? 2 ^ 63 then Some (- Z.of_N n)%Z else None) = Some z → i64_ok z) as Hneg.
  { intros t (n & _ & Hz)%bind_Some. destruct (N.leb_spec n (2 ^ 63)); simplify_eq. unfold i64_ok. lia. }
  unfold parse_i64. destruct s as [|[[] [] [] [] [] [] [] []] s]; eauto.
Qed.

(** A blob verifies against its own digest and no other. *)
Lemma Digest_verify_ok `{Sha256} d b : Digest_verify d b = Ok () ↔ d = Digest_of b.
Proof.
  unfold Digest_verify, Digest_of. destruct d as [h n]; simpl.
  destruct (Z.eqb_spec (as_i64 (N.of_nat (length b))) n) as [<-|Hn]; simpl; [|naive_solver].
  destruct (String.eqb_spec (sha256_hex b) h) as [<-|Hh]; simpl; naive_solver.
Qed.

Lemma Digest_verify_total `{Sha256} d b : Digest_verify d b = Ok () ∨ ∃ e, Digest_verify d b = Err e.
Proof. unfold Digest_verify. repeat case_match; eauto. Qed.

Lemma Digest_of_ok `{Sha256Spec} b : N.of_nat (length b) < 2 ^ 63 → digest_ok (Digest_of b).
Proof.
  intros Hb. assert (as_i64 (N.of_nat (length b)) = Z.of_nat (length b)) as Hlen.
  { unfold as_i64. destruct (N.ltb_spec (N.of_nat (length b)) (2 ^ 63)); lia. }
  destruct (sha256_shape b) as [Hs1 Hs2]. unfold digest_ok, Digest_of; simpl; rewrite Hlen; split_and!; [done|done|lia|lia].
Qed.

(** Digests: a blob verifies against exactly its own digest, which is
    well formed; a digest prints to text that parses back to it; and whatever
    text parses is a well-formed digest (64 lowercase hex digits, a non-negative
    size). *)
Theorem digest_codec `{Sha256Spec} (d : Digest) (b : bytes) (s : string) :
  (N.of_nat (length b) < 2 ^ 63 → digest_ok (Digest_of b) ∧ (Digest_verify d b = Ok () ↔ d = Digest_of b)) ∧
  (digest_ok d → Digest_from_str (Digest_display d) = Ok d) ∧
  (∀ d', Digest_from_str s = Ok d' → digest_ok d').
Proof.
  split_and!.
  - intros Hb. split; [by apply Digest_of_ok|apply Digest_verify_ok].
  - intros (Hl & Hx & Hn). unfold Digest_from_str, Digest_display.
    change ("/" +:+ show_i64 (size_bytes d)) with (String "/" (show_i64 (size_bytes d))).
    rewrite hex_not_slash by done. assert (i64_ok (size_bytes d)) as Hi by (unfold i64_ok; lia).
    rewrite parse_show_i64 by done. apply Digest_new_ok; [done|]. split; [by destruct d|done].
  - intros d'. unfold Digest_from_str. destruct (split_once _ s) as [[h size]|]; [|done].
    destruct (parse_i64 size) as [n|] eqn:Hp; [|done]. intros Hd%Digest_new_ok; [tauto|]. by eapply parse_i64_ok.
Qed.

(** A constant hash has the right shape. *)
Definition zero_hex : string := "0000000000000000000000000000000000000000000000000000000000000000".

Lemma digest_codec_witness :
  Digest_from_str (Digest_display (mkDigest zero_hex 42)) = Ok (mkDigest zero_hex 42).
Proof.
  assert (@Sha256Spec (λ _, zero_hex)) as Hs by by intros b.
  refine (proj1 (proj2 (@digest_codec _ Hs (mkDigest zero_hex 42) [] "")) _). by split.
Defined.

(** ** Identifiers *)

Definition ID_MAX_LEN : N := 128.

Inductive IdError : Type :=
| IdEmpty
| TooLong (max len : N).

Definition ident_ok (s : string) : bool := negb (String.eqb s "") && (str_bytes s <=? ID_MAX_LEN).

(** A validated identifier. *)
Record Ident : Type := Ident_mk {
  id_str : string;
  id_valid : Is_true (ident_ok id_str)
}.

Definition WorkerId : Type := Ident.
Definition JobId : Type := Ident.
Definition TenantId : Type := Ident.

Definition Ident_new (inner : string) : outcome IdError Ident :=
  match ident_ok inner as b return ident_ok inner = b → outcome IdError Ident with
  | true => λ H, Ok (Ident_mk inner (istrue_of H))
  | false => λ _, Err (if String.eqb inner "" then IdEmpty else TooLong ID_MAX_LEN (str_bytes inner))
  end eq_refl.

Definition WorkerId_new : string → outcome IdError WorkerId := Ident_new.
Definition JobId_new : string → outcome IdError JobId := Ident_new.
Definition TenantId_new : string → outcome IdError TenantId := Ident_new.

Definition DEFAULT_TENANT : string := "default".
Definition TenantId_default : TenantId := Ident_mk DEFAULT_TENANT I.

Lemma Ident_inj (a b : Ident) : id_str a = id_str b → a = b.
Proof. destruct a as [s Hs], b as [s' Hs']; simpl. intros ->. by rewrite (proof_irrel Hs Hs'). Qed.

#[export] Instance Ident_eq_dec : EqDecision Ident := λ a b,
  match decide (id_str a = id_str b) with
  | left H => left (Ident_inj a b H)
  | right H => right (λ E, H (f_equal id_str E))
  end.

Lemma Ident_new_id_str (a : Ident) : Ident_new (id_str a) = Ok a.
Proof.
  destruct a as [s Hs]. cbn [id_str]. unfold Ident_new. generalize (eq_refl (ident_ok s)).
  enough (∀ b (E : ident_ok s = b), b = true →
    match b as b' return (ident_ok s = b' → outcome IdError Ident) with
    | true => λ H, Ok (Ident_mk s (istrue_of H))
    | false => λ _, Err (if String.eqb s "" then IdEmpty else TooLong ID_MAX_LEN (str_bytes s))
    end E = Ok (Ident_mk s Hs)) as H' by (intros E; apply H'; by apply Is_true_true_1).
  intros [] E Hb; [|done]. do 2 f_equal. apply proof_irrel.
Qed.

Definition Ident_of (s : string) : option Ident :=
  match Ident_new s with Ok a => Some a | _ => None end.

#[export] Program Instance Ident_countable : Countable Ident := inj_countable id_str Ident_of _.
Next Obligation. intros a. unfold Ident_of. by rewrite Ident_new_id_str. Qed.
