(* ===== verification/Redb.v ===== *)
(** * A redb table behind a concurrency limit

    The stores of [brokkr-cas] and [brokkr-control] keep one redb table each
    and guard it with a semaphore: a call first takes a permit, then runs one
    transaction on a blocking thread.  redb, tokio's semaphore and its blocking
    pool are outside the repository.  They enter as the table and a schedule of
    what goes wrong: a call finds no permit, its transaction fails, or its
    thread is lost, in each case before anything is committed. *)

From stdpp Require Import prelude gmap strings sorting.
From Stdlib Require Import Lia.
From S2P Require Import Prelude Machine.

Local Open Scope N_scope.

Inductive Fault : Type :=
| Saturated
| TxnFailed (msg : string)
| JoinFailed (msg : string).

Record RedbTable (K : Type) `{Countable K} : Type := mkRedbTable {
  rt_table : gmap K bytes;
  rt_limit : N;
  rt_faults : list (option Fault)
}.

Arguments mkRedbTable {K _ _}.
Arguments rt_table {K _ _}.
Arguments rt_limit {K _ _}.
Arguments rt_faults {K _ _}.

Section table.
Context {K : Type} `{Countable K} {E : Type}.

(** The fate of the next fallible step; a used-up schedule is free of faults. *)
Definition fate : eff (RedbTable K) E (option Fault) := λ t,
  match rt_faults t with
  | [] => (t, Ok None)
  | f :: fs => (mkRedbTable (rt_table t) (rt_limit t) fs, Ok f)
  end.

(** Acquire a permit and open the transaction. *)
Definition redb_begin (to_err : N → Fault → E) : eff (RedbTable K) E () :=
  f ← fate;
  n ← gets rt_limit;
  match f with None => mret () | Some f => throw (to_err n f) end.

Definition set_table (f : gmap K bytes → gmap K bytes) (t : RedbTable K) : RedbTable K :=
  mkRedbTable (f (rt_table t)) (rt_limit t) (rt_faults t).

(** The same rows; only the schedule has moved on. *)
Definition same_rows (t t' : RedbTable K) : Prop := rt_table t' = rt_table t ∧ rt_limit t' = rt_limit t.

Lemma wp_fate (Q : option Fault → RedbTable K → Prop) X t :
  (∀ f t', same_rows t t' → Q f t') → wp (E:=E) fate Q X t.
Proof. intros HQ. unfold wp, fate. destruct (rt_faults t); simpl; by apply HQ. Qed.

Lemma wp_redb_begin to_err (Q : () → RedbTable K → Prop) (X : E → RedbTable K → Prop) t :
  (∀ t', same_rows t t' → Q () t') →
  (∀ f t', same_rows t t' → X (to_err (rt_limit t) f) t') →
  wp (redb_begin to_err) Q X t.
Proof.
  intros HQ HX. unfold redb_begin. wp_step. apply wp_fate. intros f t' Ht'. wp_steps; [|by apply HQ].
  destruct Ht' as [? Hl]. rewrite Hl. by apply HX.
Qed.

End table.

(** ** Tables keyed by [&str], in ascending key order *)

Definition skey_le {A} (p q : string * A) : Prop := String.le p.1 q.1.

#[export] Instance skey_le_dec {A} (p q : string * A) : Decision (skey_le p q) := _ : Decision (String.le _ _).

Definition stable_asc {A} (m : gmap string A) : list (string * A) := merge_sort skey_le (map_to_list m).

Lemma stable_asc_elem {A} (m : gmap string A) k a : (k, a) ∈ stable_asc m ↔ m !! k = Some a.
Proof. unfold stable_asc. rewrite merge_sort_Permutation. apply elem_of_map_to_list. Qed.

Lemma stable_asc_NoDup {A} (m : gmap string A) : NoDup (stable_asc m).*1.
Proof. unfold stable_asc. rewrite merge_sort_Permutation. apply NoDup_fst_map_to_list. Qed.
