(* ===== verification/Cas.v ===== *)
(** * brokkr-cas: the store interface and its two backends

    Models [crates/brokkr-cas/src/traits.rs], [error.rs], [in_memory.rs] and
    [redb_backend.rs].  [Cas] is the trait; [CasSpec] is what every backend and
    decorator promises of the three REAPI operations, in terms of the set of
    digests a store holds; [CasListSpec] is what enumeration and deletion
    promise to the garbage collector.

    The contract speaks of a digest's hash, never of the identity of the stored
    bytes: SHA-256 is a parameter and is not assumed injective.  The text an
    error is rendered to is a parameter too. *)

From stdpp Require Import prelude gmap strings.
From Stdlib Require Import Lia.
From S2P Require Import Prelude Machine Bytes Common Redb.

Local Open Scope N_scope.

(** ** Errors and results *)

Inductive CasError : Type :=
| CasNotFound (d : Digest)
| CasDigest (e : DigestError)
| CasIo (msg : string)
| CasRedb (msg : string)
| CasOther (msg : string)
| CasThroughputLimit (limit : N)
| CasNotLeader (leader leader_addr : option string).

(** [Display] of the error types. *)
Class ErrText : Type := {
  digest_error_text : DigestError → string;
  cas_error_text : CasError → string
}.

Record UpdateResult : Type := mkUpdateResult {
  ur_digest : Digest;
  ur_status : outcome string ()
}.

Record CasStats : Type := mkCasStats {
  objects : u64;
  cas_bytes : u64
}.

(** [status.is_ok()]. *)
Definition status_ok (r : UpdateResult) : bool :=
  match ur_status r with Ok _ => true | _ => false end.

(** ** The trait *)

Class Cas (C : Type) : Type := {
  find_missing_blobs : list Digest → eff C CasError (list Digest);
  batch_update_blobs : list (Digest * bytes) → eff C CasError (list UpdateResult);
  batch_read_blobs : list Digest → eff C CasError (list (outcome CasError bytes));
  list_digests : eff C CasError (list Digest);
  delete_blob : Digest → eff C CasError ()
}.

(** The provided methods; [stats] is not used through the trait by other stores. *)
Definition default_list_digests {C} : eff C CasError (list Digest) := mret [].
Definition default_delete_blob {C} (_ : Digest) : eff C CasError () := mret ().

(** [.sum()] over [u64], which wraps in a release build. *)
Definition sum_u64 (l : list N) : u64 := u64_wrap (foldr N.add 0 l).

Definition default_stats {C} `{Cas C} : eff C CasError CasStats :=
  digests ← list_digests;
  mret (mkCasStats (u64_wrap (N.of_nat (length digests)))
                   (sum_u64 ((λ d, Z.to_N (size_bytes d)) <$> digests))).

(** ** The contract *)

(** No Rust slice is longer than [isize::MAX]. *)
Definition blob_fits (b : bytes) : Prop := N.of_nat (length b) < 2 ^ 63.

(** The answer to a read of [d]: bytes with its hash if held, else a miss. *)
Definition read_answer `{Sha256} (held : bool) (d : Digest) (r : outcome CasError bytes) : Prop :=
  match r with
  | Ok b => held = true ∧ sha256_hex b = hash d ∧ blob_fits b
  | Err e => held = false ∧ e = CasNotFound d
  | Halt => False
  end.

(** What a batch of writes did, given when a store is sound and what it holds:
    one result per entry in order, [Ok] only for a blob that matches its digest
    and is held from then on; nothing lost; nothing gained but entries of the
    batch that match their digest. *)
Definition update_post {C} `{Sha256} (ok : C → Prop) (has : C → Digest → bool) (c : C)
    (bs : list (Digest * bytes)) (rs : list UpdateResult) (c' : C) : Prop :=
  ok c'
  ∧ Forall2 (λ p r, ur_digest r = p.1 ∧
               (status_ok r = true → p.1 = Digest_of p.2 ∧ has c' p.1 = true)) bs rs
  ∧ (∀ d, has c d = true → has c' d = true)
  ∧ (∀ d, has c' d = true → has c d = true ∨
       ∃ p r, (p, r) ∈ zip bs rs ∧ status_ok r = true ∧ hash p.1 = hash d).

Lemma update_post_nil {C} `{Sha256} (ok : C → Prop) has c : ok c → update_post ok has c [] [] c.
Proof. intros Hok. split_and!; [done|constructor|done|]. intros d. by left. Qed.

Lemma update_post_snoc {C} `{Sha256} (ok : C → Prop) has c bs rs c1 p r c2 :
  update_post ok has c bs rs c1 →
  ok c2 →
  ur_digest r = p.1 →
  (status_ok r = true → p.1 = Digest_of p.2 ∧ has c2 p.1 = true) →
  (∀ d, has c1 d = true → has c2 d = true) →
  (∀ d, has c2 d = true → has c1 d = true ∨ status_ok r = true ∧ hash p.1 = hash d) →
  update_post ok has c (bs ++ [p]) (rs ++ [r]) c2.
Proof.
  intros (_ & Hrs & Hup & Hdown) Hok Hd Hr Hup2 Hdown2. split_and!; [done| |by auto|].
  - apply Forall2_app; [|apply Forall2_cons; split; [by split|constructor]]. eapply Forall2_impl; [exact Hrs|].
    intros q r' [? Hq]. split; [done|]. intros Hs. destruct (Hq Hs). split; [done|auto].
  - intros d Hd2. destruct (Hdown2 d Hd2) as [Hd1|[Hp Hh]].
    + destruct (Hdown d Hd1) as [?|(q & r' & Hq & Hr')]; [by left|right].
      exists q, r'. rewrite zip_with_app by (by eapply Forall2_length). split; [set_solver|done].
    + right. exists p, r. rewrite zip_with_app by (by eapply Forall2_length). split; [set_solver|done].
Qed.

Class CasSpec (C : Type) `{Cas C, Sha256} : Type := {
  cas_ok : C → Prop;
  cas_has : C → Digest → bool;
  find_missing_spec ds c :
    cas_ok c →
    wp (find_missing_blobs ds)
       (λ m c', (cas_ok c' ∧ ∀ d, cas_has c' d = cas_has c d)
                ∧ m ≡ₚ filter (λ d, cas_has c d = false) ds)
       (λ _ c', cas_ok c' ∧ ∀ d, cas_has c' d = cas_has c d) c;
  batch_read_spec ds c :
    cas_ok c →
    wp (batch_read_blobs ds)
       (λ rs c', (cas_ok c' ∧ ∀ d, cas_has c' d = cas_has c d)
                 ∧ Forall2 (λ d r, read_answer (cas_has c d) d r) ds rs)
       (λ _ c', cas_ok c' ∧ ∀ d, cas_has c' d = cas_has c d) c;
  batch_update_spec bs c :
    cas_ok c → Forall (λ p, blob_fits p.2) bs →
    wp (batch_update_blobs bs)
       (update_post cas_ok cas_has c bs)
       (λ _ c', cas_ok c' ∧ ∀ d, cas_has c' d = cas_has c d) c
}.

(** What a call that writes nothing leaves behind. *)
Definition cas_keeps {C} `{CasSpec C} (c c' : C) : Prop :=
  cas_ok c' ∧ ∀ d, cas_has c' d = cas_has c d.

(** Enumeration is complete and deletion exact on what is enumerated. *)
Class CasListSpec (C : Type) `{CasSpec C} : Type := {
  cas_listed : C → gset Digest;
  listed_has c d : cas_ok c → d ∈ cas_listed c → cas_has c d = true;
  has_listed c d : cas_ok c → cas_has c d = true → ∃ d', d' ∈ cas_listed c ∧ hash d' = hash d;
  list_digests_spec c :
    cas_ok c →
    wp list_digests
       (λ ds c', (cas_keeps c c' ∧ cas_listed c' = cas_listed c) ∧ ds ≡ₚ elements (cas_listed c))
       (λ _ c', cas_keeps c c' ∧ cas_listed c' = cas_listed c) c;
  delete_blob_spec d c :
    cas_ok c → d ∈ cas_listed c →
    wp (delete_blob d)
       (λ _ c', cas_ok c' ∧ cas_listed c' = cas_listed c ∖ {[d]})
       (λ _ c', cas_ok c' ∧ cas_listed c' = cas_listed c) c
}.

(** ** Sessions *)

Inductive CasCall : Type :=
| CallFind (ds : list Digest)
| CallUpdate (bs : list (Digest * bytes))
| CallRead (ds : list Digest).

Definition call_fits (op : CasCall) : Prop :=
  match op with CallUpdate bs => Forall (λ p, blob_fits p.2) bs | _ => True end.

Section sessions.
Context {C : Type} `{CasSpec C}.

Definition cas_call (op : CasCall) (c : C) : C :=
  match op with
  | CallFind ds => (find_missing_blobs ds c).1
  | CallUpdate bs => (batch_update_blobs bs c).1
  | CallRead ds => (batch_read_blobs ds c).1
  end.

Definition cas_run (ops : list CasCall) (c : C) : C := foldl (λ c op, cas_call op c) c ops.

(** No call loses a blob, whether it succeeds or fails. *)
Lemma cas_call_keeps op c :
  cas_ok c → call_fits op →
  cas_ok (cas_call op c) ∧ ∀ d, cas_has c d = true → cas_has (cas_call op c) d = true.
Proof.
  intros Hok Hfit. destruct op as [ds|bs|ds]; simpl in *.
  - pose proof (find_missing_spec ds c Hok) as Hs. unfold wp in Hs.
    destruct (find_missing_blobs ds c) as [c' [m|e|]]; [destruct Hs as [[? Hh] _]|destruct Hs as [? Hh]|done];
      (split; [done|intros d; simpl; by rewrite Hh]).
  - pose proof (batch_update_spec bs c Hok Hfit) as Hs. unfold wp in Hs.
    destruct (batch_update_blobs bs c) as [c' [m|e|]]; [destruct Hs as (? & _ & ? & _)|destruct Hs as [? Hh]|done]; [done|].
    split; [done|intros d; simpl; by rewrite Hh].
  - pose proof (batch_read_spec ds c Hok) as Hs. unfold wp in Hs.
    destruct (batch_read_blobs ds c) as [c' [m|e|]]; [destruct Hs as [[? Hh] _]|destruct Hs as [? Hh]|done];
      (split; [done|intros d; simpl; by rewrite Hh]).
Qed.

Lemma cas_run_keeps ops c :
  cas_ok c → Forall call_fits ops →
  cas_ok (cas_run ops c) ∧ ∀ d, cas_has c d = true → cas_has (cas_run ops c) d = true.
Proof.
  intros Hok Hfit. revert c Hok. induction Hfit as [|op ops Hop Hops IH]; intros c Hok; simpl; [done|].
  destruct (cas_call_keeps op c Hok Hop) as [Hok1 Hk1]. destruct (IH _ Hok1) as [Hok2 Hk2]. auto.
Qed.

End sessions.
