(* ===== verification/CasBackends.v ===== *)
(** * brokkr-cas: the in-memory and the redb-backed store

    Models [crates/brokkr-cas/src/in_memory.rs] and [redb_backend.rs] and shows
    that both keep the contract of the [Cas] trait.  The in-memory store is
    keyed by the whole digest, the redb store by its hash alone.

    A lock of the in-memory store is poisoned only by a panic inside one of its
    critical sections, which none of them has; the order of a [HashMap]'s keys
    is unspecified, and no theorem depends on the one chosen here. *)

From stdpp Require Import prelude gmap strings.
From Stdlib Require Import Lia.
From S2P Require Import Prelude Machine Bytes Common Redb Cas.

Local Open Scope N_scope.

(** ** In memory *)

Record InMemoryCas : Type := mkInMemoryCas { im_blobs : gmap Digest bytes }.

Definition InMemoryCas_new : InMemoryCas := mkInMemoryCas ∅.
Definition InMemoryCas_len (c : InMemoryCas) : N := N.of_nat (size (im_blobs c)).
Definition InMemoryCas_is_empty (c : InMemoryCas) : bool := InMemoryCas_len c =? 0.

Section in_memory.
Context `{Sha256, ErrText}.

Definition im_find_missing_blobs (digests : list Digest) : eff InMemoryCas CasError (list Digest) :=
  guard_ ← gets im_blobs;
  mret (filter (λ d, guard_ !! d = None) digests).

Definition im_update_one (p : Digest * bytes) : eff InMemoryCas CasError UpdateResult :=
  let '(digest, b) := p in
  match Digest_verify digest b with
  | Ok _ =>
      modify (λ c, mkInMemoryCas (<[digest := b]> (im_blobs c)));;
      mret (mkUpdateResult digest (Ok ()))
  | Err e => mret (mkUpdateResult digest (Err (digest_error_text e)))
  | Halt => halt
  end.

Definition im_batch_update_blobs (blobs : list (Digest * bytes)) :
    eff InMemoryCas CasError (list UpdateResult) :=
  mapM im_update_one blobs.

Definition im_batch_read_blobs (digests : list Digest) :
    eff InMemoryCas CasError (list (outcome CasError bytes)) :=
  guard_ ← gets im_blobs;
  mret ((λ d, match guard_ !! d with Some b => Ok b | None => Err (CasNotFound d) end) <$> digests).

Definition im_list_digests : eff InMemoryCas CasError (list Digest) :=
  gets (λ c, elements (dom (im_blobs c))).

Definition im_delete_blob (digest : Digest) : eff InMemoryCas CasError () :=
  modify (λ c, mkInMemoryCas (delete digest (im_blobs c))).

#[export] Instance InMemoryCas_cas : Cas InMemoryCas := {
  find_missing_blobs := im_find_missing_blobs;
  batch_update_blobs := im_batch_update_blobs;
  batch_read_blobs := im_batch_read_blobs;
  list_digests := im_list_digests;
  delete_blob := im_delete_blob
}.

End in_memory.

(** ** redb *)

Definition DEFAULT_REDB_CAS_CONCURRENCY : N := 64.

Definition RedbCas : Type := RedbTable string.

(** [RedbCas::open_with_limit] on the rows already on disk. *)
Definition RedbCas_open_with_limit (rows : gmap string bytes) (max_concurrent : N)
    (faults : list (option Fault)) : RedbCas := mkRedbTable rows max_concurrent faults.

Definition RedbCas_open (rows : gmap string bytes) (faults : list (option Fault)) : RedbCas :=
  RedbCas_open_with_limit rows DEFAULT_REDB_CAS_CONCURRENCY faults.

(** [CasError::from] on redb's and the join error, and the permit check. *)
Definition cas_fault (limit : N) (f : Fault) : CasError :=
  match f with
  | Saturated => CasThroughputLimit limit
  | TxnFailed msg => CasRedb msg
  | JoinFailed msg => CasIo msg
  end.

Definition fault_text (f : Fault) : string :=
  match f with Saturated => "" | TxnFailed msg | JoinFailed msg => msg end.

Section redb_cas.
Context `{Sha256, ErrText}.

Definition rc_find_missing_blobs (digests : list Digest) : eff RedbCas CasError (list Digest) :=
  redb_begin cas_fault;;
  table ← gets rt_table;
  mret (filter (λ d, table !! hash d = None) digests).

(** One iteration of the write loop; an insert may fail on its own. *)
Definition rc_update_one (p : Digest * bytes) : eff RedbCas CasError UpdateResult :=
  let '(digest, b) := p in
  match Digest_verify digest b with
  | Ok _ =>
      f ← fate;
      match f with
      | None =>
          modify (set_table <[hash digest := b]>);;
          mret (mkUpdateResult digest (Ok ()))
      | Some f => mret (mkUpdateResult digest (Err (fault_text f)))
      end
  | Err e => mret (mkUpdateResult digest (Err (digest_error_text e)))
  | Halt => halt
  end.

Definition rc_batch_update_blobs (blobs : list (Digest * bytes)) :
    eff RedbCas CasError (list UpdateResult) :=
  redb_begin cas_fault;;
  mapM rc_update_one blobs.

Definition rc_batch_read_blobs (digests : list Digest) :
    eff RedbCas CasError (list (outcome CasError bytes)) :=
  redb_begin cas_fault;;
  table ← gets rt_table;
  mret ((λ d, match table !! hash d with
              | Some v => Ok v
              | None => Err (CasNotFound d)
              end) <$> digests).

Definition rc_stats : eff RedbCas CasError CasStats :=
  redb_begin cas_fault;;
  table ← gets rt_table;
  mret (mkCasStats (u64_wrap (N.of_nat (length (stable_asc table))))
                   (sum_u64 ((λ p, N.of_nat (length p.2)) <$> stable_asc table))).

(** The digest of a row: its key and the length of its value. *)
Definition row_digest (p : string * bytes) : option Digest :=
  match Digest_new p.1 (as_i64 (N.of_nat (length p.2))) with Ok d => Some d | _ => None end.

Definition rc_list_digests : eff RedbCas CasError (list Digest) :=
  redb_begin cas_fault;;
  table ← gets rt_table;
  mret (omap row_digest (stable_asc table)).

Definition rc_delete_blob (digest : Digest) : eff RedbCas CasError () :=
  redb_begin cas_fault;;
  modify (set_table (delete (hash digest))).

#[export] Instance RedbCas_cas : Cas RedbCas := {
  find_missing_blobs := rc_find_missing_blobs;
  batch_update_blobs := rc_batch_update_blobs;
  batch_read_blobs := rc_batch_read_blobs;
  list_digests := rc_list_digests;
  delete_blob := rc_delete_blob
}.

End redb_cas.

(** ** The contract of the in-memory store *)

Section in_memory_spec.
Context `{Sha256, ErrText}.

(** Every blob is filed under its own digest. *)
Definition im_ok (c : InMemoryCas) : Prop :=
  ∀ d b, im_blobs c !! d = Some b → d = Digest_of b ∧ blob_fits b.

Definition im_has (c : InMemoryCas) (d : Digest) : bool := bool_decide (is_Some (im_blobs c !! d)).

Lemma im_update_one_spec p c bs rs c1 :
  blob_fits p.2 → update_post im_ok im_has c bs rs c1 →
  wp (im_update_one p) (λ r, update_post im_ok im_has c (bs ++ [p]) (rs ++ [r])) (λ _ _, False) c1.
Proof.
  destruct p as [d b]. intros Hb Hpost. pose proof Hpost as (Hok & _). unfold im_update_one.
  destruct (Digest_verify_total d b) as [Hv|[e Hv]]; rewrite Hv; simpl.
  - apply Digest_verify_ok in Hv as Hd. wp_steps. unfold im_has.
    eapply update_post_snoc; [done|..]; simpl.
    + intros d' b'. simpl. rewrite lookup_insert_Some. intros [[<- <-]|[_ ?]]; [done|]. by apply Hok.
    + done.
    + intros _. split; [done|]. rewrite lookup_insert_eq. by apply bool_decide_eq_true_2.
    + intros d'. rewrite !bool_decide_eq_true, lookup_insert_is_Some. destruct (decide (d = d')); auto.
    + intros d'. rewrite !bool_decide_eq_true, lookup_insert_is_Some. naive_solver.
  - wp_steps. eapply update_post_snoc; [done|done|done|done|done|]. by left.
Qed.

#[export] Instance InMemoryCas_spec : CasSpec InMemoryCas.
Proof.
  refine {| cas_ok := im_ok; cas_has := im_has |}.
  - intros ds c Hok. simpl. unfold im_find_missing_blobs. wp_steps. split; [done|].
    erewrite list_filter_iff; [reflexivity|]. intros d. unfold im_has. simpl.
    by rewrite bool_decide_eq_false, <-eq_None_not_Some.
  - intros ds c Hok. simpl. unfold im_batch_read_blobs. wp_steps. split; [done|].
    apply Forall2_fmap_r, Forall_Forall2_diag, Forall_forall. intros d _. unfold compose, read_answer, im_has.
    destruct (im_blobs c !! d) as [b|] eqn:Hd; simpl; [|by split].
    destruct (Hok _ _ Hd) as [-> ?]. by split.
  - intros bs c Hok Hfit. simpl. unfold im_batch_update_blobs. rewrite Forall_forall in Hfit.
    apply wp_mapM_pre; [by apply update_post_nil|]. intros pre p rs c1 Hpost Hp.
    eapply wp_mono; [apply im_update_one_spec; [by apply Hfit|done]|done|done].
Defined.

#[export] Instance InMemoryCas_list_spec : CasListSpec InMemoryCas.
Proof.
  refine {| cas_listed c := dom (im_blobs c) |}.
  - intros c d _ Hd. simpl. apply bool_decide_eq_true_2. by apply elem_of_dom.
  - intros c d _ Hd%bool_decide_eq_true. exists d. by rewrite elem_of_dom.
  - intros c Hok. simpl. unfold im_list_digests. by wp_steps.
  - intros d c Hok _. simpl. unfold im_delete_blob. wp_steps. simpl. rewrite dom_delete_L. split; [|done].
    intros d' b'. simpl. rewrite lookup_delete_Some. intros [_ ?]. by apply Hok.
Defined.

End in_memory_spec.

(** ** The contract of the redb store *)

Section redb_spec.
Context `{Sha256Spec, ErrText}.

(** Every row is filed under the hash of its value. *)
Definition rc_ok (c : RedbCas) : Prop :=
  ∀ h b, rt_table c !! h = Some b → h = sha256_hex b ∧ blob_fits b.

Definition rc_has (c : RedbCas) (d : Digest) : bool := bool_decide (is_Some (rt_table c !! hash d)).

Lemma same_rows_keeps c c' : rc_ok c → same_rows c c' → rc_ok c' ∧ ∀ d, rc_has c' d = rc_has c d.
Proof. unfold rc_ok, rc_has. intros Hok [-> _]. done. Qed.

Lemma wp_rc_begin {A} (m : eff RedbCas CasError A) Q X c :
  (∀ c', same_rows c c' → wp m Q X c') →
  (∀ e c', same_rows c c' → X e c') →
  wp (redb_begin cas_fault;; m) Q X c.
Proof. intros HQ HX. apply wp_bind, wp_redb_begin; [exact HQ|]. eauto. Qed.

Lemma rc_update_one_spec p c bs rs c1 :
  blob_fits p.2 → update_post rc_ok rc_has c bs rs c1 →
  wp (rc_update_one p) (λ r, update_post rc_ok rc_has c (bs ++ [p]) (rs ++ [r])) (λ _ _, False) c1.
Proof.
  destruct p as [d b]. intros Hb Hpost. pose proof Hpost as (Hok & _). unfold rc_update_one.
  destruct (Digest_verify_total d b) as [Hv|[e Hv]]; rewrite Hv; simpl.
  2:{ wp_steps. eapply update_post_snoc; [done|done|done|done|done|]. by left. }
  apply Digest_verify_ok in Hv as ->. wp_step. apply wp_fate. intros f c2 Hc2.
  destruct (same_rows_keeps _ _ Hok Hc2) as [Hok2 Hhas]. destruct f as [f|]; wp_steps.
  { eapply update_post_snoc; [done|done|done|done|intros d'; by rewrite Hhas|]. intros d'. rewrite Hhas. by left. }
  destruct Hc2 as [Ht _]. unfold rc_has in *. eapply update_post_snoc; [done|..]; simpl.
  - intros h b'. simpl. rewrite lookup_insert_Some. intros [[<- <-]|[_ ?]]; [done|]. by apply Hok2.
  - done.
  - intros _. split; [done|]. rewrite lookup_insert_eq. by apply bool_decide_eq_true_2.
  - intros d'. rewrite !bool_decide_eq_true, lookup_insert_is_Some, Ht.
    destruct (decide (sha256_hex b = hash d')); auto.
  - intros d'. rewrite !bool_decide_eq_true, lookup_insert_is_Some, Ht. naive_solver.
Qed.

#[export] Instance RedbCas_spec : CasSpec RedbCas.
Proof.
  refine {| cas_ok := rc_ok; cas_has := rc_has |}.
  - intros ds c Hok. simpl. apply wp_rc_begin; [|intros _ c'; by apply same_rows_keeps].
    intros c' Hc'. wp_steps. split; [by apply same_rows_keeps|].
    erewrite list_filter_iff; [reflexivity|]. intros d. unfold rc_has. simpl. destruct Hc' as [-> _].
    by rewrite bool_decide_eq_false, <-eq_None_not_Some.
  - intros ds c Hok. simpl. apply wp_rc_begin; [|intros _ c'; by apply same_rows_keeps].
    intros c' Hc'. wp_steps. split; [by apply same_rows_keeps|]. destruct Hc' as [-> _].
    apply Forall2_fmap_r, Forall_Forall2_diag, Forall_forall. intros d _. unfold compose, read_answer, rc_has.
    destruct (rt_table c !! hash d) as [b|] eqn:Hd; simpl; [|by split].
    by destruct (Hok _ _ Hd) as [-> ?].
  - intros bs c Hok Hfit. simpl. apply wp_rc_begin; [|intros _ c'; by apply same_rows_keeps].
    intros c' Hc'. rewrite Forall_forall in Hfit. apply wp_mapM_pre.
    + destruct (same_rows_keeps _ _ Hok Hc') as [Hok' Hhas].
      split_and!; [done|constructor|intros d; by rewrite Hhas|intros d; rewrite Hhas; by left].
    + intros pre p rs c1 Hpost Hp.
      eapply wp_mono; [apply rc_update_one_spec; [by apply Hfit|done]|done|done].
Defined.

(** A sound row has a digest, whose hash is its key. *)
Lemma row_digest_ok h b :
  h = sha256_hex b → blob_fits b → row_digest (h, b) = Some (Digest_of b).
Proof.
  intros -> Hb. unfold row_digest. simpl.
  destruct (Digest_new _ _) as [d|e|] eqn:Hn.
  - apply Digest_new_ok in Hn as [-> _]; [done|].
    unfold as_i64, i64_ok, blob_fits in *. destruct (N.ltb_spec (N.of_nat (length b)) (2 ^ 63)); lia.
  - exfalso. unfold Digest_new, as_i64, blob_fits in *. destruct (sha256_shape b) as [Hs1 Hs2].
    rewrite Hs1, Hs2 in Hn. simpl in Hn. destruct (N.ltb_spec (N.of_nat (length b)) (2 ^ 63)); [|lia].
    destruct (Z.ltb_spec (Z.of_N (N.of_nat (length b))) 0); [lia|done].
  - unfold Digest_new in Hn. repeat case_match; done.
Qed.

Definition rc_listed (c : RedbCas) : gset Digest := list_to_set (omap row_digest (stable_asc (rt_table c))).

Lemma rc_listed_elem c d :
  rc_ok c → d ∈ rc_listed c ↔ ∃ b, rt_table c !! hash d = Some b ∧ d = Digest_of b.
Proof.
  intros Hok. unfold rc_listed. rewrite elem_of_list_to_set, list_elem_of_omap. split.
  - intros ([h b] & Hhb%stable_asc_elem & Hd). destruct (Hok _ _ Hhb) as [-> Hf].
    rewrite row_digest_ok in Hd by done. simplify_eq. by exists b.
  - intros (b & Hb & ->). exists (sha256_hex b, b). destruct (Hok _ _ Hb) as [_ Hf].
    by rewrite stable_asc_elem, row_digest_ok.
Qed.

Lemma rc_list_NoDup c : rc_ok c → NoDup (omap row_digest (stable_asc (rt_table c))).
Proof.
  intros Hok. pose proof (stable_asc_NoDup (rt_table c)) as Hn.
  assert (∀ p, p ∈ stable_asc (rt_table c) → row_digest p = Some (Digest_of p.2) ∧ p.1 = sha256_hex p.2) as Hrow.
  { intros [h b] Hp%stable_asc_elem. destruct (Hok _ _ Hp). simpl. split; [by apply row_digest_ok|done]. }
  induction (stable_asc (rt_table c)) as [|p l IH]; [constructor|]. simpl in *.
  destruct (Hrow p) as [-> Hp]; [set_solver|]. apply NoDup_cons in Hn as [Hni Hn]. constructor.
  - intros (q & Hq & Hd)%list_elem_of_omap. destruct (Hrow q) as [Hq1 Hq2]; [set_solver|].
    rewrite Hq1 in Hd. apply Hni. rewrite Hp. injection Hd as Hh _. rewrite <-Hh, <-Hq2.
    by apply list_elem_of_fmap_2.
  - apply IH; [done|]. intros q Hq. apply Hrow. set_solver.
Qed.

#[export] Instance RedbCas_list_spec : CasListSpec RedbCas.
Proof.
  refine {| cas_listed := rc_listed |}.
  - intros c d Hok (b & Hb & _)%rc_listed_elem; [|done]. simpl. apply bool_decide_eq_true_2. eauto.
  - intros c d Hok [b Hb]%bool_decide_eq_true. destruct (Hok _ _ Hb) as [Hh Hf]. exists (Digest_of b).
    rewrite rc_listed_elem by done. simpl. rewrite <-Hh. eauto.
  - intros c Hok. simpl.
    apply wp_rc_begin; [|intros _ c' Hc'; split; [by apply (same_rows_keeps c)|by destruct Hc' as [Ht _]; unfold rc_listed; rewrite Ht]].
    intros c' Hc'. wp_steps. pose proof (same_rows_keeps _ _ Hok Hc') as Hk.
    destruct Hc' as [Ht _]. unfold rc_listed. rewrite Ht. split; [done|].
    rewrite elements_list_to_set; [done|]. by apply rc_list_NoDup.
  - intros d c Hok Hd. simpl.
    apply wp_rc_begin; [|intros _ c' Hc'; split; [by apply (same_rows_keeps c)|by destruct Hc' as [Ht _]; unfold rc_listed; rewrite Ht]].
    intros c' Hc'. wp_steps. destruct (same_rows_keeps _ _ Hok Hc') as [Hok' _].
    assert (rc_ok (set_table (delete (hash d)) c')) as Hok2.
    { intros h b. simpl. rewrite lookup_delete_Some. intros [_ ?]. by apply Hok'. }
    split; [done|]. apply set_eq. intros d'.
    rewrite elem_of_difference, elem_of_singleton, !rc_listed_elem by done. simpl.
    destruct Hc' as [Ht _]. rewrite Ht. setoid_rewrite lookup_delete_Some.
    apply rc_listed_elem in Hd as (b & Hb & ->); [|done]. naive_solver congruence.
Defined.

End redb_spec.
