(* ===== verification/Bloom.v ===== *)
(** * brokkr-cas: Bloom filters and the store that consults one

    Models [crates/brokkr-cas/src/bloom.rs] and [bloom_cas.rs].  The sizing
    formulas of [Bloom::new] are floating point: what they yield, the number of
    bits and of hash functions before clamping, is a parameter.  A [Digest]
    holds 64 hexadecimal digits, so the two slices of [derive_pair] are in
    range and parse. *)

From stdpp Require Import prelude gmap strings.
From Stdlib Require Import Lia Ascii.
From S2P Require Import Prelude Machine Bytes Common Redb Cas.

Local Open Scope N_scope.

(** ** The filter *)

Record Bloom : Type := mkBloom {
  bits : list N;
  bit_len : N;
  bloom_k : N;
  items : u64
}.

(** [Bloom::new] after its floating-point formulas: [m] and [k] are
    [m_float as usize] and [k_float as u32]. *)
Definition Bloom_sized (m k : N) : Bloom :=
  let m := N.max m 64 in
  let words := (m + 63) / 64 in
  mkBloom (replicate (N.to_nat words) 0) (words * 64) (N.max k 1) u64_0.

Definition hex_val (c : ascii) : option N :=
  let n := N_of_ascii c in
  if (48 <=? n) && (n <=? 57) then Some (n - 48)
  else if (97 <=? n) && (n <=? 102) then Some (n - 87)
  else if (65 <=? n) && (n <=? 70) then Some (n - 55)
  else None.

Fixpoint hex_digits (acc : N) (s : string) : option N :=
  match s with
  | EmptyString => Some acc
  | String c s => d ← hex_val c; hex_digits (16 * acc + d) s
  end.

(** [u64::from_str_radix(s, 16)] on at most sixteen digits. *)
Definition from_str_radix_16 (s : string) : option u64 :=
  match s with
  | EmptyString => None
  | String "+" EmptyString => None
  | String "+" s => u64_wrap <$> hex_digits 0 s
  | _ => u64_wrap <$> hex_digits 0 s
  end.

Definition derive_pair (d : Digest) : u64 * u64 :=
  (default u64_0 (from_str_radix_16 (String.substring 0 16 (hash d))),
   default u64_0 (from_str_radix_16 (String.substring 16 16 (hash d)))).

Definition bit_index (b : Bloom) (h1 h2 : u64) (i : N) : N :=
  let combined := u64_wrap (h1 + u64_wrap (i * h2)) in
  u64_val combined mod bit_len b.

(** [0..k]. *)
Definition range (k : N) : list N := N.of_nat <$> seq 0 (N.to_nat k).

(** [bits[bit / 64] |= 1 << (bit % 64)]. *)
Definition set_bit (bit : N) (ws : list N) : list N :=
  alter (λ w, N.lor w (N.shiftl 1 (bit mod 64))) (N.to_nat (bit / 64)) ws.

Definition test_bit (bit : N) (ws : list N) : bool :=
  negb (N.land (default 0 (ws !! N.to_nat (bit / 64))) (N.shiftl 1 (bit mod 64)) =? 0).

Definition Bloom_insert (d : Digest) (b : Bloom) : Bloom :=
  let '(h1, h2) := derive_pair d in
  mkBloom (foldl (λ ws i, set_bit (bit_index b h1 h2 i) ws) (bits b) (range (bloom_k b)))
          (bit_len b) (bloom_k b) (saturating_add (items b) u64_1).

Definition Bloom_contains (d : Digest) (b : Bloom) : bool :=
  let '(h1, h2) := derive_pair d in
  forallb (λ i, test_bit (bit_index b h1 h2 i) (bits b)) (range (bloom_k b)).

Definition Bloom_clear (b : Bloom) : Bloom :=
  mkBloom ((λ _, 0) <$> bits b) (bit_len b) (bloom_k b) u64_0.

(** ** The decorated store *)

Record BloomCas (C : Type) : Type := mkBloomCas { bc_inner : C; bc_bloom : Bloom }.
Arguments mkBloomCas {C}.
Arguments bc_inner {C}.
Arguments bc_bloom {C}.

Definition BloomCas_new {C} (inner : C) (m k : N) : BloomCas C := mkBloomCas inner (Bloom_sized m k).

Definition rebuild_from {C} (digests : list Digest) (c : BloomCas C) : BloomCas C :=
  mkBloomCas (bc_inner c) (foldl (λ g d, Bloom_insert d g) (Bloom_clear (bc_bloom c)) digests).

Definition approximate_items {C} (c : BloomCas C) : u64 := items (bc_bloom c).

Section bloom_cas.
Context {C : Type} `{Cas C}.

Definition on_inner {A} (m : eff C CasError A) : eff (BloomCas C) CasError A :=
  zoom bc_inner (λ i c, mkBloomCas i (bc_bloom c)) m.

Definition bc_find_missing_blobs (digests : list Digest) : eff (BloomCas C) CasError (list Digest) :=
  bloom ← gets bc_bloom;
  let maybe_present := filter (λ d, Bloom_contains d bloom = true) digests in
  let definitely_missing := filter (λ d, Bloom_contains d bloom ≠ true) digests in
  match maybe_present with
  | [] => mret definitely_missing
  | _ :: _ =>
      backend_missing ← on_inner (find_missing_blobs maybe_present);
      mret (definitely_missing ++ backend_missing)
  end.

Definition bc_insert (d : Digest) (c : BloomCas C) : BloomCas C :=
  mkBloomCas (bc_inner c) (Bloom_insert d (bc_bloom c)).

Definition bc_batch_update_blobs (blobs : list (Digest * bytes)) :
    eff (BloomCas C) CasError (list UpdateResult) :=
  results ← on_inner (batch_update_blobs blobs);
  modify (λ c, foldl (λ c r, if status_ok r then bc_insert (ur_digest r) c else c) c results);;
  mret results.

Definition bc_batch_read_blobs (digests : list Digest) :
    eff (BloomCas C) CasError (list (outcome CasError bytes)) :=
  on_inner (batch_read_blobs digests).

#[export] Instance BloomCas_cas : Cas (BloomCas C) := {
  find_missing_blobs := bc_find_missing_blobs;
  batch_update_blobs := bc_batch_update_blobs;
  batch_read_blobs := bc_batch_read_blobs;
  list_digests := default_list_digests;
  delete_blob := default_delete_blob
}.

End bloom_cas.

(** ** What the filter remembers *)

(** The array has [bit_len] bits, and there is a hash function. *)
Definition bloom_wf (b : Bloom) : Prop :=
  bit_len b = 64 * N.of_nat (length (bits b)) ∧ 0 < bit_len b ∧ 0 < bloom_k b.

Lemma range_elem k i : i ∈ range k ↔ i < k.
Proof.
  unfold range. rewrite list_elem_of_fmap. split.
  - intros (n & -> & Hn%elem_of_seq). lia.
  - intros Hi. exists (N.to_nat i). rewrite elem_of_seq. lia.
Qed.

Lemma test_bit_testbit j ws :
  test_bit j ws = N.testbit (default 0 (ws !! N.to_nat (j / 64))) (j mod 64).
Proof.
  unfold test_bit. set (w := default 0 _). set (m := j mod 64). clearbody w m.
  assert (N.land w (N.shiftl 1 m) = if N.testbit w m then N.shiftl 1 m else 0) as ->.
  { apply N.bits_inj. intros i. rewrite N.land_spec, N.shiftl_1_l, N.pow2_bits_eqb.
    destruct (N.eqb_spec m i) as [<-|Hne].
    - rewrite andb_true_r. destruct (N.testbit w m) eqn:Hw; [|done]. by rewrite N.pow2_bits_true.
    - rewrite andb_false_r. destruct (N.testbit w m); [|done]. by rewrite N.pow2_bits_false. }
  destruct (N.testbit w m); [|done]. rewrite N.shiftl_1_l.
  pose proof (N.pow_nonzero 2 m ltac:(done)). by destruct (N.eqb_spec (2 ^ m) 0).
Qed.

Lemma set_bit_length j ws : length (set_bit j ws) = length ws.
Proof. apply length_alter. Qed.

(** Setting a bit in range sets that bit and no other. *)
Lemma test_set_bit j j' ws :
  j < 64 * N.of_nat (length ws) →
  test_bit j' (set_bit j ws) = (j' =? j) || test_bit j' ws.
Proof.
  intros Hj. rewrite !test_bit_testbit. unfold set_bit.
  assert (is_Some (ws !! N.to_nat (j / 64))) as [w Hw].
  { apply lookup_lt_is_Some. pose proof (N.Div0.div_lt_upper_bound j 64 (N.of_nat (length ws))). lia. }
  pose proof (N.div_mod j 64 ltac:(done)) as Hdj. pose proof (N.div_mod j' 64 ltac:(done)) as Hdj'.
  destruct (decide (j / 64 = j' / 64)) as [Hq|Hq].
  - rewrite <-Hq, list_lookup_alter_eq, Hw. simpl. rewrite N.lor_spec, N.shiftl_1_l, N.pow2_bits_eqb.
    rewrite orb_comm. f_equal.
    destruct (N.eqb_spec (j mod 64) (j' mod 64)), (N.eqb_spec j' j); subst; try done; exfalso; lia.
  - rewrite list_lookup_alter_ne by (intros ?%N2Nat.inj; done). destruct (N.eqb_spec j' j) as [->|]; [done|by simpl].
Qed.

Lemma test_set_bits (l : list N) j ws :
  Forall (λ i, i < 64 * N.of_nat (length ws)) l →
  test_bit j (foldl (λ ws i, set_bit i ws) ws l) = bool_decide (j ∈ l) || test_bit j ws.
Proof.
  revert ws. induction l as [|i l IH]; intros ws Hl; simpl; [done|].
  apply Forall_cons in Hl as [Hi Hl]. rewrite IH by (by rewrite set_bit_length).
  rewrite test_set_bit by done. rewrite orb_assoc. f_equal.
  destruct (N.eqb_spec j i) as [->|Hne]; rewrite ?orb_true_r, ?orb_false_r; symmetry.
  - apply bool_decide_eq_true_2. set_solver.
  - apply bool_decide_ext. set_solver.
Qed.

(** The bits a digest stands for. *)
Definition digest_bits (d : Digest) (b : Bloom) : list N :=
  let '(h1, h2) := derive_pair d in bit_index b h1 h2 <$> range (bloom_k b).

Lemma digest_bits_range d b : bloom_wf b → Forall (λ i, i < bit_len b) (digest_bits d b).
Proof.
  intros (_ & Hl & _). unfold digest_bits. destruct (derive_pair d) as [h1 h2].
  apply Forall_fmap, Forall_forall. intros i _. unfold bit_index. simpl. apply N.mod_lt. lia.
Qed.

Lemma digest_bits_eq d b b' :
  bit_len b = bit_len b' → bloom_k b = bloom_k b' → digest_bits d b = digest_bits d b'.
Proof. unfold digest_bits, bit_index. by intros -> ->. Qed.

Lemma Bloom_contains_bits d b :
  Bloom_contains d b = true ↔ ∀ j, j ∈ digest_bits d b → test_bit j (bits b) = true.
Proof.
  unfold Bloom_contains, digest_bits. destruct (derive_pair d) as [h1 h2].
  rewrite forallb_forall. setoid_rewrite list_elem_of_fmap. setoid_rewrite <-list_elem_of_In. naive_solver.
Qed.

Lemma Bloom_insert_bits d b j :
  bloom_wf b →
  test_bit j (bits (Bloom_insert d b)) = bool_decide (j ∈ digest_bits d b) || test_bit j (bits b).
Proof.
  intros Hwf. pose proof (digest_bits_range d b Hwf) as Hr. destruct Hwf as (Hl & _).
  unfold Bloom_insert, digest_bits in *. destruct (derive_pair d) as [h1 h2]; simpl.
  rewrite <-test_set_bits by (by rewrite <-Hl). f_equal.
  generalize (bits b). induction (range (bloom_k b)) as [|i l IH]; intros ws; simpl; [done|].
  apply IH. rewrite fmap_cons in Hr. by apply Forall_cons in Hr as [_ ?].
Qed.

Lemma Bloom_insert_shape d b :
  bit_len (Bloom_insert d b) = bit_len b ∧ bloom_k (Bloom_insert d b) = bloom_k b ∧
  length (bits (Bloom_insert d b)) = length (bits b).
Proof.
  unfold Bloom_insert. destruct (derive_pair d) as [h1 h2]; simpl. split_and!; [done|done|].
  generalize (bits b). induction (range (bloom_k b)) as [|i l IH]; intros ws; simpl; [done|].
  by rewrite IH, set_bit_length.
Qed.

Lemma Bloom_insert_wf d b : bloom_wf b → bloom_wf (Bloom_insert d b).
Proof. unfold bloom_wf. destruct (Bloom_insert_shape d b) as (-> & -> & ->). done. Qed.

Lemma Bloom_clear_wf b : bloom_wf b → bloom_wf (Bloom_clear b).
Proof. unfold bloom_wf, Bloom_clear. simpl. by rewrite length_fmap. Qed.

Lemma Bloom_sized_wf m k : bloom_wf (Bloom_sized m k).
Proof.
  unfold bloom_wf, Bloom_sized; simpl. rewrite length_replicate, N2Nat.id.
  assert (1 ≤ (N.max m 64 + 63) / 64) by (apply N.div_le_lower_bound; lia). lia.
Qed.

(** Inserting remembers the digest and forgets none. *)
Lemma Bloom_insert_contains d d' b :
  bloom_wf b →
  Bloom_contains d (Bloom_insert d b) = true ∧
  (Bloom_contains d' b = true → Bloom_contains d' (Bloom_insert d b) = true).
Proof.
  intros Hwf. destruct (Bloom_insert_shape d b) as (Hl & Hk & _).
  rewrite !Bloom_contains_bits, !(digest_bits_eq _ (Bloom_insert d b) b) by done.
  split.
  - intros j Hin. by rewrite Bloom_insert_bits, bool_decide_eq_true_2.
  - intros Hj j Hin. rewrite Bloom_insert_bits, Hj by done. apply orb_true_r.
Qed.

(** Only the hash matters. *)
Lemma Bloom_contains_hash d d' b : hash d = hash d' → Bloom_contains d b = Bloom_contains d' b.
Proof. unfold Bloom_contains, derive_pair. by intros ->. Qed.

Lemma Bloom_clear_contains d b : bloom_wf b → Bloom_contains d (Bloom_clear b) = false.
Proof.
  intros (_ & _ & Hk). apply not_true_is_false. rewrite Bloom_contains_bits. intros Hj.
  assert (∃ j, j ∈ digest_bits d (Bloom_clear b)) as [j Hin].
  { unfold digest_bits. destruct (derive_pair d) as [h1 h2].
    eexists. apply list_elem_of_fmap_2, (range_elem _ 0). simpl. lia. }
  specialize (Hj j Hin). rewrite test_bit_testbit in Hj. simpl in Hj.
  rewrite list_lookup_fmap in Hj. by destruct (bits b !! _).
Qed.

Lemma Bloom_inserts_contains ds d b :
  bloom_wf b →
  bloom_wf (foldl (λ g d, Bloom_insert d g) b ds) ∧
  (d ∈ ds ∨ Bloom_contains d b = true → Bloom_contains d (foldl (λ g d, Bloom_insert d g) b ds) = true).
Proof.
  revert b. induction ds as [|d' ds IH]; intros b Hwf; simpl; [set_solver|].
  destruct (IH (Bloom_insert d' b) (Bloom_insert_wf _ _ Hwf)) as [Hwf' Hin]. split; [done|].
  destruct (Bloom_insert_contains d' d b Hwf) as [Hself Hkeep].
  intros [[->|Hd]%elem_of_cons|Hd]; apply Hin; [by right|by left|right; auto].
Qed.

(** ** The contract of the decorated store *)

Section bloom_cas_spec.
Context {C : Type} `{CasSpec C}.

(** The filter has seen everything the inner store holds. *)
Definition bc_ok (c : BloomCas C) : Prop :=
  cas_ok (bc_inner c) ∧ bloom_wf (bc_bloom c) ∧
  ∀ d, cas_has (bc_inner c) d = true → Bloom_contains d (bc_bloom c) = true.

Definition bc_has (c : BloomCas C) (d : Digest) : bool := cas_has (bc_inner c) d.

Lemma bc_ok_keeps c i :
  bc_ok c → (cas_ok i ∧ ∀ d, cas_has i d = cas_has (bc_inner c) d) →
  bc_ok (mkBloomCas i (bc_bloom c)) ∧ ∀ d, bc_has (mkBloomCas i (bc_bloom c)) d = bc_has c d.
Proof.
  intros (Hok & Hwf & Hseen) [Hi Hhas]. split; [|exact Hhas]. split_and!; [done|done|].
  intros d. simpl. rewrite Hhas. apply Hseen.
Qed.

(** Filing the stored results shows the filter each of them. *)
Lemma bc_note_results rs (c : BloomCas C) :
  bloom_wf (bc_bloom c) →
  let c' := foldl (λ c r, if status_ok r then bc_insert (ur_digest r) c else c) c rs in
  bc_inner c' = bc_inner c ∧ bloom_wf (bc_bloom c') ∧
  ∀ d, Bloom_contains d (bc_bloom c) = true ∨ (∃ r, r ∈ rs ∧ status_ok r = true ∧ hash (ur_digest r) = hash d) →
       Bloom_contains d (bc_bloom c') = true.
Proof.
  revert c. induction rs as [|r rs IH]; intros c Hwf; simpl; [set_solver|].
  assert (bloom_wf (bc_bloom (if status_ok r then bc_insert (ur_digest r) c else c))) as Hwf'.
  { destruct (status_ok r); [by apply Bloom_insert_wf|done]. }
  destruct (IH _ Hwf') as (Hi & Hw & Hc). split_and!; [rewrite Hi; by destruct (status_ok r)|done|].
  intros d Hd. apply Hc. destruct Hd as [Hd|(r' & [->|Hr']%elem_of_cons & Hs & Hh)].
  - left. destruct (status_ok r); [by apply (proj2 (Bloom_insert_contains (ur_digest r) d _ Hwf))|done].
  - left. rewrite Hs. simpl. rewrite <-(Bloom_contains_hash (ur_digest r)) by done.
    exact (proj1 (Bloom_insert_contains (ur_digest r) d _ Hwf)).
  - right. eauto.
Qed.

(** Asking the filter first loses no missing digest. *)
Lemma bc_partition c ds :
  bc_ok c →
  filter (λ d, Bloom_contains d (bc_bloom c) ≠ true) ds ++
  filter (λ d, cas_has (bc_inner c) d = false) (filter (λ d, Bloom_contains d (bc_bloom c) = true) ds)
  ≡ₚ filter (λ d, bc_has c d = false) ds.
Proof.
  intros (_ & _ & Hseen). unfold bc_has. induction ds as [|d ds IH]; [done|].
  rewrite !filter_cons. destruct (Bloom_contains d (bc_bloom c)) eqn:Hc.
  - rewrite decide_False, decide_True, filter_cons by auto. case_decide; [|done].
    by rewrite <-Permutation_middle, IH.
  - rewrite decide_True, decide_False by auto. simpl. rewrite IH.
    rewrite decide_True; [done|]. apply not_true_is_false. intros Hd%Hseen. congruence.
Qed.

#[export] Instance BloomCas_spec : CasSpec (BloomCas C).
Proof.
  refine {| cas_ok := bc_ok; cas_has := bc_has |}.
  - intros ds c Hok. pose proof (bc_partition c ds Hok) as Hp. pose proof Hok as (Hi & _).
    simpl. unfold bc_find_missing_blobs. wp_step. wp_step. cbn beta zeta.
    destruct (filter (λ d, Bloom_contains d (bc_bloom c) = true) ds) as [|d0 ds0] eqn:Hm.
    { wp_step. split; [done|]. by rewrite <-Hp, app_nil_r. }
    wp_step. apply wp_zoom. eapply wp_mono; [by apply find_missing_spec|..]; cbn beta.
    + intros m i [Hk Hmiss]. wp_step. split; [by apply bc_ok_keeps|by rewrite Hmiss].
    + intros e i Hk. by apply bc_ok_keeps.
  - intros ds c Hok. simpl. unfold bc_batch_read_blobs. apply wp_zoom.
    eapply wp_mono; [apply batch_read_spec, Hok|..]; cbn beta.
    + intros rs i [Hk Hrs]. split; [by apply bc_ok_keeps|done].
    + intros e i Hk. by apply bc_ok_keeps.
  - intros bs c Hok Hfit. pose proof Hok as (Hi & Hwf & Hseen). simpl. unfold bc_batch_update_blobs.
    wp_step. apply wp_zoom. eapply wp_mono; [by apply batch_update_spec|..]; cbn beta.
    2:{ intros e i Hk. by apply bc_ok_keeps. }
    intros rs i (Hi' & Hrs & Hup & Hdown). wp_steps.
    destruct (bc_note_results rs (mkBloomCas i (bc_bloom c)) Hwf) as (Hin & Hw & Hnote).
    unfold update_post, bc_ok, bc_has. rewrite Hin. split_and!; [done|done| |done|done|done].
    intros d Hd. apply Hnote. destruct (Hdown d Hd) as [Hd'|(p & r & Hpr & Hs & Hh)]; [by left; apply Hseen|].
    right. exists r. apply elem_of_lookup_zip_with in Hpr as (n & p' & r' & ? & Hp' & Hr'); simplify_eq.
    split_and!; [by eapply list_elem_of_lookup_2|done|].
    by destruct (Forall2_lookup_lr _ _ _ _ _ _ Hrs Hp' Hr') as [-> _].
Defined.

End bloom_cas_spec.
