(* ===== verification/HotTier.v ===== *)
(** * brokkr-cas: the in-memory LRU of the tiered store

    Models [HotTier] of [crates/brokkr-cas/src/tiered.rs]: a hash map over a
    doubly-linked list threaded through a pool of slots by index, with a free
    list, bounded by the bytes it holds.  An index out of range panics, which is
    [Halt] here.  The reference definition is a plain list, most recently used
    first; the refinement says the pool is that list, and so that no index is
    ever out of range, the eviction loop ends and no slot is lost.

    [usize::MAX], the source's null index, is no index of a [Vec]: a link is an
    [option]. *)

From stdpp Require Import prelude gmap strings.
From Stdlib Require Import Lia.
From S2P Require Import Prelude Machine Bytes Common.

Local Open Scope N_scope.

Notation NodeIdx := nat (only parsing).
Definition NONE : option NodeIdx := None.

Record Slot : Type := mkSlot {
  slot_digest : Digest;
  slot_bytes : bytes;
  slot_prev : option NodeIdx;
  slot_next : option NodeIdx
}.

Record HotTier : Type := mkHotTier {
  capacity_bytes : N;
  hot_bytes_held : N;
  hot_map : gmap Digest NodeIdx;
  hot_nodes : list Slot;
  hot_free : list NodeIdx;
  hot_head : option NodeIdx;
  hot_tail : option NodeIdx
}.

(** The free list is a stack, its top first. *)
Definition HotTier_new (capacity : N) : HotTier := mkHotTier capacity 0 ∅ [] [] NONE NONE.

Definition HotTier_len (h : HotTier) : N := N.of_nat (size (hot_map h)).

Definition blen (b : bytes) : N := N.of_nat (length b).

(** Field assignments. *)
Definition with_bytes (n : N) (h : HotTier) : HotTier :=
  mkHotTier (capacity_bytes h) n (hot_map h) (hot_nodes h) (hot_free h) (hot_head h) (hot_tail h).
Definition with_map (m : gmap Digest NodeIdx) (h : HotTier) : HotTier :=
  mkHotTier (capacity_bytes h) (hot_bytes_held h) m (hot_nodes h) (hot_free h) (hot_head h) (hot_tail h).
Definition with_nodes (ns : list Slot) (h : HotTier) : HotTier :=
  mkHotTier (capacity_bytes h) (hot_bytes_held h) (hot_map h) ns (hot_free h) (hot_head h) (hot_tail h).
Definition with_free (f : list NodeIdx) (h : HotTier) : HotTier :=
  mkHotTier (capacity_bytes h) (hot_bytes_held h) (hot_map h) (hot_nodes h) f (hot_head h) (hot_tail h).
Definition with_head (i : option NodeIdx) (h : HotTier) : HotTier :=
  mkHotTier (capacity_bytes h) (hot_bytes_held h) (hot_map h) (hot_nodes h) (hot_free h) i (hot_tail h).
Definition with_tail (i : option NodeIdx) (h : HotTier) : HotTier :=
  mkHotTier (capacity_bytes h) (hot_bytes_held h) (hot_map h) (hot_nodes h) (hot_free h) (hot_head h) i.

Definition set_prev (p : option NodeIdx) (s : Slot) : Slot :=
  mkSlot (slot_digest s) (slot_bytes s) p (slot_next s).
Definition set_next (n : option NodeIdx) (s : Slot) : Slot :=
  mkSlot (slot_digest s) (slot_bytes s) (slot_prev s) n.
Definition set_blob (b : bytes) (s : Slot) : Slot :=
  mkSlot (slot_digest s) b (slot_prev s) (slot_next s).

(** [usize::saturating_add] and [saturating_sub]. *)
Definition usize_sat_add (a b : N) : N := N.min (a + b) u64_max.
Definition usize_sat_sub (a b : N) : N := a - b.

Section hot_tier.
Context {E : Type}.

(** [self.nodes[idx]] as a value and as a place. *)
Definition slot (idx : NodeIdx) : eff HotTier E Slot := λ h,
  match hot_nodes h !! idx with Some s => (h, Ok s) | None => (h, Halt) end.

Definition set_slot (idx : NodeIdx) (f : Slot → Slot) : eff HotTier E () :=
  s ← slot idx;
  modify (λ h, with_nodes (<[idx := f s]> (hot_nodes h)) h).

Definition push_to_head (idx : NodeIdx) : eff HotTier E () :=
  set_slot idx (set_prev NONE);;
  head ← gets hot_head;
  set_slot idx (set_next head);;
  match head with
  | Some old => set_slot old (set_prev (Some idx))
  | None => mret ()
  end;;
  modify (with_head (Some idx));;
  tail ← gets hot_tail;
  match tail with
  | None => modify (with_tail (Some idx))
  | Some _ => mret ()
  end.

Definition unlink (idx : NodeIdx) : eff HotTier E () :=
  s ← slot idx;
  let prev := slot_prev s in
  let next := slot_next s in
  match prev with
  | Some p => set_slot p (set_next next)
  | None => modify (with_head next)
  end;;
  match next with
  | Some n => set_slot n (set_prev prev)
  | None => modify (with_tail prev)
  end.

Definition move_to_head (idx : NodeIdx) : eff HotTier E () :=
  head ← gets hot_head;
  if decide (head = Some idx) then mret ()
  else unlink idx;; push_to_head idx.

Definition alloc (digest : Digest) (b : bytes) : eff HotTier E NodeIdx :=
  let s := mkSlot digest b NONE NONE in
  free ← gets hot_free;
  match free with
  | idx :: rest =>
      modify (with_free rest);;
      set_slot idx (λ _, s);;
      mret idx
  | [] =>
      ns ← gets hot_nodes;
      modify (with_nodes (ns ++ [s]));;
      mret (length ns)
  end.

Definition recycle (idx : NodeIdx) : eff HotTier E () :=
  set_slot idx (set_blob []);;
  set_slot idx (set_prev NONE);;
  set_slot idx (set_next NONE);;
  modify (λ h, with_free (idx :: hot_free h) h).

(** The body of the eviction loop. *)
Definition evict_tail (victim : NodeIdx) : eff HotTier E () :=
  s ← slot victim;
  unlink victim;;
  modify (λ h, with_map (delete (slot_digest s) (hot_map h)) h);;
  modify (λ h, with_bytes (usize_sat_sub (hot_bytes_held h) (blen (slot_bytes s))) h);;
  recycle victim.

Fixpoint evict_loop (fuel : nat) : eff HotTier E () :=
  match fuel with
  | O => halt
  | S fuel =>
      h ← gets id;
      match hot_tail h with
      | Some victim =>
          if capacity_bytes h <? hot_bytes_held h then evict_tail victim;; evict_loop fuel
          else mret ()
      | None => mret ()
      end
  end.

(** Each turn frees a slot, so one turn more than there are slots is enough. *)
Definition evict_until_under_capacity : eff HotTier E () :=
  ns ← gets hot_nodes;
  evict_loop (S (length ns)).

Definition HotTier_get (digest : Digest) : eff HotTier E (option bytes) :=
  m ← gets hot_map;
  match m !! digest with
  | None => mret None
  | Some idx =>
      move_to_head idx;;
      s ← slot idx;
      mret (Some (slot_bytes s))
  end.

Definition HotTier_put (digest : Digest) (b : bytes) : eff HotTier E () :=
  h ← gets id;
  if capacity_bytes h =? 0 then mret ()
  else
    match hot_map h !! digest with
    | Some idx =>
        s ← slot idx;
        modify (λ h, with_bytes (usize_sat_add (usize_sat_sub (hot_bytes_held h) (blen (slot_bytes s)))
                                               (blen b)) h);;
        set_slot idx (set_blob b);;
        move_to_head idx;;
        evict_until_under_capacity
    | None =>
        if capacity_bytes h <? blen b then mret ()
        else
          idx ← alloc digest b;
          modify (λ h, with_map (<[digest := idx]> (hot_map h)) h);;
          modify (λ h, with_bytes (usize_sat_add (hot_bytes_held h) (blen b)) h);;
          push_to_head idx;;
          evict_until_under_capacity
    end.

End hot_tier.

(** ** The reference: a list, most recently used first *)

Definition total (l : list (Digest * bytes)) : N := foldr (λ p n, blen p.2 + n) 0 l.

(** All entries but that of [d]. *)
Definition others (d : Digest) (l : list (Digest * bytes)) : list (Digest * bytes) :=
  filter (λ p, p.1 ≠ d) l.

(** The longest prefix that fits in [cap] bytes. *)
Fixpoint fitting (cap : N) (l : list (Digest * bytes)) : list (Digest * bytes) :=
  match l with
  | [] => []
  | p :: l => if blen p.2 <=? cap then p :: fitting (cap - blen p.2) l else []
  end.

Definition lru_get (d : Digest) (l : list (Digest * bytes)) : option bytes * list (Digest * bytes) :=
  match (list_to_map l : gmap Digest bytes) !! d with
  | Some b => (Some b, (d, b) :: others d l)
  | None => (None, l)
  end.

Definition lru_put (cap : N) (d : Digest) (b : bytes) (l : list (Digest * bytes)) : list (Digest * bytes) :=
  if cap =? 0 then l
  else if decide (d ∈ l.*1) then fitting cap ((d, b) :: others d l)
  else if cap <? blen b then l
  else fitting cap ((d, b) :: l).

(** ** Linked segments *)

(** A pool slot of the list: its index and its blob. *)
Notation entry := (NodeIdx * (Digest * bytes))%type.

(** [es] is linked through [ns] in order, between [pp] before and [nn] after. *)
Fixpoint dseg (ns : list Slot) (pp : option NodeIdx) (es : list entry) (nn : option NodeIdx) : Prop :=
  match es with
  | [] => True
  | (i, (d, b)) :: es =>
      ns !! i = Some (mkSlot d b pp (match es with [] => nn | e :: _ => Some e.1 end))
      ∧ dseg ns (Some i) es nn
  end.

Definition first (es : list entry) (nn : option NodeIdx) : option NodeIdx :=
  match es with [] => nn | e :: _ => Some e.1 end.
Fixpoint final (es : list entry) (pp : option NodeIdx) : option NodeIdx :=
  match es with [] => pp | e :: es => final es (Some e.1) end.

Lemma final_snoc es e pp : final (es ++ [e]) pp = Some e.1.
Proof. revert pp. induction es as [|e' es IH]; intros pp; simpl; auto. Qed.

Lemma final_Some es i : ∃ j, final es (Some i) = Some j.
Proof. revert i. induction es as [|e es IH]; intros i; simpl; eauto. Qed.

Lemma first_app es1 es2 nn : first (es1 ++ es2) nn = first es1 (first es2 nn).
Proof. by destruct es1. Qed.

Lemma final_app es1 es2 pp : final (es1 ++ es2) pp = final es2 (final es1 pp).
Proof. revert pp. induction es1 as [|e es1 IH]; intros pp; simpl; auto. Qed.

Lemma dseg_app ns pp es1 es2 nn :
  dseg ns pp (es1 ++ es2) nn ↔ dseg ns pp es1 (first es2 nn) ∧ dseg ns (final es1 pp) es2 nn.
Proof.
  revert pp. induction es1 as [|[i [d b]] es1 IH]; intros pp; simpl; [by split; [|intros [_ ?]]|].
  rewrite IH. destruct es1 as [|[j [d' b']] es1]; simpl; [|tauto].
  destruct es2; simpl; tauto.
Qed.

Lemma dseg_insert ns pp es nn i s :
  i ∉ es.*1 → dseg (<[i := s]> ns) pp es nn ↔ dseg ns pp es nn.
Proof.
  revert pp. induction es as [|[j [d b]] es IH]; intros pp Hi; simpl; [done|].
  rewrite fmap_cons, not_elem_of_cons in Hi. destruct Hi as [Hij Hi].
  by rewrite list_lookup_insert_ne, IH.
Qed.

Lemma dseg_app_nodes ns ns' pp es nn : dseg ns pp es nn → dseg (ns ++ ns') pp es nn.
Proof.
  revert pp. induction es as [|[j [d b]] es IH]; intros pp; simpl; [done|].
  intros [Hj Hes]. split; [by apply lookup_app_l_Some|auto].
Qed.

(** Re-pointing the two ends. *)
Lemma dseg_set_prev ns pp pp' i d b es nn :
  NoDup (i :: es.*1) → dseg ns pp ((i, (d, b)) :: es) nn →
  dseg (<[i := mkSlot d b pp' (first es nn)]> ns) pp' ((i, (d, b)) :: es) nn.
Proof.
  intros [Hi _]%NoDup_cons [Hs Hes]. simpl. split.
  - rewrite list_lookup_insert_eq; [by destruct es|]. by eapply lookup_lt_Some.
  - by rewrite dseg_insert.
Qed.

Lemma dseg_set_next ns pp i d b es nn nn' :
  NoDup (es.*1 ++ [i]) → dseg ns pp (es ++ [(i, (d, b))]) nn →
  dseg (<[i := mkSlot d b (final es pp) nn']> ns) pp (es ++ [(i, (d, b))]) nn'.
Proof.
  intros Hnd. rewrite !dseg_app. simpl. intros (Hes & Hs & _).
  apply NoDup_app in Hnd as (_ & Hnd & _). split_and!; [|by rewrite list_lookup_insert_eq by (by eapply lookup_lt_Some)|done].
  rewrite dseg_insert; [done|]. intros Hi. apply (Hnd _ Hi). set_solver.
Qed.

Lemma dseg_lookup ns pp es1 i d b es2 nn :
  dseg ns pp (es1 ++ (i, (d, b)) :: es2) nn →
  ns !! i = Some (mkSlot d b (final es1 pp) (first es2 nn)).
Proof. rewrite dseg_app. intros (_ & Hs & _). by destruct es2. Qed.

Lemma dseg_frame ns ns' pp es nn :
  (∀ j, j ∈ es.*1 → ns' !! j = ns !! j) → dseg ns pp es nn → dseg ns' pp es nn.
Proof.
  revert pp. induction es as [|[j [d b]] es IH]; intros pp Hf; simpl; [done|].
  intros [Hj Hes]. split; [rewrite Hf; [done|set_solver]|]. apply IH; [set_solver|done].
Qed.

(** The list runs from [hot_head] to [hot_tail]. *)
Definition linked (h : HotTier) (es : list entry) : Prop :=
  dseg (hot_nodes h) None es None ∧ hot_head h = first es None ∧ hot_tail h = final es None
  ∧ NoDup es.*1.

(** What the link operations leave alone. *)
Definition same_rest (h h' : HotTier) : Prop :=
  capacity_bytes h' = capacity_bytes h ∧ hot_bytes_held h' = hot_bytes_held h ∧ hot_map h' = hot_map h
  ∧ hot_free h' = hot_free h ∧ length (hot_nodes h') = length (hot_nodes h).

#[export] Instance same_rest_refl : Reflexive same_rest.
Proof. by intros h. Qed.
#[export] Instance same_rest_trans : Transitive same_rest.
Proof. intros h1 h2 h3 (? & ? & ? & ? & ?) (? & ? & ? & ? & ?). split_and!; congruence. Qed.

Section link_specs.
Context {E : Type}.
Implicit Types (h : HotTier) (es : list entry).

Lemma wp_slot i s (Q : Slot → HotTier → Prop) (X : E → HotTier → Prop) h :
  hot_nodes h !! i = Some s → Q s h → wp (slot i) Q X h.
Proof. unfold wp, slot. by intros ->. Qed.

Lemma wp_set_slot i f s (Q : () → HotTier → Prop) (X : E → HotTier → Prop) h :
  hot_nodes h !! i = Some s →
  Q () (with_nodes (<[i := f s]> (hot_nodes h)) h) → wp (set_slot i f) Q X h.
Proof. intros Hs HQ. unfold set_slot. wp_step. by eapply wp_slot. Qed.

(** The half of [unlink] that re-points the left neighbour, and the other half. *)
Lemma wp_relink_left es x next (Q : () → HotTier → Prop) (X : E → HotTier → Prop) h :
  dseg (hot_nodes h) None es x → NoDup es.*1 → first es (hot_head h) = hot_head h →
  (∀ h', dseg (hot_nodes h') None es next → (∀ j, j ∉ es.*1 → hot_nodes h' !! j = hot_nodes h !! j) →
     hot_head h' = first es next → hot_tail h' = hot_tail h → same_rest h h' → Q () h') →
  wp (match final es None with Some p => set_slot p (set_next next) | None => modify (with_head next) end) Q X h.
Proof.
  intros Hseg Hnd Hhd HQ. destruct es as [|[p [d b]] es _] using rev_ind; simpl in *.
  { wp_step. by apply HQ. }
  rewrite final_snoc. simpl. rewrite first_app in Hhd.
  pose proof (dseg_lookup _ _ _ _ _ _ [] _ Hseg) as Hp. rewrite fmap_app in Hnd.
  eapply wp_set_slot; [done|]. apply HQ; simpl.
  - by apply (dseg_set_next _ _ _ _ _ _ x).
  - intros j. rewrite fmap_app. simpl. intros Hj. rewrite list_lookup_insert_ne; [done|set_solver].
  - rewrite first_app. rewrite <-Hhd. by destruct es.
  - done.
  - split_and!; try done. simpl. by rewrite length_insert.
Qed.

Lemma wp_relink_right es y prev (Q : () → HotTier → Prop) (X : E → HotTier → Prop) h :
  dseg (hot_nodes h) y es None → NoDup es.*1 → final es (hot_tail h) = hot_tail h →
  (∀ h', dseg (hot_nodes h') prev es None → (∀ j, j ∉ es.*1 → hot_nodes h' !! j = hot_nodes h !! j) →
     hot_tail h' = final es prev → hot_head h' = hot_head h → same_rest h h' → Q () h') →
  wp (match first es None with Some n => set_slot n (set_prev prev) | None => modify (with_tail prev) end) Q X h.
Proof.
  intros Hseg Hnd Htl HQ. destruct es as [|[n [d b]] es]; simpl in *.
  { wp_step. by apply HQ. }
  pose proof Hseg as [Hn _]. eapply wp_set_slot; [done|]. apply HQ; simpl.
  - apply (dseg_set_prev _ y prev n d b es None) in Hseg; [|done]. by destruct es.
  - intros j Hj. rewrite list_lookup_insert_ne; [done|set_solver].
  - done.
  - done.
  - split_and!; try done. simpl. by rewrite length_insert.
Qed.

Lemma wp_unlink i d b es1 es2 (Q : () → HotTier → Prop) (X : E → HotTier → Prop) h :
  linked h (es1 ++ (i, (d, b)) :: es2) →
  (∀ h', linked h' (es1 ++ es2) → same_rest h h' →
     hot_nodes h' !! i = hot_nodes h !! i → Q () h') →
  wp (unlink i) Q X h.
Proof.
  intros (Hseg & Hh & Ht & Hnd) HQ. unfold unlink.
  pose proof (dseg_lookup _ _ _ _ _ _ _ _ Hseg) as Hi. wp_step. eapply wp_slot; [done|]. simpl.
  rewrite fmap_app, fmap_cons, NoDup_app, NoDup_cons in Hnd. destruct Hnd as (Hn1 & Hn12 & Hni & Hn2).
  rewrite dseg_app in Hseg. destruct Hseg as (Hs1 & _ & Hs2).
  rewrite first_app in Hh. rewrite final_app in Ht. simpl in Hh, Ht.
  wp_step. eapply wp_relink_left; [done|done|rewrite Hh; by destruct es1|].
  intros h1 Hseg1 Hf1 Hh1 Ht1 Hr1.
  apply (wp_relink_right es2 (Some i)); [|done|rewrite Ht1, Ht; by destruct es2|].
  { eapply dseg_frame; [|done]. intros j Hj. apply Hf1. intros Hj'. apply (Hn12 _ Hj'). set_solver. }
  intros h2 Hseg2 Hf2 Ht2 Hh2 Hr2. apply HQ; [|by transitivity h1|].
  - split_and!.
    + apply dseg_app. split; [|done]. eapply dseg_frame; [|done].
      intros j Hj. apply Hf2. intros Hj'. apply (Hn12 _ Hj). set_solver.
    + by rewrite Hh2, Hh1, first_app.
    + by rewrite Ht2, final_app.
    + rewrite fmap_app. apply NoDup_app. split_and!; [done| |done]. set_solver.
  - rewrite Hf2, Hf1; [done| |done]. intros Hj. apply (Hn12 _ Hj). set_solver.
Qed.

Lemma wp_push_to_head i d b p n es (Q : () → HotTier → Prop) (X : E → HotTier → Prop) h :
  linked h es → hot_nodes h !! i = Some (mkSlot d b p n) → i ∉ es.*1 →
  (∀ h', linked h' ((i, (d, b)) :: es) → same_rest h h' → Q () h') →
  wp (push_to_head i) Q X h.
Proof.
  intros (Hseg & Hh & Ht & Hnd) Hi Hni HQ. unfold push_to_head.
  wp_step. eapply wp_set_slot; [done|]. wp_step. wp_step.
  wp_step. eapply wp_set_slot; [by apply list_lookup_insert_eq, (lookup_lt_Some _ _ _ Hi)|]. cbn.
  rewrite list_insert_insert_eq. apply (dseg_insert _ _ _ _ i (mkSlot d b None (hot_head h))) in Hseg; [|done].
  pose proof (list_lookup_insert_eq (hot_nodes h) i (mkSlot d b None (hot_head h)) (lookup_lt_Some _ _ _ Hi)) as Hi'.
  pose proof (length_insert (hot_nodes h) i (mkSlot d b None (hot_head h))) as Hlen.
  unfold set_next, set_prev, NONE in *; cbn in *. rewrite Hh in *.
  destruct es as [|[j [dj bj]] es]; cbn in *.
  - wp_steps; cbn in *; [congruence|]. wp_steps. apply HQ; [|by split_and!].
    split_and!; cbn; [by split|done|done|apply NoDup_singleton].
  - pose proof Hseg as [Hj _]. wp_step. eapply wp_set_slot; [exact Hj|]. destruct (final_Some es j) as [k Hk].
    wp_steps; cbn in *; [|congruence]. apply HQ; [|split_and!; try done; cbn; by rewrite length_insert].
    apply (dseg_set_prev _ _ (Some i)) in Hseg; [|done]. split_and!; [|done|done|by constructor].
    split; [cbn; rewrite list_lookup_insert_ne; [done|set_solver]|]. by destruct es.
Qed.

End link_specs.

(** ** The representation of a list of blobs *)

Definition index_of (e : entry) : Digest * NodeIdx := (e.2.1, e.1).

(** The pool holds [es]: linked in order, indexed by the map, with every slot
    either in the list or free, and the bytes counted. *)
Definition rep (h : HotTier) (es : list entry) : Prop :=
  linked h es
  ∧ es.*1 ++ hot_free h ≡ₚ seq 0 (length (hot_nodes h))
  ∧ NoDup es.*2.*1
  ∧ hot_map h = list_to_map (index_of <$> es)
  ∧ hot_bytes_held h = total es.*2.

(** The tier stands for the list [l], within its budget. *)
Definition hot_repr (h : HotTier) (l : list (Digest * bytes)) : Prop :=
  (∃ es, rep h es ∧ es.*2 = l) ∧ total l ≤ capacity_bytes h ∧ capacity_bytes h < 2 ^ 63.

Lemma total_app l1 l2 : total (l1 ++ l2) = total l1 + total l2.
Proof. induction l1 as [|p l1 IH]; simpl; [done|]. rewrite IH. lia. Qed.

Lemma total_perm l1 l2 : l1 ≡ₚ l2 → total l1 = total l2.
Proof. induction 1; simpl; lia. Qed.

Lemma fitting_all cap l : total l ≤ cap → fitting cap l = l.
Proof.
  revert cap. induction l as [|p l IH]; intros cap; simpl; [done|]. intros Hl.
  rewrite (proj2 (N.leb_le _ _)) by lia. f_equal. apply IH. lia.
Qed.

Lemma fitting_snoc cap l p : cap < total (l ++ [p]) → fitting cap (l ++ [p]) = fitting cap l.
Proof.
  revert cap. induction l as [|q l IH]; intros cap; simpl; intros Hl.
  - destruct (N.leb_spec (blen p.2) cap); [lia|done].
  - destruct (N.leb_spec (blen q.2) cap); [|done]. f_equal. apply IH. lia.
Qed.

Lemma fitting_total cap l : total (fitting cap l) ≤ cap.
Proof.
  revert cap. induction l as [|p l IH]; intros cap; simpl; [lia|].
  destruct (N.leb_spec (blen p.2) cap); simpl; [|lia]. specialize (IH (cap - blen p.2)). lia.
Qed.

Lemma fitting_prefix cap l : fitting cap l `prefix_of` l.
Proof.
  revert cap. induction l as [|p l IH]; intros cap; simpl; [done|].
  destruct (blen p.2 <=? cap); [by apply prefix_cons|apply prefix_nil].
Qed.

Lemma others_notin d l : d ∉ l.*1 → others d l = l.
Proof.
  unfold others. induction l as [|p l IH]; [done|]. rewrite fmap_cons, not_elem_of_cons, filter_cons.
  intros [Hp Hd]. rewrite decide_True by done. by rewrite IH.
Qed.

Lemma others_split d b l1 l2 :
  NoDup (l1 ++ (d, b) :: l2).*1 → others d (l1 ++ (d, b) :: l2) = l1 ++ l2.
Proof.
  rewrite fmap_app, fmap_cons. intros (_ & Hd1 & [Hd2 _]%NoDup_cons)%NoDup_app.
  unfold others. rewrite filter_app, filter_cons, decide_False by (simpl; tauto).
  f_equal; apply others_notin; [|done]. intros Hd. apply (Hd1 _ Hd). set_solver.
Qed.

Lemma rep_lookup h es d i :
  rep h es → hot_map h !! d = Some i → ∃ b es1 es2, es = es1 ++ (i, (d, b)) :: es2.
Proof.
  intros (_ & _ & _ & -> & _) Hm. apply elem_of_list_to_map_2, list_elem_of_fmap in Hm as ([j [d' b]] & Hij & Hin).
  unfold index_of in Hij; simplify_eq/=. apply list_elem_of_split in Hin as (es1 & es2 & ->). eauto.
Qed.

Lemma rep_lookup_None h es d : rep h es → hot_map h !! d = None ↔ d ∉ es.*2.*1.
Proof.
  intros (_ & _ & _ & -> & _). rewrite <-not_elem_of_list_to_map. by rewrite <-!list_fmap_compose.
Qed.

(** The link operations only reorder. *)
Lemma rep_perm h h' es es' : rep h es → linked h' es' → same_rest h h' → es' ≡ₚ es → rep h' es'.
Proof.
  intros (_ & Hpool & Hnd & Hmap & Hb) Hl (_ & Hb' & Hm' & Hf' & Hlen) Hp.
  split_and!; [done|by rewrite Hp, Hf', Hlen|by rewrite Hp| |].
  - rewrite Hm', Hmap. symmetry. apply list_to_map_proper; [|by rewrite Hp].
    rewrite <-list_fmap_compose, Hp. by rewrite <-list_fmap_compose in Hnd.
  - rewrite Hb', Hb. apply total_perm. by rewrite Hp.
Qed.

Section operation_specs.
Context {E : Type}.

Lemma wp_move_to_head i d b es1 es2 (Q : () → HotTier → Prop) (X : E → HotTier → Prop) h :
  rep h (es1 ++ (i, (d, b)) :: es2) →
  (∀ h', rep h' ((i, (d, b)) :: es1 ++ es2) → capacity_bytes h' = capacity_bytes h → Q () h') →
  wp (move_to_head i) Q X h.
Proof.
  intros Hrep HQ. pose proof Hrep as [Hl _]. pose proof Hl as (Hseg & Hh & _ & Hnd).
  unfold move_to_head. wp_step. wp_step. case_decide as Hi; cbn beta.
  - wp_step. destruct es1 as [|[j p] es1]; [by apply HQ|]. exfalso. simpl in Hh, Hnd.
    rewrite fmap_app in Hnd. rewrite Hh in Hi. simplify_eq. apply NoDup_cons in Hnd as [Hnd _].
    apply Hnd. set_solver.
  - wp_step. eapply wp_unlink; [done|]. intros h1 Hl1 Hr1 Hs1. rewrite (dseg_lookup _ _ _ _ _ _ _ _ Hseg) in Hs1.
    eapply wp_push_to_head; [done|done| |].
    { rewrite fmap_app, fmap_cons, NoDup_app, NoDup_cons in Hnd. rewrite fmap_app. set_solver. }
    intros h2 Hl2 Hr2. apply HQ; [|by destruct Hr1 as [<- _], Hr2 as [<- _]].
    eapply rep_perm; [done|done|by transitivity h1|apply Permutation_middle].
Qed.

Lemma delete_snoc_map (l : list (Digest * NodeIdx)) d i :
  d ∉ l.*1 → delete d (list_to_map (l ++ [(d, i)]) : gmap Digest NodeIdx) = list_to_map l.
Proof.
  intros Hd. rewrite list_to_map_app. simpl. rewrite delete_union, delete_insert_eq, delete_empty.
  rewrite (right_id_L ∅ (∪)). apply delete_id. by apply not_elem_of_list_to_map.
Qed.

Lemma wp_evict_tail i d b es (Q : () → HotTier → Prop) (X : E → HotTier → Prop) h :
  rep h (es ++ [(i, (d, b))]) →
  (∀ h', rep h' es → capacity_bytes h' = capacity_bytes h → Q () h') →
  wp (evict_tail i) Q X h.
Proof.
  intros (Hl & Hpool & Hnd & Hmap & Hb) HQ. pose proof Hl as (Hseg & _ & _ & Hn).
  pose proof (dseg_lookup _ _ _ _ _ _ [] _ Hseg) as Hi. unfold evict_tail.
  wp_step. eapply wp_slot; [done|]. wp_step. eapply wp_unlink; [done|]. rewrite app_nil_r.
  intros h1 Hl1 (Hc1 & Hb1 & Hm1 & Hf1 & Hlen1) Hi1. rewrite Hi in Hi1. wp_steps. unfold recycle.
  pose proof (lookup_lt_Some _ _ _ Hi1) as Hlt.
  do 3 (wp_step; eapply wp_set_slot;
        [first [exact Hi1|apply list_lookup_insert_eq; cbn; rewrite ?length_insert; done]|]; cbn).
  wp_steps. rewrite !list_insert_insert_eq. apply HQ; [|done].
  rewrite fmap_app in Hn. rewrite fmap_app in Hpool. rewrite fmap_app in Hb. rewrite !fmap_app in Hnd. apply NoDup_app in Hnd as (Hnd & Hd & _).
  apply NoDup_app in Hn as (Hn & Hni & _). destruct Hl1 as (Hs1 & Hh1 & Ht1 & _).
  split_and!; cbn; [|by rewrite length_insert, Hlen1, Hf1, <-Hpool, <-app_assoc|done| |].
  - split_and!; cbn; [|done|done|done]. rewrite dseg_insert; [done|]. intros Hin. apply (Hni _ Hin). set_solver.
  - rewrite Hm1, Hmap, fmap_app. apply delete_snoc_map. rewrite <-list_fmap_compose.
    rewrite <-list_fmap_compose in Hd. intros Hin. apply (Hd _ Hin). set_solver.
  - rewrite Hb1, Hb, total_app. simpl. unfold usize_sat_sub. lia.
Qed.

(** The eviction loop keeps the longest prefix that fits. *)
Lemma wp_evict_loop fuel es (Q : () → HotTier → Prop) (X : E → HotTier → Prop) h :
  rep h es → (length es < fuel)%nat →
  (∀ h' es', rep h' es' → es'.*2 = fitting (capacity_bytes h) es.*2 → capacity_bytes h' = capacity_bytes h → Q () h') →
  wp (evict_loop fuel) Q X h.
Proof.
  revert es h. induction fuel as [|fuel IH]; intros es h Hrep Hf HQ; [lia|]. simpl.
  pose proof Hrep as ((_ & _ & Ht & _) & _ & _ & _ & Hb). wp_step. wp_step.
  destruct es as [|[i [d b]] es _] using rev_ind.
  { simpl in Ht. unfold id. rewrite Ht. wp_step. by apply (HQ h []). }
  unfold id. rewrite Ht, final_snoc. simpl. destruct (N.ltb_spec (capacity_bytes h) (hot_bytes_held h)) as [Hlt|Hge].
  - wp_step. eapply wp_evict_tail; [done|]. intros h1 Hr1 Hc1. eapply IH; [done|rewrite length_app in Hf; simpl in Hf; lia|].
    intros h2 es2 Hr2 Hes2 Hc2. apply (HQ h2 es2); [done| |congruence].
    rewrite Hes2, Hc1, fmap_app. simpl. rewrite fitting_snoc; [done|].
    rewrite Hb, fmap_app in Hlt. exact Hlt.
  - wp_step. eapply HQ; [done| |done]. symmetry. apply fitting_all. rewrite <-Hb. exact Hge.
Qed.

Lemma rep_length h es : rep h es → (length es ≤ length (hot_nodes h))%nat.
Proof.
  intros (_ & Hp & _). apply Permutation_length in Hp.
  rewrite length_app, length_fmap, length_seq in Hp. lia.
Qed.

Lemma wp_evict es (Q : () → HotTier → Prop) (X : E → HotTier → Prop) h :
  rep h es → capacity_bytes h < 2 ^ 63 →
  (∀ h', hot_repr h' (fitting (capacity_bytes h) es.*2) → capacity_bytes h' = capacity_bytes h → Q () h') →
  wp evict_until_under_capacity Q X h.
Proof.
  intros Hrep Hcap HQ. unfold evict_until_under_capacity. wp_step. wp_step.
  eapply wp_evict_loop; [done|apply rep_length in Hrep; lia|]. intros h' es' Hr' Hes' Hc'.
  apply HQ; [|done]. rewrite <-Hes'. split_and!; [by eauto| |congruence].
  rewrite Hes', Hc'. apply fitting_total.
Qed.

Lemma wp_alloc d b es (Q : NodeIdx → HotTier → Prop) (X : E → HotTier → Prop) h :
  rep h es →
  (∀ i h', linked h' es → hot_nodes h' !! i = Some (mkSlot d b None None) → i ∉ es.*1 →
     i :: es.*1 ++ hot_free h' ≡ₚ seq 0 (length (hot_nodes h')) →
     hot_map h' = hot_map h → hot_bytes_held h' = hot_bytes_held h → capacity_bytes h' = capacity_bytes h →
     Q i h') →
  wp (alloc d b) Q X h.
Proof.
  intros ((Hseg & Hh & Ht & Hn) & Hpool & _) HQ. unfold alloc. wp_step. wp_step.
  assert (NoDup (es.*1 ++ hot_free h)) as Hnd by (rewrite Hpool; apply NoDup_seq).
  destruct (hot_free h) as [|i free] eqn:Hf.
  - wp_steps. rewrite app_nil_r in Hpool.
    assert (length (hot_nodes h) ∉ es.*1) as Hni by (rewrite Hpool, elem_of_seq; lia).
    apply HQ; cbn; try done.
    + split_and!; cbn; [by apply dseg_app_nodes|done..].
    + by rewrite lookup_app_r, Nat.sub_diag.
    + rewrite Hf, app_nil_r, length_app, seq_app, Hpool. simpl. apply Permutation_cons_append.
  - assert (i ∈ seq 0 (length (hot_nodes h))) as Hi by (rewrite <-Hpool; set_solver).
    apply elem_of_seq in Hi as [_ Hi]. apply lookup_lt_is_Some in Hi as Hs. destruct Hs as [s Hs].
    apply NoDup_app in Hnd as (_ & Hnd & _).
    assert (i ∉ es.*1) as Hni by (intros Hin; apply (Hnd _ Hin); set_solver).
    wp_steps. eapply wp_set_slot; [done|]. wp_steps. apply HQ; cbn; try done.
    + split_and!; cbn; [by apply dseg_insert|done..].
    + by apply list_lookup_insert_eq.
    + rewrite length_insert, <-Hpool. apply Permutation_middle.
Qed.

(** A slot's blob replaced in place. *)
Lemma linked_set_blob h i d b b' es1 es2 :
  linked h (es1 ++ (i, (d, b)) :: es2) →
  linked (with_nodes (<[i := mkSlot d b' (final es1 None) (first es2 None)]> (hot_nodes h)) h)
         (es1 ++ (i, (d, b')) :: es2).
Proof.
  intros (Hseg & Hh & Ht & Hn). pose proof (dseg_lookup _ _ _ _ _ _ _ _ Hseg) as Hi.
  rewrite dseg_app in Hseg. destruct Hseg as (Hs1 & _ & Hs2).
  rewrite fmap_app, fmap_cons in Hn. pose proof Hn as (_ & Hn1 & [Hn2 _]%NoDup_cons)%NoDup_app.
  split_and!; cbn; [|by destruct es1|by rewrite final_app in *|by rewrite fmap_app, fmap_cons].
  rewrite dseg_app. split; [|split].
  - rewrite dseg_insert; [done|]. intros Hin. apply (Hn1 _ Hin). set_solver.
  - rewrite list_lookup_insert_eq by (by eapply lookup_lt_Some). by destruct es2.
  - by rewrite dseg_insert.
Qed.

Lemma rep_set_blob h i d b b' es1 es2 n :
  rep h (es1 ++ (i, (d, b)) :: es2) → n = total (es1 ++ (i, (d, b')) :: es2).*2 →
  rep (with_nodes (<[i := mkSlot d b' (final es1 None) (first es2 None)]> (hot_nodes h)) (with_bytes n h))
      (es1 ++ (i, (d, b')) :: es2).
Proof.
  intros (Hl & Hpool & Hnd & Hmap & Hb) ->. apply (linked_set_blob _ _ _ _ b') in Hl.
  split_and!; cbn; [exact Hl| | | |done].
  - rewrite length_insert, <-Hpool. by rewrite !fmap_app.
  - rewrite fmap_app in *. by rewrite !fmap_app in *.
  - rewrite Hmap. by rewrite !fmap_app.
Qed.

Lemma list_to_map_mid (l1 l2 : list (Digest * bytes)) d b :
  NoDup (l1 ++ (d, b) :: l2).*1 → (list_to_map (l1 ++ (d, b) :: l2) : gmap Digest bytes) !! d = Some b.
Proof. intros Hn. apply elem_of_list_to_map_1; [done|set_solver]. Qed.

(** A lookup in the pool is a lookup in the list. *)
Lemma HotTier_get_spec d l h :
  hot_repr h l →
  wp (HotTier_get d)
     (λ r h', r = (lru_get d l).1 ∧ hot_repr h' (lru_get d l).2 ∧ capacity_bytes h' = capacity_bytes h)
     (λ (_ : E) _, False) h.
Proof.
  intros ((es & Hrep & <-) & Htot & Hcap). unfold HotTier_get, lru_get. wp_step. wp_step.
  destruct (hot_map h !! d) as [i|] eqn:Hm.
  - destruct (rep_lookup _ _ _ _ Hrep Hm) as (b & es1 & es2 & ->).
    pose proof Hrep as (_ & _ & Hnd & _). rewrite fmap_app, fmap_cons in *. simpl in *.
    rewrite list_to_map_mid by done. wp_step. eapply wp_move_to_head; [done|]. intros h' Hrep' Hc'.
    wp_step. pose proof Hrep' as ((Hseg & _) & _). eapply wp_slot; [apply (dseg_lookup _ _ [] _ _ _ _ _ Hseg)|].
    wp_step. split_and!; [done| |done]. rewrite others_split by done. simpl. rewrite <-fmap_app.
    split_and!; [by exists ((i, (d, b)) :: es1 ++ es2)| |congruence].
    rewrite Hc', fmap_app. simpl. rewrite total_app in *. simpl in Htot. lia.
  - wp_step. apply (rep_lookup_None _ _ _ Hrep) in Hm. rewrite not_elem_of_list_to_map_1 by done.
    simpl. split; [done|]. split; [|done]. split; [by exists es|done].
Qed.

(** A write to the pool is a write to the list. *)
Lemma HotTier_put_spec d b l h :
  hot_repr h l → blen b < 2 ^ 63 →
  wp (HotTier_put d b)
     (λ _ h', hot_repr h' (lru_put (capacity_bytes h) d b l) ∧ capacity_bytes h' = capacity_bytes h)
     (λ (_ : E) _, False) h.
Proof.
  intros ((es & Hrep & <-) & Htot & Hcap) Hb. unfold HotTier_put, lru_put, id. wp_step. wp_step.
  destruct (N.eqb_spec (capacity_bytes h) 0); [wp_step; split; [split; [by exists es|done]|done]|].
  destruct (hot_map h !! d) as [i|] eqn:Hm.
  - destruct (rep_lookup _ _ _ _ Hrep Hm) as (b0 & es1 & es2 & ->). pose proof Hrep as (Hl & Hpool & Hnd & Hmap & Hb0).
    pose proof Hl as (Hseg & _). pose proof (dseg_lookup _ _ _ _ _ _ _ _ Hseg) as Hi.
    rewrite decide_True by (rewrite !fmap_app; set_solver).
    wp_step. eapply wp_slot; [done|]. wp_steps. eapply wp_set_slot; [done|]. wp_step.
    eapply wp_move_to_head; [eapply (rep_set_blob h i d b0 b es1 es2); [done|]|].
    { cbn. unfold usize_sat_add, usize_sat_sub. rewrite Hb0. rewrite fmap_app in *. rewrite total_app in *.
      simpl in *. rewrite N.min_l by (unfold u64_max; lia). rewrite fmap_app, total_app. simpl. lia. }
    intros h' Hrep' Hc'. cbn in Hc'. eapply wp_evict; [done|lia|]. rewrite Hc'. intros h2 Hr2 Hc2.
    rewrite fmap_app in *. simpl in *. rewrite others_split by done. split; [|congruence].
    by rewrite <-fmap_app.
  - pose proof Hrep as (_ & _ & Hnd & Hmap & Hb0). apply (rep_lookup_None _ _ _ Hrep) in Hm.
    rewrite decide_False by done.
    destruct (N.ltb_spec (capacity_bytes h) (blen b)); [wp_step; split; [split; [by exists es|done]|done]|].
    wp_step. eapply wp_alloc; [done|]. intros i h1 Hl1 Hi1 Hni Hpool1 Hm1 Hb1 Hc1. wp_steps.
    eapply wp_push_to_head; [exact Hl1|done|done|]. intros h2 Hl2 (Hc2 & Hb2 & Hm2 & Hf2 & Hlen2). cbn in *.
    eapply (wp_evict ((i, (d, b)) :: es)); [|lia|].
    + split_and!; [done|by rewrite Hf2, Hlen2, <-Hpool1|by constructor| |].
      * rewrite Hm2, Hm1, Hmap. done.
      * rewrite Hb2, Hb1, Hb0. unfold usize_sat_add. rewrite N.min_l by (unfold u64_max; lia). apply N.add_comm.
    + rewrite Hc2, Hc1. intros h3 Hr3 Hc3. split; [done|congruence].
Qed.

End operation_specs.

Lemma hot_repr_new cap : cap < 2 ^ 63 → hot_repr (HotTier_new cap) [].
Proof.
  intros Hc. split; [|split; [simpl; lia|done]]. exists []. split; [|done].
  split_and!; cbn; [split_and!; cbn; try done; constructor|done|constructor|done|done].
Qed.
