(* ===== verification/Tiered.v ===== *)
(** * brokkr-cas: the tiered store

    Models [TieredCas] of [crates/brokkr-cas/src/tiered.rs]: the LRU of
    [HotTier] in front of any store that keeps the [Cas] contract, and shows the
    pair keeps it too. *)

From stdpp Require Import prelude gmap strings.
From Stdlib Require Import Lia.
From S2P Require Import Prelude Machine Bytes Common Redb Cas HotTier.

Local Open Scope N_scope.

Record TieredCas (W : Type) : Type := mkTieredCas { tc_warm : W; tc_hot : HotTier }.
Arguments mkTieredCas {W}.
Arguments tc_warm {W}.
Arguments tc_hot {W}.

Definition TieredCas_new {W} (warm : W) (hot_capacity_bytes : N) : TieredCas W :=
  mkTieredCas warm (HotTier_new hot_capacity_bytes).

Definition hot_bytes {W} (t : TieredCas W) : N := hot_bytes_held (tc_hot t).
Definition hot_len {W} (t : TieredCas W) : N := HotTier_len (tc_hot t).

(** The answers so far, by position. *)
Notation answers := (list (option (outcome CasError bytes))).

Section tiered.
Context {W : Type} `{Cas W}.

Definition on_warm {A} (m : eff W CasError A) : eff (TieredCas W) CasError A :=
  zoom tc_warm (λ w t, mkTieredCas w (tc_hot t)) m.
Definition on_hot {A} (m : eff HotTier CasError A) : eff (TieredCas W) CasError A :=
  zoom tc_hot (λ h t, mkTieredCas (tc_warm t) h) m.

Definition hot_get (d : Digest) : eff (TieredCas W) CasError (option bytes) := on_hot (HotTier_get d).
Definition hot_put (d : Digest) (b : bytes) : eff (TieredCas W) CasError () := on_hot (HotTier_put d b).

Definition tc_find_missing_blobs (digests : list Digest) : eff (TieredCas W) CasError (list Digest) :=
  on_warm (find_missing_blobs digests).

Definition tc_batch_update_blobs (blobs : list (Digest * bytes)) :
    eff (TieredCas W) CasError (list UpdateResult) :=
  results ← on_warm (batch_update_blobs blobs);
  mapM (λ rp : UpdateResult * (Digest * bytes),
          if status_ok rp.1 then hot_put rp.2.1 rp.2.2 else mret ()) (zip results blobs);;
  mret results.

Fixpoint hot_pass (i : nat) (digests : list Digest) (out : answers) (to_fetch : list (nat * Digest)) :
    eff (TieredCas W) CasError (answers * list (nat * Digest)) :=
  match digests with
  | [] => mret (out, to_fetch)
  | d :: digests =>
      hit ← hot_get d;
      match hit with
      | Some b => hot_pass (S i) digests (<[i := Some (Ok b)]> out) to_fetch
      | None => hot_pass (S i) digests out (to_fetch ++ [(i, d)])
      end
  end.

Fixpoint warm_pass (fetched : list (nat * Digest * outcome CasError bytes)) (out : answers) :
    eff (TieredCas W) CasError answers :=
  match fetched with
  | [] => mret out
  | (i, digest, warm_res) :: fetched =>
      match warm_res with Ok b => hot_put digest b | _ => mret () end;;
      warm_pass fetched (<[i := Some warm_res]> out)
  end.

Definition tc_batch_read_blobs (digests : list Digest) :
    eff (TieredCas W) CasError (list (outcome CasError bytes)) :=
  p ← hot_pass 0 digests (replicate (length digests) None) [];
  let '(out, to_fetch) := p in
  match to_fetch with
  | [] => mret (omap id out)
  | _ :: _ =>
      warm_results ← on_warm (batch_read_blobs to_fetch.*2);
      out ← warm_pass (zip to_fetch warm_results) out;
      mret (omap id out)
  end.

#[export] Instance TieredCas_cas : Cas (TieredCas W) := {
  find_missing_blobs := tc_find_missing_blobs;
  batch_update_blobs := tc_batch_update_blobs;
  batch_read_blobs := tc_batch_read_blobs;
  list_digests := default_list_digests;
  delete_blob := default_delete_blob
}.

End tiered.

(** ** The contract *)

Lemma lru_get_subset d l : (lru_get d l).2 ⊆ l ∧ ∀ b, (lru_get d l).1 = Some b → (d, b) ∈ l.
Proof.
  unfold lru_get, others. destruct (list_to_map l !! d) as [b|] eqn:Hm; simpl; [|done].
  apply elem_of_list_to_map_2 in Hm. split; [|by intros b' [= <-]].
  intros p [->|Hp]%elem_of_cons; [done|]. by apply list_elem_of_filter in Hp as [_ ?].
Qed.

Lemma lru_put_subset cap d b l p : p ∈ lru_put cap d b l → p = (d, b) ∨ p ∈ l.
Proof.
  unfold lru_put, others.
  assert (∀ l', p ∈ fitting cap l' → p ∈ l') as Hfit.
  { intros l' Hp. destruct (fitting_prefix cap l') as [k Hk]. rewrite Hk. set_solver. }
  repeat case_match; [by right|..]; [|by right|]; intros [->|Hp]%Hfit%elem_of_cons; auto.
  apply list_elem_of_filter in Hp as [_ ?]. auto.
Qed.

Section tiered_spec.
Context {W : Type} `{CasSpec W}.

(** A blob fit to be cached: the warm store holds its digest, and it has the
    right hash. *)
Definition cacheable (w : W) (p : Digest * bytes) : Prop :=
  cas_has w p.1 = true ∧ sha256_hex p.2 = hash p.1 ∧ blob_fits p.2.

Definition tc_ok (t : TieredCas W) : Prop :=
  cas_ok (tc_warm t) ∧ ∃ l, hot_repr (tc_hot t) l ∧ Forall (cacheable (tc_warm t)) l.

Definition tc_has (t : TieredCas W) (d : Digest) : bool := cas_has (tc_warm t) d.

Lemma tc_ok_warm t w :
  tc_ok t → cas_ok w → (∀ d, cas_has (tc_warm t) d = true → cas_has w d = true) →
  tc_ok (mkTieredCas w (tc_hot t)).
Proof.
  intros (_ & l & Hr & Hl) Hw Hup. split; [done|]. exists l. split; [done|].
  eapply Forall_impl; [exact Hl|]. intros p (? & ? & ?). split_and!; simpl; auto.
Qed.

Lemma tc_ok_keeps t w :
  tc_ok t → (cas_ok w ∧ ∀ d, cas_has w d = cas_has (tc_warm t) d) →
  tc_ok (mkTieredCas w (tc_hot t)) ∧ ∀ d, tc_has (mkTieredCas w (tc_hot t)) d = tc_has t d.
Proof. intros Ht [Hw Hh]. split; [|exact Hh]. apply tc_ok_warm; [done|done|]. intros d. by rewrite Hh. Qed.

Lemma hot_get_spec d (t : TieredCas W) :
  tc_ok t →
  wp (hot_get d)
     (λ r t', tc_ok t' ∧ tc_warm t' = tc_warm t ∧ ∀ b, r = Some b → cacheable (tc_warm t) (d, b))
     (λ _ _, False) t.
Proof.
  intros (Hw & l & Hr & Hl). unfold hot_get, on_hot. apply wp_zoom.
  eapply wp_mono; [by apply HotTier_get_spec| |done]. intros r h (-> & Hr' & _). cbn beta.
  destruct (lru_get_subset d l) as [Hsub Hin]. rewrite Forall_forall in Hl.
  split_and!; [|done|intros b Hb; by apply Hl, Hin]. split; [done|]. exists (lru_get d l).2.
  split; [done|]. apply Forall_forall. intros p Hp. by apply Hl, Hsub.
Qed.

Lemma hot_put_spec d b (t : TieredCas W) :
  tc_ok t → cacheable (tc_warm t) (d, b) →
  wp (hot_put d b) (λ _ t', tc_ok t' ∧ tc_warm t' = tc_warm t) (λ _ _, False) t.
Proof.
  intros (Hw & l & Hr & Hl) Hd. unfold hot_put, on_hot. apply wp_zoom.
  eapply wp_mono; [apply HotTier_put_spec; [done|apply Hd]| |done]. intros [] h [Hr' _]. cbn beta.
  split; [|done]. split; [done|]. eexists. split; [done|]. rewrite Forall_forall in *.
  intros p [->|Hp]%lru_put_subset; auto.
Qed.

(** Every position is answered, or still to be fetched. *)
Definition answered (w : W) (ds : list Digest) (out : answers) (todo : list (nat * Digest)) : Prop :=
  length out = length ds ∧
  ∀ j d, ds !! j = Some d →
    (∃ r, out !! j = Some (Some r) ∧ read_answer (cas_has w d) d r) ∨ (out !! j = Some None ∧ (j, d) ∈ todo).

Lemma answered_set w ds out todo1 todo2 i d r :
  answered w ds out (todo1 ++ (i, d) :: todo2) → ds !! i = Some d → read_answer (cas_has w d) d r →
  answered w ds (<[i := Some r]> out) (todo1 ++ todo2).
Proof.
  intros [Hlen Hall] Hi Hr. split; [by rewrite length_insert|]. intros j d' Hj.
  destruct (decide (i = j)) as [<-|Hij].
  - simplify_eq. left. exists r. split; [|done]. apply list_lookup_insert_eq.
    rewrite Hlen. by eapply lookup_lt_Some.
  - rewrite list_lookup_insert_ne by done. destruct (Hall j d' Hj) as [?|[? Hin]]; [by left|right].
    split; [done|]. set_solver.
Qed.

Lemma answered_done w ds out :
  answered w ds out [] → Forall2 (λ d r, read_answer (cas_has w d) d r) ds (omap id out).
Proof.
  intros [Hlen Hall].
  assert (Forall2 (λ d o, ∃ r, o = Some r ∧ read_answer (cas_has w d) d r) ds out) as Hf.
  { apply Forall2_same_length_lookup. split; [done|]. intros j d o Hd Ho.
    destruct (Hall j d Hd) as [(r & Hr & ?)|[_ []%elem_of_nil]]. simplify_eq. eauto. }
  clear Hlen Hall. induction Hf as [|d o ds out (r & -> & Hr) Hf IH]; simpl; [constructor|]. by constructor.
Qed.

Fixpoint numbered (i : nat) (ds : list Digest) : list (nat * Digest) :=
  match ds with [] => [] | d :: ds => (i, d) :: numbered (S i) ds end.

Lemma numbered_elem ds i j d : (j, d) ∈ numbered i ds ↔ (i ≤ j)%nat ∧ ds !! (j - i)%nat = Some d.
Proof.
  revert i. induction ds as [|d' ds IH]; intros i; simpl; [split; [by intros ?%elem_of_nil|intros [_ ?]; done]|].
  rewrite elem_of_cons, IH. split.
  - intros [[= -> ->]|[Hle Hd]]; [by rewrite Nat.sub_diag|]. split; [lia|].
    by replace (j - i)%nat with (S (j - S i)) by lia.
  - intros [Hle Hd]. destruct (decide (i = j)) as [->|]; [left; rewrite Nat.sub_diag in Hd; by simplify_eq/=|right].
    split; [lia|]. by replace (j - i)%nat with (S (j - S i)) in Hd by lia.
Qed.

Lemma hot_pass_spec ds0 i ds out fetch (t : TieredCas W) :
  tc_ok t → answered (tc_warm t) ds0 out (fetch ++ numbered i ds) →
  Forall (λ p, ds0 !! p.1 = Some p.2) (fetch ++ numbered i ds) →
  wp (hot_pass i ds out fetch)
     (λ p t', tc_ok t' ∧ tc_warm t' = tc_warm t ∧ answered (tc_warm t) ds0 p.1 p.2
              ∧ Forall (λ p, ds0 !! p.1 = Some p.2) p.2)
     (λ _ _, False) t.
Proof.
  revert i out fetch t. induction ds as [|d ds IH]; intros i out fetch t Ht Hans Hnum; simpl in *.
  { wp_step. rewrite app_nil_r in *. done. }
  wp_step. eapply wp_mono; [by apply hot_get_spec| |done]. intros r t1 (Ht1 & Hw1 & Hr). cbn beta.
  rewrite Forall_app, Forall_cons in Hnum. destruct Hnum as (Hf & Hi & Hn). rewrite <-Hw1 in *.
  destruct r as [b|]; (eapply wp_mono; [apply IH; [done|..]|done|done]).
  - eapply answered_set; [done|done|]. by apply Hr.
  - by apply Forall_app.
  - by rewrite <-app_assoc.
  - rewrite <-app_assoc. apply Forall_app. split; [done|]. by constructor.
Qed.

Lemma warm_pass_spec ds0 fetch rs out (t : TieredCas W) :
  tc_ok t → answered (tc_warm t) ds0 out fetch → Forall (λ p, ds0 !! p.1 = Some p.2) fetch →
  Forall2 (λ p r, read_answer (cas_has (tc_warm t) p.2) p.2 r) fetch rs →
  wp (warm_pass (zip fetch rs) out)
     (λ out' t', tc_ok t' ∧ tc_warm t' = tc_warm t ∧ answered (tc_warm t) ds0 out' [])
     (λ _ _, False) t.
Proof.
  intros Ht Hans Hnum Hrs. revert rs out t Ht Hans Hrs.
  induction Hnum as [|[i d] fetch Hi Hnum IH]; intros rs out t Ht Hans Hrs.
  { apply Forall2_nil_inv_l in Hrs as ->. simpl. by wp_step. }
  apply Forall2_cons_inv_l in Hrs as (r & rs' & Hr & Hrs & ->). simpl in *. wp_step.
  apply (answered_set _ _ _ [] _ _ _ r) in Hans; [|done|done].
  assert (wp (match r with Ok b => hot_put d b | _ => mret () end)
             (λ _ t', tc_ok t' ∧ tc_warm t' = tc_warm t) (λ _ _, False) t) as Hput.
  { destruct r as [b|e|]; [apply hot_put_spec; [done|apply Hr]|by apply wp_ret..]. }
  eapply wp_mono; [exact Hput| |done]. intros [] t1 [Ht1 Hw1]. cbn beta.
  eapply wp_mono; [by apply IH; rewrite ?Hw1| |done]. intros out' t2 (? & Hw2 & ?).
  rewrite Hw2, Hw1 in *. done.
Qed.

Lemma tc_read_spec ds (t : TieredCas W) :
  tc_ok t →
  wp (tc_batch_read_blobs ds)
     (λ rs t', (tc_ok t' ∧ ∀ d, tc_has t' d = tc_has t d)
               ∧ Forall2 (λ d r, read_answer (tc_has t d) d r) ds rs)
     (λ _ t', tc_ok t' ∧ ∀ d, tc_has t' d = tc_has t d) t.
Proof.
  intros Ht. unfold tc_batch_read_blobs, tc_has. wp_step.
  eapply wp_mono; [apply (hot_pass_spec ds); [done|..]| |done].
  - split; [by rewrite length_replicate|]. intros j d Hj. right.
    split; [apply lookup_replicate; split; [done|by eapply lookup_lt_Some]|].
    simpl. rewrite numbered_elem, Nat.sub_0_r. by split; [lia|].
  - apply Forall_forall. simpl. intros [j d]. rewrite numbered_elem, Nat.sub_0_r. by intros [_ ?].
  - intros [out fetch] t1 (Ht1 & Hw1 & Hans & Hnum). cbn in *. rewrite <-Hw1 in *.
    destruct fetch as [|f fetch]; [wp_step; split; [done|]; by apply answered_done|].
    wp_step. apply wp_zoom. eapply wp_mono; [apply batch_read_spec, Ht1|..]; cbn beta.
    2:{ intros e w Hk. by apply tc_ok_keeps. }
    intros rs w [Hk Hrs]. destruct (tc_ok_keeps _ _ Ht1 Hk) as [Ht2 Hh]. destruct Hk as [Hw2 Hhas].
    assert (∀ ds out todo, answered (tc_warm t1) ds out todo → answered w ds out todo) as Hmove.
    { intros ds' out' todo [? Hall]. split; [done|]. intros j d Hj. rewrite Hhas. auto. }
    wp_step. eapply wp_mono; [apply (warm_pass_spec ds)| |done]; [done|by apply Hmove|done| |].
    + rewrite Forall2_fmap_l in Hrs. eapply Forall2_impl; [exact Hrs|]. intros p r. simpl. by rewrite Hhas.
    + intros out' t3 (Ht3 & Hw3 & Hans'). wp_step. rewrite Hw3. simpl. split; [done|].
      apply answered_done in Hans'. simpl in Hans'. eapply Forall2_impl; [exact Hans'|].
      intros d r. simpl. by rewrite Hhas.
Qed.

Lemma tc_update_spec bs (t : TieredCas W) :
  tc_ok t → Forall (λ p, blob_fits p.2) bs →
  wp (tc_batch_update_blobs bs) (update_post tc_ok tc_has t bs)
     (λ _ t', tc_ok t' ∧ ∀ d, tc_has t' d = tc_has t d) t.
Proof.
  intros Ht Hfit. unfold tc_batch_update_blobs. wp_step. apply wp_zoom.
  eapply wp_mono; [apply batch_update_spec; [apply Ht|done]|..]; cbn beta.
  2:{ intros e w Hk. by apply tc_ok_keeps. }
  intros rs w (Hw & Hrs & Hup & Hdown). wp_step.
  eapply wp_mono; [apply (wp_mapM _ (λ _ t', tc_ok t' ∧ tc_warm t' = w) (λ _ _, False))| |done].
  - split; [by apply tc_ok_warm|done].
  - intros [r [d b]] done_ t1 Hin [Ht1 Hw1]. simpl. apply elem_of_lookup_zip_with in Hin as (n & r' & p & ? & Hr & Hp).
    simplify_eq. destruct (Forall2_lookup_lr _ _ _ _ _ _ Hrs Hp Hr) as [_ Hst]. simpl in *.
    destruct (status_ok r'); [|by wp_step]. destruct (Hst eq_refl) as [Hd Hhas].
    eapply wp_mono; [apply hot_put_spec; [done|]| |done].
    + split_and!; simpl; [done|by rewrite Hd|]. by apply (Forall_lookup_1 _ _ _ _ Hfit Hp).
    + intros [] t2 [? Hw2]. by rewrite Hw2.
  - intros us t1 [Ht1 Hw1]. wp_step. unfold update_post, tc_has. by rewrite Hw1.
Qed.

#[export] Instance TieredCas_spec : CasSpec (TieredCas W).
Proof.
  refine {| cas_ok := tc_ok; cas_has := tc_has |}.
  - intros ds t Ht. simpl. unfold tc_find_missing_blobs. apply wp_zoom.
    eapply wp_mono; [apply find_missing_spec, Ht|..]; cbn beta.
    + intros m w [Hk Hm]. split; [by apply tc_ok_keeps|done].
    + intros e w Hk. by apply tc_ok_keeps.
  - intros ds t. apply tc_read_spec.
  - intros bs t. apply tc_update_spec.
Defined.

Lemma TieredCas_new_ok w cap : cas_ok w → cap < 2 ^ 63 → tc_ok (TieredCas_new w cap).
Proof. intros Hw Hc. split; [done|]. exists []. split; [by apply hot_repr_new|constructor]. Qed.

End tiered_spec.
