(* ===== verification/Ring.v ===== *)
(** * brokkr-cas: rendezvous hashing and the router

    Models [crates/brokkr-cas/src/ring.rs] and [router.rs]: scoring, replica
    selection and the topology view.  SHA-256 on raw bytes is a parameter.
    [sort_unstable_by] is a merge sort here; the two can differ only in the order
    of nodes with the same id, and the theorems ask for distinct ids. *)

From stdpp Require Import prelude gmap strings sorting.
From Stdlib Require Import Lia.
From S2P Require Import Prelude Machine Bytes Common.

Local Open Scope N_scope.

Inductive NodeStatus : Type := Healthy | Suspect | Unreachable.

#[export] Instance NodeStatus_eq_dec : EqDecision NodeStatus.
Proof. solve_decision. Defined.

Definition is_eligible (s : NodeStatus) : bool :=
  match s with Healthy | Suspect => true | Unreachable => false end.

Record RingNode : Type := mkRingNode {
  node_id : string;
  endpoint : string;
  status : NodeStatus
}.

#[export] Instance RingNode_eq_dec : EqDecision RingNode.
Proof. solve_decision. Defined.

(** [Sha256::digest] on bytes. *)
Class Sha256Bytes : Type := sha256_bytes : bytes → bytes.

(** [u128::from_be_bytes]. *)
Definition from_be (b : bytes) : N := foldl (λ n x, 256 * n + Byte.to_N x) 0 b.

Section ring.
Context `{Sha256Bytes}.

Definition score (id : string) (d : Digest) : N :=
  let out := sha256_bytes (as_bytes id ++ [Byte.x1f] ++ as_bytes (hash d)) in
  from_be (take 16 out).

(** [(score DESC, node_id ASC)]. *)
Definition ranks (d : Digest) (a b : RingNode) : Prop :=
  score (node_id b) d < score (node_id a) d ∨
  score (node_id a) d = score (node_id b) d ∧ String.le (node_id a) (node_id b).

#[export] Instance ranks_dec d a b : Decision (ranks d a b) := _ : Decision (_ ∨ _).

Definition replicas_for (d : Digest) (nodes : list RingNode) (r : N) : list RingNode :=
  if r =? 0 then []
  else take (N.to_nat r) (merge_sort (ranks d) (filter (λ n, is_eligible (status n) = true) nodes)).

End ring.

(** ** The router *)

Record Topology : Type := mkTopology {
  generation : u64;
  nodes : list RingNode;
  replication_factor : N
}.

Definition eligible_count (t : Topology) : N :=
  N.of_nat (length (filter (λ n, is_eligible (status n) = true) (nodes t))).

Definition Router : Type := Topology.

Definition Router_new (initial : Topology) : Router := initial.

(** The new view, and the generation of the one it replaces. *)
Definition update_topology (next : Topology) (r : Router) : Router * u64 := (next, generation r).

Definition Router_replicas_for `{Sha256Bytes} (rt : Router) (d : Digest) (r : N) : list RingNode :=
  replicas_for d (nodes rt) r.

Definition primary_replicas_for `{Sha256Bytes} (rt : Router) (d : Digest) : list RingNode :=
  replicas_for d (nodes rt) (replication_factor rt).

(** ** Replica selection *)

Section ring_facts.
Context `{Sha256Bytes}.

#[export] Instance ranks_trans d : Transitive (ranks d).
Proof.
  intros a b c. unfold ranks. intros [?|[? ?]] [?|[? ?]]; [left; lia|left; lia|left; lia|right].
  split; [lia|]. by etrans.
Qed.

#[export] Instance ranks_total d : Total (ranks d).
Proof.
  intros a b. unfold ranks. destruct (N.lt_total (score (node_id a) d) (score (node_id b) d)) as [?|[?|?]]; [auto| |auto].
  destruct (total String.le (node_id a) (node_id b)); auto.
Qed.

Lemma ranks_antisym d a b : ranks d a b → ranks d b a → node_id a = node_id b.
Proof. unfold ranks. intros [?|[? ?]] [?|[? ?]]; [lia|lia|lia|]. by apply (anti_symm String.le). Qed.

Definition eligible (ns : list RingNode) : list RingNode := filter (λ n, is_eligible (status n) = true) ns.

(** All eligible nodes, best first. *)
Definition ranking (d : Digest) (ns : list RingNode) : list RingNode := merge_sort (ranks d) (eligible ns).

Lemma replicas_for_ranking d ns r : replicas_for d ns r = take (N.to_nat r) (ranking d ns).
Proof. unfold replicas_for. destruct (N.eqb_spec r 0) as [->|]; done. Qed.

Lemma ranking_elem d ns n : n ∈ ranking d ns ↔ n ∈ ns ∧ is_eligible (status n) = true.
Proof. unfold ranking, eligible. rewrite merge_sort_Permutation, list_elem_of_filter. tauto. Qed.

Lemma ranking_sorted d ns : StronglySorted (ranks d) (ranking d ns).
Proof. apply StronglySorted_merge_sort; apply _. Qed.

Lemma filter_NoDup_ids (P : RingNode → Prop) `{∀ n, Decision (P n)} ns :
  NoDup (node_id <$> ns) → NoDup (node_id <$> filter P ns).
Proof.
  induction ns as [|n ns IH]; [done|]. rewrite fmap_cons, NoDup_cons, filter_cons. intros [Hn Hns].
  case_decide; [|auto]. rewrite fmap_cons, NoDup_cons. split; [|auto].
  intros (m & Hid & [_ Hm]%list_elem_of_filter)%list_elem_of_fmap. apply Hn. rewrite Hid. by apply list_elem_of_fmap_2.
Qed.

Lemma ranking_NoDup d ns : NoDup (node_id <$> ns) → NoDup (node_id <$> ranking d ns).
Proof. intros Hn. unfold ranking. rewrite merge_sort_Permutation. by apply filter_NoDup_ids. Qed.

(** With distinct ids there is one way to rank a set of nodes. *)
Lemma ranked_unique d l1 l2 :
  NoDup (node_id <$> l1) → l1 ≡ₚ l2 → StronglySorted (ranks d) l1 → StronglySorted (ranks d) l2 → l1 = l2.
Proof.
  intros Hn Hp H1 H2. apply (StronglySorted_unique_strong (ranks d)); [|done..].
  intros a b Ha Hb Hab Hba. rewrite <-Hp in Hb. pose proof (ranks_antisym _ _ _ Hab Hba) as Hid.
  apply list_elem_of_lookup in Ha as [i Hi], Hb as [j Hj].
  assert (i = j) as <-; [|congruence]. eapply NoDup_lookup; [exact Hn|..]; rewrite list_lookup_fmap.
  - by rewrite Hi.
  - rewrite Hj. simpl. congruence.
Qed.

Lemma ranking_perm d ns ns' : NoDup (node_id <$> ns) → ns ≡ₚ ns' → ranking d ns = ranking d ns'.
Proof.
  intros Hn Hp. apply (ranked_unique d); [by apply ranking_NoDup| |apply ranking_sorted..].
  unfold ranking, eligible. by rewrite !merge_sort_Permutation, Hp.
Qed.

Lemma ranking_filter d (P : RingNode → Prop) `{∀ n, Decision (P n)} ns :
  NoDup (node_id <$> ns) → ranking d (filter P ns) = filter P (ranking d ns).
Proof.
  intros Hn. apply (ranked_unique d).
  - by apply ranking_NoDup, filter_NoDup_ids.
  - unfold ranking, eligible. rewrite !merge_sort_Permutation, !list_filter_filter.
    erewrite list_filter_iff; [reflexivity|]. intros n. simpl. tauto.
  - apply ranking_sorted.
  - apply StronglySorted_filter, ranking_sorted.
Qed.

Lemma filter_take {A} (P : A → Prop) `{∀ x, Decision (P x)} k (l : list A) :
  filter P (take k l) `prefix_of` take k (filter P l).
Proof.
  revert k. induction l as [|x l IH]; intros [|k]; simpl; [done|done|apply prefix_nil|].
  rewrite !filter_cons. case_decide; simpl; [by apply prefix_cons|].
  etrans; [apply IH|]. replace (take k (filter P l)) with (take k (take (S k) (filter P l))).
  - apply prefix_take.
  - rewrite take_take. f_equal. lia.
Qed.

(** Losing a node moves only what that node held: the surviving replicas keep
    their order and ranks, and a digest the node did not hold keeps its
    replicas. *)
Lemma replicas_for_loss d ns r x :
  NoDup (node_id <$> ns) →
  filter (λ n, node_id n ≠ x) (replicas_for d ns r)
    `prefix_of` replicas_for d (filter (λ n, node_id n ≠ x) ns) r ∧
  (x ∉ node_id <$> replicas_for d ns r →
     replicas_for d (filter (λ n, node_id n ≠ x) ns) r = replicas_for d ns r).
Proof.
  intros Hn. rewrite !replicas_for_ranking, ranking_filter by done.
  assert (filter (λ n, node_id n ≠ x) (take (N.to_nat r) (ranking d ns))
    `prefix_of` take (N.to_nat r) (filter (λ n, node_id n ≠ x) (ranking d ns))) as Hp by apply filter_take.
  split; [done|]. intros Hx.
  assert (filter (λ n, node_id n ≠ x) (take (N.to_nat r) (ranking d ns)) = take (N.to_nat r) (ranking d ns)) as Hid.
  { clear Hp. induction (take (N.to_nat r) (ranking d ns)) as [|n l IH]; [done|].
    rewrite fmap_cons, not_elem_of_cons in Hx. rewrite filter_cons, decide_True by naive_solver.
    f_equal. apply IH, Hx. }
  rewrite Hid in Hp. symmetry. apply prefix_length_eq; [done|].
  rewrite !length_take. pose proof (length_filter (λ n, node_id n ≠ x) (ranking d ns)). lia.
Qed.

End ring_facts.
