(* ===== verification/Replicated.v ===== *)
(** * brokkr-cas: the replicated store and peer repair

    Models [crates/brokkr-cas/src/replicated.rs] and [peer.rs] over any store
    that keeps the [Cas] contract.  The pool maps a node id to the store of that
    node; every node has a store of its own.  The writes of one blob go to
    distinct nodes, so running them in turn gives what [join_all] gives.  The
    order in which a [HashMap] or [HashSet] is walked is unspecified; no theorem
    depends on the one chosen here. *)

From stdpp Require Import prelude gmap strings pretty.
From Stdlib Require Import Lia.
From S2P Require Import Prelude Machine Bytes Common Redb Cas Ring.

Local Open Scope N_scope.

(** [StaticPool]. *)
Notation StaticPool C := (gmap string C).

Definition StaticPool_new {C} : StaticPool C := ∅.

(** The pool with [cas] under [id], and the store it displaces. *)
Definition StaticPool_insert {C} (id : string) (cas : C) (p : StaticPool C) : StaticPool C * option C :=
  (<[id := cas]> p, p !! id).

Record ReplicatedCas (C : Type) : Type := mkReplicatedCas {
  pool : StaticPool C;
  topology : Topology
}.
Arguments mkReplicatedCas {C}.
Arguments pool {C}.
Arguments topology {C}.

Definition ReplicatedCas_new {C} (p : StaticPool C) (t : Topology) : ReplicatedCas C := mkReplicatedCas p t.

Section replicated.
Context {C : Type} `{Cas C} `{Sha256Bytes} `{ErrText}.

Definition rep_replicas_for (t : Topology) (d : Digest) : list RingNode :=
  replicas_for d (nodes t) (replication_factor t).

Definition write_quorum (t : Topology) : N :=
  let r := replication_factor t in
  if r =? 0 then 0 else r / 2 + 1.

(** [self.pool.get(id)], then a call on it whose [Result] is inspected, not
    propagated. *)
Definition at_node {A} (id : string) (m : eff C CasError A) :
    eff (StaticPool C) CasError (option (outcome CasError A)) := λ p,
  match p !! id with
  | None => (p, Ok None)
  | Some c => let '(c', r) := m c in (<[id := c']> p, Ok (Some r))
  end.

Definition on_pool {A} (m : eff (StaticPool C) CasError A) : eff (ReplicatedCas C) CasError A :=
  zoom pool (λ p c, mkReplicatedCas p (topology c)) m.

(** *** Finding missing blobs *)

(** The grouping loop: digests by primary, and the replicas of the first digest
    seen for each primary; [None] where a digest has no replica at all. *)
Fixpoint group_by_primary (t : Topology) (digests : list Digest)
    (by_node : gmap string (list Digest)) (node_endpoints : gmap string (list RingNode)) :
    option (gmap string (list Digest) * gmap string (list RingNode)) :=
  match digests with
  | [] => Some (by_node, node_endpoints)
  | d :: digests =>
      match rep_replicas_for t d with
      | [] => None
      | primary :: _ as replicas =>
          let id := node_id primary in
          group_by_primary t digests
            (<[id := default [] (by_node !! id) ++ [d]]> by_node)
            (<[id := default replicas (node_endpoints !! id)]> node_endpoints)
      end
  end.

(** The first replica that answers. *)
Fixpoint ask_replicas (slice : list Digest) (replicas : list RingNode) :
    eff (StaticPool C) CasError (option (list Digest)) :=
  match replicas with
  | [] => mret None
  | replica :: replicas =>
      r ← at_node (node_id replica) (find_missing_blobs slice);
      match r with
      | Some (Ok m) => mret (Some m)
      | Some Halt => halt
      | _ => ask_replicas slice replicas
      end
  end.

Definition rp_find_missing_blobs (digests : list Digest) : eff (ReplicatedCas C) CasError (list Digest) :=
  t ← gets topology;
  match group_by_primary t digests ∅ ∅ with
  | None => mret digests
  | Some (by_node, node_endpoints) =>
      missing ← mapM (λ g : string * list Digest,
        m ← on_pool (ask_replicas g.2 (default [] (node_endpoints !! g.1)));
        mret (default g.2 m)) (map_to_list by_node);
      mret (mjoin missing)
  end.

(** *** Writing *)

(** What one replica answered to the write of one blob. *)
Definition acked (r : outcome CasError (list UpdateResult)) : bool :=
  match r with Ok (x :: _) => status_ok x | _ => false end.

Definition write_error (r : outcome CasError (list UpdateResult)) : option string :=
  match r with
  | Ok (x :: _) => match ur_status x with Err e => Some e | _ => None end
  | Err e => Some (cas_error_text e)
  | _ => None
  end.

Fixpoint fan_out (p : Digest * bytes) (replicas : list RingNode) :
    eff (StaticPool C) CasError (list (outcome CasError (list UpdateResult))) :=
  match replicas with
  | [] => mret []
  | replica :: replicas =>
      r ← at_node (node_id replica) (batch_update_blobs [p]);
      rs ← fan_out p replicas;
      match r with
      | None => mret rs
      | Some Halt => halt
      | Some r => mret (r :: rs)
      end
  end.

(** The counting loop: acknowledgements, and the last error seen. *)
Definition tally (results : list (outcome CasError (list UpdateResult))) : N * option string :=
  foldl (λ s r,
    if acked r then (s.1 + 1, s.2)
    else match write_error r with Some e => (s.1, Some e) | None => s end) (0, None) results.

Definition rp_update_one (p : Digest * bytes) : eff (ReplicatedCas C) CasError UpdateResult :=
  t ← gets topology;
  let quorum := write_quorum t in
  match rep_replicas_for t p.1 with
  | [] => mret (mkUpdateResult p.1 (Err "no replicas available"))
  | replicas =>
      results ← on_pool (fan_out p replicas);
      let '(acks, last_err) := tally results in
      mret (mkUpdateResult p.1
        (if quorum <=? acks then Ok ()
         else Err (default ("write quorum not reached: " +:+ pretty acks +:+ "/" +:+ pretty quorum) last_err)))
  end.

Definition rp_batch_update_blobs (blobs : list (Digest * bytes)) :
    eff (ReplicatedCas C) CasError (list UpdateResult) :=
  mapM rp_update_one blobs.

(** *** Reading *)

Fixpoint read_replicas (d : Digest) (replicas : list RingNode) :
    eff (StaticPool C) CasError (option bytes) :=
  match replicas with
  | [] => mret None
  | replica :: replicas =>
      r ← at_node (node_id replica) (batch_read_blobs [d]);
      match r with
      | Some (Ok results) =>
          match last results with
          | Some (Ok b) => mret (Some b)
          | _ => read_replicas d replicas
          end
      | Some Halt => halt
      | _ => read_replicas d replicas
      end
  end.

Definition rp_read_one (d : Digest) : eff (ReplicatedCas C) CasError (outcome CasError bytes) :=
  t ← gets topology;
  found ← on_pool (read_replicas d (rep_replicas_for t d));
  mret (match found with Some b => Ok b | None => Err (CasNotFound d) end).

Definition rp_batch_read_blobs (digests : list Digest) :
    eff (ReplicatedCas C) CasError (list (outcome CasError bytes)) :=
  mapM rp_read_one digests.

#[export] Instance ReplicatedCas_cas : Cas (ReplicatedCas C) := {
  find_missing_blobs := rp_find_missing_blobs;
  batch_update_blobs := rp_batch_update_blobs;
  batch_read_blobs := rp_batch_read_blobs;
  list_digests := default_list_digests;
  delete_blob := default_delete_blob
}.

End replicated.

(** ** Peer repair *)

Record RepairReport : Type := mkRepairReport {
  expected : N;
  already_present : N;
  repaired : N;
  unrepairable : list Digest
}.

Section peer.
Context {C : Type} `{Cas C} `{Sha256Bytes}.

(** A call on the store of [id] whose error is propagated. *)
Definition at_node_try {A} (id : string) (m : eff C CasError A) :
    eff (StaticPool C) CasError (option A) :=
  r ← at_node id m;
  match r with
  | None => mret None
  | Some (Ok a) => mret (Some a)
  | Some (Err e) => throw e
  | Some Halt => halt
  end.

(** The union of what the nodes of the topology hold. *)
Fixpoint collect_universe (ns : list RingNode) (universe : gset Digest) :
    eff (StaticPool C) CasError (gset Digest) :=
  match ns with
  | [] => mret universe
  | n :: ns =>
      local ← at_node_try (node_id n) list_digests;
      collect_universe ns (universe ∪ list_to_set (default [] local))
  end.

(** Pull one blob from the first peer that has it and can hand it over. *)
Fixpoint pull (target : string) (d : Digest) (replicas : list RingNode) :
    eff (StaticPool C) CasError bool :=
  match replicas with
  | [] => mret false
  | replica :: replicas =>
      if decide (node_id replica = target) then pull target d replicas
      else
        r ← at_node (node_id replica) (batch_read_blobs [d]);
        match r with
        | Some (Ok results) =>
            match last results with
            | Some (Ok b) =>
                writes ← at_node_try target (batch_update_blobs [(d, b)]);
                if acked (Ok (default [] writes)) then mret true else pull target d replicas
            | _ => pull target d replicas
            end
        | Some Halt => halt
        | _ => pull target d replicas
        end
  end.

Definition repair_one (t : Topology) (target : string) (target_local : gset Digest)
    (report : RepairReport) (d : Digest) : eff (StaticPool C) CasError RepairReport :=
  let replicas := replicas_for d (nodes t) (replication_factor t) in
  if bool_decide (target ∈ node_id <$> replicas) then
    let report := mkRepairReport (expected report + 1) (already_present report) (repaired report) (unrepairable report) in
    if decide (d ∈ target_local) then
      mret (mkRepairReport (expected report) (already_present report + 1) (repaired report) (unrepairable report))
    else
      pulled ← pull target d replicas;
      mret (if pulled : bool
            then mkRepairReport (expected report) (already_present report) (repaired report + 1) (unrepairable report)
            else mkRepairReport (expected report) (already_present report) (repaired report) (unrepairable report ++ [d]))
  else mret report.

Fixpoint repair_all (t : Topology) (target : string) (target_local : gset Digest)
    (report : RepairReport) (universe : list Digest) : eff (StaticPool C) CasError RepairReport :=
  match universe with
  | [] => mret report
  | d :: universe =>
      report ← repair_one t target target_local report d;
      repair_all t target target_local report universe
  end.

Definition repair_node (t : Topology) (target : string) : eff (StaticPool C) CasError RepairReport :=
  p ← gets id;
  match p !! target with
  | None => throw (CasIo ("peer-repair: unknown target node " +:+ target))
  | Some _ =>
      universe ← collect_universe (nodes t) ∅;
      target_local ← at_node_try target list_digests;
      repair_all t target (list_to_set (default [] target_local)) (mkRepairReport 0 0 0 []) (elements universe)
  end.

Definition repair_cluster (t : Topology) : eff (StaticPool C) CasError (list (string * RepairReport)) :=
  mapM (λ n, report ← repair_node t (node_id n); mret (node_id n, report)) (nodes t).

End peer.

(** ** Pools of sound stores *)

Section pool_facts.
Context {C : Type} `{CasSpec C}.
Implicit Types (p : StaticPool C).

Definition pool_ok p : Prop := ∀ id c, p !! id = Some c → cas_ok c.

(** The same nodes, each holding at least what it held. *)
Definition pool_le p p' : Prop :=
  ∀ id, match p !! id, p' !! id with
        | Some c, Some c' => ∀ d, cas_has c d = true → cas_has c' d = true
        | None, None => True
        | _, _ => False
        end.

#[export] Instance pool_le_refl : Reflexive pool_le.
Proof. intros p id. by destruct (p !! id). Qed.

#[export] Instance pool_le_trans : Transitive pool_le.
Proof.
  intros p1 p2 p3 H12 H23 id. specialize (H12 id). specialize (H23 id).
  destruct (p1 !! id), (p2 !! id), (p3 !! id); naive_solver.
Qed.

Lemma pool_ok_insert p id c : pool_ok p → cas_ok c → pool_ok (<[id := c]> p).
Proof. intros Hp Hc id' c'. rewrite lookup_insert_Some. intros [[_ <-]|[_ ?]]; [done|]. by eapply Hp. Qed.

Lemma pool_le_insert p id c c' :
  p !! id = Some c → (∀ d, cas_has c d = true → cas_has c' d = true) → pool_le p (<[id := c']> p).
Proof.
  intros Hc Hle id'. destruct (decide (id = id')) as [<-|Hne].
  - by rewrite Hc, lookup_insert_eq.
  - rewrite lookup_insert_ne by done. by destruct (p !! id').
Qed.

(** Whether a node of the pool holds a digest. *)
Definition node_has p (d : Digest) (n : RingNode) : bool :=
  match p !! node_id n with Some c => cas_has c d | None => false end.

Lemma node_has_le p p' d n : pool_le p p' → node_has p d n = true → node_has p' d n = true.
Proof.
  intros Hle. specialize (Hle (node_id n)). unfold node_has.
  destruct (p !! node_id n), (p' !! node_id n); naive_solver.
Qed.

Lemma wp_at_node {A} id (m : eff C CasError A) (Q : option (outcome CasError A) → StaticPool C → Prop)
    (X : CasError → StaticPool C → Prop) p :
  (p !! id = None → Q None p) →
  (∀ c, p !! id = Some c →
     wp m (λ a c', Q (Some (Ok a)) (<[id := c']> p)) (λ e c', Q (Some (Err e)) (<[id := c']> p)) c) →
  wp (at_node id m) Q X p.
Proof.
  intros HN HS. unfold wp, at_node in *. destruct (p !! id) as [c|]; [|auto].
  specialize (HS c eq_refl). destruct (m c) as [c' [a|e|]]; done.
Qed.

Lemma wp_at_node_try {A} id (m : eff C CasError A) (Q : option A → StaticPool C → Prop)
    (X : CasError → StaticPool C → Prop) p :
  (p !! id = None → Q None p) →
  (∀ c, p !! id = Some c →
     wp m (λ a c', Q (Some a) (<[id := c']> p)) (λ e c', X e (<[id := c']> p)) c) →
  wp (at_node_try id m) Q X p.
Proof.
  intros HN HS. unfold at_node_try. wp_step. apply wp_at_node; [intros HNone; wp_step; auto|].
  intros c Hc. eapply wp_mono; [by apply HS|done|]. intros e c' HX. by apply wp_throw.
Qed.

End pool_facts.

Section replicated_spec.
Context {C : Type} `{CasSpec C} `{Sha256Bytes} `{ErrText}.
Implicit Types (p : StaticPool C).

Lemma fan_out_spec d b ns p :
  pool_ok p → blob_fits b →
  wp (fan_out (d, b) ns)
     (λ rs p', pool_ok p' ∧ pool_le p p'
        ∧ (length (filter (λ r, acked r = true) rs) ≤ length (filter (λ n, node_has p' d n = true) ns))%nat
        ∧ ((∃ r, r ∈ rs ∧ acked r = true) → d = Digest_of b))
     (λ _ _, False) p.
Proof.
  intros Hp Hb. revert p Hp. induction ns as [|n ns IH]; intros p Hp; cbn [fan_out].
  { wp_step. split_and!; [done|done|done|]. by intros (r & ?%elem_of_nil & _). }
  wp_step. apply wp_at_node.
  - intros Hn. wp_step. eapply wp_mono; [by apply IH| |done]. intros rs p' (? & Hle & Hlen & ?). wp_step.
    split_and!; [done|done| |done]. rewrite filter_cons. case_decide; simpl; lia.
  - intros c Hc. eapply wp_mono; [apply batch_update_spec; [by eapply Hp|by apply Forall_singleton]|..]; cbn beta.
    + intros rs1 c' (Hok & Hrs & Hup & _). wp_step. eapply wp_mono; [by apply IH, pool_ok_insert| |done].
      intros rs p' (? & Hle & Hlen & Hd). wp_step.
      apply Forall2_cons_inv_l in Hrs as (r & ? & [_ Hst] & ->%Forall2_nil_inv_l & ->). simpl in Hst.
      assert (pool_le p p') by (etrans; [by eapply pool_le_insert|done]).
      split_and!; [done|done| |].
      * rewrite !filter_cons. simpl. destruct (status_ok r) eqn:Hr.
        -- destruct (Hst eq_refl) as [_ Hhas]. rewrite decide_True by done.
           rewrite decide_True; [simpl; lia|]. apply (node_has_le _ _ _ _ Hle). unfold node_has. by rewrite lookup_insert_eq.
        -- rewrite decide_False by done. case_decide; simpl; lia.
      * intros (r' & [->|Hin]%elem_of_cons & Hr'); [by apply Hst|]. apply Hd. eauto.
    + intros e c' [Hok Hsame]. wp_step. eapply wp_mono; [by apply IH, pool_ok_insert| |done].
      intros rs p' (? & Hle & Hlen & Hd). wp_step. split_and!; [done| | |].
      * etrans; [|done]. eapply pool_le_insert; [done|]. intros d'. by rewrite Hsame.
      * rewrite !filter_cons. rewrite decide_False by (by cbn). case_decide; simpl; lia.
      * intros (r' & [->|Hin]%elem_of_cons & Hr'); [done|]. apply Hd. eauto.
Qed.

Lemma tally_acks rs : N.to_nat (tally rs).1 = length (filter (λ r, acked r = true) rs).
Proof.
  unfold tally. enough (∀ s, N.to_nat (foldl (λ s r,
    if acked r then (s.1 + 1, s.2)
    else match write_error r with Some e => (s.1, Some e) | None => s end) s rs).1
    = (N.to_nat s.1 + length (filter (λ r, acked r = true) rs))%nat) as Hgen by (by rewrite (Hgen (0, None))).
  induction rs as [|r rs IH]; intros s; simpl; [lia|]. rewrite IH, filter_cons.
  destruct (acked r); [rewrite decide_True by done; simpl; lia|]. rewrite decide_False by done.
  by destruct (write_error r).
Qed.

(** A write reported as stored is on a quorum of its replicas. *)
Lemma rp_update_one_spec d b (s : ReplicatedCas C) :
  pool_ok (pool s) → blob_fits b →
  wp (rp_update_one (d, b))
     (λ r s', pool_ok (pool s') ∧ pool_le (pool s) (pool s') ∧ topology s' = topology s
        ∧ ur_digest r = d
        ∧ (status_ok r = true → d = Digest_of b ∧ 0 < write_quorum (topology s) ∧
             (N.to_nat (write_quorum (topology s))
               ≤ length (filter (λ n, node_has (pool s') d n = true) (rep_replicas_for (topology s) d)))%nat))
     (λ _ _, False) s.
Proof.
  intros Hp Hb. unfold rp_update_one. wp_step. wp_step. cbn [fst].
  destruct (rep_replicas_for (topology s) d) as [|n ns] eqn:Hns; [by wp_step|]. rewrite <-Hns.
  assert (0 < write_quorum (topology s)) as Hq.
  { unfold write_quorum, rep_replicas_for, replicas_for in *. destruct (replication_factor _ =? 0); [done|]. apply N.add_pos_r. lia. }
  wp_step. apply wp_zoom. eapply wp_mono; [by apply fan_out_spec| |done].
  intros rs p' (Hp' & Hle & Hlen & Hd). cbn beta. pose proof (tally_acks rs) as Ht.
  destruct (tally rs) as [acks err]. wp_step. split_and!; [done|done|done|done|]. simpl in *.
  unfold status_ok. simpl. destruct (N.leb_spec (write_quorum (topology s)) acks); [|done]. intros _.
  split_and!; [|done|lia]. apply Hd.
  destruct (filter (λ r, acked r = true) rs) as [|r l] eqn:Hf; [simpl in Ht; lia|].
  assert (r ∈ filter (λ r, acked r = true) rs) as Hr by (rewrite Hf; set_solver).
  apply list_elem_of_filter in Hr as [? ?]. by exists r.
Qed.

(** A read answers with bytes of the right hash, or every replica that holds
    the digest failed to answer. *)
Lemma read_replicas_spec d ns p :
  pool_ok p → NoDup (node_id <$> ns) →
  wp (read_replicas d ns)
     (λ o p', pool_ok p' ∧ pool_le p p' ∧
        match o with
        | Some b => sha256_hex b = hash d ∧ blob_fits b ∧ ∃ n, n ∈ ns ∧ node_has p d n = true
        | None => ∀ n c, n ∈ ns → p !! node_id n = Some c → cas_has c d = true →
                    returned (batch_read_blobs [d] c) = None
        end)
     (λ _ _, False) p.
Proof.
  intros Hp Hn. revert p Hp. induction ns as [|n ns IH]; intros p Hp; cbn [read_replicas].
  { wp_step. split_and!; [done|done|]. by intros n c ?%elem_of_nil. }
  rewrite fmap_cons in Hn. apply NoDup_cons in Hn as [Hn Hns].
  assert (∀ n' c', n' ∈ ns → <[node_id n := c']> p !! node_id n' = p !! node_id n') as Hother.
  { intros n' c' Hn'. apply lookup_insert_ne. intros Heq. apply Hn. rewrite Heq. by apply list_elem_of_fmap_2. }
  wp_step. apply wp_at_node.
  { intros HN. eapply wp_mono; [by apply IH| |done]. intros [b|] p' (? & ? & Ho); (split; [done|split; [done|]]).
    - destruct Ho as (? & ? & n' & ? & ?). split_and!; [done|done|]. exists n'. split; [by apply elem_of_cons; right|done].
    - intros n' c [->|Hn']%elem_of_cons Hc; [congruence|]. by apply (Ho n'). }
  intros c Hc.
  assert (∀ c', cas_ok c' → (∀ d, cas_has c' d = cas_has c d) →
    (cas_has c d = true → returned (batch_read_blobs [d] c) = None) →
    wp (read_replicas d ns) (λ o p', pool_ok p' ∧ pool_le p p' ∧
        match o with
        | Some b => sha256_hex b = hash d ∧ blob_fits b ∧ ∃ n', n' ∈ n :: ns ∧ node_has p d n' = true
        | None => ∀ n' c, n' ∈ n :: ns → p !! node_id n' = Some c → cas_has c d = true →
                    returned (batch_read_blobs [d] c) = None
        end) (λ _ _, False) (<[node_id n := c']> p)) as Hnext.
  { intros c' Hok Hsame Hnone. eapply wp_mono; [by apply IH, pool_ok_insert| |done].
    intros o p' (? & Hle & Ho). split_and!; [done|etrans; [|done]; eapply pool_le_insert; [done|intros d'; by rewrite Hsame]|].
    destruct o as [b|].
    - destruct Ho as (? & ? & n' & Hn' & Hhas). split_and!; [done|done|]. exists n'. split; [by apply elem_of_cons; right|].
      unfold node_has in *. by rewrite Hother in Hhas.
    - intros n' c2 [->|Hn']%elem_of_cons Hc2; [simplify_eq; done|]. apply (Ho n'); [done|by rewrite Hother]. }
  pose proof (batch_read_spec [d] c (Hp _ _ Hc)) as Hread. unfold wp in Hread. unfold wp at 1.
  destruct (batch_read_blobs [d] c) as [c' [rs|e|]] eqn:Hrun; [| |done].
  - destruct Hread as [[Hok Hsame] Hrs]. apply Forall2_cons_inv_l in Hrs as (r & ? & Hr & ->%Forall2_nil_inv_l & ->).
    simpl. destruct r as [b|e|]; [|apply Hnext; [done|done|]|done].
    + destruct Hr as (Hhas & Hh & Hf). wp_step.
      split_and!; [by apply pool_ok_insert|eapply pool_le_insert; [done|intros d'; by rewrite Hsame]|done|done|].
      exists n. split; [by apply elem_of_cons; left|]. unfold node_has. by rewrite Hc.
    + destruct Hr as [Hhas _]. congruence.
  - destruct Hread as [Hok Hsame]. by apply Hnext.
Qed.

(** Every acknowledged entry of a batch is on a quorum of its replicas. *)
Definition batch_on_quorums (t : Topology) (p : StaticPool C) (bs : list (Digest * bytes))
    (rs : list UpdateResult) : Prop :=
  Forall2 (λ q r, ur_digest r = q.1 ∧
    (status_ok r = true → q.1 = Digest_of q.2 ∧ 0 < write_quorum t ∧
       (N.to_nat (write_quorum t) ≤ length (filter (λ n, node_has p q.1 n = true) (rep_replicas_for t q.1)))%nat)) bs rs.

Lemma batch_on_quorums_le t p p' bs rs : pool_le p p' → batch_on_quorums t p bs rs → batch_on_quorums t p' bs rs.
Proof.
  intros Hle. unfold batch_on_quorums. intros Hb. eapply Forall2_impl; [exact Hb|].
  intros q r [? Hq]. split; [done|]. intros Hs. destruct (Hq Hs) as (? & ? & Hlen). split_and!; [done|done|].
  etrans; [exact Hlen|]. clear Hlen Hq. induction (rep_replicas_for t q.1) as [|n ns IH]; [done|]. rewrite !filter_cons.
  case_decide as Hn; [|case_decide; simpl; lia]. rewrite decide_True by (by eapply node_has_le). simpl. lia.
Qed.

Lemma rp_update_spec bs (s : ReplicatedCas C) :
  pool_ok (pool s) → Forall (λ q, blob_fits q.2) bs →
  wp (rp_batch_update_blobs bs)
     (λ rs s', pool_ok (pool s') ∧ pool_le (pool s) (pool s') ∧ topology s' = topology s
        ∧ batch_on_quorums (topology s) (pool s') bs rs)
     (λ _ _, False) s.
Proof.
  intros Hp Hfit. rewrite Forall_forall in Hfit. unfold rp_batch_update_blobs.
  apply (wp_mapM_pre _ (λ bs rs s', pool_ok (pool s') ∧ pool_le (pool s) (pool s') ∧ topology s' = topology s
        ∧ batch_on_quorums (topology s) (pool s') bs rs)); [split_and!; [done|done|done|constructor]|].
  intros pre [d b] rs s1 (Hp1 & Hle1 & Ht1 & Hb1) Hin.
  eapply wp_mono; [apply rp_update_one_spec; [done|by apply (Hfit (d, b))]| |done].
  intros r s2 (Hp2 & Hle2 & Ht2 & Hd & Hr). rewrite Ht1 in *.
  split_and!; [done|by etrans|congruence|]. apply Forall2_app; [by eapply batch_on_quorums_le|].
  apply Forall2_cons. split; [done|constructor].
Qed.

Lemma replicas_NoDup t d : NoDup (node_id <$> nodes t) → NoDup (node_id <$> rep_replicas_for t d).
Proof.
  intros Hn. unfold rep_replicas_for. rewrite replicas_for_ranking. apply (ranking_NoDup d) in Hn.
  rewrite <-(take_drop (N.to_nat (replication_factor t)) (ranking _ _)) in Hn.
  rewrite fmap_app in Hn. by apply NoDup_app in Hn as [? _].
Qed.

(** With fewer than a quorum of the nodes lost, one that holds the blob is left. *)
Lemma quorum_survivor t p d (down : gset string) :
  NoDup (node_id <$> nodes t) →
  (N.to_nat (write_quorum t) ≤ length (filter (λ n, node_has p d n = true) (rep_replicas_for t d)))%nat →
  N.of_nat (size down) < write_quorum t →
  ∃ n, n ∈ rep_replicas_for t d ∧ node_has p d n = true ∧ node_id n ∉ down.
Proof.
  intros Hn Hq Hdown. set (hs := filter (λ n, node_has p d n = true) (rep_replicas_for t d)) in *.
  assert (NoDup (node_id <$> hs)) as Hnd.
  { by apply filter_NoDup_ids, replicas_NoDup. }
  destruct (decide (Exists (λ n, node_id n ∉ down) hs)) as [He|He].
  - apply Exists_exists in He as (n & [? ?]%list_elem_of_filter & ?). eauto.
  - exfalso. apply not_Exists_Forall in He; [|solve_decision]. rewrite Forall_forall in He.
    assert (list_to_set (node_id <$> hs) ⊆ down) as Hsub.
    { intros id. rewrite elem_of_list_to_set. intros (n & -> & Hin)%list_elem_of_fmap.
      destruct (decide (node_id n ∈ down)); [done|]. by destruct (He n Hin). }
    apply subseteq_size in Hsub. rewrite size_list_to_set, length_fmap in Hsub by done. lia.
Qed.

End replicated_spec.

(** ** Repair *)

Section repair_spec.
Context {C : Type} `{CasListSpec C} `{Sha256Bytes}.
Implicit Types (p : StaticPool C).

Definition holds p (id : string) (d : Digest) : Prop := ∃ c, p !! id = Some c ∧ cas_has c d = true.

(** Nothing is lost, and only the target gains. *)
Definition repairs (target : string) p p' : Prop :=
  pool_le p p' ∧ ∀ id d, id ≠ target → holds p' id d → holds p id d.

#[export] Instance repairs_refl target : Reflexive (repairs target).
Proof. by intros p. Qed.
#[export] Instance repairs_trans target : Transitive (repairs target).
Proof. intros p1 p2 p3 [? H12] [? H23]. split; [by etrans|]. intros id d Hid ?. by apply H12, H23. Qed.

Lemma holds_le p p' id d : pool_le p p' → holds p id d → holds p' id d.
Proof.
  intros Hle (c & Hc & Hd). specialize (Hle id). rewrite Hc in Hle. unfold holds.
  destruct (p' !! id) as [c'|]; [|done]. eauto.
Qed.

Lemma repairs_keeps target p id c c' :
  p !! id = Some c → cas_keeps c c' → repairs target p (<[id := c']> p).
Proof.
  intros Hc [_ Hh]. split; [eapply pool_le_insert; [done|]; intros d; by rewrite Hh|].
  intros id' d _ (c2 & Hc2 & Hd). rewrite lookup_insert_Some in Hc2.
  destruct Hc2 as [[<- <-]|[_ ?]]; [exists c; by rewrite <-Hh|by exists c2].
Qed.

Lemma repairs_target target p c c' :
  p !! target = Some c → (∀ d, cas_has c d = true → cas_has c' d = true) →
  repairs target p (<[target := c']> p).
Proof.
  intros Hc Hh. split; [by eapply pool_le_insert|]. intros id d Hid (c2 & Hc2 & Hd).
  rewrite lookup_insert_ne in Hc2 by done. by exists c2.
Qed.

Lemma pull_spec target d ns p :
  pool_ok p →
  wp (pull target d ns)
     (λ ok p', pool_ok p' ∧ repairs target p p' ∧ (ok = true → holds p' target d))
     (λ _ p', pool_ok p' ∧ repairs target p p') p.
Proof.
  revert p. induction ns as [|n ns IH]; intros p Hp; cbn [pull]; [by wp_step|].
  case_decide; [by apply IH|].
  assert (∀ p', pool_ok p' → repairs target p p' →
    wp (pull target d ns) (λ ok p', pool_ok p' ∧ repairs target p p' ∧ (ok = true → holds p' target d))
       (λ _ p', pool_ok p' ∧ repairs target p p') p') as Hnext.
  { intros p' Hp' Hr'. eapply wp_mono; [by apply IH|..]; cbn beta.
    - intros ok p2 (? & ? & ?). split_and!; [done|by etrans|done].
    - intros e p2 (? & ?). split; [done|by etrans]. }
  wp_step. apply wp_at_node; [intros _; by apply Hnext|]. intros c Hc.
  eapply wp_mono; [by apply batch_read_spec, (Hp _ _ Hc)|..]; cbn beta.
  2:{ intros e c' Hk. apply Hnext; [apply pool_ok_insert; [done|apply Hk]|by eapply repairs_keeps]. }
  intros rs c' [Hk Hrs]. assert (pool_ok (<[node_id n := c']> p)) as Hp1 by (apply pool_ok_insert; [done|apply Hk]).
  assert (repairs target p (<[node_id n := c']> p)) as Hr1 by (by eapply repairs_keeps).
  apply Forall2_cons_inv_l in Hrs as (r & ? & Hr & ->%Forall2_nil_inv_l & ->). simpl.
  destruct r as [b|e|]; [|by apply Hnext|done]. wp_step. apply wp_at_node_try.
  { intros _. by apply Hnext. }
  intros ct Hct. destruct Hr as (_ & _ & Hb).
  eapply wp_mono; [apply batch_update_spec; [by apply (Hp1 _ _ Hct)|by apply Forall_singleton]|..]; cbn beta.
  2:{ intros e ct' Hk'. split; [apply pool_ok_insert; [done|apply Hk']|]. etrans; [done|]. by eapply repairs_keeps. }
  intros us ct' (Hok & Hus & Hup & _).
  assert (repairs target p (<[target := ct']> (<[node_id n := c']> p))) as Hr2.
  { etrans; [done|]. by eapply repairs_target. }
  apply Forall2_cons_inv_l in Hus as (u & ? & [_ Hu] & ->%Forall2_nil_inv_l & ->). simpl in *.
  destruct (status_ok u); [|apply Hnext; [by apply pool_ok_insert|done]]. wp_step.
  split_and!; [by apply pool_ok_insert|done|]. intros _. exists ct'. rewrite lookup_insert_eq. split; [done|by apply Hu].
Qed.

(** What is to be on the target is on it, or reported. *)
Definition settled (t : Topology) (target : string) (rep : RepairReport) p (d : Digest) : Prop :=
  target ∈ node_id <$> replicas_for d (nodes t) (replication_factor t) →
  d ∈ unrepairable rep ∨ holds p target d.

Definition balanced (rep : RepairReport) : Prop :=
  expected rep = already_present rep + repaired rep + N.of_nat (length (unrepairable rep)).

Lemma repair_one_spec t target local rep d p :
  pool_ok p → balanced rep → (∀ d, d ∈ local → holds p target d) →
  wp (repair_one t target local rep d)
     (λ rep' p', pool_ok p' ∧ repairs target p p' ∧ balanced rep'
        ∧ unrepairable rep ⊆ unrepairable rep' ∧ settled t target rep' p' d)
     (λ _ p', pool_ok p' ∧ repairs target p p') p.
Proof.
  intros Hp Hb Hl. unfold repair_one, balanced, settled in *.
  case_bool_decide as Ht; [|by wp_step]. case_decide as Hd.
  { wp_step. simpl. split_and!; [done|done|lia|done|by auto]. }
  wp_step. eapply wp_mono; [by apply pull_spec| |done]. intros ok p' (? & ? & Hok). wp_step.
  destruct ok; simpl; (split_and!; [done|done| | |]).
  - lia.
  - done.
  - by auto.
  - rewrite length_app. simpl. lia.
  - set_solver.
  - intros _. left. set_solver.
Qed.

Lemma repair_all_spec t target local rep ds p :
  pool_ok p → balanced rep → (∀ d, d ∈ local → holds p target d) →
  wp (repair_all t target local rep ds)
     (λ rep' p', pool_ok p' ∧ repairs target p p' ∧ balanced rep'
        ∧ unrepairable rep ⊆ unrepairable rep' ∧ ∀ d, d ∈ ds → settled t target rep' p' d)
     (λ _ p', pool_ok p' ∧ repairs target p p') p.
Proof.
  revert rep p. induction ds as [|d ds IH]; intros rep p Hp Hb Hl; cbn [repair_all].
  { wp_step. split_and!; try done. by intros d ?%elem_of_nil. }
  wp_step. eapply wp_mono; [by apply repair_one_spec| |done]; cbn beta.
  intros rep1 p1 (Hp1 & Hr1 & Hb1 & Hsub1 & Hd1).
  eapply wp_mono; [apply IH; [done|done|]|..]; cbn beta.
  - intros d' Hd'. eapply holds_le; [apply Hr1|]. by apply Hl.
  - intros rep2 p2 (Hp2 & Hr2 & Hb2 & Hsub2 & Hds). split_and!; [done|by etrans|done|by etrans|].
    intros d' [->|Hin]%elem_of_cons; [|by apply Hds]. intros Ht. destruct (Hd1 Ht) as [?|?]; [left; by apply Hsub2|right].
    by eapply holds_le; [apply Hr2|].
  - intros e p2 (? & ?). split; [done|by etrans].
Qed.

(** Listing changes nothing. *)
Definition pool_listed p p' : Prop :=
  ∀ id, match p !! id, p' !! id with
        | Some c, Some c' => cas_listed c' = cas_listed c
        | None, None => True
        | _, _ => False
        end.

#[export] Instance pool_listed_refl : Reflexive pool_listed.
Proof. intros p id. by destruct (p !! id). Qed.
#[export] Instance pool_listed_trans : Transitive pool_listed.
Proof.
  intros p1 p2 p3 H12 H23 id. specialize (H12 id). specialize (H23 id).
  destruct (p1 !! id), (p2 !! id), (p3 !! id); naive_solver congruence.
Qed.

Lemma pool_listed_insert p id c c' :
  p !! id = Some c → cas_listed c' = cas_listed c → pool_listed p (<[id := c']> p).
Proof.
  intros Hc Hl id'. destruct (decide (id = id')) as [<-|]; [by rewrite Hc, lookup_insert_eq|].
  rewrite lookup_insert_ne by done. by destruct (p !! id').
Qed.

Lemma collect_universe_spec target ns U p :
  pool_ok p →
  wp (collect_universe ns U)
     (λ U' p', pool_ok p' ∧ repairs target p p' ∧ pool_listed p p' ∧ U ⊆ U'
        ∧ ∀ n c, n ∈ ns → p !! node_id n = Some c → cas_listed c ⊆ U')
     (λ _ p', pool_ok p' ∧ repairs target p p') p.
Proof.
  revert U p. induction ns as [|n ns IH]; intros U p Hp; cbn [collect_universe].
  { wp_step. split_and!; try done. by intros n c ?%elem_of_nil. }
  wp_step. apply wp_at_node_try.
  - intros HN. eapply wp_mono; [by apply IH| |done]. intros U' p' (? & ? & ? & HU & Hns). simpl in HU.
    split_and!; [done|done|done|set_solver|]. intros n' c [->|Hn']%elem_of_cons Hc; [congruence|by eapply Hns].
  - intros c Hc. eapply wp_mono; [apply list_digests_spec, (Hp _ _ Hc)|..]; cbn beta.
    + intros ds c' [[Hk Hlist] Hds].
      assert (pool_listed p (<[node_id n := c']> p)) as Hl1 by (by eapply pool_listed_insert).
      assert (repairs target p (<[node_id n := c']> p)) as Hr1 by (by eapply repairs_keeps).
      eapply wp_mono; [apply IH, pool_ok_insert; [done|apply Hk]|..]; cbn beta.
      * intros U' p' (? & ? & ? & HU & Hns). simpl in HU. split_and!; [done|by etrans|by etrans|set_solver|].
        intros n' c2 [->|Hn']%elem_of_cons Hc2.
        -- simplify_eq. intros d Hd. apply HU, elem_of_union_r, elem_of_list_to_set. rewrite Hds. by apply elem_of_elements.
        -- specialize (Hl1 (node_id n')). rewrite Hc2 in Hl1.
           destruct (<[node_id n := c']> p !! node_id n') as [c3|] eqn:Hc3; [|done]. rewrite <-Hl1. by eapply Hns.
      * intros e p' (? & ?). split; [done|by etrans].
    + intros e c' [Hk _]. split; [apply pool_ok_insert; [done|apply Hk]|by eapply repairs_keeps].
Qed.

End repair_spec.
