(* ===== verification/ActionCache.v ===== *)
(** * brokkr-cas: the action cache

    Models [crates/brokkr-cas/src/action_cache.rs]: the [ActionCache] trait with
    its contract, and the redb-backed cache.  prost's encoding of an
    [ActionResult] is a parameter.  The message keeps the fields the modelled
    code reads; the others are one opaque field. *)

From stdpp Require Import prelude gmap strings.
From Stdlib Require Import Lia.
From S2P Require Import Prelude Machine Bytes Common Redb Cas CasBackends.

Local Open Scope N_scope.

(** ** The REAPI messages *)

Record pb_Digest : Type := mkpbDigest { pd_hash : string; pd_size_bytes : Z }.

Record OutputFile : Type := mkOutputFile { of_path : string; of_digest : option pb_Digest }.

Record OutputDirectory : Type := mkOutputDirectory {
  od_path : string;
  tree_digest : option pb_Digest;
  root_directory_digest : option pb_Digest
}.

Record ActionResult : Type := mkActionResult {
  output_files : list OutputFile;
  output_directories : list OutputDirectory;
  exit_code : Z;
  stdout_raw : bytes;
  stdout_digest : option pb_Digest;
  stderr_raw : bytes;
  stderr_digest : option pb_Digest;
  ar_other : bytes
}.

Class ArCodec : Type := {
  enc_result : ActionResult → bytes;
  dec_result : bytes → string + ActionResult
}.

Class ArCodecSpec `{ArCodec} : Prop :=
  dec_enc_result r : dec_result (enc_result r) = inr r.

(** ** The trait *)

Class ActionCache (A : Type) : Type := {
  get_action_result : Digest → eff A CasError (option ActionResult);
  update_action_result : Digest → ActionResult → eff A CasError ();
  list_entries : eff A CasError (list (Digest * ActionResult));
  (** Whether [gc_window] takes a lock that is held until the guard is dropped;
      the provided method returns a guard over nothing. *)
  gc_window_locks : bool
}.

Definition default_list_entries {A} : eff A CasError (list (Digest * ActionResult)) := mret [].
Definition default_gc_window_locks : bool := false.

(** A cache is a map from action hashes to results. *)
Class ActionCacheSpec (A : Type) `{ActionCache A} : Type := {
  ac_ok : A → Prop;
  (** Results whose encoding a buffer can hold. *)
  ac_fits : ActionResult → Prop;
  ac_view : A → string → option ActionResult;
  get_action_result_spec d a :
    ac_ok a →
    wp (get_action_result d)
       (λ r a', (ac_ok a' ∧ ∀ h, ac_view a' h = ac_view a h) ∧ r = ac_view a (hash d))
       (λ _ a', ac_ok a' ∧ ∀ h, ac_view a' h = ac_view a h) a;
  update_action_result_spec d r a :
    ac_ok a → digest_ok d → ac_fits r →
    wp (update_action_result d r)
       (λ _ a', ac_ok a' ∧ ∀ h, ac_view a' h = if decide (h = hash d) then Some r else ac_view a h)
       (λ _ a', ac_ok a' ∧ ∀ h, ac_view a' h = ac_view a h) a;
  list_entries_spec a :
    ac_ok a →
    wp list_entries
       (λ es a', (ac_ok a' ∧ ∀ h, ac_view a' h = ac_view a h)
                 ∧ ∀ h r, ac_view a h = Some r ↔ ∃ d, (d, r) ∈ es ∧ hash d = h)
       (λ _ a', ac_ok a' ∧ ∀ h, ac_view a' h = ac_view a h) a
}.

(** ** redb *)

Definition DEFAULT_ACTION_CACHE_CONCURRENCY : N := 16.

Definition RedbActionCache : Type := RedbTable string.

Definition RedbActionCache_open_with_limit (rows : gmap string bytes) (max_concurrent : N)
    (faults : list (option Fault)) : RedbActionCache := mkRedbTable rows max_concurrent faults.

Definition RedbActionCache_open (rows : gmap string bytes) (faults : list (option Fault)) : RedbActionCache :=
  RedbActionCache_open_with_limit rows DEFAULT_ACTION_CACHE_CONCURRENCY faults.

Section redb_action_cache.
Context `{ArCodec}.

Definition ra_get_action_result (d : Digest) : eff RedbActionCache CasError (option ActionResult) :=
  redb_begin cas_fault;;
  table ← gets rt_table;
  match table !! hash d with
  | None => mret None
  | Some b =>
      match dec_result b with
      | inl msg => throw (CasRedb ("ActionResult decode: " +:+ msg))
      | inr r => mret (Some r)
      end
  end.

Definition ra_update_action_result (d : Digest) (r : ActionResult) : eff RedbActionCache CasError () :=
  redb_begin cas_fault;;
  modify (set_table <[hash d := enc_result r]>).

(** One row of the listing; malformed rows are skipped. *)
Definition row_entry (p : string * bytes) : option (Digest * ActionResult) :=
  match Digest_new p.1 (as_i64 (N.of_nat (length p.2))) with
  | Ok d => match dec_result p.2 with inr r => Some (d, r) | inl _ => None end
  | _ => None
  end.

Definition ra_list_entries : eff RedbActionCache CasError (list (Digest * ActionResult)) :=
  redb_begin cas_fault;;
  table ← gets rt_table;
  mret (omap row_entry (stable_asc table)).

#[export] Instance RedbActionCache_cache : ActionCache RedbActionCache := {
  get_action_result := ra_get_action_result;
  update_action_result := ra_update_action_result;
  list_entries := ra_list_entries;
  gc_window_locks := true
}.

End redb_action_cache.

Section redb_action_cache_spec.
Context `{ArCodecSpec}.

(** Every row is a well-formed hash and an encoded result. *)
Definition ra_ok (a : RedbActionCache) : Prop :=
  ∀ h b, rt_table a !! h = Some b →
    (str_bytes h = SHA256_HEX_LEN ∧ all_chars hex_char h = true) ∧ ∃ r, b = enc_result r ∧ blob_fits b.

Definition ra_view (a : RedbActionCache) (h : string) : option ActionResult :=
  b ← rt_table a !! h; match dec_result b with inr r => Some r | inl _ => None end.

Lemma same_rows_ra a a' : ra_ok a → same_rows a a' → ra_ok a' ∧ ∀ h, ra_view a' h = ra_view a h.
Proof. unfold ra_ok, ra_view. intros Hok [-> _]. done. Qed.

Lemma wp_ra_begin {B} (m : eff RedbActionCache CasError B) Q X a :
  (∀ a', same_rows a a' → wp m Q X a') → (∀ e a', same_rows a a' → X e a') →
  wp (redb_begin cas_fault;; m) Q X a.
Proof. intros HQ HX. apply wp_bind, wp_redb_begin; [exact HQ|]. eauto. Qed.

Lemma row_entry_ok h r :
  str_bytes h = SHA256_HEX_LEN → all_chars hex_char h = true → blob_fits (enc_result r) →
  ∃ d, row_entry (h, enc_result r) = Some (d, r) ∧ hash d = h.
Proof.
  intros Hl Hx Hf. unfold row_entry, Digest_new. simpl. rewrite Hl, Hx, dec_enc_result. simpl.
  unfold blob_fits, as_i64 in *.
  destruct (N.ltb_spec (N.of_nat (length (enc_result r))) (2 ^ 63)); [|lia].
  destruct (Z.ltb_spec (Z.of_N (N.of_nat (length (enc_result r)))) 0); [lia|]. eexists. split; [done|done].
Qed.

#[export] Instance RedbActionCache_spec : ActionCacheSpec RedbActionCache.
Proof.
  refine {| ac_ok := ra_ok; ac_fits r := blob_fits (enc_result r); ac_view := ra_view |}.
  - intros d a Hok. simpl. apply wp_ra_begin; [|intros _ a'; by apply same_rows_ra].
    intros a' Ha'. pose proof (same_rows_ra _ _ Hok Ha') as Hk. destruct Ha' as [Ht _]. wp_step. wp_step.
    rewrite Ht. unfold ra_view at 3. destruct (rt_table a !! hash d) as [b|] eqn:Hb; simpl; [|by wp_step].
    destruct (Hok _ _ Hb) as (_ & r & -> & _). rewrite dec_enc_result. by wp_step.
  - intros d r a Hok (Hl & Hx & _) Hf. simpl. apply wp_ra_begin; [|intros _ a'; by apply same_rows_ra].
    intros a' Ha'. pose proof (same_rows_ra _ _ Hok Ha') as [Hok' Hv]. wp_steps. split.
    + intros h b. simpl. rewrite lookup_insert_Some. intros [[<- <-]|[_ ?]]; [by split; [|exists r]|by apply Hok'].
    + intros h. rewrite <-Hv. unfold ra_view. simpl. case_decide as Hh.
      * subst h. by rewrite lookup_insert_eq; simpl; rewrite dec_enc_result.
      * by rewrite lookup_insert_ne.
  - intros a Hok. simpl. apply wp_ra_begin; [|intros _ a'; by apply same_rows_ra].
    intros a' Ha'. pose proof (same_rows_ra _ _ Hok Ha') as Hk. destruct Ha' as [Ht _]. wp_step. wp_step. wp_step.
    rewrite Ht. split; [done|]. intros h r. unfold ra_view. split.
    + destruct (rt_table a !! h) as [b|] eqn:Hb; [|done]. simpl. destruct (Hok _ _ Hb) as ([Hl Hx] & r' & -> & Hf).
      rewrite dec_enc_result. intros [= <-]. destruct (row_entry_ok h r' Hl Hx Hf) as (d & Hd & Hh).
      exists d. split; [|done]. apply list_elem_of_omap. exists (h, enc_result r'). by rewrite stable_asc_elem.
    + intros (d & ([h' b] & Hb & Hd)%list_elem_of_omap & Hh). apply stable_asc_elem in Hb.
      destruct (Hok _ _ Hb) as ([Hl Hx] & r' & -> & Hf). destruct (row_entry_ok h' r' Hl Hx Hf) as (d' & Hd' & Hh').
      rewrite Hd' in Hd. simplify_eq. by rewrite Hb; simpl; rewrite dec_enc_result.
Defined.

End redb_action_cache_spec.
