(* ===== verification/Gc.v ===== *)
(** * brokkr-cas: garbage collection and its barrier

    Models [crates/brokkr-cas/src/gc.rs]: the digests an [ActionResult] refers
    to, planning and sweeping.  [Stores] is the pair of stores a
    sweep works on. *)

From stdpp Require Import prelude gmap strings.
From Stdlib Require Import Lia.
From S2P Require Import Prelude Machine Bytes Common Redb Cas CasBackends ActionCache.

Local Open Scope N_scope.

(** [Digest::new] on an optional message field; a malformed one is skipped. *)
Definition pb_digests (o : option pb_Digest) : list Digest :=
  match o with
  | Some d => match Digest_new (pd_hash d) (pd_size_bytes d) with Ok d => [d] | _ => [] end
  | None => []
  end.

Definition direct_digests (ar : ActionResult) : list Digest :=
  (output_files ar ≫= λ f, pb_digests (of_digest f))
  ++ (output_directories ar ≫= λ dir, pb_digests (tree_digest dir) ++ pb_digests (root_directory_digest dir))
  ++ pb_digests (stdout_digest ar)
  ++ pb_digests (stderr_digest ar).

Record GcPlan : Type := mkGcPlan {
  reachable : gset Digest;
  unreachable : list Digest;
  local_count : N
}.

Record Stores (C A : Type) : Type := mkStores { st_cas : C; st_ac : A }.
Arguments mkStores {C A}.
Arguments st_cas {C A}.
Arguments st_ac {C A}.

Section gc.
Context {C A : Type} `{Cas C} `{ActionCache A}.

Definition on_cas {B} (m : eff C CasError B) : eff (Stores C A) CasError B :=
  zoom st_cas (λ c s, mkStores c (st_ac s)) m.
Definition on_ac {B} (m : eff A CasError B) : eff (Stores C A) CasError B :=
  zoom st_ac (λ a s, mkStores (st_cas s) a) m.

(** The marks of one listing of the cache, and the plan of one of the store. *)
Definition mark (entries : list (Digest * ActionResult)) : gset Digest :=
  list_to_set (entries ≫= λ e, direct_digests e.2).

Definition plan_of (reachable : gset Digest) (local : list Digest) : GcPlan :=
  mkGcPlan reachable (filter (λ d, d ∉ reachable) local) (N.of_nat (length local)).

Definition plan : eff (Stores C A) CasError GcPlan :=
  entries ← on_ac list_entries;
  local ← on_cas list_digests;
  mret (plan_of (mark entries) local).

(** The guard is only a token of the caller's. *)
Definition plan_locked : eff (Stores C A) CasError GcPlan := plan.

Fixpoint delete_all (ds : list Digest) : eff (Stores C A) CasError N :=
  match ds with
  | [] => mret 0
  | d :: ds => on_cas (delete_blob d);; n ← delete_all ds; mret (n + 1)
  end.

Definition sweep_with_plan (p : GcPlan) : eff (Stores C A) CasError N := delete_all (unreachable p).
Definition sweep_with_plan_locked (p : GcPlan) : eff (Stores C A) CasError N := delete_all (unreachable p).

Definition sweep : eff (Stores C A) CasError N :=
  p ← plan_locked;
  sweep_with_plan_locked p.

End gc.

(** ** A sweep on its own *)

Section gc_spec.
Context {C A : Type} `{CasListSpec C} `{ActionCacheSpec A}.
Implicit Types (s : Stores C A).

(** Some cached result refers to [d]. *)
Definition referenced (a : A) (d : Digest) : Prop := ∃ h r, ac_view a h = Some r ∧ d ∈ direct_digests r.

Definition stores_ok s : Prop := cas_ok (st_cas s) ∧ ac_ok (st_ac s).

(** The cache is unchanged and every referenced blob survives. *)
Definition gc_safe s s' : Prop :=
  stores_ok s' ∧ (∀ h, ac_view (st_ac s') h = ac_view (st_ac s) h)
  ∧ cas_listed (st_cas s') ⊆ cas_listed (st_cas s)
  ∧ ∀ d, d ∈ cas_listed (st_cas s) → referenced (st_ac s) d → d ∈ cas_listed (st_cas s').

Lemma mark_elem a es d :
  (∀ h r, ac_view a h = Some r ↔ ∃ k, (k, r) ∈ es ∧ hash k = h) → d ∈ mark es ↔ referenced a d.
Proof.
  intros Hes. unfold mark, referenced. rewrite elem_of_list_to_set, list_elem_of_bind. split.
  - intros ([k r] & Hd & Hin). exists (hash k), r. split; [apply Hes; eauto|done].
  - intros (h & r & (k & Hin & _)%Hes & Hd). by exists (k, r).
Qed.

Lemma plan_spec s :
  stores_ok s →
  wp plan (λ p s', gc_safe s s' ∧ cas_listed (st_cas s') = cas_listed (st_cas s)
             ∧ (∀ d, d ∈ reachable p ↔ referenced (st_ac s) d)
             ∧ unreachable p ≡ₚ filter (λ d, d ∉ reachable p) (elements (cas_listed (st_cas s))))
          (λ _ s', gc_safe s s') s.
Proof.
  intros [Hc Ha]. unfold plan. wp_step. apply wp_zoom.
  eapply wp_mono; [by apply list_entries_spec|..]; cbn beta.
  2:{ intros e a' [Ha' Hv]. by split_and!. }
  intros es a' [[Ha' Hv] Hes]. wp_step. apply wp_zoom. simpl.
  eapply wp_mono; [by apply list_digests_spec|..]; cbn beta.
  2:{ intros e c' [[Hc' _] Hl]. split_and!; simpl; rewrite ?Hl; done. }
  intros ds c' [[[Hc' _] Hl] Hds]. wp_step. simpl.
  split_and!; simpl; rewrite ?Hl; try done.
  - unfold gc_safe; simpl. by rewrite Hl.
  - intros d. by apply mark_elem.
  - by rewrite Hds.
Qed.

Lemma delete_all_spec ds s :
  stores_ok s → NoDup ds → list_to_set ds ⊆ cas_listed (st_cas s) →
  wp (delete_all ds)
     (λ n s', stores_ok s' ∧ st_ac s' = st_ac s ∧ n = N.of_nat (length ds)
        ∧ cas_listed (st_cas s') = cas_listed (st_cas s) ∖ list_to_set ds)
     (λ _ s', stores_ok s' ∧ st_ac s' = st_ac s
        ∧ cas_listed (st_cas s) ∖ list_to_set ds ⊆ cas_listed (st_cas s') ⊆ cas_listed (st_cas s)) s.
Proof.
  intros Hok Hn. revert s Hok. induction Hn as [|d ds Hd Hn IH]; intros s [Hc Ha] Hsub; cbn [delete_all].
  { wp_step. split_and!; try done. simpl. set_solver. }
  simpl in Hsub. wp_step. apply wp_zoom.
  eapply wp_mono; [apply delete_blob_spec; [done|set_solver]|..]; cbn beta.
  2:{ intros e c' [Hc' Hl]. split_and!; simpl; rewrite ?Hl; [by split|done|set_solver|done]. }
  intros [] c' [Hc' Hl]. wp_step. eapply wp_mono; [apply IH; [by split|simpl; rewrite Hl; set_solver]|..]; cbn beta.
  - intros n s' (? & Hac & -> & Hl'). wp_step. split_and!; [done|done|simpl; lia|]. rewrite Hl'. simpl. rewrite Hl. set_solver.
  - intros e s' (? & Hac & Hlo & Hhi). simpl in *. rewrite Hl in *. split_and!; [done|done|set_solver|set_solver].
Qed.

End gc_spec.
