(* ===== verification/GcBarrier.v ===== *)
(** * brokkr-cas: a collector among workers

    The barrier of [crates/brokkr-cas/src/action_cache.rs] ([gc_window]) as a
    lock, [gc::sweep] of [gc.rs] and any number of workers side by side, one
    step per store call.  The blobs of a result are uploaded, and then the result is
    written to the action cache; the service handlers ([update_action_result] of
    [brokkr-control]'s [services/action_cache.rs], and the completion path of its
    scheduler) hold the barrier across the write.  A failed call ends the worker's
    or the collector's run and drops its guard. *)

From stdpp Require Import prelude gmap strings.
From Stdlib Require Import Lia.
From S2P Require Import Prelude Machine Bytes Common Redb Cas CasBackends ActionCache Gc.

Local Open Scope N_scope.

(** Enumeration lists every acknowledged upload until it is deleted. *)
Class CasSetSpec (C : Type) `{CasListSpec C} : Prop :=
  batch_update_listed bs c :
    cas_ok c → Forall (λ p, blob_fits p.2) bs →
    wp (batch_update_blobs bs)
       (λ rs c', cas_listed c ⊆ cas_listed c' ∧
          Forall2 (λ p r, status_ok r = true → p.1 ∈ cas_listed c') bs rs)
       (λ _ c', cas_listed c' = cas_listed c) c.

(** What a worker does for one action. *)
Inductive Instr : Type :=
| Acquire
| Upload (blobs : list (Digest * bytes))
| WriteResult (action : Digest) (result : ActionResult)
| Release.

Record Job : Type := mkJob {
  job_action : Digest;
  job_blobs : list (Digest * bytes);
  job_result : ActionResult
}.

(** What the handlers do. *)
Definition handlers (j : Job) : list Instr :=
  [Upload (job_blobs j); Acquire; WriteResult (job_action j) (job_result j); Release].

Inductive Holder : Type := ByWorker (i : nat) | ByGc.

#[export] Instance Holder_eq_dec : EqDecision Holder.
Proof. solve_decision. Defined.

(** Where the collector is in [sweep]. *)
Inductive GcPhase : Type :=
| GcIdle
| GcMark
| GcList (marked : gset Digest)
| GcDelete (todo : list Digest).

Record Sys (C A : Type) : Type := mkSys {
  sys_stores : Stores C A;
  sys_lock : option Holder;
  sys_workers : gmap nat (list Instr);
  sys_gc : GcPhase
}.
Arguments mkSys {C A}.
Arguments sys_stores {C A}.
Arguments sys_lock {C A}.
Arguments sys_workers {C A}.
Arguments sys_gc {C A}.

Inductive Actor : Type := Worker (i : nat) | Collector.

Section system.
Context {C A : Type} `{Cas C} `{ActionCache A}.
Implicit Types (s : Sys C A).

(** [gc_window().await]: [None] while another guard is out. *)
Definition acquire (who : Holder) (lock : option Holder) : option (option Holder) :=
  if gc_window_locks then match lock with None => Some (Some who) | Some _ => None end
  else Some lock.

(** Dropping a guard. *)
Definition release (who : Holder) (lock : option Holder) : option Holder :=
  if decide (lock = Some who) then None else lock.

Definition set_worker (i : nat) (prog : list Instr) (lock : option Holder) (st : Stores C A) s : Sys C A :=
  mkSys st lock (<[i := prog]> (sys_workers s)) (sys_gc s).

Definition set_gc (phase : GcPhase) (lock : option Holder) (st : Stores C A) s : Sys C A :=
  mkSys st lock (sys_workers s) phase.

Definition all_stored (rs : list UpdateResult) : bool := forallb status_ok rs.

Definition worker_step (i : nat) s : option (Sys C A) :=
  prog ← sys_workers s !! i;
  match prog with
  | [] => None
  | Acquire :: rest =>
      lock ← acquire (ByWorker i) (sys_lock s);
      Some (set_worker i rest lock (sys_stores s) s)
  | Upload blobs :: rest =>
      let '(st, r) := on_cas (batch_update_blobs blobs) (sys_stores s) in
      match r with
      | Ok rs => if all_stored rs then Some (set_worker i rest (sys_lock s) st s)
                 else Some (set_worker i [] (release (ByWorker i) (sys_lock s)) st s)
      | _ => Some (set_worker i [] (release (ByWorker i) (sys_lock s)) st s)
      end
  | WriteResult action result :: rest =>
      let '(st, r) := on_ac (update_action_result action result) (sys_stores s) in
      match r with
      | Ok _ => Some (set_worker i rest (sys_lock s) st s)
      | _ => Some (set_worker i [] (release (ByWorker i) (sys_lock s)) st s)
      end
  | Release :: rest => Some (set_worker i rest (release (ByWorker i) (sys_lock s)) (sys_stores s) s)
  end.

Definition gc_step s : option (Sys C A) :=
  match sys_gc s with
  | GcIdle =>
      lock ← acquire ByGc (sys_lock s);
      Some (set_gc GcMark lock (sys_stores s) s)
  | GcMark =>
      let '(st, r) := on_ac list_entries (sys_stores s) in
      match r with
      | Ok entries => Some (set_gc (GcList (mark entries)) (sys_lock s) st s)
      | _ => Some (set_gc GcIdle (release ByGc (sys_lock s)) st s)
      end
  | GcList marked =>
      let '(st, r) := on_cas list_digests (sys_stores s) in
      match r with
      | Ok local => Some (set_gc (GcDelete (unreachable (plan_of marked local))) (sys_lock s) st s)
      | _ => Some (set_gc GcIdle (release ByGc (sys_lock s)) st s)
      end
  | GcDelete [] => Some (set_gc GcIdle (release ByGc (sys_lock s)) (sys_stores s) s)
  | GcDelete (d :: todo) =>
      let '(st, r) := on_cas (delete_blob d) (sys_stores s) in
      match r with
      | Ok _ => Some (set_gc (GcDelete todo) (sys_lock s) st s)
      | _ => Some (set_gc GcIdle (release ByGc (sys_lock s)) st s)
      end
  end.

Definition sys_step (who : Actor) s : option (Sys C A) :=
  match who with Worker i => worker_step i s | Collector => gc_step s end.

(** A schedule: who moves next; an actor that cannot move is skipped. *)
Fixpoint run_schedule (sched : list Actor) s : Sys C A :=
  match sched with
  | [] => s
  | who :: sched => run_schedule sched (default s (sys_step who s))
  end.

End system.

(** ** A sweep among handlers keeps what the cache refers to *)

Section barrier.
Context {C A : Type} `{CasSetSpec C} `{ActionCacheSpec A}.
Implicit Types (s : Sys C A).

(** Every blob a cached result refers to is in the store. *)
Definition no_dangling (st : Stores C A) : Prop :=
  ∀ d, referenced (st_ac st) d → d ∈ cas_listed (st_cas st).

Definition job_ok (j : Job) : Prop :=
  digest_ok (job_action j) ∧ ac_fits (job_result j) ∧ Forall (λ p, blob_fits p.2) (job_blobs j).

(** A worker is somewhere in its program, inside the barrier from its third step to
    its last. *)
Definition worker_inv (lock : option Holder) (i : nat) (prog : list Instr) : Prop :=
  ∃ j k, job_ok j ∧ prog = drop k (handlers j) ∧ (k ≤ 4)%nat ∧ (lock = Some (ByWorker i) ↔ (2 ≤ k ≤ 3)%nat).

Definition gc_inv (st : Stores C A) (lock : option Holder) (phase : GcPhase) : Prop :=
  (lock = Some ByGc ↔ phase ≠ GcIdle) ∧
  match phase with
  | GcIdle | GcMark => True
  | GcList marked => ∀ d, referenced (st_ac st) d → d ∈ marked
  | GcDelete todo => NoDup todo ∧ list_to_set todo ⊆ cas_listed (st_cas st) ∧
                     ∀ d, d ∈ todo → ¬ referenced (st_ac st) d
  end.

Definition sys_inv s : Prop :=
  stores_ok (sys_stores s) ∧
  (∀ i prog, sys_workers s !! i = Some prog → worker_inv (sys_lock s) i prog) ∧
  gc_inv (sys_stores s) (sys_lock s) (sys_gc s).

(** What a step leaves of the store: every blob the cache refers to. *)
Definition keeps_referenced (st st' : Stores C A) : Prop :=
  ∀ d, d ∈ cas_listed (st_cas st) → referenced (st_ac st) d → d ∈ cas_listed (st_cas st').

Lemma keeps_listed (st st' : Stores C A) : cas_listed (st_cas st) ⊆ cas_listed (st_cas st') → keeps_referenced st st'.
Proof. intros Hsub d Hd _. by apply Hsub. Qed.

Lemma worker_inv_lock lock lock' i prog :
  worker_inv lock i prog → (lock' = Some (ByWorker i) ↔ lock = Some (ByWorker i)) → worker_inv lock' i prog.
Proof. intros (j & k & Hj & -> & Hk & Hl) Hlock. exists j, k. split_and!; [done|done|done|]. by rewrite Hlock. Qed.

Lemma gc_outside st lock phase : gc_inv st lock phase → lock ≠ Some ByGc → phase = GcIdle.
Proof. intros [Hg _] Hl. destruct phase; [done|exfalso; by apply Hl, Hg..]. Qed.

Lemma gc_inv_idle st lock : lock ≠ Some ByGc → gc_inv st lock GcIdle.
Proof. by split. Qed.

(** The cache is as it was and the store has only grown. *)
Lemma gc_inv_grows st st' lock phase :
  gc_inv st lock phase → (∀ d, referenced (st_ac st') d ↔ referenced (st_ac st) d) →
  cas_listed (st_cas st) ⊆ cas_listed (st_cas st') → gc_inv st' lock phase.
Proof.
  intros [Hl Hg] Href Hsub. split; [done|]. destruct phase as [| |marked|todo]; [done|done| |].
  - intros d Hd. by apply Hg, Href.
  - destruct Hg as (? & ? & Hg). split_and!; [done|set_solver|]. intros d Hd. rewrite Href. by apply Hg.
Qed.

Lemma same_referenced (st st' : Stores C A) :
  (∀ h, ac_view (st_ac st') h = ac_view (st_ac st) h) → ∀ d, referenced (st_ac st') d ↔ referenced (st_ac st) d.
Proof. intros Hv d. unfold referenced. by setoid_rewrite Hv. Qed.

(** A worker moves, keeping the lock as it is. *)
Lemma sys_inv_worker s i prog' st' :
  sys_inv s → stores_ok st' → worker_inv (sys_lock s) i prog' → gc_inv st' (sys_lock s) (sys_gc s) →
  sys_inv (set_worker i prog' (sys_lock s) st' s).
Proof.
  intros (_ & Hw & _) Hok Hinv Hg. split_and!; simpl; [done| |done].
  intros i' q. rewrite lookup_insert_Some. intros [[<- <-]|[_ Hq]]; [done|by apply Hw].
Qed.

(** The holder of the barrier lets go of it: everyone else is outside. *)
Lemma sys_inv_leave s i prog' st' :
  sys_inv s → sys_lock s = Some (ByWorker i) → stores_ok st' → worker_inv None i prog' →
  sys_inv (set_worker i prog' (release (ByWorker i) (sys_lock s)) st' s).
Proof.
  intros (_ & Hw & Hg) Hlock Hok Hinv. unfold release. rewrite Hlock, decide_True by done. split_and!; simpl; [done| |].
  - intros i' q. rewrite lookup_insert_Some. intros [[<- <-]|[Hne Hq]]; [done|].
    eapply worker_inv_lock; [by apply Hw|]. rewrite Hlock. split; [done|]. by intros [= ?].
  - rewrite (gc_outside _ _ _ Hg) by (by rewrite Hlock). by apply gc_inv_idle.
Qed.

Lemma acquire_inv s who lock' :
  gc_window_locks = true → acquire who (sys_lock s) = Some lock' → sys_lock s = None ∧ lock' = Some who.
Proof. unfold acquire. intros ->. destruct (sys_lock s); [done|]. by intros [= <-]. Qed.

(** Abandoning the job, or ending it. *)
Lemma worker_inv_done lock i j : job_ok j → lock ≠ Some (ByWorker i) → worker_inv lock i [].
Proof. intros Hj Hl. exists j, 4%nat. split_and!; [done|done|lia|]. split; [done|lia]. Qed.

Lemma release_other who lock : lock ≠ Some who → release who lock = lock.
Proof. intros Hl. unfold release. by rewrite decide_False. Qed.

(** Uploads go on during a sweep. *)
Lemma upload_inv s i j s' :
  sys_inv s → sys_workers s !! i = Some (drop 0 (handlers j)) → sys_lock s ≠ Some (ByWorker i) → job_ok j →
  worker_step i s = Some s' → sys_inv s' ∧ keeps_referenced (sys_stores s) (sys_stores s').
Proof.
  intros Hinv Hi Hlock Hj. pose proof Hinv as ([Hc Ha] & Hw & Hg). pose proof Hj as (_ & _ & Hfit).
  assert (worker_inv (sys_lock s) i (drop 1 (handlers j))) as Hnext.
  { exists j, 1%nat. split_and!; [done|done|lia|]. split; [done|lia]. }
  unfold worker_step. rewrite Hi. simpl. unfold on_cas, zoom.
  pose proof (wp_and _ _ _ _ _ _ (batch_update_spec (job_blobs j) _ Hc Hfit) (batch_update_listed (job_blobs j) _ Hc Hfit)) as Hu.
  unfold wp in Hu. destruct (batch_update_blobs (job_blobs j) (st_cas (sys_stores s))) as [c' [rs|e|]]; [| |done].
  - destruct Hu as [(Hc' & _) [Hsub _]].
    assert (gc_inv (mkStores c' (st_ac (sys_stores s))) (sys_lock s) (sys_gc s)) as Hg' by by eapply gc_inv_grows.
    destruct (all_stored rs); intros [= <-]; rewrite ?release_other by done; (split; [|by apply keeps_listed]);
      (apply sys_inv_worker; [done|by split|..|done]); [done|by eapply worker_inv_done].
  - destruct Hu as [[Hc' _] Hl]. intros [= <-]. rewrite release_other by done. split; [|apply keeps_listed; simpl; by rewrite Hl].
    apply sys_inv_worker; [done|by split|by eapply worker_inv_done|]. eapply gc_inv_grows; [done|done|]. simpl. by rewrite Hl.
Qed.

(** The write is made inside the barrier, where no sweep is under way. *)
Lemma write_inv s i j s' :
  sys_inv s → sys_workers s !! i = Some (drop 2 (handlers j)) → sys_lock s = Some (ByWorker i) → job_ok j →
  worker_step i s = Some s' → sys_inv s' ∧ keeps_referenced (sys_stores s) (sys_stores s').
Proof.
  intros Hinv Hi Hlock Hj. pose proof Hinv as ([Hc Ha] & _ & Hg). pose proof Hj as (Hd & Hf & _).
  unfold worker_step. rewrite Hi. simpl. unfold on_ac, zoom.
  pose proof (update_action_result_spec (job_action j) (job_result j) _ Ha Hd Hf) as Hw.
  unfold wp in Hw. destruct (update_action_result _ _ (st_ac (sys_stores s))) as [a' [[]|e|]]; [| |done];
    destruct Hw as [Ha' _]; intros [= <-]; (split; [|by apply keeps_listed]).
  - apply sys_inv_worker; [done|by split| |].
    + exists j, 3%nat. split_and!; [done|done|lia|]. split; [lia|done].
    + rewrite (gc_outside _ _ _ Hg) by (by rewrite Hlock). apply gc_inv_idle. by rewrite Hlock.
  - apply sys_inv_leave; [done|done|by split|by eapply worker_inv_done].
Qed.

Lemma worker_step_inv i s s' :
  @gc_window_locks A _ = true → sys_inv s → worker_step i s = Some s' → sys_inv s' ∧ keeps_referenced (sys_stores s) (sys_stores s').
Proof.
  intros Hlocks Hinv Hstep. pose proof Hinv as (Hok & Hw & Hg).
  destruct (sys_workers s !! i) as [prog|] eqn:Hi; [|unfold worker_step in Hstep; by rewrite Hi in Hstep].
  destruct (Hw _ _ Hi) as (j & k & Hj & -> & Hk & Hl).
  destruct k as [|[|[|[|[|k]]]]]; [| | | | |lia].
  - eapply upload_inv; [done|done| |done|done]. intros ?%Hl. lia.
  - unfold worker_step in Hstep. rewrite Hi in Hstep. simpl in Hstep.
    apply bind_Some in Hstep as (lock & Hacq & [= <-]). apply acquire_inv in Hacq as [Hfree ->]; [|done].
    split; [|by apply keeps_listed]. split_and!; simpl; [done| |].
    + intros i' q. rewrite lookup_insert_Some. intros [[<- <-]|[Hne Hq]].
      * exists j, 2%nat. split_and!; [done|done|lia|by split; [lia|]].
      * eapply worker_inv_lock; [by apply Hw|]. rewrite Hfree. split; [intros [= ?]; done|done].
    + rewrite (gc_outside _ _ _ Hg) by (by rewrite Hfree). by apply gc_inv_idle.
  - eapply write_inv; [done|done|apply Hl; lia|done|done].
  - unfold worker_step in Hstep. rewrite Hi in Hstep. simpl in Hstep. simplify_eq.
    assert (sys_lock s = Some (ByWorker i)) as Hlock by (apply Hl; lia).
    split; [|by apply keeps_listed]. apply sys_inv_leave; [done|done|done|by eapply worker_inv_done].
  - unfold worker_step in Hstep. by rewrite Hi in Hstep.
Qed.

(** The collector moves: no worker is inside the barrier. *)
Lemma sys_inv_gc s st' phase' :
  sys_inv s → sys_lock s = Some ByGc → stores_ok st' → gc_inv st' (sys_lock s) phase' →
  sys_inv (set_gc phase' (sys_lock s) st' s).
Proof. intros (_ & Hw & _) Hlock Hok Hg. by split_and!. Qed.

Lemma sys_inv_gc_ends s st' :
  sys_inv s → sys_lock s = Some ByGc → stores_ok st' → sys_inv (set_gc GcIdle (release ByGc (sys_lock s)) st' s).
Proof.
  intros (_ & Hw & _) Hlock Hok. unfold release. rewrite Hlock, decide_True by done. split_and!; simpl; [done| |by apply gc_inv_idle].
  intros i prog Hi. eapply worker_inv_lock; [by apply Hw|]. by rewrite Hlock.
Qed.

Lemma gc_step_inv s s' :
  @gc_window_locks A _ = true → sys_inv s → gc_step s = Some s' → sys_inv s' ∧ keeps_referenced (sys_stores s) (sys_stores s').
Proof.
  intros Hlocks Hinv. pose proof Hinv as ([Hc Ha] & Hw & Hg). unfold gc_step.
  destruct (sys_gc s) as [| |marked|[|d todo]] eqn:Hphase; destruct Hg as [Hlock Hg].
  - intros (lock & Hacq & [= <-])%bind_Some. apply acquire_inv in Hacq as [Hfree ->]; [|done].
    split; [|by apply keeps_listed]. split_and!; simpl; [by split| |by split].
    intros i prog Hi. eapply worker_inv_lock; [by apply Hw|]. by rewrite Hfree.
  - unfold on_ac, zoom. pose proof (list_entries_spec _ Ha) as Hl. unfold wp in Hl.
    destruct (list_entries (st_ac (sys_stores s))) as [a' [es|e|]]; [| |done].
    + destruct Hl as [[Ha' Hv] Hes]. intros [= <-]. split; [|by apply keeps_listed].
      apply sys_inv_gc; [done|by apply Hlock|by split|]. split; [split; [done|intros _; by apply Hlock]|].
      intros d (h & r & Hr & Hd). simpl in *. eapply mark_elem; [exact Hes|]. exists h, r. by rewrite <-Hv.
    + destruct Hl as [Ha' Hv]. intros [= <-]. split; [|by apply keeps_listed]. apply sys_inv_gc_ends; [done|by apply Hlock|by split].
  - unfold on_cas, zoom. pose proof (list_digests_spec _ Hc) as Hl. unfold wp in Hl.
    destruct (list_digests (st_cas (sys_stores s))) as [c' [ds|e|]]; [| |done].
    + destruct Hl as [[[Hc' _] Hl] Hds]. intros [= <-]. split; [|apply keeps_listed; simpl; by rewrite Hl].
      apply sys_inv_gc; [done|by apply Hlock|by split|]. split; [split; [done|intros _; by apply Hlock]|]. simpl. split_and!.
      * apply NoDup_filter. rewrite Hds. apply NoDup_elements.
      * rewrite Hl. intros d. rewrite elem_of_list_to_set, list_elem_of_filter, Hds, elem_of_elements. tauto.
      * intros d [Hd _]%list_elem_of_filter Href. by apply Hd, Hg.
    + destruct Hl as [[Hc' _] Hl]. intros [= <-]. split; [|apply keeps_listed; simpl; by rewrite Hl].
      apply sys_inv_gc_ends; [done|by apply Hlock|by split].
  - intros [= <-]. split; [|by apply keeps_listed]. apply sys_inv_gc_ends; [done|by apply Hlock|by split].
  - destruct Hg as (Hn & Hsub & Href). apply NoDup_cons in Hn as [Hd Hn]. simpl in Hsub.
    unfold on_cas, zoom. pose proof (delete_blob_spec d _ Hc ltac:(set_solver)) as Hl. unfold wp in Hl.
    destruct (delete_blob d (st_cas (sys_stores s))) as [c' [[]|e|]]; [| |done]; destruct Hl as [Hc' Hl]; intros [= <-].
    + split.
      * apply sys_inv_gc; [done|by apply Hlock|by split|]. split; [split; [done|intros _; by apply Hlock]|]. simpl. rewrite Hl.
        split_and!; [done|set_solver|]. intros d' Hd'. apply Href. set_solver.
      * intros d' Hd' Hr'. simpl. rewrite Hl, elem_of_difference, elem_of_singleton. split; [done|].
        intros ->. by apply (Href d); [set_solver|].
    + split; [|apply keeps_listed; simpl; by rewrite Hl]. apply sys_inv_gc_ends; [done|by apply Hlock|by split].
Qed.

Lemma sys_step_inv who s :
  @gc_window_locks A _ = true → sys_inv s →
  sys_inv (default s (sys_step who s)) ∧ keeps_referenced (sys_stores s) (sys_stores (default s (sys_step who s))).
Proof.
  intros Hl Hs. destruct (sys_step who s) as [s'|] eqn:Hstep; simpl; [|split; [done|by apply keeps_listed]].
  destruct who; [by eapply worker_step_inv|by eapply gc_step_inv].
Qed.

Lemma run_schedule_inv sched s :
  @gc_window_locks A _ = true → sys_inv s → sys_inv (run_schedule sched s).
Proof.
  intros Hl. revert s. induction sched as [|who sched IH]; intros s Hs; simpl; [done|]. by apply IH, sys_step_inv.
Qed.

(** A result that stays in the cache keeps the blobs it had. *)
Lemma run_schedule_keeps sched s h r d :
  @gc_window_locks A _ = true → sys_inv s → d ∈ direct_digests r → d ∈ cas_listed (st_cas (sys_stores s)) →
  (∀ n, (n ≤ length sched)%nat → ac_view (st_ac (sys_stores (run_schedule (take n sched) s))) h = Some r) →
  d ∈ cas_listed (st_cas (sys_stores (run_schedule sched s))).
Proof.
  intros Hl. revert s. induction sched as [|who sched IH]; intros s Hs Hr Hd Hstays; [done|]. simpl.
  destruct (sys_step_inv who s Hl Hs) as [Hs' Hkeep]. apply IH; [done|done| |].
  - apply Hkeep; [done|]. exists h, r. split; [|done]. apply (Hstays 0%nat). lia.
  - intros n Hn. apply (Hstays (S n)). simpl. lia.
Qed.

(** A fresh system: nobody has moved, and the stores are in order. *)
Lemma sys_inv_init st (jobs : gmap nat Job) :
  stores_ok st → (∀ i j, jobs !! i = Some j → job_ok j) → sys_inv (mkSys st None (handlers <$> jobs) GcIdle).
Proof.
  intros Hok Hjobs. split_and!; simpl; [done| |by apply gc_inv_idle].
  intros i prog. rewrite lookup_fmap. destruct (jobs !! i) as [j|] eqn:Hj; simpl; [|done]. intros [= <-].
  exists j, 0%nat. split_and!; [by eapply Hjobs|done|lia|split; [done|lia]].
Qed.

End barrier.

(** ** The steps of the collector are those of [sweep] *)

Section alone.
Context {C A : Type} `{Cas C} `{ActionCache A}.
Implicit Types (st : Stores C A).

Lemma run_collector_delete ds st workers :
  ∃ k, run_schedule (replicate k Collector) (mkSys st (Some ByGc) workers (GcDelete ds)) =
    mkSys (delete_all ds st).1 None workers GcIdle.
Proof.
  revert st. induction ds as [|d ds IH]; intros st; [by exists 1%nat|]. cbn [delete_all].
  unfold mbind, eff_bind. destruct (on_cas (delete_blob d) st) as [st1 r] eqn:Hd.
  assert (∀ k, run_schedule (replicate (S k) Collector) (mkSys st (Some ByGc) workers (GcDelete (d :: ds))) =
    run_schedule (replicate k Collector)
      (match r with Ok _ => mkSys st1 (Some ByGc) workers (GcDelete ds) | _ => mkSys st1 None workers GcIdle end)) as Hstep.
  { intros k. cbn [replicate run_schedule sys_step]. unfold gc_step. cbn [sys_gc sys_stores]. rewrite Hd. by destruct r. }
  destruct r as [[]|e|]; [|by exists 1%nat; rewrite Hstep..].
  destruct (IH st1) as [k Hk]. exists (S k). rewrite Hstep, Hk. by destruct (delete_all ds st1) as [st2 []].
Qed.

(** Undisturbed, the collector does exactly what [sweep] does, and ends outside the
    barrier. *)
Lemma run_collector st workers :
  @gc_window_locks A _ = true →
  ∃ k, run_schedule (replicate k Collector) (mkSys st None workers GcIdle) = mkSys (sweep st).1 None workers GcIdle.
Proof.
  intros Hl. unfold sweep, plan_locked, plan, sweep_with_plan_locked, mbind, eff_bind.
  assert (∀ k, run_schedule (replicate (S k) Collector) (mkSys st None workers GcIdle) =
    run_schedule (replicate k Collector) (mkSys st (Some ByGc) workers GcMark)) as H1.
  { intros k. cbn [replicate run_schedule sys_step]. unfold gc_step, acquire. cbn. by rewrite Hl. }
  destruct (on_ac list_entries st) as [st1 [es|e|]] eqn:Hes.
  2,3: exists 2%nat; rewrite H1; cbn [replicate run_schedule sys_step]; unfold gc_step; cbn [sys_gc sys_stores]; by rewrite Hes.
  assert (∀ k, run_schedule (replicate (S k) Collector) (mkSys st (Some ByGc) workers GcMark) =
    run_schedule (replicate k Collector) (mkSys st1 (Some ByGc) workers (GcList (mark es)))) as H2.
  { intros k. cbn [replicate run_schedule sys_step]. unfold gc_step. cbn [sys_gc sys_stores]. by rewrite Hes. }
  destruct (on_cas list_digests st1) as [st2 [ds|e|]] eqn:Hds.
  2,3: exists 3%nat; rewrite H1, H2; cbn [replicate run_schedule sys_step]; unfold gc_step; cbn [sys_gc sys_stores]; by rewrite Hds.
  destruct (run_collector_delete (unreachable (plan_of (mark es) ds)) st2 workers) as [k Hk]. exists (S (S (S k))).
  rewrite H1, H2. cbn [replicate run_schedule sys_step]. unfold gc_step. cbn [sys_gc sys_stores]. rewrite Hds. exact Hk.
Qed.

End alone.

(** The in-memory store files every blob under its own digest. *)
#[export] Instance InMemoryCas_set_spec `{Sha256, ErrText} : CasSetSpec InMemoryCas.
Proof.
  intros bs c Hok Hfit. eapply wp_mono; [by apply batch_update_spec|..]; cbn beta.
  - intros rs c' (_ & Hrs & Hup & _). split.
    + intros d. simpl. rewrite !elem_of_dom. intros Hd. specialize (Hup d). simpl in Hup. unfold im_has in Hup.
      rewrite !bool_decide_eq_true in Hup. auto.
    + eapply Forall2_impl; [exact Hrs|]. intros p r [_ Hst] Hr. destruct (Hst Hr) as [_ Hhas]. simpl in *.
      apply elem_of_dom. by apply bool_decide_eq_true in Hhas.
  - intros e c' [_ Hh]. simpl. apply set_eq. intros d. rewrite !elem_of_dom. specialize (Hh d). simpl in Hh.
    unfold im_has in Hh. rewrite <-(bool_decide_eq_true (is_Some (im_blobs c' !! d))).
    by rewrite <-(bool_decide_eq_true (is_Some (im_blobs c !! d))), Hh.
Qed.
