(* ===== verification/CasDemo.v ===== *)
(** * brokkr-cas: concrete instances

    A hash of the shape of SHA-256, error texts, a codec for results, and small
    stores: the concrete inputs on which the theorems of [CasTheorems] are
    evaluated. *)

From stdpp Require Import prelude gmap strings pretty.
From Stdlib Require Import Lia Strings.Byte.
From S2P Require Import Prelude Machine Bytes Common Redb Cas CasBackends Bloom HotTier Tiered Ring Replicated ActionCache Gc GcBarrier.

Local Open Scope N_scope.

Fixpoint zeros (n : nat) : string := match n with O => "" | S n => "0" +:+ zeros n end.

(** A stand-in for SHA-256: one of two hashes, by the first byte. *)
Definition hex_a : string := zeros 15 +:+ "a" +:+ zeros 48.
Definition hex_b : string := zeros 15 +:+ "b" +:+ zeros 48.

#[export] Instance demo_sha : Sha256 := λ b, match b with x00 :: _ => hex_a | _ => hex_b end.

#[export] Instance demo_sha_spec : Sha256Spec.
Proof. intros [|[] b]; split; vm_compute; reflexivity. Qed.

#[export] Instance demo_err_text : ErrText := {|
  digest_error_text _ := "digest";
  cas_error_text _ := "cas"
|}.

#[export] Instance demo_sha_bytes : Sha256Bytes := λ b, b.

Definition blob_a : bytes := [x00; x01].
Definition blob_b : bytes := [x01; x02; x03].
Definition digest_a : Digest := Digest_of blob_a.
Definition digest_b : Digest := Digest_of blob_b.

(** ** A codec for results *)

Definition pbd_tuple (d : pb_Digest) : string * Z := (pd_hash d, pd_size_bytes d).
Definition tuple_pbd (t : string * Z) : pb_Digest := mkpbDigest t.1 t.2.

Definition result_tuple (r : ActionResult) :=
  ((λ f, (of_path f, pbd_tuple <$> of_digest f)) <$> output_files r,
   (λ d, (od_path d, pbd_tuple <$> tree_digest d, pbd_tuple <$> root_directory_digest d)) <$> output_directories r,
   exit_code r, (stdout_raw r, pbd_tuple <$> stdout_digest r), (stderr_raw r, pbd_tuple <$> stderr_digest r), ar_other r).

Definition tuple_result (t : list (string * option (string * Z))
    * list (string * option (string * Z) * option (string * Z))
    * Z * (bytes * option (string * Z)) * (bytes * option (string * Z)) * bytes) : ActionResult :=
  let '(files, dirs, code, out, err, other) := t in
  mkActionResult ((λ f, mkOutputFile f.1 (tuple_pbd <$> f.2)) <$> files)
    ((λ d, mkOutputDirectory d.1.1 (tuple_pbd <$> d.1.2) (tuple_pbd <$> d.2)) <$> dirs)
    code out.1 (tuple_pbd <$> out.2) err.1 (tuple_pbd <$> err.2) other.

Lemma tuple_pbd_tuple (o : option pb_Digest) : tuple_pbd <$> (pbd_tuple <$> o) = o.
Proof. by destruct o as [[]|]. Qed.

Lemma fmap_fmap_id {A B} (f : A → B) (g : B → A) (l : list A) : (∀ x, g (f x) = x) → g <$> (f <$> l) = l.
Proof.
  intros Hgf. rewrite <-list_fmap_compose. rewrite <-(list_fmap_id l) at 2. apply list_fmap_ext.
  intros _ x _. apply Hgf.
Qed.

Lemma tuple_result_tuple r : tuple_result (result_tuple r) = r.
Proof.
  destruct r as [fs ds code raw out rawe err other]. unfold tuple_result, result_tuple; simpl.
  rewrite !tuple_pbd_tuple. f_equal; apply fmap_fmap_id.
  - intros [p d]; simpl. by rewrite tuple_pbd_tuple.
  - intros [p t r]; simpl. by rewrite !tuple_pbd_tuple.
Qed.

#[export] Instance demo_ar_codec : ArCodec := {|
  enc_result r := pos_to_bytes (encode (result_tuple r));
  dec_result b := match decode (bytes_to_pos b) with
    | Some t => inr (tuple_result t) | None => inl "malformed result" end
|}.

#[export] Instance demo_ar_codec_spec : ArCodecSpec.
Proof.
  intros r. unfold dec_result, enc_result; simpl. rewrite bytes_to_pos_to_bytes, decode_encode.
  by rewrite tuple_result_tuple.
Qed.

(** ** Stores *)

(** An empty redb store whose first insert will fail on its own. *)
Definition demo_redb : RedbCas := RedbCas_open ∅ [None; None; Some (TxnFailed "disk full")].

(** Two tiers over a filter over redb. *)
Definition demo_store : TieredCas (BloomCas RedbCas) :=
  TieredCas_new (BloomCas_new demo_redb 64 3) 16.

Definition demo_batch : list (Digest * bytes) := [(digest_a, blob_a); (digest_b, blob_b)].

Lemma demo_store_ok : cas_ok demo_store.
Proof.
  apply TieredCas_new_ok; [|done]. split_and!; [|apply Bloom_sized_wf|]; simpl.
  - intros h b. simpl. by rewrite lookup_empty.
  - intros d. unfold rc_has. simpl. by rewrite lookup_empty.
Qed.

Definition demo_node (id : string) : RingNode := mkRingNode id ("http://" +:+ id) Healthy.
Definition demo_topology : Topology := mkTopology u64_1 [demo_node "a"; demo_node "b"; demo_node "c"] 3.

Definition demo_pool : gmap string InMemoryCas :=
  list_to_map ((λ id, (id, InMemoryCas_new)) <$> ["a"; "b"; "c"]).

Lemma demo_pool_ok : pool_ok demo_pool.
Proof.
  intros id c Hc d b. apply elem_of_list_to_map_2, list_elem_of_fmap in Hc as (id' & [= _ ->] & _).
  simpl. by rewrite lookup_empty.
Qed.

(** A result that refers to one uploaded blob. *)
Definition demo_result : ActionResult :=
  mkActionResult [mkOutputFile "out" (Some (mkpbDigest (hash digest_a) (size_bytes digest_a)))] [] 0 [] None [] None [].

Definition demo_job : Job := mkJob digest_b [(digest_a, blob_a)] demo_result.

Definition demo_stores : Stores InMemoryCas RedbActionCache :=
  mkStores InMemoryCas_new (RedbActionCache_open ∅ []).
