(* ===== verification/CasTheorems.v ===== *)
(** * brokkr-cas: what the stores guarantee

    The main results on the content-addressed store, its decorators, placement,
    replication, repair and garbage collection, each with a concrete run. *)

From stdpp Require Import prelude gmap strings pretty sorting.
From Stdlib Require Import Lia Strings.Byte.
From S2P Require Import Prelude Machine Bytes Common Redb Cas CasBackends Bloom HotTier Tiered Ring Replicated ActionCache Gc GcBarrier CasDemo.

Local Open Scope N_scope.

(** A sequence of calls on a store, given as its three operations; failed calls
    leave whatever they leave. *)
Definition session {C} (missing : list Digest → eff C CasError (list Digest))
    (update : list (Digest * bytes) → eff C CasError (list UpdateResult))
    (read : list Digest → eff C CasError (list (outcome CasError bytes))) (ops : list CasCall) (c : C) : C :=
  foldl (λ c op, match op with CallFind ds => (missing ds c).1 | CallUpdate bs => (update bs c).1 | CallRead ds => (read ds c).1 end) c ops.

(** What such a store acknowledges it serves: in a batch of writes, an entry with a
    success is filed under the digest of its bytes, and after any further calls a
    read of it that returns yields bytes with its hash, and no presence check
    reports it missing; a batch that fails leaves the presence of every blob as it
    was. *)
Definition serves_acknowledged {C} `{Sha256} (ok : C → Prop) (has : C → Digest → bool) missing update read : Prop :=
  ∀ bs (c : C), ok c → Forall (λ p, blob_fits p.2) bs →
  wp (update bs)
     (λ rs c1, ∀ i d b r, bs !! i = Some (d, b) → rs !! i = Some r → status_ok r = true →
        d = Digest_of b ∧
        ∀ ops, Forall call_fits ops →
          wp (read [d]) (λ a _, ∃ b', a = [Ok b'] ∧ sha256_hex b' = hash d) (λ _ _, True) (session missing update read ops c1)
          ∧ wp (missing [d]) (λ m _, m = []) (λ _ _, True) (session missing update read ops c1))
     (λ _ c1, ∀ d, has c1 d = has c d) c.

(** The contract gives it. *)
Lemma contract_serves {C} `{CasSpec C} :
  serves_acknowledged cas_ok cas_has find_missing_blobs batch_update_blobs batch_read_blobs.
Proof.
  intros bs c Hok Hfit. eapply wp_mono; [by apply batch_update_spec|..]; cbn beta; [|by intros e c1 [_ ?]].
  intros rs c1 (Hok1 & Hrs & _) i d b r Hi Hr Hst.
  destruct (Forall2_lookup_lr _ _ _ _ _ _ Hrs Hi Hr) as [_ Hp]. destruct (Hp Hst) as [Hd Hhas]. simpl in *.
  split; [done|]. intros ops Hops. destruct (cas_run_keeps ops c1 Hok1 Hops) as [Hok2 Hkeep].
  specialize (Hkeep _ Hhas). change (session _ _ _ ops c1) with (cas_run ops c1). split.
  - eapply wp_mono; [by apply batch_read_spec| |done]. intros a c3 [_ Ha].
    apply Forall2_cons_inv_l in Ha as (x & ? & Hx & ->%Forall2_nil_inv_l & ->). rewrite Hkeep in Hx.
    destruct x as [b'|e|]; [|by destruct Hx|done]. exists b'. split; [done|apply Hx].
  - eapply wp_mono; [by apply find_missing_spec| |done]. intros m c3 [_ Hm].
    rewrite filter_cons, decide_False, filter_nil in Hm by congruence. by apply Permutation_nil_r in Hm.
Qed.

(** C17.  A blob a store acknowledged is served from then on, by each of the stores:
    in memory, on redb with calls that may fail, behind a Bloom filter, and behind
    the hot tier.  It matches its digest, and after any further calls, failed ones
    included, a read that returns yields bytes with its hash, and no presence check
    reports it missing.  The two decorators are over any store that does what a
    store must, among them each of the four. *)
Theorem cas_acknowledged_is_served `{Sha256, ErrText} :
  serves_acknowledged im_ok im_has im_find_missing_blobs im_batch_update_blobs im_batch_read_blobs ∧
  serves_acknowledged rc_ok rc_has rc_find_missing_blobs rc_batch_update_blobs rc_batch_read_blobs ∧
  (∀ C `{!Cas C, !CasSpec C}, serves_acknowledged bc_ok bc_has bc_find_missing_blobs bc_batch_update_blobs bc_batch_read_blobs) ∧
  (∀ W `{!Cas W, !CasSpec W}, serves_acknowledged tc_ok tc_has tc_find_missing_blobs tc_batch_update_blobs tc_batch_read_blobs) ∧
  serves_acknowledged (C := TieredCas (BloomCas RedbCas)) tc_ok tc_has tc_find_missing_blobs tc_batch_update_blobs tc_batch_read_blobs.
Proof.
  split_and!.
  - exact (contract_serves (C := InMemoryCas)).
  - exact (contract_serves (C := RedbCas)).
  - intros C ? ?. exact (contract_serves (C := BloomCas C)).
  - intros W ? ?. exact (contract_serves (C := TieredCas W)).
  - exact (contract_serves (C := TieredCas (BloomCas RedbCas))).
Qed.

(** The first insert goes through and the second fails in redb; the tiers above
    still serve the first. *)
Lemma cas_acknowledged_is_served_witness :
  (status_ok <$> default [] (returned (tc_batch_update_blobs demo_batch demo_store))) = [true; false] ∧
  wp (tc_batch_read_blobs [digest_a]) (λ a _, ∃ b, a = [Ok b] ∧ sha256_hex b = hash digest_a) (λ _ _, True)
     (session tc_find_missing_blobs tc_batch_update_blobs tc_batch_read_blobs
        [CallFind [digest_b]; CallUpdate demo_batch] (tc_batch_update_blobs demo_batch demo_store).1).
Proof.
  split; [by vm_compute|].
  pose proof (proj2 (proj2 (proj2 (proj2 cas_acknowledged_is_served))) demo_batch demo_store demo_store_ok ltac:(by repeat constructor)) as Hw.
  apply (wp_returned _ _ _ _ [mkUpdateResult digest_a (Ok ()); mkUpdateResult digest_b (Err "disk full")]) in Hw; [|by vm_compute].
  destruct (Hw 0%nat digest_a blob_a (mkUpdateResult digest_a (Ok ())) eq_refl eq_refl eq_refl) as [_ Hs].
  destruct (Hs [CallFind [digest_b]; CallUpdate demo_batch]) as [Hread _]; [by repeat constructor|exact Hread].
Defined.

(** The Bloom filter has no false negatives: an inserted digest is
    contained through any later inserts, [clear] empties the filter, the bits
    set are exactly those of the inserted digests, and a filter rebuilt from a
    listing of its store again covers everything the store holds. *)
Theorem bloom_no_false_negatives {C} `{CasListSpec C} (b : Bloom) ds d (inner : C) :
  bloom_wf b →
  (d ∈ ds → Bloom_contains d (foldl (λ g d, Bloom_insert d g) b ds) = true) ∧
  Bloom_contains d (Bloom_clear b) = false ∧
  (∀ j, test_bit j (bits (Bloom_insert d b)) = bool_decide (j ∈ digest_bits d b) || test_bit j (bits b)) ∧
  (cas_ok inner →
     wp list_digests (λ local inner', cas_ok (rebuild_from local (mkBloomCas inner' b)))
        (λ _ _, True) inner).
Proof.
  intros Hwf. split_and!.
  - intros Hd. apply Bloom_inserts_contains; [done|by left].
  - by apply Bloom_clear_contains.
  - intros j. by apply Bloom_insert_bits.
  - intros Hok. eapply wp_mono; [by apply list_digests_spec| |done]. intros local i' [[[Hok' Hhas] Hl] Hds].
    simpl. unfold rebuild_from. simpl. split_and!; simpl; [done|by apply (Bloom_inserts_contains _ d), Bloom_clear_wf|].
    intros d' Hd'. destruct (has_listed i' d' Hok' Hd') as (k & Hk & Hh).
    rewrite <-(Bloom_contains_hash k) by done.
    apply Bloom_inserts_contains; [by apply Bloom_clear_wf|left]. rewrite Hds. by rewrite Hl in Hk; apply elem_of_elements.
Qed.

Lemma bloom_no_false_negatives_witness :
  Bloom_contains digest_a (Bloom_insert digest_b (Bloom_insert digest_a (Bloom_sized 64 3))) = true ∧
  Bloom_contains digest_b (Bloom_insert digest_a (Bloom_sized 64 3)) = false.
Proof.
  split; [|by vm_compute].
  refine (proj1 (bloom_no_false_negatives (Bloom_sized 64 3) [digest_a; digest_b] digest_a InMemoryCas_new _) _).
  - apply Bloom_sized_wf.
  - apply elem_of_cons. by left.
Defined.

(** C21.  The hot tier is an LRU list: threaded through its slot pool, it
    answers [get] and [put] exactly as the list does, most recently used first,
    moving a hit to the front and evicting from the back down to the byte
    budget.  No index of the pool is ever out of range, the eviction loop ends,
    every slot is in the list or on the free list, and the budget is kept. *)
Theorem hot_tier_refines_lru (h : HotTier) l d b :
  hot_repr h l → blen b < 2 ^ 63 →
  wp (HotTier_get d) (λ r h', r = (lru_get d l).1 ∧ hot_repr h' (lru_get d l).2) (λ (_ : CasError) _, False) h ∧
  wp (HotTier_put d b) (λ _ h', hot_repr h' (lru_put (capacity_bytes h) d b l)
                                ∧ hot_bytes_held h' ≤ capacity_bytes h
                                ∧ HotTier_len h' = N.of_nat (length (lru_put (capacity_bytes h) d b l)))
     (λ (_ : CasError) _, False) h.
Proof.
  intros Hr Hb. split.
  - eapply wp_mono; [by apply HotTier_get_spec| |done]. intros r h' (? & ? & _). done.
  - eapply wp_mono; [by apply HotTier_put_spec| |done]. intros [] h' [Hr' Hc']. split; [done|].
    destruct Hr' as ((es & (_ & _ & Hn & Hm & Hbytes) & Hes) & Ht & _). split; [rewrite Hbytes, Hes; congruence|].
    unfold HotTier_len. rewrite Hm, <-Hes. f_equal. rewrite <-length_map_to_list, map_to_list_to_map.
    + by rewrite !length_fmap.
    + rewrite <-list_fmap_compose. by rewrite <-list_fmap_compose in Hn.
Qed.

Lemma hot_tier_refines_lru_witness :
  (λ h, (hot_bytes_held h, hot_free h, hot_head h))
    (HotTier_put (E:=CasError) digest_b blob_b (HotTier_put (E:=CasError) digest_a blob_a (HotTier_new 4)).1).1
    = (3, [0%nat], Some 1%nat) ∧
  hot_repr (HotTier_put (E:=CasError) digest_a blob_a (HotTier_new 4)).1 [(digest_a, blob_a)].
Proof.
  split; [by vm_compute|].
  refine (proj1 (wp_returned _ _ _ _ () (proj2 (hot_tier_refines_lru (HotTier_new 4) [] digest_a blob_a _ _)) _)).
  - by apply hot_repr_new.
  - by vm_compute.
  - by vm_compute.
Defined.

(** Rendezvous placement: [replicas_for] picks the eligible nodes of
    highest score, best first, as many as asked for or as there are; the choice
    does not depend on the order of the node list; and when a node leaves, a
    digest it did not hold keeps its replicas, while one it held keeps the
    others, in order, and gains at most one. *)
Theorem rendezvous_placement `{Sha256Bytes} d ns r x :
  NoDup (node_id <$> ns) →
  (length (replicas_for d ns r) = N.to_nat r `min` length (eligible ns))%nat ∧
  StronglySorted (ranks d) (replicas_for d ns r) ∧
  (∀ n m, n ∈ replicas_for d ns r → m ∈ ns → is_eligible (status m) = true → m ∉ replicas_for d ns r → ranks d n m) ∧
  (∀ ns', ns ≡ₚ ns' → replicas_for d ns' r = replicas_for d ns r) ∧
  filter (λ n, node_id n ≠ x) (replicas_for d ns r)
    `prefix_of` replicas_for d (filter (λ n, node_id n ≠ x) ns) r ∧
  (x ∉ node_id <$> replicas_for d ns r →
     replicas_for d (filter (λ n, node_id n ≠ x) ns) r = replicas_for d ns r).
Proof.
  intros Hn. split_and!; [..|apply (replicas_for_loss d ns r x Hn)|apply (replicas_for_loss d ns r x Hn)];
    rewrite ?replicas_for_ranking.
  - rewrite length_take. unfold ranking. by rewrite merge_sort_Permutation.
  - pose proof (ranking_sorted d ns) as Hs. rewrite <-(take_drop (N.to_nat r) (ranking d ns)) in Hs.
    by apply StronglySorted_app in Hs as (_ & ? & _).
  - intros n m Hin Hm He Hni. pose proof (ranking_sorted d ns) as Hs.
    assert (m ∈ ranking d ns) as Hr by (by apply ranking_elem).
    rewrite <-(take_drop (N.to_nat r) (ranking d ns)) in Hs, Hr. apply elem_of_app in Hr as [?|Hr]; [done|].
    by eapply StronglySorted_app_1_elem_of.
  - intros ns' Hp. rewrite !replicas_for_ranking. by rewrite (ranking_perm d ns ns').
Qed.

Lemma rendezvous_placement_witness :
  (node_id <$> replicas_for digest_a (nodes demo_topology) 2) = ["c"; "b"] ∧
  replicas_for digest_a (filter (λ n, node_id n ≠ "a") (nodes demo_topology)) 2
    = replicas_for digest_a (nodes demo_topology) 2.
Proof.
  split; [by vm_compute|]. apply (rendezvous_placement digest_a (nodes demo_topology) 2 "a"); by_vm.
Defined.

(** C16.  A replicated write that is reported as stored survives the loss of
    fewer than a write quorum of nodes: it matches its digest, and whatever
    becomes of the pool, as long as every node that held the blob and is not
    among those lost still holds it and answers, a read through the replicated
    store returns bytes with the digest's hash.  A write never fails as a call:
    each blob has its own status. *)
Theorem quorum_write_survives {C} `{CasSpec C, Sha256Bytes, ErrText} bs (s : ReplicatedCas C) :
  pool_ok (pool s) → NoDup (node_id <$> nodes (topology s)) → Forall (λ q, blob_fits q.2) bs →
  wp (rp_batch_update_blobs bs)
     (λ rs s1, ∀ i d b r, bs !! i = Some (d, b) → rs !! i = Some r → status_ok r = true →
        d = Digest_of b ∧
        ∀ (down : gset string) (p2 : StaticPool C),
          N.of_nat (size down) < write_quorum (topology s) →
          pool_ok p2 →
          (∀ id c1, id ∉ down → pool s1 !! id = Some c1 → cas_has c1 d = true →
             ∃ c2, p2 !! id = Some c2 ∧ cas_has c2 d = true ∧ is_Some (returned (batch_read_blobs [d] c2))) →
          wp (rp_read_one d) (λ a _, ∃ b', a = Ok b' ∧ sha256_hex b' = hash d) (λ _ _, False)
             (mkReplicatedCas p2 (topology s)))
     (λ _ _, False) s.
Proof.
  intros Hp Hn Hfit. eapply wp_mono; [by apply rp_update_spec| |done].
  intros rs s1 (Hp1 & _ & _ & Hq) i d b r Hi Hr Hst.
  destruct (Forall2_lookup_lr _ _ _ _ _ _ Hq Hi Hr) as [_ Hq']. destruct (Hq' Hst) as (Hd & _ & Hlen). simpl in *.
  split; [done|]. intros down p2 Hdown Hp2 Hkeep. unfold rp_read_one. wp_step. wp_step. wp_step. apply wp_zoom.
  eapply wp_mono; [apply read_replicas_spec; [done|by apply replicas_NoDup]| |done]. cbn beta.
  intros [b'|] p3 (_ & _ & Ho); wp_step; [exists b'; split; [done|apply Ho]|]. exfalso.
  destruct (quorum_survivor _ _ _ _ Hn Hlen Hdown) as (n & Hin & Hhas & Hup). unfold node_has in Hhas.
  destruct (pool s1 !! node_id n) as [c1|] eqn:Hc1; [|done].
  destruct (Hkeep _ _ Hup Hc1 Hhas) as (c2 & Hc2 & Hhas2 & [x Hx]). by rewrite (Ho n c2 Hin Hc2 Hhas2) in Hx.
Qed.

(** Three replicas, a quorum of two; the primary is lost after the write. *)
Lemma quorum_write_survives_witness :
  returned (rp_read_one digest_a (mkReplicatedCas
    (delete "c" (pool (rp_batch_update_blobs [(digest_a, blob_a)] (mkReplicatedCas demo_pool demo_topology)).1))
    demo_topology)) = Some (Ok blob_a) ∧
  digest_a = Digest_of blob_a.
Proof.
  split; [by vm_compute|].
  pose proof (quorum_write_survives [(digest_a, blob_a)] (mkReplicatedCas demo_pool demo_topology)
    demo_pool_ok ltac:(by_vm) ltac:(by repeat constructor)) as Hw.
  exact (proj1 (wp_returned _ _ _ _ [mkUpdateResult digest_a (Ok ())] Hw ltac:(by vm_compute)
    0%nat digest_a blob_a (mkUpdateResult digest_a (Ok ())) eq_refl eq_refl eq_refl)).
Defined.

(** C20.  A repair pass loses nothing, changes no node but its target, and
    accounts for every digest: each one that some node of the topology lists
    and that rendezvous hashing assigns to the target is on the target
    afterwards or reported as unrepairable, and the counts of the report add
    up.  An unknown target is refused before anything is touched. *)
Theorem repair_node_correct {C} `{CasListSpec C, Sha256Bytes} t target (p : StaticPool C) :
  pool_ok p →
  wp (repair_node t target)
     (λ rep p', pool_ok p' ∧ repairs target p p' ∧ balanced rep ∧
        ∀ n c d, n ∈ nodes t → p !! node_id n = Some c → d ∈ cas_listed c → settled t target rep p' d)
     (λ e p', pool_ok p' ∧ repairs target p p' ∧
        (p !! target = None → p' = p ∧ e = CasIo ("peer-repair: unknown target node " +:+ target))) p.
Proof.
  intros Hp. unfold repair_node. wp_step. wp_step. unfold id.
  destruct (p !! target) as [c0|] eqn:Hc0; [|by wp_step]. wp_step.
  eapply wp_mono; [by apply (collect_universe_spec target)|..]; cbn beta; [|by intros e p' [? ?]].
  intros U p1 (Hp1 & Hr1 & Hl1 & _ & HU). wp_step. apply wp_at_node_try.
  { intros HN. specialize (Hl1 target). by rewrite Hc0, HN in Hl1. }
  intros c1 Hc1. eapply wp_mono; [apply list_digests_spec, (Hp1 _ _ Hc1)|..]; cbn beta.
  2:{ intros e c2 [Hk _]. split_and!; [apply pool_ok_insert; [done|apply Hk]| |done].
      etrans; [done|]. by eapply repairs_keeps. }
  intros local c2 [[Hk Hl] Hlocal].
  assert (repairs target p (<[target := c2]> p1)) as Hr2 by (etrans; [done|]; by eapply repairs_keeps).
  eapply wp_mono; [apply repair_all_spec; [apply pool_ok_insert; [done|apply Hk]|done|]|..]; cbn beta.
  - intros d. rewrite elem_of_list_to_set. simpl. rewrite Hlocal, elem_of_elements. intros Hd. exists c2.
    rewrite lookup_insert_eq. split; [done|]. apply listed_has; [apply Hk|]. by rewrite Hl.
  - intros rep p' (? & ? & ? & _ & Hset). split_and!; [done|by etrans|done|].
    intros n c d Hin Hc Hd. apply Hset, elem_of_elements. by eapply HU.
  - intros e p' (? & ?). split_and!; [done|by etrans|done].
Qed.

(** The node lost its copy; a pass brings it back from a peer. *)
Definition forgetful_pool : gmap string InMemoryCas :=
  <["c" := InMemoryCas_new]>
    (pool (rp_batch_update_blobs [(digest_a, blob_a)] (mkReplicatedCas demo_pool demo_topology)).1).

Lemma repair_node_correct_witness :
  returned (repair_node demo_topology "c" forgetful_pool) = Some (mkRepairReport 1 0 1 []) ∧
  balanced (mkRepairReport 1 0 1 []).
Proof.
  split; [by vm_compute|]. assert (pool_ok forgetful_pool) as Hok.
  { apply pool_ok_insert; [|intros d b; simpl; by rewrite lookup_empty].
    refine (proj1 (wp_returned _ _ _ _ [mkUpdateResult digest_a (Ok ())]
      (rp_update_spec [(digest_a, blob_a)] (mkReplicatedCas demo_pool demo_topology) demo_pool_ok
        ltac:(by repeat constructor)) ltac:(by vm_compute))). }
  pose proof (repair_node_correct demo_topology "c" forgetful_pool Hok) as Hw.
  refine (proj1 (proj2 (proj2 (wp_returned _ _ _ _ (mkRepairReport 1 0 1 []) Hw _)))).
  by vm_compute.
Defined.

(** A sweep on its own deletes exactly the blobs no cached result refers
    to and counts them; when a store call fails partway it stops, having
    deleted none that is referred to.  The action cache is left as it was. *)
Theorem gc_sweep_exact {C A} `{CasListSpec C, ActionCacheSpec A} (s : Stores C A) :
  stores_ok s →
  wp sweep
     (λ n s', gc_safe s s'
        ∧ (∀ d, d ∈ cas_listed (st_cas s') ↔ d ∈ cas_listed (st_cas s) ∧ referenced (st_ac s) d)
        ∧ n = N.of_nat (size (cas_listed (st_cas s) ∖ cas_listed (st_cas s'))))
     (λ _ s', gc_safe s s') s.
Proof.
  intros Hok. unfold sweep, plan_locked, sweep_with_plan_locked. wp_step.
  eapply wp_mono; [by apply plan_spec| |done]. intros p s1 (Hs1 & Hl1 & Hreach & Hun).
  assert (∀ d, d ∈ unreachable p ↔ d ∈ cas_listed (st_cas s) ∧ ¬ referenced (st_ac s) d) as Hdel.
  { intros d. rewrite Hun, list_elem_of_filter, elem_of_elements, Hreach. tauto. }
  assert (NoDup (unreachable p)) as Hn by (rewrite Hun; apply NoDup_filter, NoDup_elements).
  destruct Hs1 as (Hok1 & Hv1 & _). assert (∀ d, referenced (st_ac s1) d ↔ referenced (st_ac s) d) as Href.
  { intros d. unfold referenced. by setoid_rewrite Hv1. }
  eapply wp_mono; [apply delete_all_spec; [done|done|]|..]; cbn beta.
  - intros d Hd%elem_of_list_to_set. rewrite Hl1. by apply Hdel.
  - intros n s' (Hok' & Hac & -> & Hl'). rewrite Hl1 in Hl'.
    assert (∀ d, d ∈ cas_listed (st_cas s') ↔ d ∈ cas_listed (st_cas s) ∧ referenced (st_ac s) d) as Hkept.
    { intros d. rewrite Hl', elem_of_difference, elem_of_list_to_set, Hdel.
      destruct (decide (d ∈ reachable p)) as [Hr|Hr]; rewrite Hreach in Hr; tauto. }
    split_and!; [|done|].
    + split_and!; [done|by rewrite Hac|rewrite Hl'; set_solver|]. intros d Hd Hr. by apply Hkept.
    + f_equal. rewrite <-(size_list_to_set (C:=gset Digest)) by done. f_equal. apply set_eq. intros d.
      rewrite elem_of_list_to_set, elem_of_difference, Hkept, Hdel. tauto.
  - intros e s' (Hok' & Hac & Hlo & Hhi). rewrite Hl1 in *. split_and!; [done|by rewrite Hac|done|].
    intros d Hd Hr. apply Hlo. rewrite elem_of_difference, elem_of_list_to_set, Hdel. tauto.
Qed.

(** A store of two blobs of which a cached result refers to one. *)
Definition littered_stores : Stores InMemoryCas RedbActionCache :=
  mkStores (mkInMemoryCas (list_to_map [(digest_a, blob_a); (digest_b, blob_b)]))
           (RedbActionCache_open {[ hash digest_b := enc_result demo_result ]} []).

Lemma littered_stores_ok : stores_ok littered_stores.
Proof.
  split.
  - intros d b Hd. apply elem_of_list_to_map_2 in Hd. rewrite !elem_of_cons, elem_of_nil in Hd.
    destruct Hd as [[= -> ->]|[[= -> ->]|[]]]; by vm_compute.
  - intros h b Hb. cbn in Hb. apply lookup_singleton_Some in Hb as [<- <-]. split; [by vm_compute|].
    exists demo_result. split; [done|by vm_compute].
Qed.

Lemma gc_sweep_exact_witness :
  (elements (cas_listed (st_cas (sweep littered_stores).1)), returned (sweep littered_stores)) = ([digest_a], Some 1) ∧
  gc_safe littered_stores (sweep littered_stores).1.
Proof.
  split; [by vm_compute|].
  refine (proj1 (wp_returned _ _ _ _ 1 (gc_sweep_exact littered_stores littered_stores_ok) _)). by vm_compute.
Defined.

(** C19.  A sweep among writers keeps what the cache refers to.  Where the action cache
    has a real barrier, which the collector holds for its sweep and the handlers
    hold for their write to the cache, as they do: however the store calls of a
    collector and any number of handlers and their uploads are scheduled, and
    whichever of them fail, a blob that a cached result refers to and that is in the
    store stays there for as long as the result stays in the cache.  The steps of
    the collector are those of [sweep]: undisturbed, they do to the stores exactly
    what it does. *)
Theorem gc_sweep_keeps_results {C A} `{CasSetSpec C, ActionCacheSpec A} (st : Stores C A) (jobs : gmap nat Job) sched sched' h r d :
  gc_window_locks = true → stores_ok st → (∀ i j, jobs !! i = Some j → job_ok (A:=A) j) →
  let s := run_schedule sched (mkSys st None (handlers <$> jobs) GcIdle) in
  ((∀ n, (n ≤ length sched')%nat → ac_view (st_ac (sys_stores (run_schedule (take n sched') s))) h = Some r) →
   d ∈ direct_digests r → d ∈ cas_listed (st_cas (sys_stores s)) → d ∈ cas_listed (st_cas (sys_stores (run_schedule sched' s)))) ∧
  ∃ k, run_schedule (replicate k Collector) (mkSys st None (handlers <$> jobs) GcIdle) = mkSys (sweep st).1 None (handlers <$> jobs) GcIdle.
Proof.
  intros Hl Hok Hjobs s. split; [|by apply run_collector]. intros Hstays Hr Hd.
  eapply run_schedule_keeps; [done|by apply run_schedule_inv, sys_inv_init|done|done|exact Hstays].
Qed.

Lemma demo_stores_ok : stores_ok demo_stores ∧ no_dangling demo_stores.
Proof.
  split; [split|].
  - intros d b. simpl. by rewrite lookup_empty.
  - intros h b. simpl. by rewrite lookup_empty.
  - intros d (h & r & Hr & _). cbn in Hr. unfold ra_view in Hr. cbn in Hr. by rewrite lookup_empty in Hr.
Qed.

Lemma demo_job_ok : job_ok (A:=RedbActionCache) demo_job.
Proof.
  split; [|split].
  - split; [|split]; by vm_compute.
  - vm_compute. reflexivity.
  - apply Forall_singleton. vm_compute. reflexivity.
Qed.

(** The handler is done, and a sweep begins; another upload comes in between. *)
Definition written_first : Sys InMemoryCas RedbActionCache :=
  run_schedule (replicate 4 (Worker 0)) (mkSys demo_stores None (handlers <$> {[ 0%nat := demo_job; 1%nat := demo_job ]}) GcIdle).

Lemma gc_sweep_keeps_results_witness :
  digest_a ∈ cas_listed (st_cas (sys_stores
    (run_schedule [Collector; Collector; Worker 1; Collector; Collector; Worker 1]%nat written_first))).
Proof.
  destruct demo_stores_ok as [Hok _].
  refine (proj1 (gc_sweep_keeps_results demo_stores {[ 0%nat := demo_job; 1%nat := demo_job ]} (replicate 4 (Worker 0))
    [Collector; Collector; Worker 1; Collector; Collector; Worker 1]%nat (hash digest_b) demo_result digest_a eq_refl Hok _) _ _ _).
  - intros i j [[_ <-]|[_ [_ <-]%lookup_singleton_Some]]%lookup_insert_Some; exact demo_job_ok.
  - intros [|[|[|[|[|[|[|n]]]]]]] Hn; [vm_compute; reflexivity..|]. simpl in Hn. lia.
  - vm_compute. by left.
  - by_vm.
Defined.

(** The upload lands before the collector starts; the write waits for it. *)
Definition handler_race : list Actor :=
  [Worker 0; Collector; Collector; Collector; Collector; Collector; Worker 0; Worker 0; Worker 0]%nat.

Definition raced : Sys InMemoryCas RedbActionCache :=
  run_schedule handler_race (mkSys demo_stores None (handlers <$> {[ 0%nat := demo_job ]}) GcIdle).

(** Holding the barrier across the cache write alone, as the service
    handlers do, is not enough even where the barrier is a real lock: an upload
    that lands before a sweep begins is unreferenced when the sweep marks, is
    deleted by it, and the write that waited for the sweep then caches a result
    whose blob is gone. *)
Theorem handler_barrier_race :
  @gc_window_locks RedbActionCache _ = true ∧ stores_ok demo_stores ∧ no_dangling demo_stores ∧
  job_ok (A:=RedbActionCache) demo_job ∧
  sys_lock raced = None ∧ sys_workers raced !! 0%nat = Some [] ∧
  referenced (st_ac (sys_stores raced)) digest_a ∧
  digest_a ∉ cas_listed (st_cas (sys_stores raced)).
Proof.
  destruct demo_stores_ok as [Hok Hnd].
  split; [done|]. split; [done|]. split; [done|]. split; [exact demo_job_ok|].
  split; [by vm_compute|]. split; [by vm_compute|]. split.
  - exists (hash digest_b), demo_result. split; [by vm_compute|]. vm_compute. by left.
  - by_vm.
Qed.
