(* ===== verification/Fs.v ===== *)
(** * What [tree.rs] uses of [std::fs]

    A Unix file system as a map from canonical paths to inodes, path resolution
    with symbolic links, and the calls of [std::fs] and [std::path] that
    [crates/brokkr-cas/src/tree.rs] makes.  Names are text; directories carry no
    mode; hard links and other file types do not occur.  Every system call may
    fail on a schedule; a write that fails may have written a prefix. *)

From stdpp Require Import prelude gmap strings.
From Stdlib Require Import Lia Strings.Ascii.
From S2P Require Import Prelude Machine Bytes Common Redb.

Local Open Scope N_scope.

Notation path := (list string).

Inductive inode : Type :=
| IFile (mode : N) (content : bytes)
| IDir
| ILink (target : string).

Notation inodes := (gmap (list string) inode).

Inductive IoError : Type :=
| IoNotFound
| IoNotADirectory
| IoIsADirectory
| IoAlreadyExists
| IoLoop
| IoInvalidInput
| IoFailed (msg : string).

(** A system call that fails, and how much a failing write has written. *)
Record IoFault : Type := mkIoFault { fault_msg : string; fault_written : nat }.

Record Fs : Type := mkFs {
  fs_nodes : inodes;
  fs_umask : N;
  fs_faults : list (option IoFault)
}.

Definition set_nodes (ns : inodes) (s : Fs) : Fs := mkFs ns (fs_umask s) (fs_faults s).

#[export] Instance inode_eq_dec : EqDecision inode.
Proof. solve_decision. Defined.

(** ** Paths *)

Fixpoint has_char (c : ascii) (s : string) : bool :=
  match s with EmptyString => false | String c' s => bool_decide (c' = c) || has_char c s end.

Fixpoint components (s : string) : path :=
  match s with
  | EmptyString => [""]
  | String c s =>
      if decide (c = "/"%char) then "" :: components s
      else match components s with x :: xs => String c x :: xs | [] => [String c ""] end
  end.

Definition absolute (s : string) : bool :=
  match s with String c _ => bool_decide (c = "/"%char) | EmptyString => false end.

(** [Path::join]: an absolute name replaces the base. *)
Definition join (p : path) (name : string) : path :=
  if absolute name then components name else p ++ components name.

(** How many links one resolution may follow. *)
Definition MAXSYMLINKS : nat := 40.

(** Resolve [todo] from the canonical directory [cur].  The last component need
    not exist; if it is a link it is followed on demand. *)
Fixpoint walk (budget : nat) (follow : bool) (ns : inodes) : path → path → outcome IoError path :=
  fix go (cur todo : path) : outcome IoError path :=
    match todo with
    | [] => Ok cur
    | c :: rest =>
        if decide (c = "" ∨ c = ".") then go cur rest
        else if decide (c = "..") then go (removelast cur) rest
        else match ns !! (cur ++ [c]) with
             | None => match rest with [] => Ok (cur ++ [c]) | _ => Err IoNotFound end
             | Some IDir => go (cur ++ [c]) rest
             | Some (IFile _ _) => match rest with [] => Ok (cur ++ [c]) | _ => Err IoNotADirectory end
             | Some (ILink t) =>
                 if decide (rest = []) then
                   if follow then
                     match budget with
                     | O => Err IoLoop
                     | S b => walk b follow ns (if absolute t then [] else cur) (components t)
                     end
                   else Ok (cur ++ [c])
                 else
                   match budget with
                   | O => Err IoLoop
                   | S b => walk b follow ns (if absolute t then [] else cur) (components t ++ rest)
                   end
             end
    end.

Definition resolve (follow : bool) (ns : inodes) (p : path) : outcome IoError path :=
  walk MAXSYMLINKS follow ns [] p.

(** ** System calls *)

Definition sys_fate : eff Fs IoError (option IoFault) := λ s,
  match fs_faults s with
  | f :: rest => (mkFs (fs_nodes s) (fs_umask s) rest, Ok f)
  | [] => (s, Ok None)
  end.

(** A call that fails as a whole or does [op] on the resolved path. *)
Definition sys {A} (follow : bool) (p : path) (op : path → inodes → outcome IoError (inodes * A)) : eff Fs IoError A :=
  f ← sys_fate;
  match f with
  | Some f => throw (IoFailed (fault_msg f))
  | None =>
      ns ← gets fs_nodes;
      q ← of_outcome (resolve follow ns p);
      r ← of_outcome (op q ns);
      modify (set_nodes r.1);;
      mret r.2
  end.

(** [fs::metadata] and [fs::symlink_metadata]. *)
Definition stat_op (q : path) (ns : inodes) : outcome IoError (inodes * inode) :=
  match ns !! q with Some i => Ok (ns, i) | None => Err IoNotFound end.
Definition metadata (p : path) : eff Fs IoError inode := sys true p stat_op.
Definition symlink_metadata (p : path) : eff Fs IoError inode := sys false p stat_op.

Definition path_exists (p : path) : eff Fs IoError bool :=
  r ← ok_or_none (metadata p); mret (match r with Some _ => true | None => false end).
Definition path_is_dir (p : path) : eff Fs IoError bool :=
  r ← ok_or_none (metadata p); mret (match r with Some IDir => true | _ => false end).
Definition path_is_symlink (p : path) : eff Fs IoError bool :=
  r ← ok_or_none (symlink_metadata p); mret (match r with Some (ILink _) => true | _ => false end).

(** [open] for writing: the file is created, or emptied in place. *)
Definition open_op (umask : N) (q : path) (ns : inodes) : outcome IoError (inodes * path) :=
  match ns !! q with
  | Some IDir => Err IoIsADirectory
  | Some (ILink _) => Err IoLoop
  | Some (IFile mode _) => Ok (<[q := IFile mode []]> ns, q)
  | None => Ok (<[q := IFile (N.ldiff 438 umask) []]> ns, q)
  end.

(** Writing to the open file [q]. *)
Definition put_content (q : path) (b : bytes) (ns : inodes) : inodes :=
  match ns !! q with Some (IFile mode _) => <[q := IFile mode b]> ns | _ => ns end.

Definition write_all (q : path) (b : bytes) : eff Fs IoError () :=
  match b with
  | [] => mret ()
  | _ =>
      f ← sys_fate;
      match f with
      | Some f =>
          modify (λ s, set_nodes (put_content q (take (fault_written f) b) (fs_nodes s)) s);;
          throw (IoFailed (fault_msg f))
      | None => modify (λ s, set_nodes (put_content q b (fs_nodes s)) s)
      end
  end.

Definition fs_write (p : path) (b : bytes) : eff Fs IoError () :=
  umask ← gets fs_umask;
  q ← sys true p (open_op umask);
  write_all q b.

(** [fs::set_permissions]. *)
Definition chmod_op (mode : N) (q : path) (ns : inodes) : outcome IoError (inodes * ()) :=
  match ns !! q with
  | Some (IFile _ b) => Ok (<[q := IFile mode b]> ns, ())
  | Some _ => Ok (ns, ())
  | None => Err IoNotFound
  end.
Definition set_permissions (p : path) (mode : N) : eff Fs IoError () := sys true p (chmod_op mode).

Definition unlink_op (q : path) (ns : inodes) : outcome IoError (inodes * ()) :=
  match ns !! q with
  | None => Err IoNotFound
  | Some IDir => Err IoIsADirectory
  | Some _ => Ok (delete q ns, ())
  end.
Definition remove_file (p : path) : eff Fs IoError () := sys false p unlink_op.

Definition create_op (i : inode) (q : path) (ns : inodes) : outcome IoError (inodes * ()) :=
  match ns !! q with Some _ => Err IoAlreadyExists | None => Ok (<[q := i]> ns, ()) end.

(** [std::os::unix::fs::symlink]. *)
Definition symlink (target : string) (p : path) : eff Fs IoError () :=
  if has_char "000"%char target then throw IoInvalidInput
  else if String.eqb target "" then throw IoNotFound
  else sys false p (create_op (ILink target)).

Definition mkdir (p : path) : eff Fs IoError () := sys false p (create_op IDir).

(** [fs::create_dir_all], on the reversed path. *)
Fixpoint create_dirs (rp : path) : eff Fs IoError () :=
  let here := reverse rp in
  let unless_dir := λ e : IoError, (d ← path_is_dir here; if (d : bool) then mret () else throw e) : eff Fs IoError () in
  or_else (mkdir here) (λ e,
    match e with
    | IoNotFound =>
        match rp with
        | [] => throw (IoFailed "failed to create whole tree")
        | _ :: parent => create_dirs parent;; or_else (mkdir here) unless_dir
        end
    | _ => unless_dir e
    end).

Definition create_dir_all (p : path) : eff Fs IoError () := create_dirs (reverse p).

(** ** Reading *)

(** The name of [p] in the directory [q], if [p] is directly in it. *)
Fixpoint name_in (q p : path) : option string :=
  match q, p with
  | [], [c] => Some c
  | x :: q, y :: p => if decide (x = y) then name_in q p else None
  | _, _ => None
  end.

Definition readdir_op (q : path) (ns : inodes) : outcome IoError (inodes * list string) :=
  match ns !! q with
  | Some IDir => Ok (ns, omap (λ e, name_in q e.1) (map_to_list ns))
  | Some _ => Err IoNotADirectory
  | None => Err IoNotFound
  end.
Definition read_dir (p : path) : eff Fs IoError (list string) := sys true p readdir_op.

Definition readlink_op (q : path) (ns : inodes) : outcome IoError (inodes * string) :=
  match ns !! q with
  | Some (ILink t) => Ok (ns, t)
  | Some _ => Err IoInvalidInput
  | None => Err IoNotFound
  end.
Definition read_link (p : path) : eff Fs IoError string := sys false p readlink_op.

Definition read_op (q : path) (ns : inodes) : outcome IoError (inodes * bytes) :=
  match ns !! q with
  | Some (IFile _ b) => Ok (ns, b)
  | Some IDir => Err IoIsADirectory
  | Some (ILink _) => Err IoLoop
  | None => Err IoNotFound
  end.
Definition fs_read (p : path) : eff Fs IoError bytes := sys true p read_op.

(** ** Well-formed file systems *)

(** A single path segment. *)
Definition plain (c : string) : Prop :=
  c ≠ "" ∧ c ≠ "." ∧ c ≠ ".." ∧ has_char "/"%char c = false ∧ has_char "000"%char c = false.

#[export] Instance plain_dec c : Decision (plain c) := _ : Decision (_ ∧ _).

(** The root is a directory, and every entry has a plain name in one. *)
Definition fs_wf (ns : inodes) : Prop :=
  ns !! [] = Some IDir ∧ ∀ p c i, ns !! (p ++ [c]) = Some i → plain c ∧ ns !! p = Some IDir.

(** [c] names a place in the directory [D]. *)
Definition spot (ns : inodes) (D : path) (c : string) : Prop :=
  fs_wf ns ∧ ns !! D = Some IDir ∧ plain c.

Definition no_link (o : option inode) : Prop := ∀ t, o ≠ Some (ILink t).

Lemma app_snoc_ne (D : path) c : D ++ [c] ≠ D.
Proof. intros E. apply (f_equal length) in E. rewrite length_app in E. simpl in E. lia. Qed.

Lemma has_char_components s : has_char "/"%char s = false → components s = [s].
Proof.
  induction s as [|c s IH]; [done|]. cbn [has_char components].
  intros [Hc Hs]%orb_false_elim. rewrite decide_False by (by case_bool_decide).
  by rewrite IH.
Qed.

Lemma join_plain D c : plain c → join D c = D ++ [c].
Proof.
  intros (He & _ & _ & Hs & _). unfold join. destruct c as [|a c]; [done|].
  rewrite has_char_components by done. cbn [absolute]. cbn [has_char] in Hs.
  by apply orb_false_elim in Hs as [-> _].
Qed.

Lemma fs_wf_insert ns D c i :
  spot ns D c → ns !! (D ++ [c]) ≠ Some IDir ∨ i = IDir → fs_wf (<[D ++ [c] := i]> ns).
Proof.
  intros ([Hroot Hent] & HD & Hc) Hno. split.
  { rewrite lookup_insert_ne; [done|by destruct D]. }
  intros p c' i'. destruct (decide (p = D ++ [c])) as [->|Hp].
  - intros Hi. destruct Hno as [Hno| ->].
    + rewrite lookup_insert_ne in Hi by apply not_eq_sym, app_snoc_ne. by destruct (Hent _ _ _ Hi).
    + split; [|by rewrite lookup_insert_eq]. rewrite lookup_insert_ne in Hi by apply not_eq_sym, app_snoc_ne.
      by destruct (Hent _ _ _ Hi).
  - rewrite (lookup_insert_ne _ (D ++ [c]) p) by congruence.
    intros [[E _]|[_ Hi]]%lookup_insert_Some; [|by eapply Hent].
    apply app_inj_tail in E as [<- <-]. done.
Qed.

Lemma fs_wf_delete ns D c : fs_wf ns → ns !! (D ++ [c]) ≠ Some IDir → fs_wf (delete (D ++ [c]) ns).
Proof.
  intros [Hroot Hent] Hno. split; [rewrite lookup_delete_ne; [done|by destruct D]|].
  intros p c' i' [_ Hi]%lookup_delete_Some. destruct (Hent _ _ _ Hi) as [? Hp]. split; [done|].
  rewrite lookup_delete_ne; [done|]. congruence.
Qed.

(** A directory's own path resolves to itself. *)
Lemma fs_wf_prefix ns p q i : fs_wf ns → ns !! (p ++ q) = Some i → q ≠ [] → ns !! p = Some IDir.
Proof.
  intros [_ Hent]. revert i. induction q as [|c q IH] using rev_ind; [done|]. intros i Hi _.
  rewrite app_assoc in Hi. destruct (Hent _ _ _ Hi) as [_ Hp]. destruct (decide (q = [])) as [->|Hq].
  - by rewrite app_nil_r in Hp.
  - by eapply IH.
Qed.

Lemma walk_nil budget follow ns cur : walk budget follow ns cur [] = Ok cur.
Proof. by destruct budget. Qed.

Lemma walk_into budget follow ns cur c rest :
  plain c → ns !! (cur ++ [c]) = Some IDir →
  walk budget follow ns cur (c :: rest) = walk budget follow ns (cur ++ [c]) rest.
Proof.
  intros (H1 & H2 & H3 & _) Hc. destruct budget; simpl; rewrite decide_False, decide_False, Hc by tauto; done.
Qed.

Lemma walk_last budget follow ns cur c :
  plain c → (follow = true → no_link (ns !! (cur ++ [c]))) → walk budget follow ns cur [c] = Ok (cur ++ [c]).
Proof.
  intros (H1 & H2 & H3 & _) Hl. destruct budget; simpl; rewrite decide_False, decide_False by tauto;
    (destruct (ns !! (cur ++ [c])) as [[m b| |t]|]; [done..| |done]; destruct follow; [|done];
     by destruct (Hl eq_refl t)).
Qed.

Lemma walk_dir budget follow ns pre D rest :
  fs_wf ns → ns !! (pre ++ D) = Some IDir →
  walk budget follow ns pre (D ++ rest) = walk budget follow ns (pre ++ D) rest.
Proof.
  intros Hwf. revert pre. induction D as [|c D IH]; intros pre HD; [by rewrite app_nil_r|].
  assert (ns !! (pre ++ [c]) = Some IDir) as Hc.
  { destruct (decide (D = [])) as [->|HD']; [done|].
    eapply (fs_wf_prefix ns (pre ++ [c]) D); [done| |done]. by rewrite <-app_assoc. }
  destruct (proj2 Hwf _ _ _ Hc) as [Hpl _].
  cbn [app]. rewrite walk_into, IH by (rewrite <-?app_assoc; done). by rewrite <-app_assoc.
Qed.

Lemma resolve_spot follow ns D c :
  spot ns D c → (follow = true → no_link (ns !! (D ++ [c]))) →
  resolve follow ns (D ++ [c]) = Ok (D ++ [c]).
Proof.
  intros (Hwf & HD & Hc) Hl. unfold resolve. rewrite walk_dir by done. by apply walk_last.
Qed.

Lemma resolve_total follow ns p : resolve follow ns p ≠ Halt.
Proof.
  unfold resolve. generalize MAXSYMLINKS ([] : path). intros budget. revert p.
  induction budget as [|budget IH]; intros p; induction p as [|c p IHp]; intros cur; simpl; [done| |done|];
    repeat case_decide; repeat case_match; auto.
Qed.

(** ** What each call does at a place in a directory *)

(** [s'] is [s] with the tree [ns], and no fault unless [s] had one coming. *)
Definition disk (s s' : Fs) (ns : inodes) : Prop :=
  fs_nodes s' = ns ∧ fs_umask s' = fs_umask s ∧ (fs_faults s = [] → fs_faults s' = []).

Lemma disk_refl s : disk s s (fs_nodes s).
Proof. done. Qed.

Lemma disk_trans s1 s2 s3 ns2 ns3 : disk s1 s2 ns2 → disk s2 s3 ns3 → disk s1 s3 ns3.
Proof. intros (_ & ? & ?) (? & ? & ?). split_and!; [done|congruence|auto]. Qed.

Lemma wp_sys_fate s (Q : option IoFault → Fs → Prop) X :
  (∀ s', disk s s' (fs_nodes s) → Q None s') →
  (∀ f s', fs_faults s ≠ [] → disk s s' (fs_nodes s) → Q (Some f) s') →
  wp sys_fate Q X s.
Proof.
  intros HN HS. unfold wp, sys_fate. destruct s as [ns um [|[f|] fl]]; simpl in *; [by apply HN|..].
  - by apply HS.
  - by apply HN.
Qed.

Lemma wp_sys_at {A} (follow : bool) (p q : path) (op : path → inodes → outcome IoError (inodes * A))
    (Q : A → Fs → Prop) (X : IoError → Fs → Prop) s :
  resolve follow (fs_nodes s) p = Ok q →
  (match op q (fs_nodes s) with
   | Ok (ns', a) => ∀ s', disk s s' ns' → Q a s'
   | Err e => ∀ s', disk s s' (fs_nodes s) → X e s'
   | Halt => False
   end) →
  (∀ msg s', fs_faults s ≠ [] → disk s s' (fs_nodes s) → X (IoFailed msg) s') →
  wp (sys follow p op) Q X s.
Proof.
  intros Hr Hop Hf. unfold sys. wp_step. apply wp_sys_fate; [|by intros; apply Hf].
  intros s1 Hd. pose proof Hd as (Hn & Hu & Hff). cbn beta iota. wp_step. wp_step. wp_step.
  apply wp_of_outcome. rewrite Hn, Hr. wp_step. apply wp_of_outcome.
  destruct (op q (fs_nodes s)) as [[ns' a]|e|]; [|by apply Hop|done].
  wp_step. wp_step. wp_step. apply Hop. by destruct s1.
Qed.

Lemma wp_sys {A} (follow : bool) (D : path) (c : string) (op : path → inodes → outcome IoError (inodes * A))
    (Q : A → Fs → Prop) (X : IoError → Fs → Prop) s :
  spot (fs_nodes s) D c →
  (follow = true → no_link (fs_nodes s !! (D ++ [c]))) →
  (match op (D ++ [c]) (fs_nodes s) with
   | Ok (ns', a) => ∀ s', disk s s' ns' → Q a s'
   | Err e => ∀ s', disk s s' (fs_nodes s) → X e s'
   | Halt => False
   end) →
  (∀ msg s', fs_faults s ≠ [] → disk s s' (fs_nodes s) → X (IoFailed msg) s') →
  wp (sys follow (D ++ [c]) op) Q X s.
Proof. intros Hs Hl. apply wp_sys_at. by apply resolve_spot. Qed.

Lemma resolve_dir follow ns D : fs_wf ns → ns !! D = Some IDir → resolve follow ns D = Ok D.
Proof.
  intros Hwf HD. unfold resolve. pose proof (walk_dir MAXSYMLINKS follow ns [] D [] Hwf HD) as Hw.
  rewrite app_nil_r in Hw. by rewrite Hw, walk_nil.
Qed.

(** Looking at a path changes nothing, wherever it leads. *)
Lemma wp_stat {E} (follow : bool) (p : path) (Q : option inode → Fs → Prop) (X : E → Fs → Prop) s :
  (∀ r s', disk s s' (fs_nodes s) → Q r s') →
  wp (ok_or_none (sys follow p stat_op)) Q X s.
Proof.
  intros HQ. apply wp_ok_or_none. unfold sys. wp_step.
  apply wp_sys_fate; [|by intros; apply HQ]. intros s1 Hd. pose proof Hd as (Hn & _). cbn beta iota.
  wp_step. wp_step. wp_step. apply wp_of_outcome. destruct (resolve follow _ p) eqn:Hr; [|by apply HQ|].
  - wp_step. apply wp_of_outcome. unfold stat_op. destruct (fs_nodes s1 !! a); [|by apply HQ].
    wp_step. wp_step. wp_step. apply HQ. destruct s1; simpl in *. by subst.
  - by apply resolve_total in Hr.
Qed.

(** ... and says what is there, unless a call fails. *)
Lemma wp_stat_spot {E} (follow : bool) (D : path) (c : string) (Q : option inode → Fs → Prop) (X : E → Fs → Prop) s :
  spot (fs_nodes s) D c → (follow = true → no_link (fs_nodes s !! (D ++ [c]))) →
  (∀ r s', disk s s' (fs_nodes s) → r = fs_nodes s !! (D ++ [c]) ∨ r = None ∧ fs_faults s ≠ [] → Q r s') →
  wp (ok_or_none (sys follow (D ++ [c]) stat_op)) Q X s.
Proof.
  intros Hs Hl HQ. apply wp_ok_or_none. apply wp_sys; [done|done|..].
  - unfold stat_op. destruct (fs_nodes s !! (D ++ [c])); intros s' Hd; apply HQ; auto.
  - intros. apply HQ; auto.
Qed.

Definition file_mode (umask : N) (o : option inode) : N :=
  match o with Some (IFile m _) => m | _ => N.ldiff 438 umask end.

Lemma put_content_fresh q m b b' ns : put_content q b' (<[q := IFile m b]> ns) = <[q := IFile m b']> ns.
Proof. unfold put_content. rewrite lookup_insert_eq. by rewrite insert_insert_eq. Qed.

Lemma fs_write_spec D c b s :
  spot (fs_nodes s) D c → no_link (fs_nodes s !! (D ++ [c])) →
  wp (fs_write (D ++ [c]) b)
     (λ _ s', fs_nodes s !! (D ++ [c]) ≠ Some IDir ∧
        disk s s' (<[D ++ [c] := IFile (file_mode (fs_umask s) (fs_nodes s !! (D ++ [c]))) b]> (fs_nodes s)))
     (λ _ s', (fs_faults s ≠ [] ∨ fs_nodes s !! (D ++ [c]) = Some IDir) ∧
        (disk s s' (fs_nodes s) ∨ fs_nodes s !! (D ++ [c]) ≠ Some IDir ∧
           ∃ m b', disk s s' (<[D ++ [c] := IFile m b']> (fs_nodes s)))) s.
Proof.
  intros Hs Hl. unfold fs_write. wp_step. wp_step. wp_step. apply wp_sys; [done|done| |by auto].
  assert (∀ s1 m, disk s s1 (<[D ++ [c] := IFile m []]> (fs_nodes s)) → fs_nodes s !! (D ++ [c]) ≠ Some IDir →
    wp (write_all (D ++ [c]) b)
      (λ _ s', fs_nodes s !! (D ++ [c]) ≠ Some IDir ∧ disk s s' (<[D ++ [c] := IFile m b]> (fs_nodes s)))
      (λ _ s', (fs_faults s ≠ [] ∨ fs_nodes s !! (D ++ [c]) = Some IDir) ∧
        (disk s s' (fs_nodes s) ∨ fs_nodes s !! (D ++ [c]) ≠ Some IDir ∧
           ∃ m b', disk s s' (<[D ++ [c] := IFile m b']> (fs_nodes s)))) s1) as Hw.
  { intros s1 m Hd Hno. unfold write_all. destruct b as [|x b]; [by wp_step|]. wp_step.
    apply wp_sys_fate.
    - intros s2 Hd2. wp_step. split; [done|]. eapply disk_trans; [exact Hd|].
      destruct Hd as (Hn & _), Hd2 as (Hn2 & Hu2 & Hf2). split_and!; [|done|done]. simpl.
      by rewrite Hn2, Hn, put_content_fresh.
    - intros f s2 Hf Hd2. wp_step. wp_step. wp_step. destruct Hd as (Hn & Hu & Hff), Hd2 as (Hn2 & Hu2 & Hf2).
      split; [left; intros E; by apply Hf, Hff|right]. split; [done|].
      exists m, (take (fault_written f) (x :: b)). split_and!; simpl; [by rewrite Hn2, Hn, put_content_fresh|congruence|auto]. }
  unfold open_op. destruct (fs_nodes s !! (D ++ [c])) as [[m b'| |t]|] eqn:Hq.
  - intros s1 Hd. by apply Hw.
  - intros s1 Hd. split; [by right|by left].
  - by destruct (Hl t).
  - intros s1 Hd. by apply Hw.
Qed.

(** What a failed call leaves at the place: what was there, or a file or nothing
    where there was no directory. *)
Definition touched (s s' : Fs) (q : path) : Prop :=
  disk s s' (fs_nodes s) ∨
  fs_nodes s !! q ≠ Some IDir ∧
  (disk s s' (delete q (fs_nodes s)) ∨ ∃ m b, disk s s' (<[q := IFile m b]> (fs_nodes s))).

Lemma set_permissions_spec D c mode s :
  spot (fs_nodes s) D c → no_link (fs_nodes s !! (D ++ [c])) →
  wp (set_permissions (D ++ [c]) mode)
     (λ _ s', disk s s' match fs_nodes s !! (D ++ [c]) with
                        | Some (IFile _ b) => <[D ++ [c] := IFile mode b]> (fs_nodes s)
                        | _ => fs_nodes s
                        end)
     (λ _ s', (fs_faults s ≠ [] ∨ fs_nodes s !! (D ++ [c]) = None) ∧ disk s s' (fs_nodes s)) s.
Proof.
  intros Hs Hl. apply wp_sys; [done|done| |by auto]. unfold chmod_op.
  destruct (fs_nodes s !! (D ++ [c])) as [[]|]; auto.
Qed.

Lemma remove_file_spec D c s :
  spot (fs_nodes s) D c →
  wp (remove_file (D ++ [c]))
     (λ _ s', is_Some (fs_nodes s !! (D ++ [c])) ∧ fs_nodes s !! (D ++ [c]) ≠ Some IDir
              ∧ disk s s' (delete (D ++ [c]) (fs_nodes s)))
     (λ _ s', disk s s' (fs_nodes s)) s.
Proof.
  intros Hs. apply wp_sys; [done|done| |by auto]. unfold unlink_op.
  destruct (fs_nodes s !! (D ++ [c])) as [[]|]; intros s' Hd; eauto.
Qed.

Lemma create_spec i D c s :
  spot (fs_nodes s) D c →
  wp (sys false (D ++ [c]) (create_op i))
     (λ _ s', fs_nodes s !! (D ++ [c]) = None ∧ disk s s' (<[D ++ [c] := i]> (fs_nodes s)))
     (λ e s', e ≠ IoNotFound ∧ (fs_faults s ≠ [] ∨ is_Some (fs_nodes s !! (D ++ [c]))) ∧ disk s s' (fs_nodes s)) s.
Proof.
  intros Hs. apply wp_sys; [done|done| |by auto]. unfold create_op.
  destruct (fs_nodes s !! (D ++ [c])) as [j|] eqn:Hq; intros s' Hd; eauto 6.
Qed.

Definition target_ok (target : string) : bool :=
  negb (has_char "000"%char target) && negb (String.eqb target "").

Lemma symlink_spec target D c s :
  spot (fs_nodes s) D c →
  wp (symlink target (D ++ [c]))
     (λ _ s', fs_nodes s !! (D ++ [c]) = None ∧ disk s s' (<[D ++ [c] := ILink target]> (fs_nodes s)))
     (λ _ s', (fs_faults s ≠ [] ∨ is_Some (fs_nodes s !! (D ++ [c])) ∨ target_ok target = false)
              ∧ disk s s' (fs_nodes s)) s.
Proof.
  intros Hs. unfold symlink, target_ok. destruct (has_char _ target); [wp_step; split; [auto|apply disk_refl]|].
  destruct (String.eqb target ""); [wp_step; split; [auto|apply disk_refl]|].
  eapply wp_mono; [by apply create_spec|done|]. simpl. intros e s' (_ & [?|?] & ?); auto.
Qed.

Lemma create_dir_all_spec D c s :
  spot (fs_nodes s) D c → no_link (fs_nodes s !! (D ++ [c])) →
  wp (create_dir_all (D ++ [c]))
     (λ _ s', (fs_nodes s !! (D ++ [c]) = None ∨ fs_nodes s !! (D ++ [c]) = Some IDir)
              ∧ disk s s' (<[D ++ [c] := IDir]> (fs_nodes s)))
     (λ _ s', (fs_faults s ≠ [] ∨ ∃ m b, fs_nodes s !! (D ++ [c]) = Some (IFile m b)) ∧ disk s s' (fs_nodes s)) s.
Proof.
  intros Hs Hl. unfold create_dir_all. rewrite reverse_snoc. cbn [create_dirs]. cbv zeta.
  rewrite reverse_cons, reverse_involutive. apply wp_or_else.
  eapply wp_mono; [by apply create_spec|..]; cbn beta; [by intros _ s' [? ?]; auto|].
  intros e s' (He & Hwhy & Hd). pose proof Hd as (Hn & _ & Hf).
  assert (wp (d ← path_is_dir (D ++ [c]); if d : bool then mret () else throw e)
    (λ _ s'0, (fs_nodes s !! (D ++ [c]) = None ∨ fs_nodes s !! (D ++ [c]) = Some IDir)
              ∧ disk s s'0 (<[D ++ [c] := IDir]> (fs_nodes s)))
    (λ _ s'0, (fs_faults s ≠ [] ∨ ∃ m b, fs_nodes s !! (D ++ [c]) = Some (IFile m b)) ∧ disk s s'0 (fs_nodes s)) s') as Hu.
  { unfold path_is_dir, metadata. wp_step. wp_step. refine (wp_stat_spot true D c _ _ s' _ _ _); [by rewrite Hn|by rewrite Hn|].
    intros r s2 Hd2 Hr. wp_step. rewrite Hn in *. pose proof (disk_trans _ _ _ _ _ Hd Hd2) as Hd3.
    destruct r as [[m b| |t]|]; wp_step.
    - split; [right|done]. destruct Hr as [<-|[? _]]; [eauto|done].
    - destruct Hr as [Hr|[? _]]; [|done]. split; [by right|]. by rewrite insert_id.
    - destruct Hr as [Hr|[? _]]; [by destruct (Hl t)|done].
    - split; [left|done]. destruct Hr as [Hr|[_ Hr]].
      + rewrite <-Hr in Hwhy. destruct Hwhy as [?|[? ?]]; done.
      + intros E. by apply Hr, Hf. }
  destruct e; [done|exact Hu..].
Qed.

Lemma name_in_Some D p c : name_in D p = Some c ↔ p = D ++ [c].
Proof.
  revert p. induction D as [|x D IH]; intros [|y p]; simpl; [done| |done|].
  - destruct p; naive_solver.
  - case_decide as Hxy; [rewrite IH; naive_solver|]. naive_solver.
Qed.

(** The names in a directory. *)
Definition child_names (ns : inodes) (D : path) : list string := omap (λ e, name_in D e.1) (map_to_list ns).

Lemma elem_of_child_names ns D c : c ∈ child_names ns D ↔ is_Some (ns !! (D ++ [c])).
Proof.
  unfold child_names. rewrite list_elem_of_omap. split.
  - intros ([p i] & Hin%elem_of_map_to_list & Hc%name_in_Some). simpl in *. subst. eauto.
  - intros [i Hi]. exists (D ++ [c], i). split; [by apply elem_of_map_to_list|by apply name_in_Some].
Qed.

Lemma NoDup_child_names ns D : NoDup (child_names ns D).
Proof.
  unfold child_names. assert (NoDup (map_to_list ns).*1) as Hnd by apply NoDup_fst_map_to_list.
  induction (map_to_list ns) as [|[p i] l IH]; simpl; [constructor|]. simpl in Hnd. apply NoDup_cons in Hnd as [Hp Hnd].
  destruct (name_in D p) as [c|] eqn:Hc; [|by apply IH]. apply NoDup_cons. split; [|by apply IH].
  apply name_in_Some in Hc as ->. intros ([q j] & Hin & Hq%name_in_Some)%list_elem_of_omap. simpl in Hq. subst.
  apply Hp. by apply (list_elem_of_fmap_2 fst) in Hin.
Qed.

(** ** Deciding well-formedness *)

Definition wf_entry (ns : inodes) (p : path) : bool :=
  match reverse p with
  | [] => true
  | c :: rp => bool_decide (plain c) && bool_decide (ns !! reverse rp = Some IDir)
  end.

Lemma fs_wf_by (ns : inodes) :
  ns !! [] = Some IDir → forallb (λ e, wf_entry ns e.1) (map_to_list ns) = true → fs_wf ns.
Proof.
  intros Hroot Hall. split; [done|]. intros p c i Hi%elem_of_map_to_list.
  rewrite forallb_forall in Hall. specialize (Hall _ (proj1 (list_elem_of_In _ _) Hi)). simpl in Hall.
  unfold wf_entry in Hall. rewrite reverse_snoc, reverse_involutive in Hall.
  by apply andb_prop in Hall as [?%bool_decide_eq_true_1 ?%bool_decide_eq_true_1].
Qed.

Lemma no_links_by (ns : inodes) :
  forallb (λ e, match e.2 with ILink _ => false | _ => true end) (map_to_list ns) = true →
  ∀ p, no_link (ns !! p).
Proof.
  intros Hall p t Ht%elem_of_map_to_list. rewrite forallb_forall in Hall.
  by specialize (Hall _ (proj1 (list_elem_of_In _ _) Ht)).
Qed.
