(* ===== verification/Tree.v ===== *)
(** * brokkr-cas: materializing an input tree

    Models [crates/brokkr-cas/src/tree.rs]: the check of node names, the
    recursive walk that writes a Merkle tree of [Directory] messages to disk,
    and the packing of a directory on disk into the store.  prost's encoding of
    a [Directory] and the [Debug] and [Display] texts in error messages are
    parameters.  The recursion depth of the walk is its fuel. *)

From stdpp Require Import prelude gmap strings sorting.
From Stdlib Require Import Lia Strings.Ascii.
From S2P Require Import Prelude Machine Bytes Common Redb Cas CasBackends ActionCache Fs.

Local Open Scope N_scope.

(** ** The REAPI messages *)

Record FileNode : Type := mkFileNode {
  fn_name : string;
  fn_digest : option pb_Digest;
  is_executable : bool;
  fn_other : bytes
}.

Record DirectoryNode : Type := mkDirectoryNode {
  dn_name : string;
  dn_digest : option pb_Digest
}.

Record SymlinkNode : Type := mkSymlinkNode {
  sn_name : string;
  sn_target : string;
  sn_other : bytes
}.

Record Directory : Type := mkDirectory {
  files : list FileNode;
  directories : list DirectoryNode;
  symlinks : list SymlinkNode;
  dir_other : bytes
}.

Class DirCodec : Type := {
  enc_dir : Directory → bytes;
  dec_dir : bytes → string + Directory
}.

Class DirCodecSpec `{DirCodec} : Prop :=
  dec_enc_dir d : dec_dir (enc_dir d) = inr d.

(** How values appear in error messages. *)
Class TreeText : Type := {
  debug_digest : Digest → string;
  debug_str : string → string;
  io_error_text : IoError → string
}.

Record MaterializationStats : Type := mkStats {
  st_files : N;
  st_dirs : N;
  st_symlinks : N;
  st_bytes : u64
}.

Definition stats_zero : MaterializationStats := mkStats 0 0 0 u64_0.

Definition count_file (size : Z) (st : MaterializationStats) : MaterializationStats :=
  mkStats (st_files st + 1) (st_dirs st) (st_symlinks st) (saturating_add (st_bytes st) (u64_wrap (Z.to_N size))).
Definition count_symlink (st : MaterializationStats) : MaterializationStats :=
  mkStats (st_files st) (st_dirs st) (st_symlinks st + 1) (st_bytes st).
Definition count_dir (st : MaterializationStats) : MaterializationStats :=
  mkStats (st_files st) (st_dirs st + 1) (st_symlinks st) (st_bytes st).

Definition validate_node_name (name : string) : option string :=
  if String.eqb name "" then Some "empty"
  else if String.eqb name "." || String.eqb name ".." then Some "dot or dotdot"
  else if has_char "/"%char name then Some "contains '/'"
  else if has_char "000"%char name then Some "contains NUL"
  else None.

(** ** The walk *)

(** The store read from, the disk written to, and the counters. *)
Record Walk (C : Type) : Type := mkWalk {
  wk_cas : C;
  wk_fs : Fs;
  wk_stats : MaterializationStats
}.
Arguments mkWalk {C}.
Arguments wk_cas {C}.
Arguments wk_fs {C}.
Arguments wk_stats {C}.

Section walk.
Context {C : Type} `{Cas C, Sha256, ErrText, DirCodec, TreeText}.

Notation M := (eff (Walk C) CasError).

Definition from_cas {A} (m : eff C CasError A) : M A :=
  zoom wk_cas (λ c w, mkWalk c (wk_fs w) (wk_stats w)) m.

(** [.map_err(CasError::Io)]. *)
Definition on_disk {A} (m : eff Fs IoError A) : M A :=
  zoom wk_fs (λ f w, mkWalk (wk_cas w) f (wk_stats w)) (map_err (λ e, CasIo (io_error_text e)) m).

Definition count (f : MaterializationStats → MaterializationStats) : M () :=
  modify (λ w, mkWalk (wk_cas w) (wk_fs w) (f (wk_stats w))).

(** [batch_read_blobs] of one digest and [results.pop()]. *)
Definition read_blob (d : Digest) : eff C CasError bytes :=
  results ← batch_read_blobs [d];
  match last results with
  | Some r => of_outcome r
  | None => throw (CasNotFound d)
  end.

Definition fetch_directory (d : Digest) : eff C CasError Directory :=
  b ← read_blob d;
  match dec_dir b with
  | inr dir => mret dir
  | inl e => throw (CasOther ("Directory decode for " +:+ debug_digest d +:+ ": " +:+ e))
  end.

Definition write_file (d : Digest) (p : path) (exec : bool) : M () :=
  b ← from_cas (read_blob d);
  on_disk (fs_write p b);;
  if exec then on_disk (set_permissions p 493) else mret ().

(** The digest of a node, from its optional field. *)
Definition node_digest (kind what name : string) (o : option pb_Digest) : M Digest :=
  match o with
  | Some d =>
      of_outcome match Digest_new (pd_hash d) (pd_size_bytes d) with
                 | Ok d => Ok d
                 | Err e => Err (CasOther ("invalid " +:+ what +:+ " digest " +:+ name +:+ ": " +:+ digest_error_text e))
                 | Halt => Halt
                 end
  | None => throw (CasOther (kind +:+ " " +:+ debug_str name +:+ " missing digest"))
  end.

Definition check_name (kind name : string) : M () :=
  match validate_node_name name with
  | Some reason => throw (CasOther (kind +:+ " " +:+ debug_str name +:+ ": invalid name (" +:+ reason +:+ ")"))
  | None => mret ()
  end.

Definition materialize_file (dir : path) (node : FileNode) : M () :=
  check_name "FileNode" (fn_name node);;
  d ← node_digest "FileNode" "file" (fn_name node) (fn_digest node);
  write_file d (join dir (fn_name node)) (is_executable node);;
  count (count_file (size_bytes d)).

(** Whatever is in the way of a link is removed. *)
Definition clear_place (p : path) : M () :=
  there ← on_disk (there ← path_exists p; if there : bool then mret true else path_is_symlink p);
  if there : bool then on_disk (remove_file p) else mret ().

Definition materialize_symlink (dir : path) (node : SymlinkNode) : M () :=
  check_name "SymlinkNode" (sn_name node);;
  let p := join dir (sn_name node) in
  clear_place p;;
  on_disk (symlink (sn_target node) p);;
  count count_symlink.

(** One child directory; [go] is the recursive call. *)
Definition materialize_child (go : Digest → path → M ()) (dir : path) (child : DirectoryNode) : M () :=
  check_name "DirectoryNode" (dn_name child);;
  let child_path := join dir (dn_name child) in
  on_disk (create_dir_all child_path);;
  count count_dir;;
  d ← node_digest "DirectoryNode" "directory" (dn_name child) (dn_digest child);
  go d child_path.

Fixpoint materialize_directory (fuel : nat) (d : Digest) (dir : path) : M () :=
  match fuel with
  | O => halt
  | S fuel =>
      directory ← from_cas (fetch_directory d);
      each (materialize_file dir) (files directory);;
      each (materialize_symlink dir) (symlinks directory);;
      each (materialize_child (materialize_directory fuel) dir) (directories directory)
  end.

(** [materialize_tree]; the counters of a failed walk are dropped with it. *)
Definition materialize_tree (fuel : nat) (root : Digest) (target_dir : path) : eff (C * Fs) CasError MaterializationStats := λ s,
  let '(w, r) := materialize_directory fuel root target_dir (mkWalk s.1 s.2 stats_zero) in
  ((wk_cas w, wk_fs w), match r with Ok _ => Ok (wk_stats w) | Err e => Err e | Halt => Halt end).

(** ** Packing *)

(** [read_dir] with the entries that cannot be read left out, sorted by name. *)
Definition list_dir (dir : path) : eff Fs IoError (list string) :=
  names ← read_dir dir;
  kept ← mapM (λ name, f ← sys_fate; mret (match f with Some _ => None | None => Some name end)) names;
  mret (merge_sort String.le (omap id kept)).

Definition to_pb (d : Digest) : pb_Digest := mkpbDigest (hash d) (size_bytes d).

Definition push_file (f : FileNode) (dir : Directory) : Directory :=
  mkDirectory (files dir ++ [f]) (directories dir) (symlinks dir) (dir_other dir).
Definition push_dir (d : DirectoryNode) (dir : Directory) : Directory :=
  mkDirectory (files dir) (directories dir ++ [d]) (symlinks dir) (dir_other dir).
Definition push_link (l : SymlinkNode) (dir : Directory) : Directory :=
  mkDirectory (files dir) (directories dir) (symlinks dir ++ [l]) (dir_other dir).

(** One entry of [dir]; [go] packs a subdirectory. *)
Definition pack_entry (go : path → M Digest) (dir : path) (name : string) (directory : Directory) : M Directory :=
  let p := join dir name in
  i ← on_disk (symlink_metadata p);
  match i with
  | ILink _ =>
      target ← on_disk (read_link p);
      mret (push_link (mkSymlinkNode name target []) directory)
  | IDir =>
      d ← go p;
      mret (push_dir (mkDirectoryNode name (Some (to_pb d))) directory)
  | IFile mode _ =>
      b ← on_disk (fs_read p);
      let d := Digest_of b in
      from_cas (batch_update_blobs [(d, b)]);;
      mret (push_file (mkFileNode name (Some (to_pb d)) (negb (N.land mode 73 =? 0)) []) directory)
  end.

Fixpoint pack_entries (go : path → M Digest) (dir : path) (names : list string) (directory : Directory) : M Directory :=
  match names with
  | [] => mret directory
  | name :: names => directory ← pack_entry go dir name directory; pack_entries go dir names directory
  end.

Fixpoint pack_directory (fuel : nat) (dir : path) : M Digest :=
  match fuel with
  | O => halt
  | S fuel =>
      names ← on_disk (list_dir dir);
      directory ← pack_entries (pack_directory fuel) dir names (mkDirectory [] [] [] []);
      let buf := enc_dir directory in
      let d := Digest_of buf in
      from_cas (batch_update_blobs [(d, buf)]);;
      mret d
  end.

Definition build_tree_into (fuel : nat) (source_dir : path) : eff (C * Fs) CasError Digest := λ s,
  let '(w, r) := pack_directory fuel source_dir (mkWalk s.1 s.2 stats_zero) in ((wk_cas w, wk_fs w), r).

End walk.
