(* ===== verification/TreeSpec.v ===== *)
(** * brokkr-cas: what the walk over an input tree does

    One specification per step of [materialize_directory] over any store that
    keeps the [Cas] contract; what a walk changes; and what a walk of a
    well-formed tree produces. *)

From stdpp Require Import prelude gmap strings.
From Stdlib Require Import Lia Strings.Ascii.
From S2P Require Import Prelude Machine Bytes Common Redb Cas CasBackends ActionCache Fs Tree.

Local Open Scope N_scope.

Lemma validate_plain name : validate_node_name name = None ↔ plain name.
Proof.
  unfold validate_node_name, plain. rewrite <-(String.eqb_neq name ""), <-(String.eqb_neq name "."), <-(String.eqb_neq name "..").
  destruct (String.eqb name ""), (String.eqb name "."), (String.eqb name ".."), (has_char "/" name), (has_char "000" name);
    simpl; naive_solver.
Qed.

(** The digest in an optional field, if there is a valid one. *)
Definition field_digest (o : option pb_Digest) : option Digest :=
  match o with
  | Some d => match Digest_new (pd_hash d) (pd_size_bytes d) with Ok d => Some d | _ => None end
  | None => None
  end.

(** A store whose calls do not fail: reads return, and a blob written under its
    own digest is acknowledged. *)
Class ReliableCas (C : Type) `{CasSpec C} : Prop := {
  reads_return d (c : C) : cas_ok c → is_Some (returned (batch_read_blobs [d] c));
  writes_stick b (c : C) : cas_ok c → blob_fits b →
    ∃ c' r, batch_update_blobs [(Digest_of b, b)] c = (c', Ok [r]) ∧ status_ok r = true
}.

#[export] Instance InMemoryCas_reliable `{Sha256, ErrText} : ReliableCas InMemoryCas.
Proof.
  split.
  - intros d c _. simpl. eexists. reflexivity.
  - intros b c _ Hb. simpl. unfold im_batch_update_blobs. cbn [mapM]. unfold im_update_one.
    assert (Digest_verify (Digest_of b) b = Ok ()) as Hv by by apply Digest_verify_ok.
    rewrite Hv. by repeat eexists.
Qed.

Section steps.
Context {C : Type} `{CasSpec C, ErrText, DirCodec, TreeText}.
Implicit Types (w : Walk C) (D p : path).

Notation ns w := (fs_nodes (wk_fs w)).

(** Reading one blob: it has the digest's hash; an error means it is not held or
    the store call failed. *)
Definition readable (c : C) (d : Digest) : Prop :=
  cas_has c d = true ∧ is_Some (returned (batch_read_blobs [d] c)).

Lemma read_blob_spec d c :
  cas_ok c →
  wp (read_blob d) (λ b c', cas_keeps c c' ∧ sha256_hex b = hash d)
     (λ _ c', cas_keeps c c' ∧ ¬ readable c d) c.
Proof.
  intros Hok. unfold read_blob. wp_step.
  assert (wp (batch_read_blobs [d])
    (λ rs c', cas_keeps c c' ∧ Forall2 (λ d r, read_answer (cas_has c d) d r) [d] rs)
    (λ _ c', cas_keeps c c' ∧ returned (batch_read_blobs [d] c) = None) c) as Hr.
  { pose proof (batch_read_spec [d] c Hok) as Hw. unfold wp, returned in *.
    by destruct (batch_read_blobs [d] c) as [c' [rs|e|]]. }
  eapply wp_mono; [exact Hr|..]; cbn beta.
  - intros rs c' [Hk Ha]. apply Forall2_cons_inv_l in Ha as (r & ? & Hx & ->%Forall2_nil_inv_l & ->). simpl.
    apply wp_of_outcome. destruct r as [b|e|]; simpl in Hx; [|destruct Hx as [Hx _]|done].
    + by destruct Hx as (_ & ? & _).
    + split; [done|]. intros [Hh _]. congruence.
  - intros e c' [Hk Hn]. split; [done|]. intros [_ Hs]. rewrite Hn in Hs. by apply is_Some_None in Hs.
Qed.

(** The state of a walk after a change of the disk. *)
Definition moved w w' (m : inodes) : Prop :=
  cas_keeps (wk_cas w) (wk_cas w') ∧ disk (wk_fs w) (wk_fs w') m.

Definition file_ready w (D : path) (node : FileNode) : Prop :=
  fs_faults (wk_fs w) = [] ∧ ns w !! (D ++ [fn_name node]) ≠ Some IDir ∧ plain (fn_name node) ∧
  ∃ d, field_digest (fn_digest node) = Some d ∧ readable (wk_cas w) d.

Lemma node_digest_spec kind what name o w Q X :
  (∀ d, field_digest o = Some d → Q d w) → (∀ e, field_digest o = None → X e w) →
  wp (node_digest kind what name o) Q X w.
Proof.
  intros HQ HX. unfold node_digest, field_digest in *. destruct o as [d|]; [|wp_step; by apply HX].
  apply wp_of_outcome. destruct (Digest_new _ _) as [d'|e|] eqn:Hd; [by apply HQ|by apply HX|].
  unfold Digest_new in Hd. by repeat case_match.
Qed.

Lemma check_name_spec kind name w Q X :
  (plain name → Q () w) → (∀ e, ¬ plain name → X e w) → wp (check_name kind name) Q X w.
Proof.
  intros HQ HX. unfold check_name. destruct (validate_node_name name) eqn:Hv; wp_step.
  - apply HX. rewrite <-validate_plain. by rewrite Hv.
  - by apply HQ, validate_plain.
Qed.

Lemma write_file_spec d D c exec w :
  cas_ok (wk_cas w) → spot (ns w) D c → no_link (ns w !! (D ++ [c])) →
  wp (write_file d (D ++ [c]) exec)
     (λ _ w', wk_stats w' = wk_stats w ∧ ns w !! (D ++ [c]) ≠ Some IDir ∧
        ∃ b, sha256_hex b = hash d ∧
        moved w w' (<[D ++ [c] := IFile (if exec then 493 else file_mode (fs_umask (wk_fs w)) (ns w !! (D ++ [c]))) b]> (ns w)))
     (λ _ w', cas_keeps (wk_cas w) (wk_cas w') ∧ touched (wk_fs w) (wk_fs w') (D ++ [c])
        ∧ (fs_faults (wk_fs w) ≠ [] ∨ ns w !! (D ++ [c]) = Some IDir ∨ ¬ readable (wk_cas w) d)) w.
Proof.
  intros Hok Hs Hl. unfold write_file. wp_step. unfold from_cas. apply wp_zoom.
  eapply wp_mono; [by apply read_blob_spec|..]; cbn beta.
  2:{ intros e c' [Hk Hn]. simpl. split; [done|]. split; [left; apply disk_refl|auto]. }
  intros b c' [Hk Hb]. wp_step. unfold on_disk. apply wp_zoom, wp_map_err. simpl.
  eapply wp_mono; [by apply fs_write_spec|..]; cbn beta.
  2:{ intros e s' [Hwhy Ht]. simpl. split; [done|]. split; [|tauto].
      destruct Ht as [?|(? & m & b' & ?)]; [by left|right; eauto]. }
  intros _ s' [Hno Hd]. simpl. destruct exec; [|wp_step; simpl; split_and!; [done|done|]; exists b; by split].
  apply wp_zoom, wp_map_err. simpl. pose proof Hd as (Hn & Hu & Hf).
  assert (spot (fs_nodes s') D c) as Hs'.
  { rewrite Hn. destruct Hs as (? & ? & ?). split_and!; [apply fs_wf_insert; [done|by left]| |done].
    rewrite lookup_insert_ne; [done|apply app_snoc_ne]. }
  eapply wp_mono; [apply set_permissions_spec; [done|]|..]; cbn beta.
  - rewrite Hn, lookup_insert_eq. by intros t.
  - intros _ s2 Hd2. rewrite Hn, lookup_insert_eq, insert_insert_eq in Hd2. simpl. split_and!; [done|done|].
    exists b. split; [done|]. split; [done|]. by eapply disk_trans.
  - intros e s2 [Hwhy Hd2]. simpl. split; [done|]. split.
    + right. split; [done|]. right. do 2 eexists. eapply disk_trans; [exact Hd|]. rewrite Hn in Hd2. exact Hd2.
    + rewrite Hn, lookup_insert_eq in Hwhy. destruct Hwhy as [Hw|?]; [|done]. left. intros E. by apply Hw, Hf.
Qed.

Lemma materialize_file_spec D node w :
  cas_ok (wk_cas w) → fs_wf (ns w) → ns w !! D = Some IDir → no_link (ns w !! (D ++ [fn_name node])) →
  wp (materialize_file D node)
     (λ _ w', spot (ns w) D (fn_name node) ∧ ns w !! (D ++ [fn_name node]) ≠ Some IDir ∧
        ∃ d b, field_digest (fn_digest node) = Some d ∧ sha256_hex b = hash d ∧
          wk_stats w' = count_file (size_bytes d) (wk_stats w) ∧
          moved w w' (<[D ++ [fn_name node] :=
            IFile (if is_executable node then 493 else file_mode (fs_umask (wk_fs w)) (ns w !! (D ++ [fn_name node]))) b]> (ns w)))
     (λ _ w', cas_keeps (wk_cas w) (wk_cas w') ∧ touched (wk_fs w) (wk_fs w') (D ++ [fn_name node])
              ∧ (plain (fn_name node) ∨ wk_fs w' = wk_fs w) ∧ ¬ file_ready w D node) w.
Proof.
  intros Hok Hwf HD Hl. assert (cas_keeps (wk_cas w) (wk_cas w)) as Hkr by done.
  assert (touched (wk_fs w) (wk_fs w) (D ++ [fn_name node])) as Htr by (left; apply disk_refl).
  unfold materialize_file. wp_step. apply check_name_spec.
  2:{ intros e Hp. split_and!; [done|done|by right|]. by intros (_ & _ & ? & _). }
  intros Hp. wp_step. apply node_digest_spec.
  2:{ intros e Hd. split_and!; [done|done|by left|]. intros (_ & _ & _ & d & Hd' & _). congruence. }
  intros d Hd. wp_step. rewrite join_plain by done. eapply wp_mono; [by apply write_file_spec|..]; cbn beta.
  - intros [] w' (Hst & Hno & b & Hb & Hm). unfold count. wp_step. split; [done|]. split; [done|].
    exists d, b. simpl. rewrite Hst. done.
  - intros e w' (Hk & Ht & Hwhy). split_and!; [done|done|by left|]. intros (Hf & Hno & _ & d' & Hd' & Hr).
    assert (d' = d) as -> by congruence. destruct Hwhy as [?|[?|?]]; done.
Qed.

Definition link_ready w (D : path) (node : SymlinkNode) : Prop :=
  fs_faults (wk_fs w) = [] ∧ ns w !! (D ++ [sn_name node]) = None ∧ plain (sn_name node)
  ∧ target_ok (sn_target node) = true.

(** Clearing the place of a link. *)
Lemma clear_place_spec D c w :
  cas_ok (wk_cas w) → spot (ns w) D c →
  wp (clear_place (D ++ [c]))
     (λ _ w', wk_stats w' = wk_stats w ∧
        (moved w w' (ns w) ∨ ns w !! (D ++ [c]) ≠ Some IDir ∧ moved w w' (delete (D ++ [c]) (ns w))))
     (λ _ w', moved w w' (ns w) ∧ is_Some (ns w !! (D ++ [c]))) w.
Proof.
  intros Hok Hs. unfold clear_place. wp_step. unfold on_disk at 1. apply wp_zoom, wp_map_err.
  assert (wp (there ← path_exists (D ++ [c]); if there : bool then mret true else path_is_symlink (D ++ [c]))
    (λ there s', disk (wk_fs w) s' (ns w) ∧ (there = true → is_Some (ns w !! (D ++ [c]))))
    (λ _ _, False) (wk_fs w)) as Hth.
  { wp_step. unfold path_exists, path_is_symlink, metadata, symlink_metadata. wp_step.
    destruct (ns w !! (D ++ [c])) as [i|] eqn:Hq.
    - eapply wp_stat. intros r s1 Hd1. wp_step. destruct r as [j|]; [wp_step; split; [done|by eauto]|]. wp_step.
      eapply wp_stat. intros r s2 Hd2. wp_step. split; [|by eauto]. eapply disk_trans; [exact Hd1|].
      destruct Hd1 as [<- _]. done.
    - refine (wp_stat_spot true D c _ _ _ Hs _ _); [intros _; rewrite Hq; by intros t|].
      intros r s1 Hd1 Hr. rewrite Hq in Hr. assert (r = None) as -> by (destruct Hr as [?|[? _]]; done).
      wp_step. wp_step. assert (spot (fs_nodes s1) D c) as Hs1 by (by destruct Hd1 as [-> _]).
      refine (wp_stat_spot false D c _ _ _ Hs1 _ _); [done|]. intros r s2 Hd2 Hr2. wp_step.
      assert (fs_nodes s1 = ns w) as Hn by apply Hd1. rewrite Hn in *. rewrite Hq in Hr2.
      assert (r = None) as -> by (destruct Hr2 as [?|[? _]]; done). split; [by eapply disk_trans|done]. }
  eapply wp_mono; [exact Hth|..]; cbn beta; [|done]. intros there s1 [Hd1 Hh]. pose proof Hd1 as (Hn & _).
  destruct there; [|wp_step; simpl; split; [done|]; left; split; done].
  unfold on_disk. apply wp_zoom, wp_map_err. simpl.
  eapply wp_mono; [apply remove_file_spec; by rewrite Hn|..]; cbn beta; rewrite Hn.
  - intros [] s2 (_ & Hno & Hd2). simpl. split; [done|]. right. split; [done|]. split; [done|]. by eapply disk_trans.
  - intros e s2 Hd2. split; [|by apply Hh]. split; [done|]. by eapply disk_trans.
Qed.

Lemma materialize_symlink_spec D node w :
  cas_ok (wk_cas w) → fs_wf (ns w) → ns w !! D = Some IDir →
  wp (materialize_symlink D node)
     (λ _ w', spot (ns w) D (sn_name node) ∧ ns w !! (D ++ [sn_name node]) ≠ Some IDir ∧
        wk_stats w' = count_symlink (wk_stats w) ∧
        moved w w' (<[D ++ [sn_name node] := ILink (sn_target node)]> (ns w)))
     (λ _ w', cas_keeps (wk_cas w) (wk_cas w') ∧ touched (wk_fs w) (wk_fs w') (D ++ [sn_name node])
              ∧ (plain (sn_name node) ∨ wk_fs w' = wk_fs w) ∧ ¬ link_ready w D node) w.
Proof.
  intros Hok Hwf HD. unfold materialize_symlink. wp_step. apply check_name_spec.
  2:{ intros e Hp. split_and!; [done|left; apply disk_refl|by right|]. by intros (_ & _ & ? & _). }
  intros Hp. cbv zeta. rewrite join_plain by done. set (c := sn_name node) in *.
  assert (spot (ns w) D c) as Hs by done.
  wp_step. eapply wp_mono; [by apply clear_place_spec|..]; cbn beta.
  2:{ intros e w' [[Hk Hd] Hq]. split_and!; [apply Hk|by left|by left|].
      intros (_ & Hq' & _). fold c in Hq'. rewrite Hq' in Hq. by apply is_Some_None in Hq. }
  intros [] w1 [Hst Hcase].
  assert (∃ m, moved w w1 m ∧ (m = ns w ∨ ns w !! (D ++ [c]) ≠ Some IDir ∧ m = delete (D ++ [c]) (ns w))) as (m & Hm & Hmc).
  { destruct Hcase as [?|[? ?]]; eauto. }
  clear Hcase. destruct Hm as [Hk Hd]. pose proof Hd as (Hn & _ & Hf).
  assert (spot (ns w1) D c) as Hs1.
  { rewrite Hn. destruct Hmc as [->|[Hno ->]]; [done|]. split_and!; [by apply fs_wf_delete| |done].
    rewrite lookup_delete_ne; [done|apply app_snoc_ne]. }
  wp_step. unfold on_disk. apply wp_zoom, wp_map_err.
  eapply wp_mono; [by apply symlink_spec|..]; cbn beta; rewrite Hn.
  - intros [] s2 [Hq Hd2]. unfold count. wp_step. simpl. rewrite Hst.
    assert (ns w !! (D ++ [c]) ≠ Some IDir) as Hno by (destruct Hmc as [->|[? _]]; congruence).
    split_and!; [done|done|done|]. split; [done|]. eapply disk_trans; [exact Hd|].
    destruct Hmc as [->|[_ ->]]; [done|]. by rewrite insert_delete_eq in Hd2.
  - intros e s2 [Hwhy Hd2]. simpl. split; [apply Hk|]. split.
    { destruct Hmc as [->|[Hno ->]]; [left|right; split; [done|left]]; by eapply disk_trans. }
    split; [by left|]. intros (Hfa & Hq & _ & Ht). fold c in Hq. destruct Hwhy as [Hw|[Hw|Hw]]; [by apply Hw, Hf| |congruence].
    destruct Hmc as [->|[_ ->]]; [rewrite Hq in Hw|rewrite lookup_delete_eq in Hw]; by apply is_Some_None in Hw.
Qed.

(** One child: the directory is made, then the walk goes on in it. *)
Lemma materialize_child_spec go D child w Q X :
  cas_ok (wk_cas w) → fs_wf (ns w) → ns w !! D = Some IDir → no_link (ns w !! (D ++ [dn_name child])) →
  (∀ d w1, spot (ns w) D (dn_name child) →
     ns w !! (D ++ [dn_name child]) = None ∨ ns w !! (D ++ [dn_name child]) = Some IDir →
     field_digest (dn_digest child) = Some d →
     moved w w1 (<[D ++ [dn_name child] := IDir]> (ns w)) → wk_stats w1 = count_dir (wk_stats w) →
     wp (go d (D ++ [dn_name child])) Q X w1) →
  (∀ e w1, cas_keeps (wk_cas w) (wk_cas w1) →
     disk (wk_fs w) (wk_fs w1) (ns w) ∨
       spot (ns w) D (dn_name child) ∧ disk (wk_fs w) (wk_fs w1) (<[D ++ [dn_name child] := IDir]> (ns w)) →
     fs_faults (wk_fs w) ≠ [] ∨ is_Some (ns w !! (D ++ [dn_name child]))
       ∨ ¬ plain (dn_name child) ∨ field_digest (dn_digest child) = None →
     X e w1) →
  wp (materialize_child go D child) Q X w.
Proof.
  intros Hok Hwf HD Hl HQ HX. unfold materialize_child. wp_step. apply check_name_spec.
  2:{ intros e Hp. apply HX; [done|left; apply disk_refl|by auto]. }
  intros Hp. cbv zeta. rewrite join_plain by done. set (c := dn_name child) in *.
  wp_step. unfold on_disk. apply wp_zoom, wp_map_err.
  eapply wp_mono; [by apply create_dir_all_spec|..]; cbn beta.
  2:{ intros e s1 [Hwhy Hd]. apply HX; [done|by left|]. destruct Hwhy as [?|(m & b & Hf)]; [by left|]. rewrite Hf. by eauto. }
  intros [] s1 [Hq Hd]. wp_step. unfold count. wp_step. wp_step. apply node_digest_spec; simpl.
  - intros d Hf. by apply HQ.
  - intros e Hf. apply HX; [done|by right|by auto].
Qed.

(** ** What a walk changes *)

(** Strictly below the directory [D]. *)
Definition inside (D p : path) : Prop := ∃ c, (D ++ [c]) `prefix_of` p.

Definition linkfree (D : path) (m : inodes) : Prop := ∀ p, inside D p → no_link (m !! p).

(** Nothing has changed but at paths in [P], and all is still well formed. *)
Definition confined (P : path → Prop) w w' : Prop :=
  cas_keeps (wk_cas w) (wk_cas w') ∧ fs_wf (ns w') ∧ ∀ p, ¬ P p → ns w' !! p = ns w !! p.

Lemma not_inside_self D : ¬ inside D D.
Proof. intros [c Hp%prefix_length]. rewrite length_app in Hp. simpl in Hp. lia. Qed.

Lemma not_inside_prefix D (c : string) : ¬ (D ++ [c]) `prefix_of` D.
Proof. intros Hp%prefix_length. rewrite length_app in Hp. simpl in Hp. lia. Qed.

Lemma inside_prefix D c p : inside (D ++ [c]) p → (D ++ [c]) `prefix_of` p.
Proof. intros [c' Hp]. etrans; [|exact Hp]. by apply prefix_app_r. Qed.

Lemma prefix_inside D c p : (D ++ [c]) `prefix_of` p → inside D p.
Proof. by exists c. Qed.

Lemma prefix_snoc_inj D (c c' : string) p : (D ++ [c]) `prefix_of` p → (D ++ [c']) `prefix_of` p → c = c'.
Proof.
  intros [r ->] [r' E]. rewrite <-!app_assoc in E. by apply app_inj_1 in E as [_ [= -> _]].
Qed.

Lemma confined_refl P w : cas_ok (wk_cas w) → fs_wf (ns w) → confined P w w.
Proof. done. Qed.

Lemma confined_trans P w1 w2 w3 : confined P w1 w2 → confined P w2 w3 → confined P w1 w3.
Proof.
  intros ([_ Hk1] & _ & H1') ([? Hk2] & ? & H2'). split_and!; [split; [done|]|done|].
  - intros d. by rewrite Hk2, Hk1.
  - intros p Hp. by rewrite H2', H1'.
Qed.

Lemma confined_impl (P P' : path → Prop) w w' : (∀ p, P p → P' p) → confined P w w' → confined P' w w'.
Proof. intros HP (? & ? & Hc). split_and!; [done|done|]. intros p Hp. apply Hc. auto. Qed.

Lemma touched_confined D c w w' :
  spot (ns w) D c → cas_keeps (wk_cas w) (wk_cas w') → touched (wk_fs w) (wk_fs w') (D ++ [c]) →
  confined (λ p, p = D ++ [c]) w w' ∧ (no_link (ns w !! (D ++ [c])) → no_link (ns w' !! (D ++ [c]))).
Proof.
  intros Hs Hk [[Hn _]|[Hno [[Hn _]|(m & b & Hn & _)]]]; split; unfold confined; rewrite ?Hn.
  - by destruct Hs.
  - done.
  - split_and!; [done|by apply fs_wf_delete, Hno; destruct Hs|]. intros p Hp. by rewrite lookup_delete_ne.
  - intros _ t. by rewrite lookup_delete_eq.
  - split_and!; [done|by apply fs_wf_insert; [|left]|]. intros p Hp. by rewrite lookup_insert_ne.
  - intros _ t. by rewrite lookup_insert_eq.
Qed.

Lemma moved_confined D c i w w' :
  spot (ns w) D c → ns w !! (D ++ [c]) ≠ Some IDir ∨ i = IDir → moved w w' (<[D ++ [c] := i]> (ns w)) →
  confined (λ p, p = D ++ [c]) w w' ∧ ns w' !! (D ++ [c]) = Some i.
Proof.
  intros Hs Hno [Hk [Hn _]]. unfold confined. rewrite Hn. split; [|by rewrite lookup_insert_eq].
  split_and!; [done|by apply fs_wf_insert|]. intros p Hp. by rewrite lookup_insert_ne.
Qed.

Lemma confined_dir D w w' : confined (inside D) w w' → ns w !! D = Some IDir → ns w' !! D = Some IDir.
Proof. intros (_ & _ & Hc) HD. by rewrite Hc by apply not_inside_self. Qed.

Lemma confined_at D c w w' : confined (λ p, p = D ++ [c]) w w' → confined (inside D) w w'.
Proof. apply confined_impl. intros p ->. by exists c. Qed.

Lemma files_confined D fns w :
  cas_ok (wk_cas w) → fs_wf (ns w) → ns w !! D = Some IDir → linkfree D (ns w) →
  wp (each (materialize_file D) fns)
     (λ _ w', confined (inside D) w w' ∧ linkfree D (ns w'))
     (λ _ w', confined (inside D) w w') w.
Proof.
  intros Hok Hwf HD Hlf. apply (wp_each _ (λ _ w', confined (inside D) w w' ∧ linkfree D (ns w'))); [done|].
  intros pre node post w1 _ [Hc Hl1]. pose proof Hc as ((Hok1 & _) & Hwf1 & _).
  set (q := D ++ [fn_name node]) in *. assert (inside D q) as Hin by by exists (fn_name node).
  assert (∀ w2, confined (λ p, p = q) w1 w2 → (no_link (ns w1 !! q) → no_link (ns w2 !! q)) →
    confined (inside D) w w2 ∧ linkfree D (ns w2)) as Hnext.
  { intros w2 Hc2 Hq. split; [eapply confined_trans; [exact Hc|]; by eapply confined_at|].
    intros p Hp. destruct (decide (p = q)) as [->|Hpq]; [by apply Hq, Hl1|].
    destruct Hc2 as (_ & _ & Hc2). rewrite Hc2 by done. by apply Hl1. }
  eapply wp_mono; [apply materialize_file_spec; [done|done|by eapply confined_dir|by apply Hl1]|..]; cbn beta.
  - intros [] w2 (Hs & Hno & d & b & _ & _ & _ & Hm).
    destruct (moved_confined D _ _ w1 w2 Hs (or_introl Hno) Hm) as [Hc2 Hq]. apply Hnext; [done|].
    intros _ t. fold q in Hq. by rewrite Hq.
  - intros e w2 (Hk & Ht & Hp & _). destruct Hp as [Hp|Hfs].
    + destruct (touched_confined D (fn_name node) w1 w2) as [Hc2 Hq]; [|done|done|by apply Hnext].
      split_and!; [done|by eapply confined_dir|done].
    + apply Hnext; [|by rewrite Hfs]. split_and!; [done|by rewrite Hfs|by rewrite Hfs].
Qed.

(** After the links of a directory, the links in it are among those made. *)
Lemma links_confined D sns w :
  cas_ok (wk_cas w) → fs_wf (ns w) → ns w !! D = Some IDir → linkfree D (ns w) →
  wp (each (materialize_symlink D) sns)
     (λ _ w', confined (inside D) w w' ∧
        ∀ p, inside D p → no_link (ns w' !! p) ∨ ∃ s, s ∈ sns ∧ p = D ++ [sn_name s])
     (λ _ w', confined (inside D) w w') w.
Proof.
  intros Hok Hwf HD Hlf. apply (wp_each _ (λ _ w', confined (inside D) w w' ∧
    ∀ p, inside D p → no_link (ns w' !! p) ∨ ∃ s, s ∈ sns ∧ p = D ++ [sn_name s])).
  { split; [done|]. intros p Hp. left. by apply Hlf. }
  intros pre node post w1 -> [Hc Hl1]. pose proof Hc as ((Hok1 & _) & Hwf1 & _).
  eapply wp_mono; [apply materialize_symlink_spec; [done|done|by eapply confined_dir]|..]; cbn beta.
  - intros [] w2 (Hs & Hno & _ & Hm).
    destruct (moved_confined D _ _ w1 w2 Hs (or_introl Hno) Hm) as [Hc2 Hq]. split.
    + eapply confined_trans; [exact Hc|]. by eapply confined_at.
    + intros p Hp. destruct (decide (p = D ++ [sn_name node])) as [->|Hpq].
      * right. exists node. split; [set_solver|done].
      * destruct Hc2 as (_ & _ & Hc2). rewrite Hc2 by done. by apply Hl1.
  - intros e w2 (Hk & Ht & Hp & _). eapply confined_trans; [exact Hc|]. destruct Hp as [Hp|Hfs].
    + eapply confined_at, touched_confined; [|done|done]. split_and!; [done|by eapply confined_dir|done].
    + split_and!; [done|by rewrite Hfs|by rewrite Hfs].
Qed.

Lemma child_confined go D child w :
  cas_ok (wk_cas w) → fs_wf (ns w) → ns w !! D = Some IDir →
  (∀ p, (D ++ [dn_name child]) `prefix_of` p → no_link (ns w !! p)) →
  (∀ d w1, field_digest (dn_digest child) = Some d →
     cas_ok (wk_cas w1) → fs_wf (ns w1) → ns w1 !! (D ++ [dn_name child]) = Some IDir →
     linkfree (D ++ [dn_name child]) (ns w1) →
     wp (go d (D ++ [dn_name child])) (λ _ w', confined (inside (D ++ [dn_name child])) w1 w')
        (λ _ w', confined (inside (D ++ [dn_name child])) w1 w') w1) →
  wp (materialize_child go D child)
     (λ _ w', confined (prefix (D ++ [dn_name child])) w w')
     (λ _ w', confined (prefix (D ++ [dn_name child])) w w') w.
Proof.
  intros Hok Hwf HD Hlf Hgo. set (q := D ++ [dn_name child]) in *.
  assert (∀ w1, spot (ns w) D (dn_name child) → moved w w1 (<[q := IDir]> (ns w)) →
    confined (λ p, p = q) w w1 ∧ ns w1 !! q = Some IDir) as Hmk.
  { intros w1 Hs Hm. by eapply moved_confined; [|right|]. }
  apply materialize_child_spec; [done..|by apply Hlf| |].
  - intros d w1 Hs Hq Hd Hm Hst. destruct (Hmk w1 Hs Hm) as [Hc1 Hq1]. pose proof Hc1 as ((Hok1 & _) & Hwf1 & Hun).
    eapply wp_mono; [apply (Hgo d w1 Hd Hok1 Hwf1 Hq1)|..]; cbn beta.
    + intros p [c Hp]. rewrite Hun; [apply Hlf; by eapply inside_prefix; exists c|].
      intros ->. by eapply not_inside_prefix.
    + intros _ w2 Hc2. eapply confined_trans; (eapply confined_impl; [|done]); [by intros p ->|apply inside_prefix].
    + intros _ w2 Hc2. eapply confined_trans; (eapply confined_impl; [|done]); [by intros p ->|apply inside_prefix].
  - intros e w1 Hk [Hd|[Hs Hd]] _.
    + destruct Hd as [Hn _]. split_and!; [done|by rewrite Hn|by rewrite Hn].
    + destruct (Hmk w1 Hs (conj Hk Hd)) as [Hc1 _]. eapply confined_impl; [|exact Hc1]. by intros p ->.
Qed.

(** No two directories of a message, and no directory and link, share a name. *)
Definition names_apart (dir : Directory) : Prop :=
  NoDup (dn_name <$> directories dir) ∧ ∀ x, x ∈ dn_name <$> directories dir → x ∉ sn_name <$> symlinks dir.

(** Whatever bytes have the hash of [d], they are no message or one with names
    apart whose children are so in turn, to a depth of less than [n]. *)
Fixpoint well_named (n : nat) (d : Digest) : Prop :=
  match n with
  | O => False
  | S n => ∀ b dir, sha256_hex b = hash d → dec_dir b = inr dir →
      names_apart dir ∧
      ∀ child cd, child ∈ directories dir → field_digest (dn_digest child) = Some cd → well_named n cd
  end.

Lemma fetch_directory_spec d c :
  cas_ok c →
  wp (fetch_directory d) (λ dir c', cas_keeps c c' ∧ ∃ b, sha256_hex b = hash d ∧ dec_dir b = inr dir)
     (λ _ c', cas_keeps c c' ∧ ¬ (readable c d ∧ ∀ b, sha256_hex b = hash d → ∃ dir, dec_dir b = inr dir)) c.
Proof.
  intros Hok. unfold fetch_directory. wp_step. eapply wp_mono; [by apply read_blob_spec|..]; cbn beta.
  - intros b c' [Hk Hb]. destruct (dec_dir b) as [e|dir] eqn:Hdec; wp_step; [|by eauto].
    split; [done|]. intros [_ Hall]. destruct (Hall b Hb) as [dir Hdir]. congruence.
  - intros e c' [Hk Hn]. split; [done|]. tauto.
Qed.

Lemma children_confined go D dns (snames : list string) w :
  cas_ok (wk_cas w) → fs_wf (ns w) → ns w !! D = Some IDir →
  NoDup (dn_name <$> dns) → (∀ x, x ∈ dn_name <$> dns → x ∉ snames) →
  (∀ p, inside D p → no_link (ns w !! p) ∨ ∃ s, s ∈ snames ∧ p = D ++ [s]) →
  (∀ child d D w1, child ∈ dns → field_digest (dn_digest child) = Some d →
     cas_ok (wk_cas w1) → fs_wf (ns w1) → ns w1 !! D = Some IDir → linkfree D (ns w1) →
     wp (go d D) (λ _ w', confined (inside D) w1 w') (λ _ w', confined (inside D) w1 w') w1) →
  wp (each (materialize_child go D) dns)
     (λ _ w', confined (inside D) w w') (λ _ w', confined (inside D) w w') w.
Proof.
  intros Hok Hwf HD Hnd Hap Hl Hgo. apply wp_mono with
    (λ _ w', confined (inside D) w w' ∧
       ∀ p, inside D p → no_link (ns w' !! p) ∨ (∃ s, s ∈ snames ∧ p = D ++ [s])
              ∨ ∃ child, child ∈ dns ∧ (D ++ [dn_name child]) `prefix_of` p)
    (λ _ w', confined (inside D) w w'); [|by intros _ w' [? _]|done].
  apply (wp_each _ (λ pre w', confined (inside D) w w' ∧
    ∀ p, inside D p → no_link (ns w' !! p) ∨ (∃ s, s ∈ snames ∧ p = D ++ [s])
           ∨ ∃ child, child ∈ pre ∧ (D ++ [dn_name child]) `prefix_of` p)).
  { split; [done|]. intros p Hp. destruct (Hl p Hp); auto. }
  intros pre child post w1 -> [Hc Hl1]. pose proof Hc as ((Hok1 & _) & Hwf1 & _).
  assert (child ∈ pre ++ child :: post) as Hch by set_solver.
  assert (∀ w2, confined (prefix (D ++ [dn_name child])) w1 w2 → confined (inside D) w w2) as Hstep.
  { intros w2 Hc2. eapply confined_trans; [exact Hc|]. eapply confined_impl; [|exact Hc2]. intros p. apply prefix_inside. }
  eapply wp_mono; [apply child_confined; [done|done|by eapply confined_dir|..]|..]; cbn beta.
  - intros p Hp. destruct (Hl1 p (prefix_inside _ _ _ Hp)) as [?|[(s & Hs & ->)|(ch & Hin & Hp')]]; [done|..]; exfalso.
    + apply (Hap (dn_name child)); [by apply list_elem_of_fmap_2|].
      destruct Hp as [r E]. rewrite <-app_assoc in E. by apply app_inj_1 in E as [_ [= <- _]].
    + rewrite fmap_app, fmap_cons in Hnd. apply NoDup_app in Hnd as (_ & Hnd & _).
      apply (Hnd (dn_name ch)); [by apply list_elem_of_fmap_2|]. rewrite (prefix_snoc_inj _ _ _ _ Hp' Hp). set_solver.
  - intros d w2 Hd. by eapply Hgo.
  - intros [] w2 Hc2. split; [by apply Hstep|]. intros p Hp.
    destruct (decide ((D ++ [dn_name child]) `prefix_of` p)) as [?|Hnp].
    + right; right. exists child. split; [set_solver|done].
    + destruct Hc2 as (_ & _ & Hun). rewrite Hun by done.
      destruct (Hl1 p Hp) as [?|[?|(ch & ? & ?)]]; [by auto..|]. right; right. exists ch. split; [set_solver|done].
  - intros e w2 Hc2. by apply Hstep.
Qed.

Lemma materialize_confined n fuel d D w :
  (n ≤ fuel)%nat → well_named n d →
  cas_ok (wk_cas w) → fs_wf (ns w) → ns w !! D = Some IDir → linkfree D (ns w) →
  wp (materialize_directory fuel d D)
     (λ _ w', confined (inside D) w w') (λ _ w', confined (inside D) w w') w.
Proof.
  revert fuel d D w. induction n as [|n IH]; intros [|fuel] d D w Hle Hwn Hok Hwf HD Hlf; [done|done|lia|].
  cbn [materialize_directory]. wp_step. unfold from_cas. apply wp_zoom.
  eapply wp_mono; [by apply fetch_directory_spec|..]; cbn beta; [|by intros e c' [Hk _]; split_and!].
  intros dir c1 [Hk (b & Hb & Hdec)]. destruct (Hwn b dir Hb Hdec) as [[Hnd Hap] Hch].
  set (w0 := mkWalk c1 (wk_fs w) (wk_stats w)). assert (confined (inside D) w w0) as Hc0 by done.
  wp_step. eapply wp_mono; [by apply files_confined; [apply Hk|..]|..]; cbn beta.
  2:{ intros e w1 Hc1. by eapply confined_trans. }
  intros [] w1 [Hc1 Hl1]. pose proof Hc1 as ((Hok1 & _) & Hwf1 & _).
  assert (ns w1 !! D = Some IDir) as HD1 by by eapply (confined_dir D w0).
  wp_step. eapply wp_mono; [by apply links_confined|..]; cbn beta.
  2:{ intros e w2 Hc2. eapply confined_trans; [exact Hc0|]. by eapply confined_trans. }
  intros [] w2 [Hc2 Hl2]. pose proof Hc2 as ((Hok2 & _) & Hwf2 & _).
  assert (confined (inside D) w w2) as Hc02 by (eapply confined_trans; [exact Hc0|]; by eapply confined_trans).
  eapply wp_mono; [apply (children_confined _ D _ (sn_name <$> symlinks dir))|..]; cbn beta;
    [done|done|by eapply confined_dir|done|done|..].
  - intros p Hp. destruct (Hl2 p Hp) as [?|(s & Hs & ->)]; [by left|right]. exists (sn_name s).
    split; [by apply list_elem_of_fmap_2|done].
  - intros child cd D' w' Hin Hcd ????. apply IH; [lia|by eapply Hch|done..].
  - intros _ w3 Hc3. by eapply confined_trans.
  - intros _ w3 Hc3. by eapply confined_trans.
Qed.

End steps.
