(* ===== verification/TreeExact.v ===== *)
(** * brokkr-cas: what a materialized tree looks like

    The abstract tree a Merkle tree of [Directory] messages stands for, the
    entries it has on disk, and the proof that a walk of a well-formed tree into
    an empty directory writes exactly these. *)

From stdpp Require Import prelude gmap strings.
From Stdlib Require Import Lia Strings.Ascii.
From S2P Require Import Prelude Machine Bytes Common Redb Cas CasBackends ActionCache Fs Tree TreeSpec.

Local Open Scope N_scope.

(** ** Trees *)

Inductive Tree : Type :=
| TNode (tfiles : list (string * (bool * bytes))) (tlinks : list (string * string)) (tdirs : list (string * Tree)).

Definition Tree_ind' (P : Tree → Prop)
    (step : ∀ fs ls ds, Forall (λ x, P x.2) ds → P (TNode fs ls ds)) : ∀ t, P t :=
  fix ind t := match t with
  | TNode fs ls ds =>
      step fs ls ds ((fix all ds : Forall (λ x, P x.2) ds := match ds with
        | [] => Forall_nil_2 _
        | x :: ds => Forall_cons_2 _ x ds (ind x.2) (all ds)
        end) ds)
  end.

(** What the tree has on disk under [D], in the order of the walk. *)
Definition file_entry (umask : N) (D : path) (f : string * (bool * bytes)) : path * inode :=
  (D ++ [f.1], IFile (if f.2.1 then 493 else N.ldiff 438 umask) f.2.2).
Definition link_entry (D : path) (l : string * string) : path * inode := (D ++ [l.1], ILink l.2).

Fixpoint entries (umask : N) (D : path) (t : Tree) : list (path * inode) :=
  match t with
  | TNode fs ls ds =>
      map (file_entry umask D) fs ++ map (link_entry D) ls ++
      flat_map (λ x, (D ++ [x.1], IDir) :: entries umask (D ++ [x.1]) x.2) ds
  end.

Definition place (es : list (path * inode)) (m : inodes) : inodes := foldl (λ m e, <[e.1 := e.2]> m) m es.

Definition file_stats (st : MaterializationStats) (f : string * (bool * bytes)) : MaterializationStats :=
  count_file (Z.of_nat (length f.2.2)) st.

Fixpoint tree_stats (t : Tree) (st : MaterializationStats) : MaterializationStats :=
  match t with
  | TNode fs ls ds =>
      fold_left (λ st x, tree_stats x.2 (count_dir st)) ds
        (fold_left (λ st _, count_symlink st) ls (fold_left file_stats fs st))
  end.

Lemma place_app es es' m : place (es ++ es') m = place es' (place es m).
Proof. apply foldl_app. Qed.

Lemma entries_inside umask D t p i : (p, i) ∈ entries umask D t → inside D p.
Proof.
  revert D. induction t as [fs ls ds IH] using Tree_ind'; intros D. cbn [entries]. rewrite !elem_of_app.
  intros [Hin|[Hin|Hin]].
  - apply list_elem_of_fmap in Hin as (f & [= -> _] & _). by exists f.1.
  - apply list_elem_of_fmap in Hin as (l & [= -> _] & _). by exists l.1.
  - apply list_elem_of_In, in_flat_map in Hin as (x & Hx%list_elem_of_In & [[= <- _]|Hin%list_elem_of_In]); [by exists x.1|].
    rewrite Forall_forall in IH. exists x.1. eapply inside_prefix, IH; [exact Hx|exact Hin].
Qed.

Lemma place_outside es m p : (∀ i, (p, i) ∉ es) → place es m !! p = m !! p.
Proof.
  revert m. induction es as [|[q i] es IH]; intros m Hp; [done|]. simpl. rewrite IH by set_solver.
  apply lookup_insert_ne. intros ->. set_solver.
Qed.

(** ** A message that stands for a tree *)

Section exact.
Context {C : Type} `{CasSpec C, ErrText, DirCodec, TreeText}.
Implicit Types (w : Walk C) (D p : path).

Notation ns w := (fs_nodes (wk_fs w)).

(** The digests the store must hold. *)
Context (held : Digest → Prop).

Definition file_at (node : FileNode) (f : string * (bool * bytes)) : Prop :=
  fn_name node = f.1 ∧ is_executable node = f.2.1 ∧
  ∃ d, field_digest (fn_digest node) = Some d ∧ held d ∧ size_bytes d = Z.of_nat (length f.2.2) ∧
       ∀ b, sha256_hex b = hash d → b = f.2.2.

Definition link_at (node : SymlinkNode) (l : string * string) : Prop :=
  sn_name node = l.1 ∧ sn_target node = l.2 ∧ target_ok l.2 = true.

(** The bytes with the hash of [d] are a message that lists exactly [t], to a
    depth of less than [n]; names are plain and distinct. *)
Fixpoint tree_at (n : nat) (d : Digest) (t : Tree) : Prop :=
  match n with
  | O => False
  | S n => match t with TNode fs ls ds =>
      held d ∧ NoDup (fs.*1 ++ ls.*1 ++ ds.*1) ∧ Forall plain (fs.*1 ++ ls.*1 ++ ds.*1) ∧
      ∃ dir, (∀ b, sha256_hex b = hash d → dec_dir b = inr dir) ∧
        Forall2 file_at (files dir) fs ∧ Forall2 link_at (symlinks dir) ls ∧
        Forall2 (λ node x, dn_name node = x.1 ∧
                   ∃ cd, field_digest (dn_digest node) = Some cd ∧ tree_at n cd x.2) (directories dir) ds
      end
  end.

(** Everything below [D] is under one of [names]. *)
Definition occupied D (names : list string) (m : inodes) : Prop :=
  ∀ p, inside D p → is_Some (m !! p) → ∃ x, x ∈ names ∧ (D ++ [x]) `prefix_of` p.

(** A walk in [D] that has placed [names] and has nothing to fear. *)
Definition fine D (names : list string) w : Prop :=
  cas_ok (wk_cas w) ∧ (∀ d, held d → cas_has (wk_cas w) d = true) ∧
  fs_wf (ns w) ∧ ns w !! D = Some IDir ∧ fs_faults (wk_fs w) = [] ∧ occupied D names (ns w).

Lemma moved_trans w1 w2 w3 m2 m3 : moved w1 w2 m2 → moved w2 w3 m3 → moved w1 w3 m3.
Proof.
  intros [[_ Hk1] Hd1] [[? Hk2] Hd2]. split; [split; [done|]|by eapply disk_trans].
  intros d. by rewrite Hk2, Hk1.
Qed.

Lemma fine_spot D names x w : fine D names w → plain x → x ∉ names → spot (ns w) D x ∧ ns w !! (D ++ [x]) = None.
Proof.
  intros (_ & _ & Hwf & HD & _ & Hocc) Hp Hx. split; [done|].
  destruct (ns w !! (D ++ [x])) as [i|] eqn:Hq; [exfalso|done].
  destruct (Hocc (D ++ [x])) as (y & Hy & [r E]); [by exists x|by eauto|].
  rewrite <-app_assoc in E. apply app_inj_1 in E as [_ [= -> _]]; done.
Qed.

Lemma fine_moved D names x m w w' :
  fine D names w → moved w w' m → fs_wf m →
  (∀ p, ¬ (D ++ [x]) `prefix_of` p → m !! p = ns w !! p) → fine D (names ++ [x]) w'.
Proof.
  intros (Hok & Hh & Hwf & HD & Hf & Hocc) [[Hok' Hk] [Hn [_ Hf']]] Hwf' Hun. unfold fine. rewrite Hn.
  split_and!; [done| |done| |by auto|].
  - intros d Hd. rewrite Hk. by apply Hh.
  - by rewrite Hun by apply not_inside_prefix.
  - intros p Hp Hs. destruct (decide ((D ++ [x]) `prefix_of` p)) as [?|Hnp]; [exists x; split; [set_solver|done]|].
    rewrite Hun in Hs by done. destruct (Hocc p Hp Hs) as (y & ? & ?). exists y. split; [set_solver|done].
Qed.

Lemma fine_insert D names x i w w' :
  fine D names w → plain x → x ∉ names → moved w w' (<[D ++ [x] := i]> (ns w)) → fine D (names ++ [x]) w'.
Proof.
  intros Hf Hp Hx Hm. destruct (fine_spot _ _ _ _ Hf Hp Hx) as [Hs Hq].
  eapply fine_moved; [done|done|apply fs_wf_insert; [done|left; by rewrite Hq]|].
  intros p Hnp. rewrite lookup_insert_ne; [done|]. by intros <-.
Qed.

Context `{!ReliableCas C}.

Lemma files_exact nodes fs D names w :
  Forall2 file_at nodes fs → fine D names w → NoDup (names ++ fs.*1) → Forall plain fs.*1 →
  wp (each (materialize_file D) nodes)
     (λ _ w', fine D (names ++ fs.*1) w' ∧
        moved w w' (place (map (file_entry (fs_umask (wk_fs w)) D) fs) (ns w)) ∧
        wk_stats w' = fold_left file_stats fs (wk_stats w))
     (λ _ _, False) w.
Proof.
  intros Hall. revert names w. induction Hall as [|node [x [ex b]] nodes fs Hat Hall IH]; intros names w Hf Hnd Hpl.
  { simpl. wp_step. rewrite app_nil_r. split_and!; [done|split; [by split; [apply Hf|]|done]|done]. }
  cbn [each]. wp_step. destruct Hat as (Hname & Hex & d & Hd & Hheld & Hsz & Hb). simpl in *.
  apply Forall_cons in Hpl as [Hx Hpl].
  assert (x ∉ names) as Hnx by (apply NoDup_app in Hnd as (_ & Hnd & _); intros Hin; apply (Hnd x Hin); set_solver).
  destruct (fine_spot _ _ _ _ Hf Hx Hnx) as [Hs Hq]. pose proof Hf as (Hok & Hh & Hwf & HD & Hfa & _).
  rewrite <-Hname in *. eapply wp_mono; [apply materialize_file_spec; [done..|rewrite Hq; by intros t]|..]; cbn beta.
  - intros [] w1 (_ & _ & d' & b' & Hd' & Hb' & Hst & Hm). rewrite Hd in Hd'. injection Hd' as <-.
    rewrite (Hb b' Hb') in Hm. rewrite Hq, Hex in Hm. simpl in Hm.
    eapply wp_mono; [apply (IH (names ++ [fn_name node]) w1); [by eapply fine_insert| |done]|..]; cbn beta; [| |done].
    + by rewrite <-app_assoc.
    + intros [] w2 (Hf2 & Hm2 & Hst2). rewrite <-app_assoc in Hf2. simpl in *. split; [done|]. split.
      * eapply moved_trans; [exact Hm|]. destruct Hm as [_ (Hn & Hu & _)]. rewrite Hn, Hu in Hm2. exact Hm2.
      * rewrite Hst2, Hst. unfold file_stats at 3. simpl. by rewrite Hsz.
  - intros e w1 (_ & _ & _ & Hnr). apply Hnr. split_and!; [done|by rewrite Hq|done|]. exists d. split; [done|].
    split; [by apply Hh|by apply reads_return].
Qed.

Lemma links_exact nodes ls D names w :
  Forall2 link_at nodes ls → fine D names w → NoDup (names ++ ls.*1) → Forall plain ls.*1 →
  wp (each (materialize_symlink D) nodes)
     (λ _ w', fine D (names ++ ls.*1) w' ∧
        moved w w' (place (map (link_entry D) ls) (ns w)) ∧
        wk_stats w' = fold_left (λ st _, count_symlink st) ls (wk_stats w))
     (λ _ _, False) w.
Proof.
  intros Hall. revert names w. induction Hall as [|node [x t] nodes ls Hat Hall IH]; intros names w Hf Hnd Hpl.
  { simpl. wp_step. rewrite app_nil_r. split_and!; [done|split; [by split; [apply Hf|]|done]|done]. }
  cbn [each]. wp_step. destruct Hat as (Hname & Htgt & Hok'). simpl in *.
  apply Forall_cons in Hpl as [Hx Hpl].
  assert (x ∉ names) as Hnx by (apply NoDup_app in Hnd as (_ & Hnd & _); intros Hin; apply (Hnd x Hin); set_solver).
  destruct (fine_spot _ _ _ _ Hf Hx Hnx) as [Hs Hq]. pose proof Hf as (Hok & Hh & Hwf & HD & Hfa & _).
  rewrite <-Hname, <-Htgt in *. eapply wp_mono; [by apply materialize_symlink_spec|..]; cbn beta.
  - intros [] w1 (_ & _ & Hst & Hm).
    eapply wp_mono; [apply (IH (names ++ [sn_name node]) w1); [by eapply fine_insert| |done]|..]; cbn beta; [| |done].
    + by rewrite <-app_assoc.
    + intros [] w2 (Hf2 & Hm2 & Hst2). rewrite <-app_assoc in Hf2. simpl in *. split; [done|]. split.
      * eapply moved_trans; [exact Hm|]. destruct Hm as [_ (Hn & Hu & _)]. rewrite Hn in Hm2. exact Hm2.
      * by rewrite Hst2, Hst.
  - intros e w1 (_ & _ & _ & Hnr). apply Hnr. by split_and!.
Qed.

(** The entries of the children. *)
Definition dir_entries (umask : N) D (ds : list (string * Tree)) : list (path * inode) :=
  flat_map (λ x, (D ++ [x.1], IDir) :: entries umask (D ++ [x.1]) x.2) ds.

Lemma child_exact go D names x t child w :
  fine D names w → plain x → x ∉ names → dn_name child = x → is_Some (field_digest (dn_digest child)) →
  (∀ d w1, field_digest (dn_digest child) = Some d → fine (D ++ [x]) [] w1 →
     wp (go d (D ++ [x]))
        (λ _ w', moved w1 w' (place (entries (fs_umask (wk_fs w1)) (D ++ [x]) t) (ns w1)) ∧ fs_wf (ns w')
                 ∧ wk_stats w' = tree_stats t (wk_stats w1)) (λ _ _, False) w1) →
  wp (materialize_child go D child)
     (λ _ w', fine D (names ++ [x]) w' ∧
        moved w w' (place ((D ++ [x], IDir) :: entries (fs_umask (wk_fs w)) (D ++ [x]) t) (ns w)) ∧
        wk_stats w' = tree_stats t (count_dir (wk_stats w)))
     (λ _ _, False) w.
Proof.
  intros Hf Hx Hnx <- [d0 Hd0] Hgo. destruct (fine_spot _ _ _ _ Hf Hx Hnx) as [Hs Hq].
  pose proof Hf as (Hok & Hh & Hwf & HD & Hfa & Hocc).
  apply materialize_child_spec; [done..|rewrite Hq; by intros t'| |].
  2:{ intros e w1 _ _ [?|[Hi|[?|?]]]; [done| |done|congruence]. rewrite Hq in Hi. by apply is_Some_None in Hi. }
  intros d w1 _ _ Hd Hm Hst. pose proof Hm as [[Hok1 Hk1] (Hn & Hu & Hf1)].
  assert (fine (D ++ [dn_name child]) [] w1) as Hfine1.
  { unfold fine. rewrite Hn. split_and!; [done| | |by rewrite lookup_insert_eq|by auto|].
    - intros d' Hd'. rewrite Hk1. by apply Hh.
    - apply fs_wf_insert; [done|left; by rewrite Hq].
    - intros p Hp. rewrite lookup_insert_ne by (intros <-; by eapply not_inside_self).
      intros [i Hi]. exfalso. destruct Hp as [c [r ->]]. rewrite <-(app_assoc _ [c]) in Hi.
      eapply (fs_wf_prefix _ _ _ _ Hwf) in Hi; [|done]. congruence. }
  eapply wp_mono; [by apply Hgo|..]; cbn beta; [|done]. intros [] w2 (Hm2 & Hwf2 & Hst2).
  assert (moved w w2 (place ((D ++ [dn_name child], IDir) :: entries (fs_umask (wk_fs w)) (D ++ [dn_name child]) t) (ns w))) as Hm3.
  { eapply moved_trans; [exact Hm|]. rewrite Hn, Hu in Hm2. exact Hm2. }
  split_and!; [|done|by rewrite Hst2, Hst]. eapply fine_moved; [exact Hf|exact Hm3|..].
  - destruct Hm3 as [_ (<- & _)]. done.
  - intros p Hp. apply place_outside. intros i [[= -> _]|Hin]%elem_of_cons; [by apply Hp|].
    apply Hp, inside_prefix. by eapply entries_inside.
Qed.

Lemma children_exact n fuel nodes ds D names w :
  (∀ d t D w1, tree_at n d t → fine D [] w1 →
     wp (materialize_directory fuel d D)
        (λ _ w', moved w1 w' (place (entries (fs_umask (wk_fs w1)) D t) (ns w1)) ∧ fs_wf (ns w')
                 ∧ wk_stats w' = tree_stats t (wk_stats w1)) (λ _ _, False) w1) →
  Forall2 (λ node x, dn_name node = x.1 ∧ ∃ cd, field_digest (dn_digest node) = Some cd ∧ tree_at n cd x.2) nodes ds →
  fine D names w → NoDup (names ++ ds.*1) → Forall plain ds.*1 →
  wp (each (materialize_child (materialize_directory fuel) D) nodes)
     (λ _ w', fine D (names ++ ds.*1) w' ∧
        moved w w' (place (dir_entries (fs_umask (wk_fs w)) D ds) (ns w)) ∧
        wk_stats w' = fold_left (λ st x, tree_stats x.2 (count_dir st)) ds (wk_stats w))
     (λ _ _, False) w.
Proof.
  intros IHn Hall. revert names w. induction Hall as [|node [x t] nodes ds Hat Hall IH]; intros names w Hf Hnd Hpl.
  { simpl. wp_step. rewrite app_nil_r. split_and!; [done|split; [by split; [apply Hf|]|done]|done]. }
  cbn [each]. wp_step. destruct Hat as (Hname & cd & Hcd & Ht). simpl in *. apply Forall_cons in Hpl as [Hx Hpl].
  assert (x ∉ names) as Hnx by (apply NoDup_app in Hnd as (_ & Hnd & _); intros Hin; apply (Hnd x Hin); set_solver).
  eapply wp_mono; [apply (child_exact _ D names x t); [done|done|done|done|by eauto|]|..]; cbn beta; [| |done].
  { intros d w1 Hd. apply IHn. congruence. }
  intros [] w1 (Hf1 & Hm & Hst).
  eapply wp_mono; [apply (IH (names ++ [x]) w1); [done| |done]|..]; cbn beta; [by rewrite <-app_assoc| |done].
  intros [] w2 (Hf2 & Hm2 & Hst2). rewrite <-app_assoc in Hf2. split; [done|]. split.
  - eapply moved_trans; [exact Hm|]. destruct Hm as [_ (Hn & Hu & _)]. rewrite Hn, Hu in Hm2.
    cbn [dir_entries flat_map fst snd]. by rewrite place_app.
  - by rewrite Hst2, Hst.
Qed.

Lemma materialize_exact n fuel d t D w :
  (n ≤ fuel)%nat → tree_at n d t → fine D [] w →
  wp (materialize_directory fuel d D)
     (λ _ w', moved w w' (place (entries (fs_umask (wk_fs w)) D t) (ns w)) ∧ fs_wf (ns w')
              ∧ wk_stats w' = tree_stats t (wk_stats w)) (λ _ _, False) w.
Proof.
  revert fuel d t D w. induction n as [|n IH]; intros [|fuel] d [fs ls ds] D w Hle Ht Hf; [done|done|lia|].
  cbn [materialize_directory]. destruct Ht as (Hheld & Hnd & Hpl & dir & Hdir & Hfs & Hls & Hds).
  rewrite !Forall_app in Hpl. destruct Hpl as (Hp1 & Hp2 & Hp3).
  wp_step. unfold from_cas. apply wp_zoom.
  eapply wp_mono; [apply fetch_directory_spec, Hf|..]; cbn beta.
  2:{ intros e c' [_ Hn]. apply Hn. split; [split; [apply Hf, Hheld|apply reads_return, Hf]|]. intros b Hb. eauto. }
  intros dir' c1 [Hk (b & Hb & Hdec)]. rewrite (Hdir b Hb) in Hdec. injection Hdec as <-.
  set (w0 := mkWalk c1 (wk_fs w) (wk_stats w)).
  assert (fine D [] w0) as Hf0.
  { destruct Hf as (_ & Hh & ?). split; [apply Hk|split; [|done]]. intros d' Hd'. simpl. destruct Hk as [_ Hk]. rewrite Hk. auto. }
  rewrite app_assoc in Hnd. pose proof (NoDup_app (fs.*1 ++ ls.*1) ds.*1) as [Hnd' _]. destruct (Hnd' Hnd) as (Hnd1 & _).
  pose proof (NoDup_app fs.*1 ls.*1) as [Hnd'' _]. destruct (Hnd'' Hnd1) as (Hnd0 & _). clear Hnd' Hnd''.
  wp_step. eapply wp_mono; [by apply (files_exact _ fs D [] w0)|..]; cbn beta; [|done]. simpl app.
  intros [] w1 (Hf1 & Hm1 & Hst1). wp_step.
  eapply wp_mono; [by apply (links_exact _ ls D fs.*1 w1)|..]; cbn beta; [|done].
  intros [] w2 (Hf2 & Hm2 & Hst2).
  eapply wp_mono; [apply (children_exact n fuel _ ds D (fs.*1 ++ ls.*1) w2)|..]; cbn beta; [|done..| |done].
  { intros. apply IH; [lia|done|done]. }
  intros [] w3 (Hf3 & Hm3 & Hst3). split; [|split; [apply Hf3|by rewrite Hst3, Hst2, Hst1]].
  cbn [entries]. rewrite !place_app. change (flat_map _ ds) with (dir_entries (fs_umask (wk_fs w)) D ds).
  destruct Hm1 as [Hk1 Hd1], Hm2 as [Hk2 Hd2]. pose proof Hd1 as (Hn1 & Hu1 & _). pose proof Hd2 as (Hn2 & Hu2 & _).
  eapply (moved_trans w w0); [split; [done|apply disk_refl]|].
  eapply moved_trans; [split; [exact Hk1|exact Hd1]|]. eapply moved_trans; [split; [exact Hk2|exact Hd2]|].
  rewrite Hn2, Hu2, Hn1, Hu1 in Hm3. exact Hm3.
Qed.

Lemma materialize_tree_exact n fuel root t D (c : C) (s : Fs) :
  (n ≤ fuel)%nat → tree_at n root t → cas_ok c → (∀ d, held d → cas_has c d = true) →
  fs_wf (fs_nodes s) → fs_nodes s !! D = Some IDir → fs_faults s = [] →
  (∀ p, inside D p → fs_nodes s !! p = None) →
  wp (materialize_tree fuel root D)
     (λ st s', fs_nodes s'.2 = place (entries (fs_umask s) D t) (fs_nodes s) ∧ st = tree_stats t stats_zero)
     (λ _ _, False) (c, s).
Proof.
  intros Hle Ht Hok Hh Hwf HD Hf He.
  assert (fine D [] (mkWalk c s stats_zero)) as Hfine.
  { split_and!; [done|done|done|done|done|]. intros p Hp Hs. simpl in Hs. rewrite He in Hs by done. by apply is_Some_None in Hs. }
  pose proof (materialize_exact n fuel root t D _ Hle Ht Hfine) as Hw.
  unfold wp, materialize_tree in *. simpl.
  destruct (materialize_directory fuel root D _) as [w' [[]|e|]]; simpl; [|done..]. by destruct Hw as ([_ [-> _]] & _ & ->).
Qed.

End exact.
