(* ===== verification/TreePack.v ===== *)
(** * brokkr-cas: packing a directory

    What [pack_directory] uploads and returns: the message of the tree on disk,
    with every blob of it in the store.  A tree packed so is one that
    [TreeExact] materializes, and what it looks like on disk is what was there
    before, up to the mode bits that are kept. *)

From stdpp Require Import prelude gmap strings sorting.
From Stdlib Require Import Lia Strings.Ascii.
From S2P Require Import Prelude Machine Bytes Common Redb Cas CasBackends ActionCache Fs Tree TreeSpec TreeExact.

Local Open Scope N_scope.

(** ** The tree on disk *)

Definition sorted_names (m : inodes) (D : path) : list string := merge_sort String.le (child_names m D).

Definition executable (mode : N) : bool := negb (N.land mode 73 =? 0).

Definition pick_file (m : inodes) (D : path) (x : string) : option (string * (bool * bytes)) :=
  match m !! (D ++ [x]) with Some (IFile mode b) => Some (x, (executable mode, b)) | _ => None end.
Definition pick_link (m : inodes) (D : path) (x : string) : option (string * string) :=
  match m !! (D ++ [x]) with Some (ILink t) => Some (x, t) | _ => None end.
Definition pick_dir (sub : string → Tree) (m : inodes) (D : path) (x : string) : option (string * Tree) :=
  match m !! (D ++ [x]) with Some IDir => Some (x, sub x) | _ => None end.

Definition pick (sub : string → Tree) (m : inodes) (D : path) (names : list string) : Tree :=
  TNode (omap (pick_file m D) names) (omap (pick_link m D) names) (omap (pick_dir sub m D) names).

Fixpoint snapshot (n : nat) (m : inodes) (D : path) : Tree :=
  match n with
  | O => TNode [] [] []
  | S n => pick (λ x, snapshot n m (D ++ [x])) m D (sorted_names m D)
  end.

(** ** Its message *)

Section message.
Context `{Sha256, DirCodec}.

Definition file_message (f : string * (bool * bytes)) : FileNode :=
  mkFileNode f.1 (Some (to_pb (Digest_of f.2.2))) f.2.1 [].
Definition link_message (l : string * string) : SymlinkNode := mkSymlinkNode l.1 l.2 [].

Fixpoint tree_message (t : Tree) : Directory :=
  match t with
  | TNode fs ls ds =>
      mkDirectory (map file_message fs)
        (map (λ x, mkDirectoryNode x.1 (Some (to_pb (Digest_of (enc_dir (tree_message x.2)))))) ds)
        (map link_message ls) []
  end.

Definition tree_blob (t : Tree) : bytes := enc_dir (tree_message t).
Definition tree_root (t : Tree) : Digest := Digest_of (tree_blob t).

Fixpoint tree_parts (t : Tree) : list bytes :=
  match t with
  | TNode fs ls ds => map (λ f, f.2.2) fs ++ flat_map (λ x, tree_blob x.2 :: tree_parts x.2) ds
  end.

(** Every blob of the tree. *)
Definition tree_blobs (t : Tree) : list bytes := tree_blob t :: tree_parts t.

Lemma tree_parts_file fs ls ds f : f ∈ fs → f.2.2 ∈ tree_parts (TNode fs ls ds).
Proof. intros Hf. cbn [tree_parts]. apply elem_of_app. left. by apply (list_elem_of_fmap_2 (λ f, f.2.2)). Qed.

Lemma tree_parts_dir fs ls ds x b : x ∈ ds → b ∈ tree_blobs x.2 → b ∈ tree_parts (TNode fs ls ds).
Proof.
  intros Hx Hb. cbn [tree_parts]. apply elem_of_app. right. apply list_elem_of_In, in_flat_map.
  exists x. split; [by apply list_elem_of_In|by apply list_elem_of_In].
Qed.

End message.

(** ** Packing *)

Section pack.
Context {C : Type} `{CasSpec C, ErrText, DirCodec, TreeText, !ReliableCas C}.
Implicit Types (w : Walk C) (D : path) (m : inodes).

Definition calm m w : Prop := cas_ok (wk_cas w) ∧ fs_nodes (wk_fs w) = m ∧ fs_faults (wk_fs w) = [].

(** The blobs [bs] were stored, nothing was lost, and the disk is as it was. *)
Definition packed w w' (bs : list bytes) : Prop :=
  cas_ok (wk_cas w') ∧ disk (wk_fs w) (wk_fs w') (fs_nodes (wk_fs w)) ∧ wk_stats w' = wk_stats w ∧
  (∀ d, cas_has (wk_cas w) d = true → cas_has (wk_cas w') d = true) ∧
  ∀ b, b ∈ bs → cas_has (wk_cas w') (Digest_of b) = true.

Lemma packed_calm m w w' bs : calm m w → packed w w' bs → calm m w'.
Proof. intros (_ & <- & Hf) (? & (? & _ & Hf') & _). split_and!; auto. Qed.

Lemma packed_nil w w' : cas_ok (wk_cas w) → wk_cas w' = wk_cas w → wk_stats w' = wk_stats w →
  disk (wk_fs w) (wk_fs w') (fs_nodes (wk_fs w)) → packed w w' [].
Proof. intros Hok Hc Hs Hd. unfold packed. rewrite Hc. split_and!; [done..|]. intros b []%not_elem_of_nil. Qed.

Lemma packed_trans w1 w2 w3 bs bs' : packed w1 w2 bs → packed w2 w3 bs' → packed w1 w3 (bs ++ bs').
Proof.
  intros (_ & Hd1 & Hs1 & Hk1 & Hb1) (Hok & Hd2 & Hs2 & Hk2 & Hb2). split_and!; [done| |congruence|by auto|].
  - eapply disk_trans; [exact Hd1|]. by destruct Hd1 as (<- & _).
  - intros b [Hb|Hb]%elem_of_app; auto.
Qed.

Lemma packed_sub w w' bs bs' : packed w w' bs → bs' ⊆ bs → packed w w' bs'.
Proof. intros (? & ? & ? & ? & Hb) Hsub. split_and!; [done..|]. intros b Hin. apply Hb. set_solver. Qed.

Lemma store_blob b w Q :
  cas_ok (wk_cas w) → blob_fits b →
  (∀ rs w', packed w w' [b] → Q rs w') →
  wp (from_cas (batch_update_blobs [(Digest_of b, b)])) Q (λ _ _, False) w.
Proof.
  intros Hok Hb HQ. unfold from_cas. apply wp_zoom. destruct (writes_stick b (wk_cas w) Hok Hb) as (c' & r & Hr & Hst).
  pose proof (batch_update_spec [(Digest_of b, b)] (wk_cas w) Hok ltac:(by repeat constructor)) as Hw.
  unfold wp in *. rewrite Hr in *. destruct Hw as (Hok' & Hrs & Hk & _). apply HQ. split_and!; simpl; [done..| |].
  - done.
  - intros b' ->%list_elem_of_singleton. apply Forall2_cons in Hrs as [[_ Hh] _]. by apply Hh.
Qed.

(** A call on a calm disk that only looks. *)
Lemma look_spec {A} (follow : bool) m (p q : path) (op : path → inodes → outcome IoError (inodes * A)) (a : A) w (Q : A → Walk C → Prop) :
  calm m w → resolve follow m p = Ok q → op q m = Ok (m, a) →
  (∀ w', packed w w' [] → Q a w') →
  wp (on_disk (sys follow p op)) Q (λ _ _, False) w.
Proof.
  intros (Hok & Hn & Hf) Hr Hop HQ. unfold on_disk. apply wp_zoom, wp_map_err.
  eapply wp_sys_at; [by rewrite Hn| |done]. rewrite Hn, Hop. intros s' Hd. apply HQ. apply packed_nil; simpl; [done..|].
  by rewrite Hn.
Qed.

Lemma list_dir_spec m D w :
  calm m w → fs_wf m → m !! D = Some IDir →
  wp (on_disk (list_dir D)) (λ names w', names = sorted_names m D ∧ packed w w' []) (λ _ _, False) w.
Proof.
  intros (Hok & Hn & Hf) Hwf HD. unfold on_disk. apply wp_zoom, wp_map_err. unfold list_dir. wp_step.
  eapply wp_sys_at; [rewrite Hn; by apply resolve_dir| |done]. unfold readdir_op. rewrite Hn, HD. intros s1 Hd.
  wp_step. eapply wp_mono with
    (λ kept s', kept = Some <$> child_names m D ∧ disk (wk_fs w) s' m) (λ _ _, False); [|clear Hd; simpl|done].
  - apply (wp_mapM_pre _ (λ pre kept s', kept = Some <$> pre ∧ disk (wk_fs w) s' m)); [done|].
    intros pre a kept s' [-> Hd'] _. wp_step. pose proof Hd' as (Hn' & _ & Hf'). apply wp_sys_fate.
    + intros s2 Hd2. wp_step. split; [by rewrite fmap_app|]. eapply disk_trans; [exact Hd'|]. by rewrite Hn' in Hd2.
    + intros f s2 Hf2. by rewrite Hf' in Hf2.
  - intros kept s2 [-> Hd2]. wp_step. split.
    + unfold sorted_names. f_equal. induction (child_names m D) as [|x l IH]; [done|]. simpl. by f_equal.
    + apply packed_nil; simpl; [done..|]. by rewrite Hn.
Qed.

(** The message [acc] with the entries of [t] appended. *)
Definition extend (acc : Directory) (t : Tree) : Directory :=
  mkDirectory (files acc ++ files (tree_message t)) (directories acc ++ directories (tree_message t))
              (symlinks acc ++ symlinks (tree_message t)) (dir_other acc).

Lemma extend_nil sub m D acc : extend acc (pick sub m D []) = acc.
Proof. destruct acc. unfold extend. simpl. by rewrite !app_nil_r. Qed.

Lemma extend_cons sub m D x names acc :
  extend (extend acc (pick sub m D [x])) (pick sub m D names) = extend acc (pick sub m D (x :: names)).
Proof.
  unfold extend, pick. simpl.
  destruct (pick_file m D x), (pick_dir sub m D x), (pick_link m D x); simpl; by rewrite <-?app_assoc, ?app_nil_r.
Qed.

Lemma parts_cons sub m D x names b :
  b ∈ tree_parts (pick sub m D (x :: names)) ↔ b ∈ tree_parts (pick sub m D [x]) ∨ b ∈ tree_parts (pick sub m D names).
Proof.
  unfold pick. simpl. destruct (pick_file m D x), (pick_dir sub m D x); simpl;
    rewrite ?app_nil_r, ?elem_of_cons, ?elem_of_app, ?elem_of_cons, ?elem_of_app, ?elem_of_nil; tauto.
Qed.

Lemma pack_entry_spec go sub m D x acc w :
  calm m w → fs_wf m → m !! D = Some IDir → is_Some (m !! (D ++ [x])) →
  (∀ b, b ∈ tree_parts (pick sub m D [x]) → blob_fits b) →
  (∀ w1, m !! (D ++ [x]) = Some IDir → calm m w1 →
     wp (go (D ++ [x])) (λ d w', d = tree_root (sub x) ∧ packed w1 w' (tree_blobs (sub x))) (λ _ _, False) w1) →
  wp (pack_entry go D x acc)
     (λ dir w', dir = extend acc (pick sub m D [x]) ∧ packed w w' (tree_parts (pick sub m D [x])))
     (λ _ _, False) w.
Proof.
  intros Hc Hwf HD [i Hi] Hfit Hgo. destruct (proj2 Hwf _ _ _ Hi) as [Hx _]. assert (spot m D x) as Hs by done.
  unfold pack_entry, symlink_metadata, fs_read, read_link. cbv zeta. rewrite join_plain by done. wp_step.
  eapply (look_spec false m); [done|by apply resolve_spot|unfold stat_op; by rewrite Hi|]. intros w1 Hp1.
  pose proof (packed_calm _ _ _ _ Hc Hp1) as Hc1.
  assert (pick sub m D [x] = match i with
    | IFile mode b => TNode [(x, (executable mode, b))] [] []
    | IDir => TNode [] [] [(x, sub x)]
    | ILink t => TNode [] [(x, t)] []
    end) as Hpk by (unfold pick, pick_file, pick_dir, pick_link; simpl; rewrite Hi; by destruct i).
  rewrite Hpk in *. clear Hpk. destruct i as [mode b| |t]; simpl in Hfit.
  - wp_step. eapply (look_spec true m); [done|apply resolve_spot; [done|intros _ t'; by rewrite Hi]|unfold read_op; by rewrite Hi|].
    intros w2 Hp2. wp_step. pose proof (packed_calm _ _ _ _ Hc1 Hp2) as Hc2.
    apply store_blob; [apply Hc2|apply Hfit, elem_of_cons; by left|]. intros rs w3 Hp3. wp_step.
    split; [unfold extend, push_file; simpl; by rewrite !app_nil_r|].
    eapply packed_sub; [eapply packed_trans; [exact Hp1|eapply packed_trans; [exact Hp2|exact Hp3]]|]. done.
  - wp_step. eapply wp_mono; [by apply Hgo|..]; cbn beta; [|done]. intros d w2 [-> Hp2]. wp_step.
    split; [unfold extend, push_dir; simpl; by rewrite !app_nil_r|].
    eapply packed_sub; [eapply packed_trans; [exact Hp1|exact Hp2]|]. simpl. rewrite app_nil_r. done.
  - wp_step. eapply (look_spec false m); [done|by apply resolve_spot|unfold readlink_op; by rewrite Hi|].
    intros w2 Hp2. wp_step. split; [unfold extend, push_link; simpl; by rewrite !app_nil_r|].
    eapply packed_sub; [eapply packed_trans; [exact Hp1|exact Hp2]|]. done.
Qed.

Lemma pack_entries_spec go sub m D names acc w :
  calm m w → fs_wf m → m !! D = Some IDir → (∀ x, x ∈ names → is_Some (m !! (D ++ [x]))) →
  (∀ b, b ∈ tree_parts (pick sub m D names) → blob_fits b) →
  (∀ x w1, x ∈ names → m !! (D ++ [x]) = Some IDir → calm m w1 →
     wp (go (D ++ [x])) (λ d w', d = tree_root (sub x) ∧ packed w1 w' (tree_blobs (sub x))) (λ _ _, False) w1) →
  wp (pack_entries go D names acc)
     (λ dir w', dir = extend acc (pick sub m D names) ∧ packed w w' (tree_parts (pick sub m D names)))
     (λ _ _, False) w.
Proof.
  revert acc w. induction names as [|x names IH]; intros acc w Hc Hwf HD Hin Hfit Hgo; cbn [pack_entries].
  { wp_step. split; [by rewrite extend_nil|]. apply packed_nil; [apply Hc|done|done|apply disk_refl]. }
  wp_step. eapply wp_mono; [apply (pack_entry_spec go sub m); [done..|set_solver| |]|..]; cbn beta; [..|done].
  - intros b Hb. apply Hfit. rewrite parts_cons. by left.
  - intros w1. apply Hgo. set_solver.
  - intros dir w1 [-> Hp1]. eapply wp_mono; [apply IH; [by eapply packed_calm|done|done|..]|..]; cbn beta; [..|done].
    + intros y Hy. apply Hin. set_solver.
    + intros b Hb. apply Hfit. rewrite parts_cons. by right.
    + intros y w2 Hy. apply Hgo. set_solver.
    + intros dir w2 [-> Hp2]. split; [apply extend_cons|].
      eapply packed_sub; [by eapply packed_trans|]. intros b Hb. apply elem_of_app. by apply parts_cons in Hb.
Qed.

(** [D] and all below it is less than [n] levels deep. *)
Definition depth_below (n : nat) m D : Prop := ∀ r i, m !! (D ++ r) = Some i → (length r < n)%nat.

Lemma depth_below_child n m D x : depth_below (S n) m D → depth_below n m (D ++ [x]).
Proof. intros Hd r i Hi. rewrite <-app_assoc in Hi. apply Hd in Hi. simpl in Hi. lia. Qed.

Lemma sorted_names_elem m D x : x ∈ sorted_names m D ↔ is_Some (m !! (D ++ [x])).
Proof. unfold sorted_names. rewrite merge_sort_Permutation. apply elem_of_child_names. Qed.

Lemma pack_directory_spec n fuel m D w :
  (n ≤ fuel)%nat → calm m w → fs_wf m → m !! D = Some IDir → depth_below n m D →
  (∀ b, b ∈ tree_blobs (snapshot n m D) → blob_fits b) →
  wp (pack_directory fuel D)
     (λ d w', d = tree_root (snapshot n m D) ∧ packed w w' (tree_blobs (snapshot n m D))) (λ _ _, False) w.
Proof.
  revert fuel D w. induction n as [|n IH]; intros fuel D w Hle Hc Hwf HD Hdep Hfit.
  { exfalso. rewrite <-(app_nil_r D) in HD. apply Hdep in HD. simpl in HD. lia. }
  destruct fuel as [|fuel]; [lia|]. cbn [pack_directory snapshot].
  set (sub := λ x, snapshot n m (D ++ [x])) in *. cbn [snapshot] in Hfit. fold sub in Hfit.
  wp_step. eapply wp_mono; [by apply list_dir_spec|..]; cbn beta; [|done]. intros names w1 [-> Hp1].
  pose proof (packed_calm _ _ _ _ Hc Hp1) as Hc1. wp_step.
  eapply wp_mono; [apply (pack_entries_spec _ sub m); [done|done|done|..]|..]; cbn beta; [..|done].
  - intros x Hx. by apply sorted_names_elem.
  - intros b Hb. apply Hfit. by apply elem_of_cons; right.
  - intros x w2 Hx HxD Hc2. apply IH; [lia|done|done|done|by apply depth_below_child|].
    intros b Hb. apply Hfit, elem_of_cons. right. eapply (tree_parts_dir _ _ _ (x, sub x)); [|done].
    apply list_elem_of_omap. exists x. split; [done|]. unfold pick_dir. by rewrite HxD.
  - intros dir w2 [-> Hp2]. pose proof (packed_calm _ _ _ _ Hc1 Hp2) as Hc2. cbv zeta. wp_step.
    assert (extend (mkDirectory [] [] [] []) (pick sub m D (sorted_names m D)) = tree_message (pick sub m D (sorted_names m D)))
      as -> by done.
    apply store_blob; [apply Hc2|apply Hfit, elem_of_cons; by left|]. intros rs w3 Hp3. wp_step. split; [done|].
    eapply packed_sub; [eapply packed_trans; [exact Hp1|eapply packed_trans; [exact Hp2|exact Hp3]]|].
    intros b. unfold tree_blobs. rewrite !elem_of_app, !elem_of_cons. tauto.
Qed.

End pack.

(** ** A packed tree is one to materialize *)

Lemma elem_of_named {A} (f : string → option (string * A)) names x :
  (∀ x y, f x = Some y → y.1 = x) → x ∈ (omap f names).*1 ↔ x ∈ names ∧ is_Some (f x).
Proof.
  intros Hf. rewrite list_elem_of_fmap. split.
  - intros (y & -> & (z & Hz & Hy)%list_elem_of_omap). rewrite (Hf _ _ Hy) in *. eauto.
  - intros [Hx [y Hy]]. exists y. split; [by rewrite (Hf _ _ Hy)|]. apply list_elem_of_omap. eauto.
Qed.

Lemma NoDup_named {A} (f : string → option (string * A)) names :
  (∀ x y, f x = Some y → y.1 = x) → NoDup names → NoDup (omap f names).*1.
Proof.
  intros Hf. induction 1 as [|x names Hx _ IH]; simpl; [constructor|]. destruct (f x) as [y|] eqn:Hy; [|done].
  simpl. apply NoDup_cons. split; [|done]. rewrite (Hf _ _ Hy). rewrite elem_of_named by done. tauto.
Qed.

Lemma pick_file_named m D x y : pick_file m D x = Some y → y.1 = x.
Proof. unfold pick_file. by repeat case_match; intros [= <-]. Qed.
Lemma pick_link_named m D x y : pick_link m D x = Some y → y.1 = x.
Proof. unfold pick_link. by repeat case_match; intros [= <-]. Qed.
Lemma pick_dir_named sub m D x y : pick_dir sub m D x = Some y → y.1 = x.
Proof. unfold pick_dir. by repeat case_match; intros [= <-]. Qed.

#[local] Hint Resolve pick_file_named pick_link_named pick_dir_named : core.

Lemma pick_names sub m D names :
  NoDup names →
  NoDup ((omap (pick_file m D) names).*1 ++ (omap (pick_link m D) names).*1 ++ (omap (pick_dir sub m D) names).*1).
Proof.
  intros Hn. rewrite !NoDup_app. split_and!; [by apply NoDup_named; eauto| |by apply NoDup_named; eauto| |by apply NoDup_named; eauto].
  - intros x. rewrite elem_of_app, !elem_of_named by eauto. unfold pick_file, pick_link, pick_dir.
    intros [_ [y Hy]] [[_ [z Hz]]|[_ [z Hz]]]; by repeat case_match.
  - intros x. rewrite !elem_of_named by eauto. unfold pick_link, pick_dir.
    intros [_ [y Hy]] [_ [z Hz]]; by repeat case_match.
Qed.

(** Nothing else has the hash of [b]. *)
Definition unforged `{Sha256} (b : bytes) : Prop := ∀ b', sha256_hex b' = sha256_hex b → b' = b.

Definition links_ok (m : inodes) : Prop := ∀ p t, m !! p = Some (ILink t) → target_ok t = true.

Section snapshot.
Context `{Sha256Spec, DirCodecSpec}.
Implicit Types (m : inodes) (D : path).

Lemma field_digest_of b : blob_fits b → field_digest (Some (to_pb (Digest_of b))) = Some (Digest_of b).
Proof.
  intros Hb. pose proof (Digest_of_ok b Hb) as Hok. unfold field_digest, to_pb. cbn [pd_hash pd_size_bytes].
  assert (Digest_new (hash (Digest_of b)) (size_bytes (Digest_of b)) = Ok (Digest_of b)) as ->; [|done].
  apply Digest_new_ok; [destruct Hok as (_ & _ & ?); unfold i64_ok; lia|]. split; [by destruct (Digest_of b)|done].
Qed.

Lemma Digest_of_size b : blob_fits b → size_bytes (Digest_of b) = Z.of_nat (length b).
Proof. unfold blob_fits. intros Hb. simpl. unfold as_i64. destruct (N.ltb_spec (N.of_nat (length b)) (2 ^ 63)); lia. Qed.

Lemma snapshot_tree_at (held : Digest → Prop) n m D :
  fs_wf m → links_ok m → m !! D = Some IDir → depth_below n m D →
  (∀ b, b ∈ tree_blobs (snapshot n m D) → blob_fits b ∧ unforged b ∧ held (Digest_of b)) →
  tree_at held n (tree_root (snapshot n m D)) (snapshot n m D).
Proof.
  intros Hwf Hlk. revert D. induction n as [|n IH]; intros D HD Hdep Hb.
  { rewrite <-(app_nil_r D) in HD. apply Hdep in HD. simpl in HD. lia. }
  cbn [snapshot] in *. set (sub := λ x, snapshot n m (D ++ [x])) in *. set (names := sorted_names m D) in *.
  destruct (Hb (tree_blob (pick sub m D names))) as (_ & Hun & Hheld); [by apply elem_of_cons; left|].
  assert (∀ x, x ∈ names → plain x) as Hpl.
  { intros x Hx. apply sorted_names_elem in Hx as [i Hi]. by destruct (proj2 Hwf _ _ _ Hi). }
  unfold pick at 2. cbn [tree_at]. split; [done|]. split.
  { apply pick_names. unfold names, sorted_names. rewrite merge_sort_Permutation. apply NoDup_child_names. }
  split.
  { apply Forall_forall. intros x. rewrite !elem_of_app, !elem_of_named by eauto. intros [?|[?|?]]; apply Hpl; tauto. }
  exists (tree_message (pick sub m D names)). split; [|unfold pick; cbn [tree_message files symlinks directories]; split_and!].
  - intros b' Hb'. rewrite (Hun b' Hb'). apply dec_enc_dir.
  - apply Forall2_fmap_l, Forall_Forall2_diag, Forall_forall. intros f Hf.
    destruct (Hb f.2.2) as (Hfit & Hunf & Hh); [apply elem_of_cons; right; by apply tree_parts_file|].
    unfold file_at. cbn [fn_name is_executable fn_digest]. split; [done|]. split; [done|]. exists (Digest_of f.2.2).
    split; [by apply field_digest_of|]. split; [done|]. split; [by apply Digest_of_size|]. intros b' Hb'. by apply Hunf.
  - apply Forall2_fmap_l, Forall_Forall2_diag, Forall_forall. intros l (x & _ & Hl)%list_elem_of_omap.
    unfold link_at, pick_link in *. cbn [sn_name sn_target]. repeat case_match; try done. injection Hl as <-.
    split_and!; [done|done|]. by eapply Hlk.
  - apply Forall2_fmap_l, Forall_Forall2_diag, Forall_forall. intros y Hy. pose proof Hy as (x & Hx & Hyx)%list_elem_of_omap.
    cbn [dn_name dn_digest]. split; [done|]. exists (tree_root y.2). split.
    { apply field_digest_of. apply Hb, elem_of_cons. right. eapply tree_parts_dir; [done|]. by apply elem_of_cons; left. }
    unfold pick_dir in Hyx. destruct (m !! (D ++ [x])) as [[]|] eqn:Hmx; try done. injection Hyx as <-. simpl.
    apply IH; [done|by apply depth_below_child|]. intros b Hbx. apply Hb, elem_of_cons. right.
    by eapply (tree_parts_dir _ _ _ (x, sub x)).
Qed.

End snapshot.

(** ** What comes back *)

(** What is kept of an entry: all but the mode bits beyond execution. *)
Definition kept_inode (umask : N) (i : inode) : inode :=
  match i with
  | IFile mode b => IFile (if executable mode then 493 else N.ldiff 438 umask) b
  | _ => i
  end.

Lemma place_lookup es m p i : (p, i) ∈ es → (∀ j, (p, j) ∈ es → j = i) → place es m !! p = Some i.
Proof.
  revert m. induction es as [|[q j] es IH] using rev_ind; intros m Hin Hu; [by apply not_elem_of_nil in Hin|].
  rewrite place_app. simpl. destruct (decide (q = p)) as [->|Hq].
  - rewrite lookup_insert_eq. f_equal. apply Hu. set_solver.
  - rewrite lookup_insert_ne by done. apply IH; [|set_solver].
    apply elem_of_app in Hin as [?|[= <- <-]%list_elem_of_singleton]; done.
Qed.

Lemma entries_snapshot um n m (S T p : path) i :
  fs_wf m → m !! S = Some IDir → depth_below n m S →
  (p, i) ∈ entries um T (snapshot n m S) ↔
  ∃ r j, r ≠ [] ∧ p = T ++ r ∧ m !! (S ++ r) = Some j ∧ i = kept_inode um j.
Proof.
  intros Hwf. revert S T. induction n as [|n IH]; intros S T HS Hdep.
  { rewrite <-(app_nil_r S) in HS. apply Hdep in HS. simpl in HS. lia. }
  cbn [snapshot]. unfold pick. cbn [entries]. rewrite !elem_of_app. split.
  - intros [Hin|[Hin|Hin]].
    + apply list_elem_of_fmap in Hin as (f & [= -> ->] & (x & _ & Hf)%list_elem_of_omap).
      unfold pick_file in Hf. destruct (m !! (S ++ [x])) as [[]|] eqn:Hx; try done. injection Hf as <-. by exists [x]; eauto.
    + apply list_elem_of_fmap in Hin as (f & [= -> ->] & (x & _ & Hf)%list_elem_of_omap).
      unfold pick_link in Hf. destruct (m !! (S ++ [x])) as [[]|] eqn:Hx; try done. injection Hf as <-. by exists [x]; eauto.
    + apply list_elem_of_In, in_flat_map in Hin as (y & (x & _ & Hf)%list_elem_of_In%list_elem_of_omap & Hin).
      unfold pick_dir in Hf. destruct (m !! (S ++ [x])) as [[]|] eqn:Hx; try done. injection Hf as <-. cbn [fst snd] in Hin.
      destruct Hin as [[= <- <-]|Hin%list_elem_of_In]; [by exists [x]; eauto|].
      apply IH in Hin as (r & j & Hr & -> & Hj & ->); [|done|by apply depth_below_child].
      exists (x :: r), j. rewrite <-!app_assoc in *. done.
  - intros (r & j & Hr & -> & Hj & ->). destruct r as [|x r]; [done|].
    assert (is_Some (m !! (S ++ [x]))) as Hx.
    { destruct (decide (r = [])) as [->|Hr']; [by eauto|]. exists IDir. eapply (fs_wf_prefix m (S ++ [x]) r); [done| |done].
      rewrite <-app_assoc. exact Hj. }
    assert (x ∈ sorted_names m S) as Hin by by apply sorted_names_elem.
    destruct (decide (r = [])) as [->|Hr'].
    + destruct j as [mode b| |t].
      * left. apply list_elem_of_fmap. exists (x, (executable mode, b)). split; [done|]. apply list_elem_of_omap.
        exists x. unfold pick_file. by rewrite Hj.
      * right; right. apply list_elem_of_In, in_flat_map. exists (x, snapshot n m (S ++ [x])). split; [|by left].
        apply list_elem_of_In, list_elem_of_omap. exists x. unfold pick_dir. by rewrite Hj.
      * right; left. apply list_elem_of_fmap. exists (x, t). split; [done|]. apply list_elem_of_omap.
        exists x. unfold pick_link. by rewrite Hj.
    + assert (m !! (S ++ [x]) = Some IDir) as Hd.
      { eapply (fs_wf_prefix m (S ++ [x]) r); [done| |done]. rewrite <-app_assoc. exact Hj. }
      right; right. apply list_elem_of_In, in_flat_map. exists (x, snapshot n m (S ++ [x])). split.
      { apply list_elem_of_In, list_elem_of_omap. exists x. unfold pick_dir. by rewrite Hd. }
      right. apply list_elem_of_In, IH; [done|by apply depth_below_child|]. exists r, j. rewrite <-!app_assoc. done.
Qed.

Lemma place_mirror um n m m0 (S T r : path) :
  fs_wf m → m !! S = Some IDir → depth_below n m S → r ≠ [] → m0 !! (T ++ r) = None →
  place (entries um T (snapshot n m S)) m0 !! (T ++ r) = kept_inode um <$> m !! (S ++ r).
Proof.
  intros Hwf HS Hdep Hr H0. destruct (m !! (S ++ r)) as [j|] eqn:Hj; simpl.
  - apply place_lookup.
    + apply entries_snapshot; [done..|]. by exists r, j.
    + intros i (r' & j' & _ & ->%app_inv_head & Hj' & ->)%entries_snapshot; [|done..]. congruence.
  - rewrite place_outside; [done|]. intros i (r' & j' & _ & ->%app_inv_head & Hj' & _)%entries_snapshot; [|done..]. congruence.
Qed.
