(* ===== verification/TreeTheorems.v ===== *)
(** * brokkr-cas: what materializing an input tree guarantees

    Where a walk can write, what it writes, and that packing and materializing a
    directory gives it back; and a tree of valid names that leads a walk outside
    its target. *)

From stdpp Require Import prelude gmap strings sorting.
From Stdlib Require Import Lia Strings.Ascii Strings.Byte.
From S2P Require Import Prelude Machine Bytes Common Redb Cas CasBackends ActionCache Fs Tree TreeSpec TreeExact TreePack.

Local Open Scope N_scope.

(** ** Concrete messages, blobs and disks *)

Definition tree_pbd (d : pb_Digest) : string * Z := (pd_hash d, pd_size_bytes d).
Definition pbd_tree (t : string * Z) : pb_Digest := mkpbDigest t.1 t.2.

Definition dir_tuple (d : Directory) :=
  ((λ f, (fn_name f, tree_pbd <$> fn_digest f, is_executable f, fn_other f)) <$> files d,
   (λ c, (dn_name c, tree_pbd <$> dn_digest c)) <$> directories d,
   (λ l, (sn_name l, sn_target l, sn_other l)) <$> symlinks d, dir_other d).

Definition tuple_dir (t : list (string * option (string * Z) * bool * bytes)
    * list (string * option (string * Z)) * list (string * string * bytes) * bytes) : Directory :=
  let '(fs, ds, ls, other) := t in
  mkDirectory ((λ f, mkFileNode f.1.1.1 (pbd_tree <$> f.1.1.2) f.1.2 f.2) <$> fs)
    ((λ c, mkDirectoryNode c.1 (pbd_tree <$> c.2)) <$> ds)
    ((λ l, mkSymlinkNode l.1.1 l.1.2 l.2) <$> ls) other.

Lemma pbd_tree_pbd (o : option pb_Digest) : pbd_tree <$> (tree_pbd <$> o) = o.
Proof. by destruct o as [[]|]. Qed.

Lemma fmap_inverse {A B} (f : A → B) (g : B → A) (l : list A) : (∀ x, g (f x) = x) → g <$> (f <$> l) = l.
Proof. intros Hgf. induction l as [|x l IH]; [done|]. simpl. f_equal; [apply Hgf|exact IH]. Qed.

Lemma tuple_dir_tuple d : tuple_dir (dir_tuple d) = d.
Proof.
  destruct d as [fs ds ls other]. unfold tuple_dir, dir_tuple; simpl. f_equal; apply fmap_inverse.
  - intros [n d x o]; simpl. by rewrite pbd_tree_pbd.
  - intros [n d]; simpl. by rewrite pbd_tree_pbd.
  - by intros [].
Qed.

#[local] Instance tree_err_text : ErrText := {| digest_error_text _ := "digest"; cas_error_text _ := "cas" |}.
#[local] Instance tree_text : TreeText := {|
  debug_digest _ := "digest"; debug_str x := x; io_error_text _ := "io"
|}.

(** A hash of the right shape that tells a few blobs apart. *)
Definition hex_of (c : ascii) : string := String c "000000000000000000000000000000000000000000000000000000000000000".

Definition tool : bytes := [x23; x21].
Definition bin_blob : bytes := [x01].
Definition good_blob : bytes := [x02].
Definition evil_blob : bytes := [x03].

#[local] Instance tree_sha : Sha256 := λ b,
  if decide (b = tool) then hex_of "1"
  else if decide (b = bin_blob) then hex_of "2"
  else if decide (b = good_blob) then hex_of "3"
  else if decide (b = evil_blob) then hex_of "4"
  else hex_of "0".

#[local] Instance tree_sha_spec : Sha256Spec.
Proof.
  intros b. unfold sha256_hex, tree_sha.
  destruct (decide _) as [_|_]; [|destruct (decide _) as [_|_]; [|destruct (decide _) as [_|_]; [|destruct (decide _) as [_|_]]]];
    split; vm_compute; reflexivity.
Qed.

(** A directory with a tool in it; one with that and a link to the tool; one with
    a link and a directory of the same name. *)
Definition bin_dir : Directory := mkDirectory [mkFileNode "tool" (Some (to_pb (Digest_of tool))) true []] [] [] [].
Definition good_dir : Directory :=
  mkDirectory [] [mkDirectoryNode "bin" (Some (to_pb (Digest_of bin_blob)))] [mkSymlinkNode "run" "bin/tool" []] [].
Definition evil_dir : Directory :=
  mkDirectory [] [mkDirectoryNode "bin" (Some (to_pb (Digest_of bin_blob)))] [mkSymlinkNode "bin" "/etc" []] [].

(** A codec that is short on these. *)
#[local] Instance tree_codec : DirCodec := {|
  enc_dir d := let t := dir_tuple d in
    if decide (t = dir_tuple bin_dir) then bin_blob
    else if decide (t = dir_tuple good_dir) then good_blob
    else if decide (t = dir_tuple evil_dir) then evil_blob
    else xff :: pos_to_bytes (encode t);
  dec_dir b := match b with
    | [x01] => inr bin_dir | [x02] => inr good_dir | [x03] => inr evil_dir
    | xff :: b => match decode (bytes_to_pos b) with
                  | Some t => inr (tuple_dir t) | None => inl "malformed directory" end
    | _ => inl "malformed directory"
    end
|}.

Lemma dir_tuple_inj d d' : dir_tuple d = dir_tuple d' → d' = d.
Proof. intros Ht. by rewrite <-(tuple_dir_tuple d), <-(tuple_dir_tuple d'), Ht. Qed.

#[local] Instance tree_codec_spec : DirCodecSpec.
Proof.
  intros d. unfold enc_dir, tree_codec. cbv zeta.
  destruct (decide _) as [<-%dir_tuple_inj|_]; [done|]. destruct (decide _) as [<-%dir_tuple_inj|_]; [done|].
  destruct (decide _) as [<-%dir_tuple_inj|_]; [done|]. cbn [dec_dir].
  rewrite bytes_to_pos_to_bytes, decode_encode. by rewrite tuple_dir_tuple.
Qed.

Definition good_root : Digest := Digest_of good_blob.
Definition evil_root : Digest := Digest_of evil_blob.

Definition tree_store : InMemoryCas :=
  mkInMemoryCas (list_to_map ((λ b, (Digest_of b, b)) <$> [tool; bin_blob; good_blob; evil_blob])).

(** A system directory and an empty work directory. *)
Definition host : Fs := mkFs (list_to_map [([], IDir); (["etc"], IDir); (["work"], IDir);
  (["etc"; "tool"], IFile 420 [x6f; x6b])]) 18 [].

Lemma host_wf : fs_wf (fs_nodes host).
Proof. apply fs_wf_by; vm_compute; reflexivity. Qed.

Lemma tree_store_ok : cas_ok tree_store.
Proof.
  intros d b Hd. apply elem_of_list_to_map_2 in Hd. rewrite list_elem_of_fmap in Hd.
  destruct Hd as (b' & [= -> ->] & Hb). rewrite !elem_of_cons, elem_of_nil in Hb.
  destruct Hb as [->|[->|[->|[->|[]]]]]; vm_compute; done.
Qed.

(** Only the listed blobs have their hashes. *)
Lemma tree_sha_inv b b' : b ∈ [tool; bin_blob; good_blob; evil_blob] → sha256_hex b' = sha256_hex b → b' = b.
Proof.
  intros Hb. rewrite !elem_of_cons, elem_of_nil in Hb. unfold sha256_hex, tree_sha at 1.
  destruct Hb as [->|[->|[->|[->|[]]]]];
    (destruct (decide (b' = tool)) as [->|_]; [vm_compute; done|]);
    (destruct (decide (b' = bin_blob)) as [->|_]; [vm_compute; done|]);
    (destruct (decide (b' = good_blob)) as [->|_]; [vm_compute; done|]);
    (destruct (decide (b' = evil_blob)) as [->|_]; [vm_compute; done|]); vm_compute; done.
Qed.

(** ** Where a walk can write *)

(** C22.  A walk stays in its target: over a tree in which no two directories of
    a message, and no directory and link, share a name, [materialize_tree]
    returns and changes nothing outside the target directory, whatever else the
    messages hold, whichever links they plant, and however the walk ends.  The
    target is free of links to begin with. *)
Theorem materialize_contained {C} `{CasSpec C, ErrText, DirCodec, TreeText} n fuel root (D : path) (c : C) (s : Fs) :
  (n ≤ fuel)%nat → well_named n root →
  cas_ok c → fs_wf (fs_nodes s) → fs_nodes s !! D = Some IDir → linkfree D (fs_nodes s) →
  wp (materialize_tree fuel root D)
     (λ _ s', ∀ p, ¬ inside D p → fs_nodes s'.2 !! p = fs_nodes s !! p)
     (λ _ s', ∀ p, ¬ inside D p → fs_nodes s'.2 !! p = fs_nodes s !! p) (c, s).
Proof.
  intros Hle Hwn Hok Hwf HD Hlf.
  pose proof (materialize_confined n fuel root D (mkWalk c s stats_zero) Hle Hwn Hok Hwf HD Hlf) as Hw.
  unfold wp, materialize_tree in *. simpl.
  destruct (materialize_directory fuel root D _) as [w' [[]|e|]]; simpl; [|..|done]; by destruct Hw as (_ & _ & Hc).
Qed.

Lemma good_well_named : well_named 2 good_root.
Proof.
  intros b dir Hb%tree_sha_inv; [|set_solver]. subst b. vm_compute (dec_dir _). intros [= <-]. split.
  - split; [by_vm|]. apply Forall_forall. by_vm.
  - intros child cd Hc. apply list_elem_of_singleton in Hc as ->. vm_compute (field_digest _). intros [= <-].
    intros b dir Hb. assert (b = bin_blob) as -> by (apply tree_sha_inv; [set_solver|exact Hb]).
    vm_compute (dec_dir _). intros [= <-]. split; [split; [by_vm|apply Forall_forall; by_vm]|]. intros child cd []%not_elem_of_nil.
Qed.

Lemma materialize_contained_witness :
  (λ s : InMemoryCas * Fs, fs_nodes s.2 !! ["etc"; "tool"]) (materialize_tree 2 good_root ["work"] (tree_store, host)).1
  = fs_nodes host !! ["etc"; "tool"].
Proof.
  assert (¬ inside ["work"] ["etc"; "tool"]) as Hout by (intros [c [r [=]]]).
  refine (wp_returned _ _ _ _ (mkStats 1 1 1 (u64_wrap 2))
    (materialize_contained 2 2 good_root ["work"] tree_store host (le_n _) good_well_named tree_store_ok host_wf eq_refl _) _ _ Hout).
  - intros p _. apply no_links_by. vm_compute. reflexivity.
  - vm_compute. reflexivity.
Defined.

(** The check of node names does not keep a walk in its target: a message
    with a link and a directory of the same, valid, name makes [create_dir_all]
    follow the link it planted, and the walk succeeds having overwritten a file
    outside. *)
Theorem materialize_escapes :
  (∀ node, node ∈ directories evil_dir → validate_node_name (dn_name node) = None) ∧
  (∀ node, node ∈ symlinks evil_dir → validate_node_name (sn_name node) = None) ∧
  dec_dir evil_blob = inr evil_dir ∧
  cas_ok tree_store ∧ fs_wf (fs_nodes host) ∧ linkfree ["work"] (fs_nodes host) ∧
  is_Some (returned (materialize_tree 2 evil_root ["work"] (tree_store, host))) ∧
  fs_nodes host !! ["etc"; "tool"] = Some (IFile 420 [x6f; x6b]) ∧
  fs_nodes (materialize_tree 2 evil_root ["work"] (tree_store, host)).1.2 !! ["etc"; "tool"] = Some (IFile 493 tool) ∧ ¬ inside ["work"] ["etc"; "tool"].
Proof.
  split; [apply Forall_forall; by_vm|]. split; [apply Forall_forall; by_vm|]. split; [done|].
  split; [exact tree_store_ok|]. split; [exact host_wf|].
  split; [intros p _; apply no_links_by; vm_compute; reflexivity|].
  split; [apply is_Some_by; vm_compute; reflexivity|]. split; [vm_compute; reflexivity|].
  split; [vm_compute; reflexivity|]. intros [c [r [=]]].
Qed.

(** ** What a walk writes *)

(** Materializing a tree of plain, distinct names into an empty directory
    writes exactly the tree: afterwards the disk is the disk before with the
    entries of the tree placed under the target, file contents, execute bits and
    link targets included, and the counters count them. *)
Theorem materialize_tree_correct {C} `{CasSpec C, ErrText, DirCodec, TreeText, !ReliableCas C}
    n fuel root t (D : path) (c : C) (s : Fs) :
  (n ≤ fuel)%nat → tree_at (λ d, cas_has c d = true) n root t →
  cas_ok c → fs_wf (fs_nodes s) → fs_nodes s !! D = Some IDir → fs_faults s = [] →
  (∀ p, inside D p → fs_nodes s !! p = None) →
  wp (materialize_tree fuel root D)
     (λ st s', fs_nodes s'.2 = place (entries (fs_umask s) D t) (fs_nodes s) ∧ st = tree_stats t stats_zero)
     (λ _ _, False) (c, s).
Proof.
  intros Hle Ht Hok. by apply (materialize_tree_exact (λ d, cas_has c d = true) n).
Qed.

Definition good_tree : Tree := TNode [] [("run", "bin/tool")] [("bin", TNode [("tool", (true, tool))] [] [])].

Lemma good_tree_at : tree_at (λ d, cas_has tree_store d = true) 2 good_root good_tree.
Proof.
  cbn [tree_at good_tree]. split; [vm_compute; reflexivity|]. split; [by_vm|]. split; [by_vm|].
  exists good_dir. split; [intros b Hb%tree_sha_inv; [by subst|set_solver]|].
  split; [constructor|]. split; [repeat constructor|]. constructor; [|constructor]. split; [done|].
  exists (Digest_of bin_blob). split; [vm_compute; reflexivity|].
  split; [vm_compute; reflexivity|]. split; [by_vm|]. split; [by_vm|].
  exists bin_dir. split; [intros b Hb%tree_sha_inv; [by subst|set_solver]|]. split; [|split; constructor].
  constructor; [|constructor]. split; [done|]. split; [done|]. exists (Digest_of tool).
  split; [vm_compute; reflexivity|]. split; [vm_compute; reflexivity|]. split; [vm_compute; reflexivity|].
  intros b Hb. apply tree_sha_inv; [set_solver|exact Hb].
Qed.

Lemma host_work_empty p : inside ["work"] p → fs_nodes host !! p = None.
Proof.
  intros [c [r ->]]. apply not_elem_of_list_to_map. rewrite !fmap_cons, fmap_nil.
  intros Hin. rewrite !elem_of_cons, elem_of_nil in Hin. naive_solver.
Qed.

Lemma materialize_tree_correct_witness :
  returned (materialize_tree 2 good_root ["work"] (tree_store, host)) = Some (mkStats 1 1 1 (u64_wrap 2)) ∧
  mkStats 1 1 1 (u64_wrap 2) = tree_stats good_tree stats_zero.
Proof.
  split; [vm_compute; reflexivity|].
  refine (proj2 (wp_returned _ _ _ _ (mkStats 1 1 1 (u64_wrap 2)) (materialize_tree_correct 2 2 good_root good_tree ["work"]
    tree_store host (le_n _) good_tree_at tree_store_ok host_wf eq_refl eq_refl host_work_empty) _)).
  vm_compute. reflexivity.
Defined.

(** C23.  Packing a directory into a store and materializing the result into an
    empty directory gives the directory back: every file, directory and link of
    the source is at the same place under the target, with its contents and its
    execute bit, and nothing else is; outside the target nothing has changed.
    The blobs of the tree are assumed to share their hashes with no others. *)
Theorem pack_materialize_roundtrip
    {C} `{CasSpec C, !Sha256Spec, ErrText, DirCodec, !DirCodecSpec, TreeText, !ReliableCas C}
    n fuel (src dst : path) (c : C) (s : Fs) :
  (n ≤ fuel)%nat → cas_ok c → fs_wf (fs_nodes s) → links_ok (fs_nodes s) → fs_faults s = [] →
  fs_nodes s !! src = Some IDir → depth_below n (fs_nodes s) src →
  fs_nodes s !! dst = Some IDir → (∀ p, inside dst p → fs_nodes s !! p = None) →
  (∀ b, b ∈ tree_blobs (snapshot n (fs_nodes s) src) → blob_fits b ∧ unforged b) →
  wp (root ← build_tree_into fuel src; materialize_tree fuel root dst)
     (λ _ s', (∀ r, r ≠ [] → fs_nodes s'.2 !! (dst ++ r) = kept_inode (fs_umask s) <$> fs_nodes s !! (src ++ r)) ∧
              ∀ p, ¬ inside dst p → fs_nodes s'.2 !! p = fs_nodes s !! p)
     (λ _ _, False) (c, s).
Proof.
  intros Hle Hok Hwf Hlk Hf Hsrc Hdep Hdst He Hb. set (t := snapshot n (fs_nodes s) src) in *.
  wp_step. pose proof (pack_directory_spec n fuel (fs_nodes s) src (mkWalk c s stats_zero) Hle
    ltac:(done) Hwf Hsrc Hdep ltac:(intros b Hin; by apply Hb)) as Hp.
  unfold wp at 1, build_tree_into. unfold wp at 1 in Hp. simpl fst. simpl snd.
  destruct (pack_directory fuel src _) as [w1 [root|e|]]; [|done..]. destruct Hp as [-> (Hok1 & (Hn & Hu & Hf1) & Hst & Hk & Hh)].
  simpl in *. fold t in Hh.
  assert (tree_at (λ d, cas_has (wk_cas w1) d = true) n (tree_root t) t) as Ht.
  { apply snapshot_tree_at; [done..|]. intros b Hin. destruct (Hb b Hin). split_and!; [done|done|by apply Hh]. }
  assert (fine (λ d, cas_has (wk_cas w1) d = true) dst [] (mkWalk (wk_cas w1) (wk_fs w1) stats_zero)) as Hfine.
  { split_and!; simpl; rewrite ?Hn; [done|done|done|done|by auto|]. intros p Hp Hs. rewrite He in Hs by done. by apply is_Some_None in Hs. }
  pose proof (materialize_exact _ n fuel (tree_root t) t dst _ Hle Ht Hfine) as Hw.
  unfold wp, materialize_tree in *. simpl in *.
  destruct (materialize_directory fuel _ dst _) as [w2 [[]|e|]]; simpl; [|done..]. destruct Hw as ([_ [-> _]] & _ & _).
  simpl. rewrite Hn, Hu. split.
  - intros r Hr. apply place_mirror; [done..|]. apply He. destruct r as [|x r]; [done|]. exists x. exists r. by rewrite <-app_assoc.
  - intros p Hp. apply place_outside. intros i Hin. apply Hp. by eapply entries_inside.
Qed.

(** A host with the good tree already on disk, under other mode bits. *)
Definition stocked : Fs := mkFs (list_to_map [([], IDir); (["src"], IDir); (["src"; "bin"], IDir);
  (["src"; "bin"; "tool"], IFile 448 tool); (["src"; "run"], ILink "bin/tool"); (["work"], IDir)]) 18 [].

Lemma stocked_work_empty p : inside ["work"] p → fs_nodes stocked !! p = None.
Proof.
  intros [c [r ->]]. apply not_elem_of_list_to_map. rewrite !fmap_cons, fmap_nil.
  intros Hin. rewrite !elem_of_cons, elem_of_nil in Hin. naive_solver.
Qed.

Lemma stocked_links : links_ok (fs_nodes stocked).
Proof.
  intros p t Ht. apply elem_of_list_to_map_2 in Ht. rewrite !elem_of_cons, elem_of_nil in Ht.
  assert (t = "bin/tool") as -> by naive_solver. vm_compute. reflexivity.
Qed.

Lemma stocked_depth : depth_below 3 (fs_nodes stocked) ["src"].
Proof.
  intros r i Hi. apply elem_of_list_to_map_2 in Hi. rewrite !elem_of_cons, elem_of_nil in Hi. naive_solver (simpl; lia).
Qed.

Lemma stocked_blobs b : b ∈ tree_blobs (snapshot 3 (fs_nodes stocked) ["src"]) → blob_fits b ∧ unforged b.
Proof.
  assert (tree_blobs (snapshot 3 (fs_nodes stocked) ["src"]) = [good_blob; bin_blob; tool]) as -> by (vm_compute; reflexivity).
  intros Hb. assert (b ∈ [tool; bin_blob; good_blob; evil_blob]) as Hb' by set_solver. split.
  - rewrite !elem_of_cons, elem_of_nil in Hb. destruct Hb as [->|[->|[->|[]]]]; vm_compute; reflexivity.
  - intros b'. by apply tree_sha_inv.
Qed.

Lemma pack_materialize_roundtrip_witness :
  (λ s' : InMemoryCas * Fs, fs_nodes s'.2 !! ["work"; "bin"; "tool"])
    ((root ← build_tree_into 3 ["src"]; materialize_tree 3 root ["work"]) (InMemoryCas_new, stocked)).1
  = Some (IFile 493 tool).
Proof.
  refine (eq_trans (proj1 (wp_returned _ _ _ _ (mkStats 1 1 1 (u64_wrap 2))
    (pack_materialize_roundtrip 3 3 ["src"] ["work"] InMemoryCas_new stocked (le_n _) _ _ stocked_links eq_refl eq_refl
       stocked_depth eq_refl stocked_work_empty stocked_blobs) _) ["bin"; "tool"] _) _).
  - intros d b. simpl. by rewrite lookup_empty.
  - apply fs_wf_by; vm_compute; reflexivity.
  - vm_compute. reflexivity.
  - discriminate.
  - vm_compute. reflexivity.
Defined.
