(* ===== verification/Fuse.v ===== *)
(** * brokkr-worker: input trees as a mounted file system

    Models [crates/brokkr-worker/src/fuse/inode.rs] and [mount.rs]: the table of
    inodes built from a Merkle tree of [Directory] messages, and the callbacks
    that serve the kernel from it.  fuser's reply objects are the values they are
    given; whether a directory reply has room for one more entry is a parameter.
    A file's content is mapped from a cache file on the first read: a slot holds
    where the mapping is and how long it is, and a read sees whatever the cache
    file holds by then.  The recursion depth of the walk is its fuel. *)

From stdpp Require Import prelude gmap strings sorting pretty.
From Stdlib Require Import Lia Strings.Ascii.
From S2P Require Import Prelude Machine Bytes Common Redb Cas CasBackends ActionCache Fs Tree.

Local Open Scope N_scope.

(** ** The inode table *)

Definition ROOT_INO : N := 1.

Inductive InodeKind : Type :=
| KDir (entries : gmap string N)
| KFile (digest : Digest) (size : N) (exec : bool)
| KLink (target : string).

Record Inode : Type := mkInode { ino : N; kind : InodeKind }.

Definition InodeTable : Type := list Inode.

Definition root_ino (_ : InodeTable) : N := ROOT_INO.

Definition table_get (t : InodeTable) (i : N) : option Inode :=
  if i =? 0 then None else t !! N.to_nat (i - 1).

Definition table_lookup (t : InodeTable) (parent : N) (name : string) : option N :=
  n ← table_get t parent;
  match kind n with KDir entries => entries !! name | _ => None end.

(** The order of a [HashMap]'s iteration is unspecified; this is one. *)
Definition children (t : InodeTable) (dir : N) : option (list (string * N)) :=
  n ← table_get t dir;
  match kind n with KDir entries => Some (map_to_list entries) | _ => None end.

(** [std::path::Component]. *)
Inductive Component : Type := RootDir | CurDir | ParentDir | Prefix | Normal (name : string).

Fixpoint resolve_from (t : InodeTable) (i : N) (p : list Component) : option N :=
  match p with
  | [] => Some i
  | (RootDir | CurDir) :: p => resolve_from t i p
  | Normal name :: p => i ← table_lookup t i name; resolve_from t i p
  | (ParentDir | Prefix) :: _ => None
  end.

Definition resolve_path (t : InodeTable) (p : list Component) : option N := resolve_from t (root_ino t) p.

(** The check of names, duplicated from [tree.rs]. *)
Definition check_entry_name (name : string) : option string :=
  if String.eqb name "" then Some "empty"
  else if String.eqb name "." || String.eqb name ".." then Some "dot or dotdot"
  else if has_char "/"%char name then Some "contains '/'"
  else if has_char "000"%char name then Some "contains NUL"
  else None.

(** The store read from, and the table so far. *)
Record Build (C : Type) : Type := mkBuild { bd_cas : C; bd_inodes : InodeTable }.
Arguments mkBuild {C}.
Arguments bd_cas {C}.
Arguments bd_inodes {C}.

Section build.
Context {C : Type} `{Cas C, Sha256, ErrText, DirCodec, TreeText}.

Notation M := (eff (Build C) CasError).

Definition build_cas {A} (m : eff C CasError A) : M A :=
  zoom bd_cas (λ c b, mkBuild c (bd_inodes b)) m.

Definition reject_name (what name : string) : M () :=
  match check_entry_name name with
  | Some reason => throw (CasOther (what +:+ " " +:+ debug_str name +:+ ": invalid name (" +:+ reason +:+ ")"))
  | None => mret ()
  end.

Definition push (k : InodeKind) : M N :=
  t ← gets bd_inodes;
  let i := N.of_nat (length t) + 1 in
  modify (λ b, mkBuild (bd_cas b) (t ++ [mkInode i k]));;
  mret i.

Definition link_child (parent : N) (name : string) (child : N) : M () :=
  t ← gets bd_inodes;
  let idx := N.to_nat (parent - 1) in
  match t !! idx with
  | None => throw (CasOther ("parent inode " +:+ pretty parent +:+ " not allocated"))
  | Some p =>
      match kind p with
      | KDir entries =>
          modify (λ b, mkBuild (bd_cas b) (<[idx := mkInode (ino p) (KDir (<[name := child]> entries))]> t));;
          match entries !! name with
          | Some _ => throw (CasOther ("duplicate entry " +:+ debug_str name +:+ " in inode " +:+ pretty parent))
          | None => mret ()
          end
      | _ => throw (CasOther ("parent inode " +:+ pretty parent +:+ " is not a directory"))
      end
  end.

Definition decode_digest (o : option pb_Digest) (name what : string) : M Digest :=
  match o with
  | Some d =>
      of_outcome match Digest_new (pd_hash d) (pd_size_bytes d) with
                 | Ok d => Ok d
                 | Err e => Err (CasOther ("invalid " +:+ what +:+ " digest " +:+ name +:+ ": " +:+ digest_error_text e))
                 | Halt => Halt
                 end
  | None => throw (CasOther (what +:+ " " +:+ debug_str name +:+ " missing digest"))
  end.

Definition read_directory (d : Digest) : eff C CasError Directory :=
  results ← batch_read_blobs [d];
  b ← match last results with
      | Some r => of_outcome r
      | None => throw (CasNotFound d)
      end;
  match dec_dir b with
  | inr dir => mret dir
  | inl e => throw (CasOther ("Directory decode for " +:+ debug_digest d +:+ ": " +:+ e))
  end.

(** One node of each kind: the bodies of the three loops of [build_dir]. *)
Definition add_file (parent : N) (node : FileNode) : M () :=
  reject_name "FileNode" (fn_name node);;
  d ← decode_digest (fn_digest node) (fn_name node) "FileNode";
  (if (size_bytes d <? 0)%Z then
     throw (CasOther ("FileNode " +:+ debug_str (fn_name node) +:+ ": negative or oversize digest size "
       +:+ pretty (size_bytes d)))
   else
     child ← push (KFile d (Z.to_N (size_bytes d)) (is_executable node));
     link_child parent (fn_name node) child).

Definition add_symlink (parent : N) (node : SymlinkNode) : M () :=
  reject_name "SymlinkNode" (sn_name node);;
  child ← push (KLink (sn_target node));
  link_child parent (sn_name node) child.

Definition add_directory (go : Digest → N → M ()) (parent : N) (node : DirectoryNode) : M () :=
  reject_name "DirectoryNode" (dn_name node);;
  d ← decode_digest (dn_digest node) (dn_name node) "DirectoryNode";
  child ← push (KDir ∅);
  link_child parent (dn_name node) child;;
  go d child.

Fixpoint build_dir (fuel : nat) (d : Digest) (parent : N) : M () :=
  match fuel with
  | O => halt
  | S fuel =>
      directory ← build_cas (read_directory d);
      each (add_file parent) (files directory);;
      each (add_symlink parent) (symlinks directory);;
      each (add_directory (build_dir fuel) parent) (directories directory)
  end.

(** [InodeTable::build]; the table of a failed walk is dropped with it. *)
Definition build_table (fuel : nat) (root : Digest) : eff C CasError InodeTable := λ c,
  let '(b, r) := build_dir fuel root ROOT_INO (mkBuild c [mkInode ROOT_INO (KDir ∅)]) in
  (bd_cas b, match r with Ok _ => Ok (bd_inodes b) | Err e => Err e | Halt => Halt end).

End build.

(** ** Serving the kernel *)

Inductive FileType : Type := TDirectory | TRegularFile | TSymlink.

Inductive Errno : Type := ENOENT | ENOTDIR | EISDIR | EINVAL | EIO.

(** The attributes that depend on the entry; times, owner and device are the
    same for all of them. *)
Record FileAttr : Type := mkFileAttr {
  fa_ino : N;
  fa_size : N;
  fa_blocks : N;
  fa_kind : FileType;
  fa_perm : N;
  fa_nlink : N
}.

Definition file_type_of (n : Inode) : FileType :=
  match kind n with KDir _ => TDirectory | KFile _ _ _ => TRegularFile | KLink _ => TSymlink end.

Definition attr_for (n : Inode) : FileAttr :=
  let '(k, size, perm, nlink) :=
    match kind n with
    | KDir entries => (TDirectory, 0, 365, (2 + N.of_nat (map_size entries)) mod 2 ^ 32)
    | KFile _ size exec => (TRegularFile, size, if exec then 365 else 292, 1)
    | KLink target => (TSymlink, N.of_nat (String.length target), 511, 1)
    end in
  mkFileAttr (ino n) size ((size + 511) / 512) k perm nlink.

(** What a callback answers. *)
Notation reply A := (sum Errno A).

Definition fuse_lookup (t : InodeTable) (parent : N) (name : string) : reply FileAttr :=
  match table_lookup t parent name with
  | Some child =>
      match table_get t child with
      | Some n => inr (attr_for n)
      | None => inl ENOENT
      end
  | None => inl ENOENT
  end.

Definition fuse_getattr (t : InodeTable) (i : N) : reply FileAttr :=
  match table_get t i with Some n => inr (attr_for n) | None => inl ENOENT end.

Definition fuse_readlink (t : InodeTable) (i : N) : reply string :=
  match kind <$> table_get t i with
  | Some (KLink target) => inr target
  | Some _ => inl EINVAL
  | None => inl ENOENT
  end.

Definition fuse_opendir (t : InodeTable) (i : N) : reply () :=
  match kind <$> table_get t i with
  | Some (KDir _) => inr ()
  | Some _ => inl ENOTDIR
  | None => inl ENOENT
  end.

Definition fuse_open (t : InodeTable) (i : N) : reply () :=
  match kind <$> table_get t i with
  | Some (KFile _ _ _) => inr ()
  | Some (KDir _) => inl EISDIR
  | Some (KLink _) => inl EINVAL
  | None => inl ENOENT
  end.

Record DirEntry : Type := mkDirEntry {
  de_ino : N;
  de_kind : FileType;
  de_name : string
}.

(** By name, as [sort_by] on the third component does; names in one listing are
    distinct. *)
Definition name_le (a b : DirEntry) : Prop := String.le (de_name a) (de_name b).

#[export] Instance name_le_dec : RelDecision name_le.
Proof. intros a b. unfold name_le. apply _. Defined.

(** Everything [readdir] has to report of a directory, in order. *)
Definition listing (t : InodeTable) (i : N) (entries : gmap string N) : list DirEntry :=
  merge_sort name_le
    (mkDirEntry i TDirectory "." :: mkDirEntry i TDirectory ".." ::
     ((λ p, mkDirEntry p.2 (from_option file_type_of TRegularFile (table_get t p.2)) p.1)
        <$> map_to_list entries)).

(** [reply.add] until it says that the buffer is full; [fits] says whether an
    entry goes in after those already there. *)
Fixpoint fill (fits : list DirEntry → DirEntry → bool) (sent rest : list DirEntry) : list DirEntry :=
  match rest with
  | [] => sent
  | e :: rest => if fits sent e then fill fits (sent ++ [e]) rest else sent
  end.

(** Each entry is sent with the offset of the one after it. *)
Definition fuse_readdir (fits : list DirEntry → DirEntry → bool) (t : InodeTable) (i : N) (offset : N)
    : reply (list (DirEntry * N)) :=
  match table_get t i with
  | None => inl ENOENT
  | Some n =>
      match kind n with
      | KDir entries =>
          let sent := fill fits [] (drop (N.to_nat offset) (listing t i entries)) in
          inr (imap (λ k e, (e, offset + N.of_nat k + 1)) sent)
      | _ => inl ENOTDIR
      end
  end.

(** ** Reading *)

Inductive FetchError : Type :=
| FetchCas (e : CasError)
| FetchIo (e : IoError)
| FetchSize (expected actual : N)
| FetchInternal (msg : string).

(** A mapping: the file it is of and its length. *)
Record Mmap : Type := mkMmap { mm_file : path; mm_len : nat }.

Record BrokkrFs (C : Type) : Type := mkBrokkrFs {
  bf_table : InodeTable;
  bf_cas : C;
  bf_disk : Fs;
  bf_cache_dir : path;
  bf_sem_closed : bool;
  bf_slots : list (option Mmap)
}.
Arguments mkBrokkrFs {C}.
Arguments bf_table {C}.
Arguments bf_cas {C}.
Arguments bf_disk {C}.
Arguments bf_cache_dir {C}.
Arguments bf_sem_closed {C}.
Arguments bf_slots {C}.

Definition PAGE : nat := 4096.

(** What a mapping shows between [start] and [end_]: the bytes the file has now;
    zeros after its end, in its last page; beyond that page the access is a
    fault that ends the process. *)
Definition mapped (b : bytes) (start end_ : nat) : option bytes :=
  if decide (start < end_)%nat then
    let pages := ((length b + PAGE - 1) / PAGE * PAGE)%nat in
    if decide (end_ ≤ pages)%nat then Some (take (end_ - start) (drop start (b ++ replicate (end_ - length b) Byte.x00)))
    else None
  else Some [].

Section serve.
Context {C : Type} `{Cas C, Sha256, ErrText, DirCodec, TreeText}.

Notation M := (eff (BrokkrFs C) FetchError).

Definition set_slots (ss : list (option Mmap)) (s : BrokkrFs C) : BrokkrFs C :=
  mkBrokkrFs (bf_table s) (bf_cas s) (bf_disk s) (bf_cache_dir s) (bf_sem_closed s) ss.

Definition fuse_cas {A} (m : eff C CasError A) : M A :=
  zoom bf_cas (λ c s, mkBrokkrFs (bf_table s) c (bf_disk s) (bf_cache_dir s) (bf_sem_closed s) (bf_slots s))
    (map_err FetchCas m).
Definition fuse_disk {A} (m : eff Fs IoError A) : M A :=
  zoom bf_disk (λ f s, mkBrokkrFs (bf_table s) (bf_cas s) f (bf_cache_dir s) (bf_sem_closed s) (bf_slots s))
    (map_err FetchIo m).

Definition fuse_slot (s : BrokkrFs C) (i : N) : option (option Mmap) :=
  if i =? 0 then None else bf_slots s !! N.to_nat (i - 1).

(** [File::open] and [Mmap::map]: the file that is there, and its length. *)
Definition map_file (p : path) : eff Fs IoError Mmap :=
  sys true p (λ q ns, match ns !! q with
    | Some (IFile _ b) => Ok (ns, mkMmap q (length b))
    | Some IDir => Err IoIsADirectory
    | _ => Err IoNotFound
    end).

Definition fetch_and_mmap (d : Digest) (expected_size : N) : M Mmap :=
  b ← fuse_cas (read_blob d);
  if negb (N.of_nat (length b) =? expected_size) then throw (FetchSize expected_size (N.of_nat (length b)))
  else
    cache ← gets bf_cache_dir;
    let p := join cache (hash d) in
    fuse_disk (fs_write p b);;
    fuse_disk (map_file p).

(** [slot.get_or_try_init]: a failed fetch leaves the slot empty. *)
Definition get_or_fetch (i : N) (d : Digest) (size : N) : M Mmap :=
  s ← gets id;
  match fuse_slot s i with
  | Some (Some m) => mret m
  | _ =>
      if bf_sem_closed s then throw (FetchInternal "semaphore closed")
      else
        m ← fetch_and_mmap d size;
        modify (λ s, set_slots (<[N.to_nat (i - 1) := Some m]> (bf_slots s)) s);;
        mret m
  end.

(** The callback; its answer is a value and never an error of the call. *)
Definition fuse_read (i offset size : N) : M (reply bytes) :=
  s ← gets id;
  match table_get (bf_table s) i with
  | None => mret (inl ENOENT)
  | Some n =>
      match kind n with
      | KFile d file_size _ =>
          match fuse_slot s i with
          | None => mret (inl ENOENT)
          | Some _ =>
              r ← attempt (get_or_fetch i d file_size);
              match r with
              | inl _ => mret (inl EIO)
              | inr m =>
                  ns ← gets (λ s, fs_nodes (bf_disk s));
                  let start := Nat.min (N.to_nat offset) (mm_len m) in
                  let end_ := Nat.min (start + N.to_nat size) (mm_len m) in
                  match ns !! mm_file m with
                  | Some (IFile _ b) =>
                      match mapped b start end_ with
                      | Some data => mret (inr data)
                      | None => halt
                      end
                  | _ => halt
                  end
              end
          end
      | _ => mret (inl EISDIR)
      end
  end.

End serve.

(** ** Mounting *)

Record InputMountSpec : Type := mkInputMountSpec {
  root_digest : Digest;
  mountpoint : path;
  cache_dir : path
}.

Inductive MountError : Type :=
| MountDevice
| MountMount (e : IoError)
| MountTree (e : CasError)
| MountDirty (p : path)
| MountCache (e : IoError)
| MountNoRuntime.

(** fuser's [spawn_mount2] on this machine, and whether the caller is in a tokio
    runtime. *)
Inductive SpawnError : Type := SpawnNotFound | SpawnPermissionDenied | SpawnOther (msg : string).

Class MountEnv : Type := {
  in_runtime : bool;
  spawn_mount2 : option SpawnError
}.

Definition validate_mountpoint (p : path) : eff Fs MountError () :=
  names ← map_err (λ e, match e with IoNotFound => MountCache e | _ => MountMount e end) (read_dir p);
  match names with
  | [] => mret ()
  | _ :: _ => throw (MountDirty p)
  end.

Section mount.
Context {C : Type} `{Cas C, Sha256, ErrText, DirCodec, TreeText, MountEnv}.

Definition mount (fuel : nat) (spec : InputMountSpec) : eff (C * Fs) MountError (BrokkrFs C) :=
  zoom snd (λ f s, (s.1, f)) (validate_mountpoint (mountpoint spec));;
  zoom snd (λ f s, (s.1, f)) (map_err MountCache (create_dir_all (cache_dir spec)));;
  table ← zoom fst (λ c s, (c, s.2)) (map_err MountTree (build_table fuel (root_digest spec)));
  if negb in_runtime then throw MountNoRuntime
  else
    s ← gets id;
    match spawn_mount2 with
    | None => mret (mkBrokkrFs table s.1 s.2 (cache_dir spec) false (replicate (length table) None))
    | Some (SpawnNotFound | SpawnPermissionDenied) => throw MountDevice
    | Some (SpawnOther msg) => throw (MountMount (IoFailed msg))
    end.

End mount.
