(* ===== verification/FuseSpec.v ===== *)
(** * brokkr-worker: what the inode table shows

    The table built from a Merkle tree shows exactly the tree: every directory
    lists the names of its message, every file has the digest, size and execute
    bit of its node, every link its target. *)

From stdpp Require Import prelude gmap strings sorting pretty.
From Stdlib Require Import Lia Strings.Ascii.
From S2P Require Import Prelude Machine Bytes Common Redb Cas CasBackends ActionCache Fs Tree TreeSpec TreeExact Fuse.

Local Open Scope N_scope.

(** ** Tables *)

Lemma table_get_bound t i n : table_get t i = Some n → 0 < i ≤ N.of_nat (length t).
Proof.
  unfold table_get. destruct (N.eqb_spec i 0); [done|]. intros Hl%lookup_lt_Some. lia.
Qed.

Lemma table_get_app t n i m : table_get t i = Some n → table_get (t ++ [m]) i = Some n.
Proof.
  unfold table_get. destruct (i =? 0); [done|]. intros Hl. by apply lookup_app_l_Some.
Qed.

Lemma table_get_new t m : table_get (t ++ [m]) (N.of_nat (length t) + 1) = Some m.
Proof.
  unfold table_get. destruct (N.eqb_spec (N.of_nat (length t) + 1) 0); [lia|].
  replace (N.to_nat _) with (length t) by lia. unfold InodeTable. by rewrite lookup_app_r, Nat.sub_diag by lia.
Qed.

Lemma table_get_insert t i n m : table_get t i = Some n → table_get (<[N.to_nat (i - 1) := m]> t) i = Some m.
Proof.
  intros Hg. pose proof (table_get_bound _ _ _ Hg). unfold table_get in *. destruct (i =? 0); [done|].
  apply list_lookup_insert_eq. lia.
Qed.

Lemma table_get_insert_ne t i j m :
  i ≠ j → 0 < i → table_get (<[N.to_nat (i - 1) := m]> t) j = table_get t j.
Proof.
  intros Hne Hi. unfold table_get. destruct (N.eqb_spec j 0); [done|]. apply list_lookup_insert_ne. lia.
Qed.

(** A table that grew, and in which at most the inode [p] changed. *)
Definition grown (p : N) (t t' : InodeTable) : Prop :=
  (length t ≤ length t')%nat ∧ ∀ j n, j ≠ p → table_get t j = Some n → table_get t' j = Some n.

Lemma grown_refl p t : grown p t t.
Proof. by split. Qed.

Lemma grown_trans p t1 t2 t3 : grown p t1 t2 → grown p t2 t3 → grown p t1 t3.
Proof. intros [Hl1 H1] [Hl2 H2]. split; [lia|eauto]. Qed.

(** ** Showing a tree *)

Lemma hex_has_char c s : hex_char c = false → all_chars hex_char s = true → has_char c s = false.
Proof.
  intros Hc. induction s as [|c' s IH]; [done|]. cbn. intros [Hc' Hs]%andb_true_iff. rewrite IH by done.
  case_bool_decide; [congruence|done].
Qed.

(** The hash of a valid digest is a file name. *)
Lemma digest_plain o d : field_digest o = Some d → plain (hash d).
Proof.
  unfold field_digest, Digest_new. destruct o as [[h n]|]; [|done]. simpl.
  destruct (N.eqb_spec (str_bytes h) SHA256_HEX_LEN) as [Hl|]; [|done]. simpl.
  destruct (all_chars hex_char h) eqn:Hh; [|done]. simpl. destruct (n <? 0)%Z; [done|]. intros [= <-]. simpl.
  split_and!; [by intros ->..|by apply hex_has_char|by apply hex_has_char].
Qed.

Section shows.
Context `{Sha256} (held : Digest → Prop).

(** The inode [j] is the file [f]. *)
Definition file_shown (t : InodeTable) (j : N) (f : string * (bool * bytes)) : Prop :=
  ∃ d, table_get t j = Some (mkInode j (KFile d (N.of_nat (length f.2.2)) f.2.1)) ∧
       held d ∧ plain (hash d) ∧ ∀ b, sha256_hex b = hash d → b = f.2.2.

Definition link_shown (t : InodeTable) (j : N) (l : string * string) : Prop :=
  table_get t j = Some (mkInode j (KLink l.2)).

(** From the directory [i] down the table shows the tree, in inodes above [lo]. *)
Inductive shows (t : InodeTable) (lo : N) : N → Tree → Prop :=
| shows_node i es fs ls ds :
    table_get t i = Some (mkInode i (KDir es)) →
    dom es = list_to_set (fs.*1 ++ ls.*1 ++ ds.*1) →
    (∀ f, f ∈ fs → ∃ j, es !! f.1 = Some j ∧ lo < j ∧ file_shown t j f) →
    (∀ l, l ∈ ls → ∃ j, es !! l.1 = Some j ∧ lo < j ∧ link_shown t j l) →
    (∀ x, x ∈ ds → ∃ j, es !! x.1 = Some j ∧ lo < j ∧ shows t lo j x.2) →
    shows t lo i (TNode fs ls ds).

Lemma shows_frame t t' lo lo' i tr :
  lo' ≤ lo → (∀ j n, lo < j → table_get t j = Some n → table_get t' j = Some n) →
  (∀ n, table_get t i = Some n → table_get t' i = Some n) → shows t lo i tr → shows t' lo' i tr.
Proof.
  intros Hlo Hkeep. revert i. induction tr as [fs ls ds IH] using Tree_ind'; intros i Hi Hs.
  inversion Hs as [i' es fs' ls' ds' Hg Hd Hf Hl Hds]; subst. rewrite Forall_forall in IH.
  apply (shows_node _ _ _ es); [by apply Hi|done|..].
  - intros f Hin. destruct (Hf f Hin) as (j & ? & ? & d & ? & ?). exists j. split_and!; [done|lia|]. exists d. auto.
  - intros l Hin. destruct (Hl l Hin) as (j & ? & ? & ?). exists j. split_and!; [done|lia|]. by apply Hkeep.
  - intros x Hin. destruct (Hds x Hin) as (j & ? & ? & ?). exists j. split_and!; [done|lia|]. apply IH; auto.
Qed.

(** A directory without entries. *)
Lemma shows_empty t lo i : table_get t i = Some (mkInode i (KDir ∅)) → shows t lo i (TNode [] [] []).
Proof. intros Hg. apply (shows_node _ _ _ ∅); [done|by rewrite dom_empty_L|set_solver..]. Qed.

Definition with_file (f : string * (bool * bytes)) (tr : Tree) : Tree :=
  match tr with TNode fs ls ds => TNode (fs ++ [f]) ls ds end.
Definition with_link (l : string * string) (tr : Tree) : Tree :=
  match tr with TNode fs ls ds => TNode fs (ls ++ [l]) ds end.
Definition with_dir (x : string * Tree) (tr : Tree) : Tree :=
  match tr with TNode fs ls ds => TNode fs ls (ds ++ [x]) end.

(** The directory [i] with the entry [j] named [x] added, and nothing else about
    the inodes above [lo] changed. *)
Definition linked (t t' : InodeTable) (lo i : N) (x : string) (j : N) : Prop :=
  ∃ es, table_get t i = Some (mkInode i (KDir es)) ∧ es !! x = None ∧
    table_get t' i = Some (mkInode i (KDir (<[x := j]> es))) ∧ lo < j ∧
    ∀ k n, lo < k → table_get t k = Some n → table_get t' k = Some n.

(** The entries that were there are still shown. *)
Lemma linked_kept {A} (P : InodeTable → N → string * A → Prop) t t' lo (es : gmap string N) x j (ys : list (string * A)) :
  es !! x = None → (∀ y k, y ∈ ys → lo < k → P t k y → P t' k y) →
  (∀ y, y ∈ ys → ∃ k, es !! y.1 = Some k ∧ lo < k ∧ P t k y) →
  ∀ y, y ∈ ys → ∃ k, <[x := j]> es !! y.1 = Some k ∧ lo < k ∧ P t' k y.
Proof.
  intros Hx HP Hall y Hy. destruct (Hall y Hy) as (k & Hk & Hlo & Hp). exists k. split_and!; [|done|by eauto].
  rewrite lookup_insert_ne; [done|]. congruence.
Qed.

(** So is the new one. *)
Lemma kept_snoc {A} (P : N → string * A → Prop) lo (es : gmap string N) z j (ys : list (string * A)) :
  es !! z.1 = Some j → lo < j → P j z →
  (∀ y, y ∈ ys → ∃ k, es !! y.1 = Some k ∧ lo < k ∧ P k y) →
  ∀ y, y ∈ ys ++ [z] → ∃ k, es !! y.1 = Some k ∧ lo < k ∧ P k y.
Proof. intros Hz Hj Hp Hall y [Hy| ->%list_elem_of_singleton]%elem_of_app; eauto. Qed.

Lemma file_kept t t' lo k f :
  (∀ k n, lo < k → table_get t k = Some n → table_get t' k = Some n) → lo < k → file_shown t k f → file_shown t' k f.
Proof. intros Hkeep Hk (d & ? & ?). exists d. auto. Qed.

Lemma link_kept t t' lo k l :
  (∀ k n, lo < k → table_get t k = Some n → table_get t' k = Some n) → lo < k → link_shown t k l → link_shown t' k l.
Proof. intros Hkeep Hk Hl. by apply Hkeep. Qed.

Ltac keep_entries :=
  first [eapply (linked_kept file_shown)|eapply (linked_kept link_shown)|eapply (linked_kept (λ t k y, shows t _ k y.2))];
  [done| |done]; intros; first [by eapply file_kept|by eapply link_kept|eapply shows_frame; eauto].

Lemma linked_file t t' lo i f j tr :
  shows t lo i tr → linked t t' lo i f.1 j → file_shown t' j f → shows t' lo i (with_file f tr).
Proof.
  intros Hs (es & Hg & Hx & Hg' & Hj & Hkeep) Hnew. inversion Hs as [i' es' fs ls ds Hg2 Hd Hf Hl Hds]; subst.
  assert (es' = es) as -> by congruence.
  apply (shows_node _ _ _ (<[f.1 := j]> es)); [done|rewrite dom_insert_L, Hd, fmap_app; set_solver|..].
  - apply (kept_snoc (file_shown t') _ _ _ j); [by rewrite lookup_insert_eq|done|done|keep_entries].
  - keep_entries.
  - keep_entries.
Qed.

Lemma linked_link t t' lo i l j tr :
  shows t lo i tr → linked t t' lo i l.1 j → link_shown t' j l → shows t' lo i (with_link l tr).
Proof.
  intros Hs (es & Hg & Hx & Hg' & Hj & Hkeep) Hnew. inversion Hs as [i' es' fs ls ds Hg2 Hd Hf Hl Hds]; subst.
  assert (es' = es) as -> by congruence.
  apply (shows_node _ _ _ (<[l.1 := j]> es)); [done|rewrite dom_insert_L, Hd, fmap_app; set_solver|..].
  - keep_entries.
  - apply (kept_snoc (link_shown t') _ _ _ j); [by rewrite lookup_insert_eq|done|done|keep_entries].
  - keep_entries.
Qed.

Lemma linked_dir t t' lo i x j tr :
  shows t lo i tr → linked t t' lo i x.1 j → shows t' lo j x.2 → shows t' lo i (with_dir x tr).
Proof.
  intros Hs (es & Hg & Hx & Hg' & Hj & Hkeep) Hnew. inversion Hs as [i' es' fs ls ds Hg2 Hd Hf Hl Hds]; subst.
  assert (es' = es) as -> by congruence.
  apply (shows_node _ _ _ (<[x.1 := j]> es)); [done|rewrite dom_insert_L, Hd, fmap_app; set_solver|..].
  - keep_entries.
  - keep_entries.
  - apply (kept_snoc (λ k y, shows t' lo k y.2) _ _ _ j); [by rewrite lookup_insert_eq|done|done|keep_entries].
Qed.

End shows.

(** ** Building the table *)

(** The name entered next, between those entered and those to come. *)
Lemma name_apart {A} (before : list string) (pre : list (string * A)) y (post : list (string * A)) (after : list string) :
  NoDup (before ++ (pre ++ y :: post).*1 ++ after) → y.1 ∉ before ++ pre.*1.
Proof.
  rewrite fmap_app, fmap_cons, <-app_assoc, app_assoc. intros (_ & Hd & _)%NoDup_app Hin. apply (Hd _ Hin). simpl. left.
Qed.

Section building.
Context {C : Type} `{CasSpec C, ErrText, DirCodec, TreeText, !ReliableCas C}.
Context (held : Digest → Prop).
Implicit Types (b : Build C) (t : InodeTable).

Lemma entry_name_plain name : check_entry_name name = None ↔ plain name.
Proof. apply validate_plain. Qed.

Lemma reject_name_spec what name b Q X :
  plain name → Q () b → wp (reject_name what name) Q X b.
Proof. unfold reject_name. intros ->%entry_name_plain HQ. done. Qed.

Lemma decode_digest_spec o name what d b Q X :
  field_digest o = Some d → Q d b → wp (decode_digest o name what) Q X b.
Proof.
  unfold field_digest, decode_digest. destruct o as [[h s]|]; [|done]. simpl.
  destruct (Digest_new h s) as [d'|e|]; [|done..]. intros [= ->] HQ. done.
Qed.

Lemma read_directory_is_fetch d c : read_directory d c = fetch_directory d c.
Proof.
  unfold read_directory, fetch_directory, read_blob, mbind, eff_bind.
  destruct (batch_read_blobs [d] c) as [c' [rs|e|]]; [|done..]. by destruct (last rs).
Qed.

Lemma link_child_spec p x j es b Q X :
  table_get (bd_inodes b) p = Some (mkInode p (KDir es)) → es !! x = None →
  Q () (mkBuild (bd_cas b) (<[N.to_nat (p - 1) := mkInode p (KDir (<[x := j]> es))]> (bd_inodes b))) →
  wp (link_child p x j) Q X b.
Proof.
  unfold link_child, table_get. destruct (p =? 0); [done|]. intros Hg Hx HQ. wp_step. wp_step.
  cbn beta. rewrite Hg. cbn [kind]. wp_step. wp_step. cbn beta. by rewrite Hx.
Qed.

(** The table with a new inode entered in the directory [p]. *)
Definition enter (t : InodeTable) (p : N) (es : gmap string N) (x : string) (k : InodeKind) : InodeTable :=
  let j := N.of_nat (length t) + 1 in
  <[N.to_nat (p - 1) := mkInode p (KDir (<[x := j]> es))]> (t ++ [mkInode j k]).

Lemma enter_table t p lo es x k :
  table_get t p = Some (mkInode p (KDir es)) → es !! x = None → p ≤ lo ≤ N.of_nat (length t) →
  linked t (enter t p es x k) lo p x (N.of_nat (length t) + 1) ∧ grown p t (enter t p es x k) ∧
  table_get (enter t p es x k) (N.of_nat (length t) + 1) = Some (mkInode (N.of_nat (length t) + 1) k) ∧
  length (enter t p es x k) = S (length t).
Proof.
  intros Hg Hx Hlo. pose proof (table_get_bound _ _ _ Hg) as Hp. unfold enter.
  assert (∀ k' n, k' ≠ p → table_get t k' = Some n → table_get (enter t p es x k) k' = Some n) as Hkeep.
  { intros k' n Hne Hk'. unfold enter. rewrite table_get_insert_ne by (done || lia). by apply table_get_app. }
  split_and!.
  - exists es. split_and!; [done..| |lia|].
    + eapply table_get_insert. by apply table_get_app.
    + intros k' n Hk'. apply Hkeep. lia.
  - split; [rewrite length_insert, length_app; lia|done].
  - rewrite table_get_insert_ne by lia. apply table_get_new.
  - rewrite length_insert, length_app. simpl. lia.
Qed.

(** Whether an inode is one the tree accounts for. *)
Definition inode_sound (i : N) (n : Inode) : Prop :=
  ino n = i ∧ match kind n with
              | KFile d sz e => held d ∧ plain (hash d) ∧ ∃ content, sz = N.of_nat (length content) ∧
                                  ∀ b' : bytes, sha256_hex b' = hash d → b' = content
              | _ => True
              end.

Definition table_sound (t : InodeTable) : Prop := ∀ i n, table_get t i = Some n → inode_sound i n.

Lemma enter_sound t p es x k :
  table_sound t → table_get t p = Some (mkInode p (KDir es)) →
  inode_sound (N.of_nat (length t) + 1) (mkInode (N.of_nat (length t) + 1) k) → table_sound (enter t p es x k).
Proof.
  intros Ht Hg Hk i n. pose proof (table_get_bound _ _ _ Hg). unfold enter. destruct (decide (p = i)) as [<-|Hne].
  - rewrite (table_get_insert _ _ (mkInode p (KDir es))) by (by apply table_get_app). by intros [= <-].
  - rewrite table_get_insert_ne by (done || lia). intros Hi. pose proof (table_get_bound _ _ _ Hi) as Hb.
    rewrite length_app in Hb. simpl in Hb. destruct (decide (i = N.of_nat (length t) + 1)) as [->|Hlt].
    + rewrite table_get_new in Hi. by injection Hi as <-.
    + apply Ht. unfold table_get in *. destruct (i =? 0); [done|]. unfold InodeTable in *.
      rewrite lookup_app_l in Hi by lia. done.
Qed.

(** A directory [p] in the making: it shows the part of the tree entered so far. *)
Definition building (t0 : InodeTable) (p lo : N) (tr : Tree) (b : Build C) : Prop :=
  cas_ok (bd_cas b) ∧ (∀ d, held d → cas_has (bd_cas b) d = true) ∧
  grown p t0 (bd_inodes b) ∧ shows held (bd_inodes b) lo p tr ∧ table_sound (bd_inodes b) ∧
  p ≤ lo ≤ N.of_nat (length (bd_inodes b)).

Lemma building_by t0 p lo tr c t :
  cas_ok c → (∀ d, held d → cas_has c d = true) → grown p t0 t → shows held t lo p tr → table_sound t →
  p ≤ lo ≤ N.of_nat (length t) → building t0 p lo tr (mkBuild c t).
Proof. by unfold building. Qed.

Definition tree_names (tr : Tree) : list string := match tr with TNode fs ls ds => fs.*1 ++ ls.*1 ++ ds.*1 end.

Lemma building_entries t0 p lo tr b x :
  building t0 p lo tr b → x ∉ tree_names tr →
  ∃ es, table_get (bd_inodes b) p = Some (mkInode p (KDir es)) ∧ es !! x = None.
Proof.
  intros (_ & _ & _ & Hs & _) Hx. inversion Hs as [i' es fs ls ds Hg Hd]; subst. exists es. split; [done|].
  apply not_elem_of_dom. rewrite Hd. set_solver.
Qed.

Lemma add_file_spec t0 p lo tr b node f :
  building t0 p lo tr b → f.1 ∉ tree_names tr → plain f.1 → file_at held node f →
  wp (add_file p node) (λ _, building t0 p lo (with_file f tr)) (λ _ _, False) b.
Proof.
  intros Hb Hx Hp (Hname & Hex & d & Hd & Hheld & Hsz & Huniq).
  destruct (building_entries _ _ _ _ _ _ Hb Hx) as (es & Hg & Hn). destruct Hb as (Hok & Hh & Hgr & Hs & Hso & Hlo).
  unfold add_file. rewrite Hname. wp_step. apply reject_name_spec; [done|]. wp_step.
  eapply decode_digest_spec; [done|]. cbn beta. rewrite Hsz. destruct (Z.ltb_spec (Z.of_nat (length f.2.2)) 0); [lia|].
  unfold push. wp_steps. eapply link_child_spec; [by apply table_get_app|done|].
  set (k := KFile d _ _). change (<[_ := _]> _) with (enter (bd_inodes b) p es f.1 k).
  destruct (enter_table _ _ lo _ _ k Hg Hn Hlo) as (Hl & Hg' & Hj & Hlen).
  apply building_by; [done|done|by eapply grown_trans| | |lia].
  2:{ apply enter_sound; [done|done|]. split; [done|]. cbn. split; [done|]. split; [by eapply digest_plain|].
      exists f.2.2. by rewrite <-nat_N_Z, N2Z.id. }
  eapply linked_file; [done|done|]. exists d. rewrite Hj. unfold k.
  pose proof (digest_plain _ _ Hd). by rewrite Hex, <-nat_N_Z, N2Z.id.
Qed.

Lemma add_symlink_spec t0 p lo tr b node l :
  building t0 p lo tr b → l.1 ∉ tree_names tr → plain l.1 → link_at node l →
  wp (add_symlink p node) (λ _, building t0 p lo (with_link l tr)) (λ _ _, False) b.
Proof.
  intros Hb Hx Hp (Hname & Htgt & _).
  destruct (building_entries _ _ _ _ _ _ Hb Hx) as (es & Hg & Hn). destruct Hb as (Hok & Hh & Hgr & Hs & Hso & Hlo).
  unfold add_symlink. rewrite Hname. wp_step. apply reject_name_spec; [done|].
  unfold push. wp_steps. eapply link_child_spec; [by apply table_get_app|done|].
  set (k := KLink _). change (<[_ := _]> _) with (enter (bd_inodes b) p es l.1 k).
  destruct (enter_table _ _ lo _ _ k Hg Hn Hlo) as (Hl & Hg' & Hj & Hlen).
  apply building_by; [done|done|by eapply grown_trans| |by apply enter_sound|lia].
  eapply linked_link; [done|done|]. unfold link_shown. rewrite Hj. unfold k. by rewrite Htgt.
Qed.

(** What a walk from [d] into the empty directory [p] must come to. *)
Definition builds (go : Digest → N → eff (Build C) CasError ()) (d : Digest) (tr : Tree) : Prop :=
  ∀ p b, cas_ok (bd_cas b) → (∀ d, held d → cas_has (bd_cas b) d = true) → table_sound (bd_inodes b) →
    table_get (bd_inodes b) p = Some (mkInode p (KDir ∅)) →
    wp (go d p) (λ _, building (bd_inodes b) p (N.of_nat (length (bd_inodes b))) tr) (λ _ _, False) b.

Lemma add_directory_spec go t0 p lo tr b node x d :
  building t0 p lo tr b → x.1 ∉ tree_names tr → plain x.1 → dn_name node = x.1 →
  field_digest (dn_digest node) = Some d → builds go d x.2 →
  wp (add_directory go p node) (λ _, building t0 p lo (with_dir x tr)) (λ _ _, False) b.
Proof.
  intros Hb Hx Hp Hname Hd Hgo.
  destruct (building_entries _ _ _ _ _ _ Hb Hx) as (es & Hg & Hn). destruct Hb as (Hok & Hh & Hgr & Hs & Hso & Hlo).
  unfold add_directory. rewrite Hname. wp_step. apply reject_name_spec; [done|]. wp_step.
  eapply decode_digest_spec; [done|]. unfold push. wp_steps.
  eapply link_child_spec; [by apply table_get_app|done|]. cbn [bd_cas bd_inodes].
  change (<[_ := _]> _) with (enter (bd_inodes b) p es x.1 (KDir ∅)).
  destruct (enter_table _ _ lo _ _ (KDir ∅) Hg Hn Hlo) as ((es' & Hg1 & Hn1 & Hp1 & Hj1 & Hk1) & [_ Hg'] & Hj & Hlen).
  eapply wp_mono; [apply Hgo; [done|done|by apply enter_sound|done]|..]; cbn beta; [|done]. cbn [bd_cas bd_inodes].
  intros _ b2 (Hok2 & Hh2 & [Hl2 Hg2] & Hs2 & Hso2 & Hlo2). rewrite Hlen in *.
  split; [done|]. split; [done|]. split; [|split; [|split; [done|lia]]].
  - eapply grown_trans; [done|]. split; [lia|]. intros k n Hk Hkn. pose proof (table_get_bound _ _ _ Hkn).
    apply Hg2; [lia|]. by apply Hg'.
  - eapply linked_dir; [done| |].
    + exists es'. split_and!; [done|done| |exact Hj1|].
      * apply Hg2; [lia|done].
      * intros k n Hk Hkn. pose proof (table_get_bound _ _ _ Hkn). apply Hg2; [lia|]. apply Hk1; [lia|done].
    + eapply shows_frame; [| | |exact Hs2]; [lia|auto..].
Qed.

(** A loop over the nodes that stand for [ys]. *)
Lemma wp_each_forall2 {S E A B} (R : A → B → Prop) (I : list B → S → Prop) (X : E → S → Prop)
    (f : A → eff S E ()) (l : list A) (ys : list B) s :
  Forall2 R l ys → I [] s →
  (∀ pre a y post s', ys = pre ++ y :: post → R a y → I pre s' → wp (f a) (λ _, I (pre ++ [y])) X s') →
  wp (each f l) (λ _, I ys) X s.
Proof.
  intros Hall HI Hstep.
  assert (∀ l ys' pre s, Forall2 R l ys' → ys = pre ++ ys' → I pre s → wp (each f l) (λ _, I ys) X s) as Hgen.
  2:{ by eapply (Hgen l ys []). }
  clear l s Hall HI. intros l ys' pre s Hall. revert pre s. induction Hall as [|a y l ys' Hay Hall IH]; intros pre s -> HI.
  { cbn [each]. wp_step. by rewrite app_nil_r in *. }
  cbn [each]. wp_step. eapply wp_mono; [by eapply Hstep|..]; cbn beta; [|done].
  intros _ s1 HI1. apply (IH (pre ++ [y])); [by rewrite <-app_assoc|done].
Qed.

(** The walk of a whole tree. *)
Lemma build_dir_spec n fuel d tr : (n ≤ fuel)%nat → tree_at held n d tr → builds (build_dir fuel) d tr.
Proof.
  revert fuel d tr. induction n as [|n IH]; intros [|fuel] d [fs ls ds] Hle Ht; [done|done|lia|].
  intros p b Hok Hh Hso Hg. destruct Ht as (Hheld & Hnd & Hpl & dir & Hdir & Hfs & Hls & Hds).
  set (t0 := bd_inodes b) in *. set (lo := N.of_nat (length t0)). pose proof (table_get_bound _ _ _ Hg) as Hp.
  cbn [build_dir]. wp_step. unfold build_cas. apply wp_zoom. unfold wp at 1. rewrite read_directory_is_fetch.
  fold (wp (fetch_directory d) (λ dir c, wp (each (add_file p) (files dir);; each (add_symlink p) (symlinks dir);;
    each (add_directory (build_dir fuel) p) (directories dir)) (λ _, building t0 p lo (TNode fs ls ds)) (λ _ _, False)
    (mkBuild c t0)) (λ _ _, False) (bd_cas b)).
  eapply wp_mono; [by apply fetch_directory_spec|..]; cbn beta.
  2:{ intros e c' [_ Hn]. apply Hn. split; [split; [apply Hh, Hheld|by apply reads_return]|]. intros b' Hb. eauto. }
  intros dir' c1 [[Hok1 Hk1] (b' & Hb & Hdec)]. rewrite (Hdir b' Hb) in Hdec. injection Hdec as <-.
  assert (building t0 p lo (TNode [] [] []) (mkBuild c1 t0)) as Hb0.
  { apply building_by; [done| |apply grown_refl|by apply shows_empty|done|lia]. intros d' Hd'. rewrite Hk1. auto. }
  wp_step. eapply wp_mono; [eapply (wp_each_forall2 _ (λ fs', building t0 p lo (TNode fs' [] [])) (λ _ _, False)); [done|done|]|..]; cbn beta; [| |done].
  { intros pre node f post b1 -> Hat Hb1. apply (add_file_spec t0 p lo (TNode pre [] [])); [done| | |done].
    - simpl. rewrite !app_nil_r. exact (name_apart [] _ _ _ _ Hnd).
    - rewrite Forall_forall in Hpl. apply Hpl. set_solver. }
  intros _ b1 Hb1. wp_step. eapply wp_mono; [eapply (wp_each_forall2 _ (λ ls', building t0 p lo (TNode fs ls' [])) (λ _ _, False)); [done|done|]|..]; cbn beta; [| |done].
  { intros pre node l post b2 -> Hat Hb2. apply (add_symlink_spec t0 p lo (TNode fs pre [])); [done| | |done].
    - simpl. rewrite !app_nil_r. exact (name_apart _ _ _ _ _ Hnd).
    - rewrite Forall_forall in Hpl. apply Hpl. set_solver. }
  intros _ b2 Hb2. eapply (wp_each_forall2 _ (λ ds', building t0 p lo (TNode fs ls ds'))); [done|done|].
  intros pre node x post b3 -> (Hname & cd & Hcd & Ht) Hb3. apply (add_directory_spec _ t0 p lo (TNode fs ls pre) _ _ _ cd); [done| | |done|done|].
  - simpl. rewrite app_assoc. apply (name_apart _ _ _ post []). by rewrite app_nil_r, <-app_assoc.
  - rewrite Forall_forall in Hpl. apply Hpl. set_solver.
  - apply IH; [lia|done].
Qed.

(** The table of a tree: it shows the tree, and holds nothing else. *)
Lemma build_table_spec n fuel d tr c :
  (n ≤ fuel)%nat → tree_at held n d tr → cas_ok c → (∀ d, held d → cas_has c d = true) →
  wp (build_table fuel d)
     (λ t c', cas_ok c' ∧ (∀ d, held d → cas_has c' d = true) ∧ shows held t ROOT_INO ROOT_INO tr ∧ table_sound t)
     (λ _ _, False) c.
Proof.
  intros Hle Ht Hok Hh. set (b := mkBuild c [mkInode ROOT_INO (KDir ∅)]).
  assert (table_sound (bd_inodes b)) as Hso.
  { intros i n' Hi. pose proof (table_get_bound _ _ _ Hi) as Hb. simpl in Hb. assert (i = 1) as -> by lia.
    by injection Hi as <-. }
  pose proof (build_dir_spec n fuel d tr Hle Ht ROOT_INO b Hok Hh Hso eq_refl) as Hw.
  unfold wp, build_table in *. fold b. destruct (build_dir fuel d ROOT_INO b) as [b' [[]|e|]]; [|done..].
  destruct Hw as (? & ? & _ & ? & ? & _). done.
Qed.

End building.
