(* ===== verification/FuseMount.v ===== *)
(** * brokkr-worker: the mounted tree and the materialized one

    The two ways of giving an action its inputs.  A node of the abstract tree
    is found in the inode table by looking up its names one by one, and on disk
    under the directory the tree was materialized into; both find the same. *)

From stdpp Require Import prelude gmap strings sorting pretty.
From Stdlib Require Import Lia Strings.Ascii.
From S2P Require Import Prelude Machine Bytes Common Redb Cas CasBackends ActionCache Fs Tree TreeSpec TreeExact Fuse FuseSpec.

Local Open Scope N_scope.

(** ** The nodes of a tree *)

Inductive Node : Type :=
| NDir
| NFile (exec : bool) (content : bytes)
| NLink (target : string).

(** The node at a path below the root. *)
Fixpoint tree_node (p : list string) (tr : Tree) : option Node :=
  match p, tr with
  | [], _ => Some NDir
  | x :: p, TNode fs ls ds =>
      match (list_to_map ds : gmap string Tree) !! x with
      | Some s => tree_node p s
      | None =>
          match p with
          | [] => from_option (λ f, Some (NFile f.1 f.2)) (NLink <$> (list_to_map ls : gmap string string) !! x)
                    ((list_to_map fs : gmap string (bool * bytes)) !! x)
          | _ :: _ => None
          end
      end
  end.

(** No directory of the tree names two entries alike. *)
Inductive distinct : Tree → Prop :=
| distinct_node fs ls ds :
    NoDup (fs.*1 ++ ls.*1 ++ ds.*1) → (∀ x, x ∈ ds → distinct x.2) → distinct (TNode fs ls ds).

Lemma tree_at_distinct `{Sha256, DirCodec} held n d tr : tree_at held n d tr → distinct tr.
Proof.
  revert d tr. induction n as [|n IH]; intros d [fs ls ds]; [done|]. intros (_ & Hnd & _ & dir & _ & _ & _ & Hds).
  constructor; [done|]. intros x [k Hk]%list_elem_of_lookup.
  destruct (Forall2_lookup_r _ _ _ _ _ Hds Hk) as (node & _ & _ & cd & _ & Hat). by eapply IH.
Qed.

(** ** On disk *)

Definition disk_node (umask : N) (n : Node) : inode :=
  match n with
  | NDir => IDir
  | NFile exec b => IFile (if exec then 493 else N.ldiff 438 umask) b
  | NLink target => ILink target
  end.

Section tree.
Context (fs : list (string * (bool * bytes))) (ls : list (string * string)) (ds : list (string * Tree)).
Context (Hnd : NoDup (fs.*1 ++ ls.*1 ++ ds.*1)).

Lemma nodup_parts : NoDup fs.*1 ∧ NoDup ls.*1 ∧ NoDup ds.*1.
Proof using Hnd. apply NoDup_app in Hnd as (? & _ & (? & _ & ?)%NoDup_app). done. Qed.

Lemma file_node x e b p : (x, (e, b)) ∈ fs → tree_node (x :: p) (TNode fs ls ds) = if p is [] then Some (NFile e b) else None.
Proof using Hnd.
  intros Hin. destruct nodup_parts as (Hf & Hl & Hd).
  assert ((list_to_map ds : gmap string Tree) !! x = None) as E.
  { apply not_elem_of_list_to_map. apply NoDup_app in Hnd as (_ & Hx & _). intros Hd'. apply (Hx x); [|set_solver].
    by apply (list_elem_of_fmap_2 fst) in Hin. }
  cbn [tree_node]. rewrite E. destruct p; [|done]. by rewrite (proj1 (elem_of_list_to_map _ _ _ Hf) Hin).
Qed.

Lemma link_node x tg p : (x, tg) ∈ ls → tree_node (x :: p) (TNode fs ls ds) = if p is [] then Some (NLink tg) else None.
Proof using Hnd.
  intros Hin. destruct nodup_parts as (Hf & Hl & Hd). pose proof (list_elem_of_fmap_2 fst _ _ Hin) as Hx.
  apply NoDup_app in Hnd as (_ & Hx1 & (_ & Hx2 & _)%NoDup_app).
  assert ((list_to_map ds : gmap string Tree) !! x = None) as E.
  { apply not_elem_of_list_to_map. by apply Hx2. }
  assert ((list_to_map fs : gmap string (bool * bytes)) !! x = None) as E2.
  { apply not_elem_of_list_to_map. intros Hin2. apply (Hx1 x); [done|set_solver]. }
  cbn [tree_node]. rewrite E. destruct p; [|done]. by rewrite E2, (proj1 (elem_of_list_to_map _ _ _ Hl) Hin).
Qed.

Lemma dir_node x s p : (x, s) ∈ ds → tree_node (x :: p) (TNode fs ls ds) = tree_node p s.
Proof using Hnd.
  intros Hin. destruct nodup_parts as (Hf & Hl & Hd). cbn [tree_node].
  by rewrite (proj1 (elem_of_list_to_map _ _ _ Hd) Hin).
Qed.

(** Every node is one of these. *)
Lemma tree_node_inv x p n :
  tree_node (x :: p) (TNode fs ls ds) = Some n →
  (∃ s, (x, s) ∈ ds ∧ tree_node p s = Some n) ∨
  p = [] ∧ ((∃ e b, (x, (e, b)) ∈ fs ∧ n = NFile e b) ∨ (∃ tg, (x, tg) ∈ ls ∧ n = NLink tg)).
Proof using.
  cbn [tree_node]. destruct (list_to_map ds !! x) as [s|] eqn:E.
  { intros Hn. left. exists s. split; [by apply elem_of_list_to_map_2|done]. }
  destruct p; [|done]. destruct (list_to_map fs !! x) as [[e b]|] eqn:E2; simpl.
  { intros [= <-]. right. split; [done|]. left. exists e, b. split; [by apply elem_of_list_to_map_2|done]. }
  destruct (list_to_map ls !! x) as [tg|] eqn:E3; simpl; [|done].
  intros [= <-]. right. split; [done|]. right. exists tg. split; [by apply elem_of_list_to_map_2|done].
Qed.

End tree.

Lemma elem_of_entries umask tr D p i :
  distinct tr → p ≠ [] → (D ++ p, i) ∈ entries umask D tr ↔ ∃ n, tree_node p tr = Some n ∧ i = disk_node umask n.
Proof.
  revert D p i. induction tr as [fs ls ds IH] using Tree_ind'; intros D p i Hdist Hp.
  inversion Hdist as [fs' ls' ds' Hnd Hsub]; subst. rewrite Forall_forall in IH.
  cbn [entries]. rewrite !elem_of_app. split.
  - intros [Hin|[Hin|Hin]].
    + apply list_elem_of_fmap in Hin as ([x [e b]] & [= E ->] & Hin). apply app_inv_head in E as ->.
      eexists. by rewrite (file_node _ _ _ Hnd _ _ _ _ Hin).
    + apply list_elem_of_fmap in Hin as ([x tg] & [= E ->] & Hin). apply app_inv_head in E as ->.
      eexists. by rewrite (link_node _ _ _ Hnd _ _ _ Hin).
    + apply list_elem_of_In, in_flat_map in Hin as ([x s] & Hx%list_elem_of_In & Hin). destruct Hin as [[= E <-]|Hin%list_elem_of_In].
      * apply app_inv_head in E as <-. exists NDir. by rewrite (dir_node _ _ _ Hnd _ _ _ Hx).
      * destruct (inside_prefix _ _ _ (ltac:(eapply entries_inside; exact Hin) : inside (D ++ [x]) (D ++ p))) as [q E].
        pose proof E as E'. rewrite <-app_assoc in E'. apply app_inv_head in E' as ->. change ([x] ++ q) with (x :: q) in *.
        rewrite (dir_node _ _ _ Hnd _ _ _ Hx). apply (IH _ Hx (D ++ [x])); [by apply Hsub in Hx| |by rewrite <-E].
        intros ->. apply entries_inside in Hin. by eapply not_inside_self.
  - destruct p as [|x p]; [done|]. intros (n & [(s & Hx & Hn)|[-> [(e & b & Hx & ->)|(tg & Hx & ->)]]]%tree_node_inv & ->).
    + right; right. apply list_elem_of_In, in_flat_map. exists (x, s). split; [by apply list_elem_of_In|]. destruct p as [|y p].
      * left. simpl in Hn. by injection Hn as <-.
      * right. apply list_elem_of_In. change (x :: y :: p) with ([x] ++ y :: p). rewrite app_assoc.
        apply (IH _ Hx); [by apply (Hsub (x, s))|done|]. by exists n.
    + left. apply list_elem_of_fmap. by exists (x, (e, b)).
    + right; left. apply list_elem_of_fmap. by exists (x, tg).
Qed.

Lemma place_found es m p i :
  (p, i) ∈ es → (∀ i', (p, i') ∈ es → i' = i) → place es m !! p = Some i.
Proof.
  revert m. induction es as [|[q j] es IH] using rev_ind; intros m Hin Hall; [by apply elem_of_nil in Hin|].
  rewrite place_app. simpl. destruct (decide (q = p)) as [->|Hne].
  - rewrite lookup_insert_eq. f_equal. apply Hall. set_solver.
  - rewrite lookup_insert_ne by done. apply IH; set_solver.
Qed.

(** What is on disk below [D] once the tree is placed there. *)
Lemma placed_node umask D tr m p :
  distinct tr → (∀ q, inside D q → m !! q = None) → p ≠ [] →
  place (entries umask D tr) m !! (D ++ p) = disk_node umask <$> tree_node p tr.
Proof.
  intros Hd Hm Hp. destruct (tree_node p tr) as [n|] eqn:Hn; simpl.
  - apply place_found.
    + apply elem_of_entries; eauto.
    + intros i Hi. apply elem_of_entries in Hi as (n' & Hn' & ->); [congruence|done..].
  - rewrite place_outside.
    + apply Hm. destruct p as [|x p]; [done|]. exists x. exists p. by rewrite <-app_assoc.
    + intros i Hi. apply elem_of_entries in Hi as (n' & Hn' & ->); [congruence|done..].
Qed.

(** ** In the table *)

Section resolve.
Context `{Sha256} (held : Digest → Prop).

(** The inode [j] is the node. *)
Definition node_shown (t : InodeTable) (j : N) (n : Node) : Prop :=
  match n with
  | NDir => ∃ es, table_get t j = Some (mkInode j (KDir es))
  | NFile e b => ∃ x, file_shown held t j (x, (e, b))
  | NLink tg => table_get t j = Some (mkInode j (KLink tg))
  end.

Lemma resolve_node t lo i tr p :
  shows held t lo i tr → distinct tr →
  match tree_node p tr with
  | Some n => ∃ j, resolve_from t i (Normal <$> p) = Some j ∧ node_shown t j n
  | None => resolve_from t i (Normal <$> p) = None
  end.
Proof.
  revert i tr. induction p as [|x p IH]; intros i tr Hs Hdist.
  { exists i. split; [done|]. inversion Hs; subst. eexists. done. }
  inversion Hs as [i' es fs ls ds Hg Hd Hf Hl Hds]; subst. inversion Hdist as [fs' ls' ds' Hnd Hsub]; subst.
  cbn [fmap list_fmap resolve_from]. unfold table_lookup at 1 2. rewrite Hg. cbn [mbind option_bind kind].
  destruct (es !! x) as [j|] eqn:Hx; cbn [mbind option_bind].
  - assert (x ∈ dom es) as Hdom by (by apply elem_of_dom_2 in Hx). rewrite Hd, elem_of_list_to_set, !elem_of_app in Hdom.
    destruct Hdom as [Hin|[Hin|Hin]]; apply list_elem_of_fmap in Hin as (y & -> & Hin).
    + destruct y as [x [e b]], (Hf _ Hin) as (j' & Hj' & _ & Hsh). cbn [fst snd] in *. assert (j' = j) as -> by congruence. rewrite (file_node _ _ _ Hnd _ _ _ _ Hin).
      destruct p as [|y p]; [exists j; split; [done|by exists x]|]. destruct Hsh as (d & Hgj & _).
      cbn. unfold table_lookup. by rewrite Hgj.
    + destruct y as [x tg], (Hl _ Hin) as (j' & Hj' & _ & Hsh). cbn [fst snd] in *. assert (j' = j) as -> by congruence. rewrite (link_node _ _ _ Hnd _ _ _ Hin).
      destruct p as [|y p]; [by exists j|]. cbn. unfold table_lookup. unfold link_shown in Hsh. by rewrite Hsh.
    + destruct y as [x s], (Hds _ Hin) as (j' & Hj' & _ & Hsh). cbn [fst snd] in *. assert (j' = j) as -> by congruence. rewrite (dir_node _ _ _ Hnd _ _ _ Hin).
      apply IH; [done|by apply (Hsub (x, s))].
  - destruct (tree_node (x :: p) (TNode fs ls ds)) eqn:Hn; [exfalso|done].
    apply not_elem_of_dom in Hx. apply Hx. rewrite Hd, elem_of_list_to_set, !elem_of_app.
    apply tree_node_inv in Hn as [(s & Hin & _)|[_ [(e & b & Hin & _)|(tg & Hin & _)]]]; apply (list_elem_of_fmap_2 fst) in Hin; auto.
Qed.

End resolve.
