(* ===== verification/FuseRead.v ===== *)
(** * brokkr-worker: reading from the mount

    The invariant of a serving mount: every mapping shows the whole blob its
    inode's digest names.  A read keeps it and answers with exactly the bytes
    asked for.  A directory is read in pages, each from the offset the last entry
    of the page before was sent with; however the pages fall, the kernel sees every
    entry once, in the order of the names. *)

From stdpp Require Import prelude gmap strings sorting pretty.
From Stdlib Require Import Lia Strings.Ascii.
From S2P Require Import Prelude Machine Bytes Common Redb Cas CasBackends ActionCache Fs Tree TreeSpec TreeExact Fuse FuseSpec.

Local Open Scope N_scope.

(** A mapping of a file that is still whole shows its bytes. *)
Lemma mapped_whole b off len :
  let start := Nat.min off (length b) in
  mapped b start (Nat.min (start + len) (length b)) = Some (take len (drop off b)).
Proof.
  intros start. unfold mapped. set (end_ := Nat.min (start + len) (length b)). case_decide as Hlt.
  - rewrite decide_True by (unfold PAGE; subst end_; pose proof (Nat.div_mod_eq (length b + 4096 - 1) 4096);
      pose proof (Nat.mod_upper_bound (length b + 4096 - 1) 4096); lia).
    replace (end_ - length b)%nat with 0%nat by lia. rewrite app_nil_r. f_equal.
    assert (start = off) as -> by lia. destruct (Nat.le_gt_cases (off + len) (length b)).
    + f_equal. lia.
    + rewrite !take_ge by (rewrite length_drop; lia). done.
  - f_equal. destruct (Nat.le_gt_cases (length b) off).
    + by rewrite drop_ge, take_nil by lia.
    + assert (len = 0)%nat as -> by lia. done.
Qed.

Section reading.
Context {C : Type} `{CasSpec C, ErrText, DirCodec, TreeText, !ReliableCas C}.
Context (held : Digest → Prop).
Implicit Types (s : BrokkrFs C) (f : string * (bool * bytes)).

Notation nodes s := (fs_nodes (bf_disk s)).

(** The mapping of the inode [i] shows its whole content. *)
Definition slot_whole s (i : N) (m : Mmap) : Prop :=
  ∃ d e b mode, table_get (bf_table s) i = Some (mkInode i (KFile d (N.of_nat (length b)) e)) ∧
    m = mkMmap (bf_cache_dir s ++ [hash d]) (length b) ∧
    sha256_hex b = hash d ∧ (∀ b', sha256_hex b' = hash d → b' = b) ∧
    nodes s !! (bf_cache_dir s ++ [hash d]) = Some (IFile mode b).

Record serving s : Prop := {
  sv_cas : cas_ok (bf_cas s);
  sv_held d : held d → cas_has (bf_cas s) d = true;
  sv_wf : fs_wf (nodes s);
  sv_dir : nodes s !! bf_cache_dir s = Some IDir;
  sv_cache x i : nodes s !! (bf_cache_dir s ++ [x]) = Some i → ∃ m b, i = IFile m b;
  sv_len : length (bf_slots s) = length (bf_table s);
  sv_slots i m : fuse_slot s i = Some (Some m) → slot_whole s i m
}.

(** Either no call on the disk fails, or no two files have the same content. *)
Definition apart s : Prop :=
  fs_faults (bf_disk s) = [] ∨
  ∀ i j d sz e d' sz' e', table_get (bf_table s) i = Some (mkInode i (KFile d sz e)) →
    table_get (bf_table s) j = Some (mkInode j (KFile d' sz' e')) → hash d = hash d' → i = j.

(** The same mount, with another store, disk or slots. *)
Definition same_mount s s' : Prop :=
  bf_table s' = bf_table s ∧ bf_cache_dir s' = bf_cache_dir s ∧ bf_sem_closed s' = bf_sem_closed s ∧
  (fs_faults (bf_disk s) = [] → fs_faults (bf_disk s') = []).

Lemma same_mount_apart s s' : same_mount s s' → apart s → apart s'.
Proof. intros (Ht & _ & _ & Hf) [?|Ha]; [left; auto|right]. by rewrite Ht. Qed.

(** Only the store and the cache file at [q] were worked on; [P] is known of what
    the file holds now. *)
Definition refilled s s' (q : path) (P : bytes → Prop) : Prop :=
  same_mount s s' ∧ bf_slots s' = bf_slots s ∧ cas_keeps (bf_cas s) (bf_cas s') ∧
  ∃ mode b, nodes s' = <[q := IFile mode b]> (nodes s) ∧ P b.

Definition untouched s s' : Prop :=
  same_mount s s' ∧ bf_slots s' = bf_slots s ∧ cas_keeps (bf_cas s) (bf_cas s') ∧ nodes s' = nodes s.

Lemma fetch_spec s d (content : bytes) :
  serving s → held d → plain (hash d) → (∀ b, sha256_hex b = hash d → b = content) →
  let q := bf_cache_dir s ++ [hash d] in
  wp (fetch_and_mmap d (N.of_nat (length content)))
     (λ m s', m = mkMmap q (length content) ∧ refilled s s' q (λ b, b = content ∧ sha256_hex b = hash d))
     (λ _ s', fs_faults (bf_disk s) ≠ [] ∧ (untouched s s' ∨ refilled s s' q (λ _, True))) s.
Proof.
  intros Hs Hd Hp Huniq q. unfold fetch_and_mmap. wp_step. unfold fuse_cas. apply wp_zoom, wp_map_err.
  eapply wp_mono; [apply read_blob_spec, Hs|..]; cbn beta.
  2:{ intros e c [_ Hn]. destruct Hn. split; [by apply Hs|]. apply reads_return, Hs. }
  intros b c [Hk Hb]. rewrite (Huniq b Hb). rewrite N.eqb_refl. cbn [negb]. wp_step. wp_step. cbn [bf_cache_dir].
  rewrite join_plain by done. fold q.
  assert (spot (nodes s) (bf_cache_dir s) (hash d)) as Hspot by (by split_and!; [apply Hs|apply Hs|]).
  assert (no_link (nodes s !! q)) as Hl.
  { intros t Ht. by destruct (sv_cache _ Hs _ _ Ht) as (? & ? & ?). }
  wp_step. unfold fuse_disk. apply wp_zoom, wp_map_err. cbn [bf_disk].
  eapply wp_mono; [by apply fs_write_spec|..]; cbn beta.
  2:{ intros e f' [[Hf|Hdir] Hd']; [|by destruct (sv_cache _ Hs _ _ Hdir) as (? & ? & ?)].
      split; [done|]. destruct Hd' as [(Hn & _ & Hff)|(_ & m & b' & Hn & _ & Hff)]; [left|right].
      - split; [by repeat split|]. split; [done|]. by split.
      - split; [by repeat split|]. split; [done|]. split; [done|]. by exists m, b'. }
  intros [] f1 (_ & Hn1 & Hu1 & Hf1). apply wp_zoom, wp_map_err. cbn [bf_disk].
  eapply (wp_sys true (bf_cache_dir s) (hash d)).
  - split_and!; [|rewrite Hn1, lookup_insert_ne by (apply app_snoc_ne); apply Hs|done]. rewrite Hn1. apply fs_wf_insert; [done|].
    left. intros Hdir. by destruct (sv_cache _ Hs _ _ Hdir) as (? & ? & ?).
  - intros _ t. rewrite Hn1, lookup_insert_eq. done.
  - rewrite Hn1. fold q. rewrite lookup_insert_eq. intros f2 (Hn2 & _ & Hf2).
    split; [done|]. split; [by repeat split; auto|]. split; [done|]. split; [done|]. eexists _, _.
    split; [done|]. split; [done|]. by rewrite <-(Huniq b Hb).
  - intros msg f2 Hf (Hn2 & _ & Hf2).
    split; [by intros ?; apply Hf, Hf1|]. right. split; [by repeat split; auto|]. split; [done|]. split; [done|].
    eexists _, _. split; [cbn; by rewrite Hn2|done].
Qed.

Lemma refilled_wf s s' d P :
  serving s → plain (hash d) → refilled s s' (bf_cache_dir s ++ [hash d]) P →
  (∀ i m, fuse_slot s i = Some (Some m) → slot_whole s' i m) → serving s'.
Proof.
  intros Hs Hp ((Ht & Hc & Hm & Hf) & Hsl & [Hok Hk] & mode & b & Hn & _) Hslots.
  assert (nodes s !! (bf_cache_dir s ++ [hash d]) ≠ Some IDir) as Hnd.
  { intros Hdir. by destruct (sv_cache _ Hs _ _ Hdir) as (? & ? & ?). }
  split; rewrite ?Hc, ?Ht, ?Hsl, ?Hn; [done|..].
  - intros d' Hd'. rewrite Hk. by apply Hs.
  - apply fs_wf_insert; [|by left]. by split_and!; [apply Hs..|].
  - rewrite lookup_insert_ne by apply app_snoc_ne. apply Hs.
  - intros x i. destruct (decide (x = hash d)) as [->|Hx].
    + rewrite lookup_insert_eq. intros [= <-]. by eexists _, _.
    + rewrite lookup_insert_ne; [apply Hs|]. by intros [_ [= ?]]%app_inj_tail.
  - apply Hs.
  - unfold fuse_slot. rewrite Hsl. exact Hslots.
Qed.

(** Refilling a cache file with its own content takes no other mapping away. *)
Lemma refilled_whole s s' d content i m :
  refilled s s' (bf_cache_dir s ++ [hash d]) (λ b, b = content ∧ sha256_hex b = hash d) →
  slot_whole s i m → slot_whole s' i m.
Proof.
  intros ((Ht & Hc & _) & _ & _ & mode & b & Hn & -> & Hb) (d' & e & b' & mode' & Hg & -> & Hsha & Huniq & Hq).
  unfold slot_whole. rewrite Ht, Hc, Hn. destruct (decide (hash d' = hash d)) as [E|Hne].
  - assert (content = b') as -> by (apply Huniq; congruence). exists d', e, b', mode. rewrite E, lookup_insert_eq. by rewrite <-E.
  - exists d', e, b', mode'. rewrite lookup_insert_ne; [done|]. by intros [_ [= ?]]%app_inj_tail.
Qed.

(** A failed refill spares the mappings of files with other content. *)
Lemma spoiled_whole s s' d sz e i j m :
  refilled s s' (bf_cache_dir s ++ [hash d]) (λ _, True) →
  apart s → fs_faults (bf_disk s) ≠ [] → table_get (bf_table s) i = Some (mkInode i (KFile d sz e)) → j ≠ i →
  slot_whole s j m → slot_whole s' j m.
Proof.
  intros ((Ht & Hc & _) & _ & _ & mode & b & Hn & _) [?|Hap] Hf Hi Hne (d' & e' & b' & mode' & Hg & -> & Hsha & Huniq & Hq); [done|].
  unfold slot_whole. rewrite Ht, Hc, Hn. exists d', e', b', mode'. rewrite lookup_insert_ne; [done|].
  intros [_ [= E]]%app_inj_tail. apply Hne. by eapply Hap.
Qed.

Lemma same_mount_refl s : same_mount s s.
Proof. by repeat split. Qed.

Lemma same_mount_trans s1 s2 s3 : same_mount s1 s2 → same_mount s2 s3 → same_mount s1 s3.
Proof. intros (? & ? & ? & ?) (? & ? & ? & ?). split; [congruence|]. split; [congruence|]. split; [congruence|auto]. Qed.

Lemma untouched_serving s s' : serving s → untouched s s' → serving s'.
Proof.
  intros Hs ((Ht & Hc & _) & Hsl & [Hok Hk] & Hn). split; unfold slot_whole, fuse_slot; rewrite ?Ht, ?Hc, ?Hsl, ?Hn; [done| |apply Hs..].
  intros d Hd. rewrite Hk. by apply Hs.
Qed.

(** A slot is filled with a mapping of the whole content. *)
Lemma filled_serving s i m :
  serving s → slot_whole s i m → serving (set_slots (<[N.to_nat (i - 1) := Some m]> (bf_slots s)) s).
Proof.
  intros Hs Hm. split; unfold slot_whole; cbn [bf_cas bf_disk bf_cache_dir bf_slots bf_table set_slots]; [apply Hs..| |].
  - rewrite length_insert. apply Hs.
  - intros j m'. unfold fuse_slot. cbn [bf_slots set_slots]. destruct (N.eqb_spec j 0); [done|].
    destruct (decide (j = i)) as [->|Hne].
    + intros [(_ & [= <-] & _)|[? _]]%list_lookup_insert_Some; [exact Hm|done].
    + rewrite list_lookup_insert_ne. 2:{ destruct Hm as (? & ? & ? & ? & Hg & _). apply table_get_bound in Hg. lia. }
      intros Hj. apply (sv_slots _ Hs). unfold fuse_slot. destruct (N.eqb_spec j 0); done.
Qed.

(** The mapping of a file, fetched now or before. *)
Lemma get_or_fetch_spec s i d f :
  serving s → apart s → table_get (bf_table s) i = Some (mkInode i (KFile d (N.of_nat (length f.2.2)) f.2.1)) →
  held d → plain (hash d) → (∀ b, sha256_hex b = hash d → b = f.2.2) →
  wp (get_or_fetch i d (N.of_nat (length f.2.2)))
     (λ m s', serving s' ∧ same_mount s s' ∧ slot_whole s' i m)
     (λ _ s', serving s' ∧ same_mount s s' ∧ (bf_sem_closed s = true ∨ fs_faults (bf_disk s) ≠ [])) s.
Proof.
  intros Hs Ha Hg Hd Hp Huniq. pose proof (table_get_bound _ _ _ Hg) as Hb. pose proof (sv_len _ Hs) as Hlen.
  unfold get_or_fetch. wp_step. wp_step. cbn beta. unfold id.
  destruct (fuse_slot s i) as [[m|]|] eqn:Hsl.
  { wp_step. split; [done|]. split; [apply same_mount_refl|]. by apply Hs. }
  2:{ unfold fuse_slot in Hsl. destruct (i =? 0) eqn:E; [apply N.eqb_eq in E; lia|]. apply lookup_ge_None in Hsl. lia. }
  destruct (bf_sem_closed s) eqn:Hc.
  { wp_step. split; [done|]. split; [apply same_mount_refl|by left]. }
  wp_step. eapply wp_mono; [by apply fetch_spec|..]; cbn beta.
  - intros m s1 [-> Hr]. wp_step. wp_step. wp_step.
    assert (serving s1) as Hs1.
    { apply (refilled_wf _ _ _ _ Hs Hp Hr). intros j m Hj. eapply refilled_whole; [done|by apply Hs]. }
    assert (slot_whole s1 i (mkMmap (bf_cache_dir s ++ [hash d]) (length f.2.2))) as Hw.
    { destruct Hr as ((Ht & Hcd & _) & _ & _ & mode & b & Hn & -> & Hsha). exists d, f.2.1, f.2.2, mode.
      by rewrite Ht, Hcd, Hn, lookup_insert_eq. }
    split; [by apply filled_serving|]. split; [apply Hr|done].
  - intros e s1 [Hf [(Hm & Hslots & [Hok Hk] & Hn)|Hr]]; (split; [|split; [|by right]]).
    + by eapply untouched_serving.
    + done.
    + apply (refilled_wf _ _ _ _ Hs Hp Hr). intros j m Hj. eapply spoiled_whole; [done..| |by apply Hs]. congruence.
    + apply Hr.
Qed.

(** A read keeps the invariant and answers with the bytes asked for; it fails
    only where the semaphore is closed or the disk may fail. *)
Lemma fuse_read_spec s i f off len :
  serving s → apart s → file_shown held (bf_table s) i f →
  wp (fuse_read i off len)
     (λ r s', serving s' ∧ same_mount s s' ∧
        (r = inr (take (N.to_nat len) (drop (N.to_nat off) f.2.2)) ∨
         r = inl EIO ∧ (bf_sem_closed s = true ∨ fs_faults (bf_disk s) ≠ [])))
     (λ _ _, False) s.
Proof.
  intros Hs Ha (d & Hg & Hd & Hp & Huniq). pose proof (table_get_bound _ _ _ Hg) as Hb. pose proof (sv_len _ Hs) as Hlen.
  unfold fuse_read. wp_step. wp_step. cbn beta. unfold id. rewrite Hg. cbn [kind].
  destruct (fuse_slot s i) as [o|] eqn:Hsl.
  2:{ unfold fuse_slot in Hsl. destruct (i =? 0) eqn:E; [apply N.eqb_eq in E; lia|]. apply lookup_ge_None in Hsl. lia. }
  wp_step. apply wp_attempt. eapply wp_mono; [by apply (get_or_fetch_spec s i d f)|..]; cbn beta iota.
  - intros m s1 (Hs1 & Hm & Hw). wp_step. wp_step. cbn beta.
    destruct Hw as (d' & e & b & mode & Hg' & -> & Hsha & _ & Hq). pose proof Hm as (Ht & _). rewrite Ht, Hg in Hg'.
    injection Hg' as <- _ _. cbn [mm_file mm_len]. rewrite Hq, (Huniq b Hsha), mapped_whole. wp_step. auto.
  - intros e s1 (Hs1 & Hm & Hr). wp_step. auto.
Qed.

(** Whatever is read, the mount goes on serving. *)
Lemma fuse_read_serving s i off len :
  serving s → apart s → table_sound held (bf_table s) →
  wp (fuse_read i off len) (λ _ s', serving s' ∧ same_mount s s') (λ _ _, False) s.
Proof.
  intros Hs Ha Ht. destruct (table_get (bf_table s) i) as [n|] eqn:Hg.
  2:{ unfold fuse_read. wp_step. wp_step. cbn beta. unfold id. rewrite Hg. wp_step. split; [done|apply same_mount_refl]. }
  destruct n as [i' k]. destruct (Ht i _ Hg) as [E Hk]. simpl in E, Hk. subst i'. destruct k as [es|d sz e|tg].
  2:{ destruct Hk as (Hd & Hp & content & -> & Huniq).
      eapply wp_mono; [apply (fuse_read_spec s i ("", (e, content))); [done|done|]|..]; cbn beta; [|tauto|done]. by exists d. }
  all: unfold fuse_read; wp_step; wp_step; cbn beta; unfold id; rewrite Hg; cbn [kind]; wp_step; (split; [done|apply same_mount_refl]).
Qed.

End reading.

(** ** Listing a directory *)

(** A client that reads page after page until one is empty; the room in the
    reply may differ from call to call. *)
Fixpoint read_pages (calls : nat) (fits : nat → list DirEntry → DirEntry → bool) (t : InodeTable) (i off : N)
    : option (list DirEntry) :=
  match calls with
  | O => None
  | S k =>
      match fuse_readdir (fits k) t i off with
      | inl _ => None
      | inr page =>
          match last page with
          | None => Some []
          | Some e => app page.*1 <$> read_pages k fits t i e.2
          end
      end
  end.

(** A page is a prefix of what is left, and not empty while the first entry has
    room. *)
Lemma fill_prefix fits sent rest : ∃ k, (k ≤ length rest)%nat ∧ fill fits sent rest = sent ++ take k rest.
Proof.
  revert sent. induction rest as [|e rest IH]; intros sent; cbn [fill].
  { exists 0%nat. by rewrite app_nil_r. }
  destruct (fits sent e).
  - destruct (IH (sent ++ [e])) as (k & Hk & ->). exists (S k). simpl. split; [lia|]. by rewrite <-app_assoc.
  - exists 0%nat. split; [lia|]. by rewrite app_nil_r.
Qed.

Lemma fill_progress fits e rest :
  fits [] e = true → ∃ k, (k ≤ length rest)%nat ∧ fill fits [] (e :: rest) = e :: take k rest.
Proof. cbn [fill]. intros ->. apply (fill_prefix fits [e] rest). Qed.

Lemma fst_imap_offsets off (l : list DirEntry) : (imap (λ k e, (e, off + N.of_nat k + 1)) l).*1 = l.
Proof.
  rewrite fmap_imap. rewrite (imap_ext _ (const id)) by done. by rewrite imap_const, list_fmap_id.
Qed.

Lemma last_imap_offsets off (e : DirEntry) l :
  ∃ x, last (imap (λ k e, (e, off + N.of_nat k + 1)) (e :: l)) = Some (x, off + N.of_nat (length l) + 1).
Proof.
  rewrite last_lookup, length_imap. simpl Nat.pred. rewrite list_lookup_imap.
  destruct (lookup_lt_is_Some_2 (e :: l) (length l)) as [x Hx]; [simpl; lia|]. rewrite Hx. by exists x.
Qed.

Lemma read_pages_spec calls fits t i es off :
  table_get t i = Some (mkInode i (KDir es)) → (∀ k e, fits k [] e = true) →
  (length (listing t i es) - N.to_nat off < calls)%nat →
  read_pages calls fits t i off = Some (drop (N.to_nat off) (listing t i es)).
Proof.
  intros Hg Hfits. revert off. induction calls as [|calls IH]; intros off Hlen; [lia|].
  cbn [read_pages]. unfold fuse_readdir. rewrite Hg. cbn [kind].
  destruct (drop (N.to_nat off) (listing t i es)) as [|e rest] eqn:Hd; [done|].
  destruct (fill_progress (fits calls) e rest (Hfits _ _)) as (k & Hk & ->).
  destruct (last_imap_offsets off e (take k rest)) as [x Hx]. rewrite Hx. cbn [snd].
  assert (length (drop (N.to_nat off) (listing t i es)) = S (length rest)) as Hl by by rewrite Hd. rewrite length_drop in Hl.
  rewrite IH by lia. cbn [fmap option_fmap option_map]. rewrite fst_imap_offsets. f_equal.
  rewrite length_take_le by done. replace (N.to_nat (off + N.of_nat k + 1)) with (N.to_nat off + S k)%nat by lia.
  rewrite <-drop_drop, Hd. simpl. f_equal. apply take_drop.
Qed.

(** ** The listing *)

Section listing.
Context (t : InodeTable) (i : N) (es : gmap string N).
Context (Hplain : ∀ x, x ∈ dom es → plain x).

Definition child_entry (x : string) (j : N) : DirEntry :=
  mkDirEntry j (from_option file_type_of TRegularFile (table_get t j)) x.

Lemma elem_of_listing e :
  e ∈ listing t i es ↔ e = mkDirEntry i TDirectory "." ∨ e = mkDirEntry i TDirectory ".." ∨
                       ∃ x j, es !! x = Some j ∧ e = child_entry x j.
Proof using.
  unfold listing. rewrite merge_sort_Permutation, !elem_of_cons, list_elem_of_fmap.
  split.
  - intros [?|[?|([x j] & -> & Hin%elem_of_map_to_list)]]; [auto..|]. right; right. by exists x, j.
  - intros [?|[?|(x & j & Hx & ->)]]; [auto..|]. right; right. exists (x, j). by rewrite elem_of_map_to_list.
Qed.

Lemma listing_names : NoDup (de_name <$> listing t i es).
Proof using Hplain.
  unfold listing. rewrite merge_sort_Permutation. simpl. rewrite <-list_fmap_compose.
  rewrite (list_fmap_ext _ fst) by done.
  assert (∀ x, x ∈ (map_to_list es).*1 → plain x) as Hp.
  { intros x (y & -> & Hin)%list_elem_of_fmap. apply Hplain. destruct y. apply elem_of_map_to_list in Hin.
    by apply elem_of_dom_2 in Hin. }
  rewrite !NoDup_cons, elem_of_cons. split_and!; [|by intros (? & ? & ? & ?)%Hp|apply NoDup_fst_map_to_list].
  intros [?|(? & ? & ? & ?)%Hp]; done.
Qed.

Lemma length_listing : length (listing t i es) = (size es + 2)%nat.
Proof using. unfold listing. rewrite merge_sort_Permutation. simpl. rewrite length_fmap, length_map_to_list. lia. Qed.

Lemma listing_sorted : StronglySorted name_le (listing t i es).
Proof using.
  apply StronglySorted_merge_sort.
  - intros a b c. unfold name_le. apply transitivity.
  - intros a b. unfold name_le. apply total. apply _.
Qed.

End listing.
