(* ===== verification/FuseTheorems.v ===== *)
(** * brokkr-worker: theorems about the mounted input tree

    Mounting and materializing give an action the same inputs; a directory is
    listed whole; reads stay exact. *)

From stdpp Require Import prelude gmap strings sorting pretty.
From Stdlib Require Import Lia Strings.Ascii.
From S2P Require Import Prelude Machine Bytes Common Redb Cas CasBackends ActionCache Fs Tree TreeSpec TreeExact TreePack TreeTheorems Fuse FuseSpec FuseMount FuseRead.

Local Open Scope N_scope.

Section mounting.
Context {C : Type} `{CasSpec C, ErrText, DirCodec, TreeText, !ReliableCas C, MountEnv}.
Implicit Types (fs : BrokkrFs C) (c : C) (s : Fs).

Lemma validate_mountpoint_spec p s Q X :
  fs_wf (fs_nodes s) → fs_faults s = [] → fs_nodes s !! p = Some IDir →
  (∀ q, inside p q → fs_nodes s !! q = None) →
  (∀ s', disk s s' (fs_nodes s) → Q () s') → wp (validate_mountpoint p) Q X s.
Proof.
  intros Hwf Hf Hp He HQ. unfold validate_mountpoint. wp_step. apply wp_map_err. unfold read_dir.
  eapply wp_sys_at; [by apply resolve_dir| |by intros; rewrite Hf in *].
  unfold readdir_op. rewrite Hp. intros s' Hd. fold (child_names (fs_nodes s) p).
  destruct (child_names (fs_nodes s) p) as [|x l] eqn:Hl; [wp_step; by apply HQ|].
  assert (x ∈ child_names (fs_nodes s) p) as Hx by (rewrite Hl; left).
  apply elem_of_child_names in Hx as [i Hi]. rewrite He in Hi; [done|]. by exists x.
Qed.

(** A mount of a well-formed tree on an empty directory serves it. *)
Lemma mount_spec n fuel tr spec (K : path) k c s :
  let held := λ d, cas_has c d = true in
  (n ≤ fuel)%nat → tree_at held n (root_digest spec) tr → cas_ok c → fs_wf (fs_nodes s) → fs_faults s = [] →
  in_runtime = true → spawn_mount2 = None →
  fs_nodes s !! mountpoint spec = Some IDir → (∀ p, inside (mountpoint spec) p → fs_nodes s !! p = None) →
  cache_dir spec = K ++ [k] → spot (fs_nodes s) K k → fs_nodes s !! (K ++ [k]) = None →
  wp (mount fuel spec)
     (λ fs _, serving held fs ∧ fs_faults (bf_disk fs) = [] ∧ bf_sem_closed fs = false ∧
              shows held (bf_table fs) ROOT_INO ROOT_INO tr ∧ table_sound held (bf_table fs))
     (λ _ _, False) (c, s).
Proof.
  intros held Hle Ht Hok Hwf Hf Hrt Hsp Hm He HK Hs Hnone. unfold mount. wp_step. apply wp_zoom.
  apply validate_mountpoint_spec; [done..|]. intros s1 (Hn1 & _ & Hf1). cbn [fst snd] in *.
  wp_step. apply wp_zoom, wp_map_err. cbn [fst snd]. rewrite HK.
  eapply wp_mono; [apply create_dir_all_spec; [by rewrite Hn1|intros tg; by rewrite Hn1, Hnone]|..]; cbn beta.
  2:{ intros e s2 [[?|(m & b & Hb)] _]; [by rewrite Hf1 in *|]. rewrite Hn1 in Hb. congruence. }
  intros [] s2 (_ & Hn2 & _ & Hf2). rewrite Hn1 in Hn2. wp_step. apply wp_zoom, wp_map_err. cbn [fst snd].
  eapply wp_mono; [by apply (build_table_spec held n)|..]; cbn beta; [|done].
  intros t c2 (Hok2 & Hh2 & Hsh & Hso). rewrite Hrt. cbn [negb]. wp_step. wp_step. cbn beta. rewrite Hsp. wp_step.
  cbn [bf_disk bf_table bf_sem_closed id fst snd]. split; [|by split_and!; auto].
  split; cbn [bf_cas bf_disk bf_table bf_slots bf_cache_dir]; rewrite ?Hn2; [done|done|..].
  - apply fs_wf_insert; [done|by right].
  - by rewrite lookup_insert_eq.
  - intros x i. rewrite lookup_insert_ne by (intros E; by apply (app_snoc_ne (K ++ [k]) x)).
    intros Hi. exfalso. apply (fs_wf_prefix _ (K ++ [k]) [x]) in Hi; [congruence|done|done].
  - apply length_replicate.
  - intros i m. unfold fuse_slot. cbn [bf_slots]. destruct (i =? 0); [done|]. by intros [? _]%lookup_replicate.
Qed.

(** The states of a mount after some reads, of whatever and whether they failed
    or not. *)
Inductive read_from fs : BrokkrFs C → Prop :=
| rf_none : read_from fs fs
| rf_read fs' i off len : read_from fs fs' → read_from fs (fuse_read i off len fs').1.

Lemma read_from_serving held fs fs' :
  serving held fs → apart fs → table_sound held (bf_table fs) → read_from fs fs' → serving held fs' ∧ same_mount fs fs'.
Proof.
  intros Hs Ha Ht Hr. induction Hr as [|fs1 i off len Hr [Hs1 Hm1]]; [split; [done|apply same_mount_refl]|].
  assert (apart fs1) as Ha1 by by eapply same_mount_apart. pose proof Hm1 as (Ht1 & Hc1 & Hse1 & Hf1).
  pose proof (fuse_read_serving held fs1 i off len Hs1 Ha1) as Hw. rewrite Ht1 in Hw. specialize (Hw Ht). unfold wp in Hw.
  destruct (fuse_read i off len fs1) as [fs2 [r|e|]]; [|done..]. destruct Hw as [Hs2 Hm2]. split; [done|by eapply same_mount_trans].
Qed.

(** What the mount shows at an inode is what is on disk. *)
Definition entry_agrees fs (o : option N) (e : option inode) : Prop :=
  match o, e with
  | None, None => True
  | Some i, Some IDir => fuse_opendir (bf_table fs) i = inr ()
  | Some i, Some (ILink target) => fuse_readlink (bf_table fs) i = inr target
  | Some i, Some (IFile mode b) =>
      fuse_open (bf_table fs) i = inr () ∧
      (∃ a, fuse_getattr (bf_table fs) i = inr a ∧ fa_size a = N.of_nat (length b) ∧
            N.testbit (fa_perm a) 6 = N.testbit mode 6) ∧
      ∀ fs' off len, read_from fs fs' →
        (fuse_read i off len fs').2 = Ok (inr (take (N.to_nat len) (drop (N.to_nat off) b)))
  | _, _ => False
  end.

Lemma node_agrees held fs i n umask :
  serving held fs → fs_faults (bf_disk fs) = [] → bf_sem_closed fs = false → table_sound held (bf_table fs) →
  node_shown held (bf_table fs) i n → entry_agrees fs (Some i) (Some (disk_node umask n)).
Proof.
  intros Hs Hf Hc Ht Hn. unfold entry_agrees, fuse_opendir, fuse_readlink, fuse_open, fuse_getattr.
  destruct n as [|e b|tg]; cbn [node_shown disk_node] in *.
  - destruct Hn as [es Hg]. by rewrite Hg.
  - destruct Hn as (x & d & Hg & Hd & Hp & Hu). rewrite Hg. split; [done|]. split.
    + eexists. split; [done|]. split; [done|]. destruct e; [done|].
      change (N.testbit 292 6 = N.testbit (N.ldiff 438 umask) 6). by rewrite N.ldiff_spec.
    + intros fs' off len Hr. apply (read_from_serving held) in Hr as [Hs' (Ht' & _ & Hc' & Hf')]; [|done|by left|done].
      pose proof (fuse_read_spec held fs' i (x, (e, b)) off len Hs') as Hw. rewrite Ht' in Hw.
      specialize (Hw (or_introl (Hf' Hf)) ltac:(by exists d)). unfold wp in Hw.
      destruct (fuse_read i off len fs') as [fs2 [r|er|]]; [|done..]. destruct Hw as (_ & _ & [->|[_ [?|?]]]); [done|congruence|].
      by rewrite (Hf' Hf) in *.
  - by rewrite Hn.
Qed.

End mounting.

(** C24.  Mounting an input tree and materializing it give an action the same
    inputs.  From the same store and disk both succeed; and at every path below
    the root the mount has an entry exactly where the disk has one, of the same
    kind: a directory opens, a link has the same target, a file has the same size
    and execute bit, and a read of any range, after any reads before it, returns
    exactly that range of the file on disk. *)
Theorem mount_serves_materialized {C} `{CasSpec C, ErrText, DirCodec, TreeText, !ReliableCas C, MountEnv}
    n fuel tr spec (D K : path) k (c : C) (s : Fs) :
  (n ≤ fuel)%nat → tree_at (λ d, cas_has c d = true) n (root_digest spec) tr → cas_ok c →
  fs_wf (fs_nodes s) → fs_faults s = [] → in_runtime = true → spawn_mount2 = None →
  fs_nodes s !! mountpoint spec = Some IDir → (∀ p, inside (mountpoint spec) p → fs_nodes s !! p = None) →
  cache_dir spec = K ++ [k] → plain k → fs_nodes s !! K = Some IDir → fs_nodes s !! (K ++ [k]) = None →
  fs_nodes s !! D = Some IDir → (∀ p, inside D p → fs_nodes s !! p = None) →
  ∃ fs st w1 w2,
    mount fuel spec (c, s) = (w1, Ok fs) ∧ materialize_tree fuel (root_digest spec) D (c, s) = (w2, Ok st) ∧
    ∀ p, p ≠ [] → entry_agrees fs (resolve_path (bf_table fs) (Normal <$> p)) (fs_nodes w2.2 !! (D ++ p)).
Proof.
  intros Hle Ht Hok Hwf Hf Hrt Hsp Hm Hme HK Hk HKd Hnone HD He. pose proof (tree_at_distinct _ _ _ _ Ht) as Hdist.
  pose proof (mount_spec n fuel tr spec K k c s Hle Ht Hok Hwf Hf Hrt Hsp Hm Hme HK (conj Hwf (conj HKd Hk)) Hnone) as Hw1.
  pose proof (materialize_tree_exact _ n fuel (root_digest spec) tr D c s Hle Ht Hok (λ d Hd, Hd) Hwf HD Hf He) as Hw2.
  unfold wp in Hw1, Hw2. destruct (mount fuel spec (c, s)) as [w1 [fs|e|]]; [|done..].
  destruct (materialize_tree fuel (root_digest spec) D (c, s)) as [w2 [st|e|]]; [|done..].
  destruct Hw1 as (Hs & Hf' & Hc & Hsh & Hso), Hw2 as [Hn _]. exists fs, st, w1, w2. split; [done|]. split; [done|]. intros p Hp.
  rewrite Hn, placed_node by done. pose proof (resolve_node _ _ _ _ _ p Hsh Hdist) as Hr.
  unfold resolve_path, root_ino. destruct (tree_node p tr) as [nd|]; [|by rewrite Hr].
  destruct Hr as (i & -> & Hnd). by eapply node_agrees.
Qed.

(** ** A mount *)

#[local] Existing Instances tree_err_text tree_text tree_sha tree_codec.
#[local] Instance mount_env : MountEnv := {| in_runtime := true; spawn_mount2 := None |}.

Definition good_mount : InputMountSpec := mkInputMountSpec good_root ["work"] ["etc"; "cache"].

Lemma mount_serves_materialized_witness :
  ∃ fs st w1 w2,
    mount 2 good_mount (tree_store, host) = (w1, Ok fs) ∧
    materialize_tree 2 good_root ["work"] (tree_store, host) = (w2, Ok st) ∧
    ∀ p, p ≠ [] → entry_agrees fs (resolve_path (bf_table fs) (Normal <$> p)) (fs_nodes w2.2 !! (["work"] ++ p)).
Proof.
  apply (mount_serves_materialized 2 2 good_tree good_mount ["work"] ["etc"] "cache" tree_store host);
    [done|exact good_tree_at|exact tree_store_ok|exact host_wf|done|done|done|done|exact host_work_empty|done|by_vm|done|done|done|exact host_work_empty].
Defined.

(** A client that reads a mounted directory page by page, each from the
    offset the last entry came with, gets every entry exactly once, in the order
    of the names, whatever number of entries each reply has room for, as long as
    it has room for one: the directory itself, its parent, and each child with
    its inode and type. *)
Theorem readdir_lists_all calls fits t i es :
  table_get t i = Some (mkInode i (KDir es)) → (∀ x, x ∈ dom es → plain x) →
  (∀ k e, fits k [] e = true) → (size es + 2 < calls)%nat →
  ∃ l, read_pages calls fits t i 0 = Some l ∧ StronglySorted name_le l ∧ NoDup (de_name <$> l) ∧
    ∀ e, e ∈ l ↔ e = mkDirEntry i TDirectory "." ∨ e = mkDirEntry i TDirectory ".." ∨
                 ∃ x j, es !! x = Some j ∧ e = child_entry t x j.
Proof.
  intros Hg Hp Hfits Hc. exists (listing t i es). rewrite (read_pages_spec calls fits t i es 0 Hg Hfits).
  - split; [done|]. split; [apply listing_sorted|]. split; [by apply listing_names|]. apply elem_of_listing.
  - rewrite length_listing. lia.
Qed.

(** One entry to a reply. *)
Definition one_by_one (_ : nat) (sent : list DirEntry) (_ : DirEntry) : bool := bool_decide (sent = []).

Definition good_table : InodeTable := default [] (returned (build_table 2 good_root tree_store)).

Lemma readdir_lists_all_witness :
  ∃ l, read_pages 5 one_by_one good_table ROOT_INO 0 = Some l ∧ StronglySorted name_le l ∧ NoDup (de_name <$> l) ∧
    ∀ e, e ∈ l ↔ e = mkDirEntry ROOT_INO TDirectory "." ∨ e = mkDirEntry ROOT_INO TDirectory ".." ∨
      ∃ x j, ({["run" := 2; "bin" := 3]} : gmap string N) !! x = Some j ∧ e = child_entry good_table x j.
Proof.
  apply (readdir_lists_all 5 one_by_one good_table ROOT_INO {["run" := 2; "bin" := 3]}).
  - vm_compute. reflexivity.
  - intros x. rewrite dom_insert_L, dom_singleton_L, elem_of_union, !elem_of_singleton. intros [->| ->]; by_vm.
  - done.
  - vm_compute. lia.
Defined.

(** C25.  Reads from a mount whose files all differ in content are exact or fail
    cleanly, even on a disk whose calls may fail: after any reads before it, a
    read of a file ends the process never, and answers with exactly the range
    asked for or with an input/output error. *)
Theorem reads_exact_or_eio {C} `{CasSpec C, ErrText, DirCodec, TreeText, !ReliableCas C}
    held (fs fs' : BrokkrFs C) i f off len :
  serving held fs → table_sound held (bf_table fs) → apart fs → read_from fs fs' → file_shown held (bf_table fs) i f →
  (fuse_read i off len fs').2 = Ok (inr (take (N.to_nat len) (drop (N.to_nat off) f.2.2))) ∨
  (fuse_read i off len fs').2 = Ok (inl EIO).
Proof.
  intros Hs Ht Ha Hr Hf. destruct (read_from_serving held _ _ Hs Ha Ht Hr) as [Hs' Hm].
  pose proof (fuse_read_spec held fs' i f off len Hs' (same_mount_apart _ _ Hm Ha)) as Hw.
  destruct Hm as (Ht' & _). rewrite Ht' in Hw. specialize (Hw Hf). unfold wp in Hw.
  destruct (fuse_read i off len fs') as [fs2 [r|e|]]; [|done..]. destruct Hw as (_ & _ & [->|[-> _]]); auto.
Qed.

(** A mount of the good tree whose disk fails at the calls of [faults]. *)
Definition cached (faults : list (option IoFault)) : Fs :=
  mkFs (list_to_map [([], IDir); (["cache"], IDir)]) 18 faults.

Definition good_fs (faults : list (option IoFault)) : BrokkrFs InMemoryCas :=
  mkBrokkrFs good_table tree_store (cached faults) ["cache"] false (replicate 4 None).

Notation stored := (λ d, cas_has tree_store d = true).

Lemma good_table_built :
  shows stored good_table ROOT_INO ROOT_INO good_tree ∧ table_sound stored good_table.
Proof.
  pose proof (build_table_spec stored 2 2 good_root good_tree tree_store (le_n _) good_tree_at tree_store_ok (λ d Hd, Hd)) as Hw.
  unfold wp in Hw. unfold good_table, returned. destruct (build_table 2 good_root tree_store) as [c [t|e|]]; [|done..].
  by destruct Hw as (_ & _ & ? & ?).
Qed.

Lemma good_fs_serving faults : serving stored (good_fs faults).
Proof.
  split; cbn [bf_cas bf_disk bf_table bf_slots bf_cache_dir good_fs cached fs_nodes].
  - exact tree_store_ok.
  - done.
  - apply fs_wf_by; vm_compute; reflexivity.
  - vm_compute. reflexivity.
  - intros x i Hi. apply elem_of_list_to_map_2 in Hi. rewrite !elem_of_cons, elem_of_nil in Hi. naive_solver.
  - vm_compute. reflexivity.
  - intros i m. unfold fuse_slot. cbn [bf_slots good_fs]. destruct (i =? 0); [done|]. by intros [? _]%lookup_replicate.
Qed.

Lemma good_table_tool : ∃ x, file_shown stored good_table 4 (x, (true, tool)).
Proof.
  pose proof (resolve_node stored good_table ROOT_INO ROOT_INO good_tree ["bin"; "tool"] (proj1 good_table_built)
    (tree_at_distinct _ _ _ _ good_tree_at)) as (j & Hj & Hn).
  assert (resolve_from good_table ROOT_INO (Normal <$> ["bin"; "tool"]) = Some 4) as E by (vm_compute; reflexivity).
  rewrite E in Hj. injection Hj as <-. exact Hn.
Qed.

(** The tool is the only file. *)
Lemma good_fs_apart faults : apart (good_fs faults).
Proof.
  right. cbn [bf_table good_fs].
  assert (∀ i d sz e, table_get good_table i = Some (mkInode i (KFile d sz e)) → i = 4) as Hone.
  { intros i d sz e Hg. pose proof (table_get_bound _ _ _ Hg) as Hb.
    assert (length good_table = 4%nat) as Hl by (vm_compute; reflexivity). rewrite Hl in Hb.
    assert (i = 1 ∨ i = 2 ∨ i = 3 ∨ i = 4) as [->|[->|[->|?]]] by lia; [vm_compute in Hg; discriminate Hg..|done]. }
  intros i j d sz e d' sz' e' Hi Hj _. by rewrite (Hone _ _ _ _ Hi), (Hone _ _ _ _ Hj).
Qed.

(** The first read finds the disk full; the second does not. *)
Definition full_once : list (option IoFault) := [None; Some (mkIoFault "no space left" 1)].

Lemma reads_exact_or_eio_witness :
  (fuse_read 4 0 2 (good_fs full_once)).2 = Ok (inl EIO) ∧
  let fs' := (fuse_read 4 0 2 (good_fs full_once)).1 in
  (fuse_read 4 0 2 fs').2 = Ok (inr (take 2 (drop 0 tool))) ∨ (fuse_read 4 0 2 fs').2 = Ok (inl EIO).
Proof.
  split; [vm_compute; reflexivity|]. destruct good_table_tool as [x Hx].
  exact (reads_exact_or_eio stored (good_fs full_once) _ 4 (x, (true, tool)) 0 2 (good_fs_serving _) (proj2 good_table_built)
    (good_fs_apart _) (rf_read _ _ 4 0 2 (rf_none _)) Hx).
Defined.

(** Two files with the same content share one cache file.  A read of the second
    that finds the disk full has by then cut the file off that the first is
    mapped from, and the next read of the first ends the process. *)
Definition twins : InodeTable :=
  [mkInode 1 (KDir {["a" := 2; "b" := 3]}); mkInode 2 (KFile (Digest_of tool) 2 false); mkInode 3 (KFile (Digest_of tool) 2 false)].

Definition twin_fs : BrokkrFs InMemoryCas :=
  mkBrokkrFs twins tree_store (cached [None; None; None; None; Some (mkIoFault "no space left" 0)]) ["cache"] false (replicate 3 None).

Lemma twin_read_ends_process :
  let '(fs1, r1) := fuse_read 2 0 2 twin_fs in
  let '(fs2, r2) := fuse_read 3 0 2 fs1 in
  r1 = Ok (inr tool) ∧ r2 = Ok (inl EIO) ∧ (fuse_read 2 0 2 fs2).2 = Halt.
Proof. vm_compute. done. Qed.
