(* ===== verification/MetaKv.v ===== *)
(** * brokkr-control: the metadata store and the action cache on it

    Models [crates/brokkr-control/src/metakv.rs]: the [MetaKv] trait with its
    contract, the redb-backed store, and the adapter that makes an action cache
    of any such store.  The adapter does not override [gc_window]. *)

From stdpp Require Import prelude gmap strings.
From Stdlib Require Import Lia Strings.Ascii Strings.Byte.
From S2P Require Import Prelude Machine Bytes Common Redb Cas CasBackends ActionCache.

Local Open Scope N_scope.

Definition AC_PREFIX : bytes := as_bytes "ac/".
Definition DEFAULT_META_KV_CONCURRENCY : N := 16.

Inductive MetaKvError : Type :=
| KvStorage (msg : string)
| KvThroughputLimit (limit : N)
| KvNotLeader (leader leader_addr : option string).

(** [From<MetaKvError> for CasError]. *)
Definition cas_error_of (e : MetaKvError) : CasError :=
  match e with
  | KvStorage msg => CasRedb msg
  | KvThroughputLimit limit => CasThroughputLimit limit
  | KvNotLeader leader leader_addr => CasNotLeader leader leader_addr
  end.

(** ** The trait *)

Class MetaKv (K : Type) : Type := {
  kv_get : bytes → eff K MetaKvError (option bytes);
  kv_put : bytes → bytes → eff K MetaKvError ();
  kv_delete : bytes → eff K MetaKvError ();
  kv_scan_prefix : bytes → eff K MetaKvError (list (bytes * bytes))
}.

(** A store is a map; a scan lists a namespace in the order of its keys. *)
Class MetaKvSpec (K : Type) `{MetaKv K} : Type := {
  kv_view : K → gmap bytes bytes;
  kv_get_spec k s :
    wp (kv_get k) (λ r s', kv_view s' = kv_view s ∧ r = kv_view s !! k) (λ _ s', kv_view s' = kv_view s) s;
  kv_put_spec k v s :
    wp (kv_put k v) (λ _ s', kv_view s' = <[k := v]> (kv_view s)) (λ _ s', kv_view s' = kv_view s) s;
  kv_delete_spec k s :
    wp (kv_delete k) (λ _ s', kv_view s' = delete k (kv_view s)) (λ _ s', kv_view s' = kv_view s) s;
  kv_scan_prefix_spec p s :
    wp (kv_scan_prefix p) (λ r s', kv_view s' = kv_view s ∧ r = prefix_scan p (kv_view s))
       (λ _ s', kv_view s' = kv_view s) s
}.

(** ** redb *)

Definition RedbMetaKv : Type := RedbTable bytes.

Definition RedbMetaKv_open_with_limit (rows : gmap bytes bytes) (max_concurrent : N)
    (faults : list (option Fault)) : RedbMetaKv := mkRedbTable rows max_concurrent faults.
Definition RedbMetaKv_open (rows : gmap bytes bytes) (faults : list (option Fault)) : RedbMetaKv :=
  RedbMetaKv_open_with_limit rows DEFAULT_META_KV_CONCURRENCY faults.

(** [run_blocking] and [stor]: how a failed step is reported. *)
Definition stor (limit : N) (f : Fault) : MetaKvError :=
  match f with
  | Saturated => KvThroughputLimit limit
  | TxnFailed msg | JoinFailed msg => KvStorage msg
  end.

Definition run_blocking {A} (f : eff RedbMetaKv MetaKvError A) : eff RedbMetaKv MetaKvError A :=
  redb_begin stor;; f.

Definition rm_get (key : bytes) : eff RedbMetaKv MetaKvError (option bytes) :=
  run_blocking (gets (λ t, rt_table t !! key)).

Definition rm_put (key value : bytes) : eff RedbMetaKv MetaKvError () :=
  run_blocking (modify (set_table <[key := value]>)).

Definition rm_delete (key : bytes) : eff RedbMetaKv MetaKvError () :=
  run_blocking (modify (set_table (delete key))).

Definition rm_scan_prefix (prefix : bytes) : eff RedbMetaKv MetaKvError (list (bytes * bytes)) :=
  run_blocking (gets (λ t, take_prefix prefix (bmap_range prefix (rt_table t)))).

#[export] Instance RedbMetaKv_kv : MetaKv RedbMetaKv := {
  kv_get := rm_get;
  kv_put := rm_put;
  kv_delete := rm_delete;
  kv_scan_prefix := rm_scan_prefix
}.

Lemma wp_run_blocking {A} (f : eff RedbMetaKv MetaKvError A) Q X s :
  (∀ s', same_rows s s' → wp f Q X s') → (∀ e s', same_rows s s' → X e s') → wp (run_blocking f) Q X s.
Proof. intros HQ HX. unfold run_blocking. apply wp_bind, wp_redb_begin; [exact HQ|]. eauto. Qed.

#[export] Instance RedbMetaKv_spec : MetaKvSpec RedbMetaKv.
Proof.
  refine {| kv_view := rt_table |}; intros; simpl; (apply wp_run_blocking; [|by intros _ s' [? _]]);
    intros s' [Ht _]; wp_step; simpl; by rewrite Ht.
Defined.

(** ** The action cache adapter *)

Record MetaKvActionCache (K : Type) : Type := mkMetaKvActionCache { ma_kv : K }.
Arguments mkMetaKvActionCache {K}.
Arguments ma_kv {K}.

Definition MetaKvActionCache_new {K} (kv : K) : MetaKvActionCache K := mkMetaKvActionCache kv.

Definition ac_key (d : Digest) : bytes := AC_PREFIX ++ as_bytes (hash d).

Section adapter.
Context {K : Type} `{MetaKv K, ArCodec}.

(** A call on the store, its error converted by [?]. *)
Definition on_kv {A} (m : eff K MetaKvError A) : eff (MetaKvActionCache K) CasError A :=
  zoom ma_kv (λ k _, mkMetaKvActionCache k) (map_err cas_error_of m).

Definition ma_get_action_result (d : Digest) : eff (MetaKvActionCache K) CasError (option ActionResult) :=
  b ← on_kv (kv_get (ac_key d));
  match b with
  | None => mret None
  | Some b =>
      match dec_result b with
      | inl e => throw (CasRedb ("ActionResult decode: " +:+ e))
      | inr r => mret (Some r)
      end
  end.

Definition ma_update_action_result (d : Digest) (r : ActionResult) : eff (MetaKvActionCache K) CasError () :=
  on_kv (kv_put (ac_key d) (enc_result r)).

(** One row of a listing; malformed ones are skipped. *)
Definition ma_row (p : bytes * bytes) : option (Digest * ActionResult) :=
  hash ← from_utf8 (drop (length AC_PREFIX) p.1);
  match Digest_new hash (as_i64 (N.of_nat (length p.2))) with
  | Ok d => match dec_result p.2 with inr r => Some (d, r) | inl _ => None end
  | _ => None
  end.

Definition ma_list_entries : eff (MetaKvActionCache K) CasError (list (Digest * ActionResult)) :=
  entries ← on_kv (kv_scan_prefix AC_PREFIX);
  mret (omap ma_row entries).

#[export] Instance MetaKvActionCache_cache : ActionCache (MetaKvActionCache K) := {
  get_action_result := ma_get_action_result;
  update_action_result := ma_update_action_result;
  list_entries := ma_list_entries;
  gc_window_locks := default_gc_window_locks
}.

End adapter.

(** ** The adapter keeps the contract of an action cache *)

Lemma as_bytes_inj s s' : as_bytes s = as_bytes s' → s = s'.
Proof.
  unfold as_bytes. intros Hs. rewrite <-(String.string_of_list_byte_of_string s), Hs.
  apply String.string_of_list_byte_of_string.
Qed.

(** Hexadecimal text is ASCII. *)
Lemma hex_utf8 s : all_chars hex_char s = true → utf8_valid (as_bytes s) = true.
Proof.
  unfold as_bytes. induction s as [|c s IH]; [done|]. cbn [all_chars]. intros [Hc Hs]%andb_prop.
  cbn [String.list_byte_of_string map]. change (String.list_byte_of_string (String c s)) with (byte_of_ascii c :: String.list_byte_of_string s).
  cbn [utf8_valid]. assert (in_range 0 127 (byte_of_ascii c) = true) as ->; [|by apply IH].
  destruct c as [[] [] [] [] [] [] [] []]; vm_compute in Hc; try done; vm_compute; done.
Qed.

Section adapter_spec.
Context {K : Type} `{MetaKvSpec K, ArCodecSpec}.

(** Every row of the namespace is a well-formed hash and an encoded result. *)
Definition ma_ok (a : MetaKvActionCache K) : Prop :=
  ∀ k b, kv_view (ma_kv a) !! (AC_PREFIX ++ k) = Some b →
    ∃ h r, k = as_bytes h ∧ (str_bytes h = SHA256_HEX_LEN ∧ all_chars hex_char h = true) ∧
           b = enc_result r ∧ blob_fits b.

Definition ma_view (a : MetaKvActionCache K) (h : string) : option ActionResult :=
  b ← kv_view (ma_kv a) !! (AC_PREFIX ++ as_bytes h);
  match dec_result b with inr r => Some r | inl _ => None end.

Lemma ma_same a a' :
  ma_ok a → kv_view (ma_kv a') = kv_view (ma_kv a) → ma_ok a' ∧ ∀ h, ma_view a' h = ma_view a h.
Proof. unfold ma_ok, ma_view. by intros Hok ->. Qed.

Lemma ma_row_ok h r :
  str_bytes h = SHA256_HEX_LEN → all_chars hex_char h = true → blob_fits (enc_result r) →
  ∃ d, ma_row (AC_PREFIX ++ as_bytes h, enc_result r) = Some (d, r) ∧ hash d = h.
Proof.
  intros Hl Hx Hf. unfold ma_row. cbn [fst snd]. rewrite drop_app_length, from_utf8_as_bytes by by apply hex_utf8.
  destruct (row_entry_ok h r Hl Hx Hf) as (d & Hd & Hh). exists d. split; [|done]. exact Hd.
Qed.

#[export] Instance MetaKvActionCache_spec : ActionCacheSpec (MetaKvActionCache K).
Proof.
  refine {| ac_ok := ma_ok; ac_fits r := blob_fits (enc_result r); ac_view := ma_view |}.
  - intros d a Hok. simpl. unfold ma_get_action_result, on_kv. wp_step. apply wp_zoom, wp_map_err.
    eapply wp_mono; [apply kv_get_spec|..]; cbn beta; [|intros e k Hk; by apply ma_same].
    intros r k [Hk ->]. unfold ma_view at 3, ac_key. pose proof (ma_same a (mkMetaKvActionCache k) Hok Hk) as Hs.
    destruct (kv_view (ma_kv a) !! (AC_PREFIX ++ as_bytes (hash d))) as [b|] eqn:Hb; [|by wp_step].
    destruct (Hok _ _ Hb) as (h & r & _ & _ & -> & _). simpl. rewrite dec_enc_result. by wp_step.
  - intros d r a Hok (Hl & Hx & _) Hf. simpl. unfold ma_update_action_result, on_kv. apply wp_zoom, wp_map_err.
    eapply wp_mono; [apply kv_put_spec|..]; cbn beta; [|intros e k Hk; by apply ma_same].
    intros [] k Hk. unfold ma_ok, ma_view. cbn [ma_kv]. rewrite Hk. split.
    + intros k' b. rewrite lookup_insert_Some. intros [[Hk' <-]|[_ Hb]]; [|by apply (Hok k' b)].
      apply app_inv_head in Hk' as <-. by exists (hash d), r.
    + intros h. case_decide as Hh.
      * subst h. unfold ac_key. rewrite lookup_insert_eq. simpl. by rewrite dec_enc_result.
      * rewrite lookup_insert_ne; [done|]. unfold ac_key. intros E%app_inv_head%as_bytes_inj. by apply Hh.
  - intros a Hok. simpl. unfold ma_list_entries, on_kv. wp_step. apply wp_zoom, wp_map_err.
    eapply wp_mono; [apply kv_scan_prefix_spec|..]; cbn beta; [|intros e k Hk; by apply ma_same].
    intros es k [Hk ->]. wp_step. split; [by apply ma_same|]. intros h r. unfold ma_view. split.
    + destruct (kv_view (ma_kv a) !! _) as [b|] eqn:Hb; [|done].
      destruct (Hok _ _ Hb) as (h' & r' & <-%as_bytes_inj & [Hl Hx] & -> & Hf). simpl. rewrite dec_enc_result. intros [= <-].
      destruct (ma_row_ok h r' Hl Hx Hf) as (d & Hd & Hh). exists d. split; [|done]. apply list_elem_of_omap.
      eexists. split; [|exact Hd]. apply prefix_scan_elem. split; [done|]. apply starts_with_app. by eexists.
    + intros (d & ([k' b] & [Hb [t ->]%starts_with_app]%prefix_scan_elem & Hd)%list_elem_of_omap & Hh).
      destruct (Hok _ _ Hb) as (h' & r' & -> & [Hl Hx] & -> & Hf).
      destruct (ma_row_ok h' r' Hl Hx Hf) as (d' & Hd' & Hh'). rewrite Hd' in Hd. injection Hd as <- <-.
      rewrite <-Hh, Hh', Hb. simpl. by rewrite dec_enc_result.
Defined.

End adapter_spec.
