(* ===== verification/RaftTypes.v ===== *)
(** * brokkr-raft: types, hard state and errors

    Models [crates/brokkr-raft/src/types.rs], [state.rs] and [error.rs]: the
    newtypes [Term], [LogIndex] and [NodeId], log entries and their payloads,
    cluster configurations with the joint-consensus quorum rule, snapshot
    metadata, the durable hard state, and the conversions to and from the
    protobuf messages of [brokkr/v1/raft.proto]. *)

From stdpp Require Import prelude gmap strings pretty.
From Stdlib Require Import Lia.
From S2P Require Import Prelude Machine Bytes.

Local Open Scope N_scope.

(** ** Errors ([error.rs]) *)

Inductive RaftError : Type :=
| InvalidNodeId (msg : string)
| Storage (msg : string)
| Codec (msg : string)
| Transport (msg : string)
| UnknownPeer (peer : string)
| NotLeader (leader : option string)
| Snapshot (msg : string)
| ConfChange (msg : string).

#[export] Instance RaftError_eq_dec : EqDecision RaftError.
Proof. solve_decision. Defined.

(** ** Terms and log indices *)

Notation Term := u64.
Notation LogIndex := u64.

Definition Term_ZERO : Term := u64_0.
Definition Term_next (t : Term) : Term := saturating_add t u64_1.

Definition LogIndex_ZERO : LogIndex := u64_0.
Definition LogIndex_next (i : LogIndex) : LogIndex := saturating_add i u64_1.
Definition LogIndex_prev (i : LogIndex) : LogIndex := saturating_sub i u64_1.

Lemma Term_next_val t : u64_val (Term_next t) = N.min (t + 1) u64_max.
Proof. apply saturating_add_val. Qed.
Lemma LogIndex_next_val i : u64_val (LogIndex_next i) = N.min (i + 1) u64_max.
Proof. apply saturating_add_val. Qed.
Lemma LogIndex_prev_val i : u64_val (LogIndex_prev i) = i - 1.
Proof. apply saturating_sub_val. Qed.

#[export] Hint Rewrite Term_next_val LogIndex_next_val LogIndex_prev_val : u64.
#[global] Opaque Term_next LogIndex_next LogIndex_prev.

(** ** Node identifiers *)

Definition NODE_ID_MAX_LEN : N := 128.

Definition str_len (s : string) : N := N.of_nat (String.length s).

(** A [NodeId] wraps a [String] (UTF-8 by its type) that is non-empty and no
    longer than [NODE_ID_MAX_LEN] bytes. *)
Definition node_id_ok (s : string) : bool :=
  utf8_valid (as_bytes s) && negb (String.eqb s "") && (str_len s <=? NODE_ID_MAX_LEN).

Record NodeId : Type := NodeId_mk {
  as_str : string;
  node_id_valid : Is_true (node_id_ok as_str)
}.

(** [NodeId::new].  The last test stands for the [String] argument's type: a
    Rust string is always UTF-8. *)
Definition NodeId_new (inner : string) : outcome RaftError NodeId :=
  if String.eqb inner "" then Err (InvalidNodeId "empty")
  else if NODE_ID_MAX_LEN <? str_len inner then
    Err (InvalidNodeId ("exceeds 128 bytes: got " +:+ pretty (str_len inner)))
  else
    match node_id_ok inner as b return node_id_ok inner = b → outcome RaftError NodeId with
    | true => λ H, Ok (NodeId_mk inner (istrue_of H))
    | false => λ _, Err (InvalidNodeId "not UTF-8")
    end eq_refl.

Lemma NodeId_inj (a b : NodeId) : as_str a = as_str b → a = b.
Proof.
  destruct a as [s Hs], b as [s' Hs']; simpl. intros ->. by rewrite (proof_irrel Hs Hs').
Qed.

#[export] Instance NodeId_eq_dec : EqDecision NodeId := λ a b,
  match decide (as_str a = as_str b) with
  | left H => left (NodeId_inj a b H)
  | right H => right (λ E, H (f_equal as_str E))
  end.

Definition NodeId_of (s : string) : option NodeId :=
  match NodeId_new s with Ok n => Some n | _ => None end.

Lemma NodeId_new_ok s n : NodeId_new s = Ok n → as_str n = s ∧ node_id_ok s = true.
Proof.
  unfold NodeId_new. destruct (String.eqb s ""); [done|].
  destruct (NODE_ID_MAX_LEN <? str_len s); [done|].
  generalize (eq_refl (node_id_ok s)).
  enough (∀ b (E : node_id_ok s = b),
    match b as b' return (node_id_ok s = b' → outcome RaftError NodeId) with
    | true => λ H, Ok (NodeId_mk s (istrue_of H))
    | false => λ _, Err (InvalidNodeId "not UTF-8")
    end E = Ok n → as_str n = s ∧ b = true) as H by exact (H _).
  intros [] E ?; by simplify_eq/=.
Qed.

Lemma NodeId_new_as_str (n : NodeId) : NodeId_new (as_str n) = Ok n.
Proof.
  destruct n as [s Hs]. cbn [as_str].
  pose proof (Is_true_true_1 _ Hs) as Hok. pose proof Hok as Hparts.
  unfold node_id_ok in Hparts. rewrite !andb_true_iff, negb_true_iff, N.leb_le in Hparts.
  destruct Hparts as [[_ Hne] Hlen]. unfold NodeId_new. rewrite Hne.
  destruct (N.ltb_spec NODE_ID_MAX_LEN (str_len s)); [lia|].
  generalize (eq_refl (node_id_ok s)).
  enough (∀ b (E : node_id_ok s = b), b = true →
    match b as b' return (node_id_ok s = b' → outcome RaftError NodeId) with
    | true => λ H, Ok (NodeId_mk s (istrue_of H))
    | false => λ _, Err (InvalidNodeId "not UTF-8")
    end E = Ok (NodeId_mk s Hs)) as H' by (intros E; by apply H').
  intros [] E Hb; [|done]. do 2 f_equal. apply proof_irrel.
Qed.

#[export] Program Instance NodeId_countable : Countable NodeId :=
  inj_countable as_str NodeId_of _.
Next Obligation. intros n. unfold NodeId_of. by rewrite NodeId_new_as_str. Qed.

(** [BTreeSet<NodeId>] iteration. *)
Definition node_iter (s : gset NodeId) : list NodeId := btree_iter as_str s.

(** ** Cluster configurations *)

Record ClusterConfig : Type := mkClusterConfig {
  voters : gset NodeId;
  old_voters : option (gset NodeId);
  learners : gset NodeId
}.

#[export] Instance ClusterConfig_eq_dec : EqDecision ClusterConfig.
Proof. solve_decision. Defined.

Definition ClusterConfig_default : ClusterConfig := mkClusterConfig ∅ None ∅.

Definition ClusterConfig_single (vs : gset NodeId) : ClusterConfig := mkClusterConfig vs None ∅.

Definition is_joint (c : ClusterConfig) : bool :=
  match old_voters c with Some _ => true | None => false end.

(** The local function [majority] of [has_quorum]: a strict majority of a
    non-empty voter set. *)
Definition majority (vs acks : gset NodeId) : bool :=
  negb (bool_decide (vs = ∅)) &&
  (size vs <? size (filter (λ v, v ∈ acks) vs) * 2)%nat.

Definition has_quorum (c : ClusterConfig) (acks : gset NodeId) : bool :=
  majority (voters c) acks &&
  match old_voters c with None => true | Some old => majority old acks end.

(** ** Entries and snapshots *)

Inductive EntryPayload : Type :=
| Command (c : bytes)
| Noop
| Config (c : ClusterConfig).

Record LogEntry : Type := mkLogEntry {
  le_term : Term;
  le_index : LogIndex;
  le_payload : EntryPayload
}.

#[export] Instance EntryPayload_eq_dec : EqDecision EntryPayload.
Proof. solve_decision. Defined.
#[export] Instance LogEntry_eq_dec : EqDecision LogEntry.
Proof. solve_decision. Defined.

Definition LogEntry_new (t : Term) (i : LogIndex) (c : bytes) : LogEntry :=
  mkLogEntry t i (Command c).

Definition LogEntry_with_payload (t : Term) (i : LogIndex) (p : EntryPayload) : LogEntry :=
  mkLogEntry t i p.

Definition LogEntry_command (e : LogEntry) : option bytes :=
  match le_payload e with Command c => Some c | _ => None end.

Record SnapshotMeta : Type := mkSnapshotMeta {
  last_included_index : LogIndex;
  last_included_term : Term;
  snap_config : ClusterConfig
}.

#[export] Instance SnapshotMeta_eq_dec : EqDecision SnapshotMeta.
Proof. solve_decision. Defined.

(** ** Hard state ([state.rs]) *)

Record HardState : Type := mkHardState {
  current_term : Term;
  voted_for : option NodeId
}.

#[export] Instance HardState_eq_dec : EqDecision HardState.
Proof. solve_decision. Defined.

Definition HardState_new : HardState := mkHardState Term_ZERO None.
Definition stepped_to (h : HardState) (t : Term) : HardState := mkHardState t None.
Definition voting_for (h : HardState) (c : NodeId) : HardState :=
  mkHardState (current_term h) (Some c).

(** ** Protobuf forms ([raft.proto] and the [From]/[TryFrom] impls) *)

Record pb_ClusterConfig : Type := mk_pb_ClusterConfig {
  pbc_voters : list string;
  pbc_old_voters : list string;
  pbc_learners : list string
}.

Record pb_LogEntry : Type := mk_pb_LogEntry {
  pbe_term : u64;
  pbe_index : u64;
  pbe_command : bytes;
  pbe_kind : Z;
  pbe_config : option pb_ClusterConfig
}.

Inductive EntryKind : Type := KCommand | KNoop | KConfig.

(** [kind as i32] and [EntryKind::try_from(i32)]. *)
Definition EntryKind_to_i32 (k : EntryKind) : Z :=
  match k with KCommand => 0 | KNoop => 1 | KConfig => 2 end.

Definition EntryKind_try_from (k : Z) : option EntryKind :=
  if (k =? 0)%Z then Some KCommand
  else if (k =? 1)%Z then Some KNoop
  else if (k =? 2)%Z then Some KConfig
  else None.

Definition ids_to_pb (s : gset NodeId) : list string := as_str <$> node_iter s.

Definition ClusterConfig_to_pb (c : ClusterConfig) : pb_ClusterConfig :=
  mk_pb_ClusterConfig
    (ids_to_pb (voters c))
    (match old_voters c with None => [] | Some old => ids_to_pb old end)
    (ids_to_pb (learners c)).

(** [ids.into_iter().map(NodeId::new).collect()]: the first invalid id wins. *)
Fixpoint parse_ids (ids : list string) : outcome RaftError (gset NodeId) :=
  match ids with
  | [] => Ok ∅
  | s :: ids =>
      match NodeId_new s with
      | Ok n =>
          match parse_ids ids with
          | Ok ns => Ok ({[n]} ∪ ns)
          | Err e => Err e
          | Halt => Halt
          end
      | Err e => Err e
      | Halt => Halt
      end
  end.

Definition ClusterConfig_try_from (p : pb_ClusterConfig) : outcome RaftError ClusterConfig :=
  match parse_ids (pbc_voters p) with
  | Ok vs =>
  match parse_ids (pbc_old_voters p) with
  | Ok old =>
  match parse_ids (pbc_learners p) with
  | Ok ls =>
      match head (node_iter (vs ∩ ls)) with
      | Some id => Err (Codec ("node " +:+ as_str id +:+ " is both a voter and a learner"))
      | None =>
      match head (node_iter (old ∩ ls)) with
      | Some id => Err (Codec ("node " +:+ as_str id +:+ " is both an old voter and a learner"))
      | None => Ok (mkClusterConfig vs (if bool_decide (old = ∅) then None else Some old) ls)
      end end
  | Err e => Err e | Halt => Halt end
  | Err e => Err e | Halt => Halt end
  | Err e => Err e | Halt => Halt end.

Definition LogEntry_to_pb (e : LogEntry) : pb_LogEntry :=
  let '(kind, command, config) :=
    match le_payload e with
    | Command c => (KCommand, c, None)
    | Noop => (KNoop, [], None)
    | Config c => (KConfig, [], Some (ClusterConfig_to_pb c))
    end in
  mk_pb_LogEntry (le_term e) (le_index e) command (EntryKind_to_i32 kind) config.

Definition pretty_Z (z : Z) : string :=
  if (z <? 0)%Z then "-" +:+ pretty (Z.to_N (- z)) else pretty (Z.to_N z).

Definition is_nil {A} (l : list A) : bool := match l with [] => true | _ => false end.

Definition LogEntry_try_from (p : pb_LogEntry) : outcome RaftError LogEntry :=
  let build (pl : EntryPayload) := Ok (mkLogEntry (pbe_term p) (pbe_index p) pl) in
  match EntryKind_try_from (pbe_kind p) with
  | None => Err (Codec ("unknown log entry kind " +:+ pretty_Z (pbe_kind p)))
  | Some KCommand =>
      match pbe_config p with
      | Some _ => Err (Codec "COMMAND log entry must not carry a config")
      | None => build (Command (pbe_command p))
      end
  | Some KNoop =>
      if negb (is_nil (pbe_command p)) || bool_decide (is_Some (pbe_config p)) then
        Err (Codec "NOOP log entry must not carry command or config data")
      else build Noop
  | Some KConfig =>
      if negb (is_nil (pbe_command p)) then
        Err (Codec "CONFIG log entry must not carry command data")
      else
        match pbe_config p with
        | None => Err (Codec "CONFIG log entry without a config")
        | Some pc =>
            match ClusterConfig_try_from pc with
            | Ok c =>
                if bool_decide (voters c = ∅) then
                  Err (Codec "CONFIG log entry must name at least one voter")
                else build (Config c)
            | Err e => Err e
            | Halt => Halt
            end
        end
  end.

(** ** Quorums *)

(** Every voter set whose majority a decision under [c] needs. *)
Definition voter_sets (c : ClusterConfig) : list (gset NodeId) :=
  voters c :: option_list (old_voters c).

(** Any two decisions, one under each configuration, share a decider. *)
Definition quorums_intersect (c1 c2 : ClusterConfig) : Prop :=
  ∀ a b, has_quorum c1 a = true → has_quorum c2 b = true → ∃ x, x ∈ a ∧ x ∈ b.

Lemma majority_size vs acks :
  majority vs acks = true ↔ vs ≠ ∅ ∧ (size vs < size (filter (λ v, v ∈ acks) vs) * 2)%nat.
Proof.
  unfold majority. rewrite andb_true_iff, negb_true_iff, bool_decide_eq_false, Nat.ltb_lt. done.
Qed.

Lemma majority_mono vs a b : a ⊆ b → majority vs a = true → majority vs b = true.
Proof.
  rewrite !majority_size. intros Hab [Hne Hsz]. split; [done|].
  assert (size (filter (λ v, v ∈ a) vs) ≤ size (filter (λ v, v ∈ b) vs))%nat; [|lia].
  apply subseteq_size. set_solver.
Qed.

Lemma majority_ext vs a b :
  (∀ v, v ∈ vs → v ∈ a ↔ v ∈ b) → majority vs a = majority vs b.
Proof.
  intros Hab. unfold majority.
  replace (filter (λ v, v ∈ a) vs) with (filter (λ v, v ∈ b) vs); [done|].
  apply set_eq. set_solver.
Qed.

(** The pigeonhole argument behind every Raft safety property. *)
Lemma majority_intersect vs a b :
  majority vs a = true → majority vs b = true → ∃ x, x ∈ vs ∧ x ∈ a ∧ x ∈ b.
Proof.
  rewrite !majority_size. intros [_ Ha] [_ Hb].
  set (A := filter (λ v, v ∈ a) vs) in *. set (B := filter (λ v, v ∈ b) vs) in *.
  destruct (set_choose_or_empty (A ∩ B)) as [[x Hx]|Hempty].
  { exists x. set_solver. }
  assert (size (A ∪ B) ≤ size vs)%nat by (apply subseteq_size; set_solver).
  rewrite size_union in * by set_solver. lia.
Qed.

Lemma has_quorum_sets c acks :
  has_quorum c acks = true ↔ ∀ vs, vs ∈ voter_sets c → majority vs acks = true.
Proof.
  unfold has_quorum, voter_sets. rewrite andb_true_iff.
  destruct (old_voters c) as [old|]; simpl; setoid_rewrite elem_of_cons;
    [setoid_rewrite list_elem_of_singleton|setoid_rewrite elem_of_nil]; naive_solver.
Qed.

Lemma has_quorum_mono c a b : a ⊆ b → has_quorum c a = true → has_quorum c b = true.
Proof. rewrite !has_quorum_sets. eauto using majority_mono. Qed.

(** Configurations that share a voter set have intersecting quorums. *)
Lemma shared_voters_intersect c1 c2 vs :
  vs ∈ voter_sets c1 → vs ∈ voter_sets c2 → quorums_intersect c1 c2.
Proof.
  intros H1 H2 a b Ha Hb. rewrite has_quorum_sets in Ha, Hb.
  destruct (majority_intersect vs a b) as (x & _ & ?); eauto.
Qed.

(** Quorum safety of joint consensus: with [C_old,new] in force, every
    quorum meets every quorum of [C_old], of [C_new] and of [C_old,new] itself,
    whatever learners each carries; and any configuration's quorums meet each
    other.  No two of the configurations of one membership change can decide
    independently. *)
Theorem quorum_intersection old new l1 l2 l3 c :
  quorums_intersect (mkClusterConfig old None l1) (mkClusterConfig new (Some old) l2) ∧
  quorums_intersect (mkClusterConfig new (Some old) l2) (mkClusterConfig new None l3) ∧
  quorums_intersect c c.
Proof.
  split_and!.
  - apply (shared_voters_intersect _ _ old); unfold voter_sets; set_solver.
  - apply (shared_voters_intersect _ _ new); unfold voter_sets; set_solver.
  - apply (shared_voters_intersect _ _ (voters c)); unfold voter_sets; set_solver.
Qed.

(** Only voters count: a quorum test depends on the acknowledgements of
    the configuration's voters alone, so adding learners or strangers to the
    acknowledgement set changes nothing; and an empty voter set never reaches
    quorum. *)
Theorem quorum_counts_voters_only c acks strangers :
  (∀ vs x, vs ∈ voter_sets c → x ∈ strangers → x ∉ vs) →
  has_quorum c (acks ∪ strangers) = has_quorum c acks ∧
  has_quorum (mkClusterConfig ∅ (old_voters c) (learners c)) acks = false.
Proof.
  intros Hs. split; [|done]. unfold has_quorum.
  rewrite (majority_ext (voters c) (acks ∪ strangers) acks).
  2:{ intros v Hv. specialize (Hs (voters c) v). unfold voter_sets in Hs. set_solver. }
  destruct (old_voters c) as [old|] eqn:Hold; [|done].
  rewrite (majority_ext old (acks ∪ strangers) acks); [done|].
  intros v Hv. specialize (Hs old v). unfold voter_sets in Hs. rewrite Hold in Hs. set_solver.
Qed.

Lemma quorum_counts_voters_only_witness :
  has_quorum (ClusterConfig_single {[NodeId_mk "a" I]}) ({[NodeId_mk "a" I]} ∪ {[NodeId_mk "b" I]})
    = has_quorum (ClusterConfig_single {[NodeId_mk "a" I]}) {[NodeId_mk "a" I]}.
Proof.
  refine (proj1 (quorum_counts_voters_only (ClusterConfig_single {[NodeId_mk "a" I]}) _ _ _)).
  intros vs x [->|Hin]%elem_of_cons ->%elem_of_singleton; [|by apply elem_of_nil in Hin].
  simpl. rewrite elem_of_singleton. discriminate.
Defined.

(** ** Protobuf round trips *)

(** What the decoder enforces of a configuration. *)
Definition config_canonical (c : ClusterConfig) : Prop :=
  voters c ## learners c ∧
  match old_voters c with None => True | Some old => old ## learners c ∧ old ≠ ∅ end.

Definition entry_canonical (e : LogEntry) : Prop :=
  match le_payload e with
  | Config c => config_canonical c ∧ voters c ≠ ∅
  | _ => True
  end.

Lemma parse_ids_map (l : list NodeId) : parse_ids (as_str <$> l) = Ok (list_to_set l).
Proof.
  induction l as [|n l IH]; simpl; [done|].
  rewrite NodeId_new_as_str. fold (as_str <$> l). by rewrite IH.
Qed.

Lemma parse_ids_to_pb (s : gset NodeId) : parse_ids (ids_to_pb s) = Ok s.
Proof.
  unfold ids_to_pb. rewrite parse_ids_map. f_equal. apply set_eq. intros n.
  rewrite elem_of_list_to_set. apply btree_iter_elem.
Qed.

Lemma head_node_iter_None (s : gset NodeId) : head (node_iter s) = None ↔ s = ∅.
Proof.
  split.
  - intros Hh. apply elem_of_equiv_empty_L. intros x Hx.
    apply (btree_iter_elem as_str) in Hx. unfold node_iter in Hh.
    destruct (btree_iter as_str s); [by apply elem_of_nil in Hx|done].
  - by intros ->.
Qed.

Lemma head_node_iter_disjoint (s t : gset NodeId) : head (node_iter (s ∩ t)) = None ↔ s ## t.
Proof. rewrite head_node_iter_None. set_solver. Qed.

Lemma ClusterConfig_roundtrip c :
  config_canonical c → ClusterConfig_try_from (ClusterConfig_to_pb c) = Ok c.
Proof.
  destruct c as [vs [old|] ls]; unfold config_canonical, ClusterConfig_try_from; simpl.
  - intros (Hd & Hdo & Hne). rewrite !parse_ids_to_pb.
    rewrite (proj2 (head_node_iter_disjoint _ _) Hd), (proj2 (head_node_iter_disjoint _ _) Hdo).
    by rewrite bool_decide_eq_false_2.
  - intros [Hd _]. rewrite !parse_ids_to_pb.
    rewrite (proj2 (head_node_iter_disjoint _ _) Hd).
    rewrite (proj2 (head_node_iter_disjoint ∅ _)) by set_solver. done.
Qed.

Lemma ClusterConfig_try_from_canonical p c :
  ClusterConfig_try_from p = Ok c → config_canonical c.
Proof.
  unfold ClusterConfig_try_from, config_canonical. intros H.
  repeat case_match; simplify_eq/=; rewrite head_node_iter_disjoint in *;
    rewrite ?bool_decide_eq_false in *; naive_solver.
Qed.

Lemma log_entry_roundtrip :
  (∀ e, entry_canonical e → LogEntry_try_from (LogEntry_to_pb e) = Ok e) ∧
  (∀ p e, LogEntry_try_from p = Ok e →
     entry_canonical e ∧ le_term e = pbe_term p ∧ le_index e = pbe_index p).
Proof.
  split.
  - intros [t i [c| |c]]; unfold entry_canonical, LogEntry_try_from; simpl; [done..|].
    intros [Hc Hne]. rewrite ClusterConfig_roundtrip by done. by rewrite bool_decide_eq_false_2.
  - intros p e He. unfold LogEntry_try_from in He. repeat case_match; simplify_eq/=; try done.
    unfold entry_canonical; simpl. rewrite bool_decide_eq_false in *.
    eauto using ClusterConfig_try_from_canonical.
Qed.

(** The log entry codec loses nothing and admits nothing foreign: an entry
    a node can hold decodes back to itself from its protobuf form, and whatever
    the decoder accepts is canonical (learners disjoint from both voter sets,
    no empty old voter set, a configuration entry names a voter), keeps the
    message's term and index, and re-encodes and decodes to the same entry. *)
Theorem log_entry_codec :
  (∀ e, entry_canonical e → LogEntry_try_from (LogEntry_to_pb e) = Ok e) ∧
  (∀ p e, LogEntry_try_from p = Ok e →
     entry_canonical e ∧ le_term e = pbe_term p ∧ le_index e = pbe_index p ∧
     LogEntry_try_from (LogEntry_to_pb e) = Ok e).
Proof.
  destruct log_entry_roundtrip as [Hrt Hdec]. split; [done|]. intros p e He.
  destruct (Hdec p e He) as (?&?&?). eauto.
Qed.
