(* ===== verification/RaftProtocol.v ===== *)
(** * The Raft protocol, abstractly

    The protocol [brokkr-raft] implements, without its machinery: a server is a
    term, a vote, a role, a whole log and a commit index; a message once sent may
    be received any number of times; the voters are those of the latest
    configuration in a server's own log, changed through joint configurations.
    One constructor of [pstep] per atomic thing a server does.

    Three history variables make the argument first-order: every ballot with the
    voter's log when it was cast; for every term that was won its leader and the
    log that leader built; and every decision to commit, in order.  The invariant
    [pinv] of the reachable states yields log matching, leader completeness and
    the agreement of committed prefixes ([RaftAgreement.v]).  [RaftSim.v] shows
    that the node's methods are sequences of these steps. *)

From stdpp Require Import prelude functions gmap strings.
From Stdlib Require Import Lia.
From S2P Require Import Prelude Machine RaftTypes.

(** ** State *)

Inductive PRole : Type :=
| PFollower
| PCandidate
| PLeader (matched : gmap NodeId nat).

Record PServer : Type := mkPServer {
  p_term : N;
  p_vote : option NodeId;
  p_role : PRole;
  p_log : list LogEntry;
  p_commit : nat
}.

Definition PServer_new : PServer := mkPServer 0 None PFollower [] 0.

(** Positions in a log count from one; [prev] is the number of entries before the
    ones sent. *)
Inductive PMsg : Type :=
| PVoteReq (c : NodeId) (t : N) (len : nat) (lt : N)
| PAppend (t : N) (prev : nat) (pt : N) (es : list LogEntry) (lc : nat)
| PAck (v : NodeId) (t : N) (m : nat)
| PSnap (t : N) (prefix : list LogEntry).

Record PBallot : Type := mkPBallot {
  pb_voter : NodeId;
  pb_term : N;
  pb_cand : NodeId;
  pb_log : list LogEntry
}.

(** Position [pc_pos] was committed by the leader of [pc_term], whose log had
    [pc_len] entries. *)
Record PCommit : Type := mkPCommit {
  pc_term : N;
  pc_pos : nat;
  pc_len : nat
}.

Record PState : Type := mkPState {
  psrv : NodeId → PServer;
  pnet : list PMsg;
  pballots : list PBallot;
  pcommits : list PCommit;
  phist : gmap N (NodeId * list LogEntry)
}.

Definition PState_new : PState := mkPState (λ _, PServer_new) [] [] [] ∅.

(** ** Logs *)

Definition eterm (e : LogEntry) : N := u64_val (le_term e).

(** The term at position [i], zero for the position before the first entry. *)
Definition term_of (l : list LogEntry) (i : nat) : N :=
  match i with O => 0%N | S j => from_option eterm 0%N (l !! j) end.

Definition last_term (l : list LogEntry) : N := term_of l (length l).

(** The election restriction, against the length and last term a candidate
    claims. *)
Definition covered (l : list LogEntry) (len : nat) (lt : N) : Prop :=
  (last_term l < lt)%N ∨ (last_term l = lt ∧ length l ≤ len).

(** Merging entries [es] that follow position [prev] into a log whose first [sn]
    entries are settled: keep what agrees, cut at the first that does not. *)
Fixpoint pmerge (sn prev : nat) (es : list LogEntry) (l : list LogEntry) : list LogEntry :=
  match es with
  | [] => l
  | e :: rest =>
      if decide (S prev ≤ sn) then pmerge sn (S prev) rest l
      else
        match l !! prev with
        | Some x => if decide (eterm x = eterm e) then pmerge sn (S prev) rest l else take prev l ++ es
        | None => l ++ es
        end
  end.

(** The entries [es] are those of [l] after position [prev], and [pt] the term
    there; or a probe beyond the end of [l], which carries nothing. *)
Definition slice (l : list LogEntry) (prev : nat) (pt : N) (es : list LogEntry) : Prop :=
  (prev ≤ length l ∧ pt = term_of l prev ∧ es `prefix_of` drop prev l) ∨
  (es = [] ∧ pt = 0%N ∧ 0 < prev).

(** ** Configurations *)

(** The voters, and while a change is in progress the voters before it. *)
Definition Votes : Type := gset NodeId * option (gset NodeId).

Definition votes_of (c : ClusterConfig) : Votes := (voters c, old_voters c).

Definition entry_votes (e : LogEntry) : option Votes :=
  match le_payload e with Config c => Some (votes_of c) | _ => None end.

Definition quorum_of (c : Votes) (Q : gset NodeId) : Prop :=
  has_quorum (mkClusterConfig c.1 c.2 ∅) Q = true.

(** One configuration after another: the voters stay, or a joint configuration
    is entered, or it is left for its new voters. *)
Definition follows (c c' : Votes) : Prop :=
  match c.2 with
  | None => c' = c ∨ c'.2 = Some c.1
  | Some _ => c' = (c.1, None)
  end.

Fixpoint scan_config (i : nat) (acc : nat * Votes) (l : list LogEntry) : nat * Votes :=
  match l with
  | [] => acc
  | e :: l =>
      scan_config (S i) (match entry_votes e with Some c => (S i, c) | None => acc end) l
  end.

(** The voters every server starts from. *)
Class Origin : Type := origin : gset NodeId.

(** Position of the latest configuration of a log, and that configuration. *)
Definition last_config `{Origin} (l : list LogEntry) : nat * Votes :=
  scan_config 0 (0, (origin, None)) l.

Notation cfg_index l := (last_config l).1.
Notation cfg l := (last_config l).2.

(** ** Steps *)

Definition pput (a : PState) (v : NodeId) (x : PServer) (ms : list PMsg) (bs : list PBallot)
    (cs : list PCommit) (h : gmap N (NodeId * list LogEntry)) : PState :=
  mkPState (<[v := x]> (psrv a)) (pnet a ++ ms) (pballots a ++ bs) (pcommits a ++ cs) h.

Definition ackers (v : NodeId) (i : nat) (m : gmap NodeId nat) : gset NodeId :=
  {[v]} ∪ dom (filter (λ p, i ≤ p.2) m).

Section protocol.
Context `{Origin}.

Implicit Types (a : PState) (v c : NodeId) (t u w : N) (l : list LogEntry) (x : PServer).

(** The leader of the server's term is, or was, the server itself. *)
Definition reigns a v : Prop := fst <$> phist a !! p_term (psrv a v) = Some v.

Inductive pstep (v : NodeId) (a : PState) : PState → Prop :=
| ps_term t :
    let x := psrv a v in
    (p_term x < t)%N →
    pstep v a (pput a v (mkPServer t None PFollower (p_log x) (p_commit x)) [] [] [] (phist a))
| ps_timeout t :
    let x := psrv a v in
    (p_term x < t)%N →
    pstep v a (pput a v (mkPServer t (Some v) PCandidate (p_log x) (p_commit x)) []
      [mkPBallot v t v (p_log x)] [] (phist a))
| ps_request :
    let x := psrv a v in
    p_role x = PCandidate →
    pstep v a (pput a v x [PVoteReq v (p_term x) (length (p_log x)) (last_term (p_log x))] [] [] (phist a))
| ps_grant c len lt :
    let x := psrv a v in
    PVoteReq c (p_term x) len lt ∈ pnet a →
    p_vote x = None ∨ p_vote x = Some c →
    covered (p_log x) len lt →
    pstep v a (pput a v (mkPServer (p_term x) (Some c) (p_role x) (p_log x) (p_commit x)) []
      [mkPBallot v (p_term x) c (p_log x)] [] (phist a))
| ps_win Q e :
    let x := psrv a v in
    p_role x = PCandidate → quorum_of (cfg (p_log x)) Q →
    (∀ q, q ∈ Q → ∃ l, mkPBallot q (p_term x) v l ∈ pballots a) →
    eterm e = p_term x → entry_votes e = None →
    pstep v a (pput a v (mkPServer (p_term x) (p_vote x) (PLeader ∅) (p_log x ++ [e]) (p_commit x))
      [] [] [] (<[p_term x := (v, p_log x ++ [e])]> (phist a)))
| ps_append m e :
    let x := psrv a v in
    p_role x = PLeader m → eterm e = p_term x →
    (∀ d, entry_votes e = Some d → cfg_index (p_log x) ≤ p_commit x ∧ follows (cfg (p_log x)) d) →
    pstep v a (pput a v (mkPServer (p_term x) (p_vote x) (PLeader m) (p_log x ++ [e]) (p_commit x))
      [] [] [] (<[p_term x := (v, p_log x ++ [e])]> (phist a)))
| ps_send_append prev pt es lc :
    let x := psrv a v in
    reigns a v → slice (p_log x) prev pt es → lc ≤ p_commit x → lc ≤ prev + length es →
    pstep v a (pput a v x [PAppend (p_term x) prev pt es lc] [] [] (phist a))
| ps_send_snap k :
    let x := psrv a v in
    reigns a v → 0 < k ≤ p_commit x →
    pstep v a (pput a v x [PSnap (p_term x) (take k (p_log x))] [] [] (phist a))
| ps_accept prev pt es lc sn :
    let x := psrv a v in
    let m := prev + length es in
    PAppend (p_term x) prev pt es lc ∈ pnet a →
    sn ≤ p_commit x →
    prev = 0 ∨ prev < sn ∨ (prev ≤ length (p_log x) ∧ term_of (p_log x) prev = pt) →
    pstep v a (pput a v
      (mkPServer (p_term x) (p_vote x) PFollower (pmerge sn prev es (p_log x))
         (if decide (p_commit x < lc) then Nat.min lc m else p_commit x))
      [PAck v (p_term x) m] [] [] (phist a))
| ps_truncate prev pt es lc i e y :
    let x := psrv a v in
    PAppend (p_term x) prev pt es lc ∈ pnet a →
    es !! i = Some e → p_log x !! (prev + i) = Some y → eterm y ≠ eterm e →
    pstep v a (pput a v
      (mkPServer (p_term x) (p_vote x) PFollower (take (prev + i) (p_log x)) (p_commit x)) [] [] [] (phist a))
| ps_install P :
    let x := psrv a v in
    PSnap (p_term x) P ∈ pnet a → p_commit x < length P →
    pstep v a (pput a v
      (mkPServer (p_term x) (p_vote x) PFollower
         (if decide (length P ≤ length (p_log x) ∧ term_of (p_log x) (length P) = last_term P)
          then p_log x else P)
         (length P)) [] [] [] (phist a))
| ps_rebook m m' :
    let x := psrv a v in
    p_role x = PLeader m →
    (∀ p i, m' !! p = Some i → 0 < i →
       m !! p = Some i ∨ i ≤ p_commit x ∨ PAck p (p_term x) i ∈ pnet a) →
    pstep v a (pput a v (mkPServer (p_term x) (p_vote x) (PLeader m') (p_log x) (p_commit x)) [] [] [] (phist a))
| ps_commit m i :
    let x := psrv a v in
    p_role x = PLeader m → p_commit x < i ≤ length (p_log x) → term_of (p_log x) i = p_term x →
    quorum_of (cfg (p_log x)) (ackers v i m) →
    pstep v a (pput a v (mkPServer (p_term x) (p_vote x) (PLeader m) (p_log x) i) [] []
      [mkPCommit (p_term x) i (length (p_log x))] (phist a))
| ps_step_down :
    let x := psrv a v in
    pstep v a (pput a v (mkPServer (p_term x) (p_vote x) PFollower (p_log x) (p_commit x)) [] [] [] (phist a))
| ps_restart k :
    let x := psrv a v in
    k ≤ p_commit x →
    pstep v a (pput a v (mkPServer (p_term x) (p_vote x) PFollower (p_log x) k) [] [] [] (phist a)).

Inductive preach : PState → Prop :=
| preach_new : preach PState_new
| preach_step v a a' : preach a → pstep v a a' → preach a'.

(** ** The invariant *)

(** The log the leader of term [t] built so far. *)
Definition hlog a t : list LogEntry := from_option snd [] (phist a !! t).

(** Every entry is where the leader of its term put it, after what that leader
    had before it. *)
Definition wf_log a l : Prop :=
  ∀ i e, l !! i = Some e →
    is_Some (phist a !! eterm e) ∧ take (S i) l = take (S i) (hlog a (eterm e)).

(** [q] confirmed to the leader of [t], or is that leader, with [k] entries. *)
Definition acknowledged a (q : NodeId) t (k : nat) : Prop :=
  k ≤ length (hlog a t) ∧
  ((∃ m, PAck q t m ∈ pnet a ∧ k ≤ m) ∨ fst <$> phist a !! t = Some q).

(** A later leader, of a term up to [u], does not have the first [k] entries of
    term [t]'s leader. *)
Definition lost a t (k : nat) u : Prop :=
  ∃ w, (t < w ≤ u)%N ∧ is_Some (phist a !! w) ∧ ¬ take k (hlog a t) `prefix_of` hlog a w.

(** The first [k] entries of [l] are committed by one of the decisions [rs], in a
    term up to [t]. *)
Definition settled_by a (rs : list PCommit) (k : nat) l t : Prop :=
  k = 0 ∨ ∃ r, r ∈ rs ∧ (pc_term r ≤ t)%N ∧ k ≤ pc_pos r ≤ length (hlog a (pc_term r)) ∧
    take k l = take k (hlog a (pc_term r)).

Notation settled a := (settled_by a (pcommits a)).

(** A configuration entered a log after the one it replaces was committed. *)
Definition cfg_ok a (rs : list PCommit) l : Prop :=
  ∀ p e d, l !! p = Some e → entry_votes e = Some d →
    follows (cfg (take p l)) d ∧ settled_by a rs (cfg_index (take p l)) l (eterm e).

Record srv_inv a v x : Prop := {
  si_wf : wf_log a (p_log x);
  si_terms : Forall (λ e, (eterm e ≤ p_term x)%N) (p_log x);
  si_candidate : p_role x = PCandidate → (0 < p_term x)%N ∧ Forall (λ e, (eterm e < p_term x)%N) (p_log x);
  si_leader m : p_role x = PLeader m →
    phist a !! p_term x = Some (v, p_log x) ∧
    ∀ p i, m !! p = Some i → 0 < i → i ≤ p_commit x ∨ acknowledged a p (p_term x) i;
  si_acked t k : acknowledged a v t k → take k (hlog a t) `prefix_of` p_log x ∨ lost a t k (p_term x);
  si_commit : settled a (p_commit x) (p_log x) (p_term x)
}.

Definition msg_inv a (m : PMsg) : Prop :=
  match m with
  | PVoteReq c u len lt =>
      (u ≤ p_term (psrv a c))%N ∧
      (p_term (psrv a c) = u → p_role (psrv a c) = PCandidate →
         length (p_log (psrv a c)) = len ∧ last_term (p_log (psrv a c)) = lt)
  | PAppend t prev pt es lc =>
      is_Some (phist a !! t) ∧ slice (hlog a t) prev pt es ∧ lc ≤ prev + length es ∧
      settled a lc (hlog a t) t
  | PAck v t m => (t ≤ p_term (psrv a v))%N ∧ is_Some (phist a !! t) ∧ m ≤ length (hlog a t)
  | PSnap t P =>
      is_Some (phist a !! t) ∧ P `prefix_of` hlog a t ∧ settled a (length P) P t
  end.

Record ballot_inv a (b : PBallot) : Prop := {
  bi_voter : (pb_term b ≤ p_term (psrv a (pb_voter b)))%N;
  bi_vote : p_term (psrv a (pb_voter b)) = pb_term b →
    p_vote (psrv a (pb_voter b)) = Some (pb_cand b);
  bi_cand : (pb_term b ≤ p_term (psrv a (pb_cand b)))%N;
  bi_covered : p_term (psrv a (pb_cand b)) = pb_term b → p_role (psrv a (pb_cand b)) = PCandidate →
    covered (pb_log b) (length (p_log (psrv a (pb_cand b)))) (last_term (p_log (psrv a (pb_cand b))));
  bi_wf : wf_log a (pb_log b);
  bi_acked t k : (t < pb_term b)%N → acknowledged a (pb_voter b) t k →
    take k (hlog a t) `prefix_of` pb_log b ∨ lost a t k (pb_term b)
}.

(** A quorum of voters found the log [base] of [c] at least as recent as their
    own, and what they had acknowledged before was in their logs or is missing
    from a leader's of a term up to [bound]. *)
Definition electable a u (bound : N) c (base : list LogEntry) : Prop :=
  ∃ Q, quorum_of (cfg base) Q ∧ wf_log a base ∧ Forall (λ e, (eterm e < u)%N) base ∧
    ∀ q, q ∈ Q → ∃ vl, mkPBallot q u c vl ∈ pballots a ∧
      covered vl (length base) (last_term base) ∧
      ∀ t k, (t < u)%N → acknowledged a q t k →
        take k (hlog a t) `prefix_of` vl ∨ lost a t k bound.

(** How the office of term [u] was won, and the log [l] grew from there. *)
Definition elected a u c l : Prop :=
  ∃ base new, electable a u (u - 1)%N c base ∧ l = base ++ new ∧
    Forall (λ e, eterm e = u) new ∧ new ≠ [].

Record reign_inv a u c l : Prop := {
  ri_pos : (0 < u)%N;
  ri_wf : wf_log a l;
  ri_cfg : cfg_ok a (pcommits a) l;
  ri_term : (u ≤ p_term (psrv a c))%N;
  ri_own : p_term (psrv a c) = u → p_log (psrv a c) = l ∧ p_role (psrv a c) ≠ PCandidate;
  ri_elected : elected a u c l
}.

(** How the [i]-th decision to commit was taken. *)
Record commit_inv a (i : nat) (r : PCommit) : Prop := {
  rc_len : 0 < pc_pos r ≤ pc_len r ∧ pc_len r ≤ length (hlog a (pc_term r));
  rc_term : term_of (hlog a (pc_term r)) (pc_pos r) = pc_term r;
  rc_quorum : ∃ Q, quorum_of (cfg (take (pc_len r) (hlog a (pc_term r)))) Q ∧
    ∀ q, q ∈ Q → acknowledged a q (pc_term r) (pc_pos r);
  rc_cfg : cfg_ok a (take i (pcommits a)) (take (pc_len r) (hlog a (pc_term r)))
}.

Record pinv a : Prop := {
  pi_srv v : srv_inv a v (psrv a v);
  pi_msg m : m ∈ pnet a → msg_inv a m;
  pi_ballot b : b ∈ pballots a → ballot_inv a b;
  pi_unique q u c c' l l' : mkPBallot q u c l ∈ pballots a → mkPBallot q u c' l' ∈ pballots a → c = c';
  pi_reign u c l : phist a !! u = Some (c, l) → reign_inv a u c l;
  pi_commit i r : pcommits a !! i = Some r → commit_inv a i r
}.

End protocol.

Notation settled a := (settled_by a (pcommits a)).
