(* ===== verification/RaftAgreement.v ===== *)
(** * The Raft protocol: agreement

    The invariant of [RaftProtocol.v] is kept by every step, and gives the safety
    properties of the protocol: one leader per term, log matching, leader
    completeness, and that committed prefixes never differ. *)

From stdpp Require Import prelude functions gmap strings.
From Stdlib Require Import Lia.
From S2P Require Import Prelude Machine RaftTypes RaftProtocol.

Section agreement.
Context `{Origin}.

Implicit Types (a : PState) (v c : NodeId) (t u w : N) (l : list LogEntry) (x : PServer).

(** ** Positions and prefixes *)

Lemma term_of_lookup l i e : l !! i = Some e → term_of l (S i) = eterm e.
Proof. intros He. simpl. by rewrite He. Qed.

Lemma term_of_take l i k : i ≤ k → term_of (take k l) i = term_of l i.
Proof. destruct i as [|i]; [done|]. intros Hk. simpl. by rewrite lookup_take_lt by lia. Qed.

Lemma term_of_app l l' i : i ≤ length l → term_of (l ++ l') i = term_of l i.
Proof. destruct i as [|i]; [done|]. intros Hi. simpl. by rewrite lookup_app_l by lia. Qed.

Lemma prefix_take_iff l l' : l `prefix_of` l' ↔ take (length l) l' = l.
Proof.
  split; [intros [k ->]; apply take_app_length|]. intros <-. apply prefix_take.
Qed.

Lemma take_eq_length {k l l'} : take k l = take k l' → k ≤ length l → k ≤ length l'.
Proof. intros Ht Hk. apply (f_equal length) in Ht. rewrite !length_take in Ht. lia. Qed.

Lemma take_prefix_le {j k l} : j ≤ k → take j l `prefix_of` take k l.
Proof.
  intros Hjk. replace (take j l) with (take j (take k l)); [apply prefix_take|].
  rewrite take_take. f_equal. lia.
Qed.

Lemma take_eq_le {k j l l'} : take k l = take k l' → j ≤ k → take j l = take j l'.
Proof.
  intros Ht Hj. apply (f_equal (take j)) in Ht. rewrite !take_take in Ht.
  by replace (j `min` k) with j in Ht by lia.
Qed.

Lemma take_eq_lookup {k i l l'} : take k l = take k l' → i < k → l !! i = l' !! i.
Proof. intros Ht Hi. rewrite <-(lookup_take_lt l k i), Ht by lia. by rewrite lookup_take_lt by lia. Qed.

Lemma take_prefix_eq k l l' : take k l `prefix_of` l' → k ≤ length l → take k l' = take k l.
Proof. rewrite prefix_take_iff, length_take. intros Ht Hk. by rewrite Nat.min_l in Ht by lia. Qed.

Lemma take_eq_prefix k l l' : take k l' = take k l → take k l `prefix_of` l'.
Proof. intros <-. apply prefix_take. Qed.

Lemma prefix_drop_cons l k e es :
  e :: es `prefix_of` drop k l → l !! k = Some e ∧ es `prefix_of` drop (S k) l.
Proof.
  intros [r Hr]. assert (l !! k = Some e) as He.
  { rewrite <-(Nat.add_0_r k), <-lookup_drop, Hr. done. }
  split; [done|]. exists r. rewrite (drop_S _ _ _ He) in Hr. by simplify_eq/=.
Qed.

Lemma take_eq_succ {k l l'} {e : LogEntry} :
  take k l = take k l' → l !! k = Some e → l' !! k = Some e → take (S k) l = take (S k) l'.
Proof. intros Ht He He'. by rewrite (take_S_r _ _ _ He), (take_S_r _ _ _ He'), Ht. Qed.

(** ** Configurations in logs *)

Lemma scan_config_app l l' : ∀ i acc,
  scan_config i acc (l ++ l') = scan_config (i + length l) (scan_config i acc l) l'.
Proof.
  induction l as [|e l IH]; intros i acc; simpl; [by rewrite Nat.add_0_r|].
  rewrite IH. f_equal. lia.
Qed.

Lemma last_config_snoc l e :
  last_config (l ++ [e]) =
    match entry_votes e with Some d => (S (length l), d) | None => last_config l end.
Proof. unfold last_config. rewrite scan_config_app. done. Qed.

Lemma cfg_index_le l : cfg_index l ≤ length l.
Proof.
  induction l as [|e l IH] using rev_ind; [done|]. rewrite last_config_snoc, length_app. simpl.
  destruct (entry_votes e); simpl; lia.
Qed.

Lemma cfg_index_entry l q :
  cfg_index l = S q → ∃ e, l !! q = Some e ∧ entry_votes e = Some (cfg l).
Proof.
  induction l as [|e l IH] using rev_ind; [done|]. rewrite last_config_snoc.
  destruct (entry_votes e) as [d|] eqn:He; simpl.
  - intros [= <-]. exists e. split; [by apply list_lookup_middle|done].
  - intros (e' & ? & ?)%IH. exists e'. split; [by apply lookup_app_l_Some|done].
Qed.

Lemma cfg_index_ge l q e d :
  l !! q = Some e → entry_votes e = Some d → ∀ p, p ≤ S q → p ≤ cfg_index l.
Proof.
  intros He Hd p Hp. revert He. induction l as [|y l IH] using rev_ind; [done|]. rewrite last_config_snoc.
  intros [He|[Hlen He]]%lookup_app_Some.
  - apply lookup_lt_Some in He as Hlt. destruct (entry_votes y); simpl; [lia|by apply IH].
  - apply list_lookup_singleton_Some in He as [Hq ->]. rewrite Hd. simpl. lia.
Qed.

Lemma last_config_take l p : cfg_index l ≤ p → last_config (take p l) = last_config l.
Proof.
  induction l as [|e l IH] using rev_ind; intros Hp; [by rewrite take_nil|].
  destruct (decide (length l < p)); [rewrite take_ge; [done|rewrite length_app; simpl; lia]|].
  rewrite last_config_snoc in *. rewrite take_app_le by lia.
  destruct (entry_votes e); [simpl in Hp; lia|]. by apply IH.
Qed.

(** If no configuration beyond position [p] replaces another one beyond [p],
    at most one change separates the log from its first [p] entries. *)
Lemma cfg_step l p :
  (∀ q e d, p ≤ q → l !! q = Some e → entry_votes e = Some d →
     cfg_index (take q l) ≤ p ∧ follows (cfg (take q l)) d) →
  cfg l = cfg (take p l) ∨ follows (cfg (take p l)) (cfg l).
Proof.
  intros Hl. destruct (decide (cfg_index l ≤ p)) as [Hle|Hgt]; [left; by rewrite last_config_take|right].
  destruct (cfg_index l) as [|q] eqn:Hq; [lia|]. destruct (cfg_index_entry l q Hq) as (e & He & Hd).
  destruct (Hl q e _ ltac:(lia) He Hd) as [Hi Hf].
  rewrite <-(last_config_take (take q l) p), take_take, Nat.min_l in Hf by lia. done.
Qed.

Definition compatible (d d' : Votes) : Prop :=
  ∀ Q Q', quorum_of d Q → quorum_of d' Q' → ∃ q, q ∈ Q ∧ q ∈ Q'.

(** Configurations one change away from a common one, or from each other, decide
    together. *)
Lemma one_change_compatible d d1 d2 :
  d1 = d ∨ follows d d1 → d2 = d ∨ follows d d2 → compatible d1 d2.
Proof.
  assert (∀ vs, vs ∈ voter_sets (mkClusterConfig d1.1 d1.2 ∅) → vs ∈ voter_sets (mkClusterConfig d2.1 d2.2 ∅) →
    compatible d1 d2) as Hshare.
  { intros vs H1 H2 Q Q'. by apply (shared_voters_intersect _ _ vs). }
  unfold voter_sets, follows in *. destruct d as [V [old|]], d1 as [V1 o1], d2 as [V2 o2]; simpl in *.
  - intros [?|?] [?|?]; simplify_eq; apply (Hshare V); set_solver.
  - intros [?|[?|?]] [?|[?|?]]; simplify_eq/=; apply (Hshare V); set_solver.
Qed.

(** Two logs end in compatible configurations if each has every configuration of
    the other but the latest. *)
Lemma logs_compatible a rs rs' l l' :
  cfg_ok a rs l → cfg_ok a rs' l' →
  (∀ q e d, l !! q = Some e → entry_votes e = Some d →
     take (cfg_index (take q l)) l `prefix_of` l') →
  (∀ q e d, l' !! q = Some e → entry_votes e = Some d →
     take (cfg_index (take q l')) l' `prefix_of` l) →
  compatible (cfg l) (cfg l').
Proof.
  intros Hok Hok' Hin Hin'. set (k := (max_prefix l l').2).
  pose proof (max_prefix_fst_prefix l l') as Hk. pose proof (max_prefix_snd_prefix l l') as Hk'. fold k in Hk, Hk'.
  assert (∀ j m, j ≤ length m → take j m `prefix_of` l → take j m `prefix_of` l' → j ≤ length k) as Hmax.
  { intros j m Hj H1 H2. pose proof (max_prefix_max _ _ _ H1 H2) as Hp%prefix_length.
    rewrite length_take in Hp. fold k in Hp. lia. }
  assert (take (length k) l = take (length k) l') as Heq.
  { apply prefix_take_iff in Hk, Hk'. congruence. }
  assert (∀ q m, cfg_index (take q m) ≤ length m) as Hlen.
  { intros q m. pose proof (cfg_index_le (take q m)). rewrite length_take in *. lia. }
  apply (one_change_compatible (cfg (take (length k) l))); [|rewrite Heq]; apply cfg_step; intros q e d _ He Hd.
  - destruct (Hok q e d He Hd) as [? _]. split; [|done]. apply (Hmax _ l); [done|apply prefix_take|by eapply Hin].
  - destruct (Hok' q e d He Hd) as [? _]. split; [|done]. apply (Hmax _ l'); [done|by eapply Hin'|apply prefix_take].
Qed.

(** ** What the invariant says is kept as history grows *)

Definition hist_le (h h' : gmap N (NodeId * list LogEntry)) : Prop :=
  ∀ t c l, h !! t = Some (c, l) →
    ∃ new, h' !! t = Some (c, l ++ new) ∧ Forall (λ e, eterm e = t) new.

Record grows a a' : Prop := {
  gr_hist : hist_le (phist a) (phist a');
  gr_net : pnet a ⊆ pnet a';
  gr_ballots : pballots a ⊆ pballots a';
  gr_commits : pcommits a `prefix_of` pcommits a'
}.

Lemma grows_hlog a a' t :
  grows a a' → ∃ new, hlog a' t = hlog a t ++ new ∧
    (is_Some (phist a !! t) → is_Some (phist a' !! t) ∧ Forall (λ e, eterm e = t) new).
Proof.
  intros [Hh _ _ _]. unfold hlog. destruct (phist a !! t) as [[c l]|] eqn:Ht; simpl.
  - destruct (Hh _ _ _ Ht) as (new & -> & Hnew). eauto.
  - eexists. split; [done|]. by intros [].
Qed.

Lemma grows_take a a' t k :
  grows a a' → k ≤ length (hlog a t) → take k (hlog a' t) = take k (hlog a t).
Proof. intros (new & -> & _)%(grows_hlog _ _ t) Hk. by rewrite take_app_le. Qed.

Lemma grows_length a a' t : grows a a' → length (hlog a t) ≤ length (hlog a' t).
Proof. intros (new & -> & _)%(grows_hlog _ _ t). rewrite length_app. lia. Qed.

Lemma grows_some a a' t : grows a a' → is_Some (phist a !! t) → is_Some (phist a' !! t).
Proof. intros (new & _ & Hs)%(grows_hlog _ _ t). naive_solver. Qed.

Lemma wf_log_grows a a' l : grows a a' → wf_log a l → wf_log a' l.
Proof.
  intros Hg Hwf i e He. destruct (Hwf i e He) as [Hs Ht]. split; [by eapply grows_some|].
  rewrite (grows_take a a'); [done|done|]. apply (take_eq_length Ht).
  apply lookup_lt_Some in He. lia.
Qed.

Lemma wf_log_prefix a l l' : l `prefix_of` l' → wf_log a l' → wf_log a l.
Proof.
  intros [k ->] Hwf i e He. pose proof (lookup_lt_Some _ _ _ He).
  destruct (Hwf i e) as [? Ht]; [by apply lookup_app_l_Some|]. split; [done|].
  by rewrite take_app_le in Ht by lia.
Qed.

Lemma acked_grows a a' q t k : grows a a' → acknowledged a q t k → acknowledged a' q t k.
Proof.
  intros Hg [Hk Ha]. split; [pose proof (grows_length a a' t Hg); lia|].
  destruct Ha as [(m & Hm & ?)|Hq].
  - left. exists m. split; [by apply Hg|done].
  - right. destruct (phist a !! t) as [[c l]|] eqn:Ht; [|done].
    by destruct (gr_hist _ _ Hg _ _ _ Ht) as (new & -> & _).
Qed.

Lemma lost_grows a a' t k u :
  grows a a' → k ≤ length (hlog a t) → Forall (λ e, (eterm e ≤ t)%N) (hlog a t) →
  lost a t k u → lost a' t k u.
Proof.
  intros Hg Hk Hts (w & Hw & Hs & Hn). exists w. split; [done|]. split; [by eapply grows_some|].
  rewrite (grows_take a a') by done. destruct (grows_hlog a a' w Hg) as (new & Heq & Hnew).
  destruct (Hnew Hs) as [_ Hown]. rewrite Heq. intros Hp.
  destruct (decide (k ≤ length (hlog a w))) as [Hle|Hgt].
  - apply Hn, take_eq_prefix. apply take_prefix_eq in Hp; [|done]. by rewrite take_app_le in Hp.
  - destruct (lookup_lt_is_Some_2 (hlog a t) (length (hlog a w))) as [e He]; [lia|].
    apply take_prefix_eq in Hp; [|done]. pose proof (take_eq_lookup (i := length (hlog a w)) Hp ltac:(lia)) as Hl.
    rewrite lookup_app_r, Nat.sub_diag, He in Hl by lia.
    eapply Forall_lookup_1 in Hown; [|exact Hl]. eapply Forall_lookup_1 in Hts; [|exact He]. simpl in *. lia.
Qed.

Lemma lost_mono a t k u u' : (u ≤ u')%N → lost a t k u → lost a t k u'.
Proof. intros Hu (w & ? & ? & ?). exists w. split_and!; [lia|lia|done..]. Qed.

Lemma settled_by_grows a a' rs rs' k l t :
  grows a a' → rs ⊆ rs' → settled_by a rs k l t → settled_by a' rs' k l t.
Proof.
  intros Hg Hsub [?|(r & Hr & ? & Hk & Ht)]; [by left|right]. exists r.
  pose proof (grows_length a a' (pc_term r) Hg).
  split_and!; [by apply Hsub|done|lia|lia|]. rewrite (grows_take a a'); [done|done|lia].
Qed.

Lemma prefix_subseteq {A} (l l' : list A) : l `prefix_of` l' → l ⊆ l'.
Proof. intros [k ->]. set_solver. Qed.

Lemma settled_grows a a' k l t : grows a a' → settled a k l t → settled a' k l t.
Proof. intros Hg. apply settled_by_grows; [done|]. by apply prefix_subseteq, gr_commits. Qed.

Lemma settled_length a rs k l t : settled_by a rs k l t → k ≤ length l.
Proof. intros [->|(r & _ & _ & Hk & Ht)]; [lia|]. apply (take_eq_length (eq_sym Ht)). lia. Qed.

Lemma settled_take a rs k l l' t : take k l' = take k l → settled_by a rs k l t → settled_by a rs k l' t.
Proof. intros Ht [?|(r & ? & ? & ? & Ht')]; [by left|right]. exists r. by rewrite Ht. Qed.

Lemma settled_mono a rs k k' l t t' :
  (t ≤ t')%N → k' ≤ k → settled_by a rs k l t → settled_by a rs k' l t'.
Proof.
  intros Ht Hk [->|(r & ? & ? & ? & He)]; [left; lia|right]. exists r.
  split_and!; [done|lia|lia|lia|by eapply take_eq_le].
Qed.

Lemma cfg_ok_grows a a' rs rs' l : grows a a' → rs ⊆ rs' → cfg_ok a rs l → cfg_ok a' rs' l.
Proof.
  intros Hg Hsub Hok p e d He Hd. destruct (Hok p e d He Hd) as [? Hs]. split; [done|].
  by eapply settled_by_grows.
Qed.

(** A log has the configurations of those it agrees with. *)
Lemma cfg_ok_take a rs l l' p e d :
  cfg_ok a rs l' → take (S p) l = take (S p) l' → l !! p = Some e → entry_votes e = Some d →
  follows (cfg (take p l)) d ∧ settled_by a rs (cfg_index (take p l)) l (eterm e).
Proof.
  intros Hok Ht He Hd. pose proof (take_eq_le (j := p) Ht ltac:(lia)) as Htp.
  destruct (Hok p e d) as [Hf Hs]; [|done|].
  { by rewrite <-(take_eq_lookup (i := p) Ht) by lia. }
  rewrite Htp. split; [done|]. eapply settled_take; [|exact Hs]. eapply take_eq_le; [exact Htp|].
  pose proof (cfg_index_le (take p l')). rewrite length_take in *. lia.
Qed.

Lemma cfg_ok_prefix a rs l l' : l `prefix_of` l' → cfg_ok a rs l' → cfg_ok a rs l.
Proof.
  intros Hp Hok p e d He Hd. eapply cfg_ok_take; [exact Hok| |done|done].
  apply lookup_lt_Some in He. destruct Hp as [k ->]. by rewrite take_app_le by lia.
Qed.

Lemma settled_hist_grows a a' k t : grows a a' → settled a k (hlog a t) t → settled a' k (hlog a' t) t.
Proof.
  intros Hg Hs. eapply settled_take; [|by eapply settled_grows].
  apply (grows_take a a'); [done|]. by eapply settled_length.
Qed.

Lemma slice_grows a a' t prev pt es :
  grows a a' → slice (hlog a t) prev pt es → slice (hlog a' t) prev pt es.
Proof.
  intros (new & -> & _)%(grows_hlog _ _ t) [(Hp & -> & Hes)|?]; [left|by right].
  rewrite length_app, term_of_app, drop_app_le by done. split_and!; [lia|done|].
  etrans; [done|]. by apply prefix_app_r.
Qed.

(** ** Terms in logs *)

Lemma reign_terms a t : pinv a → Forall (λ e, (eterm e ≤ t)%N) (hlog a t).
Proof.
  intros Hi. unfold hlog. destruct (phist a !! t) as [[c l]|] eqn:Ht; [|done]. simpl.
  destruct (ri_elected _ _ _ _ (pi_reign _ Hi _ _ _ Ht)) as (base & new & (Q & _ & _ & Hb & _) & -> & Hn & _).
  apply Forall_app. split; [eapply Forall_impl; [exact Hb|]|eapply Forall_impl; [exact Hn|]]; intros e ?;
    simpl in *; lia.
Qed.

Lemma reign_wf a t : pinv a → wf_log a (hlog a t).
Proof.
  intros Hi. unfold hlog. destruct (phist a !! t) as [[c l]|] eqn:Ht; [|by intros ??]. simpl.
  apply (pi_reign _ Hi _ _ _ Ht).
Qed.

(** Two well-formed logs with the same term at a position agree up to it. *)
Lemma wf_log_agree a l l' i :
  wf_log a l → wf_log a l' → i ≤ length l → i ≤ length l' → term_of l i = term_of l' i →
  take i l = take i l'.
Proof.
  intros Hl Hl' Hi Hi' Ht. destruct i as [|i]; [done|].
  destruct (lookup_lt_is_Some_2 l i) as [e He]; [lia|].
  destruct (lookup_lt_is_Some_2 l' i) as [e' He']; [lia|].
  rewrite (term_of_lookup _ _ _ He), (term_of_lookup _ _ _ He') in Ht.
  destruct (Hl _ _ He) as [_ ->], (Hl' _ _ He') as [_ ->]. by rewrite Ht.
Qed.

Lemma wf_last a l :
  wf_log a l → l ≠ [] → is_Some (phist a !! last_term l) ∧ l = take (length l) (hlog a (last_term l)).
Proof.
  intros Hwf Hne. unfold last_term. destruct (length l) as [|n] eqn:Hn; [by destruct l|].
  destruct (lookup_lt_is_Some_2 l n) as [e He]; [lia|]. rewrite (term_of_lookup _ _ _ He).
  destruct (Hwf _ _ He) as [Hs Ht]. split; [done|]. rewrite <-Ht. by rewrite take_ge by lia.
Qed.

Lemma last_term_nil : last_term [] = 0%N.
Proof. done. Qed.

Lemma wf_cfg_ok a l : pinv a → wf_log a l → cfg_ok a (pcommits a) l.
Proof.
  intros Hi Hwf p e d He Hd. destruct (Hwf p e He) as [[[c h] Hh] Ht].
  eapply cfg_ok_take; [|exact Ht|done|done]. unfold hlog. rewrite Hh. apply (pi_reign _ Hi _ _ _ Hh).
Qed.

Lemma wf_terms_last a l e : pinv a → wf_log a l → e ∈ l → (eterm e ≤ last_term l)%N.
Proof.
  intros Hi Hwf Hin. assert (l ≠ []) as Hne by (intros ->; by apply elem_of_nil in Hin).
  destruct (wf_last a l Hwf Hne) as [_ Hl]. rewrite Hl in Hin. apply elem_of_take in Hin as (i & Hi' & _).
  pose proof (reign_terms a (last_term l) Hi) as Hf. by eapply Forall_lookup_1 in Hf.
Qed.

(** ** Leader completeness *)

Definition complete a u l : Prop :=
  ∀ r, r ∈ pcommits a → (pc_term r < u)%N → take (pc_pos r) (hlog a (pc_term r)) `prefix_of` l.

Lemma commit_len a r : pinv a → r ∈ pcommits a → 0 < pc_pos r ≤ length (hlog a (pc_term r)).
Proof.
  intros Hi [i Hr]%list_elem_of_lookup. pose proof (rc_len _ _ _ (pi_commit _ Hi _ _ Hr)). lia.
Qed.

Lemma commit_pos a r : pinv a → r ∈ pcommits a → (0 < pc_term r)%N ∧ is_Some (phist a !! pc_term r).
Proof.
  intros Hi Hr. pose proof (commit_len a r Hi Hr) as Hl. unfold hlog in Hl.
  destruct (phist a !! pc_term r) as [[c l]|] eqn:Hh; [|simpl in Hl; lia].
  split; [apply (pi_reign _ Hi _ _ _ Hh)|done].
Qed.

(** What a leader of an earlier term committed lies in what the leader of [u]
    started from. *)
Lemma prefix_base a t k u base new :
  pinv a → (t < u)%N → k ≤ length (hlog a t) → Forall (λ e, eterm e = u) new →
  take k (hlog a t) `prefix_of` base ++ new → take k (hlog a t) `prefix_of` base.
Proof.
  intros Hi Htu Hk Hn Hp. destruct (decide (k ≤ length base)) as [Hle|Hgt].
  { apply take_eq_prefix. apply take_prefix_eq in Hp; [|done]. by rewrite take_app_le in Hp. }
  exfalso. apply take_prefix_eq in Hp; [|done].
  destruct (lookup_lt_is_Some_2 (hlog a t) (length base)) as [e He]; [lia|].
  pose proof (take_eq_lookup (i := length base) Hp ltac:(lia)) as Hl.
  rewrite lookup_app_r, Nat.sub_diag, He in Hl by lia.
  eapply Forall_lookup_1 in Hn; [|exact Hl]. pose proof (reign_terms a t Hi) as Hf.
  eapply Forall_lookup_1 in Hf; [|exact He]. simpl in *. lia.
Qed.

Lemma last_term_lookup l : l ≠ [] → ∃ e, l !! (length l - 1) = Some e ∧ last_term l = eterm e.
Proof.
  intros Hne. unfold last_term. destruct (length l) as [|n] eqn:Hn; [by destruct l|].
  destruct (lookup_lt_is_Some_2 l n) as [e He]; [lia|]. exists e. rewrite (term_of_lookup _ _ _ He).
  by rewrite Nat.sub_succ, Nat.sub_0_r.
Qed.

Lemma last_term_lt l u : Forall (λ e, (eterm e < u)%N) l → l ≠ [] → (last_term l < u)%N.
Proof. intros Hl (e & He & ->)%last_term_lookup. by eapply Forall_lookup_1 in Hl. Qed.

(** A log whose last entry is of a later term holds what that term's leader held
    of an earlier one. *)
Lemma later_holds a t k base :
  pinv a → wf_log a base → base ≠ [] → (t < last_term base)%N → k ≤ length (hlog a t) →
  take k (hlog a t) `prefix_of` hlog a (last_term base) → take k (hlog a t) `prefix_of` base.
Proof.
  intros Hi Hb Hne Hlt Hk Hin. destruct (wf_last a base Hb Hne) as [_ Hbl]. apply take_prefix_eq in Hin; [|done].
  assert (k < length base) as Hkb.
  { destruct (decide (k < length base)) as [|Hge]; [done|]. exfalso.
    destruct (last_term_lookup base Hne) as (e & He & Hte).
    assert (0 < length base) by (destruct base; [done|simpl; lia]).
    assert (hlog a (last_term base) !! (length base - 1) = Some e) as He'.
    { rewrite <-(lookup_take_lt _ (length base)), <-Hbl by lia. done. }
    rewrite (take_eq_lookup Hin) in He' by lia. clear He. rename He' into He.
    pose proof (reign_terms a t Hi) as Hf. eapply Forall_lookup_1 in Hf; [|exact He]. simpl in Hf. lia. }
  apply take_eq_prefix. rewrite Hbl, take_take, Nat.min_l by lia. done.
Qed.

(** A log that holds the committed entries and is found no more recent than
    [base] passes them on. *)
Lemma covered_holds a r vl base u :
  let t := pc_term r in let k := pc_pos r in
  pinv a → r ∈ pcommits a → wf_log a vl → wf_log a base → Forall (λ e, (eterm e < u)%N) base →
  covered vl (length base) (last_term base) → take k (hlog a t) `prefix_of` vl →
  (∀ w, (t < w < u)%N → is_Some (phist a !! w) → take k (hlog a t) `prefix_of` hlog a w) →
  take k (hlog a t) `prefix_of` base.
Proof.
  intros t k Hi Hr Hv Hb Hbu Hcov Hp IH. pose proof (commit_len a r Hi Hr) as Hk. fold t k in Hk.
  destruct (commit_pos a r Hi Hr) as [Htpos _]. fold t in Htpos.
  apply take_prefix_eq in Hp; [|lia].
  assert (k ≤ length vl) as Hkv by (apply (take_eq_length (eq_sym Hp)); lia).
  assert (vl ≠ []) as Hvne by (intros ->; simpl in *; lia).
  assert (t ≤ last_term vl)%N as Htv.
  { pose proof Hr as [i Hri]%list_elem_of_lookup. pose proof (rc_term _ _ _ (pi_commit _ Hi _ _ Hri)) as Hkt.
    fold t k in Hkt. destruct (lookup_lt_is_Some_2 vl (k - 1)) as [e He]; [lia|].
    rewrite <-Hkt, <-(term_of_take _ k k), <-Hp, term_of_take by lia.
    replace k with (S (k - 1)) at 1 by lia. rewrite (term_of_lookup _ _ _ He).
    apply (wf_terms_last a); [done|done|]. by eapply list_elem_of_lookup_2. }
  assert (base ≠ []) as Hbne.
  { intros ->. unfold covered in Hcov. rewrite last_term_nil in Hcov. simpl in Hcov.
    assert (0 < length vl) by (destruct vl; [done|simpl; lia]). lia. }
  destruct Hcov as [Hlt|[Heq Hlen]].
  - destruct (wf_last a base Hb Hbne) as [Hbs _].
    apply later_holds; [done|done|done|lia|lia|]. apply IH; [|done].
    pose proof (last_term_lt base u Hbu Hbne). lia.
  - destruct (wf_last a vl Hv Hvne) as [_ Hvl]. destruct (wf_last a base Hb Hbne) as [_ Hbl].
    apply take_eq_prefix. rewrite Hbl, take_take, Nat.min_l, <-Hp by lia.
    rewrite Hvl at 1. rewrite <-Heq, take_take, Nat.min_l by lia. done.
Qed.

(** The configurations of a log that a decision of the leader of [t] was taken
    under are those of any electable log, up to one change. *)
Lemma decision_compatible a i r base u :
  let t := pc_term r in
  let l := take (pc_len r) (hlog a t) in
  pinv a → pcommits a !! i = Some r → wf_log a base → (t < u)%N →
  (∀ w, (w < u)%N → is_Some (phist a !! w) → complete a w (hlog a w)) →
  (∀ j r', j < i → pcommits a !! j = Some r' → (pc_term r' < u)%N →
     take (pc_pos r') (hlog a (pc_term r')) `prefix_of` base) →
  base = [] ∨ (last_term base ≤ t)%N →
  l `prefix_of` base ∨ compatible (cfg l) (cfg base).
Proof.
  intros t l Hi Hri Hb Htu IHw IHj Hlast.
  assert (r ∈ pcommits a) as Hr by by eapply list_elem_of_lookup_2.
  destruct (pi_commit _ Hi _ _ Hri) as [Hlen Hkt _ Hcfg]. fold t in Hlen, Hkt, Hcfg. fold l in Hcfg.
  pose proof (commit_pos a r Hi Hr) as [_ Hts]. fold t in Hts.
  pose proof (wf_cfg_ok a base Hi Hb) as Hcfgb.
  assert (wf_log a l) as Hl by (eapply wf_log_prefix; [apply prefix_take|by apply reign_wf]).
  assert (∀ q e d, l !! q = Some e → entry_votes e = Some d →
    take (cfg_index (take q l)) l `prefix_of` base) as Hin.
  { intros q e d He Hd. destruct (Hcfg q e d He Hd) as [_ Hs].
    destruct Hs as [->|(r' & Hr' & Hle & Hk & Heq)]; [by apply prefix_nil|].
    apply list_elem_of_lookup in Hr' as [j [Hj Hji]%lookup_take_Some].
    pose proof (IHj j r' Hji Hj) as Hp. rewrite Heq.
    assert (eterm e ≤ t)%N.
    { pose proof (reign_terms a t Hi) as Hf. apply lookup_take_Some in He as [He _]. by eapply Forall_lookup_1 in Hf. }
    etrans; [|apply Hp; lia]. apply take_prefix_le. lia. }
  destruct (decide (base ≠ [] ∧ last_term base = t)) as [[Hne Heq]|Hnt].
  { destruct (wf_last a base Hb Hne) as [_ Hbl]. rewrite Heq in Hbl.
    destruct (decide (pc_len r ≤ length base)) as [Hle|Hgt].
    - left. rewrite Hbl. by apply take_prefix_le.
    - right. apply (logs_compatible a (take i (pcommits a)) (pcommits a)); [done..|].
      intros q e d _ _. etrans; [apply prefix_take|]. rewrite Hbl. apply take_prefix_le. lia. }
  right. apply (logs_compatible a (take i (pcommits a)) (pcommits a)); [done..|].
  intros q e d He Hd. destruct (Hcfgb q e d He Hd) as [_ Hs].
  destruct Hs as [->|(r' & Hr' & Hle & Hk & Heq)]; [by apply prefix_nil|].
  assert (eterm e ≤ last_term base)%N as Hel by (apply (wf_terms_last a); [done|done|]; by eapply list_elem_of_lookup_2).
  assert (base ≠ []) as Hbne by by intros ->.
  assert (pc_term r' < t)%N as Hlt' by (destruct Hlast; [done|]; assert (last_term base ≠ t) by tauto; lia).
  pose proof (IHw t Htu Hts r' Hr' Hlt') as Hp. rewrite Heq.
  assert (pc_pos r' < pc_pos r) as Hpos.
  { destruct (decide (pc_pos r' < pc_pos r)) as [|Hge]; [done|]. exfalso. apply take_prefix_eq in Hp; [|lia].
    destruct (lookup_lt_is_Some_2 (hlog a t) (pc_pos r - 1)) as [y Hy]; [lia|].
    replace (pc_pos r) with (S (pc_pos r - 1)) in Hkt by lia. rewrite (term_of_lookup _ _ _ Hy) in Hkt.
    rewrite (take_eq_lookup Hp) in Hy by lia. pose proof (reign_terms a (pc_term r') Hi) as Hf.
    eapply Forall_lookup_1 in Hf; [|exact Hy]. simpl in Hf. lia. }
  apply take_prefix_eq in Hp; [|lia]. rewrite <-(take_eq_le Hp) by lia. apply take_prefix_le. lia.
Qed.

(** Whoever can win the election of term [u] has everything committed before. *)
Lemma electable_complete a u bound c base :
  pinv a → electable a u bound c base →
  (∀ w, (w ≤ bound ∨ w < u)%N → is_Some (phist a !! w) → complete a w (hlog a w)) →
  complete a u base.
Proof.
  intros Hi (Q & HQ & Hb & Hbu & Hq) IHw.
  enough (∀ i r, pcommits a !! i = Some r → (pc_term r < u)%N →
    take (pc_pos r) (hlog a (pc_term r)) `prefix_of` base) as Hall.
  { intros r [i Hr]%list_elem_of_lookup. by apply (Hall i). }
  intros i. induction (lt_wf i) as [i _ IHi]. intros r Hri Htu.
  assert (r ∈ pcommits a) as Hr by by eapply list_elem_of_lookup_2.
  pose proof (commit_len a r Hi Hr) as Hk.
  destruct (decide (base ≠ [] ∧ pc_term r < last_term base)%N) as [[Hne Hlt]|Hnot].
  { apply later_holds; [done|done|done|done|lia|]. destruct (wf_last a base Hb Hne) as [Hbs _].
    pose proof (last_term_lt base u Hbu Hne). apply (IHw (last_term base)); [by right|done|done|done]. }
  destruct (decision_compatible a i r base u) as [Hp|Hcompat]; [done|done|done|done|auto|eauto| |..].
  - destruct (decide (base = [])); [by left|right]. apply N.le_ngt. intros ?. by destruct Hnot.
  - etrans; [|exact Hp]. pose proof (rc_len _ _ _ (pi_commit _ Hi _ _ Hri)). apply take_prefix_le. lia.
  - destruct (rc_quorum _ _ _ (pi_commit _ Hi _ _ Hri)) as (Q' & HQ' & Hacks).
    destruct (Hcompat _ _ HQ' HQ) as (q & Hq' & Hqq). destruct (Hq q Hqq) as (vl & Hvb & Hcov & Hheld).
    destruct (Hheld _ _ Htu (Hacks q Hq')) as [Hp|(w & Hw & Hs & Hno)].
    + apply (covered_holds a r vl base u); try done; [apply (pi_ballot _ Hi _ Hvb)|].
      intros w Hw Hs. apply (IHw w); [right; lia|done|done|lia].
    + destruct Hno. apply (IHw w); [left; lia|done|done|lia].
Qed.

Lemma leader_completeness a u : pinv a → is_Some (phist a !! u) → complete a u (hlog a u).
Proof.
  intros Hi. induction (N.lt_wf_0 u) as [u _ IH]. intros [[c l] Hu].
  destruct (pi_reign _ Hi _ _ _ Hu) as [Hpos _ _ _ _ (base & new & Hel & -> & _)].
  assert (complete a u base) as Hb.
  { eapply electable_complete; [done|exact Hel|]. intros w Hw. apply IH. lia. }
  intros r Hr Ht. unfold hlog at 2. rewrite Hu. simpl. apply prefix_app_r. by apply Hb.
Qed.

(** What is settled by term [t] is part of what the leader of [t] has. *)
Lemma settled_hist a k l t :
  pinv a → settled a k l t → is_Some (phist a !! t) → take k l = take k (hlog a t).
Proof.
  intros Hi [->|(r & Hr & Hle & Hk & Ht)] Hs; [done|]. rewrite Ht.
  destruct (decide (pc_term r = t)) as [->|Hne]; [done|].
  pose proof (leader_completeness a t Hi Hs r Hr ltac:(lia)) as Hp%take_prefix_eq; [|lia].
  symmetry. eapply take_eq_le; [exact Hp|lia].
Qed.

(** Two settled prefixes agree as far as both reach. *)
Lemma settled_agree a k l t k' l' t' :
  pinv a → settled a k l t → settled a k' l' t' → take (k `min` k') l = take (k `min` k') l'.
Proof.
  intros Hi [->|(r & Hr & _ & Hk & He)]; [done|]. intros [->|(r' & Hr' & _ & Hk' & He')]; [by rewrite Nat.min_0_r|].
  destruct (commit_pos a r Hi Hr) as [_ Hs]. destruct (commit_pos a r' Hi Hr') as [_ Hs'].
  assert (take (k `min` k') (hlog a (pc_term r)) = take (k `min` k') (hlog a (pc_term r'))) as Heq.
  { destruct (decide (pc_term r ≤ pc_term r')%N) as [Hle|Hgt].
    - eapply take_eq_le; [apply (settled_hist a (pc_pos r) _ (pc_term r')); [done| |done]|lia]. right. exists r.
      split_and!; [done|lia|lia|lia|done].
    - symmetry. eapply take_eq_le; [apply (settled_hist a (pc_pos r') _ (pc_term r)); [done| |done]|lia]. right. exists r'.
      split_and!; [done|lia|lia|lia|done]. }
  rewrite (take_eq_le He), (take_eq_le He'), Heq by lia. done.
Qed.

(** ** One server changes *)

(** What a step by [v] to [x'] owes, when it sends [ms], casts [bs] and leaves the
    history [h']. *)
Record update a v x' (ms : list PMsg) (bs : list PBallot) (cs : list PCommit)
    (h' : gmap N (NodeId * list LogEntry)) : Prop := {
  up_hist : hist_le (phist a) h';
  up_term : (p_term (psrv a v) ≤ p_term x')%N;
  up_vote c : p_term x' = p_term (psrv a v) → p_vote (psrv a v) = Some c → p_vote x' = Some c;
  up_cand : p_term x' = p_term (psrv a v) → p_role x' = PCandidate →
    p_role (psrv a v) = PCandidate ∧ p_log x' = p_log (psrv a v);
  up_kept t k : (t ≤ p_term (psrv a v))%N → k ≤ length (hlog a t) →
    take k (hlog a t) `prefix_of` p_log (psrv a v) →
    take k (hlog a t) `prefix_of` p_log x' ∨ lost (pput a v x' ms bs cs h') t k (p_term x');
  up_acks q t k : acknowledged (pput a v x' ms bs cs h') q t k → acknowledged a q t k ∨
    (q = v ∧ t = p_term x' ∧ take k (hlog (pput a v x' ms bs cs h') t) `prefix_of` p_log x');
  up_wf : wf_log (pput a v x' ms bs cs h') (p_log x');
  up_terms : Forall (λ e, (eterm e ≤ p_term x')%N) (p_log x');
  up_candidate : p_role x' = PCandidate →
    (0 < p_term x')%N ∧ Forall (λ e, (eterm e < p_term x')%N) (p_log x');
  up_leader m : p_role x' = PLeader m →
    h' !! p_term x' = Some (v, p_log x') ∧
    ∀ p i, m !! p = Some i → 0 < i → i ≤ p_commit x' ∨ acknowledged (pput a v x' ms bs cs h') p (p_term x') i;
  up_commit : settled (pput a v x' ms bs cs h') (p_commit x') (p_log x') (p_term x');
  up_own l : h' !! p_term x' = Some (v, l) → p_log x' = l ∧ p_role x' ≠ PCandidate;
  up_msgs m : m ∈ ms → msg_inv (pput a v x' ms bs cs h') m;
  up_ballots b : b ∈ bs → ∃ c, b = mkPBallot v (p_term x') c (p_log x') ∧ p_vote x' = Some c ∧
    (p_term x' ≤ p_term (psrv (pput a v x' ms bs cs h') c))%N ∧
    let y := psrv (pput a v x' ms bs cs h') c in
    (p_term y = p_term x' → p_role y = PCandidate →
       covered (p_log x') (length (p_log y)) (last_term (p_log y)));
  up_reigns u c l : h' !! u = Some (c, l) → phist a !! u = Some (c, l) ∨
    (u = p_term x' ∧ c = v ∧ l = p_log x' ∧ (0 < u)%N ∧ cfg_ok a (pcommits a) l ∧
     elected (pput a v x' ms bs cs h') u c l);
  up_commits i r : cs !! i = Some r →
    commit_inv (pput a v x' ms bs cs h') (length (pcommits a) + i) r
}.

Lemma acked_term a q t k : pinv a → acknowledged a q t k → (t ≤ p_term (psrv a q))%N.
Proof.
  intros Hi [_ [(m & Hm & _)|Hq]]; [by apply (pi_msg _ Hi) in Hm as [? _]|].
  destruct (phist a !! t) as [[c l]|] eqn:Ht; [|done]. simpl in Hq. simplify_eq.
  apply (pi_reign _ Hi _ _ _ Ht).
Qed.

(** A claim about what a voter held is not affected by what happens later. *)
Lemma held_grows a a' l q t k u :
  pinv a → grows a a' → acknowledged a q t k → take k (hlog a t) `prefix_of` l ∨ lost a t k u →
  take k (hlog a' t) `prefix_of` l ∨ lost a' t k u.
Proof.
  intros Hi Hg [Hk _] [Hp|Hl]; [left|right].
  - by rewrite (grows_take a a').
  - eapply lost_grows; [done|done|by apply reign_terms|done].
Qed.

Lemma elected_grows a a' u c l :
  pinv a → grows a a' →
  (∀ q t k, (t < p_term (psrv a q))%N → acknowledged a' q t k → acknowledged a q t k) →
  elected a u c l → elected a' u c l.
Proof.
  intros Hi Hg Hold (base & new & (Q & HQ & Hwf & Hb & Hq) & Hl & Hn & Hne).
  exists base, new. split_and!; [|done..]. exists Q. split_and!; [done|by eapply wf_log_grows|done|].
  intros q Hin. destruct (Hq q Hin) as (vl & Hbl & Hcov & Hack). exists vl.
  split_and!; [by apply Hg|done|]. intros t k Ht Ha.
  pose proof (bi_voter _ _ (pi_ballot _ Hi _ Hbl)) as Hle. simpl in Hle.
  apply Hold in Ha; [|lia]. eapply held_grows; [done..|]. by apply Hack.
Qed.

Section update.
Context a v x' ms bs cs h' (Hi : pinv a) (Hu : update a v x' ms bs cs h').

Let a' := pput a v x' ms bs cs h'.

Lemma update_grows : grows a a'.
Proof. split; [apply Hu|simpl; set_solver|simpl; set_solver|simpl; by apply prefix_app_r]. Qed.

Lemma update_at : psrv a' v = x'.
Proof. apply fn_lookup_insert. Qed.

Lemma update_ne q : q ≠ v → psrv a' q = psrv a q.
Proof. intros Hq. by apply fn_lookup_insert_ne. Qed.

Lemma update_term q : (p_term (psrv a q) ≤ p_term (psrv a' q))%N.
Proof.
  destruct (decide (q = v)) as [->|Hq]; [rewrite update_at; apply Hu|by rewrite update_ne].
Qed.

(** A server seen at term [u] as a candidate was one, with the same log. *)
Lemma update_candidate q u :
  (u ≤ p_term (psrv a q))%N → p_term (psrv a' q) = u → p_role (psrv a' q) = PCandidate →
  p_term (psrv a q) = u ∧ p_role (psrv a q) = PCandidate ∧ p_log (psrv a' q) = p_log (psrv a q).
Proof.
  destruct (decide (q = v)) as [->|Hq]; [|by rewrite update_ne]. rewrite update_at.
  pose proof (up_term _ _ _ _ _ _ _ Hu). intros ? <- Hr. assert (p_term x' = p_term (psrv a v)) as Ht by lia.
  destruct (up_cand _ _ _ _ _ _ _ Hu Ht Hr). split_and!; [lia|done..].
Qed.

(** Acknowledgements in a term a voter has left behind are final. *)
Lemma update_old_acks q t k :
  (t < p_term (psrv a q))%N → acknowledged a' q t k → acknowledged a q t k.
Proof.
  intros Ht [?|(-> & -> & _)]%(up_acks _ _ _ _ _ _ _ Hu); [done|].
  pose proof (up_term _ _ _ _ _ _ _ Hu). lia.
Qed.

Lemma update_srv q : srv_inv a' q (psrv a' q).
Proof.
  pose proof update_grows as Hg. destruct (decide (q = v)) as [->|Hq].
  - rewrite update_at. destruct Hu as [_ Hterm _ _ Hkept Hacks Hwf Hts Hcand Hlead Hcm _ _ _ _ _].
    split; try done. intros t k Ha. destruct (Hacks _ _ _ Ha) as [Hold|(_ & -> & ?)]; [|by left].
    pose proof (acked_term _ _ _ _ Hi Hold) as Ht. pose proof Hold as [Hk _].
    destruct (si_acked _ _ _ (pi_srv _ Hi v) _ _ Hold) as [Hp|Hl].
    + fold a' in Hkept. rewrite (grows_take a a') by done. by apply Hkept.
    + right. eapply lost_mono; [exact Hterm|]. eapply lost_grows; [done..|by apply reign_terms|done].
  - rewrite update_ne by done. destruct (pi_srv _ Hi q) as [Hwf Hts Hcand Hlead Hack Hcm].
    split; [by eapply wf_log_grows|done|done| | |by eapply settled_grows].
    + intros m Hm. destruct (Hlead m Hm) as [Hh Hmatch]. split.
      * destruct (phist a' !! p_term (psrv a q)) as [[c l]|] eqn:Ht.
        -- destruct (gr_hist _ _ Hg _ _ _ Hh) as (new & Heq & _).
           destruct (up_reigns _ _ _ _ _ _ _ Hu _ _ _ Ht) as [?|(_ & -> & _)]; congruence.
        -- destruct (grows_some a a' (p_term (psrv a q)) Hg) as [? ?]; [by eexists|congruence].
      * intros p i Hp Hpos. destruct (Hmatch p i Hp Hpos); [by left|right]. by eapply acked_grows.
    + intros t k Ha. destruct (up_acks _ _ _ _ _ _ _ Hu _ _ _ Ha) as [Hold|(-> & _)]; [|done].
      eapply held_grows; [done|done|done|]. by apply Hack.
Qed.

Lemma update_msg m : m ∈ pnet a' → msg_inv a' m.
Proof.
  pose proof update_grows as Hg.
  intros [Hm|Hm]%elem_of_app; [|by apply (up_msgs _ _ _ _ _ _ _ Hu)].
  pose proof (pi_msg _ Hi _ Hm) as Hok. destruct m as [c u len lt|t prev pt es lc|q t k|t P]; cbn [msg_inv] in Hok |- *.
  - destruct Hok as [Hle Hc]. split; [pose proof (update_term c); lia|]. intros Ht Hr.
    destruct (update_candidate c u Hle Ht Hr) as (? & ? & ->). by apply Hc.
  - destruct Hok as (? & ? & ? & ?). split_and!; [by eapply grows_some|by eapply slice_grows|done|].
    by eapply settled_hist_grows.
  - destruct Hok as (? & ? & ?). pose proof (update_term q). pose proof (grows_length a a' t Hg).
    split_and!; [lia|by eapply grows_some|lia].
  - destruct Hok as (? & Hp & ?). split_and!; [by eapply grows_some| |by eapply settled_grows].
    destruct (grows_hlog a a' t Hg) as (new & -> & _). by apply prefix_app_r.
Qed.

Lemma update_ballot b : b ∈ pballots a' → ballot_inv a' b.
Proof.
  pose proof update_grows as Hg. intros [Hb|Hb]%elem_of_app.
  - destruct (pi_ballot _ Hi _ Hb) as [Hv Hvote Hc Hcov Hwf Hack].
    pose proof (update_term (pb_voter b)). pose proof (update_term (pb_cand b)).
    split; [lia| |lia| |by eapply wf_log_grows|].
    + intros Ht. destruct (decide (pb_voter b = v)) as [E|Hq]; [|rewrite update_ne in * by done; auto].
      rewrite E in *. rewrite update_at in *. apply (up_vote _ _ _ _ _ _ _ Hu); [lia|]. apply Hvote. lia.
    + intros Ht Hr. destruct (update_candidate _ _ Hc Ht Hr) as (? & ? & ->). auto.
    + intros t k Htk Ha. apply update_old_acks in Ha; [|lia]. eapply held_grows; [done|done|done|]. by apply Hack.
  - destruct (up_ballots _ _ _ _ _ _ _ Hu _ Hb) as (c & -> & Hvc & Hle & Hcov).
    pose proof (update_srv v) as [? _ _ _ Hack _]. rewrite update_at in *.
    split; cbn [pb_voter pb_term pb_cand pb_log]; rewrite ?update_at; [done|done|exact Hle|exact Hcov|done|].
    intros t k _ Ha. by apply Hack.
Qed.

Lemma update_unique q u c c' l l' :
  mkPBallot q u c l ∈ pballots a' → mkPBallot q u c' l' ∈ pballots a' → c = c'.
Proof.
  assert (∀ c c' l l', mkPBallot q u c l ∈ pballots a → mkPBallot q u c' l' ∈ bs → c = c') as Hmix.
  { intros d d' k k' H1 H2. destruct (up_ballots _ _ _ _ _ _ _ Hu _ H2) as (d0 & Heq & Hd & _). simplify_eq.
    destruct (pi_ballot _ Hi _ H1) as [Hv Hvote _ _ _ _]. simpl in *.
    pose proof (up_term _ _ _ _ _ _ _ Hu).
    pose proof (up_vote _ _ _ _ _ _ _ Hu d ltac:(lia) (Hvote ltac:(lia))). congruence. }
  intros [H1|H1]%elem_of_app [H2|H2]%elem_of_app; [by eapply pi_unique|by eapply Hmix| |].
  - symmetry. by eapply Hmix.
  - destruct (up_ballots _ _ _ _ _ _ _ Hu _ H1) as (? & ? & ? & _), (up_ballots _ _ _ _ _ _ _ Hu _ H2) as (? & ? & ? & _).
    congruence.
Qed.

Lemma update_elected u c l : elected a u c l → elected a' u c l.
Proof. apply elected_grows; [done|apply update_grows|apply update_old_acks]. Qed.

Lemma update_commit i r : pcommits a' !! i = Some r → commit_inv a' i r.
Proof.
  pose proof update_grows as Hg. intros [Hr|[Hlen Hr]]%lookup_app_Some.
  - destruct (pi_commit _ Hi _ _ Hr) as [Hlen Ht (Q & HQ & Hacks) Hok].
    pose proof (grows_length a a' (pc_term r) Hg).
    assert (take (pc_len r) (hlog a' (pc_term r)) = take (pc_len r) (hlog a (pc_term r))) as Heq
      by (apply (grows_take a a'); [done|lia]).
    split; [lia| | |].
    + rewrite <-(term_of_take _ _ (pc_len r)), Heq, term_of_take by lia. done.
    + exists Q. rewrite Heq. split; [done|]. intros q Hq. eapply acked_grows; [done|by apply Hacks].
    + rewrite Heq. eapply cfg_ok_grows; [done| |exact Hok].
      simpl. apply lookup_lt_Some in Hr. by rewrite take_app_le by lia.
  - replace i with (length (pcommits a) + (i - length (pcommits a))) by lia.
    by apply (up_commits _ _ _ _ _ _ _ Hu).
Qed.

Lemma update_inv : pinv a'.
Proof.
  pose proof update_grows as Hg.
  split; [apply update_srv|apply update_msg|apply update_ballot|apply update_unique| |apply update_commit].
  intros u c l Hh. destruct (up_reigns _ _ _ _ _ _ _ Hu _ _ _ Hh) as [Hold|(-> & -> & -> & ? & ? & ?)].
  - destruct (pi_reign _ Hi _ _ _ Hold) as [? ? ? Hle Hown ?]. pose proof (update_term c).
    split; [done|by eapply wf_log_grows| |lia| |by apply update_elected].
    + eapply cfg_ok_grows; [done| |done]. by apply prefix_subseteq, gr_commits.
    + intros Ht. destruct (decide (c = v)) as [->|Hc]; [|rewrite update_ne in * by done; auto].
      rewrite update_at in *. rewrite <-Ht in Hh. by apply (up_own _ _ _ _ _ _ _ Hu).
  - split; rewrite ?update_at; try done; [apply Hu| |].
    + eapply cfg_ok_grows; [done| |done]. by apply prefix_subseteq, gr_commits.
    + intros _. split; [done|]. by apply (up_own _ _ _ _ _ _ _ Hu _ Hh).
Qed.

End update.

(** ** Steps that keep the log *)

Lemma hist_le_refl h : hist_le h h.
Proof. intros t c l Hh. exists []. by rewrite app_nil_r. Qed.

Lemma pput_grows a v x' ms bs cs : grows a (pput a v x' ms bs cs (phist a)).
Proof. split; [apply hist_le_refl|simpl; set_solver|simpl; set_solver|by apply prefix_app_r]. Qed.

(** Only a new acknowledgement acknowledges anything new. *)
Lemma pput_acked a v x' ms bs cs q t k :
  acknowledged (pput a v x' ms bs cs (phist a)) q t k →
  acknowledged a q t k ∨ k ≤ length (hlog a t) ∧ ∃ m, PAck q t m ∈ ms ∧ k ≤ m.
Proof.
  intros [Hk [(m & [Hm|Hm]%elem_of_app & Hkm)|Hq]].
  - left. split; [done|left; eauto].
  - right. eauto.
  - left. split; [done|by right].
Qed.

(** What remains to be shown of a step after which the log is what it was. *)
Record keeps a v x' (ms : list PMsg) (bs : list PBallot) (cs : list PCommit) : Prop := {
  ke_log : p_log x' = p_log (psrv a v);
  ke_term : (p_term (psrv a v) ≤ p_term x')%N;
  ke_vote c : p_term x' = p_term (psrv a v) → p_vote (psrv a v) = Some c → p_vote x' = Some c;
  ke_cand : p_role x' = PCandidate → p_role (psrv a v) = PCandidate ∧ p_term x' = p_term (psrv a v) ∨
    (p_term (psrv a v) < p_term x')%N;
  ke_leader m : p_role x' = PLeader m → p_term x' = p_term (psrv a v) ∧ p_commit (psrv a v) ≤ p_commit x' ∧
    ∃ m0, p_role (psrv a v) = PLeader m0 ∧
      ∀ p i, m !! p = Some i → 0 < i →
        m0 !! p = Some i ∨ i ≤ p_commit x' ∨ PAck p (p_term x') i ∈ pnet a;
  ke_commit : settled (pput a v x' ms bs cs (phist a)) (p_commit x') (p_log x') (p_term x');
  ke_commits i r : cs !! i = Some r →
    commit_inv (pput a v x' ms bs cs (phist a)) (length (pcommits a) + i) r;
  ke_noack q t k : PAck q t k ∉ ms;
  ke_msgs m : m ∈ ms → msg_inv (pput a v x' ms bs cs (phist a)) m;
  ke_ballots b : b ∈ bs → ∃ c, b = mkPBallot v (p_term x') c (p_log x') ∧ p_vote x' = Some c ∧
    (p_term x' ≤ p_term (psrv (pput a v x' ms bs cs (phist a)) c))%N ∧
    let y := psrv (pput a v x' ms bs cs (phist a)) c in
    (p_term y = p_term x' → p_role y = PCandidate →
       covered (p_log x') (length (p_log y)) (last_term (p_log y)))
}.

Lemma keeps_update a v x' ms bs cs :
  pinv a → keeps a v x' ms bs cs → update a v x' ms bs cs (phist a).
Proof.
  intros Hi [Hlog Hterm Hvote Hcand Hlead Hcm Hcs Hno Hms Hbs].
  pose proof (pput_grows a v x' ms bs cs) as Hg. pose proof (pi_srv _ Hi v) as [Hwf Hts Hcp Hld _ _].
  split; try done.
  - apply hist_le_refl.
  - intros Ht Hr. destruct (Hcand Hr) as [[? _]|?]; [done|lia].
  - intros t k _ _ Hp. left. by rewrite Hlog.
  - intros q t k [?|(_ & m & Hm & _)]%pput_acked; [by left|by destruct (Hno q t m)].
  - rewrite Hlog. by eapply wf_log_grows.
  - rewrite Hlog. eapply Forall_impl; [exact Hts|]. intros e ?. simpl in *. lia.
  - intros Hr. rewrite Hlog. destruct (Hcand Hr) as [[Hr0 ->]|Hlt]; [by apply Hcp|]. split; [lia|].
    eapply Forall_impl; [exact Hts|]. intros e ?. simpl in *. lia.
  - intros m Hm. destruct (Hlead m Hm) as (Ht & Hle & m0 & Hm0 & Hmatch). destruct (Hld m0 Hm0) as [Hh Hm0s].
    rewrite Ht, Hlog in *. split; [done|]. intros p i Hp Hpos.
    destruct (Hmatch p i Hp Hpos) as [Hp0|[?|Hack]]; [|by left|].
    + destruct (Hm0s p i Hp0 Hpos); [left; lia|right]. by eapply acked_grows.
    + right. eapply acked_grows; [done|]. pose proof (pi_msg _ Hi _ Hack) as (_ & _ & ?).
      split; [done|left; eauto].
  - intros l Hl. destruct (pi_reign _ Hi _ _ _ Hl) as [_ _ _ Hle Hown _].
    destruct (Hown ltac:(lia)) as [? Hnc]. split; [congruence|]. intros Hr.
    destruct (Hcand Hr) as [[? _]|?]; [done|lia].
  - intros u c l Hh. by left.
Qed.

(** A follower rewrites its log. *)
Record rewrites a v l' (commit : nat) (ms : list PMsg) : Prop := {
  rw_wf : wf_log a l';
  rw_terms : Forall (λ e, (eterm e ≤ p_term (psrv a v))%N) l';
  rw_kept t k : (t ≤ p_term (psrv a v))%N → k ≤ length (hlog a t) →
    take k (hlog a t) `prefix_of` p_log (psrv a v) →
    take k (hlog a t) `prefix_of` l' ∨ lost a t k (p_term (psrv a v));
  rw_commit : settled a commit l' (p_term (psrv a v));
  rw_own l : phist a !! p_term (psrv a v) = Some (v, l) → l' = l;
  rw_msgs m : m ∈ ms → ∃ k, m = PAck v (p_term (psrv a v)) k ∧
    is_Some (phist a !! p_term (psrv a v)) ∧ k ≤ length (hlog a (p_term (psrv a v))) ∧
    take k (hlog a (p_term (psrv a v))) `prefix_of` l'
}.

Lemma rewrites_update a v l' commit ms :
  let x := psrv a v in
  pinv a → rewrites a v l' commit ms →
  update a v (mkPServer (p_term x) (p_vote x) PFollower l' commit) ms [] [] (phist a).
Proof.
  intros x Hi [Hwf Hts Hkept Hcm Hown Hms].
  pose proof (pput_grows a v (mkPServer (p_term x) (p_vote x) PFollower l' commit) ms [] []) as Hg.
  split; simpl; try done.
  - apply hist_le_refl.
  - intros q t k [?|(Hk & m & Hm & Hkm)]%pput_acked; [by left|right].
    destruct (Hms _ Hm) as (m' & Heq & _ & Hlen & Hp). simplify_eq. split_and!; [done..|].
    etrans; [|exact Hp]. change (hlog (pput _ _ _ _ _ _ _) _) with (hlog a (p_term x)).
    by apply take_prefix_le.
  - by eapply settled_grows.
  - intros l Hl. split; [by apply Hown|done].
  - intros m Hm. destruct (Hms _ Hm) as (k & -> & ? & ? & _). cbn [msg_inv].
    split_and!; [|done|done]. simpl. by rewrite fn_lookup_insert.
  - intros b Hb. by apply elem_of_nil in Hb.
  - intros u c l Hh. by left.
Qed.

(** ** Receiving entries *)

(** The log after the merge: what it was, if that agrees with the leader's log
    [L] up to [m]; or the first [m] entries of [L], the two logs agreeing up to
    [j], where this one ended or differed. *)
Definition merge_cases (log L log' : list LogEntry) (m : nat) : Prop :=
  take m log' = take m L ∧ m ≤ length L ∧
  (log' = log ∨ log' = take m L ∧ ∃ j, j < m ∧ take j log = take j L ∧
    (length log = j ∨ ∃ y z, log !! j = Some y ∧ L !! j = Some z ∧ eterm y ≠ eterm z)).

Lemma pmerge_cases a sn log L es : ∀ prev,
  wf_log a log → wf_log a L → take sn log = take sn L →
  prev ≤ length log → prev ≤ length L → take prev log = take prev L → es `prefix_of` drop prev L →
  merge_cases log L (pmerge sn prev es log) (prev + length es).
Proof.
  induction es as [|e es IH]; intros prev Hwl HwL Hsn Hp HpL Ht Hes; simpl.
  { rewrite Nat.add_0_r. split_and!; [done..|by left]. }
  destruct (prefix_drop_cons L prev e es Hes) as [He Hes'].
  pose proof (lookup_lt_Some _ _ _ He) as HltL.
  assert (S prev ≤ length log → take (S prev) log = take (S prev) L →
    merge_cases log L (pmerge sn (S prev) es log) (prev + S (length es))) as Hskip.
  { intros ? ?. rewrite Nat.add_succ_r. by apply (IH (S prev)). }
  assert (take prev L ++ e :: es = take (prev + S (length es)) L) as Hcut.
  { rewrite <-take_take_drop. f_equal. symmetry. by apply (prefix_take_iff (e :: es)). }
  assert (prev + S (length es) ≤ length L) as Hm.
  { apply prefix_length in Hes. rewrite length_drop in Hes. simpl in Hes. lia. }
  destruct (decide (S prev ≤ sn)) as [Hs|Hs].
  { apply Hskip; [|exact (take_eq_le Hsn Hs)]. apply (take_eq_length (eq_sym (take_eq_le Hsn Hs))). lia. }
  destruct (log !! prev) as [y|] eqn:Hy; [case_decide as Hye|].
  - pose proof (lookup_lt_Some _ _ _ Hy). apply Hskip; [lia|].
    apply (wf_log_agree a); [done|done|lia|lia|]. by rewrite (term_of_lookup _ _ _ Hy), (term_of_lookup _ _ _ He).
  - rewrite Ht, Hcut. split_and!; [by rewrite take_take, Nat.min_id|done|right]. split; [done|].
    exists prev. split_and!; [lia|done|]. right. eauto.
  - apply lookup_ge_None in Hy. assert (log = take prev L) as ->.
    { by rewrite <-Ht, take_ge. }
    rewrite Hcut. split_and!; [by rewrite take_take, Nat.min_id|done|right]. split; [done|].
    exists prev. split_and!; [lia|by rewrite take_take, Nat.min_id|left]. rewrite length_take. lia.
Qed.

(** Nothing acknowledged is dropped unless the leader itself lacks it, and
    nothing settled is. *)
Lemma merge_cases_keeps a log log' t m t0 k :
  merge_cases log (hlog a t) log' m → is_Some (phist a !! t) → (t0 ≤ t)%N → k ≤ length (hlog a t0) →
  take k (hlog a t0) `prefix_of` log → take k (hlog a t0) `prefix_of` log' ∨ lost a t0 k t.
Proof.
  intros (_ & Hm & [->|[-> (j & Hj & Ht & Hend)]]) Hs Ht0 Hk Hp; [by left|].
  assert (take j log `prefix_of` take m (hlog a t)) as Hpj.
  { rewrite Ht. apply take_prefix_le. lia. }
  destruct Hend as [Hlen|(y & z & Hy & Hz & Hne)].
  { left. etrans; [exact Hp|]. by rewrite take_ge in Hpj by lia. }
  apply take_prefix_eq in Hp; [|done]. destruct (decide (k ≤ j)) as [Hkj|Hkj].
  { left. rewrite <-Hp. etrans; [|exact Hpj]. by apply take_prefix_le. }
  right. assert (¬ take k (hlog a t0) `prefix_of` hlog a t) as Hno.
  { intros Hin%take_prefix_eq; [|done]. rewrite <-Hp in Hin.
    rewrite (take_eq_lookup Hin) in Hz by lia. congruence. }
  exists t. split_and!; [|done|done|done]. destruct (decide (t0 = t)) as [->|]; [|lia].
  destruct Hno. apply prefix_take.
Qed.

Lemma merge_cases_settled a log log' t m k :
  pinv a → merge_cases log (hlog a t) log' m → is_Some (phist a !! t) →
  settled a k log t → settled a k log' t.
Proof.
  intros Hi (_ & Hm & [->|[-> (j & Hj & Ht & Hend)]]) Hs Hk; [done|].
  pose proof (settled_hist _ _ _ _ Hi Hk Hs) as Heq. pose proof (settled_length _ _ _ _ _ Hk) as Hlen.
  assert (k ≤ j) as Hkj.
  { destruct (decide (k ≤ j)); [done|]. destruct Hend as [?|(y & z & Hy & Hz & Hne)]; [lia|].
    rewrite (take_eq_lookup Heq) in Hy by lia. congruence. }
  eapply settled_take; [|exact Hk]. rewrite take_take, Nat.min_l by lia. done.
Qed.

Lemma merge_cases_own log L log' m : log = L → merge_cases log L log' m → log' = L.
Proof.
  intros -> (_ & Hm & [->|[-> (j & Hj & Ht & Hend)]]); [done|].
  destruct Hend as [?|(y & z & Hy & Hz & Hne)]; [lia|congruence].
Qed.

Lemma merge_cases_wf a log t log' m :
  pinv a → wf_log a log → Forall (λ e, (eterm e ≤ t)%N) log → merge_cases log (hlog a t) log' m →
  wf_log a log' ∧ Forall (λ e, (eterm e ≤ t)%N) log'.
Proof.
  intros Hi Hwf Hts (_ & _ & [->|[-> _]]); [done|]. split.
  - eapply wf_log_prefix; [apply prefix_take|by apply reign_wf].
  - by apply Forall_take, reign_terms.
Qed.

(** The consistency check of AppendEntries, with the receiver's snapshot standing
    in for entries that are gone, does what it is for. *)
Lemma accept_cases a v prev pt es lc sn :
  let x := psrv a v in
  pinv a → PAppend (p_term x) prev pt es lc ∈ pnet a → sn ≤ p_commit x →
  prev = 0 ∨ prev < sn ∨ (prev ≤ length (p_log x) ∧ term_of (p_log x) prev = pt) →
  merge_cases (p_log x) (hlog a (p_term x)) (pmerge sn prev es (p_log x)) (prev + length es).
Proof.
  intros x Hi Hm Hsn Hguard. destruct (pi_msg _ Hi _ Hm) as (Hs & Hsl & _ & _).
  destruct (pi_srv _ Hi v) as [Hwf _ _ _ _ Hcm]. fold x in Hwf, Hcm.
  pose proof (settled_hist _ _ _ _ Hi Hcm Hs) as Heq. pose proof (settled_length _ _ _ _ _ Hcm) as Hlen.
  assert (p_commit x ≤ length (hlog a (p_term x))) as HlenL by by apply (take_eq_length Heq).
  pose proof (reign_wf a (p_term x) Hi) as HwL.
  assert (prev ≤ length (p_log x) ∧ prev ≤ length (hlog a (p_term x)) ∧
    take prev (p_log x) = take prev (hlog a (p_term x))) as (Hp & HpL & Ht).
  { destruct Hguard as [->|[?|[Hp Hpt]]]; [split_and!; [lia|lia|done]|split_and!; [lia|lia|]|].
    - eapply take_eq_le; [exact Heq|lia].
    - destruct Hsl as [(HpL & Hpt' & _)|(_ & -> & Hpos)].
      + split_and!; [done|done|]. apply (wf_log_agree a); [done..|congruence].
      + destruct prev as [|i]; [lia|]. destruct (lookup_lt_is_Some_2 (p_log x) i) as [e He]; [lia|].
        rewrite (term_of_lookup _ _ _ He) in Hpt. destruct (Hwf _ _ He) as [[[c l] Hh] _].
        pose proof (ri_pos _ _ _ _ (pi_reign _ Hi _ _ _ Hh)). lia. }
  destruct Hsl as [(_ & _ & Hes)|(-> & _)].
  - apply (pmerge_cases a); try done. eapply take_eq_le; [exact Heq|done].
  - simpl. rewrite Nat.add_0_r. split_and!; [done..|by left].
Qed.

Lemma accept_rewrites a v prev pt es lc sn :
  let x := psrv a v in
  let m := prev + length es in
  pinv a → PAppend (p_term x) prev pt es lc ∈ pnet a → sn ≤ p_commit x →
  prev = 0 ∨ prev < sn ∨ (prev ≤ length (p_log x) ∧ term_of (p_log x) prev = pt) →
  rewrites a v (pmerge sn prev es (p_log x))
    (if decide (p_commit x < lc) then Nat.min lc m else p_commit x) [PAck v (p_term x) m].
Proof.
  intros x m Hi Hm Hsn Hguard. pose proof (accept_cases a v prev pt es lc sn Hi Hm Hsn Hguard) as Hcs.
  fold x m in Hcs. destruct (pi_msg _ Hi _ Hm) as (Hs & _ & Hlc & Hset).
  destruct (pi_srv _ Hi v) as [Hwf Hts _ _ _ Hcm]. fold x in Hwf, Hts, Hcm.
  destruct (merge_cases_wf a _ _ _ _ Hi Hwf Hts Hcs) as [Hwf' Hts']. pose proof Hcs as (Heq & HmL & _).
  split; fold x; [done|done| | | |].
  - intros t k Ht Hk Hp. by apply (merge_cases_keeps a (p_log x) _ _ m).
  - case_decide as Hlt.
    + rewrite Nat.min_l by done. eapply settled_take; [|exact Hset]. by eapply take_eq_le.
    + by eapply merge_cases_settled.
  - intros l Hl. destruct (pi_reign _ Hi _ _ _ Hl) as [_ _ _ _ Hown _]. destruct (Hown eq_refl) as [Hlog _].
    assert (l = hlog a (p_term x)) as -> by (unfold hlog; by rewrite Hl).
    by eapply merge_cases_own.
  - intros k ->%list_elem_of_singleton. exists m. split_and!; [done..|]. by apply take_eq_prefix.
Qed.

(** A log cut where it contradicts the leader loses nothing that counts. *)
Lemma truncate_rewrites a v prev pt es lc i e y :
  let x := psrv a v in
  pinv a → PAppend (p_term x) prev pt es lc ∈ pnet a →
  es !! i = Some e → p_log x !! (prev + i) = Some y → eterm y ≠ eterm e →
  rewrites a v (take (prev + i) (p_log x)) (p_commit x) [].
Proof.
  intros x Hi Hm He Hy Hne. destruct (pi_msg _ Hi _ Hm) as (Hs & Hsl & _ & _).
  destruct (pi_srv _ Hi v) as [Hwf Hts _ _ _ Hcm]. fold x in Hwf, Hts, Hcm.
  assert (hlog a (p_term x) !! (prev + i) = Some e) as Hz.
  { destruct Hsl as [(_ & _ & [r Hr])|(-> & _)]; [|done].
    rewrite <-lookup_drop, Hr. by apply lookup_app_l_Some. }
  assert (∀ k l, take k l = take k (p_log x) → k ≤ length l → prev + i < k → ¬ take k l `prefix_of` hlog a (p_term x)) as Hclash.
  { intros k l Heq Hk Hlt Hp%take_prefix_eq; [|done]. rewrite Heq in Hp.
    rewrite (take_eq_lookup Hp) in Hz by lia. congruence. }
  split; fold x.
  - eapply wf_log_prefix; [apply prefix_take|done].
  - by apply Forall_take.
  - intros t k Ht Hk Hp. apply take_prefix_eq in Hp; [|done]. destruct (decide (k ≤ prev + i)) as [Hki|Hki].
    + left. apply take_eq_prefix. by rewrite take_take, Nat.min_l by lia.
    + right. pose proof (Hclash k (hlog a t) (eq_sym Hp) Hk ltac:(lia)) as Hno. exists (p_term x).
      split_and!; [|done|done|done]. destruct (decide (t = p_term x)) as [->|]; [|lia].
      destruct Hno. apply prefix_take.
  - pose proof (settled_hist _ _ _ _ Hi Hcm Hs) as Heq. pose proof (settled_length _ _ _ _ _ Hcm) as Hlen.
    assert (p_commit x ≤ prev + i).
    { destruct (decide (p_commit x ≤ prev + i)); [done|]. rewrite (take_eq_lookup Heq) in Hy by lia. congruence. }
    eapply settled_take; [|exact Hcm]. by rewrite take_take, Nat.min_l by lia.
  - intros l Hl. destruct (pi_reign _ Hi _ _ _ Hl) as [_ _ _ _ Hown _]. destruct (Hown eq_refl) as [Hlog _].
    fold x in Hlog. unfold hlog in Hz. rewrite Hl, <-Hlog in Hz. simpl in Hz. congruence.
  - intros k Hk. by apply elem_of_nil in Hk.
Qed.

Lemma install_rewrites a v P :
  let x := psrv a v in
  pinv a → PSnap (p_term x) P ∈ pnet a → p_commit x < length P →
  rewrites a v (if decide (length P ≤ length (p_log x) ∧ term_of (p_log x) (length P) = last_term P)
                then p_log x else P) (length P) [].
Proof.
  intros x Hi Hm Hlt. destruct (pi_msg _ Hi _ Hm) as (Hs & HP & Hset).
  destruct (pi_srv _ Hi v) as [Hwf Hts _ _ _ Hcm]. fold x in Hwf, Hts, Hcm.
  assert (wf_log a P) as HwP by (eapply wf_log_prefix; [exact HP|by apply reign_wf]).
  pose proof HP as HPt. apply prefix_take_iff in HPt.
  assert (∀ l, phist a !! p_term x = Some (v, l) → p_log x = l ∧ P `prefix_of` p_log x) as Hown.
  { intros l Hl. destruct (pi_reign _ Hi _ _ _ Hl) as [_ _ _ _ Hown _]. destruct (Hown eq_refl) as [Hlog _].
    fold x in Hlog. split; [done|]. unfold hlog in HP. rewrite Hl in HP. by rewrite Hlog. }
  case_decide as Hb; (split; fold x; [| | | | |intros k Hk; by apply elem_of_nil in Hk]).
  - done.
  - done.
  - intros t k _ _ ?. by left.
  - destruct Hb as [Hlen Hterm]. eapply settled_take; [|exact Hset].
    apply (wf_log_agree a); [done|done|done|done|exact Hterm].
  - intros l Hl. by apply Hown.
  - done.
  - pose proof (reign_terms a (p_term x) Hi) as Hf. destruct HP as [r Hr]. rewrite Hr in Hf.
    by apply Forall_app in Hf as [? _].
  - intros t k Ht Hk Hp. destruct (decide (take k (hlog a t) `prefix_of` hlog a (p_term x))) as [Hin|Hno].
    + left. apply take_prefix_eq in Hin; [|done]. destruct (decide (k ≤ length P)) as [Hkp|Hkp].
      * apply take_eq_prefix. rewrite <-HPt, take_take, Nat.min_l by lia. done.
      * destruct Hb. apply take_prefix_eq in Hp; [|done]. rewrite <-Hin in Hp.
        split; [apply (take_eq_length (eq_sym (take_eq_le Hp (j := length P) ltac:(lia)))); pose proof (prefix_length _ _ HP); lia|].
        rewrite <-(term_of_take _ _ (length P)), (take_eq_le Hp (j := length P)), HPt by lia. done.
    + right. exists (p_term x). split_and!; [|done|done|done].
      destruct (decide (t = p_term x)) as [->|]; [|lia]. destruct Hno. apply prefix_take.
  - done.
  - intros l Hl. destruct (Hown l Hl) as [Hlog Hin]. destruct Hb. pose proof (prefix_length _ _ Hin).
    split; [done|]. apply prefix_take_iff in Hin.
    rewrite <-(term_of_take _ _ (length P)), Hin by lia. done.
Qed.

(** ** Taking office and appending *)

(** The history after the leader of [u] has the log [l]. *)
Definition reign (a : PState) (v : NodeId) (x' : PServer) u l : PState :=
  pput a v x' [] [] [] (<[u := (v, l)]> (phist a)).

Lemma reign_hlog a v x' u l t : hlog (reign a v x' u l) t = if decide (t = u) then l else hlog a t.
Proof.
  unfold hlog. simpl. case_decide as E; [subst; by rewrite lookup_insert_eq|by rewrite lookup_insert_ne].
Qed.

Lemma reign_acked a v x' u l q t k :
  acknowledged (reign a v x' u l) q t k → t ≠ u → acknowledged a q t k.
Proof.
  intros [Hk Ha] Hne. rewrite reign_hlog, decide_False in Hk by done. split; [done|]. simpl in Ha.
  by rewrite app_nil_r, lookup_insert_ne in Ha.
Qed.

(** Whoever acknowledges term [u] besides its leader did so before. *)
Lemma reign_acks a v x' u l q t k :
  pinv a → p_log x' = l → p_term x' = u →
  (∀ m, PAck q u m ∈ pnet a → m ≤ length (hlog a u)) →
  acknowledged (reign a v x' u l) q t k → acknowledged a q t k ∨
  (q = v ∧ t = p_term x' ∧ take k (hlog (reign a v x' u l) t) `prefix_of` p_log x').
Proof.
  intros Hi Hl Ht Hm Ha. destruct (decide (t = u)) as [->|Hne]; [|left; by eapply reign_acked].
  destruct Ha as [Hk [(m & Hp & Hkm)|Hq]]; [left|right].
  - simpl in Hp. rewrite app_nil_r in Hp. specialize (Hm _ Hp). split; [lia|left; eauto].
  - simpl in Hq. rewrite lookup_insert_eq in Hq. simpl in Hq. simplify_eq. split_and!; [done..|].
    rewrite reign_hlog, decide_True by done. apply prefix_take.
Qed.

Lemma reign_wf_snoc a v x' log e :
  grows a (reign a v x' (eterm e) (log ++ [e])) → wf_log a log →
  wf_log (reign a v x' (eterm e) (log ++ [e])) (log ++ [e]).
Proof.
  intros Hg Hwf i y Hy. apply lookup_app_Some in Hy as [Hy|[Hi Hy]].
  - destruct (wf_log_grows _ _ _ Hg Hwf _ _ Hy) as [? Ht]. split; [done|].
    apply lookup_lt_Some in Hy. by rewrite take_app_le by lia.
  - apply list_lookup_singleton_Some in Hy as [_ <-]. rewrite reign_hlog, decide_True by done.
    split; [|done]. simpl. rewrite lookup_insert_eq. by eexists.
Qed.

Lemma cfg_ok_snoc a rs l e :
  cfg_ok a rs l →
  (∀ d, entry_votes e = Some d → follows (cfg l) d ∧ settled_by a rs (cfg_index l) l (eterm e)) →
  cfg_ok a rs (l ++ [e]).
Proof.
  intros Hok Hnew p y d Hy Hd. apply lookup_app_Some in Hy as [Hy|[Hlen Hy]].
  - eapply cfg_ok_take; [exact Hok| |by apply lookup_app_l_Some|done].
    apply lookup_lt_Some in Hy. by rewrite take_app_le by lia.
  - apply list_lookup_singleton_Some in Hy as [Hp <-]. assert (p = length l) as -> by lia.
    rewrite take_app_length. destruct (Hnew d Hd) as [? Hs]. split; [done|].
    eapply settled_take; [|exact Hs]. rewrite take_app_le; [done|]. apply cfg_index_le.
Qed.

(** The shared part of [ps_win] and [ps_append]: the log and the history of the
    term grow by one entry of the term. *)
Lemma snoc_update a v e m :
  let x := psrv a v in
  let x' := mkPServer (p_term x) (p_vote x) (PLeader m) (p_log x ++ [e]) (p_commit x) in
  let a' := reign a v x' (p_term x) (p_log x ++ [e]) in
  pinv a → eterm e = p_term x →
  (∀ d, entry_votes e = Some d → cfg_index (p_log x) ≤ p_commit x ∧ follows (cfg (p_log x)) d) →
  (0 < p_term x)%N → grows a a' → (∀ q k, PAck q (p_term x) k ∈ pnet a → k ≤ length (hlog a (p_term x))) →
  (∀ p i, m !! p = Some i → 0 < i → i ≤ p_commit x ∨ acknowledged a p (p_term x) i) →
  elected a' (p_term x) v (p_log x ++ [e]) →
  pinv a'.
Proof.
  intros x x' a' Hi He Hgood Hpos Hg Hacks Hm Hel.
  destruct (pi_srv _ Hi v) as [Hwf Hts _ _ _ Hcm]. fold x in Hwf, Hts, Hcm.
  apply update_inv; [done|]. fold (reign a v x' (p_term x) (p_log x ++ [e])). fold a'.
  split; cbn [p_log p_term p_vote p_role p_commit x']; fold x; try done.
  - apply Hg.
  - intros t k _ _ Hp. left. by apply prefix_app_r.
  - intros q t k Ha. apply (reign_acks a v x' (p_term x) (p_log x ++ [e])); [done|done|done|apply Hacks|done].
  - unfold a'. rewrite <-He. apply reign_wf_snoc; [|done]. by rewrite He.
  - apply Forall_app. split; [done|]. constructor; [lia|done].
  - intros m' [= <-]. split; [apply lookup_insert_eq|]. intros p i Hp Hpi.
    destruct (Hm p i Hp Hpi); [by left|right]. by eapply acked_grows.
  - eapply settled_grows; [done|]. eapply settled_take; [|exact Hcm].
    rewrite take_app_le; [done|]. by eapply settled_length.
  - intros l Hl. rewrite lookup_insert_eq in Hl. by simplify_eq.
  - intros m' Hm'. by apply elem_of_nil in Hm'.
  - intros b Hb. by apply elem_of_nil in Hb.
  - intros u c l Hl. apply lookup_insert_Some in Hl as [[<- Heq]|[_ ?]]; [right|by left]. simplify_eq.
    split_and!; [done..| |done]. apply cfg_ok_snoc; [by apply wf_cfg_ok|].
    intros d Hd. destruct (Hgood d Hd) as [Hle Hf]. split; [done|]. rewrite He.
    eapply settled_mono; [reflexivity|exact Hle|exact Hcm].
Qed.

(** A candidate with a quorum of ballots is electable. *)
Lemma candidate_electable a v Q :
  let x := psrv a v in
  pinv a → p_role x = PCandidate → quorum_of (cfg (p_log x)) Q →
  (∀ q, q ∈ Q → ∃ l, mkPBallot q (p_term x) v l ∈ pballots a) →
  electable a (p_term x) (p_term x) v (p_log x).
Proof.
  intros x Hi Hr HQ Hb. destruct (pi_srv _ Hi v) as [Hwf _ Hcand _ _ _]. fold x in Hwf, Hcand.
  destruct (Hcand Hr) as [_ Hlt]. exists Q. split_and!; [done..|]. intros q Hq.
  destruct (Hb q Hq) as [vl Hvl]. exists vl. destruct (pi_ballot _ Hi _ Hvl) as [_ _ _ Hcov _ Hack].
  split_and!; [done|by apply Hcov|done].
Qed.

(** Logs that both have everything committed before [u] end in compatible
    configurations. *)
Lemma complete_compatible a u l l' :
  pinv a → wf_log a l → wf_log a l' → Forall (λ e, (eterm e < u)%N) l → Forall (λ e, (eterm e < u)%N) l' →
  complete a u l → complete a u l' → compatible (cfg l) (cfg l').
Proof.
  intros Hi Hl Hl' Hlt Hlt' Hc Hc'.
  assert (∀ l l', wf_log a l → Forall (λ e, (eterm e < u)%N) l → complete a u l' →
    ∀ q e d, l !! q = Some e → entry_votes e = Some d → take (cfg_index (take q l)) l `prefix_of` l') as Hin.
  { clear l l' Hl Hl' Hlt Hlt' Hc Hc'. intros l l' Hl Hlt Hc q e d He Hd. destruct (wf_cfg_ok a l Hi Hl q e d He Hd) as [_ Hs].
    destruct Hs as [->|(r & Hr & Hle & Hk & Heq)]; [by apply prefix_nil|].
    eapply Forall_lookup_1 in Hlt; [|exact He]. simpl in Hlt. rewrite Heq.
    etrans; [|apply (Hc r Hr); lia]. apply take_prefix_le. lia. }
  apply (logs_compatible a (pcommits a) (pcommits a)); [by apply wf_cfg_ok..|by apply Hin|by apply Hin].
Qed.

(** Nobody won the term of a candidate that has a quorum of ballots. *)
Lemma win_fresh a v Q :
  let x := psrv a v in
  pinv a → p_role x = PCandidate → quorum_of (cfg (p_log x)) Q →
  (∀ q, q ∈ Q → ∃ l, mkPBallot q (p_term x) v l ∈ pballots a) → phist a !! p_term x = None.
Proof.
  intros x Hi Hr HQ Hb. destruct (phist a !! p_term x) as [[c l]|] eqn:Hh; [|done]. exfalso.
  destruct (pi_reign _ Hi _ _ _ Hh) as [_ _ _ _ Hown (base & new & Hel & _)].
  pose proof (candidate_electable a v Q Hi Hr HQ Hb) as Hel'. fold x in Hel'.
  assert (complete a (p_term x) base) as Hc.
  { eapply electable_complete; [done|exact Hel|]. intros w _ Hs. by apply leader_completeness. }
  assert (complete a (p_term x) (p_log x)) as Hc'.
  { eapply electable_complete; [done|exact Hel'|]. intros w _ Hs. by apply leader_completeness. }
  destruct Hel as (Q' & HQ' & Hwf & Hlt & Hq). destruct Hel' as (_ & _ & Hwf' & Hlt' & _).
  destruct (complete_compatible a (p_term x) _ _ Hi Hwf' Hwf Hlt' Hlt Hc' Hc Q Q' HQ HQ') as (q & Hin & Hin').
  destruct (Hb q Hin) as [l1 H1]. destruct (Hq q Hin') as (l2 & H2 & _).
  assert (v = c) as <- by by eapply (pi_unique _ Hi). by destruct (Hown eq_refl).
Qed.

Lemma win_inv a v Q e :
  let x := psrv a v in
  pinv a → p_role x = PCandidate → quorum_of (cfg (p_log x)) Q →
  (∀ q, q ∈ Q → ∃ l, mkPBallot q (p_term x) v l ∈ pballots a) →
  eterm e = p_term x → entry_votes e = None →
  pinv (pput a v (mkPServer (p_term x) (p_vote x) (PLeader ∅) (p_log x ++ [e]) (p_commit x))
    [] [] [] (<[p_term x := (v, p_log x ++ [e])]> (phist a))).
Proof.
  intros x Hi Hr HQ Hb He Hnc. pose proof (win_fresh a v Q Hi Hr HQ Hb) as Hnone. fold x in Hnone.
  destruct (si_candidate _ _ _ (pi_srv _ Hi v) Hr) as [Hpos _]. fold x in Hpos.
  set (x' := mkPServer _ _ _ _ _).
  assert (grows a (reign a v x' (p_term x) (p_log x ++ [e]))) as Hg.
  { split; simpl; [|set_solver..|by apply prefix_app_r].
    intros t c l Hl. exists []. rewrite app_nil_r, lookup_insert_ne; [done|congruence]. }
  apply snoc_update; try done.
  - intros d Hd. congruence.
  - intros q k (_ & [y Hy] & _)%(pi_msg _ Hi). fold x in Hy. congruence.
  - exists (p_log x), [e]. split_and!; [|done|by repeat constructor|done].
    destruct (candidate_electable a v Q Hi Hr HQ Hb) as (Q' & HQ' & Hwf & Hlt & Hq). fold x in HQ', Hwf, Hlt, Hq.
    exists Q'. split_and!; [done|by eapply wf_log_grows|done|]. intros q Hin.
    destruct (Hq q Hin) as (vl & Hvl & Hcov & Hack). exists vl. split_and!; [by apply Hg|done|].
    intros t k Htu Ha. fold x in Htu. apply reign_acked in Ha; [|fold x; lia]. eapply held_grows; [done..|].
    destruct (Hack t k Htu Ha) as [?|(w & Hw & [y Hy] & Hn)]; [by left|right].
    assert (w ≠ p_term x) by congruence. fold x. exists w. split_and!; [lia|lia|by eexists|done].
Qed.

Lemma append_inv a v m e :
  let x := psrv a v in
  pinv a → p_role x = PLeader m → eterm e = p_term x →
  (∀ d, entry_votes e = Some d → cfg_index (p_log x) ≤ p_commit x ∧ follows (cfg (p_log x)) d) →
  pinv (pput a v (mkPServer (p_term x) (p_vote x) (PLeader m) (p_log x ++ [e]) (p_commit x))
    [] [] [] (<[p_term x := (v, p_log x ++ [e])]> (phist a))).
Proof.
  intros x Hi Hr He Hgood. destruct (pi_srv _ Hi v) as [_ _ _ Hlead _ _].
  destruct (Hlead m Hr) as [Hh Hm]. fold x in Hh, Hm. set (x' := mkPServer _ _ _ _ _).
  destruct (pi_reign _ Hi _ _ _ Hh) as [Hpos _ _ _ _ Hel].
  assert (grows a (reign a v x' (p_term x) (p_log x ++ [e]))) as Hg.
  { split; simpl; [|set_solver..|by apply prefix_app_r].
    intros t c l Hl. destruct (decide (t = p_term x)) as [->|Hne].
    - rewrite Hh in Hl. simplify_eq. exists [e]. rewrite lookup_insert_eq. split; [done|by constructor].
    - exists []. by rewrite app_nil_r, lookup_insert_ne. }
  apply snoc_update; try done; [by intros q k (_ & _ & ?)%(pi_msg _ Hi)|].
  assert (elected (reign a v x' (p_term x) (p_log x ++ [e])) (p_term x) v (p_log x)) as Hel'.
  { apply (elected_grows a); [done|done| |done]. intros q t k Ht Ha.
    destruct (decide (t = p_term x)) as [->|Hne]; [|by eapply reign_acked].
    apply (reign_acks a v x' (p_term x) (p_log x ++ [e])) in Ha; [|done..|].
    - destruct Ha as [?|(-> & _)]; [done|]. fold x in Ht. lia.
    - by intros k' (_ & _ & ?)%(pi_msg _ Hi). }
  destruct Hel' as (base & new & Hbase & Hl & Hn & Hne).
  exists base, (new ++ [e]). fold x. rewrite Hl, app_assoc. rewrite Hl in Hbase.
  split_and!; [done|done| |by destruct new].
  apply Forall_app. split; [done|by constructor].
Qed.

(** ** The other steps *)

Lemma reigns_log a v :
  pinv a → reigns a v →
  is_Some (phist a !! p_term (psrv a v)) ∧ hlog a (p_term (psrv a v)) = p_log (psrv a v).
Proof.
  intros Hi Hr. unfold reigns in Hr. unfold hlog.
  destruct (phist a !! p_term (psrv a v)) as [[c l]|] eqn:Hh; [|done]. simpl in Hr. simplify_eq.
  split; [by eexists|]. simpl. by destruct (ri_own _ _ _ _ (pi_reign _ Hi _ _ _ Hh) eq_refl).
Qed.

Lemma send_keeps a v m :
  let x := psrv a v in
  pinv a → (∀ q t k, m ≠ PAck q t k) → msg_inv (pput a v x [m] [] [] (phist a)) m →
  keeps a v x [m] [] [].
Proof.
  intros x Hi Hno Hm. split; try done.
  - intros ?. by left.
  - intros m0 Hm0. split_and!; [done|apply le_n|]. exists m0. split; [done|]. intros; by left.
  - eapply settled_grows; [apply pput_grows|apply Hi].
  - intros q t k Hk%list_elem_of_singleton. by destruct (Hno q t k).
  - by intros m' ->%list_elem_of_singleton.
  - intros b Hb. by apply elem_of_nil in Hb.
Qed.

(** A step that sends nothing and casts no ballot. *)
Lemma silent_keeps a v x' :
  let x := psrv a v in
  pinv a → p_log x' = p_log x → (p_term x ≤ p_term x')%N →
  (p_term x' = p_term x → p_vote x' = p_vote x) → p_role x' = PFollower →
  p_commit x' ≤ p_commit x → keeps a v x' [] [] [].
Proof.
  intros x Hi Hlog Ht Hv Hr Hc. split; rewrite ?Hr; try done.
  - intros c Heq Hc'. by rewrite Hv.
  - rewrite Hlog. eapply settled_grows; [apply pput_grows|].
    eapply settled_mono; [exact Ht|exact Hc|]. apply Hi.
  - intros q t k Hk. by apply elem_of_nil in Hk.
  - intros m Hm. by apply elem_of_nil in Hm.
  - intros b Hb. by apply elem_of_nil in Hb.
Qed.

Lemma timeout_keeps a v t :
  let x := psrv a v in
  pinv a → (p_term x < t)%N →
  keeps a v (mkPServer t (Some v) PCandidate (p_log x) (p_commit x)) []
    [mkPBallot v t v (p_log x)] [].
Proof.
  intros x Hi Ht. split; simpl; try done.
  - fold x. lia.
  - fold x. lia.
  - intros _. by right.
  - eapply settled_grows; [apply pput_grows|]. eapply settled_mono; [| |apply Hi]; fold x; [lia|done].
  - intros q t' k Hk. by apply elem_of_nil in Hk.
  - intros m Hm. by apply elem_of_nil in Hm.
  - intros b ->%list_elem_of_singleton. exists v. rewrite fn_lookup_insert. simpl.
    split_and!; [done..|]. intros _ _. right. done.
Qed.

Lemma grant_keeps a v c len lt :
  let x := psrv a v in
  pinv a → PVoteReq c (p_term x) len lt ∈ pnet a → p_vote x = None ∨ p_vote x = Some c →
  covered (p_log x) len lt →
  keeps a v (mkPServer (p_term x) (Some c) (p_role x) (p_log x) (p_commit x)) []
    [mkPBallot v (p_term x) c (p_log x)] [].
Proof.
  intros x Hi Hm Hv Hcov. destruct (pi_msg _ Hi _ Hm) as [Hle Hc].
  split; simpl; fold x; try done.
  - intros d _ Hd. destruct Hv; congruence.
  - intros Hr. by left.
  - intros m0 Hm0. split_and!; [done|done|]. exists m0. split; [done|]. intros; by left.
  - eapply settled_grows; [apply pput_grows|]. apply (pi_srv _ Hi v).
  - intros q t k Hk. by apply elem_of_nil in Hk.
  - intros m Hm'. by apply elem_of_nil in Hm'.
  - intros b ->%list_elem_of_singleton. exists c. split_and!; [done..| |].
    + destruct (decide (c = v)) as [->|Hne]; [by rewrite fn_lookup_insert|by rewrite fn_lookup_insert_ne].
    + destruct (decide (c = v)) as [->|Hne].
      * rewrite fn_lookup_insert. simpl. intros _ _. by right.
      * rewrite fn_lookup_insert_ne by done. intros Ht Hr. by destruct (Hc Ht Hr) as [-> ->].
Qed.

Lemma rebook_keeps a v m m' :
  let x := psrv a v in
  pinv a → p_role x = PLeader m →
  (∀ p i, m' !! p = Some i → 0 < i →
     m !! p = Some i ∨ i ≤ p_commit x ∨ PAck p (p_term x) i ∈ pnet a) →
  keeps a v (mkPServer (p_term x) (p_vote x) (PLeader m') (p_log x) (p_commit x)) [] [] [].
Proof.
  intros x Hi Hr Hm. split; simpl; fold x; try done.
  - intros m0 [= <-]. split_and!; [done|done|]. eauto.
  - eapply settled_grows; [apply pput_grows|]. apply (pi_srv _ Hi v).
  - intros q t k Hk. by apply elem_of_nil in Hk.
  - intros m0 Hm'. by apply elem_of_nil in Hm'.
  - intros b Hb. by apply elem_of_nil in Hb.
Qed.

Lemma commit_keeps a v m i :
  let x := psrv a v in
  pinv a → p_role x = PLeader m → p_commit x < i ≤ length (p_log x) →
  term_of (p_log x) i = p_term x → quorum_of (cfg (p_log x)) (ackers v i m) →
  keeps a v (mkPServer (p_term x) (p_vote x) (PLeader m) (p_log x) i) [] []
    [mkPCommit (p_term x) i (length (p_log x))].
Proof.
  intros x Hi Hr Hlt Ht HQ. destruct (pi_srv _ Hi v) as [Hwf _ _ Hlead _ _].
  destruct (Hlead m Hr) as [Hh Hm]. fold x in Hwf, Hh, Hm.
  set (x' := mkPServer _ _ _ _ _). set (r := mkPCommit _ _ _).
  pose proof (pput_grows a v x' [] [] [r]) as Hg. set (a' := pput a v x' [] [] [r] (phist a)) in *.
  assert (hlog a' (p_term x) = p_log x) as Hlog by (unfold hlog; simpl; by rewrite Hh).
  split; cbn [p_term p_log p_role p_commit p_vote x']; fold x; fold a'; try done.
  - intros m0 [= <-]. split_and!; [done|lia|]. exists m. split; [done|]. intros; by left.
  - right. exists r. change (pc_term r) with (p_term x). rewrite Hlog.
    split_and!; [simpl; set_solver|done|done|simpl; lia|done].
  - intros j r' Hr'. apply list_lookup_singleton_Some in Hr' as [-> <-].
    split; cbn [pc_term pc_pos pc_len r]; rewrite Hlog.
    + lia.
    + done.
    + exists (ackers v i m). rewrite firstn_all. split; [done|]. unfold ackers.
      intros q [->%elem_of_singleton|Hq]%elem_of_union.
      * split; [rewrite Hlog; lia|right]. simpl. by rewrite Hh.
      * apply elem_of_dom in Hq as [j [Hj Hij]%map_lookup_filter_Some]. simpl in Hij.
        destruct (Hm q j Hj) as [?|[_ Ha]]; [lia|lia|].
        split; [rewrite Hlog; lia|]. simpl. rewrite app_nil_r.
        destruct Ha as [(k & ? & ?)|?]; [left; exists k; split; [done|lia]|by right].
    + rewrite firstn_all. simpl. rewrite Nat.add_0_r, take_app_length.
      eapply cfg_ok_grows; [done|reflexivity|by apply wf_cfg_ok].
  - intros q t k Hk. by apply elem_of_nil in Hk.
  - intros m0 Hm'. by apply elem_of_nil in Hm'.
  - intros b Hb. by apply elem_of_nil in Hb.
Qed.

Lemma pstep_inv v a a' : pinv a → pstep v a a' → pinv a'.
Proof.
  intros Hi Hs.
  destruct Hs as [t x Ht|t x Ht|x Hr|c len lt x Hm Hv Hcov|Q e x Hr HQ Hb He Hnc|m e x Hr He Hcf
    |prev pt es lc x Hr Hsl Hc Hlc|k x Hr Hk|prev pt es lc sn x m Hm Hsn Hg|prev pt es lc i e y x Hm He Hy Hne
    |P x Hm Hlt|m m' x Hr Hm|m i x Hr Hlt Ht HQ|x|k x Hk].
  - apply update_inv, keeps_update, silent_keeps; simpl; try done; fold x; lia.
  - by apply update_inv, keeps_update, timeout_keeps.
  - apply update_inv, keeps_update, send_keeps; [done..|]. cbn [msg_inv]. simpl.
    rewrite fn_lookup_insert. done.
  - by apply update_inv, keeps_update, (grant_keeps a v c len lt).
  - by apply (win_inv a v Q).
  - by apply append_inv.
  - destruct (reigns_log a v Hi Hr) as [Hs Hl]. fold x in Hs, Hl.
    apply update_inv, keeps_update, send_keeps; [done..|]. cbn [msg_inv].
    change (hlog (pput _ _ _ _ _ _ _) (p_term x)) with (hlog a (p_term x)). rewrite Hl.
    split_and!; [done|done|done|]. eapply settled_grows; [apply pput_grows|].
    eapply settled_mono; [reflexivity|exact Hc|apply (pi_srv _ Hi v)].
  - destruct (reigns_log a v Hi Hr) as [Hs Hl]. fold x in Hs, Hl.
    pose proof (si_commit _ _ _ (pi_srv _ Hi v)) as Hcm. fold x in Hcm.
    pose proof (settled_length _ _ _ _ _ Hcm) as Hlen.
    apply update_inv, keeps_update, send_keeps; [done..|]. cbn [msg_inv].
    change (hlog (pput _ _ _ _ _ _ _) (p_term x)) with (hlog a (p_term x)). rewrite Hl.
    split_and!; [done|apply prefix_take|]. eapply settled_grows; [apply pput_grows|].
    rewrite length_take, Nat.min_l by lia. eapply settled_take; [|eapply settled_mono; [reflexivity| |exact Hcm]]; [|lia].
    by rewrite take_take, Nat.min_id.
  - by apply update_inv, rewrites_update, (accept_rewrites a v prev pt es lc sn).
  - by apply update_inv, rewrites_update, (truncate_rewrites a v prev pt es lc i e y).
  - by apply update_inv, rewrites_update, install_rewrites.
  - by apply update_inv, keeps_update, (rebook_keeps a v m).
  - by apply update_inv, keeps_update, commit_keeps.
  - by apply update_inv, keeps_update, silent_keeps.
  - by apply update_inv, keeps_update, silent_keeps.
Qed.

Lemma pinv_new : pinv PState_new.
Proof.
  split; simpl; try (intros *; by rewrite ?elem_of_nil, ?lookup_empty).
  intros v. split; simpl; [by intros ??|done|done|done| |by left].
  intros t k _. left. unfold hlog. simpl. rewrite lookup_empty. simpl. by rewrite take_nil.
Qed.

Lemma preach_inv a : preach a → pinv a.
Proof. induction 1; [apply pinv_new|by eapply pstep_inv]. Qed.

Lemma grows_refl a : grows a a.
Proof. split; [|done..]. intros t c l Hl. exists []. by rewrite app_nil_r. Qed.

Lemma grows_trans a1 a2 a3 : grows a1 a2 → grows a2 a3 → grows a1 a3.
Proof.
  intros [Hh ? ? ?] [Hh' ? ? ?]. split; [|set_solver|set_solver|by etrans].
  intros t c l Hl. destruct (Hh _ _ _ Hl) as (new & Hl2 & Hn). destruct (Hh' _ _ _ Hl2) as (new' & Hl3 & Hn').
  exists (new ++ new'). rewrite app_assoc. split; [done|by apply Forall_app].
Qed.

(** History is never rewritten. *)
Lemma pstep_grows v a a' : pinv a → pstep v a a' → grows a a'.
Proof.
  intros Hi Hs. destruct Hs as [| | | |Q e x Hr HQ Hb He _|m e x Hr He _| | | | | | | | |]; try apply pput_grows.
  - pose proof (win_fresh a v Q Hi Hr HQ Hb) as Hnone. split; simpl; [|set_solver|set_solver|by apply prefix_app_r].
    intros t c l Hl. exists []. rewrite app_nil_r, lookup_insert_ne; [done|]. intros <-. unfold x in Hl. congruence.
  - destruct (si_leader _ _ _ (pi_srv _ Hi v) _ Hr) as [Hh _].
    split; simpl; [|set_solver|set_solver|by apply prefix_app_r]. intros t c l Hl.
    destruct (decide (t = p_term x)) as [->|Hne].
    + fold x in Hh. simplify_eq. exists [e]. rewrite lookup_insert_eq. split; [done|by constructor].
    + exists []. by rewrite app_nil_r, lookup_insert_ne.
Qed.

(** ** What the protocol guarantees *)

(** Log matching: two logs with the same term at a position agree up to it. *)
Lemma log_matching a v v' i :
  pinv a → i ≤ length (p_log (psrv a v)) → i ≤ length (p_log (psrv a v')) →
  term_of (p_log (psrv a v)) i = term_of (p_log (psrv a v')) i →
  take i (p_log (psrv a v)) = take i (p_log (psrv a v')).
Proof. intros Hi. apply (wf_log_agree a); apply Hi. Qed.

(** Committed prefixes agree. *)
Lemma commit_agreement a v v' :
  pinv a →
  let k := p_commit (psrv a v) `min` p_commit (psrv a v') in
  take k (p_log (psrv a v)) = take k (p_log (psrv a v')).
Proof. intros Hi. eapply settled_agree; [done|apply (pi_srv _ Hi v)|apply (pi_srv _ Hi v')]. Qed.

(** What a server knew to be committed then agrees with what any server knows to
    be committed later. *)
Lemma commit_agreement_later a a' v v' :
  pinv a → pinv a' → grows a a' →
  let k := p_commit (psrv a v) `min` p_commit (psrv a' v') in
  take k (p_log (psrv a v)) = take k (p_log (psrv a' v')).
Proof.
  intros Hi Hi' Hg. eapply settled_agree; [exact Hi'| |apply (pi_srv _ Hi' v')].
  eapply settled_grows; [done|]. apply (pi_srv _ Hi v).
Qed.

(** A term has one leader, then and later. *)
Lemma one_leader a a' v v' m m' :
  pinv a → pinv a' → grows a a' → p_role (psrv a v) = PLeader m → p_role (psrv a' v') = PLeader m' →
  p_term (psrv a v) = p_term (psrv a' v') → v = v'.
Proof.
  intros Hi Hi' Hg Hl Hl' Ht. destruct (si_leader _ _ _ (pi_srv _ Hi v) _ Hl) as [Hh _].
  destruct (si_leader _ _ _ (pi_srv _ Hi' v') _ Hl') as [Hh' _].
  destruct (gr_hist _ _ Hg _ _ _ Hh) as (new & Hh2 & _). rewrite Ht in Hh2. congruence.
Qed.

(** A leader has what any server knew to be committed, in a term up to its own. *)
Lemma leader_has_committed_later a a' v c m :
  pinv a → pinv a' → grows a a' → p_role (psrv a' v) = PLeader m →
  (p_term (psrv a c) ≤ p_term (psrv a' v))%N →
  take (p_commit (psrv a c)) (p_log (psrv a' v)) = take (p_commit (psrv a c)) (p_log (psrv a c)).
Proof.
  intros Hi Hi' Hg Hr Ht. destruct (si_leader _ _ _ (pi_srv _ Hi' v) m Hr) as [Hh _].
  assert (hlog a' (p_term (psrv a' v)) = p_log (psrv a' v)) as <- by (unfold hlog; by rewrite Hh).
  symmetry. apply settled_hist; [done| |by eexists].
  eapply settled_mono; [exact Ht|apply le_n|]. eapply settled_grows; [done|]. apply (pi_srv _ Hi c).
Qed.

End agreement.
