(* ===== verification/RaftRng.v ===== *)
(** * brokkr-raft: the seeded generator behind election timeouts

    Models [crates/brokkr-raft/src/rng.rs]: SplitMix64 on [u64] with its
    wrapping arithmetic written out, the modulo reduction, and the randomized
    election timeout. *)

From stdpp Require Import prelude.
From Stdlib Require Import Lia.
From S2P Require Import Prelude Machine.

Local Open Scope N_scope.

Record Rng : Type := mkRng { rng_state : u64 }.

Definition seed_from_u64 (seed : u64) : Rng := mkRng seed.

Definition wrapping_mul (a : N) (b : N) : N := (a * b) mod (u64_max + 1).

Definition next_u64 (r : Rng) : u64 * Rng :=
  let state := wrapping_add (rng_state r) (u64_sat 0x9e3779b97f4a7b15) in
  let z := u64_val state in
  let z := wrapping_mul (N.lxor z (N.shiftr z 30)) 0xbf58476d1ce4e5b9 in
  let z := wrapping_mul (N.lxor z (N.shiftr z 27)) 0x94d049bb133111eb in
  (u64_wrap (N.lxor z (N.shiftr z 31)), mkRng state).

Definition gen_range_u64 (r : Rng) (n : u64) : u64 * Rng :=
  if u64_val n =? 0 then (u64_0, r)
  else let '(x, r') := next_u64 r in (u64_wrap (x mod n), r').

Definition election_timeout (r : Rng) (min max : Duration) : Duration * Rng :=
  let min_ms := u64_wrap (as_millis min) in
  let max_ms := u64_wrap (as_millis max) in
  if u64_val max_ms <=? u64_val min_ms then (min, r)
  else
    let span := u64_wrap (max_ms - min_ms) in
    let '(jitter, r') := gen_range_u64 r (saturating_add span u64_1) in
    (from_millis (saturating_add min_ms jitter), r').

(** The known-answer vectors of the source's tests. *)
Example splitmix64_seed_0 :
  u64_val (next_u64 (seed_from_u64 u64_0)).1 = 0xc375cf7abd03aee6.
Proof. vm_compute. reflexivity. Qed.

Example splitmix64_seed_42 :
  u64_val (next_u64 (next_u64 (seed_from_u64 (u64_sat 42))).2).1 = 0xf87cf367d2f9dfd7.
Proof. vm_compute. reflexivity. Qed.

Lemma gen_range_lt r n : 0 < u64_val n → u64_val (gen_range_u64 r n).1 < u64_val n.
Proof.
  intros Hn. unfold gen_range_u64. destruct (N.eqb_spec n 0); [lia|].
  destruct (next_u64 r) as [x r']; simpl. rewrite u64_wrap_val.
  pose proof (N.mod_lt x n ltac:(lia)). pose proof (u64_le_max n).
  rewrite N.mod_small; lia.
Qed.

(** Durations whose millisecond count fits a [u64], as every configured one. *)
Definition fits_ms (d : Duration) : Prop := as_millis d ≤ u64_max.

(** A randomized election timeout lies between the configured bounds, both
    taken to whole milliseconds, on every draw and for every generator state;
    with bounds that are whole milliseconds it never leaves [[min, max]], and an
    empty range yields [min] itself without touching the generator. *)
Theorem election_timeout_range r min max :
  fits_ms min → fits_ms max →
  (as_millis max ≤ as_millis min → election_timeout r min max = (min, r)) ∧
  (as_millis min < as_millis max →
     from_millis (as_millis min) ≤ (election_timeout r min max).1
       ≤ from_millis (as_millis max)) ∧
  (min mod 1000000 = 0 → min ≤ max → min ≤ (election_timeout r min max).1 ≤ max).
Proof.
  unfold fits_ms. intros Hmin Hmax.
  assert (∀ d, as_millis d ≤ u64_max → u64_val (u64_wrap (as_millis d)) = as_millis d) as Hw.
  { intros d Hd. rewrite u64_wrap_val. apply N.mod_small. lia. }
  assert (as_millis max ≤ as_millis min → election_timeout r min max = (min, r)) as Hdeg.
  { intros Hle. unfold election_timeout. rewrite !Hw by done.
    by rewrite (proj2 (N.leb_le _ _) Hle). }
  assert (as_millis min < as_millis max →
    from_millis (as_millis min) ≤ (election_timeout r min max).1
      ≤ from_millis (as_millis max)) as Hin.
  { intros Hlt. unfold election_timeout. rewrite !Hw by done.
    rewrite (proj2 (N.leb_gt _ _) Hlt).
    set (span := saturating_add _ u64_1).
    assert (u64_val span ≤ as_millis max - as_millis min + 1 ∧ 0 < u64_val span) as [Hs1 Hs2].
    { unfold span. rewrite saturating_add_val, u64_wrap_val, N.mod_small by lia.
      simpl. lia. }
    pose proof (gen_range_lt r span Hs2) as Hj.
    destruct (gen_range_u64 r span) as [jitter r']; simpl in *.
    rewrite saturating_add_val, Hw by done. unfold from_millis. lia. }
  split_and!; [done|done|]. intros Hmod Hle.
  assert (from_millis (as_millis min) = min) as Hms.
  { unfold from_millis, as_millis. rewrite N.mul_comm.
    pose proof (N.div_mod min 1000000 ltac:(done)). lia. }
  assert (from_millis (as_millis max) ≤ max) as Hmx.
  { unfold from_millis, as_millis. pose proof (N.Div0.mul_div_le max 1000000). lia. }
  destruct (decide (as_millis max ≤ as_millis min)) as [Hd|Hd].
  - rewrite Hdeg by done. simpl. lia.
  - specialize (Hin ltac:(lia)). lia.
Qed.

Lemma election_timeout_range_witness :
  from_millis 150 ≤ (election_timeout (seed_from_u64 u64_1) (from_millis 150) (from_millis 300)).1
    ≤ from_millis 300.
Proof.
  apply (election_timeout_range (seed_from_u64 u64_1) (from_millis 150) (from_millis 300));
    vm_compute; done.
Defined.
