(* ===== verification/RaftWire.v ===== *)
(** * brokkr-raft: RPC messages and their wire forms

    Models [crates/brokkr-raft/src/transport.rs]: the six request and reply
    types, their conversions to and from the generated protobuf messages, the
    in-memory transport's routing, and the gRPC path
    ([TonicTransport] to [RaftServiceAdapter] and back). *)

From stdpp Require Import prelude gmap strings.
From S2P Require Import Prelude Machine Bytes RaftTypes.

(** ** Internal request and reply types *)

Record RequestVote : Type := mkRequestVote {
  rv_term : Term;
  rv_candidate_id : NodeId;
  rv_last_log_index : LogIndex;
  rv_last_log_term : Term
}.

Record RequestVoteResponse : Type := mkRequestVoteResponse {
  rvr_term : Term;
  rvr_vote_granted : bool
}.

Record AppendEntries : Type := mkAppendEntries {
  ae_term : Term;
  ae_leader_id : NodeId;
  ae_prev_log_index : LogIndex;
  ae_prev_log_term : Term;
  ae_entries : list LogEntry;
  ae_leader_commit : LogIndex;
  ae_seq : u64
}.

Record AppendEntriesResponse : Type := mkAppendEntriesResponse {
  aer_term : Term;
  aer_success : bool;
  aer_conflict_term : Term;
  aer_conflict_index : LogIndex;
  aer_match_index : LogIndex;
  aer_seq : u64
}.

Record InstallSnapshot : Type := mkInstallSnapshot {
  is_term : Term;
  is_leader_id : NodeId;
  is_last_included_index : LogIndex;
  is_last_included_term : Term;
  is_offset : u64;
  is_data : bytes;
  is_done : bool;
  is_config : ClusterConfig
}.

Record InstallSnapshotResponse : Type := mkInstallSnapshotResponse {
  isr_term : Term
}.

#[export] Instance RequestVote_eq_dec : EqDecision RequestVote.
Proof. solve_decision. Defined.
#[export] Instance RequestVoteResponse_eq_dec : EqDecision RequestVoteResponse.
Proof. solve_decision. Defined.
#[export] Instance AppendEntries_eq_dec : EqDecision AppendEntries.
Proof. solve_decision. Defined.
#[export] Instance AppendEntriesResponse_eq_dec : EqDecision AppendEntriesResponse.
Proof. solve_decision. Defined.
#[export] Instance InstallSnapshot_eq_dec : EqDecision InstallSnapshot.
Proof. solve_decision. Defined.
#[export] Instance InstallSnapshotResponse_eq_dec : EqDecision InstallSnapshotResponse.
Proof. solve_decision. Defined.

(** ** Wire messages *)

Record pb_RequestVoteRequest : Type := mk_pb_RequestVoteRequest {
  pbrv_term : u64; pbrv_candidate_id : string;
  pbrv_last_log_index : u64; pbrv_last_log_term : u64
}.

Record pb_RequestVoteReply : Type := mk_pb_RequestVoteReply {
  pbrvr_term : u64; pbrvr_vote_granted : bool
}.

Record pb_AppendEntriesRequest : Type := mk_pb_AppendEntriesRequest {
  pbae_term : u64; pbae_leader_id : string;
  pbae_prev_log_index : u64; pbae_prev_log_term : u64;
  pbae_entries : list pb_LogEntry; pbae_leader_commit : u64; pbae_seq : u64
}.

Record pb_AppendEntriesReply : Type := mk_pb_AppendEntriesReply {
  pbaer_term : u64; pbaer_success : bool; pbaer_conflict_term : u64;
  pbaer_conflict_index : u64; pbaer_match_index : u64; pbaer_seq : u64
}.

Record pb_InstallSnapshotRequest : Type := mk_pb_InstallSnapshotRequest {
  pbis_term : u64; pbis_leader_id : string;
  pbis_last_included_index : u64; pbis_last_included_term : u64;
  pbis_offset : u64; pbis_data : bytes; pbis_done : bool;
  pbis_config : option pb_ClusterConfig
}.

Record pb_InstallSnapshotReply : Type := mk_pb_InstallSnapshotReply { pbisr_term : u64 }.

(** ** Conversions *)

Definition RequestVote_to_pb (r : RequestVote) : pb_RequestVoteRequest :=
  mk_pb_RequestVoteRequest (rv_term r) (as_str (rv_candidate_id r))
    (rv_last_log_index r) (rv_last_log_term r).

Definition RequestVote_try_from (p : pb_RequestVoteRequest) : outcome RaftError RequestVote :=
  match NodeId_new (pbrv_candidate_id p) with
  | Ok id => Ok (mkRequestVote (pbrv_term p) id (pbrv_last_log_index p) (pbrv_last_log_term p))
  | Err e => Err e
  | Halt => Halt
  end.

Definition RequestVoteResponse_to_pb (r : RequestVoteResponse) : pb_RequestVoteReply :=
  mk_pb_RequestVoteReply (rvr_term r) (rvr_vote_granted r).
Definition RequestVoteResponse_of_pb (p : pb_RequestVoteReply) : RequestVoteResponse :=
  mkRequestVoteResponse (pbrvr_term p) (pbrvr_vote_granted p).

Definition AppendEntries_to_pb (r : AppendEntries) : pb_AppendEntriesRequest :=
  mk_pb_AppendEntriesRequest (ae_term r) (as_str (ae_leader_id r))
    (ae_prev_log_index r) (ae_prev_log_term r)
    (LogEntry_to_pb <$> ae_entries r) (ae_leader_commit r) (ae_seq r).

(** [.map(LogEntry::try_from).collect::<Result<Vec<_>, _>>()]. *)
Fixpoint LogEntries_try_from (ps : list pb_LogEntry) : outcome RaftError (list LogEntry) :=
  match ps with
  | [] => Ok []
  | p :: ps =>
      match LogEntry_try_from p with
      | Ok e =>
          match LogEntries_try_from ps with
          | Ok es => Ok (e :: es)
          | Err e => Err e
          | Halt => Halt
          end
      | Err e => Err e
      | Halt => Halt
      end
  end.

Definition AppendEntries_try_from (p : pb_AppendEntriesRequest) : outcome RaftError AppendEntries :=
  match NodeId_new (pbae_leader_id p) with
  | Ok id =>
      match LogEntries_try_from (pbae_entries p) with
      | Ok es => Ok (mkAppendEntries (pbae_term p) id (pbae_prev_log_index p)
                       (pbae_prev_log_term p) es (pbae_leader_commit p) (pbae_seq p))
      | Err e => Err e
      | Halt => Halt
      end
  | Err e => Err e
  | Halt => Halt
  end.

Definition AppendEntriesResponse_to_pb (r : AppendEntriesResponse) : pb_AppendEntriesReply :=
  mk_pb_AppendEntriesReply (aer_term r) (aer_success r) (aer_conflict_term r)
    (aer_conflict_index r) (aer_match_index r) (aer_seq r).
Definition AppendEntriesResponse_of_pb (p : pb_AppendEntriesReply) : AppendEntriesResponse :=
  mkAppendEntriesResponse (pbaer_term p) (pbaer_success p) (pbaer_conflict_term p)
    (pbaer_conflict_index p) (pbaer_match_index p) (pbaer_seq p).

Definition InstallSnapshot_to_pb (r : InstallSnapshot) : pb_InstallSnapshotRequest :=
  mk_pb_InstallSnapshotRequest (is_term r) (as_str (is_leader_id r))
    (is_last_included_index r) (is_last_included_term r) (is_offset r) (is_data r)
    (is_done r) (Some (ClusterConfig_to_pb (is_config r))).

Definition InstallSnapshot_try_from (p : pb_InstallSnapshotRequest) : outcome RaftError InstallSnapshot :=
  let build id c := Ok (mkInstallSnapshot (pbis_term p) id (pbis_last_included_index p)
    (pbis_last_included_term p) (pbis_offset p) (pbis_data p) (pbis_done p) c) in
  match NodeId_new (pbis_leader_id p) with
  | Ok id =>
      match pbis_config p with
      | None => build id ClusterConfig_default
      | Some pc =>
          match ClusterConfig_try_from pc with
          | Ok c => build id c
          | Err e => Err e
          | Halt => Halt
          end
      end
  | Err e => Err e
  | Halt => Halt
  end.

Definition InstallSnapshotResponse_to_pb (r : InstallSnapshotResponse) : pb_InstallSnapshotReply :=
  mk_pb_InstallSnapshotReply (isr_term r).
Definition InstallSnapshotResponse_of_pb (p : pb_InstallSnapshotReply) : InstallSnapshotResponse :=
  mkInstallSnapshotResponse (pbisr_term p).

(** ** Handlers and transports *)

(** The [RaftRpc] trait: how a node answers its peers. *)
Record RaftRpc : Type := mkRaftRpc {
  rpc_request_vote : RequestVote → outcome RaftError RequestVoteResponse;
  rpc_append_entries : AppendEntries → outcome RaftError AppendEntriesResponse;
  rpc_install_snapshot : InstallSnapshot → outcome RaftError InstallSnapshotResponse
}.

Definition InMemoryTransport : Type := gmap NodeId RaftRpc.

Definition InMemoryTransport_insert_peer (t : InMemoryTransport) (id : NodeId) (h : RaftRpc)
    : InMemoryTransport := <[id := h]> (t : gmap NodeId RaftRpc).

Definition InMemoryTransport_peer (t : InMemoryTransport) (to : NodeId) : outcome RaftError RaftRpc :=
  match (t : gmap NodeId RaftRpc) !! to with
  | Some h => Ok h
  | None => Err (UnknownPeer (as_str to))
  end.

Definition outcome_bind {E A B} (r : outcome E A) (k : A → outcome E B) : outcome E B :=
  match r with Ok a => k a | Err e => Err e | Halt => Halt end.

Definition InMemoryTransport_request_vote (t : InMemoryTransport) (to : NodeId) (req : RequestVote) :=
  outcome_bind (InMemoryTransport_peer t to) (λ h, rpc_request_vote h req).
Definition InMemoryTransport_append_entries (t : InMemoryTransport) (to : NodeId) (req : AppendEntries) :=
  outcome_bind (InMemoryTransport_peer t to) (λ h, rpc_append_entries h req).
Definition InMemoryTransport_install_snapshot (t : InMemoryTransport) (to : NodeId) (req : InstallSnapshot) :=
  outcome_bind (InMemoryTransport_peer t to) (λ h, rpc_install_snapshot h req).

(** gRPC statuses the adapter produces. *)
Inductive Status : Type :=
| InvalidArgument (msg : string)
| Internal (msg : string).

Section grpc.

(** [to_string] of an error and of a status: text generated by [thiserror] and
    [tonic]. *)
Context (error_text : RaftError → string) (status_text : Status → string).

Definition adapt {P Q A B} (try_from : P → outcome RaftError A) (handle : A → outcome RaftError B)
    (into : B → Q) (p : P) : outcome Status Q :=
  match try_from p with
  | Ok req =>
      match handle req with
      | Ok resp => Ok (into resp)
      | Err e => Err (Internal (error_text e))
      | Halt => Halt
      end
  | Err e => Err (InvalidArgument (error_text e))
  | Halt => Halt
  end.

Record RaftServiceServer : Type := mkRaftServiceServer {
  srv_request_vote : pb_RequestVoteRequest → outcome Status pb_RequestVoteReply;
  srv_append_entries : pb_AppendEntriesRequest → outcome Status pb_AppendEntriesReply;
  srv_install_snapshot : pb_InstallSnapshotRequest → outcome Status pb_InstallSnapshotReply
}.

(** [RaftServiceAdapter]: a handler served over gRPC. *)
Definition RaftServiceAdapter (h : RaftRpc) : RaftServiceServer :=
  mkRaftServiceServer
    (adapt RequestVote_try_from (rpc_request_vote h) RequestVoteResponse_to_pb)
    (adapt AppendEntries_try_from (rpc_append_entries h) AppendEntriesResponse_to_pb)
    (adapt InstallSnapshot_try_from (rpc_install_snapshot h) InstallSnapshotResponse_to_pb).

(** [TonicTransport]: per peer, the channel's far end. *)
Definition TonicTransport_client (peers : gmap NodeId RaftServiceServer) (to : NodeId)
    : outcome RaftError RaftServiceServer :=
  match peers !! to with
  | Some c => Ok c
  | None => Err (UnknownPeer (as_str to))
  end.

Definition from_status {A} (r : outcome Status A) : outcome RaftError A :=
  match r with Ok a => Ok a | Err s => Err (Transport (status_text s)) | Halt => Halt end.

Definition TonicTransport_request_vote peers to (req : RequestVote) : outcome RaftError RequestVoteResponse :=
  outcome_bind (TonicTransport_client peers to) (λ c,
  outcome_bind (from_status (srv_request_vote c (RequestVote_to_pb req))) (λ reply,
  Ok (RequestVoteResponse_of_pb reply))).
Definition TonicTransport_append_entries peers to (req : AppendEntries) : outcome RaftError AppendEntriesResponse :=
  outcome_bind (TonicTransport_client peers to) (λ c,
  outcome_bind (from_status (srv_append_entries c (AppendEntries_to_pb req))) (λ reply,
  Ok (AppendEntriesResponse_of_pb reply))).
Definition TonicTransport_install_snapshot peers to (req : InstallSnapshot) : outcome RaftError InstallSnapshotResponse :=
  outcome_bind (TonicTransport_client peers to) (λ c,
  outcome_bind (from_status (srv_install_snapshot c (InstallSnapshot_to_pb req))) (λ reply,
  Ok (InstallSnapshotResponse_of_pb reply))).

End grpc.

(** ** Round trips and transparency of the gRPC path *)

Lemma LogEntries_roundtrip es :
  Forall entry_canonical es → LogEntries_try_from (LogEntry_to_pb <$> es) = Ok es.
Proof.
  induction 1 as [|e es He _ IH]; simpl; [done|].
  rewrite (proj1 log_entry_roundtrip e He). fold (LogEntry_to_pb <$> es). by rewrite IH.
Qed.

Definition ae_canonical (r : AppendEntries) : Prop := Forall entry_canonical (ae_entries r).
Definition is_canonical (r : InstallSnapshot) : Prop := config_canonical (is_config r).

Lemma RequestVote_roundtrip r : RequestVote_try_from (RequestVote_to_pb r) = Ok r.
Proof. unfold RequestVote_try_from; simpl. rewrite NodeId_new_as_str. by destruct r. Qed.

Lemma AppendEntries_roundtrip r :
  ae_canonical r → AppendEntries_try_from (AppendEntries_to_pb r) = Ok r.
Proof.
  intros Hr. unfold AppendEntries_try_from; simpl.
  rewrite NodeId_new_as_str, LogEntries_roundtrip by done. by destruct r.
Qed.

Lemma InstallSnapshot_roundtrip r :
  is_canonical r → InstallSnapshot_try_from (InstallSnapshot_to_pb r) = Ok r.
Proof.
  intros Hr. unfold InstallSnapshot_try_from; simpl.
  rewrite NodeId_new_as_str, ClusterConfig_roundtrip by done. by destruct r.
Qed.

Lemma reply_roundtrips :
  (∀ r, RequestVoteResponse_of_pb (RequestVoteResponse_to_pb r) = r) ∧
  (∀ r, AppendEntriesResponse_of_pb (AppendEntriesResponse_to_pb r) = r) ∧
  (∀ r, InstallSnapshotResponse_of_pb (InstallSnapshotResponse_to_pb r) = r).
Proof. split_and!; by intros []. Qed.

(** Two transports' answers agree: the same reply, or an error on both sides. *)
Definition same_reply {A} (r r' : outcome RaftError A) : Prop :=
  match r, r' with
  | Ok a, Ok a' => a = a'
  | Err _, Err _ | Halt, Halt => True
  | _, _ => False
  end.

(** A request that survives the wire reaches the handler as it was sent, and
    the reply comes back as it was given. *)
Lemma grpc_call_transparent {P Q A B} et st (to_pb : A → P) (try_from : P → outcome RaftError A)
    (into : B → Q) (of_pb : Q → B) (handle : A → outcome RaftError B) req :
  try_from (to_pb req) = Ok req → (∀ b, of_pb (into b) = b) →
  same_reply
    (outcome_bind (from_status st (adapt et try_from handle into (to_pb req)))
       (λ q, Ok (of_pb q)))
    (handle req).
Proof.
  intros Hreq Hrep. unfold adapt, same_reply. rewrite Hreq.
  by destruct (handle req); simpl; rewrite ?Hrep.
Qed.

(** The gRPC path is transparent: for every set of peers served through
    [RaftServiceAdapter], each call of [TonicTransport] yields the reply that
    [InMemoryTransport] gets from the same handlers, and fails where it fails
    (an unknown peer, a handler error).  Requests carry what a node can hold:
    canonical entries and configurations. *)
Theorem tonic_transport_refines_in_memory et st (peers : InMemoryTransport) to :
  let remote := RaftServiceAdapter et <$> (peers : gmap NodeId RaftRpc) in
  (∀ req, same_reply (TonicTransport_request_vote st remote to req)
            (InMemoryTransport_request_vote peers to req)) ∧
  (∀ req, ae_canonical req →
     same_reply (TonicTransport_append_entries st remote to req)
       (InMemoryTransport_append_entries peers to req)) ∧
  (∀ req, is_canonical req →
     same_reply (TonicTransport_install_snapshot st remote to req)
       (InMemoryTransport_install_snapshot peers to req)).
Proof.
  intros remote. destruct reply_roundtrips as (Hrv & Hae & His).
  unfold TonicTransport_request_vote, TonicTransport_append_entries,
    TonicTransport_install_snapshot, InMemoryTransport_request_vote,
    InMemoryTransport_append_entries, InMemoryTransport_install_snapshot,
    TonicTransport_client, InMemoryTransport_peer.
  unfold remote. rewrite lookup_fmap.
  destruct ((peers : gmap NodeId RaftRpc) !! to) as [h|]; simpl; [|done].
  split_and!; intros; apply grpc_call_transparent;
    auto using RequestVote_roundtrip, AppendEntries_roundtrip, InstallSnapshot_roundtrip.
Qed.
