(* ===== verification/RaftStore.v ===== *)
(** * brokkr-raft: what the node relies on of its durable store

    The interface between [node.rs] and [storage.rs].  [RaftStore] lists the
    operations of [RaftLog] the node calls; [RaftStoreSpec] states their
    contract against an abstract view of what is on disk.  The node's theorems
    are proved for every store that meets the contract; [RaftStorage.v] proves
    that the redb-backed [RaftLog] does. *)

From stdpp Require Import prelude gmap strings sorting.
From Stdlib Require Import Lia.
From S2P Require Import Prelude Machine Bytes RaftTypes.

Local Open Scope N_scope.

(** What is durable: the log entries by index, the snapshot, the hard state. *)
Record LogView : Type := mkLogView {
  v_entries : gmap N LogEntry;
  v_snapshot : option (SnapshotMeta * bytes);
  v_hard : HardState
}.

Definition view_empty : LogView := mkLogView ∅ None HardState_new.

Definition view_last (v : LogView) : LogIndex * Term :=
  match table_last (v_entries v) with
  | Some (k, e) => (u64_sat k, le_term e)
  | None =>
      match v_snapshot v with
      | Some (m, _) => (last_included_index m, last_included_term m)
      | None => (LogIndex_ZERO, Term_ZERO)
      end
  end.

Definition view_first (v : LogView) : LogIndex :=
  match table_first (v_entries v) with
  | Some (k, _) => u64_sat k
  | None => LogIndex_ZERO
  end.

Definition view_get (i : LogIndex) (v : LogView) : option LogEntry := v_entries v !! u64_val i.

Definition view_entries_from (i : LogIndex) (v : LogView) : list LogEntry :=
  (table_range i (v_entries v)).*2.

Definition insert_entry (m : gmap N LogEntry) (e : LogEntry) : gmap N LogEntry :=
  <[u64_val (le_index e) := e]> m.

Definition view_append (es : list LogEntry) (v : LogView) : LogView :=
  mkLogView (foldl insert_entry (v_entries v) es) (v_snapshot v) (v_hard v).

Definition view_truncate (from : LogIndex) (v : LogView) : LogView :=
  mkLogView (filter (λ p, p.1 < u64_val from) (v_entries v)) (v_snapshot v) (v_hard v).

Definition view_compact (m : SnapshotMeta) (d : bytes) (v : LogView) : LogView :=
  mkLogView (filter (λ p, u64_val (last_included_index m) < p.1) (v_entries v))
    (Some (m, d)) (v_hard v).

Definition view_install (m : SnapshotMeta) (d : bytes) (v : LogView) : LogView :=
  mkLogView ∅ (Some (m, d)) (v_hard v).

Definition view_save_hard (h : HardState) (v : LogView) : LogView :=
  mkLogView (v_entries v) (v_snapshot v) h.

Definition storage_fault (e : RaftError) : Prop := ∃ msg, e = Storage msg.

(** The operations of [RaftLog]. *)
Class RaftStore (L : Type) : Type := {
  st_get : LogIndex → eff L RaftError (option LogEntry);
  st_entries_from : LogIndex → eff L RaftError (list LogEntry);
  st_last_index_and_term : eff L RaftError (LogIndex * Term);
  st_first_index : eff L RaftError LogIndex;
  st_append_all : list LogEntry → eff L RaftError ();
  st_truncate_from : LogIndex → eff L RaftError ();
  st_compact_to : SnapshotMeta → bytes → eff L RaftError ();
  st_install_snapshot_replacing_log : SnapshotMeta → bytes → eff L RaftError ();
  st_snapshot_meta : eff L RaftError (option SnapshotMeta);
  st_snapshot : eff L RaftError (option (SnapshotMeta * bytes));
  st_save_hard_state : HardState → eff L RaftError ();
  st_load_hard_state : eff L RaftError HardState
}.

(** The two derived operations of [RaftLog]. *)
Definition st_last_index {L} `{RaftStore L} : eff L RaftError LogIndex :=
  p ← st_last_index_and_term; mret p.1.

Definition st_append {L} `{RaftStore L} (e : LogEntry) : eff L RaftError () := st_append_all [e].

(** A read returns a function of the view; a write transforms it; a failed
    transaction of either kind changes nothing that is durable. *)
Definition reads {L A} (ok : L → Prop) (view : L → LogView)
    (m : eff L RaftError A) (f : LogView → A) : Prop :=
  ∀ l, ok l →
    wp m (λ r l', ok l' ∧ view l' = view l ∧ r = f (view l))
         (λ e l', ok l' ∧ view l' = view l ∧ storage_fault e) l.

Definition writes {L} (ok : L → Prop) (view : L → LogView)
    (m : eff L RaftError ()) (g : LogView → LogView) : Prop :=
  ∀ l, ok l →
    wp m (λ _ l', ok l' ∧ view l' = g (view l))
         (λ e l', ok l' ∧ view l' = view l ∧ storage_fault e) l.

Class RaftStoreSpec (L : Type) `{RaftStore L} : Type := {
  store_ok : L → Prop;
  store_view : L → LogView;
  get_reads i : reads store_ok store_view (st_get i) (view_get i);
  entries_from_reads i : reads store_ok store_view (st_entries_from i) (view_entries_from i);
  last_reads : reads store_ok store_view st_last_index_and_term view_last;
  first_reads : reads store_ok store_view st_first_index view_first;
  snapshot_meta_reads :
    reads store_ok store_view st_snapshot_meta (λ v, fst <$> v_snapshot v);
  snapshot_reads : reads store_ok store_view st_snapshot v_snapshot;
  load_hard_reads : reads store_ok store_view st_load_hard_state v_hard;
  append_writes es : Forall entry_canonical es →
    writes store_ok store_view (st_append_all es) (view_append es);
  truncate_writes i : writes store_ok store_view (st_truncate_from i) (view_truncate i);
  compact_writes m d : config_canonical (snap_config m) →
    writes store_ok store_view (st_compact_to m d) (view_compact m d);
  install_writes m d : config_canonical (snap_config m) →
    writes store_ok store_view (st_install_snapshot_replacing_log m d) (view_install m d);
  save_hard_writes h : writes store_ok store_view (st_save_hard_state h) (view_save_hard h)
}.

Lemma last_index_reads {L} `{RaftStoreSpec L} :
  reads store_ok store_view st_last_index (λ v, (view_last v).1).
Proof.
  intros l Hl. unfold st_last_index. wp_step.
  eapply wp_mono; [by apply last_reads| |done]. intros r l' (? & ? & ->). wp_step. done.
Qed.

(** ** The shape of a healthy log

    Everything up to the snapshot is gone and everything from there to the last
    index is present, under its own index. *)
Definition view_snap_index (v : LogView) : N :=
  match v_snapshot v with Some (m, _) => last_included_index m | None => 0 end.

Definition view_last_index (v : LogView) : N := (view_last v).1.

(** Every entry sits under its own index. *)
Definition self_indexed (m : gmap N LogEntry) : Prop :=
  ∀ k e, m !! k = Some e → u64_val (le_index e) = k.

Definition contiguous (v : LogView) : Prop :=
  view_snap_index v ≤ view_last_index v ∧
  (∀ i, is_Some (v_entries v !! i) ↔ view_snap_index v < i ≤ view_last_index v) ∧
  self_indexed (v_entries v).

Lemma view_last_index_Some v i e :
  v_entries v !! i = Some e → (∀ j, is_Some (v_entries v !! j) → j ≤ i) → i ≤ u64_max →
  view_last_index v = i ∧ (view_last v).2 = le_term e.
Proof.
  intros Hi Hmax Hle. unfold view_last_index, view_last.
  rewrite (table_last_unique _ i e); [|done|naive_solver].
  simpl. rewrite u64_sat_val. split; [lia|done].
Qed.

Lemma view_last_index_None v : v_entries v = ∅ → view_last_index v = view_snap_index v.
Proof.
  intros He. unfold view_last_index, view_last, view_snap_index.
  rewrite (proj2 (table_last_None _) He). by destruct (v_snapshot v) as [[m d]|].
Qed.

(** The last index is determined by which indices are present. *)
Lemma contiguous_intro v hi :
  view_snap_index v ≤ hi ≤ u64_max →
  (∀ i, is_Some (v_entries v !! i) ↔ view_snap_index v < i ≤ hi) →
  self_indexed (v_entries v) →
  contiguous v ∧ view_last_index v = hi.
Proof.
  intros Hhi Hdom Hself. assert (view_last_index v = hi) as Hlast.
  { destruct (decide (view_snap_index v = hi)) as [Heq|Hne].
    - rewrite view_last_index_None; [done|]. apply map_eq. intros i. rewrite lookup_empty.
      apply eq_None_not_Some. rewrite Hdom. lia.
    - destruct (proj2 (Hdom hi)) as [e He]; [lia|].
      apply (view_last_index_Some v hi e); [done| |lia]. intros j Hj%Hdom. lia. }
  split; [|done]. unfold contiguous. rewrite Hlast. split_and!; [lia|done|done].
Qed.

(** Entries numbered consecutively from [i]. *)
Fixpoint numbered_from (i : N) (es : list LogEntry) : Prop :=
  match es with
  | [] => True
  | e :: es => u64_val (le_index e) = i ∧ numbered_from (i + 1) es
  end.

Definition entry_lt (e e' : LogEntry) : Prop := u64_val (le_index e) < u64_val (le_index e').

Lemma numbered_from_elem i es e :
  numbered_from i es → e ∈ es → i ≤ u64_val (le_index e) < i + N.of_nat (length es).
Proof.
  revert i. induction es as [|e' es IH]; intros i Hn He; [by apply elem_of_nil in He|].
  destruct Hn as [Hi Hn]. apply elem_of_cons in He as [->|He]; simpl length; [lia|].
  specialize (IH _ Hn He). lia.
Qed.

Lemma numbered_from_sorted i es : numbered_from i es → StronglySorted entry_lt es.
Proof.
  revert i. induction es as [|e es IH]; intros i Hn; [constructor|]. destruct Hn as [Hi Hn].
  constructor; [eauto|]. apply Forall_forall. intros e' He'.
  pose proof (numbered_from_elem _ _ _ Hn He'). unfold entry_lt. lia.
Qed.

Lemma foldl_insert_lookup es : ∀ m k e,
  StronglySorted entry_lt es →
  foldl insert_entry m es !! k = Some e ↔
    (e ∈ es ∧ u64_val (le_index e) = k) ∨
    (m !! k = Some e ∧ ∀ e', e' ∈ es → u64_val (le_index e') ≠ k).
Proof.
  induction es as [|e0 es IH]; intros m k e Hs; simpl; [set_solver|].
  apply StronglySorted_cons in Hs as [H0 Hs]. rewrite Forall_forall in H0. unfold entry_lt in H0.
  rewrite IH by done. unfold insert_entry. rewrite lookup_insert_Some. split.
  - intros [[? ?]|[[[? ?]|[? ?]] ?]]; [set_solver|left; subst; set_solver|right; set_solver].
  - intros [[[->|He]%elem_of_cons Hk]|[Hm Hne]].
    + right. split; [by left|]. intros e' He'. specialize (H0 e' He'). lia.
    + left. done.
    + right. split; [right; split; [apply Hne; set_solver|done]|]. set_solver.
Qed.

Lemma numbered_from_present i es k :
  numbered_from i es → i ≤ k < i + N.of_nat (length es) → ∃ e, e ∈ es ∧ u64_val (le_index e) = k.
Proof.
  revert i. induction es as [|e es IH]; intros i Hn Hk; simpl length in *; [lia|].
  destruct Hn as [Hi Hn]. destruct (decide (i = k)) as [->|].
  - exists e. split; [set_solver|done].
  - destruct (IH _ Hn) as (e' & ? & ?); [lia|]. exists e'. split; [set_solver|done].
Qed.

Lemma view_last_le_max v : view_last_index v ≤ u64_max.
Proof. apply u64_le_max. Qed.

Lemma contiguous_append v es :
  contiguous v → numbered_from (view_last_index v + 1) es →
  contiguous (view_append es v) ∧
  view_last_index (view_append es v) = view_last_index v + N.of_nat (length es).
Proof.
  intros (Hle & Hdom & Hself) Hn. pose proof (numbered_from_sorted _ _ Hn) as Hs.
  assert (∀ e, e ∈ es → u64_val (le_index e) ≤ u64_max) by (intros e _; apply u64_le_max).
  pose proof (view_last_le_max v) as Hmax.
  apply contiguous_intro; change (view_snap_index (view_append es v)) with (view_snap_index v).
  - split; [lia|]. destruct es as [|e0 es'] using rev_ind; [simpl; lia|].
    destruct (numbered_from_present _ _ (view_last_index v + N.of_nat (length (es' ++ [e0]))) Hn)
      as (e & He & Hi); [rewrite length_app; simpl; lia|]. specialize (H e He). lia.
  - intros i. simpl. unfold is_Some. setoid_rewrite foldl_insert_lookup; [|done]. split.
    + intros (e & [[He Hi]|[He _]]); [apply (numbered_from_elem _ _ _ Hn) in He; lia|].
      destruct (proj1 (Hdom i) ltac:(eauto)). lia.
    + intros [Hlo Hhi]. destruct (decide (i ≤ view_last_index v)).
      * destruct (proj2 (Hdom i)) as [e He]; [lia|]. exists e. right. split; [done|].
        intros e' He'. apply (numbered_from_elem _ _ _ Hn) in He'. lia.
      * destruct (numbered_from_present _ _ i Hn) as (e & ? & ?); [lia|]. eauto.
  - intros i e. simpl. rewrite foldl_insert_lookup by done. intros [[_ ?]|[He _]]; [done|]. by apply Hself.
Qed.

Lemma contiguous_truncate v from :
  contiguous v → view_snap_index v < u64_val from ≤ view_last_index v + 1 →
  contiguous (view_truncate from v) ∧ view_last_index (view_truncate from v) = from - 1.
Proof.
  intros (Hle & Hdom & Hself) Hfrom. pose proof (view_last_le_max v).
  apply contiguous_intro; change (view_snap_index (view_truncate from v)) with (view_snap_index v).
  - lia.
  - intros i. simpl. unfold is_Some in *. setoid_rewrite map_lookup_filter_Some. simpl. split.
    + intros (e & He & Hi). destruct (proj1 (Hdom i) ltac:(eauto)). lia.
    + intros Hi. destruct (proj2 (Hdom i)) as [e He]; [lia|]. exists e. split; [done|lia].
  - intros i e. simpl. rewrite map_lookup_filter_Some. intros [He _]. by apply Hself.
Qed.

Lemma contiguous_compact v m d :
  contiguous v → view_snap_index v ≤ last_included_index m ≤ view_last_index v →
  contiguous (view_compact m d v) ∧ view_last_index (view_compact m d v) = view_last_index v.
Proof.
  intros (Hle & Hdom & Hself) Hm. pose proof (view_last_le_max v).
  apply contiguous_intro;
    change (view_snap_index (view_compact m d v)) with (u64_val (last_included_index m)).
  - lia.
  - intros i. simpl. unfold is_Some in *. setoid_rewrite map_lookup_filter_Some. simpl. split.
    + intros (e & He & Hi). destruct (proj1 (Hdom i) ltac:(eauto)). lia.
    + intros Hi. destruct (proj2 (Hdom i)) as [e He]; [lia|]. exists e. split; [done|lia].
  - intros i e. simpl. rewrite map_lookup_filter_Some. intros [He _]. by apply Hself.
Qed.

Lemma contiguous_install v m d :
  contiguous (view_install m d v) ∧
  view_last_index (view_install m d v) = last_included_index m.
Proof.
  apply contiguous_intro;
    change (view_snap_index (view_install m d v)) with (u64_val (last_included_index m)).
  - pose proof (u64_le_max (last_included_index m)). lia.
  - intros i. simpl. rewrite lookup_empty. split; [by intros []|lia].
  - intros i e. simpl. by rewrite lookup_empty.
Qed.

(** A slice of a contiguous log is numbered without gaps. *)
Lemma numbered_of_sorted es : ∀ lo c,
  StronglySorted entry_lt es →
  (∀ k, (∃ e, e ∈ es ∧ u64_val (le_index e) = k) ↔ lo ≤ k < lo + N.of_nat c) →
  numbered_from lo es ∧ length es = c.
Proof.
  induction es as [|e es IH]; intros lo c Hs Hk.
  { destruct c; [done|]. destruct (proj2 (Hk lo)) as (e & He & _); [lia|]. by apply elem_of_nil in He. }
  apply StronglySorted_cons in Hs as [He Hs]. rewrite Forall_forall in He. unfold entry_lt in He.
  assert (u64_val (le_index e) = lo) as Hlo.
  { destruct (proj1 (Hk (le_index e))) as [Hge Hlt]; [set_solver|].
    destruct (proj2 (Hk lo)) as (e' & [->|He']%elem_of_cons & Hi); [lia|done|].
    specialize (He e' He'). lia. }
  destruct c as [|c]; [destruct (proj1 (Hk (le_index e))); [set_solver|lia]|].
  destruct (IH (lo + 1) c Hs) as [Hn Hlen]; [|simpl; auto].
  intros k. specialize (Hk k). split.
  - intros (e' & He' & <-). specialize (He e' He').
    destruct (proj1 Hk) as [? ?]; [set_solver|lia].
  - intros Hlt. destruct (proj2 Hk) as (e' & [->|He']%elem_of_cons & Hi); [lia|lia|eauto].
Qed.

Lemma view_entries_sorted v i :
  self_indexed (v_entries v) → StronglySorted entry_lt (view_entries_from i v).
Proof.
  intros Hself. unfold view_entries_from.
  apply (StronglySorted_fmap snd
    (λ p q, p.1 < q.1 ∧ p ∈ table_asc (v_entries v) ∧ q ∈ table_asc (v_entries v))).
  - intros [k e] [k' e'] (Hlt & Hp%table_asc_elem & Hq%table_asc_elem). unfold entry_lt; simpl in *.
    by rewrite (Hself _ _ Hp), (Hself _ _ Hq).
  - apply StronglySorted_filter.
    apply (StronglySorted_impl_elem (λ p q, p.1 < q.1)); [done|apply table_asc_strict].
Qed.

Lemma view_entries_from_elem v i e :
  e ∈ view_entries_from i v ↔ ∃ k, u64_val i ≤ k ∧ v_entries v !! k = Some e.
Proof.
  unfold view_entries_from. rewrite list_elem_of_fmap. split.
  - intros ([k e'] & -> & Hk%table_range_elem). eauto.
  - intros (k & Hk). exists (k, e). split; [done|]. by apply table_range_elem.
Qed.

Lemma view_entries_numbered v i :
  contiguous v → view_snap_index v < u64_val i →
  numbered_from i (view_entries_from i v) ∧
  N.of_nat (length (view_entries_from i v)) = view_last_index v + 1 - i.
Proof.
  intros (Hle & Hdom & Hself) Hi.
  destruct (numbered_of_sorted (view_entries_from i v) i (N.to_nat (view_last_index v + 1 - i)))
    as [? ->]; [by apply view_entries_sorted| |split; [done|lia]].
  intros k. setoid_rewrite view_entries_from_elem. split.
  - intros (e & (k' & Hk' & He) & <-). rewrite (Hself _ _ He).
    destruct (proj1 (Hdom k') ltac:(eauto)). lia.
  - intros Hk. destruct (proj2 (Hdom k)) as [e He]; [lia|]. exists e.
    split; [|by apply Hself]. exists k. split; [lia|done].
Qed.

(** A blank disk. *)
Lemma contiguous_empty : contiguous view_empty ∧ view_last_index view_empty = 0.
Proof.
  apply contiguous_intro; simpl.
  - unfold view_snap_index, u64_max; simpl; lia.
  - intros i. rewrite lookup_empty. unfold view_snap_index; simpl. split; [by intros []|lia].
  - intros i e. by rewrite lookup_empty.
Qed.
