(* ===== verification/RaftStorage.v ===== *)
(** * brokkr-raft: the redb-backed log

    Models [crates/brokkr-raft/src/storage.rs]: the [log] and [meta] tables of
    one [raft.redb] file, every method of [RaftLog] as one transaction, and the
    byte encodings of the values.

    redb and prost are outside the repository.  redb enters as two ordered
    tables and a schedule of transaction faults: each method runs one
    transaction, which either takes effect as a whole or fails with an I/O
    message and changes nothing.  prost enters as an encoder and a decoder of
    the two message types ([RaftCodec]), which are inverse on the messages this
    crate produces ([RaftCodecSpec]). *)

From stdpp Require Import prelude gmap strings pretty.
From Stdlib Require Import Lia.
From S2P Require Import Prelude Machine Bytes RaftTypes RaftStore.

Local Open Scope N_scope.

Class RaftCodec : Type := {
  enc_entry : pb_LogEntry → bytes;
  dec_entry : bytes → string + pb_LogEntry;
  enc_config : pb_ClusterConfig → bytes;
  dec_config : bytes → string + pb_ClusterConfig
}.

Class RaftCodecSpec `{RaftCodec} : Prop := {
  dec_enc_entry e : dec_entry (enc_entry (LogEntry_to_pb e)) = inr (LogEntry_to_pb e);
  dec_enc_config c :
    dec_config (enc_config (ClusterConfig_to_pb c)) = inr (ClusterConfig_to_pb c)
}.

Definition META_CURRENT_TERM : string := "current_term".
Definition META_VOTED_FOR : string := "voted_for".
Definition META_SNAP_INDEX : string := "snapshot_last_index".
Definition META_SNAP_TERM : string := "snapshot_last_term".
Definition META_SNAP_DATA : string := "snapshot_data".
Definition META_SNAP_CONFIG : string := "snapshot_config".

(** [io] is the fate of the transactions to come: [Some msg] fails the next one
    with that message; when the schedule is used up, none fails. *)
Record RaftLog : Type := mkRaftLog {
  log_table : gmap N bytes;
  meta_table : gmap string bytes;
  io : list (option string)
}.

Section redb.
Context `{RaftCodec}.

(** [LogEntry::encode] and [LogEntry::decode]. *)
Definition LogEntry_encode (e : LogEntry) : bytes := enc_entry (LogEntry_to_pb e).

Definition LogEntry_decode (b : bytes) : outcome RaftError LogEntry :=
  match dec_entry b with
  | inl msg => Err (Codec msg)
  | inr p => LogEntry_try_from p
  end.

(** Decodes a little-endian [u64] from an 8-byte meta value. *)
Definition u64_from_le (b : bytes) : outcome RaftError u64 :=
  if (length b =? 8)%nat then Ok (u64_wrap (from_le b))
  else Err (Storage ("expected 8-byte u64, got " +:+ pretty (N.of_nat (length b)))).

(** One transaction. *)
Definition txn : eff RaftLog RaftError () := λ l,
  match io l with
  | [] => (l, Ok ())
  | fault :: io' =>
      (mkRaftLog (log_table l) (meta_table l) io',
       match fault with None => Ok () | Some msg => Err (Storage msg) end)
  end.

Definition set_tables (f : gmap N bytes → gmap N bytes) (g : gmap string bytes → gmap string bytes)
    (l : RaftLog) : RaftLog :=
  mkRaftLog (f (log_table l)) (g (meta_table l)) (io l).

(** [RaftLog::open] on a fresh path: both tables exist and are empty. *)
Definition redb_open (schedule : list (option string)) : RaftLog := mkRaftLog ∅ ∅ schedule.

Definition redb_append_all (entries : list LogEntry) : eff RaftLog RaftError () :=
  txn;;
  modify (set_tables
    (λ t, foldl (λ t e, <[u64_val (le_index e) := LogEntry_encode e]> t) t entries) id).

Definition redb_get (index : LogIndex) : eff RaftLog RaftError (option LogEntry) :=
  txn;;
  t ← gets log_table;
  match t !! u64_val index with
  | Some guard => e ← of_outcome (LogEntry_decode guard); mret (Some e)
  | None => mret None
  end.

Fixpoint decode_all (values : list bytes) : outcome RaftError (list LogEntry) :=
  match values with
  | [] => Ok []
  | b :: values =>
      match LogEntry_decode b with
      | Ok e =>
          match decode_all values with
          | Ok es => Ok (e :: es)
          | Err e => Err e
          | Halt => Halt
          end
      | Err e => Err e
      | Halt => Halt
      end
  end.

Definition redb_entries_from (from : LogIndex) : eff RaftLog RaftError (list LogEntry) :=
  txn;;
  t ← gets log_table;
  of_outcome (decode_all (table_range from t).*2).

(** [read_snapshot_meta], within an already open [meta] table. *)
Definition read_snapshot_meta (t : gmap string bytes) : outcome RaftError (option SnapshotMeta) :=
  match t !! META_SNAP_INDEX with
  | None => Ok None
  | Some bi =>
  match u64_from_le bi with
  | Ok index =>
  match t !! META_SNAP_TERM with
  | None => Err (Storage "snapshot index present without snapshot term")
  | Some bt =>
  match u64_from_le bt with
  | Ok term =>
  match t !! META_SNAP_CONFIG with
  | None => Ok (Some (mkSnapshotMeta index term ClusterConfig_default))
  | Some bc =>
  match dec_config bc with
  | inl msg => Err (Codec msg)
  | inr p =>
  match ClusterConfig_try_from p with
  | Ok c => Ok (Some (mkSnapshotMeta index term c))
  | Err e => Err e | Halt => Halt end end end
  | Err e => Err e | Halt => Halt end end
  | Err e => Err e | Halt => Halt end
  end.

Definition redb_last_index_and_term : eff RaftLog RaftError (LogIndex * Term) :=
  txn;;
  l ← gets id;
  match table_last (log_table l) with
  | Some (key, value) =>
      e ← of_outcome (LogEntry_decode value); mret (u64_sat key, le_term e)
  | None =>
      m ← of_outcome (read_snapshot_meta (meta_table l));
      mret (match m with
            | Some snap => (last_included_index snap, last_included_term snap)
            | None => (LogIndex_ZERO, Term_ZERO)
            end)
  end.

Definition redb_first_index : eff RaftLog RaftError LogIndex :=
  txn;;
  t ← gets log_table;
  mret (match table_first t with Some (key, _) => u64_sat key | None => LogIndex_ZERO end).

Definition redb_truncate_from (from : LogIndex) : eff RaftLog RaftError () :=
  txn;;
  modify (set_tables
    (λ t, foldl (λ t key, delete key t) t (table_range from t).*1) id).

Definition write_snapshot (meta : SnapshotMeta) (data : bytes) (wipe_entire_log : bool)
    : eff RaftLog RaftError () :=
  let index_bytes := to_le_bytes (last_included_index meta) in
  let term_bytes := to_le_bytes (last_included_term meta) in
  let config_bytes := enc_config (ClusterConfig_to_pb (snap_config meta)) in
  txn;;
  modify (set_tables
    (λ t, if wipe_entire_log then ∅
          else filter (λ p, ¬ p.1 ≤ u64_val (last_included_index meta)) t)
    (λ t, <[META_SNAP_CONFIG := config_bytes]>
          (<[META_SNAP_DATA := data]>
          (<[META_SNAP_TERM := term_bytes]>
          (<[META_SNAP_INDEX := index_bytes]> t))))).

Definition redb_compact_to (meta : SnapshotMeta) (data : bytes) : eff RaftLog RaftError () :=
  write_snapshot meta data false.

Definition redb_install_snapshot_replacing_log (meta : SnapshotMeta) (data : bytes)
    : eff RaftLog RaftError () :=
  write_snapshot meta data true.

Definition redb_snapshot_meta : eff RaftLog RaftError (option SnapshotMeta) :=
  txn;;
  t ← gets meta_table;
  of_outcome (read_snapshot_meta t).

Definition redb_snapshot : eff RaftLog RaftError (option (SnapshotMeta * bytes)) :=
  txn;;
  t ← gets meta_table;
  m ← of_outcome (read_snapshot_meta t);
  mret (match m with
        | None => None
        | Some meta => Some (meta, default [] (t !! META_SNAP_DATA))
        end).

Definition redb_save_hard_state (state : HardState) : eff RaftLog RaftError () :=
  txn;;
  modify (set_tables id (λ t,
    let t := <[META_CURRENT_TERM := to_le_bytes (current_term state)]> t in
    match voted_for state with
    | Some id => <[META_VOTED_FOR := as_bytes (as_str id)]> t
    | None => delete META_VOTED_FOR t
    end)).

(** The two keys, read in one transaction. *)
Definition read_hard_state (t : gmap string bytes) : outcome RaftError HardState :=
  match
    match t !! META_CURRENT_TERM with
    | Some guard => u64_from_le guard
    | None => Ok Term_ZERO
    end
  with
  | Ok term =>
      match t !! META_VOTED_FOR with
      | Some guard =>
          match from_utf8 guard with
          | None => Err (Storage "invalid utf-8")
          | Some s =>
              match NodeId_new s with
              | Ok id => Ok (mkHardState term (Some id))
              | Err e => Err e
              | Halt => Halt
              end
          end
      | None => Ok (mkHardState term None)
      end
  | Err e => Err e
  | Halt => Halt
  end.

Definition redb_load_hard_state : eff RaftLog RaftError HardState :=
  txn;;
  t ← gets meta_table;
  of_outcome (read_hard_state t).

(** The single-key accessors: [get_meta], [current_term], [voted_for],
    [last_term]. *)
Definition get_meta (key : string) : eff RaftLog RaftError (option bytes) :=
  txn;; gets (λ l, meta_table l !! key).

Definition redb_current_term : eff RaftLog RaftError Term :=
  m ← get_meta META_CURRENT_TERM;
  match m with
  | Some b => of_outcome (u64_from_le b)
  | None => mret Term_ZERO
  end.

Definition redb_voted_for : eff RaftLog RaftError (option NodeId) :=
  m ← get_meta META_VOTED_FOR;
  match m with
  | Some b =>
      match from_utf8 b with
      | None => throw (Storage "invalid utf-8")
      | Some s => id ← of_outcome (NodeId_new s); mret (Some id)
      end
  | None => mret None
  end.

Definition redb_last_term : eff RaftLog RaftError Term :=
  p ← redb_last_index_and_term; mret p.2.

#[export] Instance redb_store : RaftStore RaftLog := {|
  st_get := redb_get;
  st_entries_from := redb_entries_from;
  st_last_index_and_term := redb_last_index_and_term;
  st_first_index := redb_first_index;
  st_append_all := redb_append_all;
  st_truncate_from := redb_truncate_from;
  st_compact_to := redb_compact_to;
  st_install_snapshot_replacing_log := redb_install_snapshot_replacing_log;
  st_snapshot_meta := redb_snapshot_meta;
  st_snapshot := redb_snapshot;
  st_save_hard_state := redb_save_hard_state;
  st_load_hard_state := redb_load_hard_state
|}.

End redb.

(** ** The redb log meets the store's contract *)

Section redb_spec.
Context `{RaftCodecSpec}.

Definition entry_or_noop (b : bytes) : LogEntry :=
  match LogEntry_decode b with Ok e => e | _ => mkLogEntry Term_ZERO LogIndex_ZERO Noop end.

Definition meta_snapshot (t : gmap string bytes) : option (SnapshotMeta * bytes) :=
  match read_snapshot_meta t with
  | Ok (Some m) => Some (m, default [] (t !! META_SNAP_DATA))
  | _ => None
  end.

Definition meta_hard (t : gmap string bytes) : HardState :=
  match read_hard_state t with Ok h => h | _ => HardState_new end.

Definition redb_view (l : RaftLog) : LogView :=
  mkLogView (entry_or_noop <$> log_table l) (meta_snapshot (meta_table l)) (meta_hard (meta_table l)).

(** Every stored value decodes. *)
Definition redb_ok (l : RaftLog) : Prop :=
  (∀ k b, log_table l !! k = Some b → LogEntry_decode b = Ok (entry_or_noop b)) ∧
  (∃ m, read_snapshot_meta (meta_table l) = Ok m) ∧
  (∃ h, read_hard_state (meta_table l) = Ok h).

Lemma LogEntry_decode_encode e : entry_canonical e → LogEntry_decode (LogEntry_encode e) = Ok e.
Proof.
  intros He. unfold LogEntry_decode, LogEntry_encode. rewrite dec_enc_entry.
  by apply log_entry_roundtrip.
Qed.

Lemma u64_from_to_le (a : u64) : u64_from_le (to_le_bytes a) = Ok a.
Proof.
  unfold u64_from_le. assert (length (to_le_bytes a) = 8%nat) as -> by apply le_bytes_length.
  rewrite Nat.eqb_refl. f_equal. apply u64_inj. rewrite u64_wrap_val, from_to_le_bytes.
  apply N.mod_small. pose proof (u64_le_max a). lia.
Qed.

(** A transaction's two fates, both leaving the tables alone. *)
Lemma wp_txn (Q : () → RaftLog → Prop) X l :
  redb_ok l →
  (∀ l', redb_ok l' → log_table l' = log_table l → meta_table l' = meta_table l → Q () l') →
  (∀ l' msg, redb_ok l' → redb_view l' = redb_view l → X (Storage msg) l') →
  wp txn Q X l.
Proof.
  intros Hok HQ HX. unfold wp, txn. destruct (io l) as [|[msg|] io']; simpl; auto.
Qed.

(** The shape every read shares: after the transaction, a computation on the
    unchanged tables that succeeds with the view's answer. *)
Lemma redb_reads {A} (k : () → eff RaftLog RaftError A) f :
  (∀ l, redb_ok l → k () l = (l, Ok (f (redb_view l)))) →
  reads redb_ok redb_view (txn ≫= k) f.
Proof.
  intros Hk l Hl. wp_step. apply wp_txn; [done| |].
  - intros l' Hl' Ht Hm. unfold wp. rewrite Hk by done.
    assert (redb_view l' = redb_view l) as -> by (unfold redb_view; by rewrite Ht, Hm). done.
  - intros l' msg Hl' Hv. split_and!; [done|done|by exists msg].
Qed.

(** And every write: after the transaction, a change of both tables that keeps
    the values decodable and acts on the view as specified. *)
Lemma redb_writes f g h :
  (∀ l, redb_ok l → redb_ok (set_tables f g l) ∧ redb_view (set_tables f g l) = h (redb_view l)) →
  writes redb_ok redb_view (txn;; modify (set_tables f g)) h.
Proof.
  intros Hfg l Hl. wp_step. apply wp_txn; [done| |].
  - intros l' Hl' Ht Hm. wp_step. destruct (Hfg l' Hl') as [? ->]. split; [done|].
    f_equal. unfold redb_view. by rewrite Ht, Hm.
  - intros l' msg Hl' Hv. split_and!; [done|done|by exists msg].
Qed.

Lemma redb_get_reads i : reads redb_ok redb_view (redb_get i) (view_get i).
Proof.
  apply redb_reads. intros l (Hlog & _ & _). unfold view_get, mbind, eff_bind; simpl.
  rewrite lookup_fmap. destruct (log_table l !! u64_val i) as [b|] eqn:Hb; simpl; [|done].
  unfold of_outcome. by rewrite (Hlog _ _ Hb).
Qed.

Lemma decode_all_ok (bs : list bytes) :
  (∀ b, b ∈ bs → LogEntry_decode b = Ok (entry_or_noop b)) →
  decode_all bs = Ok (entry_or_noop <$> bs).
Proof.
  induction bs as [|b bs IH]; intros Hbs; simpl; [done|].
  rewrite (Hbs b) by set_solver. rewrite IH by set_solver. done.
Qed.

Lemma redb_entries_from_reads i :
  reads redb_ok redb_view (redb_entries_from i) (view_entries_from i).
Proof.
  apply redb_reads. intros l (Hlog & _ & _).
  unfold view_entries_from, mbind, eff_bind, of_outcome; simpl.
  rewrite table_range_fmap, <-!list_fmap_compose, decode_all_ok.
  - rewrite <-list_fmap_compose. done.
  - intros b ([k b'] & -> & Hb)%list_elem_of_fmap. apply table_range_elem in Hb as [_ Hb].
    by apply (Hlog k).
Qed.

Lemma redb_snapshot_view l :
  redb_ok l → read_snapshot_meta (meta_table l) = Ok (fst <$> v_snapshot (redb_view l)).
Proof.
  intros (_ & [m Hm] & _). unfold redb_view, meta_snapshot; simpl. rewrite Hm.
  by destruct m.
Qed.

Lemma redb_last_reads : reads redb_ok redb_view redb_last_index_and_term view_last.
Proof.
  apply redb_reads. intros l Hl. pose proof Hl as (Hlog & _ & _).
  unfold view_last, mbind, eff_bind, of_outcome; simpl.
  rewrite table_last_fmap. destruct (table_last (log_table l)) as [[k b]|] eqn:Hlast; simpl.
  - apply table_last_Some in Hlast as [Hb _]. by rewrite (Hlog _ _ Hb).
  - rewrite (redb_snapshot_view l Hl). unfold redb_view at 1; simpl.
    by destruct (meta_snapshot (meta_table l)) as [[m d]|].
Qed.

Lemma redb_first_reads : reads redb_ok redb_view redb_first_index view_first.
Proof.
  apply redb_reads. intros l Hl. unfold view_first, mbind, eff_bind; simpl.
  rewrite table_first_fmap. by destruct (table_first (log_table l)) as [[k b]|].
Qed.

Lemma redb_snapshot_meta_reads :
  reads redb_ok redb_view redb_snapshot_meta (λ v, fst <$> v_snapshot v).
Proof.
  apply redb_reads. intros l Hl. unfold mbind, eff_bind, of_outcome; simpl.
  by rewrite redb_snapshot_view.
Qed.

Lemma redb_snapshot_reads : reads redb_ok redb_view redb_snapshot v_snapshot.
Proof.
  apply redb_reads. intros l (_ & [m Hm] & _). unfold mbind, eff_bind, of_outcome; simpl.
  unfold meta_snapshot. rewrite Hm. by destruct m.
Qed.

Lemma redb_load_hard_reads : reads redb_ok redb_view redb_load_hard_state v_hard.
Proof.
  apply redb_reads. intros l (_ & _ & [h Hh]). unfold mbind, eff_bind, of_outcome; simpl.
  unfold meta_hard. by rewrite Hh.
Qed.

Lemma entry_or_noop_encode e : entry_canonical e → entry_or_noop (LogEntry_encode e) = e.
Proof. intros He. unfold entry_or_noop. by rewrite LogEntry_decode_encode. Qed.

Lemma redb_append_writes es :
  Forall entry_canonical es → writes redb_ok redb_view (redb_append_all es) (view_append es).
Proof.
  intros Hes. apply redb_writes. intros [t mt sched] (Hlog & Hsnap & Hhard).
  unfold redb_ok, redb_view, set_tables, view_append in *; simpl in *.
  enough (∀ t, (∀ k b, t !! k = Some b → LogEntry_decode b = Ok (entry_or_noop b)) →
    let t' := foldl (λ t e, <[u64_val (le_index e) := LogEntry_encode e]> t) t es in
    (∀ k b, t' !! k = Some b → LogEntry_decode b = Ok (entry_or_noop b)) ∧
    entry_or_noop <$> t' = foldl insert_entry (entry_or_noop <$> t) es) as Hfold.
  { destruct (Hfold t Hlog) as [? ->]. done. }
  clear t Hlog. induction Hes as [|e es He _ IH]; intros t Hlog; simpl; [done|].
  edestruct (IH (<[u64_val (le_index e) := LogEntry_encode e]> t)) as [Hdec Hview].
  { intros k b [[<- <-]|[? ?]]%lookup_insert_Some; [|eauto].
    by rewrite entry_or_noop_encode, LogEntry_decode_encode. }
  split; [done|]. rewrite Hview, fmap_insert, entry_or_noop_encode by done. done.
Qed.

(** Removing part of the log table leaves what remains decodable. *)
Lemma redb_log_submap f (P : N → Prop) `{∀ k, Decision (P k)} :
  (∀ (t : gmap N bytes) k, f t !! k = if decide (P k) then t !! k else None) →
  writes redb_ok redb_view (txn;; modify (set_tables f id))
    (λ v, mkLogView (filter (λ p, P p.1) (v_entries v)) (v_snapshot v) (v_hard v)).
Proof.
  intros Hf. apply redb_writes. intros [t mt sched] (Hlog & Hsnap & Hhard).
  unfold redb_ok, redb_view, set_tables in *; simpl in *. split.
  - split; [|done]. intros k b. rewrite Hf. case_decide; [eauto|done].
  - f_equal. apply map_eq. intros k. apply option_eq. intros e.
    rewrite map_lookup_filter_Some, !lookup_fmap, Hf. simpl.
    case_decide; simpl; naive_solver.
Qed.

Lemma redb_truncate_writes i : writes redb_ok redb_view (redb_truncate_from i) (view_truncate i).
Proof.
  unfold redb_truncate_from, view_truncate.
  refine (redb_log_submap _ (λ k, k < u64_val i) _). intros t k.
  rewrite foldl_delete_lookup. case_decide as Hin; case_decide; try done.
  - apply list_elem_of_fmap in Hin as ([k' b] & -> & Hin%table_range_elem). simpl in *. lia.
  - destruct (t !! k) as [b|] eqn:Hb; [|done]. exfalso. apply Hin.
    apply list_elem_of_fmap. exists (k, b). split; [done|]. apply table_range_elem.
    split; [lia|done].
Qed.

Lemma read_hard_snapshot_keys (t : gmap string bytes) i te d c :
  read_hard_state (<[META_SNAP_CONFIG := c]> (<[META_SNAP_DATA := d]>
    (<[META_SNAP_TERM := te]> (<[META_SNAP_INDEX := i]> t)))) = read_hard_state t.
Proof. unfold read_hard_state. by rewrite !lookup_insert_ne by done. Qed.

Lemma read_snapshot_written (t : gmap string bytes) m d :
  config_canonical (snap_config m) →
  let t' := <[META_SNAP_CONFIG := enc_config (ClusterConfig_to_pb (snap_config m))]>
    (<[META_SNAP_DATA := d]> (<[META_SNAP_TERM := to_le_bytes (last_included_term m)]>
    (<[META_SNAP_INDEX := to_le_bytes (last_included_index m)]> t))) in
  read_snapshot_meta t' = Ok (Some m) ∧ t' !! META_SNAP_DATA = Some d.
Proof.
  intros Hc t'. unfold read_snapshot_meta, t'. split.
  - do 3 (rewrite lookup_insert_ne by done). rewrite lookup_insert_eq, u64_from_to_le.
    do 2 (rewrite lookup_insert_ne by done). rewrite lookup_insert_eq, u64_from_to_le.
    rewrite lookup_insert_eq, dec_enc_config, ClusterConfig_roundtrip by done. by destruct m.
  - rewrite lookup_insert_ne by done. by rewrite lookup_insert_eq.
Qed.

(** Both ways of installing a snapshot: the log restricted to [P], the snapshot
    replaced, the hard state untouched. *)
Lemma write_snapshot_writes m d wipe (P : N → Prop) `{∀ k, Decision (P k)} :
  config_canonical (snap_config m) →
  (∀ k, P k ↔ wipe = false ∧ u64_val (last_included_index m) < k) →
  writes redb_ok redb_view (write_snapshot m d wipe)
    (λ v, mkLogView (filter (λ p, P p.1) (v_entries v)) (Some (m, d)) (v_hard v)).
Proof.
  intros Hc HP. unfold write_snapshot. apply redb_writes. intros [t mt sched] (Hlog & _ & Hhard).
  unfold redb_ok, redb_view, set_tables, meta_snapshot, meta_hard in *; simpl in *.
  destruct (read_snapshot_written mt m d Hc) as [Hr Hd]. rewrite Hr, Hd, read_hard_snapshot_keys.
  split; [split_and!; eauto|].
  - intros k b. destruct wipe; [by rewrite lookup_empty|].
    intros [Hk _]%map_lookup_filter_Some. eauto.
  - f_equal. apply map_eq. intros k. apply option_eq. intros e.
    rewrite map_lookup_filter_Some, !lookup_fmap. simpl. rewrite HP. destruct wipe.
    + rewrite lookup_empty. naive_solver.
    + rewrite map_lookup_filter. destruct (t !! k); simpl; [|naive_solver].
      case_guard; simpl in *; naive_solver lia.
Qed.

Lemma redb_compact_writes m d :
  config_canonical (snap_config m) →
  writes redb_ok redb_view (redb_compact_to m d) (view_compact m d).
Proof.
  intros Hc. unfold redb_compact_to, view_compact.
  refine (write_snapshot_writes m d false (λ k, u64_val (last_included_index m) < k) Hc _).
  naive_solver.
Qed.

Lemma redb_install_writes m d :
  config_canonical (snap_config m) →
  writes redb_ok redb_view (redb_install_snapshot_replacing_log m d) (view_install m d).
Proof.
  intros Hc l Hl. eapply wp_mono.
  - apply (write_snapshot_writes m d true (λ _, False)); [done|naive_solver|done].
  - intros _ l' [? ->]. split; [done|]. unfold view_install. f_equal.
    apply map_eq. intros k. rewrite lookup_empty. apply map_lookup_filter_None. naive_solver.
  - done.
Qed.

Lemma redb_save_hard_writes h :
  writes redb_ok redb_view (redb_save_hard_state h) (view_save_hard h).
Proof.
  apply redb_writes. intros [t mt sched] (Hlog & Hsnap & _).
  unfold redb_ok, redb_view, set_tables, meta_snapshot, meta_hard in *; simpl in *.
  set (mt' := match voted_for h with Some id => _ | None => _ end).
  assert (∀ k, k ≠ META_CURRENT_TERM → k ≠ META_VOTED_FOR → mt' !! k = mt !! k) as Hother.
  { intros k H1 H2. unfold mt'. destruct (voted_for h);
      [rewrite lookup_insert_ne by done|rewrite lookup_delete_ne by done];
      by rewrite lookup_insert_ne by done. }
  assert (read_snapshot_meta mt' = read_snapshot_meta mt) as ->.
  { unfold read_snapshot_meta. by rewrite !Hother by done. }
  rewrite (Hother META_SNAP_DATA) by done.
  assert (read_hard_state mt' = Ok h) as ->; [|eauto].
  unfold read_hard_state, mt'. destruct h as [term [id|]]; simpl.
  - rewrite lookup_insert_ne, !lookup_insert_eq, u64_from_to_le by done.
    rewrite from_utf8_as_bytes, NodeId_new_as_str; [done|].
    pose proof (Is_true_true_1 _ (node_id_valid id)) as Hok. unfold node_id_ok in Hok.
    rewrite !andb_true_iff in Hok. tauto.
  - rewrite lookup_delete_ne, lookup_insert_eq, u64_from_to_le, lookup_delete_eq by done. done.
Qed.

(** The redb log implements the store the node is verified against. *)
#[export] Instance redb_store_spec : RaftStoreSpec RaftLog := {|
  store_ok := redb_ok;
  store_view := redb_view;
  get_reads := redb_get_reads;
  entries_from_reads := redb_entries_from_reads;
  last_reads := redb_last_reads;
  first_reads := redb_first_reads;
  snapshot_meta_reads := redb_snapshot_meta_reads;
  snapshot_reads := redb_snapshot_reads;
  load_hard_reads := redb_load_hard_reads;
  append_writes := redb_append_writes;
  truncate_writes := redb_truncate_writes;
  compact_writes := redb_compact_writes;
  install_writes := redb_install_writes;
  save_hard_writes := redb_save_hard_writes
|}.

Lemma redb_open_ok schedule : redb_ok (redb_open schedule).
Proof.
  unfold redb_ok, redb_open; simpl. split_and!; [|by eexists|by eexists].
  intros k b. by rewrite lookup_empty.
Qed.

End redb_spec.
