(* ===== verification/RaftConfig.v ===== *)
(** * brokkr-raft: the configurations visible in the log

    Models [ConfigTracker] of [crates/brokkr-raft/src/node.rs] (lines 154-231):
    the cluster configuration in force is the latest one in the log, committed
    or not, and the tracker follows the log through appends, truncations,
    compactions and snapshot installs.  [tracks] is the abstract contract: the
    tracker lists exactly the configuration entries the log holds, in index
    order. *)

From stdpp Require Import prelude gmap strings sorting.
From Stdlib Require Import Lia.
From S2P Require Import Prelude Machine Bytes RaftTypes RaftStore.

Local Open Scope N_scope.

Record ConfigTracker : Type := mkConfigTracker {
  base : ClusterConfig;
  base_index : LogIndex;
  in_log : list (LogIndex * ClusterConfig)
}.

Definition ConfigTracker_new (base : ClusterConfig) (base_index : LogIndex) : ConfigTracker :=
  mkConfigTracker base base_index [].

Definition active (t : ConfigTracker) : ClusterConfig :=
  match last (in_log t) with Some (_, c) => c | None => base t end.

Definition latest_index (t : ConfigTracker) : LogIndex :=
  match last (in_log t) with Some (i, _) => i | None => base_index t end.

(** [iter().rev().find(|(i, _)| *i <= index)]. *)
Definition config_at (index : LogIndex) (t : ConfigTracker) : ClusterConfig :=
  match head (filter (λ p, u64_val p.1 ≤ u64_val index) (reverse (in_log t))) with
  | Some (_, c) => c
  | None => base t
  end.

Definition on_append (index : LogIndex) (config : ClusterConfig) (t : ConfigTracker)
    : ConfigTracker :=
  mkConfigTracker (base t) (base_index t)
    (filter (λ p, u64_val p.1 < u64_val index) (in_log t) ++ [(index, config)]).

Definition on_truncate (from : LogIndex) (t : ConfigTracker) : ConfigTracker :=
  mkConfigTracker (base t) (base_index t) (filter (λ p, u64_val p.1 < u64_val from) (in_log t)).

Definition on_compact (to : LogIndex) (t : ConfigTracker) : ConfigTracker :=
  mkConfigTracker (config_at to t) to (filter (λ p, u64_val to < u64_val p.1) (in_log t)).

Definition on_install_snapshot (config : ClusterConfig) (index : LogIndex) (log_wiped : bool)
    (t : ConfigTracker) : ConfigTracker :=
  mkConfigTracker (if bool_decide (voters config = ∅) then base t else config) index
    (if log_wiped then [] else filter (λ p, u64_val index < u64_val p.1) (in_log t)).

(** The startup scan of [with_bootstrap] and [note_appended_configs]: record
    every configuration entry of a slice of the log. *)
Definition note_configs (entries : list LogEntry) (t : ConfigTracker) : ConfigTracker :=
  foldl (λ t e, match le_payload e with Config c => on_append (le_index e) c t | _ => t end)
    t entries.

(** ** The contract *)

Definition idx_lt (p q : LogIndex * ClusterConfig) : Prop := u64_val p.1 < u64_val q.1.

#[export] Instance idx_lt_trans : Transitive idx_lt.
Proof. intros p q r. unfold idx_lt. lia. Qed.

Definition config_entry (m : gmap N LogEntry) (i : LogIndex) (c : ClusterConfig) : Prop :=
  ∃ e, m !! u64_val i = Some e ∧ le_payload e = Config c.

Record tracks (t : ConfigTracker) (m : gmap N LogEntry) : Prop := {
  tracks_sorted : StronglySorted idx_lt (in_log t);
  tracks_exact i c : (i, c) ∈ in_log t ↔ config_entry m i c
}.

(** What the membership rule of Raft's section 6 asks for, stated of the log
    alone: [c] is the configuration in force at [index]. *)
Definition in_force (b : ClusterConfig) (m : gmap N LogEntry) (index : N) (c : ClusterConfig) : Prop :=
  (∃ i, u64_val i ≤ index ∧ config_entry m i c ∧
     ∀ j c', u64_val j ≤ index → config_entry m j c' → u64_val j ≤ u64_val i) ∨
  (c = b ∧ ∀ j c', u64_val j ≤ index → ¬ config_entry m j c').

Lemma last_filter_max (l : list (LogIndex * ClusterConfig)) (P : LogIndex * ClusterConfig → Prop)
    `{∀ x, Decision (P x)} p :
  StronglySorted idx_lt l → head (filter P (reverse l)) = Some p →
  p ∈ l ∧ P p ∧ ∀ q, q ∈ l → P q → u64_val q.1 ≤ u64_val p.1.
Proof.
  induction l as [|x l IH] using rev_ind; intros Hs Hh; [done|].
  rewrite reverse_snoc, filter_cons in Hh.
  apply StronglySorted_app in Hs as (Hsl & Hs & _).
  case_decide as Hx.
  - simplify_eq/=. split_and!; [set_solver|done|].
    intros q [Hq| ->%list_elem_of_singleton]%elem_of_app _; [|done].
    specialize (Hsl q p Hq ltac:(set_solver)). unfold idx_lt in Hsl. lia.
  - destruct (IH Hs Hh) as (? & ? & Hmax). split_and!; [set_solver|done|].
    intros q [Hq| ->%list_elem_of_singleton]%elem_of_app Hq'; [auto|done].
Qed.

Lemma head_filter_None {A} (P : A → Prop) `{∀ x, Decision (P x)} (l : list A) :
  head (filter P l) = None → ∀ x, x ∈ l → ¬ P x.
Proof.
  intros Hh x Hx HP. assert (x ∈ filter P l) as Hin by by apply list_elem_of_filter.
  destruct (filter P l); [by apply elem_of_nil in Hin|done].
Qed.

Lemma filter_nil_iff {A} (P : A → Prop) `{∀ x, Decision (P x)} (l : list A) :
  (∀ x, x ∈ l → ¬ P x) → filter P l = [].
Proof.
  induction l as [|x l IH]; intros Hl; [done|]. rewrite filter_cons, decide_False by set_solver.
  set_solver.
Qed.

Lemma config_at_in_force t m i :
  tracks t m → in_force (base t) m (u64_val i) (config_at i t).
Proof.
  intros [Hs Hx]. unfold in_force, config_at.
  destruct (head _) as [[j c]|] eqn:Hh; [left|right].
  - apply last_filter_max in Hh as (Hin & Hle & Hmax); [|done]. exists j.
    split_and!; [done|by apply Hx|]. intros k c' Hk Hc. by apply (Hmax (k, c')); [apply Hx|].
  - split; [done|]. intros j c Hj Hc%Hx.
    apply (head_filter_None _ _ Hh (j, c)); [|done]. by apply elem_of_reverse.
Qed.

Lemma active_config_at t i :
  (∀ p, p ∈ in_log t → u64_val p.1 ≤ u64_val i) → active t = config_at i t.
Proof.
  unfold active, config_at. intros Hall. destruct (in_log t) as [|p l _] using rev_ind; [done|].
  rewrite last_snoc, reverse_snoc, filter_cons, decide_True; [by destruct p|].
  apply Hall. set_solver.
Qed.

Lemma active_cases t : active t = base t ∨ ∃ i, (i, active t) ∈ in_log t.
Proof.
  unfold active. destruct (last (in_log t)) as [[i c]|] eqn:Hl; [right|by left].
  apply last_Some in Hl as [l' ->]. exists i. set_solver.
Qed.

Lemma config_at_cases t k : config_at k t = base t ∨ ∃ i, (i, config_at k t) ∈ in_log t.
Proof.
  unfold config_at. destruct (head _) as [[i c]|] eqn:Hl; [right|by left].
  apply head_Some in Hl as [l' Hl]. exists i.
  apply elem_of_reverse. assert ((i, c) ∈ filter (λ p : LogIndex * ClusterConfig, u64_val p.1 ≤ u64_val k)
    (reverse (in_log t))) as [_ ?]%list_elem_of_filter by (rewrite Hl; set_solver). done.
Qed.

(** ** The tracker follows the log *)

Lemma tracks_new b i : tracks (ConfigTracker_new b i) ∅.
Proof.
  split; simpl; [constructor|]. intros j c. unfold config_entry. rewrite lookup_empty. set_solver.
Qed.

Lemma tracks_append t m e c :
  tracks t m → (∀ i, is_Some (m !! i) → i < u64_val (le_index e)) → le_payload e = Config c →
  tracks (on_append (le_index e) c t) (insert_entry m e).
Proof.
  intros [Hs Hx] Hmax Hc. unfold insert_entry. split; simpl.
  - apply StronglySorted_snoc; [by apply StronglySorted_filter|].
    by intros [j c'] [? _]%list_elem_of_filter.
  - intros i c'. rewrite elem_of_app, list_elem_of_filter, list_elem_of_singleton, Hx.
    unfold config_entry. simpl. split.
    + intros [[Hlt (e' & He' & Hc')]|?]; simplify_eq.
      * exists e'. by rewrite lookup_insert_ne by lia.
      * exists e. by rewrite lookup_insert_eq.
    + intros (e' & [[Hi ->]|[Hne He']]%lookup_insert_Some & Hc').
      * right. apply u64_inj in Hi as ->. congruence.
      * left. split; [by apply Hmax; eexists|eauto].
Qed.

Lemma tracks_append_other t m e :
  tracks t m → m !! u64_val (le_index e) = None → (∀ c, le_payload e ≠ Config c) →
  tracks t (insert_entry m e).
Proof.
  intros [Hs Hx] Hnone Hc. unfold insert_entry. split; [done|]. intros i c. rewrite Hx.
  unfold config_entry. split.
  - intros (e' & He' & ?). exists e'. rewrite lookup_insert_ne; [done|]. congruence.
  - intros (e' & [[Hi ->]|[Hne He']]%lookup_insert_Some & Hc'); [naive_solver|eauto].
Qed.

Lemma tracks_note_configs es : ∀ t m,
  tracks t m → StronglySorted entry_lt es →
  (∀ j e, is_Some (m !! j) → e ∈ es → j < u64_val (le_index e)) →
  tracks (note_configs es t) (foldl insert_entry m es).
Proof.
  induction es as [|e es IH]; intros t m Ht Hs Hmax; simpl in *; [done|].
  apply StronglySorted_cons in Hs as [He Hs]. rewrite Forall_forall in He. unfold entry_lt in He.
  assert (m !! u64_val (le_index e) = None) as Hnone.
  { destruct (m !! _) eqn:Hj; [|done]. specialize (Hmax (le_index e) e ltac:(eauto)). set_solver by lia. }
  apply IH; [|done|].
  - destruct (le_payload e) eqn:Hp; [by apply tracks_append_other; congruence..|].
    apply tracks_append; [done| |done]. intros i Hi. apply (Hmax i e); set_solver.
  - unfold insert_entry. intros j e' [e'' [[Hj _]|[_ Hj]]%lookup_insert_Some] He'.
    + specialize (He e' He'). lia.
    + apply (Hmax j e'); [eauto|set_solver].
Qed.

Lemma tracks_filter t m (P : N → Prop) `{∀ k, Decision (P k)} b bi :
  tracks t m →
  tracks (mkConfigTracker b bi (filter (λ p, P (u64_val p.1)) (in_log t)))
    (filter (λ p, P p.1) m).
Proof.
  intros [Hs Hx]. split; simpl; [by apply StronglySorted_filter|]. intros i c.
  rewrite list_elem_of_filter, Hx. unfold config_entry.
  setoid_rewrite map_lookup_filter_Some. simpl. naive_solver.
Qed.

Lemma tracks_truncate t v i :
  tracks t (v_entries v) → tracks (on_truncate i t) (v_entries (view_truncate i v)).
Proof. exact (tracks_filter t (v_entries v) (λ k, k < u64_val i) _ _). Qed.

Lemma tracks_compact t v m d :
  tracks t (v_entries v) →
  tracks (on_compact (last_included_index m) t) (v_entries (view_compact m d v)).
Proof. exact (tracks_filter t (v_entries v) (λ k, u64_val (last_included_index m) < k) _ _). Qed.

Lemma tracks_install_retain t v m d c :
  tracks t (v_entries v) →
  tracks (on_install_snapshot c (last_included_index m) false t) (v_entries (view_compact m d v)).
Proof. exact (tracks_filter t (v_entries v) (λ k, u64_val (last_included_index m) < k) _ _). Qed.

Lemma tracks_install_wiped t v m d c :
  tracks (on_install_snapshot c (last_included_index m) true t) (v_entries (view_install m d v)).
Proof.
  split; simpl; [constructor|]. intros j c'. unfold config_entry. rewrite lookup_empty. set_solver.
Qed.

(** ** Recovery *)

(** The contract pins the tracked entries down. *)
Lemma tracks_unique t t' m : tracks t m → tracks t' m → in_log t = in_log t'.
Proof.
  intros [Hs Hx] [Hs' Hx']. apply (StronglySorted_unique_strong idx_lt); [|done|done|].
  - intros p q _ _. unfold idx_lt. lia.
  - apply NoDup_Permutation.
    + apply (StronglySorted_irrefl_NoDup idx_lt); [|done]. intros p. unfold idx_lt. lia.
    + apply (StronglySorted_irrefl_NoDup idx_lt); [|done]. intros p. unfold idx_lt. lia.
    + intros [i c]. by rewrite Hx, Hx'.
Qed.

(** The startup scan rebuilds the tracker from the log alone. *)
Lemma tracks_recover v first b bi :
  self_indexed (v_entries v) →
  (∀ k, is_Some (v_entries v !! k) → u64_val first ≤ k) →
  tracks (note_configs (view_entries_from first v) (ConfigTracker_new b bi)) (v_entries v).
Proof.
  intros Hself Hfirst. pose proof (view_entries_sorted v first Hself) as Hs.
  assert (foldl insert_entry ∅ (view_entries_from first v) = v_entries v) as Hm.
  { apply map_eq. intros k. apply option_eq. intros e. rewrite foldl_insert_lookup by done.
    unfold view_entries_from. setoid_rewrite list_elem_of_fmap. rewrite lookup_empty. split.
    + intros [[([k' e'] & -> & [_ Hk]%table_range_elem) Heq]|[? _]]; [|done].
      simpl in *. specialize (Hself _ _ Hk). congruence.
    + intros Hk. left. split; [|by apply Hself]. exists (k, e). split; [done|].
      apply table_range_elem. split; [|done]. apply Hfirst. by eexists. }
  pose proof (tracks_note_configs (view_entries_from first v) (ConfigTracker_new b bi) ∅) as Ht.
  rewrite Hm in Ht. apply Ht; [apply tracks_new|done|]. intros j e. rewrite lookup_empty. by intros [].
Qed.

Lemma config_at_snoc b bi l x k :
  config_at k (mkConfigTracker b bi (l ++ [x])) =
    if decide (u64_val x.1 ≤ u64_val k) then x.2 else config_at k (mkConfigTracker b bi l).
Proof.
  unfold config_at; simpl. rewrite reverse_snoc, filter_cons. case_decide; [by destruct x|done].
Qed.

(** Folding configuration entries into the base loses no configuration that is
    still asked for. *)
Lemma config_at_compact t to i :
  StronglySorted idx_lt (in_log t) → u64_val to ≤ u64_val i →
  config_at i (on_compact to t) = config_at i t.
Proof.
  destruct t as [b bi l]. simpl. intros Hs Hle.
  induction l as [|x l IH] using rev_ind; [done|].
  apply StronglySorted_app in Hs as (Hsl & Hs & _). specialize (IH Hs).
  assert (∀ y, y ∈ l → u64_val y.1 < u64_val x.1) as Hlt by (intros y Hy; apply Hsl; set_solver).
  unfold on_compact in *. simpl in *.
  rewrite (config_at_snoc _ _ l x to), (config_at_snoc _ _ l x i).
  rewrite filter_app, filter_cons, filter_nil.
  destruct (decide (u64_val x.1 ≤ u64_val to)); case_decide as Htx; simpl in *; try lia.
  - rewrite filter_nil_iff, decide_True by (lia || (intros y Hy; specialize (Hlt y Hy); lia)). done.
  - rewrite config_at_snoc. by case_decide.
Qed.
