(* ===== verification/RaftNode.v ===== *)
(** * brokkr-raft: the consensus node

    Models [crates/brokkr-raft/src/node.rs]: one Raft server as a record of the
    fields of [RaftNode] and one effect per method, over any durable store
    ([RaftStore]).  Methods that return messages to send return them as
    [Outbound] values, as in the source.  This file holds the definitions;
    [RaftNodeSpec.v] and the files after it state what they guarantee. *)

From stdpp Require Import prelude gmap strings pretty.
From S2P Require Import Prelude Machine Bytes RaftTypes RaftRng RaftWire RaftStore RaftConfig.

Local Open Scope N_scope.

(** ** Data *)

(** [Config]: the timing parameters. *)
Record NodeConfig : Type := mkNodeConfig {
  min_election_timeout : Duration;
  max_election_timeout : Duration;
  heartbeat_interval : Duration;
  snapshot_threshold : u64;
  catch_up_margin : u64
}.

Definition NodeConfig_default : NodeConfig :=
  mkNodeConfig (from_millis 150) (from_millis 300) (from_millis 50) (u64_sat 8192) (u64_sat 256).

Record PendingRead : Type := mkPendingRead {
  pr_id : u64;
  pr_read_index : LogIndex;
  pr_confirm_seq : u64;
  pr_acks : gset NodeId
}.

Record LeaderState : Type := mkLeaderState {
  next_index : gmap NodeId LogIndex;
  match_index : gmap NodeId LogIndex;
  ls_ae_seq : u64;
  term_start_index : LogIndex;
  pending_reads : list PendingRead
}.

Inductive Role : Type :=
| Follower
| Candidate (votes : gset NodeId)
| Leader (state : LeaderState).

Inductive Outbound : Type :=
| OutRequestVote (to : NodeId) (request : RequestVote)
| OutAppendEntries (to : NodeId) (request : AppendEntries)
| OutInstallSnapshot (to : NodeId) (request : InstallSnapshot).

(** [Result<LogIndex, RaftError>], the outcome of a linearizable read. *)
Definition ReadResult : Type := sum RaftError LogIndex.

Record RaftNode (L : Type) : Type := mkRaftNode {
  n_id : NodeId;
  n_configs : ConfigTracker;
  n_role : Role;
  n_log : L;
  n_hard : HardState;
  n_commit_index : LogIndex;
  n_snapshot : option SnapshotMeta;
  n_leader_id : option NodeId;
  n_last_leader_contact : option Instant;
  n_rng : Rng;
  n_config : NodeConfig;
  n_election_deadline : Instant;
  n_heartbeat_deadline : Instant;
  n_read_seq : u64;
  n_read_results : list (u64 * ReadResult)
}.

Arguments mkRaftNode {L}.
Arguments n_id {L}.
Arguments n_configs {L}.
Arguments n_role {L}.
Arguments n_log {L}.
Arguments n_hard {L}.
Arguments n_commit_index {L}.
Arguments n_snapshot {L}.
Arguments n_leader_id {L}.
Arguments n_last_leader_contact {L}.
Arguments n_rng {L}.
Arguments n_config {L}.
Arguments n_election_deadline {L}.
Arguments n_heartbeat_deadline {L}.
Arguments n_read_seq {L}.
Arguments n_read_results {L}.

(** Assignments to one field. *)
Section setters.
Context {L : Type}.
Implicit Types n : RaftNode L.

Definition set_configs x n := mkRaftNode (n_id n) x (n_role n) (n_log n) (n_hard n)
  (n_commit_index n) (n_snapshot n) (n_leader_id n) (n_last_leader_contact n) (n_rng n)
  (n_config n) (n_election_deadline n) (n_heartbeat_deadline n) (n_read_seq n) (n_read_results n).
Definition set_role x n := mkRaftNode (n_id n) (n_configs n) x (n_log n) (n_hard n)
  (n_commit_index n) (n_snapshot n) (n_leader_id n) (n_last_leader_contact n) (n_rng n)
  (n_config n) (n_election_deadline n) (n_heartbeat_deadline n) (n_read_seq n) (n_read_results n).
Definition set_log (x : L) n := mkRaftNode (n_id n) (n_configs n) (n_role n) x (n_hard n)
  (n_commit_index n) (n_snapshot n) (n_leader_id n) (n_last_leader_contact n) (n_rng n)
  (n_config n) (n_election_deadline n) (n_heartbeat_deadline n) (n_read_seq n) (n_read_results n).
Definition set_hard x n := mkRaftNode (n_id n) (n_configs n) (n_role n) (n_log n) x
  (n_commit_index n) (n_snapshot n) (n_leader_id n) (n_last_leader_contact n) (n_rng n)
  (n_config n) (n_election_deadline n) (n_heartbeat_deadline n) (n_read_seq n) (n_read_results n).
Definition set_commit_index x n := mkRaftNode (n_id n) (n_configs n) (n_role n) (n_log n) (n_hard n)
  x (n_snapshot n) (n_leader_id n) (n_last_leader_contact n) (n_rng n)
  (n_config n) (n_election_deadline n) (n_heartbeat_deadline n) (n_read_seq n) (n_read_results n).
Definition set_snapshot x n := mkRaftNode (n_id n) (n_configs n) (n_role n) (n_log n) (n_hard n)
  (n_commit_index n) x (n_leader_id n) (n_last_leader_contact n) (n_rng n)
  (n_config n) (n_election_deadline n) (n_heartbeat_deadline n) (n_read_seq n) (n_read_results n).
Definition set_leader_id x n := mkRaftNode (n_id n) (n_configs n) (n_role n) (n_log n) (n_hard n)
  (n_commit_index n) (n_snapshot n) x (n_last_leader_contact n) (n_rng n)
  (n_config n) (n_election_deadline n) (n_heartbeat_deadline n) (n_read_seq n) (n_read_results n).
Definition set_last_leader_contact x n := mkRaftNode (n_id n) (n_configs n) (n_role n) (n_log n)
  (n_hard n) (n_commit_index n) (n_snapshot n) (n_leader_id n) x (n_rng n)
  (n_config n) (n_election_deadline n) (n_heartbeat_deadline n) (n_read_seq n) (n_read_results n).
Definition set_election_timer r x n := mkRaftNode (n_id n) (n_configs n) (n_role n) (n_log n)
  (n_hard n) (n_commit_index n) (n_snapshot n) (n_leader_id n) (n_last_leader_contact n) r
  (n_config n) x (n_heartbeat_deadline n) (n_read_seq n) (n_read_results n).
Definition set_heartbeat_deadline x n := mkRaftNode (n_id n) (n_configs n) (n_role n) (n_log n)
  (n_hard n) (n_commit_index n) (n_snapshot n) (n_leader_id n) (n_last_leader_contact n) (n_rng n)
  (n_config n) (n_election_deadline n) x (n_read_seq n) (n_read_results n).
Definition set_read_seq x n := mkRaftNode (n_id n) (n_configs n) (n_role n) (n_log n) (n_hard n)
  (n_commit_index n) (n_snapshot n) (n_leader_id n) (n_last_leader_contact n) (n_rng n)
  (n_config n) (n_election_deadline n) (n_heartbeat_deadline n) x (n_read_results n).
Definition set_read_results x n := mkRaftNode (n_id n) (n_configs n) (n_role n) (n_log n) (n_hard n)
  (n_commit_index n) (n_snapshot n) (n_leader_id n) (n_last_leader_contact n) (n_rng n)
  (n_config n) (n_election_deadline n) (n_heartbeat_deadline n) (n_read_seq n) x.
End setters.

Definition set_match_index x (s : LeaderState) : LeaderState :=
  mkLeaderState (next_index s) x (ls_ae_seq s) (term_start_index s) (pending_reads s).
Definition set_next_index x (s : LeaderState) : LeaderState :=
  mkLeaderState x (match_index s) (ls_ae_seq s) (term_start_index s) (pending_reads s).
Definition set_ae_seq x (s : LeaderState) : LeaderState :=
  mkLeaderState (next_index s) (match_index s) x (term_start_index s) (pending_reads s).
Definition set_pending_reads x (s : LeaderState) : LeaderState :=
  mkLeaderState (next_index s) (match_index s) (ls_ae_seq s) (term_start_index s) x.

(** ** Methods *)

Section node.
Context {L : Type} `{RaftStore L}.

Notation M := (eff (RaftNode L) RaftError).
Implicit Types n : RaftNode L.

(** A call on [self.log]. *)
Definition on_log {A} (m : eff L RaftError A) : M A := zoom n_log set_log m.

Definition is_leader n : bool := match n_role n with Leader _ => true | _ => false end.
Definition is_candidate n : bool := match n_role n with Candidate _ => true | _ => false end.
Definition is_follower n : bool := match n_role n with Follower => true | _ => false end.

Definition node_term n : Term := current_term (n_hard n).
Definition active_config n : ClusterConfig := active (n_configs n).

(** Read-only accessors that consult the log. *)
Definition last_log_index : M LogIndex := on_log st_last_index.
Definition log_entry (index : LogIndex) : M (option LogEntry) := on_log (st_get index).
Definition node_snapshot : M (option (SnapshotMeta * bytes)) := on_log st_snapshot.
Definition first_log_index : M LogIndex := on_log st_first_index.

Definition snapshot_index n : LogIndex :=
  match n_snapshot n with Some m => last_included_index m | None => LogIndex_ZERO end.

Definition vote_members (c : ClusterConfig) : gset NodeId :=
  voters c ∪ match old_voters c with Some old => old | None => ∅ end.

Definition replication_members (c : ClusterConfig) : gset NodeId := vote_members c ∪ learners c.

Definition replication_targets n : list NodeId :=
  node_iter (replication_members (active_config n) ∖ {[n_id n]}).

Definition vote_targets n : list NodeId :=
  node_iter (vote_members (active_config n) ∖ {[n_id n]}).

Definition term_at (index : LogIndex) : M (option Term) :=
  e ← on_log (st_get index);
  match e with
  | Some entry => mret (Some (le_term entry))
  | None =>
      s ← gets n_snapshot;
      mret (match s with
            | Some meta =>
                if decide (last_included_index meta = index)
                then Some (last_included_term meta) else None
            | None => None
            end)
  end.

Definition is_voter n : bool :=
  bool_decide (n_id n ∈ voters (active_config n)) ||
  match old_voters (active_config n) with
  | Some old => bool_decide (n_id n ∈ old)
  | None => false
  end.

Definition arm_election_timer (now : Instant) : M () :=
  modify (λ n,
    let '(timeout, r) := election_timeout (n_rng n)
      (min_election_timeout (n_config n)) (max_election_timeout (n_config n)) in
    set_election_timer r (now + timeout) n).

Definition arm_heartbeat_timer (now : Instant) : M () :=
  modify (λ n, set_heartbeat_deadline (now + heartbeat_interval (n_config n)) n).

Definition step_down_to_follower : M () :=
  modify (λ n,
    set_role Follower
      match n_role n with
      | Leader state =>
          set_read_results
            (n_read_results n ++
             ((λ read, (pr_id read, inl (NotLeader None))) <$> pending_reads state)) n
      | _ => n
      end).

Definition observe_term (term : Term) (now : Instant) : M bool :=
  h ← gets n_hard;
  if current_term h <? term then
    modify (set_hard (stepped_to h term));;
    step_down_to_follower;;
    modify (set_leader_id None);;
    on_log (st_save_hard_state (stepped_to h term));;
    arm_election_timer now;;
    mret true
  else mret false.

(** *** Replication *)

Definition append_entries_for (peer : NodeId) (next : LogIndex) (seq : u64) : M Outbound :=
  n ← gets id;
  if next <=? snapshot_index n then
    s ← on_log st_snapshot;
    match s with
    | None => throw (Snapshot "snapshot metadata cached but blob missing")
    | Some (meta, data) =>
        mret (OutInstallSnapshot peer
          (mkInstallSnapshot (node_term n) (n_id n) (last_included_index meta)
             (last_included_term meta) u64_0 data true (snap_config meta)))
    end
  else
    let prev_log_index := LogIndex_prev next in
    prev_log_term ←
      (if decide (prev_log_index = LogIndex_ZERO) then mret Term_ZERO
       else t ← term_at prev_log_index; mret (default Term_ZERO t));
    entries ← on_log (st_entries_from next);
    mret (OutAppendEntries peer
      (mkAppendEntries (node_term n) (n_id n) prev_log_index prev_log_term entries
         (n_commit_index n) seq)).

(** The first block of [replicate_all]: each target with its [nextIndex] and a
    fresh sequence number. *)
Fixpoint make_plans (targets : list NodeId) (state : LeaderState)
    : list (NodeId * LogIndex * u64) * LeaderState :=
  match targets with
  | [] => ([], state)
  | peer :: targets =>
      let next := default u64_1 (next_index state !! peer) in
      let seq := wrapping_add (ls_ae_seq state) u64_1 in
      let '(plans, state') := make_plans targets (set_ae_seq seq state) in
      ((peer, next, seq) :: plans, state')
  end.

Definition replicate_all : M (list Outbound) :=
  n ← gets id;
  match n_role n with
  | Leader state =>
      let '(plans, state') := make_plans (replication_targets n) state in
      modify (set_role (Leader state'));;
      mapM (λ '(peer, next, seq), append_entries_for peer next seq) plans
  | _ => mret []
  end.

Definition replicate_to (peer : NodeId) : M (list Outbound) :=
  r ← gets n_role;
  match r with
  | Leader state =>
      let next := default u64_1 (next_index state !! peer) in
      let seq := wrapping_add (ls_ae_seq state) u64_1 in
      modify (set_role (Leader (set_ae_seq seq state)));;
      out ← append_entries_for peer next seq;
      mret [out]
  | _ => mret []
  end.

(** [entry(target).or_insert(v)] for every target. *)
Definition or_insert_all (targets : list NodeId) (v : LogIndex) (m : gmap NodeId LogIndex)
    : gmap NodeId LogIndex :=
  foldl (λ m target, match m !! target with Some _ => m | None => <[target := v]> m end) m targets.

Definition refresh_leader_state : M () :=
  targets ← gets replication_targets;
  last ← on_log st_last_index;
  let optimistic_next := LogIndex_next last in
  r ← gets n_role;
  match r with
  | Leader state =>
      let next := or_insert_all targets optimistic_next
        (filter (λ p, p.1 ∈ targets) (next_index state)) in
      let matched := or_insert_all targets LogIndex_ZERO
        (filter (λ p, p.1 ∈ targets) (match_index state)) in
      modify (set_role (Leader (set_match_index matched (set_next_index next state))))
  | _ => mret ()
  end.

(** *** Committing *)

(** [match_index.iter().filter(|(_, m)| **m >= n)] plus the leader itself. *)
Definition acks_at (self : NodeId) (i : LogIndex) (matched : gmap NodeId LogIndex) : gset NodeId :=
  {[self]} ∪ dom (filter (λ p, u64_val i ≤ u64_val p.2) matched).

(** The [while n > self.commit_index] loop of [advance_commit_index], from [i]
    down.  [fuel] bounds the number of iterations. *)
Fixpoint commit_scan (fuel : nat) (i : LogIndex) (state : LeaderState) : M LogIndex :=
  match fuel with
  | O => halt
  | S fuel =>
      n ← gets id;
      if n_commit_index n <? i then
        if has_quorum (active_config n) (acks_at (n_id n) i (match_index state)) then
          e ← on_log (st_get i);
          let term_i := match e with Some e => le_term e | None => Term_ZERO end in
          if decide (term_i = node_term n) then mret i
          else commit_scan fuel (LogIndex_prev i) state
        else commit_scan fuel (LogIndex_prev i) state
      else mret (n_commit_index n)
  end.

(** [append_config_entry], over the [advance_commit_index] it calls. *)
Definition append_config_entry_with (advance : Instant → M (list Outbound))
    (config : ClusterConfig) (now : Instant) : M (list Outbound) :=
  last ← on_log st_last_index;
  let index := LogIndex_next last in
  h ← gets n_hard;
  on_log (st_append (LogEntry_with_payload (current_term h) index (Config config)));;
  modify (λ n, set_configs (on_append index config (n_configs n)) n);;
  refresh_leader_state;;
  outs ← advance now;
  outs' ← replicate_all;
  mret (outs ++ outs').

Definition after_commit_config_actions_with (advance : Instant → M (list Outbound))
    (now : Instant) : M (list Outbound) :=
  n ← gets id;
  if negb (is_leader n) then mret []
  else if n_commit_index n <? latest_index (n_configs n) then mret []
  else
    let active := active_config n in
    if is_joint active then
      append_config_entry_with advance
        (mkClusterConfig (voters active) None (learners active)) now
    else if bool_decide (n_id n ∈ voters active) then mret []
    else
      step_down_to_follower;;
      modify (set_leader_id None);;
      arm_election_timer now;;
      mret [].

(** [advance_commit_index] calls itself through the follow-ups of a committed
    configuration; [fuel] bounds the depth of that recursion. *)
Fixpoint advance_commit_index_fuel (fuel : nat) (now : Instant) : M (list Outbound) :=
  match fuel with
  | O => halt
  | S fuel =>
      last ← on_log st_last_index;
      n ← gets id;
      match n_role n with
      | Leader state =>
          new_commit ← commit_scan (S (N.to_nat (u64_val last))) last state;
          if decide (new_commit = n_commit_index n) then mret []
          else
            modify (set_commit_index new_commit);;
            after_commit_config_actions_with (advance_commit_index_fuel fuel) now
      | _ => mret []
      end
  end.

(** A committed joint configuration is followed by one that is not joint, which
    is followed by none: two levels. *)
Definition advance_commit_index : Instant → M (list Outbound) := advance_commit_index_fuel 2.

Definition after_commit_config_actions : Instant → M (list Outbound) :=
  after_commit_config_actions_with advance_commit_index.

Definition append_config_entry : ClusterConfig → Instant → M (list Outbound) :=
  append_config_entry_with advance_commit_index.

(** *** Elections *)

Definition fresh_indices (targets : list NodeId) (v : LogIndex) : gmap NodeId LogIndex :=
  foldl (λ m peer, <[peer := v]> m) ∅ targets.

Definition become_leader (now : Instant) : M (list Outbound) :=
  last ← on_log st_last_index;
  n ← gets id;
  let targets := replication_targets n in
  let noop_index := LogIndex_next last in
  on_log (st_append (LogEntry_with_payload (node_term n) noop_index Noop));;
  modify (set_role (Leader (mkLeaderState (fresh_indices targets (LogIndex_next last))
    (fresh_indices targets LogIndex_ZERO) u64_0 noop_index [])));;
  modify (set_leader_id (Some (n_id n)));;
  arm_heartbeat_timer now;;
  outs ← advance_commit_index now;
  outs' ← replicate_all;
  mret (outs ++ outs').

Definition start_election (now : Instant) : M (list Outbound) :=
  n ← gets id;
  let new_term := Term_next (node_term n) in
  let h := voting_for (stepped_to (n_hard n) new_term) (n_id n) in
  modify (set_hard h);;
  on_log (st_save_hard_state h);;
  let votes : gset NodeId := {[n_id n]} in
  let self_quorum := has_quorum (active_config n) votes in
  modify (set_role (Candidate votes));;
  modify (set_leader_id None);;
  arm_election_timer now;;
  if self_quorum then become_leader now
  else
    p ← on_log st_last_index_and_term;
    let request := mkRequestVote new_term (n_id n) p.1 p.2 in
    mret ((λ peer, OutRequestVote peer request) <$> vote_targets n).

Definition tick (now : Instant) : M (list Outbound) :=
  n ← gets id;
  if is_leader n then
    if n_heartbeat_deadline n <=? now then
      arm_heartbeat_timer now;; replicate_all
    else mret []
  else if n_election_deadline n <=? now then
    if negb (is_voter n) then arm_election_timer now;; mret []
    else start_election now
  else mret [].

Definition leader_is_current (now : Instant) n : bool :=
  is_leader n ||
  match n_last_leader_contact n with
  | Some contact => duration_since now contact <? min_election_timeout (n_config n)
  | None => false
  end.

(** [(candidate_last_term, candidate_last_index) >= (our_term, our_index)],
    lexicographically. *)
Definition candidate_is_up_to_date (last_term : Term) (last_index : LogIndex) : M bool :=
  p ← on_log st_last_index_and_term;
  let our_index := p.1 in
  let our_term := p.2 in
  mret ((u64_val our_term <? u64_val last_term) ||
        (u64_val our_term =? u64_val last_term) && (u64_val our_index <=? u64_val last_index)).

Definition handle_request_vote (request : RequestVote) (now : Instant) : M RequestVoteResponse :=
  n ← gets id;
  if leader_is_current now n then mret (mkRequestVoteResponse (node_term n) false)
  else
    observe_term (rv_term request) now;;
    h ← gets n_hard;
    let term := current_term h in
    if rv_term request <? term then mret (mkRequestVoteResponse term false)
    else
      let free_to_vote :=
        match voted_for h with
        | None => true
        | Some voted => bool_decide (voted = rv_candidate_id request)
        end in
      up_to_date ← candidate_is_up_to_date (rv_last_log_term request) (rv_last_log_index request);
      if free_to_vote && up_to_date then
        modify (set_hard (voting_for h (rv_candidate_id request)));;
        on_log (st_save_hard_state (voting_for h (rv_candidate_id request)));;
        arm_election_timer now;;
        mret (mkRequestVoteResponse term true)
      else mret (mkRequestVoteResponse term false).

Definition handle_request_vote_response (from : NodeId) (response : RequestVoteResponse)
    (now : Instant) : M (list Outbound) :=
  stepped ← observe_term (rvr_term response) now;
  if (stepped : bool) then mret []
  else
    n ← gets id;
    if negb (u64_val (rvr_term response) =? node_term n) then mret []
    else
      match n_role n with
      | Candidate votes =>
          let votes := if rvr_vote_granted response then {[from]} ∪ votes else votes in
          modify (set_role (Candidate votes));;
          if has_quorum (active_config n) votes then become_leader now else mret []
      | _ => mret []
      end.

(** *** AppendEntries, receiver side *)

Definition reject (term : Term) (seq : u64) : AppendEntriesResponse :=
  mkAppendEntriesResponse term false Term_ZERO LogIndex_ZERO LogIndex_ZERO seq.

Definition log_matches (prev_index : LogIndex) (prev_term : Term) : M bool :=
  n ← gets id;
  if decide (prev_index = LogIndex_ZERO) then mret true
  else if prev_index <? snapshot_index n then mret true
  else t ← term_at prev_index; mret (bool_decide (t = Some prev_term)).

(** The [while first > 1] loop of [conflict_hint]. *)
Fixpoint conflict_scan (fuel : nat) (conflict_term : Term) (first : LogIndex) : M LogIndex :=
  match fuel with
  | O => halt
  | S fuel =>
      if 1 <? first then
        let candidate := LogIndex_prev first in
        e ← on_log (st_get candidate);
        match e with
        | Some e =>
            if decide (le_term e = conflict_term) then conflict_scan fuel conflict_term candidate
            else mret first
        | None => mret first
        end
      else mret first
  end.

Definition conflict_hint (prev_index : LogIndex) : M (Term * LogIndex) :=
  last ← on_log st_last_index;
  if u64_val last <? prev_index then mret (Term_ZERO, LogIndex_next last)
  else
    e ← on_log (st_get prev_index);
    let conflict_term := match e with Some e => le_term e | None => Term_ZERO end in
    first ← conflict_scan (S (N.to_nat (u64_val prev_index))) conflict_term prev_index;
    mret (conflict_term, first).

Definition note_appended_configs (entries : list LogEntry) : M () :=
  modify (λ n, set_configs (note_configs entries (n_configs n)) n).

(** The [for (i, entry) in entries.iter().enumerate()] loop: the list is
    [entries[i..]]. *)
Fixpoint append_new_entries_from (snapshot_index : LogIndex) (entries : list LogEntry) : M () :=
  match entries with
  | [] => mret ()
  | entry :: rest =>
      if le_index entry <=? snapshot_index then append_new_entries_from snapshot_index rest
      else
        e ← on_log (st_get (le_index entry));
        match e with
        | Some existing =>
            if decide (le_term existing = le_term entry) then
              append_new_entries_from snapshot_index rest
            else
              on_log (st_truncate_from (le_index entry));;
              modify (λ n, set_configs (on_truncate (le_index entry) (n_configs n)) n);;
              on_log (st_append_all entries);;
              note_appended_configs entries
        | None =>
            on_log (st_append_all entries);;
            note_appended_configs entries
        end
  end.

Definition append_new_entries (entries : list LogEntry) : M () :=
  i ← gets snapshot_index; append_new_entries_from i entries.

Definition handle_append_entries (request : AppendEntries) (now : Instant)
    : M AppendEntriesResponse :=
  observe_term (ae_term request) now;;
  term ← gets node_term;
  if ae_term request <? u64_val term then mret (reject term (ae_seq request))
  else
    step_down_to_follower;;
    modify (set_leader_id (Some (ae_leader_id request)));;
    modify (set_last_leader_contact (Some now));;
    arm_election_timer now;;
    matches ← log_matches (ae_prev_log_index request) (ae_prev_log_term request);
    if negb matches then
      hint ← conflict_hint (ae_prev_log_index request);
      mret (mkAppendEntriesResponse term false hint.1 hint.2 LogIndex_ZERO (ae_seq request))
    else
      append_new_entries (ae_entries request);;
      let match_index :=
        u64_wrap (ae_prev_log_index request + N.of_nat (length (ae_entries request))) in
      commit ← gets n_commit_index;
      (if u64_val commit <? ae_leader_commit request then
         modify (set_commit_index
           (if ae_leader_commit request <=? match_index then ae_leader_commit request
            else match_index))
       else mret ());;
      mret (mkAppendEntriesResponse term true Term_ZERO LogIndex_ZERO match_index (ae_seq request)).

(** *** AppendEntries, leader side *)

(** One step of the [retain_mut] closure of [note_leadership_ack]. *)
Definition credit_read (active : ClusterConfig) (from : NodeId) (seq : u64) (read : PendingRead)
    : sum (u64 * ReadResult) PendingRead :=
  let acks := if pr_confirm_seq read <=? seq then {[from]} ∪ pr_acks read else pr_acks read in
  if has_quorum active acks then inl (pr_id read, inr (pr_read_index read))
  else inr (mkPendingRead (pr_id read) (pr_read_index read) (pr_confirm_seq read) acks).

Fixpoint credit_reads (active : ClusterConfig) (from : NodeId) (seq : u64) (reads : list PendingRead)
    : list (u64 * ReadResult) * list PendingRead :=
  match reads with
  | [] => ([], [])
  | read :: reads =>
      let '(ready, kept) := credit_reads active from seq reads in
      match credit_read active from seq read with
      | inl r => (r :: ready, kept)
      | inr read' => (ready, read' :: kept)
      end
  end.

Definition note_leadership_ack (from : NodeId) (seq : u64) : M () :=
  modify (λ n,
    match n_role n with
    | Leader state =>
        let '(ready, kept) := credit_reads (active_config n) from seq (pending_reads state) in
        set_read_results (n_read_results n ++ ready)
          (set_role (Leader (set_pending_reads kept state)) n)
    | _ => n
    end).

Definition record_match (peer : NodeId) (index : LogIndex) : M () :=
  modify (λ n,
    match n_role n with
    | Leader state =>
        let entry := default LogIndex_ZERO (match_index state !! peer) in
        let matched := <[peer := if entry <? index then index else entry]> (match_index state) in
        let next := <[peer := LogIndex_next index]> (next_index state) in
        set_role (Leader (set_next_index next (set_match_index matched state))) n
    | _ => n
    end).

Definition back_off (peer : NodeId) (conflict_index : LogIndex) : M () :=
  modify (λ n,
    match n_role n with
    | Leader state =>
        let target := if conflict_index <=? 1 then u64_1 else conflict_index in
        set_role (Leader (set_next_index (<[peer := target]> (next_index state)) state)) n
    | _ => n
    end).

Definition peer_is_behind (peer : NodeId) : M bool :=
  r ← gets n_role;
  match r with
  | Leader state =>
      let next := default u64_1 (next_index state !! peer) in
      last ← on_log st_last_index;
      mret (next <=? u64_val last)
  | _ => mret false
  end.

(** The tail [handle_append_entries_response] and
    [handle_install_snapshot_response] share: try to commit, then keep
    replicating to a peer that is still behind. *)
Definition advance_and_replicate (from : NodeId) (now : Instant) : M (list Outbound) :=
  outs ← advance_commit_index now;
  behind ← peer_is_behind from;
  if (behind : bool) then outs' ← replicate_to from; mret (outs ++ outs') else mret outs.

Definition handle_append_entries_response (from : NodeId) (response : AppendEntriesResponse)
    (now : Instant) : M (list Outbound) :=
  stepped ← observe_term (aer_term response) now;
  if (stepped : bool) then mret []
  else
    n ← gets id;
    if negb (u64_val (aer_term response) =? node_term n) || negb (is_leader n) then mret []
    else
      note_leadership_ack from (aer_seq response);;
      if aer_success response then
        record_match from (aer_match_index response);;
        advance_and_replicate from now
      else
        back_off from (aer_conflict_index response);;
        replicate_to from.

(** *** Snapshots *)

Definition handle_install_snapshot (request : InstallSnapshot) (now : Instant)
    : M InstallSnapshotResponse :=
  observe_term (is_term request) now;;
  term ← gets node_term;
  if is_term request <? u64_val term then mret (mkInstallSnapshotResponse term)
  else if negb (u64_val (is_offset request) =? 0) || negb (is_done request) then
    throw (Snapshot "chunked InstallSnapshot is not supported (single-shot only)")
  else
    step_down_to_follower;;
    modify (set_leader_id (Some (is_leader_id request)));;
    modify (set_last_leader_contact (Some now));;
    arm_election_timer now;;
    n ← gets id;
    if (is_last_included_index request <=? snapshot_index n)
       || (is_last_included_index request <=? n_commit_index n)
    then mret (mkInstallSnapshotResponse term)
    else
      let meta := mkSnapshotMeta (is_last_included_index request)
        (is_last_included_term request) (is_config request) in
      e ← on_log (st_get (last_included_index meta));
      let basis_matches := bool_decide (le_term <$> e = Some (last_included_term meta)) in
      (if basis_matches then on_log (st_compact_to meta (is_data request))
       else on_log (st_install_snapshot_replacing_log meta (is_data request)));;
      modify (λ n, set_configs (on_install_snapshot (is_config request)
        (last_included_index meta) (negb basis_matches) (n_configs n)) n);;
      modify (set_commit_index (last_included_index meta));;
      modify (set_snapshot (Some meta));;
      mret (mkInstallSnapshotResponse term).

Definition handle_install_snapshot_response (from : NodeId) (response : InstallSnapshotResponse)
    (now : Instant) : M (list Outbound) :=
  stepped ← observe_term (isr_term response) now;
  if (stepped : bool) then mret []
  else
    n ← gets id;
    if negb (u64_val (isr_term response) =? node_term n) || negb (is_leader n) then mret []
    else
      match n_snapshot n with
      | None => mret []
      | Some meta =>
          record_match from (last_included_index meta);;
          advance_and_replicate from now
      end.

Definition needs_snapshot n : bool :=
  snapshot_threshold (n_config n) <? saturating_sub (n_commit_index n) (snapshot_index n).

Definition compact (data : bytes) : M SnapshotMeta :=
  n ← gets id;
  let index := n_commit_index n in
  if (u64_val index =? 0) || (index <=? snapshot_index n) then
    throw (Snapshot ("nothing to compact: commit index " +:+ pretty (u64_val index) +:+
      ", snapshot already at " +:+ pretty (u64_val (snapshot_index n))))
  else
    t ← term_at index;
    match t with
    | None => throw (Snapshot ("no term known for committed index " +:+ pretty (u64_val index)))
    | Some term =>
        let meta := mkSnapshotMeta index term (config_at index (n_configs n)) in
        on_log (st_compact_to meta data);;
        modify (set_snapshot (Some meta));;
        modify (λ n, set_configs (on_compact index (n_configs n)) n);;
        mret meta
    end.

(** *** Client interface *)

Definition not_leader n : RaftError := NotLeader (as_str <$> n_leader_id n).

Definition propose (command : bytes) (now : Instant) : M (list Outbound) :=
  n ← gets id;
  if negb (is_leader n) then throw (not_leader n)
  else
    last ← on_log st_last_index;
    on_log (st_append (LogEntry_new (node_term n) (LogIndex_next last) command));;
    outs ← advance_commit_index now;
    outs' ← replicate_all;
    mret (outs ++ outs').

Definition start_read (now : Instant) : M (u64 * list Outbound) :=
  n ← gets id;
  if negb (is_leader n) then throw (not_leader n)
  else
    let id := wrapping_add (n_read_seq n) u64_1 in
    modify (set_read_seq id);;
    let self_is_quorum := has_quorum (active_config n) {[n_id n]} in
    match n_role n with
    | Leader state =>
        let read_index :=
          if term_start_index state <=? n_commit_index n then n_commit_index n
          else term_start_index state in
        if self_is_quorum then
          modify (λ n, set_read_results (n_read_results n ++ [(id, inr read_index)]) n);;
          mret (id, [])
        else
          let read := mkPendingRead id read_index (wrapping_add (ls_ae_seq state) u64_1)
            {[n_id n]} in
          modify (set_role (Leader (set_pending_reads (pending_reads state ++ [read]) state)));;
          outs ← replicate_all;
          mret (id, outs)
    | _ => halt
    end.

Definition drain_read_results : M (list (u64 * ReadResult)) :=
  rs ← gets n_read_results; modify (set_read_results []);; mret rs.

(** The catch-up gate's loop: the first added voter that lags, with how far it
    has got. *)
Definition first_lagging (floor : LogIndex) (matched : gmap NodeId LogIndex) (added : list NodeId)
    : option (NodeId * LogIndex) :=
  head (filter (λ p, u64_val p.2 < u64_val floor)
    ((λ a, (a, default LogIndex_ZERO (matched !! a))) <$> added)).

Definition change_in_flight n : bool :=
  is_joint (active_config n) || (n_commit_index n <? latest_index (n_configs n)).

Definition propose_conf_change (new_voters : gset NodeId) (now : Instant) : M (list Outbound) :=
  n ← gets id;
  let active := active_config n in
  if negb (is_leader n) then throw (not_leader n)
  else if bool_decide (new_voters = ∅) then
    throw (ConfChange "the new configuration must have at least one voter")
  else if change_in_flight n then
    throw (ConfChange "a configuration change is already in flight (one at a time)")
  else if bool_decide (new_voters = voters active) then
    throw (ConfChange "the new configuration is identical to the current one")
  else
    last ← on_log st_last_index;
    let floor := saturating_sub last (catch_up_margin (n_config n)) in
    let lagging :=
      match n_role n with
      | Leader state =>
          first_lagging floor (match_index state) (node_iter (new_voters ∖ voters active))
      | _ => None
      end in
    match lagging with
    | Some (added, matched) =>
        throw (ConfChange ("voter " +:+ as_str added +:+ " is not caught up (replicated to " +:+
          pretty (u64_val matched) +:+ ", leader log at " +:+ pretty (u64_val last) +:+
          "); add it as a learner first"))
    | None =>
        append_config_entry
          (mkClusterConfig new_voters (Some (voters active)) (learners active ∖ new_voters)) now
    end.

Definition propose_add_learner (id : NodeId) (now : Instant) : M (list Outbound) :=
  n ← gets (λ n, n);
  let active := active_config n in
  if negb (is_leader n) then throw (not_leader n)
  else if change_in_flight n then
    throw (ConfChange "a configuration change is already in flight (one at a time)")
  else if bool_decide (id ∈ voters active) then
    throw (ConfChange (as_str id +:+ " is already a voter"))
  else if bool_decide (id ∈ learners active) then
    throw (ConfChange (as_str id +:+ " is already a learner"))
  else
    append_config_entry
      (mkClusterConfig (voters active) (old_voters active) ({[id]} ∪ learners active)) now.

(** *** Construction *)

(** [with_bootstrap]: an effect on the log it is given, returning the node. *)
Definition with_bootstrap (id : NodeId) (bootstrap : ClusterConfig) (log : L) (rng : Rng)
    (config : NodeConfig) (now : Instant) : L * outcome RaftError (RaftNode L) :=
  (hard ← st_load_hard_state;
   snapshot ← st_snapshot_meta;
   let commit_floor :=
     match snapshot with Some m => last_included_index m | None => LogIndex_ZERO end in
   let base :=
     match snapshot with
     | Some m => if bool_decide (voters (snap_config m) = ∅) then bootstrap else snap_config m
     | None => bootstrap
     end in
   let configs := ConfigTracker_new base commit_floor in
   first ← st_first_index;
   configs ←
     (if decide (first = LogIndex_ZERO) then mret configs
      else entries ← st_entries_from first; mret (note_configs entries configs));
   log ← gets (λ l, l);
   let node := mkRaftNode id configs Follower log hard commit_floor snapshot None None rng config
     now now u64_0 [] in
   mret (arm_election_timer now node).1) log.

Definition RaftNode_new (id : NodeId) (peers : list NodeId) (log : L) (rng : Rng)
    (config : NodeConfig) (now : Instant) : L * outcome RaftError (RaftNode L) :=
  with_bootstrap id (ClusterConfig_single ({[id]} ∪ list_to_set peers)) log rng config now.

Definition RaftNode_new_learner (id : NodeId) (voters : list NodeId) (log : L) (rng : Rng)
    (config : NodeConfig) (now : Instant) : L * outcome RaftError (RaftNode L) :=
  with_bootstrap id (mkClusterConfig (list_to_set voters) None {[id]}) log rng config now.

End node.
