(* ===== verification/RaftNodeSpec.v ===== *)
(** * brokkr-raft: the node's invariant and its building blocks

    The invariant of a [RaftNode] over any store that meets its contract, the
    relation between the node before and after a call, the proof rules for
    calls on the log, and the specifications of the methods the handlers are
    built from: term handling, replication, the commit rule, configuration
    follow-ups and the receiver's log operations. *)

From stdpp Require Import prelude gmap strings.
From Stdlib Require Import Lia.
From S2P Require Import Prelude Machine Bytes RaftTypes RaftRng RaftWire RaftStore RaftConfig RaftNode.

Local Open Scope N_scope.

(** ** What must hold of the durable state *)

Definition config_good (c : ClusterConfig) : Prop := config_canonical c ∧ voters c ≠ ∅.

(** Commands short enough for the length prefixes of every encoding of them. *)
Definition command_max : N := 2 ^ 32.

Definition command_ok (c : bytes) : Prop := N.of_nat (length c) < command_max.

(** An entry a log may hold. *)
Definition entry_ok (e : LogEntry) : Prop :=
  entry_canonical e ∧ match le_payload e with Command c => command_ok c | _ => True end.

Lemma entry_ok_canonical es : Forall entry_ok es → Forall entry_canonical es.
Proof. intros Hes. eapply Forall_impl; [exact Hes|]. by intros e []. Qed.

Record durable_ok (v : LogView) : Prop := {
  d_contig : contiguous v;
  d_canon i e : v_entries v !! i = Some e → entry_ok e;
  d_terms i e : v_entries v !! i = Some e → u64_val (le_term e) ≤ current_term (v_hard v);
  d_snap m d : v_snapshot v = Some (m, d) →
    config_good (snap_config m) ∧ u64_val (last_included_term m) ≤ current_term (v_hard v)
}.

Lemma durable_empty : durable_ok view_empty.
Proof. split; [apply contiguous_empty|intros i e; simpl; by rewrite lookup_empty..|done]. Qed.

(** A server's term only grows, and within a term its vote, once cast, stays. *)
Definition hard_le (h h' : HardState) : Prop :=
  u64_val (current_term h) < current_term h' ∨
  (current_term h = current_term h' ∧ (voted_for h = None ∨ voted_for h' = voted_for h)).

#[export] Instance hard_le_refl : Reflexive hard_le.
Proof. intros h. right. auto. Qed.

#[export] Instance hard_le_trans : Transitive hard_le.
Proof.
  intros h1 h2 h3 [H12|[E12 V12]] [H23|[E23 V23]]; unfold hard_le; rewrite ?E12, ?E23 in *;
    [left; lia|by left|by left|]. right. split; [done|]. destruct V12 as [?|V]; [by left|].
  destruct V23 as [?|V']; [left|right]; congruence.
Qed.

Lemma hard_le_stepped h (t : Term) : u64_val (current_term h) < t → hard_le h (stepped_to h t).
Proof. by left. Qed.

Lemma hard_le_term h h' : hard_le h h' → u64_val (current_term h) ≤ current_term h'.
Proof. intros [?|[-> _]]; lia. Qed.

(** ** Well-formed requests

    What a leader built from a healthy log puts into a message, and what the
    receiver relies on without checking. *)

Definition ae_wf (r : AppendEntries) : Prop :=
  numbered_from (ae_prev_log_index r + 1) (ae_entries r) ∧
  Forall entry_ok (ae_entries r) ∧
  Forall (λ e, u64_val (le_term e) ≤ ae_term r) (ae_entries r).

Definition is_wf (r : InstallSnapshot) : Prop :=
  config_good (is_config r) ∧ u64_val (is_last_included_term r) ≤ is_term r.

(** The leader's commit index never points beyond the entries it sends along. *)
Definition ae_commit_wf (r : AppendEntries) : Prop :=
  u64_val (ae_leader_commit r) ≤ ae_prev_log_index r + N.of_nat (length (ae_entries r)).

(** ** The node *)

(** The configuration a server was first started with. *)
Class Bootstrap : Type := {
  boot : ClusterConfig;
  boot_good : config_good boot
}.

Section spec.
Context {L : Type} `{RaftStoreSpec L} `{!Bootstrap}.

Implicit Types n : RaftNode L.

Definition view n : LogView := store_view (n_log n).

Definition base_of (v : LogView) : ClusterConfig :=
  match v_snapshot v with Some (m, _) => snap_config m | None => boot end.

(** A candidate or leader has voted for itself; a leader's term is not the
    initial one, and from its start-of-term no-op on every entry is its own. *)
Definition role_ok n : Prop :=
  match n_role n with
  | Follower => True
  | Candidate votes =>
      voted_for (n_hard n) = Some (n_id n) ∧ n_id n ∈ votes ∧ 0 < node_term n
  | Leader state =>
      voted_for (n_hard n) = Some (n_id n) ∧ 0 < node_term n ∧
      map_Forall (λ _ next, 0 < u64_val next) (next_index state) ∧
      0 < term_start_index state ≤ view_last_index (view n) ∧
      (∀ i e, u64_val (term_start_index state) ≤ i → v_entries (view n) !! i = Some e →
         le_term e = node_term n)
  end.

Record node_inv n : Prop := {
  i_store : store_ok (n_log n);
  i_dur : durable_ok (view n);
  i_hard : v_hard (view n) = n_hard n;
  i_snap : n_snapshot n = fst <$> v_snapshot (view n);
  i_tracks : tracks (n_configs n) (v_entries (view n));
  i_base : base (n_configs n) = base_of (view n);
  i_base_index : u64_val (base_index (n_configs n)) = view_snap_index (view n);
  i_role : role_ok n
}.

(** The commit index lies between the snapshot and the end of the log. *)
Definition commit_ok n : Prop :=
  view_snap_index (view n) ≤ n_commit_index n ≤ view_last_index (view n).

Record ext n n' : Prop := {
  e_id : n_id n' = n_id n;
  e_config : n_config n' = n_config n;
  e_hard : hard_le (n_hard n) (n_hard n');
  e_commit : commit_ok n → commit_ok n' ∧ u64_val (n_commit_index n) ≤ n_commit_index n'
}.

#[export] Instance ext_refl : Reflexive ext.
Proof. intros n. by split. Qed.

#[export] Instance ext_trans : Transitive ext.
Proof.
  intros n1 n2 n3 [Hi Hc Hh He] [Hi' Hc' Hh' He']. split; [congruence..|by etrans|].
  intros Hok. destruct (He Hok) as [Hok2 ?]. destruct (He' Hok2) as [Hok3 ?]. split; [done|lia].
Qed.

(** Nothing campaigns and nobody is elected. *)
Definition quiet n n' : Prop :=
  (∀ votes, n_role n' = Candidate votes → n_role n = Candidate votes ∧ n_hard n' = n_hard n) ∧
  (is_leader n' = true → is_leader n = true ∧ node_term n' = node_term n).

#[export] Instance quiet_refl : Reflexive quiet.
Proof. intros n. split; auto. Qed.

#[export] Instance quiet_trans : Transitive quiet.
Proof.
  intros n1 n2 n3 [C1 L1] [C2 L2]. split.
  - intros vs R3. destruct (C2 _ R3) as [R2 ?]. destruct (C1 _ R2). split; [done|congruence].
  - intros R3. destruct (L2 R3) as [R2 ?]. destruct (L1 R2). split; [done|congruence].
Qed.

(** A leader's log only grows, with entries of its own term. *)
Record grown n n' : Prop := {
  g_hard : n_hard n' = n_hard n;
  g_snap : v_snapshot (view n') = v_snapshot (view n);
  g_keep i e : v_entries (view n) !! i = Some e → v_entries (view n') !! i = Some e;
  g_new i e : v_entries (view n') !! i = Some e →
    v_entries (view n) !! i = Some e ∨ le_term e = node_term n
}.

#[export] Instance grown_refl : Reflexive grown.
Proof. intros n. split; auto. Qed.

#[export] Instance grown_trans : Transitive grown.
Proof.
  intros n1 n2 n3 [Hh1 Hs1 Hk1 Hn1] [Hh2 Hs2 Hk2 Hn2]. split; [congruence..|eauto|].
  intros i e He. destruct (Hn2 _ _ He) as [He2|He2]; [by apply Hn1|].
  right. rewrite He2. unfold node_term. by rewrite Hh1.
Qed.

(** What a failed call leaves on disk is still a healthy log, and keeps every
    promise the hard state made. *)
Record failed n n' : Prop := {
  f_store : store_ok (n_log n');
  f_dur : durable_ok (view n');
  f_hard : hard_le (n_hard n) (v_hard (view n'))
}.

Lemma failed_ext n1 n2 n3 : hard_le (n_hard n1) (n_hard n2) → failed n2 n3 → failed n1 n3.
Proof. intros Hh [? ? ?]. split; [done..|by etrans]. Qed.

Lemma inv_failed n : node_inv n → failed n n.
Proof. intros []. split; [done..|]. rewrite i_hard0. done. Qed.

(** *** Calls that only read the log *)

Definition same n n' : Prop :=
  ∃ l, store_ok l ∧ store_view l = view n ∧ n' = set_log l n.

Lemma same_refl n : store_ok (n_log n) → same n n.
Proof. intros Hl. exists (n_log n). split_and!; [done..|]. by destruct n. Qed.

Lemma same_trans n1 n2 n3 : same n1 n2 → same n2 n3 → same n1 n3.
Proof.
  intros (l & ? & Hl & ->) (l' & ? & Hl' & ->). exists l'. unfold view in *; simpl in *.
  by rewrite Hl'.
Qed.

Lemma same_view n n' : same n n' → view n' = view n.
Proof. by intros (l & ? & ? & ->). Qed.

Lemma same_store n n' : same n n' → store_ok (n_log n').
Proof. by intros (l & ? & ? & ->). Qed.

Lemma same_inv n n' : same n n' → node_inv n → node_inv n'.
Proof.
  intros (l & Hl & Hv & ->) []. split; unfold role_ok, node_term, view in *; simpl; rewrite ?Hv; done.
Qed.

Lemma same_ext n n' : same n n' → ext n n'.
Proof. intros (l & Hl & Hv & ->). split; [done..|]. unfold commit_ok, view in *; simpl. by rewrite Hv. Qed.

Lemma same_quiet n n' : same n n' → quiet n n'.
Proof. intros (l & Hl & Hv & ->). split; auto. Qed.

Lemma same_grown n n' : same n n' → grown n n'.
Proof.
  intros (l & Hl & Hv & ->). split; unfold view in *; simpl; rewrite ?Hv; auto.
Qed.

Lemma same_failed n n' : node_inv n → same n n' → failed n n'.
Proof.
  intros Hn Hs. pose proof (same_inv _ _ Hs Hn) as Hn'.
  destruct Hs as (l & Hl & Hv & ->). apply (failed_ext n (set_log l n)); [done|]. by apply inv_failed.
Qed.

Lemma wp_read {A} (m : eff L RaftError A) f (Q : A → RaftNode L → Prop) X n :
  reads store_ok store_view m f → store_ok (n_log n) →
  (∀ n', same n n' → Q (f (view n)) n') →
  (∀ e n', same n n' → storage_fault e → X e n') →
  wp (on_log m) Q X n.
Proof.
  intros Hm Hl HQ HX. apply wp_zoom. eapply wp_mono; [by apply Hm| |].
  - intros r l' (? & ? & ->). apply HQ. by exists l'.
  - intros e l' (? & ? & ?). apply HX; [by exists l'|done].
Qed.

Lemma wp_write (m : eff L RaftError ()) g (Q : () → RaftNode L → Prop) X n :
  writes store_ok store_view m g → store_ok (n_log n) →
  (∀ l', store_ok l' → store_view l' = g (view n) → Q () (set_log l' n)) →
  (∀ e n', same n n' → storage_fault e → X e n') →
  wp (on_log m) Q X n.
Proof.
  intros Hm Hl HQ HX. apply wp_zoom. eapply wp_mono; [by apply Hm| |].
  - intros [] l' [? ?]. by apply HQ.
  - intros e l' (? & ? & ?). apply HX; [by exists l'|done].
Qed.

(** A node-level read: an answer about the node, and the node unchanged but for
    the store's handle. *)
Definition answers {A} (m : eff (RaftNode L) RaftError A) (P : A → RaftNode L → Prop) : Prop :=
  ∀ n, node_inv n → wp m (λ r n', same n n' ∧ P r n) (λ e n', same n n' ∧ storage_fault e) n.

Lemma answers_wp {A} (m : eff (RaftNode L) RaftError A) P (Q : A → RaftNode L → Prop) X n :
  answers m P → node_inv n →
  (∀ r n', same n n' → node_inv n' → P r n → Q r n') →
  (∀ e n', same n n' → storage_fault e → failed n n' → X e n') →
  wp m Q X n.
Proof.
  intros Hm Hn HQ HX. eapply wp_mono; [by apply Hm| |].
  - intros r n' [? ?]. by eauto using same_inv.
  - intros e n' [? ?]. by eauto using same_failed.
Qed.

Lemma answers_read {A} (m : eff L RaftError A) f :
  reads store_ok store_view m f → answers (on_log m) (λ r n, r = f (view n)).
Proof. intros Hm n Hn. apply (wp_read m f); [done|apply Hn|done..]. Qed.

(** The term recorded for [i]: by its entry, or by the snapshot that ends there. *)
Definition view_term_at (i : LogIndex) (v : LogView) : option Term :=
  match v_entries v !! u64_val i with
  | Some e => Some (le_term e)
  | None =>
      match v_snapshot v with
      | Some (m, _) =>
          if decide (last_included_index m = i) then Some (last_included_term m) else None
      | None => None
      end
  end.

Lemma term_at_answers i : answers (term_at i) (λ r n, r = view_term_at i (view n)).
Proof.
  intros n Hn. unfold term_at. wp_step. apply (answers_wp _ _ _ _ _ (answers_read _ _ (get_reads i)) Hn).
  - intros r n' Hs Hn' ->. unfold view_get, view_term_at.
    destruct (v_entries (view n) !! _) as [e|]; wp_steps; split; [done..|].
    destruct Hs as (l & _ & _ & ->). simpl. rewrite (i_snap _ Hn).
    by destruct (v_snapshot (view n)) as [[m d]|].
  - auto.
Qed.

(** *** Outbound replication *)

(** What the leader owes a peer whose next index is [next]. *)
Definition outbound_for (peer : NodeId) (next : LogIndex) (seq : u64) n : Outbound :=
  let append := OutAppendEntries peer
    (mkAppendEntries (node_term n) (n_id n) (LogIndex_prev next)
       (if decide (LogIndex_prev next = LogIndex_ZERO) then Term_ZERO
        else default Term_ZERO (view_term_at (LogIndex_prev next) (view n)))
       (view_entries_from next (view n)) (n_commit_index n) seq) in
  match v_snapshot (view n) with
  | Some (m, d) =>
      if next <=? last_included_index m then
        OutInstallSnapshot peer (mkInstallSnapshot (node_term n) (n_id n) (last_included_index m)
          (last_included_term m) u64_0 d true (snap_config m))
      else append
  | None => append
  end.

Definition out_ok (self : NodeId) (term : Term) (committed : Prop) (o : Outbound) : Prop :=
  match o with
  | OutRequestVote to r => rv_term r = term ∧ rv_candidate_id r = self
  | OutAppendEntries to r =>
      ae_term r = term ∧ ae_leader_id r = self ∧ ae_wf r ∧ (committed → ae_commit_wf r)
  | OutInstallSnapshot to r =>
      is_term r = term ∧ is_leader_id r = self ∧ is_wf r ∧ is_offset r = u64_0 ∧ is_done r = true
  end.

Lemma outbound_for_same peer next seq n n' :
  same n n' → outbound_for peer next seq n' = outbound_for peer next seq n.
Proof.
  intros (l & _ & Hv & ->). unfold outbound_for. change (view (set_log l n)) with (store_view l).
  by rewrite Hv.
Qed.

Lemma snapshot_index_view n : node_inv n → u64_val (snapshot_index n) = view_snap_index (view n).
Proof.
  intros Hn. unfold snapshot_index, view_snap_index. rewrite (i_snap _ Hn).
  by destruct (v_snapshot (view n)) as [[m d]|].
Qed.

(** Chaining two node-level reads. *)
Lemma answers_bind {A B} (m : eff (RaftNode L) RaftError A) (k : A → eff (RaftNode L) RaftError B)
    (f : RaftNode L → A) (g : RaftNode L → B) :
  answers m (λ r n, r = f n) →
  (∀ n n', same n n' → g n' = g n) →
  (∀ n, node_inv n → wp (k (f n)) (λ r n', same n n' ∧ r = g n) (λ e n', same n n' ∧ storage_fault e) n) →
  (∀ n n', same n n' → f n' = f n) →
  answers (m ≫= k) (λ r n, r = g n).
Proof.
  intros Hm Hg Hk Hf n Hn. apply wp_bind. apply (answers_wp _ _ _ _ _ Hm Hn); [|auto].
  intros r n' Hs Hn' ->. rewrite <-(Hf _ _ Hs). eapply wp_mono; [by apply Hk| |].
  - intros r n'' [? ->]. rewrite (Hg _ _ Hs). eauto using same_trans.
  - intros e n'' [? ?]. eauto using same_trans.
Qed.

Lemma view_same {A} (f : LogView → A) n n' : same n n' → f (view n') = f (view n).
Proof. intros Hs. by rewrite (same_view _ _ Hs). Qed.

Lemma prev_term_answers i :
  answers (if decide (i = LogIndex_ZERO) then mret Term_ZERO
           else t ← term_at i; mret (default Term_ZERO t))
    (λ r n, r = if decide (i = LogIndex_ZERO) then Term_ZERO
                else default Term_ZERO (view_term_at i (view n))).
Proof.
  case_decide.
  - intros n Hn. wp_step. split; [apply same_refl, Hn|done].
  - refine (answers_bind _ _ _ _ (term_at_answers i) _ _ _);
      [intros; f_equal; by apply view_same| |by apply view_same].
    intros n Hn. wp_step. split; [apply same_refl, Hn|done].
Qed.

Lemma append_entries_for_answers peer next seq :
  0 < u64_val next →
  answers (append_entries_for peer next seq) (λ o n, o = outbound_for peer next seq n).
Proof.
  intros Hpos n Hn. unfold append_entries_for. do 2 wp_step. cbn [id].
  rewrite (snapshot_index_view n Hn). unfold outbound_for, view_snap_index.
  assert (wp (
    prev_log_term ←
      (if decide (LogIndex_prev next = LogIndex_ZERO) then mret Term_ZERO
       else t ← term_at (LogIndex_prev next); mret (default Term_ZERO t));
    entries ← on_log (st_entries_from next);
    mret (OutAppendEntries peer (mkAppendEntries (node_term n) (n_id n) (LogIndex_prev next)
      prev_log_term entries (n_commit_index n) seq))) (λ r n', same n n' ∧ r =
    OutAppendEntries peer (mkAppendEntries (node_term n) (n_id n) (LogIndex_prev next)
       (if decide (LogIndex_prev next = LogIndex_ZERO) then Term_ZERO
        else default Term_ZERO (view_term_at (LogIndex_prev next) (view n)))
       (view_entries_from next (view n)) (n_commit_index n) seq))
    (λ e n', same n n' ∧ storage_fault e) n) as Happend.
  { apply wp_bind, (answers_wp _ _ _ _ _ (prev_term_answers _) Hn); [|auto].
    intros r n' Hs Hn' ->. wp_step.
    apply (answers_wp _ _ _ _ _ (answers_read _ _ (entries_from_reads _)) Hn'); [|eauto using same_trans].
    intros r n'' Hs' Hn'' ->. wp_step. rewrite (same_view _ _ Hs). eauto using same_trans. }
  destruct (v_snapshot (view n)) as [[m d]|] eqn:Hsnap;
    [destruct (N.leb_spec next (last_included_index m)); [|done]|destruct (N.leb_spec next 0); [lia|done]].
  wp_step. apply (answers_wp _ _ _ _ _ (answers_read _ _ snapshot_reads) Hn); [|auto].
  intros r n' Hs Hn' ->. rewrite Hsnap. by wp_step.
Qed.

Lemma outbound_for_ok peer next seq n :
  node_inv n → 0 < u64_val next →
  out_ok (n_id n) (node_term n) (commit_ok n) (outbound_for peer next seq n).
Proof.
  intros Hn Hpos. unfold outbound_for.
  pose proof (i_dur _ Hn) as [Hc Hcan Hterm Hsnapok]. rewrite (i_hard _ Hn) in *.
  assert (view_snap_index (view n) < u64_val next → out_ok (n_id n) (node_term n) (commit_ok n)
    (OutAppendEntries peer (mkAppendEntries (node_term n) (n_id n) (LogIndex_prev next)
       (if decide (LogIndex_prev next = LogIndex_ZERO) then Term_ZERO
        else default Term_ZERO (view_term_at (LogIndex_prev next) (view n)))
       (view_entries_from next (view n)) (n_commit_index n) seq))) as Happend.
  { intros Hlt. destruct (view_entries_numbered _ _ Hc Hlt) as [Hnum Hlen].
    assert (u64_val (LogIndex_prev next) + 1 = next) as Hprev by (rewrite LogIndex_prev_val; lia).
    split_and!; [done|done| |].
    - unfold ae_wf; simpl. rewrite Hprev. split_and!; [done|..]; apply Forall_forall;
        intros e (k & _ & He)%view_entries_from_elem; eauto.
    - intros [_ Hle]. unfold ae_commit_wf; simpl. rewrite Hlen, LogIndex_prev_val. lia. }
  unfold view_snap_index in Happend.
  destruct (v_snapshot (view n)) as [[m d]|] eqn:Hs; [destruct (N.leb_spec next (last_included_index m))|];
    [|auto..]. destruct (Hsnapok m d) as [? ?]; done.
Qed.

(** *** The commit rule *)

(** The two conditions of the Figure-8 rule for committing index [i]. *)
Definition committable n (state : LeaderState) (i : LogIndex) : Prop :=
  has_quorum (active_config n) (acks_at (n_id n) i (match_index state)) = true ∧
  ∃ e, v_entries (view n) !! u64_val i = Some e ∧ le_term e = node_term n.

(** The commit index the rule selects: the largest committable index above the
    current one, or the current one. *)
Definition commit_choice n (state : LeaderState) (i r : LogIndex) : Prop :=
  (r = n_commit_index n ∨ n_commit_index n < u64_val r ≤ i ∧ committable n state r) ∧
  ∀ j, N.max (n_commit_index n) r < u64_val j ≤ i → ¬ committable n state j.

(** *** Calls a leader makes *)

Record leader_post n n' : Prop := {
  lp_inv : node_inv n';
  lp_ext : ext n n';
  lp_quiet : quiet n n';
  lp_grown : grown n n'
}.

Definition outs_ok n (outs : list Outbound) : Prop :=
  Forall (out_ok (n_id n) (node_term n) (commit_ok n)) outs.

Definition fails n (e : RaftError) n' : Prop := failed n n' ∧ storage_fault e.

(** The commit index moved only by the commit rule, applied at some point [m] of
    the call. *)
Definition advanced n n' : Prop :=
  n_commit_index n' = n_commit_index n ∨
  ∃ m state, leader_post n m ∧ leader_post m n' ∧ n_role m = Leader state ∧
    n_commit_index m < u64_val (n_commit_index n') ∧ committable m state (n_commit_index n').

(** Everything known of a call a leader makes. *)
Definition leader_run n (outs : list Outbound) n' : Prop :=
  leader_post n n' ∧ outs_ok n outs ∧ advanced n n'.

Lemma leader_post_refl n : node_inv n → leader_post n n.
Proof. done. Qed.

Lemma leader_post_trans n1 n2 n3 : leader_post n1 n2 → leader_post n2 n3 → leader_post n1 n3.
Proof. intros [] []. split; [done|by etrans..]. Qed.

Lemma same_leader_post n n' : node_inv n → same n n' → leader_post n n'.
Proof.
  intros Hn Hs. split; eauto using same_inv, same_ext, same_quiet, same_grown.
Qed.

Lemma leader_post_term n n' : leader_post n n' → node_term n' = node_term n.
Proof. intros [_ _ _ []]. unfold node_term. by rewrite g_hard0. Qed.

Lemma outs_ok_weaken n n' outs : leader_post n n' → outs_ok n' outs → outs_ok n outs.
Proof.
  intros Hp. pose proof (leader_post_term _ _ Hp) as Ht. destruct Hp as [_ [Hid _ _ Hcm] _ _].
  unfold outs_ok. rewrite Hid, Ht. intros Ho. apply (Forall_impl _ _ _ Ho). intros [| |]; simpl; [done| |done].
  intros (? & ? & ? & ?). split_and!; try done. intros Hok. by apply Hcm in Hok as [? _]; auto.
Qed.

Lemma leader_post_fails n n' e n'' : leader_post n n' → fails n' e n'' → fails n e n''.
Proof. intros [_ [] _ _] [? ?]. split; [by eapply failed_ext|done]. Qed.

Lemma same_fails n n' e : node_inv n → same n n' → storage_fault e → fails n e n'.
Proof. intros ? ? ?. split; [by apply same_failed|done]. Qed.

Lemma leader_run_trans n1 outs1 n2 outs2 n3 :
  leader_run n1 outs1 n2 → leader_run n2 outs2 n3 → leader_run n1 (outs1 ++ outs2) n3.
Proof.
  intros (Hp1 & Ho1 & Ha1) (Hp2 & Ho2 & Ha2). split_and!.
  - by eapply leader_post_trans.
  - apply Forall_app. split; [done|]. by apply (outs_ok_weaken n1 n2).
  - unfold advanced. destruct Ha2 as [Heq|(m & st & ? & ? & ?)].
    + rewrite Heq. destruct Ha1 as [->|(m & st & ? & ? & ?)]; [by left|right].
      exists m, st. split_and!; [done|by eapply leader_post_trans|naive_solver..].
    + right. exists m, st. split_and!; [by eapply leader_post_trans|done|naive_solver..].
Qed.

Lemma leader_run_fails n outs n' e n'' : leader_run n outs n' → fails n' e n'' → fails n e n''.
Proof. intros [? _]. by apply leader_post_fails. Qed.

(** A call that fails part of the way leaves the node as healthy as one that
    succeeds; only its messages are lost. *)
Definition stops n (e : RaftError) n' : Prop := leader_run n [] n' ∧ storage_fault e.

Lemma stops_fails n e n' : stops n e n' → fails n e n'.
Proof.
  intros [[[Hn' [] _ _] _] ?]. split; [|done]. apply (failed_ext n n'); [done|]. by apply inv_failed.
Qed.

Lemma leader_run_stops n outs n' e n'' : leader_run n outs n' → stops n' e n'' → stops n e n''.
Proof.
  intros (Hp & _ & Ha) [Hrun ?]. split; [|done]. apply (leader_run_trans n [] n' []); [|done].
  split_and!; [done|constructor|done].
Qed.

Lemma still_run n outs n' :
  leader_post n n' → n_commit_index n' = n_commit_index n → outs_ok n outs → leader_run n outs n'.
Proof. intros ? ? ?. split_and!; [done..|by left]. Qed.

Lemma same_commit n n' : same n n' → n_commit_index n' = n_commit_index n.
Proof. by intros (l & _ & _ & ->). Qed.

Lemma same_stops n n' e : node_inv n → same n n' → storage_fault e → stops n e n'.
Proof.
  intros ? ? ?. split; [|done]. apply still_run; [by apply same_leader_post|by apply same_commit|constructor].
Qed.

(** Replacing a leader's bookkeeping. *)
Lemma set_leader_post n state state' :
  node_inv n → n_role n = Leader state →
  term_start_index state' = term_start_index state →
  map_Forall (λ _ next, 0 < u64_val next) (next_index state') →
  leader_post n (set_role (Leader state') n).
Proof.
  intros [] Hr Hts Hnext. split.
  - split; try done. unfold role_ok, node_term, view in *; simpl in *. rewrite Hr in i_role0.
    rewrite Hts. tauto.
  - by split.
  - split; simpl; [done|]. intros _. unfold is_leader. by rewrite Hr.
  - split; auto.
Qed.

Lemma leader_next_pos n state :
  node_inv n → n_role n = Leader state → map_Forall (λ _ next, 0 < u64_val next) (next_index state).
Proof. intros [] Hr. unfold role_ok in i_role0. rewrite Hr in i_role0. tauto. Qed.

Lemma next_or_one_pos (m : gmap NodeId LogIndex) peer :
  map_Forall (λ _ next, 0 < u64_val next) m → 0 < u64_val (default u64_1 (m !! peer)).
Proof. intros Hm. destruct (m !! peer) eqn:Hp; simpl; [by eapply Hm|lia]. Qed.

Lemma answers_mapM {A B} (f : A → eff (RaftNode L) RaftError B) (g : A → RaftNode L → B) (l : list A) :
  (∀ a, a ∈ l → answers (f a) (λ r n, r = g a n)) →
  (∀ a n n', same n n' → g a n' = g a n) →
  answers (mapM f l) (λ rs n, rs = (λ a, g a n) <$> l).
Proof.
  intros Hf Hg. induction l as [|a l IH]; intros n Hn; simpl.
  { wp_step. split; [apply same_refl, Hn|done]. }
  wp_step. apply (answers_wp _ _ _ _ _ (Hf a ltac:(set_solver)) Hn); [|auto].
  intros r n' Hs Hn' ->. wp_step. apply (answers_wp _ (λ rs n, rs = (λ a, g a n) <$> l) _ _ _); [|done|..].
  - apply IH. intros a' Ha'. apply Hf. set_solver.
  - intros rs n'' Hs' Hn'' ->. wp_step. split; [by eapply same_trans|]. simpl. f_equal.
    apply list_fmap_ext. intros _ a' _. by apply Hg.
  - eauto using same_trans.
Qed.

Lemma make_plans_spec targets : ∀ state plans state',
  make_plans targets state = (plans, state') →
  plans.*1.*1 = targets ∧
  next_index state' = next_index state ∧ match_index state' = match_index state ∧
  term_start_index state' = term_start_index state ∧ pending_reads state' = pending_reads state ∧
  ∀ peer next seq, (peer, next, seq) ∈ plans → next = default u64_1 (next_index state !! peer).
Proof.
  induction targets as [|p targets IH]; intros state plans state' Hp; simpl in Hp.
  { simplify_eq. split_and!; [done..|]. intros ? ? ? Hin. by apply elem_of_nil in Hin. }
  destruct (make_plans targets _) as [plans1 state1] eqn:Hrest. simplify_eq.
  destruct (IH _ _ _ Hrest) as (<- & -> & -> & -> & -> & Hin). split_and!; [done..|].
  intros peer next seq [?|?]%elem_of_cons; [by simplify_eq|]. simpl in Hin. eauto.
Qed.

(** What [replicate_all] sends: one message per replication target, each the
    one that target is owed. *)
Lemma replicate_all_exact n state :
  node_inv n → n_role n = Leader state →
  let '(plans, state') := make_plans (replication_targets n) state in
  wp replicate_all
    (λ outs n', same (set_role (Leader state') n) n' ∧
       outs = (λ '(peer, next, seq), outbound_for peer next seq n) <$> plans)
    (λ e n', same (set_role (Leader state') n) n' ∧ storage_fault e) n.
Proof.
  intros Hn Hr. destruct (make_plans _ _) as [plans state'] eqn:Hp.
  unfold replicate_all. do 2 wp_step. cbn [id]. rewrite Hr, Hp. do 2 wp_step.
  pose proof (make_plans_spec _ _ _ _ Hp) as (_ & Hnext & _ & Hts & _ & Hin).
  pose proof (leader_next_pos _ _ Hn Hr) as Hpos.
  apply (answers_wp _ (λ outs n, outs = (λ '(peer, next, seq), outbound_for peer next seq n) <$> plans)).
  - apply answers_mapM.
    + intros [[peer next] seq] Hin'. apply append_entries_for_answers.
      rewrite (Hin _ _ _ Hin'). by apply next_or_one_pos.
    + intros [[peer next] seq] n1 n2. apply outbound_for_same.
  - apply (set_leader_post n state); [done..|by rewrite Hnext].
  - intros outs n' Hs Hn' ->. done.
  - auto.
Qed.

Lemma outs_ok_plans n plans :
  node_inv n → (∀ peer next seq, (peer, next, seq) ∈ plans → 0 < u64_val next) →
  outs_ok n ((λ '(peer, next, seq), outbound_for peer next seq n) <$> plans).
Proof.
  intros Hn Hpos. apply Forall_forall. intros o ([[peer next] seq] & -> & Hin)%list_elem_of_fmap.
  apply outbound_for_ok; eauto.
Qed.

Lemma replicate_all_spec n :
  node_inv n → wp replicate_all (leader_run n) (stops n) n.
Proof.
  intros Hn. destruct (n_role n) as [| |state] eqn:Hr.
  1,2: unfold replicate_all; do 2 wp_step; cbn [id]; rewrite Hr; wp_step;
    apply still_run; [by apply leader_post_refl|done|constructor].
  pose proof (replicate_all_exact n state Hn Hr) as Hwp.
  destruct (make_plans _ _) as [plans state'] eqn:Hp.
  pose proof (make_plans_spec _ _ _ _ Hp) as (_ & Hnext & _ & Hts & _ & Hin).
  pose proof (leader_next_pos _ _ Hn Hr) as Hpos.
  assert (leader_post n (set_role (Leader state') n)) as Hpost.
  { apply (set_leader_post n state); [done..|by rewrite Hnext]. }
  eapply wp_mono; [exact Hwp| |].
  - intros outs n' [Hs ->]. apply still_run.
    + eapply leader_post_trans; [done|]. apply same_leader_post; [apply Hpost|done].
    + by rewrite (same_commit _ _ Hs).
    + apply outs_ok_plans; [done|]. intros peer next seq Hi. rewrite (Hin _ _ _ Hi).
      by apply next_or_one_pos.
  - intros e n' [Hs ?]. eapply (leader_run_stops _ []); [apply still_run; [done|done|constructor]|]. apply same_stops; [apply Hpost|done..].
Qed.

Lemma replicate_to_spec peer n :
  node_inv n → wp (replicate_to peer) (leader_run n) (stops n) n.
Proof.
  intros Hn. unfold replicate_to. do 2 wp_step. destruct (n_role n) as [| |state] eqn:Hr.
  1,2: wp_step; apply still_run; [by apply leader_post_refl|done|constructor].
  do 2 wp_step. pose proof (leader_next_pos _ _ Hn Hr) as Hpos.
  set (state' := set_ae_seq _ state).
  assert (leader_post n (set_role (Leader state') n)) as Hpost by by apply (set_leader_post n state).
  wp_step. eapply answers_wp; [apply append_entries_for_answers|apply Hpost|..].
  - by apply next_or_one_pos.
  - intros o n' Hs Hn' ->. wp_step. apply still_run.
    + eapply leader_post_trans; [done|]. apply same_leader_post; [apply Hpost|done].
    + by rewrite (same_commit _ _ Hs).
    + apply (outs_ok_weaken _ _ _ Hpost). constructor; [|done].
      apply outbound_for_ok; [apply Hpost|by apply next_or_one_pos].
  - intros e n' Hs ? _. eapply (leader_run_stops _ []); [apply still_run; [done|done|constructor]|]. apply same_stops; [apply Hpost|done..].
Qed.

(** *** Appending one entry of the current term *)

Definition noted (e : LogEntry) (t : ConfigTracker) : ConfigTracker :=
  match le_payload e with Config c => on_append (le_index e) c t | _ => t end.

Lemma base_noted e t : base (noted e t) = base t ∧ base_index (noted e t) = base_index t.
Proof. unfold noted. by destruct (le_payload e). Qed.

Lemma durable_append v es :
  durable_ok v → numbered_from (view_last_index v + 1) es →
  Forall entry_ok es → Forall (λ e, u64_val (le_term e) ≤ current_term (v_hard v)) es →
  durable_ok (view_append es v).
Proof.
  intros [Hc Hcan Hterm Hsnap] Hn Hes Hts. pose proof (numbered_from_sorted _ _ Hn) as Hs.
  rewrite Forall_forall in Hes, Hts. split; simpl; [by apply contiguous_append| | |done].
  - intros i e. rewrite foldl_insert_lookup by done. intros [[? _]|[? _]]; eauto.
  - intros i e. rewrite foldl_insert_lookup by done. intros [[? _]|[? _]]; eauto.
Qed.

Lemma contiguous_keys v i : contiguous v → is_Some (v_entries v !! i) → i ≤ view_last_index v.
Proof. intros (_ & Hdom & _) Hi%Hdom. lia. Qed.

Lemma tracks_push t v e :
  tracks t (v_entries v) → contiguous v → u64_val (le_index e) = view_last_index v + 1 →
  tracks (noted e t) (insert_entry (v_entries v) e).
Proof.
  intros Ht Hc Hi. unfold noted.
  assert (∀ j, is_Some (v_entries v !! j) → j < le_index e) as Hlt.
  { intros j Hj. apply (contiguous_keys _ _ Hc) in Hj. lia. }
  destruct (le_payload e) eqn:Hp; [..|by apply tracks_append];
    (apply tracks_append_other; [done| |congruence]); apply eq_None_not_Some; intros Hj%Hlt; lia.
Qed.

Lemma push_post n e l' :
  node_inv n → le_term e = node_term n → u64_val (le_index e) = view_last_index (view n) + 1 →
  entry_ok e → store_ok l' → store_view l' = view_append [e] (view n) →
  leader_post n (set_configs (noted e (n_configs n)) (set_log l' n)).
Proof.
  intros Hn Ht Hi Hcan Hl Hv. pose proof Hn as [Hst Hd Hh Hs Htr Hb Hbi Hro].
  pose proof (d_contig _ Hd) as Hc.
  assert (contiguous (view_append [e] (view n)) ∧
    view_last_index (view_append [e] (view n)) = view_last_index (view n) + 1) as [Hc' Hlast'].
  { apply (contiguous_append (view n) [e]); [done|]. by split. }
  destruct (base_noted e (n_configs n)) as [Hbn Hbin].
  assert (view (set_configs (noted e (n_configs n)) (set_log l' n)) = view_append [e] (view n)) as Hv'
    by done.
  split.
  - split; rewrite ?Hv'; simpl; rewrite ?Hbn, ?Hbin; try done.
    + apply durable_append; [done|by split|by constructor|]. constructor; [|done].
      rewrite Ht, Hh. done.
    + by apply tracks_push.
    + unfold role_ok, node_term in *. simpl. destruct (n_role n) as [| |state]; [done..|].
      destruct Hro as (? & ? & ? & ? & Hown). rewrite Hv', Hlast'. split_and!; try done; try lia.
      intros i e'. simpl. unfold insert_entry. rewrite lookup_insert_Some.
      intros ? [[_ <-]|[_ ?]]; [done|]. by eapply Hown.
  - split; simpl; [done..|]. unfold commit_ok. rewrite Hv', Hlast'. simpl.
    change (view_snap_index (view_append [e] (view n))) with (view_snap_index (view n)). lia.
  - split; auto.
  - split; rewrite ?Hv'; simpl; [done..| |].
    + intros i e' He'. unfold insert_entry. rewrite lookup_insert_ne; [done|].
      apply (mk_is_Some _ _) in He'. apply (contiguous_keys _ _ Hc) in He'. lia.
    + intros i e'. unfold insert_entry. rewrite lookup_insert_Some. intros [[_ <-]|[_ ?]]; auto.
Qed.

(** Room for [k] more entries in the index space. *)
Definition room (k : N) n : Prop := view_last_index (view n) + k ≤ u64_max.

Lemma next_last n : room 1 n → u64_val (LogIndex_next (view_last (view n)).1) = view_last_index (view n) + 1.
Proof. unfold room, view_last_index. intros Hr. rewrite LogIndex_next_val. lia. Qed.

(** Reading the last index, then appending after it: the step every leader
    write begins with. *)
Lemma wp_push {B} (mk : LogIndex → LogEntry) (k : eff (RaftNode L) RaftError B) Q X n n0 :
  (∀ i, le_index (mk i) = i ∧ le_term (mk i) = node_term n ∧ entry_ok (mk i)) →
  node_inv n → same n n0 → room 1 n →
  (∀ l', let e := mk (LogIndex_next (view_last (view n)).1) in
     store_ok l' → store_view l' = view_append [e] (view n) →
     leader_post n (set_configs (noted e (n_configs n)) (set_log l' n)) →
     wp k Q X (set_log l' n)) →
  (∀ e n', stops n e n' → X e n') →
  wp (on_log (st_append (mk (LogIndex_next (view_last (view n)).1)));; k) Q X n0.
Proof.
  intros Hmk Hn Hs Hroom Hk HX. pose proof (next_last n Hroom) as Hnext.
  destruct (Hmk (LogIndex_next (view_last (view n)).1)) as (Hi & Ht & Hcan).
  set (e := mk _) in *. wp_step. apply (wp_write _ (view_append [e])).
  - apply append_writes. constructor; [apply Hcan|done].
  - by eapply same_store.
  - intros l' Hl' Hv'. rewrite (same_view _ _ Hs) in Hv'. destruct Hs as (l & ? & ? & ->).
    apply Hk; [done..|]. apply push_post; try done. by rewrite Hi.
  - intros err n' Hs' ?. apply HX. apply same_stops; [done|by eapply same_trans|done].
Qed.

(** *** The commit rule, executed *)

Lemma commit_choice_same n n' state i r :
  same n n' → commit_choice n' state i r → commit_choice n state i r.
Proof.
  intros (l & _ & Hv & ->). unfold commit_choice, committable.
  change (view (set_log l n)) with (store_view l). by rewrite Hv.
Qed.

Lemma commit_choice_prev n state (i r : LogIndex) :
  n_commit_index n < u64_val i → ¬ committable n state i →
  commit_choice n state (LogIndex_prev i) r → commit_choice n state i r.
Proof.
  intros Hi Hno [Hr Hmax]. rewrite LogIndex_prev_val in *. split.
  - destruct Hr as [?|[? ?]]; [by left|right; split; [lia|done]].
  - intros j Hj. destruct (decide (u64_val j = i)) as [->%u64_inj|]; [done|]. apply Hmax. lia.
Qed.

Lemma commit_scan_spec fuel : ∀ (i : LogIndex) state n,
  node_inv n → 0 < node_term n → (N.to_nat (u64_val i) < fuel)%nat →
  wp (commit_scan fuel i state) (λ r n', same n n' ∧ commit_choice n state i r)
     (λ e n', same n n' ∧ storage_fault e) n.
Proof.
  induction fuel as [|fuel IH]; intros i state n Hn Hterm Hfuel; [lia|]. simpl. do 2 wp_step. cbn [id].
  destruct (N.ltb_spec (n_commit_index n) i) as [Hi|Hi].
  2:{ wp_step. split; [apply same_refl, Hn|]. split; [by left|]. intros j Hj. lia. }
  assert (∀ n', same n n' → ¬ committable n state i →
    wp (commit_scan fuel (LogIndex_prev i) state) (λ r n', same n n' ∧ commit_choice n state i r)
     (λ e n', same n n' ∧ storage_fault e) n') as Hdown.
  { intros n' Hs Hno. eapply wp_mono; [apply (IH _ state n')| |].
    - by eapply same_inv.
    - by destruct Hs as (l & _ & _ & ->).
    - rewrite LogIndex_prev_val. lia.
    - intros r n'' [? ?]. split; [by eapply same_trans|].
      apply commit_choice_prev; [done..|]. by eapply commit_choice_same.
    - intros e n'' [? ?]. split; [by eapply same_trans|done]. }
  destruct (has_quorum _ _) eqn:Hq.
  - wp_step. apply (answers_wp _ _ _ _ _ (answers_read _ _ (get_reads i)) Hn); [|auto].
    intros r n' Hs Hn' ->. unfold view_get. case_decide as Ht.
    + wp_step. split; [done|]. split; [|intros j Hj; lia]. right. split; [lia|]. split; [done|].
      destruct (v_entries (view n) !! u64_val i) as [e|]; [eauto|].
      rewrite <-Ht in Hterm. simpl in Hterm. lia.
    + apply Hdown; [done|]. intros (_ & e & He & Hte). by rewrite He in Ht.
  - apply Hdown; [apply same_refl, Hn|]. intros [? _]. congruence.
Qed.

(** *** Leader bookkeeping after a configuration change *)

Lemma or_insert_all_lookup targets v : ∀ m p i,
  or_insert_all targets v m !! p = Some i →
  m !! p = Some i ∨ (m !! p = None ∧ p ∈ targets ∧ i = v).
Proof.
  induction targets as [|t targets IH]; intros m p i Hp; [by left|].
  destruct (IH _ _ _ Hp) as [Hm|(Hm & Hin & ->)]; destruct (m !! t) eqn:Ht.
  - by left.
  - apply lookup_insert_Some in Hm as [[<- <-]|[_ ?]]; [right; set_solver|by left].
  - right. set_solver.
  - apply lookup_insert_None in Hm as [? ?]. right. set_solver.
Qed.

Lemma next_pos_filter (P : NodeId * LogIndex → Prop) `{∀ x, Decision (P x)} (m : gmap NodeId LogIndex) :
  map_Forall (λ _ next, 0 < u64_val next) m → map_Forall (λ _ next, 0 < u64_val next) (filter P m).
Proof. intros Hm p i [Hp _]%map_lookup_filter_Some. by eapply Hm. Qed.

Lemma LogIndex_next_pos i : 0 < u64_val (LogIndex_next i).
Proof. rewrite LogIndex_next_val. unfold u64_max. lia. Qed.

Lemma refresh_leader_state_spec n :
  node_inv n →
  wp refresh_leader_state
    (λ _ n', leader_post n n' ∧ n_configs n' = n_configs n ∧ n_commit_index n' = n_commit_index n ∧
       view n' = view n) (stops n) n.
Proof.
  intros Hn. unfold refresh_leader_state. do 3 wp_step.
  apply (answers_wp _ _ _ _ _ (answers_read _ _ last_index_reads) Hn).
  2:{ intros. by apply same_stops. }
  intros last n' Hs Hn' ->. do 2 wp_step. pose proof (same_leader_post _ _ Hn Hs) as Hpost.
  assert (n_configs n' = n_configs n ∧ n_commit_index n' = n_commit_index n) as [Hcfg Hcm]
    by by destruct Hs as (l & _ & _ & ->).
  pose proof (same_view _ _ Hs) as Hv.
  destruct (n_role n') as [| |state] eqn:Hr; [by wp_step..|]. wp_step. split_and!; [|done..].
  eapply leader_post_trans; [done|]. apply (set_leader_post n' state); [done..|]. simpl.
  intros p i [Hp|(_ & _ & ->)]%or_insert_all_lookup; [|apply LogIndex_next_pos].
  by eapply (next_pos_filter _ _ (leader_next_pos _ _ Hn' Hr)).
Qed.

(** *** Committing and the configuration follow-ups *)

Lemma active_on_append i c t : active (on_append i c t) = c.
Proof. unfold active, on_append. simpl. by rewrite last_snoc. Qed.

Lemma tracked_good n i c :
  node_inv n → (i, c) ∈ in_log (n_configs n) → config_good c.
Proof.
  intros Hn Hin. apply (tracks_exact _ _ (i_tracks _ Hn)) in Hin as (e & He & Hp).
  pose proof (d_canon _ (i_dur _ Hn) _ _ He) as [Hcan _]. unfold entry_canonical in Hcan.
  by rewrite Hp in Hcan.
Qed.

Lemma base_good n : node_inv n → config_good (base (n_configs n)).
Proof.
  intros Hn. rewrite (i_base _ Hn). unfold base_of.
  destruct (v_snapshot (view n)) as [[m d]|] eqn:Hs; [|apply boot_good].
  by apply (d_snap _ (i_dur _ Hn) _ _ Hs).
Qed.

Lemma active_good n : node_inv n → config_good (active_config n).
Proof.
  intros Hn. unfold active_config. destruct (active_cases (n_configs n)) as [->|[i Hi]];
    [by apply base_good|by eapply tracked_good].
Qed.

Lemma config_at_good n i : node_inv n → config_good (config_at i (n_configs n)).
Proof.
  intros Hn. destruct (config_at_cases (n_configs n) i) as [->|[j Hj]];
    [by apply base_good|by eapply tracked_good].
Qed.

Lemma append_config_entry_with_spec adv c now n :
  node_inv n → config_good c → room 1 n →
  (∀ n1, node_inv n1 → active_config n1 = c →
     view_last_index (view n1) = view_last_index (view n) + 1 →
     wp (adv now) (leader_run n1) (stops n1) n1) →
  wp (append_config_entry_with adv c now) (leader_run n) (stops n) n.
Proof.
  intros Hn Hc Hroom Hadv. unfold append_config_entry_with. wp_step.
  apply (answers_wp _ _ _ _ _ (answers_read _ _ last_index_reads) Hn); [|intros; by apply same_stops].
  intros last n0 Hs Hn0 ->. do 2 wp_step.
  assert (n_hard n0 = n_hard n) as Hh by by destruct Hs as (l & _ & _ & ->). rewrite Hh.
  apply (wp_push (λ i, LogEntry_with_payload (current_term (n_hard n)) i (Config c)) _ _ _ n n0);
    [done|done|done|done| |done].
  intros l' e Hl' Hv' Hpost. do 2 wp_step.
  set (n1 := set_configs _ _). change (leader_post n n1) in Hpost.
  assert (view_last_index (view n1) = view_last_index (view n) + 1) as Hlast.
  { change (view n1) with (store_view l'). rewrite Hv'.
    apply (contiguous_append (view n) [e]); [apply Hn|]. split; [|done]. by apply next_last. }
  wp_step. eapply wp_mono; [apply refresh_leader_state_spec, Hpost| |].
  2:{ intros err n' ?. eapply (leader_run_stops _ []); [|done]; apply still_run; [done|done|constructor]. }
  intros [] n2 (Hpost2 & Hcfg & Hcm & Hv2).
  assert (leader_run n [] n2) as Hrun.
  { apply still_run; [by eapply leader_post_trans|by rewrite Hcm|constructor]. }
  wp_step. eapply wp_mono; [apply (Hadv n2)| |].
  - apply Hpost2.
  - unfold active_config. rewrite Hcfg. apply active_on_append.
  - by rewrite Hv2.
  - intros outs n3 Hrun3. wp_step. eapply wp_mono; [apply replicate_all_spec, Hrun3| |].
    + intros outs' n4 Hrun4. wp_step.
      apply (leader_run_trans n [] n2); [done|]. by eapply leader_run_trans.
    + intros err n' Hf. eapply leader_run_stops; [exact Hrun|]. by eapply leader_run_stops.
  - intros err n' Hf. by eapply leader_run_stops.
Qed.

(** A leader that is no longer a member steps down. *)
Lemma step_down_post n now :
  node_inv n → wp (step_down_to_follower;; modify (set_leader_id None);; arm_election_timer now;; mret [])
    (leader_run n) (stops n) n.
Proof.
  intros Hn. pose proof Hn as [Hst Hd Hh Hs Htr Hb Hbi Hro].
  unfold step_down_to_follower, arm_election_timer. wp_steps. destruct (election_timeout _ _ _) as [d r].
  set (n' := set_election_timer _ _ _).
  assert (∃ rs x y z w, n' = mkRaftNode (n_id n) (n_configs n) Follower (n_log n) (n_hard n)
    (n_commit_index n) (n_snapshot n) x (n_last_leader_contact n) y (n_config n) z w (n_read_seq n) rs)
    as (rs & x & y & z & w & Heq).
  { unfold n'. destruct (n_role n); repeat eexists. }
  rewrite Heq. apply still_run; [|done|constructor]. split; [by split|by split|by split|split; auto].
Qed.

Lemma after_commit_spec adv now n :
  node_inv n →
  (is_joint (active_config n) = true → room 1 n) →
  (is_joint (active_config n) = true → ∀ n1, node_inv n1 → is_joint (active_config n1) = false →
     wp (adv now) (leader_run n1) (stops n1) n1) →
  wp (after_commit_config_actions_with adv now) (leader_run n) (stops n) n.
Proof.
  intros Hn Hroom Hadv. unfold after_commit_config_actions_with. do 2 wp_step. cbn [id].
  assert (leader_run n [] n) as Hnil.
  { apply still_run; [by apply leader_post_refl|done|constructor]. }
  destruct (negb (is_leader n)); [by wp_step|].
  destruct (_ <? _); [by wp_step|].
  destruct (is_joint (active_config n)) eqn:Hj.
  - apply append_config_entry_with_spec; [done| |by apply Hroom|].
    + destruct (active_good _ Hn) as [Hcan Hne]. split; [|done]. split; [apply Hcan|done].
    + intros n1 Hn1 Hact _. apply Hadv; [done..|]. by rewrite Hact.
  - destruct (bool_decide _); [by wp_step|]. by apply step_down_post.
Qed.

Lemma set_commit_run n state (new : LogIndex) :
  node_inv n → n_role n = Leader state →
  commit_choice n state (view_last (view n)).1 new → new ≠ n_commit_index n →
  leader_run n [] (set_commit_index new n).
Proof.
  intros Hn Hr [[?|[Hlt Hcm]] _] Hne; [done|]. pose proof Hn as [Hst Hd Hh Hs Htr Hb Hbi Hro].
  assert (leader_post n (set_commit_index new n)) as Hpost.
  { split; [by split| |by split|split; auto]. split; [done..|]. simpl.
    unfold commit_ok, view_last_index, view in *; simpl in *. lia. }
  split_and!; [done|constructor|]. right. exists n, state.
  split_and!; [by apply leader_post_refl|done|done|simpl; lia|done].
Qed.

Lemma advance_spec fuel now n :
  node_inv n →
  (fuel = 1%nat ∧ is_joint (active_config n) = false) ∨ (fuel = 2%nat ∧ room 1 n) →
  wp (advance_commit_index_fuel fuel now) (leader_run n) (stops n) n.
Proof.
  revert n. induction fuel as [|fuel IH]; intros n Hn Hfuel; [lia|]. cbn [advance_commit_index_fuel]. wp_step.
  apply (answers_wp _ _ _ _ _ (answers_read _ _ last_index_reads) Hn); [|intros; by apply same_stops].
  intros last n0 Hs Hn0 ->. do 2 wp_step. cbn [id].
  pose proof (same_leader_post _ _ Hn Hs) as Hpost.
  assert (leader_run n [] n0) as Hrun0.
  { apply still_run; [done|by apply same_commit|constructor]. }
  destruct (n_role n0) as [| |state] eqn:Hr; [by wp_step..|].
  assert (0 < node_term n0) as Hterm.
  { pose proof (i_role _ Hn0) as Hro. unfold role_ok in Hro. rewrite Hr in Hro. tauto. }
  wp_step. eapply wp_mono; [apply (commit_scan_spec _ _ state n0); [done..|lia]| |].
  2:{ intros e n' [Hs' ?]. apply same_stops; [done|by eapply same_trans|done]. }
  intros new n1 [Hs1 Hch]. pose proof (same_leader_post _ _ Hn0 Hs1) as Hpost1.
  assert (leader_run n [] n1) as Hrun1.
  { apply (leader_run_trans n [] n0 []); [done|]. apply still_run; [done|by apply same_commit|constructor]. }
  case_decide as Hnew; [by wp_step|]. do 2 wp_step.
  set (n2 := set_commit_index new n1).
  assert (leader_run n1 [] n2) as Hrun2.
  { apply (set_commit_run _ state); [apply Hpost1|by destruct Hs1 as (l & _ & _ & ->)| |].
    - destruct Hs1 as (l & Hl & Hv & ->). unfold commit_choice, committable in *.
      change (view (set_log l n0)) with (store_view l). rewrite Hv. by rewrite (same_view _ _ Hs) in *.
    - by rewrite (same_commit _ _ Hs1). }
  assert (view n2 = view n ∧ active_config n2 = active_config n) as [Hv2 Hact2].
  { destruct Hs as (l & ? & ? & ->), Hs1 as (l1 & ? & ? & ->). unfold view in *; simpl in *.
    split; [congruence|done]. }
  eapply wp_mono; [apply (after_commit_spec _ now n2); [apply Hrun2|..]| |].
  - rewrite Hact2. unfold room. rewrite Hv2. destruct Hfuel as [[_ ?]|[_ ?]]; [congruence|done].
  - rewrite Hact2. intros Hj m Hm Hmj. apply IH; [done|left]. destruct Hfuel as [[_ ?]|[? _]]; [congruence|].
    split; [lia|done].
  - intros outs n' Hrun'. apply (leader_run_trans n [] n1); [done|]. by apply (leader_run_trans n1 [] n2).
  - intros e n' Hf. eapply leader_run_stops; [exact Hrun1|]. by eapply leader_run_stops.
Qed.

Lemma advance_commit_index_spec now n :
  node_inv n → room 1 n → wp (advance_commit_index now) (leader_run n) (stops n) n.
Proof. intros Hn Hroom. apply advance_spec; [done|by right]. Qed.

Lemma append_config_entry_spec c now n :
  node_inv n → config_good c → room 2 n →
  wp (append_config_entry c now) (leader_run n) (stops n) n.
Proof.
  intros Hn Hc Hroom. unfold room in *. apply append_config_entry_with_spec; [done..|unfold room; lia|].
  intros n1 Hn1 _ Hlast. apply advance_commit_index_spec; [done|]. unfold room. lia.
Qed.

(** *** More fuel changes nothing *)

(** [m'] agrees with [m] wherever [m] returns. *)
Definition extends {A} (m m' : eff (RaftNode L) RaftError A) : Prop :=
  ∀ n, (m n).2 ≠ Halt → m' n = m n.

Lemma extends_refl {A} (m : eff (RaftNode L) RaftError A) : extends m m.
Proof. done. Qed.

Lemma extends_bind {A B} (m m' : eff (RaftNode L) RaftError A) (k k' : A → eff (RaftNode L) RaftError B) :
  extends m m' → (∀ a, extends (k a) (k' a)) → extends (m ≫= k) (m' ≫= k').
Proof.
  intros Hm Hk n. unfold mbind, eff_bind. specialize (Hm n). destruct (m n) as [n1 [a|e|]]; intros Hr.
  - rewrite Hm by done. by apply Hk.
  - by rewrite Hm.
  - done.
Qed.

Lemma after_commit_extends (adv adv' : Instant → eff (RaftNode L) RaftError (list Outbound)) now :
  extends (adv now) (adv' now) →
  extends (after_commit_config_actions_with adv now) (after_commit_config_actions_with adv' now).
Proof.
  intros Hadv. unfold after_commit_config_actions_with, append_config_entry_with.
  apply extends_bind; [done|]. intros n. destruct (negb _); [done|]. destruct (_ <? _); [done|].
  destruct (is_joint _); [|done]. by repeat (apply extends_bind; [done|intros ?]).
Qed.

Lemma advance_fuel_S k now : extends (advance_commit_index_fuel k now) (advance_commit_index_fuel (S k) now).
Proof.
  induction k as [|k IH]; [by intros n ?|].
  change (advance_commit_index_fuel (S (S k)) now) with
    (last ← on_log st_last_index; n ← gets id;
     match n_role n with
     | Leader state =>
         new_commit ← commit_scan (S (N.to_nat (u64_val last))) last state;
         if decide (new_commit = n_commit_index n) then mret []
         else modify (set_commit_index new_commit);;
           after_commit_config_actions_with (advance_commit_index_fuel (S k)) now
     | _ => mret []
     end : eff (RaftNode L) RaftError (list Outbound)).
  cbn [advance_commit_index_fuel]. do 2 (apply extends_bind; [done|intros ?]).
  destruct (n_role _); [done..|]. apply extends_bind; [done|intros ?]. case_decide; [done|].
  apply extends_bind; [done|intros ?]. by apply after_commit_extends.
Qed.

Lemma advance_fuel_le j k now n :
  (j ≤ k)%nat → (advance_commit_index_fuel j now n).2 ≠ Halt →
  advance_commit_index_fuel k now n = advance_commit_index_fuel j now n.
Proof.
  intros Hjk Hr. induction Hjk as [|k _ IH]; [done|]. rewrite <-IH. apply advance_fuel_S. by rewrite IH.
Qed.

(** The tail of every leader write: try to commit, then replicate. *)
Lemma advance_replicate_spec now n :
  node_inv n → room 1 n →
  wp (outs ← advance_commit_index now; outs' ← replicate_all; mret (outs ++ outs'))
    (leader_run n) (stops n) n.
Proof.
  intros Hn Hroom. wp_step. eapply wp_mono; [by apply advance_commit_index_spec| |done].
  intros outs n1 Hrun. wp_step. eapply wp_mono; [apply replicate_all_spec, Hrun| |].
  - intros outs' n2 Hrun2. wp_step. by eapply leader_run_trans.
  - intros e n' Hf. by eapply leader_run_stops.
Qed.

(** *** Terms and timers *)

(** A change of volatile fields no invariant speaks of, with the role lowered to
    follower or kept. *)
Definition volatile n n' : Prop :=
  n_id n' = n_id n ∧ n_configs n' = n_configs n ∧ n_log n' = n_log n ∧ n_hard n' = n_hard n ∧
  n_commit_index n' = n_commit_index n ∧ n_snapshot n' = n_snapshot n ∧ n_config n' = n_config n ∧
  (n_role n' = Follower ∨ n_role n' = n_role n).

Record kept n n' : Prop := {
  k_inv : node_inv n';
  k_ext : ext n n';
  k_quiet : quiet n n'
}.

Lemma kept_refl n : node_inv n → kept n n.
Proof. done. Qed.

Lemma kept_trans n1 n2 n3 : kept n1 n2 → kept n2 n3 → kept n1 n3.
Proof. intros [] []. split; [done|by etrans..]. Qed.

Lemma leader_post_kept n n' : leader_post n n' → kept n n'.
Proof. by intros []. Qed.

Lemma same_kept n n' : node_inv n → same n n' → kept n n'.
Proof. intros ? ?. by apply leader_post_kept, same_leader_post. Qed.

Lemma kept_fails n n' e n'' : kept n n' → fails n' e n'' → fails n e n''.
Proof. intros [_ [] _] [? ?]. split; [by eapply failed_ext|done]. Qed.

Lemma volatile_kept n n' : node_inv n → volatile n n' → kept n n'.
Proof.
  intros [Hst Hd Hh Hs Htr Hb Hbi Hro] (Ei & Ec & El & Eh & Em & Es & Eg & Er).
  assert (view n' = view n) as Hv by (unfold view; by rewrite El).
  split.
  - split; rewrite ?Hv, ?Ec, ?El, ?Eh, ?Es; try done.
    unfold role_ok, node_term in *. rewrite Hv, Eh, Ei. by destruct Er as [->| ->].
  - split; [done..|by rewrite Eh|]. unfold commit_ok. by rewrite Hv, Em.
  - split.
    + intros vs Hvs. destruct Er as [Er|Er]; rewrite Er in Hvs; [done|]. done.
    + unfold is_leader, node_term. rewrite Eh. by destruct Er as [->| ->].
Qed.

Lemma volatile_refl n : volatile n n.
Proof. unfold volatile. auto 10. Qed.

Lemma volatile_trans n1 n2 n3 : volatile n1 n2 → volatile n2 n3 → volatile n1 n3.
Proof.
  intros (?&?&?&?&?&?&?&R1) (?&?&?&?&?&?&?&R2). unfold volatile.
  repeat (split; [congruence|]). destruct R2 as [?|R2]; [by left|]. rewrite R2. done.
Qed.

Lemma wp_arm_election_timer now (Q : () → RaftNode L → Prop) X n :
  (∀ n', volatile n n' → n_role n' = n_role n → n_leader_id n' = n_leader_id n →
     n_last_leader_contact n' = n_last_leader_contact n → Q () n') →
  wp (arm_election_timer now) Q X n.
Proof.
  intros HQ. unfold arm_election_timer. wp_step. destruct (election_timeout _ _ _) as [d r].
  apply HQ; try done. unfold volatile. simpl. auto 10.
Qed.

Lemma wp_step_down (Q : () → RaftNode L → Prop) X n :
  (∀ n', volatile n n' → n_role n' = Follower → Q () n') →
  wp step_down_to_follower Q X n.
Proof.
  intros HQ. unfold step_down_to_follower. wp_step. apply HQ; [|by destruct (n_role n)].
  unfold volatile. destruct (n_role n); simpl; auto 10.
Qed.

Lemma durable_save_hard v h :
  durable_ok v → u64_val (current_term (v_hard v)) ≤ current_term h → durable_ok (view_save_hard h v).
Proof.
  intros [Hc Hcan Ht Hs] Hle. split; simpl; [done|done| |].
  - intros i e He. specialize (Ht i e He). lia.
  - intros m d Hm. destruct (Hs m d Hm). split; [done|lia].
Qed.

(** Persisting a new hard state: what was decided in memory is durable. *)
Lemma save_hard_kept n l' h r :
  node_inv n → store_ok l' → store_view l' = view_save_hard h (view n) →
  hard_le (n_hard n) h →
  (r = Follower ∨ ∃ votes, r = Candidate votes ∧ voted_for h = Some (n_id n) ∧ n_id n ∈ votes ∧ 0 < current_term h) →
  let n' := set_role r (set_hard h (set_log l' n)) in node_inv n' ∧ ext n n'.
Proof.
  intros Hn Hl Hv Hle Hr n'. pose proof Hn as [Hst Hd Hh Hs Htr Hb Hbi Hro].
  assert (view n' = view_save_hard h (view n)) as Hv' by done.
  split; [split|split]; rewrite ?Hv'; try done.
  - apply durable_save_hard; [done|]. rewrite Hh. by apply hard_le_term.
  - unfold role_ok. simpl. destruct Hr as [->|(votes & -> & ? & ? & ?)]; [done|]. done.
  - unfold commit_ok. rewrite Hv'. done.
Qed.

Definition log_kept n n' : Prop :=
  v_entries (view n') = v_entries (view n) ∧ v_snapshot (view n') = v_snapshot (view n) ∧
  n_configs n' = n_configs n ∧ n_commit_index n' = n_commit_index n.

Lemma observe_term_spec t now n :
  node_inv n →
  wp (observe_term t now)
    (λ b n', kept n n' ∧ log_kept n n' ∧
       if b : bool then node_term n < u64_val t ∧ node_term n' = t ∧ n_role n' = Follower ∧
         n_hard n' = stepped_to (n_hard n) t ∧ n_last_leader_contact n' = n_last_leader_contact n
       else n' = n ∧ u64_val t ≤ node_term n)
    (fails n) n.
Proof.
  intros Hn. unfold observe_term. do 2 wp_step.
  destruct (N.ltb_spec (current_term (n_hard n)) t) as [Hlt|Hge].
  2:{ wp_step. split; [by apply kept_refl|]. done. }
  do 3 wp_step. unfold step_down_to_follower. do 3 wp_step. wp_step.
  set (n0 := set_leader_id None _).
  assert (∃ rs, n0 = set_read_results rs (set_leader_id None (set_role Follower
    (set_hard (stepped_to (n_hard n) t) n)))) as [rs Hn0].
  { unfold n0. simpl. destruct (n_role n); eexists; reflexivity. }
  rewrite Hn0. clearbody n0. clear n0 Hn0.
  apply (wp_write _ (view_save_hard (stepped_to (n_hard n) t))); [apply save_hard_writes|apply Hn|..].
  - intros l' Hl' Hv'. wp_step.
    destruct (save_hard_kept n l' (stepped_to (n_hard n) t) Follower Hn Hl' Hv') as [Hn1 Hx1];
      [by apply hard_le_stepped|by left|].
    apply wp_arm_election_timer. intros n2 Hvol Hr2 _ Hlc2. wp_step.
    set (n1 := set_role Follower (set_hard (stepped_to (n_hard n) t) (set_log l' n))) in *.
    assert (kept n1 n2) as [Hn2 Hx2 Hq2].
    { apply volatile_kept; [done|]. exact Hvol. }
    assert (quiet n n1) as Hq1 by by split.
    destruct Hvol as (_ & Ec & El & Eh & Em & _). split_and!.
    + split; [done|by etrans|by etrans].
    + unfold log_kept, view. rewrite El, Ec, Em. simpl. by rewrite Hv'.
    + done.
    + unfold node_term. by rewrite Eh.
    + by rewrite Hr2.
    + by rewrite Eh.
    + by rewrite Hlc2.
  - intros e n' Hs ?. split; [|done]. destruct Hs as (l & Hl & Hv & ->).
    split; simpl; [done|..]; unfold view in *; simpl in *; rewrite Hv; [apply Hn|].
    pose proof (i_hard _ Hn) as E. unfold view in E. by rewrite E.
Qed.

End spec.
