(* ===== verification/RaftReceiver.v ===== *)
(** * brokkr-raft: the receiver's log operations

    Specifications of [log_matches], [conflict_hint] and [append_new_entries]:
    the consistency check of AppendEntries, the back-off hint, and the merge of
    a leader's entries into the local log. *)

From stdpp Require Import prelude gmap strings sorting.
From Stdlib Require Import Lia.
From S2P Require Import Prelude Machine Bytes RaftTypes RaftRng RaftWire RaftStore RaftConfig RaftNode RaftNodeSpec.

Local Open Scope N_scope.

(** ** Merging entries into a log *)

(** What [append_new_entries] does to the log, as a function: keep what agrees,
    cut at the first entry that does not, append the rest. *)
Fixpoint merge (snap : N) (es : list LogEntry) (v : LogView) : LogView :=
  match es with
  | [] => v
  | e :: rest =>
      if le_index e <=? snap then merge snap rest v
      else
        match v_entries v !! u64_val (le_index e) with
        | Some existing =>
            if decide (le_term existing = le_term e) then merge snap rest v
            else view_append es (view_truncate (le_index e) v)
        | None => view_append es v
        end
  end.

(** An entry of the request the log contradicts. *)
Definition conflicts (v : LogView) (e : LogEntry) : Prop :=
  ∃ existing, v_entries v !! u64_val (le_index e) = Some existing ∧ le_term existing ≠ le_term e.

(** The contract of the merge. *)
Record merged (snap prev : N) (es : list LogEntry) (v v' : LogView) : Prop := {
  m_contig : contiguous v';
  m_snap : v_snapshot v' = v_snapshot v;
  m_hard : v_hard v' = v_hard v;
  (* every entry of the request is there, by index and term *)
  m_present e : e ∈ es → snap < u64_val (le_index e) →
    ∃ e', v_entries v' !! u64_val (le_index e) = Some e' ∧ le_term e' = le_term e;
  (* nothing comes from anywhere else *)
  m_source i e : v_entries v' !! i = Some e → v_entries v !! i = Some e ∨ e ∈ es;
  (* an entry is lost only at or beyond a genuine conflict *)
  m_keeps i e : v_entries v !! i = Some e → v_entries v' !! i = Some e ∨
    ∃ c, c ∈ es ∧ snap < u64_val (le_index c) ∧ u64_val (le_index c) ≤ i ∧ conflicts v c;
  m_last : N.max snap (prev + N.of_nat (length es)) ≤ view_last_index v'
}.

Lemma merge_append_tail snap prev es v :
  contiguous v → view_snap_index v = snap → view_last_index v = prev → numbered_from (prev + 1) es →
  merged snap prev es v (view_append es v).
Proof.
  intros Hc <- <- Hn. destruct (contiguous_append v es Hc Hn) as [Hc' Hl].
  pose proof (numbered_from_sorted _ _ Hn) as Hs. pose proof Hc as (Hle & Hdom & Hself).
  split; simpl; [done..| | | |lia].
  - intros e He _. exists e. split; [|done]. apply foldl_insert_lookup; [done|]. by left.
  - intros i e. rewrite foldl_insert_lookup by done. naive_solver.
  - intros i e He. left. apply foldl_insert_lookup; [done|]. right. split; [done|].
    intros e' He'. apply (numbered_from_elem _ _ _ Hn) in He'.
    destruct (proj1 (Hdom i) ltac:(eauto)). lia.
Qed.

Lemma merge_append_cut snap prev e es v :
  contiguous v → view_snap_index v = snap → snap ≤ prev → numbered_from (prev + 1) (e :: es) →
  conflicts v e →
  merged snap prev (e :: es) v (view_append (e :: es) (view_truncate (le_index e) v)).
Proof.
  intros Hc Hsnap Hle Hn Hcf. pose proof Hcf as (ex & Hex & Hne). pose proof Hn as [Hi Hn'].
  pose proof (proj1 (proj2 Hc)) as Hdom. destruct (proj1 (Hdom (le_index e))) as [_ Hlast]; [by eexists|].
  destruct (contiguous_truncate v (le_index e) Hc) as [Hct Hlt]; [lia|].
  destruct (merge_append_tail snap prev (e :: es) (view_truncate (le_index e) v))
    as [? ? ? ? Hsrc Hkeep ?]; [done|done|lia|done|].
  split; try done.
  - intros i e' [Hv|?]%Hsrc; [|by right]. simpl in Hv. apply map_lookup_filter_Some in Hv as [? _]. by left.
  - intros i e' Hv. destruct (decide (i < le_index e)) as [Hlti|Hge].
    + destruct (Hkeep i e') as [?|(c & Hc1 & Hc2 & Hc3 & ex' & Hx & _)]; [|by left|].
      * simpl. by apply map_lookup_filter_Some.
      * simpl in Hx. apply map_lookup_filter_Some in Hx as [_ Hlt']. simpl in Hlt'.
        pose proof (numbered_from_elem _ _ _ Hn Hc1). lia.
    + right. exists e. split_and!; [set_solver|lia|lia|done].
Qed.

Lemma merge_spec snap es : ∀ prev v,
  contiguous v → view_snap_index v = snap → prev ≤ view_last_index v →
  numbered_from (prev + 1) es →
  merged snap prev es v (merge snap es v).
Proof.
  induction es as [|e es IH]; intros prev v Hc Hsnap Hprev Hn; simpl.
  { pose proof Hc as [Hle _]. split; simpl; [done..|set_solver|auto|auto|lia]. }
  pose proof Hn as [Hi Hn']. pose proof Hc as (Hle & Hdom & Hself).
  assert (merged snap (prev + 1) es v (merge snap es v) →
    (snap < u64_val (le_index e) → ∃ e', v_entries v !! u64_val (le_index e) = Some e' ∧ le_term e' = le_term e) →
    merged snap prev (e :: es) v (merge snap es v)) as Hskip.
  { intros [? ? ? Hp Hsrc Hk Hl] Hhave. split; [done..| | | |simpl length; lia].
    - intros e' [->|He']%elem_of_cons Hlt; [|by apply Hp]. destruct (Hhave Hlt) as (ex & Hex & Ht).
      destruct (Hk _ _ Hex) as [?|(c & Hc1 & _ & Hc3 & _)]; [eauto|].
      pose proof (numbered_from_elem _ _ _ Hn' Hc1). lia.
    - intros i e' [?|?]%Hsrc; [by left|right; set_solver].
    - intros i e' [?|(c & ? & ?)]%Hk; [by left|right; exists c; set_solver]. }
  destruct (N.leb_spec (le_index e) snap).
  { apply Hskip; [|lia]. apply IH; [done|done|lia|done]. }
  destruct (v_entries v !! u64_val (le_index e)) as [ex|] eqn:Hex; [case_decide as Ht|].
  - destruct (proj1 (Hdom (le_index e))) as [_ ?]; [by eexists|].
    apply Hskip; [apply IH; [done|done|lia|done]|]. eauto.
  - apply merge_append_cut; [done|done|lia|done|]. by exists ex.
  - apply merge_append_tail; [done|done| |done].
    destruct (decide (prev = view_last_index v)); [done|].
    destruct (proj2 (Hdom (le_index e))) as [? ?]; [lia|congruence].
Qed.

(** Entries the log already has change nothing: a delayed or duplicated request
    erases no suffix. *)
Lemma merge_noop snap es v :
  (∀ e, e ∈ es → snap < u64_val (le_index e) →
     ∃ e', v_entries v !! u64_val (le_index e) = Some e' ∧ le_term e' = le_term e) →
  merge snap es v = v.
Proof.
  induction es as [|e es IH]; intros Hes; simpl; [done|].
  destruct (N.leb_spec (le_index e) snap); [apply IH; set_solver|].
  destruct (Hes e) as (e' & -> & Ht); [set_solver|done|]. rewrite decide_True by done.
  apply IH. set_solver.
Qed.

(** ** The receiver's methods *)

Section receiver.
Context {L : Type} `{RaftStoreSpec L} `{!Bootstrap}.
Implicit Types n : RaftNode L.

(** The consistency check, on the view. *)
Definition view_matches (prev : LogIndex) (t : Term) (v : LogView) : bool :=
  (u64_val prev =? 0) || (prev <? view_snap_index v) || bool_decide (view_term_at prev v = Some t).

Lemma log_matches_answers prev t :
  answers (log_matches prev t) (λ r n, r = view_matches prev t (view n)).
Proof.
  intros n Hn. unfold log_matches, view_matches. do 2 wp_step. cbn [id].
  rewrite (snapshot_index_view n Hn). case_decide as Hz.
  { wp_step. split; [apply same_refl, Hn|]. by rewrite Hz. }
  destruct (N.eqb_spec prev 0) as [Hz'|_]; [by destruct Hz; apply u64_inj|].
  destruct (prev <? _); [wp_step; split; [apply same_refl, Hn|done]|].
  wp_step. apply (answers_wp _ _ _ _ _ (term_at_answers prev) Hn); [|auto].
  intros r n' Hs Hn' ->. by wp_step.
Qed.

Lemma view_term_at_last v i t : contiguous v → view_term_at i v = Some t → u64_val i ≤ view_last_index v.
Proof.
  intros (Hle & Hdom & _) Ht. unfold view_term_at in Ht.
  destruct (v_entries v !! u64_val i) eqn:He; [apply mk_is_Some, Hdom in He; lia|].
  unfold view_snap_index in *. destruct (v_snapshot v) as [[m d]|]; [|done].
  case_decide; [|done]. by subst.
Qed.

(** A request that passes the check attaches to the log. *)
Lemma view_matches_last v prev t :
  contiguous v → view_matches prev t v = true → u64_val prev ≤ view_last_index v.
Proof.
  intros Hc Hm. unfold view_matches in Hm. rewrite !orb_true_iff, N.eqb_eq, N.ltb_lt, bool_decide_eq_true in Hm.
  destruct Hm as [[?|?]|?]; [lia|destruct Hc; lia|by eapply view_term_at_last].
Qed.

(** The back-off hint: just past a log that is too short, or the first index of
    a run of one term that reaches [prev]. *)
Definition hint_ok (prev : LogIndex) (hint : Term * LogIndex) n : Prop :=
  (view_last_index (view n) < u64_val prev ∧ hint = (Term_ZERO, LogIndex_next (view_last (view n)).1)) ∨
  (u64_val prev ≤ view_last_index (view n) ∧ u64_val hint.2 ≤ prev ∧
   hint.1 = match v_entries (view n) !! u64_val prev with Some e => le_term e | None => Term_ZERO end ∧
   (∀ i, u64_val hint.2 ≤ i < prev → ∃ e, v_entries (view n) !! i = Some e ∧ le_term e = hint.1) ∧
   (u64_val hint.2 ≤ 1 ∨
    ∀ e, v_entries (view n) !! (hint.2 - 1) = Some e → le_term e ≠ hint.1)).

Lemma conflict_scan_spec t fuel : ∀ (first : LogIndex) n,
  node_inv n → (N.to_nat (u64_val first) < fuel)%nat →
  wp (conflict_scan fuel t first)
    (λ r n', same n n' ∧ u64_val r ≤ first ∧
       (∀ i, u64_val r ≤ i < first → ∃ e, v_entries (view n) !! i = Some e ∧ le_term e = t) ∧
       (u64_val r ≤ 1 ∨ ∀ e, v_entries (view n) !! (r - 1) = Some e → le_term e ≠ t))
    (λ e n', same n n' ∧ storage_fault e) n.
Proof.
  induction fuel as [|fuel IH]; intros first n Hn Hfuel; [lia|]. cbn [conflict_scan].
  destruct (N.ltb_spec 1 first) as [Hf|Hf].
  2:{ wp_step. split_and!; [apply same_refl, Hn|done|intros; lia|by left]. }
  wp_step. apply (answers_wp _ _ _ _ _ (answers_read _ _ (get_reads _)) Hn); [|auto].
  intros r n' Hs Hn' ->. unfold view_get. rewrite LogIndex_prev_val.
  destruct (v_entries (view n) !! (first - 1)) as [e|] eqn:He; [case_decide as Ht|].
  - eapply wp_mono; [apply (IH (LogIndex_prev first) n'); [done|rewrite LogIndex_prev_val; lia]| |].
    + intros r n'' (Hs' & Hle & Hrun & Hstop). rewrite LogIndex_prev_val in *.
      rewrite (same_view _ _ Hs) in *. split_and!; [by eapply same_trans|lia| |done].
      intros i Hi. destruct (decide (i = first - 1)) as [->|]; [eauto|]. apply Hrun. lia.
    + intros err n'' [? ?]. split; [by eapply same_trans|done].
  - wp_step. split_and!; [done|done|intros; lia|right]. intros e' ?. by simplify_eq.
  - wp_step. split_and!; [done|done|intros; lia|right]. intros e' ?. by simplify_eq.
Qed.

Lemma conflict_hint_answers prev : answers (conflict_hint prev) (hint_ok prev).
Proof.
  intros n Hn. unfold conflict_hint. wp_step.
  apply (answers_wp _ _ _ _ _ (answers_read _ _ last_index_reads) Hn); [|auto].
  intros last n' Hs Hn' ->.
  change (u64_val (view_last (view n)).1) with (view_last_index (view n)).
  destruct (N.ltb_spec (view_last_index (view n)) prev).
  { wp_step. split; [done|]. by left. }
  wp_step. apply (answers_wp _ _ _ _ _ (answers_read _ _ (get_reads _)) Hn'); [|eauto using same_trans].
  intros r n2 Hs2 Hn2 ->. unfold view_get. wp_step.
  eapply wp_mono; [apply conflict_scan_spec; [done|lia]| |].
  - intros r n3 (Hs3 & Hle & Hrun & Hstop). wp_step.
    rewrite (same_view _ _ Hs2), (same_view _ _ Hs) in *. split; [eauto using same_trans|].
    right. done.
  - intros e n3 [? ?]. eauto using same_trans.
Qed.

Lemma note_configs_base es : ∀ t,
  base (note_configs es t) = base t ∧ base_index (note_configs es t) = base_index t.
Proof.
  induction es as [|e es IH]; intros t; [done|]. simpl. destruct (IH (match le_payload e with
    | Config c => on_append (le_index e) c t | _ => t end)) as [-> ->]. by destruct (le_payload e).
Qed.

(** A follower whose log and tracked configurations were rewritten together. *)
Lemma rewritten_inv n l' t :
  node_inv n → n_role n = Follower → store_ok l' → durable_ok (store_view l') →
  v_hard (store_view l') = v_hard (view n) → v_snapshot (store_view l') = v_snapshot (view n) →
  tracks t (v_entries (store_view l')) →
  base t = base (n_configs n) → base_index t = base_index (n_configs n) →
  node_inv (set_configs t (set_log l' n)).
Proof.
  intros [Hst Hd Hh Hs Htr Hb Hbi Hro] Hr Hl Hd' Hh' Hs' Ht Eb Ebi.
  assert (view (set_configs t (set_log l' n)) = store_view l') as Hv by done.
  split; rewrite ?Hv; simpl; rewrite ?Eb, ?Ebi, ?Hh', ?Hs'; try done.
  - rewrite Hb. unfold base_of. by rewrite Hs'.
  - rewrite Hbi. unfold view_snap_index. by rewrite Hs'.
  - unfold role_ok. simpl. by rewrite Hr.
Qed.

Definition fits n (prev : N) (es : list LogEntry) : Prop :=
  numbered_from (prev + 1) es ∧ Forall entry_ok es ∧
  Forall (λ e, u64_val (le_term e) ≤ node_term n) es.

Lemma fits_cons n prev e es : fits n prev (e :: es) → fits n (prev + 1) es.
Proof. intros ([_ ?] & Hc & Ht). apply Forall_cons in Hc as [_ ?], Ht as [_ ?]. done. Qed.

Definition relogged n v' n' : Prop :=
  node_inv n' ∧ view n' = v' ∧ n' = set_configs (n_configs n') (set_log (n_log n') n).

(** Appending at the end of the log. *)
Lemma append_tail_spec es n n0 :
  node_inv n → same n n0 → n_role n = Follower → es ≠ [] → fits n (view_last_index (view n)) es →
  wp (on_log (st_append_all es);; note_appended_configs es)
    (λ _ n', relogged n (view_append es (view n)) n') (fails n) n0.
Proof.
  intros Hn Hs Hr Hne (Hnum & Hcan & Hts). wp_step.
  apply (wp_write _ (view_append es)); [by apply append_writes, entry_ok_canonical|by eapply same_store| |].
  - intros l' Hl' Hv'. rewrite (same_view _ _ Hs) in Hv'. unfold note_appended_configs. wp_step.
    destruct Hs as (l & _ & _ & ->). simpl. pose proof (i_dur _ Hn) as Hd.
    destruct (note_configs_base es (n_configs n)) as [Hb Hbi].
    assert (node_inv (set_configs (note_configs es (n_configs n)) (set_log l' n))); [|done].
    apply rewritten_inv; rewrite ?Hv'; try done.
    + apply durable_append; [done..|]. by rewrite (i_hard _ Hn).
    + apply tracks_note_configs; [apply Hn|by eapply numbered_from_sorted|].
      intros j e Hj He. apply (contiguous_keys _ _ (d_contig _ Hd)) in Hj.
      apply (numbered_from_elem _ _ _ Hnum) in He. lia.
  - intros e n' Hs' ?. apply same_fails; [done|by eapply same_trans|done].
Qed.

(** Cutting the log at a conflict. *)
Lemma truncate_spec i n l' :
  node_inv n → n_role n = Follower → view_snap_index (view n) < u64_val i ≤ view_last_index (view n) →
  store_ok l' → store_view l' = view_truncate i (view n) →
  node_inv (set_configs (on_truncate i (n_configs n)) (set_log l' n)) ∧
  view_last_index (store_view l') = i - 1.
Proof.
  intros Hn Hr Hi Hl Hv. pose proof (i_dur _ Hn) as [Hc Hcan Ht Hs].
  destruct (contiguous_truncate (view n) i Hc) as [Hc' Hlast]; [lia|]. split; [|by rewrite Hv].
  apply rewritten_inv; rewrite ?Hv; try done.
  - split; simpl; [done|intros j e [? _]%map_lookup_filter_Some; eauto..|done].
  - apply tracks_truncate, Hn.
Qed.

Lemma append_new_entries_from_spec es : ∀ prev n n0,
  node_inv n → same n n0 → n_role n = Follower → prev ≤ view_last_index (view n) → fits n prev es →
  wp (append_new_entries_from (snapshot_index n) es)
    (λ _ n', relogged n (merge (view_snap_index (view n)) es (view n)) n') (fails n) n0.
Proof.
  induction es as [|e es IH]; intros prev n n0 Hn Hs Hr Hprev Hfits; cbn [append_new_entries_from merge].
  { wp_step. split_and!; [by eapply same_inv|by apply same_view|]. by destruct Hs as (l & _ & _ & ->). }
  rewrite (snapshot_index_view n Hn). pose proof Hfits as ([Hi Hnum] & _ & _).
  destruct (d_contig _ (i_dur _ Hn)) as (Hle & Hdom & Hself).
  destruct (N.leb_spec (le_index e) (view_snap_index (view n))).
  { apply (IH (prev + 1)); [done..|lia|by eapply fits_cons]. }
  wp_step. apply (answers_wp _ _ _ _ _ (answers_read _ _ (get_reads _)) (same_inv _ _ Hs Hn)).
  2:{ intros. apply same_fails; [done|by eapply same_trans|done]. }
  intros r n1 Hs1 Hn1 ->. rewrite (same_view _ _ Hs). pose proof (same_trans _ _ _ Hs Hs1) as Hs01.
  unfold view_get. destruct (v_entries (view n) !! u64_val (le_index e)) as [ex|] eqn:Hex.
  - destruct (proj1 (Hdom (le_index e))) as [_ Hlast]; [by eexists|]. case_decide.
    { apply (IH (prev + 1)); [done..|lia|by eapply fits_cons]. }
    wp_step. apply (wp_write _ (view_truncate (le_index e))); [apply truncate_writes|by eapply same_store| |].
    2:{ intros err n' Hs' ?. apply same_fails; [done|by eapply same_trans|done]. }
    intros l' Hl' Hv'. rewrite (same_view _ _ Hs01) in Hv'. do 2 wp_step.
    destruct (truncate_spec (le_index e) n l') as [Hn2 Hl2]; [done|done|lia|done|done|].
    destruct Hs01 as (l & _ & _ & ->). simpl.
    set (n2 := set_configs (on_truncate (le_index e) (n_configs n)) (set_log l' n)) in *.
    eapply wp_mono; [apply (append_tail_spec (e :: es) n2 n2)| |].
    + done.
    + apply same_refl, Hn2.
    + done.
    + done.
    + unfold fits. change (view n2) with (store_view l'). rewrite Hl2.
      replace (le_index e - 1) with prev by lia. done.
    + intros _ n3 (Hn3 & Hv3 & Heq). split_and!; [done| |exact Heq]. rewrite Hv3.
      change (view n2) with (store_view l'). by rewrite Hv'.
    + intros err n3 [Hf ?]. split; [by apply (failed_ext n n2)|done].
  - apply (append_tail_spec (e :: es) n n1); [done..|].
    replace (view_last_index (view n)) with prev; [done|].
    destruct (decide (prev = view_last_index (view n))); [done|].
    destruct (proj2 (Hdom (le_index e))) as [? ?]; [lia|congruence].
Qed.

End receiver.
