(* ===== verification/RaftLogRel.v ===== *)
(** * brokkr-raft: durable logs and the protocol's logs

    A server's disk holds the end of its log and, once compacted, a snapshot in
    place of the beginning.  [log_rel] relates what is on disk to the whole log
    the protocol of [RaftProtocol.v] speaks of: the entries on disk are the last
    ones of that log, and the snapshot carries the term and the configuration of
    the position it stands for.  The operations of the store and the receiver's
    merge act on both sides alike. *)

From stdpp Require Import prelude functions gmap strings sorting.
From Stdlib Require Import Lia.
From S2P Require Import Prelude Machine Bytes RaftTypes RaftProtocol RaftAgreement RaftRng RaftWire RaftStore RaftConfig RaftNode RaftNodeSpec RaftReceiver.

Local Open Scope N_scope.

Notation pos i := (N.to_nat (u64_val i)).

(** What the data of a snapshot has to do with the log prefix it replaces. *)
Class SnapData : Type := snap_data : bytes → list LogEntry → Prop.

Section log_rel.
Context `{Origin} `{SnapData}.

Implicit Types (l : list LogEntry) (v : LogView).

Record log_rel l v : Prop := {
  lr_contig : contiguous v;
  lr_len : N.of_nat (length l) = view_last_index v;
  lr_entry i e : v_entries v !! i = Some e → l !! (N.to_nat i - 1)%nat = Some e;
  lr_snap m d : v_snapshot v = Some (m, d) →
    0 < last_included_index m ∧
    term_of l (pos (last_included_index m)) = u64_val (last_included_term m) ∧
    votes_of (snap_config m) = cfg (take (pos (last_included_index m)) l) ∧
    snap_data d (take (pos (last_included_index m)) l)
}.

Lemma lr_get l v i e :
  log_rel l v → view_snap_index v < i → l !! (N.to_nat i - 1)%nat = Some e → v_entries v !! i = Some e.
Proof.
  intros [(_ & Hdom & _) Hlen He _] Hi Hl. pose proof (lookup_lt_Some _ _ _ Hl).
  destruct (proj2 (Hdom i)) as [e' He']; [lia|]. rewrite (He _ _ He') in Hl. congruence.
Qed.

Lemma lr_index l v i e :
  log_rel l v → v_entries v !! i = Some e → view_snap_index v < i ≤ view_last_index v ∧ u64_val (le_index e) = i.
Proof.
  intros [(_ & Hdom & Hself) _ _ _] He. split; [apply Hdom; by eexists|by apply Hself].
Qed.

Lemma view_last_ext v v' :
  v_entries v' = v_entries v → v_snapshot v' = v_snapshot v → view_last v' = view_last v.
Proof. intros He Hs. unfold view_last. by rewrite He, Hs. Qed.

Lemma log_rel_ext l v v' :
  v_entries v' = v_entries v → v_snapshot v' = v_snapshot v → log_rel l v → log_rel l v'.
Proof.
  intros He Hs [Hc Hl Hent Hsn]. pose proof (view_last_ext _ _ He Hs) as Hlast.
  split; unfold contiguous, view_last_index, view_snap_index in *; rewrite ?He, ?Hs, ?Hlast; done.
Qed.

Lemma log_rel_snap_le l v : log_rel l v → view_snap_index v ≤ N.of_nat (length l).
Proof. intros [(? & _) Hl _ _]. lia. Qed.

Lemma log_rel_last l v :
  log_rel l v → u64_val (view_last v).1 = N.of_nat (length l) ∧ u64_val (view_last v).2 = last_term l.
Proof.
  intros Hr. pose proof (lr_len _ _ Hr) as Hlen. split; [done|].
  pose proof (lr_contig _ _ Hr) as (Hle & Hdom & _).
  destruct (decide (view_snap_index v = view_last_index v)) as [Heq|Hne].
  - assert (v_entries v = ∅) as Hempty.
    { apply map_eq. intros i. rewrite lookup_empty. apply eq_None_not_Some. rewrite Hdom. lia. }
    unfold view_last, view_snap_index in *. rewrite (proj2 (table_last_None _) Hempty).
    destruct (v_snapshot v) as [[m d]|] eqn:Hs; simpl.
    + destruct (lr_snap _ _ Hr m d Hs) as (_ & <- & _). unfold last_term. f_equal. lia.
    + by destruct l; [|simpl in Hlen; lia].
  - destruct (proj2 (Hdom (view_last_index v))) as [e He]; [lia|].
    destruct (view_last_index_Some v (view_last_index v) e He) as [_ ->].
    + intros j Hj%Hdom. lia.
    + apply view_last_le_max.
    + apply (lr_entry _ _ Hr) in He. unfold last_term.
      replace (length l) with (S (N.to_nat (view_last_index v) - 1)) by lia. by rewrite (term_of_lookup _ _ _ He).
Qed.

Lemma log_rel_term_at l v (i : LogIndex) t :
  log_rel l v → 0 < i → view_term_at i v = Some t →
  u64_val t = term_of l (pos i) ∧ (pos i ≤ length l)%nat.
Proof.
  intros Hr Hi Ht. unfold view_term_at in Ht. destruct (v_entries v !! u64_val i) as [e|] eqn:He.
  - simplify_eq. apply (lr_entry _ _ Hr) in He. pose proof (lookup_lt_Some _ _ _ He).
    replace (pos i) with (S (pos i - 1)) at 1 by lia. rewrite (term_of_lookup _ _ _ He). split; [done|lia].
  - destruct (v_snapshot v) as [[m d]|] eqn:Hs; [|done]. case_decide; [|done]. simplify_eq.
    destruct (lr_snap _ _ Hr m d Hs) as (_ & <- & _). split; [done|].
    pose proof (log_rel_snap_le _ _ Hr) as Hle. unfold view_snap_index in Hle. rewrite Hs in Hle. lia.
Qed.

Lemma log_rel_term_none l v (i : LogIndex) :
  log_rel l v → view_snap_index v ≤ i → 0 < i → view_term_at i v = None → N.of_nat (length l) < i.
Proof.
  intros Hr Hs Hi Ht. destruct (decide (N.of_nat (length l) < i)) as [|Hge]; [done|]. exfalso.
  unfold view_term_at in Ht. destruct (v_entries v !! u64_val i) eqn:He; [done|].
  pose proof (lr_contig _ _ Hr) as (_ & Hdom & _). pose proof (lr_len _ _ Hr).
  assert (view_snap_index v = i) as Heq.
  { destruct (decide (view_snap_index v = i)); [done|]. destruct (proj2 (Hdom i)) as [? ?]; [lia|congruence]. }
  unfold view_snap_index in Heq. destruct (v_snapshot v) as [[m d]|]; [|lia].
  apply u64_inj in Heq as <-. by rewrite decide_True in Ht.
Qed.

Lemma log_rel_term l v (i : LogIndex) :
  log_rel l v → view_snap_index v ≤ i → 0 < i ≤ N.of_nat (length l) →
  ∃ t, view_term_at i v = Some t ∧ u64_val t = term_of l (pos i).
Proof.
  intros Hr Hs Hi. destruct (view_term_at i v) as [t|] eqn:Ht.
  - exists t. split; [done|]. apply (log_rel_term_at _ _ _ _ Hr); [lia|done].
  - apply (log_rel_term_none _ _ _ Hr Hs) in Ht; lia.
Qed.

(** ** The store's operations *)

Lemma numbered_lookup i es : numbered_from i es → ∀ k e,
  es !! k = Some e → u64_val (le_index e) = i + N.of_nat k.
Proof.
  revert i. induction es as [|e' es IH]; intros i Hn k e Hk; [done|]. destruct Hn as [Hi Hn].
  destruct k as [|k]; simpl in Hk; [simplify_eq; lia|]. rewrite (IH _ Hn _ _ Hk). lia.
Qed.

Lemma log_rel_append l v es :
  log_rel l v → numbered_from (view_last_index v + 1) es → log_rel (l ++ es) (view_append es v).
Proof.
  intros Hr Hn. pose proof Hr as [Hc Hlen Hent Hsn]. destruct (contiguous_append v es Hc Hn) as [Hc' Hl'].
  pose proof (log_rel_snap_le _ _ Hr) as Hsle.
  split; [done|rewrite Hl', length_app; lia| |].
  - intros i e. simpl. rewrite foldl_insert_lookup by by eapply numbered_from_sorted.
    intros [[(k & Hk)%list_elem_of_lookup Hi]|[He _]].
    + rewrite (numbered_lookup _ _ Hn _ _ Hk) in Hi.
      replace (N.to_nat i - 1)%nat with (length l + k)%nat by lia.
      rewrite lookup_app_r by lia. by rewrite Nat.add_comm, Nat.add_sub.
    + by apply lookup_app_l_Some, Hent.
  - intros m d Hm. destruct (Hsn m d Hm) as (? & Ht & Hv & Hd). unfold view_snap_index in Hsle. simpl in Hm.
    rewrite Hm in Hsle. rewrite term_of_app, take_app_le by lia. done.
Qed.

Lemma log_rel_truncate l v (i : LogIndex) :
  log_rel l v → view_snap_index v < i ≤ view_last_index v + 1 →
  log_rel (take (pos i - 1) l) (view_truncate i v).
Proof.
  intros Hr Hi. pose proof Hr as [Hc Hlen Hent Hsn]. destruct (contiguous_truncate v i Hc Hi) as [Hc' Hl'].
  split; [done|rewrite Hl', length_take; lia| |].
  - intros j e. simpl. rewrite map_lookup_filter_Some. simpl. intros [He Hlt].
    destruct (lr_index _ _ _ _ Hr He). rewrite lookup_take_lt by lia. by apply Hent.
  - intros m d Hm. destruct (Hsn m d Hm) as (? & Ht & Hv & Hd). unfold view_snap_index in Hi. simpl in Hm.
    rewrite Hm in Hi. rewrite term_of_take, take_take, Nat.min_l by lia. done.
Qed.

Lemma log_rel_compact l v m d :
  log_rel l v → view_snap_index v ≤ last_included_index m ≤ view_last_index v →
  0 < last_included_index m →
  term_of l (pos (last_included_index m)) = u64_val (last_included_term m) →
  votes_of (snap_config m) = cfg (take (pos (last_included_index m)) l) →
  snap_data d (take (pos (last_included_index m)) l) →
  log_rel l (view_compact m d v).
Proof.
  intros Hr Hi Hpos Ht Hv Hd. pose proof Hr as [Hc Hlen Hent Hsn].
  destruct (contiguous_compact v m d Hc Hi) as [Hc' Hl']. split; [done|by rewrite Hl'| |].
  - intros j e. simpl. rewrite map_lookup_filter_Some. intros [He _]. by apply Hent.
  - intros m' d'. simpl. intros [= <- <-]. done.
Qed.

Lemma log_rel_install P v m d :
  N.of_nat (length P) = last_included_index m → 0 < last_included_index m →
  last_term P = u64_val (last_included_term m) → votes_of (snap_config m) = cfg P → snap_data d P →
  log_rel P (view_install m d v).
Proof.
  intros Hlen Hpos Ht Hv Hd. destruct (contiguous_install v m d) as [Hc Hl].
  split; [done|by rewrite Hl| |].
  - intros j e. simpl. by rewrite lookup_empty.
  - intros m' d'. simpl. intros [= <- <-]. unfold last_term in Ht.
    replace (pos (last_included_index m)) with (length P) by lia. by rewrite firstn_all.
Qed.

Lemma log_rel_entries_from l v (i : LogIndex) :
  log_rel l v → view_snap_index v < i → view_entries_from i v = drop (pos i - 1) l.
Proof.
  intros Hr Hi. pose proof Hr as [Hc Hlen Hent _]. destruct (view_entries_numbered v i Hc Hi) as [Hn Hl].
  apply list_eq_same_length with (n := length (view_entries_from i v)); [|done|].
  { rewrite length_drop. lia. }
  intros k e e' _ He He'. pose proof (numbered_lookup _ _ Hn _ _ He) as Hidx.
  assert (e ∈ view_entries_from i v) as Hin by by eapply list_elem_of_lookup_2.
  apply view_entries_from_elem in Hin as (j & Hj & Hej).
  destruct (lr_index _ _ _ _ Hr Hej) as [_ Hej']. apply Hent in Hej.
  rewrite lookup_drop in He'. replace (N.to_nat j - 1)%nat with (pos i - 1 + k)%nat in Hej by lia. congruence.
Qed.

(** ** The receiver's merge *)

Lemma log_rel_merge es : ∀ prev l v,
  log_rel l v → numbered_from (N.of_nat prev + 1) es → (prev ≤ length l)%nat →
  log_rel (pmerge (N.to_nat (view_snap_index v)) prev es l) (merge (view_snap_index v) es v).
Proof.
  induction es as [|e es IH]; intros prev l v Hr Hn Hp; cbn [merge pmerge]; [done|].
  destruct Hn as [Hi Hn]. pose proof (lr_len _ _ Hr) as Hlen. pose proof (log_rel_snap_le _ _ Hr) as Hsn.
  assert (∀ q, q = S prev → numbered_from (N.of_nat q + 1) es) as Hn'.
  { intros q ->. replace (N.of_nat (S prev) + 1) with (N.of_nat prev + 1 + 1) by lia. done. }
  destruct (N.leb_spec (le_index e) (view_snap_index v)) as [Hle|Hgt].
  { rewrite decide_True by lia. apply IH; [done|by apply Hn'|lia]. }
  rewrite decide_False by lia.
  destruct (l !! prev) as [x|] eqn:Hx.
  - pose proof (lookup_lt_Some _ _ _ Hx).
    rewrite (lr_get l v _ x Hr); [|lia|by replace (N.to_nat (le_index e) - 1)%nat with prev by lia].
    unfold eterm. destruct (decide (le_term x = le_term e)) as [Ht|Ht];
      [rewrite decide_True by by rewrite Ht|rewrite decide_False by by intros ?%u64_inj].
    + apply IH; [done|by apply Hn'|lia].
    + assert (log_rel (take prev l) (view_truncate (le_index e) v)) as Hcut.
      { replace prev with (pos (le_index e) - 1)%nat by lia. apply log_rel_truncate; [done|lia]. }
      apply log_rel_append; [done|]. rewrite <-(lr_len _ _ Hcut), length_take, Nat.min_l by lia. done.
  - apply lookup_ge_None in Hx. assert (prev = length l) as Heq by lia.
    destruct (v_entries v !! u64_val (le_index e)) eqn:He.
    { destruct (lr_index _ _ _ _ Hr He). lia. }
    apply log_rel_append; [done|]. rewrite <-Hlen, <-Heq. done.
Qed.

(** ** Configurations *)

(** The base of the tracker: the configuration of the snapshot's position. *)
Definition base_rel l v (b : ClusterConfig) : Prop :=
  votes_of b = cfg (take (N.to_nat (view_snap_index v)) l).

Lemma config_entry_votes l v (i : LogIndex) c :
  log_rel l v → config_entry (v_entries v) i c →
  ∃ e, l !! (pos i - 1)%nat = Some e ∧ entry_votes e = Some (votes_of c) ∧ view_snap_index v < i.
Proof.
  intros Hr (e & He & Hp). destruct (lr_index _ _ _ _ Hr He). exists e.
  split_and!; [by apply (lr_entry _ _ Hr)|unfold entry_votes; by rewrite Hp|lia].
Qed.

Lemma votes_config_entry l v q e d :
  log_rel l v → view_snap_index v < N.of_nat (S q) → l !! q = Some e → entry_votes e = Some d →
  ∃ c, config_entry (v_entries v) (le_index e) c ∧ u64_val (le_index e) = N.of_nat (S q) ∧ d = votes_of c.
Proof.
  intros Hr Hq He Hd. assert (v_entries v !! N.of_nat (S q) = Some e) as Hv.
  { apply (lr_get l v); [done|done|]. by replace (N.to_nat (N.of_nat (S q)) - 1)%nat with q by lia. }
  destruct (lr_index _ _ _ _ Hr Hv) as [_ Hi]. unfold entry_votes in Hd.
  destruct (le_payload e) as [| |c] eqn:Hp; try done. simplify_eq. exists c.
  split_and!; [|done|done]. exists e. by rewrite Hi.
Qed.

Lemma cfg_take_le l i j : (i ≤ j)%nat → (cfg_index (take j l) ≤ i)%nat → cfg (take j l) = cfg (take i l).
Proof. intros Hij Hc. by rewrite <-(last_config_take (take j l) i Hc), take_take, Nat.min_l by lia. Qed.

Lemma config_at_votes l v t (i : LogIndex) :
  log_rel l v → tracks t (v_entries v) → base_rel l v (base t) →
  view_snap_index v ≤ i ≤ N.of_nat (length l) →
  votes_of (config_at i t) = cfg (take (pos i) l).
Proof.
  intros Hr Ht Hb Hi. set (s := N.to_nat (view_snap_index v)).
  (* the latest configuration up to [i], in the whole log *)
  assert (∀ q, cfg_index (take (pos i) l) = S q → (s < S q)%nat →
    ∃ (j : LogIndex) c, config_entry (v_entries v) j c ∧ u64_val j = N.of_nat (S q) ∧
      cfg (take (pos i) l) = votes_of c) as Hlatest.
  { intros q Hq Hs. destruct (cfg_index_entry _ _ Hq) as (e & He & Hd).
    apply lookup_take_Some in He as [He _].
    destruct (votes_config_entry l v q e _ Hr ltac:(lia) He Hd) as (c & ? & ? & ?). eauto. }
  destruct (config_at_in_force t (v_entries v) i Ht) as [(j & Hj & Hc & Hmax)|[-> Hnone]].
  - destruct (config_entry_votes _ _ _ _ Hr Hc) as (e & He & Hd & Hsj).
    assert (pos j ≤ cfg_index (take (pos i) l))%nat as Hge.
    { apply (cfg_index_ge _ (pos j - 1) e (votes_of (config_at i t))); [|done|lia]. rewrite lookup_take_lt by lia. done. }
    destruct (cfg_index (take (pos i) l)) as [|q] eqn:Hq; [lia|].
    destruct (Hlatest q eq_refl) as (j' & c' & Hc' & Hj' & ->); [lia|].
    pose proof (cfg_index_le (take (pos i) l)) as Hle. rewrite Hq, length_take in Hle.
    assert (u64_val j' ≤ u64_val j) as Hle' by (apply (Hmax j' c'); [lia|done]).
    assert (j' = j) as -> by (apply u64_inj; lia). destruct Hc as (e1 & He1 & Hp1), Hc' as (e2 & He2 & Hp2).
    congruence.
  - rewrite Hb. symmetry. apply cfg_take_le; [lia|]. fold s.
    destruct (cfg_index (take (pos i) l)) as [|q] eqn:Hq; [lia|].
    destruct (decide (S q ≤ s)%nat) as [|Hgt]; [done|].
    destruct (Hlatest q eq_refl) as (j & c & Hc & Hj & _); [lia|]. exfalso.
    pose proof (cfg_index_le (take (pos i) l)) as Hle. rewrite Hq, length_take in Hle.
    apply (Hnone j c); [lia|done].
Qed.

Lemma active_votes l v t :
  log_rel l v → tracks t (v_entries v) → base_rel l v (base t) → votes_of (active t) = cfg l.
Proof.
  intros Hr Ht Hb. pose proof (lr_len _ _ Hr) as Hlen. pose proof (log_rel_snap_le _ _ Hr).
  rewrite (active_config_at t (view_last v).1).
  - change (u64_val (view_last v).1) with (view_last_index v).
    rewrite (config_at_votes l v t _ Hr Ht Hb); unfold view_last_index in *; [|lia].
    rewrite take_ge by lia. done.
  - intros [j c] Hin%(tracks_exact _ _ Ht). simpl. destruct Hin as (e & He & _).
    destruct (lr_index _ _ _ _ Hr He) as [[_ ?] _]. done.
Qed.

Lemma latest_index_ge l v t :
  log_rel l v → tracks t (v_entries v) → u64_val (base_index t) = view_snap_index v →
  N.of_nat (cfg_index l) ≤ latest_index t.
Proof.
  intros Hr Ht Hb. destruct (cfg_index l) as [|q] eqn:Hq; [lia|].
  assert (view_snap_index v ≤ latest_index t) as Hs.
  { unfold latest_index. destruct (last (in_log t)) as [[i c]|] eqn:Hl; [|lia].
    apply last_Some_elem_of, (tracks_exact _ _ Ht) in Hl as (e & He & _).
    destruct (lr_index _ _ _ _ Hr He). lia. }
  destruct (decide (view_snap_index v < N.of_nat (S q))) as [Hgt|]; [|lia].
  destruct (cfg_index_entry _ _ Hq) as (e & He & Hd).
  destruct (votes_config_entry l v q e _ Hr Hgt He Hd) as (c & Hc & Hi & _).
  apply (tracks_exact _ _ Ht) in Hc. rewrite <-Hi. unfold latest_index.
  destruct (in_log t) as [|p ps _] eqn:Hl using rev_ind; [by apply elem_of_nil in Hc|].
  rewrite last_snoc. destruct p as [i c']. pose proof (tracks_sorted _ _ Ht) as Hsort. rewrite Hl in Hsort.
  apply elem_of_app in Hc as [Hc|Hc%list_elem_of_singleton]; [|by simplify_eq].
  apply StronglySorted_app in Hsort as (Hlt & _). specialize (Hlt _ (i, c') Hc ltac:(set_solver)).
  unfold idx_lt in Hlt. simpl in Hlt. lia.
Qed.

Lemma log_rel_empty : log_rel [] view_empty.
Proof.
  destruct contiguous_empty as [Hc Hl]. split; [done|by rewrite Hl| |done].
  intros i e. simpl. by rewrite lookup_empty.
Qed.

End log_rel.
