(* ===== verification/RaftHandlers.v ===== *)
(** * brokkr-raft: what each call on a node guarantees

    One specification per public method of [RaftNode]: elections and voting,
    AppendEntries and its replies, snapshots, and the client interface. *)

From stdpp Require Import prelude gmap strings.
From Stdlib Require Import Lia.
From S2P Require Import Prelude Machine Bytes RaftTypes RaftRng RaftWire RaftStore RaftConfig RaftNode RaftNodeSpec RaftReceiver.

Local Open Scope N_scope.

Section handlers.
Context {L : Type} `{RaftStoreSpec L} `{!Bootstrap}.
Implicit Types n : RaftNode L.

(** ** Elections *)

(** The commit index moved only by the commit rule, at some moment [m] of the
    call when the node was leader. *)
Definition moved n n' : Prop :=
  n_commit_index n' = n_commit_index n ∨
  ∃ m state, leader_post m n' ∧ n_role m = Leader state ∧
    n_commit_index m < u64_val (n_commit_index n') ∧ committable m state (n_commit_index n').

Lemma advanced_moved n n1 n' : n_commit_index n1 = n_commit_index n → advanced n1 n' → moved n n'.
Proof. intros Hc [Ha|(m & st & _ & ?)]; [left; congruence|right; by exists m, st]. Qed.

(** A call after which the node may have become the leader of its term. *)
Record become_post n (outs : list Outbound) n' : Prop := {
  b_inv : node_inv n';
  b_ext : ext n n';
  b_grown : grown n n';
  b_outs : outs_ok n outs;
  b_moved : moved n n';
  b_decided : is_candidate n' = false
}.

Lemma fresh_indices_lookup targets v : ∀ (m : gmap NodeId LogIndex) p i,
  foldl (λ m peer, <[peer := v]> m) m targets !! p = Some i → m !! p = Some i ∨ i = v.
Proof.
  induction targets as [|t targets IH]; intros m p i Hp; [by left|]. simpl in Hp.
  destruct (IH _ _ _ Hp) as [[[_ ?]|[_ ?]]%lookup_insert_Some|?]; auto.
Qed.

Lemma fresh_indices_pos targets v :
  0 < u64_val v → map_Forall (λ _ next, 0 < u64_val next) (fresh_indices targets v).
Proof.
  intros Hv p i [Hp| ->]%fresh_indices_lookup; [by rewrite lookup_empty in Hp|done].
Qed.

(** A candidate with its no-op appended takes office. *)
Lemma take_office n n1 next matched lead :
  leader_post n n1 → is_candidate n = true → n_role n1 = n_role n →
  map_Forall (λ _ next, 0 < u64_val next) next →
  view_last_index (view n1) = view_last_index (view n) + 1 →
  (∀ i e, view_last_index (view n) < i → v_entries (view n1) !! i = Some e → le_term e = node_term n) →
  ∀ start, u64_val start = view_last_index (view n) + 1 →
  let n2 := set_leader_id lead (set_role (Leader (mkLeaderState next matched u64_0 start [])) n1) in
  node_inv n2 ∧ ext n n2 ∧ grown n n2.
Proof.
  intros [Hn1 Hx Hq Hg] Hcand Hr Hnext Hlast Hown start Hstart n2.
  pose proof Hn1 as [Hst Hd Hh Hs Htr Hb Hbi Hro]. pose proof Hg as [Hgh _ _ _].
  assert (node_term n1 = node_term n) as Ht by (unfold node_term; by rewrite Hgh).
  split_and!.
  - split; try done. unfold role_ok in *. rewrite Hr in Hro. unfold is_candidate in Hcand.
    destruct (n_role n); try done. destruct Hro as (? & ? & ?). simpl.
    change (view n2) with (view n1). change (node_term n2) with (node_term n1).
    rewrite Hlast, Ht in *. split_and!; try done; try lia. intros i e Hi. apply Hown. lia.
  - destruct Hx as [? ? ? ?]. by split.
  - by destruct Hg as [? ? ? ?].
Qed.

Lemma become_leader_spec now n :
  node_inv n → is_candidate n = true → room 2 n →
  wp (become_leader now) (become_post n) (fails n) n.
Proof.
  intros Hn Hcand Hroom. unfold room in Hroom. unfold become_leader. wp_step.
  apply (answers_wp _ _ _ _ _ (answers_read _ _ last_index_reads) Hn); [|intros; by apply same_fails].
  intros last n0 Hs Hn0 ->. do 2 wp_step. cbn [id].
  assert (node_term n0 = node_term n ∧ n_id n0 = n_id n) as [Ht0 Hid0] by by destruct Hs as (l & _ & _ & ->).
  rewrite Ht0, Hid0. generalize (replication_targets n0). intros targets.
  apply (wp_push (λ i, LogEntry_with_payload (node_term n) i Noop) _ _ _ n n0); [done|done|done|unfold room; lia| |intros; by apply stops_fails].
  intros l' e Hl' Hv' Hpost. change (set_configs _ (set_log l' n)) with (set_log l' n) in Hpost.
  do 4 wp_step. unfold arm_heartbeat_timer. do 2 wp_step.
  pose proof (next_last n ltac:(unfold room; lia)) as Hnext.
  edestruct (take_office n (set_log l' n)) with
    (next := fresh_indices targets (LogIndex_next (view_last (view n)).1))
    (matched := fresh_indices targets LogIndex_ZERO)
    (start := LogIndex_next (view_last (view n)).1) (lead := Some (n_id n)) as (Hn2 & Hx2 & Hg2);
    [done|done|done|apply fresh_indices_pos, LogIndex_next_pos|..|done|].
  { change (view (set_log l' n)) with (store_view l'). rewrite Hv'.
    apply (contiguous_append (view n) [e]); [apply Hn|]. by split. }
  { change (view (set_log l' n)) with (store_view l'). rewrite Hv'. intros i e' Hi.
    simpl. unfold insert_entry. rewrite lookup_insert_Some. intros [[_ <-]|[_ He]]; [done|].
    apply mk_is_Some, (contiguous_keys _ _ (d_contig _ (i_dur _ Hn))) in He. lia. }
  set (n2 := set_leader_id _ _) in *.
  set (n3 := set_heartbeat_deadline _ _).
  assert (kept n2 n3) as [Hn3 Hx3 _].
  { apply volatile_kept; [done|]. unfold volatile; simpl; auto 10. }
  assert (view_last_index (view n3) = view_last_index (view n) + 1) as Hlast.
  { change (view n3) with (store_view l'). rewrite Hv'.
    apply (contiguous_append (view n) [e]); [apply Hn|]. by split. }
  eapply wp_mono; [apply (advance_replicate_spec now n3); [done|unfold room; lia]| |].
  - intros outs n' (Hpost' & Houts & Hadv). split; [apply Hpost'|..].
    + etrans; [exact Hx2|]. etrans; [exact Hx3|]. apply Hpost'.
    + transitivity n3; [|apply Hpost']. destruct Hg2. by split.
    + unfold outs_ok in *. apply (Forall_impl _ _ _ Houts). intros [| |]; simpl; [done| |done].
      intros (? & ? & ? & Hc). split_and!; try done. intros Hok. apply Hc.
      apply (e_commit _ _ Hx3), (e_commit _ _ Hx2), Hok.
    + by apply (advanced_moved n n3).
    + destruct Hpost' as [_ _ [Hc _] _]. unfold is_candidate. destruct (n_role n') eqn:Hr; try done.
      destruct (Hc _ eq_refl) as [? _]. done.
  - intros err n' [Hf ?]%stops_fails. split; [|done]. apply (failed_ext n n3); [|done]. exact (e_hard _ _ Hx2).
Qed.

(** The log kept every entry it had; a new one is of the term the call ended in. *)
Record log_grows n n' : Prop := {
  lg_snap : v_snapshot (view n') = v_snapshot (view n);
  lg_keep i e : v_entries (view n) !! i = Some e → v_entries (view n') !! i = Some e;
  lg_new i e : v_entries (view n') !! i = Some e →
    v_entries (view n) !! i = Some e ∨ le_term e = node_term n'
}.

Lemma grown_grows n n' : grown n n' → log_grows n n'.
Proof. intros [Hh ? ? ?]. split; [done..|]. unfold node_term. by rewrite Hh. Qed.

(** Same entries, same snapshot. *)
Definition log_same n n' : Prop :=
  v_entries (view n') = v_entries (view n) ∧ v_snapshot (view n') = v_snapshot (view n).

Lemma log_kept_log_same n n' : log_kept n n' → log_same n n'.
Proof. by intros (? & ? & _). Qed.

Lemma volatile_log_kept n n' : volatile n n' → log_kept n n'.
Proof.
  intros (_ & Ec & El & _ & Em & _). unfold log_kept, view. by rewrite El, Ec, Em.
Qed.

Lemma log_kept_last n n' : log_kept n n' → view_last (view n') = view_last (view n).
Proof. intros (He & Hs & _). unfold view_last. by rewrite He, Hs. Qed.

Lemma log_kept_same n n' : same n n' → log_kept n n'.
Proof.
  intros Hs. unfold log_kept. rewrite (same_view _ _ Hs). by destruct Hs as (l & _ & _ & ->).
Qed.

Lemma log_kept_trans n1 n2 n3 : log_kept n1 n2 → log_kept n2 n3 → log_kept n1 n3.
Proof. intros (?&?&?&?) (?&?&?&?). split_and!; congruence. Qed.

Lemma log_same_grows n n' : log_same n n' → log_grows n n'.
Proof. intros [He Hs]. split; rewrite ?He; auto. Qed.

(** A call that ends healthy: its messages carry the sender's name and its term
    afterwards, its log only grew, its commit index moved by the rule. *)
Record stepped n (outs : list Outbound) n' : Prop := {
  s_inv : node_inv n';
  s_ext : ext n n';
  s_log : log_grows n n';
  s_moved : moved n n';
  s_outs : Forall (out_ok (n_id n) (node_term n') (commit_ok n)) outs
}.

Lemma leader_run_stepped n outs n' : leader_run n outs n' → stepped n outs n'.
Proof.
  intros (Hp & Ho & Ha). pose proof (leader_post_term _ _ Hp) as Ht. destruct Hp as [? ? ? Hg].
  split; [done|done|by apply grown_grows|by apply (advanced_moved n n)|]. by rewrite Ht.
Qed.

Lemma become_stepped n outs n' : become_post n outs n' → stepped n outs n'.
Proof.
  intros [? ? Hg Ho Hm _]. pose proof Hg as [Hh _ _ _].
  split; [done|done|by apply grown_grows|done|]. unfold node_term. by rewrite Hh.
Qed.

Lemma kept_stepped n n' : kept n n' → log_kept n n' → stepped n [] n'.
Proof.
  intros [] Hl. split; [done|done|by apply log_same_grows, log_kept_log_same| |constructor].
  left. by destruct Hl as (_ & _ & _ & ?).
Qed.

(** A call that begins by changing neither log nor commit index. *)
Lemma stepped_after n n1 outs n' : ext n n1 → log_kept n n1 → stepped n1 outs n' → stepped n outs n'.
Proof.
  intros Hx (He & Hs & _ & Hc) [Hn' Hx' [Hgs Hgk Hgn] Hm Ho]. rewrite He, Hs, ?Hc in *.
  split; [done|by etrans|by split| |].
  - destruct Hm as [Hm|?]; [left; congruence|by right].
  - apply (Forall_impl _ _ _ Ho). rewrite (e_id _ _ Hx). intros [| |]; simpl; [done| |done].
    intros (? & ? & ? & Hc'). split_and!; try done. intros Hok. by apply Hc', (e_commit _ _ Hx).
Qed.

Lemma ext_fails n n' e n'' : ext n n' → fails n' e n'' → fails n e n''.
Proof. intros [] [? ?]. split; [by eapply failed_ext|done]. Qed.

(** Entering an election: the term moves up by one, the server votes for itself
    and either waits for votes or, its own vote being a quorum, takes office. *)
Definition campaigned n n' : Prop :=
  u64_val (node_term n') = node_term n + 1 ∧ voted_for (n_hard n') = Some (n_id n) ∧
  is_voter n = true ∧
  (n_role n' = Candidate {[n_id n]} ∨
   has_quorum (active_config n) {[n_id n]} = true ∧ is_candidate n' = false).

Lemma start_election_spec now n :
  node_inv n → room 2 n → node_term n < u64_max → is_voter n = true →
  wp (start_election now) (λ outs n', stepped n outs n' ∧ campaigned n n') (fails n) n.
Proof.
  intros Hn Hroom Hterm Hv. unfold start_election. do 2 wp_step. cbn [id].
  set (h := voting_for _ _). do 3 wp_step.
  assert (u64_val (current_term h) = node_term n + 1) as Hh.
  { simpl. rewrite Term_next_val. lia. }
  assert (hard_le (n_hard n) h) as Hle by (left; unfold node_term in *; lia).
  apply (wp_write _ (view_save_hard h)); [apply save_hard_writes|apply Hn|..].
  2:{ intros e n' Hs ?. split; [|done]. destruct Hs as (l & Hl & Hvw & ->).
      split; [done|..]; unfold view in *; simpl in *; rewrite Hvw; [apply Hn|].
      pose proof (i_hard _ Hn) as E. unfold view in E. by rewrite E. }
  intros l' Hl' Hv'. do 5 wp_step.
  destruct (save_hard_kept n l' h (Candidate {[n_id n]})) as [Hn1 Hx1]; [done..| |].
  { right. eexists. split_and!; [done|done|set_solver|lia]. }
  set (n1 := set_role (Candidate _) _) in Hn1, Hx1.
  apply wp_arm_election_timer. intros n2 Hvol Hr2 _ _.
  assert (kept n1 n2) as Hk2 by (apply volatile_kept; [done|exact Hvol]).
  pose proof Hvol as (Hid2 & Hc2 & Hl2 & Hh2 & _). simpl in Hid2, Hc2, Hl2, Hh2.
  assert (ext n n2) as Hx2 by (etrans; [exact Hx1|apply Hk2]).
  assert (log_kept n n2) as Hlk2.
  { destruct Hvol as (_ & _ & _ & _ & Em & _). unfold log_kept, view. by rewrite Hl2, Hc2, Em, Hv'. }
  destruct (has_quorum _ _) eqn:Hq.
  - eapply wp_mono; [apply become_leader_spec| |].
    + apply Hk2.
    + unfold is_candidate. by rewrite Hr2.
    + unfold room, view in *. rewrite Hl2, Hv'. exact Hroom.
    + intros outs n3 Hb. split; [by eapply stepped_after, become_stepped|].
      destruct Hb as [_ _ [Hgh _ _ _] _ Hdec]. unfold campaigned, node_term in *. rewrite Hgh, Hh2. split_and!; auto.
    + intros e n3. by apply ext_fails.
  - wp_step. apply (answers_wp _ _ _ _ _ (answers_read _ _ last_reads) (k_inv _ _ Hk2)).
    + intros p n3 Hs3 Hn3 ->. wp_step. pose proof (same_kept _ _ (k_inv _ _ Hk2) Hs3) as Hk3.
      assert (n_role n3 = Candidate {[n_id n]} ∧ n_hard n3 = h) as [Hr3 Hh3].
      { destruct Hs3 as (l & _ & _ & ->). simpl. by rewrite Hr2, Hh2. }
      split.
      * pose proof (log_kept_trans _ _ _ Hlk2 (log_kept_same _ _ Hs3)) as Hlk3.
        destruct (kept_stepped n2 n3 Hk3 (log_kept_same _ _ Hs3)) as [? ? ? ? _].
        split; [done|by etrans|by apply log_same_grows, log_kept_log_same|left; apply Hlk3|].
        apply Forall_forall.
        intros o (p & -> & _)%list_elem_of_fmap. simpl. unfold node_term. by rewrite Hh3.
      * unfold campaigned, node_term in *. rewrite Hh3. split_and!; auto.
    + intros e n3 Hs3 Hf _. apply (ext_fails n n2); [done|]. apply same_fails; [apply Hk2|done..].
Qed.

Lemma tick_spec now n :
  node_inv n → room 2 n → node_term n < u64_max →
  wp (tick now) (λ outs n', stepped n outs n' ∧ (quiet n n' ∨ campaigned n n')) (fails n) n.
Proof.
  intros Hn Hroom Hterm. unfold tick. do 2 wp_step. cbn [id].
  assert (∀ n', volatile n n' → stepped n [] n' ∧ (quiet n n' ∨ campaigned n n')) as Hnil.
  { intros n' Hv. split; [apply kept_stepped; [by apply volatile_kept|by apply volatile_log_kept]|].
    left. by apply volatile_kept. }
  destruct (is_leader n).
  - destruct (_ <=? now); [|wp_step; by apply Hnil, volatile_refl]. unfold arm_heartbeat_timer. do 2 wp_step.
    set (n1 := set_heartbeat_deadline _ n).
    assert (volatile n n1) as Hv1 by (unfold volatile; simpl; auto 10).
    pose proof (volatile_kept _ _ Hn Hv1) as Hk.
    eapply wp_mono; [apply replicate_all_spec, Hk| |].
    + intros outs n' Hrun. split; [eapply stepped_after, leader_run_stepped; [apply Hk|by apply volatile_log_kept|done]|].
      left. etrans; [apply Hk|]. apply Hrun.
    + intros e n' Hf%stops_fails. by eapply ext_fails; [apply Hk|].
  - destruct (_ <=? now); [|wp_step; by apply Hnil, volatile_refl]. destruct (is_voter n) eqn:Hv; simpl.
    + eapply wp_mono; [by apply start_election_spec| |done]. intros outs n' [? ?]. auto.
    + wp_step. apply wp_arm_election_timer. intros n' Hvol _ _ _. wp_step. by apply Hnil.
Qed.

(** ** Voting *)

(** The election restriction, on the view. *)
Definition up_to_date (last_term : Term) (last_index : LogIndex) (v : LogView) : Prop :=
  u64_val (view_last v).2 < last_term ∨
  (view_last v).2 = last_term ∧ view_last_index v ≤ last_index.

Lemma candidate_is_up_to_date_answers t i :
  answers (candidate_is_up_to_date t i) (λ r n, r = true ↔ up_to_date t i (view n)).
Proof.
  intros n Hn. unfold candidate_is_up_to_date. wp_step.
  apply (answers_wp _ _ _ _ _ (answers_read _ _ last_reads) Hn); [|auto].
  intros p n' Hs Hn' ->. wp_step. split; [done|].
  rewrite orb_true_iff, andb_true_iff, N.ltb_lt, N.eqb_eq, N.leb_le. unfold up_to_date, view_last_index.
  split; (intros [?|[Heq ?]]; [by left|right; split; [|done]]); [by apply u64_inj|by rewrite Heq].
Qed.

(** What a reply to RequestVote promises about the server that sent it. *)
Record vote_reply n (r : RequestVote) (resp : RequestVoteResponse) n' : Prop := {
  v_term : rvr_term resp = node_term n';
  v_log : log_kept n n';
  v_granted : rvr_vote_granted resp = true →
    rv_term r = node_term n' ∧
    v_hard (view n') = mkHardState (rv_term r) (Some (rv_candidate_id r)) ∧
    up_to_date (rv_last_log_term r) (rv_last_log_index r) (view n) ∧
    is_leader n = false;
  v_refused : rvr_vote_granted resp = false →
    n' = n ∨ voted_for (n_hard n') = voted_for (n_hard n) ∨ voted_for (n_hard n') = None
}.

(** Casting a vote: persisted before the reply. *)
Lemma cast_vote_spec n c now (resp : RequestVoteResponse) :
  node_inv n → voted_for (n_hard n) = None ∨ voted_for (n_hard n) = Some c →
  wp (modify (set_hard (voting_for (n_hard n) c));;
      on_log (st_save_hard_state (voting_for (n_hard n) c));;
      arm_election_timer now;; mret resp)
    (λ r n', r = resp ∧ kept n n' ∧ log_kept n n' ∧ v_hard (view n') = voting_for (n_hard n) c)
    (fails n) n.
Proof.
  intros Hn Hfree. set (h := voting_for _ _). do 3 wp_step.
  assert (hard_le (n_hard n) h) as Hle.
  { right. split; [done|]. simpl. destruct Hfree as [?|Hv]; [by left|by right]. }
  apply (wp_write _ (view_save_hard h)); [apply save_hard_writes|apply Hn|..].
  2:{ intros e n' Hs ?. split; [|done]. destruct Hs as (l & Hl & Hvw & ->).
      split; [done|..]; unfold view in *; simpl in *; rewrite Hvw; [apply Hn|].
      pose proof (i_hard _ Hn) as E. unfold view in E. by rewrite E. }
  intros l' Hl' Hv'. wp_step. apply wp_arm_election_timer. intros n2 Hvol Hr2 _ _. wp_step.
  set (n1 := set_log l' (set_hard h n)) in *. pose proof Hn as [Hst Hd Hh Hs Htr Hb Hbi Hro].
  assert (view n1 = view_save_hard h (view n)) as Hv1 by done.
  assert (kept n n1) as Hk1.
  { split; [split|split|split]; rewrite ?Hv1; try done.
    - apply durable_save_hard; [done|]. rewrite Hh. by apply hard_le_term.
    - unfold role_ok in *. simpl. change (view n1) with (store_view l'). rewrite Hv'.
      destruct (n_role n) as [|votes|state]; [done|..]; destruct Hro as (Hself & ?);
        (destruct Hfree as [Hf|Hf]; rewrite Hf in Hself; [done|]); by simplify_eq.
    - unfold commit_ok. by rewrite Hv1.
    - intros vs Hvs. split; [done|]. unfold role_ok in Hro. change (n_role n1) with (n_role n) in Hvs.
      rewrite Hvs in Hro. destruct Hro as (Hself & _). destruct Hfree as [Hf|Hf]; [congruence|].
      unfold n1, h; simpl. unfold voting_for. rewrite Hself in Hf. simplify_eq.
      destruct (n_hard n); simpl in *. by subst. }
  assert (kept n1 n2) as Hk2 by (apply volatile_kept; [apply Hk1|exact Hvol]).
  destruct Hvol as (_ & Ec & El & Eh & Em & _). split_and!.
  - done.
  - by eapply kept_trans.
  - unfold log_kept, view. rewrite El, Ec, Em. simpl. by rewrite Hv'.
  - unfold view. rewrite El. simpl. by rewrite Hv'.
Qed.

Lemma handle_request_vote_spec r now n :
  node_inv n →
  wp (handle_request_vote r now) (λ resp n', kept n n' ∧ vote_reply n r resp n') (fails n) n.
Proof.
  intros Hn. unfold handle_request_vote. do 2 wp_step. cbn [id].
  destruct (leader_is_current now n) eqn:Hlead.
  { wp_step. split; [by apply kept_refl|]. split; [done|done|done|auto]. }
  assert (is_leader n = false) as Hnl by by apply orb_false_iff in Hlead as [? _].
  wp_step. eapply wp_mono; [by apply observe_term_spec| |done].
  intros b n1 (Hk1 & Hlk1 & Hb). do 2 wp_step.
  assert (u64_val (rv_term r) ≤ node_term n1) as Hle.
  { destruct b; [|by destruct Hb as [-> ?]]. destruct Hb as (_ & -> & _). done. }
  assert (voted_for (n_hard n1) = voted_for (n_hard n) ∨ voted_for (n_hard n1) = None) as Hvote.
  { destruct b; [|destruct Hb as [-> _]; by left]. destruct Hb as (_ & _ & _ & -> & _). by right. }
  destruct (N.ltb_spec (rv_term r) (current_term (n_hard n1))) as [?|Hge].
  { wp_step. split; [done|]. split; [done|done|done|]. auto. }
  assert (rv_term r = node_term n1) as Ht by (apply u64_inj; unfold node_term in *; lia).
  wp_step. apply (answers_wp _ _ _ _ _ (candidate_is_up_to_date_answers _ _) (k_inv _ _ Hk1)).
  2:{ intros e n2 Hs2 ? _. apply (kept_fails n n1); [done|]. apply same_fails; [apply Hk1|done..]. }
  intros utd n2 Hs2 Hn2 Hutd. pose proof (same_kept _ _ (k_inv _ _ Hk1) Hs2) as Hk2.
  pose proof (log_kept_same _ _ Hs2) as Hlk2.
  assert (n_hard n2 = n_hard n1) as Hh2 by by destruct Hs2 as (l & _ & _ & ->).
  destruct (match voted_for (n_hard n1) with None => true | Some v => _ end) eqn:Hfree; simpl.
  2:{ wp_step. split; [by eapply kept_trans|]. split; [unfold node_term; by rewrite Hh2| |done|].
      - by eapply log_kept_trans.
      - rewrite Hh2. auto. }
  destruct utd.
  2:{ wp_step. split; [by eapply kept_trans|]. split; [unfold node_term; by rewrite Hh2| |done|].
      - by eapply log_kept_trans.
      - rewrite Hh2. auto. }
  rewrite <-Hh2. eapply wp_mono; [apply cast_vote_spec; [done|]| |].
  - rewrite Hh2. destruct (voted_for (n_hard n1)); [|by left]. right. f_equal. by apply bool_decide_eq_true in Hfree.
  - intros resp n3 (-> & Hk3 & Hlk3 & Hh3).
    assert (kept n n3) as Hk by (eapply kept_trans; [exact Hk1|by eapply kept_trans]).
    split; [done|]. pose proof (i_hard _ (k_inv _ _ Hk3)) as Hmem. rewrite Hh3 in Hmem.
    split; simpl; [..|done].
    + unfold node_term. rewrite <-Hmem. done.
    + by eapply log_kept_trans, log_kept_trans.
    + intros _. assert (rv_term r = node_term n3) as Ht3.
      { unfold node_term. rewrite <-Hmem. simpl. by rewrite Hh2. }
      split_and!; [done| | |done].
      * rewrite Hh3. unfold voting_for. rewrite Hh2. by rewrite Ht.
      * unfold up_to_date, view_last_index in *. rewrite <-(log_kept_last _ _ Hlk1). by apply Hutd.
  - intros e n3 Hf. apply (kept_fails n n1); [done|]. by apply (kept_fails n1 n2).
Qed.

(** Counting a reply: the votes of the current campaign grow by the sender when
    it granted, and office is taken exactly on a quorum. *)
Definition counted n (from : NodeId) (resp : RequestVoteResponse) n' : Prop :=
  ∃ votes, n_role n = Candidate votes ∧ rvr_term resp = node_term n ∧ n_hard n' = n_hard n ∧
    let votes' := if rvr_vote_granted resp then {[from]} ∪ votes else votes in
    (has_quorum (active_config n) votes' = false ∧ n_role n' = Candidate votes') ∨
    (has_quorum (active_config n) votes' = true ∧ is_candidate n' = false).

Lemma handle_request_vote_response_spec from resp now n :
  node_inv n → room 2 n →
  wp (handle_request_vote_response from resp now)
    (λ outs n', stepped n outs n' ∧ (quiet n n' ∨ counted n from resp n')) (fails n) n.
Proof.
  intros Hn Hroom. unfold handle_request_vote_response. wp_step.
  eapply wp_mono; [by apply observe_term_spec| |done]. intros b n1 (Hk1 & Hlk1 & Hb).
  assert (∀ n', kept n n' → log_kept n n' → stepped n [] n' ∧ (quiet n n' ∨ counted n from resp n')) as Hnil.
  { intros n' Hk Hl. split; [by apply kept_stepped|left; apply Hk]. }
  destruct b; [wp_step; by apply Hnil|]. destruct Hb as [-> Hle]. do 2 wp_step. cbn [id].
  destruct (N.eqb_spec (rvr_term resp) (node_term n)) as [Ht|?]; simpl; [|wp_step; by apply Hnil].
  apply u64_inj in Ht. destruct (n_role n) as [|votes|state] eqn:Hr; [wp_step; by apply Hnil| |wp_step; by apply Hnil].
  set (votes' := if rvr_vote_granted resp then _ else _). do 2 wp_step.
  set (n1 := set_role (Candidate votes') n).
  assert (node_inv n1 ∧ ext n n1) as [Hn1 Hx1].
  { pose proof Hn as [Hst Hd Hh Hs Htr Hb Hbi Hro]. split; [|by split]. split; try done.
    unfold role_ok in *. rewrite Hr in Hro. simpl. destruct Hro as (? & ? & ?).
    split_and!; [done| |done]. unfold votes'. destruct (rvr_vote_granted resp); set_solver. }
  destruct (has_quorum (active_config n) votes') eqn:Hq.
  - eapply wp_mono; [by apply become_leader_spec| |].
    + intros outs n2 Hb. split; [by eapply stepped_after, become_stepped|right].
      destruct Hb as [_ _ [Hgh _ _ _] _ Hdec]. exists votes. split_and!; [done..|]. by right.
    + intros e n2. by apply ext_fails.
  - wp_step. split; [split; try done; [by apply log_same_grows|by left]|right].
    exists votes. split_and!; [done..|]. by left.
Qed.

(** ** AppendEntries, receiver side *)

(** The request agrees with everything the receiver has committed. *)
Definition respects_commit n (r : AppendEntries) : Prop :=
  ∀ e, e ∈ ae_entries r → u64_val (le_index e) ≤ n_commit_index n → ¬ conflicts (view n) e.

(** Handling AppendEntries, branch by branch. *)
Inductive append_outcome n (r : AppendEntries) n' : AppendEntriesResponse → Prop :=
| append_stale :
    u64_val (ae_term r) < node_term n → n' = n →
    append_outcome n r n' (reject (node_term n) (ae_seq r))
| append_mismatch hint :
    node_term n' = ae_term r → n_role n' = Follower → log_kept n n' →
    view_matches (ae_prev_log_index r) (ae_prev_log_term r) (view n) = false →
    hint_ok (ae_prev_log_index r) hint n' →
    append_outcome n r n' (mkAppendEntriesResponse (node_term n') false hint.1 hint.2 LogIndex_ZERO (ae_seq r))
| append_accepted m :
    node_term n' = ae_term r → n_role n' = Follower →
    view_matches (ae_prev_log_index r) (ae_prev_log_term r) (view n) = true →
    u64_val m = ae_prev_log_index r + N.of_nat (length (ae_entries r)) →
    v_entries (view n') = v_entries (merge (view_snap_index (view n)) (ae_entries r) (view n)) →
    merged (view_snap_index (view n)) (ae_prev_log_index r) (ae_entries r) (view n)
      (merge (view_snap_index (view n)) (ae_entries r) (view n)) →
    v_snapshot (view n') = v_snapshot (view n) →
    u64_val (n_commit_index n') =
      (if n_commit_index n <? ae_leader_commit r then N.min (ae_leader_commit r) m else n_commit_index n) →
    append_outcome n r n' (mkAppendEntriesResponse (node_term n') true Term_ZERO LogIndex_ZERO m (ae_seq r)).

Lemma merge_fields snap es v v' :
  v_entries v' = v_entries v → v_snapshot v' = v_snapshot v →
  v_entries (merge snap es v') = v_entries (merge snap es v) ∧
  v_snapshot (merge snap es v') = v_snapshot (merge snap es v).
Proof.
  intros He Hs. induction es as [|e es IH]; simpl; [done|].
  destruct (_ <=? _); [done|]. rewrite He. destruct (v_entries v !! _); [case_decide; [done|]|];
    simpl; by rewrite ?He, ?Hs.
Qed.

Lemma merged_last_bound snap prev es v v' :
  merged snap prev es v v' → numbered_from (prev + 1) es → prev ≤ view_last_index v →
  ∀ c, c ≤ view_last_index v → view_snap_index v = snap → contiguous v →
  (∀ e, e ∈ es → u64_val (le_index e) ≤ c → ¬ conflicts v e) → c ≤ view_last_index v'.
Proof.
  intros [Hc' Hs' _ _ _ Hk Hl] Hn Hp c Hc Hsnap (Hle & Hdom & _) Hno.
  destruct (decide (c ≤ snap)); [lia|].
  destruct (proj2 (Hdom c)) as [e He]; [lia|].
  destruct (Hk _ _ He) as [?|(e' & ? & ? & ? & ?)].
  - by eapply contiguous_keys.
  - destruct (Hno e'); [done|lia|done].
Qed.

(** The consistency check still passes once the entries are merged in. *)
Lemma merged_matches snap (prev : LogIndex) t es v v' w :
  merged snap prev es v v' → numbered_from (prev + 1) es →
  v_entries w = v_entries v' → v_snapshot w = v_snapshot v →
  view_matches prev t v = true → view_matches prev t w = true.
Proof.
  intros [(_ & _ & Hself) _ _ _ Hsrc Hk _] Hn Hwe Hws. unfold view_matches, view_snap_index.
  rewrite Hws, !orb_true_iff, !bool_decide_eq_true. intros [?|Hterm]; [by left|right].
  unfold view_term_at in *. rewrite Hwe, Hws.
  destruct (v_entries v !! u64_val prev) as [e|] eqn:He.
  - destruct (Hk _ _ He) as [->|(c & Hc & _ & Hle & _)]; [done|].
    pose proof (numbered_from_elem _ _ _ Hn Hc). lia.
  - destruct (v_entries v' !! u64_val prev) as [e|] eqn:He'; [|done].
    pose proof (Hself _ _ He') as Hi. destruct (Hsrc _ _ He') as [?|Hin]; [congruence|].
    pose proof (numbered_from_elem _ _ _ Hn Hin). lia.
Qed.

Lemma prev_len_fits r :
  ae_wf r → ae_prev_log_index r + N.of_nat (length (ae_entries r)) ≤ u64_max.
Proof.
  intros (Hn & _). destruct (ae_entries r) as [|e es] eqn:He; simpl.
  { pose proof (u64_le_max (ae_prev_log_index r)). lia. }
  destruct (numbered_from_present _ _ (ae_prev_log_index r + N.of_nat (length (e :: es))) Hn)
    as (e' & _ & Hi); [simpl; lia|]. pose proof (u64_le_max (le_index e')). simpl in *. lia.
Qed.

(** A follower's answer to AppendEntries: the invariant, the promises of the hard
    state, the branch taken; and, when the request respects what is committed,
    the commit index in its bounds and no lower than before. *)
Record append_post n (r : AppendEntries) (resp : AppendEntriesResponse) n' : Prop := {
  a_inv : node_inv n';
  a_id : n_id n' = n_id n;
  a_config : n_config n' = n_config n;
  a_hard : hard_le (n_hard n) (n_hard n');
  a_quiet : quiet n n';
  a_outcome : append_outcome n r n' resp;
  a_commit : ae_commit_wf r → respects_commit n r → ext n n'
}.

Lemma set_commit_inv n (i : LogIndex) : node_inv n → node_inv (set_commit_index i n).
Proof. intros []. by split. Qed.

(** The two halves of an accepted request: the log, then the commit index. *)
Lemma accept_entries_spec r n n1 :
  node_inv n → node_inv n1 → n_role n1 = Follower → log_kept n n1 → kept n n1 →
  node_term n1 = ae_term r → ae_wf r →
  view_matches (ae_prev_log_index r) (ae_prev_log_term r) (view n) = true →
  wp (append_new_entries (ae_entries r);;
      (let match_index := u64_wrap (ae_prev_log_index r + N.of_nat (length (ae_entries r))) in
       commit ← gets n_commit_index;
       (if u64_val commit <? ae_leader_commit r then
          modify (set_commit_index
            (if ae_leader_commit r <=? match_index then ae_leader_commit r else match_index))
        else mret ());;
       mret (mkAppendEntriesResponse (node_term n1) true Term_ZERO LogIndex_ZERO match_index (ae_seq r))))
    (λ resp n', append_post n r resp n') (fails n) n1.
Proof.
  intros Hn Hn1 Hr1 Hlk Hk Ht Hwf Hm. pose proof Hlk as (He1 & Hs1 & Hcf1 & Hcm1).
  pose proof (d_contig _ (i_dur _ Hn)) as Hc. pose proof (d_contig _ (i_dur _ Hn1)) as Hc1.
  assert (view_snap_index (view n1) = view_snap_index (view n)) as Hsn
    by (unfold view_snap_index; by rewrite Hs1).
  assert (view_last_index (view n1) = view_last_index (view n)) as Hla
    by (unfold view_last_index; by rewrite (log_kept_last _ _ Hlk)).
  pose proof (view_matches_last _ _ _ Hc Hm) as Hprev. pose proof (prev_len_fits r Hwf) as Hfit.
  set (m := u64_wrap _). assert (u64_val m = ae_prev_log_index r + N.of_nat (length (ae_entries r))) as Hmv.
  { unfold m. rewrite u64_wrap_val. apply N.mod_small. lia. }
  pose proof Hwf as (Hnum & Hcan & Hts). unfold append_new_entries. do 3 wp_step.
  eapply wp_mono; [apply (append_new_entries_from_spec _ (ae_prev_log_index r) n1 n1)| |].
  - done.
  - apply same_refl, Hn1.
  - done.
  - by rewrite Hla.
  - unfold fits. by rewrite Ht.
  - intros [] n2 (Hn2 & Hv2 & Heq2). do 2 wp_step. rewrite Hsn in Hv2.
    pose proof (merge_spec _ _ (ae_prev_log_index r) _ Hc eq_refl Hprev Hnum) as Hmg.
    destruct (merge_fields (view_snap_index (view n)) (ae_entries r) _ _ He1 Hs1) as [Hme Hms].
    assert (v_snapshot (view n2) = v_snapshot (view n)) as Hsn2 by by rewrite Hv2, Hms, (m_snap _ _ _ _ _ Hmg).
    assert (view_last_index (view n2) = view_last_index (merge (view_snap_index (view n)) (ae_entries r) (view n))) as Hl2.
    { rewrite Hv2. unfold view_last_index, view_last. by rewrite Hme, Hms. }
    assert (n_commit_index n2 = n_commit_index n) as Hcm2 by by rewrite Heq2.
    assert (n_id n2 = n_id n1 ∧ n_config n2 = n_config n1 ∧ n_hard n2 = n_hard n1 ∧ n_role n2 = Follower)
      as (Hid2 & Hcfg2 & Hh2 & Hr2) by by rewrite Heq2.
    set (c := if ae_leader_commit r <=? m then ae_leader_commit r else m).
    assert (u64_val c = N.min (ae_leader_commit r) m) as Hcv.
    { unfold c. destruct (N.leb_spec (ae_leader_commit r) m); lia. }
    assert (∀ n3, n3 = set_commit_index (if n_commit_index n <? ae_leader_commit r then c else n_commit_index n) n2 →
      append_post n r (mkAppendEntriesResponse (node_term n1) true Term_ZERO LogIndex_ZERO m (ae_seq r)) n3) as Hdone.
    { intros n3 ->. destruct Hk as [_ [Hid Hcfg Hh _] [Hq1 Hq2]].
      split; simpl; [by apply set_commit_inv|congruence|congruence|by rewrite Hh2| | |].
      - split; unfold is_leader; simpl; rewrite Hr2; done.
      - assert (node_term n1 = node_term (set_commit_index
          (if n_commit_index n <? ae_leader_commit r then c else n_commit_index n) n2)) as ->
          by (unfold node_term; simpl; by rewrite Hh2).
        apply append_accepted; simpl; try done.
        + unfold node_term in *; simpl. by rewrite Hh2.
        + by rewrite <-Hme, <-Hv2.
        + destruct (_ <? _); [done|done].
      - intros Hcw Hresp. split; simpl; [congruence|congruence|by rewrite Hh2|].
        intros [Hlo Hhi].
        pose proof (merged_last_bound _ _ _ _ _ Hmg Hnum Hprev _ Hhi eq_refl Hc Hresp) as Hb.
        pose proof (m_last _ _ _ _ _ Hmg) as Hml. unfold ae_commit_wf in Hcw.
        unfold commit_ok; simpl. change (view (set_commit_index _ n2)) with (view n2).
        unfold view_snap_index in *. rewrite Hsn2, Hl2.
        destruct (N.ltb_spec (n_commit_index n) (ae_leader_commit r)); lia. }
    rewrite Hcm2. destruct (u64_val (n_commit_index n) <? ae_leader_commit r) eqn:Hlt; do 2 wp_step.
    + by apply Hdone.
    + wp_step. apply Hdone. rewrite <-Hcm2. by destruct n2.
  - intros e n2 Hf. by apply (kept_fails n n1).
Qed.

(** Recognizing the leader of the current term: follower, timer armed. *)
Lemma wp_accept_leader {B} lead now (k : eff (RaftNode L) RaftError B) Q X n :
  (∀ n', volatile n n' → n_role n' = Follower → n_leader_id n' = Some lead →
     n_last_leader_contact n' = Some now → wp k Q X n') →
  wp (step_down_to_follower;; modify (set_leader_id (Some lead));;
      modify (set_last_leader_contact (Some now));; arm_election_timer now;; k) Q X n.
Proof.
  intros HQ. wp_step. apply wp_step_down. intros n1 Hv1 Hr1. do 5 wp_step.
  apply wp_arm_election_timer. intros n2 Hv2 Hr2 Hl2 Hc2. apply HQ; [|by rewrite Hr2|done..].
  eapply volatile_trans; [exact Hv1|]. exact Hv2.
Qed.

Lemma handle_append_entries_spec r now n :
  node_inv n → ae_wf r →
  wp (handle_append_entries r now) (append_post n r) (fails n) n.
Proof.
  intros Hn Hwf. unfold handle_append_entries. wp_step.
  eapply wp_mono; [by apply observe_term_spec| |done]. intros b n1 (Hk1 & Hlk1 & Hb). do 2 wp_step.
  destruct (N.ltb_spec (ae_term r) (node_term n1)) as [Hlt|Hge].
  { wp_step. destruct b as [|]; [destruct Hb as (_ & Heq & _); rewrite Heq in Hlt; lia|]. destruct Hb as [-> _].
    split; [done..|by apply append_stale|done]. }
  assert (node_term n1 = ae_term r) as Ht.
  { apply u64_inj. destruct b; [by destruct Hb as (_ & -> & _)|destruct Hb as [-> ?]; lia]. }
  apply wp_accept_leader. intros n2 Hvol Hr2 _ _.
  assert (kept n n2) as Hk2 by (eapply kept_trans; [exact Hk1|]; apply volatile_kept; [apply Hk1|done]).
  pose proof (log_kept_trans _ _ _ Hlk1 (volatile_log_kept _ _ Hvol)) as Hlk2.
  assert (node_term n2 = node_term n1) as Ht2 by (destruct Hvol as (_&_&_&Eh&_); unfold node_term; by rewrite Eh).
  wp_step. apply (answers_wp _ _ _ _ _ (log_matches_answers _ _) (k_inv _ _ Hk2)).
  2:{ intros e n3 Hs3 ? _. apply (kept_fails n n2); [done|]. apply same_fails; [apply Hk2|done..]. }
  intros matches n3 Hs3 Hn3 ->.
  assert (view_matches (ae_prev_log_index r) (ae_prev_log_term r) (view n2) =
    view_matches (ae_prev_log_index r) (ae_prev_log_term r) (view n)) as ->.
  { destruct Hlk2 as (He & Hs & _). unfold view_matches, view_term_at, view_snap_index. by rewrite He, Hs. }
  assert (kept n n3) as Hk3 by (eapply kept_trans; [exact Hk2|apply same_kept; [apply Hk2|done]]).
  pose proof (log_kept_trans _ _ _ Hlk2 (log_kept_same _ _ Hs3)) as Hlk3.
  assert (node_term n3 = node_term n1 ∧ n_role n3 = Follower) as [Ht3 Hr3].
  { destruct Hs3 as (l & _ & _ & ->). by rewrite <-Ht2. }
  destruct (view_matches _ _ (view n)) eqn:Hm; simpl; rewrite <-Ht3.
  { apply accept_entries_spec; try done. by rewrite Ht3. }
  wp_step. apply (answers_wp _ _ _ _ _ (conflict_hint_answers _) Hn3).
  2:{ intros e n4 Hs4 ? _. apply (kept_fails n n3); [done|]. by apply same_fails. }
  intros hint n4 Hs4 Hn4 Hhint. wp_step.
  assert (kept n n4) as [_ Hx4 Hq4] by (eapply kept_trans; [exact Hk3|by apply same_kept]).
  assert (node_term n4 = node_term n3 ∧ n_role n4 = n_role n3) as [Ht4 Hr4] by by destruct Hs4 as (l & _ & _ & ->).
  destruct Hx4 as [? ? ? ?] eqn:E. clear E. split; try done. rewrite <-Ht4. apply append_mismatch.
  - by rewrite Ht4, Ht3.
  - by rewrite Hr4.
  - eapply log_kept_trans; [exact Hlk3|by apply log_kept_same].
  - done.
  - unfold hint_ok. by rewrite (same_view _ _ Hs4).
Qed.

(** ** Leader side *)

(** A leader whose bookkeeping of peers changed, everything else the same. *)
Definition rebooked n n' : Prop :=
  leader_post n n' ∧ n_commit_index n' = n_commit_index n ∧ view n' = view n ∧
  active_config n' = active_config n.

Lemma rebooked_set n state state' :
  node_inv n → n_role n = Leader state →
  term_start_index state' = term_start_index state →
  map_Forall (λ _ next, 0 < u64_val next) (next_index state') →
  rebooked n (set_role (Leader state') n).
Proof. intros Hn Hr Hts Hnext. split; [by apply (set_leader_post n state)|done]. Qed.

Lemma insert_pos (m : gmap NodeId LogIndex) p (i : LogIndex) :
  map_Forall (λ _ next, 0 < u64_val next) m → 0 < u64_val i →
  map_Forall (λ _ next, 0 < u64_val next) (<[p := i]> m).
Proof. intros Hm Hi. by apply map_Forall_insert_2. Qed.

Lemma wp_record_match from i (Q : () → RaftNode L → Prop) X n :
  node_inv n → (∀ n', rebooked n n' → Q () n') → wp (record_match from i) Q X n.
Proof.
  intros Hn HQ. unfold record_match. wp_step. apply HQ.
  destruct (n_role n) as [| |state] eqn:Hr; [split; [by apply leader_post_refl|done]..|].
  apply (rebooked_set n state); [done..|]. simpl.
  apply insert_pos; [by eapply leader_next_pos|apply LogIndex_next_pos].
Qed.

Lemma wp_back_off from i (Q : () → RaftNode L → Prop) X n :
  node_inv n → (∀ n', rebooked n n' → Q () n') → wp (back_off from i) Q X n.
Proof.
  intros Hn HQ. unfold back_off. wp_step. apply HQ.
  destruct (n_role n) as [| |state] eqn:Hr; [split; [by apply leader_post_refl|done]..|].
  apply (rebooked_set n state); [done..|]. simpl.
  apply insert_pos; [by eapply leader_next_pos|]. destruct (N.leb_spec i 1); simpl; lia.
Qed.

Lemma wp_note_leadership_ack from seq (Q : () → RaftNode L → Prop) X n :
  node_inv n → (∀ n', rebooked n n' → is_leader n' = is_leader n → Q () n') →
  wp (note_leadership_ack from seq) Q X n.
Proof.
  intros Hn HQ. unfold note_leadership_ack. wp_step.
  destruct (n_role n) as [| |state] eqn:Hr; [apply HQ; [split; [by apply leader_post_refl|done]|done]..|].
  destruct (credit_reads _ _ _ _) as [ready keep]. set (state' := set_pending_reads keep state).
  destruct (rebooked_set n state state' Hn Hr eq_refl (leader_next_pos _ _ Hn Hr)) as (Hp & _).
  apply HQ; [|unfold is_leader; simpl; by rewrite Hr]. split; [|done].
  destruct Hp as [Hn' Hx Hq Hg]. pose proof Hn' as [Hst Hd Hh Hs Htr Hb Hbi Hro].
  split; [by split| | |]; [destruct Hx|destruct Hq|destruct Hg]; by split.
Qed.

Lemma rebooked_run n n' outs n'' : rebooked n n' → leader_run n' outs n'' → leader_run n outs n''.
Proof.
  intros (Hp & Hc & _) Hrun. apply (leader_run_trans n [] n' outs); [|done].
  apply still_run; [done..|constructor].
Qed.

Lemma rebooked_room n n' k : rebooked n n' → room k n → room k n'.
Proof. intros (_ & _ & Hv & _). unfold room. by rewrite Hv. Qed.

Lemma rebooked_inv n n' : rebooked n n' → node_inv n'.
Proof. intros [[] _]. done. Qed.

Lemma rebooked_stops n n' e n'' : rebooked n n' → stops n' e n'' → stops n e n''.
Proof.
  intros (Hp & Hc & _). apply leader_run_stops with []. apply still_run; [done..|constructor].
Qed.

Lemma peer_is_behind_answers peer : answers (peer_is_behind peer) (λ _ _, True).
Proof.
  intros n Hn. unfold peer_is_behind. do 2 wp_step.
  destruct (n_role n); [wp_step; split; [apply same_refl, Hn|done]..|].
  wp_step. apply (answers_wp _ _ _ _ _ (answers_read _ _ last_index_reads) Hn); [|auto].
  intros last n' Hs Hn' ->. by wp_step.
Qed.

Lemma advance_and_replicate_spec from now n :
  node_inv n → room 1 n → wp (advance_and_replicate from now) (leader_run n) (stops n) n.
Proof.
  intros Hn Hroom. unfold advance_and_replicate. wp_step.
  eapply wp_mono; [by apply advance_commit_index_spec| |done]. intros outs n1 Hrun.
  assert (node_inv n1) as Hn1 by apply Hrun. wp_step.
  apply (answers_wp _ _ _ _ _ (peer_is_behind_answers from) Hn1).
  - intros behind n2 Hs2 Hn2 _.
    assert (leader_run n outs n2) as Hrun2.
    { rewrite <-(app_nil_r outs). eapply leader_run_trans; [done|].
      apply still_run; [by apply same_leader_post|by apply same_commit|constructor]. }
    destruct behind; [|by wp_step]. wp_step. eapply wp_mono; [by apply replicate_to_spec| |].
    + intros outs' n3 Hrun3. wp_step. by eapply leader_run_trans.
    + intros e n3. by apply leader_run_stops with outs.
  - intros e n2 Hs2 ? _. apply (leader_run_stops n outs n1); [done|]. by apply same_stops.
Qed.

Lemma handle_append_entries_response_spec from resp now n :
  node_inv n → room 1 n →
  wp (handle_append_entries_response from resp now)
    (λ outs n', stepped n outs n' ∧ quiet n n' ∧ (n_hard n' = n_hard n → leader_run n outs n'))
    (fails n) n.
Proof.
  intros Hn Hroom. unfold handle_append_entries_response. wp_step.
  eapply wp_mono; [by apply observe_term_spec| |done]. intros b n1 (Hk1 & Hlk1 & Hb). destruct b.
  { wp_step. split_and!; [by apply kept_stepped|apply Hk1|]. intros Hh. destruct Hb as (Hlt & Ht & _).
    unfold node_term in *. rewrite Hh in Ht. rewrite Ht in Hlt. lia. }
  destruct Hb as [-> Hle]. do 2 wp_step. cbn [id].
  assert (∀ outs n', leader_run n outs n' →
    stepped n outs n' ∧ quiet n n' ∧ (n_hard n' = n_hard n → leader_run n outs n')) as Hdone.
  { intros outs n' Hrun. split_and!; [by apply leader_run_stepped|apply Hrun|done]. }
  destruct (negb (u64_val (aer_term resp) =? _) || negb (is_leader n)).
  { wp_step. apply Hdone, still_run; [by apply leader_post_refl|done|constructor]. }
  wp_step. apply wp_note_leadership_ack; [done|]. intros n1 Hb1 _.
  destruct (aer_success resp); wp_step.
  - apply wp_record_match; [by eapply rebooked_inv|]. intros n2 Hb2.
    eapply wp_mono; [apply advance_and_replicate_spec| |].
    + by eapply rebooked_inv.
    + by eapply rebooked_room, rebooked_room.
    + intros outs n3 Hrun. by eapply Hdone, rebooked_run, rebooked_run.
    + intros e n3 Hf. by eapply stops_fails, rebooked_stops, rebooked_stops.
  - apply wp_back_off; [by eapply rebooked_inv|]. intros n2 Hb2.
    eapply wp_mono; [by eapply replicate_to_spec, rebooked_inv| |].
    + intros outs n3 Hrun. by eapply Hdone, rebooked_run, rebooked_run.
    + intros e n3 Hf. by eapply stops_fails, rebooked_stops, rebooked_stops.
Qed.

(** ** Snapshots *)

(** A node over a log whose prefix a snapshot replaced. *)
Lemma snapshotted_inv n l' m d t :
  node_inv n → (n_role n = Follower ∨ view_last_index (store_view l') = view_last_index (view n) ∧
    ∀ i e, v_entries (store_view l') !! i = Some e → v_entries (view n) !! i = Some e) →
  store_ok l' → contiguous (store_view l') →
  (∀ i e, v_entries (store_view l') !! i = Some e → v_entries (view n) !! i = Some e) →
  v_snapshot (store_view l') = Some (m, d) → v_hard (store_view l') = v_hard (view n) →
  config_good (snap_config m) → u64_val (last_included_term m) ≤ node_term n →
  tracks t (v_entries (store_view l')) → base t = snap_config m → base_index t = last_included_index m →
  node_inv (set_snapshot (Some m) (set_configs t (set_log l' n))).
Proof.
  intros [Hst Hd Hh Hs Htr Hb Hbi Hro] Hrole Hl Hc Hsub Hsn Hh' Hcg Hmt Ht Ebase Ebi.
  set (n' := set_snapshot _ _). assert (view n' = store_view l') as Hv by done.
  split; rewrite ?Hv; simpl; rewrite ?Ebase, ?Ebi; try done.
  - destruct Hd as [_ Hcan Hts _]. rewrite Hh in Hts. split; rewrite ?Hh', ?Hh; eauto.
    intros m' d' ?. rewrite Hsn in *. by simplify_eq.
  - by rewrite Hh'.
  - by rewrite Hsn.
  - unfold base_of. by rewrite Hsn.
  - unfold view_snap_index. by rewrite Hsn.
  - unfold role_ok in *. simpl. rewrite Hv. destruct (n_role n) as [| |state]; [done..|].
    destruct Hrole as [?|[Hlast _]]; [done|]. rewrite Hlast.
    destruct Hro as (? & ? & ? & ? & Hown). split_and!; try done; try lia.
    intros i e Hi He. apply (Hown i e Hi). by apply Hsub.
Qed.

(** Installing a leader's snapshot, branch by branch. *)
Inductive install_outcome n (r : InstallSnapshot) n' : Prop :=
| install_stale_leader : u64_val (is_term r) < node_term n → n' = n → install_outcome n r n'
| install_stale_snapshot :
    node_term n' = is_term r → n_role n' = Follower → log_kept n n' →
    u64_val (is_last_included_index r) ≤ N.max (view_snap_index (view n)) (n_commit_index n) →
    install_outcome n r n'
| install_done (basis : bool) :
    node_term n' = is_term r → n_role n' = Follower →
    N.max (view_snap_index (view n)) (n_commit_index n) < u64_val (is_last_included_index r) →
    (basis = true ↔ ∃ e, v_entries (view n) !! u64_val (is_last_included_index r) = Some e ∧
       le_term e = is_last_included_term r) →
    v_snapshot (view n') = Some (mkSnapshotMeta (is_last_included_index r) (is_last_included_term r)
      (is_config r), is_data r) →
    (∀ i e, v_entries (view n') !! i = Some e ↔
       basis = true ∧ u64_val (is_last_included_index r) < i ∧ v_entries (view n) !! i = Some e) →
    n_commit_index n' = is_last_included_index r →
    (basis = false → active_config n' = is_config r) →
    install_outcome n r n'.

(** After the write: the in-memory fields follow. *)
Lemma install_finish r n n1 l' (basis : bool) :
  let meta := mkSnapshotMeta (is_last_included_index r) (is_last_included_term r) (is_config r) in
  let v' := store_view l' in
  node_inv n1 → n_role n1 = Follower → node_term n1 = is_term r → is_wf r → log_kept n n1 → kept n n1 →
  N.max (view_snap_index (view n)) (n_commit_index n) < u64_val (is_last_included_index r) →
  (basis = true ↔ ∃ e, v_entries (view n) !! u64_val (is_last_included_index r) = Some e ∧
    le_term e = is_last_included_term r) →
  store_ok l' → contiguous v' →
  v_snapshot v' = Some (meta, is_data r) → v_hard v' = v_hard (view n1) →
  (∀ i e, v_entries v' !! i = Some e ↔
     basis = true ∧ u64_val (is_last_included_index r) < i ∧ v_entries (view n1) !! i = Some e) →
  tracks (on_install_snapshot (is_config r) (is_last_included_index r) (negb basis) (n_configs n1)) (v_entries v') →
  wp (modify (λ n, set_configs (on_install_snapshot (is_config r) (last_included_index meta)
        (negb basis) (n_configs n)) n);;
      modify (set_commit_index (last_included_index meta));;
      modify (set_snapshot (Some meta));; mret (mkInstallSnapshotResponse (node_term n1)))
    (λ resp n', kept n n' ∧ install_outcome n r n' ∧ isr_term resp = node_term n') (fails n) (set_log l' n1).
Proof.
  intros meta v' Hn1 Hr1 Ht1 (Hcg & Hmt) Hlk Hk Hnew Hbasis Hl' Hc' Hsn' Hh' Hent' Htr'.
  subst v'. do 7 wp_step. simpl. set (t := on_install_snapshot _ _ _ _) in *.
  assert (node_inv (set_commit_index (is_last_included_index r)
    (set_snapshot (Some meta) (set_configs t (set_log l' n1))))) as Hinv.
  { apply set_commit_inv, (snapshotted_inv n1 l' meta (is_data r)); try done.
    - by left.
    - intros i e. rewrite Hent'. by intros (_ & _ & ?).
    - simpl. by rewrite Ht1.
    - simpl. by rewrite bool_decide_eq_false_2 by apply Hcg. }
  set (n' := set_commit_index _ _) in Hinv. assert (view n' = store_view l') as Hvn by done.
  split; [|split; [|done]].
  - destruct Hk as [_ [Hid Hcfg Hh _] _].
    split; [done|split; [done..|]|by split; unfold is_leader; simpl; rewrite Hr1].
    intros Hok. change (commit_ok n' ∧ u64_val (n_commit_index n) ≤ n_commit_index n').
    unfold commit_ok. rewrite Hvn. destruct Hc' as [Hle' _].
    unfold view_snap_index in *. rewrite Hsn' in *. simpl in *. lia.
  - destruct Hlk as (He & _). apply (install_done n r n' basis); rewrite ?Hvn; try done.
    + intros i e. by rewrite Hent', He.
    + intros ->. unfold active_config, active. simpl. by rewrite bool_decide_eq_false_2 by apply Hcg.
Qed.

(** The write itself, from a follower of the sender's term. *)
Lemma install_write_spec r n n1 :
  let meta := mkSnapshotMeta (is_last_included_index r) (is_last_included_term r) (is_config r) in
  node_inv n1 → n_role n1 = Follower → node_term n1 = is_term r → is_wf r → log_kept n n1 → kept n n1 →
  N.max (view_snap_index (view n)) (n_commit_index n) < u64_val (is_last_included_index r) →
  wp (e ← on_log (st_get (last_included_index meta));
      let basis_matches := bool_decide (le_term <$> e = Some (last_included_term meta)) in
      (if basis_matches then on_log (st_compact_to meta (is_data r))
       else on_log (st_install_snapshot_replacing_log meta (is_data r)));;
      modify (λ n, set_configs (on_install_snapshot (is_config r)
        (last_included_index meta) (negb basis_matches) (n_configs n)) n);;
      modify (set_commit_index (last_included_index meta));;
      modify (set_snapshot (Some meta));;
      mret (mkInstallSnapshotResponse (node_term n1)))
    (λ resp n', kept n n' ∧ install_outcome n r n' ∧ isr_term resp = node_term n') (fails n) n1.
Proof.
  intros meta Hn1 Hr1 Ht1 Hwf Hlk Hk Hnew.
  pose proof Hlk as (He & Hs & _). pose proof (d_contig _ (i_dur _ Hn1)) as Hc.
  assert (view_snap_index (view n1) = view_snap_index (view n)) as Hsn
    by (unfold view_snap_index; by rewrite Hs).
  assert (∀ n2 e, same n1 n2 → storage_fault e → fails n e n2) as Hfail.
  { intros n2 e Hs2 ?. apply (kept_fails n n1); [done|]. by apply same_fails. }
  wp_step. apply (answers_wp _ _ _ _ _ (answers_read _ _ (get_reads _)) Hn1); [|auto].
  intros e n2 Hs2 Hn2 ->. unfold view_get. cbv zeta. set (basis := bool_decide _).
  assert (basis = true ↔ ∃ e, v_entries (view n) !! u64_val (is_last_included_index r) = Some e ∧
    le_term e = is_last_included_term r) as Hbasis.
  { unfold basis. rewrite bool_decide_eq_true, He. simpl. rewrite fmap_Some. naive_solver. }
  pose proof (i_tracks _ Hn1) as Htr. clearbody basis.
  destruct Hs2 as (l & Hl & Hvl & ->). destruct basis; wp_step.
  - apply (wp_write _ (view_compact meta (is_data r))); [apply compact_writes, Hwf|done| |].
    2:{ intros err n3 Hs3 ?. apply Hfail; [|done]. eapply same_trans; [|done]. by exists l. }
    intros l' Hl' Hv'. change (view (set_log l n1)) with (store_view l) in Hv'. rewrite Hvl in Hv'.
    destruct (proj1 Hbasis eq_refl) as (e & Hin & _). rewrite <-He in Hin.
    apply mk_is_Some, (contiguous_keys _ _ Hc) in Hin.
    apply (install_finish r n n1 l' true); rewrite ?Hv'; try done.
    + apply contiguous_compact; [done|simpl; lia].
    + intros i e'. simpl. rewrite map_lookup_filter_Some. simpl. naive_solver.
    + apply (tracks_install_retain _ _ meta (is_data r)), Htr.
  - apply (wp_write _ (view_install meta (is_data r))); [apply install_writes, Hwf|done| |].
    2:{ intros err n3 Hs3 ?. apply Hfail; [|done]. eapply same_trans; [|done]. by exists l. }
    intros l' Hl' Hv'. change (view (set_log l n1)) with (store_view l) in Hv'. rewrite Hvl in Hv'.
    apply (install_finish r n n1 l' false); rewrite ?Hv'; try done.
    + apply contiguous_install.
    + intros i e'. simpl. rewrite lookup_empty. naive_solver.
    + apply (tracks_install_wiped _ (view n1) meta (is_data r)).
Qed.

Lemma fails_failed n e n' : fails n e n' → failed n n'.
Proof. by intros []. Qed.

Lemma handle_install_snapshot_spec r now n :
  node_inv n → is_wf r →
  wp (handle_install_snapshot r now)
    (λ resp n', kept n n' ∧ install_outcome n r n' ∧ isr_term resp = node_term n')
    (λ e n', failed n n' ∧ (storage_fault e ∨
       (is_offset r ≠ u64_0 ∨ is_done r = false) ∧ kept n n' ∧ log_kept n n' ∧
       ∃ reason, e = Snapshot reason)) n.
Proof.
  intros Hn Hwf. unfold handle_install_snapshot. wp_step.
  eapply wp_mono; [by apply observe_term_spec| |]; [|intros e n' []; auto].
  intros b n1 (Hk1 & Hlk1 & Hb). do 2 wp_step.
  destruct (N.ltb_spec (is_term r) (node_term n1)) as [Hlt|Hge].
  { wp_step. destruct b as [|]; [destruct Hb as (_ & Heq & _); rewrite Heq in Hlt; lia|].
    destruct Hb as [-> _]. split_and!; [by apply kept_refl|by apply install_stale_leader|done]. }
  assert (node_term n1 = is_term r) as Ht.
  { apply u64_inj. destruct b; [by destruct Hb as (_ & -> & _)|destruct Hb as [-> ?]; lia]. }
  destruct (negb (u64_val (is_offset r) =? 0) || negb (is_done r)) eqn:Hchunk.
  { wp_step. split; [apply (failed_ext n n1); [apply Hk1|apply inv_failed, Hk1]|].
    right. split_and!; [|done|done|by eexists]. apply orb_true_iff in Hchunk as [Ho|Hd]; [left|right; by destruct (is_done r)].
    intros Heq. by rewrite Heq in Ho. }
  apply wp_accept_leader. intros n2 Hvol Hr2 _ _. do 2 wp_step. cbn [id].
  assert (kept n n2) as Hk2 by (eapply kept_trans; [exact Hk1|]; apply volatile_kept; [apply Hk1|done]).
  pose proof (log_kept_trans _ _ _ Hlk1 (volatile_log_kept _ _ Hvol)) as Hlk2.
  assert (node_term n2 = node_term n1) as Ht2 by (destruct Hvol as (_&_&_&Eh&_); unfold node_term; by rewrite Eh).
  pose proof Hlk2 as (_ & Hs2 & _ & Hcm2).
  rewrite (snapshot_index_view n2 (k_inv _ _ Hk2)), Hcm2, <-Ht2.
  assert (view_snap_index (view n2) = view_snap_index (view n)) as -> by (unfold view_snap_index; by rewrite Hs2).
  destruct ((_ <=? _) || (_ <=? _)) eqn:Hstale.
  { wp_step. split_and!; [done| |done]. apply install_stale_snapshot; [by rewrite Ht2|done|done|].
    apply orb_true_iff in Hstale. rewrite !N.leb_le in Hstale. lia. }
  apply orb_false_iff in Hstale. rewrite !N.leb_gt in Hstale.
  eapply wp_mono; [apply install_write_spec| |]; try done.
  - apply Hk2.
  - by rewrite Ht2.
  - lia.
  - intros e n3 []. auto.
Qed.

Lemma handle_install_snapshot_response_spec from resp now n :
  node_inv n → room 1 n →
  wp (handle_install_snapshot_response from resp now)
    (λ outs n', stepped n outs n' ∧ quiet n n' ∧ (n_hard n' = n_hard n → leader_run n outs n'))
    (fails n) n.
Proof.
  intros Hn Hroom. unfold handle_install_snapshot_response. wp_step.
  eapply wp_mono; [by apply observe_term_spec| |done]. intros b n1 (Hk1 & Hlk1 & Hb). destruct b.
  { wp_step. split_and!; [by apply kept_stepped|apply Hk1|]. intros Hh. destruct Hb as (Hlt & Ht & _).
    unfold node_term in *. rewrite Hh in Ht. rewrite Ht in Hlt. lia. }
  destruct Hb as [-> Hle]. do 2 wp_step. cbn [id].
  assert (∀ outs n', leader_run n outs n' →
    stepped n outs n' ∧ quiet n n' ∧ (n_hard n' = n_hard n → leader_run n outs n')) as Hdone.
  { intros outs n' Hrun. split_and!; [by apply leader_run_stepped|apply Hrun|done]. }
  assert (leader_run n [] n) as Hnil by (apply still_run; [by apply leader_post_refl|done|constructor]).
  destruct (negb (u64_val (isr_term resp) =? _) || negb (is_leader n)); [wp_step; by apply Hdone|].
  destruct (n_snapshot n) as [meta|]; [|wp_step; by apply Hdone].
  wp_step. apply wp_record_match; [done|]. intros n2 Hb2.
  eapply wp_mono; [apply advance_and_replicate_spec| |].
  - by eapply rebooked_inv.
  - by eapply rebooked_room.
  - intros outs n3 Hrun. by eapply Hdone, rebooked_run.
  - intros e n3 Hf. by eapply stops_fails, rebooked_stops.
Qed.

(** Compacting at the commit index: the snapshot records the term and the
    configuration in force there; the entries above it stay. *)
Record compacted n (data : bytes) (meta : SnapshotMeta) n' : Prop := {
  c_index : last_included_index meta = n_commit_index n;
  c_new : view_snap_index (view n) < n_commit_index n;
  c_term : view_term_at (n_commit_index n) (view n) = Some (last_included_term meta);
  c_at : snap_config meta = config_at (n_commit_index n) (n_configs n);
  c_config : in_force (base_of (view n)) (v_entries (view n)) (n_commit_index n) (snap_config meta);
  c_view : view n' = view_compact meta data (view n);
  c_commit : n_commit_index n' = n_commit_index n;
  c_configs i : u64_val (n_commit_index n) ≤ u64_val i → config_at i (n_configs n') = config_at i (n_configs n)
}.

Lemma compact_spec data n :
  node_inv n →
  wp (compact data) (λ meta n', kept n n' ∧ n_role n' = n_role n ∧ compacted n data meta n')
    (λ e n', same n n' ∧ (storage_fault e ∨
       u64_val (n_commit_index n) ≤ view_snap_index (view n) ∨
       view_last_index (view n) < n_commit_index n)) n.
Proof.
  intros Hn. unfold compact. do 2 wp_step. cbn [id]. rewrite (snapshot_index_view n Hn).
  pose proof Hn as [Hst Hd Hh Hs Htr Hb Hbi Hro]. pose proof Hd as [Hc Hcan Hts Hsnap].
  destruct (N.eqb_spec (n_commit_index n) 0); simpl.
  { wp_step. split; [by apply same_refl|right; left; lia]. }
  destruct (N.leb_spec (n_commit_index n) (view_snap_index (view n))).
  { wp_step. split; [by apply same_refl|auto]. }
  wp_step. apply (answers_wp _ _ _ _ _ (term_at_answers _) Hn).
  2:{ intros e n' Hs' ? ?. split; [done|auto]. }
  intros t n1 Hs1 Hn1 ->. pose proof Hc as (Hle & Hdom & Hself).
  destruct (view_term_at (n_commit_index n) (view n)) as [term|] eqn:Hterm.
  2:{ wp_step. split; [done|]. right. right.
      apply N.nle_gt. intros Hlast. destruct (proj2 (Hdom (n_commit_index n))) as [e He]; [lia|].
      unfold view_term_at in Hterm. by rewrite He in Hterm. }
  set (meta := mkSnapshotMeta _ _ _). pose proof (view_term_at_last _ _ _ Hc Hterm) as Hlast.
  assert (∃ e, v_entries (view n) !! u64_val (n_commit_index n) = Some e ∧ le_term e = term) as (e & He & Het).
  { destruct (proj2 (Hdom (n_commit_index n))) as [e He]; [lia|]. exists e. split; [done|].
    unfold view_term_at in Hterm. rewrite He in Hterm. by simplify_eq. }
  wp_step. apply (wp_write _ (view_compact meta data)).
  - by apply compact_writes, config_at_good.
  - by eapply same_store.
  - intros l' Hl' Hv'. rewrite (same_view _ _ Hs1) in Hv'. do 5 wp_step.
    destruct Hs1 as (l & _ & _ & ->). simpl.
    destruct (contiguous_compact (view n) meta data) as [Hc' Hl2]; [done|simpl; lia|].
    set (t := on_compact _ _).
    assert (node_inv (set_snapshot (Some meta) (set_configs t (set_log l' n)))) as Hn'.
    { apply (snapshotted_inv n l' meta data); rewrite ?Hv'; try done.
      - right. split; [done|]. by intros i e' [? _]%map_lookup_filter_Some.
      - by intros i e' [? _]%map_lookup_filter_Some.
      - by apply config_at_good.
      - simpl. rewrite <-Het. specialize (Hts _ _ He). unfold node_term. by rewrite <-Hh.
      - apply (tracks_compact _ _ meta data), Htr. }
    split_and!; [split; [exact Hn'| |by split]|done|split; try done].
    + split; [done..|]. intros [Hlo Hhi]. split; [|done].
      unfold commit_ok, view; simpl. rewrite Hv', Hl2.
      change (view_snap_index (view_compact meta data (view n))) with (u64_val (n_commit_index n)). lia.
    + simpl. rewrite <-Hb. by apply config_at_in_force.
    + intros i Hi. apply config_at_compact; [apply Htr|done].
  - intros err n' Hs' ?. pose proof (same_trans _ _ _ Hs1 Hs').
    split; [done|auto].
Qed.

(** ** The client interface *)

Definition client_fails n (refused : Prop) (e : RaftError) n' : Prop :=
  leader_run n [] n' ∧ (storage_fault e ∨ refused ∧ view n' = view n).

Lemma refuse n (P : Prop) e : node_inv n → P → client_fails n P e n.
Proof.
  intros Hn HP. split; [|auto]. apply still_run; [by apply leader_post_refl|done|constructor].
Qed.

Lemma same_refuse n n' (P : Prop) e : node_inv n → same n n' → storage_fault e ∨ P → client_fails n P e n'.
Proof.
  intros Hn Hs HP. split; [|destruct HP; auto using same_view].
  apply still_run; [by apply same_leader_post|by apply same_commit|constructor].
Qed.

Lemma leader_post_keeps n n' i e :
  leader_post n n' → v_entries (view n) !! i = Some e → v_entries (view n') !! i = Some e.
Proof. intros [_ _ _ []]. auto. Qed.

(** The entry just written survives the rest of the call. *)
Definition wrote n (mk : LogIndex → LogEntry) n' : Prop :=
  ∃ i, u64_val i = view_last_index (view n) + 1 ∧ v_entries (view n') !! u64_val i = Some (mk i).

Lemma propose_spec command now n :
  node_inv n → room 2 n → command_ok command →
  wp (propose command now)
    (λ outs n', is_leader n = true ∧ leader_run n outs n' ∧
       wrote n (λ i, LogEntry_new (node_term n) i command) n')
    (client_fails n (is_leader n = false)) n.
Proof.
  intros Hn Hroom Hcmd. unfold room in Hroom. unfold propose. do 2 wp_step. cbn [id].
  destruct (is_leader n) eqn:Hlead; simpl; [|wp_step; by apply refuse].
  assert (∀ e n', stops n e n' → client_fails n (true = false) e n') as Hf.
  { intros e n' []. split; auto. }
  wp_step. apply (answers_wp _ _ _ _ _ (answers_read _ _ last_index_reads) Hn);
    [|intros; by apply Hf, same_stops].
  intros last n0 Hs Hn0 ->.
  apply (wp_push (λ i, LogEntry_new (node_term n) i command) _ _ _ n n0); [done|done|done|unfold room; lia| |auto].
  intros l' e Hl' Hv' Hpost. change (set_configs _ (set_log l' n)) with (set_log l' n) in Hpost.
  pose proof (next_last n ltac:(unfold room; lia)) as Hnext.
  set (n1 := set_log l' n) in *.
  assert (view n1 = view_append [e] (view n)) as Hv1 by done.
  assert (view_last_index (view n1) = view_last_index (view n) + 1) as Hlast.
  { rewrite Hv1. apply (contiguous_append (view n) [e]); [apply Hn|]. by split. }
  eapply wp_mono; [apply (advance_replicate_spec now n1); [apply Hpost|unfold room; lia]| |].
  - intros outs n' Hrun. split_and!; [done| |].
    + apply (leader_run_trans n [] n1); [|done]. apply still_run; [done|done|constructor].
    + exists (LogIndex_next (view_last (view n)).1). split; [done|].
      eapply leader_post_keeps; [apply Hrun|]. rewrite Hv1. apply lookup_insert_eq.
  - intros err n' Hfl. apply Hf. apply (leader_run_stops n [] n1); [|done]. apply still_run; [done|done|constructor].
Qed.

Lemma append_config_wrote c now n :
  node_inv n → config_good c → room 2 n →
  wp (append_config_entry c now)
    (λ outs n', leader_run n outs n' ∧ wrote n (λ i, mkLogEntry (node_term n) i (Config c)) n') (stops n) n.
Proof.
  intros Hn Hc Hroom. unfold room in Hroom. unfold append_config_entry, append_config_entry_with. wp_step.
  apply (answers_wp _ _ _ _ _ (answers_read _ _ last_index_reads) Hn); [|intros; by apply same_stops].
  intros last n0 Hs Hn0 ->. do 2 wp_step.
  assert (n_hard n0 = n_hard n) as Hh by by destruct Hs as (l & _ & _ & ->). rewrite Hh.
  pose proof (next_last n ltac:(unfold room; lia)) as Hnext.
  apply (wp_push (λ i, LogEntry_with_payload (current_term (n_hard n)) i (Config c)) _ _ _ n n0);
    [done|done|done|unfold room; lia| |done].
  intros l' e Hl' Hv' Hpost. do 2 wp_step.
  set (n1 := set_configs _ _). change (leader_post n n1) in Hpost.
  assert (view n1 = view_append [e] (view n)) as Hv1 by done.
  assert (view_last_index (view n1) = view_last_index (view n) + 1) as Hlast.
  { rewrite Hv1. apply (contiguous_append (view n) [e]); [apply Hn|]. by split. }
  wp_step. eapply wp_mono; [apply refresh_leader_state_spec, Hpost| |].
  2:{ intros err n' ?. apply (leader_run_stops n [] n1); [|done]. apply still_run; [done|done|constructor]. }
  intros [] n2 (Hpost2 & Hcfg & Hcm & Hv2).
  assert (leader_run n [] n2) as Hrun.
  { apply still_run; [by eapply leader_post_trans|by rewrite Hcm|constructor]. }
  eapply wp_mono; [apply (advance_replicate_spec now n2); [apply Hpost2|unfold room; rewrite Hv2; lia]| |].
  - intros outs n3 Hrun3. split; [by apply (leader_run_trans n [] n2)|].
    exists (LogIndex_next (view_last (view n)).1). split; [done|].
    eapply leader_post_keeps; [apply Hrun3|]. rewrite Hv2, Hv1. apply lookup_insert_eq.
  - intros err n'. by apply leader_run_stops with [].
Qed.

(** A membership change may start only when none is under way. *)
Definition settled n : Prop :=
  is_joint (active_config n) = false ∧ u64_val (latest_index (n_configs n)) ≤ n_commit_index n.

Lemma change_in_flight_settled n : change_in_flight n = false ↔ settled n.
Proof. unfold change_in_flight, settled. by rewrite orb_false_iff, N.ltb_ge. Qed.

Lemma propose_conf_change_spec new_voters now n :
  node_inv n → room 2 n →
  wp (propose_conf_change new_voters now)
    (λ outs n', is_leader n = true ∧ settled n ∧ new_voters ≠ ∅ ∧
       leader_run n outs n' ∧
       wrote n (λ i, mkLogEntry (node_term n) i (Config (mkClusterConfig new_voters
         (Some (voters (active_config n))) (learners (active_config n) ∖ new_voters)))) n')
    (client_fails n True) n.
Proof.
  intros Hn Hroom. unfold propose_conf_change. do 2 wp_step. cbn [id].
  destruct (is_leader n) eqn:Hlead; simpl; [|wp_step; by apply refuse].
  case_bool_decide as Hne; [wp_step; by apply refuse|].
  destruct (change_in_flight n) eqn:Hfl; [wp_step; by apply refuse|].
  apply change_in_flight_settled in Hfl.
  case_bool_decide; [wp_step; by apply refuse|].
  wp_step. apply (answers_wp _ _ _ _ _ (answers_read _ _ last_index_reads) Hn).
  2:{ intros e n' Hs ? ?. apply same_refuse; auto. }
  intros last n0 Hs Hn0 ->. pose proof (same_view _ _ Hs) as Hv0.
  destruct (match n_role n with Leader _ => _ | _ => _ end) as [[added matched]|].
  { wp_step. apply same_refuse; auto. }
  destruct (active_good _ Hn) as [[Hdis _] Hvne].
  eapply wp_mono; [apply (append_config_wrote _ now n0); [done| |unfold room in *; by rewrite Hv0]| |].
  - split; simpl; [|done]. split; simpl; [set_solver|]. split; [set_solver|done].
  - intros outs n' [Hrun Hw]. unfold wrote in *. rewrite Hv0 in Hw.
    assert (node_term n0 = node_term n) as Ht by by destruct Hs as (l & _ & _ & ->). rewrite Ht in Hw.
    split_and!; try done.
    apply (leader_run_trans n [] n0); [|done].
    apply still_run; [by apply same_leader_post|by apply same_commit|constructor].
  - intros e n' [Hf ?]. split; [|auto]. apply (leader_run_trans n [] n0 []); [|done].
    apply still_run; [by apply same_leader_post|by apply same_commit|constructor].
Qed.

Lemma propose_add_learner_spec id now n :
  node_inv n → room 2 n →
  wp (propose_add_learner id now)
    (λ outs n', is_leader n = true ∧ settled n ∧ id ∉ voters (active_config n) ∧
       leader_run n outs n' ∧
       wrote n (λ i, mkLogEntry (node_term n) i (Config (mkClusterConfig (voters (active_config n))
         None ({[id]} ∪ learners (active_config n))))) n')
    (client_fails n True) n.
Proof.
  intros Hn Hroom. unfold propose_add_learner. do 2 wp_step.
  destruct (is_leader n) eqn:Hlead; simpl; [|wp_step; by apply refuse].
  destruct (change_in_flight n) eqn:Hfl; [wp_step; by apply refuse|].
  apply change_in_flight_settled in Hfl.
  case_bool_decide; [wp_step; by apply refuse|]. case_bool_decide; [wp_step; by apply refuse|].
  destruct (active_good _ Hn) as [[Hdis _] Hvne]. pose proof Hfl as [Hj _]. unfold is_joint in Hj.
  destruct (old_voters (active_config n)) eqn:Hold; [done|].
  eapply wp_mono; [apply (append_config_wrote _ now n); [done| |done]| |].
  - split; simpl; [|done]. split; simpl; [set_solver|done].
  - intros outs n' [Hrun Hw]. split_and!; try done; apply Hfl.
  - intros e n' [Hf ?]. split; auto.
Qed.

(** ** Linearizable reads *)

Lemma volatile_post n n' : node_inv n → volatile n n' → leader_post n n'.
Proof.
  intros Hn Hv. destruct (volatile_kept n n' Hn Hv) as [? ? ?]. split; [done..|].
  destruct Hv as (_ & _ & El & Eh & _). unfold view. split; unfold view; rewrite ?El; auto.
Qed.

(** The read's index covers everything committed when it was registered, and an
    entry of the leader's own term. *)
Definition read_bound n (i : LogIndex) : Prop :=
  ∃ state, n_role n = Leader state ∧ u64_val i = N.max (n_commit_index n) (term_start_index state).

Lemma start_read_spec now n :
  node_inv n →
  wp (start_read now)
    (λ '(id, outs) n', leader_run n outs n' ∧ ∃ i, read_bound n i ∧
       ((has_quorum (active_config n) {[n_id n]} = true ∧
         n_read_results n' = n_read_results n ++ [(id, inr i)]) ∨
        (∃ state state', n_role n = Leader state ∧ n_role n' = Leader state' ∧
           n_read_results n' = n_read_results n ∧
           pending_reads state' = pending_reads state ++
             [mkPendingRead id i (wrapping_add (ls_ae_seq state) u64_1) {[n_id n]}])))
    (client_fails n (is_leader n = false)) n.
Proof.
  intros Hn. unfold start_read. do 2 wp_step. cbn [id].
  destruct (is_leader n) eqn:Hlead; simpl; [|wp_step; by apply refuse].
  unfold is_leader in Hlead. destruct (n_role n) as [| |state] eqn:Hr; [done..|].
  set (i := if _ <=? _ then _ else _). set (rid := wrapping_add _ _).
  assert (read_bound n i) as Hbound.
  { exists state. split; [done|]. unfold i. destruct (N.leb_spec (term_start_index state) (n_commit_index n)); lia. }
  do 2 wp_step. destruct (has_quorum _ _) eqn:Hq.
  - do 3 wp_step. split; [|exists i; auto]. apply still_run; [|done|constructor].
    apply volatile_post; [done|]. unfold volatile; simpl. auto 10.
  - do 3 wp_step. set (state1 := set_pending_reads _ state).
    set (n1 := set_role (Leader state1) _).
    assert (leader_post n n1) as Hp1.
    { eapply (leader_post_trans n (set_read_seq rid n)).
      - apply volatile_post; [done|]. unfold volatile; simpl. auto 10.
      - apply (set_leader_post _ state); [|done|done|].
        + apply (volatile_post n); [done|]. unfold volatile; simpl. auto 10.
        + exact (leader_next_pos n state Hn Hr). }
    pose proof (replicate_all_exact n1 state1 (lp_inv _ _ Hp1) eq_refl) as Hex.
    pose proof (replicate_all_spec n1 (lp_inv _ _ Hp1)) as Hrep.
    destruct (make_plans _ state1) as [plans state2] eqn:Hmp.
    pose proof (make_plans_spec _ _ _ _ Hmp) as (_ & _ & _ & _ & Hpend & _).
    eapply wp_mono; [apply (wp_and _ _ _ _ _ _ Hex Hrep)| |].
    + intros outs n2 [[Hs2 _] Hrun]. wp_step. split.
      * apply (leader_run_trans n [] n1); [|done]. apply still_run; [done|done|constructor].
      * exists i. split; [done|]. right. exists state, state2.
        destruct Hs2 as (l & _ & _ & ->). split_and!; [done|done|done|]. by rewrite Hpend.
    + intros e n2 [_ Hf]. destruct (leader_run_stops n [] n1 e n2) as []; [|done|split; auto].
      apply still_run; [done|done|constructor].
Qed.

(** Crediting one reply to the pending reads.  A read is confirmed only by a
    quorum of the configuration in force; only a reply to a request stamped at or
    after the read's registration adds an acknowledgement; no read is dropped. *)
Lemma credit_reads_spec c from seq reads ready keep :
  credit_reads c from seq reads = (ready, keep) →
  (∀ rid i, (rid, i) ∈ ready → ∃ read, read ∈ reads ∧ rid = pr_id read ∧ i = inr (pr_read_index read) ∧
     has_quorum c (if pr_confirm_seq read <=? seq then {[from]} ∪ pr_acks read else pr_acks read) = true) ∧
  (∀ read', read' ∈ keep → ∃ read, read ∈ reads ∧ pr_id read' = pr_id read ∧
     pr_read_index read' = pr_read_index read ∧ pr_confirm_seq read' = pr_confirm_seq read ∧
     pr_acks read' = (if pr_confirm_seq read <=? seq then {[from]} ∪ pr_acks read else pr_acks read) ∧
     has_quorum c (pr_acks read') = false) ∧
  pr_id <$> reads ≡ₚ (fst <$> ready) ++ (pr_id <$> keep).
Proof.
  revert ready keep. induction reads as [|read reads IH]; intros ready keep Heq; simpl in Heq.
  { simplify_eq. split_and!; [set_solver..|done]. }
  destruct (credit_reads c from seq reads) as [ready1 keep1] eqn:Hrec.
  destruct (IH _ _ eq_refl) as (Hrd & Hkp & Hperm). unfold credit_read in Heq.
  destruct (has_quorum c _) eqn:Hq; simplify_eq; split_and!.
  - intros rid i [?|Hin]%elem_of_cons; [simplify_eq; exists read; set_solver|].
    destruct (Hrd _ _ Hin) as (r & ? & ?). exists r. set_solver.
  - intros r' Hin. destruct (Hkp _ Hin) as (r & ? & ?). exists r. set_solver.
  - simpl. by rewrite Hperm.
  - intros rid i Hin. destruct (Hrd _ _ Hin) as (r & ? & ?). exists r. set_solver.
  - intros r' [->|Hin]%elem_of_cons; [exists read; set_solver|].
    destruct (Hkp _ Hin) as (r & ? & ?). exists r. set_solver.
  - simpl. rewrite Hperm. by rewrite Permutation_middle.
Qed.

(** ** Starting and restarting *)

(** What a server knows of itself right after [with_bootstrap]. *)
Record recovered (id : NodeId) (config : NodeConfig) (v : LogView) n : Prop := {
  r_inv : node_inv n;
  r_id : n_id n = id;
  r_config : n_config n = config;
  r_view : view n = v;
  r_role : n_role n = Follower;
  r_commit : u64_val (n_commit_index n) = view_snap_index v;
  r_reads : n_read_results n = []
}.

Lemma wp_store_read {A} (m : eff L RaftError A) f (Q : A → L → Prop) X l :
  reads store_ok store_view m f → store_ok l →
  (∀ l', store_ok l' → store_view l' = store_view l → Q (f (store_view l)) l') →
  (∀ e l', store_ok l' → store_view l' = store_view l → storage_fault e → X e l') →
  wp m Q X l.
Proof.
  intros Hm Hl HQ HX. eapply wp_mono; [by apply Hm| |].
  - intros r l' (? & ? & ->). auto.
  - intros e l' (? & ? & ?). auto.
Qed.

Lemma view_first_bound v k : is_Some (v_entries v !! k) → u64_val (view_first v) ≤ k.
Proof.
  intros [e He]. unfold view_first. destruct (table_first (v_entries v)) as [[k0 e0]|] eqn:Hf; simpl; [|lia].
  apply table_first_Some in Hf as [_ Hmin]. specialize (Hmin _ _ He). rewrite u64_sat_val. lia.
Qed.

Lemma view_first_zero v : contiguous v → view_first v = LogIndex_ZERO → v_entries v = ∅.
Proof.
  intros (_ & Hdom & _) Hz. destruct (table_first (v_entries v)) as [[k e]|] eqn:Hf.
  - pose proof (table_first_Some _ _ _ Hf) as [Hk _]. unfold view_first in Hz. rewrite Hf in Hz.
    apply (f_equal u64_val) in Hz. rewrite u64_sat_val in Hz. simpl in Hz.
    apply mk_is_Some, Hdom in Hk. pose proof (u64_le_max (view_last v).1). unfold view_last_index, u64_max in *. lia.
  - unfold table_first in Hf. destruct (table_asc (v_entries v)) eqn:Ht; [|done]. by apply table_asc_nil.
Qed.

Lemma with_bootstrap_spec id rng config now l :
  store_ok l → durable_ok (store_view l) →
  wp (λ l, with_bootstrap id boot l rng config now)
    (λ n _, recovered id config (store_view l) n)
    (λ e l', store_ok l' ∧ store_view l' = store_view l ∧ storage_fault e) l.
Proof.
  intros Hl Hd. unfold with_bootstrap. change (wp (λ l, ?m l) ?Q ?X l) with (wp m Q X l).
  wp_step. apply (wp_store_read _ _ _ _ _ load_hard_reads); [done| |auto]. intros l1 Hl1 Hv1.
  wp_step. apply (wp_store_read _ _ _ _ _ snapshot_meta_reads); [done| |rewrite Hv1; auto]. intros l2 Hl2 Hv2.
  rewrite Hv1 in *. wp_step. apply (wp_store_read _ _ _ _ _ first_reads); [done| |rewrite Hv2; auto].
  intros l3 Hl3 Hv3. rewrite Hv2 in *. set (v := store_view l) in *.
  set (floor := match fst <$> v_snapshot v with Some m => _ | None => _ end).
  set (b := match fst <$> v_snapshot v with Some m => _ | None => _ end).
  pose proof (d_contig _ Hd) as Hc. pose proof Hc as (_ & _ & Hself).
  assert (b = base_of v) as Hb.
  { unfold b, base_of. destruct (v_snapshot v) as [[m d]|] eqn:Hs; [|done]. simpl.
    rewrite bool_decide_eq_false_2; [done|]. by apply (d_snap _ Hd _ _ Hs). }
  assert (u64_val floor = view_snap_index v) as Hfl.
  { unfold floor, view_snap_index. by destruct (v_snapshot v) as [[m d]|]. }
  assert (∀ t l4, store_ok l4 → store_view l4 = v → tracks t (v_entries v) → base t = b → base_index t = floor →
    recovered id config v (arm_election_timer now (mkRaftNode id t Follower l4 (v_hard v) floor
      (fst <$> v_snapshot v) None None rng config now now u64_0 [])).1) as Hfin.
  { intros t l4 Hl4 Hv4 Ht Hbt Hbi. unfold arm_election_timer, modify. simpl.
    destruct (election_timeout _ _ _) as [d r]. set (n := set_election_timer _ _ _).
    assert (view n = v) as Hvn by done. split; try done. split; rewrite ?Hvn; simpl; try done; [congruence|].
    by rewrite Hbi. }
  wp_step. case_decide as Hz.
  - wp_step. do 3 wp_step. apply Hfin; try done. rewrite (view_first_zero _ Hc Hz). apply tracks_new.
  - wp_step. apply (wp_store_read _ _ _ _ _ (entries_from_reads _)); [done| |rewrite Hv3; auto].
    intros l4 Hl4 Hv4. rewrite Hv3 in *. do 4 wp_step. destruct (note_configs_base (view_entries_from (view_first v) v)
      (ConfigTracker_new b floor)) as [Hnb Hnbi].
    apply Hfin; try done. apply tracks_recover; [done|]. apply view_first_bound.
Qed.

(** A recovered server applies the same membership it applied before the crash. *)
Lemma recovered_configs n id config n' i :
  node_inv n → recovered id config (view n) n' → config_at i (n_configs n') = config_at i (n_configs n).
Proof.
  intros [_ _ _ _ Ht Hb _ _] [[_ _ _ _ Ht' Hb' _ _] _ _ Hv _ _ _]. rewrite Hv in *.
  unfold config_at. rewrite (tracks_unique _ _ _ Ht' Ht), Hb, Hb'. done.
Qed.

End handlers.
