(* ===== verification/RaftSim.v ===== *)
(** * brokkr-raft: the node implements the protocol

    Every method of [RaftNode] is a sequence of steps of the protocol of
    [RaftProtocol.v], taken by the server it runs on; and if the method fails
    part of the way, what it leaves on disk is what some prefix of such a
    sequence leaves.  [node_rel] relates a running node to its server,
    [disk_rel] what is on disk; [simulates] is the weakest-precondition form of
    the simulation. *)

From stdpp Require Import prelude functions gmap strings.
From Stdlib Require Import Lia.
From S2P Require Import Prelude Machine Bytes RaftTypes RaftProtocol RaftAgreement RaftRng RaftWire RaftStore RaftConfig RaftNode RaftNodeSpec RaftReceiver RaftLogRel RaftHandlers.

Local Open Scope N_scope.

(** ** The relation *)

Definition role_rel (r : Role) (p : PRole) : Prop :=
  match r, p with
  | Follower, PFollower => True
  | Candidate _, PCandidate => True
  | Leader st, PLeader m => m = (λ i : LogIndex, pos i) <$> match_index st
  | _, _ => False
  end.

Definition disk_rel `{Origin} `{SnapData} (v : LogView) (x : PServer) : Prop :=
  p_term x = u64_val (current_term (v_hard v)) ∧ p_vote x = voted_for (v_hard v) ∧
  log_rel (p_log x) v ∧ view_snap_index v ≤ N.of_nat (p_commit x).

(** A message of the implementation and one of the protocol. *)
Definition snap_rel `{Origin} `{SnapData} (r : InstallSnapshot) (P : list LogEntry) : Prop :=
  N.of_nat (length P) = is_last_included_index r ∧ 0 < is_last_included_index r ∧
  last_term P = u64_val (is_last_included_term r) ∧ votes_of (is_config r) = cfg P ∧
  snap_data (is_data r) P.

Definition vote_msg (r : RequestVote) : PMsg :=
  PVoteReq (rv_candidate_id r) (u64_val (rv_term r)) (pos (rv_last_log_index r))
    (u64_val (rv_last_log_term r)).

Definition append_msg (r : AppendEntries) : PMsg :=
  PAppend (u64_val (ae_term r)) (pos (ae_prev_log_index r)) (u64_val (ae_prev_log_term r))
    (ae_entries r) (pos (ae_leader_commit r)).

Definition out_rel `{Origin} `{SnapData} (a : PState) (o : Outbound) : Prop :=
  match o with
  | OutRequestVote _ r => vote_msg r ∈ pnet a
  | OutAppendEntries _ r => append_msg r ∈ pnet a
  | OutInstallSnapshot _ r => ∃ P, PSnap (u64_val (is_term r)) P ∈ pnet a ∧ snap_rel r P
  end.

Section sim.
Context {L : Type} `{RaftStoreSpec L} `{!Bootstrap} `{!Origin} `{!SnapData}.
Context (self : NodeId).

Implicit Types (n : RaftNode L) (a : PState).

Record node_rel n a : Prop := {
  nr_id : n_id n = self;
  nr_inv : node_inv n;
  nr_prot : pinv a;
  nr_disk : disk_rel (view n) (psrv a self);
  nr_role : role_rel (n_role n) (p_role (psrv a self));
  nr_commit : N.of_nat (p_commit (psrv a self)) = n_commit_index n;
  nr_votes votes : n_role n = Candidate votes →
    ∀ q, q ∈ votes → ∃ l, mkPBallot q (u64_val (node_term n)) self l ∈ pballots a
}.

Definition moves : relation PState := rtc (pstep self).

(** What a failed call guarantees: the node is as sound as before, or at least
    its disk is. *)
Definition survived (_ : RaftError) n a : Prop := node_rel n a.

Definition crashed (_ : RaftError) n a : Prop := pinv a ∧ disk_rel (view n) (psrv a self).

Definition simulates {A} (m : eff (RaftNode L) RaftError A) (Q : A → RaftNode L → PState → Prop)
    (X : RaftError → RaftNode L → PState → Prop) n a : Prop :=
  wp m (λ r n', ∃ a', moves a a' ∧ node_rel n' a' ∧ Q r n' a')
       (λ e n', ∃ a', moves a a' ∧ X e n' a') n.

(** ** Moves of the protocol *)

Lemma moves_inv a a' : moves a a' → pinv a → pinv a'.
Proof. induction 1; [done|]. eauto using pstep_inv. Qed.

Lemma pstep_mono v a a' : pstep v a a' → pnet a ⊆ pnet a' ∧ pballots a ⊆ pballots a'.
Proof. by intros []; simpl; split; set_solver. Qed.

Lemma moves_mono a a' : moves a a' → pnet a ⊆ pnet a' ∧ pballots a ⊆ pballots a'.
Proof.
  induction 1 as [|a1 a2 a3 Hs _ [? ?]]; [done|]. destruct (pstep_mono _ _ _ Hs). set_solver.
Qed.

Lemma moves_others a a' q : moves a a' → q ≠ self → psrv a' q = psrv a q.
Proof.
  intros Hm Hq. induction Hm as [|a1 a2 a3 Hs _ IH]; [done|]. rewrite IH.
  destruct Hs; simpl; by rewrite fn_lookup_insert_ne.
Qed.

Lemma out_rel_mono a a' o : pnet a ⊆ pnet a' → out_rel a o → out_rel a' o.
Proof. intros Hsub. destruct o; simpl; [auto..|]. intros (P & ? & ?). eauto. Qed.

Lemma outs_rel_mono a a' outs : moves a a' → Forall (out_rel a) outs → Forall (out_rel a') outs.
Proof.
  intros [Hsub _]%moves_mono Ho. eapply Forall_impl; [exact Ho|]. intros o. by apply out_rel_mono.
Qed.

(** ** Facts about related states *)

Lemma rel_term n a : node_rel n a → p_term (psrv a self) = u64_val (node_term n).
Proof. intros [_ Hn _ (-> & _) _ _ _]. unfold node_term. by rewrite (i_hard _ Hn). Qed.

Lemma rel_vote n a : node_rel n a → p_vote (psrv a self) = voted_for (n_hard n).
Proof. intros [_ Hn _ (_ & -> & _) _ _ _]. by rewrite (i_hard _ Hn). Qed.

Lemma rel_log n a : node_rel n a → log_rel (p_log (psrv a self)) (view n).
Proof. by intros [_ _ _ (_ & _ & ? & _) _ _ _]. Qed.

Lemma rel_commit n a :
  node_rel n a → view_snap_index (view n) ≤ n_commit_index n ≤ N.of_nat (length (p_log (psrv a self))).
Proof.
  intros [_ _ Hi (_ & _ & _ & Hs) _ Hc _]. rewrite Hc in Hs.
  pose proof (settled_length _ _ _ _ _ (si_commit _ _ _ (pi_srv _ Hi self))). lia.
Qed.

Lemma rel_leader n a state :
  node_rel n a → n_role n = Leader state →
  p_role (psrv a self) = PLeader ((λ i : LogIndex, pos i) <$> match_index state) ∧ reigns a self.
Proof.
  intros Hr Hl. pose proof (nr_role _ _ Hr) as Hrole. rewrite Hl in Hrole. simpl in Hrole.
  destruct (p_role (psrv a self)) as [| |m] eqn:Hp; [done..|]. subst m. split; [done|].
  destruct (si_leader _ _ _ (pi_srv _ (nr_prot _ _ Hr) self) _ Hp) as [Hh _].
  unfold reigns. by rewrite Hh.
Qed.

Lemma rel_crashed e n a : node_rel n a → crashed e n a.
Proof. by intros []. Qed.

Lemma same_rel n n' a : same n n' → node_rel n a → node_rel n' a.
Proof.
  intros Hs [Hid Hn Hi Hd Hr Hc Hv]. pose proof (same_inv _ _ Hs Hn) as Hn'.
  pose proof (same_view _ _ Hs) as Hview. destruct Hs as (l & _ & _ & ->).
  split; try done. by rewrite Hview.
Qed.

Lemma volatile_rel n n' a : volatile n n' → n_role n' = n_role n → node_rel n a → node_rel n' a.
Proof.
  intros Hvol Hrole [Hid Hn Hi Hd Hr Hc Hv]. pose proof (volatile_kept _ _ Hn Hvol) as [Hn' _ _].
  destruct Hvol as (Eid & _ & El & Eh & Ec & _).
  assert (view n' = view n) as Hview by (unfold view; by rewrite El).
  split; rewrite ?Hview, ?Hrole, ?Ec; try done; [congruence|].
  intros votes Hvs. unfold node_term. rewrite Eh. by apply Hv.
Qed.

(** ** Rules *)

Section rules.
Context (X : RaftError → RaftNode L → PState → Prop).

Lemma sim_ret {A} (r : A) (Q : A → RaftNode L → PState → Prop) n a :
  node_rel n a → Q r n a → simulates (mret r) Q X n a.
Proof. intros Hr HQ. apply wp_ret. exists a. split_and!; [apply rtc_refl|done|done]. Qed.

Lemma sim_moves {A} (m : eff (RaftNode L) RaftError A) Q n a a' :
  moves a a' → simulates m Q X n a' → simulates m Q X n a.
Proof.
  intros Hm Hs. eapply wp_mono; [exact Hs| |].
  - intros r n' (a2 & ? & ?). exists a2. split; [by etrans|done].
  - intros e n' (a2 & ? & ?). exists a2. split; [by etrans|done].
Qed.

Lemma sim_mono {A} (m : eff (RaftNode L) RaftError A) (Q Q' : A → RaftNode L → PState → Prop) n a :
  simulates m Q X n a → (∀ r n' a', moves a a' → node_rel n' a' → Q r n' a' → Q' r n' a') →
  simulates m Q' X n a.
Proof.
  intros Hs HQ. eapply wp_mono; [exact Hs| |done].
  intros r n' (a2 & ? & ? & ?). exists a2. auto.
Qed.

Lemma sim_bind {A B} (m : eff (RaftNode L) RaftError A) (k : A → eff (RaftNode L) RaftError B)
    (Q1 : A → RaftNode L → PState → Prop) Q n a :
  simulates m Q1 X n a →
  (∀ r n' a', moves a a' → node_rel n' a' → Q1 r n' a' → simulates (k r) Q X n' a') →
  simulates (m ≫= k) Q X n a.
Proof.
  intros Hm Hk. apply wp_bind. eapply wp_mono; [exact Hm| |done].
  intros r n' (a2 & Hmv & Hr & HQ1). eapply sim_moves; [exact Hmv|]. by apply Hk.
Qed.

Lemma sim_gets {A B} (f : RaftNode L → A) (k : A → eff (RaftNode L) RaftError B) Q n a :
  simulates (k (f n)) Q X n a → simulates (gets f ≫= k) Q X n a.
Proof. intros Hk. apply wp_bind, wp_gets. exact Hk. Qed.

Lemma sim_modify {B} (f : RaftNode L → RaftNode L) (k : () → eff (RaftNode L) RaftError B) Q n a :
  simulates (k ()) Q X (f n) a → simulates (modify f ≫= k) Q X n a.
Proof. intros Hk. apply wp_bind, wp_modify. exact Hk. Qed.

Context (HX : ∀ e n a, node_rel n a → X e n a).

(** A read. *)
Lemma sim_read {A B} (m : eff (RaftNode L) RaftError A) P (k : A → eff (RaftNode L) RaftError B) Q n a :
  answers m P → node_rel n a →
  (∀ r n', same n n' → node_rel n' a → P r n → simulates (k r) Q X n' a) →
  simulates (m ≫= k) Q X n a.
Proof.
  intros Hm Hr Hk. apply wp_bind, (answers_wp _ _ _ _ _ Hm (nr_inv _ _ Hr)).
  - intros r n' Hs _ HP. apply Hk; [done|by eapply same_rel|done].
  - intros e n' Hs _ _. exists a. split; [apply rtc_refl|]. by eapply HX, same_rel.
Qed.

End rules.

(** ** Sending *)

Lemma pput_self a x ms bs cs h : psrv (pput a self x ms bs cs h) self = x.
Proof. apply fn_lookup_insert. Qed.

Lemma moves_once a a' : pstep self a a' → moves a a'.
Proof. apply rtc_once. Qed.

Lemma send_rel n a m :
  let a' := pput a self (psrv a self) [m] [] [] (phist a) in
  node_rel n a → pstep self a a' → moves a a' ∧ node_rel n a' ∧ m ∈ pnet a'.
Proof.
  intros a' [Hid Hn Hi Hd Hr Hc Hv] Hs. split_and!; [by apply moves_once| |simpl; set_solver].
  split; unfold a'; rewrite ?pput_self; try done; [by eapply pstep_inv|].
  intros votes Hvs q Hq. destruct (Hv votes Hvs q Hq) as [l ?]. exists l. simpl. set_solver.
Qed.

Lemma outbound_append_sim n a state peer next seq :
  node_rel n a → n_role n = Leader state → view_snap_index (view n) < u64_val next →
  ∃ a', moves a a' ∧ node_rel n a' ∧
    out_rel a' (OutAppendEntries peer
      (mkAppendEntries (node_term n) (n_id n) (LogIndex_prev next)
         (if decide (LogIndex_prev next = LogIndex_ZERO) then Term_ZERO
          else default Term_ZERO (view_term_at (LogIndex_prev next) (view n)))
         (view_entries_from next (view n)) (n_commit_index n) seq)).
Proof.
  intros Hr Hl Hnext. destruct (rel_leader _ _ _ Hr Hl) as [_ Hreign].
  pose proof (rel_log _ _ Hr) as Hlog. pose proof (rel_term _ _ Hr) as Ht. pose proof (nr_commit _ _ Hr) as Hc.
  pose proof (rel_commit _ _ Hr) as Hcl.
  rewrite (log_rel_entries_from _ _ next Hlog Hnext). set (prev := LogIndex_prev next).
  assert (u64_val prev = next - 1) as Hprev by apply LogIndex_prev_val.
  set (pt := if decide (prev = LogIndex_ZERO) then _ else _). set (l := p_log (psrv a self)) in *.
  replace (pos next - 1)%nat with (pos prev) by lia.
  assert (slice l (pos prev) (u64_val pt) (drop (pos prev) l)) as Hsl.
  { unfold pt. case_decide as Hz.
    - left. rewrite Hz. split_and!; [simpl; lia|done|done].
    - assert (0 < prev) as Hpos by (destruct (decide (u64_val prev = 0)); [by destruct Hz; apply u64_inj|lia]).
      destruct (decide (u64_val prev ≤ N.of_nat (length l))) as [Hle|Hgt].
      + destruct (log_rel_term l (view n) prev Hlog) as (t & -> & Hpt); [lia|lia|].
        left. split_and!; [lia|done|done].
      + right. rewrite drop_ge by lia. split_and!; [done| |lia].
        destruct (view_term_at prev (view n)) as [t|] eqn:E; [|done].
        destruct (log_rel_term_at _ _ _ _ Hlog Hpos E). lia. }
  eexists. edestruct (send_rel n a (PAppend (p_term (psrv a self)) (pos prev) (u64_val pt)
    (drop (pos prev) l) (p_commit (psrv a self)))) as (? & ? & Hin); [done| |].
  { apply ps_send_append; [done|done|done|]. rewrite length_drop. fold l. lia. }
  split_and!; [done..|]. simpl. unfold append_msg. simpl. rewrite <-Ht.
  replace (pos (n_commit_index n)) with (p_commit (psrv a self)) by lia. done.
Qed.

Lemma outbound_sim n a state peer next seq :
  node_rel n a → n_role n = Leader state → 0 < u64_val next →
  ∃ a', moves a a' ∧ node_rel n a' ∧ out_rel a' (outbound_for peer next seq n).
Proof.
  intros Hr Hl Hpos. pose proof (rel_log _ _ Hr) as Hlog. pose proof (rel_commit _ _ Hr) as Hcl.
  pose proof (outbound_append_sim n a state peer next seq Hr Hl) as Happend.
  unfold outbound_for. unfold view_snap_index in *.
  destruct (v_snapshot (view n)) as [[m d]|] eqn:Hs; [|by apply Happend].
  destruct (N.leb_spec next (last_included_index m)) as [Hle|Hgt]; [|by apply Happend].
  clear Happend. destruct (rel_leader _ _ _ Hr Hl) as [_ Hreign].
  destruct (lr_snap _ _ Hlog m d Hs) as (Hmpos & Hmt & Hmv & Hmd). pose proof (nr_commit _ _ Hr) as Hc.
  eexists. edestruct (send_rel n a (PSnap (p_term (psrv a self))
    (take (pos (last_included_index m)) (p_log (psrv a self))))) as (? & ? & Hin); [done| |].
  { apply ps_send_snap; [done|lia]. }
  split_and!; [done..|]. simpl. eexists. rewrite <-(rel_term _ _ Hr). split; [exact Hin|].
  unfold snap_rel, last_term. simpl. rewrite length_take, Nat.min_l, term_of_take by lia.
  split_and!; [lia|done..].
Qed.

Lemma outbounds_sim n a state plans :
  node_rel n a → n_role n = Leader state →
  (∀ peer next seq, (peer, next, seq) ∈ plans → 0 < u64_val next) →
  ∃ a', moves a a' ∧ node_rel n a' ∧
    Forall (out_rel a') ((λ '(peer, next, seq), outbound_for peer next seq n) <$> plans).
Proof.
  intros Hr Hl. revert a Hr. induction plans as [|[[peer next] seq] plans IH]; intros a Hr Hpos.
  { exists a. split_and!; [apply rtc_refl|done|constructor]. }
  destruct (outbound_sim n a state peer next seq Hr Hl) as (a1 & Hm1 & Hr1 & Ho1); [apply (Hpos peer next seq); set_solver|].
  destruct (IH a1 Hr1) as (a2 & Hm2 & Hr2 & Ho2); [intros p x y Hin; apply (Hpos p x y); set_solver|].
  exists a2. split_and!; [by etrans|done|]. simpl. constructor; [|done].
  eapply out_rel_mono; [by apply moves_mono|done].
Qed.

(** Replacing the leader's bookkeeping, its record of what peers hold untouched. *)
Lemma rebook_same_rel n a state state' :
  node_rel n a → n_role n = Leader state → match_index state' = match_index state →
  term_start_index state' = term_start_index state →
  map_Forall (λ _ next, 0 < u64_val next) (next_index state') →
  node_rel (set_role (Leader state') n) a.
Proof.
  intros [Hid Hn Hi Hd Hr Hc Hv] Hl Hm Hts Hnext.
  destruct (set_leader_post n state state' Hn Hl Hts Hnext) as [Hn' _ _ _].
  split; try done. simpl. rewrite Hl in Hr. simpl in Hr. by rewrite Hm.
Qed.

(** What a leader may put on record. *)
Definition known n a (p : NodeId) (i : LogIndex) : Prop :=
  u64_val i ≤ n_commit_index n ∨ PAck p (u64_val (node_term n)) (pos i) ∈ pnet a.

Lemma rebook_rel n a state state' :
  node_rel n a → n_role n = Leader state →
  (∀ p i, match_index state' !! p = Some i → 0 < u64_val i →
     match_index state !! p = Some i ∨ known n a p i) →
  term_start_index state' = term_start_index state →
  map_Forall (λ _ next, 0 < u64_val next) (next_index state') →
  ∃ a', moves a a' ∧ node_rel (set_role (Leader state') n) a' ∧ pnet a ⊆ pnet a'.
Proof.
  intros Hrel Hl Hm Hts Hnext. pose proof Hrel as [Hid Hn Hi Hd Hr Hc Hv].
  destruct (set_leader_post n state state' Hn Hl Hts Hnext) as [Hn' _ _ _].
  destruct (rel_leader _ _ _ Hrel Hl) as [Hp _].
  set (m' := (λ i : LogIndex, pos i) <$> match_index state').
  assert (∀ p i, m' !! p = Some i → (0 < i)%nat →
    ((λ i : LogIndex, pos i) <$> match_index state) !! p = Some i ∨
    (i ≤ p_commit (psrv a self))%nat ∨ PAck p (p_term (psrv a self)) i ∈ pnet a) as Hguard.
  { unfold m'. intros p i (j & <- & Hj)%lookup_fmap_Some Hpos.
    destruct (Hm p j Hj) as [Hold|[Hle|Hack]]; [lia|..].
    - left. by rewrite lookup_fmap, Hold.
    - right. left. lia.
    - right. right. by rewrite (rel_term _ _ Hrel). }
  pose proof (ps_rebook self a _ m' Hp Hguard) as Hstep. cbv zeta in Hstep.
  eexists. split_and!; [by apply moves_once| |simpl; set_solver].
  destruct Hd as (? & ? & ? & ?). split; rewrite ?pput_self; try done. by eapply pstep_inv.
Qed.

(** A call that only sends. *)
Definition sends (outs : list Outbound) (_ : RaftNode L) a : Prop := Forall (out_rel a) outs.

Section leader.
Context (X : RaftError → RaftNode L → PState → Prop).
Context (HX : ∀ e n a, node_rel n a → X e n a).

Lemma sim_nil n a : node_rel n a → simulates (mret []) sends X n a.
Proof. intros Hr. apply sim_ret; [done|constructor]. Qed.

Lemma replicate_all_sim n a : node_rel n a → simulates replicate_all sends X n a.
Proof.
  intros Hr. destruct (n_role n) as [| |state] eqn:Hl.
  1,2: unfold replicate_all; apply sim_gets; cbn [id]; rewrite Hl; by apply sim_nil.
  pose proof (replicate_all_exact n state (nr_inv _ _ Hr) Hl) as Hwp.
  destruct (make_plans _ _) as [plans state'] eqn:Hp.
  pose proof (make_plans_spec _ _ _ _ Hp) as (_ & Hnext & Hm & Hts & _ & Hin).
  pose proof (leader_next_pos _ _ (nr_inv _ _ Hr) Hl) as Hpos.
  assert (node_rel (set_role (Leader state') n) a) as Hr'.
  { apply (rebook_same_rel n a state); [done..|by rewrite Hnext]. }
  eapply wp_mono; [exact Hwp| |].
  - intros outs n' [Hs ->]. destruct (outbounds_sim n a state plans Hr Hl) as (a' & Hmv & Hra & Ho).
    { intros peer next seq Hi. rewrite (Hin _ _ _ Hi). by apply next_or_one_pos. }
    exists a'. split_and!; [done| |done]. eapply same_rel; [exact Hs|].
    apply (rebook_same_rel n a' state); [done..|by rewrite Hnext].
  - intros e n' [Hs _]. exists a. split; [apply rtc_refl|]. by eapply HX, same_rel.
Qed.

Lemma replicate_to_sim peer n a : node_rel n a → simulates (replicate_to peer) sends X n a.
Proof.
  intros Hr. unfold replicate_to. apply sim_gets. destruct (n_role n) as [| |state] eqn:Hl.
  1,2: by apply sim_nil.
  pose proof (leader_next_pos _ _ (nr_inv _ _ Hr) Hl) as Hpos. set (state' := set_ae_seq _ state).
  apply sim_modify. assert (node_rel (set_role (Leader state') n) a) as Hr' by by apply (rebook_same_rel n a state).
  eapply (sim_read X HX); [apply append_entries_for_answers; by apply next_or_one_pos|done|].
  intros o n' Hs Hr1 ->. 
  destruct (outbound_sim (set_role (Leader state') n) a state' peer (default u64_1 (next_index state !! peer))
    (wrapping_add (ls_ae_seq state) u64_1)) as (a' & Hmv & Hra & Ho); [done|done|by apply next_or_one_pos|].
  eapply sim_moves; [exact Hmv|]. apply sim_ret; [by eapply same_rel|]. by constructor.
Qed.

Lemma refresh_leader_state_sim n a :
  node_rel n a → simulates refresh_leader_state
    (λ _ n' _, n_configs n' = n_configs n ∧ n_commit_index n' = n_commit_index n ∧ view n' = view n ∧
       is_leader n' = is_leader n) X n a.
Proof.
  intros Hr. unfold refresh_leader_state. apply sim_gets.
  eapply (sim_read X HX); [apply answers_read, last_index_reads|done|].
  intros last n' Hs Hr' ->. apply sim_gets.
  assert (n_configs n' = n_configs n ∧ n_commit_index n' = n_commit_index n ∧ view n' = view n ∧
    is_leader n' = is_leader n) as Hsame.
  { rewrite (same_view _ _ Hs). by destruct Hs as (l & _ & _ & ->). }
  destruct (n_role n') as [| |state] eqn:Hl; [by apply sim_ret..|].
  set (state' := set_match_index _ _).
  destruct (rebook_rel n' a state state') as (a' & Hmv & Hra & _); [done|done| |done| |].
  - intros p i [[Hp _]%map_lookup_filter_Some|(_ & _ & ->)]%or_insert_all_lookup; [by left|]. simpl. lia.
  - simpl. intros p i [Hp|(_ & _ & ->)]%or_insert_all_lookup; [|apply LogIndex_next_pos].
    by eapply (next_pos_filter _ _ (leader_next_pos _ _ (nr_inv _ _ Hr') Hl)).
  - apply wp_modify. exists a'. split_and!; try done; [apply Hsame..|].
    unfold is_leader in *. simpl. destruct Hsame as (_ & _ & _ & <-). by rewrite Hl.
Qed.

(** *** Appending *)

(** Every server was first started with the same voters. *)
Context (boot_votes : votes_of boot = (origin, None)).

Lemma rel_base n a : node_rel n a → base_rel (p_log (psrv a self)) (view n) (base (n_configs n)).
Proof.
  intros Hr. pose proof (rel_log _ _ Hr) as Hlog. unfold base_rel. rewrite (i_base _ (nr_inv _ _ Hr)).
  unfold base_of, view_snap_index. destruct (v_snapshot (view n)) as [[m d]|] eqn:Hs.
  - by apply (lr_snap _ _ Hlog m d).
  - simpl. by rewrite boot_votes.
Qed.

Lemma rel_active n a : node_rel n a → votes_of (active_config n) = cfg (p_log (psrv a self)).
Proof.
  intros Hr. apply (active_votes _ (view n)); [by apply rel_log|apply (nr_inv _ _ Hr)|by apply rel_base].
Qed.

Lemma rel_quorum n a Q :
  node_rel n a → has_quorum (active_config n) Q = true → quorum_of (cfg (p_log (psrv a self))) Q.
Proof. intros Hr HQ. unfold quorum_of. rewrite <-(rel_active _ _ Hr). exact HQ. Qed.

Lemma rel_latest n a :
  node_rel n a → n_commit_index n <? latest_index (n_configs n) = false →
  (cfg_index (p_log (psrv a self)) ≤ p_commit (psrv a self))%nat.
Proof.
  intros Hr Hlt%N.ltb_ge. pose proof (nr_commit _ _ Hr) as Hc. pose proof (nr_inv _ _ Hr) as Hn.
  pose proof (latest_index_ge _ _ _ (rel_log _ _ Hr) (i_tracks _ Hn) (i_base_index _ Hn)). lia.
Qed.

(** What the protocol asks of a configuration entry. *)
Definition may_append n a (e : LogEntry) : Prop :=
  ∀ d, entry_votes e = Some d →
    (cfg_index (p_log (psrv a self)) ≤ p_commit (psrv a self))%nat ∧
    follows (cfg (p_log (psrv a self))) d.

Lemma push_rel n a state e l' :
  let n1 := set_configs (noted e (n_configs n)) (set_log l' n) in
  node_rel n a → n_role n = Leader state → le_term e = node_term n →
  u64_val (le_index e) = view_last_index (view n) + 1 → store_view l' = view_append [e] (view n) →
  node_inv n1 → may_append n a e → ∃ a', moves a a' ∧ node_rel n1 a'.
Proof.
  intros n1 Hrel Hl Ht Hi Hv Hn1 Hmay. destruct (rel_leader _ _ _ Hrel Hl) as [Hp _].
  assert (eterm e = p_term (psrv a self)) as Hte by (unfold eterm; by rewrite (rel_term _ _ Hrel), Ht).
  pose proof (ps_append self a _ e Hp Hte Hmay) as Hstep. cbv zeta in Hstep.
  eexists. split; [by apply moves_once|]. destruct Hrel as [Hid Hn Hinv (? & ? & Hlog & ?) Hr Hc Hvt].
  assert (view n1 = view_append [e] (view n)) as Hv1 by done.
  split; rewrite ?pput_self, ?Hv1; try done; [by eapply pstep_inv| | |].
  - split_and!; [done|done| |done]. apply log_rel_append; [done|by split].
  - simpl. by rewrite Hl.
  - intros votes. change (n_role n1) with (n_role n). congruence.
Qed.

Lemma sim_push {B} (mk : LogIndex → LogEntry) (k : eff (RaftNode L) RaftError B) Q n n0 a state :
  let e := mk (LogIndex_next (view_last (view n)).1) in
  (∀ i, le_index (mk i) = i ∧ le_term (mk i) = node_term n ∧ entry_ok (mk i)) →
  node_rel n a → n_role n = Leader state → same n n0 → room 1 n → may_append n a e →
  (∀ l' a', moves a a' → node_rel (set_configs (noted e (n_configs n)) (set_log l' n)) a' →
     store_view l' = view_append [e] (view n) → simulates k Q X (set_log l' n) a') →
  simulates (on_log (st_append e);; k) Q X n0 a.
Proof.
  intros e Hmk Hrel Hl Hs Hroom Hmay Hk. pose proof (next_last n Hroom) as Hnext.
  destruct (Hmk (LogIndex_next (view_last (view n)).1)) as (Hi & Ht & Hcan). fold e in Hi, Ht, Hcan.
  apply wp_bind, (wp_write _ (view_append [e])).
  - apply append_writes. constructor; [apply Hcan|done].
  - by eapply same_store.
  - intros l' Hl' Hv'. rewrite (same_view _ _ Hs) in Hv'. destruct Hs as (l & ? & ? & ->).
    destruct (push_rel n a state e l') as (a' & Hmv & Hr'); try done; [by rewrite Hi| |].
    { apply push_post; try done; [apply Hrel|by rewrite Hi]. }
    eapply sim_moves; [exact Hmv|]. by apply Hk.
  - intros err n' Hs' _. exists a. split; [apply rtc_refl|]. eapply HX, same_rel; [|exact Hrel]. by eapply same_trans.
Qed.

Lemma last_after_push n e l' :
  node_inv n → room 1 n → le_index e = LogIndex_next (view_last (view n)).1 →
  store_view l' = view_append [e] (view n) → view_last_index (store_view l') = view_last_index (view n) + 1.
Proof.
  intros Hn Hroom Hi Hv. rewrite Hv. apply (contiguous_append (view n) [e]); [apply Hn|].
  split; [|done]. rewrite Hi. by apply next_last.
Qed.

Lemma append_config_sim adv c now n a state :
  node_rel n a → n_role n = Leader state → config_good c → room 1 n →
  (cfg_index (p_log (psrv a self)) ≤ p_commit (psrv a self))%nat →
  follows (cfg (p_log (psrv a self))) (votes_of c) →
  (∀ n1 a1, node_rel n1 a1 → active_config n1 = c → is_leader n1 = true →
     view_last_index (view n1) = view_last_index (view n) + 1 → simulates (adv now) sends X n1 a1) →
  simulates (append_config_entry_with adv c now) sends X n a.
Proof.
  intros Hrel Hl Hc Hroom Hidx Hfol Hadv. unfold append_config_entry_with.
  eapply (sim_read X HX); [apply answers_read, last_index_reads|done|].
  intros last n0 Hs Hr0 ->. apply sim_gets.
  assert (n_hard n0 = n_hard n) as Hh by by destruct Hs as (l & _ & _ & ->). rewrite Hh.
  apply (sim_push (λ i, LogEntry_with_payload (current_term (n_hard n)) i (Config c)) _ _ n n0 a state);
    [done|done|done|done|done| |].
  { intros d [= <-]. done. }
  intros l' a1 Hm1 Hr1 Hv1. apply sim_modify. set (n1 := set_configs _ _).
  change (node_rel n1 a1) in Hr1.
  eapply sim_bind; [by apply refresh_leader_state_sim|].
  intros [] n2 a2 _ Hr2 (Hcfg & _ & Hv2 & Hl2).
  eapply sim_bind; [apply (Hadv n2 a2)|].
  - done.
  - unfold active_config. rewrite Hcfg. apply active_on_append.
  - rewrite Hl2. unfold is_leader. simpl. by rewrite Hl.
  - rewrite Hv2. change (view n1) with (store_view l'). eapply last_after_push; [apply Hrel|done| |done]. done.
  - intros outs n3 a3 _ Hr3 Ho3. eapply sim_bind; [by apply replicate_all_sim|].
    intros outs' n4 a4 Hm4 Hr4 Ho4. apply sim_ret; [done|]. apply Forall_app. split; [|done].
    by eapply outs_rel_mono.
Qed.

(** *** Stepping down and committing *)

Lemma follower_rel n n' a :
  node_rel n a → volatile n n' → n_role n' = Follower → ∃ a', moves a a' ∧ node_rel n' a'.
Proof.
  intros [Hid Hn Hi Hd Hr Hc Hv] Hvol Hf. pose proof (volatile_kept _ _ Hn Hvol) as [Hn' _ _].
  destruct Hvol as (Eid & _ & El & Eh & Ec & _).
  assert (view n' = view n) as Hview by (unfold view; by rewrite El).
  pose proof (ps_step_down self a) as Hstep. cbv zeta in Hstep.
  eexists. split; [by apply moves_once|]. destruct Hd as (? & ? & ? & ?).
  split; rewrite ?pput_self, ?Hview, ?Hf, ?Ec; try done; [congruence|by eapply pstep_inv].
Qed.

Lemma step_down_sim n a now :
  node_rel n a →
  simulates (step_down_to_follower;; modify (set_leader_id None);; arm_election_timer now;; mret []) sends X n a.
Proof.
  intros Hr. apply wp_bind, wp_step_down. intros n1 Hv1 Hf1. wp_step. wp_step. wp_step.
  apply wp_arm_election_timer. intros n2 Hv2 Hf2 _ _. wp_step.
  destruct (follower_rel n n2 a Hr) as (a' & Hm & Hr'); [|by rewrite Hf2|].
  - eapply volatile_trans; [exact Hv1|]. exact Hv2.
  - exists a'. split_and!; [done|done|constructor].
Qed.

Lemma commit_rel n a state (i : LogIndex) :
  node_rel n a → n_role n = Leader state → n_commit_index n < u64_val i → committable n state i →
  ∃ a', moves a a' ∧ node_rel (set_commit_index i n) a'.
Proof.
  intros Hrel Hl Hi (Hq & e & He & Hte). destruct (rel_leader _ _ _ Hrel Hl) as [Hp _].
  pose proof (rel_log _ _ Hrel) as Hlog. pose proof (nr_commit _ _ Hrel) as Hc.
  destruct (lr_index _ _ _ _ Hlog He) as [[Hs Hle] _]. pose proof (lr_entry _ _ Hlog _ _ He) as He'.
  pose proof (lookup_lt_Some _ _ _ He') as Hlt.
  assert (quorum_of (cfg (p_log (psrv a self))) (ackers self (pos i) ((λ j : LogIndex, pos j) <$> match_index state))) as HQ.
  { apply (rel_quorum n a); [done|]. replace (ackers _ _ _) with (acks_at (n_id n) i (match_index state)); [done|].
    unfold ackers, acks_at. rewrite (nr_id _ _ Hrel). f_equal. apply set_eq. intros q. rewrite !elem_of_dom.
    unfold is_Some. setoid_rewrite map_lookup_filter_Some. setoid_rewrite lookup_fmap_Some. simpl.
    split; [intros (j & Hj & ?); exists (pos j); split; [eauto|lia]|intros (k & (j & <- & Hj) & ?); exists j; split; [done|lia]]. }
  pose proof (ps_commit self a _ (pos i) Hp) as Hstep. cbv zeta in Hstep.
  assert (term_of (p_log (psrv a self)) (pos i) = p_term (psrv a self)) as Hti.
  { replace (pos i) with (S (pos i - 1)) by lia. rewrite (term_of_lookup _ _ _ He'). unfold eterm.
    by rewrite Hte, (rel_term _ _ Hrel). }
  specialize (Hstep ltac:(lia) Hti HQ). eexists. split; [by apply moves_once|].
  destruct Hrel as [Hid Hn Hinv (? & ? & ? & ?) Hr _ Hv].
  split; rewrite ?pput_self; try done; [by apply set_commit_inv|by eapply pstep_inv| | | |].
  - split_and!; try done. simpl. change (view (set_commit_index i n)) with (view n). lia.
  - simpl. by rewrite Hl.
  - simpl. lia.
  - intros votes. simpl. congruence.
Qed.

Lemma after_commit_sim adv now n a :
  node_rel n a →
  (is_joint (active_config n) = true → room 1 n) →
  (is_joint (active_config n) = true → ∀ n1 a1, node_rel n1 a1 → is_joint (active_config n1) = false →
     is_leader n1 = true → simulates (adv now) sends X n1 a1) →
  simulates (after_commit_config_actions_with adv now) sends X n a.
Proof.
  intros Hrel Hroom Hadv. unfold after_commit_config_actions_with. apply sim_gets. cbn [id].
  destruct (is_leader n) eqn:Hlead; simpl; [|by apply sim_nil].
  destruct (n_commit_index n <? latest_index (n_configs n)) eqn:Hlt; [by apply sim_nil|].
  pose proof (rel_latest _ _ Hrel Hlt) as Hidx. pose proof (rel_active _ _ Hrel) as Hact.
  unfold is_leader in Hlead. destruct (n_role n) as [| |state] eqn:Hl; try done.
  destruct (is_joint (active_config n)) eqn:Hj.
  - apply (append_config_sim _ _ _ _ _ state); [done|done| |by apply Hroom|done| |].
    + destruct (active_good _ (nr_inv _ _ Hrel)) as [Hcan Hne]. split; [|done]. split; [apply Hcan|done].
    + rewrite <-Hact. unfold follows, votes_of, is_joint in *. simpl.
      by destruct (old_voters (active_config n)).
    + intros n1 a1 Hr1 Hact1 Hl1 _. apply Hadv; [done|done| |done]. by rewrite Hact1.
  - destruct (bool_decide _); [by apply sim_nil|]. by apply step_down_sim.
Qed.

Lemma advance_sim fuel now n a :
  node_rel n a →
  (fuel = 1%nat ∧ is_joint (active_config n) = false) ∨ (fuel = 2%nat ∧ room 1 n) →
  simulates (advance_commit_index_fuel fuel now) sends X n a.
Proof.
  revert n a. induction fuel as [|fuel IH]; intros n a Hrel Hfuel; [lia|]. cbn [advance_commit_index_fuel].
  eapply (sim_read X HX); [apply answers_read, last_index_reads|done|].
  intros last n0 Hs Hr0 ->. apply sim_gets. cbn [id].
  destruct (n_role n0) as [| |state] eqn:Hl; [by apply sim_nil..|].
  assert (0 < node_term n0) as Hterm.
  { pose proof (i_role _ (nr_inv _ _ Hr0)) as Hro. unfold role_ok in Hro. rewrite Hl in Hro. tauto. }
  apply wp_bind. eapply wp_mono; [apply (commit_scan_spec _ _ state n0); [apply Hr0|done|lia]| |].
  2:{ intros e n' [Hs' ?]. exists a. split; [apply rtc_refl|]. by eapply HX, same_rel. }
  intros new n1 [Hs1 Hch]. assert (node_rel n1 a) as Hr1 by by eapply same_rel.
  case_decide as Hnew; [by apply sim_nil|]. apply sim_modify.
  assert (n_commit_index n1 = n_commit_index n0 ∧ n_role n1 = Leader state ∧ view n1 = view n0 ∧
    active_config n1 = active_config n0 ∧ n_id n1 = n_id n0 ∧ node_term n1 = node_term n0)
    as (Hc1 & Hl1 & Hv1 & Ha1 & Hi1 & Ht1).
  { rewrite (same_view _ _ Hs1). by destruct Hs1 as (l & _ & _ & ->). }
  destruct (commit_rel n1 a state new) as (a' & Hm & Hr2); [done|done|..].
  { rewrite Hc1. destruct Hch as [[?|[? _]] _]; [done|lia]. }
  { destruct Hch as [[?|[_ Hcm]] _]; [done|]. unfold committable in *. by rewrite Ha1, Hi1, Ht1, Hv1. }
  eapply sim_moves; [exact Hm|]. 
  assert (view (set_commit_index new n1) = view n ∧ active_config (set_commit_index new n1) = active_config n) as [Hv2 Hact2].
  { split; [change (view n1 = view n); rewrite Hv1; by apply same_view|].
    change (active_config n1 = active_config n). rewrite Ha1. by destruct Hs as (l & _ & _ & ->). }
  apply after_commit_sim; [done|..]; rewrite Hact2.
  - unfold room. rewrite Hv2. destruct Hfuel as [[_ ?]|[_ ?]]; [congruence|done].
  - intros Hj m b Hrm Hmj _. apply IH; [done|left]. destruct Hfuel as [[_ ?]|[? _]]; [congruence|].
    split; [lia|done].
Qed.

Lemma advance_commit_index_sim now n a :
  node_rel n a → room 1 n → simulates (advance_commit_index now) sends X n a.
Proof. intros Hr Hroom. apply advance_sim; [done|by right]. Qed.

Lemma append_config_entry_sim c now n a state :
  node_rel n a → n_role n = Leader state → config_good c → room 2 n →
  (cfg_index (p_log (psrv a self)) ≤ p_commit (psrv a self))%nat →
  follows (cfg (p_log (psrv a self))) (votes_of c) →
  simulates (append_config_entry c now) sends X n a.
Proof.
  intros Hr Hl Hc Hroom Hi Hf. unfold room in Hroom.
  apply (append_config_sim _ _ _ _ _ state); [done|done|done|unfold room; lia|done|done|].
  intros n1 a1 Hr1 _ _ Hlast. apply advance_commit_index_sim; [done|]. unfold room. lia.
Qed.

Lemma advance_replicate_sim now n a :
  node_rel n a → room 1 n →
  simulates (outs ← advance_commit_index now; outs' ← replicate_all; mret (outs ++ outs')) sends X n a.
Proof.
  intros Hr Hroom. eapply sim_bind; [by apply advance_commit_index_sim|].
  intros outs n1 a1 _ Hr1 Ho1. eapply sim_bind; [by apply replicate_all_sim|].
  intros outs' n2 a2 Hm2 Hr2 Ho2. apply sim_ret; [done|]. apply Forall_app. split; [|done].
  by eapply outs_rel_mono.
Qed.

End leader.

End sim.
