(* ===== verification/RaftSimCalls.v ===== *)
(** * brokkr-raft: every call on a node implements the protocol

    The simulation of [RaftSim.v], carried through the public methods of
    [RaftNode]: elections and votes, AppendEntries and InstallSnapshot with their
    replies, compaction, the client interface and recovery. *)

From stdpp Require Import prelude functions gmap strings.
From Stdlib Require Import Lia.
From S2P Require Import Prelude Machine Bytes RaftTypes RaftProtocol RaftAgreement RaftRng RaftWire RaftStore RaftConfig RaftNode RaftNodeSpec RaftReceiver RaftLogRel RaftHandlers RaftSim.

Local Open Scope N_scope.

Section calls.
Context {L : Type} `{RaftStoreSpec L} `{!Bootstrap} `{!Origin} `{!SnapData}.
Context (self : NodeId).

Implicit Types (n : RaftNode L) (a : PState).

Notation node_rel := (node_rel self).
Notation moves := (moves self).
Notation simulates := (simulates self).
Notation crashed := (crashed self).
Notation survived := (survived self).

Lemma crash_same n n' a e : view n' = view n → node_rel n a → ∃ a', moves a a' ∧ crashed e n' a'.
Proof.
  intros Hv Hr. exists a. split; [apply rtc_refl|]. split; [apply Hr|]. rewrite Hv. apply Hr.
Qed.

(** A related state from its parts. *)
Lemma rel_intro n a :
  n_id n = self → node_inv n → pinv a →
  p_term (psrv a self) = u64_val (node_term n) → p_vote (psrv a self) = voted_for (n_hard n) →
  log_rel (p_log (psrv a self)) (view n) → role_rel (n_role n) (p_role (psrv a self)) →
  N.of_nat (p_commit (psrv a self)) = n_commit_index n →
  view_snap_index (view n) ≤ n_commit_index n →
  (∀ votes, n_role n = Candidate votes → ∀ q, q ∈ votes →
     ∃ l, mkPBallot q (u64_val (node_term n)) self l ∈ pballots a) →
  node_rel n a.
Proof.
  intros Hid Hn Hi Ht Hv Hl Hr Hc Hs Hvt. split; try done. unfold disk_rel. rewrite (i_hard _ Hn).
  split_and!; [done|done|done|lia].
Qed.

(** ** Terms *)

Lemma observe_term_disk t now n :
  node_inv n → wp (observe_term t now) (λ _ _, True) (λ _ n', view n' = view n) n.
Proof.
  intros Hn. unfold observe_term. do 2 wp_step. destruct (_ <? _); [|by wp_step].
  do 3 wp_step. unfold step_down_to_follower. do 4 wp_step.
  set (n0 := set_leader_id None _). assert (n_log n0 = n_log n) as Hl by (unfold n0; simpl; by destruct (n_role n)).
  apply (wp_write _ (view_save_hard (stepped_to (n_hard n) t))); [apply save_hard_writes|rewrite Hl; apply Hn|..].
  - intros l' _ _. wp_step. apply wp_arm_election_timer. intros. by wp_step.
  - intros e n' (l & _ & Hv & ->) _. unfold view in *. simpl. by rewrite Hv, Hl.
Qed.

Lemma observe_term_sim t now n a :
  node_rel n a →
  simulates (observe_term t now) (λ b n' a', u64_val t ≤ node_term n' ∧ log_kept n n' ∧
    if b : bool then node_term n' = t ∧ n_role n' = Follower else n' = n) crashed n a.
Proof.
  intros Hr. pose proof (observe_term_spec t now n (nr_inv _ _ _ Hr)) as Hwp.
  pose proof (observe_term_disk t now n (nr_inv _ _ _ Hr)) as Hd.
  eapply wp_mono; [exact (wp_and _ _ _ _ _ _ Hwp Hd)| |].
  2:{ intros e n' [_ Hv]. by eapply crash_same. }
  intros b n' [(Hk & Hlk & Hb) _]. destruct b.
  - destruct Hb as (Hlt & Ht & Hf & Hh & _). pose proof Hlk as (He & Hs & _ & Hc).
    pose proof (rel_term _ _ _ Hr) as Hpt.
    pose proof (ps_term self a (u64_val t)) as Hstep. cbv zeta in Hstep. rewrite Hpt in Hstep.
    specialize (Hstep Hlt). eexists. split_and!; [by apply moves_once| |by rewrite Ht|done|done|done].
    pose proof (rel_commit _ _ _ Hr) as Hcm.
    apply rel_intro; rewrite ?pput_self; simpl; rewrite ?Hf, ?Hh, ?Hc, ?Ht; try done.
    + rewrite (e_id _ _ (k_ext _ _ Hk)). apply Hr.
    + apply Hk.
    + eapply pstep_inv; [apply Hr|done].
    + eapply log_rel_ext; [done|done|]. by apply rel_log.
    + apply Hr.
    + unfold view_snap_index in *. rewrite Hs. lia.
  - destruct Hb as [-> ?]. exists a. split_and!; [apply rtc_refl|done..].
Qed.

(** ** Elections *)

Context (boot_votes : votes_of boot = (origin, None)).

(** Winning: the no-op appended and the office taken are one step. *)
Lemma office_rel n a votes e l' state :
  let n1 := set_log l' n in
  let n2 := set_leader_id (Some (n_id n)) (set_role (Leader state) n1) in
  node_rel n a → n_role n = Candidate votes → has_quorum (active_config n) votes = true →
  le_term e = node_term n → u64_val (le_index e) = view_last_index (view n) + 1 → le_payload e = Noop →
  store_view l' = view_append [e] (view n) →
  map_Forall (λ _ i, u64_val i = 0) (match_index state) →
  node_inv n2 → ∃ a', moves a a' ∧ node_rel n2 a'.
Proof.
  intros n1 n2 Hr Hcand Hq Ht Hi Hp Hv Hzero Hn2.
  assert (p_role (psrv a self) = PCandidate) as Hpc.
  { pose proof (nr_role _ _ _ Hr) as Hrole. rewrite Hcand in Hrole. by destruct (p_role (psrv a self)). }
  assert (eterm e = p_term (psrv a self)) as Hte by (unfold eterm; by rewrite (rel_term _ _ _ Hr), Ht).
  assert (∀ q, q ∈ votes → ∃ l, mkPBallot q (p_term (psrv a self)) self l ∈ pballots a) as Hb.
  { rewrite (rel_term _ _ _ Hr). by apply (nr_votes _ _ _ Hr). }
  pose proof (ps_win self a votes e Hpc (rel_quorum _ boot_votes _ _ _ Hr Hq) Hb Hte) as Hstep. cbv zeta in Hstep.
  specialize (Hstep ltac:(unfold entry_votes; by rewrite Hp)).
  set (a1 := pput _ _ _ _ _ _ _) in Hstep.
  assert (p_role (psrv a1 self) = PLeader ∅) as Hp1 by (unfold a1; by rewrite pput_self).
  pose proof (ps_rebook self a1 ∅ ((λ i : LogIndex, pos i) <$> match_index state) Hp1) as Hbook. cbv zeta in Hbook.
  assert (pstep self a1 (pput a1 self (mkPServer (p_term (psrv a1 self)) (p_vote (psrv a1 self))
    (PLeader ((λ i : LogIndex, pos i) <$> match_index state)) (p_log (psrv a1 self)) (p_commit (psrv a1 self)))
    [] [] [] (phist a1))) as Hbook'.
  { apply Hbook. intros p i (j & <- & Hj)%lookup_fmap_Some Hpos. specialize (Hzero p j Hj). simpl in Hzero. lia. }
  clear Hbook. set (a2 := pput a1 _ _ _ _ _ _) in Hbook'.
  assert (pinv a2) as Hi2 by (eapply pstep_inv; [eapply pstep_inv; [apply Hr|exact Hstep]|exact Hbook']).
  exists a2. split; [eapply rtc_l; [exact Hstep|]; by apply moves_once|].
  pose proof (rel_commit _ _ _ Hr) as Hcm. pose proof (rel_log _ _ _ Hr) as Hlog.
  assert (psrv a2 self = mkPServer (p_term (psrv a self)) (p_vote (psrv a self))
    (PLeader ((λ i : LogIndex, pos i) <$> match_index state)) (p_log (psrv a self) ++ [e])
    (p_commit (psrv a self))) as Hs2 by (unfold a2; rewrite pput_self; unfold a1; by rewrite pput_self).
  apply rel_intro; rewrite ?Hs2; simpl; try done.
  - apply Hr.
  - by rewrite (rel_term _ _ _ Hr).
  - apply (rel_vote _ _ _ Hr).
  - change (view n2) with (store_view l'). rewrite Hv. apply log_rel_append; [done|by split].
  - apply Hr.
  - change (view n2) with (store_view l'). rewrite Hv. simpl. unfold view_snap_index in *. simpl. lia.
Qed.

Lemma become_leader_sim now n a votes :
  node_rel n a → n_role n = Candidate votes → has_quorum (active_config n) votes = true → room 2 n →
  simulates (become_leader now) (sends) crashed n a.
Proof.
  intros Hr Hcand Hq Hroom. pose proof (nr_inv _ _ _ Hr) as Hn. unfold room in Hroom. unfold become_leader.
  eapply (sim_read _ crashed (rel_crashed self)); [apply answers_read, last_index_reads|done|].
  intros last n0 Hs Hr0 ->. apply sim_gets. cbn [id].
  assert (node_term n0 = node_term n ∧ n_id n0 = n_id n) as [Ht0 Hid0] by by destruct Hs as (l & _ & _ & ->).
  rewrite Ht0, Hid0. generalize (replication_targets n0). intros targets.
  set (e := LogEntry_with_payload _ _ _). pose proof (next_last n ltac:(unfold room; lia)) as Hnext.
  apply wp_bind, (wp_write _ (view_append [e])); [by apply append_writes; repeat constructor|by eapply same_store| |].
  2:{ intros err n' Hs' _. eapply crash_same; [|exact Hr]. by rewrite (same_view _ _ Hs'), (same_view _ _ Hs). }
  intros l' Hl' Hv'. rewrite (same_view _ _ Hs) in Hv'. destruct Hs as (l & _ & _ & ->).
  change (set_log l' (set_log l n)) with (set_log l' n).
  assert (leader_post n (set_log l' n)) as Hpost.
  { by apply (push_post n e l'). }
  do 2 apply sim_modify. set (state := mkLeaderState _ _ _ _ _).
  edestruct (take_office n (set_log l' n)) with
    (next := fresh_indices targets (LogIndex_next (view_last (view n)).1))
    (matched := fresh_indices targets LogIndex_ZERO)
    (start := LogIndex_next (view_last (view n)).1) (lead := Some (n_id n)) as (Hn2 & _ & _);
    [done|unfold is_candidate; by rewrite Hcand|done|apply fresh_indices_pos, LogIndex_next_pos|..|done|].
  { change (view (set_log l' n)) with (store_view l'). eapply last_after_push; [done|unfold room; lia| |done]. done. }
  { change (view (set_log l' n)) with (store_view l'). rewrite Hv'. intros i e' Hi.
    simpl. unfold insert_entry. rewrite lookup_insert_Some. intros [[_ <-]|[_ He]]; [done|].
    apply mk_is_Some, (contiguous_keys _ _ (d_contig _ (i_dur _ Hn))) in He. lia. }
  destruct (office_rel n a votes e l' state) as (a' & Hm & Hr2); try done.
  { intros p i [Hp| ->]%fresh_indices_lookup; [by rewrite lookup_empty in Hp|done]. }
  eapply sim_moves; [exact Hm|]. unfold arm_heartbeat_timer. apply sim_modify.
  apply (advance_replicate_sim self crashed (rel_crashed self) boot_votes).
  - eapply volatile_rel; [| |exact Hr2]; [unfold volatile; simpl; auto 10|done].
  - unfold room. change (view _) with (store_view l').
    rewrite (last_after_push n e l'); [lia|done|unfold room; lia|done|done].
Qed.

(** Campaigning: a new term, a vote for oneself. *)
Lemma campaign_rel n n' a h l' :
  node_rel n a → node_inv n' → n_id n' = n_id n → n_role n' = Candidate {[n_id n]} → n_hard n' = h →
  node_term n < u64_val (current_term h) → voted_for h = Some (n_id n) →
  view n' = view_save_hard h (view n) → n_commit_index n' = n_commit_index n → l' = p_log (psrv a self) →
  ∃ a', moves a a' ∧ node_rel n' a' ∧ p_role (psrv a' self) = PCandidate ∧ p_log (psrv a' self) = l'.
Proof.
  intros Hr Hn' Hid Hrole Hh Hlt Hself Hv Hc ->. pose proof (rel_term _ _ _ Hr) as Ht. pose proof (nr_id _ _ _ Hr) as Hid0.
  pose proof (ps_timeout self a (u64_val (current_term h))) as Hstep. cbv zeta in Hstep.
  rewrite Ht in Hstep. specialize (Hstep Hlt). eexists.
  split_and!; [by apply moves_once| |by rewrite pput_self|by rewrite pput_self].
  pose proof (rel_commit _ _ _ Hr) as Hcm.
  apply rel_intro; rewrite ?pput_self; simpl; rewrite ?Hrole, ?Hc; try done.
  - congruence.
  - eapply pstep_inv; [apply Hr|done].
  - unfold node_term. by rewrite Hh.
  - rewrite Hh. congruence.
  - rewrite Hv. apply (log_rel_ext _ (view n)); [done|done|by apply rel_log].
  - apply Hr.
  - rewrite Hv. unfold view_snap_index in *. simpl. lia.
  - intros votes [= <-] q ->%elem_of_singleton. rewrite Hid0. exists (p_log (psrv a self)).
    unfold node_term. rewrite Hh. set_solver.
Qed.

Lemma start_election_sim now n a :
  node_rel n a → room 2 n → node_term n < u64_max →
  simulates (start_election now) sends crashed n a.
Proof.
  intros Hr Hroom Hterm. pose proof (nr_inv _ _ _ Hr) as Hn. unfold start_election. apply sim_gets. cbn [id].
  set (h := voting_for _ _).
  assert (u64_val (current_term h) = node_term n + 1) as Hh.
  { simpl. rewrite Term_next_val. lia. }
  assert (hard_le (n_hard n) h) as Hle by (left; unfold node_term in *; lia).
  apply wp_bind, wp_modify, wp_bind, (wp_write _ (view_save_hard h)); [apply save_hard_writes|apply Hn|..].
  2:{ intros e n' (l & _ & Hv & ->) _. by eapply crash_same; [|exact Hr]. }
  intros l' Hl' Hv'. change (view (set_hard h n)) with (view n) in Hv'. do 4 wp_step.
  destruct (save_hard_kept n l' h (Candidate {[n_id n]})) as [Hn1 _]; [done..| |].
  { right. eexists. split_and!; [done|done|set_solver|lia]. }
  set (n1 := set_role (Candidate _) _) in Hn1. wp_step.
  apply wp_arm_election_timer. intros n2 Hvol Hr2 _ _.
  assert (volatile n1 n2) as Hvol' by exact Hvol. pose proof (volatile_kept _ _ Hn1 Hvol') as [Hn2 _ _].
  destruct Hvol as (Hid2 & Hc2 & Hl2 & Hh2 & Hcm2 & _). simpl in Hid2, Hc2, Hl2, Hh2, Hcm2, Hr2.
  assert (view n2 = view_save_hard h (view n)) as Hv2 by (unfold view; by rewrite Hl2).
  destruct (campaign_rel n n2 a h (p_log (psrv a self))) as (a1 & Hm1 & Hra & Hpc & Hpl); try done; [lia|].
  assert (active_config n2 = active_config n) as Hact by (unfold active_config; by rewrite Hc2).
  eapply (sim_moves _ crashed); [exact Hm1|]. destruct (has_quorum _ _) eqn:Hq.
  - apply (become_leader_sim now n2 a1 {[n_id n]}); [done|done|by rewrite Hact|].
    unfold room. by rewrite Hv2.
  - eapply (sim_read _ crashed (rel_crashed self)); [apply answers_read, last_reads|done|].
    intros p n3 Hs3 Hr3 ->. pose proof (ps_request self a1 Hpc) as Hstep. cbv zeta in Hstep.
    destruct (send_rel self n3 a1 _ Hr3 Hstep) as (Hm & Hr4 & Hin).
    eapply sim_moves; [exact Hm|]. apply sim_ret; [done|]. apply Forall_forall.
    intros o (q & -> & _)%list_elem_of_fmap. cbn [out_rel].
    destruct (log_rel_last _ _ (rel_log _ _ _ Hra)) as [Hi Ht].
    replace (vote_msg _) with (PVoteReq self (p_term (psrv a1 self)) (length (p_log (psrv a1 self)))
      (last_term (p_log (psrv a1 self)))); [done|].
    unfold vote_msg. simpl. rewrite (nr_id _ _ _ Hr), Hi, Ht, Nat2N.id, (rel_term _ _ _ Hra).
    unfold node_term at 1. by rewrite Hh2.
Qed.

Lemma tick_sim now n a :
  node_rel n a → room 2 n → node_term n < u64_max → simulates (tick now) sends crashed n a.
Proof.
  intros Hr Hroom Hterm. unfold tick. apply sim_gets. cbn [id]. destruct (is_leader n).
  - destruct (_ <=? now); [|by apply sim_nil]. unfold arm_heartbeat_timer. apply sim_modify.
    apply (replicate_all_sim self crashed (rel_crashed self)).
    eapply volatile_rel; [| |exact Hr]; [unfold volatile; simpl; auto 10|done].
  - destruct (_ <=? now); [|by apply sim_nil]. destruct (negb (is_voter n)); [|by apply start_election_sim].
    apply wp_bind, wp_arm_election_timer. intros n' Hvol Hrole _ _. apply sim_nil. by eapply volatile_rel.
Qed.

(** ** Votes *)

Lemma cast_vote_role n c now (resp : RequestVoteResponse) :
  store_ok (n_log n) →
  wp (modify (set_hard (voting_for (n_hard n) c));;
      on_log (st_save_hard_state (voting_for (n_hard n) c));;
      arm_election_timer now;; mret resp)
    (λ _ n', n_role n' = n_role n) (λ _ n', view n' = view n) n.
Proof.
  intros Hl. set (h := voting_for _ _). do 3 wp_step.
  apply (wp_write _ (view_save_hard h)); [apply save_hard_writes|done|..].
  - intros l' _ _. wp_step. apply wp_arm_election_timer. intros n2 _ Hr _ _. wp_step. by rewrite Hr.
  - by intros e n' (l & _ & Hv & ->) _.
Qed.

Lemma up_to_date_covered n a (t : Term) (i : LogIndex) :
  node_rel n a → up_to_date t i (view n) → covered (p_log (psrv a self)) (pos i) (u64_val t).
Proof.
  intros Hr Hu. destruct (log_rel_last _ _ (rel_log _ _ _ Hr)) as [Hi Ht].
  unfold covered, up_to_date, view_last_index in *. rewrite <-Ht. destruct Hu as [?|[-> ?]]; [by left|right].
  split; [done|lia].
Qed.

Lemma cast_vote_sim r n a now :
  node_rel n a → vote_msg r ∈ pnet a → rv_term r = node_term n →
  voted_for (n_hard n) = None ∨ voted_for (n_hard n) = Some (rv_candidate_id r) →
  up_to_date (rv_last_log_term r) (rv_last_log_index r) (view n) →
  let resp := mkRequestVoteResponse (node_term n) true in
  simulates (modify (set_hard (voting_for (n_hard n) (rv_candidate_id r)));;
      on_log (st_save_hard_state (voting_for (n_hard n) (rv_candidate_id r)));;
      arm_election_timer now;; mret resp)
    (λ rp _ a', rp = resp ∧ ∃ l, mkPBallot self (u64_val (node_term n)) (rv_candidate_id r) l ∈ pballots a')
    crashed n a.
Proof.
  intros Hr Hm Hrt Hfree Hutd resp. set (c := rv_candidate_id r) in *.
  pose proof (cast_vote_spec n c now resp (nr_inv _ _ _ Hr) Hfree) as Hspec.
  pose proof (cast_vote_role n c now resp (i_store _ (nr_inv _ _ _ Hr))) as Hro.
  eapply wp_mono; [exact (wp_and _ _ _ _ _ _ Hspec Hro)| |].
  2:{ intros e n' [_ Hv]. by eapply crash_same. }
  intros rp n' [(-> & Hk & (He & Hs & _ & Hc) & Hh) Hrole].
  pose proof (rel_term _ _ _ Hr) as Ht. pose proof (rel_vote _ _ _ Hr) as Hv.
  pose proof (ps_grant self a c (pos (rv_last_log_index r)) (u64_val (rv_last_log_term r))) as Hstep.
  cbv zeta in Hstep. rewrite Ht, Hv in Hstep. unfold vote_msg in Hm. rewrite Hrt in Hm.
  specialize (Hstep Hm Hfree (up_to_date_covered _ _ _ _ Hr Hutd)).
  eexists. split_and!; [by apply moves_once| |done|exists (p_log (psrv a self)); simpl; set_solver].
  pose proof (i_hard _ (k_inv _ _ Hk)) as Hmem. rewrite Hh in Hmem. pose proof (rel_commit _ _ _ Hr) as Hcm.
  assert (node_term n' = node_term n) as Ht' by (unfold node_term; by rewrite <-Hmem).
  apply rel_intro; rewrite ?pput_self; simpl; rewrite ?Hrole, ?Hc; try done.
  - rewrite (e_id _ _ (k_ext _ _ Hk)). apply Hr.
  - apply Hk.
  - eapply pstep_inv; [apply Hr|done].
  - by rewrite Ht'.
  - by rewrite <-Hmem.
  - apply (log_rel_ext _ (view n)); [done|done|by apply rel_log].
  - apply Hr.
  - apply Hr.
  - unfold view_snap_index in *. rewrite Hs. lia.
  - intros votes Hvs q Hq. rewrite Ht'. destruct (nr_votes _ _ _ Hr votes Hvs q Hq) as [l ?]. exists l. set_solver.
Qed.

Lemma handle_request_vote_sim r now n a :
  node_rel n a → vote_msg r ∈ pnet a →
  simulates (handle_request_vote r now) (λ resp _ a', rvr_vote_granted resp = true →
    ∃ l, mkPBallot self (u64_val (rvr_term resp)) (rv_candidate_id r) l ∈ pballots a') crashed n a.
Proof.
  intros Hr Hm. unfold handle_request_vote. apply sim_gets. cbn [id].
  destruct (leader_is_current now n); [by apply sim_ret|].
  eapply sim_bind; [by apply observe_term_sim|]. intros b n1 a1 Hm1 Hr1 (Hle & _ & _). apply sim_gets.
  destruct (N.ltb_spec (rv_term r) (current_term (n_hard n1))) as [?|Hge]; [by apply sim_ret|].
  assert (rv_term r = node_term n1) as Ht by (apply u64_inj; unfold node_term in *; lia).
  eapply (sim_read _ crashed (rel_crashed self)); [apply candidate_is_up_to_date_answers|done|].
  intros utd n2 Hs2 Hr2 Hutd.
  assert (n_hard n2 = n_hard n1) as Hh2 by by destruct Hs2 as (l & _ & _ & ->).
  destruct (match voted_for (n_hard n1) with None => true | Some v => _ end) eqn:Hfree; simpl; [|by apply sim_ret].
  destruct utd; [|by apply sim_ret]. rewrite <-Hh2. eapply sim_mono; [apply (cast_vote_sim r)|].
  - done.
  - by apply (moves_mono _ _ _ Hm1).
  - unfold node_term. by rewrite Hh2.
  - rewrite Hh2. destruct (voted_for (n_hard n1)); [right; f_equal; by apply bool_decide_eq_true in Hfree|by left].
  - rewrite (same_view _ _ Hs2). by apply Hutd.
  - intros rp n' a' _ _ [-> Hb] _. exact Hb.
Qed.

Lemma handle_request_vote_response_sim from resp now n a :
  node_rel n a → room 2 n →
  (rvr_vote_granted resp = true → ∃ l, mkPBallot from (u64_val (rvr_term resp)) self l ∈ pballots a) →
  simulates (handle_request_vote_response from resp now) sends crashed n a.
Proof.
  intros Hr Hroom Hgrant. unfold handle_request_vote_response.
  eapply sim_bind; [by apply observe_term_sim|]. intros b n1 a1 Hm1 Hr1 (_ & _ & Hb).
  destruct b; [by apply sim_nil|]. subst n1. apply sim_gets. cbn [id].
  destruct (N.eqb_spec (rvr_term resp) (node_term n)) as [Ht|?]; simpl; [|by apply sim_nil].
  apply u64_inj in Ht. destruct (n_role n) as [|votes|state] eqn:Hrole; [by apply sim_nil| |by apply sim_nil].
  set (votes' := if rvr_vote_granted resp then _ else _). apply sim_modify.
  set (n1 := set_role (Candidate votes') n). destruct (moves_mono _ _ _ Hm1) as [_ Hbal].
  assert (node_rel n1 a1) as Hr'.
  { pose proof (nr_inv _ _ _ Hr1) as Hn. pose proof (rel_commit _ _ _ Hr1) as Hcm.
    apply rel_intro; simpl.
    - apply Hr1.
    - destruct Hn as [Hst Hd Hh Hs Htr Hb Hbi Hro]. split; try done. unfold role_ok in *. rewrite Hrole in Hro. simpl.
      destruct Hro as (? & ? & ?). split_and!; [done| |done]. unfold votes'. destruct (rvr_vote_granted resp); set_solver.
    - apply Hr1.
    - by apply (rel_term _ _ _ Hr1).
    - by apply (rel_vote _ _ _ Hr1).
    - by apply (rel_log _ _ _ Hr1).
    - pose proof (nr_role _ _ _ Hr1) as Hp. by rewrite Hrole in Hp.
    - apply Hr1.
    - change (view n1) with (view n). lia.
    - intros vs [= <-] q Hq. change (node_term n1) with (node_term n).
      assert (q ∈ votes ∨ rvr_vote_granted resp = true ∧ q = from) as [Hold|[Hg ->]].
      { unfold votes' in Hq. destruct (rvr_vote_granted resp); set_solver. }
      + by apply (nr_votes _ _ _ Hr1 votes Hrole).
      + rewrite <-Ht. destruct (Hgrant Hg) as [l ?]. exists l. set_solver. }
  destruct (has_quorum (active_config n) votes') eqn:Hq; [|by apply sim_nil].
  by apply (become_leader_sim now n1 a1 votes').
Qed.

End calls.
