(* ===== verification/RaftSimLog.v ===== *)
(** * brokkr-raft: replication implements the protocol

    The simulation of [RaftSim.v] for the calls that write the log of a
    follower, count its acknowledgements on the leader, and compact logs:
    AppendEntries and InstallSnapshot with their replies, and [compact]. *)

From stdpp Require Import prelude functions gmap strings.
From Stdlib Require Import Lia.
From S2P Require Import Prelude Machine Bytes RaftTypes RaftProtocol RaftAgreement RaftRng RaftWire RaftStore RaftConfig RaftNode RaftNodeSpec RaftReceiver RaftLogRel RaftHandlers RaftSim RaftSimCalls.

Local Open Scope N_scope.

Section replication.
Context {L : Type} `{RaftStoreSpec L} `{!Bootstrap} `{!Origin} `{!SnapData}.
Context (self : NodeId).

Implicit Types (n : RaftNode L) (a : PState).

Notation node_rel := (node_rel self).
Notation moves := (moves self).
Notation simulates := (simulates self).
Notation crashed := (crashed self).
Notation survived := (survived self).
Notation sends := (sends).

(** ** AppendEntries, receiver side *)

(** What a merge that fails leaves on disk: the log as it was, or cut at an
    entry the request contradicts. *)
Lemma append_new_entries_from_disk snap es n :
  store_ok (n_log n) → Forall entry_ok es →
  wp (append_new_entries_from snap es) (λ _ _, True)
    (λ _ n', view n' = view n ∨ ∃ e, e ∈ es ∧ u64_val snap < le_index e ∧ conflicts (view n) e ∧
       view n' = view_truncate (le_index e) (view n)) n.
Proof.
  revert n. induction es as [|e es IH]; intros n Hl Hes; cbn [append_new_entries_from]; [by wp_step|].
  assert (∀ n, store_ok (n_log n) → wp (append_new_entries_from snap es) (λ _ _, True)
    (λ _ n', view n' = view n ∨ ∃ x, x ∈ e :: es ∧ u64_val snap < le_index x ∧ conflicts (view n) x ∧
       view n' = view_truncate (le_index x) (view n)) n) as Hskip.
  { intros m Hm. eapply wp_mono; [apply (IH m Hm)|done|]; [by apply Forall_cons in Hes as [_ ?]|].
    intros _ n' [?|(x & ? & ?)]; [by left|right; exists x; set_solver]. }
  assert (∀ m : RaftNode L, store_ok (n_log m) → wp (on_log (st_append_all (e :: es));; note_appended_configs (e :: es))
    (λ _ _, True) (λ _ n', view n' = view m) m) as Happ.
  { intros m Hm. wp_step. apply (wp_write _ (view_append (e :: es))); [by apply append_writes, entry_ok_canonical|done|..].
    - intros. unfold note_appended_configs. by wp_step.
    - intros x n' Hs _. by apply same_view. }
  destruct (N.leb_spec (le_index e) snap) as [|Hsnap]; [by apply Hskip|]. wp_step.
  apply (wp_read _ (view_get (le_index e))); [apply get_reads|done| |intros x n' Hs _; left; by apply same_view].
  intros n1 Hs1. pose proof (same_view _ _ Hs1) as Hv1. pose proof (same_store _ _ Hs1) as Hl1.
  unfold view_get. destruct (v_entries (view n) !! _) as [y|] eqn:Hy.
  2:{ eapply wp_mono; [by apply Happ|done|]. intros x n' Hn'. left. by rewrite Hn'. }
  case_decide as Ht; [rewrite <-Hv1; by apply Hskip|]. wp_step.
  apply (wp_write _ (view_truncate (le_index e))); [apply truncate_writes|done|..].
  2:{ intros x n' Hs _. left. by rewrite (same_view _ _ Hs). }
  intros l' Hl' Hv'. do 2 wp_step. eapply wp_mono; [by apply Happ|done|]. intros x n' Hn'. right.
  exists e. split_and!; [set_solver|done|by exists y|]. rewrite Hn', <-Hv1. exact Hv'.
Qed.

(** The consistency check, on the protocol's log. *)
Lemma matches_prev n a (prev : LogIndex) (t : Term) :
  node_rel n a → view_matches prev t (view n) = true →
  let l := p_log (psrv a self) in
  (pos prev = 0 ∨ pos prev < N.to_nat (view_snap_index (view n)) ∨
    pos prev ≤ length l ∧ term_of l (pos prev) = u64_val t)%nat ∧ (pos prev ≤ length l)%nat.
Proof.
  intros Hr Hm l. pose proof (rel_log _ _ _ Hr) as Hlog.
  pose proof (view_matches_last _ _ _ (lr_contig _ _ Hlog) Hm) as Hlast.
  pose proof (lr_len _ _ Hlog) as Hlen. fold l in Hlen. split; [|lia].
  unfold view_matches in Hm. rewrite !orb_true_iff, N.eqb_eq, N.ltb_lt, bool_decide_eq_true in Hm.
  destruct (decide (u64_val prev = 0)) as [Hz|Hz]; [left; lia|].
  destruct Hm as [[?|?]|Hm]; [lia|right; left; lia|right; right].
  assert (0 < prev) as Hpos by lia. by destruct (log_rel_term_at _ _ _ _ Hlog Hpos Hm).
Qed.

(** A merge that fails part of the way. *)
Lemma crash_merge n n' a r e :
  node_rel n a → append_msg r ∈ pnet a → node_term n = ae_term r → ae_wf r →
  view n' = view n ∨ (∃ x, x ∈ ae_entries r ∧ view_snap_index (view n) < le_index x ∧ conflicts (view n) x ∧
    view n' = view_truncate (le_index x) (view n)) →
  ∃ a', moves a a' ∧ crashed e n' a'.
Proof.
  intros Hr Hm Ht Hwf [Hv|(x & Hx & Hsn & (y & Hy & Hne) & Hv)]; [by eapply crash_same|].
  pose proof (rel_log _ _ _ Hr) as Hlog. destruct (lr_index _ _ _ _ Hlog Hy) as [Hin _].
  apply list_elem_of_lookup in Hx as [k Hk]. pose proof (numbered_lookup _ _ (proj1 Hwf) _ _ Hk) as Hi.
  pose proof (lr_entry _ _ Hlog _ _ Hy) as Hly.
  replace (pos (le_index x) - 1)%nat with (pos (ae_prev_log_index r) + k)%nat in Hly by lia.
  pose proof (ps_truncate self a (pos (ae_prev_log_index r)) (u64_val (ae_prev_log_term r)) (ae_entries r)
    (pos (ae_leader_commit r)) k x y) as Hstep. cbv zeta in Hstep.
  assert (eterm y ≠ eterm x) as Hney by (intros E; by apply Hne, u64_inj).
  unfold append_msg in Hm. rewrite <-Ht, <-(rel_term _ _ _ Hr) in Hm.
  specialize (Hstep Hm Hk Hly Hney). eexists. split; [by apply moves_once|].
  split; [by eapply pstep_inv, Hstep; apply Hr|]. destruct (nr_disk _ _ _ Hr) as (? & ? & _ & Hs).
  unfold disk_rel. rewrite pput_self, Hv. simpl. split_and!; [done|done| |done].
  replace (pos (ae_prev_log_index r) + k)%nat with (pos (le_index x) - 1)%nat by lia.
  apply log_rel_truncate; [done|lia].
Qed.

(** What an accepted request makes of the node. *)
Lemma accept_rel n n' a r :
  node_rel n a → append_msg r ∈ pnet a → node_term n = ae_term r → ae_wf r →
  view_matches (ae_prev_log_index r) (ae_prev_log_term r) (view n) = true →
  n_role n = Follower →
  relogged n (merge (view_snap_index (view n)) (ae_entries r) (view n)) n' →
  let m := (pos (ae_prev_log_index r) + length (ae_entries r))%nat in
  let c := if n_commit_index n <? ae_leader_commit r then ae_leader_commit r else n_commit_index n in
  ∃ a', moves a a' ∧ node_rel (set_commit_index c n') a' ∧ PAck self (u64_val (node_term n)) m ∈ pnet a' ∧
    (pos (ae_leader_commit r) ≤ m)%nat.
Proof.
  intros Hr Hm Ht Hwf Hmatch Hf (Hn' & Hv' & Heq) m c.
  pose proof (pi_msg _ (nr_prot _ _ _ Hr) _ Hm) as (_ & _ & Hlc & _).
  destruct (matches_prev _ _ _ _ Hr Hmatch) as [Hprev Hlen]. pose proof (nr_commit _ _ _ Hr) as Hc.
  pose proof (rel_commit _ _ _ Hr) as Hcm.
  pose proof (ps_accept self a (pos (ae_prev_log_index r)) (u64_val (ae_prev_log_term r)) (ae_entries r)
    (pos (ae_leader_commit r)) (N.to_nat (view_snap_index (view n)))) as Hstep. cbv zeta in Hstep.
  unfold append_msg in Hm. rewrite <-Ht, <-(rel_term _ _ _ Hr) in Hm.
  specialize (Hstep Hm ltac:(lia) Hprev). rewrite (rel_term _ _ _ Hr) in Hstep. fold m in Hstep.
  assert (n_hard n' = n_hard n ∧ n_id n' = n_id n ∧ n_role n' = Follower) as (Hh & Hid & Hro) by by rewrite Heq.
  eexists. split_and!; [by apply moves_once| |simpl; set_solver|done].
  pose proof (merge_spec _ (ae_entries r) (ae_prev_log_index r) (view n) (lr_contig _ _ (rel_log _ _ _ Hr)) eq_refl) as Hmg.
  pose proof (lr_len _ _ (rel_log _ _ _ Hr)) as Hll. assert (ae_prev_log_index r ≤ view_last_index (view n)) as Hpl by lia.
  apply rel_intro; rewrite ?pput_self; unfold node_term; simpl; rewrite ?Hh, ?Hid, ?Hro; try done.
  - apply Hr.
  - by apply set_commit_inv.
  - eapply pstep_inv; [apply Hr|done].
  - by apply rel_vote.
  - change (view (set_commit_index c n')) with (view n'). rewrite Hv'.
    apply log_rel_merge; [by apply rel_log| |done]. rewrite N2Nat.id. apply Hwf.
  - unfold c. case_decide; destruct (N.ltb_spec (n_commit_index n) (ae_leader_commit r)); lia.
  - change (view (set_commit_index c n')) with (view n'). rewrite Hv'.
    pose proof (m_snap _ _ _ _ _ (Hmg Hpl (proj1 Hwf))) as Hsn. unfold view_snap_index at 1. rewrite Hsn.
    fold (view_snap_index (view n)). unfold c. destruct (N.ltb_spec (n_commit_index n) (ae_leader_commit r)); lia.
Qed.

Lemma accept_entries_sim r n a :
  node_rel n a → append_msg r ∈ pnet a → node_term n = ae_term r → ae_wf r →
  view_matches (ae_prev_log_index r) (ae_prev_log_term r) (view n) = true →
  n_role n = Follower →
  simulates (append_new_entries (ae_entries r);;
      (let match_index := u64_wrap (ae_prev_log_index r + N.of_nat (length (ae_entries r))) in
       commit ← gets n_commit_index;
       (if u64_val commit <? ae_leader_commit r then
          modify (set_commit_index
            (if ae_leader_commit r <=? match_index then ae_leader_commit r else match_index))
        else mret ());;
       mret (mkAppendEntriesResponse (node_term n) true Term_ZERO LogIndex_ZERO match_index (ae_seq r))))
    (λ resp _ a', PAck self (u64_val (aer_term resp)) (pos (aer_match_index resp)) ∈ pnet a') crashed n a.
Proof.
  intros Hr Hm Ht Hwf Hmatch Hf. pose proof (nr_inv _ _ _ Hr) as Hn. set (m := u64_wrap _).
  assert (u64_val m = ae_prev_log_index r + N.of_nat (length (ae_entries r))) as Hmv.
  { unfold m. rewrite u64_wrap_val. apply N.mod_small. pose proof (prev_len_fits r Hwf). lia. }
  destruct (matches_prev _ _ _ _ Hr Hmatch) as [_ Hlen]. pose proof (lr_len _ _ (rel_log _ _ _ Hr)) as Hll.
  unfold append_new_entries, simulates. do 3 wp_step.
  pose proof (append_new_entries_from_disk (snapshot_index n) (ae_entries r) n (i_store _ Hn) (proj1 (proj2 Hwf))) as Hdisk.
  eapply wp_mono; [eapply (wp_and _ _ _ _ _ _ (append_new_entries_from_spec _ (ae_prev_log_index r) n n Hn _ Hf _ _) Hdisk)| |].
  - intros [] n2 [Hre _]. destruct (accept_rel n n2 a r) as (a' & Hmv' & Hr' & Hack & Hlc); [done..|].
    assert (n_commit_index n2 = n_commit_index n) as Hc2 by by destruct Hre as (_ & _ & ->).
    do 2 wp_step. rewrite Hc2.
    assert ((if ae_leader_commit r <=? m then ae_leader_commit r else m) = ae_leader_commit r) as ->.
    { destruct (N.leb_spec (ae_leader_commit r) m); [done|lia]. }
    destruct (n_commit_index n <? ae_leader_commit r); do 3 wp_step; exists a'; simpl.
    + split_and!; [done|done|]. by replace (pos m) with (pos (ae_prev_log_index r) + length (ae_entries r))%nat by lia.
    + rewrite <-Hc2 in Hr'. replace (set_commit_index (n_commit_index n2) n2) with n2 in Hr' by by destruct n2.
      split_and!; [done|done|]. by replace (pos m) with (pos (ae_prev_log_index r) + length (ae_entries r))%nat by lia.
  - intros e n2 [_ Hd]. rewrite (snapshot_index_view n Hn) in Hd. by eapply crash_merge.
  Unshelve. all: [> apply same_refl, Hn|lia|unfold fits; by rewrite Ht].
Qed.

Lemma handle_append_entries_sim r now n a :
  node_rel n a → append_msg r ∈ pnet a → ae_wf r →
  simulates (handle_append_entries r now) (λ resp _ a', aer_success resp = true →
    PAck self (u64_val (aer_term resp)) (pos (aer_match_index resp)) ∈ pnet a') crashed n a.
Proof.
  intros Hr Hm Hwf. unfold handle_append_entries.
  eapply sim_bind; [by apply observe_term_sim|]. intros b n1 a1 Hm1 Hr1 (Hle & _ & _). apply sim_gets.
  destruct (N.ltb_spec (ae_term r) (node_term n1)) as [?|Hge]; [by apply sim_ret|].
  assert (node_term n1 = ae_term r) as Ht by (apply u64_inj; lia).
  apply wp_accept_leader. intros n2 Hvol Hf2 _ _.
  destruct (follower_rel self n1 n2 a1) as (a2 & Hm2 & Hr2); [done..|]. apply (sim_moves _ _ _ _ _ _ a2); [done|].
  assert (node_term n2 = node_term n1) as Ht2 by (destruct Hvol as (_&_&_&Eh&_); unfold node_term; by rewrite Eh).
  eapply (sim_read _ crashed (rel_crashed self)); [apply log_matches_answers|done|]. intros ok n3 Hs3 Hr3 ->.
  assert (node_term n3 = node_term n1 ∧ n_role n3 = Follower) as [Ht3 Hf3].
  { destruct Hs3 as (l & _ & _ & ->). by rewrite <-Ht2. }
  rewrite <-(same_view _ _ Hs3). destruct (view_matches _ _ (view n3)) eqn:Hmatch; simpl.
  - rewrite <-Ht3. eapply sim_mono; [apply accept_entries_sim|]; [done| |by rewrite Ht3|done..|by intros].
    destruct (moves_mono _ _ _ Hm1), (moves_mono _ _ _ Hm2). set_solver.
  - eapply (sim_read _ crashed (rel_crashed self)); [apply conflict_hint_answers|done|]. intros hint n4 _ Hr4 _.
    by apply sim_ret.
Qed.

(** ** AppendEntries, leader side *)

Context (boot_votes : votes_of boot = (origin, None)).

Lemma advance_and_replicate_sim from now n a :
  node_rel n a → room 1 n → simulates (advance_and_replicate from now) sends crashed n a.
Proof.
  intros Hr Hroom. unfold advance_and_replicate.
  eapply sim_bind; [by apply (advance_commit_index_sim self crashed (rel_crashed self))|].
  intros outs n1 a1 _ Hr1 Ho. eapply (sim_read _ crashed (rel_crashed self)); [apply peer_is_behind_answers|done|].
  intros behind n2 _ Hr2 _. destruct behind; [|by apply sim_ret].
  eapply sim_bind; [by apply (replicate_to_sim self crashed (rel_crashed self))|].
  intros outs' n3 a3 Hm3 Hr3 Ho3. apply sim_ret; [done|]. apply Forall_app. split; [|done]. by eapply outs_rel_mono.
Qed.

Lemma note_leadership_ack_sim {B} from seq (k : eff (RaftNode L) RaftError B) Q n a :
  node_rel n a →
  (∀ n1, node_rel n1 a → view n1 = view n → node_term n1 = node_term n →
     simulates k Q crashed n1 a) →
  simulates (note_leadership_ack from seq;; k) Q crashed n a.
Proof.
  intros Hr Hk. pose proof (nr_inv _ _ _ Hr) as Hn. unfold note_leadership_ack. apply sim_modify.
  destruct (n_role n) as [| |state] eqn:Hl.
  1,2: by apply Hk.
  destruct (credit_reads _ _ _ _) as [ready keep]. set (state' := set_pending_reads keep state).
  assert (node_rel (set_role (Leader state') n) a) as Hr'.
  { apply (rebook_same_rel self n a state); [done..|]. exact (leader_next_pos _ _ Hn Hl). }
  apply Hk; [|done..].
  apply (volatile_rel self (set_role (Leader state') n)); [|done|done]. split_and!; try done. by right.
Qed.

(** An acknowledgement for a position the protocol knows of. *)
Lemma record_match_sim {B} from i (k : eff (RaftNode L) RaftError B) Q n a :
  node_rel n a → known n a from i →
  (∀ n1 a1, node_rel n1 a1 → view n1 = view n → simulates k Q crashed n1 a1) →
  simulates (record_match from i;; k) Q crashed n a.
Proof.
  intros Hr Hi Hk. pose proof (nr_inv _ _ _ Hr) as Hn. unfold record_match. apply sim_modify.
  destruct (n_role n) as [| |state] eqn:Hl; [by apply Hk..|].
  set (old := default LogIndex_ZERO (match_index state !! from)). set (state' := set_next_index _ _).
  destruct (rebook_rel self n a state state') as (a1 & Hm & Hr1 & _); [done|done| |done| |].
  - intros p j Hj Hpos. simpl in Hj. apply lookup_insert_Some in Hj as [[<- <-]|[_ ?]]; [|by left].
    destruct (old <? i); [by right|left]. unfold old in *. by destruct (match_index state !! from).
  - simpl. apply insert_pos; [by eapply leader_next_pos|apply LogIndex_next_pos].
  - eapply sim_moves; [exact Hm|]. by apply Hk.
Qed.

Lemma back_off_sim {B} from i (k : eff (RaftNode L) RaftError B) Q n a :
  node_rel n a → (∀ n1, node_rel n1 a → simulates k Q crashed n1 a) →
  simulates (back_off from i;; k) Q crashed n a.
Proof.
  intros Hr Hk. unfold back_off. apply sim_modify.
  destruct (n_role n) as [| |state] eqn:Hl; [by apply Hk..|]. apply Hk.
  apply (rebook_same_rel self n a state); [done..|]. simpl.
  apply insert_pos; [by eapply leader_next_pos, Hl; apply Hr|]. destruct (N.leb_spec i 1); simpl; lia.
Qed.

Lemma handle_append_entries_response_sim from resp now n a :
  node_rel n a → room 1 n →
  (aer_success resp = true → PAck from (u64_val (aer_term resp)) (pos (aer_match_index resp)) ∈ pnet a) →
  simulates (handle_append_entries_response from resp now) sends crashed n a.
Proof.
  intros Hr Hroom Hack. unfold handle_append_entries_response.
  eapply sim_bind; [by apply observe_term_sim|]. intros b n1 a1 Hm1 Hr1 (_ & _ & Hb).
  destruct b; [by apply sim_nil|]. subst n1. apply sim_gets. cbn [id].
  destruct (N.eqb_spec (aer_term resp) (node_term n)) as [Ht|?]; simpl; [|by apply sim_nil].
  destruct (is_leader n); simpl; [|by apply sim_nil].
  apply note_leadership_ack_sim; [done|]. intros n2 Hr2 Hv2 Ht2.
  destruct (aer_success resp).
  - apply record_match_sim; [done| |].
    + right. rewrite Ht2, <-Ht. destruct (moves_mono _ _ _ Hm1) as [Hsub _]. by apply Hsub, Hack.
    + intros n3 a3 Hr3 Hv3. apply advance_and_replicate_sim; [done|]. unfold room. by rewrite Hv3, Hv2.
  - apply back_off_sim; [done|]. intros n3 Hr3. by apply (replicate_to_sim self crashed (rel_crashed self)).
Qed.

(** ** Snapshots *)

Lemma handle_install_snapshot_response_sim from resp now n a :
  node_rel n a → room 1 n → simulates (handle_install_snapshot_response from resp now) sends crashed n a.
Proof.
  intros Hr Hroom. unfold handle_install_snapshot_response.
  eapply sim_bind; [by apply observe_term_sim|]. intros b n1 a1 Hm1 Hr1 (_ & _ & Hb).
  destruct b; [by apply sim_nil|]. subst n1. apply sim_gets. cbn [id].
  destruct (negb (u64_val (isr_term resp) =? _) || negb (is_leader n)); [by apply sim_nil|].
  destruct (n_snapshot n) as [meta|] eqn:Hs; [|by apply sim_nil].
  apply record_match_sim; [done| |].
  - left. pose proof (rel_commit _ _ _ Hr1) as [Hle _]. pose proof (i_snap _ (nr_inv _ _ _ Hr1)) as Hi.
    rewrite Hs in Hi. unfold view_snap_index in Hle. destruct (v_snapshot (view n)) as [[m d]|]; [|done].
    simpl in Hi. by simplify_eq.
  - intros n3 a3 Hr3 Hv3. apply advance_and_replicate_sim; [done|]. unfold room. by rewrite Hv3.
Qed.

(** What the write of a received snapshot leaves alone. *)
Lemma install_write_hard r n :
  let meta := mkSnapshotMeta (is_last_included_index r) (is_last_included_term r) (is_config r) in
  store_ok (n_log n) → config_good (is_config r) →
  wp (e ← on_log (st_get (last_included_index meta));
      let basis_matches := bool_decide (le_term <$> e = Some (last_included_term meta)) in
      (if basis_matches then on_log (st_compact_to meta (is_data r))
       else on_log (st_install_snapshot_replacing_log meta (is_data r)));;
      modify (λ n, set_configs (on_install_snapshot (is_config r)
        (last_included_index meta) (negb basis_matches) (n_configs n)) n);;
      modify (set_commit_index (last_included_index meta));;
      modify (set_snapshot (Some meta));;
      mret (mkInstallSnapshotResponse (node_term n)))
    (λ _ n', n_hard n' = n_hard n) (λ _ n', view n' = view n) n.
Proof.
  intros meta Hl Hc. wp_step.
  apply (wp_read _ (view_get (last_included_index meta))); [apply get_reads|done| |intros; by apply same_view].
  intros n1 Hs1. cbv zeta. pose proof (same_view _ _ Hs1) as Hv1. pose proof (same_store _ _ Hs1) as Hl1.
  assert (n_hard n1 = n_hard n) as Hh1 by by destruct Hs1 as (l & _ & _ & ->).
  destruct (bool_decide _); wp_step.
  - apply (wp_write _ (view_compact meta (is_data r))); [apply compact_writes, Hc|done| |].
    + intros l' _ _. by wp_steps.
    + intros e n' Hs _. by rewrite (same_view _ _ Hs).
  - apply (wp_write _ (view_install meta (is_data r))); [apply install_writes, Hc|done| |].
    + intros l' _ _. by wp_steps.
    + intros e n' Hs _. by rewrite (same_view _ _ Hs).
Qed.

(** The log a snapshot leaves: the suffix the receiver shared, or nothing. *)
Lemma install_log_rel l P v v' r (basis : bool) :
  log_rel l v → snap_rel r P → view_snap_index v < is_last_included_index r →
  (basis = true ↔ ∃ e, v_entries v !! u64_val (is_last_included_index r) = Some e ∧
    le_term e = is_last_included_term r) →
  v_snapshot v' = Some (mkSnapshotMeta (is_last_included_index r) (is_last_included_term r) (is_config r), is_data r) →
  (∀ i e, v_entries v' !! i = Some e ↔
     basis = true ∧ u64_val (is_last_included_index r) < i ∧ v_entries v !! i = Some e) →
  (basis = true → take (length P) l = P) →
  log_rel (if basis then l else P) v' ∧
  (basis = true ↔ (length P ≤ length l)%nat ∧ term_of l (length P) = last_term P).
Proof.
  intros Hr (HP & Hpos & Hlt & Hcf & Hdata) Hs Hb Hsn Hent Hpre. set (m := mkSnapshotMeta _ _ _) in *.
  assert (pos (is_last_included_index r) = length P) as Hlen by lia. split.
  - destruct basis.
    + destruct (proj1 Hb eq_refl) as (e & He & Hte). destruct (lr_index _ _ _ _ Hr He) as [Hi _].
      apply (log_rel_ext _ (view_compact m (is_data r) v)); [|done|].
      * apply map_eq. intros i. apply option_eq. intros x. rewrite Hent. simpl. rewrite map_lookup_filter_Some. naive_solver.
      * apply log_rel_compact; simpl; [done|lia|done| | |].
        -- apply (lr_entry _ _ Hr) in He. rewrite <-Hte. replace (pos _) with (S (pos (is_last_included_index r) - 1)) at 1 by lia.
           by rewrite (term_of_lookup _ _ _ He).
        -- by rewrite Hlen, Hpre.
        -- by rewrite Hlen, Hpre.
    + apply (log_rel_ext _ (view_install m (is_data r) v)); [|done|by apply log_rel_install].
      apply map_eq. intros i. apply option_eq. intros x. rewrite Hent. simpl. rewrite lookup_empty. naive_solver.
  - rewrite Hb, <-Hlen, Hlt. split.
    + intros (e & He & <-). destruct (lr_index _ _ _ _ Hr He) as [Hi _]. pose proof (lr_len _ _ Hr).
      split; [lia|]. apply (lr_entry _ _ Hr) in He. replace (pos _) with (S (pos (is_last_included_index r) - 1)) at 1 by lia.
      by rewrite (term_of_lookup _ _ _ He).
    + intros [Hle Ht]. pose proof (lr_contig _ _ Hr) as (_ & Hdom & _). pose proof (lr_len _ _ Hr).
      destruct (proj2 (Hdom (is_last_included_index r))) as [e He]; [lia|]. exists e. split; [done|].
      apply u64_inj. rewrite <-Ht. apply (lr_entry _ _ Hr) in He.
      replace (pos (is_last_included_index r)) with (S (pos (is_last_included_index r) - 1)) at 1 by lia.
      by rewrite (term_of_lookup _ _ _ He).
Qed.

Lemma install_rel r n n' a P :
  node_rel n a → PSnap (u64_val (is_term r)) P ∈ pnet a → snap_rel r P →
  node_term n = is_term r → n_role n = Follower → kept n n' → n_hard n' = n_hard n →
  N.max (view_snap_index (view n)) (n_commit_index n) < is_last_included_index r →
  install_outcome n r n' → ∃ a', moves a a' ∧ node_rel n' a'.
Proof.
  intros Hr Hm Hsnap Ht Hf Hk Hh Hnew Hout. pose proof Hsnap as (Hlen & Hpos & Hlt & _).
  pose proof (nr_commit _ _ _ Hr) as Hc. pose proof (nr_prot _ _ _ Hr) as Hi. rewrite <-Ht, <-(rel_term _ _ _ Hr) in Hm.
  destruct Hout as [Hst _|_ _ _ Hst|basis Ht' Hro _ Hb Hsn Hent Hcm _]; [rewrite Ht in Hst; lia|lia|].
  pose proof (ps_install self a P) as Hstep. cbv zeta in Hstep. specialize (Hstep Hm ltac:(lia)).
  destruct (pi_msg _ Hi _ Hm) as (Hs & HP & _).
  assert (wf_log a P) as HwP by (eapply wf_log_prefix; [exact HP|by apply reign_wf]).
  destruct (install_log_rel _ P _ (view n') r basis (rel_log _ _ _ Hr) Hsnap) as [Hlog Hiff]; [lia|done..| |].
  { intros Hbt. rewrite Hbt in Hb. destruct (proj1 Hb eq_refl) as (e & He & Hte).
    destruct (lr_index _ _ _ _ (rel_log _ _ _ Hr) He) as [Hin _]. pose proof (lr_len _ _ (rel_log _ _ _ Hr)).
    apply (lr_entry _ _ (rel_log _ _ _ Hr)) in He. rewrite <-(take_ge P (length P)) at 2 by lia.
    apply (wf_log_agree a); [apply Hi|done|lia|done|]. change (term_of P (length P)) with (last_term P).
    rewrite Hlt, <-Hte. replace (length P) with (S (pos (is_last_included_index r) - 1)) by lia.
    by rewrite (term_of_lookup _ _ _ He). }
  eexists. split; [by apply moves_once|]. destruct Hk as [Hn' [Hid _ _ _] _].
  assert (node_term n' = node_term n) as Htn by (unfold node_term; by rewrite Hh).
  apply rel_intro; rewrite ?pput_self, ?Hro, ?Hh; cbn [p_term p_vote p_log p_role p_commit]; try done.
  - rewrite Hid. apply Hr.
  - by eapply pstep_inv.
  - rewrite Htn. by apply rel_term.
  - by apply rel_vote.
  - case_decide as Hx; destruct basis; [done|by apply Hiff in Hx|by destruct Hx; apply Hiff|done].
  - by rewrite Hcm.
  - unfold view_snap_index. rewrite Hsn, Hcm. done.
Qed.

(** A chunked request is refused without harm; any other failure is one of the
    store. *)
Definition refused (e : RaftError) n a : Prop :=
  crashed e n a ∧ ((∃ reason, e = Snapshot reason) → node_rel n a).

Lemma sim_fault {A} (m : eff (RaftNode L) RaftError A) Q Q' X n a :
  simulates m Q crashed n a → wp m Q' X n → (∀ e n', X e n' → storage_fault e) → simulates m Q refused n a.
Proof.
  intros Hs Hm HX. eapply wp_mono; [exact (wp_and _ _ _ _ _ _ Hs Hm)|by intros r n' [? _]|].
  intros e n' [(a' & ? & ?) [msg ->]%HX]. exists a'. split; [done|]. split; [done|]. by intros [reason ?].
Qed.

Lemma handle_install_snapshot_sim r now n a :
  node_rel n a → is_wf r → (∃ P, PSnap (u64_val (is_term r)) P ∈ pnet a ∧ snap_rel r P) →
  simulates (handle_install_snapshot r now) (λ _ _ _, True) refused n a.
Proof.
  intros Hr Hwf (P & HP & Hsnap). unfold handle_install_snapshot.
  eapply sim_bind; [eapply sim_fault; [by apply observe_term_sim|by apply observe_term_spec, Hr|by intros e n' []]|].
  intros b n1 a1 Hm1 Hr1 (Hle & _ & _). apply sim_gets.
  destruct (N.ltb_spec (is_term r) (node_term n1)) as [?|Hge]; [by apply sim_ret|].
  assert (node_term n1 = is_term r) as Ht by (apply u64_inj; lia).
  destruct (negb (u64_val (is_offset r) =? 0) || negb (is_done r)).
  { apply wp_throw. exists a1. split; [apply rtc_refl|]. split; [by apply rel_crashed|done]. }
  apply wp_accept_leader. intros n2 Hvol Hf2 _ _.
  destruct (follower_rel self n1 n2 a1) as (a2 & Hm2 & Hr2); [done..|]. apply (sim_moves _ _ _ _ _ _ a2); [done|].
  assert (node_term n2 = node_term n1) as Ht2 by (destruct Hvol as (_&_&_&Eh&_); unfold node_term; by rewrite Eh).
  apply sim_gets. cbn [id]. pose proof (nr_inv _ _ _ Hr2) as Hn2. rewrite (snapshot_index_view n2 Hn2).
  destruct ((_ <=? _) || (_ <=? _)) eqn:Hstale; [by apply sim_ret|].
  apply orb_false_iff in Hstale. rewrite !N.leb_gt in Hstale. rewrite <-Ht2.
  assert (N.max (view_snap_index (view n2)) (n_commit_index n2) < is_last_included_index r) as Hnew by lia.
  pose proof (install_write_spec r n2 n2 Hn2 Hf2 ltac:(by rewrite Ht2) Hwf (log_kept_same _ _ (same_refl _ (i_store _ Hn2)))
    (kept_refl _ Hn2) Hnew) as Hspec.
  eapply sim_fault; [|exact Hspec|by intros e n' []].
  pose proof (install_write_hard r n2 (i_store _ Hn2) (proj1 Hwf)) as Hhard.
  eapply wp_mono; [exact (wp_and _ _ _ _ _ _ Hspec Hhard)| |].
  - intros resp n' [(Hk & Hout & _) Hh]. destruct (install_rel r n2 n' a2 P) as (a' & ? & ?); try done.
    + destruct (moves_mono _ _ _ Hm1), (moves_mono _ _ _ Hm2). set_solver.
    + by rewrite Ht2.
    + by exists a'.
  - intros e n' [_ Hv]. by eapply crash_same.
Qed.

(** Compaction: the protocol does not notice. *)
Lemma compact_sim data n a :
  node_rel n a → snap_data data (take (pos (n_commit_index n)) (p_log (psrv a self))) →
  simulates (compact data) (λ _ _ _, True) survived n a.
Proof.
  intros Hr Hdata. pose proof (nr_inv _ _ _ Hr) as Hn. eapply wp_mono; [by apply compact_spec| |].
  2:{ intros e n' [Hs _]. exists a. split; [apply rtc_refl|by eapply same_rel]. }
  intros meta n' (Hk & Hrole & [Hi Hnew Ht Hat _ Hv Hcm _]). exists a. split_and!; [apply rtc_refl| |done].
  pose proof (rel_log _ _ _ Hr) as Hlog. pose proof (rel_commit _ _ _ Hr) as Hc. pose proof (lr_len _ _ Hlog) as Hlen.
  assert (0 < n_commit_index n) as Hpos by lia.
  destruct (log_rel_term_at _ _ _ _ Hlog Hpos Ht) as [Hterm _].
  pose proof (i_hard _ (k_inv _ _ Hk)) as Hmem. rewrite Hv in Hmem. simpl in Hmem. rewrite (i_hard _ Hn) in Hmem.
  apply rel_intro; rewrite ?Hrole, ?Hcm, <-?Hmem; unfold node_term; rewrite <-?Hmem.
  - rewrite (e_id _ _ (k_ext _ _ Hk)). apply Hr.
  - apply Hk.
  - apply Hr.
  - by apply rel_term.
  - by apply rel_vote.
  - rewrite Hv. apply log_rel_compact; rewrite ?Hi, ?Hat; try done; [lia|].
    apply (config_at_votes _ (view n)); [done|apply Hn|by apply rel_base|lia].
  - apply Hr.
  - apply Hr.
  - rewrite Hv. change (view_snap_index (view_compact meta data (view n))) with (u64_val (last_included_index meta)).
    by rewrite Hi.
  - apply Hr.
Qed.

End replication.
