(* ===== verification/RaftSimClient.v ===== *)
(** * brokkr-raft: the client interface and recovery implement the protocol

    The simulation of [RaftSim.v] for what clients call on a leader (commands,
    reads, membership changes), whose failures leave the node running, and for
    the construction of a node from what is on disk. *)

From stdpp Require Import prelude functions gmap strings.
From Stdlib Require Import Lia.
From S2P Require Import Prelude Machine Bytes RaftTypes RaftProtocol RaftAgreement RaftRng RaftWire RaftStore RaftConfig RaftNode RaftNodeSpec RaftReceiver RaftLogRel RaftHandlers RaftSim RaftSimCalls.

Local Open Scope N_scope.

Section client.
Context {L : Type} `{RaftStoreSpec L} `{!Bootstrap} `{!Origin} `{!SnapData}.
Context (self : NodeId).
Context (boot_votes : votes_of boot = (origin, None)).

Implicit Types (n : RaftNode L) (a : PState).

Notation node_rel := (node_rel self).
Notation moves := (moves self).
Notation simulates := (simulates self).
Notation survived := (survived self).

Lemma rel_survived e n a : node_rel n a → survived e n a.
Proof. done. Qed.

Lemma sim_throw {A} e (Q : A → RaftNode L → PState → Prop) n a :
  node_rel n a → simulates (throw e) Q survived n a.
Proof. intros Hr. apply wp_throw. exists a. split; [apply rtc_refl|done]. Qed.

Lemma leader_role n : is_leader n = true → ∃ state, n_role n = Leader state.
Proof. unfold is_leader. destruct (n_role n); eauto; done. Qed.

Lemma propose_sim command now n a :
  node_rel n a → room 2 n → command_ok command → simulates (propose command now) sends survived n a.
Proof.
  intros Hr Hroom Hcmd. unfold propose. apply sim_gets. cbn [id].
  destruct (is_leader n) eqn:Hlead; simpl; [|by apply sim_throw].
  apply leader_role in Hlead as [state Hl].
  eapply (sim_read self survived rel_survived); [apply answers_read, last_index_reads|done|].
  intros last n0 Hs Hr0 ->. unfold room in Hroom.
  apply (sim_push self survived rel_survived (λ i, LogEntry_new (node_term n) i command) _ _ n n0 a state);
    [done|done|done|done|unfold room; lia|by intros d [=]|].
  intros l' a' Hm Hr' Hv'. change (set_configs _ (set_log l' n)) with (set_log l' n) in Hr'.
  apply (advance_replicate_sim self survived rel_survived boot_votes); [done|]. unfold room.
  change (view (set_log l' n)) with (store_view l').
  rewrite (last_after_push n (LogEntry_new (node_term n) (LogIndex_next (view_last (view n)).1) command) l');
    [lia|apply Hr|unfold room; lia|done|done].
Qed.

Lemma start_read_sim now n a :
  node_rel n a → simulates (start_read now) (λ p n', sends p.2 n') survived n a.
Proof.
  intros Hr. unfold start_read. apply sim_gets. cbn [id].
  destruct (is_leader n) eqn:Hlead; simpl; [|by apply sim_throw].
  apply leader_role in Hlead as [state Hl]. apply sim_modify. rewrite Hl.
  set (rid := wrapping_add _ _). set (n1 := set_read_seq rid n).
  assert (node_rel n1 a) as Hr1 by (apply (volatile_rel self n); [split_and!; try done; by right|done|done]).
  destruct (has_quorum _ _).
  - apply sim_modify, sim_ret; [|constructor].
    apply (volatile_rel self n1); [split_and!; try done; by right|done|done].
  - apply sim_modify. eapply sim_bind.
    + apply (replicate_all_sim self survived rel_survived). apply (rebook_same_rel self n1 a state); [done..|].
      exact (leader_next_pos _ _ (nr_inv _ _ _ Hr) Hl).
    + intros outs n2 a2 _ Hr2 Ho. by apply sim_ret.
Qed.

Lemma drain_read_results_sim n a :
  node_rel n a → simulates drain_read_results (λ _ _ _, True) survived n a.
Proof.
  intros Hr. unfold drain_read_results. apply sim_gets, sim_modify, sim_ret; [|done].
  apply (volatile_rel self n); [split_and!; try done; by right|done|done].
Qed.

(** ** Membership changes *)

(** What the guard against overlapping changes establishes. *)
Lemma in_flight_rel n a :
  node_rel n a → change_in_flight n = false →
  (cfg_index (p_log (psrv a self)) ≤ p_commit (psrv a self))%nat ∧
  cfg (p_log (psrv a self)) = (voters (active_config n), None).
Proof.
  intros Hr Hf. unfold change_in_flight in Hf. apply orb_false_iff in Hf as [Hj Hlt]. split.
  - by apply (rel_latest self n).
  - rewrite <-(rel_active self boot_votes n a Hr). unfold votes_of. unfold is_joint in Hj.
    by destruct (old_voters (active_config n)).
Qed.

Lemma propose_conf_change_sim new_voters now n a :
  node_rel n a → room 2 n → simulates (propose_conf_change new_voters now) sends survived n a.
Proof.
  intros Hr Hroom. unfold propose_conf_change. apply sim_gets. cbn [id].
  destruct (is_leader n) eqn:Hlead; simpl; [|by apply sim_throw].
  case_bool_decide as Hne; [by apply sim_throw|].
  destruct (change_in_flight n) eqn:Hfl; [by apply sim_throw|]. case_bool_decide; [by apply sim_throw|].
  apply leader_role in Hlead as [state Hl]. destruct (in_flight_rel n a Hr Hfl) as [Hidx Hcfg].
  eapply (sim_read self survived rel_survived); [apply answers_read, last_index_reads|done|].
  intros last n0 Hs Hr0 ->. destruct (match n_role n with Leader _ => _ | _ => _ end) as [[added matched]|]; [by apply sim_throw|].
  destruct (active_good _ (nr_inv _ _ _ Hr)) as [[Hdis _] Hvne].
  eapply (append_config_entry_sim self survived rel_survived boot_votes); [done| | | |done|].
  - destruct Hs as (l & _ & _ & ->). exact Hl.
  - split; simpl; [|done]. split; simpl; [set_solver|]. split; [set_solver|done].
  - unfold room in *. by rewrite (same_view _ _ Hs).
  - unfold follows. rewrite Hcfg. by right.
Qed.

Lemma propose_add_learner_sim id now n a :
  node_rel n a → room 2 n → simulates (propose_add_learner id now) sends survived n a.
Proof.
  intros Hr Hroom. unfold propose_add_learner. apply sim_gets.
  destruct (is_leader n) eqn:Hlead; simpl; [|by apply sim_throw].
  destruct (change_in_flight n) eqn:Hfl; [by apply sim_throw|]. case_bool_decide; [by apply sim_throw|].
  case_bool_decide; [by apply sim_throw|].
  apply leader_role in Hlead as [state Hl]. destruct (in_flight_rel n a Hr Hfl) as [Hidx Hcfg].
  destruct (active_good _ (nr_inv _ _ _ Hr)) as [[Hdis _] Hvne].
  assert (old_voters (active_config n) = None) as Hold.
  { unfold change_in_flight in Hfl. apply orb_false_iff in Hfl as [Hj _]. unfold is_joint in Hj.
    by destruct (old_voters (active_config n)). }
  eapply (append_config_entry_sim self survived rel_survived boot_votes); [done|done| |done|done|].
  - rewrite Hold. split; simpl; [|done]. split; simpl; [set_solver|done].
  - unfold follows. rewrite Hcfg. left. by rewrite Hold.
Qed.

(** ** Recovery *)

(** A node built from a disk: the protocol's server with its commit index back
    at the snapshot. *)
Lemma recovered_rel config n a v :
  pinv a → disk_rel v (psrv a self) → recovered self config v n →
  ∃ a', moves a a' ∧ node_rel n a'.
Proof.
  intros Hi (Ht & Hvo & Hlog & Hs) [Hn Hid _ Hview Hrole Hcm _]. subst v.
  pose proof (ps_restart self a (N.to_nat (view_snap_index (view n)))) as Hstep. cbv zeta in Hstep.
  specialize (Hstep ltac:(lia)). eexists. split; [by apply moves_once|].
  pose proof (i_hard _ Hn) as Hh.
  apply rel_intro; rewrite ?pput_self, ?Hrole; cbn [p_term p_vote p_log p_role p_commit]; try done.
  - by eapply pstep_inv.
  - by rewrite Ht, Hh.
  - by rewrite Hvo, Hh.
  - lia.
  - lia.
Qed.

End client.
