(* ===== verification/RaftDriver.v ===== *)
(** * brokkr-raft: the event-loop shell

    Models [crates/brokkr-raft/src/driver.rs]: the [RaftDriver] that owns a node
    and a state machine, dispatches its messages, applies committed entries in
    order, compacts past the threshold, and settles proposals and linearizable
    reads.  One [driver_event] is one turn of the [tokio::select!] loop followed
    by [post_event].

    A oneshot sender is the name of its channel ([Sender]); sending on it appends
    to [d_answers], and dispatching a message appends to [d_sent].  The channels
    and tasks themselves (tokio) are not modelled: the events of a run come in an
    arbitrary order. *)

From stdpp Require Import prelude gmap strings pretty.
From S2P Require Import Prelude Machine Bytes RaftTypes RaftRng RaftWire RaftStore RaftConfig RaftNode.

Local Open Scope N_scope.

(** ** The replicated state machine (trait [StateMachine]) *)

Class StateMachine (M : Type) : Type := {
  sm_apply : LogEntry → M → M;
  sm_snapshot : M → bytes;
  sm_restore : bytes → M → M
}.

(** ** Data *)

Definition Sender : Type := N.

Record DriverStatus : Type := mkDriverStatus {
  ds_is_leader : bool;
  ds_term : Term;
  ds_commit_index : LogIndex;
  ds_last_applied : LogIndex;
  ds_last_log_index : LogIndex;
  ds_leader : option NodeId;
  ds_snapshot : option SnapshotMeta;
  ds_config : ClusterConfig
}.

Inductive Inbound : Type :=
| InRequestVote (req : RequestVote) (reply : Sender)
| InAppendEntries (req : AppendEntries) (reply : Sender)
| InInstallSnapshot (req : InstallSnapshot) (reply : Sender)
| InCompact (data : bytes) (reply : Sender)
| InConfChange (new_voters : gset NodeId) (reply : Sender)
| InAddLearner (id : NodeId) (reply : Sender)
| InReadIndex (reply : Sender)
| InProposeCommitted (command : bytes) (reply : Sender)
| InStatus (reply : Sender).

Inductive PeerReply : Type :=
| PeerVote (from : NodeId) (r : RequestVoteResponse)
| PeerAppend (from : NodeId) (r : AppendEntriesResponse)
| PeerSnapshot (from : NodeId) (r : InstallSnapshotResponse).

(** What is sent on a reply channel. *)
Inductive Answer : Type :=
| AnsVote (r : RequestVoteResponse)
| AnsAppend (r : AppendEntriesResponse)
| AnsSnapshot (r : InstallSnapshotResponse)
| AnsCompact (r : sum RaftError SnapshotMeta)
| AnsUnit (r : sum RaftError ())
| AnsIndex (r : sum RaftError LogIndex)
| AnsStatus (r : DriverStatus).

Record AppliedWaiter : Type := mkAppliedWaiter {
  w_index : LogIndex;
  w_expected_term : option Term;
  w_sender : Sender
}.

Record RaftDriver (L M : Type) : Type := mkRaftDriver {
  d_node : RaftNode L;
  d_machine : M;
  d_last_applied : LogIndex;
  d_awaiting_apply : list AppliedWaiter;
  d_reads_awaiting_confirm : gmap N Sender;
  d_answers : list (Sender * Answer);
  d_sent : list Outbound
}.

Arguments mkRaftDriver {L M}.
Arguments d_node {L M}.
Arguments d_machine {L M}.
Arguments d_last_applied {L M}.
Arguments d_awaiting_apply {L M}.
Arguments d_reads_awaiting_confirm {L M}.
Arguments d_answers {L M}.
Arguments d_sent {L M}.

Section driver.
Context {L M : Type} `{RaftStore L} `{StateMachine M}.

Notation D := (eff (RaftDriver L M) RaftError).
Implicit Types d : RaftDriver L M.

Definition set_node (x : RaftNode L) d := mkRaftDriver x (d_machine d) (d_last_applied d) (d_awaiting_apply d)
  (d_reads_awaiting_confirm d) (d_answers d) (d_sent d).
Definition set_applied (m : M) (i : LogIndex) d := mkRaftDriver (d_node d) m i (d_awaiting_apply d)
  (d_reads_awaiting_confirm d) (d_answers d) (d_sent d).
Definition set_awaiting ws d := mkRaftDriver (d_node d) (d_machine d) (d_last_applied d) ws
  (d_reads_awaiting_confirm d) (d_answers d) (d_sent d).
Definition set_reads rs d := mkRaftDriver (d_node d) (d_machine d) (d_last_applied d)
  (d_awaiting_apply d) rs (d_answers d) (d_sent d).
Definition add_answers (a : list (Sender * Answer)) d := mkRaftDriver (d_node d) (d_machine d)
  (d_last_applied d) (d_awaiting_apply d) (d_reads_awaiting_confirm d) (d_answers d ++ a) (d_sent d).
Definition add_sent (o : list Outbound) d := mkRaftDriver (d_node d) (d_machine d)
  (d_last_applied d) (d_awaiting_apply d) (d_reads_awaiting_confirm d) (d_answers d) (d_sent d ++ o).

Definition on_node {A} (m : eff (RaftNode L) RaftError A) : D A := zoom d_node set_node m.

(** A node call whose error goes to the caller instead of stopping the loop. *)
Definition try_node {A} (m : eff (RaftNode L) RaftError A) : D (sum RaftError A) :=
  zoom d_node set_node (λ n,
    match m n with
    | (n', Ok a) => (n', Ok (inr a))
    | (n', Err e) => (n', Ok (inl e))
    | (n', Halt) => (n', Halt)
    end).

Definition send (s : Sender) (a : Answer) : D () := modify (add_answers [(s, a)]).
Definition dispatch (outs : list Outbound) : D () := modify (add_sent outs).

(** [RaftDriver::new]. *)
Definition RaftDriver_new (node : RaftNode L) (machine : M) : RaftDriver L M :=
  mkRaftDriver node machine LogIndex_ZERO [] ∅ [] [].

(** ** post_event *)

(** The first step: adopt a snapshot that is ahead of the state machine, and fail
    the proposals it jumped over. *)
Definition jumped_over (jumped_to : LogIndex) (w : AppliedWaiter) : bool :=
  (w_index w <=? jumped_to) && match w_expected_term w with Some _ => true | None => false end.

Definition adopt_snapshot : D () :=
  d ← gets id;
  if d_last_applied d <? snapshot_index (d_node d) then
    s ← on_node node_snapshot;
    match s with
    | None => mret ()
    | Some (meta, blob) =>
        let jumped_to := last_included_index meta in
        modify (λ d, set_applied (sm_restore blob (d_machine d)) jumped_to d);;
        modify (λ d, add_answers
          ((λ w, (w_sender w, AnsIndex (inl (Transport "proposal outcome unknown: state jumped via snapshot"))))
             <$> filter (λ w, jumped_over jumped_to w) (d_awaiting_apply d))
          (set_awaiting (filter (λ w, ¬ jumped_over jumped_to w) (d_awaiting_apply d)) d))
    end
  else mret ().

(** The verdict for a waiter at the index just applied. *)
Definition verdict (next : LogIndex) (entry : LogEntry) (w : AppliedWaiter) : sum RaftError LogIndex :=
  match w_expected_term w with
  | Some expected => if decide (le_term entry = expected) then inr next else inl (NotLeader None)
  | None => inr next
  end.

(** The apply loop; [fuel] bounds the number of entries applied. *)
Fixpoint apply_committed (fuel : nat) : D () :=
  match fuel with
  | O => halt
  | S fuel =>
      d ← gets id;
      if d_last_applied d <? n_commit_index (d_node d) then
        let next := LogIndex_next (d_last_applied d) in
        e ← on_node (log_entry next);
        match e with
        | None => throw (Storage ("committed entry " +:+ pretty (u64_val next) +:+ " missing from the log"))
        | Some entry =>
            modify (λ d, set_applied (sm_apply entry (d_machine d)) next d);;
            modify (λ d, add_answers
              ((λ w, (w_sender w, AnsIndex (verdict next entry w)))
                 <$> filter (λ w, w_index w = next) (d_awaiting_apply d))
              (set_awaiting (filter (λ w, w_index w ≠ next) (d_awaiting_apply d)) d));;
            apply_committed fuel
        end
      else mret ()
  end.

Definition auto_compact : D () :=
  d ← gets id;
  if needs_snapshot (d_node d) then
    on_node (compact (sm_snapshot (d_machine d)));; mret ()
  else mret ().

(** One turn of the read-settling loop. *)
Definition settle_read (ticket : u64) (result : ReadResult) d : RaftDriver L M :=
  match d_reads_awaiting_confirm d !! u64_val ticket with
  | None => d
  | Some sender =>
      let d := set_reads (delete (u64_val ticket) (d_reads_awaiting_confirm d)) d in
      match result with
      | inr index =>
          if index <=? d_last_applied d then add_answers [(sender, AnsIndex (inr index))] d
          else set_awaiting (d_awaiting_apply d ++ [mkAppliedWaiter index None sender]) d
      | inl e => add_answers [(sender, AnsIndex (inl e))] d
      end
  end.

Definition settle_reads : D () :=
  rs ← on_node drain_read_results;
  modify (λ d, foldl (λ d '(ticket, result), settle_read ticket result d) d rs).

Definition post_event : D () :=
  adopt_snapshot;;
  d ← gets id;
  apply_committed (S (N.to_nat (n_commit_index (d_node d) - d_last_applied d)));;
  auto_compact;;
  settle_reads.

(** ** The loop's arms *)

Definition answer_unit (reply : Sender) (r : sum RaftError (list Outbound)) : D () :=
  match r with
  | inr outs => dispatch outs;; send reply (AnsUnit (inr ()))
  | inl e => send reply (AnsUnit (inl e))
  end.

Definition handle_inbound (msg : Inbound) (now : Instant) : D () :=
  match msg with
  | InRequestVote req reply =>
      resp ← on_node (handle_request_vote req now); send reply (AnsVote resp)
  | InAppendEntries req reply =>
      resp ← on_node (handle_append_entries req now); send reply (AnsAppend resp)
  | InInstallSnapshot req reply =>
      r ← try_node (handle_install_snapshot req now);
      match r with
      | inr resp => send reply (AnsSnapshot resp)
      | inl (Snapshot _) => mret ()
      | inl e => throw e
      end
  | InCompact data reply => r ← try_node (compact data); send reply (AnsCompact r)
  | InConfChange new_voters reply =>
      r ← try_node (propose_conf_change new_voters now); answer_unit reply r
  | InAddLearner id reply => r ← try_node (propose_add_learner id now); answer_unit reply r
  | InReadIndex reply =>
      r ← try_node (start_read now);
      match r with
      | inr (ticket, outs) =>
          modify (λ d, set_reads (<[u64_val ticket := reply]> (d_reads_awaiting_confirm d)) d);;
          dispatch outs
      | inl e => send reply (AnsIndex (inl e))
      end
  | InProposeCommitted command reply =>
      r ← try_node (propose command now);
      match r with
      | inr outs =>
          index ← on_node last_log_index;
          term ← gets (λ d, node_term (d_node d));
          modify (λ d, set_awaiting (d_awaiting_apply d ++ [mkAppliedWaiter index (Some term) reply]) d);;
          dispatch outs
      | inl e => send reply (AnsIndex (inl e))
      end
  | InStatus reply =>
      last ← on_node last_log_index;
      d ← gets id;
      let n := d_node d in
      send reply (AnsStatus (mkDriverStatus (is_leader n) (node_term n) (n_commit_index n)
        (d_last_applied d) last (n_leader_id n) (n_snapshot n) (active_config n)))
  end.

Definition handle_peer_reply (reply : PeerReply) (now : Instant) : D () :=
  outs ← on_node
    (match reply with
     | PeerVote from r => handle_request_vote_response from r now
     | PeerAppend from r => handle_append_entries_response from r now
     | PeerSnapshot from r => handle_install_snapshot_response from r now
     end);
  dispatch outs.

(** What the loop may be woken by. *)
Inductive Event : Type :=
| EvTick
| EvInbound (msg : Inbound)
| EvProposal (command : bytes) (reply : Sender)
| EvPeerReply (reply : PeerReply).

Definition driver_arm (ev : Event) (now : Instant) : D () :=
  match ev with
  | EvTick => outs ← on_node (tick now); dispatch outs
  | EvInbound msg => handle_inbound msg now
  | EvProposal command reply => r ← try_node (propose command now); answer_unit reply r
  | EvPeerReply reply => handle_peer_reply reply now
  end.

Definition driver_event (ev : Event) (now : Instant) : D () := driver_arm ev now;; post_event.

(** The startup part of [run]: resume from the snapshot, then catch up. *)
Definition driver_start : D () :=
  s ← on_node node_snapshot;
  (match s with
   | Some (meta, blob) =>
       modify (λ d, set_applied (sm_restore blob (d_machine d)) (last_included_index meta) d)
   | None => mret ()
   end);;
  post_event.

End driver.
