(* ===== verification/RaftDriverSpec.v ===== *)
(** * brokkr-raft: the shell applies the committed log, once and in order

    The invariant of the event loop: between turns the state machine is exactly
    the replay of the snapshot and the committed entries after it, every
    committed entry has been applied, and no proposal is left waiting for an
    index that has passed.  Every turn preserves it, and stops only on a storage
    fault. *)

From stdpp Require Import prelude gmap strings.
From Stdlib Require Import Lia.
From S2P Require Import Prelude Machine Bytes RaftTypes RaftRng RaftWire RaftStore RaftConfig RaftNode RaftNodeSpec RaftReceiver RaftHandlers RaftDriver.

Local Open Scope N_scope.

(** The trait's documented contract: [restore] replaces the current state, and
    restoring a snapshot reproduces the state it was taken of.  [sm_good] are the
    states the snapshot format can represent: those reached by applying log
    entries or by restoring. *)
Class StateMachineSpec (M : Type) `{StateMachine M} : Type := {
  sm_good : M → Prop;
  apply_good e (s : M) : entry_ok e → sm_good s → sm_good (sm_apply e s);
  restore_good b (s : M) : sm_good (sm_restore b s);
  restore_replaces b (s s' : M) : sm_restore b s = sm_restore b s';
  restore_snapshot (s s' : M) : sm_good s → sm_restore (sm_snapshot s) s' = s
}.

Section replay.
Context {M : Type} `{StateMachine M}.

(** Apply the entries [i + 1 .. i + k]. *)
Fixpoint apply_range (m : gmap N LogEntry) (i : N) (k : nat) (s : M) : M :=
  match k with
  | O => s
  | S k =>
      apply_range m (i + 1) k
        match m !! (i + 1) with Some e => sm_apply e s | None => s end
  end.

(** The state the log prescribes at index [i], for a machine started in [m0]. *)
Definition replay (m0 : M) (v : LogView) (i : N) : M :=
  apply_range (v_entries v) (view_snap_index v) (N.to_nat (i - view_snap_index v))
    match v_snapshot v with Some (_, blob) => sm_restore blob m0 | None => m0 end.

Lemma apply_range_snoc m i k s :
  apply_range m i (S k) s =
    match m !! (i + N.of_nat (S k)) with
    | Some e => sm_apply e (apply_range m i k s)
    | None => apply_range m i k s
    end.
Proof.
  revert i s. induction k as [|k IH]; intros i s; [done|].
  change (apply_range m i (S (S k)) s) with
    (apply_range m (i + 1) (S k) match m !! (i + 1) with Some e => sm_apply e s | None => s end).
  rewrite IH. replace (i + 1 + N.of_nat (S k)) with (i + N.of_nat (S (S k))) by lia. done.
Qed.

Lemma apply_range_ext m m' i k s :
  (∀ j, i < j ≤ i + N.of_nat k → m' !! j = m !! j) → apply_range m' i k s = apply_range m i k s.
Proof.
  revert i s. induction k as [|k IH]; intros i s Hm; [done|]. simpl.
  rewrite (Hm (i + 1)) by lia. apply IH. intros j Hj. apply Hm. lia.
Qed.

Lemma replay_step m0 v i e :
  view_snap_index v ≤ i → v_entries v !! (i + 1) = Some e →
  replay m0 v (i + 1) = sm_apply e (replay m0 v i).
Proof.
  intros Hle He. unfold replay.
  replace (N.to_nat (i + 1 - view_snap_index v)) with (S (N.to_nat (i - view_snap_index v))) by lia.
  rewrite apply_range_snoc.
  replace (view_snap_index v + N.of_nat (S (N.to_nat (i - view_snap_index v)))) with (i + 1) by lia.
  by rewrite He.
Qed.

Lemma replay_ext m0 v v' i :
  v_snapshot v' = v_snapshot v →
  (∀ j, view_snap_index v < j ≤ i → v_entries v' !! j = v_entries v !! j) →
  replay m0 v' i = replay m0 v i.
Proof.
  intros Hs He. unfold replay, view_snap_index in *. rewrite Hs. apply apply_range_ext.
  intros j Hj. apply He. lia.
Qed.

Lemma replay_at_snapshot m0 v m b :
  v_snapshot v = Some (m, b) → replay m0 v (last_included_index m) = sm_restore b m0.
Proof. intros Hs. unfold replay, view_snap_index. by rewrite Hs, N.sub_diag. Qed.

Lemma replay_good `{!StateMachineSpec M} m0 v i : sm_good m0 → durable_ok v → sm_good (replay m0 v i).
Proof.
  intros Hm0 [_ Hok _ _]. unfold replay.
  assert (∀ k j s, sm_good s → sm_good (apply_range (v_entries v) j k s)) as Hrange.
  { induction k as [|k IH]; intros j s Hs; [done|]. simpl. apply IH.
    destruct (v_entries v !! (j + 1)) eqn:He; [|done]. apply apply_good; [by eapply Hok|done]. }
  apply Hrange. destruct (v_snapshot v) as [[m b]|]; [apply restore_good|done].
Qed.

End replay.

Section driver_spec.
Context {L M : Type} `{RaftStoreSpec L} `{StateMachineSpec M} `{!Bootstrap}.
Context (m0 : M) (Hm0 : sm_good m0).

Implicit Types d : RaftDriver L M.

Notation dview d := (view (d_node d)).

(** The machine is the replay up to the last applied index. *)
Definition in_step d : Prop :=
  view_snap_index (dview d) ≤ d_last_applied d ∧ u64_val (d_last_applied d) ≤ n_commit_index (d_node d) ∧
  d_machine d = replay m0 (dview d) (d_last_applied d).

(** No proposal waits for an index already applied. *)
Definition proposals_ahead d : Prop :=
  ∀ w, w ∈ d_awaiting_apply d → is_Some (w_expected_term w) → d_last_applied d < u64_val (w_index w).

(** What each arm of the loop leaves for [post_event]: a machine in step with the
    log, or behind a snapshot just installed. *)
Record unsettled d : Prop := {
  u_node : node_inv (d_node d);
  u_commit : commit_ok (d_node d);
  u_applied : in_step d ∨ d_last_applied d < view_snap_index (dview d);
  u_ahead : proposals_ahead d
}.

(** Between turns. *)
Record driver_inv d : Prop := {
  di_node : node_inv (d_node d);
  di_commit : commit_ok (d_node d);
  di_applied : d_last_applied d = n_commit_index (d_node d);
  di_machine : d_machine d = replay m0 (dview d) (d_last_applied d);
  di_ahead : proposals_ahead d
}.

(** A change of the node that touches neither its role nor its hard state, and of
    its log only what a snapshot covers. *)
Record calm (n n' : RaftNode L) : Prop := {
  q_kept : kept n n';
  q_role : n_role n' = n_role n;
  q_hard : n_hard n' = n_hard n;
  q_commit : n_commit_index n' = n_commit_index n;
  q_log i e : v_entries (view n') !! i = Some e → v_entries (view n) !! i = Some e;
  q_snap : v_snapshot (view n') = v_snapshot (view n) ∨
    view_snap_index (view n) ≤ view_snap_index (view n') ≤ n_commit_index n
}.

Lemma calm_refl n : node_inv n → calm n n.
Proof. intros Hn. split; auto. by apply kept_refl. Qed.

Lemma calm_trans n1 n2 n3 : calm n1 n2 → calm n2 n3 → calm n1 n3.
Proof.
  intros [K1 R1 H1' C1 L1 S1] [K2 R2 H2' C2 L2 S2].
  split; [by eapply kept_trans|congruence..|auto|]. rewrite C1 in S2. unfold view_snap_index in *.
  destruct S1 as [S1|S1], S2 as [S2|S2]; rewrite ?S2, ?S1 in *; auto; right; lia.
Qed.

Lemma same_calm n n' : node_inv n → same n n' → calm n n'.
Proof.
  intros Hn Hs. pose proof (same_kept _ _ Hn Hs).
  destruct Hs as (l & _ & Hv & ->). split; auto.
  - intros i e. change (view (set_log l n)) with (store_view l). by rewrite Hv.
  - left. change (view (set_log l n)) with (store_view l). by rewrite Hv.
Qed.

Definition stops_driver d (e : RaftError) d' : Prop :=
  failed (d_node d) (d_node d') ∧ storage_fault e.

Lemma calm_stops d d1 e d' : calm (d_node d) (d_node d1) → stops_driver d1 e d' → stops_driver d e d'.
Proof. intros [[_ [] _] _ _ _ _ _] [? ?]. split; [by eapply failed_ext|done]. Qed.

Lemma set_node_id d : set_node (d_node d) d = d.
Proof. by destruct d. Qed.

Lemma wp_on_node {A} (m : eff (RaftNode L) RaftError A) Q X d :
  wp m (λ a n', Q a (set_node n' d)) (λ e n', X e (set_node n' d)) (d_node d) → wp (on_node m) Q X d.
Proof. apply wp_zoom. Qed.

Lemma wp_try_node {A} (m : eff (RaftNode L) RaftError A) Q X d :
  wp m (λ a n', Q (inr a) (set_node n' d)) (λ e n', Q (inl e) (set_node n' d)) (d_node d) →
  wp (try_node m) Q X d.
Proof. unfold try_node, zoom, wp. destruct (m (d_node d)) as [n' [a|e|]]; done. Qed.

Lemma wp_node_read {A} (m : eff L RaftError A) f (Q : A → RaftDriver L M → Prop) X d :
  reads store_ok store_view m f → node_inv (d_node d) →
  (∀ n', same (d_node d) n' → Q (f (dview d)) (set_node n' d)) →
  (∀ e n', same (d_node d) n' → storage_fault e → X e (set_node n' d)) →
  wp (on_node (on_log m)) Q X d.
Proof. intros Hm Hn HQ HX. apply wp_on_node, (wp_read m f); [done|apply Hn|auto..]. Qed.

Lemma in_step_same d n' :
  same (d_node d) n' → in_step d → in_step (set_node n' d).
Proof.
  intros Hs. unfold in_step. simpl. rewrite (same_view _ _ Hs), (same_commit _ _ Hs). done.
Qed.

(** ** post_event *)

(** An answer naming an index names one that has been applied. *)
Definition applied_answer (last : N) (a : Sender * Answer) : Prop :=
  ∃ r, a.2 = AnsIndex r ∧ ∀ i, r = inr i → u64_val i ≤ last.

Lemma applied_answer_mono last last' ans :
  last ≤ last' → Forall (applied_answer last) ans → Forall (applied_answer last') ans.
Proof.
  intros Hle Hans. eapply Forall_impl; [exact Hans|]. intros a (r & Ha & Hr). exists r. split; [done|].
  intros i ->. specialize (Hr i eq_refl). lia.
Qed.

(** What the bookkeeping after an event may do besides: answer waiting callers,
    each with an index or an error.  A read that waits for an index already
    passed is not one of them. *)
Record settling d d' : Prop := {
  t_sent : d_sent d' = d_sent d;
  t_answers : ∃ ans, d_answers d' = d_answers d ++ ans ∧ Forall (applied_answer (d_last_applied d')) ans;
  t_applied : u64_val (d_last_applied d) ≤ d_last_applied d';
  t_passed w : w ∈ d_awaiting_apply d → w_expected_term w = None →
    u64_val (w_index w) ≤ d_last_applied d → w ∈ d_awaiting_apply d'
}.

Lemma settling_set_node d n' : settling d (set_node n' d).
Proof. split; auto. exists []. by rewrite app_nil_r. Qed.

Lemma settling_trans d1 d2 d3 : settling d1 d2 → settling d2 d3 → settling d1 d3.
Proof.
  intros [S1 (a1 & A1 & F1) L1 P1] [S2 (a2 & A2 & F2) L2 P2]. split; [congruence| |lia|].
  - exists (a1 ++ a2). rewrite A2, A1, app_assoc. split; [done|]. apply Forall_app.
    split; [by eapply applied_answer_mono|done].
  - intros w Hw Ht Hle. apply P2; [auto|done|lia].
Qed.

(** Answering some waiters and dropping them. *)
Lemma settling_answer d (P : AppliedWaiter → Prop) `{∀ w, Decision (P w)} f m i :
  u64_val (d_last_applied d) ≤ u64_val i →
  (∀ w, P w → w_expected_term w = None → d_last_applied d < u64_val (w_index w)) →
  (∀ w j, P w → f w = inr j → u64_val j ≤ u64_val i) →
  settling d (add_answers ((λ w, (w_sender w, AnsIndex (f w))) <$> filter P (d_awaiting_apply d))
    (set_awaiting (filter (λ w, ¬ P w) (d_awaiting_apply d)) (set_applied m i d))).
Proof.
  intros Hi HP Hf. split; simpl; [done| |done|].
  - eexists. split; [done|]. apply Forall_forall.
    intros a (w & -> & [? _]%list_elem_of_filter)%list_elem_of_fmap. eexists. split; [done|]. eauto.
  - intros w Hw Ht Hle. apply list_elem_of_filter. split; [|done]. intros HPw. specialize (HP w HPw Ht). lia.
Qed.

Lemma adopt_snapshot_spec d :
  unsettled d →
  wp adopt_snapshot
    (λ _ d', in_step d' ∧ proposals_ahead d' ∧ same (d_node d) (d_node d') ∧ settling d d') (stops_driver d) d.
Proof.
  intros [Hn Hc Happ Hahead]. unfold adopt_snapshot. do 2 wp_step. cbn [id].
  rewrite (snapshot_index_view _ Hn).
  destruct (N.ltb_spec (d_last_applied d) (view_snap_index (dview d))) as [Hlt|Hge].
  2:{ wp_step. destruct Happ as [?|?]; [|lia]. split_and!; [done..|apply same_refl, Hn|].
      rewrite <-(set_node_id d) at 2. apply settling_set_node. }
  wp_step. apply (wp_node_read _ _ _ _ _ snapshot_reads); [done| |].
  - intros n' Hs. unfold view_snap_index in Hlt.
    destruct (v_snapshot (dview d)) as [[m b]|] eqn:Hsn; [|lia]. do 3 wp_step.
    split_and!; [| |done|].
    + unfold in_step. simpl. rewrite (same_view _ _ Hs), (same_commit _ _ Hs).
      destruct Hc as [Hlo _]. unfold view_snap_index in *. rewrite Hsn in *. split_and!; [done|done|].
      rewrite (replay_at_snapshot _ _ m b) by done. apply restore_replaces.
    + intros w. simpl. rewrite list_elem_of_filter. intros [Hj Hw] [t Ht].
      unfold jumped_over in Hj. rewrite Ht in Hj. rewrite andb_true_r in Hj.
      apply N.nle_gt. intros Hle. apply Hj. by rewrite (proj2 (N.leb_le _ _) Hle).
    + eapply settling_trans; [apply (settling_set_node d n')|].
      refine (settling_answer (set_node n' d) (λ w, Is_true (jumped_over (last_included_index m) w))
        (λ _, inl (Transport _)) (sm_restore b (d_machine d)) (last_included_index m) _ _ _); simpl; [lia| |done].
      unfold jumped_over. intros w Hj Ht. by rewrite Ht, andb_false_r in Hj.
  - intros e n' Hs ?. split; [by apply same_failed|done].
Qed.

(** Every waiter for an index that is about to be applied is answered, by the
    entry applied there. *)
Definition waiters_answered d d' : Prop :=
  ∀ w, w ∈ d_awaiting_apply d → d_last_applied d < u64_val (w_index w) ≤ n_commit_index (d_node d) →
  ∃ e, v_entries (dview d) !! u64_val (w_index w) = Some e ∧
    (w_sender w, AnsIndex (verdict (w_index w) e w)) ∈ d_answers d'.

Lemma waiters_answered_step d n' e next d' :
  same (d_node d) n' → u64_val next = d_last_applied d + 1 → v_entries (dview d) !! u64_val next = Some e →
  let d1 := add_answers ((λ w, (w_sender w, AnsIndex (verdict next e w)))
                <$> filter (λ w, w_index w = next) (d_awaiting_apply d))
              (set_awaiting (filter (λ w, w_index w ≠ next) (d_awaiting_apply d))
                (set_applied (sm_apply e (d_machine d)) next (set_node n' d))) in
  settling d1 d' → waiters_answered d1 d' → waiters_answered d d'.
Proof.
  intros Hs Hnext He d1 [_ (ans & Hans & _) _ _] Hd1 w Hw Hi.
  destruct (decide (w_index w = next)) as [Heq|Hne].
  - exists e. rewrite Heq. split; [done|]. rewrite Hans. simpl. rewrite !elem_of_app. left. right.
    apply list_elem_of_fmap. exists w. split; [done|]. by apply list_elem_of_filter.
  - destruct (Hd1 w) as (e' & He' & Ha).
    + simpl. by apply list_elem_of_filter.
    + simpl. rewrite (same_commit _ _ Hs). assert (u64_val (w_index w) ≠ next); [|lia].
      intros Heq. by apply Hne, u64_inj.
    + exists e'. split; [|done]. simpl in He'. by rewrite (same_view _ _ Hs) in He'.
Qed.

(** The loop applies every committed entry, each once, in index order. *)
Lemma apply_committed_spec fuel : ∀ d,
  node_inv (d_node d) → commit_ok (d_node d) → in_step d → proposals_ahead d →
  (N.to_nat (n_commit_index (d_node d) - d_last_applied d) < fuel)%nat →
  wp (apply_committed fuel)
    (λ _ d', in_step d' ∧ proposals_ahead d' ∧ same (d_node d) (d_node d') ∧
       d_last_applied d' = n_commit_index (d_node d) ∧ settling d d' ∧ waiters_answered d d')
    (stops_driver d) d.
Proof.
  induction fuel as [|fuel IH]; intros d Hn Hc Hin Hahead Hfuel; [lia|]. cbn [apply_committed].
  do 2 wp_step. cbn [id].
  destruct (N.ltb_spec (d_last_applied d) (n_commit_index (d_node d))) as [Hlt|Hge].
  2:{ wp_step. split_and!; [done..|apply same_refl, Hn| | |intros w _ ?; lia].
      - apply u64_inj. destruct Hin as (_ & ? & _). lia.
      - rewrite <-(set_node_id d) at 2. apply settling_set_node. }
  wp_step. set (next := LogIndex_next _).
  pose proof (u64_le_max (n_commit_index (d_node d))).
  assert (u64_val next = d_last_applied d + 1) as Hnext by (unfold next; rewrite LogIndex_next_val; lia).
  apply (wp_node_read _ _ _ _ _ (get_reads next)); [done| |].
  2:{ intros e n' Hs ?. split; [by apply same_failed|done]. }
  intros n' Hs. unfold view_get. pose proof Hin as (Hlo & Hhi & Hm).
  destruct (d_contig _ (i_dur _ Hn)) as (_ & Hdom & _).
  destruct (proj2 (Hdom next)) as [e He]; [destruct Hc; lia|]. rewrite He. do 4 wp_step.
  eapply wp_mono; [apply IH| |].
  - by eapply same_inv.
  - unfold commit_ok. simpl. by rewrite (same_view _ _ Hs), (same_commit _ _ Hs).
  - unfold in_step. simpl. rewrite (same_view _ _ Hs), (same_commit _ _ Hs), Hnext.
    split_and!; [lia|lia|]. rewrite Hm. symmetry. apply replay_step; [done|]. by rewrite <-Hnext.
  - intros w. simpl. rewrite list_elem_of_filter. intros [Hne Hw] Ht.
    specialize (Hahead w Hw Ht). assert (u64_val (w_index w) ≠ next); [|lia].
    intros Heq. by apply Hne, u64_inj.
  - simpl. rewrite (same_commit _ _ Hs). lia.
  - intros [] d' (? & ? & Hs' & Hla & Hset & Hans). simpl in Hs', Hla. rewrite (same_commit _ _ Hs) in Hla.
    split_and!; [done..|by eapply same_trans|done| |by eapply waiters_answered_step].
    eapply settling_trans; [apply (settling_set_node d n')|]. eapply settling_trans; [|exact Hset].
    refine (settling_answer (set_node n' d) (λ w, w_index w = next) (verdict next e)
      (sm_apply e (d_machine d)) next _ _ _); [simpl; lia|intros w -> _; simpl; lia|].
    intros w j _ Hv. assert (j = next) as ->; [|done]. unfold verdict in Hv.
    destruct (w_expected_term w); [case_decide|]; congruence.
  - intros err d' [Hf ?]. split; [|done]. apply (failed_ext _ n'); [|done].
    by destruct Hs as (l & _ & _ & ->).
Qed.

Lemma view_compact_replay v (m : SnapshotMeta) (s : M) :
  sm_good s → replay m0 (view_compact m (sm_snapshot s) v) (last_included_index m) = s.
Proof. intros Hs. erewrite replay_at_snapshot by done. by apply restore_snapshot. Qed.

(** Compacting the fully applied state. *)
Lemma compact_calm n data meta n' :
  kept n n' → n_role n' = n_role n → compacted n data meta n' → node_inv n → commit_ok n →
  calm n n'.
Proof.
  intros Hk Hr [Hi _ Ht _ Hc Hv Hcm Hcf] Hn [Hlo Hhi]. split; [done|done| |done| |].
  - rewrite <-(i_hard _ (k_inv _ _ Hk)), <-(i_hard _ Hn), Hv. done.
  - intros i e. rewrite Hv. simpl. by intros [? _]%map_lookup_filter_Some.
  - right. rewrite Hv.
    change (view_snap_index (view_compact meta data (view n))) with (u64_val (last_included_index meta)).
    rewrite Hi. lia.
Qed.

Lemma auto_compact_spec d :
  node_inv (d_node d) → commit_ok (d_node d) → in_step d → d_last_applied d = n_commit_index (d_node d) →
  wp auto_compact
    (λ _ d', in_step d' ∧ calm (d_node d) (d_node d') ∧ d' = set_node (d_node d') d) (stops_driver d) d.
Proof.
  intros Hn Hc Hin Hla. unfold auto_compact. do 2 wp_step. cbn [id].
  destruct (needs_snapshot (d_node d)) eqn:Hneed.
  2:{ wp_step. split_and!; [done|by apply calm_refl|by destruct d]. }
  wp_step. apply wp_on_node. eapply wp_mono; [by apply compact_spec| |].
  - intros meta n' (Hk & Hr & Hcp). wp_step.
    pose proof (compact_calm _ _ _ _ Hk Hr Hcp Hn Hc) as Hcalm. destruct Hcp as [Hi _ Ht _ Hcf Hv Hcm _].
    split_and!; [|done|done]. destruct Hin as (Hlo & Hhi & Hm). unfold in_step; simpl.
    rewrite Hcm, Hv, Hla, <-Hi. split_and!; [done|lia|]. symmetry. apply view_compact_replay.
    rewrite Hm. apply replay_good; [done|apply Hn].
  - intros e n' [Hs [?|Hbad]]; [split; [by apply same_failed|done]|]. exfalso.
    unfold needs_snapshot in Hneed. apply N.ltb_lt in Hneed.
    rewrite saturating_sub_val, (snapshot_index_view _ Hn) in Hneed. destruct Hc as [? ?].
    destruct Hbad; lia.
Qed.

(** Settling reads touches neither the node's promises nor the machine. *)
Lemma settle_read_frame ticket result d :
  let d' := settle_read ticket result d in
  d_node d' = d_node d ∧ d_machine d' = d_machine d ∧ d_last_applied d' = d_last_applied d ∧
  d_sent d' = d_sent d ∧
  (∀ w, w ∈ d_awaiting_apply d → w ∈ d_awaiting_apply d') ∧
  (∀ w, w ∈ d_awaiting_apply d' → w ∈ d_awaiting_apply d ∨
     w_expected_term w = None ∧ d_last_applied d < u64_val (w_index w)) ∧
  ∃ ans, d_answers d' = d_answers d ++ ans ∧ Forall (applied_answer (d_last_applied d)) ans.
Proof.
  unfold settle_read. destruct (d_reads_awaiting_confirm d !! u64_val ticket) as [sender|].
  2:{ simpl. split_and!; try done; [set_solver|]. exists []. by rewrite app_nil_r. }
  destruct result as [e|index]; simpl.
  { split_and!; try done; [set_solver|]. eexists [_]. split; [done|]. apply Forall_singleton.
    eexists. split; [done|]. by intros i. }
  destruct (N.leb_spec index (d_last_applied d)); simpl; split_and!; try done.
  - set_solver.
  - eexists [_]. split; [done|]. apply Forall_singleton. eexists. split; [done|]. by intros i [= ->].
  - set_solver.
  - intros w [?| ->%list_elem_of_singleton]%elem_of_app; [by left|right]. simpl. split; [done|lia].
  - exists []. by rewrite app_nil_r.
Qed.

Lemma settle_all_frame rs : ∀ d,
  let d' := foldl (λ d '(ticket, result), settle_read ticket result d) d rs in
  d_node d' = d_node d ∧ d_machine d' = d_machine d ∧ d_last_applied d' = d_last_applied d ∧
  d_sent d' = d_sent d ∧
  (∀ w, w ∈ d_awaiting_apply d → w ∈ d_awaiting_apply d') ∧
  (∀ w, w ∈ d_awaiting_apply d' → w ∈ d_awaiting_apply d ∨
     w_expected_term w = None ∧ d_last_applied d < u64_val (w_index w)) ∧
  ∃ ans, d_answers d' = d_answers d ++ ans ∧ Forall (applied_answer (d_last_applied d)) ans.
Proof.
  induction rs as [|[t r] rs IH]; intros d; simpl.
  { split_and!; try done; [set_solver|]. exists []. by rewrite app_nil_r. }
  destruct (settle_read_frame t r d) as (E1 & E2 & E3 & E4 & W1 & W2 & ans & A & HA).
  destruct (IH (settle_read t r d)) as (F1 & F2 & F3 & F4 & V1 & V2 & ans' & B & HB).
  split_and!; [congruence..|auto| |].
  - intros w Hw. destruct (V2 w Hw) as [Hw'|?]; [auto|]. right. by rewrite <-E3.
  - exists (ans ++ ans'). rewrite B, A, app_assoc. split; [done|]. rewrite E3 in HB. by apply Forall_app.
Qed.

Lemma settle_reads_spec d :
  node_inv (d_node d) → proposals_ahead d →
  wp settle_reads
    (λ _ d', volatile (d_node d) (d_node d') ∧ d_machine d' = d_machine d ∧
       d_last_applied d' = d_last_applied d ∧ n_role (d_node d') = n_role (d_node d) ∧
       proposals_ahead d' ∧ settling d d') (stops_driver d) d.
Proof.
  intros Hn Hahead. unfold settle_reads. wp_step. apply wp_on_node. unfold drain_read_results. do 6 wp_step.
  set (n1 := set_read_results [] (d_node d)). set (d1 := set_node n1 d).
  destruct (settle_all_frame (n_read_results (d_node d)) d1) as (E1 & E2 & E3 & E4 & W1 & W2 & Hans).
  set (d2 := foldl _ _ _) in *. rewrite E1. split_and!; [|done|done|done| |].
  - unfold volatile; simpl. auto 10.
  - intros w Hw Ht. rewrite E3. destruct (W2 w Hw) as [Hw'|[Hnone _]]; [by apply Hahead|].
    rewrite Hnone in Ht. by destruct Ht.
  - split; [done|by rewrite E3|by rewrite E3|]. intros w Hw _ _. by apply W1.
Qed.

Lemma volatile_calm (n n' : RaftNode L) :
  node_inv n → volatile n n' → n_role n' = n_role n → calm n n'.
Proof.
  intros Hn Hv Hr. pose proof (volatile_kept _ _ Hn Hv) as Hk.
  destruct Hv as (_ & _ & El & Eh & Em & _). unfold view in *.
  split; [done..| |]; unfold view; rewrite El; auto.
Qed.

(** The bookkeeping after an event completes the turn. *)
Lemma post_event_spec d :
  unsettled d →
  wp post_event
    (λ _ d', driver_inv d' ∧ calm (d_node d) (d_node d') ∧ settling d d') (stops_driver d) d.
Proof.
  intros Hu. pose proof Hu as [Hn Hc _ _]. unfold post_event. wp_step.
  eapply wp_mono; [by apply adopt_snapshot_spec| |done]. intros [] d1 (Hin1 & Ha1 & Hs1 & Ht1).
  pose proof (same_calm _ _ Hn Hs1) as Hq1. pose proof (same_inv _ _ Hs1 Hn) as Hn1.
  assert (∀ n', kept (d_node d) n' → commit_ok n') as Hcok.
  { intros n' Hk. by apply (e_commit _ _ (k_ext _ _ Hk)). }
  do 2 wp_step. cbn [id]. wp_step.
  eapply wp_mono; [apply (apply_committed_spec _ d1); [done|apply Hcok, Hq1|done|done|lia]| |].
  2:{ intros e d' ?. by apply (calm_stops d d1). }
  intros [] d2 (Hin2 & Ha2 & Hs2 & Hla2 & Ht2 & _).
  pose proof (calm_trans _ _ _ Hq1 (same_calm _ _ Hn1 Hs2)) as Hq2.
  pose proof (k_inv _ _ (q_kept _ _ Hq2)) as Hn2. rewrite <-(same_commit _ _ Hs2) in Hla2.
  wp_step. eapply wp_mono; [apply (auto_compact_spec d2); [done|apply Hcok, Hq2|done|done]| |].
  2:{ intros e d' ?. by apply (calm_stops d d2). }
  intros [] d3 (Hin3 & Hq23 & Hd3). pose proof (calm_trans _ _ _ Hq2 Hq23) as Hq3.
  pose proof (k_inv _ _ (q_kept _ _ Hq3)) as Hn3.
  assert (proposals_ahead d3 ∧ settling d2 d3 ∧ d_last_applied d3 = d_last_applied d2) as (Ha3 & Ht3 & Hla3).
  { rewrite Hd3. split_and!; [done|apply settling_set_node|done]. }
  eapply wp_mono; [by apply (settle_reads_spec d3)| |].
  2:{ intros e d' ?. by apply (calm_stops d d3). }
  intros [] d4 (Hv4 & Hm4 & Hl4 & Hr4 & Ha4 & Ht4).
  pose proof (volatile_calm _ _ Hn3 Hv4 Hr4) as Hq34. pose proof (calm_trans _ _ _ Hq3 Hq34) as Hq4.
  split_and!; [|done|by eapply settling_trans, settling_trans, settling_trans].
  assert (view (d_node d4) = view (d_node d3)) as Hv43 by (destruct Hv4 as (_&_&El&_); unfold view; by rewrite El).
  split; [apply Hq4|apply Hcok, Hq4| | |done].
  - rewrite Hl4, Hla3, Hla2, (q_commit _ _ Hq34), (q_commit _ _ Hq23). done.
  - rewrite Hm4, Hl4, Hv43. apply Hin3.
Qed.

(** ** The arms of the loop *)

(** What an event must satisfy: room for the entries it may add, requests a
    healthy leader sends, and no request that contradicts what is committed. *)
Definition event_ok d (ev : Event) : Prop :=
  match ev with
  | EvTick => room 2 (d_node d) ∧ node_term (d_node d) < u64_max
  | EvInbound (InRequestVote _ _) | EvInbound (InReadIndex _) | EvInbound (InStatus _) => True
  | EvInbound (InAppendEntries r _) => ae_wf r ∧ ae_commit_wf r ∧ respects_commit (d_node d) r
  | EvInbound (InInstallSnapshot r _) => is_wf r
  | EvInbound (InCompact data _) => data = sm_snapshot (d_machine d)
  | EvInbound (InConfChange _ _) | EvInbound (InAddLearner _ _) | EvPeerReply _ => room 2 (d_node d)
  | EvInbound (InProposeCommitted command _) | EvProposal command _ =>
      room 2 (d_node d) ∧ command_ok command
  end.

(** The node moved on without touching what is applied. *)
Record node_moved (n n' : RaftNode L) : Prop := {
  nm_inv : node_inv n';
  nm_ext : ext n n';
  nm_log : v_snapshot (view n') = v_snapshot (view n) ∧
      (∀ i, view_snap_index (view n) < i ≤ n_commit_index n →
         v_entries (view n') !! i = v_entries (view n) !! i) ∨
    n_commit_index n < view_snap_index (view n')
}.

(** Driver fields other than the node and the outputs, and the proposals that
    were added, all for indices not yet applied. *)
Definition arm_frame d d1 : Prop :=
  d_machine d1 = d_machine d ∧ d_last_applied d1 = d_last_applied d ∧
  (∀ w, w ∈ d_awaiting_apply d1 → w ∈ d_awaiting_apply d ∨ d_last_applied d < u64_val (w_index w)) ∧
  d_awaiting_apply d ⊆ d_awaiting_apply d1.

(** What an arm leaves for [post_event]. *)
Definition armed d d1 : Prop :=
  unsettled d1 ∧ ext (d_node d) (d_node d1) ∧ d_last_applied d1 = d_last_applied d ∧
  d_awaiting_apply d ⊆ d_awaiting_apply d1.

Lemma arm_unsettled d d1 :
  driver_inv d → node_moved (d_node d) (d_node d1) → arm_frame d d1 → armed d d1.
Proof.
  intros [Hn Hc Hla Hm Ha] [Hn1 Hx1 Hlog] (Em & El & Ew & Ek).
  destruct (e_commit _ _ Hx1 Hc) as [Hc1 Hge]. split; [|done]. split; [done|done| |].
  - destruct Hlog as [[Hs He]|Hgt]; [left|right; by rewrite El, Hla]. unfold in_step.
    rewrite Em, El, Hm, Hla in *. destruct Hc as [Hlo Hhi].
    split_and!; [by unfold view_snap_index in *; rewrite Hs|done|].
    symmetry. by apply replay_ext.
  - intros w Hw Ht. rewrite El. destruct (Ew w Hw); [by apply Ha|done].
Qed.

Lemma log_grows_moved (n n' : RaftNode L) :
  node_inv n → node_inv n' → ext n n' → log_grows n n' → commit_ok n → node_moved n n'.
Proof.
  intros Hn Hn' Hx [Hs Hk _] [Hlo Hhi]. split; [done|done|]. left. split; [done|].
  intros i Hi. destruct (d_contig _ (i_dur _ Hn)) as (_ & Hdom & _).
  destruct (proj2 (Hdom i)) as [e He]; [lia|]. rewrite He. by apply Hk.
Qed.

Lemma stepped_moved (n : RaftNode L) outs n' : node_inv n → commit_ok n → stepped n outs n' → node_moved n n'.
Proof. intros Hn Hc []. by apply log_grows_moved. Qed.

Lemma run_moved (n : RaftNode L) outs n' : node_inv n → commit_ok n → leader_run n outs n' → node_moved n n'.
Proof. intros Hn Hc Hrun. by eapply stepped_moved, leader_run_stepped. Qed.

Lemma kept_moved (n n' : RaftNode L) : kept n n' → log_kept n n' → node_moved n n'.
Proof. intros [] (He & Hs & _). split; [done..|]. left. rewrite He. auto. Qed.

Lemma append_moved (n : RaftNode L) r resp n' :
  node_inv n → commit_ok n → ae_commit_wf r → respects_commit n r → append_post n r resp n' → node_moved n n'.
Proof.
  intros Hn [Hlo Hhi] Hcw Hrc [Hn' _ _ _ _ Hout Hx]. specialize (Hx Hcw Hrc). split; [done|done|].
  destruct Hout as [Hlt ->|hint _ _ (He & Hs & _) _ _|m _ _ _ _ He Hmg Hs _]; [by left|left; by rewrite He|].
  left. split; [done|]. intros i Hi. rewrite He.
  destruct (d_contig _ (i_dur _ Hn)) as (_ & Hdom & _). destruct (proj2 (Hdom i)) as [e Hie]; [lia|].
  rewrite Hie. destruct (m_keeps _ _ _ _ _ Hmg _ _ Hie) as [?|(c & Hc & _ & Hle & Hcf)]; [done|].
  destruct (Hrc c Hc); [lia|done].
Qed.

Lemma install_moved (n : RaftNode L) r n' : kept n n' → install_outcome n r n' → node_moved n n'.
Proof.
  intros [Hn' Hx _] Hout. split; [done|done|].
  destruct Hout as [_ ->|_ _ (He & Hs & _) _|basis _ _ Hgt _ Hsn _ _ _]; [by left|left; by rewrite He|right].
  unfold view_snap_index at 1. rewrite Hsn. simpl. lia.
Qed.

Lemma same_moved (n : RaftNode L) n' : node_inv n → same n n' → node_moved n n'.
Proof. intros Hn Hs. apply kept_moved; [by apply same_kept|by apply log_kept_same]. Qed.

Lemma arm_frame_id d n1 : arm_frame d (set_node n1 d).
Proof. split_and!; auto. Qed.

(** A turn that only moves the node and records outputs. *)
Lemma arm_done d d1 n1 outs ans :
  driver_inv d → node_moved (d_node d) n1 →
  d1 = add_answers ans (add_sent outs (set_node n1 d)) → armed d d1.
Proof.
  intros Hd Hm ->. apply (arm_unsettled d); [done|exact Hm|]. split_and!; auto.
Qed.

Lemma arm_answered d n1 outs s a :
  driver_inv d → node_moved (d_node d) n1 → armed d (add_answers [(s, a)] (add_sent outs (set_node n1 d))).
Proof. intros Hd Hm. by eapply arm_done. Qed.

Lemma arm_silent d n1 outs :
  driver_inv d → node_moved (d_node d) n1 → armed d (add_sent outs (set_node n1 d)).
Proof. intros Hd Hm. apply (arm_unsettled d); [done|exact Hm|]. split_and!; auto. Qed.

Lemma arm_node_only d n1 ans :
  driver_inv d → node_moved (d_node d) n1 → armed d (add_answers ans (set_node n1 d)).
Proof. intros Hd Hm. apply (arm_unsettled d); [done|exact Hm|]. split_and!; auto. Qed.

Lemma fails_stop d e n1 : fails (d_node d) e n1 → stops_driver d e (set_node n1 d).
Proof. done. Qed.

(** A client write whose error is answered, not fatal. *)
Lemma client_arm {A} d (m : eff (RaftNode L) RaftError A) (Q : A → RaftNode L → Prop) P
    (k : sum RaftError A → eff (RaftDriver L M) RaftError ()) :
  driver_inv d →
  wp m Q (client_fails (d_node d) P) (d_node d) →
  (∀ a n1, Q a n1 → wp (k (inr a)) (λ _ d1, armed d d1) (stops_driver d) (set_node n1 d)) →
  (∀ e n1, node_moved (d_node d) n1 → wp (k (inl e)) (λ _ d1, armed d d1) (stops_driver d) (set_node n1 d)) →
  wp (r ← try_node m; k r) (λ _ d1, armed d d1) (stops_driver d) d.
Proof.
  intros Hd Hm HQ HE. wp_step. apply wp_try_node. eapply wp_mono; [exact Hm|auto|].
  intros e n1 [Hrun _]. apply HE. by eapply run_moved; [apply Hd|apply Hd|].
Qed.

Lemma answer_unit_spec d n1 reply r :
  driver_inv d → node_moved (d_node d) n1 →
  wp (answer_unit reply r) (λ _ d1, armed d d1) (stops_driver d) (set_node n1 d).
Proof.
  intros Hd Hm. destruct r as [e|outs]; unfold answer_unit, dispatch, send.
  - wp_step. by apply arm_node_only.
  - do 3 wp_step. by apply arm_answered.
Qed.

Lemma tick_arm d now :
  driver_inv d → event_ok d EvTick →
  wp (driver_arm EvTick now) (λ _ d1, armed d d1) (stops_driver d) d.
Proof.
  intros Hd [Hroom Hterm]. simpl. wp_step. apply wp_on_node.
  eapply wp_mono; [apply tick_spec; [apply Hd|done|done]| |done].
  intros outs n1 [Hst _]. unfold dispatch. wp_step. apply arm_silent; [done|].
  eapply stepped_moved; [apply Hd|apply Hd|done].
Qed.

Lemma peer_reply_arm d reply now :
  driver_inv d → room 2 (d_node d) →
  wp (driver_arm (EvPeerReply reply) now) (λ _ d1, armed d d1) (stops_driver d) d.
Proof.
  intros Hd Hroom. simpl. unfold handle_peer_reply. wp_step. apply wp_on_node.
  assert (room 1 (d_node d)) as Hroom1 by (unfold room in *; lia).
  assert (∀ outs n1, stepped (d_node d) outs n1 →
    wp (dispatch outs) (λ _ d1, armed d d1) (stops_driver d) (set_node n1 d)) as Hdone.
  { intros outs n1 Hst. unfold dispatch. wp_step. apply arm_silent; [done|].
    eapply stepped_moved; [apply Hd|apply Hd|done]. }
  destruct reply; (eapply wp_mono;
    [ first [ apply handle_request_vote_response_spec | apply handle_append_entries_response_spec
            | apply handle_install_snapshot_response_spec ]; [apply Hd|done]
    | intros outs n1 [Hst _]; by apply Hdone | done ]).
Qed.

Lemma compact_arm d data reply now :
  driver_inv d → data = sm_snapshot (d_machine d) →
  wp (driver_arm (EvInbound (InCompact data reply)) now) (λ _ d1, armed d d1) (stops_driver d) d.
Proof.
  intros Hd ->. pose proof Hd as [Hn Hc Hla Hm Ha]. simpl. wp_step. apply wp_try_node.
  eapply wp_mono; [by apply compact_spec| |].
  - intros meta n1 (Hk & Hr & Hcp). unfold send. wp_step.
    destruct (e_commit _ _ (k_ext _ _ Hk) Hc) as [Hc1 _]. destruct Hcp as [Hi _ _ _ _ Hv Hcm _].
    split; [|split; [apply Hk|done]]. split; [apply Hk|exact Hc1| |exact Ha]. left. unfold in_step; simpl.
    rewrite Hv, Hcm, Hla, <-Hi. split_and!; [done|lia|]. symmetry. apply view_compact_replay.
    rewrite Hm. apply replay_good; [done|apply Hn].
  - intros e n1 [Hs _]. unfold send. wp_step. apply arm_node_only; [done|]. by apply same_moved.
Qed.

Lemma install_arm d r reply now :
  driver_inv d → is_wf r →
  wp (driver_arm (EvInbound (InInstallSnapshot r reply)) now) (λ _ d1, armed d d1) (stops_driver d) d.
Proof.
  intros Hd Hwf. simpl. wp_step. apply wp_try_node.
  eapply wp_mono; [apply handle_install_snapshot_spec; [apply Hd|done]| |].
  - intros resp n1 (Hk & Hout & _). unfold send. wp_step. apply arm_node_only; [done|]. by eapply install_moved.
  - intros e n1 [Hf [[msg ->]|(_ & Hk & Hlk & reason & ->)]].
    + wp_step. split; [done|by eexists].
    + wp_step. apply (arm_unsettled d); [done|by apply kept_moved|].
      apply arm_frame_id.
Qed.

Lemma propose_committed_arm d command reply now :
  driver_inv d → room 2 (d_node d) → command_ok command →
  wp (driver_arm (EvInbound (InProposeCommitted command reply)) now) (λ _ d1, armed d d1) (stops_driver d) d.
Proof.
  intros Hd Hroom Hcmd. pose proof Hd as [Hn Hc Hla _ _]. simpl.
  eapply client_arm; [done|by apply propose_spec| |].
  - intros outs n1 (_ & Hrun & i & Hi & Hw). wp_step.
    assert (node_inv n1) as Hn1 by apply Hrun.
    apply (wp_node_read _ _ _ _ _ last_index_reads); [done| |].
    + intros n2 Hs2. simpl. do 2 wp_step. unfold dispatch. do 3 wp_step.
      assert (node_moved (d_node d) n2) as Hm.
      { destruct (run_moved _ _ _ Hn Hc Hrun) as [_ Hx Hlog].
        split; [by eapply same_inv|etrans; [exact Hx|by apply same_ext]|]. by rewrite (same_view _ _ Hs2). }
      apply (arm_unsettled d); [done|exact Hm|]. split_and!; [done|done| |simpl; set_solver]. simpl.
      intros w [?| ->%list_elem_of_singleton]%elem_of_app; [by left|right]. simpl.
      change (u64_val (view_last (view n1)).1) with (view_last_index (view n1)).
      apply mk_is_Some, (contiguous_keys _ _ (d_contig _ (i_dur _ Hn1))) in Hw.
      rewrite Hla. destruct Hc. lia.
    + intros e n2 Hs2 ?. split; [|done]. apply (failed_ext _ n1); [apply Hrun|]. by apply same_failed.
  - intros e n1 Hm. unfold send. wp_step. by apply arm_node_only.
Qed.

Lemma read_arm d reply now :
  driver_inv d →
  wp (driver_arm (EvInbound (InReadIndex reply)) now) (λ _ d1, armed d d1) (stops_driver d) d.
Proof.
  intros Hd. pose proof Hd as [Hn Hc _ _ _]. simpl. eapply client_arm; [done|by apply start_read_spec| |].
  - intros [ticket outs] n1 (Hrun & _). unfold dispatch. do 3 wp_step.
    apply (arm_unsettled d); [done|by eapply run_moved|]. split_and!; auto.
  - intros e n1 Hm. unfold send. wp_step. by apply arm_node_only.
Qed.

Lemma status_arm d reply now :
  driver_inv d →
  wp (driver_arm (EvInbound (InStatus reply)) now) (λ _ d1, armed d d1) (stops_driver d) d.
Proof.
  intros Hd. simpl. wp_step. apply (wp_node_read _ _ _ _ _ last_index_reads); [apply Hd| |].
  - intros n1 Hs. unfold send. do 3 wp_step. apply arm_node_only; [done|]. apply same_moved; [apply Hd|done].
  - intros e n1 Hs ?. split; [|done]. apply same_failed; [apply Hd|done].
Qed.

Lemma conf_arms d ev now reply (m : eff (RaftNode L) RaftError (list Outbound)) Q P :
  driver_inv d → (driver_arm ev now : eff (RaftDriver L M) RaftError ()) = (r ← try_node m; answer_unit reply r) →
  wp m Q (client_fails (d_node d) P) (d_node d) →
  (∀ outs n1, Q outs n1 → leader_run (d_node d) outs n1) →
  wp (driver_arm ev now) (λ _ d1, armed d d1) (stops_driver d) d.
Proof.
  intros Hd -> Hm HQ. pose proof Hd as [Hn Hc _ _ _]. eapply client_arm; [done|exact Hm| |].
  - intros outs n1 HQ1. apply answer_unit_spec; [done|]. eapply run_moved; [done|done|by apply HQ].
  - intros e n1 Hm1. by apply answer_unit_spec.
Qed.

Lemma driver_arm_spec d ev now :
  driver_inv d → event_ok d ev →
  wp (driver_arm ev now) (λ _ d1, armed d d1) (stops_driver d) d.
Proof.
  intros Hd Hev. pose proof Hd as [Hn Hc _ _ _]. destruct ev as [|msg|command reply|reply].
  - by apply tick_arm.
  - destruct msg as [r s|r s|r s|data s|vs s|id s|s|command s|s]; simpl in Hev.
    + simpl. wp_step. apply wp_on_node. eapply wp_mono; [by apply handle_request_vote_spec| |done].
      intros resp n1 [Hk Hv]. unfold send. wp_step. apply arm_node_only; [done|]. apply kept_moved; [done|apply Hv].
    + destruct Hev as (Hwf & Hcw & Hrc). simpl. wp_step. apply wp_on_node.
      eapply wp_mono; [by apply handle_append_entries_spec| |done].
      intros resp n1 Hp. unfold send. wp_step. apply arm_node_only; [done|]. by eapply append_moved.
    + by apply install_arm.
    + by apply compact_arm.
    + eapply conf_arms; [done|reflexivity|by apply propose_conf_change_spec|]. by intros outs n1 (_ & _ & _ & ? & _).
    + eapply conf_arms; [done|reflexivity|by apply propose_add_learner_spec|]. by intros outs n1 (_ & _ & _ & ? & _).
    + by apply read_arm.
    + destruct Hev. by apply propose_committed_arm.
    + by apply status_arm.
  - destruct Hev. eapply conf_arms; [done|reflexivity|by apply propose_spec|]. by intros outs n1 (_ & ? & _).
  - by apply peer_reply_arm.
Qed.

(** ** A whole turn *)

Lemma driver_event_spec d ev now :
  driver_inv d → event_ok d ev →
  wp (driver_event ev now)
    (λ _ d', driver_inv d' ∧ ext (d_node d) (d_node d') ∧
       ∃ d1, d_last_applied d1 = d_last_applied d ∧ d_awaiting_apply d ⊆ d_awaiting_apply d1 ∧ settling d1 d')
    (stops_driver d) d.
Proof.
  intros Hd Hev. unfold driver_event. wp_step. eapply wp_mono; [by apply driver_arm_spec| |done].
  intros [] d1 (Hu & Hx & Hl & Hw). eapply wp_mono; [by apply post_event_spec| |].
  - intros [] d' (Hd' & Hq & Hset). split_and!; [done|etrans; [done|apply Hq]|]. eauto.
  - intros e d' [Hf ?]. split; [|done]. eapply failed_ext; [apply Hx|done].
Qed.

(** Starting up: a fresh machine, from the snapshot on. *)
Lemma driver_start_spec n :
  node_inv n → commit_ok n →
  wp driver_start (λ _ d', driver_inv d' ∧ ext n (d_node d')) (stops_driver (RaftDriver_new n m0)) (RaftDriver_new n m0).
Proof.
  intros Hn Hc. unfold driver_start. wp_step.
  apply (wp_node_read _ _ _ _ _ snapshot_reads); [done| |].
  2:{ intros e n' Hs ?. split; [by apply same_failed|done]. }
  intros n' Hs. set (d0 := RaftDriver_new n m0).
  assert (∀ m i, i = view_snap_index (view n) → m = replay m0 (view n) i →
    ∀ j : LogIndex, u64_val j = i → unsettled (set_applied m j (set_node n' d0))) as Hu.
  { intros m i -> -> j Hj. split; simpl; [by eapply same_inv| | |].
    - unfold commit_ok. by rewrite (same_view _ _ Hs), (same_commit _ _ Hs).
    - left. unfold in_step; simpl. rewrite (same_view _ _ Hs), (same_commit _ _ Hs), Hj.
      split_and!; [done|apply Hc|done].
    - intros w Hw. by apply elem_of_nil in Hw. }
  assert (∀ d1, d_node d1 = n' → unsettled d1 →
    wp post_event (λ _ d', driver_inv d' ∧ ext n (d_node d')) (stops_driver d0) d1) as Hpost.
  { intros d1 Hnode Hu1. pose proof (same_ext _ _ Hs) as Hx. eapply wp_mono; [by apply post_event_spec| |].
    - intros [] d' (Hd' & Hq & _). split; [done|]. rewrite Hnode in Hq. etrans; [exact Hx|apply Hq].
    - intros e d' [Hf ?]. split; [|done]. rewrite Hnode in Hf. eapply failed_ext; [apply Hx|done]. }
  wp_step. change (dview d0) with (view n). destruct (v_snapshot (view n)) as [[m b]|] eqn:Hsn; wp_step.
  - apply Hpost; [done|]. apply (Hu _ (view_snap_index (view n))); [done| |].
    + unfold view_snap_index. rewrite Hsn. by rewrite (replay_at_snapshot _ _ m b).
    + unfold view_snap_index. by rewrite Hsn.
  - apply Hpost; [done|]. assert (view_snap_index (view n) = 0) as Hz by (unfold view_snap_index; by rewrite Hsn).
    apply (Hu m0 0); [done| |done]. unfold replay. by rewrite Hz, Hsn.
Qed.

(** A run of the loop in which every turn's event is admissible. *)
Inductive turns : RaftDriver L M → list (Event * Instant) → RaftDriver L M → Prop :=
| turns_nil d : turns d [] d
| turns_cons d ev now evs d' :
    event_ok d ev → returned (driver_event ev now d) = Some () →
    turns (driver_event ev now d).1 evs d' → turns d ((ev, now) :: evs) d'.

Lemma turns_inv d evs d' : turns d evs d' → driver_inv d → driver_inv d'.
Proof.
  induction 1 as [|d ev now evs d' Hev Hrun _ IH]; [done|]. intros Hd. apply IH.
  refine (proj1 (wp_returned _ _ _ _ () (driver_event_spec d ev now Hd Hev) Hrun)).
Qed.

End driver_spec.
