(* ===== verification/RaftCluster.v ===== *)
(** * brokkr-raft: a cluster of servers over an unreliable network

    A step relation over servers that run [RaftNode]s, crash, and restart from
    their durable logs, and a network that loses, delays, duplicates and reorders
    messages: an envelope once sent may be delivered any number of times, in any
    order, or never.  Two history variables record the votes that became durable
    and the elections that were won.

    The invariant of every reachable state: votes counted are ballots on disk,
    ballots are unique per voter and term, offices were won with a quorum of
    them. *)

From stdpp Require Import prelude gmap strings.
From Stdlib Require Import Lia.
From S2P Require Import Prelude Machine Bytes RaftTypes RaftRng RaftWire RaftStore RaftConfig RaftNode RaftNodeSpec RaftReceiver RaftHandlers.

Local Open Scope N_scope.

(** ** Calls on one node *)

(** Every public method of [RaftNode] that changes its state. *)
Inductive Call : Type :=
| CTick
| CRequestVote (r : RequestVote)
| CVoteResponse (from : NodeId) (r : RequestVoteResponse)
| CAppendEntries (r : AppendEntries)
| CAppendResponse (from : NodeId) (r : AppendEntriesResponse)
| CInstallSnapshot (r : InstallSnapshot)
| CInstallResponse (from : NodeId) (r : InstallSnapshotResponse)
| CCompact (data : bytes)
| CPropose (command : bytes)
| CStartRead
| CDrainReads
| CConfChange (new_voters : gset NodeId)
| CAddLearner (id : NodeId).

Inductive Reply : Type :=
| RepVote (r : RequestVoteResponse)
| RepAppend (r : AppendEntriesResponse)
| RepSnapshot (r : InstallSnapshotResponse).

Section calls.
Context {L : Type} `{RaftStore L}.

Definition node_call (c : Call) (now : Instant)
    : eff (RaftNode L) RaftError (list Outbound * option Reply) :=
  match c with
  | CTick => outs ← tick now; mret (outs, None)
  | CRequestVote r => resp ← handle_request_vote r now; mret ([], Some (RepVote resp))
  | CVoteResponse from r => outs ← handle_request_vote_response from r now; mret (outs, None)
  | CAppendEntries r => resp ← handle_append_entries r now; mret ([], Some (RepAppend resp))
  | CAppendResponse from r => outs ← handle_append_entries_response from r now; mret (outs, None)
  | CInstallSnapshot r => resp ← handle_install_snapshot r now; mret ([], Some (RepSnapshot resp))
  | CInstallResponse from r => outs ← handle_install_snapshot_response from r now; mret (outs, None)
  | CCompact data => compact data;; mret ([], None)
  | CPropose command => outs ← propose command now; mret (outs, None)
  | CStartRead => p ← start_read now; mret (p.2, None)
  | CDrainReads => drain_read_results;; mret ([], None)
  | CConfChange vs => outs ← propose_conf_change vs now; mret (outs, None)
  | CAddLearner id => outs ← propose_add_learner id now; mret (outs, None)
  end.

End calls.

(** ** The numbers of the messages

    A leader stamps its requests with consecutive numbers.  [stamps q outs]: the
    messages are numbered on from [q]; a snapshot takes a number and does not carry
    it. *)
Definition stamps (q : u64) (outs : list Outbound) : Prop :=
  ∀ i to r, outs !! i = Some (OutAppendEntries to r) → ae_seq r = u64_wrap (q + N.of_nat i + 1).

Section stamps.
Context {L : Type} `{RaftStore L}.
Implicit Types n : RaftNode L.

(** Going from [n] to [n'] a leader numbered what it sent on from where it was, and
    if it still leads it goes on from there; a server that does not lead neither
    sends nor takes office. *)
Definition numbers_on n (outs : list Outbound) n' : Prop :=
  match n_role n with
  | Leader st => stamps (ls_ae_seq st) outs ∧
      ∀ st', n_role n' = Leader st' → ls_ae_seq st' = u64_wrap (ls_ae_seq st + N.of_nat (length outs))
  | _ => outs = [] ∧ is_leader n' = false
  end.

Lemma u64_wrap_self (x : u64) : u64_wrap (x + 0) = x.
Proof. apply u64_inj. rewrite u64_wrap_val, N.add_0_r. apply N.mod_small. pose proof (u64_le_max x). lia. Qed.

Lemma u64_wrap_plus (x : N) k : u64_wrap (u64_wrap x + k) = u64_wrap (x + k).
Proof. apply u64_inj. rewrite !u64_wrap_val. by rewrite N.Div0.add_mod_idemp_l. Qed.

Lemma stamps_nil q : stamps q [].
Proof. by intros i to r. Qed.

Lemma stamps_app q o1 o2 : stamps q o1 → stamps (u64_wrap (q + N.of_nat (length o1))) o2 → stamps q (o1 ++ o2).
Proof.
  intros H1 H2 i to r [Hi|[Hlen Hi]]%lookup_app_Some; [by eapply H1|]. rewrite (H2 _ _ _ Hi), <-N.add_assoc, u64_wrap_plus.
  f_equal. lia.
Qed.

Lemma numbers_on_role n n' : n_role n' = n_role n → numbers_on n [] n'.
Proof.
  intros Hr. unfold numbers_on, is_leader. rewrite Hr. destruct (n_role n) as [| |st]; [done..|].
  split; [apply stamps_nil|]. intros st' [= <-]. by rewrite u64_wrap_self.
Qed.

Lemma numbers_on_state n n' st st' :
  n_role n = Leader st → n_role n' = Leader st' → ls_ae_seq st' = ls_ae_seq st → numbers_on n [] n'.
Proof.
  intros Hr Hr' Hs. unfold numbers_on. rewrite Hr, Hr'. split; [apply stamps_nil|]. intros ? [= <-]. by rewrite u64_wrap_self.
Qed.

Lemma numbers_on_down n n' : is_leader n' = false → numbers_on n [] n'.
Proof.
  intros Hl. unfold numbers_on. destruct (n_role n); [done..|]. split; [apply stamps_nil|]. intros st' Hr. unfold is_leader in Hl. by rewrite Hr in Hl.
Qed.

Lemma numbers_on_trans n o1 n1 o2 n2 : numbers_on n o1 n1 → numbers_on n1 o2 n2 → numbers_on n (o1 ++ o2) n2.
Proof.
  unfold numbers_on, is_leader. destruct (n_role n) as [| |st].
  1,2: intros [-> Hl]; destruct (n_role n1); [|done..]; try done.
  intros [Hs Hq]. destruct (n_role n1) as [| |st1] eqn:Hr1.
  1,2: intros [-> Hl]; rewrite app_nil_r; split; [done|]; intros st' Hr; by rewrite Hr in Hl.
  specialize (Hq _ eq_refl). intros [Hs2 Hq2]. split; [apply stamps_app; [done|by rewrite <-Hq]|].
  intros st' Hr. rewrite (Hq2 _ Hr), Hq, u64_wrap_plus, length_app. f_equal. lia.
Qed.

(** *** Methods *)

Definition emits {A} (m : eff (RaftNode L) RaftError A) (g : A → list Outbound) n : Prop :=
  ∀ n' a, m n = (n', Ok a) → numbers_on n (g a) n'.

Lemma emits_ret {A} (a : A) g n : g a = [] → emits (mret a) g n.
Proof. intros Hg n' a' [= <- <-]. rewrite Hg. by apply numbers_on_role. Qed.

Lemma emits_gets {A} (f : RaftNode L → A) n : emits (gets f) (λ _, []) n.
Proof. intros n' a [= <- _]. by apply numbers_on_role. Qed.

Lemma emits_modify f n : numbers_on n [] (f n) → emits (modify f) (λ _, []) n.
Proof. by intros Hf n' a [= <-]. Qed.

Lemma emits_on_log {A} (m : eff L RaftError A) n : emits (on_log m) (λ _, []) n.
Proof. intros n' a. unfold on_log, zoom. destruct (m (n_log n)) as [l r]. intros [= <- _]. by apply numbers_on_role. Qed.

Lemma emits_throw {A} e (g : A → _) n : emits (throw e) g n.
Proof. by intros n' a. Qed.

Lemma emits_halt {A} (g : A → _) n : emits halt g n.
Proof. by intros n' a. Qed.

Lemma emits_bind_with {A B} (m : eff _ _ A) (f : A → eff _ _ B) g1 g n :
  emits m g1 n → (∀ a n1, m n = (n1, Ok a) → ∀ n' b, f a n1 = (n', Ok b) → ∃ o, g b = g1 a ++ o ∧ numbers_on n1 o n') →
  emits (m ≫= f) g n.
Proof.
  intros Hm Hf n' b. unfold mbind, eff_bind. destruct (m n) as [n1 [a|e|]] eqn:E; [|done..]. intros Hb.
  destruct (Hf a n1 eq_refl n' b Hb) as (o & -> & Ho). eapply numbers_on_trans; [by apply Hm|done].
Qed.

Lemma emits_bind {A B} (m : eff _ _ A) (f : A → eff _ _ B) g n :
  emits m (λ _, []) n → (∀ a n1, m n = (n1, Ok a) → emits (f a) g n1) → emits (m ≫= f) g n.
Proof. intros Hm Hf. eapply emits_bind_with; [exact Hm|]. intros a n1 E n' b Hb. eexists. split; [done|]. by eapply Hf. Qed.

(** Two that send, one after the other. *)
Lemma emits_both m1 m2 n :
  emits m1 id n → (∀ n1, emits m2 id n1) → emits (o1 ← m1; o2 ← m2; mret (o1 ++ o2)) id n.
Proof.
  intros H1 H2. eapply emits_bind_with; [exact H1|]. intros o1 n1 _ n' b. unfold mbind, eff_bind.
  destruct (m2 n1) as [n2 [o2|e|]] eqn:E; [|done..]. intros [= <- <-]. exists o2. split; [done|]. by apply (H2 n1).
Qed.

Lemma emits_down now n : emits step_down_to_follower (λ _, []) n ∧ emits (arm_election_timer now) (λ _, []) n.
Proof.
  split; apply emits_modify; [by apply numbers_on_down|apply numbers_on_role].
  by destruct (election_timeout (n_rng n) (min_election_timeout (n_config n)) (max_election_timeout (n_config n))).
Qed.

Lemma emits_observe_term t now n : emits (observe_term t now) (λ _, []) n.
Proof.
  unfold observe_term. apply emits_bind; [apply emits_gets|]. intros h n1 _. destruct (_ <? _); [|by apply emits_ret].
  apply emits_bind; [apply emits_modify; by apply numbers_on_role|]. intros _ n2 _.
  apply emits_bind; [apply (emits_down now)|]. intros _ n3 _. apply emits_bind; [apply emits_modify; by apply numbers_on_role|]. intros _ n4 _.
  apply emits_bind; [apply emits_on_log|]. intros _ n5 _. apply emits_bind; [apply emits_down|]. intros _ n6 _. by apply emits_ret.
Qed.

Lemma make_plans_numbers targets st plans st' :
  make_plans targets st = (plans, st') →
  ls_ae_seq st' = u64_wrap (ls_ae_seq st + N.of_nat (length plans)) ∧
  ∀ i p, plans !! i = Some p → p.2 = u64_wrap (ls_ae_seq st + N.of_nat i + 1).
Proof.
  revert st plans. induction targets as [|t targets IH]; intros st plans; cbn [make_plans].
  { intros [= <- <-]. cbn. by rewrite u64_wrap_self. }
  destruct (make_plans targets _) as [plans1 st1] eqn:Hp. intros [= <- <-]. destruct (IH _ _ Hp) as [Hq Hi]. cbn [ls_ae_seq set_ae_seq] in *.
  unfold wrapping_add in *. change (u64_val u64_1) with 1 in *. split.
  - rewrite Hq, u64_wrap_plus. cbn [length]. f_equal. lia.
  - intros [|i] p; cbn [lookup list_lookup].
    + intros [= <-]. cbn. f_equal. lia.
    + intros Hl. rewrite (Hi i p Hl), <-N.add_assoc, u64_wrap_plus. f_equal. lia.
Qed.

(** What is built for a plan carries its number, if it carries one. *)
Definition carries (seq : u64) (o : Outbound) : Prop := match o with OutAppendEntries _ r => ae_seq r = seq | _ => True end.

Lemma append_entries_for_numbers peer next seq n n' o :
  append_entries_for peer next seq n = (n', Ok o) → n_role n' = n_role n ∧ carries seq o.
Proof.
  unfold append_entries_for, term_at, on_log, zoom, mbind, eff_bind, gets. destruct (_ <=? _).
  - destruct (st_snapshot (n_log n)) as [l [[[m d]|]|e|]]; cbn; [|done..]. by intros [= <- <-].
  - destruct (decide (LogIndex_prev next = LogIndex_ZERO)) as [Hz|Hz]; cbn.
    + destruct (st_entries_from next (n_log n)) as [l [es|e|]]; cbn; [|done..]. by intros [= <- <-].
    + destruct (st_get (LogIndex_prev next) (n_log n)) as [l [[x|]|x|]]; cbn; [| |done..];
        destruct (st_entries_from next l) as [l2 [es|y|]]; cbn; try done; by intros [= <- <-].
Qed.

Lemma send_plans_numbers (plans : list (NodeId * LogIndex * u64)) n n' outs :
  mapM (λ '(peer, next, seq), append_entries_for peer next seq) plans n = (n', Ok outs) →
  n_role n' = n_role n ∧ Forall2 (λ p o, carries p.2 o) plans outs.
Proof.
  revert n outs. induction plans as [|[[peer next] seq] plans IH]; intros n outs; cbn [mapM].
  { intros [= <- <-]. by split. }
  unfold mbind, eff_bind. destruct (append_entries_for peer next seq n) as [n1 [o|e|]] eqn:Ho; [|done..].
  match goal with |- context [mapM ?f plans n1] => destruct (mapM f plans n1) as [n2 [os|e|]] eqn:Hos; [|done..] end. intros [= <- <-].
  destruct (append_entries_for_numbers _ _ _ _ _ _ Ho) as [Hr1 Hc], (IH _ _ Hos) as [Hr2 Hf]. split; [by rewrite Hr2|by constructor].
Qed.

Lemma plans_numbers_on n n' st st' (plans : list (NodeId * LogIndex * u64)) outs :
  n_role n = Leader st → n_role n' = Leader st' → ls_ae_seq st' = u64_wrap (ls_ae_seq st + N.of_nat (length plans)) →
  (∀ i p, plans !! i = Some p → p.2 = u64_wrap (ls_ae_seq st + N.of_nat i + 1)) →
  Forall2 (λ p o, carries p.2 o) plans outs → numbers_on n outs n'.
Proof.
  intros Hr Hr' Hq Hi Hf. unfold numbers_on. rewrite Hr, Hr'. split.
  - intros i to r Ho. destruct (Forall2_lookup_r _ _ _ _ _ Hf Ho) as (p & Hp & Hc). cbn in Hc. rewrite Hc. by apply Hi.
  - intros ? [= <-]. by rewrite Hq, (Forall2_length _ _ _ Hf).
Qed.

Lemma emits_replicate_all n : emits replicate_all id n.
Proof.
  intros n' outs. unfold replicate_all, mbind, eff_bind, gets, id, modify. destruct (n_role n) as [| |st] eqn:Hr.
  1,2: intros [= <- <-]; apply numbers_on_role; done.
  destruct (make_plans (replication_targets n) st) as [plans st'] eqn:Hp. intros Ho.
  destruct (make_plans_numbers _ _ _ _ Hp) as [Hq Hi], (send_plans_numbers _ _ _ _ Ho) as [Hr' Hf].
  exact (plans_numbers_on n n' st st' plans outs Hr Hr' Hq Hi Hf).
Qed.

Lemma emits_replicate_to peer n : emits (replicate_to peer) id n.
Proof.
  intros n' outs. unfold replicate_to, mbind, eff_bind, gets, modify. destruct (n_role n) as [| |st] eqn:Hr.
  1,2: intros [= <- <-]; apply numbers_on_role; done.
  set (seq := wrapping_add (ls_ae_seq st) u64_1). destruct (append_entries_for peer _ seq _) as [n1 [o|e|]] eqn:Ho; [|done..].
  intros [= <- <-]. destruct (append_entries_for_numbers _ _ _ _ _ _ Ho) as [Hr' Hc].
  eapply (plans_numbers_on n n1 st _ [(peer, u64_0, seq)]); [done|exact Hr'| | |by repeat constructor].
  - cbn. unfold seq, wrapping_add. by change (u64_val u64_1) with 1.
  - intros [|i] p; [|done]. intros [= <-]. cbn. unfold seq, wrapping_add. change (u64_val u64_1) with 1. f_equal. lia.
Qed.

Lemma emits_refresh n : emits refresh_leader_state (λ _, []) n.
Proof.
  unfold refresh_leader_state. apply emits_bind; [apply emits_gets|]. intros targets n1 _. apply emits_bind; [apply emits_on_log|]. intros last n2 _.
  apply emits_bind; [apply emits_gets|]. intros r n3 [= <- <-]. destruct (n_role n2) as [| |st] eqn:Hr; [by apply emits_ret..|].
  apply emits_modify. by eapply numbers_on_state.
Qed.

Lemma emits_commit_scan fuel i st n : emits (commit_scan fuel i st) (λ _, []) n.
Proof.
  revert i n. induction fuel as [|fuel IH]; intros i n; cbn [commit_scan]; [apply emits_halt|].
  apply emits_bind; [apply emits_gets|]. intros m n1 _. destruct (_ <? _); [|by apply emits_ret]. destruct (has_quorum _ _); [|apply IH].
  apply emits_bind; [apply emits_on_log|]. intros e n2 _. case_decide; [by apply emits_ret|apply IH].
Qed.

Lemma emits_append_config advance config now n :
  (∀ n, emits (advance now) id n) → emits (append_config_entry_with advance config now) id n.
Proof.
  intros Ha. unfold append_config_entry_with. apply emits_bind; [apply emits_on_log|]. intros last n1 _.
  apply emits_bind; [apply emits_gets|]. intros h n2 _. apply emits_bind; [apply emits_on_log|]. intros _ n3 _.
  apply emits_bind; [apply emits_modify; by apply numbers_on_role|]. intros _ n4 _. apply emits_bind; [apply emits_refresh|]. intros _ n5 _.
  apply emits_both; [apply Ha|apply emits_replicate_all].
Qed.

Lemma emits_advance fuel now n : emits (advance_commit_index_fuel fuel now) id n.
Proof.
  revert n. induction fuel as [|fuel IH]; intros n; cbn [advance_commit_index_fuel]; [apply emits_halt|].
  apply emits_bind; [apply emits_on_log|]. intros last n1 _. apply emits_bind; [apply emits_gets|]. intros m n2 _.
  destruct (n_role m); [by apply emits_ret..|]. apply emits_bind; [apply emits_commit_scan|]. intros i n3 _.
  case_decide; [by apply emits_ret|]. apply emits_bind; [apply emits_modify; by apply numbers_on_role|]. intros _ n4 _.
  unfold after_commit_config_actions_with. apply emits_bind; [apply emits_gets|]. intros k n5 _.
  destruct (negb (is_leader k)); [by apply emits_ret|]. destruct (_ <? _); [by apply emits_ret|].
  destruct (is_joint _); [by apply emits_append_config|]. case_bool_decide; [by apply emits_ret|].
  apply emits_bind; [apply (emits_down now)|]. intros _ n6 _. apply emits_bind; [apply emits_modify; by apply numbers_on_role|]. intros _ n7 _.
  apply emits_bind; [apply emits_down|]. intros _ n8 _. by apply emits_ret.
Qed.

Lemma emits_advance_and_replicate from now n : emits (advance_and_replicate from now) id n.
Proof.
  unfold advance_and_replicate. eapply emits_bind_with; [apply emits_advance|]. intros outs n1 _ n' b. unfold mbind at 1, eff_bind at 1.
  destruct (peer_is_behind from n1) as [n2 [behind|e|]] eqn:Hb; [|done..].
  assert (numbers_on n1 [] n2) as H12.
  { revert Hb. unfold peer_is_behind, mbind, eff_bind, gets, on_log, zoom. destruct (n_role n1); [intros [= <- _]; by apply numbers_on_role..|].
    destruct (st_last_index (n_log n1)) as [l [x|e|]]; [|done..]. intros [= <- _]. by apply numbers_on_role. }
  destruct behind.
  - unfold mbind, eff_bind. destruct (replicate_to from n2) as [n3 [o|e|]] eqn:Ho; [|done..]. intros [= <- <-]. exists o.
    split; [done|]. eapply (numbers_on_trans _ []); [done|]. by apply emits_replicate_to in Ho.
  - intros [= <- <-]. exists []. split; [by rewrite app_nil_r|done].
Qed.

(** Through a method that sends nothing itself. *)
Ltac emit_step :=
  first
    [ done
    | apply emits_throw
    | apply emits_halt
    | by apply emits_ret
    | apply emits_gets
    | apply emits_on_log
    | apply emits_observe_term
    | apply (emits_down 0)
    | apply emits_down
    | apply emits_modify; apply numbers_on_role; done
    | apply emits_bind; [|intros ? ? _]
    | case_match ].

Lemma emits_term_at i n : emits (term_at i) (λ _, []) n.
Proof. unfold term_at. repeat emit_step. Qed.

Lemma emits_log_matches i t n : emits (log_matches i t) (λ _, []) n.
Proof. unfold log_matches. repeat first [apply emits_term_at|emit_step]. Qed.

Lemma emits_conflict_hint i n : emits (conflict_hint i) (λ _, []) n.
Proof.
  assert (∀ fuel t first n, emits (conflict_scan fuel t first) (λ _, []) n) as Hscan.
  { induction fuel as [|fuel IH]; intros t first m; cbn [conflict_scan]; [apply emits_halt|]. repeat first [apply IH|emit_step]. }
  unfold conflict_hint. repeat first [apply Hscan|emit_step].
Qed.

Lemma emits_append_new_entries es n : emits (append_new_entries es) (λ _, []) n.
Proof.
  assert (∀ i es n, emits (append_new_entries_from i es) (λ _, []) n) as Hfrom.
  { intros i. induction es0 as [|e es0 IH]; intros m; cbn [append_new_entries_from]; [by apply emits_ret|].
    unfold note_appended_configs. repeat first [apply IH|emit_step]. }
  unfold append_new_entries. apply emits_bind; [apply emits_gets|]. intros i n1 _. apply Hfrom.
Qed.

Lemma emits_handle_append_entries r now n : emits (handle_append_entries r now) (λ _, []) n.
Proof.
  unfold handle_append_entries.
  repeat first [apply emits_log_matches|apply emits_conflict_hint|apply emits_append_new_entries|emit_step].
Qed.

Lemma emits_handle_install_snapshot r now n : emits (handle_install_snapshot r now) (λ _, []) n.
Proof. unfold handle_install_snapshot. repeat emit_step. Qed.

Lemma emits_compact data n : emits (compact data) (λ _, []) n.
Proof. unfold compact. repeat first [apply emits_term_at|emit_step]. Qed.

(** A term that is not higher changes nothing. *)
Lemma observe_term_stays t now n n' : observe_term t now n = (n', Ok false) → n' = n.
Proof.
  unfold observe_term, mbind, eff_bind, gets, on_log, zoom, step_down_to_follower, arm_election_timer, modify.
  destruct (_ <? _); [|by intros [= <-]]. cbv beta iota zeta.
  match goal with |- context [st_save_hard_state ?h ?l] => destruct (st_save_hard_state h l) as [l' [[]|e|]] end; cbn; by intros [=].
Qed.

Lemma emits_note f n :
  (∀ st, n_role n = Leader st → ∃ st', n_role (f n) = Leader st' ∧ ls_ae_seq st' = ls_ae_seq st) →
  (is_leader n = false → f n = n) → emits (modify f) (λ _, []) n.
Proof.
  intros Hl Hn. apply emits_modify. unfold is_leader in Hn. destruct (n_role n) as [| |st] eqn:Hr.
  1,2: rewrite Hn by done; by apply numbers_on_role.
  destruct (Hl st eq_refl) as (st' & Hr' & Hs). by eapply numbers_on_state.
Qed.

Lemma emits_record_match p i n : emits (record_match p i) (λ _, []) n.
Proof.
  apply emits_note; [intros st Hr; rewrite Hr; by eexists|]. unfold is_leader. by destruct (n_role n).
Qed.

Lemma emits_back_off p i n : emits (back_off p i) (λ _, []) n.
Proof.
  apply emits_note; [intros st Hr; rewrite Hr; by eexists|]. unfold is_leader. by destruct (n_role n).
Qed.

Lemma emits_note_ack from seq n : emits (note_leadership_ack from seq) (λ _, []) n.
Proof.
  apply emits_note; [|unfold is_leader; by destruct (n_role n)]. intros st Hr. rewrite Hr.
  destruct (credit_reads _ _ _ _). by eexists.
Qed.

Lemma emits_handle_append_response from r now n : emits (handle_append_entries_response from r now) id n.
Proof.
  unfold handle_append_entries_response. apply emits_bind; [apply emits_observe_term|]. intros stepped n1 _.
  destruct stepped; [by apply emits_ret|]. apply emits_bind; [apply emits_gets|]. intros m n2 _. destruct (_ || _); [by apply emits_ret|].
  apply emits_bind; [apply emits_note_ack|]. intros _ n3 _. destruct (aer_success r); (apply emits_bind; [|intros _ n4 _]).
  - apply emits_record_match.
  - apply emits_advance_and_replicate.
  - apply emits_back_off.
  - apply emits_replicate_to.
Qed.

Lemma emits_handle_install_response from r now n : emits (handle_install_snapshot_response from r now) id n.
Proof.
  unfold handle_install_snapshot_response. apply emits_bind; [apply emits_observe_term|]. intros stepped n1 _.
  destruct stepped; [by apply emits_ret|]. apply emits_bind; [apply emits_gets|]. intros m n2 _. destruct (_ || _); [by apply emits_ret|].
  destruct (n_snapshot m); [|by apply emits_ret]. apply emits_bind; [apply emits_record_match|]. intros _ n3 _.
  apply emits_advance_and_replicate.
Qed.

Lemma emits_propose command now n : emits (propose command now) id n.
Proof.
  unfold propose. apply emits_bind; [apply emits_gets|]. intros m n1 _. destruct (negb _); [apply emits_throw|].
  apply emits_bind; [apply emits_on_log|]. intros last n2 _. apply emits_bind; [apply emits_on_log|]. intros _ n3 _.
  apply emits_both; [apply emits_advance|apply emits_replicate_all].
Qed.

Lemma emits_append_config_entry config now n : emits (append_config_entry config now) id n.
Proof. apply emits_append_config. intros m. apply emits_advance. Qed.

(** A read is registered under the next number. *)
Lemma emits_start_read now n : emits (start_read now) snd n.
Proof.
  intros n' [rid outs]. unfold start_read, mbind at 1, eff_bind at 1, gets. destruct (negb _); [done|].
  unfold mbind at 1, eff_bind at 1, modify at 1. cbn [id]. destruct (n_role n) as [| |st] eqn:Hr; [done..|].
  destruct (has_quorum _ _).
  { intros [= <- <- <-]. by apply numbers_on_role. }
  unfold mbind at 1, eff_bind at 1, modify. set (st1 := set_pending_reads _ st). unfold mbind, eff_bind.
  match goal with |- context [replicate_all ?m] => destruct (replicate_all m) as [n2 [o|e|]] eqn:Ho; [|done..];
    assert (numbers_on n [] m) as H1 by (by eapply numbers_on_state) end.
  intros [= <- <- <-]. eapply (numbers_on_trans _ []); [done|]. by apply emits_replicate_all in Ho.
Qed.

(** Every call of a leader. *)
Lemma leader_call_numbers c now n st n' outs rep :
  n_role n = Leader st → node_call c now n = (n', Ok (outs, rep)) → numbers_on n outs n'.
Proof.
  intros Hr. assert (is_leader n = true) as Hlead by (unfold is_leader; by rewrite Hr).
  assert (∀ B (m : eff _ RaftError B) (g : B → list Outbound) (h : B → list Outbound * option Reply),
    emits m g n → (∀ b, (h b).1 = g b) → (b ← m; mret (h b)) n = (n', Ok (outs, rep)) → numbers_on n outs n') as Hgo.
  { intros B m g h Hm Hh. unfold mbind, eff_bind. destruct (m n) as [n1 [b|e|]] eqn:E; [|done..]. intros [= <- Hb].
    specialize (Hh b). rewrite Hb in Hh. cbn in Hh. rewrite Hh. by apply Hm. }
  destruct c as [|r|from r|r|from r|r|from r|data|command| | |vs|p]; cbn [node_call].
  - apply (Hgo _ _ id); [|done]. unfold tick. intros n2 o. unfold mbind at 1, eff_bind at 1, gets. cbn [id]. rewrite Hlead.
    destruct (_ <=? _); [|intros [= <- <-]; by apply numbers_on_role]. revert n2 o. apply emits_bind; [by emit_step|]. intros _ n2 _.
    apply emits_replicate_all.
  - apply (Hgo _ _ (λ _, [])); [|done]. intros n2 o. unfold handle_request_vote, mbind at 1, eff_bind at 1, gets, leader_is_current.
    cbn [id]. rewrite Hlead. intros [= <- <-]. by apply numbers_on_role.
  - apply (Hgo _ _ id); [|done]. unfold handle_request_vote_response. intros n2 o. unfold mbind at 1, eff_bind at 1.
    destruct (observe_term (rvr_term r) now n) as [n1 [[]|e|]] eqn:Ho; [|pose proof (observe_term_stays _ _ _ _ Ho) as ->|done..].
    + intros [= <- <-]. exact (emits_observe_term _ _ _ _ _ Ho).
    + unfold mbind, eff_bind, gets, id. rewrite Hr. destruct (negb _); intros [= <- <-]; by apply numbers_on_role.
  - apply (Hgo _ _ (λ _, [])); [apply emits_handle_append_entries|done].
  - apply (Hgo _ _ id); [apply emits_handle_append_response|done].
  - apply (Hgo _ _ (λ _, [])); [apply emits_handle_install_snapshot|done].
  - apply (Hgo _ _ id); [apply emits_handle_install_response|done].
  - apply (Hgo _ _ (λ _, [])); [apply emits_compact|done].
  - apply (Hgo _ _ id); [apply emits_propose|done].
  - apply (Hgo _ _ snd); [apply emits_start_read|done].
  - apply (Hgo _ _ (λ _, [])); [|done]. unfold drain_read_results. repeat emit_step.
  - apply (Hgo _ _ id); [|done]. unfold propose_conf_change. repeat first [apply emits_append_config_entry|emit_step].
  - apply (Hgo _ _ id); [|done]. unfold propose_add_learner. repeat first [apply emits_append_config_entry|emit_step].
Qed.

End stamps.

(** The errors the event loop survives: those it reports to a client, and a
    snapshot request it does not support. *)
Definition survives (c : Call) (e : RaftError) : bool :=
  match c, e with
  | (CCompact _ | CPropose _ | CStartRead | CConfChange _ | CAddLearner _), _ => true
  | CInstallSnapshot _, Snapshot _ => true
  | _, _ => false
  end.

(** ** What a call guarantees, whichever it is *)

Section call_spec.
Context {L : Type} `{RaftStoreSpec L} `{!Bootstrap}.
Implicit Types n : RaftNode L.

(** Requests a peer may deliver, and counters that are not exhausted. *)
Definition call_ok (c : Call) n : Prop :=
  room 2 n ∧ node_term n < u64_max ∧
  match c with
  | CAppendEntries r => ae_wf r
  | CInstallSnapshot r => is_wf r
  | CPropose command => command_ok command
  | _ => True
  end.

(** How a node may have come to hold an office it did not hold before. *)
Definition office (c : Call) n n' : Prop :=
  quiet n n' ∨ campaigned n n' ∨
  ∃ from r, c = CVoteResponse from r ∧ counted n from r n'.

(** The log of a node that still leads lost nothing but what a snapshot covers. *)
Definition append_only n n' : Prop :=
  is_leader n' = true → ∀ i e, v_entries (view n) !! i = Some e →
    v_entries (view n') !! i = Some e ∨ i ≤ view_snap_index (view n').

(** What the commit index needs of a request: the sender's commit index covered by
    its entries, and no conflict with what is committed here. *)
Definition commit_safe (c : Call) n : Prop :=
  match c with CAppendEntries r => ae_commit_wf r ∧ respects_commit n r | _ => True end.

Record call_post (c : Call) n (out : list Outbound * option Reply) n' : Prop := {
  cp_inv : node_inv n';
  cp_id : n_id n' = n_id n;
  cp_hard : hard_le (n_hard n) (n_hard n');
  cp_office : office c n n';
  cp_append_only : append_only n n';
  cp_commit : commit_safe c n → commit_ok n →
    commit_ok n' ∧ u64_val (n_commit_index n) ≤ n_commit_index n';
  cp_outs : Forall (out_ok (n_id n) (node_term n') (commit_ok n)) out.1;
  cp_vote resp : out.2 = Some (RepVote resp) → ∃ r, c = CRequestVote r ∧
    (rvr_vote_granted resp = true →
       v_hard (view n') = mkHardState (rvr_term resp) (Some (rv_candidate_id r)))
}.

Lemma stepped_call c n outs n' :
  stepped n outs n' → office c n n' → call_post c n (outs, None) n'.
Proof.
  intros [Hn' [] [] _ Ho] Hoff. split; [done..| |auto|done|done]. intros _ i e He. auto.
Qed.

Lemma run_call c n outs n' : leader_run n outs n' → call_post c n (outs, None) n'.
Proof.
  intros Hrun. apply stepped_call; [by apply leader_run_stepped|]. left. apply Hrun.
Qed.

Lemma kept_call c n n' rep :
  kept n n' → append_only n n' → (∀ resp, rep ≠ Some (RepVote resp)) → call_post c n ([], rep) n'.
Proof.
  intros [Hn' [] Hq] Ha Hrep.
  split; simpl; [done..|by left|done|auto|constructor|]. intros resp ->. by destruct (Hrep resp).
Qed.

Lemma log_kept_append_only n n' : log_kept n n' → append_only n n'.
Proof. intros (He & _) _ i e. rewrite He. auto. Qed.

Lemma install_append_only n r n' : install_outcome n r n' → append_only n n'.
Proof.
  intros [_ ->|_ Hr _ _|basis _ Hr _ _ _ _ _ _]; [by left|..]; intros Hl; unfold is_leader in Hl;
    by rewrite Hr in Hl.
Qed.

Lemma compact_append_only n data meta n' : compacted n data meta n' → append_only n n'.
Proof.
  intros [_ _ _ _ _ Hv _ _] _ i e He. rewrite Hv.
  change (view_snap_index (view_compact meta data (view n))) with (u64_val (last_included_index meta)).
  destruct (decide (i ≤ last_included_index meta)); [by right|left]. simpl.
  apply map_lookup_filter_Some. simpl. split; [done|lia].
Qed.

Lemma append_call c n r resp n' :
  c = CAppendEntries r → append_post n r resp n' → call_post c n ([], Some (RepAppend resp)) n'.
Proof.
  intros -> [Hn' Hid _ Hh Hq Hout Hcm]. split; simpl; [done..|by left| | |constructor|done].
  - intros Hl. unfold is_leader in Hl. destruct Hout as [_ ->|? _ Hr _ _ _|? _ Hr]; [by left|..];
      by rewrite Hr in Hl.
  - intros [Hcw Hrc]. by apply Hcm.
Qed.

(** On failure: what is on disk is healthy, and where the loop goes on, so is the
    node. *)
Definition call_fails (c : Call) n (e : RaftError) n' : Prop :=
  failed n n' ∧ (survives c e = true → call_post c n ([], None) n').

Lemma fails_call c n e n' :
  fails n e n' → (∀ msg, survives c (Storage msg) = false) → call_fails c n e n'.
Proof. intros [Hf [msg ->]] Hs. split; [done|]. by rewrite Hs. Qed.

Lemma run_call_fails c n e n' : leader_run n [] n' → call_fails c n e n'.
Proof.
  intros Hrun. split; [|intros _; by apply run_call].
  apply (failed_ext n n'); [apply Hrun|]. apply inv_failed, Hrun.
Qed.

Lemma node_call_spec c now n :
  node_inv n → call_ok c n → wp (node_call c now) (call_post c n) (call_fails c n) n.
Proof.
  intros Hn (Hroom & Hterm & Hc). assert (room 1 n) as Hroom1 by (unfold room in *; lia).
  destruct c as [|r|from r|r|from r|r|from r|data|command| | |vs|id]; simpl; wp_step.
  - eapply wp_mono; [by apply tick_spec| |intros; by apply fails_call].
    intros outs n' [Hst Hq]. wp_step. apply stepped_call; [done|]. unfold office. tauto.
  - eapply wp_mono; [by apply handle_request_vote_spec| |intros; by apply fails_call].
    intros resp n' [Hk Hv]. wp_step. destruct Hk as [Hn' [] Hq].
    split; simpl; [done..|by left|by apply log_kept_append_only, Hv|auto|constructor|].
    intros resp' [= <-]. exists r. split; [done|]. intros Hg. destruct (v_granted _ _ _ _ Hv Hg) as (Ht & -> & _).
    rewrite (v_term _ _ _ _ Hv), <-Ht. done.
  - eapply wp_mono; [by apply handle_request_vote_response_spec| |intros; by apply fails_call].
    intros outs n' [Hst Hq]. wp_step. apply stepped_call; [done|]. unfold office. naive_solver.
  - eapply wp_mono; [by apply handle_append_entries_spec| |intros; by apply fails_call].
    intros resp n' Hp. wp_step. by apply (append_call _ n r).
  - eapply wp_mono; [by apply handle_append_entries_response_spec| |intros; by apply fails_call].
    intros outs n' (Hst & Hq & _). wp_step. apply stepped_call; [done|by left].
  - eapply wp_mono; [by apply handle_install_snapshot_spec| |].
    + intros resp n' (Hk & Hout & _). wp_step. apply kept_call; [done|by eapply install_append_only|done].
    + intros e n' [Hf [?|(_ & Hk & Hlk & _)]]; [by apply fails_call|]. split; [done|]. intros _.
      apply kept_call; [done|by apply log_kept_append_only|done].
  - eapply wp_mono; [by apply handle_install_snapshot_response_spec| |intros; by apply fails_call].
    intros outs n' (Hst & Hq & _). wp_step. apply stepped_call; [done|by left].
  - eapply wp_mono; [by apply compact_spec| |].
    + intros meta n' (Hk & _ & Hcp). wp_step. apply kept_call; [done|by eapply compact_append_only|done].
    + intros e n' [Hs _]. apply run_call_fails, still_run; [by apply same_leader_post|by apply same_commit|constructor].
  - eapply wp_mono; [by apply propose_spec| |].
    + intros outs n' (_ & Hrun & _). wp_step. by apply run_call.
    + intros e n' [Hrun _]. by apply run_call_fails.
  - eapply wp_mono; [by apply start_read_spec| |].
    + intros [id outs] n' (Hrun & _). wp_step. by apply run_call.
    + intros e n' [Hrun _]. by apply run_call_fails.
  - unfold drain_read_results. do 6 wp_step.
    assert (volatile n (set_read_results [] n)) as Hv by (unfold volatile; simpl; auto 10).
    apply kept_call; [by apply volatile_kept|by apply log_kept_append_only, volatile_log_kept|done].
  - eapply wp_mono; [by apply propose_conf_change_spec| |].
    + intros outs n' (_ & _ & _ & Hrun & _). wp_step. by apply run_call.
    + intros e n' [Hrun _]. by apply run_call_fails.
  - eapply wp_mono; [by apply propose_add_learner_spec| |].
    + intros outs n' (_ & _ & _ & Hrun & _). wp_step. by apply run_call.
    + intros e n' [Hrun _]. by apply run_call_fails.
Qed.

End call_spec.

(** ** The cluster *)

Inductive Message : Type :=
| MVote (r : RequestVote)
| MAppend (r : AppendEntries)
| MSnapshot (r : InstallSnapshot)
| MReply (r : Reply).

Record Envelope : Type := mkEnvelope {
  env_src : NodeId;
  env_dst : NodeId;
  env_msg : Message
}.

Definition envelope_of (src : NodeId) (o : Outbound) : Envelope :=
  match o with
  | OutRequestVote to r => mkEnvelope src to (MVote r)
  | OutAppendEntries to r => mkEnvelope src to (MAppend r)
  | OutInstallSnapshot to r => mkEnvelope src to (MSnapshot r)
  end.

Inductive Server (L : Type) : Type :=
| Up (n : RaftNode L)
| Down (l : L).

Arguments Up {L} n.
Arguments Down {L} l.

Record Ballot : Type := mkBallot {
  b_voter : NodeId;
  b_term : Term;
  b_candidate : NodeId
}.

Record Win : Type := mkWin {
  win_term : Term;
  win_leader : NodeId;
  win_config : ClusterConfig
}.

(** [ballots] and [wins] are history: every vote that became durable, every
    office that was taken and the configuration it was taken under. *)
Record Cluster (L : Type) : Type := mkCluster {
  servers : gmap NodeId (Server L);
  net : list Envelope;
  ballots : list Ballot;
  wins : list Win
}.

Arguments mkCluster {L}.
Arguments servers {L}.
Arguments net {L}.
Arguments ballots {L}.
Arguments wins {L}.

(** The snapshots a server may be asked to take of its committed prefix. *)
Class Compaction (L : Type) : Type := compactable : RaftNode L → bytes → Prop.

Section cluster.
Context {L : Type} `{RaftStoreSpec L} `{!Compaction L}.
(** The configuration each server was first started with. *)
Context (boots : NodeId → Bootstrap).

Implicit Types (n : RaftNode L) (s : Cluster L).

Definition disk (srv : Server L) : LogView :=
  match srv with Up n => store_view (n_log n) | Down l => store_view l end.

(** The message a call consumes, when it consumes one; a client's command is not
    too long, a snapshot is one the server may take. *)
Definition enabled s (id src : NodeId) (c : Call) : Prop :=
  match c with
  | CRequestVote r => mkEnvelope src id (MVote r) ∈ net s
  | CAppendEntries r => mkEnvelope src id (MAppend r) ∈ net s
  | CInstallSnapshot r => mkEnvelope src id (MSnapshot r) ∈ net s
  | CVoteResponse from r => mkEnvelope from id (MReply (RepVote r)) ∈ net s
  | CAppendResponse from r => mkEnvelope from id (MReply (RepAppend r)) ∈ net s
  | CInstallResponse from r => mkEnvelope from id (MReply (RepSnapshot r)) ∈ net s
  | CCompact data => ∃ n, servers s !! id = Some (Up n) ∧ compactable n data
  | CPropose command => command_ok command
  | _ => True
  end.

Definition reply_to (id src : NodeId) (rep : option Reply) : list Envelope :=
  match rep with Some r => [mkEnvelope id src (MReply r)] | None => [] end.

(** The ballot a server's disk shows, and the office a call took. *)
Definition ballot_of (id : NodeId) (h : HardState) : list Ballot :=
  match voted_for h with Some c => [mkBallot id (current_term h) c] | None => [] end.

Definition win_of n n' : list Win :=
  if is_leader n' && negb (is_leader n && bool_decide (node_term n = node_term n'))
  then [mkWin (node_term n') (n_id n') (active_config n)] else [].

(** Index and term counters below the end of their range. *)
Definition unexhausted n : Prop := room 2 n ∧ node_term n < u64_max.

Definition put s (id : NodeId) (srv : Server L) (envs : list Envelope) (ws : list Win) : Cluster L :=
  mkCluster (<[id := srv]> (servers s)) (net s ++ envs)
    (ballots s ++ ballot_of id (v_hard (disk srv))) (wins s ++ ws).

Inductive step s : Cluster L → Prop :=
| step_call id src n c now n' outs rep :
    servers s !! id = Some (Up n) → enabled s id src c → unexhausted n →
    node_call c now n = (n', Ok (outs, rep)) →
    step s (put s id (Up n') ((envelope_of id <$> outs) ++ reply_to id src rep) (win_of n n'))
| step_refused id src n c now n' e :
    servers s !! id = Some (Up n) → enabled s id src c → unexhausted n →
    node_call c now n = (n', Err e) → survives c e = true →
    step s (put s id (Up n') [] (win_of n n'))
| step_stopped id src n c now n' e :
    servers s !! id = Some (Up n) → enabled s id src c → unexhausted n →
    node_call c now n = (n', Err e) →
    step s (put s id (Down (n_log n')) [] [])
| step_crash id n :
    servers s !! id = Some (Up n) →
    step s (put s id (Down (n_log n)) [] [])
| step_restart id l rng config now l' n :
    servers s !! id = Some (Down l) →
    with_bootstrap id (@boot (boots id)) l rng config now = (l', Ok n) →
    step s (put s id (Up n) [] [])
| step_restart_failed id l rng config now l' e :
    servers s !! id = Some (Down l) →
    with_bootstrap id (@boot (boots id)) l rng config now = (l', Err e) →
    step s (put s id (Down l') [] []).

(** Servers with blank disks, and nothing sent. *)
Definition initial s : Prop :=
  net s = [] ∧ ballots s = [] ∧ wins s = [] ∧
  ∀ id srv, servers s !! id = Some srv → ∃ l, srv = Down l ∧ store_ok l ∧ store_view l = view_empty.

Inductive reachable : Cluster L → Prop :=
| reachable_initial s : initial s → reachable s
| reachable_step s s' : reachable s → step s s' → reachable s'.

Lemma reachable_later s s' : reachable s → rtc step s s' → reachable s'.
Proof. intros Hs. induction 1; [done|]. eauto using reachable_step. Qed.

(** ** The invariant *)

Definition server_ok (id : NodeId) (srv : Server L) : Prop :=
  match srv with
  | Up n => n_id n = id ∧ @node_inv L _ _ (boots id) n
  | Down l => store_ok l ∧ durable_ok (store_view l)
  end.

Definition envelope_ok s (e : Envelope) : Prop :=
  match env_msg e with
  | MVote r => rv_candidate_id r = env_src e
  | MAppend r => ae_wf r
  | MSnapshot r => is_wf r
  | MReply (RepVote r) =>
      rvr_vote_granted r = true → mkBallot (env_src e) (rvr_term r) (env_dst e) ∈ ballots s
  | MReply _ => True
  end.

(** A ballot is for a term its voter has left behind, or is the vote on its disk. *)
Definition ballot_ok s (b : Ballot) : Prop :=
  ∃ srv, servers s !! b_voter b = Some srv ∧
    let h := v_hard (disk srv) in
    u64_val (b_term b) < current_term h ∨
    b_term b = current_term h ∧ voted_for h = Some (b_candidate b).

Definition votes_ok s (id : NodeId) n : Prop :=
  match n_role n with
  | Candidate votes => ∀ v, v ∈ votes → mkBallot v (node_term n) id ∈ ballots s
  | _ => True
  end.

Definition win_ok s (w : Win) : Prop :=
  ∃ Q, has_quorum (win_config w) Q = true ∧
    ∀ v, v ∈ Q → mkBallot v (win_term w) (win_leader w) ∈ ballots s.

Record cluster_inv s : Prop := {
  ci_servers id srv : servers s !! id = Some srv → server_ok id srv;
  ci_net e : e ∈ net s → envelope_ok s e;
  ci_ballots b : b ∈ ballots s → ballot_ok s b;
  ci_unique v t c c' : mkBallot v t c ∈ ballots s → mkBallot v t c' ∈ ballots s → c = c';
  ci_votes id n : servers s !! id = Some (Up n) → votes_ok s id n;
  ci_wins w : w ∈ wins s → win_ok s w;
  ci_leaders id n : servers s !! id = Some (Up n) → is_leader n = true →
    ∃ cfg, mkWin (node_term n) id cfg ∈ wins s
}.

Lemma ballot_of_elem id h b : b ∈ ballot_of id h ↔ b_voter b = id ∧ b_term b = current_term h ∧ voted_for h = Some (b_candidate b).
Proof.
  unfold ballot_of. destruct b as [v t c], (voted_for h) as [c'|]; simpl;
    rewrite ?list_elem_of_singleton, ?elem_of_nil; naive_solver.
Qed.

(** A durable promise outlives every later state of the disk. *)
Lemma ballot_mono h h' (t : Term) c :
  hard_le h h' →
  u64_val t < current_term h ∨ t = current_term h ∧ voted_for h = Some c →
  u64_val t < current_term h' ∨ t = current_term h' ∧ voted_for h' = Some c.
Proof.
  intros [Hlt|[Heq Hv]] [?|[-> Hc]]; [left; lia|left; lia|left; by rewrite <-Heq|right].
  split; [done|]. destruct Hv; congruence.
Qed.

Lemma ballots_put s id srv0 srv envs ws b :
  cluster_inv s → servers s !! id = Some srv0 →
  hard_le (v_hard (disk srv0)) (v_hard (disk srv)) →
  b ∈ ballots (put s id srv envs ws) → ballot_ok (put s id srv envs ws) b.
Proof.
  intros Hinv Hid Hle [Hb|Hb]%elem_of_app; unfold ballot_ok; simpl.
  - destruct (ci_ballots _ Hinv b Hb) as (srv' & Hv & Hold). destruct (decide (b_voter b = id)) as [Heq|Hne].
    + rewrite Heq in *. exists srv. rewrite lookup_insert_eq. split; [done|]. assert (srv' = srv0) as -> by congruence.
      by eapply ballot_mono.
    + exists srv'. by rewrite lookup_insert_ne by done.
  - apply ballot_of_elem in Hb as (-> & Ht & Hc). exists srv. rewrite lookup_insert_eq. auto.
Qed.

Lemma unique_put s id srv0 srv envs ws v t c c' :
  cluster_inv s → servers s !! id = Some srv0 →
  hard_le (v_hard (disk srv0)) (v_hard (disk srv)) →
  mkBallot v t c ∈ ballots (put s id srv envs ws) → mkBallot v t c' ∈ ballots (put s id srv envs ws) →
  c = c'.
Proof.
  intros Hinv Hid Hle.
  enough (∀ a a', mkBallot v t a ∈ ballots s → mkBallot v t a' ∈ ballot_of id (v_hard (disk srv)) → a = a') as Hmix.
  { intros [H1|H1]%elem_of_app [H2|H2]%elem_of_app.
    - by eapply ci_unique.
    - by apply Hmix.
    - symmetry. by apply Hmix.
    - apply ballot_of_elem in H1 as (_ & _ & H1), H2 as (_ & _ & H2). simpl in *. congruence. }
  intros a a' Ha (Hv' & Ht & Ha')%ballot_of_elem. simpl in *. subst v.
  destruct (ci_ballots _ Hinv _ Ha) as (srv' & Hv & Hold). simpl in *.
  assert (srv' = srv0) as -> by congruence.
  destruct (ballot_mono _ _ _ _ Hle Hold) as [Hlt|[_ Hc]]; [rewrite Ht in Hlt; lia|congruence].
Qed.

(** Messages, votes and wins stay justified as ballots accumulate. *)
Lemma envelope_ok_mono s s' e : ballots s ⊆ ballots s' → envelope_ok s e → envelope_ok s' e.
Proof. unfold envelope_ok. intros Hsub. destruct (env_msg e) as [| | |[| |]]; auto. Qed.

Lemma votes_ok_mono s s' id n : ballots s ⊆ ballots s' → votes_ok s id n → votes_ok s' id n.
Proof. unfold votes_ok. intros Hsub. destruct (n_role n); auto. Qed.

Lemma win_ok_mono s s' w : ballots s ⊆ ballots s' → win_ok s w → win_ok s' w.
Proof. intros Hsub (Q & ? & ?). exists Q. auto. Qed.

Lemma put_inv s id srv0 srv envs ws :
  let s' := put s id srv envs ws in
  cluster_inv s → servers s !! id = Some srv0 →
  hard_le (v_hard (disk srv0)) (v_hard (disk srv)) → server_ok id srv →
  (∀ e, e ∈ envs → envelope_ok s' e) →
  (∀ n, srv = Up n → votes_ok s' id n ∧ (is_leader n = true → ∃ cfg, mkWin (node_term n) id cfg ∈ wins s')) →
  (∀ w, w ∈ ws → win_ok s' w) →
  cluster_inv s'.
Proof.
  intros s' Hinv Hid Hle Hsrv Henv Hup Hwin.
  assert (ballots s ⊆ ballots s') as Hsub by (simpl; set_solver). split.
  - intros id' srv'. simpl. intros [[<- <-]|[_ ?]]%lookup_insert_Some; [done|by apply (ci_servers _ Hinv)].
  - intros e [He|He]%elem_of_app; [|auto]. eapply envelope_ok_mono; [done|]. by apply (ci_net _ Hinv).
  - intros b. by apply (ballots_put s id srv0).
  - intros v t c c'. by apply (unique_put s id srv0).
  - intros id' n. simpl. intros [[<- ?]|[_ ?]]%lookup_insert_Some; [by apply Hup|].
    eapply votes_ok_mono; [done|]. by apply (ci_votes _ Hinv).
  - intros w [Hw|Hw]%elem_of_app; [|auto]. eapply win_ok_mono; [done|]. by apply (ci_wins _ Hinv).
  - intros id' n. simpl. intros [[<- ?]|[_ Hn]]%lookup_insert_Some Hl; [by apply Hup|].
    destruct (ci_leaders _ Hinv _ _ Hn Hl) as [cfg ?]. exists cfg. set_solver.
Qed.

Lemma current_ballot s id n envs ws c :
  @node_inv L _ _ (boots id) n → voted_for (n_hard n) = Some c →
  mkBallot id (node_term n) c ∈ ballots (put s id (Up n) envs ws).
Proof.
  intros Hn Hv. simpl. apply elem_of_app. right. apply ballot_of_elem. simpl.
  pose proof (i_hard _ Hn) as Hh. unfold view in Hh. by rewrite Hh.
Qed.

(** Every vote a candidate or winner counts is a ballot in its favour. *)
Lemma office_votes s id n c n' envs ws src :
  let s' := put s id (Up n') envs ws in
  cluster_inv s → servers s !! id = Some (Up n) → enabled s id src c →
  n_id n' = id → @node_inv L _ _ (boots id) n' → office c n n' →
  votes_ok s' id n' ∧ (∀ w, w ∈ win_of n n' → win_ok s' w).
Proof.
  intros s' Hinv Hid Hen Hid' Hn' Hoff.
  destruct (ci_servers _ Hinv _ _ Hid) as [Hnid Hn].
  assert (ballots s ⊆ ballots s') as Hsub by (simpl; set_solver).
  pose proof (ci_votes _ Hinv _ _ Hid) as Hvotes.
  destruct Hoff as [[Hqc Hql]|[(Hterm & Hself & _ & Hcamp)|(from & r & -> & votes & Hr & Hrt & Hh & Hcnt)]].
  - split.
    + unfold votes_ok. destruct (n_role n') eqn:Hr'; try done. destruct (Hqc _ eq_refl) as [Hr Hh].
      unfold votes_ok in Hvotes. rewrite Hr in Hvotes. unfold node_term in *. rewrite Hh. auto.
    + unfold win_of. intros w Hw. destruct (is_leader n') eqn:Hl; [|by apply elem_of_nil in Hw].
      destruct (Hql eq_refl) as [Hln Ht]. rewrite Hln, bool_decide_eq_true_2 in Hw by done.
      by apply elem_of_nil in Hw.
  - rewrite Hnid in *. pose proof (current_ballot s id n' envs ws id Hn' Hself) as Hb. split.
    + unfold votes_ok. destruct Hcamp as [->|[_ Hc]]; [set_solver|].
      unfold is_candidate in Hc. by destruct (n_role n').
    + unfold win_of. intros w Hw. destruct (is_leader n') eqn:Hl; [|by apply elem_of_nil in Hw].
      destruct Hcamp as [Hr|[Hq _]]; [unfold is_leader in Hl; by rewrite Hr in Hl|].
      destruct (negb _); [|by apply elem_of_nil in Hw]. apply list_elem_of_singleton in Hw as ->.
      exists {[id]}. simpl. split; [done|]. intros v ->%elem_of_singleton. by rewrite Hid'.
  - unfold votes_ok in Hvotes. rewrite Hr in Hvotes. simpl in Hen.
    set (votes' := if rvr_vote_granted r then {[from]} ∪ votes else votes) in *.
    assert (∀ v, v ∈ votes' → mkBallot v (node_term n') id ∈ ballots s') as Hall.
    { intros v Hv. apply Hsub. unfold node_term. rewrite Hh. unfold votes' in Hv.
      destruct (rvr_vote_granted r) eqn:Hg; [|by apply Hvotes].
      apply elem_of_union in Hv as [->%elem_of_singleton|Hv]; [|by apply Hvotes].
      pose proof (ci_net _ Hinv _ Hen Hg) as Hb. simpl in Hb. by rewrite Hrt in Hb. }
    split.
    + unfold votes_ok. destruct Hcnt as [[_ ->]|[_ Hc]]; [done|]. unfold is_candidate in Hc. by destruct (n_role n').
    + unfold win_of. intros w Hw. destruct (is_leader n') eqn:Hl; [|by apply elem_of_nil in Hw].
      destruct Hcnt as [[_ Hr']|[Hq _]]; [unfold is_leader in Hl; by rewrite Hr' in Hl|].
      destruct (negb _); [|by apply elem_of_nil in Hw]. apply list_elem_of_singleton in Hw as ->.
      exists votes'. simpl. split; [done|]. rewrite Hid'. done.
Qed.

(** A leader's term is among the wins. *)
Lemma leader_win s id n n' envs :
  cluster_inv s → servers s !! id = Some (Up n) → n_id n' = id → is_leader n' = true →
  ∃ cfg, mkWin (node_term n') id cfg ∈ wins (put s id (Up n') envs (win_of n n')).
Proof.
  intros Hinv Hid Hid' Hl. unfold put; simpl. unfold win_of. rewrite Hl, Hid'. simpl.
  destruct (is_leader n) eqn:Hln; simpl; [case_bool_decide as Ht; simpl|].
  - destruct (ci_leaders _ Hinv _ _ Hid Hln) as [cfg Hc]. rewrite Ht in Hc. exists cfg. set_solver.
  - eexists. apply elem_of_app. right. by apply list_elem_of_singleton.
  - eexists. apply elem_of_app. right. by apply list_elem_of_singleton.
Qed.

Lemma call_inv s id src n c n' outs rep :
  cluster_inv s → servers s !! id = Some (Up n) → enabled s id src c →
  @call_post L _ _ (boots id) c n (outs, rep) n' →
  cluster_inv (put s id (Up n') ((envelope_of id <$> outs) ++ reply_to id src rep) (win_of n n')).
Proof.
  intros Hinv Hid Hen [Hn' Hnid' Hle Hoff _ _ Houts Hvote].
  destruct (ci_servers _ Hinv _ _ Hid) as [Hnid Hn]. rewrite Hnid in Hnid'.
  pose proof (i_hard _ Hn) as Hh. pose proof (i_hard _ Hn') as Hh'. unfold view in Hh, Hh'.
  destruct (office_votes s id n c n' ((envelope_of id <$> outs) ++ reply_to id src rep) (win_of n n') src)
    as [Hv Hw]; [done..|].
  apply (put_inv s id (Up n)); [done|done|simpl; by rewrite Hh, Hh'|done| | |done].
  - intros e [(o & -> & Ho)%list_elem_of_fmap|He]%elem_of_app.
    + rewrite Forall_forall in Houts. specialize (Houts o Ho). rewrite Hnid in Houts.
      destruct o; unfold envelope_ok; simpl in *; tauto.
    + destruct rep as [rp|]; [|by apply elem_of_nil in He]. apply list_elem_of_singleton in He as ->.
      unfold envelope_ok; simpl. destruct rp as [resp| |]; [|done..]. intros Hg.
      destruct (Hvote resp eq_refl) as (r & -> & Hd). specialize (Hd Hg). simpl in Hen.
      pose proof (ci_net _ Hinv _ Hen) as Hc. unfold envelope_ok in Hc; simpl in Hc.
      apply elem_of_app. right. apply ballot_of_elem. simpl. unfold view in Hd. by rewrite Hd, <-Hc.
  - intros n0 [= <-]. split; [done|]. by apply leader_win.
Qed.

(** Taking a server down changes nothing anyone relies on. *)
Lemma down_inv s id srv0 l :
  cluster_inv s → servers s !! id = Some srv0 →
  store_ok l → durable_ok (store_view l) → hard_le (v_hard (disk srv0)) (v_hard (store_view l)) →
  cluster_inv (put s id (Down l) [] []).
Proof.
  intros Hinv Hid Hl Hd Hle. apply (put_inv s id srv0); [done..| | |]; try done.
  - intros e He. by apply elem_of_nil in He.
  - intros w Hw. by apply elem_of_nil in Hw.
Qed.

Lemma initial_inv s : initial s → cluster_inv s.
Proof.
  intros (Hnet & Hb & Hw & Hs).
  split; rewrite ?Hnet, ?Hb, ?Hw; try (intros *; by rewrite elem_of_nil).
  - intros id srv Hid. destruct (Hs _ _ Hid) as (l & -> & Hl & Hv). split; [done|].
    rewrite Hv. apply durable_empty.
  - intros id n Hid. by destruct (Hs _ _ Hid) as (l & ? & _).
  - intros id n Hid. by destruct (Hs _ _ Hid) as (l & ? & _).
Qed.

Lemma enabled_call_ok s id src n c :
  cluster_inv s → enabled s id src c → unexhausted n → call_ok c n.
Proof.
  intros Hinv Hen [Hroom Hterm]. split_and!; [done|done|].
  destruct c; simpl in Hen; try exact Hen; try done; by apply (ci_net _ Hinv) in Hen.
Qed.

Lemma node_call_outcome s id src n c now :
  cluster_inv s → servers s !! id = Some (Up n) → enabled s id src c → unexhausted n →
  wp (node_call c now) (@call_post L _ _ (boots id) c n) (@call_fails L _ _ (boots id) c n) n.
Proof.
  intros Hinv Hid Hen Hun. apply (@node_call_spec L _ _ (boots id)).
  - apply (ci_servers _ Hinv _ _ Hid).
  - by eapply enabled_call_ok.
Qed.

Lemma step_inv s s' : cluster_inv s → step s s' → cluster_inv s'.
Proof.
  intros Hinv Hstep.
  destruct Hstep as [id src n c now n' outs rep Hid Hen Hun Hc|id src n c now n' e Hid Hen Hun Hc Hsv
    |id src n c now n' e Hid Hen Hun Hc|id n Hid|id l rng config now l' n Hid Hb|id l rng config now l' e Hid Hb].
  - pose proof (node_call_outcome s id src n c now Hinv Hid Hen Hun) as Hwp.
    apply (call_inv s id src n c); [done..|]. by apply (wp_ok_inv _ _ _ _ _ _ Hwp Hc).
  - pose proof (node_call_outcome s id src n c now Hinv Hid Hen Hun) as Hwp.
    destruct (wp_err_inv _ _ _ _ _ _ Hwp Hc) as [_ Hpost].
    by apply (call_inv s id src n c n' [] None Hinv Hid Hen), Hpost.
  - pose proof (node_call_outcome s id src n c now Hinv Hid Hen Hun) as Hwp.
    destruct (wp_err_inv _ _ _ _ _ _ Hwp Hc) as [[Hst Hd Hh] _].
    apply (down_inv s id (Up n)); [done..|]. destruct (ci_servers _ Hinv _ _ Hid) as [_ Hn].
    pose proof (i_hard _ Hn) as E. simpl. unfold view in E. by rewrite E.
  - destruct (ci_servers _ Hinv _ _ Hid) as [_ Hn]. apply (down_inv s id (Up n)); [done|done|apply Hn|apply Hn|done].
  - destruct (ci_servers _ Hinv _ _ Hid) as [Hl Hd].
    pose proof (@with_bootstrap_spec L _ _ (boots id) id rng config now l Hl Hd) as Hwp.
    destruct (wp_ok_inv _ _ _ _ _ _ Hwp Hb) as [Hn Hnid _ Hv Hr _ _].
    apply (put_inv s id (Down l)); [done|done|simpl; unfold view in Hv; by rewrite Hv|by split|..].
    + intros e He. by apply elem_of_nil in He.
    + intros n0 [= <-]. unfold votes_ok, is_leader. by rewrite Hr.
    + intros w Hw. by apply elem_of_nil in Hw.
  - destruct (ci_servers _ Hinv _ _ Hid) as [Hl Hd].
    pose proof (@with_bootstrap_spec L _ _ (boots id) id rng config now l Hl Hd) as Hwp.
    destruct (wp_err_inv _ _ _ _ _ _ Hwp Hb) as (Hl' & Hv & _).
    apply (down_inv s id (Down l)); [done..|by rewrite Hv|simpl; by rewrite Hv].
Qed.

Lemma reachable_inv s : reachable s → cluster_inv s.
Proof. induction 1; [by apply initial_inv|by eapply step_inv]. Qed.

(** One step concerns one server. *)
Lemma step_effect s s' :
  cluster_inv s → step s s' →
  ∃ id srv srv', servers s !! id = Some srv ∧ hard_le (v_hard (disk srv)) (v_hard (disk srv')) ∧
    (∀ n n', srv = Up n → srv' = Up n' → append_only n n') ∧
    servers s' = <[id := srv']> (servers s) ∧ net s ⊆ net s'.
Proof.
  intros Hinv Hstep.
  assert (∀ id n n' c out, servers s !! id = Some (Up n) → @call_post L _ _ (boots id) c n out n' →
    hard_le (v_hard (disk (Up n))) (v_hard (disk (Up n'))) ∧ append_only n n') as Hpost.
  { intros id n n' c out Hid [Hn' _ Hle _ Ha _ _ _]. destruct (ci_servers _ Hinv _ _ Hid) as [_ Hn]. simpl.
    pose proof (i_hard _ Hn) as Hh. pose proof (i_hard _ Hn') as Hh'. unfold view in Hh, Hh'.
    by rewrite Hh, Hh'. }
  destruct Hstep as [id src n c now n' outs rep Hid Hen Hun Hc|id src n c now n' e Hid Hen Hun Hc Hsv
    |id src n c now n' e Hid Hen Hun Hc|id n Hid|id l rng config now l' n Hid Hb|id l rng config now l' e Hid Hb];
    do 3 eexists; (split_and!; [exact Hid| | |done|set_solver]).
  1-6: pose proof (node_call_outcome s id src n c now Hinv Hid Hen Hun) as Hwp.
  - eapply Hpost; [done|]. by apply (wp_ok_inv _ _ _ _ _ _ Hwp Hc).
  - intros ? ? [= <-] [= <-]. eapply Hpost; [done|]. by apply (wp_ok_inv _ _ _ _ _ _ Hwp Hc).
  - eapply Hpost; [done|]. by apply (wp_err_inv _ _ _ _ _ _ Hwp Hc).
  - intros ? ? [= <-] [= <-]. eapply Hpost; [done|]. by apply (wp_err_inv _ _ _ _ _ _ Hwp Hc).
  - destruct (wp_err_inv _ _ _ _ _ _ Hwp Hc) as [[_ _ Hh] _]. destruct (ci_servers _ Hinv _ _ Hid) as [_ Hn].
    pose proof (i_hard _ Hn) as E. simpl. unfold view in E. by rewrite E.
  - done.
  - done.
  - done.
  - destruct (ci_servers _ Hinv _ _ Hid) as [Hl Hd].
    pose proof (@with_bootstrap_spec L _ _ (boots id) id rng config now l Hl Hd) as Hwp.
    destruct (wp_ok_inv _ _ _ _ _ _ Hwp Hb) as [_ _ _ Hv _ _ _]. simpl. unfold view in Hv. by rewrite Hv.
  - done.
  - destruct (ci_servers _ Hinv _ _ Hid) as [Hl Hd].
    pose proof (@with_bootstrap_spec L _ _ (boots id) id rng config now l Hl Hd) as Hwp.
    destruct (wp_err_inv _ _ _ _ _ _ Hwp Hb) as (_ & Hv & _). simpl. by rewrite Hv.
  - done.
Qed.

End cluster.
