(* ===== verification/RaftSafety.v ===== *)
(** * brokkr-raft: the cluster implements the protocol

    The cluster of [RaftCluster.v] refines the protocol of [RaftProtocol.v]:
    every step of a server is a sequence of protocol steps of that server.  What
    [RaftAgreement.v] proves of the protocol is carried over to the nodes:
    matching logs, leaders that have everything committed, one command per
    committed index, a commit index that never moves back. *)

From stdpp Require Import prelude functions gmap strings.
From Stdlib Require Import Lia.
From S2P Require Import Prelude Machine Bytes RaftTypes RaftProtocol RaftAgreement RaftRng RaftWire RaftStore RaftConfig RaftNode RaftNodeSpec RaftReceiver RaftLogRel RaftHandlers RaftSim RaftSimCalls RaftSimLog RaftSimClient RaftCluster.

Local Open Scope N_scope.

(** ** One call *)

Section call.
Context {L : Type} `{RaftStoreSpec L} `{!Bootstrap} `{!Origin} `{!SnapData}.
Context (self : NodeId).
Context (boot_votes : votes_of boot = (origin, None)).

Implicit Types (n : RaftNode L) (a : PState).

(** The message a call consumes, in the protocol. *)
Definition call_rel n a (c : Call) : Prop :=
  match c with
  | CRequestVote r => vote_msg r ∈ pnet a
  | CAppendEntries r => append_msg r ∈ pnet a
  | CInstallSnapshot r => ∃ P, PSnap (u64_val (is_term r)) P ∈ pnet a ∧ snap_rel r P
  | CVoteResponse from r =>
      rvr_vote_granted r = true → ∃ l, mkPBallot from (u64_val (rvr_term r)) self l ∈ pballots a
  | CAppendResponse from r =>
      aer_success r = true → PAck from (u64_val (aer_term r)) (pos (aer_match_index r)) ∈ pnet a
  | CCompact data => snap_data data (take (pos (n_commit_index n)) (p_log (psrv a self)))
  | _ => True
  end.

(** The reply it produces. *)
Definition reply_rel a (c : Call) (rep : option Reply) : Prop :=
  match rep with
  | Some (RepVote resp) =>
      rvr_vote_granted resp = true → ∃ r l, c = CRequestVote r ∧
        mkPBallot self (u64_val (rvr_term resp)) (rv_candidate_id r) l ∈ pballots a
  | Some (RepAppend resp) =>
      aer_success resp = true → PAck self (u64_val (aer_term resp)) (pos (aer_match_index resp)) ∈ pnet a
  | _ => True
  end.

Definition call_crashed (c : Call) (e : RaftError) n a : Prop :=
  crashed self e n a ∧ (survives c e = true → node_rel self n a).

Lemma sim_reply {A} (m : eff (RaftNode L) RaftError A) Q X (f : A → list Outbound * option Reply) c n a :
  simulates self m Q X n a →
  (∀ r n' a', Q r n' a' → sends (f r).1 n' a' ∧ reply_rel a' c (f r).2) →
  (∀ e n' a', X e n' a' → call_crashed c e n' a') →
  simulates self (r ← m; mret (f r)) (λ p n' a', sends p.1 n' a' ∧ reply_rel a' c p.2) (call_crashed c) n a.
Proof.
  intros Hsim Hf HX. apply wp_bind. eapply wp_mono; [exact Hsim| |].
  - intros r n' (a' & ? & ? & ?%Hf). apply wp_ret. by exists a'.
  - intros e n' (a' & ? & ?%HX). by exists a'.
Qed.

Lemma node_call_sim c now n a :
  node_rel self n a → call_ok c n → call_rel n a c →
  simulates self (node_call c now) (λ p n' a', sends p.1 n' a' ∧ reply_rel a' c p.2) (call_crashed c) n a.
Proof.
  intros Hr (Hroom & Hterm & Hc) Hm. assert (room 1 n) as Hroom1 by (unfold room in *; lia).
  assert (∀ e n' a', survived self e n' a' → call_crashed c e n' a') as Hclient.
  { intros e n' a' Hn'. split; [by apply rel_crashed|done]. }
  assert ((∀ e, survives c e = false) → ∀ e n' a', crashed self e n' a' → call_crashed c e n' a') as Hfatal.
  { intros Hs e n' a' Hx. split; [done|]. by rewrite Hs. }
  destruct c as [|r|from r|r|from r|r|from r|data|command| | |vs|id]; simpl in *.
  - eapply sim_reply; [by apply tick_sim|done|auto].
  - eapply sim_reply; [by apply handle_request_vote_sim| |auto].
    intros resp n' a' Hg. split; [constructor|]. intros Hgr. destruct (Hg Hgr) as [l ?]. by exists r, l.
  - eapply sim_reply; [by apply handle_request_vote_response_sim|done|auto].
  - eapply sim_reply; [by apply handle_append_entries_sim| |auto]. intros resp n' a' Hg. split; [constructor|done].
  - eapply sim_reply; [by apply handle_append_entries_response_sim|done|auto].
  - eapply sim_reply; [by apply handle_install_snapshot_sim|intros; split; [constructor|done]|].
    intros e n' a' [? Hsn]. split; [done|]. destruct e; try done. intros _. apply Hsn. by eexists.
  - eapply sim_reply; [by apply handle_install_snapshot_response_sim|done|auto].
  - eapply (sim_reply _ _ _ (λ _, ([], None))); [by apply compact_sim|intros; split; [constructor|done]|auto].
  - eapply sim_reply; [by apply propose_sim|done|auto].
  - eapply sim_reply; [by apply start_read_sim|by intros [] n' a' ?|auto].
  - eapply (sim_reply _ _ _ (λ _, ([], None))); [by apply drain_read_results_sim|intros; split; [constructor|done]|auto].
  - eapply sim_reply; [by apply propose_conf_change_sim|done|auto].
  - eapply sim_reply; [by apply propose_add_learner_sim|done|auto].
Qed.

End call.

(** ** The cluster *)

Section safety.
Context {L : Type} `{RaftStoreSpec L} `{!Origin} `{!SnapData} `{!Compaction L}.
Context (boots : NodeId → Bootstrap).

Implicit Types (n : RaftNode L) (s : Cluster L) (a : PState).

Definition server_rel (id : NodeId) (srv : Server L) a : Prop :=
  match srv with
  | Up n => @node_rel L _ _ (boots id) _ _ id n a
  | Down l => disk_rel (store_view l) (psrv a id)
  end.

Definition envelope_rel (e : Envelope) a : Prop :=
  match env_msg e with
  | MVote r => vote_msg r ∈ pnet a
  | MAppend r => append_msg r ∈ pnet a
  | MSnapshot r => ∃ P, PSnap (u64_val (is_term r)) P ∈ pnet a ∧ snap_rel r P
  | MReply (RepVote r) =>
      rvr_vote_granted r = true → ∃ l, mkPBallot (env_src e) (u64_val (rvr_term r)) (env_dst e) l ∈ pballots a
  | MReply (RepAppend r) =>
      aer_success r = true → PAck (env_src e) (u64_val (aer_term r)) (pos (aer_match_index r)) ∈ pnet a
  | MReply (RepSnapshot _) => True
  end.

Record cluster_rel s a : Prop := {
  cr_prot : pinv a;
  cr_servers id srv : servers s !! id = Some srv → server_rel id srv a;
  cr_net e : e ∈ net s → envelope_rel e a
}.

Lemma envelope_rel_mono e a a' :
  pnet a ⊆ pnet a' → pballots a ⊆ pballots a' → envelope_rel e a → envelope_rel e a'.
Proof.
  intros Hn Hb. unfold envelope_rel. destruct (env_msg e) as [| | |[| |]]; [auto|auto| | |auto|auto].
  - intros (P & ? & ?). eauto.
  - intros Hr Hg. destruct (Hr Hg) as [l ?]. eauto.
Qed.

(** The steps of one server leave the others in place. *)
Lemma server_rel_moves id srv a a' v :
  moves v a a' → pinv a' → id ≠ v → server_rel id srv a → server_rel id srv a'.
Proof.
  intros Hm Hi Hne. pose proof (moves_others _ _ _ _ Hm Hne) as Ho. destruct (moves_mono _ _ _ Hm) as [_ Hb].
  destruct srv as [n|l]; simpl; [|by rewrite Ho]. intros [Hid Hn Hinv Hd Hr Hc Hv].
  split; rewrite ?Ho; try done. intros votes Hvs q Hq. destruct (Hv votes Hvs q Hq) as [l ?]. eauto.
Qed.

Lemma put_rel s a a' id srv envs ws :
  cluster_rel s a → moves id a a' → pinv a' → server_rel id srv a' →
  (∀ e, e ∈ envs → envelope_rel e a') → cluster_rel (put s id srv envs ws) a'.
Proof.
  intros [Hi Hs Hn] Hm Hi' Hsrv Henv. destruct (moves_mono _ _ _ Hm). split; [done|..].
  - intros id' srv'. simpl. intros [[<- <-]|[Hne Hl]]%lookup_insert_Some; [done|].
    eapply server_rel_moves; [done|done|done|by apply Hs].
  - intros e [He|He]%elem_of_app; [|by apply Henv]. eapply envelope_rel_mono; [done|done|by apply Hn].
Qed.

(** The same voters to start from, on every server, and snapshots that are what
    they should be. *)
Context (same_voters : ∀ id, votes_of (@boot (boots id)) = (origin, None)).
Context (snapshots_taken : ∀ id n a data,
  server_rel id (Up n) a → compactable n data →
  snap_data data (take (pos (n_commit_index n)) (p_log (psrv a id)))).

Lemma enabled_rel s a id src n c :
  cluster_rel s a → servers s !! id = Some (Up n) → enabled s id src c → call_rel id n a c.
Proof.
  intros [_ Hs Hn] Hid Hen. destruct c; simpl in *; try done; try by apply Hn in Hen.
  destruct Hen as (n' & Hn' & Hc). simplify_eq. apply snapshots_taken; [exact (Hs _ _ Hid)|done].
Qed.

Lemma call_moves s a id src n c now :
  cluster_inv boots s → cluster_rel s a → servers s !! id = Some (Up n) → enabled s id src c → unexhausted n →
  @simulates L _ _ (boots id) _ _ id _ (node_call c now)
    (λ p n' a', sends p.1 n' a' ∧ reply_rel id a' c p.2) (@call_crashed L _ _ (boots id) _ _ id c) n a.
Proof.
  intros Hinv Hr Hid Hen Hun. apply node_call_sim; [done|exact (cr_servers _ _ Hr _ _ Hid)| |by eapply enabled_rel].
  by eapply enabled_call_ok.
Qed.

(** One step of the cluster is a sequence of steps of one server of the protocol. *)
Lemma step_sim s s' a :
  cluster_inv boots s → cluster_rel s a → step boots s s' →
  ∃ id a', moves id a a' ∧ cluster_rel s' a'.
Proof.
  intros Hinv Hr Hstep.
  assert (∀ id l a', moves id a a' → pinv a' → disk_rel (store_view l) (psrv a' id) →
    cluster_rel (put s id (Down l) [] []) a') as Hdown.
  { intros id l a' Hm Hi' Hd. apply (put_rel s a); [done..|]. intros e He. by apply elem_of_nil in He. }
  destruct Hstep as [id src n c now n' outs rep Hid Hen Hun Hc|id src n c now n' e Hid Hen Hun Hc Hsv
    |id src n c now n' e Hid Hen Hun Hc|id n Hid|id l rng config now l' n Hid Hb|id l rng config now l' e Hid Hb];
    exists id.
  - destruct (wp_ok_inv _ _ _ _ _ _ (call_moves s a id src n c now Hinv Hr Hid Hen Hun) Hc) as (a' & Hm & Hn' & Ho & Hrep).
    exists a'. split; [done|]. apply (put_rel s a); [done|done|apply Hn'|done|].
    intros e [(o & -> & Hin)%list_elem_of_fmap|He]%elem_of_app.
    + unfold sends in Ho. rewrite Forall_forall in Ho. specialize (Ho o Hin). by destruct o.
    + destruct rep as [rp|]; [|by apply elem_of_nil in He]. apply list_elem_of_singleton in He as ->.
      destruct rp as [resp|resp|]; [|done..]. intros Hg. destruct (Hrep Hg) as (r & l & -> & Hl).
      simpl in Hen. pose proof (ci_net _ _ Hinv _ Hen) as Hcand. unfold envelope_ok in Hcand; simpl in Hcand.
      exists l. simpl. by rewrite <-Hcand.
  - destruct (wp_err_inv _ _ _ _ _ _ (call_moves s a id src n c now Hinv Hr Hid Hen Hun) Hc) as (a' & Hm & _ & Hn').
    exists a'. split; [done|]. apply (put_rel s a); [done|done|by apply Hn'|by apply Hn'|].
    intros x Hx. by apply elem_of_nil in Hx.
  - destruct (wp_err_inv _ _ _ _ _ _ (call_moves s a id src n c now Hinv Hr Hid Hen Hun) Hc) as (a' & Hm & [Hi Hd] & _).
    exists a'. split; [done|]. by apply Hdown.
  - exists a. split; [apply rtc_refl|]. pose proof (cr_servers _ _ Hr _ _ Hid) as Hn.
    apply Hdown; [apply rtc_refl|apply Hr|apply Hn].
  - destruct (ci_servers _ _ Hinv _ _ Hid) as [Hl Hd].
    pose proof (@with_bootstrap_spec L _ _ (boots id) id rng config now l Hl Hd) as Hwp.
    pose proof (wp_ok_inv _ _ _ _ _ _ Hwp Hb) as Hrec.
    destruct (recovered_rel id config n a (store_view l) (cr_prot _ _ Hr) (cr_servers _ _ Hr _ _ Hid) Hrec) as (a' & Hm & Hn').
    exists a'. split; [done|]. apply (put_rel s a); [done|done|apply Hn'|done|]. intros x Hx. by apply elem_of_nil in Hx.
  - destruct (ci_servers _ _ Hinv _ _ Hid) as [Hl Hd].
    pose proof (@with_bootstrap_spec L _ _ (boots id) id rng config now l Hl Hd) as Hwp.
    destruct (wp_err_inv _ _ _ _ _ _ Hwp Hb) as (_ & Hv & _). exists a. split; [apply rtc_refl|].
    apply Hdown; [apply rtc_refl|apply Hr|]. rewrite Hv. by apply (cr_servers _ _ Hr _ _ Hid).
Qed.

Lemma initial_rel s : initial s → cluster_rel s PState_new.
Proof.
  intros (Hnet & _ & _ & Hs). split; [apply pinv_new| |intros e; by rewrite Hnet, elem_of_nil].
  intros id srv Hid. destruct (Hs _ _ Hid) as (l & -> & _ & Hv). simpl. rewrite Hv.
  split_and!; [done|done|apply log_rel_empty|done].
Qed.

Lemma moves_preach id a a' : preach a → moves id a a' → preach a'.
Proof. intros Ha. induction 1; [done|]. eauto using preach_step. Qed.

Lemma reachable_rel s : reachable boots s → ∃ a, preach a ∧ cluster_rel s a.
Proof.
  induction 1 as [s Hi|s s' Hs (a & Ha & Hr) Hstep].
  - exists PState_new. split; [constructor|by apply initial_rel].
  - destruct (step_sim s s' a) as (id & a' & Hm & Hr'); [by apply reachable_inv|done|done|].
    exists a'. split; [by eapply moves_preach|done].
Qed.

Lemma moves_grows id a a' : pinv a → moves id a a' → grows a a'.
Proof.
  intros Hi Hm. induction Hm as [|a1 a2 a3 Hs _ IH]; [apply grows_refl|].
  eapply grows_trans; [by eapply pstep_grows|]. apply IH. by eapply pstep_inv.
Qed.

(** Two states of one run. *)
Lemma later_rel s s' :
  reachable boots s → rtc (step boots) s s' →
  ∃ a a', cluster_rel s a ∧ cluster_rel s' a' ∧ grows a a'.
Proof.
  intros Hs Hr. destruct (reachable_rel s Hs) as (a & _ & Ha). exists a. revert a Ha.
  induction Hr as [s|s s1 s2 Hstep _ IH]; intros a Ha; [exists a; split_and!; [done|done|apply grows_refl]|].
  destruct (step_sim s s1 a) as (id & a1 & Hm & Ha1); [by apply reachable_inv|done|done|].
  destruct (IH (reachable_step _ _ _ Hs Hstep) a1 Ha1) as (a2 & _ & Ha2 & Hg).
  exists a2. split_and!; [done|done|]. eapply grows_trans; [|exact Hg]. eapply moves_grows; [apply Ha|done].
Qed.

(** ** From the protocol's log to a server's disk *)

Lemma server_log id srv a : server_rel id srv a → log_rel (p_log (psrv a id)) (disk srv).
Proof. destruct srv as [n|l]; [intros [_ _ _ (_ & _ & ? & _) _ _ _]|intros (_ & _ & ? & _)]; done. Qed.

Lemma server_entry id srv a i e :
  server_rel id srv a → v_entries (disk srv) !! i = Some e → p_log (psrv a id) !! (N.to_nat i - 1)%nat = Some e ∧ 0 < i.
Proof.
  intros Hs He. pose proof (server_log _ _ _ Hs) as Hl. split; [by apply (lr_entry _ _ Hl)|].
  destruct (lr_index _ _ _ _ Hl He). lia.
Qed.

Notation up_rel id := (@node_rel L _ _ (boots id) _ _ id).

Lemma up_commit id n a : up_rel id n a → p_commit (psrv a id) = pos (n_commit_index n).
Proof. intros Hr. pose proof (nr_commit _ _ _ Hr). lia. Qed.

Lemma up_commit_ok id n a : up_rel id n a → commit_ok n.
Proof.
  intros Hr. pose proof (rel_commit _ _ _ Hr) as Hc. pose proof (lr_len _ _ (rel_log _ _ _ Hr)).
  unfold commit_ok. lia.
Qed.

Lemma up_leader id n a :
  up_rel id n a → is_leader n = true → ∃ m, p_role (psrv a id) = PLeader m.
Proof. intros Hr Hl. apply leader_role in Hl as [st Hl]. destruct (rel_leader id n a st Hr Hl) as [Hp _]. eauto. Qed.

(** A request of the receiver's term or a later one contradicts nothing the
    receiver knows to be committed. *)
Lemma request_respects_commit id n a r :
  up_rel id n a → append_msg r ∈ pnet a → ae_wf r → u64_val (node_term n) ≤ ae_term r →
  ae_commit_wf r ∧ respects_commit n r.
Proof.
  intros Hr Hm (Hnum & _) Ht. pose proof (nr_prot _ _ _ Hr) as Hi. pose proof (up_commit _ _ _ Hr) as Hc.
  destruct (pi_msg _ Hi _ Hm) as (Hs & Hsl & Hlc & _). split; [unfold ae_commit_wf; lia|].
  intros e (k & Hk)%list_elem_of_lookup Hle (y & Hy & Hne). pose proof (numbered_lookup _ _ Hnum _ _ Hk) as Hidx.
  destruct (server_entry id (Up n) a (u64_val (le_index e)) y Hr Hy) as [Hly _].
  assert (settled_by a (pcommits a) (p_commit (psrv a id)) (p_log (psrv a id)) (u64_val (ae_term r))) as Hset.
  { eapply settled_mono; [|apply le_n|apply (pi_srv _ Hi id)]. by rewrite (rel_term _ _ _ Hr). }
  pose proof (settled_hist _ _ _ _ Hi Hset Hs) as Heq.
  destruct Hsl as [(_ & _ & Hpre)|(He & _)]; [|by rewrite He in Hk].
  pose proof (prefix_lookup_Some _ _ _ _ Hk Hpre) as Hh. rewrite lookup_drop in Hh.
  replace (pos (le_index e) - 1)%nat with (pos (ae_prev_log_index r) + k)%nat in Hly by lia.
  rewrite (take_eq_lookup (i := (pos (ae_prev_log_index r) + k)%nat) Heq) in Hly by lia.
  unfold append_msg in Hh. simpl in Hh. congruence.
Qed.

(** No call moves a commit index back. *)
Lemma call_commit s a id src n c now n' out :
  cluster_inv boots s → cluster_rel s a → servers s !! id = Some (Up n) → enabled s id src c → unexhausted n →
  node_call c now n = (n', out) → (∀ e, out = Err e → survives c e = true) → out ≠ Halt →
  u64_val (n_commit_index n) ≤ n_commit_index n'.
Proof.
  intros Hinv Hr Hid Hen Hun Hcall Hsv Hh. pose proof (cr_servers _ _ Hr _ _ Hid) as Hrel. change (up_rel id n a) in Hrel.
  pose proof (up_commit_ok _ _ _ Hrel) as Hok.
  pose proof (node_call_outcome boots s id src n c now Hinv Hid Hen Hun) as Hwp.
  assert (commit_safe c n ∨ ∃ r, c = CAppendEntries r ∧ ae_term r < u64_val (node_term n)) as Hc.
  { destruct c as [| | |r| | | | | | | | |]; try by left. simpl in Hen.
    destruct (decide (u64_val (node_term n) ≤ ae_term r)); [left|right; exists r; split; [done|lia]].
    apply (request_respects_commit id n a); [done|exact (cr_net _ _ Hr _ Hen)|exact (ci_net _ _ Hinv _ Hen)|done]. }
  destruct Hc as [Hsafe|(r & -> & Hlt)].
  - destruct out as [[outs rep]|e|]; [|..|done].
    + destruct (wp_ok_inv _ _ _ _ _ _ Hwp Hcall) as [_ _ _ _ _ Hcm _ _]. by apply Hcm.
    + destruct (wp_err_inv _ _ _ _ _ _ Hwp Hcall) as [_ Hpost]. by apply (Hpost (Hsv e eq_refl)).
  - destruct out as [[outs rep]|e|]; [|by specialize (Hsv e eq_refl)|done].
    assert (wp (node_call (CAppendEntries r) now) (λ _ n1, n_commit_index n1 = n_commit_index n) (λ _ _, True) n) as Hstale.
    { destruct (ci_servers _ _ Hinv _ _ Hid) as [_ Hn]. simpl. wp_step.
      eapply wp_mono; [exact (@handle_append_entries_spec L _ _ (boots id) r now n Hn (ci_net _ _ Hinv _ Hen))| |done].
      intros resp n1 [_ _ _ Hle _ Hout _]. wp_step. apply hard_le_term in Hle. unfold node_term in *.
      destruct Hout as [_ ->|? Ht|? Ht]; [done|..]; unfold node_term in Ht; rewrite Ht in Hle; lia. }
    by rewrite (wp_ok_inv _ _ _ _ _ _ Hstale Hcall).
Qed.

End safety.
