(* ===== verification/RaftDemo.v ===== *)
(** * brokkr-raft: concrete instances

    A codec that meets the contract assumed of prost, a bootstrap configuration,
    a counting state machine, and servers started on an empty redb log: the
    concrete inputs on which the theorems of the following files are evaluated. *)

From stdpp Require Import prelude gmap strings.
From Stdlib Require Import Lia Strings.Byte.
From S2P Require Import Prelude Machine Bytes RaftTypes RaftRng RaftWire RaftStore RaftStorage RaftConfig RaftNode RaftNodeSpec RaftReceiver RaftHandlers RaftDriver RaftDriverSpec RaftCluster.

Local Open Scope N_scope.

(** ** A codec *)

Definition config_tuple (c : pb_ClusterConfig) : list string * list string * list string :=
  (pbc_voters c, pbc_old_voters c, pbc_learners c).

Definition tuple_config (t : list string * list string * list string) : pb_ClusterConfig :=
  mk_pb_ClusterConfig t.1.1 t.1.2 t.2.

Definition entry_tuple (e : pb_LogEntry) :
    N * N * list N * Z * option (list string * list string * list string) :=
  (u64_val (pbe_term e), u64_val (pbe_index e), Byte.to_N <$> pbe_command e, pbe_kind e,
   config_tuple <$> pbe_config e).

Definition tuple_entry (t : N * N * list N * Z * option (list string * list string * list string)) : pb_LogEntry :=
  let '(term, index, command, kind, config) := t in
  mk_pb_LogEntry (u64_sat term) (u64_sat index) (byte_of <$> command) kind (tuple_config <$> config).

Lemma tuple_config_tuple c : tuple_config (config_tuple c) = c.
Proof. by destruct c. Qed.

Lemma byte_of_to_N b : byte_of (Byte.to_N b) = b.
Proof.
  unfold byte_of. rewrite N.mod_small by (pose proof (Byte.to_N_bounded b); lia).
  by rewrite Byte.of_to_N.
Qed.

Lemma tuple_entry_tuple e : tuple_entry (entry_tuple e) = e.
Proof.
  destruct e as [t i c k g]. unfold tuple_entry, entry_tuple; simpl. rewrite !u64_of_val_id. f_equal.
  - rewrite <-list_fmap_compose. rewrite <-(list_fmap_id c) at 2. apply list_fmap_ext.
    intros _ b _. apply byte_of_to_N.
  - destruct g as [g|]; simpl; [|done]. by rewrite tuple_config_tuple.
Qed.

#[export] Instance demo_codec : RaftCodec := {|
  enc_entry e := pos_to_bytes (encode (entry_tuple e));
  dec_entry b := match decode (bytes_to_pos b) with
    | Some t => inr (tuple_entry t) | None => inl "malformed entry" end;
  enc_config c := pos_to_bytes (encode (config_tuple c));
  dec_config b := match decode (bytes_to_pos b) with
    | Some t => inr (tuple_config t) | None => inl "malformed configuration" end
|}.

#[export] Instance demo_codec_spec : RaftCodecSpec.
Proof.
  split.
  - intros e. simpl. by rewrite bytes_to_pos_to_bytes, decode_encode, tuple_entry_tuple.
  - intros c. simpl. by rewrite bytes_to_pos_to_bytes, decode_encode, tuple_config_tuple.
Qed.

(** ** Servers *)

Definition node_a : NodeId := NodeId_mk "a" I.
Definition node_b : NodeId := NodeId_mk "b" I.
Definition node_c : NodeId := NodeId_mk "c" I.

Lemma single_good (vs : gset NodeId) : vs ≠ ∅ → config_good (ClusterConfig_single vs).
Proof. intros Hvs. split; [|done]. split; [|done]. simpl. set_solver. Qed.

(** A cluster of one, and a cluster of three. *)
Definition boot_one : Bootstrap :=
  {| boot := ClusterConfig_single {[node_a]};
     boot_good := single_good {[node_a]} (non_empty_singleton_L node_a) |}.

Lemma three_nonempty : ({[node_a; node_b; node_c]} : gset NodeId) ≠ ∅.
Proof. set_solver. Qed.

Definition boot_three : Bootstrap :=
  {| boot := ClusterConfig_single {[node_a; node_b; node_c]};
     boot_good := single_good {[node_a; node_b; node_c]} three_nonempty |}.

Definition demo_rng : Rng := seed_from_u64 u64_1.


(** A server started on a blank disk that never fails, and its run of a call. *)
Definition fresh_node (B : Bootstrap) (id : NodeId) : option (RaftNode RaftLog) :=
  match with_bootstrap id (@boot B) (redb_open []) demo_rng NodeConfig_default 0 with
  | (_, Ok n) => Some n
  | _ => None
  end.

Definition called (c : Call) (now : Instant) (n : RaftNode RaftLog) : option (RaftNode RaftLog) :=
  match node_call c now n with (n', Ok _) => Some n' | _ => None end.

Lemma fresh_node_inv B id n : fresh_node B id = Some n → node_inv n ∧ commit_ok n.
Proof.
  unfold fresh_node. intros Hn.
  pose proof (with_bootstrap_spec id demo_rng NodeConfig_default 0 (redb_open [])
    (redb_open_ok []) durable_empty) as Hwp.
  unfold wp in Hwp. destruct (with_bootstrap _ _ _ _ _ _) as [l [n'|e|]]; simplify_eq.
  destruct Hwp as [Hinv _ _ Hv _ Hc _]. split; [done|]. unfold commit_ok. rewrite Hv, Hc. done.
Qed.

Lemma called_inv B c now n n' :
  called c now n = Some n' → @node_inv _ _ _ B n → call_ok c n → @node_inv _ _ _ B n'.
Proof.
  unfold called. intros Hc Hn Hok. pose proof (node_call_spec c now n Hn Hok) as Hwp. unfold wp in Hwp.
  destruct (node_call c now n) as [n1 [[outs rep]|e|]]; simplify_eq. apply Hwp.
Qed.

(** Follower [a] of a cluster of three, and the leader of a cluster of one. *)
Lemma follower_starts : is_Some (fresh_node boot_three node_a).
Proof. apply is_Some_by. vm_compute. reflexivity. Qed.

Definition demo_follower : RaftNode RaftLog := is_Some_proj follower_starts.

Definition leader_run_demo : option (RaftNode RaftLog) :=
  fresh_node boot_one node_a ≫= called CTick (from_millis 1000).

Lemma leader_elected : is_Some leader_run_demo.
Proof. apply is_Some_by. vm_compute. reflexivity. Qed.

Definition demo_leader : RaftNode RaftLog := is_Some_proj leader_elected.

Lemma is_Some_proj_eq {A} (o : option A) (H : is_Some o) : o = Some (is_Some_proj H).
Proof. destruct o as [a|]; [done|]. by destruct H. Qed.

Lemma demo_follower_inv : @node_inv _ _ _ boot_three demo_follower ∧ commit_ok demo_follower.
Proof. apply (fresh_node_inv _ node_a), is_Some_proj_eq. Qed.

Lemma demo_leader_inv : @node_inv _ _ _ boot_one demo_leader.
Proof.
  pose proof (is_Some_proj_eq _ leader_elected) as Hl. unfold leader_run_demo in Hl.
  apply bind_Some in Hl as (n & Hn & Hc). destruct (fresh_node_inv _ _ _ Hn) as [Hinv _].
  apply (called_inv _ _ _ _ _ Hc Hinv). revert Hn. clear Hc Hinv.
  set (o := fresh_node boot_one node_a). unfold call_ok, room.
  enough (match o with Some n => view_last_index (view n) + 2 ≤ u64_max ∧ node_term n < u64_max | None => True end)
    as Hok; [intros Ho; rewrite Ho in Hok; destruct Hok; split_and!; done|].
  vm_compute. split; congruence.
Qed.

Lemma demo_leader_leads : is_leader demo_leader = true.
Proof. vm_compute. reflexivity. Qed.

(** ** A state machine: the commands applied so far, one after the other *)

Definition Journal : Type := bytes.

#[export] Instance journal_machine : StateMachine Journal := {|
  sm_apply e m := m ++ match le_payload e with Command c => c | _ => [] end;
  sm_snapshot m := m;
  sm_restore b _ := b
|}.

#[export] Instance journal_machine_spec : StateMachineSpec Journal.
Proof. by apply (Build_StateMachineSpec _ _ (λ _, True)). Defined.

(** ** Running a cluster

    A schedule picks, step by step, the envelope to deliver or the server to
    call, and the run it describes is a path of the step relation. *)

Inductive Action : Type :=
| ADeliver (k : nat) (now : Instant)
| ATick (id : NodeId) (now : Instant)
| APropose (id : NodeId) (command : bytes) (now : Instant)
| ACrash (id : NodeId)
| ARestart (id : NodeId) (now : Instant).

Section run.
Context (boots : NodeId → Bootstrap).
Notation State := (Cluster RaftLog).

Definition call_of (e : Envelope) : Call :=
  match env_msg e with
  | MVote r => CRequestVote r
  | MAppend r => CAppendEntries r
  | MSnapshot r => CInstallSnapshot r
  | MReply (RepVote r) => CVoteResponse (env_src e) r
  | MReply (RepAppend r) => CAppendResponse (env_src e) r
  | MReply (RepSnapshot r) => CInstallResponse (env_src e) r
  end.

Definition exec_call (s : State) (id src : NodeId) (c : Call) (now : Instant) : option State :=
  match servers s !! id with
  | Some (Up n) =>
      if (view_last_index (view n) + 2 <=? u64_max) && (node_term n <? u64_max) then
        match node_call c now n with
        | (n', Ok (outs, rep)) =>
            Some (put s id (Up n') ((envelope_of id <$> outs) ++ reply_to id src rep) (win_of n n'))
        | _ => None
        end
      else None
  | _ => None
  end.

Definition exec (s : State) (a : Action) : option State :=
  match a with
  | ADeliver k now =>
      e ← net s !! k; exec_call s (env_dst e) (env_src e) (call_of e) now
  | ATick id now => exec_call s id id CTick now
  | APropose id command now =>
      if N.of_nat (length command) <? command_max then exec_call s id id (CPropose command) now else None
  | ACrash id =>
      match servers s !! id with
      | Some (Up n) => Some (put s id (Down (n_log n)) [] [])
      | _ => None
      end
  | ARestart id now =>
      match servers s !! id with
      | Some (Down l) =>
          match with_bootstrap id (@boot (boots id)) l demo_rng NodeConfig_default now with
          | (_, Ok n) => Some (put s id (Up n) [] [])
          | _ => None
          end
      | _ => None
      end
  end.

Definition exec_all (s : State) (acts : list Action) : option State :=
  foldl (λ o a, s ← o; exec s a) (Some s) acts.

Context `{!Compaction RaftLog}.

Lemma exec_call_step s id src c now s' :
  enabled s id src c → exec_call s id src c now = Some s' → step boots s s'.
Proof.
  unfold exec_call. intros Hen He. destruct (servers s !! id) as [[n|]|] eqn:Hid; [|done..].
  destruct (_ && _) eqn:Hun; [|done]. apply andb_true_iff in Hun as [Hr%N.leb_le Ht%N.ltb_lt].
  destruct (node_call c now n) as [n' [[outs rep]|e|]] eqn:Hc; simplify_eq.
  by apply (step_call boots s id src n c now).
Qed.

Lemma exec_step s a s' : exec s a = Some s' → step boots s s'.
Proof.
  destruct a as [k now|id now|id command now|id|id now]; simpl.
  - intros (e & Hk & He)%bind_Some. apply exec_call_step in He; [done|].
    apply list_elem_of_lookup_2 in Hk. destruct e as [src dst [| | |[| |]]]; done.
  - by apply exec_call_step.
  - destruct (N.ltb_spec (N.of_nat (length command)) command_max); [|done]. by apply exec_call_step.
  - destruct (servers s !! id) as [[n|]|] eqn:Hid; intros ?; simplify_eq. by apply step_crash.
  - destruct (servers s !! id) as [[|l]|] eqn:Hid; try done.
    destruct (with_bootstrap _ _ _ _ _ _) as [l' [n|e|]] eqn:Hb; intros ?; simplify_eq.
    by eapply step_restart.
Qed.

Lemma exec_all_run s acts s' : exec_all s acts = Some s' → rtc (step boots) s s'.
Proof.
  unfold exec_all. revert s. induction acts as [|a acts IH]; intros s; simpl; [by intros [= ->]|].
  destruct (exec s a) as [s1|] eqn:Ha.
  - intros He. eapply rtc_l; [by eapply exec_step|by apply IH].
  - intros He. exfalso. revert He. clear. induction acts; simpl; done.
Qed.

Lemma exec_all_reachable s acts s' : exec_all s acts = Some s' → reachable boots s → reachable boots s'.
Proof. intros He Hs. eapply reachable_later; [done|by eapply exec_all_run]. Qed.

End run.

(** Any data may be installed as a snapshot. *)
Definition any_snapshot : Compaction RaftLog := λ _ _, True.

(** Three servers, all switched off. *)
Definition blank_cluster : Cluster RaftLog :=
  mkCluster (<[node_a := Down (redb_open [])]> (<[node_b := Down (redb_open [])]>
    {[node_c := Down (redb_open [])]})) [] [] [].

Lemma blank_reachable `{!Compaction RaftLog} boots : reachable boots blank_cluster.
Proof.
  apply reachable_initial. split_and!; [done..|]. intros id srv Hs. exists (redb_open []).
  split_and!; [|apply redb_open_ok|done]. unfold blank_cluster in Hs; simpl in Hs.
  rewrite !lookup_insert_Some, lookup_singleton_Some in Hs. naive_solver.
Qed.

(** They start; [a] stands for election, gets the vote of [b], and leads. *)
Definition election_schedule : list Action :=
  [ARestart node_a 0; ARestart node_b 0; ARestart node_c 0;
   ATick node_a (from_millis 1000); ADeliver 0 (from_millis 1001); ADeliver 2 (from_millis 1002)].

Lemma election_runs : is_Some (exec_all (λ _, boot_three) blank_cluster election_schedule).
Proof. apply is_Some_by. vm_compute. reflexivity. Qed.

Definition elected_cluster : Cluster RaftLog := is_Some_proj election_runs.

Lemma elected_reachable `{!Compaction RaftLog} : reachable (λ _, boot_three) elected_cluster.
Proof.
  apply (exec_all_reachable _ blank_cluster election_schedule); [apply is_Some_proj_eq|].
  apply blank_reachable.
Qed.

#[export] Instance Win_eq_dec : EqDecision Win.
Proof. solve_decision. Defined.

Lemma elected_wins : wins elected_cluster = [mkWin u64_1 node_a (@boot boot_three)].
Proof. by_vm. Qed.

(** Then a client writes through it. *)
Lemma proposal_runs : is_Some (exec (λ _, boot_three) elected_cluster (APropose node_a [Byte.x2a] (from_millis 1003))).
Proof. apply is_Some_by. vm_compute. reflexivity. Qed.

Definition proposed_cluster : Cluster RaftLog := is_Some_proj proposal_runs.

Lemma proposed_step `{!Compaction RaftLog} : step (λ _, boot_three) elected_cluster proposed_cluster.
Proof. eapply exec_step, is_Some_proj_eq. Qed.

Definition demo_server : option (Server RaftLog) := servers elected_cluster !! node_a.

Lemma demo_server_up : is_Some demo_server.
Proof. apply is_Some_by. vm_compute. reflexivity. Qed.

(** The write reaches [b], which acknowledges it to [a]. *)
Definition replication_schedule : list Action :=
  [APropose node_a [Byte.x2a] (from_millis 1003); ADeliver 5 (from_millis 1004)].

Lemma replication_runs : is_Some (exec_all (λ _, boot_three) elected_cluster replication_schedule).
Proof. apply is_Some_by. vm_compute. reflexivity. Qed.

Definition replicated_cluster : Cluster RaftLog := is_Some_proj replication_runs.

(** With the acknowledgement, [a] commits it. *)
Lemma commit_runs : is_Some (exec (λ _, boot_three) replicated_cluster (ADeliver 7 (from_millis 1005))).
Proof. apply is_Some_by. vm_compute. reflexivity. Qed.

Definition committed_cluster : Cluster RaftLog := is_Some_proj commit_runs.

(** Then [b] hears of the commit, stands for election when [a] falls silent, and
    leads with the vote of [c]. *)
Definition handover_schedule : list Action :=
  [ATick node_a (from_millis 1200); ADeliver 8 (from_millis 1201); ATick node_b (from_millis 3000);
   ADeliver 12 (from_millis 3001); ADeliver 13 (from_millis 3002)].

Lemma handover_runs : is_Some (exec_all (λ _, boot_three) committed_cluster handover_schedule).
Proof. apply is_Some_by. vm_compute. reflexivity. Qed.

Definition handover_cluster : Cluster RaftLog := is_Some_proj handover_runs.

Definition up_node (s : Cluster RaftLog) (id : NodeId) : option (RaftNode RaftLog) :=
  match servers s !! id with Some (Up n) => Some n | _ => None end.

Lemma up_node_up s id n : up_node s id = Some n → servers s !! id = Some (Up n).
Proof. unfold up_node. destruct (servers s !! id) as [[|]|]; [by intros [= ->]|done..]. Qed.

Lemma replicated_a_up : is_Some (up_node replicated_cluster node_a).
Proof. apply is_Some_by. vm_compute. reflexivity. Qed.

Lemma committed_a_up : is_Some (up_node committed_cluster node_a).
Proof. apply is_Some_by. vm_compute. reflexivity. Qed.

Lemma committed_b_up : is_Some (up_node committed_cluster node_b).
Proof. apply is_Some_by. vm_compute. reflexivity. Qed.

Lemma handover_b_up : is_Some (up_node handover_cluster node_b).
Proof. apply is_Some_by. vm_compute. reflexivity. Qed.

(** The old leader about to commit, *)
Definition waiting_leader : RaftNode RaftLog := is_Some_proj replicated_a_up.

Lemma waiting_leader_up : servers replicated_cluster !! node_a = Some (Up waiting_leader).
Proof. apply up_node_up, is_Some_proj_eq. Qed.

(** the old leader and a follower before the handover, the new leader after it. *)
Definition follower_b : RaftNode RaftLog := is_Some_proj committed_b_up.
Definition old_leader : RaftNode RaftLog := is_Some_proj committed_a_up.
Definition new_leader : RaftNode RaftLog := is_Some_proj handover_b_up.

Lemma old_leader_up : servers committed_cluster !! node_a = Some (Up old_leader).
Proof. apply up_node_up, is_Some_proj_eq. Qed.

Lemma follower_b_up : servers committed_cluster !! node_b = Some (Up follower_b).
Proof. apply up_node_up, is_Some_proj_eq. Qed.

Lemma new_leader_up : servers handover_cluster !! node_b = Some (Up new_leader).
Proof. apply up_node_up, is_Some_proj_eq. Qed.

Lemma replicated_reachable `{!Compaction RaftLog} : reachable (λ _, boot_three) replicated_cluster.
Proof.
  apply (exec_all_reachable _ elected_cluster replication_schedule); [apply is_Some_proj_eq|apply elected_reachable].
Qed.

Lemma commit_step `{!Compaction RaftLog} : step (λ _, boot_three) replicated_cluster committed_cluster.
Proof. eapply exec_step, is_Some_proj_eq. Qed.

Lemma committed_reachable `{!Compaction RaftLog} : reachable (λ _, boot_three) committed_cluster.
Proof. eapply reachable_step; [apply replicated_reachable|apply commit_step]. Qed.

Lemma handover_run `{!Compaction RaftLog} : rtc (step (λ _, boot_three)) committed_cluster handover_cluster.
Proof. apply (exec_all_run _ _ handover_schedule), is_Some_proj_eq. Qed.

Lemma old_leader_state :
  is_leader old_leader = true ∧ u64_val (node_term old_leader) = 1 ∧ u64_val (n_commit_index old_leader) = 2.
Proof. split; [|split]; vm_compute; reflexivity. Qed.

Lemma new_leader_state :
  is_leader new_leader = true ∧ u64_val (node_term new_leader) = 2 ∧ u64_val (n_commit_index new_leader) = 2.
Proof. split; [|split]; vm_compute; reflexivity. Qed.

(** What they hold: the entry that opened the first term, and the write. *)
Definition opening : LogEntry := LogEntry_with_payload u64_1 u64_1 Noop.
Definition written : LogEntry := LogEntry_new u64_1 (u64_sat 2) [Byte.x2a].

Lemma old_leader_entry : v_entries (view old_leader) !! 2 = Some written.
Proof. vm_compute. reflexivity. Qed.

Lemma follower_b_entry : v_entries (view follower_b) !! 2 = Some written.
Proof. vm_compute. reflexivity. Qed.

Lemma opening_entries :
  v_entries (view old_leader) !! 1 = Some opening ∧ v_entries (view follower_b) !! 1 = Some opening.
Proof. split; vm_compute; reflexivity. Qed.

Lemma new_leader_entry : v_entries (view new_leader) !! 2 = Some written.
Proof. vm_compute. reflexivity. Qed.

#[global] Opaque demo_follower demo_leader elected_cluster proposed_cluster replicated_cluster
  committed_cluster handover_cluster waiting_leader old_leader follower_b new_leader.
