(* ===== verification/RaftTheorems.v ===== *)
(** * brokkr-raft: the theorems

    What the protocol core guarantees, stated for any store that meets the
    contract of [RaftStore] and any state machine that meets the trait's, each
    evaluated on a concrete server of [RaftDemo]. *)

From stdpp Require Import prelude gmap strings.
From Stdlib Require Import Lia.
From S2P Require Import Prelude Machine Bytes RaftTypes RaftRng RaftWire RaftStore RaftStorage RaftConfig RaftNode RaftNodeSpec RaftReceiver RaftHandlers RaftDriver RaftDriverSpec RaftCluster RaftDemo.

Local Open Scope N_scope.

(** ** The cluster *)

Section cluster_theorems.
Context {L : Type} `{RaftStoreSpec L} `{!Compaction L} (boots : NodeId → Bootstrap).
Implicit Types s : Cluster L.

(** Election safety.  However messages are lost, delayed, duplicated and
    reordered, and however servers crash and restart: two servers that ever took
    office in the same term, under configurations whose quorums intersect, are
    the same server. *)
Theorem election_safety s t c1 c2 cfg1 cfg2 :
  reachable boots s → quorums_intersect cfg1 cfg2 →
  mkWin t c1 cfg1 ∈ wins s → mkWin t c2 cfg2 ∈ wins s → c1 = c2.
Proof.
  intros Hs Hx H1 H2. pose proof (reachable_inv boots s Hs) as Hinv.
  destruct (ci_wins _ _ Hinv _ H1) as (Q1 & Hq1 & Hb1), (ci_wins _ _ Hinv _ H2) as (Q2 & Hq2 & Hb2).
  destruct (Hx Q1 Q2 Hq1 Hq2) as (v & Hv1 & Hv2).
  by apply (ci_unique _ _ Hinv v t); [apply Hb1|apply Hb2].
Qed.

(** No step of the cluster, a crash, a storage failure and a restart included,
    takes back a promise: every server's durable term never falls, and within a
    term its durable vote, once cast, never changes; and a server that still leads
    after a step has every log entry it had before, or a snapshot that covers it. *)
Theorem cluster_step_safe s s' id srv :
  reachable boots s → step boots s s' → servers s !! id = Some srv →
  ∃ srv', servers s' !! id = Some srv' ∧
    hard_le (v_hard (disk srv)) (v_hard (disk srv')) ∧
    ∀ n n', srv = Up n → srv' = Up n' → append_only n n'.
Proof.
  intros Hs Hstep Hid. pose proof (reachable_inv boots s Hs) as Hinv.
  destruct (step_effect boots s s' Hinv Hstep) as (id1 & srv0 & srv1 & Hid1 & Hle & Ha & Hput & _).
  rewrite Hput. destruct (decide (id = id1)) as [->|Hne].
  - assert (srv0 = srv) as -> by congruence. exists srv1. rewrite lookup_insert_eq. done.
  - exists srv. rewrite lookup_insert_ne by done. split_and!; [done..|]. intros n n' -> [= <-] _. auto.
Qed.

End cluster_theorems.

Lemma election_safety_witness :
  Forall (λ w, win_term w = u64_1 → win_leader w = node_a) (wins elected_cluster).
Proof.
  apply Forall_forall. intros [t c cfg] Hw Ht. simpl in Ht. subst t.
  refine (election_safety (Compaction0 := any_snapshot) (λ _, boot_three) elected_cluster u64_1 c node_a cfg (@boot boot_three)
    elected_reachable _ Hw _); rewrite elected_wins in *; [|apply list_elem_of_here].
  apply list_elem_of_singleton in Hw as [= -> ->].
  apply (shared_voters_intersect _ _ (voters (@boot boot_three))); apply list_elem_of_here.
Defined.

Lemma cluster_step_safe_witness :
  ∃ srv', servers proposed_cluster !! node_a = Some srv' ∧
    hard_le (v_hard (disk (is_Some_proj demo_server_up))) (v_hard (disk srv')) ∧
    ∀ n n', is_Some_proj demo_server_up = Up n → srv' = Up n' → append_only n n'.
Proof.
  apply (cluster_step_safe (Compaction0 := any_snapshot) (λ _, boot_three) elected_cluster proposed_cluster node_a).
  - apply elected_reachable.
  - apply proposed_step.
  - apply (is_Some_proj_eq demo_server).
Defined.

(** ** One server *)

Section node_theorems.
Context {L : Type} `{RaftStoreSpec L} `{!Bootstrap}.
Implicit Types n : RaftNode L.

(** C10.  Every public call of a node, on every branch: it returns; it preserves
    the node's invariant (a contiguous, self-indexed log of canonical entries, the
    in-memory term, vote, snapshot and membership equal to what is on disk); the
    term and vote move only forward; leadership and candidacy are acquired only by
    the election rules; a leader keeps its entries; the commit index stays within
    the log and never falls; the messages sent are well formed and carry the
    node's term; a granted vote is on disk before it is answered.  If the store
    fails, what is on disk is still a healthy log with a later term and vote. *)
Theorem node_call_safe c now n :
  node_inv n → call_ok c n → wp (node_call c now) (call_post c n) (call_fails c n) n.
Proof. apply node_call_spec. Qed.

(** The commit rule (Raft 5.4.2, Figure 8).  A leader's scan returns the
    largest index above its commit index that a quorum of the active
    configuration acknowledges and whose entry is of its own term, or the commit
    index if there is none; [advance_commit_index] returns, moves the commit index
    only to such an index, appends only entries of the leader's own term, and on a
    storage failure leaves a node in which all of that holds. *)
Theorem leader_commit_rule state now n :
  node_inv n → n_role n = Leader state → room 1 n →
  wp (commit_scan (S (N.to_nat (view_last_index (view n)))) (view_last (view n)).1 state)
    (λ r n', same n n' ∧ commit_choice n state (view_last (view n)).1 r)
    (λ e n', same n n' ∧ storage_fault e) n ∧
  wp (advance_commit_index now) (leader_run n) (stops n) n.
Proof.
  intros Hn Hr Hroom. split; [|by apply advance_commit_index_spec].
  pose proof (i_role _ Hn) as Hro. unfold role_ok in Hro. rewrite Hr in Hro.
  apply commit_scan_spec; [done|tauto|]. unfold view_last_index. lia.
Qed.

(** The recursion through [after_commit_config_actions] is at most two deep:
    with any more fuel than two levels [advance_commit_index] does the same, so
    the bound of the model is not a bound on the code. *)
Theorem advance_commit_index_terminates k now n :
  node_inv n → room 1 n →
  advance_commit_index_fuel (2 + k) now n = advance_commit_index now n ∧
  (advance_commit_index now n).2 ≠ Halt.
Proof.
  intros Hn Hroom. pose proof (wp_returns _ _ _ _ (advance_commit_index_spec now n Hn Hroom)) as Hret.
  split; [|done]. apply (advance_fuel_le 2); [lia|done].
Qed.

(** A vote is persisted before it is granted: whatever the request, the reply
    carries the node's term; a granted reply means the store already holds this
    candidate's name for the request's term, the candidate's log was at least as
    up to date, and the node was not leading; and no reply touches the log. *)
Theorem vote_persisted_before_reply r now n :
  node_inv n → wp (handle_request_vote r now) (λ resp n', kept n n' ∧ vote_reply n r resp n') (fails n) n.
Proof. apply handle_request_vote_spec. Qed.

(** AppendEntries, receiver side: a stale leader is refused; a gap or a
    mismatched term at [prev_log_index] is refused with a back-off hint; otherwise
    the log becomes the merge of the two, in which every entry of the request is
    present, nothing comes from elsewhere, and an entry is lost only at or beyond
    an index where the request genuinely conflicts with it; and the commit index
    moves to the smaller of the leader's and the last new entry. *)
Theorem append_entries_correct r now n :
  node_inv n → ae_wf r → wp (handle_append_entries r now) (append_post n r) (fails n) n.
Proof. apply handle_append_entries_spec. Qed.

(** AppendEntries is idempotent: delivering again a request that was accepted,
    at any later time, is accepted with the same answer and changes neither the
    log, nor the snapshot, nor the commit index. *)
Theorem append_entries_idempotent r now now' n n1 resp :
  node_inv n → ae_wf r →
  handle_append_entries r now n = (n1, Ok resp) → aer_success resp = true →
  wp (handle_append_entries r now')
    (λ resp' n2, resp' = resp ∧ v_entries (view n2) = v_entries (view n1) ∧
       v_snapshot (view n2) = v_snapshot (view n1) ∧ n_commit_index n2 = n_commit_index n1)
    (fails n1) n1.
Proof.
  intros Hn Hwf Hrun Hok.
  pose proof (wp_ok_inv _ _ _ _ _ _ (handle_append_entries_spec r now n Hn Hwf) Hrun) as [Hn1 _ _ _ _ Hout _].
  destruct Hout as [|?|m Ht Hr Hm Hmv He Hmg Hs Hc]; [done..|].
  eapply wp_mono; [by apply handle_append_entries_spec| |done]. intros resp2 n2 [_ _ _ _ _ Hout2 _].
  pose proof (proj1 Hwf) as Hnum.
  pose proof (merged_matches _ _ _ _ _ _ _ Hmg Hnum He Hs Hm) as Hm1.
  destruct Hout2 as [Hlt|?|m2 Ht2 Hr2 _ Hmv2 He2 _ Hs2 Hc2]; [rewrite Ht in Hlt; lia|congruence|].
  assert (view_snap_index (view n1) = view_snap_index (view n)) as Hsi by (unfold view_snap_index; by rewrite Hs).
  assert (m2 = m) as -> by (apply u64_inj; congruence). split_and!; [congruence| |congruence|].
  - rewrite He2, Hsi. f_equal. apply merge_noop. rewrite He. apply Hmg.
  - apply u64_inj. rewrite Hc2, Hc. destruct (N.ltb_spec (n_commit_index n) (ae_leader_commit r)).
    + destruct (N.ltb_spec (N.min (ae_leader_commit r) m) (ae_leader_commit r)); lia.
    + destruct (N.ltb_spec (n_commit_index n) (ae_leader_commit r)); lia.
Qed.

(** InstallSnapshot: a stale leader is refused and a snapshot the server is
    already past leaves its log alone; otherwise the snapshot on disk is the one
    received, the commit index is its last index, the entries kept are exactly
    those beyond it, and only if the log agrees with the snapshot at that index,
    else the log is emptied and its configuration adopted.  An unsupported chunk
    is refused without effect on the log. *)
Theorem install_snapshot_correct r now n :
  node_inv n → is_wf r →
  wp (handle_install_snapshot r now)
    (λ resp n', kept n n' ∧ install_outcome n r n' ∧ isr_term resp = node_term n')
    (λ e n', failed n n' ∧ (storage_fault e ∨
       (is_offset r ≠ u64_0 ∨ is_done r = false) ∧ kept n n' ∧ log_kept n n' ∧
       ∃ reason, e = Snapshot reason)) n.
Proof. apply handle_install_snapshot_spec. Qed.

(** Compaction at the commit index: the snapshot it writes carries the term
    of the entry at the commit index and the configuration in force there; the
    entries beyond remain; role and commit index are as before; and the
    configuration at every index from the commit index on is unchanged.  It is
    refused only where there is nothing committed to compact. *)
Theorem compact_correct data n :
  node_inv n →
  wp (compact data) (λ meta n', kept n n' ∧ n_role n' = n_role n ∧ compacted n data meta n')
    (λ e n', same n n' ∧ (storage_fault e ∨
       u64_val (n_commit_index n) ≤ view_snap_index (view n) ∨
       view_last_index (view n) < n_commit_index n)) n.
Proof. apply compact_spec. Qed.

(** Membership changes: a configuration entry is appended only by a leader
    with no change in flight (the active configuration is not joint and the latest
    one is committed); [propose_conf_change] enters the joint configuration of the
    old and the new voters, [propose_add_learner] keeps the voters; both append at
    the next index and commit only by the commit rule; refused or failed, they
    leave a node that satisfies its invariant. *)
Theorem membership_change_gate vs id now n :
  node_inv n → room 2 n →
  wp (propose_conf_change vs now)
    (λ outs n', is_leader n = true ∧ settled n ∧ vs ≠ ∅ ∧ leader_run n outs n' ∧
       wrote n (λ i, mkLogEntry (node_term n) i (Config (mkClusterConfig vs
         (Some (voters (active_config n))) (learners (active_config n) ∖ vs)))) n')
    (client_fails n True) n ∧
  wp (propose_add_learner id now)
    (λ outs n', is_leader n = true ∧ settled n ∧ id ∉ voters (active_config n) ∧ leader_run n outs n' ∧
       wrote n (λ i, mkLogEntry (node_term n) i (Config (mkClusterConfig (voters (active_config n))
         None ({[id]} ∪ learners (active_config n))))) n')
    (client_fails n True) n.
Proof. intros Hn Hroom. split; [by apply propose_conf_change_spec|by apply propose_add_learner_spec]. Qed.

(** A pending read with one more reply: it counts if it echoes a number the read was
    registered under or a later one. *)
Definition credited (from : NodeId) (seq : u64) (read : PendingRead) : PendingRead :=
  mkPendingRead (pr_id read) (pr_read_index read) (pr_confirm_seq read)
    (if pr_confirm_seq read <=? seq then {[from]} ∪ pr_acks read else pr_acks read).

Definition confirmed (c : ClusterConfig) (read : PendingRead) : Prop := has_quorum c (pr_acks read) = true.

#[global] Instance confirmed_dec c read : Decision (confirmed c read).
Proof. unfold confirmed. apply _. Defined.

Lemma credit_reads_exact c from seq reads :
  credit_reads c from seq reads =
    ((λ read, (pr_id read, inr (pr_read_index read))) <$> filter (confirmed c) (credited from seq <$> reads),
     filter (λ read, ¬ confirmed c read) (credited from seq <$> reads)).
Proof.
  induction reads as [|read reads IH]; [done|]. cbn [credit_reads fmap list_fmap]. rewrite IH, !filter_cons.
  assert (credit_read c from seq read =
    if decide (confirmed c (credited from seq read)) then inl (pr_id read, inr (pr_read_index read)) else inr (credited from seq read)) as ->.
  { unfold credit_read. case_decide as Hc; unfold confirmed in Hc; cbn [credited pr_acks] in Hc; [by rewrite Hc|by destruct (has_quorum c _)]. }
  case_decide as Hc; [rewrite decide_False by (intros Hn; by apply Hn)|rewrite decide_True by done]; done.
Qed.

Lemma start_read_stamps now n st :
  n_role n = Leader st → wp (start_read now) (λ p n', True) (λ _ _, True) n →
  wp (start_read now) (λ p n', stamps (ls_ae_seq st) p.2 ∧
    ∀ st', n_role n' = Leader st' → ls_ae_seq st' = u64_wrap (ls_ae_seq st + N.of_nat (length p.2))) (λ _ _, True) n.
Proof.
  intros Hr. unfold wp. destruct (start_read now n) as [n' [p|e|]] eqn:E; [intros _|done..].
  apply emits_start_read in E. unfold numbers_on in E. by rewrite Hr in E.
Qed.

(** C14.  ReadIndex.  A leader answers a read with the larger of its commit index and
    the index of its own no-op: at once if it is a quorum by itself, and otherwise
    it registers the read under the next of the numbers it stamps its requests
    with, acknowledged by itself, and sends a round that is numbered from there on.
    In every call a leader makes, the messages are numbered on from its last
    number, one each, so the numbers from a read's on are those of messages sent
    after it was registered.  A reply is credited to exactly the pending reads
    whose number it echoes or passes, and to no other, which it leaves as they
    were; those whose acknowledgements are then a quorum of the active configuration
    are answered, in order, each with the index recorded for it; all others stay,
    in order, with the acknowledgements they now have. *)
Theorem read_index_correct now from seq state n :
  node_inv n → n_role n = Leader state →
  wp (start_read now)
    (λ '(id, outs) n', leader_run n outs n' ∧ ∃ i,
       u64_val i = N.max (n_commit_index n) (term_start_index state) ∧
       ((has_quorum (active_config n) {[n_id n]} = true ∧
         n_read_results n' = n_read_results n ++ [(id, inr i)]) ∨
        (∃ state', n_role n' = Leader state' ∧ n_read_results n' = n_read_results n ∧
           pending_reads state' = pending_reads state ++
             [mkPendingRead id i (wrapping_add (ls_ae_seq state) u64_1) {[n_id n]}] ∧
           stamps (ls_ae_seq state) outs ∧
           ls_ae_seq state' = u64_wrap (ls_ae_seq state + N.of_nat (length outs)))))
    (client_fails n (is_leader n = false)) n ∧
  (∀ c n' outs rep, node_call c now n = (n', Ok (outs, rep)) →
     stamps (ls_ae_seq state) outs ∧
     ∀ state', n_role n' = Leader state' → ls_ae_seq state' = u64_wrap (ls_ae_seq state + N.of_nat (length outs))) ∧
  wp (note_leadership_ack from seq)
    (λ _ n', let reads := credited from seq <$> pending_reads state in
       n_role n' = Leader (set_pending_reads (filter (λ read, ¬ confirmed (active_config n) read) reads) state) ∧
       n_read_results n' = n_read_results n ++
         ((λ read, (pr_id read, inr (pr_read_index read))) <$> filter (confirmed (active_config n)) reads))
    (λ _ _, False) n.
Proof.
  intros Hn Hr. split_and!.
  - pose proof (start_read_spec now n Hn) as Hs.
    assert (wp (start_read now) (λ _ _, True) (λ _ _, True) n) as Ht by (eapply wp_mono; [exact Hs|done|done]).
    eapply wp_mono; [exact (wp_and _ _ _ _ _ _ Hs (start_read_stamps now n state Hr Ht))| |by intros e n' [? _]].
    intros [id outs] n' [(Hrun & i & (state1 & Hr1 & Hi) & Hcase) [Hst Hq]]. assert (state1 = state) as -> by congruence.
    split; [done|]. exists i. split; [done|]. destruct Hcase as [?|(st & st' & Hst1 & Hr' & ? & ?)]; [by left|right].
    assert (st = state) as -> by congruence. exists st'. split_and!; [done|done|done|done|by apply Hq].
  - intros c n' outs rep Hc. pose proof (leader_call_numbers c now n state n' outs rep Hr Hc) as Hnum.
    unfold numbers_on in Hnum. by rewrite Hr in Hnum.
  - unfold note_leadership_ack. wp_step. rewrite Hr, credit_reads_exact. done.
Qed.

(** C12.  Crash recovery: a server restarted on the log another incarnation left
    behind is a follower with the same identity, log, snapshot, term and vote, a
    commit index at the snapshot, and at every log index the very configuration
    the earlier incarnation had there; if the store fails it is left untouched. *)
Theorem crash_recovery id rng config now n :
  node_inv n →
  wp (λ l, with_bootstrap id boot l rng config now)
    (λ n' _, recovered id config (view n) n' ∧
       ∀ i, config_at i (n_configs n') = config_at i (n_configs n))
    (λ e l', store_ok l' ∧ store_view l' = view n ∧ storage_fault e) (n_log n).
Proof.
  intros Hn. eapply wp_mono; [apply with_bootstrap_spec; apply Hn| |done].
  intros n' l' Hrec. split; [done|]. intros i. exact (recovered_configs n id config n' i Hn Hrec).
Qed.

(** The membership rule: a server acts under the last configuration entry of
    its log, committed or not, else the snapshot's, else the bootstrap one, and a
    prefix of the log under the last one in that prefix; it names at least one
    voter, and its learners are not voters. *)
Theorem membership_follows_log i n :
  node_inv n →
  in_force (base_of (view n)) (v_entries (view n)) (u64_val i) (config_at i (n_configs n)) ∧
  in_force (base_of (view n)) (v_entries (view n)) u64_max (active_config n) ∧
  config_good (config_at i (n_configs n)) ∧ config_good (active_config n).
Proof.
  intros Hn. rewrite <-(i_base _ Hn). split_and!.
  - apply config_at_in_force, Hn.
  - unfold active_config. rewrite (active_config_at _ u64_MAX) by (intros p _; apply u64_le_max).
    apply (config_at_in_force (n_configs n) _ u64_MAX), Hn.
  - by apply config_at_good.
  - by apply active_good.
Qed.

End node_theorems.

(** *** On concrete servers *)

Lemma demo_room_follower : room 2 demo_follower ∧ node_term demo_follower < u64_max.
Proof. split; [apply N.leb_le|apply N.ltb_lt]; vm_compute; reflexivity. Qed.

Lemma demo_room_leader : room 2 demo_leader ∧ node_term demo_leader < u64_max.
Proof. split; [apply N.leb_le|apply N.ltb_lt]; vm_compute; reflexivity. Qed.

Lemma node_call_safe_witness :
  wp (node_call (CPropose [Byte.x2a]) (from_millis 1001)) (@call_post _ _ _ boot_one (CPropose [Byte.x2a]) demo_leader)
    (@call_fails _ _ _ boot_one (CPropose [Byte.x2a]) demo_leader) demo_leader.
Proof.
  apply node_call_safe; [exact demo_leader_inv|].
  refine (conj (proj1 demo_room_leader) (conj (proj2 demo_room_leader) _)). apply N.ltb_lt. reflexivity.
Defined.

(** The leader's volatile state. *)
Definition demo_leader_state : LeaderState :=
  match n_role demo_leader with
  | Leader state => state
  | _ => mkLeaderState ∅ ∅ u64_0 LogIndex_ZERO []
  end.

Lemma demo_leader_role : n_role demo_leader = Leader demo_leader_state.
Proof.
  unfold demo_leader_state. pose proof demo_leader_leads as Hl. unfold is_leader in Hl.
  by destruct (n_role demo_leader).
Qed.

Lemma leader_commit_rule_witness :
  wp (advance_commit_index (from_millis 1001)) (@leader_run _ _ _ boot_one demo_leader)
    (@stops _ _ _ boot_one demo_leader) demo_leader.
Proof.
  refine (proj2 (@leader_commit_rule _ _ _ boot_one demo_leader_state (from_millis 1001) demo_leader demo_leader_inv
    demo_leader_role _)). pose proof (proj1 demo_room_leader). unfold room in *. lia.
Defined.

Lemma advance_commit_index_terminates_witness :
  advance_commit_index_fuel 7 (from_millis 1001) demo_leader = advance_commit_index (from_millis 1001) demo_leader.
Proof.
  refine (proj1 (@advance_commit_index_terminates _ _ _ boot_one 5 (from_millis 1001) demo_leader demo_leader_inv _)).
  pose proof (proj1 demo_room_leader). unfold room in *. lia.
Defined.

(** A candidate's request, granted. *)
Definition demo_vote : RequestVote := mkRequestVote (u64_sat 5) node_b LogIndex_ZERO Term_ZERO.

Lemma vote_persisted_before_reply_witness :
  v_hard (view (handle_request_vote demo_vote (from_millis 1000) demo_follower).1)
    = mkHardState (u64_sat 5) (Some node_b).
Proof.
  destruct (wp_returned _ _ _ _ (mkRequestVoteResponse (u64_sat 5) true)
    (vote_persisted_before_reply demo_vote (from_millis 1000) demo_follower (proj1 demo_follower_inv)))
    as [_ [_ _ Hg _]]; [vm_compute; reflexivity|]. by apply Hg.
Defined.

(** A leader's first entry, and the same with one missing before it. *)
Definition demo_append (prev index : u64) : AppendEntries :=
  mkAppendEntries (u64_sat 5) node_b prev Term_ZERO
    [LogEntry_new (u64_sat 5) index [Byte.x2a]] LogIndex_ZERO u64_1.

Lemma demo_append_wf : ae_wf (demo_append u64_0 u64_1).
Proof.
  split_and!; [by split|by repeat constructor|]. apply Forall_singleton. simpl. lia.
Qed.

Lemma append_entries_correct_witness :
  append_outcome demo_follower (demo_append u64_0 u64_1)
    (handle_append_entries (demo_append u64_0 u64_1) (from_millis 1000) demo_follower).1
    (mkAppendEntriesResponse (u64_sat 5) true Term_ZERO LogIndex_ZERO u64_1 u64_1).
Proof.
  refine (a_outcome _ _ _ _ (wp_returned _ _ _ _ _ (append_entries_correct _ (from_millis 1000) demo_follower
    (proj1 demo_follower_inv) demo_append_wf) _)). vm_compute. reflexivity.
Defined.

Definition demo_accepted : AppendEntriesResponse :=
  mkAppendEntriesResponse (u64_sat 5) true Term_ZERO LogIndex_ZERO u64_1 u64_1.

Definition demo_appended : RaftNode RaftLog :=
  (handle_append_entries (demo_append u64_0 u64_1) (from_millis 1000) demo_follower).1.

Lemma demo_appended_eq :
  handle_append_entries (demo_append u64_0 u64_1) (from_millis 1000) demo_follower = (demo_appended, Ok demo_accepted).
Proof. unfold demo_appended. apply returned_eq. vm_compute. reflexivity. Qed.

#[global] Opaque demo_appended.

Lemma append_entries_idempotent_witness :
  v_entries (view (handle_append_entries (demo_append u64_0 u64_1) (from_millis 1000) demo_appended).1)
    = v_entries (view demo_appended).
Proof.
  refine (proj1 (proj2 (wp_returned _ _ _ _ demo_accepted (append_entries_idempotent _ (from_millis 1000)
    (from_millis 1000) _ _ _ (proj1 demo_follower_inv) demo_append_wf demo_appended_eq eq_refl) _))).
  vm_compute. reflexivity.
Defined.

(** A snapshot up to index 5. *)
Definition demo_snapshot : InstallSnapshot :=
  mkInstallSnapshot (u64_sat 7) node_c (u64_sat 5) (u64_sat 6) u64_0 [Byte.x2a] true (@boot boot_three).

Lemma demo_snapshot_wf : is_wf demo_snapshot.
Proof. split; [apply (@boot_good boot_three)|]. apply N.leb_le. vm_compute. reflexivity. Qed.

Lemma install_snapshot_correct_witness :
  install_outcome demo_follower demo_snapshot
    (handle_install_snapshot demo_snapshot (from_millis 1000) demo_follower).1.
Proof.
  refine (proj1 (proj2 (wp_returned _ _ _ _ (mkInstallSnapshotResponse (u64_sat 7))
    (install_snapshot_correct demo_snapshot (from_millis 1000) demo_follower (proj1 demo_follower_inv) demo_snapshot_wf) _))).
  vm_compute. reflexivity.
Defined.

Definition demo_meta : SnapshotMeta := mkSnapshotMeta u64_1 u64_1 (@boot boot_one).

Lemma compact_correct_witness :
  @compacted _ _ _ boot_one demo_leader [Byte.x2a] demo_meta (compact [Byte.x2a] demo_leader).1.
Proof.
  refine (proj2 (proj2 (wp_returned _ _ _ _ demo_meta
    (@compact_correct _ _ _ boot_one [Byte.x2a] demo_leader demo_leader_inv) _))).
  by_vm.
Defined.

Lemma membership_change_gate_witness :
  settled demo_leader ∧
  wrote demo_leader (λ i, mkLogEntry (node_term demo_leader) i (Config (mkClusterConfig
    (voters (active_config demo_leader)) None ({[node_b]} ∪ learners (active_config demo_leader)))))
    (propose_add_learner node_b (from_millis 1001) demo_leader).1.
Proof.
  destruct (wp_returned _ _ _ _ (default [] (returned (propose_add_learner node_b (from_millis 1001) demo_leader)))
    (proj2 (@membership_change_gate _ _ _ boot_one {[node_b]} node_b (from_millis 1001) demo_leader demo_leader_inv
      (proj1 demo_room_leader)))) as (_ & Hs & _ & _ & Hw); [|exact (conj Hs Hw)].
  apply is_Some_default. apply is_Some_by. vm_compute. reflexivity.
Defined.

(** The new leader has registered a read: at the entry that opened its term, under
    the number after the two it has used. *)
Definition reading_leader : RaftNode RaftLog := (start_read (from_millis 3003) new_leader).1.

Definition reading_state : LeaderState :=
  match n_role reading_leader with Leader state => state | _ => mkLeaderState ∅ ∅ u64_0 u64_0 [] end.

Lemma reading_leader_inv : @node_inv _ _ _ boot_three reading_leader.
Proof.
  assert (@node_inv _ _ _ boot_three new_leader) as Hn.
  { refine (proj2 (ci_servers _ _ (reachable_inv (Compaction0 := any_snapshot) (λ _, boot_three) handover_cluster _) _ _ new_leader_up)).
    eapply reachable_later; [apply committed_reachable|apply handover_run]. }
  pose proof (@start_read_spec _ _ _ boot_three (from_millis 3003) new_leader Hn) as Hs. unfold wp in Hs. unfold reading_leader.
  destruct (start_read (from_millis 3003) new_leader) as [n' [[rid outs]|e|]]; cbn [fst]; [|destruct Hs as [Hs _]|done].
  - apply Hs.
  - apply Hs.
Qed.

Lemma reading_leader_role : n_role reading_leader = Leader reading_state.
Proof.
  assert (is_leader reading_leader = true) as Hl by (vm_compute; reflexivity). unfold reading_state, is_leader in *.
  by destruct (n_role reading_leader).
Qed.

(** A reply to a message of before leaves the read waiting; one to the round that
    was sent with it makes a quorum. *)
Lemma read_index_correct_witness :
  n_read_results (note_leadership_ack node_c (u64_sat 2) reading_leader).1 = [] ∧
  n_read_results (note_leadership_ack node_c (u64_sat 3) reading_leader).1 = [(u64_1, inr (u64_sat 3))].
Proof.
  split.
  - destruct (wp_returned _ _ _ _ tt (proj2 (proj2 (@read_index_correct _ _ _ boot_three (from_millis 3004) node_c (u64_sat 2)
      reading_state reading_leader reading_leader_inv reading_leader_role)))) as [_ Hres]; [reflexivity|].
    rewrite Hres. vm_compute. reflexivity.
  - destruct (wp_returned _ _ _ _ tt (proj2 (proj2 (@read_index_correct _ _ _ boot_three (from_millis 3004) node_c (u64_sat 3)
      reading_state reading_leader reading_leader_inv reading_leader_role)))) as [_ Hres]; [reflexivity|].
    rewrite Hres. vm_compute. reflexivity.
Defined.

(** The numbers start again with every term, and a request of an earlier term is
    refused with the number it carried under the term of the server that refuses
    it. *)
Lemma old_request_echoed {L} `{RaftStore L} r now (n : RaftNode L) :
  ae_term r < node_term n → handle_append_entries r now n = (n, Ok (reject (node_term n) (ae_seq r))).
Proof.
  intros Hlt. unfold handle_append_entries, observe_term, mbind, eff_bind, gets. unfold node_term in *.
  rewrite (proj2 (N.ltb_ge _ _)) by lia. cbn. by rewrite (proj2 (N.ltb_lt _ _)).
Qed.

Definition follower_c : RaftNode RaftLog := default demo_follower (up_node handover_cluster node_c).

(** So a reply to a request of the first term, numbered while a server led then,
    confirms a read it has registered as leader of the second. *)
Lemma old_reply_confirms_read :
  let r := mkAppendEntries u64_1 node_b LogIndex_ZERO Term_ZERO [] LogIndex_ZERO (u64_sat 1000) in
  ∃ reply, handle_append_entries r (from_millis 3004) follower_c = (follower_c, Ok reply) ∧ u64_val (ae_term r) < node_term reading_leader ∧
    n_read_results (handle_append_entries_response node_c reply (from_millis 3005) reading_leader).1 = [(u64_1, inr (u64_sat 3))].
Proof.
  intros r. exists (reject (node_term follower_c) (u64_sat 1000)). split_and!.
  - apply old_request_echoed. apply N.ltb_lt. vm_compute. reflexivity.
  - apply N.ltb_lt. vm_compute. reflexivity.
  - vm_compute. reflexivity.
Qed.

Lemma crash_recovery_witness :
  wp (λ l, with_bootstrap node_a (@boot boot_one) l demo_rng NodeConfig_default (from_millis 2000))
    (λ n' _, @recovered _ _ _ boot_one node_a NodeConfig_default (view demo_leader) n' ∧
       ∀ i, config_at i (n_configs n') = config_at i (n_configs demo_leader))
    (λ e l', store_ok l' ∧ store_view l' = view demo_leader ∧ storage_fault e) (n_log demo_leader).
Proof. exact (@crash_recovery _ _ _ boot_one _ _ _ _ _ demo_leader_inv). Defined.

Lemma membership_follows_log_witness :
  in_force (@boot boot_one) (v_entries (view demo_leader)) u64_max (active_config demo_leader).
Proof.
  destruct (@membership_follows_log _ _ _ boot_one u64_1 demo_leader demo_leader_inv) as (_ & Hf & _).
  assert (@base_of boot_one (view demo_leader) = @boot boot_one) as E; [|by rewrite E in Hf].
  unfold base_of. replace (v_snapshot (view demo_leader)) with (@None (SnapshotMeta * bytes)); [done|].
  by_vm.
Defined.

(** ** The event loop *)

Section driver_theorems.
Context {L M : Type} `{RaftStoreSpec L} `{StateMachineSpec M} `{!Bootstrap} (m0 : M) (Hm0 : sm_good m0).
Implicit Types d : RaftDriver L M.

(** C11.  Every turn of the event loop, whatever woke it, returns and leaves the
    state machine exactly the replay of the log (from the snapshot, every committed
    entry once, in order) up to the commit index, with no proposal waiting for an
    index already applied; the commit index, term, vote and applied index only
    advance.  The loop stops only on a storage failure, with a healthy log on
    disk. *)
Theorem driver_event_correct d ev now :
  driver_inv m0 d → event_ok d ev →
  wp (driver_event ev now)
    (λ _ d', driver_inv m0 d' ∧ ext (d_node d) (d_node d') ∧
       u64_val (d_last_applied d) ≤ d_last_applied d')
    (stops_driver d) d.
Proof.
  intros Hd Hev. eapply wp_mono; [by apply driver_event_spec| |done].
  intros [] d' (Hd' & Hx & d1 & Hl & _ & Hset). split_and!; [done|done|].
  rewrite <-Hl. apply Hset.
Qed.

(** Applying: the loop applies the committed entries in order and then stops;
    every caller waiting for an index it applies is answered by the entry applied
    there, with success if the entry is of the term the caller proposed in or the
    caller reads, and otherwise with a refusal; and an answer that names an index
    names one that has been applied. *)
Theorem apply_committed_correct d :
  node_inv (d_node d) → commit_ok (d_node d) → in_step m0 d → proposals_ahead d →
  wp (apply_committed (S (N.to_nat (n_commit_index (d_node d) - d_last_applied d))))
    (λ _ d', in_step m0 d' ∧ proposals_ahead d' ∧ same (d_node d) (d_node d') ∧
       d_last_applied d' = n_commit_index (d_node d) ∧ settling d d' ∧ waiters_answered d d')
    (stops_driver d) d.
Proof. intros Hn Hc Hin Ha. apply apply_committed_spec; [done..|lia]. Qed.

(** Startup: a driver started with a fresh machine on a recovered node ends
    with the machine equal to the replay of the log up to the commit index. *)
Theorem driver_start_correct n :
  node_inv n → commit_ok n →
  wp driver_start (λ _ d', driver_inv m0 d' ∧ ext n (d_node d'))
    (stops_driver (RaftDriver_new n m0)) (RaftDriver_new n m0).
Proof. by apply driver_start_spec. Qed.

(** C15.  A linearizable read that waits for an index the state machine has already
    passed is never answered: no event resolves it, and after every event it waits
    for an index already passed still.  (A snapshot installed while a confirmed
    read waits brings this about.) *)
Theorem passed_read_never_answered d ev now w :
  driver_inv m0 d → event_ok d ev →
  w ∈ d_awaiting_apply d → w_expected_term w = None → u64_val (w_index w) ≤ d_last_applied d →
  wp (driver_event ev now)
    (λ _ d', driver_inv m0 d' ∧ w ∈ d_awaiting_apply d' ∧ u64_val (w_index w) ≤ d_last_applied d')
    (stops_driver d) d.
Proof.
  intros Hd Hev Hw Ht Hle. eapply wp_mono; [by apply driver_event_spec| |done].
  intros [] d' (Hd' & _ & d1 & Hl & Hsub & Hset). split_and!; [done| |].
  - apply (t_passed _ _ Hset); [by apply Hsub|done|by rewrite Hl].
  - pose proof (t_applied _ _ Hset). rewrite Hl in *. lia.
Qed.

End driver_theorems.

(** *** A driver that strands a read

    Follower [a] takes an entry from [c], which then falls silent; [a] stands for
    election, wins with the vote of [b], and serves a read.  The log of [b] lacks
    that entry, so its answer to the leader's message is a refusal, which confirms
    the read all the same; the read waits for index 2.  Meanwhile [c] comes back,
    leads, commits up to 5, compacts, and sends [a] its snapshot. *)

Definition stranding_events : list (Event * Instant) :=
  [(EvInbound (InAppendEntries (mkAppendEntries u64_1 node_c LogIndex_ZERO Term_ZERO
      [LogEntry_new u64_1 u64_1 [Byte.x2a]] LogIndex_ZERO u64_1) 0), from_millis 10);
   (EvTick, from_millis 1000);
   (EvPeerReply (PeerVote node_b (mkRequestVoteResponse (u64_sat 2) true)), from_millis 1001);
   (EvInbound (InReadIndex 1), from_millis 1002);
   (EvPeerReply (PeerAppend node_b (mkAppendEntriesResponse (u64_sat 2) false Term_ZERO u64_1 LogIndex_ZERO (u64_sat 3))),
     from_millis 1003);
   (EvInbound (InInstallSnapshot (mkInstallSnapshot (u64_sat 3) node_c (u64_sat 5) (u64_sat 3) u64_0 [Byte.x2a] true
      (@boot boot_three)) 2), from_millis 1004)].

Notation DemoDriver := (RaftDriver RaftLog Journal).

Definition demo_driver : DemoDriver := (driver_start (RaftDriver_new demo_follower [])).1.

Lemma demo_driver_inv : @driver_inv _ _ _ _ _ boot_three [] demo_driver.
Proof.
  refine (proj1 (wp_returned _ _ _ _ () (driver_start_spec [] I demo_follower (proj1 demo_follower_inv)
    (proj2 demo_follower_inv)) _)). vm_compute. reflexivity.
Qed.

Definition run_events (d : DemoDriver) (evs : list (Event * Instant)) : DemoDriver :=
  foldl (λ d p, (driver_event p.1 p.2 d).1) d evs.

Definition stranded_driver : DemoDriver := run_events demo_driver stranding_events.

Lemma first_event_ok (d : DemoDriver) r s :
  ae_wf r → ae_commit_wf r → u64_val (n_commit_index (d_node d)) = 0 → 
  Forall (λ e, 0 < u64_val (le_index e)) (ae_entries r) → event_ok d (EvInbound (InAppendEntries r s)).
Proof.
  intros Hwf Hcw Hc Hpos. split_and!; [done|done|]. intros e He Hle. rewrite Forall_forall in Hpos.
  specialize (Hpos e He). lia.
Qed.

Lemma stranding_turns : turns demo_driver stranding_events stranded_driver.
Proof.
  unfold stranded_driver, stranding_events, run_events. cbn [foldl fst snd].
  repeat (apply turns_cons; [|vm_compute; reflexivity|]); [..|apply turns_nil].
  - apply first_event_ok; [|apply N.leb_le; reflexivity|vm_compute; reflexivity|by repeat constructor].
    split_and!; [by split|by repeat constructor|]. apply Forall_singleton. simpl. lia.
  - split; [apply N.leb_le|apply N.ltb_lt]; vm_compute; reflexivity.
  - apply N.leb_le. vm_compute. reflexivity.
  - exact I.
  - apply N.leb_le. vm_compute. reflexivity.
  - split; [apply (@boot_good boot_three)|]. apply N.leb_le. vm_compute. reflexivity.
Qed.

Definition stranded_read : AppliedWaiter := mkAppliedWaiter (u64_sat 2) None 1.

#[export] Instance AppliedWaiter_eq_dec : EqDecision AppliedWaiter.
Proof. solve_decision. Defined.

Lemma stranded_waits : stranded_read ∈ d_awaiting_apply stranded_driver.
Proof. by_vm. Qed.

#[global] Opaque demo_driver stranded_driver.

Lemma passed_read_never_answered_witness :
  wp (driver_event EvTick (from_millis 5000))
    (λ _ d', @driver_inv _ _ _ _ _ boot_three [] d' ∧ stranded_read ∈ d_awaiting_apply d' ∧
       u64_val (w_index stranded_read) ≤ d_last_applied d')
    (stops_driver stranded_driver) stranded_driver.
Proof.
  refine (passed_read_never_answered [] I stranded_driver EvTick (from_millis 5000) stranded_read _ _ stranded_waits eq_refl _).
  - exact (turns_inv [] I _ _ _ stranding_turns demo_driver_inv).
  - split; [apply N.leb_le|apply N.ltb_lt]; vm_compute; reflexivity.
  - apply N.leb_le. vm_compute. reflexivity.
Defined.

Lemma driver_event_correct_witness :
  @driver_inv _ _ _ _ _ boot_three [] (driver_event EvTick (from_millis 1000) demo_driver).1.
Proof.
  refine (proj1 (wp_returned _ _ _ _ () (driver_event_correct [] I demo_driver EvTick (from_millis 1000) demo_driver_inv _) _)).
  - split; [apply N.leb_le|apply N.ltb_lt]; vm_compute; reflexivity.
  - vm_compute. reflexivity.
Defined.

Lemma driver_start_correct_witness :
  @driver_inv _ _ _ _ _ boot_three [] (driver_start (RaftDriver_new demo_follower [])).1.
Proof.
  refine (proj1 (wp_returned _ _ _ _ () (driver_start_correct [] I demo_follower (proj1 demo_follower_inv)
    (proj2 demo_follower_inv)) _)). vm_compute. reflexivity.
Defined.

(** A leader whose machine is one entry behind, with a read waiting for it. *)
Definition behind_driver : DemoDriver :=
  set_awaiting [mkAppliedWaiter u64_1 None 9] (RaftDriver_new demo_leader []).

Lemma apply_committed_correct_witness :
  waiters_answered behind_driver (apply_committed 2 behind_driver).1.
Proof.
  refine (proj2 (proj2 (proj2 (proj2 (proj2 (wp_returned _ _ _ _ ()
    (@apply_committed_correct _ _ _ _ _ boot_one [] behind_driver _ _ _ _) _)))))).
  - exact demo_leader_inv.
  - split; apply N.leb_le; vm_compute; reflexivity.
  - split_and!; [apply N.leb_le; vm_compute; reflexivity|apply N.leb_le; vm_compute; reflexivity|vm_compute; reflexivity].
  - intros w ->%list_elem_of_singleton [t [=]].
  - vm_compute. reflexivity.
Defined.

(** ** The redb log *)

(** C13.  The redb log implements the store the node is verified against, given that
    prost decodes what it encoded: each read returns what the abstract log says and
    changes nothing; each write either takes effect on the abstract log as a whole
    or, when a transaction fails, not at all; the log's values stay decodable; and
    a new database is the empty log. *)
Theorem redb_log_refines_store `{RaftCodecSpec} schedule i es m d h :
  Forall entry_canonical es → config_canonical (snap_config m) →
  (reads redb_ok redb_view (redb_get i) (view_get i) ∧
   reads redb_ok redb_view (redb_entries_from i) (view_entries_from i) ∧
   reads redb_ok redb_view redb_last_index_and_term view_last ∧
   reads redb_ok redb_view redb_first_index view_first ∧
   reads redb_ok redb_view redb_snapshot v_snapshot ∧
   reads redb_ok redb_view redb_load_hard_state v_hard) ∧
  (writes redb_ok redb_view (redb_append_all es) (view_append es) ∧
   writes redb_ok redb_view (redb_truncate_from i) (view_truncate i) ∧
   writes redb_ok redb_view (redb_compact_to m d) (view_compact m d) ∧
   writes redb_ok redb_view (redb_install_snapshot_replacing_log m d) (view_install m d) ∧
   writes redb_ok redb_view (redb_save_hard_state h) (view_save_hard h)) ∧
  redb_ok (redb_open schedule) ∧ redb_view (redb_open schedule) = view_empty.
Proof.
  intros Hes Hm. split_and!.
  - apply redb_get_reads.
  - apply redb_entries_from_reads.
  - apply redb_last_reads.
  - apply redb_first_reads.
  - apply redb_snapshot_reads.
  - apply redb_load_hard_reads.
  - by apply redb_append_writes.
  - apply redb_truncate_writes.
  - by apply redb_compact_writes.
  - by apply redb_install_writes.
  - apply redb_save_hard_writes.
  - apply redb_open_ok.
  - done.
Qed.

Lemma redb_log_refines_store_witness :
  writes redb_ok redb_view (redb_append_all [LogEntry_new u64_1 u64_1 [Byte.x2a]])
    (view_append [LogEntry_new u64_1 u64_1 [Byte.x2a]]) ∧
  redb_view (redb_open []) = view_empty.
Proof.
  destruct (redb_log_refines_store [] u64_1 [LogEntry_new u64_1 u64_1 [Byte.x2a]] demo_meta [] HardState_new)
    as (_ & (Ha & _) & _ & He); [by repeat constructor|apply (@boot_good boot_one)|exact (conj Ha He)].
Defined.
