(* ===== verification/RaftConsensus.v ===== *)
(** * brokkr-raft: consensus

    What a cluster of Raft nodes agrees on, in every state it can reach: the
    cluster refines the protocol of [RaftProtocol.v]; a term has one leader; logs
    match; leaders have every committed entry; no two servers, at no two points
    of a run, disagree on a committed entry; replicas that applied as many
    entries are in the same state.  Membership changes, snapshots, crashes,
    storage failures and an unreliable network are all included. *)

From stdpp Require Import prelude functions gmap strings.
From Stdlib Require Import Lia.
From S2P Require Import Prelude Machine Bytes RaftTypes RaftProtocol RaftAgreement RaftRng RaftWire RaftStore RaftStorage RaftConfig RaftNode RaftNodeSpec RaftReceiver RaftLogRel RaftHandlers RaftSim RaftDriver RaftDriverSpec RaftCluster RaftSafety RaftDemo.

Local Open Scope N_scope.

(** ** Replaying a log *)

Section replay_log.
Context {M : Type} `{StateMachineSpec M} (m0 : M) `{!Origin}.

(** The state the protocol's log prescribes. *)
Definition apply_all (l : list LogEntry) : M := foldl (λ s e, sm_apply e s) m0 l.

(** A snapshot is the state after the entries it replaces. *)
Definition state_of_prefix : SnapData := λ d P, d = sm_snapshot (apply_all P) ∧ sm_good (apply_all P).

(** A server takes snapshots of its own committed state. *)
Definition own_snapshots (L : Type) `{RaftStoreSpec L} : Compaction L :=
  λ n d, d = sm_snapshot (replay m0 (view n) (n_commit_index n)).

Local Existing Instance state_of_prefix.

Lemma replay_log l v i :
  log_rel l v → view_snap_index v ≤ i ≤ N.of_nat (length l) → replay m0 v i = apply_all (take (N.to_nat i) l).
Proof.
  intros Hr Hi. replace i with (view_snap_index v + N.of_nat (N.to_nat (i - view_snap_index v))) in * by lia.
  revert Hi. generalize (N.to_nat (i - view_snap_index v)) as k. induction k as [|k IH]; intros Hi.
  - rewrite N.add_0_r. unfold view_snap_index. destruct (v_snapshot v) as [[m d]|] eqn:Hs.
    + rewrite (replay_at_snapshot _ _ m d) by done. destruct (lr_snap _ _ Hr m d Hs) as (_ & _ & _ & -> & Hg).
      by apply restore_snapshot.
    + unfold replay, view_snap_index. by rewrite Hs.
  - replace (view_snap_index v + N.of_nat (S k)) with (view_snap_index v + N.of_nat k + 1) in * by lia.
    set (j := view_snap_index v + N.of_nat k) in *.
    destruct (lookup_lt_is_Some_2 l (N.to_nat j)) as [e He]; [lia|].
    rewrite (replay_step _ _ _ e).
    + rewrite IH by lia. replace (N.to_nat (j + 1)) with (S (N.to_nat j)) by lia.
      rewrite (take_S_r _ _ _ He). unfold apply_all. by rewrite foldl_app.
    + lia.
    + apply (lr_get l v); [done|lia|]. by replace (N.to_nat (j + 1) - 1)%nat with (N.to_nat j) by lia.
Qed.

End replay_log.

(** ** Agreement *)

Section consensus.
Context {L : Type} `{RaftStoreSpec L} `{!Compaction L}.
(** Every server was first started with the same voters. *)
Context (boots : NodeId → Bootstrap) (vs : gset NodeId).
Context (same_voters : ∀ id, votes_of (@boot (boots id)) = (vs, None)).

Implicit Types (n : RaftNode L) (s : Cluster L).

Local Instance voters_origin : Origin := vs.
Local Instance any_data : SnapData := λ _ _, True.

Lemma run_rel s s' :
  reachable boots s → rtc (step boots) s s' →
  ∃ a a', cluster_rel boots s a ∧ cluster_rel boots s' a' ∧ grows a a'.
Proof. by apply later_rel. Qed.

(** Two leaders of a term, at two points of a run. *)
Lemma leaders_meet s s' id id' n n' :
  reachable boots s → reachable boots s' → rtc (step boots) s s' ∨ rtc (step boots) s' s →
  servers s !! id = Some (Up n) → servers s' !! id' = Some (Up n') →
  is_leader n = true → is_leader n' = true → node_term n = node_term n' → id = id'.
Proof.
  assert (∀ s s' id id' n n', reachable boots s → rtc (step boots) s s' →
    servers s !! id = Some (Up n) → servers s' !! id' = Some (Up n') →
    is_leader n = true → is_leader n' = true → node_term n = node_term n' → id = id') as Hone.
  { clear s s' id id' n n'. intros s s' id id' n n' Hs Hrun Hn Hn' Hl Hl' Ht.
    destruct (run_rel s s' Hs Hrun) as (a & a' & Ha & Ha' & Hg).
    pose proof (cr_servers _ _ _ Ha _ _ Hn) as Hr. pose proof (cr_servers _ _ _ Ha' _ _ Hn') as Hr'.
    destruct (up_leader _ _ _ _ Hr Hl) as [m Hm], (up_leader _ _ _ _ Hr' Hl') as [m' Hm'].
    apply (one_leader a a' id id' m m'); [apply Ha|apply Ha'|done..|].
    by rewrite (rel_term _ _ _ Hr), (rel_term _ _ _ Hr'), Ht. }
  intros Hs Hs' [Hrun|Hrun] Hn Hn' Hl Hl' Ht; [by apply (Hone s s' id id' n n')|]. symmetry.
  by apply (Hone s' s id' id n' n).
Qed.

(** C1.  Refinement.  A cluster implements the Raft protocol: the initial states
    correspond to the protocol's, and every step of the cluster (a call that
    succeeds or fails, a crash, a restart) is a sequence of protocol steps of the
    one server that takes it, so that every reachable state corresponds to a
    reachable state of the protocol. *)
Theorem cluster_refines_protocol :
  (∀ s, initial s → cluster_rel boots s PState_new) ∧
  (∀ s s' a, cluster_inv boots s → cluster_rel boots s a → step boots s s' →
     ∃ id a', rtc (pstep id) a a' ∧ cluster_rel boots s' a') ∧
  ∀ s, reachable boots s → ∃ a, preach a ∧ cluster_rel boots s a.
Proof.
  split_and!; [by apply initial_rel| |by apply reachable_rel].
  intros s s' a Hinv Hr Hstep. exact (step_sim boots same_voters (λ _ _ _ _ _ _, I) s s' a Hinv Hr Hstep).
Qed.

(** C5.  Election safety.  In a run of a cluster, membership changes included, two
    servers that lead in the same term, at the same time or not, are the same
    server. *)
Theorem one_leader_per_term s s' id id' n n' :
  reachable boots s → rtc (step boots) s s' →
  servers s !! id = Some (Up n) → servers s' !! id' = Some (Up n') →
  is_leader n = true → is_leader n' = true → node_term n = node_term n' → id = id'.
Proof.
  intros Hs Hrun. apply leaders_meet; [done|by eapply reachable_later|by left].
Qed.

(** C9.  Log matching.  If the logs on the disks of two servers, running or not,
    hold entries of the same term at an index, they agree on every earlier index
    both still hold. *)
Theorem logs_match s id id' srv srv' i e e' :
  reachable boots s → servers s !! id = Some srv → servers s !! id' = Some srv' →
  v_entries (disk srv) !! i = Some e → v_entries (disk srv') !! i = Some e' → le_term e = le_term e' →
  ∀ j x x', j ≤ i → v_entries (disk srv) !! j = Some x → v_entries (disk srv') !! j = Some x' → x = x'.
Proof.
  intros Hs Hid Hid' He He' Ht j x x' Hj Hx Hx'. destruct (run_rel s s Hs (rtc_refl _ _)) as (a & _ & Ha & _ & _).
  pose proof (cr_servers _ _ _ Ha _ _ Hid) as Hr. pose proof (cr_servers _ _ _ Ha _ _ Hid') as Hr'.
  destruct (server_entry _ _ _ _ _ _ Hr He) as [Hl Hpos], (server_entry _ _ _ _ _ _ Hr' He') as [Hl' _].
  destruct (server_entry _ _ _ _ _ _ Hr Hx) as [Hlx Hpx], (server_entry _ _ _ _ _ _ Hr' Hx') as [Hlx' _].
  pose proof (lookup_lt_Some _ _ _ Hl). pose proof (lookup_lt_Some _ _ _ Hl').
  assert (take (N.to_nat i) (p_log (psrv a id)) = take (N.to_nat i) (p_log (psrv a id'))) as Heq.
  { apply log_matching; [apply Ha|lia|lia|]. replace (N.to_nat i) with (S (N.to_nat i - 1)) by lia.
    rewrite (term_of_lookup _ _ _ Hl), (term_of_lookup _ _ _ Hl'). unfold eterm. by rewrite Ht. }
  rewrite (take_eq_lookup (i := (N.to_nat j - 1)%nat) Heq) in Hlx by lia. congruence.
Qed.

(** C4.  Leader completeness.  A leader has, in its log or below its snapshot,
    every entry that any server of an earlier or the same term ever knew to be
    committed. *)
Theorem leader_has_every_committed_entry s s' id id' n n' :
  reachable boots s → rtc (step boots) s s' →
  servers s !! id = Some (Up n) → servers s' !! id' = Some (Up n') →
  is_leader n' = true → u64_val (node_term n) ≤ node_term n' →
  n_commit_index n ≤ view_last_index (view n') ∧
  ∀ i e, v_entries (view n) !! i = Some e → i ≤ n_commit_index n → view_snap_index (view n') < i →
    v_entries (view n') !! i = Some e.
Proof.
  intros Hs Hrun Hn Hn' Hl' Ht. destruct (run_rel s s' Hs Hrun) as (a & a' & Ha & Ha' & Hg).
  pose proof (cr_servers _ _ _ Ha _ _ Hn) as Hr. pose proof (cr_servers _ _ _ Ha' _ _ Hn') as Hr'.
  destruct (up_leader _ _ _ _ Hr' Hl') as [m' Hm'].
  pose proof (leader_has_committed_later a a' id' id m' (cr_prot _ _ _ Ha) (cr_prot _ _ _ Ha') Hg Hm') as Heq.
  rewrite (rel_term _ _ _ Hr), (rel_term _ _ _ Hr') in Heq. specialize (Heq Ht).
  pose proof (rel_commit _ _ _ Hr) as Hc. pose proof (up_commit _ _ _ _ Hr) as Hcm.
  pose proof (rel_log _ _ _ Hr') as Hlog'. split.
  - rewrite <-(lr_len _ _ Hlog'). pose proof (take_eq_length (eq_sym Heq)). lia.
  - intros i e He Hi Hsn. destruct (server_entry _ _ _ _ _ _ Hr He) as [Hl Hpos].
    apply (lr_get (p_log (psrv a' id'))); [done|done|].
    by rewrite (take_eq_lookup (i := (N.to_nat i - 1)%nat) Heq) by lia.
Qed.

(** C2.  State machine safety.  An entry a server has committed is final: no
    server, then or at any later point of the run, commits another one at that
    index. *)
Theorem state_machine_safety s s' id id' n n' i e e' :
  reachable boots s → rtc (step boots) s s' →
  servers s !! id = Some (Up n) → servers s' !! id' = Some (Up n') →
  v_entries (view n) !! i = Some e → i ≤ n_commit_index n →
  v_entries (view n') !! i = Some e' → i ≤ n_commit_index n' → e = e'.
Proof.
  intros Hs Hrun Hn Hn' He Hi He' Hi'. destruct (run_rel s s' Hs Hrun) as (a & a' & Ha & Ha' & Hg).
  pose proof (cr_servers _ _ _ Ha _ _ Hn) as Hr. pose proof (cr_servers _ _ _ Ha' _ _ Hn') as Hr'.
  destruct (server_entry _ _ _ _ _ _ Hr He) as [Hl Hpos], (server_entry _ _ _ _ _ _ Hr' He') as [Hl' _].
  pose proof (commit_agreement_later a a' id id' (cr_prot _ _ _ Ha) (cr_prot _ _ _ Ha') Hg) as Heq. cbv zeta in Heq.
  rewrite (up_commit _ _ _ _ Hr), (up_commit _ _ _ _ Hr') in Heq.
  rewrite (take_eq_lookup (i := (N.to_nat i - 1)%nat) Heq) in Hl by lia. congruence.
Qed.

(** The commit index of a running server lies between its snapshot and the
    end of its log, and no step of the cluster moves it back, whatever requests
    arrive: the leaders' requests respect what is committed. *)
Theorem commit_index_never_falls s s' id n n' :
  reachable boots s → step boots s s' →
  servers s !! id = Some (Up n) → servers s' !! id = Some (Up n') →
  commit_ok n ∧ commit_ok n' ∧ u64_val (n_commit_index n) ≤ n_commit_index n'.
Proof.
  intros Hs Hstep Hn Hn'. destruct (run_rel s s' Hs (rtc_once _ _ Hstep)) as (a & a' & Ha & Ha' & _).
  split_and!; [exact (up_commit_ok _ _ _ _ (cr_servers _ _ _ Ha _ _ Hn))
    |exact (up_commit_ok _ _ _ _ (cr_servers _ _ _ Ha' _ _ Hn'))|].
  destruct Hstep as [id1 src n1 c now n2 outs rep Hid Hen Hun Hc|id1 src n1 c now n2 e Hid Hen Hun Hc Hsv
    |id1 src n1 c now n2 e Hid Hen Hun Hc|id1 n1 Hid|id1 l rng config now l' n1 Hid Hb|id1 l rng config now l' e Hid Hb];
    simpl in Hn'; apply lookup_insert_Some in Hn' as [[-> ?]|[_ ?]]; simplify_eq; try done.
  - by apply (call_commit boots s a _ src _ c now _ _ (reachable_inv _ _ Hs) Ha Hid Hen Hun Hc).
  - apply (call_commit boots s a _ src _ c now _ _ (reachable_inv _ _ Hs) Ha Hid Hen Hun Hc); [|done].
    by intros e' [= <-].
Qed.

End consensus.

(** ** Replicas *)

Section replicas.
Context {L M : Type} `{RaftStoreSpec L} `{StateMachineSpec M}.
Context (m0 : M) (Hm0 : sm_good m0).
Context (boots : NodeId → Bootstrap) (vs : gset NodeId).
Context (same_voters : ∀ id, votes_of (@boot (boots id)) = (vs, None)).

Implicit Types (n : RaftNode L) (s : Cluster L) (d : RaftDriver L M).

Local Instance shared_origin : Origin := vs.
Local Instance prefix_data : SnapData := state_of_prefix m0.
Local Instance own_compaction : Compaction L := own_snapshots m0 L.

(** The state a running server's log prescribes, in the protocol. *)
Lemma up_replay id n a i :
  server_rel boots id (Up n) a → view_snap_index (view n) ≤ i ≤ n_commit_index n →
  replay m0 (view n) i = apply_all m0 (take (N.to_nat i) (p_log (psrv a id))).
Proof.
  intros Hr Hi. pose proof (rel_commit _ _ _ Hr). apply (replay_log m0 _ (view n)); [exact (rel_log _ _ _ Hr)|lia].
Qed.

Lemma own_snapshots_taken id n a data :
  server_rel boots id (Up n) a → compactable n data →
  snap_data data (take (pos (n_commit_index n)) (p_log (psrv a id))).
Proof.
  intros Hr ->. pose proof (rel_commit _ _ _ Hr) as Hc.
  unfold snap_data, prefix_data, state_of_prefix. rewrite <-(up_replay id n a) by (done || lia).
  split; [done|]. apply replay_good; [done|]. apply (nr_inv _ _ _ Hr).
Qed.

(** The entries a server knows to be committed, at or below an index, are those of a
    list. *)
Definition commits_within (log : list LogEntry) n : Prop :=
  ∀ i e, v_entries (view n) !! i = Some e → i ≤ n_commit_index n → i ≤ N.of_nat (length log) →
    log !! (N.to_nat i - 1)%nat = Some e.

Lemma commits_within_up a a' id id' n n' :
  server_rel boots id (Up n) a → server_rel boots id' (Up n') a' → pinv a → pinv a' → grows a a' →
  commits_within (take (pos (n_commit_index n')) (p_log (psrv a' id'))) n.
Proof using.
  intros Hr Hr' Hi Hi' Hg i e He Hc Hlen. destruct (server_entry _ _ _ _ _ _ Hr He) as [Hl Hpos].
  pose proof (commit_agreement_later a a' id id' Hi Hi' Hg) as Heq. cbv zeta in Heq.
  rewrite (up_commit _ _ _ _ Hr), (up_commit _ _ _ _ Hr') in Heq. rewrite length_take in Hlen.
  rewrite lookup_take_lt by lia. by rewrite <-(take_eq_lookup (i := (N.to_nat i - 1)%nat) Heq) by lia.
Qed.

(** A machine at the end of a prefix of the log is taken further by the entries on
    the disk. *)
Lemma apply_range_log l v i k m :
  log_rel l v → view_snap_index v ≤ i → i + N.of_nat k ≤ N.of_nat (length l) →
  apply_range (v_entries v) i k m = foldl (λ m e, sm_apply e m) m (take k (drop (N.to_nat i) l)).
Proof using.
  intros Hr. revert i m. induction k as [|k IH]; intros i m Hsn Hlen; [done|].
  destruct (lookup_lt_is_Some_2 l (N.to_nat i)) as [e He]; [lia|].
  assert (v_entries v !! (i + 1) = Some e) as Hv.
  { apply (lr_get l v); [done|lia|]. by replace (N.to_nat (i + 1) - 1)%nat with (N.to_nat i) by lia. }
  cbn [apply_range]. rewrite Hv, IH by lia. rewrite (drop_S _ _ _ He). cbn [take foldl].
  by replace (N.to_nat (i + 1)) with (S (N.to_nat i)) by lia.
Qed.

(** C3.  Replicated state.  In a run of servers that start from the same voters and
    compact by snapshots of their own state, take the event loops of two of them,
    at the same time or not, the second having applied no less than the first.
    There is one log, of as many entries as the second has applied, that agrees
    with every committed entry on the disk of every server running at either time;
    the state machine of the second is the initial one with the entries of that log
    applied in order, that of the first with as many of them as it has applied, and
    so the second is ahead by exactly the entries in between.  Where the disk of
    the second still holds these entries, they are those on it. *)
Theorem replicas_agree s s' id id' d d' :
  reachable boots s → rtc (step boots) s s' →
  servers s !! id = Some (Up (d_node d)) → servers s' !! id' = Some (Up (d_node d')) →
  @driver_inv L M _ _ _ (boots id) m0 d → @driver_inv L M _ _ _ (boots id') m0 d' →
  u64_val (d_last_applied d) ≤ d_last_applied d' →
  (∃ log, N.of_nat (length log) = d_last_applied d' ∧
    (∀ t id2 n, t = s ∨ t = s' → servers t !! id2 = Some (Up n) → commits_within log n) ∧
    d_machine d' = foldl (λ m e, sm_apply e m) m0 log ∧
    d_machine d = foldl (λ m e, sm_apply e m) m0 (take (pos (d_last_applied d)) log) ∧
    d_machine d' = foldl (λ m e, sm_apply e m) (d_machine d) (drop (pos (d_last_applied d)) log)) ∧
  (view_snap_index (view (d_node d')) ≤ d_last_applied d →
   d_machine d' = apply_range (v_entries (view (d_node d'))) (d_last_applied d)
     (N.to_nat (d_last_applied d' - d_last_applied d)) (d_machine d)).
Proof.
  intros Hs Hrun Hn Hn' [_ Hc Hla Hmd _] [_ Hc' Hla' Hmd' _] Hle.
  destruct (later_rel boots same_voters own_snapshots_taken s s' Hs Hrun) as (a & a' & Ha & Ha' & Hg).
  pose proof (cr_servers _ _ _ Ha _ _ Hn) as Hr. pose proof (cr_servers _ _ _ Ha' _ _ Hn') as Hr'.
  pose proof (commit_agreement_later a a' id id' (cr_prot _ _ _ Ha) (cr_prot _ _ _ Ha') Hg) as Heq. cbv zeta in Heq.
  rewrite (up_commit _ _ _ _ Hr), (up_commit _ _ _ _ Hr'), <-Hla, <-Hla', Nat.min_l in Heq by lia.
  destruct Hc as [Hc _], Hc' as [Hc' _]. pose proof (rel_commit _ _ _ Hr') as Hlen. rewrite <-Hla' in Hlen.
  set (l' := p_log (psrv a' id')) in *.
  assert (d_machine d' = apply_all m0 (take (pos (d_last_applied d')) l')) as Hm'.
  { rewrite Hmd'. apply (up_replay id' _ a'); [done|]. by rewrite Hla'. }
  assert (d_machine d = apply_all m0 (take (pos (d_last_applied d)) l')) as Hm.
  { rewrite Hmd, <-Heq. apply (up_replay id _ a); [done|]. by rewrite Hla. }
  assert (d_machine d' = foldl (λ m e, sm_apply e m) (d_machine d) (drop (pos (d_last_applied d)) (take (pos (d_last_applied d')) l'))) as Hdiff.
  { rewrite Hm, Hm'. unfold apply_all. rewrite <-foldl_app. f_equal.
    rewrite <-(take_drop (pos (d_last_applied d)) (take (pos (d_last_applied d')) l')) at 1.
    f_equal. rewrite take_take, Nat.min_l by lia. done. }
  split.
  - exists (take (pos (d_last_applied d')) l'). split_and!; [rewrite length_take; lia| |done| |done].
    + intros t id2 n Ht Hn2. rewrite Hla'. destruct Ht as [->| ->].
      * by eapply commits_within_up; [apply (cr_servers _ _ _ Ha _ _ Hn2)|exact Hr'|apply Ha|apply Ha'|].
      * by eapply commits_within_up; [apply (cr_servers _ _ _ Ha' _ _ Hn2)|exact Hr'|apply Ha'|apply Ha'|apply grows_refl].
    + by rewrite take_take, Nat.min_l by lia.
  - intros Hsn. rewrite (apply_range_log l'); [|exact (rel_log _ _ _ Hr')|done|lia].
    rewrite Hdiff, take_drop_commute. do 3 f_equal. lia.
Qed.

End replicas.

(** ** The theorems on a run of three servers *)

Notation three := (voters (@boot boot_three)).

Lemma three_share : ∀ id : NodeId, votes_of (@boot ((λ _, boot_three) id)) = (three, None).
Proof. done. Qed.

Lemma cluster_refines_protocol_witness :
  ∃ a, preach (H := voters_origin three) a ∧
    @cluster_rel RaftLog _ _ (voters_origin three) any_data (λ _, boot_three) committed_cluster a.
Proof.
  apply (cluster_refines_protocol (Compaction0 := any_snapshot) (λ _, boot_three) three three_share).
  apply committed_reachable.
Defined.

Lemma one_leader_per_term_witness :
  Forall (λ id, ∀ n, servers handover_cluster !! id = Some (Up n) → is_leader n = true →
    node_term old_leader = node_term n → node_a = id) [node_a; node_b; node_c].
Proof.
  apply Forall_forall. intros id _ n Hn Hl Ht.
  exact (one_leader_per_term (Compaction0 := any_snapshot) (λ _, boot_three) three three_share _ _ _ _ _ _
    committed_reachable handover_run old_leader_up Hn (proj1 old_leader_state) Hl Ht).
Defined.

Lemma logs_match_witness : opening = opening.
Proof.
  refine (logs_match (Compaction0 := any_snapshot) (λ _, boot_three) three three_share _ _ _ _ _ 2 written written
    committed_reachable old_leader_up follower_b_up old_leader_entry follower_b_entry eq_refl 1 opening opening
    _ (proj1 opening_entries) (proj2 opening_entries)). lia.
Defined.

Lemma leader_has_every_committed_entry_witness :
  n_commit_index old_leader ≤ view_last_index (view new_leader) ∧
  ∀ i e, v_entries (view old_leader) !! i = Some e → i ≤ n_commit_index old_leader →
    view_snap_index (view new_leader) < i → v_entries (view new_leader) !! i = Some e.
Proof.
  refine (leader_has_every_committed_entry (Compaction0 := any_snapshot) (λ _, boot_three) three three_share _ _ _ _ _ _
    committed_reachable handover_run old_leader_up new_leader_up (proj1 new_leader_state) _).
  rewrite (proj1 (proj2 old_leader_state)), (proj1 (proj2 new_leader_state)). lia.
Defined.

Lemma state_machine_safety_witness : written = written.
Proof.
  refine (state_machine_safety (Compaction0 := any_snapshot) (λ _, boot_three) three three_share _ _ _ _ _ _ 2 _ _
    committed_reachable handover_run old_leader_up new_leader_up old_leader_entry _ new_leader_entry _).
  - rewrite (proj2 (proj2 old_leader_state)). lia.
  - rewrite (proj2 (proj2 new_leader_state)). lia.
Defined.

Lemma commit_index_never_falls_witness :
  commit_ok waiting_leader ∧ commit_ok old_leader ∧ u64_val (n_commit_index waiting_leader) ≤ n_commit_index old_leader.
Proof.
  exact (commit_index_never_falls (Compaction0 := any_snapshot) (λ _, boot_three) three three_share _ _ _ _ _
    replicated_reachable commit_step waiting_leader_up old_leader_up).
Defined.

(** The event loops of the two leaders, each having applied both entries. *)
Definition loop_of (n : RaftNode RaftLog) (m : Journal) : RaftDriver RaftLog Journal :=
  mkRaftDriver n m (n_commit_index n) [] ∅ [] [].

Lemma loop_inv n m s id :
  reachable (Compaction0 := any_snapshot) (λ _, boot_three) s → servers s !! id = Some (Up n) →
  commit_ok n → m = replay [] (view n) (n_commit_index n) →
  @driver_inv RaftLog Journal _ _ _ boot_three [] (loop_of n m).
Proof.
  intros Hs Hn Hc Hm. destruct (ci_servers _ _ (reachable_inv _ _ Hs) _ _ Hn) as [_ Hinv].
  split; [exact Hinv|exact Hc|done|exact Hm|]. intros w Hw. by apply elem_of_nil in Hw.
Qed.

Lemma leaders_replayed :
  [Byte.x2a] = replay [] (view old_leader) (n_commit_index old_leader) ∧
  [Byte.x2a] = replay [] (view new_leader) (n_commit_index new_leader).
Proof. split; vm_compute; reflexivity. Qed.

Lemma leaders_commit_ok : commit_ok old_leader ∧ commit_ok new_leader.
Proof. split; split; apply N.leb_le; vm_compute; reflexivity. Qed.

Lemma replicas_agree_witness :
  (∃ log, N.of_nat (length log) = n_commit_index new_leader ∧
    (∀ t id n, t = committed_cluster ∨ t = handover_cluster → servers t !! id = Some (Up n) → commits_within log n) ∧
    [Byte.x2a] = foldl (λ m e, sm_apply e m) ([] : Journal) log ∧
    [Byte.x2a] = foldl (λ m e, sm_apply e m) ([] : Journal) (take (pos (n_commit_index old_leader)) log) ∧
    [Byte.x2a] = foldl (λ m e, sm_apply e m) ([Byte.x2a] : Journal) (drop (pos (n_commit_index old_leader)) log)).
Proof.
  refine (proj1 (replicas_agree [] I (λ _, boot_three) three three_share committed_cluster handover_cluster node_a node_b
    (loop_of old_leader [Byte.x2a]) (loop_of new_leader [Byte.x2a]) committed_reachable handover_run
    old_leader_up new_leader_up _ _ _)).
  - exact (loop_inv _ _ _ _ committed_reachable old_leader_up (proj1 leaders_commit_ok) (proj1 leaders_replayed)).
  - apply (loop_inv _ _ handover_cluster node_b);
      [apply (reachable_later _ committed_cluster); [apply committed_reachable|apply handover_run]
      |apply new_leader_up|apply leaders_commit_ok|apply leaders_replayed].
  - simpl. rewrite (proj2 (proj2 old_leader_state)), (proj2 (proj2 new_leader_state)). lia.
Defined.
