(* ===== verification/RaftKv.v ===== *)
(** * brokkr-control: the key-value store on the raft log

    Models [crates/brokkr-control/src/raftkv.rs]: the commands, the state machine
    with its snapshot format, and the [MetaKv] backend over a [RaftHandle].
    prost's encodings of a command and of a node record, and the text of a raft
    error, are parameters.  A poisoned lock is taken over by the code and so has
    no effect here. *)

From stdpp Require Import prelude gmap strings sorting.
From Stdlib Require Import Lia Strings.Byte.
From S2P Require Import Prelude Machine Bytes Common Redb Cas CasBackends ActionCache MetaKv.
From S2P Require Import RaftTypes RaftRng RaftWire RaftStore RaftConfig RaftNode RaftNodeSpec RaftDriver RaftDriverSpec.

Local Open Scope N_scope.

(** ** Commands *)

Record KvCommand : Type := mkKvCommand {
  op : N;
  cmd_key : bytes;
  cmd_value : bytes
}.

Definition KV_OP_PUT : N := 1.
Definition KV_OP_DELETE : N := 2.

Definition CFG_NODES_PREFIX : bytes := as_bytes "cfg/nodes/".
Definition node_record_key (node_id : string) : bytes := CFG_NODES_PREFIX ++ as_bytes node_id.

Record NodeRecord : Type := mkNodeRecord { advertise_addr : string }.

Class KvCodec : Type := {
  enc_command : KvCommand → bytes;
  dec_command : bytes → string + KvCommand;
  enc_record : NodeRecord → bytes;
  dec_record : bytes → string + NodeRecord;
  raft_error_text : RaftError → string
}.

(** prost decodes what it encoded, and a decoded field is part of the message. *)
Class KvCodecSpec `{KvCodec} : Prop := {
  dec_enc_command c : op c < 2 ^ 32 → command_ok (cmd_key c) → command_ok (cmd_value c) →
    dec_command (enc_command c) = inr c;
  dec_command_length b c : dec_command b = inr c →
    (length (cmd_key c) ≤ length b ∧ length (cmd_value c) ≤ length b)%nat;
  dec_enc_record r : dec_record (enc_record r) = inr r
}.

(** ** The state machine *)

(** The map the machine and its readers share. *)
Notation KvMachine := (gmap bytes bytes).

Section machine.
Context `{KvCodec}.

Definition kv_apply (entry : LogEntry) (map : KvMachine) : KvMachine :=
  match LogEntry_command entry with
  | None => map
  | Some command =>
      match dec_command command with
      | inl _ => map
      | inr decoded =>
          if op decoded =? KV_OP_PUT then <[cmd_key decoded := cmd_value decoded]> map
          else if op decoded =? KV_OP_DELETE then delete (cmd_key decoded) map
          else map
      end
  end.

(** [(len as u32).to_le_bytes()] and the bytes. *)
Definition chunk (b : bytes) : bytes := le_bytes 4 (N.of_nat (length b)) ++ b.

Definition pair_chunks (p : bytes * bytes) : bytes := chunk p.1 ++ chunk p.2.

Definition kv_snapshot (map : KvMachine) : bytes := bmap_asc map ≫= pair_chunks.

Definition take_chunk (b : bytes) : option (bytes * bytes) :=
  if (length b <? 4)%nat then None
  else
    let len := N.to_nat (from_le (take 4 b)) in
    let rest := drop 4 b in
    if (length rest <? len)%nat then None
    else Some (take len rest, drop len rest).

(** The loop of [restore]; an iteration takes at least eight bytes, so the length
    of the snapshot is fuel enough. *)
Fixpoint restore_loop (fuel : nat) (rest : bytes) (rebuilt : KvMachine) : KvMachine :=
  match fuel with
  | O => rebuilt
  | S fuel =>
      if (length rest <? 4)%nat then rebuilt
      else match take_chunk rest with
           | None => rebuilt
           | Some (key, after) =>
               match take_chunk after with
               | None => rebuilt
               | Some (value, after) => restore_loop fuel after (<[key := value]> rebuilt)
               end
           end
  end.

Definition kv_restore (snapshot : bytes) (_ : KvMachine) : KvMachine := restore_loop (length snapshot) snapshot ∅.

#[export] Instance KvMachine_machine : StateMachine KvMachine := {
  sm_apply := kv_apply;
  sm_snapshot := kv_snapshot;
  sm_restore := kv_restore
}.

End machine.

(** ** The machine keeps the driver's contract *)

(** What fits the length prefixes. *)
Definition kv_good (m : KvMachine) : Prop := ∀ k v, m !! k = Some v → command_ok k ∧ command_ok v.

Lemma byte_bound b : Byte.to_N b < 256.
Proof. pose proof (Byte.to_N_bounded b). lia. Qed.

Lemma take_chunk_ok b k r : take_chunk b = Some (k, r) → command_ok k ∧ (length r + 4 ≤ length b)%nat.
Proof.
  unfold take_chunk. destruct (Nat.ltb_spec (length b) 4); [done|]. cbv zeta.
  destruct (Nat.ltb_spec (length (drop 4 b)) (N.to_nat (from_le (take 4 b)))) as [|Hl]; [done|].
  intros [= <- <-]. rewrite length_drop in Hl. split; [|rewrite !length_drop; lia].
  unfold command_ok, command_max. rewrite length_take, length_drop.
  assert (from_le (take 4 b) < 2 ^ 32); [|lia].
  destruct b as [|b0 [|b1 [|b2 [|b3 b]]]]; simpl in *; try lia.
  pose proof (byte_bound b0). pose proof (byte_bound b1). pose proof (byte_bound b2). pose proof (byte_bound b3). lia.
Qed.

Lemma take_chunk_chunk b r : command_ok b → take_chunk (chunk b ++ r) = Some (b, r).
Proof.
  unfold command_ok, command_max, take_chunk, chunk. intros Hb. rewrite <-app_assoc.
  pose proof (le_bytes_length 4 (N.of_nat (length b))) as Hl.
  destruct (Nat.ltb_spec (length (le_bytes 4 (N.of_nat (length b)) ++ b ++ r)) 4) as [Hlt|_]; [rewrite length_app in Hlt; lia|].
  rewrite take_app_length', drop_app_length' by lia. rewrite from_le_bytes, N.mod_small by (simpl; lia).
  rewrite Nat2N.id. cbv zeta. destruct (Nat.ltb_spec (length (b ++ r)) (length b)) as [Hlt|_]; [rewrite length_app in Hlt; lia|].
  by rewrite take_app_length, drop_app_length.
Qed.

Lemma restore_loop_good fuel b m : kv_good m → kv_good (restore_loop fuel b m).
Proof.
  revert b m. induction fuel as [|fuel IH]; intros b m Hm; simpl; [done|].
  destruct (length b <? 4)%nat; [done|]. destruct (take_chunk b) as [[k r]|] eqn:Hk; [|done].
  destruct (take_chunk r) as [[v r']|] eqn:Hv; [|done]. apply IH. intros k' v' [[<- <-]|[_ ?]]%lookup_insert_Some; [|by apply Hm].
  split; by eapply take_chunk_ok.
Qed.

Lemma restore_loop_pairs l fuel m :
  (∀ k v, (k, v) ∈ l → command_ok k ∧ command_ok v) → (length (l ≫= pair_chunks) ≤ fuel)%nat →
  restore_loop fuel (l ≫= pair_chunks) m = foldl (λ m p, <[p.1 := p.2]> m) m l.
Proof.
  revert fuel m. induction l as [|[k v] l IH]; intros fuel m Hl Hf; [by destruct fuel|].
  destruct (Hl k v) as [Hk Hv]; [set_solver|].
  assert (((k, v) :: l) ≫= pair_chunks = chunk k ++ chunk v ++ (l ≫= pair_chunks)) as Heq.
  { change (pair_chunks (k, v) ++ (l ≫= pair_chunks) = chunk k ++ chunk v ++ (l ≫= pair_chunks)). by rewrite app_assoc. }
  rewrite Heq in *.
  assert (4 ≤ length (chunk k))%nat as H4 by (unfold chunk; rewrite length_app, le_bytes_length; lia).
  destruct fuel as [|fuel]; [rewrite length_app in Hf; lia|]. cbn [restore_loop].
  destruct (Nat.ltb_spec (length (chunk k ++ chunk v ++ (l ≫= pair_chunks))) 4) as [Hlt|_]; [rewrite length_app in Hlt; lia|].
  rewrite !take_chunk_chunk by done. apply IH; [intros; apply Hl; set_solver|]. rewrite !length_app in Hf. lia.
Qed.

Lemma foldl_insert_map (m : gmap bytes bytes) : foldl (λ m p, <[p.1 := p.2]> m) ∅ (bmap_asc m) = m.
Proof.
  trans (list_to_map (bmap_asc m) : gmap bytes bytes).
  - assert (∀ l (m0 : gmap bytes bytes), NoDup l.*1 → foldl (λ m p, <[p.1 := p.2]> m) m0 l = list_to_map l ∪ m0) as Hg.
    { induction l as [|p l IH]; intros m0 Hnd; simpl; [by rewrite (left_id_L ∅ (∪))|].
      simpl in Hnd. apply NoDup_cons in Hnd as [Hp Hnd]. rewrite IH by done.
      rewrite <-insert_union_l, <-insert_union_r; [done|]. by apply not_elem_of_list_to_map_1. }
    rewrite Hg by apply bmap_asc_NoDup. by rewrite (right_id_L ∅ (∪)).
  - rewrite (list_to_map_proper _ (map_to_list m)); [apply list_to_map_to_list|apply bmap_asc_NoDup|].
    apply merge_sort_Permutation.
Qed.

Section machine_spec.
Context `{KvCodecSpec}.

Lemma kv_apply_good e m : entry_ok e → kv_good m → kv_good (kv_apply e m).
Proof.
  intros [_ He] Hm. unfold kv_apply, LogEntry_command. destruct (le_payload e) as [c| |]; [|done..].
  destruct (dec_command c) as [|d] eqn:Hd; [done|]. destruct (dec_command_length _ _ Hd) as [Hk Hv].
  unfold command_ok in *. destruct (_ =? _); [|destruct (_ =? _); [|done]].
  - intros k v [[<- <-]|[_ ?]]%lookup_insert_Some; [|by apply Hm]. unfold command_ok. split; lia.
  - intros k v [_ ?]%lookup_delete_Some. by apply Hm.
Qed.

#[export] Instance KvMachine_spec : StateMachineSpec KvMachine.
Proof.
  refine {| sm_good := kv_good |}.
  - intros e m. apply kv_apply_good.
  - intros b m. apply restore_loop_good. intros k v. by rewrite lookup_empty.
  - done.
  - intros m m' Hm. simpl. unfold kv_restore, kv_snapshot.
    rewrite restore_loop_pairs; [apply foldl_insert_map| |done]. intros k v Hin. apply bmap_asc_elem in Hin. by apply Hm.
Defined.

End machine_spec.

(** ** What a log prescribes for a key *)

Section log_value.
Context `{KvCodec}.

(** What an entry writes to [key]: a value, a deletion, or nothing. *)
Definition entry_write (e : LogEntry) (key : bytes) : option (option bytes) :=
  command ← LogEntry_command e;
  match dec_command command with
  | inl _ => None
  | inr c =>
      if decide (cmd_key c = key) then
        if op c =? KV_OP_PUT then Some (Some (cmd_value c))
        else if op c =? KV_OP_DELETE then Some None else None
      else None
  end.

(** The last write to [key] wins. *)
Definition last_write (key : bytes) (es : list LogEntry) (base : option bytes) : option bytes :=
  foldl (λ v e, default v (entry_write e key)) base es.

(** The entries after [i], [k] of them. *)
Fixpoint range_entries (m : gmap N LogEntry) (i : N) (k : nat) : list LogEntry :=
  match k with
  | O => []
  | S k => option_list (m !! (i + 1)) ++ range_entries m (i + 1) k
  end.

(** The value of [key] after the entries up to [i]: the last write among those
    after the snapshot, or else what the snapshot says. *)
Definition committed_value (v : LogView) (i : N) (key : bytes) : option bytes :=
  last_write key (range_entries (v_entries v) (view_snap_index v) (N.to_nat (i - view_snap_index v)))
    (match v_snapshot v with Some (_, blob) => kv_restore blob ∅ | None => ∅ end !! key).

Lemma kv_apply_lookup e m key : kv_apply e m !! key = default (m !! key) (entry_write e key).
Proof.
  unfold kv_apply, entry_write. destruct (LogEntry_command e) as [b|]; simpl; [|done].
  destruct (dec_command b) as [|c]; [done|]. case_decide as Hk.
  - subst key. destruct (op c =? KV_OP_PUT); [by rewrite lookup_insert_eq|].
    destruct (op c =? KV_OP_DELETE); [by rewrite lookup_delete_eq|done].
  - destruct (op c =? KV_OP_PUT); [by rewrite lookup_insert_ne|].
    destruct (op c =? KV_OP_DELETE); [by rewrite lookup_delete_ne|done].
Qed.

Lemma apply_range_lookup m i k s key :
  apply_range m i k s !! key = last_write key (range_entries m i k) (s !! key).
Proof.
  revert i s. induction k as [|k IH]; intros i s; [done|]. cbn [apply_range range_entries]. rewrite IH.
  unfold last_write. rewrite foldl_app. f_equal. destruct (m !! (i + 1)) as [e|]; [|done]. simpl. apply kv_apply_lookup.
Qed.

Lemma replay_lookup v i key : replay ∅ v i !! key = committed_value v i key.
Proof. unfold replay, committed_value. rewrite apply_range_lookup. by destruct (v_snapshot v) as [[]|]. Qed.

End log_value.

(** ** The backend *)

(** A [RaftHandle] and the map its machine shares with the readers; what the
    calls do is the driver's. *)
Class RaftHandle (R : Type) : Type := {
  propose_committed : bytes → eff R RaftError LogIndex;
  read_index : eff R RaftError LogIndex;
  handle_status : eff R RaftError DriverStatus;
  shared_map : R → KvMachine
}.

Record RaftKv (R : Type) : Type := mkRaftKv { rk_handle : R }.
Arguments mkRaftKv {R}.
Arguments rk_handle {R}.

Section backend.
Context {R : Type} `{RaftHandle R, KvCodec}.

Notation M := (eff (RaftKv R) MetaKvError).

Definition read_map (s : RaftKv R) : KvMachine := shared_map (rk_handle s).

Definition published_addr (s : RaftKv R) (node_id : string) : option string :=
  raw ← read_map s !! node_record_key node_id;
  match dec_record raw with
  | inr record => if String.eqb (advertise_addr record) "" then None else Some (advertise_addr record)
  | inl _ => None
  end.

Definition kv_err (s : RaftKv R) (e : RaftError) : MetaKvError :=
  match e with
  | NotLeader leader => KvNotLeader leader (leader ≫= published_addr s)
  | other => KvStorage (raft_error_text other)
  end.

(** A call on the handle, its error mapped in the state it left. *)
Definition on_handle {A} (m : eff R RaftError A) : M A := λ s,
  match m (rk_handle s) with
  | (h, Ok a) => (mkRaftKv h, Ok a)
  | (h, Err e) => (mkRaftKv h, Err (kv_err (mkRaftKv h) e))
  | (h, Halt) => (mkRaftKv h, Halt)
  end.

Definition rk_is_leader : M bool :=
  status ← on_handle handle_status; mret (ds_is_leader status).

Definition rk_write (command : KvCommand) : M () :=
  on_handle (propose_committed (enc_command command));; mret ().

Definition publish_node_record (node_id addr : string) : M () :=
  s ← gets id;
  if decide (published_addr s node_id = Some addr) then mret ()
  else rk_write (mkKvCommand KV_OP_PUT (node_record_key node_id) (enc_record (mkNodeRecord addr))).

Definition rk_get (key : bytes) : M (option bytes) :=
  on_handle read_index;;
  gets (λ s, read_map s !! key).

Definition rk_put (key value : bytes) : M () := rk_write (mkKvCommand KV_OP_PUT key value).
Definition rk_delete (key : bytes) : M () := rk_write (mkKvCommand KV_OP_DELETE key []).

Definition rk_scan_prefix (prefix : bytes) : M (list (bytes * bytes)) :=
  on_handle read_index;;
  gets (λ s, take_prefix prefix (bmap_range prefix (read_map s))).

#[export] Instance RaftKv_kv : MetaKv (RaftKv R) := {
  kv_get := rk_get;
  kv_put := rk_put;
  kv_delete := rk_delete;
  kv_scan_prefix := rk_scan_prefix
}.

Lemma on_handle_err {A} (m : eff R RaftError A) s h e :
  m (rk_handle s) = (h, Err e) → on_handle m s = (mkRaftKv h, Err (kv_err (mkRaftKv h) e)).
Proof. unfold on_handle. by intros ->. Qed.

End backend.
