(* ===== verification/FairQueue.v ===== *)
(** * brokkr-control: the fair queue

    Models [crates/brokkr-control/src/fairqueue.rs]: start-time fair queueing of
    jobs by tenant, and shows that it is fair: while two tenants both have jobs
    queued, the service they get differs by no more than one job of each. *)

From stdpp Require Import prelude gmap strings.
From Stdlib Require Import Lia.
From S2P Require Import Prelude Machine Bytes Common.

Local Open Scope N_scope.

Definition COST : N := 1000000.

Record Entry (J : Type) : Type := mkEntry { start : u64; job : J }.
Arguments mkEntry {J}.
Arguments start {J}.
Arguments job {J}.

Record Slot (J : Type) : Type := mkSlot { slot_index : nat; slot_start : u64; slot_job : J }.
Arguments mkSlot {J}.
Arguments slot_index {J}.
Arguments slot_start {J}.
Arguments slot_job {J}.

Record FairQueue (J : Type) : Type := mkFairQueue {
  fq_entries : list (Entry J);
  virtual_time : u64;
  tenant_finish : gmap TenantId u64;
  weights : gmap TenantId N
}.
Arguments mkFairQueue {J}.
Arguments fq_entries {J}.
Arguments virtual_time {J}.
Arguments tenant_finish {J}.
Arguments weights {J}.

Section queue.
Context {J : Type}.
Implicit Types (q : FairQueue J) (t : TenantId).

Definition FairQueue_new : FairQueue J := mkFairQueue [] u64_0 ∅ ∅.

Definition set_weight t (weight : N) q : FairQueue J :=
  mkFairQueue (fq_entries q) (virtual_time q) (tenant_finish q) (<[t := N.max weight 1]> (weights q)).

Definition weight_of q t : N := N.max (default 1 (weights q !! t)) 1.

Definition fq_len q : nat := length (fq_entries q).
Definition fq_is_empty q : bool := match fq_entries q with [] => true | _ => false end.

Definition max_u64 (a b : u64) : u64 := if u64_val a <? b then b else a.

Definition fq_push t (j : J) q : FairQueue J :=
  let last_finish := default u64_0 (tenant_finish q !! t) in
  let start := max_u64 (virtual_time q) last_finish in
  let finish := saturating_add start (u64_wrap (COST / weight_of q t)) in
  mkFairQueue (fq_entries q ++ [mkEntry start j]) (virtual_time q) (<[t := finish]> (tenant_finish q)) (weights q).

Definition fq_slots q : list (Slot J) := imap (λ i e, mkSlot i (start e) (job e)) (fq_entries q).

Definition fq_get (i : nat) q : option (Slot J) := (λ e, mkSlot i (start e) (job e)) <$> fq_entries q !! i.

(** [Vec::swap_remove]: the last element takes the place of the one removed. *)
Definition swap_remove {A} (i : nat) (l : list A) : list A :=
  match last l with
  | Some z => take (length l - 1) (<[i := z]> l)
  | None => []
  end.

Definition fq_take (i : nat) q : option (J * FairQueue J) :=
  e ← fq_entries q !! i;
  Some (job e, mkFairQueue (swap_remove i (fq_entries q)) (max_u64 (virtual_time q) (start e))
                 (tenant_finish q) (weights q)).

(** [min_by_key] over the enumerated entries: the first of the least. *)
Fixpoint min_start (i : nat) (l : list (Entry J)) (best : option (nat * u64)) : option (nat * u64) :=
  match l with
  | [] => best
  | e :: l =>
      min_start (S i) l
        (match best with
         | Some (_, s) => if u64_val (start e) <? s then Some (i, start e) else best
         | None => Some (i, start e)
         end)
  end.

Definition fq_pop q : option (J * FairQueue J) :=
  best ← min_start 0 (fq_entries q) None;
  fq_take best.1 q.

Definition fq_retain (keep : J → bool) q : FairQueue J :=
  mkFairQueue (filter (λ e, keep (job e) = true) (fq_entries q)) (virtual_time q) (tenant_finish q) (weights q).

End queue.

(** ** Fairness *)

Lemma max_u64_val a b : u64_val (max_u64 a b) = N.max a b.
Proof. unfold max_u64. destruct (N.ltb_spec a b); lia. Qed.

Lemma swap_remove_perm {A} (l : list A) i x : l !! i = Some x → l ≡ₚ x :: swap_remove i l.
Proof.
  intros Hx. unfold swap_remove. destruct l as [|z l _] using rev_ind; [done|].
  rewrite last_snoc, length_app. simpl. replace (length l + 1 - 1)%nat with (length l) by lia.
  apply lookup_app_Some in Hx as [Hx|[Hge Hx]].
  - rewrite insert_app_l by (by eapply lookup_lt_Some). rewrite take_app_length' by (by rewrite length_insert).
    rewrite <-(take_drop_middle l i x) at 1 by done. rewrite insert_take_drop by (by eapply lookup_lt_Some).
    rewrite <-app_assoc. simpl. rewrite <-Permutation_middle. do 2 f_equiv. symmetry. apply Permutation_cons_append.
  - apply list_lookup_singleton_Some in Hx as [Hi ->]. replace i with (length l + 0)%nat by lia.
    rewrite insert_app_r. simpl. rewrite take_app_length. by rewrite Permutation_app_comm.
Qed.

Section fairness.
Context {J : Type} (tenant_of : J → TenantId).
Implicit Types (q : FairQueue J) (t u : TenantId).

(** What a job of [t] advances its tenant's clock by. *)
Definition increment q t : N := COST / weight_of q t.

Definition tags q t : list N := (λ e, u64_val (start e)) <$> filter (λ e, tenant_of (job e) = t) (fq_entries q).

Definition finish_of q t : N := u64_val (default u64_0 (tenant_finish q !! t)).

(** [m], [m + c], ..., [n] of them. *)
Definition progression (m c : N) (n : nat) : list N := (λ i, m + N.of_nat i * c) <$> seq 0 n.

(** The queued tags of a tenant are one progression, up to its finish tag, and
    start at most one job ahead of virtual time. *)
Definition tenant_inv q t (m : N) (n : nat) : Prop :=
  tags q t ≡ₚ progression m (increment q t) n ∧ finish_of q t = m + N.of_nat n * increment q t ∧
  virtual_time q ≤ m ≤ virtual_time q + increment q t.

Definition fq_inv q : Prop := ∀ t,
  (tags q t = [] ∧ finish_of q t ≤ virtual_time q + increment q t) ∨ ∃ m n, tenant_inv q t m (S n).

(** No tag exceeds [M]. *)
Definition fq_high (M : N) q : Prop := virtual_time q ≤ M ∧ ∀ t, finish_of q t ≤ M.

Lemma progression_cons m c n : progression m c (S n) = m :: progression (m + c) c n.
Proof.
  unfold progression. cbn [seq]. rewrite fmap_cons. f_equal; [lia|]. rewrite <-fmap_S_seq, <-list_fmap_compose.
  apply list_fmap_ext. intros _ i _. simpl. lia.
Qed.

Lemma progression_snoc m c n : progression m c (S n) = progression m c n ++ [m + N.of_nat n * c].
Proof. unfold progression. by rewrite seq_S, fmap_app. Qed.

Lemma progression_ge m c n x : x ∈ progression m c n → m ≤ x.
Proof. unfold progression. intros (i & -> & _)%list_elem_of_fmap. lia. Qed.

Lemma increment_le q t : increment q t ≤ COST.
Proof. unfold increment. apply N.Div0.div_le_upper_bound. unfold weight_of. nia. Qed.

Lemma tags_push q t j u :
  tags (fq_push t j q) u =
    tags q u ++ if decide (tenant_of j = u) then [N.max (virtual_time q) (finish_of q t)] else [].
Proof.
  unfold tags, fq_push. cbn [fq_entries]. rewrite filter_app, fmap_app. f_equal. rewrite filter_cons, filter_nil. simpl.
  case_decide; [|done]. simpl. by rewrite max_u64_val.
Qed.

Lemma tenant_inv_other q q' t m n :
  tags q' t = tags q t → finish_of q' t = finish_of q t → increment q' t = increment q t →
  virtual_time q' ≤ m ≤ virtual_time q' + increment q t → tenant_inv q t m n → tenant_inv q' t m n.
Proof. unfold tenant_inv. by intros -> -> -> ? (? & ? & _). Qed.

Lemma fq_push_finish M q j :
  fq_high M q → M + COST ≤ u64_max →
  finish_of (fq_push (tenant_of j) j q) (tenant_of j) =
    N.max (virtual_time q) (finish_of q (tenant_of j)) + increment q (tenant_of j).
Proof.
  intros [Hvt Hfin] HM. unfold finish_of at 1, fq_push. cbn [tenant_finish]. rewrite lookup_insert_eq. cbn [default from_option id].
  rewrite saturating_add_val, max_u64_val, u64_wrap_val. pose proof (increment_le q (tenant_of j)) as Hc.
  specialize (Hfin (tenant_of j)). unfold increment, finish_of in *. unfold COST, u64_max in *.
  rewrite N.mod_small by lia. lia.
Qed.

Lemma fq_push_finish_other q j t : t ≠ tenant_of j → finish_of (fq_push (tenant_of j) j q) t = finish_of q t.
Proof. intros Ht. unfold finish_of, fq_push. cbn [tenant_finish]. by rewrite lookup_insert_ne. Qed.

Lemma fq_push_high M q j : fq_high M q → M + COST ≤ u64_max → fq_high (M + COST) (fq_push (tenant_of j) j q).
Proof.
  intros Hh HM. pose proof Hh as [Hvt Hfin]. split; [simpl; lia|]. intros t. destruct (decide (t = tenant_of j)) as [->|Ht].
  - rewrite (fq_push_finish M) by done. pose proof (increment_le q (tenant_of j)). specialize (Hfin (tenant_of j)). lia.
  - rewrite fq_push_finish_other by done. specialize (Hfin t). lia.
Qed.

(** A push extends the progression of its tenant, or starts one. *)
Lemma fq_push_tenant M q j t m n :
  fq_high M q → M + COST ≤ u64_max → tenant_inv q t m (S n) →
  ∃ n', tenant_inv (fq_push (tenant_of j) j q) t m (S n').
Proof.
  intros Hh HM (Hp & Hfin & Hm). destruct (decide (t = tenant_of j)) as [->|Ht].
  - exists (S n). unfold tenant_inv. rewrite (fq_push_finish M), tags_push, decide_True by done.
    change (increment (fq_push (tenant_of j) j q)) with (increment q). change (virtual_time (fq_push _ j q)) with (virtual_time q).
    rewrite Hfin. replace (N.max (virtual_time q) (m + N.of_nat (S n) * increment q (tenant_of j)))
      with (m + N.of_nat (S n) * increment q (tenant_of j)) by lia.
    rewrite (progression_snoc _ _ (S n)), Hp. split_and!; [done|lia|lia|lia].
  - exists n. eapply tenant_inv_other; [..|exact (conj Hp (conj Hfin Hm))]; [|by apply fq_push_finish_other|done|done].
    rewrite tags_push, decide_False by done. by rewrite app_nil_r.
Qed.

Lemma fq_push_inv M q j : fq_high M q → M + COST ≤ u64_max → fq_inv q → fq_inv (fq_push (tenant_of j) j q).
Proof.
  intros Hh HM Hinv t. destruct (Hinv t) as [[He Hf]|(m & n & Ht)].
  - destruct (decide (t = tenant_of j)) as [->|Hne].
    + right. exists (N.max (virtual_time q) (finish_of q (tenant_of j))), 0%nat. unfold tenant_inv.
      rewrite (fq_push_finish M), tags_push, decide_True, He by done.
      change (increment (fq_push (tenant_of j) j q)) with (increment q). change (virtual_time (fq_push _ j q)) with (virtual_time q).
      split_and!; [by rewrite progression_cons|lia|lia|lia].
    + left. rewrite tags_push, decide_False, He, fq_push_finish_other by done. split; [done|exact Hf].
  - right. destruct (fq_push_tenant M q j t m n Hh HM Ht) as [n' Hn']. by exists m, n'.
Qed.

(** ** Service *)

(** Position [i] carries the least start tag of the queue. *)
Definition least (i : nat) q : Prop := ∃ e, fq_entries q !! i = Some e ∧ ∀ e', e' ∈ fq_entries q → u64_val (start e) ≤ start e'.

Lemma tags_take q i j q' t :
  fq_take i q = Some (j, q') →
  ∃ e, fq_entries q !! i = Some e ∧ j = job e ∧ increment q' t = increment q t ∧ finish_of q' t = finish_of q t ∧
    u64_val (virtual_time q') = N.max (virtual_time q) (start e) ∧
    tags q t ≡ₚ (if decide (tenant_of j = t) then [u64_val (start e)] else []) ++ tags q' t.
Proof.
  unfold fq_take. intros (e & He & [= <- <-])%bind_Some. exists e. split_and!; [done..|by rewrite <-max_u64_val|].
  unfold tags. cbn [fq_entries]. pose proof (swap_remove_perm _ _ _ He) as Hp. rewrite Hp at 1. rewrite filter_cons.
  by case_decide.
Qed.

Lemma tags_in q i e : fq_entries q !! i = Some e → u64_val (start e) ∈ tags q (tenant_of (job e)).
Proof.
  intros He. apply list_elem_of_fmap. exists e. split; [done|]. apply list_elem_of_filter. split; [done|].
  by eapply list_elem_of_lookup_2.
Qed.

Lemma tags_least q i e t x : least i q → fq_entries q !! i = Some e → x ∈ tags q t → u64_val (start e) ≤ x.
Proof.
  intros (e0 & He0 & Hmin) He (e' & -> & [_ He']%list_elem_of_filter)%list_elem_of_fmap. simplify_eq. by apply Hmin.
Qed.

(** The job served is the first of its tenant's progression. *)
Lemma least_first q i e m n :
  least i q → fq_entries q !! i = Some e → tenant_inv q (tenant_of (job e)) m (S n) → u64_val (start e) = m.
Proof.
  intros Hl He (Hp & _ & _). pose proof (tags_in q i e He) as Hin. rewrite Hp in Hin.
  apply N.le_antisymm; [|by eapply progression_ge]. apply (tags_least q i e (tenant_of (job e))); [done|done|].
  rewrite Hp, progression_cons. left.
Qed.

Lemma fq_serve_tenant q i j q' t m n :
  fq_inv q → least i q → fq_take i q = Some (j, q') → tenant_inv q t m (S n) →
  if decide (tenant_of j = t) then
    match n with
    | O => tags q' t = [] ∧ finish_of q' t ≤ virtual_time q' + increment q' t
    | S n' => tenant_inv q' t (m + increment q t) (S n')
    end
  else tenant_inv q' t m (S n).
Proof.
  intros Hinv Hl Ht Hti. pose proof Hti as (Hp & Hf & Hm).
  destruct (tags_take q i j q' t Ht) as (e & He & -> & Hc & Hfin & Hvt & Hperm). case_decide as Hd.
  - subst t. pose proof (least_first q i e m n Hl He Hti) as Hs. rewrite Hs in Hvt, Hperm.
    replace (N.max (virtual_time q) m) with m in Hvt by lia. rewrite Hp, progression_cons in Hperm.
    apply Permutation_cons_inv in Hperm. destruct n as [|n].
    + symmetry in Hperm. apply Permutation_nil_r in Hperm. rewrite Hperm, Hfin, Hf, Hc, Hvt. split; [done|lia].
    + unfold tenant_inv. rewrite <-Hperm, Hfin, Hf, Hc, Hvt. split_and!; [done|lia|lia|lia].
  - assert (u64_val (start e) ≤ m).
    { apply (tags_least q i e t); [done|done|]. rewrite Hp, progression_cons. left. }
    unfold tenant_inv. simpl in Hperm. rewrite <-Hperm, Hfin, Hc, Hvt. split_and!; [done|done|lia|lia].
Qed.

Lemma fq_serve_inv q i j q' : fq_inv q → least i q → fq_take i q = Some (j, q') → fq_inv q'.
Proof.
  intros Hinv Hl Ht t. destruct (Hinv t) as [[He Hf]|(m & n & Hti)].
  - left. destruct (tags_take q i j q' t Ht) as (e & Hi & -> & Hc & Hfin & Hvt & Hperm). rewrite He in Hperm.
    apply Permutation_nil_l in Hperm; symmetry in Hperm; apply app_nil in Hperm as [_ Hnil]. rewrite Hnil, Hfin, Hc. split; [done|]. lia.
  - pose proof (fq_serve_tenant q i j q' t m n Hinv Hl Ht Hti) as H. case_decide; [|right; by exists m, n].
    destruct n as [|n]; [by left|]. right. by eexists _, n.
Qed.

Lemma fq_serve_high M q i j q' : fq_inv q → fq_high M q → fq_take i q = Some (j, q') → fq_high M q'.
Proof.
  intros Hinv [Hvt Hfin] Ht. destruct (tags_take q i j q' (tenant_of j) Ht) as (e & He & -> & _ & _ & Hvt' & _).
  split; [|intros t; by destruct (tags_take q i _ q' t Ht) as (? & _ & _ & _ & -> & _)].
  rewrite Hvt'. apply N.max_lub; [done|]. pose proof (tags_in q i e He) as Hin.
  destruct (Hinv (tenant_of (job e))) as [[Hnil _]|(m & n & Hp & Hf & _)]; [rewrite Hnil in Hin; by apply not_elem_of_nil in Hin|].
  rewrite Hp in Hin. unfold progression in Hin. apply list_elem_of_fmap in Hin as (k & -> & Hk%elem_of_seq).
  specialize (Hfin (tenant_of (job e))). rewrite Hf in Hfin. nia.
Qed.

(** A run of [pushes] pushes, and of jobs served by least start tag, during
    which tenants [t] and [u] always have jobs queued. *)
Inductive backlogged t u : nat → FairQueue J → list J → FairQueue J → Prop :=
| backlogged_now q : tags q t ≠ [] → tags q u ≠ [] → backlogged t u 0 q [] q
| backlogged_push k q j served q' :
    tags q t ≠ [] → tags q u ≠ [] →
    backlogged t u k (fq_push (tenant_of j) j q) served q' → backlogged t u (S k) q served q'
| backlogged_serve k q i j q1 served q' :
    tags q t ≠ [] → tags q u ≠ [] → least i q → fq_take i q = Some (j, q1) →
    backlogged t u k q1 served q' → backlogged t u k q (j :: served) q'.

(** How many of the jobs are [t]'s. *)
Definition jobs_of t (served : list J) : N := N.of_nat (length (filter (λ j, tenant_of j = t) served)).

Lemma backlogged_start t u k q served q' : backlogged t u k q served q' → tags q t ≠ [] ∧ tags q u ≠ [].
Proof. by destruct 1. Qed.

Lemma backlogged_sym t u k q served q' : backlogged t u k q served q' → backlogged u t k q served q'.
Proof. induction 1; econstructor; eauto. Qed.

(** Over a run a tenant's first tag advances by one increment per job served,
    and stays within one increment of virtual time. *)
Lemma backlogged_advance M t u k q served q' m n :
  backlogged t u k q served q' → fq_inv q → fq_high M q → M + N.of_nat k * COST ≤ u64_max → tenant_inv q t m (S n) →
  virtual_time q' ≤ m + jobs_of t served * increment q t ≤ virtual_time q' + increment q t.
Proof.
  intros Hrun. revert M m n. induction Hrun as [q Ht Hu|k q j served q' Ht Hu Hrun IH|k q i j q1 served q' Ht Hu Hl Htake Hrun IH];
    intros M m n Hinv Hhigh HM Hti.
  - destruct Hti as (_ & _ & Hm). unfold jobs_of. simpl. lia.
  - destruct (fq_push_tenant M q j t m n) as [n' Hn']; [done|lia|done|].
    apply (IH (M + COST) m n'); [eapply fq_push_inv; eauto; lia|apply fq_push_high; [done|lia]|lia|done].
  - pose proof (fq_serve_inv q i j q1 Hinv Hl Htake) as Hinv1. pose proof (fq_serve_high M q i j q1 Hinv Hhigh Htake) as Hhigh1.
    pose proof (fq_serve_tenant q i j q1 t m n Hinv Hl Htake Hti) as Hs.
    destruct (tags_take q i j q1 t Htake) as (e & _ & _ & Hc & _). unfold jobs_of. rewrite filter_cons.
    apply backlogged_start in Hrun as Hq1. case_decide; [destruct n as [|n]; [by destruct Hs, Hq1|]|];
      specialize (IH M _ _ Hinv1 Hhigh1 HM Hs); unfold jobs_of in IH; rewrite Hc in IH; simpl; lia.
Qed.

(** While [t] and [u] both have jobs queued, the service each gets, a job
    counted by its increment, differs by at most one increment of each. *)
Lemma backlogged_fair M t u k q served q' :
  backlogged t u k q served q' → fq_inv q → fq_high M q → M + N.of_nat k * COST ≤ u64_max →
  jobs_of t served * increment q t ≤ jobs_of u served * increment q u + increment q t + increment q u.
Proof.
  intros Hrun Hinv Hhigh HM. destruct (backlogged_start _ _ _ _ _ _ Hrun) as [Ht Hu].
  destruct (Hinv t) as [[? _]|(m & n & Hti)]; [done|]. destruct (Hinv u) as [[? _]|(mu & nu & Hui)]; [done|].
  pose proof (backlogged_advance M t u k q served q' m n Hrun Hinv Hhigh HM Hti).
  pose proof (backlogged_advance M u t k q served q' mu nu (backlogged_sym _ _ _ _ _ _ Hrun) Hinv Hhigh HM Hui).
  destruct Hti as (_ & _ & ?), Hui as (_ & _ & ?). lia.
Qed.

(** A queue with its weights set, after [n] pushes and any number of jobs served
    by least start tag. *)
Inductive fq_reach : nat → FairQueue J → Prop :=
| fq_reach_new (ws : list (TenantId * N)) : fq_reach 0 (foldr (λ p q, set_weight p.1 p.2 q) FairQueue_new ws)
| fq_reach_push n q j : fq_reach n q → fq_reach (S n) (fq_push (tenant_of j) j q)
| fq_reach_serve n q i j q' : fq_reach n q → least i q → fq_take i q = Some (j, q') → fq_reach n q'.

Lemma fq_weights_idle ws :
  let q := foldr (λ p q, set_weight p.1 p.2 q) (@FairQueue_new J) ws in
  fq_entries q = [] ∧ u64_val (virtual_time q) = 0 ∧ ∀ t, finish_of q t = 0.
Proof.
  induction ws as [|[t w] ws IH]; [|exact IH]. split_and!; [done..|]. intros t. unfold finish_of. simpl. by rewrite lookup_empty.
Qed.

Lemma fq_reach_inv n q : fq_reach n q → N.of_nat n * COST ≤ u64_max → fq_inv q ∧ fq_high (N.of_nat n * COST) q.
Proof.
  induction 1 as [ws|n q j _ IH|n q i j q' _ IH Hl Ht]; intros Hn.
  - destruct (fq_weights_idle ws) as (He & Hv & Hf). split; [|split; [lia|intros t; rewrite Hf; lia]].
    intros t. left. unfold tags. rewrite He, Hf. split; [done|lia].
  - destruct IH as [Hi Hh]; [lia|]. split; [eapply fq_push_inv; eauto; lia|].
    replace (N.of_nat (S n) * COST) with (N.of_nat n * COST + COST) by lia. apply fq_push_high; [done|lia].
  - destruct (IH Hn) as [Hi Hh]. split; [by eapply fq_serve_inv|by eapply fq_serve_high].
Qed.

(** ** [pop] takes the least start tag, the earliest pushed position of it. *)

Lemma min_start_spec (l : list (Entry J)) : ∀ i best (pre : list (Entry J)),
  (match best with
   | Some (b, s) => ∃ e, pre !! b = Some e ∧ start e = s ∧ ∀ e', e' ∈ pre → u64_val s ≤ start e'
   | None => pre = []
   end) → i = length pre →
  match min_start i l best with
  | Some (b, s) => ∃ e, (pre ++ l) !! b = Some e ∧ start e = s ∧ ∀ e', e' ∈ pre ++ l → u64_val s ≤ start e'
  | None => pre ++ l = []
  end.
Proof.
  induction l as [|e l IH]; intros i best pre Hbest ->; simpl; [by rewrite app_nil_r|].
  replace (pre ++ e :: l) with ((pre ++ [e]) ++ l) by (by rewrite <-app_assoc).
  apply IH; [|rewrite length_app; simpl; lia].
  assert (Hlast : (pre ++ [e]) !! length pre = Some e) by (by apply list_lookup_middle).
  destruct best as [[b s]|].
  - destruct Hbest as (e0 & Hb & <- & Hmin). destruct (N.ltb_spec (start e) (start e0)).
    + exists e. split_and!; [done..|]. intros e' [He'| ->%list_elem_of_singleton]%elem_of_app; [|done].
      specialize (Hmin e' He'). lia.
    + exists e0. split_and!; [by apply lookup_app_l_Some|done|].
      intros e' [He'| ->%list_elem_of_singleton]%elem_of_app; [by apply Hmin|done].
  - subst pre. exists e. split_and!; [done..|]. intros e' ->%list_elem_of_singleton. done.
Qed.

(** Popping serves the least tag; it fails on the empty queue only. *)
Lemma fq_pop_least q :
  match fq_pop q with
  | Some (j, q') => ∃ i, least i q ∧ fq_take i q = Some (j, q')
  | None => fq_entries q = []
  end.
Proof.
  unfold fq_pop. pose proof (min_start_spec (fq_entries q) 0 None [] eq_refl eq_refl) as H.
  destruct (min_start 0 (fq_entries q) None) as [[b s]|]; [|done]. destruct H as (e & He & <- & Hmin). simpl in *.
  destruct (fq_take b q) as [[j q']|] eqn:Ht; [|unfold fq_take in Ht; by rewrite He in Ht].
  exists b. split; [by exists e|done].
Qed.

End fairness.
