(* ===== verification/Lease.v ===== *)
(** * brokkr-control: job leases

    Models [crates/brokkr-control/src/lease.rs]: which worker holds which job,
    until when, and the payload that re-dispatches the job. *)

From stdpp Require Import prelude gmap strings.
From Stdlib Require Import Lia.
From S2P Require Import Prelude Machine Bytes Common.

Local Open Scope N_scope.

Record Lease (P : Type) : Type := mkLease { worker_id : WorkerId; deadline : Instant; payload : P }.
Arguments mkLease {P}.
Arguments worker_id {P}.
Arguments deadline {P}.
Arguments payload {P}.

Notation LeaseTable P := (gmap JobId (Lease P)).

Section table.
Context {P : Type}.
Implicit Types (ls : LeaseTable P) (j : JobId) (w : WorkerId).

Definition LeaseTable_new : LeaseTable P := ∅.

Definition lt_insert j w (due : Instant) (p : P) ls : LeaseTable P := <[j := mkLease w due p]> ls.

Definition lt_complete j ls : option P * LeaseTable P := (payload <$> ls !! j, delete j ls).

Definition worker_of j ls : option WorkerId := worker_id <$> ls !! j.

Definition lt_contains j ls : bool := bool_decide (is_Some (ls !! j)).

Definition is_worker_busy w ls : bool := existsb (λ l, bool_decide (worker_id l = w)) (map_to_list ls).*2.

Definition lt_len ls : nat := size ls.
Definition lt_is_empty ls : bool := bool_decide (size ls = 0)%nat.

(** [drain] after its sort: remove each id, keep what was there. *)
Fixpoint drain_sorted (ids : list JobId) ls : list (JobId * P) * LeaseTable P :=
  match ids with
  | [] => ([], ls)
  | id :: ids =>
      let (taken, ls') := drain_sorted ids (delete id ls) in
      (match ls !! id with Some l => (id, payload l) :: taken | None => taken end, ls')
  end.

(** The ids are the keys of one map, so [ids.sort_by(as_str)] is their ascending
    listing. *)
Definition drain (ids : gset JobId) ls : list (JobId * P) * LeaseTable P := drain_sorted (btree_iter id_str ids) ls.

Definition take_expired (now : Instant) ls : list (JobId * P) * LeaseTable P :=
  drain (dom (filter (λ kl : JobId * Lease P, deadline kl.2 ≤ now) ls)) ls.

Definition take_worker w ls : list (JobId * P) * LeaseTable P :=
  drain (dom (filter (λ kl : JobId * Lease P, worker_id kl.2 = w) ls)) ls.

Definition renew_worker w (new_deadline : Instant) ls : nat * LeaseTable P :=
  (size (filter (λ kl : JobId * Lease P, worker_id kl.2 = w) ls),
   (λ l, if decide (worker_id l = w) then mkLease w new_deadline (payload l) else l) <$> ls).

(** ** Properties *)

Lemma is_worker_busy_true w ls : is_worker_busy w ls = true ↔ ∃ j l, ls !! j = Some l ∧ worker_id l = w.
Proof.
  unfold is_worker_busy. rewrite existsb_exists. split.
  - intros (l & Hl & Hw%bool_decide_eq_true_1). apply list_elem_of_In, list_elem_of_fmap in Hl as ([j l'] & -> & Hj).
    apply elem_of_map_to_list in Hj. by exists j, l'.
  - intros (j & l & Hl & Hw). exists l. split; [|by apply bool_decide_eq_true_2].
    apply list_elem_of_In, list_elem_of_fmap. exists (j, l). split; [done|]. by apply elem_of_map_to_list.
Qed.

Lemma is_worker_busy_false w ls : is_worker_busy w ls = false ↔ ∀ j l, ls !! j = Some l → worker_id l ≠ w.
Proof.
  rewrite <-not_true_iff_false, is_worker_busy_true. split; [|by intros H (j & l & Hl & Hw); eapply H].
  intros H j l Hl Hw. apply H. by exists j, l.
Qed.

Lemma drain_sorted_spec ids ls : NoDup ids →
  (drain_sorted ids ls).1 = omap (λ j, (λ l, (j, payload l)) <$> ls !! j) ids ∧
  ∀ j, (drain_sorted ids ls).2 !! j = if decide (j ∈ ids) then None else ls !! j.
Proof.
  revert ls. induction ids as [|i ids IH]; intros ls Hnd; cbn [drain_sorted].
  { split; [done|]. intros j. rewrite decide_False; [done|]. apply not_elem_of_nil. }
  apply NoDup_cons in Hnd as [Hi Hnd]. destruct (IH (delete i ls) Hnd) as [IH1 IH2].
  destruct (drain_sorted ids (delete i ls)) as [taken ls'] eqn:Hd. simpl in IH1, IH2. split.
  - assert (taken = omap (λ j, (λ l, (j, payload l)) <$> ls !! j) ids) as Htk.
    { rewrite IH1. clear -Hi. induction ids as [|k ids IH]; [done|]. cbn.
      rewrite lookup_delete_ne by (intros ->; apply Hi; left). rewrite IH; [done|]. intros ?. apply Hi. by right. }
    cbn. destruct (ls !! i); simpl; by rewrite Htk.
  - intros j. destruct (ls !! i) as [l|] eqn:Hl; cbn [fst snd]; rewrite IH2; destruct (decide (j = i)) as [->|Hne].
    all: try (rewrite (decide_True (P := i ∈ i :: ids)) by left; case_decide; [done|by rewrite lookup_delete_eq]).
    all: rewrite lookup_delete_ne by done; destruct (decide (j ∈ ids)); [rewrite decide_True by (by right)|rewrite decide_False]; try done.
    all: intros [?|?]%elem_of_cons; done.
Qed.

(** Draining the leases that satisfy [Q] takes exactly those. *)
Lemma drain_spec (Q : JobId * Lease P → Prop) `{!∀ x, Decision (Q x)} ls :
  let r := drain (dom (filter Q ls)) ls in
  (∀ j p, (j, p) ∈ r.1 ↔ ∃ l, ls !! j = Some l ∧ Q (j, l) ∧ p = payload l) ∧
  (∀ j l, r.2 !! j = Some l ↔ ls !! j = Some l ∧ ¬ Q (j, l)).
Proof.
  intros r. assert (Hin : ∀ j, j ∈ dom (D := gset JobId) (filter Q ls) ↔ ∃ l, ls !! j = Some l ∧ Q (j, l)).
  { intros j. rewrite elem_of_dom. split.
    - intros [l Hl]. apply map_lookup_filter_Some in Hl. by exists l.
    - intros (l & Hl). exists l. by apply map_lookup_filter_Some. }
  subst r. unfold drain. revert Hin. generalize (dom (D := gset JobId) (filter Q ls)) as ids. intros ids Hin.
  destruct (drain_sorted_spec (btree_iter id_str ids) ls (btree_iter_NoDup _ _)) as [H1 H2].
  setoid_rewrite <-(btree_iter_elem id_str) in Hin. split.
  - intros j p. rewrite H1, list_elem_of_omap. split.
    + intros (i & Hi & Hp). apply fmap_Some in Hp as (l0 & Hl & E). injection E as -> ->. apply Hin in Hi as (l' & Hl' & HQ).
      rewrite Hl in Hl'. injection Hl' as <-. by exists l0.
    + intros (l & Hl & HQ & ->). exists j. split; [apply Hin; by exists l|]. by rewrite Hl.
  - intros j l. rewrite H2. case_decide as Hd.
    + apply Hin in Hd as (l' & Hl' & HQ). split; [done|]. intros [Hl HnQ]. by simplify_eq.
    + split; [|by intros [? _]]. intros Hl. split; [done|]. intros HQ. apply Hd, Hin. by exists l.
Qed.

Lemma take_expired_spec now ls :
  (∀ j p, (j, p) ∈ (take_expired now ls).1 ↔ ∃ l, ls !! j = Some l ∧ deadline l ≤ now ∧ p = payload l) ∧
  (∀ j l, (take_expired now ls).2 !! j = Some l ↔ ls !! j = Some l ∧ ¬ deadline l ≤ now).
Proof. apply (drain_spec (λ kl, deadline kl.2 ≤ now)). Qed.

Lemma take_worker_spec w ls :
  (∀ j p, (j, p) ∈ (take_worker w ls).1 ↔ ∃ l, ls !! j = Some l ∧ worker_id l = w ∧ p = payload l) ∧
  (∀ j l, (take_worker w ls).2 !! j = Some l ↔ ls !! j = Some l ∧ worker_id l ≠ w).
Proof. apply (drain_spec (λ kl, worker_id kl.2 = w)). Qed.

Lemma renew_worker_lookup w d ls j l :
  (renew_worker w d ls).2 !! j = Some l →
  ∃ l0, ls !! j = Some l0 ∧ worker_id l = worker_id l0 ∧ payload l = payload l0 ∧
    deadline l = if decide (worker_id l0 = w) then d else deadline l0.
Proof.
  unfold renew_worker. cbn [snd]. rewrite lookup_fmap. intros (l0 & Hl & ->)%fmap_Some. exists l0.
  case_decide; by simpl.
Qed.

Lemma renew_worker_dom w d ls j : is_Some ((renew_worker w d ls).2 !! j) ↔ is_Some (ls !! j).
Proof. unfold renew_worker. cbn [snd]. by rewrite lookup_fmap, fmap_is_Some. Qed.

End table.
