(* ===== verification/Registry.v ===== *)
(** * brokkr-control: the worker registry and platform matching

    Models [crates/brokkr-control/src/registry.rs] (declared capabilities,
    heartbeats, eviction of silent workers) and
    [crates/brokkr-control/src/matching.rs] (which of the live workers satisfy a
    platform).  The maps are hash maps, iterated in no particular order, so the
    sets of workers they select are maps here. *)

From stdpp Require Import prelude gmap strings.
From Stdlib Require Import Lia.
From S2P Require Import Prelude Machine Bytes Common.

Local Open Scope N_scope.

Definition DEFAULT_HEARTBEAT_INTERVAL : Duration := 5 * 1000000000.
Definition DEFAULT_MAX_MISSED_HEARTBEATS : N := 3.

Inductive RegistryError : Type := UnknownWorker (id : WorkerId).

Record WorkerCapabilities : Type := mkWorkerCapabilities { hostname : string; labels : gmap string string }.

Record HeartbeatPolicy : Type := mkHeartbeatPolicy { interval : Duration; max_missed : N }.

(** [Duration::MAX], and [saturating_mul]. *)
Definition DURATION_MAX : Duration := (2 ^ 64 - 1) * 1000000000 + 999999999.
Definition duration_saturating_mul (d : Duration) (n : N) : Duration := N.min (d * n) DURATION_MAX.

Definition policy_deadline (p : HeartbeatPolicy) : Duration := duration_saturating_mul (interval p) (max_missed p).

Definition HeartbeatPolicy_default : HeartbeatPolicy :=
  mkHeartbeatPolicy DEFAULT_HEARTBEAT_INTERVAL DEFAULT_MAX_MISSED_HEARTBEATS.

Record WorkerRecord : Type := mkWorkerRecord {
  capabilities : WorkerCapabilities;
  registered_at : Instant;
  last_seen : Instant
}.

Definition is_stale (now : Instant) (p : HeartbeatPolicy) (r : WorkerRecord) : bool :=
  policy_deadline p <? duration_since now (last_seen r).

Record WorkerRegistry : Type := mkWorkerRegistry { reg_workers : gmap WorkerId WorkerRecord; reg_policy : HeartbeatPolicy }.

Definition WorkerRegistry_new (p : HeartbeatPolicy) : WorkerRegistry := mkWorkerRegistry ∅ p.
Definition WorkerRegistry_default : WorkerRegistry := WorkerRegistry_new HeartbeatPolicy_default.

Definition register (id : WorkerId) (caps : WorkerCapabilities) (now : Instant) (r : WorkerRegistry) : WorkerRegistry :=
  mkWorkerRegistry (<[id := mkWorkerRecord caps now now]> (reg_workers r)) (reg_policy r).

Definition record_heartbeat (id : WorkerId) (now : Instant) : eff WorkerRegistry RegistryError () :=
  found ← gets (λ r, reg_workers r !! id);
  match found with
  | Some record =>
      modify (λ r, mkWorkerRegistry (<[id := mkWorkerRecord (capabilities record) (registered_at record) now]> (reg_workers r))
                     (reg_policy r))
  | None => throw (UnknownWorker id)
  end.

Definition evict_stale (now : Instant) (r : WorkerRegistry) : list WorkerId * WorkerRegistry :=
  let evicted := btree_iter id_str
    (dom (filter (λ kr : WorkerId * WorkerRecord, is_stale now (reg_policy r) kr.2 = true) (reg_workers r))) in
  (evicted, mkWorkerRegistry (foldl (λ m id, delete id m) (reg_workers r) evicted) (reg_policy r)).

Definition reg_get (id : WorkerId) (r : WorkerRegistry) : option WorkerRecord := reg_workers r !! id.
Definition reg_contains (id : WorkerId) (r : WorkerRegistry) : bool := bool_decide (is_Some (reg_workers r !! id)).
Definition reg_len (r : WorkerRegistry) : nat := size (reg_workers r).
Definition reg_is_empty (r : WorkerRegistry) : bool := bool_decide (size (reg_workers r) = 0)%nat.

Definition healthy (now : Instant) (r : WorkerRegistry) : gmap WorkerId WorkerRecord :=
  filter (λ kr : WorkerId * WorkerRecord, is_stale now (reg_policy r) kr.2 = false) (reg_workers r).

(** ** Matching *)

Record Property : Type := mkProperty { prop_name : string; prop_value : string }.
Definition Platform : Type := list Property.

Definition labels_satisfy_platform (ls : gmap string string) (p : Platform) : bool :=
  forallb (λ q, match ls !! prop_name q with Some v => String.eqb v (prop_value q) | None => false end) p.

Definition worker_satisfies (caps : WorkerCapabilities) (p : Platform) : bool := labels_satisfy_platform (labels caps) p.

Definition eligible_workers (r : WorkerRegistry) (now : Instant) (p : Platform) : gmap WorkerId WorkerRecord :=
  filter (λ kr : WorkerId * WorkerRecord, worker_satisfies (capabilities kr.2) p = true) (healthy now r).

(** ** Properties *)

Lemma labels_satisfy_platform_true ls p :
  labels_satisfy_platform ls p = true ↔ ∀ q, q ∈ p → ls !! prop_name q = Some (prop_value q).
Proof.
  unfold labels_satisfy_platform. rewrite forallb_forall. split; intros H q Hq.
  - specialize (H q (proj1 (list_elem_of_In _ _) Hq)). destruct (ls !! prop_name q); [|done].
    apply String.eqb_eq in H. by subst.
  - rewrite (H q (proj2 (list_elem_of_In _ _) Hq)). apply String.eqb_refl.
Qed.

Lemma eligible_workers_lookup r now p id rec :
  eligible_workers r now p !! id = Some rec ↔
    reg_workers r !! id = Some rec ∧ duration_since now (last_seen rec) ≤ policy_deadline (reg_policy r) ∧
    ∀ q, q ∈ p → labels (capabilities rec) !! prop_name q = Some (prop_value q).
Proof.
  unfold eligible_workers, healthy, worker_satisfies, is_stale.
  rewrite !map_lookup_filter_Some, labels_satisfy_platform_true, N.ltb_ge. tauto.
Qed.

(** Eviction removes exactly the workers that [healthy] leaves out. *)
Lemma evict_stale_workers now r : reg_workers (evict_stale now r).2 = healthy now r.
Proof.
  apply map_eq. intros i. unfold evict_stale. cbn [snd reg_workers]. rewrite foldl_delete_lookup.
  apply option_eq. intros rec. unfold healthy. rewrite map_lookup_filter_Some. cbn [snd].
  case_decide as Hi; rewrite btree_iter_elem, elem_of_dom in Hi.
  - destruct Hi as [rec' Hr]. apply map_lookup_filter_Some in Hr as [Hr Hst]. split; [done|]. intros [Hr' Hns].
    cbn [snd] in *. congruence.
  - split; [|by intros [? _]]. intros Hr. split; [done|]. apply not_true_iff_false. intros Hst. apply Hi. exists rec.
    by apply map_lookup_filter_Some.
Qed.
