(* ===== verification/Scheduling.v ===== *)
(** * brokkr-control: choosing a worker

    Models [crates/brokkr-control/src/scheduling.rs] (the [Strategy] trait with
    its contract, [SimpleFifo], [BinPacking], the connected workers),
    [crates/brokkr-control/src/locality.rs] (the bounded completion history a
    strategy may read) and the job history ring of
    [crates/brokkr-control/src/views/job.rs]. *)

From stdpp Require Import prelude gmap strings.
From Stdlib Require Import Lia.
From S2P Require Import Prelude Machine Bytes Common Registry.

Local Open Scope N_scope.

(** ** [Iterator::min_by] *)

(** The first of the least elements; [R] holds of [x y] when the comparison of
    [x] with [y] is not [Greater]. *)
Definition min_by {A} (R : A → A → Prop) `{!RelDecision R} (l : list A) : option A :=
  match l with
  | [] => None
  | x :: l => Some (foldl (λ best y, if decide (R best y) then best else y) x l)
  end.

Lemma min_by_None {A} (R : A → A → Prop) `{!RelDecision R} l : min_by R l = None ↔ l = [].
Proof. by destruct l. Qed.

Lemma min_by_elem {A} (R : A → A → Prop) `{!RelDecision R} l m : min_by R l = Some m → m ∈ l.
Proof.
  destruct l as [|x l]; [done|]. intros [= <-]. revert x. induction l as [|y l IH]; intros x; simpl; [left|].
  case_decide; [|by right]. destruct (proj1 (elem_of_cons _ _ _) (IH x)) as [->|?]; [left|by right; right].
Qed.

Lemma min_by_Some {A} (R : A → A → Prop) `{!RelDecision R, !PreOrder R, !Total R} l m :
  min_by R l = Some m → m ∈ l ∧ ∀ y, y ∈ l → R m y.
Proof.
  destruct l as [|x l]; [done|]. intros [= <-]. revert x. induction l as [|y l IH]; intros x; simpl.
  - split; [left|]. intros y ->%list_elem_of_singleton. reflexivity.
  - set (b := if decide (R x y) then x else y). destruct (IH b) as [Hin Hmin].
    assert (Hb : b ∈ [x; y] ∧ R b x ∧ R b y).
    { subst b. case_decide as Hd; split_and!; try done.
      - left.
      - right; left.
      - destruct (total R x y); [done|done]. }
    destruct Hb as (Hbl & Hbx & Hby). split.
    + apply elem_of_cons in Hin as [->|Hin]; [|by right; right]. apply elem_of_cons in Hbl as [->| ->%list_elem_of_singleton]; [left|right; left].
    + intros z [->|[->|Hz]%elem_of_cons]%elem_of_cons; [..|by apply Hmin; right];
        (etrans; [apply Hmin; left|done]).
Qed.

(** ** Views *)

(** [LoadView]: in-flight counts. *)
Definition LoadView : Type := WorkerId → N.

Record LocalityView : Type := mkLocalityView {
  input_root_hits : WorkerId → Digest → N;
  action_hits : WorkerId → Digest → N
}.

Definition NoLocality : LocalityView := mkLocalityView (λ _ _, 0) (λ _ _, 0).

Record JobFacts : Type := mkJobFacts {
  jf_tenant : TenantId;
  jf_action_digest : Digest;
  jf_input_root_digest : option Digest;
  jf_platform : Platform
}.

Record DecisionContext : Type := mkDecisionContext { dc_loads : LoadView; dc_locality : LocalityView; dc_job : JobFacts }.

(** ** The trait *)

Class Strategy (S : Type) : Type := {
  choose : S → list WorkerId → LoadView → option WorkerId;
  choose_with : S → list WorkerId → DecisionContext → option WorkerId
}.

Definition default_choose_with {S} (ch : S → list WorkerId → LoadView → option WorkerId)
    (s : S) (candidates : list WorkerId) (ctx : DecisionContext) : option WorkerId := ch s candidates (dc_loads ctx).

(** The contract binding on every implementation. *)
Class StrategySpec (S : Type) `{Strategy S} : Prop := {
  choose_with_None s cands ctx : choose_with s cands ctx = None ↔ cands = [];
  choose_with_Some s cands ctx w : choose_with s cands ctx = Some w → w ∈ cands
}.

(** ** [SimpleFifo] *)

(** Fewer jobs in flight, then the smaller id. *)
Definition less_loaded (loads : LoadView) (a b : WorkerId) : Prop :=
  loads a < loads b ∨ loads a = loads b ∧ String.le (id_str a) (id_str b).

Definition more_loaded (loads : LoadView) (a b : WorkerId) : Prop :=
  loads b < loads a ∨ loads b = loads a ∧ String.le (id_str a) (id_str b).

#[export] Instance less_loaded_dec loads : RelDecision (less_loaded loads) := λ a b, _ : Decision (_ ∨ _).
#[export] Instance more_loaded_dec loads : RelDecision (more_loaded loads) := λ a b, _ : Decision (_ ∨ _).

Inductive SimpleFifo : Type := mkSimpleFifo.

Definition fifo_choose (_ : SimpleFifo) (candidates : list WorkerId) (loads : LoadView) : option WorkerId :=
  min_by (less_loaded loads) candidates.

#[export] Instance SimpleFifo_strategy : Strategy SimpleFifo := {
  choose := fifo_choose;
  choose_with := default_choose_with fifo_choose
}.

(** ** [BinPacking] *)

Record BinPacking : Type := mkBinPacking { cap : N }.

Definition BinPacking_new (c : N) : BinPacking := mkBinPacking (N.max c 1).

Definition bin_choose (b : BinPacking) (candidates : list WorkerId) (loads : LoadView) : option WorkerId :=
  match min_by (more_loaded loads) (filter (λ w, loads w < cap b) candidates) with
  | Some w => Some w
  | None => min_by (less_loaded loads) candidates
  end.

#[export] Instance BinPacking_strategy : Strategy BinPacking := {
  choose := bin_choose;
  choose_with := default_choose_with bin_choose
}.

(** ** Connected workers *)

(** [mpsc::Sender], by the channel it feeds. *)
Definition ChannelId : Type := N.

Record WorkerConn : Type := mkWorkerConn { job_tx : ChannelId; conn_inflight : N }.

Notation ConnectedWorkers := (gmap WorkerId WorkerConn).

Definition ConnectedWorkers_new : ConnectedWorkers := ∅.
Definition connect (id : WorkerId) (tx : ChannelId) (ws : ConnectedWorkers) : ConnectedWorkers :=
  <[id := mkWorkerConn tx 0]> ws.
Definition disconnect (id : WorkerId) (ws : ConnectedWorkers) : ConnectedWorkers := delete id ws.
Definition is_connected (id : WorkerId) (ws : ConnectedWorkers) : bool := bool_decide (is_Some (ws !! id)).
Definition connected_ids (ws : ConnectedWorkers) : gset WorkerId := dom ws.
Definition sender (id : WorkerId) (ws : ConnectedWorkers) : option ChannelId := job_tx <$> ws !! id.
Definition inc_inflight (id : WorkerId) (ws : ConnectedWorkers) : ConnectedWorkers :=
  match ws !! id with Some c => <[id := mkWorkerConn (job_tx c) (conn_inflight c + 1)]> ws | None => ws end.
Definition dec_inflight (id : WorkerId) (ws : ConnectedWorkers) : ConnectedWorkers :=
  match ws !! id with Some c => <[id := mkWorkerConn (job_tx c) (conn_inflight c - 1)]> ws | None => ws end.
Definition inflight (ws : ConnectedWorkers) : LoadView := λ id, from_option conn_inflight 0 (ws !! id).

(** ** Locality *)

Definition DEFAULT_WINDOW : nat := 64.
Definition DEFAULT_MAX_WORKERS : nat := 1024.

Record Completion : Type := mkCompletion { co_action : Digest; co_input_root : option Digest }.

Record WorkerHistory : Type := mkWorkerHistory { recent : list Completion; last_touch : u64 }.

Record LocalityIndex : Type := mkLocalityIndex {
  window : nat;
  max_workers : nat;
  loc_workers : gmap WorkerId WorkerHistory;
  tick : u64
}.

Definition LocalityIndex_new (window max_workers : nat) : LocalityIndex :=
  mkLocalityIndex (window `max` 1) (max_workers `max` 1) ∅ u64_0.
Definition LocalityIndex_default : LocalityIndex := LocalityIndex_new DEFAULT_WINDOW DEFAULT_MAX_WORKERS.

(** [(last_touch, id)], lexicographically. *)
Definition touched_before (a b : WorkerId * WorkerHistory) : Prop :=
  u64_val (last_touch a.2) < last_touch b.2 ∨
  u64_val (last_touch a.2) = last_touch b.2 ∧ String.le (id_str a.1) (id_str b.1).

#[export] Instance touched_before_dec : RelDecision touched_before := λ a b, _ : Decision (_ ∨ _).

Definition evict_least_recent (keep : WorkerId) (ix : LocalityIndex) : LocalityIndex :=
  let victim := min_by touched_before (map_to_list (filter (λ kh : WorkerId * WorkerHistory, kh.1 ≠ keep) (loc_workers ix))) in
  match victim with
  | Some (v, _) => mkLocalityIndex (window ix) (max_workers ix) (delete v (loc_workers ix)) (tick ix)
  | None => ix
  end.

Definition loc_record (w : WorkerId) (action : Digest) (input_root : option Digest) (ix : LocalityIndex) : LocalityIndex :=
  let tick := u64_wrap (tick ix + 1) in
  let history := default (mkWorkerHistory [] u64_0) (loc_workers ix !! w) in
  let pushed := recent history ++ [mkCompletion action input_root] in
  let kept := if (window ix <? length pushed)%nat then drop 1 pushed else pushed in
  let ix' := mkLocalityIndex (window ix) (max_workers ix) (<[w := mkWorkerHistory kept tick]> (loc_workers ix)) tick in
  if (max_workers ix <? size (loc_workers ix'))%nat then evict_least_recent w ix' else ix'.

Definition tracked_workers (ix : LocalityIndex) : nat := size (loc_workers ix).
Definition history_len (w : WorkerId) (ix : LocalityIndex) : nat := from_option (length ∘ recent) 0%nat (loc_workers ix !! w).
Definition forget (w : WorkerId) (ix : LocalityIndex) : LocalityIndex :=
  mkLocalityIndex (window ix) (max_workers ix) (delete w (loc_workers ix)) (tick ix).

(** [count() as u32]. *)
Definition hits (P : Completion → Prop) `{!∀ c, Decision (P c)} (ix : LocalityIndex) (w : WorkerId) : N :=
  from_option (λ h, N.of_nat (length (filter P (recent h))) mod 2 ^ 32) 0 (loc_workers ix !! w).

Definition LocalityIndex_view (ix : LocalityIndex) : LocalityView :=
  mkLocalityView (λ w d, hits (λ c, co_input_root c = Some d) ix w) (λ w d, hits (λ c, co_action c = d) ix w).

(** ** Job history *)

Inductive JobState : Type := Queued | Running | Succeeded | Failed.

Definition JobState_as_str (s : JobState) : string :=
  match s with Queued => "queued" | Running => "running" | Succeeded => "succeeded" | Failed => "failed" end.

Definition JobState_from_str_opt (s : string) : option JobState :=
  if String.eqb s "queued" then Some Queued
  else if String.eqb s "running" then Some Running
  else if String.eqb s "succeeded" then Some Succeeded
  else if String.eqb s "failed" then Some Failed
  else None.

#[export] Instance JobState_eq_dec : EqDecision JobState.
Proof. solve_decision. Defined.

Record JobSummary : Type := mkJobSummary {
  js_job_id : string;
  js_tenant : string;
  js_action_digest : string;
  js_state : JobState;
  js_worker_id : option string;
  js_exit_code : option Z;
  js_completed_at_unix_ms : u64;
  js_owning_node : string
}.

Record JobHistory : Type := mkJobHistory { jh_entries : list JobSummary; jh_capacity : nat }.

Definition DEFAULT_JOB_HISTORY : nat := 256.

Definition JobHistory_new (capacity : nat) : JobHistory := mkJobHistory [] (capacity `max` 1).

Definition jh_record (s : JobSummary) (h : JobHistory) : JobHistory :=
  let kept := if (length (jh_entries h) =? jh_capacity h)%nat then drop 1 (jh_entries h) else jh_entries h in
  mkJobHistory (kept ++ [s]) (jh_capacity h).

Definition jh_recent (limit : nat) (h : JobHistory) : list JobSummary := take limit (reverse (jh_entries h)).

Definition jh_filtered (state : option JobState) (limit : nat) (h : JobHistory) : list JobSummary :=
  take limit (filter (λ j, match state with Some s => bool_decide (js_state j = s) | None => true end = true) (reverse (jh_entries h))).

(** ** Properties of the strategies *)

#[export] Instance less_loaded_preorder loads : PreOrder (less_loaded loads).
Proof.
  split; [by intros a; right|]. intros a b c [?|[? Hab]] [?|[? Hbc]]; [left; lia..|]. right. split; [lia|by etrans].
Qed.

#[export] Instance less_loaded_total loads : Total (less_loaded loads).
Proof.
  intros a b. unfold less_loaded. destruct (N.lt_trichotomy (loads a) (loads b)) as [?|[Heq|?]]; [tauto| |tauto].
  rewrite Heq. destruct (total String.le (id_str a) (id_str b)); [left|right]; by right.
Qed.

#[export] Instance more_loaded_preorder loads : PreOrder (more_loaded loads).
Proof.
  split; [by intros a; right|]. intros a b c [?|[? Hab]] [?|[? Hbc]]; [left; lia..|]. right. split; [lia|by etrans].
Qed.

#[export] Instance more_loaded_total loads : Total (more_loaded loads).
Proof.
  intros a b. unfold more_loaded. destruct (N.lt_trichotomy (loads a) (loads b)) as [?|[Heq|?]]; [tauto| |tauto].
  rewrite Heq. destruct (total String.le (id_str a) (id_str b)); [left|right]; by right.
Qed.

#[export] Instance less_loaded_anti loads : AntiSymm (=) (less_loaded loads).
Proof.
  intros a b [?|[? Hab]] [?|[? Hba]]; [lia..|]. apply Ident_inj. by apply (anti_symm String.le).
Qed.

#[export] Instance more_loaded_anti loads : AntiSymm (=) (more_loaded loads).
Proof.
  intros a b [?|[? Hab]] [?|[? Hba]]; [lia..|]. apply Ident_inj. by apply (anti_symm String.le).
Qed.

(** With no two elements tied, the order of the list is immaterial. *)
Lemma min_by_perm {A} (R : A → A → Prop) `{!RelDecision R, !PreOrder R, !Total R, !AntiSymm (=) R} l l' :
  l ≡ₚ l' → min_by R l = min_by R l'.
Proof.
  intros Hp. destruct (min_by R l) as [m|] eqn:Hm, (min_by R l') as [m'|] eqn:Hm'; [|exfalso..|done].
  - apply min_by_Some in Hm as [Hin Hmin]; [|apply _..]. apply min_by_Some in Hm' as [Hin' Hmin']; [|apply _..].
    f_equal. apply (anti_symm R); [apply Hmin; by rewrite Hp|apply Hmin'; by rewrite <-Hp].
  - apply min_by_None in Hm' as ->. apply Permutation_nil_r in Hp. by subst.
  - apply min_by_None in Hm as ->. apply Permutation_nil_l in Hp. by subst.
Qed.

#[export] Instance SimpleFifo_spec : StrategySpec SimpleFifo.
Proof.
  split; intros s cands ctx; simpl; unfold default_choose_with, fifo_choose; [apply min_by_None|].
  intros w Hw. apply min_by_Some in Hw as [? _]; [done|apply _..].
Qed.

#[export] Instance BinPacking_spec : StrategySpec BinPacking.
Proof.
  split; intros s cands ctx; simpl; unfold default_choose_with, bin_choose.
  - destruct (min_by (more_loaded _) _) as [w|] eqn:Hw; [|apply min_by_None]. split; [done|]. by intros ->.
  - intros w. destruct (min_by (more_loaded _) _) as [w'|] eqn:Hw.
    + intros [= <-]. apply min_by_Some in Hw as [Hin _]; [|apply _..]. by apply list_elem_of_filter in Hin as [_ ?].
    + intros Hw'. apply min_by_Some in Hw' as [? _]; [done|apply _..].
Qed.

(** ** Bounds of the histories *)

(** At most [window] completions for each of at most [max_workers] workers. *)
Definition loc_bounded (ix : LocalityIndex) : Prop :=
  (1 ≤ max_workers ix ∧ 1 ≤ window ix ∧ size (loc_workers ix) ≤ max_workers ix)%nat ∧
  ∀ w h, loc_workers ix !! w = Some h → (length (recent h) ≤ window ix)%nat.

Lemma LocalityIndex_new_bounded win mx : loc_bounded (LocalityIndex_new win mx).
Proof. split; [simpl; rewrite map_size_empty; lia|]. intros w h. simpl. by rewrite lookup_empty. Qed.

(** Over the cap there is a worker other than the one kept, and it goes. *)
Lemma evict_least_recent_size keep ix :
  (1 < size (loc_workers ix))%nat →
  loc_workers (evict_least_recent keep ix) ⊆ loc_workers ix ∧
  S (size (loc_workers (evict_least_recent keep ix))) = size (loc_workers ix) ∧
  loc_workers (evict_least_recent keep ix) !! keep = loc_workers ix !! keep.
Proof.
  intros Hs. unfold evict_least_recent. set (others := filter _ (loc_workers ix)).
  destruct (min_by touched_before (map_to_list others)) as [[v h]|] eqn:Hv.
  - apply min_by_elem, elem_of_map_to_list, map_lookup_filter_Some in Hv as [Hv Hne]. cbn in *.
    split_and!; [apply delete_subseteq| |by rewrite lookup_delete_ne].
    rewrite map_size_delete, Hv. lia.
  - apply min_by_None, map_to_list_empty_iff in Hv. exfalso.
    assert (loc_workers ix ⊆ {[keep := default (mkWorkerHistory [] u64_0) (loc_workers ix !! keep)]}) as Hsub.
    { apply map_subseteq_spec. intros w h Hw. destruct (decide (w = keep)) as [->|Hne].
      - rewrite Hw. by rewrite lookup_singleton_eq.
      - exfalso. assert (others !! w = Some h) as Ho by (by apply map_lookup_filter_Some). by rewrite Hv in Ho. }
    apply map_subseteq_size in Hsub. rewrite map_size_singleton in Hsub. lia.
Qed.

(** Recording keeps the bounds, and never forgets the worker recorded. *)
Lemma loc_record_bounded w a r ix :
  loc_bounded ix → loc_bounded (loc_record w a r ix) ∧ is_Some (loc_workers (loc_record w a r ix) !! w).
Proof.
  intros [(Hm & Hw & Hs) Hlen]. unfold loc_record.
  set (kept := if (window ix <? _)%nat then _ else _).
  assert (Hk : (length kept ≤ window ix)%nat).
  { subst kept. destruct (Nat.ltb_spec (window ix) (length (recent (default (mkWorkerHistory [] u64_0) (loc_workers ix !! w)) ++ [mkCompletion a r])))
      as [Hlt|Hge]; [|done]. rewrite length_drop, length_app. simpl.
    destruct (loc_workers ix !! w) as [h|] eqn:Hh; simpl; [specialize (Hlen w h Hh)|]; lia. }
  set (ix' := mkLocalityIndex _ _ _ _).
  assert (Hlen' : ∀ w' h, loc_workers ix' !! w' = Some h → (length (recent h) ≤ window ix)%nat).
  { intros w' h. simpl. rewrite lookup_insert_Some. intros [[-> <-]|[_ Hh]]; [done|by eapply Hlen]. }
  destruct (Nat.ltb_spec (max_workers ix) (size (loc_workers ix'))) as [Hover|Hfit].
  - destruct (evict_least_recent_size w ix') as (Hsub & Hsz & Hk'); [lia|].
    assert (window (evict_least_recent w ix') = window ix ∧ max_workers (evict_least_recent w ix') = max_workers ix) as [Hew Hem].
    { unfold evict_least_recent. by destruct (min_by _ _) as [[]|]. }
    split; [|rewrite Hk'; simpl; by rewrite lookup_insert_eq]. split.
    + rewrite Hew, Hem. split_and!; [done..|]. assert (size (loc_workers ix') ≤ S (size (loc_workers ix)))%nat; [|lia].
      simpl. rewrite map_size_insert. destruct (loc_workers ix !! w); simpl; lia.
    + intros w' h Hh. rewrite Hew. eapply Hlen'. by eapply lookup_weaken.
  - split; [|simpl; by rewrite lookup_insert_eq]. split; [by split_and!|done].
Qed.

Lemma jh_record_bounded s h :
  (1 ≤ jh_capacity h)%nat → (length (jh_entries h) ≤ jh_capacity h)%nat →
  (length (jh_entries (jh_record s h)) ≤ jh_capacity (jh_record s h))%nat ∧ jh_recent 1 (jh_record s h) = [s].
Proof.
  intros H1 Hl. unfold jh_record, jh_recent. cbn [jh_entries jh_capacity]. rewrite reverse_snoc, length_app. simpl.
  split; [|done]. destruct (Nat.eqb_spec (length (jh_entries h)) (jh_capacity h)); [rewrite length_drop|]; lia.
Qed.
