(* ===== verification/Scheduler.v ===== *)
(** * brokkr-control: the scheduler

    Models the dispatch state of [crates/brokkr-control/src/scheduler.rs].  The
    source guards it by two mutexes, [inner] and [waiters]; each section of code
    that holds one of them is one definition here, and one step of [Sys], so the
    interleavings of callers, workers, dispatch loops and the reaper are the
    sequences of these steps. *)

From stdpp Require Import prelude gmap strings.
From Stdlib Require Import Lia.
From S2P Require Import Prelude Machine Bytes Common ActionCache FairQueue Lease Registry Scheduling.

Local Open Scope N_scope.

Definition MAX_ATTEMPTS : N := 5.
Definition DEFAULT_EXECUTION_TIMEOUT : Duration := 30 * 60 * 1000000000.
Definition DEFAULT_LEASE_DURATION : Duration := 60 * 1000000000.

(** ** Messages, by the fields the scheduler reads *)

Record pb_Duration : Type := mkpbDuration { pb_seconds : Z; pb_nanos : Z }.

Record Action : Type := mkAction {
  ac_command_digest : option pb_Digest;
  ac_input_root_digest : option pb_Digest;
  ac_timeout : option pb_Duration;
  ac_platform : option Platform;
  ac_other : bytes
}.

Record EnvironmentVariable : Type := mkEnvironmentVariable { ev_name : string; ev_value : string }.

Record Command : Type := mkCommand {
  cm_arguments : list string;
  cm_environment_variables : list EnvironmentVariable;
  cm_platform : option Platform;
  cm_working_directory : string;
  cm_other : bytes
}.

Record Job : Type := mkJob {
  jb_job_id : string;
  jb_action_digest : option pb_Digest;
  jb_action : option Action;
  jb_command : option Command
}.

Record JobResult : Type := mkJobResult {
  jr_job_id : string;
  jr_result : option ActionResult;
  jr_error_message : string
}.

(** ** Dispatch state *)

Record PendingJob : Type := mkPendingJob {
  pj_job_id : JobId;
  pj_tenant : TenantId;
  pj_job : Job;
  pj_platform : Platform;
  pj_lease_duration : Duration;
  attempts : N;
  pj_action_digest : Digest;
  pj_input_root_digest : option Digest
}.

(** [pj.attempts += 1]. *)
Definition bump (pj : PendingJob) : PendingJob :=
  mkPendingJob (pj_job_id pj) (pj_tenant pj) (pj_job pj) (pj_platform pj) (pj_lease_duration pj)
    (attempts pj + 1) (pj_action_digest pj) (pj_input_root_digest pj).

Record Inner : Type := mkInner {
  connected : ConnectedWorkers;
  pending : FairQueue PendingJob;
  leases : LeaseTable PendingJob;
  locality : LocalityIndex;
  job_history : JobHistory;
  tenants : gmap TenantId nat
}.

Definition set_connected (f : ConnectedWorkers → ConnectedWorkers) (i : Inner) : Inner :=
  mkInner (f (connected i)) (pending i) (leases i) (locality i) (job_history i) (tenants i).
Definition set_pending (f : FairQueue PendingJob → FairQueue PendingJob) (i : Inner) : Inner :=
  mkInner (connected i) (f (pending i)) (leases i) (locality i) (job_history i) (tenants i).
Definition set_leases (f : LeaseTable PendingJob → LeaseTable PendingJob) (i : Inner) : Inner :=
  mkInner (connected i) (pending i) (f (leases i)) (locality i) (job_history i) (tenants i).
Definition set_history (f : LocalityIndex → LocalityIndex) (g : JobHistory → JobHistory) (i : Inner) : Inner :=
  mkInner (connected i) (pending i) (leases i) (f (locality i)) (g (job_history i)) (tenants i).
Definition set_tenants (f : gmap TenantId nat → gmap TenantId nat) (i : Inner) : Inner :=
  mkInner (connected i) (pending i) (leases i) (locality i) (job_history i) (f (tenants i)).

Definition Inner_new : Inner :=
  mkInner ConnectedWorkers_new FairQueue_new LeaseTable_new LocalityIndex_default (JobHistory_new DEFAULT_JOB_HISTORY) ∅.

Definition tenant_inflight (t : TenantId) (i : Inner) : nat := default 0%nat (tenants i !! t).

Definition inc_tenant (t : TenantId) (i : Inner) : Inner := set_tenants <[t := S (tenant_inflight t i)]> i.

Definition dec_tenant (t : TenantId) (i : Inner) : Inner :=
  match tenants i !! t with
  | Some n => if (n - 1 =? 0)%nat then set_tenants (delete t) i else set_tenants <[t := (n - 1)%nat]> i
  | None => i
  end.

(** The count of jobs requeued, and the jobs given up. *)
Fixpoint requeue_taken (jobs : list (JobId * PendingJob)) (i : Inner) : nat * list JobId * Inner :=
  match jobs with
  | [] => (0%nat, [], i)
  | (job_id, pj) :: jobs =>
      let pj := bump pj in
      if MAX_ATTEMPTS <=? attempts pj then
        let '(requeued, dropped, i') := requeue_taken jobs i in (requeued, job_id :: dropped, i')
      else
        let '(requeued, dropped, i') := requeue_taken jobs (set_pending (fq_push (pj_tenant pj) pj) i) in
        (S requeued, dropped, i')
  end.

(** What a scheduler is built with. *)
Record Config (St : Type) : Type := mkConfig {
  strategy : St;
  default_execution_timeout : Duration;
  lease_duration : Duration;
  max_concurrent_per_tenant : option nat;
  node_id : string
}.
Arguments mkConfig {St}.
Arguments strategy {St}.
Arguments default_execution_timeout {St}.
Arguments lease_duration {St}.
Arguments max_concurrent_per_tenant {St}.
Arguments node_id {St}.

(** [build], with the fields its callers vary. *)
Definition Scheduler_build {St} (st : St) (timeout : Duration) (quota : option nat) : Config St :=
  mkConfig st timeout DEFAULT_LEASE_DURATION quota "local".

Definition set_node_id {St} (id : string) (c : Config St) : Config St :=
  mkConfig (strategy c) (default_execution_timeout c) (lease_duration c) (max_concurrent_per_tenant c) id.

Section scheduler.
Context {St : Type} `{Strategy St} (cfg : Config St).

(** ** Placing a job: the locked section of [try_dispatch] *)

(** Workers that could take a job with platform [p], before they are sorted. *)
Definition candidates (reg : option WorkerRegistry) (now : Instant) (i : Inner) (p : Platform) : gset WorkerId :=
  match reg with
  | Some r =>
      filter (λ id, is_connected id (connected i) && negb (is_worker_busy id (leases i)) = true)
        (dom (eligible_workers r now p))
  | None => filter (λ id, is_worker_busy id (leases i) = false) (connected_ids (connected i))
  end.

(** One round of the loop over the slots. *)
Definition consider (reg : option WorkerRegistry) (now : Instant) (i : Inner)
    (best : option (nat * gset WorkerId * u64)) (slot : Slot PendingJob) : option (nat * gset WorkerId * u64) :=
  if match best with Some (_, _, incumbent) => u64_val incumbent <=? slot_start slot | None => false end then best
  else
    let cands := candidates reg now i (pj_platform (slot_job slot)) in
    if bool_decide (cands = ∅) then best else Some (slot_index slot, cands, slot_start slot).

Definition best_slot (reg : option WorkerRegistry) (now : Instant) (i : Inner) : option (nat * gset WorkerId * u64) :=
  foldl (consider reg now i) None (fq_slots (pending i)).

Definition decision_context (i : Inner) (pj : PendingJob) : DecisionContext :=
  mkDecisionContext (inflight (connected i)) (LocalityIndex_view (locality i))
    (mkJobFacts (pj_tenant pj) (pj_action_digest pj) (pj_input_root_digest pj) (pj_platform pj)).

Definition place_one (reg : option WorkerRegistry) (now : Instant) (i : Inner)
    : option (WorkerId * ChannelId * PendingJob * Inner) :=
  '(idx, cands, _) ← best_slot reg now i;
  winner ← fq_get idx (pending i);
  w ← choose_with (strategy cfg) (btree_iter id_str cands) (decision_context i (slot_job winner));
  tx ← sender w (connected i);
  '(pj, q) ← fq_take idx (pending i);
  let deadline := now + pj_lease_duration pj in
  Some (w, tx, pj, set_leases (lt_insert (pj_job_id pj) w deadline pj) (set_pending (λ _, q) i)).

(** The locked section after a failed send, and whether the job is given up. *)
Definition send_failed (w : WorkerId) (pj : PendingJob) (i : Inner) : bool * Inner :=
  let pj := bump pj in
  let dropped := MAX_ATTEMPTS <=? attempts pj in
  let i := set_connected (disconnect w) (set_leases (λ ls, (lt_complete (pj_job_id pj) ls).2) i) in
  (dropped, if dropped then i else set_pending (fq_push (pj_tenant pj) pj) i).

(** [try_dispatch] with nothing interleaved: [clock n] is the time read at
    iteration [n], [closed] the channels whose receiver is gone.  [None] when the
    fuel runs out. *)
Fixpoint try_dispatch (fuel : nat) (closed : ChannelId → bool) (reg : option WorkerRegistry) (clock : nat → Instant)
    (i : Inner) (waiters : gset JobId) : option (Inner * gset JobId) :=
  match fuel with
  | O => None
  | S fuel =>
      match place_one reg (clock 0%nat) i with
      | None => Some (i, waiters)
      | Some (w, tx, pj, i) =>
          if closed tx then
            let (dropped, i) := send_failed w pj i in
            let waiters := if dropped then waiters ∖ {[pj_job_id pj]} else waiters in
            try_dispatch fuel closed reg (λ n, clock (S n)) i waiters
          else try_dispatch fuel closed reg (λ n, clock (S n)) i waiters
      end
  end.

(** ** The other locked sections *)

Definition connect_worker (w : WorkerId) (tx : ChannelId) (i : Inner) : Inner := set_connected (connect w tx) i.

(** The jobs to fail. *)
Definition disconnect_worker (w : WorkerId) (i : Inner) : list JobId * Inner :=
  let i := set_connected (disconnect w) i in
  let (held, ls) := take_worker w (leases i) in
  let '(_, dropped, i) := requeue_taken held (set_leases (λ _, ls) i) in
  (dropped, i).

Definition reap_expired_at (now : Instant) (i : Inner) : list JobId * Inner :=
  let (expired, ls) := take_expired now (leases i) in
  let '(_, dropped, i) := requeue_taken expired (set_leases (λ _, ls) i) in
  (dropped, i).

Definition renew_worker_leases (w : WorkerId) (now : Instant) (i : Inner) : nat * Inner :=
  let (n, ls) := renew_worker w (now + lease_duration cfg) (leases i) in
  (n, set_leases (λ _, ls) i).

(** Admission in [execute]: the limit when the tenant is at it. *)
Definition admission (t : TenantId) (pj : PendingJob) (i : Inner) : option nat * Inner :=
  match max_concurrent_per_tenant cfg with
  | Some limit =>
      if (limit <=? tenant_inflight t i)%nat then (Some limit, i)
      else (None, set_pending (fq_push t pj) (inc_tenant t i))
  | None => (None, set_pending (fq_push t pj) (inc_tenant t i))
  end.

(** [execute] giving up on a job whose time is over. *)
Definition expire (j : JobId) (i : Inner) : Inner :=
  set_leases (λ ls, (lt_complete j ls).2) (set_pending (fq_retain (λ p, negb (bool_decide (pj_job_id p = j)))) i).

(** [report]: the summary it records, and whether the job had a lease. *)
Definition summary_of (r : JobResult) (w : WorkerId) (pj : PendingJob) (unix_ms : u64) : JobSummary :=
  let exit := exit_code <$> jr_result r in
  mkJobSummary (id_str (pj_job_id pj)) (id_str (pj_tenant pj)) (hash (pj_action_digest pj))
    (match exit with Some 0%Z => Succeeded | _ => Failed end) (Some (id_str w)) exit unix_ms (node_id cfg).

Definition report (j : JobId) (r : JobResult) (unix_ms : u64) (i : Inner) : bool * Inner :=
  let worker := worker_of j (leases i) in
  let (completed, ls) := lt_complete j (leases i) in
  let i := set_leases (λ _, ls) i in
  (match completed with Some _ => true | None => false end,
   match worker, completed with
   | Some w, Some pj =>
       set_history (loc_record w (pj_action_digest pj) (pj_input_root_digest pj)) (jh_record (summary_of r w pj unix_ms)) i
   | _, _ => i
   end).

(** ** Reads, and the capacity of the history *)

Definition set_job_history_capacity (capacity : nat) (i : Inner) : Inner :=
  set_history id (λ _, JobHistory_new capacity) i.

Definition recent_jobs (state : option JobState) (limit : nat) (i : Inner) : list JobSummary :=
  jh_filtered state limit (job_history i).

Definition inflight_snapshot (i : Inner) : gmap WorkerId N :=
  map_imap (λ id _, Some (inflight (connected i) id)) (connected i).

Definition locality_input_root_hits (w : WorkerId) (d : Digest) (i : Inner) : N :=
  input_root_hits (LocalityIndex_view (locality i)) w d.

End scheduler.
