(* ===== verification/SchedulerSpec.v ===== *)
(** * brokkr-control: what the scheduler's locked sections do

    [place_one] dispatches the queued job with the least start tag among those
    that have somewhere to go, to a worker that may take it; [try_dispatch]
    terminates and leaves no such job; requeueing keeps every job. *)

From stdpp Require Import prelude gmap strings.
From Stdlib Require Import Lia.
From S2P Require Import Prelude Machine Bytes Common ActionCache FairQueue Lease Registry Scheduling Scheduler.

Local Open Scope N_scope.

Lemma imap_snoc {A B} (f : nat → A → B) l x : imap f (l ++ [x]) = imap f l ++ [f (length l) x].
Proof. by rewrite imap_app; simpl; rewrite Nat.add_0_r. Qed.

(** ** Candidates *)

(** [w] may take a job of platform [p]: its stream is open, it holds no lease,
    and, where there is a registry, it is live and has every property asked. *)
Definition may_take (reg : option WorkerRegistry) (now : Instant) (i : Inner) (p : Platform) (w : WorkerId) : Prop :=
  is_Some (connected i !! w) ∧ (∀ j l, leases i !! j = Some l → worker_id l ≠ w) ∧
  match reg with
  | Some r => ∃ rec, reg_workers r !! w = Some rec ∧
      duration_since now (last_seen rec) ≤ policy_deadline (reg_policy r) ∧
      ∀ q, q ∈ p → labels (capabilities rec) !! prop_name q = Some (prop_value q)
  | None => True
  end.

Lemma candidates_elem reg now i p w : w ∈ candidates reg now i p ↔ may_take reg now i p w.
Proof.
  unfold candidates, may_take. destruct reg as [r|].
  - rewrite elem_of_filter, andb_true_iff, negb_true_iff, is_worker_busy_false. unfold is_connected.
    rewrite bool_decide_eq_true, elem_of_dom. unfold is_Some at 2. setoid_rewrite eligible_workers_lookup. tauto.
  - rewrite elem_of_filter, is_worker_busy_false. unfold connected_ids. rewrite elem_of_dom. tauto.
Qed.

(** ** The slot chosen *)

Definition dispatchable (reg : option WorkerRegistry) (now : Instant) (i : Inner) (e : Entry PendingJob) : Prop :=
  ∃ w, may_take reg now i (pj_platform (job e)) w.

(** Position [k] is the first of the least start tags among the entries that
    have somewhere to go. *)
Definition first_dispatchable reg now i (l : list (Entry PendingJob)) (k : nat) (e : Entry PendingJob) : Prop :=
  l !! k = Some e ∧ dispatchable reg now i e ∧
  ∀ k' e', l !! k' = Some e' → dispatchable reg now i e' →
    u64_val (start e) < start e' ∨ u64_val (start e) = start e' ∧ (k ≤ k')%nat.

Lemma candidates_nonempty reg now i e : candidates reg now i (pj_platform (job e)) ≠ ∅ ↔ dispatchable reg now i e.
Proof.
  unfold dispatchable. split.
  - intros [w Hw]%set_choose_L. exists w. by apply candidates_elem.
  - intros [w Hw%candidates_elem] He. rewrite He in Hw. set_solver.
Qed.

Lemma lookup_snoc_cases {A} (l : list A) x k y :
  (l ++ [x]) !! k = Some y → l !! k = Some y ∧ (k < length l)%nat ∨ k = length l ∧ y = x.
Proof.
  intros Hk. apply lookup_app_Some in Hk as [Hk|[Hge Hk]].
  - left. split; [done|by eapply lookup_lt_Some].
  - right. apply list_lookup_singleton_Some in Hk as [? ->]. split; [lia|done].
Qed.

Lemma best_slot_foldl reg now i l :
  match foldl (consider reg now i) None (imap (λ k e, mkSlot k (start e) (job e)) l) with
  | None => ∀ e, e ∈ l → ¬ dispatchable reg now i e
  | Some (k, cands, s) => ∃ e, first_dispatchable reg now i l k e ∧ s = start e ∧
      cands = candidates reg now i (pj_platform (job e))
  end.
Proof.
  induction l as [|x l IH] using rev_ind; [by intros e ?%not_elem_of_nil|].
  rewrite imap_snoc, foldl_app. cbn [foldl]. unfold consider at 1. cbn [slot_start slot_job slot_index].
  destruct (foldl (consider reg now i) None _) as [[[k cands] s]|].
  - destruct IH as (e & (Hk & Hd & Hmin) & -> & ->). destruct (N.leb_spec (start e) (start x)) as [Hle|Hlt].
    + exists e. split_and!; [|done..]. split_and!; [by apply lookup_app_l_Some|done|].
      intros k' e' [[Hk' _]|[-> ->]]%lookup_snoc_cases Hd'; [by apply Hmin|]. apply lookup_lt_Some in Hk.
      destruct (N.lt_trichotomy (start e) (start x)) as [?|[?|?]]; [by left|right; split; [done|lia]|lia].
    + case_bool_decide as He.
      * exists e. split_and!; [|done..]. split_and!; [by apply lookup_app_l_Some|done|].
        intros k' e' [[Hk' _]|[-> ->]]%lookup_snoc_cases Hd'; [by apply Hmin|]. by apply candidates_nonempty in Hd'.
      * exists x. split_and!; [|done..]. split_and!; [by apply list_lookup_middle|by apply candidates_nonempty|].
        intros k' e' [[Hk' _]|[-> ->]]%lookup_snoc_cases Hd'; [|by right]. left.
        destruct (Hmin _ _ Hk' Hd') as [?|[? _]]; lia.
  - case_bool_decide as He.
    + intros e [He'| ->%list_elem_of_singleton]%elem_of_app; [by apply IH|]. rewrite <-candidates_nonempty. intros Hn. by apply Hn.
    + exists x. split_and!; [|done..]. split_and!; [by apply list_lookup_middle|by apply candidates_nonempty|].
      intros k' e' [[Hk' _]|[-> ->]]%lookup_snoc_cases Hd'; [|by right].
      exfalso. by eapply (IH e'); [eapply list_elem_of_lookup_2|].
Qed.

(** ** Where a job is *)

Definition queued (j : JobId) (i : Inner) : Prop := ∃ e, e ∈ fq_entries (pending i) ∧ pj_job_id (job e) = j.
Definition held (j : JobId) (i : Inner) : Prop := is_Some (leases i !! j).

Lemma queued_push j t pj i : queued j (set_pending (fq_push t pj) i) ↔ queued j i ∨ j = pj_job_id pj.
Proof.
  unfold queued, set_pending, fq_push. cbn [pending fq_entries]. setoid_rewrite elem_of_app. setoid_rewrite list_elem_of_singleton.
  split.
  - intros (e & [He| ->] & <-); [left; by exists e|by right].
  - intros [(e & He & <-)| ->]; [exists e; tauto|]. eexists. split; [by right|done].
Qed.

Lemma fq_take_entries {J} k (q q' : FairQueue J) (j : J) :
  fq_take k q = Some (j, q') → ∃ e, j = job e ∧ fq_entries q ≡ₚ e :: fq_entries q'.
Proof.
  unfold fq_take. intros (e & He & [= <- <-])%bind_Some. exists e. split; [done|]. by apply swap_remove_perm.
Qed.

Lemma queued_take j k i pj q :
  fq_take k (pending i) = Some (pj, q) → queued j i ↔ j = pj_job_id pj ∨ queued j (set_pending (λ _, q) i).
Proof.
  intros (e & -> & Hp)%fq_take_entries. unfold queued. setoid_rewrite Hp. setoid_rewrite elem_of_cons. cbn [pending set_pending]. split.
  - intros (e' & [->|He'] & <-); [by left|right; by exists e'].
  - intros [->|(e' & He' & <-)]; [exists e; tauto|exists e'; tauto].
Qed.

Section dispatch.
Context {St : Type} `{StrategySpec St} (cfg : Config St).

(** ** [place_one] *)

Lemma place_one_spec reg now i :
  match place_one cfg reg now i with
  | None => ∀ e, e ∈ fq_entries (pending i) → ¬ dispatchable reg now i e
  | Some (w, tx, pj, i') => ∃ k e,
      first_dispatchable reg now i (fq_entries (pending i)) k e ∧ pj = job e ∧
      may_take reg now i (pj_platform pj) w ∧ sender w (connected i) = Some tx ∧
      fq_take k (pending i) = Some (pj, pending i') ∧
      i' = set_leases <[pj_job_id pj := mkLease w (now + pj_lease_duration pj) pj]> (set_pending (λ _, pending i') i)
  end.
Proof.
  unfold place_one, best_slot, fq_slots. pose proof (best_slot_foldl reg now i (fq_entries (pending i))) as Hb.
  destruct (foldl (consider reg now i) None _) as [[[k cands] s]|]; [|exact Hb].
  destruct Hb as (e & Hf & -> & ->). pose proof Hf as (Hk & Hd & _). simpl. unfold fq_get. rewrite Hk. simpl.
  destruct (choose_with _ _ _) as [w|] eqn:Hw; simpl.
  - apply choose_with_Some in Hw. rewrite btree_iter_elem in Hw. apply candidates_elem in Hw as Hm.
    destruct Hm as ([c Hc] & Hm). unfold sender at 1. rewrite Hc. simpl. unfold fq_take. rewrite Hk. simpl.
    exists k, e. split_and!; [done..|by split|by unfold sender; rewrite Hc|by rewrite Hk|done].
  - apply choose_with_None in Hw. apply candidates_nonempty in Hd. exfalso. apply Hd. apply elem_of_equiv_empty_L.
    intros w. rewrite <-(btree_iter_elem id_str), Hw. apply not_elem_of_nil.
Qed.

(** A job that is queued or held still is after a placement. *)
Lemma place_one_keeps reg now i w tx pj i' j :
  place_one cfg reg now i = Some (w, tx, pj, i') → queued j i ∨ held j i → queued j i' ∨ held j i'.
Proof.
  intros Hp Hj. pose proof (place_one_spec reg now i) as Hs. rewrite Hp in Hs. destruct Hs as (k & e & _ & _ & _ & _ & Ht & Hi').
  apply (queued_take j) in Ht. assert (held j i' ↔ j = pj_job_id pj ∨ held j i) as Hh.
  { rewrite Hi'. unfold held. cbn. destruct (decide (pj_job_id pj = j)) as [<-|Hne].
    - rewrite lookup_insert_eq. split; [by left|done].
    - rewrite lookup_insert_ne by done. split; [by right|]. by intros [->|?]. }
  rewrite Hh. change (queued j (set_pending (λ _, pending i') i)) with (queued j i') in Ht. tauto.
Qed.

Lemma send_failed_keeps w pj i j :
  queued j i ∨ held j i → queued j (send_failed w pj i).2 ∨ held j (send_failed w pj i).2 ∨
    (j = pj_job_id pj ∧ (send_failed w pj i).1 = true).
Proof.
  intros Hj. unfold send_failed. cbn [fst snd]. destruct (MAX_ATTEMPTS <=? attempts (bump pj)) eqn:Hg.
  - destruct Hj as [Hq|Hh]; [by left|]. destruct (decide (j = pj_job_id pj)) as [->|Hne]; [by right; right|].
    right. left. unfold held in *. cbn. by rewrite lookup_delete_ne.
  - rewrite queued_push. destruct Hj as [Hq|Hh]; [by left; left|]. destruct (decide (j = pj_job_id pj)) as [->|Hne]; [by left; right|].
    right. left. unfold held in *. cbn. by rewrite lookup_delete_ne.
Qed.

(** ** [try_dispatch] *)

Definition backlog (i : Inner) : nat := (size (connected i) + length (fq_entries (pending i)))%nat.

(** A placement shortens the queue; a send that fails costs a connection. *)
Lemma place_one_backlog reg now i w tx pj i' :
  place_one cfg reg now i = Some (w, tx, pj, i') →
  (backlog i' < backlog i)%nat ∧ (backlog (send_failed w pj i').2 < backlog i)%nat.
Proof.
  intros Hp. pose proof (place_one_spec reg now i) as Hs. rewrite Hp in Hs.
  destruct Hs as (k & e & _ & _ & ([c Hc] & _) & _ & Ht & Hi'). apply fq_take_entries in Ht as (e' & _ & Hperm).
  apply Permutation_length in Hperm. simpl in Hperm. assert (connected i' = connected i) as Hc' by by rewrite Hi'.
  unfold backlog. rewrite Hc'. split; [lia|]. unfold send_failed. cbn [snd].
  assert (S (size (delete w (connected i))) = size (connected i)) as Hsz.
  { rewrite map_size_delete, Hc. assert (size (connected i) ≠ 0)%nat; [|lia].
    apply map_size_non_empty_iff. intros He. by rewrite He in Hc. }
  destruct (MAX_ATTEMPTS <=? _); cbn; rewrite ?length_app; unfold disconnect; rewrite Hc'; simpl; lia.
Qed.

(** [try_dispatch] returns, within as many rounds as there are connections and
    queued jobs; it leaves no queued job that a worker could take; and every
    job it found is queued or leased still, or its waiter has been dropped. *)
Lemma try_dispatch_spec fuel closed reg clock i ws :
  (backlog i < fuel)%nat →
  ∃ i' ws', try_dispatch cfg fuel closed reg clock i ws = Some (i', ws') ∧ ws' ⊆ ws ∧
    (∃ n, ∀ e, e ∈ fq_entries (pending i') → ¬ dispatchable reg (clock n) i' e) ∧
    ∀ j, queued j i ∨ held j i → queued j i' ∨ held j i' ∨ j ∉ ws'.
Proof.
  revert clock i ws. induction fuel as [|fuel IH]; intros clock i ws Hf; [lia|]. cbn [try_dispatch].
  destruct (place_one cfg reg (clock 0%nat) i) as [[[[w tx] pj] i1]|] eqn:Hp.
  - destruct (place_one_backlog _ _ _ _ _ _ _ Hp) as [Hb1 Hb2]. pose proof (λ j, place_one_keeps _ _ _ _ _ _ _ j Hp) as Hk.
    destruct (closed tx).
    + pose proof (send_failed_keeps w pj i1) as Hk2. destruct (send_failed w pj i1) as [g i2]. cbn [fst snd] in *.
      destruct (IH (λ n, clock (S n)) i2 (if g then ws ∖ {[pj_job_id pj]} else ws)) as (i' & ws' & Hr & Hsub & [n Hn] & Hj); [lia|].
      exists i', ws'. split_and!; [done|destruct g; set_solver|by exists (S n)|].
      intros j Hj0. destruct (Hk2 j (Hk j Hj0)) as [Hq|[Hh|[-> Hg]]]; [apply Hj; by left|apply Hj; by right|].
      right. right. rewrite Hg in Hsub. set_solver.
    + destruct (IH (λ n, clock (S n)) i1 ws) as (i' & ws' & Hr & Hsub & [n Hn] & Hj); [lia|].
      exists i', ws'. split_and!; [done..|by exists (S n)|]. intros j Hj0. by apply Hj, Hk.
  - exists i, ws. split_and!; [done..| |tauto]. exists 0%nat.
    pose proof (place_one_spec reg (clock 0%nat) i) as Hs. by rewrite Hp in Hs.
Qed.

End dispatch.

(** ** [requeue_taken] *)

Lemma requeue_taken_spec jobs i requeued dropped i' :
  requeue_taken jobs i = (requeued, dropped, i') →
  connected i' = connected i ∧ leases i' = leases i ∧ tenants i' = tenants i ∧
  (∀ j, queued j i → queued j i') ∧
  (∀ e, e ∈ fq_entries (pending i') → e ∈ fq_entries (pending i) ∨
     ∃ j pj, (j, pj) ∈ jobs ∧ job e = bump pj ∧ attempts (job e) < MAX_ATTEMPTS) ∧
  (∀ j pj, (j, pj) ∈ jobs → pj_job_id pj = j → queued j i' ∨ j ∈ dropped) ∧
  (∀ j, j ∈ dropped → ∃ pj, (j, pj) ∈ jobs).
Proof.
  revert i requeued dropped i'. induction jobs as [|[j pj] jobs IH]; intros i requeued dropped i'; cbn [requeue_taken].
  { intros [= <- <- <-]. split_and!; [done..|by left|by intros ?? ?%not_elem_of_nil|by intros ? ?%not_elem_of_nil]. }
  destruct (N.leb_spec MAX_ATTEMPTS (attempts (bump pj))) as [Hg|Hg].
  - destruct (requeue_taken jobs i) as [[rq gu] i1] eqn:Hr. intros [= <- <- <-].
    destruct (IH _ _ _ _ Hr) as (Hc & Hl & Ht & Hq & He & Hj & Hgu). split_and!; [done..| | |].
    + intros e Hin. destruct (He e Hin) as [?|(j' & pj' & ? & ?)]; [by left|]. right. exists j', pj'. split; [by right|done].
    + intros j' pj' [[= -> ->]|Hin]%elem_of_cons Hid; [right; left|].
      destruct (Hj j' pj' Hin Hid); [by left|right; by right].
    + intros j' [->|Hin]%elem_of_cons; [exists pj; left|]. destruct (Hgu j' Hin) as [pj' ?]. exists pj'. by right.
  - destruct (requeue_taken jobs _) as [[rq gu] i1] eqn:Hr. intros [= <- <- <-].
    destruct (IH _ _ _ _ Hr) as (Hc & Hl & Ht & Hq & He & Hj & Hgu). split_and!; [done..| | | |].
    + intros j' Hq'. apply Hq, queued_push. by left.
    + intros e Hin. destruct (He e Hin) as [Hin'|(j' & pj' & ? & ?)]; [|right; exists j', pj'; split; [by right|done]].
      cbn in Hin'. apply elem_of_app in Hin' as [?| ->%list_elem_of_singleton]; [by left|]. right. exists j, pj.
      split_and!; [left|done|done].
    + intros j' pj' [[= -> ->]|Hin]%elem_of_cons Hid; [|by eapply Hj]. left. apply Hq, queued_push. by right.
    + intros j' Hin. destruct (Hgu j' Hin) as [pj' ?]. exists pj'. by right.
Qed.
