(* ===== verification/SchedulerRun.v ===== *)
(** * brokkr-control: runs of the scheduler

    The scheduler with its callers, workers and background tasks, as a state
    machine: one action per locked section, so a run is any interleaving of
    them.  Its invariants: a worker holds one lease at most, a job is attempted
    a bounded number of times, no job a caller waits for is lost, and a tenant
    never exceeds its quota. *)

From stdpp Require Import prelude gmap strings.
From Stdlib Require Import Lia.
From S2P Require Import Prelude Machine Bytes Common ActionCache FairQueue Lease Registry Scheduling Scheduler SchedulerSpec.

Local Open Scope N_scope.

(** ** Callers *)

(** The receiving half of a [oneshot] channel. *)
Inductive Reply : Type :=
| NoReply
| Replied (r : JobResult)
| SenderDropped.

(** Where a call of [execute] is. *)
Inductive Phase : Type :=
| Registered (pj : PendingJob)    (* the waiter is in, admission is next *)
| Refused (limit : nat)           (* over quota, the waiter is to be removed *)
| Waiting                         (* on the receiver, under the timeout *)
| TimedOut                        (* the timeout fired, the waiter is to be removed *)
| Expired                         (* the job is to be removed *)
| Concluding.                     (* the tenant's slot is to be released *)

Record Caller : Type := mkCaller { c_tenant : TenantId; c_phase : Phase; c_reply : Reply }.

Definition with_phase (p : Phase) (c : Caller) : Caller := mkCaller (c_tenant c) p (c_reply c).
Definition with_reply (r : Reply) (c : Caller) : Caller := mkCaller (c_tenant c) (c_phase c) r.

(** ** The system *)

Record Sys : Type := mkSys {
  registry : option WorkerRegistry;
  inner : Inner;
  waiters : gset JobId;
  callers : gmap JobId Caller;
  sending : list (WorkerId * ChannelId * PendingJob);
  failing : list JobId;
  reporting : list (JobId * JobResult);
  issued : gset JobId
}.

Definition Sys_new (reg : option WorkerRegistry) : Sys := mkSys reg Inner_new ∅ ∅ [] [] [] ∅.

Definition on_inner (i : Inner) (s : Sys) : Sys :=
  mkSys (registry s) i (waiters s) (callers s) (sending s) (failing s) (reporting s) (issued s).
Definition on_callers (f : gmap JobId Caller → gmap JobId Caller) (s : Sys) : Sys :=
  mkSys (registry s) (inner s) (waiters s) (f (callers s)) (sending s) (failing s) (reporting s) (issued s).
Definition on_waiters (f : gset JobId → gset JobId) (s : Sys) : Sys :=
  mkSys (registry s) (inner s) (f (waiters s)) (callers s) (sending s) (failing s) (reporting s) (issued s).
Definition on_sending (l : list (WorkerId * ChannelId * PendingJob)) (s : Sys) : Sys :=
  mkSys (registry s) (inner s) (waiters s) (callers s) l (failing s) (reporting s) (issued s).
Definition on_failing (l : list JobId) (s : Sys) : Sys :=
  mkSys (registry s) (inner s) (waiters s) (callers s) (sending s) l (reporting s) (issued s).
Definition on_reporting (l : list (JobId * JobResult)) (s : Sys) : Sys :=
  mkSys (registry s) (inner s) (waiters s) (callers s) (sending s) (failing s) l (issued s).
Definition on_registry (f : WorkerRegistry → WorkerRegistry) (s : Sys) : Sys :=
  mkSys (f <$> registry s) (inner s) (waiters s) (callers s) (sending s) (failing s) (reporting s) (issued s).

Definition phase (j : JobId) (p : Phase) (s : Sys) : Sys := on_callers (alter (with_phase p) j) s.

(** [waiters.remove(&j)], then the sender is used ([r]) or dropped. *)
Definition settle (j : JobId) (r : Reply) (s : Sys) : Sys :=
  if bool_decide (j ∈ waiters s) then on_callers (alter (with_reply r) j) (on_waiters (.∖ {[j]}) s) else s.

Inductive SysAction : Type :=
| ASubmit (pj : PendingJob)
| AAdmit (j : JobId)
| ARefuse (j : JobId)
| APlace (now : Instant)
| ASend (k : nat) (delivered : bool)
| AConnect (w : WorkerId) (tx : ChannelId)
| ADisconnect (w : WorkerId)
| AReap (now : Instant)
| ARenew (w : WorkerId) (now : Instant)
| AFail (k : nat)
| AReport (r : JobResult) (unix_ms : u64)
| AWake (k : nat)
| ATimeout (j : JobId)
| AUnwait (j : JobId)
| AExpire (j : JobId)
| AReceive (j : JobId)
| AFinish (j : JobId)
| ARegister (w : WorkerId) (caps : WorkerCapabilities) (now : Instant)
| AHeartbeat (w : WorkerId) (now : Instant)
| AEvict (now : Instant).

Section system.
Context {St : Type} `{Strategy St} (cfg : Config St).

(** One locked section; [None] when the action is not enabled. *)
Definition act (a : SysAction) (s : Sys) : option Sys :=
  match a with
  | ASubmit pj =>
      let j := pj_job_id pj in
      if decide (j ∉ issued s ∧ attempts pj = 0) then
        Some (mkSys (registry s) (inner s) ({[j]} ∪ waiters s)
                (<[j := mkCaller (pj_tenant pj) (Registered pj) NoReply]> (callers s))
                (sending s) (failing s) (reporting s) ({[j]} ∪ issued s))
      else None
  | AAdmit j =>
      match callers s !! j with
      | Some (mkCaller t (Registered pj) _) =>
          let (over, i) := admission cfg t pj (inner s) in
          Some (phase j (match over with Some limit => Refused limit | None => Waiting end) (on_inner i s))
      | _ => None
      end
  | ARefuse j =>
      match callers s !! j with
      | Some (mkCaller _ (Refused _) _) => Some (on_callers (delete j) (on_waiters (.∖ {[j]}) s))
      | _ => None
      end
  | APlace now =>
      '(w, tx, pj, i) ← place_one cfg (registry s) now (inner s);
      Some (on_sending (sending s ++ [(w, tx, pj)]) (on_inner i s))
  | ASend k delivered =>
      '(w, tx, pj) ← sending s !! k;
      let s := on_sending (delete k (sending s)) s in
      if delivered then Some s
      else
        let (dropped, i) := send_failed w pj (inner s) in
        Some (on_failing (failing s ++ if dropped : bool then [pj_job_id pj] else []) (on_inner i s))
  | AConnect w tx => Some (on_inner (connect_worker w tx (inner s)) s)
  | ADisconnect w =>
      let (dropped, i) := disconnect_worker w (inner s) in
      Some (on_failing (failing s ++ dropped) (on_inner i s))
  | AReap now =>
      let (dropped, i) := reap_expired_at now (inner s) in
      Some (on_failing (failing s ++ dropped) (on_inner i s))
  | ARenew w now => Some (on_inner (renew_worker_leases cfg w now (inner s)).2 s)
  | AFail k =>
      j ← failing s !! k;
      Some (settle j SenderDropped (on_failing (delete k (failing s)) s))
  | AReport r unix_ms =>
      match JobId_new (jr_job_id r) with
      | Ok j =>
          let (known, i) := report cfg j r unix_ms (inner s) in
          Some (on_reporting (reporting s ++ if known : bool then [(j, r)] else []) (on_inner i s))
      | _ => Some s
      end
  | AWake k =>
      '(j, r) ← reporting s !! k;
      Some (settle j (Replied r) (on_reporting (delete k (reporting s)) s))
  | ATimeout j =>
      match callers s !! j with
      | Some (mkCaller _ Waiting NoReply) => Some (phase j TimedOut s)
      | _ => None
      end
  | AUnwait j =>
      match callers s !! j with
      | Some (mkCaller _ TimedOut _) => Some (phase j Expired (on_waiters (.∖ {[j]}) s))
      | _ => None
      end
  | AExpire j =>
      match callers s !! j with
      | Some (mkCaller _ Expired _) => Some (phase j Concluding (on_inner (expire j (inner s)) s))
      | _ => None
      end
  | AReceive j =>
      match callers s !! j with
      | Some (mkCaller _ Waiting (Replied _ | SenderDropped)) => Some (phase j Concluding s)
      | _ => None
      end
  | AFinish j =>
      match callers s !! j with
      | Some (mkCaller t Concluding _) => Some (on_callers (delete j) (on_inner (dec_tenant t (inner s)) s))
      | _ => None
      end
  | ARegister w caps now => Some (on_registry (register w caps now) s)
  | AHeartbeat w now => Some (on_registry (λ r, (record_heartbeat w now r).1) s)
  | AEvict now => Some (on_registry (λ r, (evict_stale now r).2) s)
  end.

Definition acts (l : list SysAction) (s : Sys) : option Sys := foldl (λ o a, o ≫= act a) (Some s) l.

Inductive reachable (reg : option WorkerRegistry) : Sys → Prop :=
| reachable_new : reachable reg (Sys_new reg)
| reachable_act a s s' : reachable reg s → act a s = Some s' → reachable reg s'.

Lemma acts_reachable reg l s : acts l (Sys_new reg) = Some s → reachable reg s.
Proof.
  revert s. induction l as [|a l IH] using rev_ind; intros s; unfold acts.
  - intros [= <-]. constructor.
  - rewrite foldl_app. cbn [foldl]. intros (s0 & Hs0 & Ha)%bind_Some. econstructor; [by apply IH|exact Ha].
Qed.

(** ** The dispatch state *)

(** A queued job has attempts left. *)
Definition pending_ok (i : Inner) : Prop := ∀ e, e ∈ fq_entries (pending i) → attempts (job e) < MAX_ATTEMPTS.

(** A lease is for the job it is keyed by, and no worker holds two. *)
Definition leases_ok (i : Inner) : Prop :=
  (∀ j l, leases i !! j = Some l → pj_job_id (payload l) = j ∧ attempts (payload l) < MAX_ATTEMPTS) ∧
  ∀ j l j' l', leases i !! j = Some l → leases i !! j' = Some l' → worker_id l = worker_id l' → j = j'.

(** No connection counts a job in flight. *)
Definition idle_ok (i : Inner) : Prop := ∀ w c, connected i !! w = Some c → conn_inflight c = 0.

Definition inner_ok (i : Inner) : Prop := pending_ok i ∧ leases_ok i ∧ idle_ok i.

Lemma leases_ok_shrink i i' :
  (∀ j l, leases i' !! j = Some l →
     ∃ l0, leases i !! j = Some l0 ∧ worker_id l = worker_id l0 ∧ payload l = payload l0) →
  leases_ok i → leases_ok i'.
Proof.
  intros Hsub [Hid Hone]. split.
  - intros j l (l0 & Hl & _ & ->)%Hsub. by apply Hid.
  - intros j l j' l' (l0 & Hl & Hw & _)%Hsub (l0' & Hl' & Hw' & _)%Hsub E. eapply Hone; [done..|congruence].
Qed.

Lemma leases_ok_delete j i i' : leases i' = delete j (leases i) → leases_ok i → leases_ok i'.
Proof.
  intros Hd. apply leases_ok_shrink. intros j' l. rewrite Hd, lookup_delete_Some. intros [_ Hl]. by exists l.
Qed.

Lemma pending_ok_push t pj i : attempts pj < MAX_ATTEMPTS → pending_ok i → pending_ok (set_pending (fq_push t pj) i).
Proof.
  intros Ha Hp e. cbn. intros [He| ->%list_elem_of_singleton]%elem_of_app; [by apply Hp|done].
Qed.

Lemma idle_ok_delete w i i' : connected i' = delete w (connected i) → idle_ok i → idle_ok i'.
Proof. intros Hd Hi w' c. rewrite Hd, lookup_delete_Some. intros [_ Hc]. by eapply Hi. Qed.

Lemma requeue_taken_ok jobs i requeued dropped i' :
  requeue_taken jobs i = (requeued, dropped, i') → inner_ok i → inner_ok i'.
Proof.
  intros (Hc & Hl & _ & _ & He & _)%requeue_taken_spec (Hp & Hlk & Hi). split_and!.
  - intros e Hin. destruct (He e Hin) as [?|(j & pj & _ & _ & ?)]; [by apply Hp|done].
  - unfold leases_ok. by rewrite Hl.
  - unfold idle_ok. by rewrite Hc.
Qed.

Lemma disconnect_worker_ok w i : inner_ok i → inner_ok (disconnect_worker w i).2.
Proof.
  intros (Hp & Hl & Hi). unfold disconnect_worker. destruct (take_worker_spec w (leases i)) as [_ Hrest].
  cbn [set_connected leases]. destruct (take_worker w (leases i)) as [held ls]. cbn [fst snd] in *.
  destruct (requeue_taken held _) as [[rq gu] i'] eqn:Hr. apply (requeue_taken_ok _ _ _ _ _ Hr). split_and!; [exact Hp| |].
  - eapply leases_ok_shrink; [|exact Hl]. cbn. intros j l [Hlk _]%Hrest. by exists l.
  - by apply (idle_ok_delete w i).
Qed.

Lemma reap_expired_ok now i : inner_ok i → inner_ok (reap_expired_at now i).2.
Proof.
  intros (Hp & Hl & Hi). unfold reap_expired_at. destruct (take_expired_spec now (leases i)) as [_ Hrest].
  destruct (take_expired now (leases i)) as [held ls]. cbn [fst snd] in *.
  destruct (requeue_taken held _) as [[rq gu] i'] eqn:Hr. apply (requeue_taken_ok _ _ _ _ _ Hr). split_and!; [exact Hp| |exact Hi].
  eapply leases_ok_shrink; [|exact Hl]. cbn. intros j l [Hlk _]%Hrest. by exists l.
Qed.

Lemma renew_ok w now i : inner_ok i → inner_ok (renew_worker_leases cfg w now i).2.
Proof.
  intros (Hp & Hl & Hi). split_and!; [exact Hp| |exact Hi]. eapply leases_ok_shrink; [|exact Hl]. cbn.
  intros j l Hlk. apply renew_worker_lookup in Hlk as (l0 & ? & ? & ? & _). by exists l0.
Qed.

Lemma send_failed_ok w pj i : inner_ok i → inner_ok (send_failed w pj i).2.
Proof.
  intros (Hp & Hl & Hi). unfold send_failed. cbn [snd]. destruct (N.leb_spec MAX_ATTEMPTS (attempts (bump pj))) as [Hg|Hg]; split_and!.
  - exact Hp.
  - by eapply leases_ok_delete.
  - by eapply idle_ok_delete.
  - by apply pending_ok_push.
  - by eapply leases_ok_delete.
  - by eapply idle_ok_delete.
Qed.

Lemma report_inner j r ms i :
  connected (report cfg j r ms i).2 = connected i ∧ pending (report cfg j r ms i).2 = pending i ∧
  leases (report cfg j r ms i).2 = delete j (leases i) ∧ tenants (report cfg j r ms i).2 = tenants i ∧
  ((report cfg j r ms i).1 = true ↔ held j i).
Proof.
  unfold report, lt_complete, worker_of, held. destruct (leases i !! j) as [l|]; cbn; split_and!; try done.
Qed.

Lemma report_ok j r ms i : inner_ok i → inner_ok (report cfg j r ms i).2.
Proof.
  intros (Hp & Hl & Hi). destruct (report_inner j r ms i) as (Hc & Hq & Hls & _). split_and!.
  - unfold pending_ok. by rewrite Hq.
  - by eapply leases_ok_delete.
  - unfold idle_ok. by rewrite Hc.
Qed.

Lemma expire_ok j i : inner_ok i → inner_ok (expire j i).
Proof.
  intros (Hp & Hl & Hi). split_and!; [|by eapply leases_ok_delete|exact Hi].
  intros e. cbn. intros [_ He]%list_elem_of_filter. by apply Hp.
Qed.

Lemma dec_tenant_inner t i :
  connected (dec_tenant t i) = connected i ∧ pending (dec_tenant t i) = pending i ∧ leases (dec_tenant t i) = leases i.
Proof. unfold dec_tenant. destruct (tenants i !! t); [|done]. by destruct (_ =? _)%nat. Qed.

Lemma dec_tenant_ok t i : inner_ok i → inner_ok (dec_tenant t i).
Proof.
  unfold inner_ok, pending_ok, leases_ok, idle_ok. destruct (dec_tenant_inner t i) as (-> & -> & ->). done.
Qed.

End system.

(** ** Callers *)

Definition located (j : JobId) (s : Sys) : Prop :=
  queued j (inner s) ∨ held j (inner s) ∨ j ∈ failing s ∨ j ∈ (reporting s).*1.

(** A caller that waits has its waiter in place and its job somewhere; a reply
    it got is one reported for its job. *)
Definition caller_ok (s : Sys) (j : JobId) (c : Caller) : Prop :=
  match c_phase c with
  | Registered pj => pj_job_id pj = j ∧ attempts pj = 0 ∧ (c_reply c = NoReply → j ∈ waiters s)
  | Waiting => c_reply c = NoReply → j ∈ waiters s ∧ located j s
  | _ => True
  end ∧ ∀ r, c_reply c = Replied r → jr_job_id r = id_str j.

Definition callers_ok (s : Sys) : Prop := ∀ j c, callers s !! j = Some c → j ∈ issued s ∧ caller_ok s j c.

Definition reports_ok (s : Sys) : Prop := ∀ j r, (j, r) ∈ reporting s → jr_job_id r = id_str j.

Lemma callers_ok_frame s s' :
  callers s' = callers s → waiters s' = waiters s → issued s' = issued s →
  (∀ j, located j s → located j s') → callers_ok s → callers_ok s'.
Proof.
  intros Hc Hw Hi Hl Hok j c. rewrite Hc, Hi. intros Hj. destruct (Hok j c Hj) as (? & Hph & ?). split_and!; [done|split; [|done]].
  destruct (c_phase c); rewrite ?Hw; try done. intros Hr. destruct (Hph Hr). auto.
Qed.

Lemma callers_ok_settle j r s s' :
  callers s' = callers s → waiters s' = waiters s → issued s' = issued s → r ≠ NoReply →
  (∀ res, r = Replied res → jr_job_id res = id_str j) →
  (∀ j', j' ≠ j → located j' s → located j' s') → callers_ok s → callers_ok (settle j r s').
Proof.
  intros Hc Hw Hi Hr Hres Hl Hok. unfold settle. case_bool_decide as Hin.
  - intros j' c'. cbn. rewrite Hc, Hi. destruct (decide (j' = j)) as [->|Hne].
    + rewrite lookup_alter_eq. intros (c & Hj & ->)%fmap_Some. destruct (Hok j c Hj) as (? & Hph & _). split_and!; [done|split].
      * unfold caller_ok. cbn. destruct (c_phase c); try done. destruct Hph as (? & ? & _). by split_and!.
      * intros res. cbn. by intros [= ->]%Hres.
    + rewrite lookup_alter_ne by done. intros Hj. destruct (Hok j' c' Hj) as (? & Hph & ?). split_and!; [done|split; [|done]].
      cbn. rewrite Hw. destruct (c_phase c'); try done; [destruct Hph as (? & ? & Hn); split_and!; set_solver|].
      intros Hn. destruct (Hph Hn) as [? Hloc]. split; [set_solver|]. by apply (Hl j' Hne).
  - intros j' c'. rewrite Hc, Hi. intros Hj. destruct (Hok j' c' Hj) as (? & Hph & ?). split_and!; [done|split; [|done]].
    rewrite Hw. destruct (c_phase c'); try done. intros Hn. destruct (Hph Hn) as [Hwt Hloc]. split; [done|].
    apply Hl; [|done]. intros ->. apply Hin. by rewrite Hw.
Qed.

Lemma callers_ok_phase j p s s' :
  callers s' = callers s → issued s' = issued s → waiters s ∖ {[j]} ⊆ waiters s' →
  (∀ j', j' ≠ j → located j' s → located j' s') →
  match p with
  | Registered _ => False
  | Waiting => (∀ c, callers s !! j = Some c → c_reply c = NoReply → j ∈ waiters s') ∧ located j s'
  | _ => True
  end → callers_ok s → callers_ok (phase j p s').
Proof.
  intros Hc Hi Hw Hl Hp Hok j' c'. cbn. rewrite Hc, Hi. destruct (decide (j' = j)) as [->|Hne].
  - rewrite lookup_alter_eq. intros (c & Hj & ->)%fmap_Some. destruct (Hok j c Hj) as (? & _ & Hrep).
    split_and!; [done|split; [|exact Hrep]]. cbn. destruct p; try done. intros Hn. destruct Hp as [Hp1 Hp2]. split; [by eapply Hp1|done].
  - rewrite lookup_alter_ne by done. intros Hj. destruct (Hok j' c' Hj) as (? & Hph & ?). split_and!; [done|split; [|done]].
    cbn. destruct (c_phase c'); try done; [destruct Hph as (? & ? & Hn); split_and!; set_solver|].
    intros Hn. destruct (Hph Hn) as [? Hloc]. split; [set_solver|]. by apply (Hl j' Hne).
Qed.

Lemma callers_ok_delete j s s' :
  callers s' = callers s → issued s' = issued s → waiters s ∖ {[j]} ⊆ waiters s' →
  (∀ j', j' ≠ j → located j' s → located j' s') → callers_ok s → callers_ok (on_callers (delete j) s').
Proof.
  intros Hc Hi Hw Hl Hok j' c'. cbn. rewrite Hc, Hi, lookup_delete_Some. intros [Hne Hj].
  destruct (Hok j' c' Hj) as (? & Hph & ?). split_and!; [done|split; [|done]].
  cbn. destruct (c_phase c'); try done; [destruct Hph as (? & ? & Hn); split_and!; set_solver|].
  intros Hn. destruct (Hph Hn) as [? Hloc]. split; [set_solver|]. by apply (Hl j').
Qed.

Lemma delete_elem_ne {A} (l : list A) k x y : l !! k = Some x → y ≠ x → y ∈ l → y ∈ delete k l.
Proof.
  intros Hk Hne. rewrite <-(take_drop_middle l k x) at 1 by done. rewrite elem_of_app, elem_of_cons, delete_take_drop, elem_of_app. tauto.
Qed.

Lemma elem_of_delete {A} (l : list A) k y : y ∈ delete k l → y ∈ l.
Proof.
  rewrite delete_take_drop, elem_of_app. intros [Hy|Hy].
  - rewrite <-(take_drop k l). apply elem_of_app. by left.
  - rewrite <-(take_drop (S k) l). apply elem_of_app. by right.
Qed.

Lemma Ident_new_Ok s j : Ident_new s = Ok j → id_str j = s.
Proof.
  unfold Ident_new. generalize (eq_refl (ident_ok s)).
  enough (∀ b (E : ident_ok s = b),
    match b as b' return (ident_ok s = b' → outcome IdError Ident) with
    | true => λ H, Ok (Ident_mk s (istrue_of H))
    | false => λ _, Err (if String.eqb s "" then IdEmpty else TooLong ID_MAX_LEN (str_bytes s))
    end E = Ok j → id_str j = s) as H by (intros E; apply H).
  intros [] E; [|done]. by intros [= <-].
Qed.

(** ** Every action keeps jobs and callers *)

Section invariants.
Context {St : Type} `{StrategySpec St} (cfg : Config St).

Definition jobs_inv (s : Sys) : Prop :=
  inner_ok (inner s) ∧ ∀ w tx pj, (w, tx, pj) ∈ sending s → attempts pj < MAX_ATTEMPTS.

Lemma place_one_ok reg now i w tx pj i' :
  place_one cfg reg now i = Some (w, tx, pj, i') → inner_ok i → inner_ok i' ∧ attempts pj < MAX_ATTEMPTS.
Proof.
  intros Hp (Hpe & [Hid Hone] & Hidle). pose proof (place_one_spec cfg reg now i) as Hs. rewrite Hp in Hs.
  destruct Hs as (k & e & (Hk & _) & -> & (_ & Hfree & _) & _ & Ht & Hi').
  assert (attempts (job e) < MAX_ATTEMPTS) as Ha by (by apply Hpe; eapply list_elem_of_lookup_2).
  split; [|done]. split_and!.
  - intros e' He'. apply Hpe. apply fq_take_entries in Ht as (e0 & _ & ->). by right.
  - rewrite Hi'. split; cbn.
    + intros j l [[<- <-]|[_ Hl]]%lookup_insert_Some; [done|by apply Hid].
    + intros j l j' l' [[<- <-]|[Hn Hl]]%lookup_insert_Some [[<- <-]|[Hn' Hl']]%lookup_insert_Some Hw; try done.
      * by apply Hfree in Hl'.
      * by apply Hfree in Hl.
      * by eapply Hone.
  - rewrite Hi'. exact Hidle.
Qed.

Lemma admit_cases t pj i :
  (∃ limit, max_concurrent_per_tenant cfg = Some limit ∧ (limit ≤ tenant_inflight t i)%nat ∧
     admission cfg t pj i = (Some limit, i)) ∨
  (∀ limit, max_concurrent_per_tenant cfg = Some limit → (tenant_inflight t i < limit)%nat) ∧
    admission cfg t pj i = (None, set_pending (fq_push t pj) (inc_tenant t i)).
Proof.
  unfold admission. destruct (max_concurrent_per_tenant cfg) as [limit|]; [|by right].
  destruct (Nat.leb_spec limit (tenant_inflight t i)); [left; by exists limit|right; split; [|done]]. by intros ? [= <-].
Qed.

Lemma admit_ok t pj i : attempts pj = 0 → inner_ok i → inner_ok (admission cfg t pj i).2.
Proof.
  intros Ha (Hp & Hl & Hi). destruct (admit_cases t pj i) as [(limit & _ & _ & ->)|[_ ->]]; [done|].
  split_and!; [|exact Hl|exact Hi]. apply pending_ok_push; [by rewrite Ha|exact Hp].
Qed.

Lemma act_jobs_inv a s s' : act cfg a s = Some s' → callers_ok s → jobs_inv s → jobs_inv s'.
Proof.
  intros Ha Hc [Hi Hs]. destruct a; cbn [act] in Ha.
  - case_decide; [|done]. by injection Ha as <-.
  - destruct (callers s !! j) as [[t [pj| | | | |] r]|] eqn:Hj; try done. destruct (Hc _ _ Hj) as (_ & (_ & Hat & _) & _).
    pose proof (admit_ok t pj (inner s) Hat Hi). destruct (admission cfg t pj (inner s)) as [over i]. by injection Ha as <-.
  - destruct (callers s !! j) as [[t [| | | | |] r]|]; try done. by injection Ha as <-.
  - apply bind_Some in Ha as ([[[w tx] pj] i] & Hp & [= <-]). destruct (place_one_ok _ _ _ _ _ _ _ Hp Hi) as [Hi' Hat].
    split; [done|]. cbn. intros w' tx' pj' [?|[= -> -> ->]%list_elem_of_singleton]%elem_of_app; [by eapply Hs|done].
  - apply bind_Some in Ha as ([[w tx] pj] & Hk & Ha).
    assert (∀ w tx pj, (w, tx, pj) ∈ delete k (sending s) → attempts pj < MAX_ATTEMPTS) as Hs'
      by (intros ??? ?%elem_of_delete; by eapply Hs).
    destruct delivered; [by injection Ha as <-|]. pose proof (send_failed_ok w pj (inner s) Hi) as Hi'.
    cbn [inner on_sending] in Ha. destruct (send_failed w pj (inner s)) as [g i]. injection Ha as <-. by split.
  - injection Ha as <-. split; [|exact Hs]. destruct Hi as (Hp & Hl & Hid). split_and!; [done..|].
    intros w' c. cbn. unfold connect. intros [[<- <-]|[_ Hw]]%lookup_insert_Some; [done|by eapply Hid].
  - pose proof (disconnect_worker_ok w (inner s) Hi). destruct (disconnect_worker w _). by injection Ha as <-.
  - pose proof (reap_expired_ok now (inner s) Hi). destruct (reap_expired_at now _). by injection Ha as <-.
  - injection Ha as <-. split; [by apply renew_ok|exact Hs].
  - apply bind_Some in Ha as (j & _ & [= <-]). unfold settle. by case_bool_decide.
  - destruct (JobId_new (jr_job_id r)) as [j|e|]; [|by injection Ha as <-..].
    pose proof (report_ok cfg j r unix_ms (inner s) Hi). destruct (report cfg j r unix_ms _). by injection Ha as <-.
  - apply bind_Some in Ha as ([j r] & _ & [= <-]). unfold settle. by case_bool_decide.
  - destruct (callers s !! j) as [[t [| | | | |] []]|]; try done. by injection Ha as <-.
  - destruct (callers s !! j) as [[t [| | | | |] r]|]; try done. by injection Ha as <-.
  - destruct (callers s !! j) as [[t [| | | | |] r]|]; try done. injection Ha as <-. split; [by apply expire_ok|exact Hs].
  - destruct (callers s !! j) as [[t [| | | | |] []]|]; try done; by injection Ha as <-.
  - destruct (callers s !! j) as [[t [| | | | |] r]|]; try done. injection Ha as <-. split; [by apply dec_tenant_ok|exact Hs].
  - by injection Ha as <-.
  - by injection Ha as <-.
  - by injection Ha as <-.
Qed.

(** ** Jobs stay somewhere *)

Lemma requeue_keeps taken ls i0 i j requeued dropped i' :
  requeue_taken taken (set_leases (λ _, ls) i0) = (requeued, dropped, i') → pending i0 = pending i → leases_ok i →
  (∀ l, leases i !! j = Some l → (j, payload l) ∈ taken ∨ ls !! j = Some l) →
  queued j i ∨ held j i → queued j i' ∨ held j i' ∨ j ∈ dropped.
Proof.
  intros (_ & Hl & _ & Hq & _ & Hj & _)%requeue_taken_spec Hpe [Hid _] Hls [Hqj|[l Hlk]].
  - left. apply Hq. unfold queued in *. cbn. by rewrite Hpe.
  - destruct (Hls l Hlk) as [Hin|Hkept].
    + destruct (Hj j (payload l) Hin) as [?|?]; [by apply Hid|by left|by right; right].
    + right. left. unfold held. rewrite Hl. by exists l.
Qed.

Lemma disconnect_worker_keeps w i j :
  leases_ok i → queued j i ∨ held j i →
  queued j (disconnect_worker w i).2 ∨ held j (disconnect_worker w i).2 ∨ j ∈ (disconnect_worker w i).1.
Proof.
  intros Hok Hj. unfold disconnect_worker. destruct (take_worker_spec w (leases i)) as [Htk Hrest].
  cbn [set_connected leases]. destruct (take_worker w (leases i)) as [taken ls]. cbn [fst snd] in *.
  destruct (requeue_taken taken _) as [[rq gu] i'] eqn:Hr. eapply (requeue_keeps _ _ _ i); [exact Hr|done|done| |done].
  intros l Hl. destruct (decide (worker_id l = w)); [left; apply Htk; by exists l|right; by apply Hrest].
Qed.

Lemma reap_keeps now i j :
  leases_ok i → queued j i ∨ held j i →
  queued j (reap_expired_at now i).2 ∨ held j (reap_expired_at now i).2 ∨ j ∈ (reap_expired_at now i).1.
Proof.
  intros Hok Hj. unfold reap_expired_at. destruct (take_expired_spec now (leases i)) as [Htk Hrest].
  destruct (take_expired now (leases i)) as [taken ls]. cbn [fst snd] in *.
  destruct (requeue_taken taken _) as [[rq gu] i'] eqn:Hr. eapply (requeue_keeps _ _ _ i); [exact Hr|done|done| |done].
  intros l Hl. destruct (decide (deadline l ≤ now)); [left; apply Htk; by exists l|right; by apply Hrest].
Qed.

(** A change of the dispatch state that gives up [gu]. *)
Lemma located_inner (s : Sys) i gu j :
  (queued j (inner s) ∨ held j (inner s) → queued j i ∨ held j i ∨ j ∈ gu) →
  located j s → located j (on_failing (failing s ++ gu) (on_inner i s)).
Proof. unfold located. cbn. rewrite elem_of_app. tauto. Qed.

Lemma expire_keeps j j' i : j' ≠ j → queued j' i ∨ held j' i → queued j' (expire j i) ∨ held j' (expire j i).
Proof.
  intros Hne [(e & He & <-)|Hh]; [left|right].
  - exists e. split; [|done]. cbn. apply list_elem_of_filter. split; [|done]. by rewrite bool_decide_eq_false_2.
  - unfold held in *. cbn. by rewrite lookup_delete_ne.
Qed.

Lemma act_reports_ok a s s' : act cfg a s = Some s' → reports_ok s → reports_ok s'.
Proof.
  intros Ha Hr. assert (∀ s0 j r, reports_ok s0 → reports_ok (settle j r s0)) as Hset
    by (intros s0 j r Hs0; unfold settle; by case_bool_decide).
  destruct a; cbn [act] in Ha.
  11: { destruct (JobId_new (jr_job_id r)) as [j|e|] eqn:Hj; [|by injection Ha as <-..].
    destruct (report cfg j r unix_ms (inner s)) as [known i]. injection Ha as <-. intros j' r'. cbn. destruct known; [|rewrite app_nil_r; apply Hr].
    intros [?|[= -> ->]%list_elem_of_singleton]%elem_of_app; [by apply Hr|]. symmetry. by apply Ident_new_Ok. }
  11: { apply bind_Some in Ha as ([j r] & _ & [= <-]). apply Hset. intros ?? ?%elem_of_delete. by apply Hr. }
  10: { apply bind_Some in Ha as (j & _ & [= <-]). by apply Hset. }
  all: repeat (case_match || (apply bind_Some in Ha as (? & ? & Ha))); try done; by injection Ha as <-.
Qed.

Lemma admit_located t pj s :
  (∀ j, located j s → located j (on_inner (admission cfg t pj (inner s)).2 s)) ∧
  ((admission cfg t pj (inner s)).1 = None → located (pj_job_id pj) (on_inner (admission cfg t pj (inner s)).2 s)).
Proof.
  unfold located. cbn [inner on_inner failing reporting].
  destruct (admit_cases t pj (inner s)) as [(limit & _ & _ & ->)|[_ ->]]; cbn [fst snd]; split; [done|done| |].
  - intros j. rewrite queued_push. unfold queued, held. cbn. tauto.
  - intros _. left. apply queued_push. by right.
Qed.

Lemma report_located j r ms s j' :
  located j' s →
  located j' (on_reporting (reporting s ++ if (report cfg j r ms (inner s)).1 then [(j, r)] else [])
                (on_inner (report cfg j r ms (inner s)).2 s)).
Proof.
  destruct (report_inner cfg j r ms (inner s)) as (_ & Hq & Hl & _ & Hkn). unfold located, queued, held in *. cbn [inner on_reporting on_inner failing reporting].
  rewrite Hq, Hl, fmap_app, elem_of_app. destruct (decide (j' = j)) as [->|Hne]; [|rewrite lookup_delete_ne by done; tauto].
  intros [?|[Hh|[?|?]]]; [tauto| |tauto..]. rewrite (proj2 Hkn Hh). right. right. right. right. by left.
Qed.

Lemma wake_located k j r s j' :
  reporting s !! k = Some (j, r) → j' ≠ j → located j' s → located j' (on_reporting (delete k (reporting s)) s).
Proof.
  intros Hk Hne. unfold located. cbn. intros [?|[?|[?|Hin]]]; [tauto..|]. right. right. right.
  apply list_elem_of_fmap in Hin as ([j0 r0] & -> & Hin). apply list_elem_of_fmap. exists (j0, r0). split; [done|].
  eapply delete_elem_ne; [exact Hk| |done]. cbn in Hne. congruence.
Qed.

Lemma act_callers_ok a s s' :
  act cfg a s = Some s' → leases_ok (inner s) → reports_ok s → callers_ok s → callers_ok s'.
Proof.
  intros Ha Hlk Hrep Hok. destruct a; cbn [act] in Ha.
  - case_decide as Hf; [|done]. injection Ha as <-. intros j' c'. cbn. intros [[<- <-]|[Hne Hj]]%lookup_insert_Some.
    + split_and!; [set_solver|split; [|done]]. cbn. split_and!; [done|tauto|set_solver].
    + destruct (Hok _ _ Hj) as (? & Hph & ?). split; [set_solver|split; [|done]]. cbn. destruct (c_phase c'); try done.
      * destruct Hph as (? & ? & Hn). split_and!; [done..|]. set_solver.
      * intros Hn. destruct (Hph Hn). split; [set_solver|done].
  - destruct (callers s !! j) as [[t [pj| | | | |] r]|] eqn:Hj; try done. destruct (Hok _ _ Hj) as (_ & (<- & Hat & Hw) & _).
    destruct (admit_located t pj s) as [Hloc Hnew]. destruct (admission cfg t pj (inner s)) as [over i]. injection Ha as <-.
    apply (callers_ok_phase _ _ s); [done|done|cbn; set_solver|by intros j' _; apply Hloc| |done].
    destruct over; [done|]. split; [intros c Hc; rewrite Hj in Hc; by injection Hc as <-|by apply Hnew].
  - destruct (callers s !! j) as [[t [| | | | |] r]|]; try done. injection Ha as <-.
    apply (callers_ok_delete _ s); [done..| |done]. by intros.
  - apply bind_Some in Ha as ([[[w tx] pj] i] & Hp & [= <-]). apply (callers_ok_frame s); [done..| |done].
    intros j. pose proof (place_one_keeps cfg _ _ _ _ _ _ _ j Hp). unfold located. cbn. tauto.
  - apply bind_Some in Ha as ([[w tx] pj] & Hk & Ha). destruct delivered; [injection Ha as <-; by apply (callers_ok_frame s)|].
    cbn [inner on_sending] in Ha. pose proof (send_failed_keeps w pj (inner s)) as Hkp.
    destruct (send_failed w pj (inner s)) as [g i]. injection Ha as <-. apply (callers_ok_frame s); [done..| |done].
    intros j. specialize (Hkp j). cbn in Hkp. unfold located. cbn. rewrite elem_of_app. destruct g; [rewrite list_elem_of_singleton; tauto|].
    intros [?|[?|?]]; [destruct Hkp as [?|[?|[_ [=]]]]; tauto..|tauto].
  - injection Ha as <-. apply (callers_ok_frame s); [done..| |done]. done.
  - pose proof (λ j, disconnect_worker_keeps w (inner s) j Hlk) as Hkp. destruct (disconnect_worker w _) as [gu i]. injection Ha as <-.
    apply (callers_ok_frame s); [done..| |done]. intros j. apply located_inner, Hkp.
  - pose proof (λ j, reap_keeps now (inner s) j Hlk) as Hkp. destruct (reap_expired_at now _) as [gu i]. injection Ha as <-.
    apply (callers_ok_frame s); [done..| |done]. intros j. apply located_inner, Hkp.
  - injection Ha as <-. apply (callers_ok_frame s); [done..| |done]. intros j. unfold located, held.
    pose proof (renew_worker_dom w (now + lease_duration cfg) (leases (inner s)) j) as Hd. cbn in Hd |- *. by rewrite Hd.
  - apply bind_Some in Ha as (j & Hk & [= <-]). apply (callers_ok_settle _ _ s); try done.
    intros j' Hne. unfold located. cbn. intros [?|[?|[?|?]]]; [tauto..| |tauto]. right. right. left. by eapply delete_elem_ne.
  - destruct (JobId_new (jr_job_id r)) as [j|e|] eqn:Hj; [|by injection Ha as <-..].
    pose proof (report_located j r unix_ms s) as Hloc. destruct (report cfg j r unix_ms (inner s)) as [known i]. injection Ha as <-.
    by apply (callers_ok_frame s).
  - apply bind_Some in Ha as ([j r] & Hk & [= <-]). apply (callers_ok_settle _ _ s); try done.
    + intros res [= ->]. apply Hrep. by eapply list_elem_of_lookup_2.
    + intros j' Hne. by eapply wake_located.
  - destruct (callers s !! j) as [[t [| | | | |] []]|]; try done. injection Ha as <-. apply (callers_ok_phase _ _ s); try done. set_solver.
  - destruct (callers s !! j) as [[t [| | | | |] r]|]; try done. injection Ha as <-. by apply (callers_ok_phase _ _ s).
  - destruct (callers s !! j) as [[t [| | | | |] r]|]; try done. injection Ha as <-. apply (callers_ok_phase _ _ s); try done; [set_solver|].
    intros j' Hne. pose proof (expire_keeps j j' (inner s) Hne). unfold located. cbn [inner on_inner failing reporting]. tauto.
  - destruct (callers s !! j) as [[t [| | | | |] []]|]; try done; injection Ha as <-; (apply (callers_ok_phase _ _ s); try done; set_solver).
  - destruct (callers s !! j) as [[t [| | | | |] r]|]; try done. injection Ha as <-. apply (callers_ok_delete _ s); try done; [cbn; set_solver|].
    intros j' _. destruct (dec_tenant_inner t (inner s)) as (_ & Hq & Hl). unfold located, queued, held. cbn. by rewrite Hq, Hl.
  - injection Ha as <-. by apply (callers_ok_frame s).
  - injection Ha as <-. by apply (callers_ok_frame s).
  - injection Ha as <-. by apply (callers_ok_frame s).
Qed.

(** ** Quotas *)

(** An admitted call occupies a slot of its tenant until it concludes. *)
Definition occupies (t : TenantId) (c : Caller) : bool :=
  bool_decide (c_tenant c = t) && match c_phase c with Registered _ | Refused _ => false | _ => true end.

Definition admitted (t : TenantId) (cs : gmap JobId Caller) : nat :=
  size (filter (λ jc : JobId * Caller, occupies t jc.2 = true) cs).

Definition slot_of (t : TenantId) (c : option Caller) : nat := match c with Some c => if occupies t c then 1 else 0 | None => 0 end.

Definition quota_ok (s : Sys) : Prop := ∀ t,
  tenant_inflight t (inner s) = admitted t (callers s) ∧
  ∀ limit, max_concurrent_per_tenant cfg = Some limit → (admitted t (callers s) ≤ limit)%nat.

Lemma admitted_delete t j cs : (admitted t (delete j cs) + slot_of t (cs !! j) = admitted t cs)%nat.
Proof.
  unfold admitted, slot_of. rewrite map_filter_delete, map_size_delete. destruct (cs !! j) as [c|] eqn:Hj.
  - destruct (occupies t c) eqn:Ho.
    + assert (filter (λ jc : JobId * Caller, occupies t jc.2 = true) cs !! j = Some c) as Hf by (by apply map_lookup_filter_Some).
      rewrite Hf. assert (size (filter (λ jc : JobId * Caller, occupies t jc.2 = true) cs) ≠ 0)%nat; [|cbn; lia].
      apply map_size_non_empty_iff. intros He. by rewrite He in Hf.
    + rewrite (map_lookup_filter_None_2 _ cs j); [cbn; lia|]. right. intros c' Hc'. rewrite Hj in Hc'. injection Hc' as <-. cbn. by rewrite Ho.
  - rewrite (map_lookup_filter_None_2 _ cs j) by (by left). cbn. lia.
Qed.

Lemma admitted_insert t j c cs :
  (admitted t (<[j := c]> cs) + slot_of t (cs !! j) = admitted t cs + slot_of t (Some c))%nat.
Proof.
  rewrite <-(admitted_delete t j cs). pose proof (admitted_delete t j (<[j := c]> cs)) as Hd.
  rewrite lookup_insert_eq, delete_insert_eq in Hd. lia.
Qed.

Lemma admitted_alter t j f cs c :
  cs !! j = Some c → (admitted t (alter f j cs) + slot_of t (Some c) = admitted t cs + slot_of t (Some (f c)))%nat.
Proof.
  intros Hj. pose proof (admitted_insert t j (f c) cs) as Hi. rewrite Hj in Hi.
  assert (alter f j cs = <[j := f c]> cs) as ->; [|done]. apply map_eq. intros j'.
  destruct (decide (j = j')) as [<-|Hne]; [by rewrite lookup_alter_eq, lookup_insert_eq, Hj|by rewrite lookup_alter_ne, lookup_insert_ne].
Qed.

(** Nothing but admission and conclusion changes the counts. *)
Lemma quota_ok_frame s s' :
  tenants (inner s') = tenants (inner s) → (∀ t, admitted t (callers s') = admitted t (callers s)) →
  quota_ok s → quota_ok s'.
Proof. intros Ht Ha Hq t. unfold tenant_inflight. rewrite Ht, Ha. apply Hq. Qed.

Lemma quota_ok_alter j f s s' :
  tenants (inner s') = tenants (inner s) → callers s' = alter f j (callers s) →
  (∀ c t, callers s !! j = Some c → occupies t (f c) = occupies t c) → quota_ok s → quota_ok s'.
Proof.
  intros Ht Hc Hf. apply quota_ok_frame; [done|]. intros t. rewrite Hc. destruct (callers s !! j) as [c|] eqn:Hj.
  - pose proof (admitted_alter t j f (callers s) c Hj) as Ha. unfold slot_of in Ha. rewrite (Hf c t eq_refl) in Ha. lia.
  - f_equal. apply map_eq. intros j'. destruct (decide (j = j')) as [<-|Hne]; [by rewrite lookup_alter_eq, Hj|by rewrite lookup_alter_ne].
Qed.

Lemma tenants_requeue jobs i requeued dropped i' : requeue_taken jobs i = (requeued, dropped, i') → tenants i' = tenants i.
Proof. by intros (_ & _ & Ht & _)%requeue_taken_spec. Qed.

Lemma inner_tenants i :
  (∀ w, tenants (disconnect_worker w i).2 = tenants i) ∧ (∀ now, tenants (reap_expired_at now i).2 = tenants i) ∧
  ∀ w pj, tenants (send_failed w pj i).2 = tenants i.
Proof.
  split_and!.
  - intros w. unfold disconnect_worker. destruct (take_worker w _) as [held ls].
    destruct (requeue_taken held _) as [[rq gu] i'] eqn:Hr. cbn [snd]. by rewrite (tenants_requeue _ _ _ _ _ Hr).
  - intros now. unfold reap_expired_at. destruct (take_expired now _) as [held ls].
    destruct (requeue_taken held _) as [[rq gu] i'] eqn:Hr. cbn [snd]. by rewrite (tenants_requeue _ _ _ _ _ Hr).
  - intros w pj. unfold send_failed. cbn [snd]. by destruct (_ <=? _).
Qed.

Lemma quota_ok_settle j r s : quota_ok s → quota_ok (settle j r s).
Proof. intros Hq. unfold settle. case_bool_decide; [|done]. by apply (quota_ok_alter j (with_reply r) s). Qed.

Lemma dec_tenant_inflight t t' i :
  tenant_inflight t' (dec_tenant t i) = if decide (t' = t) then (tenant_inflight t i - 1)%nat else tenant_inflight t' i.
Proof.
  unfold dec_tenant, tenant_inflight. destruct (tenants i !! t) as [n|] eqn:Hn.
  - destruct (Nat.eqb_spec (n - 1) 0) as [Hz|Hz]; cbn; case_decide; subst;
      rewrite ?lookup_delete_eq, ?lookup_insert_eq, ?Hn; cbn; try lia; by rewrite ?lookup_delete_ne, ?lookup_insert_ne.
  - case_decide; subst; by rewrite ?Hn.
Qed.

Lemma act_quota_ok a s s' : act cfg a s = Some s' → callers_ok s → quota_ok s → quota_ok s'.
Proof.
  intros Ha Hok Hq. destruct (inner_tenants (inner s)) as (Htd & Htr & Hts). destruct a; cbn [act] in Ha.
  - case_decide as Hf; [|done]. injection Ha as <-. apply (quota_ok_frame s); [done| |done]. intros t. cbn.
    pose proof (admitted_insert t (pj_job_id pj) (mkCaller (pj_tenant pj) (Registered pj) NoReply) (callers s)) as Hc.
    unfold slot_of, occupies in Hc. cbn in Hc. rewrite andb_false_r in Hc.
    destruct (callers s !! pj_job_id pj) as [c|] eqn:Hj; [|lia]. destruct (Hok _ _ Hj). tauto.
  - destruct (callers s !! j) as [[t [pj| | | | |] r]|] eqn:Hj; try done.
    destruct (admit_cases t pj (inner s)) as [(limit & _ & _ & Had)|[Hlim Had]]; rewrite Had in Ha; injection Ha as <-.
    + apply (quota_ok_alter j (with_phase (Refused limit)) s); [done..| |done]. intros c t'. rewrite Hj. by intros [= <-].
    + intros t'. cbn. destruct (Hq t') as [Hc Hl]. pose proof (admitted_alter t' j (with_phase Waiting) (callers s) _ Hj) as Hal.
      unfold slot_of, occupies in Hal. cbn in Hal. rewrite andb_false_r, andb_true_r in Hal. unfold tenant_inflight at 1. cbn.
      case_bool_decide as Ht; [subst t'; rewrite lookup_insert_eq|rewrite lookup_insert_ne by done].
      * cbn. unfold tenant_inflight in *. split; [lia|]. intros limit' Hl'. specialize (Hlim _ Hl'). lia.
      * split; [fold (tenant_inflight t' (inner s)); lia|]. intros limit' Hl'. specialize (Hl _ Hl'). lia.
  - destruct (callers s !! j) as [[t [| | | | |] r]|] eqn:Hj; try done. injection Ha as <-. apply (quota_ok_frame s); [done| |done].
    intros t'. cbn. pose proof (admitted_delete t' j (callers s)) as Hd. rewrite Hj in Hd. unfold slot_of, occupies in Hd. cbn in Hd.
    rewrite andb_false_r in Hd. lia.
  - apply bind_Some in Ha as ([[[w tx] pj] i] & Hp & [= <-]). apply (quota_ok_frame s); [|done..]. cbn.
    pose proof (place_one_spec cfg (registry s) now (inner s)) as Hs. rewrite Hp in Hs. by destruct Hs as (? & ? & _ & _ & _ & _ & _ & ->).
  - apply bind_Some in Ha as ([[w tx] pj] & Hk & Ha). destruct delivered; [by injection Ha as <-|]. cbn [inner on_sending] in Ha.
    specialize (Hts w pj). destruct (send_failed w pj (inner s)) as [g i]. injection Ha as <-. by apply (quota_ok_frame s).
  - by injection Ha as <-.
  - specialize (Htd w). destruct (disconnect_worker w _) as [gu i]. injection Ha as <-. by apply (quota_ok_frame s).
  - specialize (Htr now). destruct (reap_expired_at now _) as [gu i]. injection Ha as <-. by apply (quota_ok_frame s).
  - by injection Ha as <-.
  - apply bind_Some in Ha as (j & Hk & [= <-]). by apply quota_ok_settle.
  - destruct (JobId_new (jr_job_id r)) as [j|e|] eqn:Hj; [|by injection Ha as <-..].
    destruct (report_inner cfg j r unix_ms (inner s)) as (_ & _ & _ & Ht & _).
    destruct (report cfg j r unix_ms (inner s)) as [known i]. injection Ha as <-. by apply (quota_ok_frame s).
  - apply bind_Some in Ha as ([j r] & Hk & [= <-]). by apply quota_ok_settle.
  - destruct (callers s !! j) as [[t [| | | | |] []]|] eqn:Hj; try done. injection Ha as <-.
    apply (quota_ok_alter j (with_phase TimedOut) s); [done..| |done]. intros c t'. rewrite Hj. by intros [= <-].
  - destruct (callers s !! j) as [[t [| | | | |] r]|] eqn:Hj; try done. injection Ha as <-.
    apply (quota_ok_alter j (with_phase Expired) s); [done..| |done]. intros c t'. rewrite Hj. by intros [= <-].
  - destruct (callers s !! j) as [[t [| | | | |] r]|] eqn:Hj; try done. injection Ha as <-.
    apply (quota_ok_alter j (with_phase Concluding) s); [done..| |done]. intros c t'. rewrite Hj. by intros [= <-].
  - destruct (callers s !! j) as [[t [| | | | |] []]|] eqn:Hj; try done; injection Ha as <-;
      (apply (quota_ok_alter j (with_phase Concluding) s); [done..| |done]; intros c t'; rewrite Hj; by intros [= <-]).
  - destruct (callers s !! j) as [[t [| | | | |] r]|] eqn:Hj; try done. injection Ha as <-. intros t'. cbn.
    rewrite dec_tenant_inflight. destruct (Hq t') as [Hc Hl]. pose proof (admitted_delete t' j (callers s)) as Hd.
    rewrite Hj in Hd. unfold slot_of, occupies in Hd. cbn in Hd. rewrite andb_true_r in Hd.
    split; [|intros limit Hlim; specialize (Hl limit Hlim); case_bool_decide; lia].
    destruct (decide (t' = t)) as [->|Hne]; [rewrite bool_decide_eq_true_2 in Hd by done|rewrite bool_decide_eq_false_2 in Hd by done]; lia.
  - by injection Ha as <-.
  - by injection Ha as <-.
  - by injection Ha as <-.
Qed.

(** ** The invariant of every run *)

Definition sys_inv (s : Sys) : Prop := jobs_inv s ∧ reports_ok s ∧ callers_ok s ∧ quota_ok s.

Lemma sys_inv_new reg : sys_inv (Sys_new reg).
Proof.
  split_and!.
  - split; [|by intros ??? ?%not_elem_of_nil]. split_and!; [by intros ? ?%not_elem_of_nil|split; intros ??; cbn|intros ??; cbn]; by rewrite ?lookup_empty.
  - by intros ?? ?%not_elem_of_nil.
  - intros j c. cbn. by rewrite lookup_empty.
  - intros t. unfold tenant_inflight, admitted. cbn. rewrite lookup_empty, map_filter_empty, map_size_empty. split; [done|lia].
Qed.

Lemma run_inv reg s : reachable cfg reg s → sys_inv s.
Proof.
  induction 1 as [|a s s' _ (Hj & Hr & Hc & Hq) Ha]; [apply sys_inv_new|]. split_and!.
  - by eapply act_jobs_inv.
  - by eapply act_reports_ok.
  - eapply act_callers_ok; [done| |done..]. by destruct Hj as [(_ & ? & _) _].
  - by eapply act_quota_ok.
Qed.

End invariants.
