(* ===== verification/Execute.v ===== *)
(** * brokkr-control: executing an action

    Models [Scheduler::execute] of [crates/brokkr-control/src/scheduler.rs]
    around its dispatch: looking the action up in the cache and building the job
    ([prepare], up to the waiter), and turning what the waiter got into the
    answer ([conclude], with the write to the action cache).  [anyhow] errors are
    the chain of their messages, outermost first. *)

From stdpp Require Import prelude gmap strings.
From Stdlib Require Import Lia.
From S2P Require Import Prelude Machine Bytes Common Redb Cas ActionCache FairQueue Lease Registry Scheduling Scheduler.

Local Open Scope N_scope.

Inductive ExecutionError : Type :=
| Timeout (d : Duration)
| NoEligibleWorker
| QuotaExceeded (limit : nat)
| Other (chain : list string).

Record ExecutionOutcome : Type := mkExecutionOutcome {
  result : ActionResult;
  cache_hit : bool;
  result_cached : bool
}.

(** [prost]'s decoder for the two messages fetched. *)
Class ExecCodec : Type := {
  dec_Action : bytes → string + Action;
  dec_Command : bytes → string + Command
}.

(** [Display] of the errors of identifiers, digests and stores. *)
Class IdText : Type := id_error_text : IdError → string.

(** What [timeout(rx)] came to. *)
Inductive Woken : Type :=
| WReport (r : JobResult)
| WDropped
| WTimeout.

Section execute.
Context {A C : Type} `{ActionCache A, Cas C, ErrText, IdText, ExecCodec}.
Context {St : Type} (cfg : Config St).

Definition on_cache {X} (m : eff A ExecutionError X) : eff (A * C) ExecutionError X := zoom fst (λ a s, (a, s.2)) m.
Definition on_cas {X} (m : eff C ExecutionError X) : eff (A * C) ExecutionError X := zoom snd (λ c s, (s.1, c)) m.

(** A node that cannot answer because it does not lead counts as a miss. *)
Definition lookup_cache (skip_cache_lookup : bool) (d : Digest) : eff A ExecutionError (option ActionResult) := λ a,
  if skip_cache_lookup then (a, Ok None)
  else
    match get_action_result d a with
    | (a, Ok found) => (a, Ok found)
    | (a, Err (CasNotLeader _ _)) => (a, Ok None)
    | (a, Err e) => (a, Err (Other ["action cache get: " +:+ cas_error_text e]))
    | (a, Halt) => (a, Halt)
    end.

(** [with_context]. *)
Definition with_context {X} (msg : string) (m : eff C ExecutionError X) : eff C ExecutionError X :=
  map_err (λ e, match e with Other chain => Other (msg :: chain) | e => e end) m.

Definition fetch_message {M} (dec : bytes → string + M) (d : Digest) : eff C ExecutionError M :=
  reads ← map_err (λ e, Other ["CAS read: " +:+ cas_error_text e]) (batch_read_blobs [d]);
  match reads with
  | [] => halt
  | Ok b :: _ =>
      match dec b with
      | inr m => mret m
      | inl e => throw (Other ["decoding " +:+ Digest_display d +:+ " from CAS"; e])
      end
  | Err e :: _ => throw (Other ["blob " +:+ Digest_display d +:+ " not in CAS: " +:+ cas_error_text e])
  | Halt :: _ => halt
  end.

(** [Action.platform], or the deprecated [Command.platform]. *)
Definition platform_of (action : Action) (command : Command) : Platform :=
  match ac_platform action with Some p => p | None => default [] (cm_platform command) end.

Definition input_root_of (action : Action) : option Digest :=
  d ← ac_input_root_digest action;
  match Digest_new (pd_hash d) (pd_size_bytes d) with Ok digest => Some digest | _ => None end.

Definition effective_timeout (action : Action) : Duration :=
  match ac_timeout action with
  | Some d => if (0 <? pb_seconds d)%Z then Z.to_N (pb_seconds d) * 1000000000 else default_execution_timeout cfg
  | None => default_execution_timeout cfg
  end.

(** The checks and the job of a cache miss: [now] is the time the registry is
    consulted, [uuid] the fresh job id. *)
Definition build_job (reg : option WorkerRegistry) (now : Instant) (uuid : string) (d : Digest) (t : TenantId)
    : eff C ExecutionError (PendingJob * Duration) :=
  action ← with_context "fetching Action from CAS" (fetch_message dec_Action d);
  match ac_command_digest action with
  | None => throw (Other ["Action.command_digest missing"])
  | Some pd =>
      match Digest_new (pd_hash pd) (pd_size_bytes pd) with
      | Err e => throw (Other ["invalid command digest: " +:+ digest_error_text e])
      | Halt => halt
      | Ok cd =>
          command ← with_context "fetching Command from CAS" (fetch_message dec_Command cd);
          let platform := platform_of action command in
          let no_match := match reg with Some r => bool_decide (eligible_workers r now platform = ∅) | None => false end in
          if no_match then throw NoEligibleWorker
          else
            match JobId_new uuid with
            | Err e => throw (Other ["invalid job id: " +:+ id_error_text e])
            | Halt => halt
            | Ok job_id =>
                let timeout := effective_timeout action in
                let job := mkJob uuid (Some (mkpbDigest (hash d) (size_bytes d))) (Some action) (Some command) in
                mret (mkPendingJob job_id t job platform (N.min timeout (lease_duration cfg)) 0 d (input_root_of action), timeout)
            end
      end
  end.

(** [execute] up to the registration of the waiter: a cached answer, or the job
    to queue and how long to wait for it. *)
Definition prepare (reg : option WorkerRegistry) (now : Instant) (uuid : string) (d : Digest) (skip_cache_lookup : bool)
    (t : TenantId) : eff (A * C) ExecutionError (ExecutionOutcome + PendingJob * Duration) :=
  looked_up ← on_cache (lookup_cache skip_cache_lookup d);
  match looked_up with
  | Some cached => mret (inl (mkExecutionOutcome cached true true))
  | None => job ← on_cas (build_job reg now uuid d t); mret (inr job)
  end.

(** The answer, from what the waiter got; the second part of the state is
    [uncached_results_not_leader]. *)
Definition conclude (d : Digest) (timeout : Duration) (w : Woken) : eff (A * u64) ExecutionError ExecutionOutcome := λ s,
  match w with
  | WDropped => (s, Err (Other ["job failed before producing a result"]))
  | WTimeout => (s, Err (Timeout timeout))
  | WReport r =>
      if negb (String.eqb (jr_error_message r) "") then (s, Err (Other ["worker error: " +:+ jr_error_message r]))
      else
        match jr_result r with
        | None => (s, Err (Other ["worker reported no ActionResult"]))
        | Some res =>
            if (exit_code res =? 0)%Z then
              match update_action_result d res s.1 with
              | (a, Ok _) => ((a, s.2), Ok (mkExecutionOutcome res false true))
              | (a, Err (CasNotLeader _ _)) => ((a, u64_wrap (s.2 + 1)), Ok (mkExecutionOutcome res false false))
              | (a, Err e) => ((a, s.2), Err (Other ["action cache update: " +:+ cas_error_text e]))
              | (a, Halt) => ((a, s.2), Halt)
              end
            else (s, Ok (mkExecutionOutcome res false true))
        end
  end.

(** ** [services/execution.rs]: the status code of a failure *)

Definition exec_status (e : ExecutionError) : N :=
  match e with
  | Timeout _ => 4
  | NoEligibleWorker => 9
  | QuotaExceeded _ => 8
  | Other _ => 13
  end.

End execute.
