(* ===== verification/KvTheorems.v ===== *)
(** * brokkr-control: the replicated metadata store, theorems

    What the key-value store on the Raft log holds, and that the action cache on
    it keeps no barrier against the collector. *)

From stdpp Require Import prelude gmap strings.
From Stdlib Require Import Lia Strings.Byte.
From S2P Require Import Prelude Machine Bytes Common Redb Cas CasBackends ActionCache Gc GcBarrier CasDemo MetaKv.
From S2P Require Import RaftTypes RaftWire RaftStore RaftStorage RaftConfig RaftNode RaftNodeSpec RaftReceiver RaftHandlers.
From S2P Require Import RaftDriver RaftDriverSpec RaftDemo RaftKv.

Local Open Scope N_scope.

(** C36.  The replicated store is its committed log: however a node's driver is
    started and whatever run of events it then handles, the value its map holds
    for any key is that of the last committed write to the key, a deletion
    leaving none; entries below the snapshot count through what the snapshot
    restores. *)
Theorem kv_store_is_committed_log {L} `{RaftStoreSpec L} `{!Bootstrap} `{KvCodecSpec}
    (n : RaftNode L) (d : RaftDriver L KvMachine) (evs : list (Event * Instant)) (key : bytes) :
  node_inv n → commit_ok n →
  returned (driver_start (RaftDriver_new n ∅)) = Some () → turns (driver_start (RaftDriver_new n ∅)).1 evs d →
  d_machine d !! key = committed_value (view (d_node d)) (n_commit_index (d_node d)) key.
Proof.
  intros Hn Hc Hs Ht. assert (sm_good (∅ : KvMachine)) as Hg by (intros k v; by rewrite lookup_empty).
  pose proof (wp_returned _ _ _ _ () (driver_start_spec ∅ Hg n Hn Hc) Hs) as [Hd0 _].
  destruct (turns_inv ∅ Hg _ _ _ Ht Hd0) as [_ _ Ha Hm _]. by rewrite Hm, replay_lookup, Ha.
Qed.

(** ** A follower that is sent two writes *)

Definition demo_kv_dec (b : bytes) : string + KvCommand :=
  if (length b <? 4)%nat then inl "short"
  else
    match take_chunk (drop 4 b) with
    | None => inl "key"
    | Some (k, rest) =>
        match take_chunk rest with
        | None => inl "value"
        | Some (v, _) => inr (mkKvCommand (from_le (take 4 b)) k v)
        end
    end.

#[export] Instance demo_kv_codec : KvCodec := {|
  enc_command c := le_bytes 4 (op c) ++ chunk (cmd_key c) ++ chunk (cmd_value c);
  dec_command := demo_kv_dec;
  enc_record r := as_bytes (advertise_addr r);
  dec_record b := inr (mkNodeRecord (String.string_of_list_byte b));
  raft_error_text _ := "raft"
|}.

Lemma take_chunk_key b k r : take_chunk b = Some (k, r) → (length k + length r + 4 ≤ length b)%nat.
Proof.
  unfold take_chunk. destruct (Nat.ltb_spec (length b) 4); [done|]. cbv zeta.
  destruct (Nat.ltb_spec (length (drop 4 b)) (N.to_nat (from_le (take 4 b)))) as [|Hl]; [done|].
  intros [= <- <-]. rewrite length_take, !length_drop in *. lia.
Qed.

#[export] Instance demo_kv_codec_spec : KvCodecSpec.
Proof.
  split.
  - intros [o k v] Ho Hk Hv. cbn [op cmd_key cmd_value] in Ho, Hk, Hv.
    change (demo_kv_dec (le_bytes 4 o ++ chunk k ++ chunk v) = inr (mkKvCommand o k v)). unfold demo_kv_dec.
    pose proof (le_bytes_length 4 o) as Hl. destruct (Nat.ltb_spec (length (le_bytes 4 o ++ chunk k ++ chunk v)) 4) as [Hlt|_];
      [rewrite length_app in Hlt; lia|].
    rewrite take_app_length', drop_app_length' by lia. rewrite take_chunk_chunk by done.
    rewrite <-(app_nil_r (chunk v)), take_chunk_chunk by done. rewrite from_le_bytes, N.mod_small by (simpl; lia). done.
  - intros b c. cbn. unfold demo_kv_dec. destruct (length b <? 4)%nat; [done|].
    destruct (take_chunk (drop 4 b)) as [[k r]|] eqn:Hk; [|done]. destruct (take_chunk r) as [[v r']|] eqn:Hv; [|done].
    intros [= <-]. cbn. apply take_chunk_key in Hk, Hv. rewrite length_drop in Hk. lia.
  - intros [a]. change (@inr string _ (mkNodeRecord (String.string_of_list_byte (String.list_byte_of_string a))) = inr (mkNodeRecord a)).
    by rewrite String.string_of_list_byte_of_string.
Qed.

Definition demo_put (key value : bytes) : bytes := enc_command (mkKvCommand KV_OP_PUT key value).

(** Two entries, both committed. *)
Definition kv_events : list (Event * Instant) :=
  [(EvInbound (InAppendEntries (mkAppendEntries u64_1 node_c LogIndex_ZERO Term_ZERO
      [LogEntry_new u64_1 u64_1 (demo_put [x01] [x02]); LogEntry_new u64_1 (u64_sat 2) (demo_put [x01] [x03])]
      (u64_sat 2) u64_1) 0), from_millis 10)].

Definition kv_start : RaftDriver RaftLog KvMachine := (driver_start (RaftDriver_new demo_follower ∅)).1.
Definition kv_after : RaftDriver RaftLog KvMachine := foldl (λ d p, (driver_event p.1 p.2 d).1) kv_start kv_events.

Lemma kv_turns : turns kv_start kv_events kv_after.
Proof.
  unfold kv_after, kv_events. cbn [foldl fst snd]. apply turns_cons; [|vm_compute; reflexivity|apply turns_nil].
  split_and!.
  - split_and!; [by split|by repeat constructor|]. repeat (apply Forall_cons; split; [simpl; lia|]). constructor.
  - apply N.leb_le. reflexivity.
  - intros e He Hle. exfalso. revert Hle. apply N.lt_nge, N.ltb_lt.
    apply elem_of_cons in He as [->| ->%list_elem_of_singleton]; vm_compute; reflexivity.
Qed.

Lemma kv_store_is_committed_log_witness :
  d_machine kv_after !! [x01] = Some [x03] ∧
  d_machine kv_after !! [x01] = committed_value (view (d_node kv_after)) (n_commit_index (d_node kv_after)) [x01].
Proof.
  split; [vm_compute; reflexivity|].
  refine (kv_store_is_committed_log demo_follower kv_after kv_events [x01] (proj1 demo_follower_inv) (proj2 demo_follower_inv) _ kv_turns).
  vm_compute. reflexivity.
Defined.

(** ** The barrier the adapter does not keep *)

Definition kv_stores : Stores InMemoryCas (MetaKvActionCache RedbMetaKv) :=
  mkStores InMemoryCas_new (MetaKvActionCache_new (RedbMetaKv_open ∅ [])).

Definition barrier_race : list Actor :=
  [Worker 0; Worker 0; Collector; Collector; Collector; Worker 0; Collector; Collector; Worker 0]%nat.

Definition kv_raced : Sys InMemoryCas (MetaKvActionCache RedbMetaKv) :=
  run_schedule barrier_race (mkSys kv_stores None (handlers <$> {[ 0%nat := demo_job ]}) GcIdle).

(** The action cache a control plane runs on its metadata store keeps no barrier, so
    a sweep may be under way when a result is written: the blob it refers to is in
    the store at the write, and deleted after it. *)
Theorem metakv_barrier_race :
  @gc_window_locks (MetaKvActionCache RedbMetaKv) _ = false ∧ stores_ok kv_stores ∧ no_dangling kv_stores ∧
  job_ok (A:=MetaKvActionCache RedbMetaKv) demo_job ∧
  sys_workers kv_raced !! 0%nat = Some [] ∧ sys_gc kv_raced = GcIdle ∧
  referenced (st_ac (sys_stores kv_raced)) digest_a ∧
  digest_a ∉ cas_listed (st_cas (sys_stores kv_raced)).
Proof.
  assert (∀ h, ac_view (st_ac kv_stores) h = None) as Hempty by (intros h; cbn; unfold ma_view; cbn; by rewrite lookup_empty).
  split; [done|]. split; [split; [intros d b; cbn; by rewrite lookup_empty|intros k b; cbn; by rewrite lookup_empty]|].
  split; [intros d (h & r & Hr & _); by rewrite Hempty in Hr|]. split.
  { split; [split; [|split]; by vm_compute|]. split; [by vm_compute|]. apply Forall_singleton; by vm_compute. }
  split; [by vm_compute|]. split; [by vm_compute|]. split; [|by_vm].
  exists (hash digest_b), demo_result. split; [by vm_compute|]. vm_compute. by left.
Qed.
