(* ===== verification/SchedulerTheorems.v ===== *)
(** * brokkr-control: the scheduler, theorems

    Fair queueing, dispatch, what every interleaving of callers, workers and
    background tasks preserves, the races it leaves, and how an execution ends. *)

From stdpp Require Import prelude gmap strings.
From Stdlib Require Import Lia.
From S2P Require Import Prelude Machine Bytes Common Redb Cas CasBackends ActionCache CasDemo FairQueue Lease Registry Scheduling.
From S2P Require Import Scheduler SchedulerSpec SchedulerRun Execute.

Local Open Scope N_scope.

(** C31.  Fair queueing: on any queue reached by pushes and by serving least start
    tags, over any further run during which two tenants both have jobs queued, the
    service they get, a job counted as [COST] over its tenant's weight, differs by
    at most one job of each, as long as start tags have not saturated, which takes
    more than 18 trillion jobs. *)
Theorem fair_queue_fair {J} (tenant_of : J → TenantId) t u n k q served q' :
  fq_reach tenant_of n q → backlogged tenant_of t u k q served q' → N.of_nat (n + k) * COST ≤ u64_max →
  jobs_of tenant_of t served * (COST / weight_of q t) ≤
    jobs_of tenant_of u served * (COST / weight_of q u) + COST / weight_of q t + COST / weight_of q u ∧
  jobs_of tenant_of u served * (COST / weight_of q u) ≤
    jobs_of tenant_of t served * (COST / weight_of q t) + COST / weight_of q t + COST / weight_of q u.
Proof.
  intros Hr Hb Hk. destruct (fq_reach_inv tenant_of n q Hr) as [Hi Hh]; [lia|].
  pose proof (backlogged_fair tenant_of (N.of_nat n * COST) t u k q served q' Hb Hi Hh) as H1.
  pose proof (backlogged_fair tenant_of (N.of_nat n * COST) u t k q served q' (backlogged_sym _ _ _ _ _ _ _ Hb) Hi Hh) as H2.
  unfold increment in *. split; [specialize (H1 ltac:(lia))|specialize (H2 ltac:(lia))]; lia.
Qed.

Definition tenant_a : TenantId := Ident_mk "a" I.
Definition tenant_b : TenantId := Ident_mk "b" I.

(** Tenant [a] has twice the weight; a job is its tenant's name. *)
Definition weighted : FairQueue TenantId := set_weight tenant_a 2 FairQueue_new.
Definition loaded : FairQueue TenantId :=
  foldl (λ q t, fq_push t t q) weighted [tenant_a; tenant_a; tenant_a; tenant_b; tenant_b].

Definition popped (q : FairQueue TenantId) : FairQueue TenantId := match fq_pop q with Some (_, q') => q' | None => q end.

Lemma loaded_reach : fq_reach id 5 loaded.
Proof.
  unfold loaded. cbn [foldl].
  apply (fq_reach_push id 4 _ tenant_b), (fq_reach_push id 3 _ tenant_b), (fq_reach_push id 2 _ tenant_a),
    (fq_reach_push id 1 _ tenant_a), (fq_reach_push id 0 _ tenant_a). exact (fq_reach_new id [(tenant_a, 2)]).
Qed.

(** Popping is serving, and keeps a run going. *)
Lemma backlogged_pop t u k q j served q' :
  tags id q t ≠ [] → tags id q u ≠ [] → fst <$> fq_pop q = Some j →
  backlogged id t u k (popped q) served q' → backlogged id t u k q (j :: served) q'.
Proof.
  unfold popped. pose proof (fq_pop_least q) as Hl. destruct (fq_pop q) as [[j0 q1]|]; [|done].
  destruct Hl as (i & Hl & Htk). intros Ht Hu [= ->] Hb. by eapply (backlogged_serve id).
Qed.

Lemma fair_queue_fair_witness :
  backlogged id tenant_a tenant_b 0 loaded [tenant_a; tenant_b; tenant_a] (popped (popped (popped loaded))) ∧
  jobs_of id tenant_a [tenant_a; tenant_b; tenant_a] * (COST / weight_of loaded tenant_a) ≤
    jobs_of id tenant_b [tenant_a; tenant_b; tenant_a] * (COST / weight_of loaded tenant_b)
      + COST / weight_of loaded tenant_a + COST / weight_of loaded tenant_b.
Proof.
  assert (backlogged id tenant_a tenant_b 0 loaded [tenant_a; tenant_b; tenant_a] (popped (popped (popped loaded)))) as Hb.
  { repeat (apply backlogged_pop; [by vm_compute|by vm_compute|vm_compute; reflexivity|]).
    apply backlogged_now; by vm_compute. }
  split; [exact Hb|]. refine (proj1 (fair_queue_fair id tenant_a tenant_b 5 0 loaded _ _ loaded_reach Hb _)). by vm_compute.
Defined.

(** ** Dispatch *)

(** C29.  Dispatch, one job at a time: a placement takes, among the queued jobs
    that some worker could take, the one of least start tag (the first pushed on a
    tie), leases it to a worker that is connected, holds no lease and, where
    workers are registered, is live and has every property the job asks for; and
    nothing is placed only when no queued job has such a worker.  For every
    strategy that keeps the trait's contract. *)
Theorem place_one_correct {St} `{StrategySpec St} (cfg : Config St) reg now i :
  match place_one cfg reg now i with
  | None => ∀ e, e ∈ fq_entries (pending i) → ¬ dispatchable reg now i e
  | Some (w, tx, pj, i') => ∃ k e,
      first_dispatchable reg now i (fq_entries (pending i)) k e ∧ pj = job e ∧
      may_take reg now i (pj_platform pj) w ∧ sender w (connected i) = Some tx ∧
      fq_entries (pending i) ≡ₚ e :: fq_entries (pending i') ∧
      leases i' = <[pj_job_id pj := mkLease w (now + pj_lease_duration pj) pj]> (leases i) ∧
      connected i' = connected i ∧ tenants i' = tenants i
  end.
Proof.
  pose proof (place_one_spec cfg reg now i) as Hs. destruct (place_one cfg reg now i) as [[[[w tx] pj] i']|]; [|exact Hs].
  destruct Hs as (k & e & Hf & -> & Hm & Hs & Ht & Hi'). exists k, e. unfold fq_take in Ht.
  rewrite (proj1 Hf) in Ht. injection Ht as Hq. split_and!; try done; [|by rewrite Hi'..].
  rewrite <-Hq. simpl. by apply swap_remove_perm, Hf.
Qed.

(** C30.  The dispatch loop terminates, within as many rounds as there are
    connections and queued jobs, sends that fail included; it leaves no job queued
    that a worker could take; and every job it found queued or leased still is,
    unless its caller's waiter has been dropped. *)
Theorem try_dispatch_work_conserving {St} `{StrategySpec St} (cfg : Config St) closed reg clock i ws :
  ∃ i' ws', try_dispatch cfg (S (size (connected i) + length (fq_entries (pending i)))) closed reg clock i ws = Some (i', ws') ∧
    ws' ⊆ ws ∧ (∃ n, ∀ e, e ∈ fq_entries (pending i') → ¬ dispatchable reg (clock n) i' e) ∧
    ∀ j, queued j i ∨ held j i → queued j i' ∨ held j i' ∨ j ∉ ws'.
Proof. apply try_dispatch_spec. unfold backlog. lia. Qed.

(** ** Every interleaving *)

Section runs.
Context {St : Type} `{StrategySpec St} (cfg : Config St).

(** C26.  No job is lost: in every interleaving of callers, dispatch loops, worker
    streams, heartbeats, the reaper and timeouts, a call that has been admitted and
    still waits, with nothing in its channel, has its waiter registered and its
    job queued, leased, about to be failed, or reported and about to be answered;
    and an answer in the channel is one a worker gave for that job. *)
Theorem no_job_lost reg s j c :
  reachable cfg reg s → callers s !! j = Some c →
  (c_phase c = Waiting → c_reply c = NoReply →
     j ∈ waiters s ∧ (queued j (inner s) ∨ held j (inner s) ∨ j ∈ failing s ∨ j ∈ (reporting s).*1)) ∧
  (∀ r, c_reply c = Replied r → jr_job_id r = id_str j).
Proof.
  intros Hr Hj. destruct (run_inv cfg reg s Hr) as (_ & _ & Hc & _). destruct (Hc j c Hj) as (_ & Hph & Hrep).
  split; [|exact Hrep]. intros Hw Hn. rewrite Hw in Hph. by apply Hph.
Qed.

(** C27.  The dispatch state is well formed in every interleaving: no worker
    holds two leases, a lease is for the job it is filed under, and no job is
    queued, leased or being sent that has used up its attempts.  The in-flight
    count of every worker, which the strategies read and the snapshot reports, is
    zero throughout, whatever the worker is running. *)
Theorem dispatch_state_well_formed reg s :
  reachable cfg reg s →
  (∀ j l, leases (inner s) !! j = Some l → pj_job_id (payload l) = j ∧ attempts (payload l) < MAX_ATTEMPTS) ∧
  (∀ j l j' l', leases (inner s) !! j = Some l → leases (inner s) !! j' = Some l' → worker_id l = worker_id l' → j = j') ∧
  (∀ e, e ∈ fq_entries (pending (inner s)) → attempts (job e) < MAX_ATTEMPTS) ∧
  (∀ w tx pj, (w, tx, pj) ∈ sending s → attempts pj < MAX_ATTEMPTS) ∧
  (∀ w, inflight (connected (inner s)) w = 0) ∧ ∀ w n, inflight_snapshot (inner s) !! w = Some n → n = 0.
Proof.
  intros Hr. destruct (run_inv cfg reg s Hr) as (((Hp & [Hid Hone] & Hi) & Hs) & _).
  assert (∀ w, inflight (connected (inner s)) w = 0) as Hz.
  { intros w. unfold inflight. destruct (connected (inner s) !! w) as [c|] eqn:Hc; [|done]. simpl. by eapply Hi. }
  split_and!; [done..|]. intros w n. unfold inflight_snapshot. rewrite map_lookup_imap.
  destruct (connected (inner s) !! w); simpl; [|done]. intros [= <-]. apply Hz.
Qed.

(** C28.  Quotas: in every interleaving a tenant's count is the number of its
    calls between admission and conclusion, and never exceeds the limit, however
    many calls arrive at once. *)
Theorem quota_holds reg s t :
  reachable cfg reg s →
  tenant_inflight t (inner s) = admitted t (callers s) ∧
  ∀ limit, max_concurrent_per_tenant cfg = Some limit → (admitted t (callers s) ≤ limit)%nat.
Proof. intros Hr. destruct (run_inv cfg reg s Hr) as (_ & _ & _ & Hq). apply Hq. Qed.

End runs.

(** *** Runs *)

Definition fifo (quota : option nat) : Config SimpleFifo := Scheduler_build mkSimpleFifo DEFAULT_EXECUTION_TIMEOUT quota.

Definition worker_a : WorkerId := Ident_mk "worker-a" I.
Definition worker_b : WorkerId := Ident_mk "worker-b" I.
Definition job_1 : JobId := Ident_mk "job-1" I.
Definition job_2 : JobId := Ident_mk "job-2" I.

Definition demo_pj (j : JobId) : PendingJob :=
  mkPendingJob j tenant_a (mkJob (id_str j) None None None) [] DEFAULT_LEASE_DURATION 0 digest_a None.

Definition done_by_worker (j : JobId) : JobResult := mkJobResult (id_str j) None "".

(** The state after [l]. *)
Definition after (quota : option nat) (l : list SysAction) : Sys := default (Sys_new None) (acts (fifo quota) l (Sys_new None)).

Lemma after_reachable quota l : (if acts (fifo quota) l (Sys_new None) then true else false) = true → reachable (fifo quota) None (after quota l).
Proof.
  unfold after. destruct (acts (fifo quota) l (Sys_new None)) as [s|] eqn:Hs; [|done]. intros _. by eapply acts_reachable.
Qed.

(** Worker [b] is sent the job; a second call of the tenant is refused. *)
Definition one_running : list SysAction :=
  [AConnect worker_b 1; ASubmit (demo_pj job_1); AAdmit job_1; APlace 0; ASubmit (demo_pj job_2); AAdmit job_2].

Lemma one_running_reachable : reachable (fifo (Some 1%nat)) None (after (Some 1%nat) one_running).
Proof. apply after_reachable. vm_compute. reflexivity. Qed.

Lemma no_job_lost_witness :
  job_1 ∈ waiters (after (Some 1%nat) one_running) ∧
  (queued job_1 (inner (after (Some 1%nat) one_running)) ∨ held job_1 (inner (after (Some 1%nat) one_running)) ∨
   job_1 ∈ failing (after (Some 1%nat) one_running) ∨ job_1 ∈ (reporting (after (Some 1%nat) one_running)).*1).
Proof.
  refine (proj1 (no_job_lost (fifo (Some 1%nat)) None _ job_1 (mkCaller tenant_a Waiting NoReply) one_running_reachable _) eq_refl eq_refl).
  vm_compute. reflexivity.
Defined.

Lemma dispatch_state_well_formed_witness :
  worker_of job_1 (leases (inner (after (Some 1%nat) one_running))) = Some worker_b ∧
  inflight (connected (inner (after (Some 1%nat) one_running))) worker_b = 0.
Proof.
  split; [vm_compute; reflexivity|].
  exact (proj1 (proj2 (proj2 (proj2 (proj2 (dispatch_state_well_formed (fifo (Some 1%nat)) None _ one_running_reachable))))) worker_b).
Defined.

(** Two jobs queued, one worker. *)
Definition two_queued : Inner :=
  inner (after None [AConnect worker_b 1; ASubmit (demo_pj job_1); AAdmit job_1; ASubmit (demo_pj job_2); AAdmit job_2]).

Lemma place_one_correct_witness :
  (λ x, (x.1.1.1, pj_job_id x.1.2)) <$> place_one (fifo None) None 0 two_queued = Some (worker_b, job_1) ∧
  match place_one (fifo None) None 0 two_queued with
  | None => False
  | Some (w, tx, pj, i') => may_take None 0 two_queued (pj_platform pj) w ∧ connected i' = connected two_queued
  end.
Proof.
  split; [vm_compute; reflexivity|]. pose proof (place_one_correct (fifo None) None 0 two_queued) as Hc.
  destruct (place_one (fifo None) None 0 two_queued) as [[[[w tx] pj] i']|] eqn:Hp; [|vm_compute in Hp; discriminate].
  destruct Hc as (k & e & _ & _ & Hm & _ & _ & _ & Hcn & _). exact (conj Hm Hcn).
Defined.

Lemma try_dispatch_work_conserving_witness :
  ∃ i' ws', try_dispatch (fifo None) 4 (λ _, false) None (λ _, 0) two_queued {[job_1; job_2]} = Some (i', ws') ∧
    ws' ⊆ {[job_1; job_2]} ∧
    ∃ n : nat, ∀ e, e ∈ fq_entries (pending i') → ¬ dispatchable None ((λ _, 0) n) i' e.
Proof.
  destruct (try_dispatch_work_conserving (fifo None) (λ _, false) None (λ _, 0) two_queued {[job_1; job_2]})
    as (i' & ws' & Hr & Hsub & Hn & _).
  exists i', ws'. split; [exact Hr|exact (conj Hsub Hn)].
Defined.

Lemma quota_holds_witness :
  admitted tenant_a (callers (after (Some 1%nat) one_running)) = 1%nat ∧
  tenant_inflight tenant_a (inner (after (Some 1%nat) one_running)) = admitted tenant_a (callers (after (Some 1%nat) one_running)).
Proof.
  split; [vm_compute; reflexivity|]. exact (proj1 (quota_holds (fifo (Some 1%nat)) None _ tenant_a one_running_reachable)).
Defined.

(** ** Races *)

(** The lease of [b] expires, the job goes to [a], and then [b] reports. *)
Definition late_report : list SysAction :=
  [AConnect worker_b 1; ASubmit (demo_pj job_1); AAdmit job_1; APlace 0; ASend 0 true; AReap DEFAULT_LEASE_DURATION;
   AConnect worker_a 2; APlace DEFAULT_LEASE_DURATION; AReport (done_by_worker job_1) u64_0; AWake 0;
   ASubmit (demo_pj job_2); AAdmit job_2; APlace DEFAULT_LEASE_DURATION].

(** [b] disconnects while the job is on its way to it. *)
Definition sent_to_the_gone : list SysAction :=
  [AConnect worker_b 1; ASubmit (demo_pj job_1); AAdmit job_1; APlace 0; ADisconnect worker_b; ASend 0 false].

(** [b] reconnects before its old stream is seen to close. *)
Definition reconnected : list SysAction := [AConnect worker_b 1; AConnect worker_b 2; ADisconnect worker_b].

(** Three runs the locks do not exclude.  A worker whose lease expired
    reports late: the report ends the lease of the worker the job went to, its
    result answers the caller, and the new holder, still running the job, is given
    another.  A worker disconnects while a job is being sent to it: both the
    disconnect and the failed send put the job back, so it is queued twice.  A
    worker reconnects: the end of its old stream removes the new one. *)
Theorem scheduler_races :
  (let s := after None late_report in
   reachable (fifo None) None s ∧
   callers s !! job_1 = Some (mkCaller tenant_a Waiting (Replied (done_by_worker job_1))) ∧
   sending s = [(worker_a, 2, bump (demo_pj job_1)); (worker_a, 2, demo_pj job_2)] ∧
   worker_of job_1 (leases (inner s)) = None ∧ worker_of job_2 (leases (inner s)) = Some worker_a) ∧
  (let s := after None sent_to_the_gone in
   reachable (fifo None) None s ∧
   (λ e, pj_job_id (job e)) <$> fq_entries (pending (inner s)) = [job_1; job_1]) ∧
  (let s := after None reconnected in
   reachable (fifo None) None s ∧ connected (inner s) !! worker_b = None).
Proof.
  split; [|split]; cbv zeta; (split; [apply after_reachable; vm_compute; reflexivity|]); vm_compute; by repeat split.
Qed.
