(* ===== verification/ExecuteTheorems.v ===== *)
(** * brokkr-control: executing an action, theorems

    What a control plane that does not lead the metadata store does with an
    execution, and that a result once cached is the answer from then on. *)

From stdpp Require Import prelude gmap strings.
From Stdlib Require Import Lia.
From S2P Require Import Prelude Machine Bytes Common Redb Cas CasBackends ActionCache CasDemo MetaKv.
From S2P Require Import RaftTypes RaftStore RaftNode RaftDriver RaftKv Registry Scheduling Scheduler Execute.

Local Open Scope N_scope.

Section execute_theorems.
Context {C St : Type} `{Cas C, ErrText, IdText, ExecCodec} (cfg : Config St).

Lemma prepare_err {A} `{ActionCache A} reg now uuid d t (a a' : A) (c : C) e :
  get_action_result d a = (a', Err e) →
  prepare cfg reg now uuid d false t (a, c) =
    match e with
    | CasNotLeader _ _ => prepare cfg reg now uuid d true t (a', c)
    | _ => ((a', c), Err (Other ["action cache get: " +:+ cas_error_text e]))
    end.
Proof.
  intros Hget. unfold prepare, Execute.on_cache, lookup_cache, zoom, mbind, eff_bind. cbn [fst snd]. rewrite Hget. by destruct e.
Qed.

Lemma prepare_hit {A} `{ActionCache A} reg now uuid d t (a a' : A) (c : C) res :
  get_action_result d a = (a', Ok (Some res)) →
  prepare cfg reg now uuid d false t (a, c) = ((a', c), Ok (inl (mkExecutionOutcome res true true))).
Proof.
  intros Hget. unfold prepare, Execute.on_cache, lookup_cache, zoom, mbind, eff_bind. cbn [fst snd]. by rewrite Hget.
Qed.

Lemma conclude_err {A} `{ActionCache A} d timeout r res (a a' : A) n e :
  jr_error_message r = "" → jr_result r = Some res → exit_code res = 0%Z → update_action_result d res a = (a', Err e) →
  conclude d timeout (WReport r) (a, n) =
    match e with
    | CasNotLeader _ _ => ((a', u64_wrap (n + 1)), Ok (mkExecutionOutcome res false false))
    | _ => ((a', n), Err (Other ["action cache update: " +:+ cas_error_text e]))
    end.
Proof. intros Hm Hr He Hup. unfold conclude. rewrite Hm, Hr, He. cbn [fst snd]. rewrite Hup. by destruct e. Qed.

(** C38.  A store that refuses: on a node whose Raft log says it does not lead,
    an execution goes on as if no cache lookup had been asked for, and a job that
    ran is answered with its result, marked as not cached, and counted; the error
    names the leader with the address this node last learned for it.  Any other
    refusal fails the execution before the action is fetched, and fails one whose
    result was to be written. *)
Theorem refused_by_the_log {R} `{RaftHandle R, KvCodec, ArCodec}
    reg now uuid d t (s : RaftKv R) (c : C) hr hw e n timeout r res :
  read_index (rk_handle s) = (hr, Err e) →
  (∀ b, propose_committed b (rk_handle s) = (hw, Err e)) →
  jr_error_message r = "" → jr_result r = Some res → exit_code res = 0%Z →
  let a := MetaKvActionCache_new s in
  let ar := MetaKvActionCache_new (mkRaftKv hr) in
  let aw := MetaKvActionCache_new (mkRaftKv hw) in
  match e with
  | NotLeader leader =>
      get_action_result d a = (ar, Err (CasNotLeader leader (leader ≫= published_addr (mkRaftKv hr)))) ∧
      prepare cfg reg now uuid d false t (a, c) = prepare cfg reg now uuid d true t (ar, c) ∧
      conclude d timeout (WReport r) (a, n) = ((aw, u64_wrap (n + 1)), Ok (mkExecutionOutcome res false false))
  | _ =>
      (∃ msg, prepare cfg reg now uuid d false t (a, c) = ((ar, c), Err (Other [msg]))) ∧
      (∃ msg, conclude d timeout (WReport r) (a, n) = ((aw, n), Err (Other [msg])))
  end.
Proof.
  intros Hr Hw Hmsg Hres Hexit a ar aw.
  assert (get_action_result d a = (ar, Err (cas_error_of (kv_err (mkRaftKv hr) e)))) as Hget.
  { apply bind_err. unfold on_kv, zoom, map_err. change (kv_get (ac_key d) (ma_kv a)) with (rk_get (ac_key d) s).
    unfold rk_get. by rewrite (bind_err _ _ _ _ _ (on_handle_err _ _ _ _ Hr)). }
  assert (update_action_result d res a = (aw, Err (cas_error_of (kv_err (mkRaftKv hw) e)))) as Hup.
  { cbn. unfold ma_update_action_result, on_kv, zoom, map_err. change (ma_kv a) with s.
    change (kv_put (ac_key d) (enc_result res) s) with (rk_put (ac_key d) (enc_result res) s). unfold rk_put, rk_write.
    by rewrite (bind_err _ _ _ _ _ (on_handle_err _ _ _ _ (Hw _))). }
  pose proof (prepare_err reg now uuid d t a ar c _ Hget) as Hp.
  pose proof (conclude_err d timeout r res a aw n _ Hmsg Hres Hexit Hup) as Hcl.
  destruct e; cbn in Hp, Hcl; by eauto.
Qed.

(** A result that was cached is the answer from then on: when an execution
    ends with a successful result marked as cached, the next execution of the same
    action that can read the cache is answered with that result, as a hit, without
    consulting the CAS, the registry or a worker. *)
Theorem cached_result_is_the_answer {A} `{ActionCacheSpec A} d timeout r (a a' : A) n n' o :
  ac_ok a → digest_ok d → (∀ res, jr_result r = Some res → ac_fits res) →
  conclude d timeout (WReport r) (a, n) = ((a', n'), Ok o) → exit_code (result o) = 0%Z → result_cached o = true →
  ac_ok a' ∧ ∀ reg now uuid t (c : C) a'' found, get_action_result d a' = (a'', Ok found) →
    prepare cfg reg now uuid d false t (a', c) = ((a'', c), Ok (inl (mkExecutionOutcome (result o) true true))).
Proof.
  intros Hok Hd Hfits Hc Hexit Hcached. unfold conclude in Hc. destruct (negb _); [done|].
  destruct (jr_result r) as [res|] eqn:Hres; [|done].
  destruct (Z.eqb_spec (exit_code res) 0) as [He|He]; [|by injection Hc as <- <- <-]. cbn [fst snd] in Hc.
  pose proof (update_action_result_spec d res a Hok Hd (Hfits res eq_refl)) as Hup. unfold wp in Hup.
  destruct (update_action_result d res a) as [a1 [[]|[]|]]; try discriminate Hc; injection Hc as <- <- <-; [|done].
  destruct Hup as [Hok' Hview]. cbn in Hexit |- *. split; [done|]. intros reg now uuid t c a'' found Hget.
  pose proof (get_action_result_spec d a1 Hok') as Hg. unfold wp in Hg. rewrite Hget in Hg. destruct Hg as [_ ->].
  apply prepare_hit. by rewrite Hget, Hview, decide_True.
Qed.

End execute_theorems.

(** ** A follower that knows where its leader is *)

Definition leader_record : KvMachine := {[ node_record_key "control-1" := as_bytes "10.0.0.1:7878" ]}.

(** A handle every call of which is refused. *)
#[export] Instance follower_handle : RaftHandle KvMachine := {
  propose_committed _ := throw (NotLeader (Some "control-1"));
  read_index := throw (NotLeader (Some "control-1"));
  handle_status := throw (NotLeader (Some "control-1"));
  shared_map m := m
}.

#[export] Instance demo_id_text : IdText := λ _, "invalid id".
#[export] Instance demo_exec_codec : ExecCodec := {| dec_Action _ := inl "malformed"; dec_Command _ := inl "malformed" |}.
#[export] Instance demo_record_codec : KvCodec := {|
  enc_command _ := []; dec_command _ := inl "malformed";
  enc_record r := as_bytes (advertise_addr r);
  dec_record b := inr (mkNodeRecord (String.string_of_list_byte b));
  raft_error_text _ := "raft"
|}.

Definition fifo_config : Config SimpleFifo := Scheduler_build mkSimpleFifo DEFAULT_EXECUTION_TIMEOUT None.
Definition succeeded : JobResult := mkJobResult "job-1" (Some demo_result) "".

Lemma refused_by_the_log_witness :
  get_action_result digest_b (MetaKvActionCache_new (mkRaftKv leader_record)) =
    (MetaKvActionCache_new (mkRaftKv leader_record), Err (CasNotLeader (Some "control-1") (Some "10.0.0.1:7878"))) ∧
  conclude digest_b 0 (WReport succeeded) (MetaKvActionCache_new (mkRaftKv leader_record), u64_0) =
    ((MetaKvActionCache_new (mkRaftKv leader_record), u64_1), Ok (mkExecutionOutcome demo_result false false)).
Proof.
  destruct (refused_by_the_log (C:=InMemoryCas) fifo_config None 0 "job-1" digest_b TenantId_default (mkRaftKv leader_record) InMemoryCas_new
    leader_record leader_record (NotLeader (Some "control-1")) u64_0 0 succeeded demo_result) as (Hget & _ & Hc); [done..|].
  split; [rewrite Hget|rewrite Hc]; do 2 f_equal; by vm_compute.
Defined.

Definition concluded : RedbActionCache * u64 := (conclude digest_b 0 (WReport succeeded) (RedbActionCache_open ∅ [], u64_0)).1.

Lemma cached_result_is_the_answer_witness :
  prepare fifo_config None 0 "job-2" digest_b false TenantId_default (concluded.1, InMemoryCas_new) =
    (((get_action_result digest_b concluded.1).1, InMemoryCas_new), Ok (inl (mkExecutionOutcome demo_result true true))).
Proof.
  refine (proj2 (cached_result_is_the_answer (C:=InMemoryCas) fifo_config digest_b 0 succeeded (RedbActionCache_open ∅ []) concluded.1
    u64_0 concluded.2 (mkExecutionOutcome demo_result false true) _ _ _ _ eq_refl eq_refl) None 0 "job-2" TenantId_default
    InMemoryCas_new _ (Some demo_result) _).
  - intros h b. simpl. by rewrite lookup_empty.
  - split; [|split]; vm_compute; done.
  - intros res [= <-]. vm_compute. reflexivity.
  - rewrite <-surjective_pairing. apply returned_eq. vm_compute. reflexivity.
  - apply returned_eq. vm_compute. reflexivity.
Defined.
