(* ===== verification/Policy.v ===== *)
(** * brokkr-policy, and the strategy that asks it

    Models [crates/brokkr-policy/src/{lib,error,engine}.rs] (the engine that
    runs a WebAssembly module for one decision at a time, with its failures and
    its quarantine), [crates/brokkr-control/src/policy_abi.rs] (the snapshot a
    module is given), [wasm_strategy.rs] (the strategy that falls back to the
    built-in one) and [policy_reload.rs] (the watcher of the module's file).

    wasmtime is a parameter: what compiling, linking and running a module comes
    to, call by call.  A module may answer differently each time, or be stopped
    by a limit, so each instantiation is given the number of those before it. *)

From stdpp Require Import prelude gmap strings pretty.
From Stdlib Require Import Lia.
From S2P Require Import Prelude Machine Bytes Common Registry Scheduling.

Local Open Scope N_scope.

(** The [?] of a function that returns a [Result]. *)
Definition and_then {E A B} (m : E + A) (k : A → E + B) : E + B :=
  match m with inl e => inl e | inr a => k a end.
Definition err_map {E E' A} (f : E → E') (m : E + A) : E' + A :=
  match m with inl e => inl (f e) | inr a => inr a end.

Declare Scope result_scope.
Delimit Scope result_scope with result.
Notation "'let?' x := m 'in' k" := (and_then m (λ x, k))
  (at level 10, x pattern, m at level 100, k at level 200, only parsing) : result_scope.
Local Open Scope result_scope.

(** ** Failures *)

Inductive PolicyFailure : Type :=
| PfTrap (msg : string)
| PfFuelExhausted
| PfDeadline
| PfBadIndex (returned : Z) (candidates : nat)
| PfInstantiate (msg : string)
| PfMemory (msg : string)
| PfNotLoaded
| PfQuarantined (consecutive : N).

Inductive PolicyError : Type :=
| PeCompile (msg : string)
| PeMissingExport (name detail : string)
| PeAbiMismatch (found expected : N)
| PeSmokeTest (f : PolicyFailure)
| PeEngine (msg : string).

Definition counts_toward_quarantine (f : PolicyFailure) : bool :=
  match f with PfNotLoaded | PfQuarantined _ => false | _ => true end.

Definition failure_reason (f : PolicyFailure) : string :=
  match f with
  | PfTrap _ => "trap"
  | PfFuelExhausted => "fuel_exhausted"
  | PfDeadline => "deadline"
  | PfBadIndex _ _ => "bad_index"
  | PfInstantiate _ => "instantiate"
  | PfMemory _ => "memory"
  | PfNotLoaded => "not_loaded"
  | PfQuarantined _ => "quarantined"
  end.

(** The [Display] of a failure. *)
Definition failure_text (f : PolicyFailure) : string :=
  match f with
  | PfTrap msg => "policy trapped: " +:+ msg
  | PfFuelExhausted => "policy exhausted its fuel budget"
  | PfDeadline => "policy exceeded its wall-clock deadline"
  | PfBadIndex returned candidates =>
      "policy returned index " +:+ pretty returned +:+ ", which is not a candidate (0.."
        +:+ pretty candidates +:+ ") or DECLINE"
  | PfInstantiate msg => "instantiating the policy for this decision: " +:+ msg
  | PfMemory msg => "policy could not receive the snapshot: " +:+ msg
  | PfNotLoaded => "no policy module is loaded"
  | PfQuarantined n =>
      "policy is quarantined after " +:+ pretty n +:+ " consecutive failures; reload the module to clear it"
  end.

(** ** Answers *)

(** [as i32]. *)
Definition as_i32 (z : Z) : Z := let m := (z mod 2 ^ 32)%Z in if (m <? 2 ^ 31)%Z then m else (m - 2 ^ 32)%Z.

Definition DECLINE : Z := -1.
Definition POLICY_ABI_VERSION : N := 1.

Inductive Decision : Type := Chose (idx : nat) | Declined.

Definition interpret (raw : Z) (candidate_count : nat) : PolicyFailure + Decision :=
  if (raw =? DECLINE)%Z then inr Declined
  else if (raw <? 0)%Z then inl (PfBadIndex raw candidate_count)
  else if decide (Z.to_nat raw < candidate_count)%nat then inr (Chose (Z.to_nat raw))
  else inl (PfBadIndex raw candidate_count).

Record PolicyLimits : Type := mkPolicyLimits { pl_fuel : N; pl_deadline_ms : N; quarantine_threshold : N }.

(** ** wasmtime *)

Inductive WasmTrap : Type := OutOfFuel | Interrupt | OtherTrap (msg : string).

(** An error of a call: a trap, or something else with its text, and the fuel
    left if that can be read. *)
Inductive WasmError : Type :=
| WasmTrapped (t : WasmTrap)
| WasmOther (fuel_left : option N) (text : string).

(** An instance: its memory, if exported, comes with each call that may change
    it; the functions are there with the right signature or not. *)
Record GuestInstance : Type := mkInstance {
  has_memory : bool;
  version_fn : string + (WasmError + Z);
  alloc_fn : string + (Z → WasmError + Z * option bytes);
  choose_fn : string + (Z → Z → bytes → WasmError + Z)
}.

Class Wasm : Type := {
  Module : Type;
  InstancePre : Type;
  module_new : bytes → string + Module;
  instantiate_pre : Module → string + InstancePre;
  set_fuel : N → string + ();
  instantiate : InstancePre → PolicyLimits → nat → string + GuestInstance;
  wasm_error_text : WasmError → string
}.

(** [Memory::write]. *)
Definition memory_write (mem : bytes) (offset : nat) (b : bytes) : option bytes :=
  if decide (offset + length b ≤ length mem)%nat
  then Some (take offset mem ++ b ++ drop (offset + length b) mem)
  else None.

(** [str::contains]. *)
Fixpoint contains (needle s : string) : bool :=
  String.prefix needle s || match s with EmptyString => false | String _ s => contains needle s end.

(** ** The snapshot *)

Record PolicyJobFacts : Type := mkPolicyJobFacts {
  pj_tenant : string;
  pj_action_digest : string;
  pj_input_root_digest : string;
  pj_platform : list (string * string)
}.

Record PolicyCandidate : Type := mkPolicyCandidate {
  pc_worker_id : string;
  pc_inflight : N;
  pc_labels : list (string * string);
  pc_input_root_hits : N;
  pc_action_hits : N
}.

Record DecisionSnapshot : Type := mkDecisionSnapshot {
  ds_abi_version : N;
  ds_job : option PolicyJobFacts;
  ds_candidates : list PolicyCandidate
}.

(** prost's encoding. *)
Class SnapshotCodec : Type := enc_snapshot : DecisionSnapshot → bytes.

(** A [BTreeMap]'s iteration: by key. *)
Definition label_pairs (m : gmap string string) : list (string * string) :=
  omap (λ k, (λ v, (k, v)) <$> m !! k) (btree_iter id (dom m)).

Definition build_snapshot (candidates : list WorkerId) (ctx : DecisionContext) (registry : option WorkerRegistry)
    : DecisionSnapshot :=
  let job := dc_job ctx in
  mkDecisionSnapshot POLICY_ABI_VERSION
    (Some (mkPolicyJobFacts (id_str (jf_tenant job)) (hash (jf_action_digest job))
       (from_option hash "" (jf_input_root_digest job))
       ((λ p, (prop_name p, prop_value p)) <$> jf_platform job)))
    ((λ w, mkPolicyCandidate (id_str w)
       (if dc_loads ctx w <? 2 ^ 32 then dc_loads ctx w else 2 ^ 32 - 1)
       (from_option (λ rec, label_pairs (labels (capabilities rec))) [] (registry ≫= reg_get w))
       (from_option (input_root_hits (dc_locality ctx) w) 0 (jf_input_root_digest job))
       (action_hits (dc_locality ctx) w (jf_action_digest job))) <$> candidates).

Definition zeros64 : string := "0000000000000000000000000000000000000000000000000000000000000000".
Definition ones64 : string := "1111111111111111111111111111111111111111111111111111111111111111".

Definition smoke_message : DecisionSnapshot :=
  mkDecisionSnapshot POLICY_ABI_VERSION (Some (mkPolicyJobFacts "" zeros64 ones64 []))
    [mkPolicyCandidate "brokkr-smoke-a" 0 [] 0 0; mkPolicyCandidate "brokkr-smoke-b" 0 [] 0 0].

(** ** The engine *)

Section engine.
Context `{Wasm, SnapshotCodec}.

(** [runs] counts the instantiations so far. *)
Record PolicyEngine : Type := mkPolicyEngine {
  limits : PolicyLimits;
  policy_module : option InstancePre;
  consecutive_failures : N;
  runs : nat
}.

Definition PolicyEngine_new (l : PolicyLimits) : PolicyEngine := mkPolicyEngine l None 0 0.

Definition is_loaded (e : PolicyEngine) : bool := bool_decide (is_Some (policy_module e)).
Definition is_quarantined (e : PolicyEngine) : bool := quarantine_threshold (limits e) <=? consecutive_failures e.

Definition classify (e : WasmError) : PolicyFailure :=
  match e with
  | WasmTrapped OutOfFuel => PfFuelExhausted
  | WasmTrapped Interrupt => PfDeadline
  | WasmTrapped (OtherTrap msg) => PfTrap msg
  | WasmOther fuel_left text =>
      if bool_decide (fuel_left = Some 0) then PfFuelExhausted
      else if contains "epoch deadline" text || contains "interrupt" text then PfDeadline
      else if contains "fuel" text then PfFuelExhausted
      else PfTrap text
  end.

Definition new_store (l : PolicyLimits) : PolicyFailure + () :=
  err_map (λ e, PfInstantiate ("setting fuel: " +:+ e)) (set_fuel (pl_fuel l)).

(** One invocation, the [run]th. *)
Definition call (l : PolicyLimits) (pre : InstancePre) (run : nat) (snapshot : bytes) (candidate_count : nat)
    : PolicyFailure + Decision :=
  let? _ := new_store l in
  let? instance := err_map PfInstantiate (instantiate pre l run) in
  let? len := (if N.of_nat (length snapshot) <? 2 ^ 31 then inr (Z.of_nat (length snapshot))
               else inl (PfMemory "snapshot exceeds i32::MAX bytes")) in
  let? alloc := err_map (λ e, PfMemory ("brokkr_alloc: " +:+ e)) (alloc_fn instance) in
  let? (ptr, memory) := err_map classify (alloc len) in
  let? memory := (if memory is Some m then inr m else inl (PfMemory "no `memory` export")) in
  let? offset := (if (ptr <? 0)%Z then inl (PfMemory ("brokkr_alloc returned " +:+ pretty ptr)) else inr (Z.to_nat ptr)) in
  let? memory := (if memory_write memory offset snapshot is Some m then inr m
                  else inl (PfMemory "writing the snapshot: out of bounds memory access")) in
  let? choose := err_map (λ e, PfMemory ("brokkr_choose: " +:+ e)) (choose_fn instance) in
  let? raw := err_map classify (choose ptr len memory) in
  interpret raw candidate_count.

Definition check_exports_and_abi (l : PolicyLimits) (pre : InstancePre) (run : nat) : PolicyError + () :=
  let? _ := err_map (λ f, PeEngine (failure_text f)) (new_store l) in
  let? instance := err_map (λ e, PeCompile ("instantiating for validation: " +:+ e)) (instantiate pre l run) in
  let? _ := (if has_memory instance then inr ()
             else inl (PeMissingExport "memory" "the guest must export its linear memory")) in
  let? _ := err_map (λ e, PeMissingExport "brokkr_alloc" ("expected (i32) -> i32: " +:+ e)) (alloc_fn instance) in
  let? _ := err_map (λ e, PeMissingExport "brokkr_choose" ("expected (i32, i32) -> i32: " +:+ e)) (choose_fn instance) in
  let? version := err_map (λ e, PeMissingExport "brokkr_abi_version" ("expected () -> i32: " +:+ e)) (version_fn instance) in
  let? found := err_map (λ e, PeCompile ("calling brokkr_abi_version: " +:+ wasm_error_text e)) version in
  let found := if (found <? 0)%Z then 2 ^ 32 - 1 else Z.to_N found in
  if found =? POLICY_ABI_VERSION then inr () else inl (PeAbiMismatch found POLICY_ABI_VERSION).

Definition smoke_test (l : PolicyLimits) (pre : InstancePre) (run : nat) : PolicyError + () :=
  match call l pre run (enc_snapshot smoke_message) 2 with
  | inr _ => inr ()
  | inl f => inl (PeSmokeTest f)
  end.

(** The checks take an instance each; the engine is left as it was on failure. *)
Definition load (wasm : bytes) (e : PolicyEngine) : PolicyEngine * (PolicyError + ()) :=
  let ran k := mkPolicyEngine (limits e) (policy_module e) (consecutive_failures e) (runs e + k) in
  match err_map PeCompile (module_new wasm) with
  | inl err => (e, inl err)
  | inr m =>
      match err_map (λ msg, PeCompile ("resolving imports: " +:+ msg)) (instantiate_pre m) with
      | inl err => (e, inl err)
      | inr pre =>
          match check_exports_and_abi (limits e) pre (runs e) with
          | inl err => (ran 1%nat, inl err)
          | inr _ =>
              match smoke_test (limits e) pre (runs e + 1) with
              | inl err => (ran 2%nat, inl err)
              | inr _ => (mkPolicyEngine (limits e) (Some pre) 0 (runs e + 2), inr ())
              end
          end
      end
  end.

(** The counter is a [u32]. *)
Definition decide_ (snapshot : bytes) (candidate_count : nat) (e : PolicyEngine)
    : PolicyEngine * (PolicyFailure + Decision) :=
  match policy_module e with
  | None => (e, inl PfNotLoaded)
  | Some pre =>
      if is_quarantined e then (e, inl (PfQuarantined (consecutive_failures e)))
      else
        let result := call (limits e) pre (runs e) snapshot candidate_count in
        let failures := match result with
          | inr _ => 0
          | inl f => if counts_toward_quarantine f then (consecutive_failures e + 1) mod 2 ^ 32 else consecutive_failures e
          end in
        (mkPolicyEngine (limits e) (Some pre) failures (runs e + 1), result)
  end.

(** ** The strategy *)

Record PolicyFailureCounts : Type := mkPolicyFailureCounts {
  ct_trap : u64;
  ct_fuel_exhausted : u64;
  ct_deadline : u64;
  ct_bad_index : u64;
  ct_instantiate : u64;
  ct_memory : u64;
  ct_not_loaded : u64;
  ct_quarantined : u64
}.

Definition counts_zero : PolicyFailureCounts := mkPolicyFailureCounts u64_0 u64_0 u64_0 u64_0 u64_0 u64_0 u64_0 u64_0.

Definition bump_u64 (n : u64) : u64 := wrapping_add n u64_1.

Definition record_failure (f : PolicyFailure) (c : PolicyFailureCounts) : PolicyFailureCounts :=
  let 'mkPolicyFailureCounts a b d i n m l q := c in
  match f with
  | PfTrap _ => mkPolicyFailureCounts (bump_u64 a) b d i n m l q
  | PfFuelExhausted => mkPolicyFailureCounts a (bump_u64 b) d i n m l q
  | PfDeadline => mkPolicyFailureCounts a b (bump_u64 d) i n m l q
  | PfBadIndex _ _ => mkPolicyFailureCounts a b d (bump_u64 i) n m l q
  | PfInstantiate _ => mkPolicyFailureCounts a b d i (bump_u64 n) m l q
  | PfMemory _ => mkPolicyFailureCounts a b d i n (bump_u64 m) l q
  | PfNotLoaded => mkPolicyFailureCounts a b d i n m (bump_u64 l) q
  | PfQuarantined _ => mkPolicyFailureCounts a b d i n m l (bump_u64 q)
  end.

Definition counts_list (c : PolicyFailureCounts) : list u64 :=
  [ct_trap c; ct_fuel_exhausted c; ct_deadline c; ct_bad_index c; ct_instantiate c; ct_memory c; ct_not_loaded c; ct_quarantined c].

Definition counts_total (c : PolicyFailureCounts) : u64 := foldl wrapping_add u64_0 (counts_list c).

Definition for_reason (reason : string) (c : PolicyFailureCounts) : u64 :=
  if String.eqb reason "trap" then ct_trap c
  else if String.eqb reason "fuel_exhausted" then ct_fuel_exhausted c
  else if String.eqb reason "deadline" then ct_deadline c
  else if String.eqb reason "bad_index" then ct_bad_index c
  else if String.eqb reason "instantiate" then ct_instantiate c
  else if String.eqb reason "memory" then ct_memory c
  else if String.eqb reason "not_loaded" then ct_not_loaded c
  else if String.eqb reason "quarantined" then ct_quarantined c
  else u64_0.

(** [ws_registry] is the registry as [try_lock] finds it: none where there is
    none or it is locked. *)
Record WasmStrategy : Type := mkWasmStrategy {
  ws_engine : PolicyEngine;
  ws_registry : option WorkerRegistry;
  ws_counts : PolicyFailureCounts;
  ws_decided : u64;
  ws_declined : u64
}.

Definition WasmStrategy_new (e : PolicyEngine) (registry : option WorkerRegistry) : WasmStrategy :=
  mkWasmStrategy e registry counts_zero u64_0 u64_0.

Definition wasm_load (wasm : bytes) (s : WasmStrategy) : WasmStrategy * (PolicyError + ()) :=
  let '(e, r) := load wasm (ws_engine s) in
  (mkWasmStrategy e (ws_registry s) (ws_counts s) (ws_decided s) (ws_declined s), r).

Definition fall_back (f : PolicyFailure) (candidates : list WorkerId) (ctx : DecisionContext) (s : WasmStrategy)
    : WasmStrategy * option WorkerId :=
  (mkWasmStrategy (ws_engine s) (ws_registry s) (record_failure f (ws_counts s)) (ws_decided s) (ws_declined s),
   fifo_choose mkSimpleFifo candidates (dc_loads ctx)).

(** The reply to one decision, and the counters after it. *)
Definition wasm_choose_with (candidates : list WorkerId) (ctx : DecisionContext) (s : WasmStrategy)
    : WasmStrategy * option WorkerId :=
  match candidates with
  | [] => (s, None)
  | _ :: _ =>
      let encoded := enc_snapshot (build_snapshot candidates ctx (ws_registry s)) in
      let '(e, r) := decide_ encoded (length candidates) (ws_engine s) in
      let s := mkWasmStrategy e (ws_registry s) (ws_counts s) (ws_decided s) (ws_declined s) in
      match r with
      | inr (Chose idx) =>
          let s := mkWasmStrategy e (ws_registry s) (ws_counts s) (bump_u64 (ws_decided s)) (ws_declined s) in
          match candidates !! idx with
          | Some w => (s, Some w)
          | None => fall_back (PfBadIndex (as_i32 (Z.of_nat idx)) (length candidates)) candidates ctx s
          end
      | inr Declined =>
          (mkWasmStrategy e (ws_registry s) (ws_counts s) (ws_decided s) (bump_u64 (ws_declined s)),
           fifo_choose mkSimpleFifo candidates (dc_loads ctx))
      | inl f => fall_back f candidates ctx s
      end
  end.

#[export] Instance WasmStrategy_strategy : Strategy WasmStrategy := {
  choose _ candidates loads := fifo_choose mkSimpleFifo candidates loads;
  choose_with s candidates ctx := (wasm_choose_with candidates ctx s).2
}.

(** ** Reloading *)

Definition should_reload (last current : option Digest) : bool :=
  match last, current with
  | None, Some _ => true
  | Some prev, Some now => bool_decide (prev ≠ now)
  | _, None => false
  end.

Context `{Sha256}.

(** The watcher: the digest it saw last, and the strategy it reloads. *)
Record Reloader : Type := mkReloader { rl_last : option Digest; rl_strategy : WasmStrategy }.

(** What [std::fs::read] returned is the argument. *)
Definition digest_of (content : option bytes) : option (Digest * bytes) :=
  (λ b, (Digest_of b, b)) <$> content.

Definition spawn_reloader (content : option bytes) (s : WasmStrategy) : Reloader :=
  mkReloader (fst <$> digest_of content) s.

Definition reload_tick (content : option bytes) (r : Reloader) : Reloader :=
  match digest_of content with
  | None => r
  | Some (digest, b) =>
      if negb (should_reload (rl_last r) (Some digest)) then r
      else mkReloader (Some digest) (wasm_load b (rl_strategy r)).1
  end.

End engine.
