(* ===== verification/PolicyTheorems.v ===== *)
(** * brokkr-policy: theorems

    Whatever a module does, a placement gets a worker among its candidates and
    one counter moves; a module that keeps failing is soon called no more; a
    module that does not pass its checks never replaces the one that serves. *)

From stdpp Require Import prelude gmap strings pretty.
From Stdlib Require Import Lia Strings.Byte.
From S2P Require Import Prelude Machine Bytes Common Registry Scheduling Policy.

Local Open Scope N_scope.

Lemma and_then_inr {E A B} (m : E + A) (k : A → E + B) b : and_then m k = inr b ↔ ∃ a, m = inr a ∧ k a = inr b.
Proof. destruct m as [e|a]; simpl; [by split; [|intros (? & ? & _)]|]. split; [by eauto|by intros (? & [= <-] & ?)]. Qed.

Lemma and_then_inl {E A B} (m : E + A) (k : A → E + B) e :
  and_then m k = inl e ↔ m = inl e ∨ ∃ a, m = inr a ∧ k a = inl e.
Proof. destruct m as [e'|a]; simpl; naive_solver. Qed.

Lemma err_map_inl {E E' A} (f : E → E') (m : E + A) e' : err_map f m = inl e' ↔ ∃ e, m = inl e ∧ e' = f e.
Proof. destruct m as [e|a]; simpl; naive_solver. Qed.

Lemma fifo_choose_Some cands loads : cands ≠ [] → ∃ w, fifo_choose mkSimpleFifo cands loads = Some w ∧ w ∈ cands.
Proof.
  intros Hne. unfold fifo_choose. destruct (min_by _ cands) as [w|] eqn:Hw.
  - exists w. split; [done|by eapply min_by_elem].
  - by apply min_by_None in Hw.
Qed.

(** What a computation may fail with. *)
Definition fails_as {E A} (P : E → Prop) (m : E + A) : Prop := ∀ e, m = inl e → P e.

Lemma fails_then {E A B} (P : E → Prop) (m : E + A) (k : A → E + B) :
  fails_as P m → (∀ a, fails_as P (k a)) → fails_as P (and_then m k).
Proof. intros Hm Hk e. destruct m as [e'|a]; simpl; [intros [= ->]; by apply Hm|apply Hk]. Qed.

Lemma fails_map {E E' A} (P : E' → Prop) (f : E → E') (m : E + A) : (∀ e, P (f e)) → fails_as P (err_map f m).
Proof. intros HP e'. destruct m as [e|a]; simpl; [|done]. by intros [= <-]. Qed.

Lemma fails_inr {E A} (P : E → Prop) (a : A) : fails_as P (inr a).
Proof. by intros e. Qed.

Lemma fails_inl {E A} (P : E → Prop) e : P e → fails_as P (inl e : E + A).
Proof. by intros HP e' [= <-]. Qed.

Ltac fails_steps :=
  repeat first [apply fails_then; [|intros ?]|apply fails_map; intros ?; simpl; done].

#[local] Hint Resolve fails_inr : core.
#[local] Hint Extern 1 (fails_as _ (inl _)) => apply fails_inl : core.

Section policy.
Context `{Wasm, SnapshotCodec}.
Implicit Types (e : PolicyEngine) (s : WasmStrategy).

(** ** One call *)

Lemma interpret_chose raw n i : interpret raw n = inr (Chose i) → (i < n)%nat.
Proof.
  unfold interpret. destruct (raw =? DECLINE)%Z; [done|]. destruct (raw <? 0)%Z; [done|]. case_decide; [|done]. by intros [= <-].
Qed.

Lemma call_chose l pre run snapshot n i : call l pre run snapshot n = inr (Chose i) → (i < n)%nat.
Proof.
  unfold call. rewrite and_then_inr. intros (? & _ & Hc). repeat (apply and_then_inr in Hc as ([? ?] & _ & Hc) || apply and_then_inr in Hc as (? & _ & Hc)).
  by eapply interpret_chose.
Qed.

Lemma classify_counts err : counts_toward_quarantine (classify err) = true.
Proof. destruct err as [[]|? ?]; simpl; [done..|]. by repeat case_match. Qed.

(** Every failure of a call counts. *)
Lemma call_counts l pre run snapshot n : fails_as (λ f, counts_toward_quarantine f = true) (call l pre run snapshot n).
Proof.
  unfold call, new_store. fails_steps.
  - case_match; auto.
  - apply fails_map, classify_counts.
  - destruct a3 as [ptr mem]. fails_steps; [case_match; auto..|apply fails_map, classify_counts|].
    unfold interpret. repeat case_match; auto.
Qed.

Lemma decide_counts snapshot n e f :
  (decide_ snapshot n e).2 = inl f →
  counts_toward_quarantine f = true ∨ (decide_ snapshot n e).1 = e ∧ (policy_module e = None ∨ is_quarantined e = true).
Proof.
  unfold decide_. destruct (policy_module e) as [pre|]; [|by auto]. destruct (is_quarantined e); [by auto|].
  intros Hc. left. by eapply call_counts.
Qed.

Lemma decide_chose snapshot n e i : (decide_ snapshot n e).2 = inr (Chose i) → (i < n)%nat.
Proof.
  unfold decide_. destruct (policy_module e) as [pre|]; [|done]. destruct (is_quarantined e); [done|]. apply call_chose.
Qed.

(** ** The strategy keeps the contract *)

(** The reply and the counters, by what the engine answered. *)
Lemma wasm_choose_cases cands ctx s :
  cands ≠ [] →
  let d := decide_ (enc_snapshot (build_snapshot cands ctx (ws_registry s))) (length cands) (ws_engine s) in
  let s' := (wasm_choose_with cands ctx s).1 in
  let o := (wasm_choose_with cands ctx s).2 in
  ws_engine s' = d.1 ∧ ws_registry s' = ws_registry s ∧
  match d.2 with
  | inr (Chose i) => o = cands !! i ∧ is_Some o ∧ ws_decided s' = bump_u64 (ws_decided s) ∧
                     ws_declined s' = ws_declined s ∧ ws_counts s' = ws_counts s
  | inr Declined => o = fifo_choose mkSimpleFifo cands (dc_loads ctx) ∧ ws_decided s' = ws_decided s ∧
                    ws_declined s' = bump_u64 (ws_declined s) ∧ ws_counts s' = ws_counts s
  | inl f => o = fifo_choose mkSimpleFifo cands (dc_loads ctx) ∧ ws_decided s' = ws_decided s ∧
             ws_declined s' = ws_declined s ∧ ws_counts s' = record_failure f (ws_counts s)
  end.
Proof.
  intros Hne. destruct cands as [|c cands]; [done|]. set (cs := c :: cands) in *. cbv zeta.
  unfold wasm_choose_with. change (match cs with [] => _ | _ => ?x end) with x.
  destruct (decide_ _ (length cs) (ws_engine s)) as [e r] eqn:Hd. cbn [fst snd].
  destruct r as [f|[i|]]; [done| |done].
  assert (i < length cs)%nat as [w Hw]%lookup_lt_is_Some_2 by (eapply decide_chose; by rewrite Hd).
  rewrite Hw. cbn [fst snd ws_engine ws_registry ws_decided ws_declined ws_counts]. eauto 10.
Qed.

#[export] Instance WasmStrategy_spec : StrategySpec WasmStrategy.
Proof.
  split.
  - intros s cands ctx. split; [|by intros ->]. intros Hn. destruct cands as [|c cands]; [done|exfalso].
    destruct (wasm_choose_cases (c :: cands) ctx s) as (_ & _ & Hc); [done|]. cbn in Hn, Hc. rewrite Hn in Hc.
    destruct (fifo_choose_Some (c :: cands) (dc_loads ctx)) as (w & Hw & _); [done|]. cbn in Hw.
    destruct (decide_ _ _ _).2 as [f|[i|]]; destruct Hc as [Hc Hc']; [congruence| |congruence].
    destruct Hc' as [[? ?] _]. done.
  - intros s cands ctx w Hw. destruct cands as [|c cands]; [done|].
    destruct (wasm_choose_cases (c :: cands) ctx s) as (_ & _ & Hc); [done|]. cbn in Hw, Hc. rewrite Hw in Hc.
    destruct (fifo_choose_Some (c :: cands) (dc_loads ctx)) as (w' & Hw' & Hin); [done|]. cbn in Hw'.
    destruct (decide_ _ _ _).2 as [f|[i|]]; destruct Hc as [Hc _]; [congruence| |congruence].
    symmetry in Hc. by eapply list_elem_of_lookup_2.
Qed.

Lemma record_for_reason f c reason :
  for_reason reason (record_failure f c) =
    if String.eqb reason (failure_reason f) then bump_u64 (for_reason reason c) else for_reason reason c.
Proof.
  destruct c as [a b d i n m l q]. unfold for_reason.
  destruct f; cbn [record_failure failure_reason ct_trap ct_fuel_exhausted ct_deadline ct_bad_index ct_instantiate ct_memory ct_not_loaded ct_quarantined];
    repeat match goal with |- context [String.eqb reason ?x] => destruct (String.eqb_spec reason x) as [->|?]; [done|] end; done.
Qed.

(** ** Quarantine *)

(** A run of decisions, and what each of them came to. *)
Fixpoint decisions (reqs : list (bytes * nat)) e : PolicyEngine * list (PolicyFailure + Decision) :=
  match reqs with
  | [] => (e, [])
  | (snapshot, n) :: reqs =>
      let '(e1, r) := decide_ snapshot n e in
      let '(e2, rs) := decisions reqs e1 in
      (e2, r :: rs)
  end.

Definition failed (r : PolicyFailure + Decision) : Prop := ∃ f, r = inl f.

(** What is left before a quarantine. *)
Definition strikes_left e : N := quarantine_threshold (limits e) - consecutive_failures e.

Lemma failed_decision snapshot n e f :
  quarantine_threshold (limits e) < 2 ^ 32 → (decide_ snapshot n e).2 = inl f →
  let e' := (decide_ snapshot n e).1 in
  limits e' = limits e ∧ policy_module e' = policy_module e ∧
  N.of_nat (runs e') + strikes_left e' = N.of_nat (runs e) + strikes_left e ∧
  (is_Some (policy_module e) → strikes_left e' = strikes_left e - 1).
Proof.
  intros Hthr Hf. unfold strikes_left. unfold decide_ in *. destruct (policy_module e) as [pre|] eqn:Hm.
  2:{ cbn. rewrite Hm. split_and!; [done..|]. by intros [? ?]. }
  destruct (is_quarantined e) eqn:Hq.
  - cbn. rewrite Hm. unfold is_quarantined in Hq. apply N.leb_le in Hq. split_and!; [done..|]. lia.
  - cbn [fst snd limits policy_module consecutive_failures runs] in *. rewrite Hf.
    rewrite (call_counts _ _ _ _ _ _ Hf). unfold is_quarantined in Hq. apply N.leb_gt in Hq.
    rewrite N.mod_small by lia. split_and!; [done..|lia|lia].
Qed.

Lemma failed_run reqs e :
  quarantine_threshold (limits e) < 2 ^ 32 → Forall failed (decisions reqs e).2 →
  let e' := (decisions reqs e).1 in
  limits e' = limits e ∧ policy_module e' = policy_module e ∧
  N.of_nat (runs e') + strikes_left e' = N.of_nat (runs e) + strikes_left e ∧
  (is_Some (policy_module e) → strikes_left e' = strikes_left e - N.of_nat (length reqs)).
Proof.
  intros Hthr. revert e Hthr. induction reqs as [|[b n] reqs IH]; intros e Hthr; cbn [decisions].
  { intros _. cbn. split_and!; [done..|lia]. }
  pose proof (failed_decision b n e) as Hd. destruct (decide_ b n e) as [e1 r]. cbn [fst snd] in Hd.
  destruct (decisions reqs e1) as [e2 rs] eqn:Hrs. cbn [fst snd]. intros [Hr Hall]%Forall_cons.
  destruct Hr as [f ->]. destruct (Hd f Hthr eq_refl) as (Hl1 & Hm1 & Hc1 & Hs1).
  specialize (IH e1). rewrite Hl1, Hrs in IH. destruct (IH Hthr Hall) as (Hl2 & Hm2 & Hc2 & Hs2). cbn [fst snd] in *.
  split_and!; [congruence|congruence|lia|]. intros Hsome. rewrite Hm1 in Hs2. specialize (Hs1 Hsome). specialize (Hs2 Hsome). simpl. lia.
Qed.

(** ** Reloading *)

Lemma load_spec wasm e :
  match load wasm e with
  | (e', inl _) => limits e' = limits e ∧ policy_module e' = policy_module e ∧
                   consecutive_failures e' = consecutive_failures e
  | (e', inr _) => limits e' = limits e ∧ consecutive_failures e' = 0 ∧
      ∃ m pre, module_new wasm = inr m ∧ instantiate_pre m = inr pre ∧ policy_module e' = Some pre ∧
        check_exports_and_abi (limits e) pre (runs e) = inr () ∧
        ∃ d, call (limits e) pre (runs e + 1) (enc_snapshot smoke_message) 2 = inr d
  end.
Proof.
  unfold load. destruct (module_new wasm) as [?|m] eqn:Hm; [done|]. cbn [err_map].
  destruct (instantiate_pre m) as [?|pre] eqn:Hp; [done|]. cbn [err_map].
  destruct (check_exports_and_abi _ pre _) as [?|[]] eqn:Hc; [done|]. unfold smoke_test.
  destruct (call _ pre _ _ 2) as [?|d] eqn:Hs; [done|]. split; [done|]. split; [done|]. by eauto 10.
Qed.

(** The module that passes the version check says so itself. *)
Lemma check_version l pre run :
  check_exports_and_abi l pre run = inr () →
  ∃ i v, instantiate pre l run = inr i ∧ has_memory i = true ∧ version_fn i = inr (inr v) ∧ Z.to_N v = POLICY_ABI_VERSION.
Proof.
  unfold check_exports_and_abi. rewrite and_then_inr. intros (_ & _ & Hc).
  apply and_then_inr in Hc as (i & Hi & Hc). destruct (instantiate pre l run) as [?|i']; [done|]. injection Hi as ->.
  apply and_then_inr in Hc as (? & Hm & Hc). apply and_then_inr in Hc as (_ & _ & Hc). apply and_then_inr in Hc as (_ & _ & Hc).
  apply and_then_inr in Hc as (r & Hr & Hc). apply and_then_inr in Hc as (v & Hv & Hc).
  destruct (version_fn i) as [?|r'] eqn:Hf; [done|]. injection Hr as ->. destruct r as [?|v']; [done|]. injection Hv as ->.
  exists i, v. split; [done|]. split; [by destruct (has_memory i)|]. split; [done|].
  destruct (Z.ltb_spec v 0); [done|]. by destruct (N.eqb_spec (Z.to_N v) POLICY_ABI_VERSION).
Qed.

Context `{Sha256}.

(** A poll that finds nothing new does nothing. *)
Lemma reload_tick_same b r : rl_last r = Some (Digest_of b) → reload_tick (Some b) r = r.
Proof. intros Hl. unfold reload_tick. cbn. rewrite Hl. unfold should_reload. by rewrite bool_decide_eq_false_2 by (intros []; done). Qed.

(** The watcher takes for loaded what it finds in the file when it starts.  An
    edit made after the module was read and before that is never loaded, however
    often the file is polled. *)
Lemma reload_misses_early_edit b s ticks :
  rl_strategy (foldl (λ r c, reload_tick c r) (spawn_reloader (Some b) s) (replicate ticks (Some b))) = s.
Proof.
  enough (foldl (λ r c, reload_tick c r) (spawn_reloader (Some b) s) (replicate ticks (Some b)) = spawn_reloader (Some b) s) as -> by done.
  induction ticks as [|ticks IH]; [done|]. cbn [replicate foldl]. by rewrite reload_tick_same.
Qed.

(** A changed file is loaded at the next poll, once. *)
Lemma reload_loads_change b r ticks :
  rl_last r ≠ Some (Digest_of b) →
  rl_strategy (foldl (λ r c, reload_tick c r) r (replicate (S ticks) (Some b))) = (wasm_load b (rl_strategy r)).1.
Proof.
  intros Hl. cbn [replicate foldl].
  assert (reload_tick (Some b) r = mkReloader (Some (Digest_of b)) (wasm_load b (rl_strategy r)).1) as ->.
  { unfold reload_tick. cbn. destruct (rl_last r) as [d|]; [|done]. cbn. rewrite bool_decide_eq_true_2; [done|]. congruence. }
  induction ticks as [|ticks IH]; [done|]. cbn [replicate foldl]. by rewrite reload_tick_same.
Qed.

End policy.

(** C40.  Whatever a scheduling policy does, a placement with candidates gets one
    of them, and exactly one counter moves.  Where the engine reports a choice,
    the reply is the candidate of that index and a decision is counted; where the
    policy declines, it is the built-in strategy's and a decline is counted; where
    it fails in any way, it is the built-in strategy's, and the counter of that
    reason and no other goes up by one. *)
Theorem policy_decision_correct `{Wasm, SnapshotCodec} cands ctx s :
  cands ≠ [] →
  let s' := (wasm_choose_with cands ctx s).1 in
  let fifo := fifo_choose mkSimpleFifo cands (dc_loads ctx) in
  ∃ w, (wasm_choose_with cands ctx s).2 = Some w ∧ w ∈ cands ∧
  match (decide_ (enc_snapshot (build_snapshot cands ctx (ws_registry s))) (length cands) (ws_engine s)).2 with
  | inr (Chose i) => cands !! i = Some w ∧ ws_decided s' = bump_u64 (ws_decided s) ∧
                     ws_declined s' = ws_declined s ∧ ws_counts s' = ws_counts s
  | inr Declined => fifo = Some w ∧ ws_decided s' = ws_decided s ∧
                    ws_declined s' = bump_u64 (ws_declined s) ∧ ws_counts s' = ws_counts s
  | inl f => fifo = Some w ∧ ws_decided s' = ws_decided s ∧ ws_declined s' = ws_declined s ∧
             ∀ reason, for_reason reason (ws_counts s') =
               if String.eqb reason (failure_reason f) then bump_u64 (for_reason reason (ws_counts s))
               else for_reason reason (ws_counts s)
  end.
Proof.
  intros Hne s' fifo. destruct (wasm_choose_cases cands ctx s Hne) as (_ & _ & Hc).
  destruct (wasm_choose_with cands ctx s).2 as [w|] eqn:Hw.
  2:{ by pose proof (proj1 (choose_with_None s cands ctx) Hw). }
  exists w. split; [done|]. split; [exact (choose_with_Some s cands ctx w Hw)|].
  destruct (decide_ _ _ _).2 as [f|[i|]]; subst s' fifo.
  - destruct Hc as (<- & ? & ? & ->). split_and!; [done..|]. apply record_for_reason.
  - by destruct Hc as (<- & _ & ? & ? & ?).
  - by destruct Hc as (<- & ? & ? & ?).
Qed.

(** A policy that keeps failing is soon called no more.  While every decision
    fails, the module runs at most as often as there are failures left to the
    quarantine threshold; after as many decisions it is quarantined, and every
    further decision is refused without running it, until a module is loaded.
    A module is loaded only if it compiles, exports what is needed, speaks the
    right version of the interface and makes a valid trial decision; then the
    count starts again, and otherwise the module that served goes on serving. *)
Theorem quarantine_bounds_guest_calls `{Wasm, SnapshotCodec} reqs e :
  quarantine_threshold (limits e) < 2 ^ 32 → is_Some (policy_module e) → Forall failed (decisions reqs e).2 →
  let e' := (decisions reqs e).1 in
  N.of_nat (runs e') ≤ N.of_nat (runs e) + strikes_left e ∧
  (strikes_left e ≤ N.of_nat (length reqs) →
     ∀ snapshot n, decide_ snapshot n e' = (e', inl (PfQuarantined (consecutive_failures e')))) ∧
  ∀ wasm, match load wasm e' with
          | (e2, inl _) => policy_module e2 = policy_module e' ∧ consecutive_failures e2 = consecutive_failures e'
          | (e2, inr _) => strikes_left e2 = quarantine_threshold (limits e') ∧
              ∃ m pre i v, module_new wasm = inr m ∧ instantiate_pre m = inr pre ∧ policy_module e2 = Some pre ∧
                instantiate pre (limits e') (runs e') = inr i ∧ version_fn i = inr (inr v) ∧ Z.to_N v = POLICY_ABI_VERSION ∧
                ∃ d, call (limits e') pre (runs e' + 1) (enc_snapshot smoke_message) 2 = inr d
          end.
Proof.
  intros Hthr Hm Hall e'. destruct (failed_run reqs e Hthr Hall) as (Hl & Hm' & Hc & Hs). fold e' in Hl, Hm', Hc, Hs.
  split; [lia|]. split.
  - intros Hlong snapshot n. specialize (Hs Hm). unfold decide_. rewrite Hm'. destruct Hm as [pre ->].
    unfold is_quarantined. destruct (N.leb_spec (quarantine_threshold (limits e')) (consecutive_failures e')); [done|].
    unfold strikes_left in *. rewrite Hl in *. lia.
  - intros wasm. pose proof (load_spec wasm e') as Hload. destruct (load wasm e') as [e2 [?|[]]].
    + by destruct Hload as (_ & ? & ?).
    + destruct Hload as (Hl2 & Hz & m & pre & Hmn & Hp & Hpm & Hv & Hd). unfold strikes_left. rewrite Hz, Hl2. split; [lia|].
      destruct (check_version _ _ _ Hv) as (i & v & ? & _ & ? & ?). by exists m, pre, i, v.
Qed.

(** ** A module *)

(** A guest whose byte says how it behaves: it answers with that index, declines,
    or traps. *)
Definition guest (b : Byte.byte) : GuestInstance :=
  mkInstance true (inr (inr 1%Z)) (inr (λ len, inr (0%Z, Some (replicate 64 x00))))
    (inr (λ ptr len mem, match b with
                         | x00 => inr 0%Z
                         | x01 => inr 1%Z
                         | xfe => inl (WasmTrapped (OtherTrap "unreachable"))
                         | _ => inr DECLINE
                         end)).

(** The module [xfd] passes its checks and traps from its third run on. *)
#[local] Instance demo_wasm : Wasm := {|
  Module := Byte.byte;
  InstancePre := Byte.byte;
  module_new b := match b with [x] => inr x | _ => inl "not a module" end;
  instantiate_pre m := inr m;
  set_fuel _ := inr ();
  instantiate m _ run := inr (guest (if decide (m = xfd ∧ (2 ≤ run)%nat) then xfe else m));
  wasm_error_text _ := "error"
|}.
#[local] Instance demo_snapshot_codec : SnapshotCodec := λ _, [x2a].

Definition demo_limits : PolicyLimits := mkPolicyLimits 1000000 5 2.
Definition demo_engine (b : Byte.byte) : PolicyEngine := (load [b] (PolicyEngine_new demo_limits)).1.

Definition cand_a : WorkerId := Ident_mk "a" I.
Definition cand_b : WorkerId := Ident_mk "b" I.
Definition demo_ctx : DecisionContext :=
  mkDecisionContext (λ w, if decide (w = cand_a) then 0 else 3) NoLocality
    (mkJobFacts (Ident_mk "tenant" I) (mkDigest zeros64 0) None []).

Lemma policy_decision_correct_witness :
  (decide_ (enc_snapshot (build_snapshot [cand_a; cand_b] demo_ctx None)) 2 (demo_engine x01)).2 = inr (Chose 1) ∧
  ∃ w, (wasm_choose_with [cand_a; cand_b] demo_ctx (WasmStrategy_new (demo_engine x01) None)).2 = Some w ∧ w ∈ [cand_a; cand_b].
Proof.
  split; [vm_compute; reflexivity|].
  destruct (policy_decision_correct [cand_a; cand_b] demo_ctx (WasmStrategy_new (demo_engine x01) None) ltac:(done)) as (w & ? & ? & _).
  by exists w.
Defined.

Lemma quarantine_bounds_guest_calls_witness :
  let e := demo_engine xfd in
  let e' := (decisions [([x2a], 2%nat); ([x2a], 2%nat); ([x2a], 2%nat)] e).1 in
  runs e = 2%nat ∧ N.of_nat (runs e') ≤ 4 ∧
  ∀ snapshot n, decide_ snapshot n e' = (e', inl (PfQuarantined (consecutive_failures e'))).
Proof.
  pose proof (quarantine_bounds_guest_calls [([x2a], 2%nat); ([x2a], 2%nat); ([x2a], 2%nat)] (demo_engine xfd)) as Hq.
  destruct Hq as (Hr & Hz & _).
  - vm_compute. reflexivity.
  - vm_compute. by eexists.
  - vm_compute. repeat constructor; by eexists.
  - split; [vm_compute; reflexivity|]. split; [exact Hr|]. apply Hz. vm_compute. done.
Defined.
