(* ===== verification/ClusterView.v ===== *)
(** * brokkr-control: the view of the cluster

    Models [crates/brokkr-control/src/views/{raft,worker,policy,cas}.rs] (what a
    node reports of itself) and [cluster/{aggregate,events,probe,mod}.rs]: the
    merge of the reports into one snapshot, the leader it names, the events
    between two snapshots, and a round of the poller.  How peers are reached is a
    parameter; times are what the clocks say. *)

From stdpp Require Import prelude gmap strings sorting.
From Stdlib Require Import Lia.
From S2P Require Import Prelude Machine Bytes Common Redb Cas RaftTypes RaftNode RaftDriver Registry Scheduling Policy.

Local Open Scope N_scope.

(** ** What a node reports *)

Inductive RaftRole : Type := RoleLeader | RoleFollower | RoleUnknown | RoleStandalone.

#[export] Instance RaftRole_eq_dec : EqDecision RaftRole.
Proof. solve_decision. Defined.

Record NodeView : Type := mkNodeView {
  nv_node_id : string;
  nv_advertise_addr : string;
  nv_role : RaftRole;
  nv_term : u64;
  nv_commit_index : u64;
  nv_last_applied : u64;
  nv_reachable : bool;
  nv_last_seen_secs : u64
}.

Definition node_view_from_status (node_id advertise_addr : string) (status : DriverStatus) : NodeView :=
  let role := if ds_is_leader status then RoleLeader
              else if ds_leader status is Some _ then RoleFollower
              else RoleUnknown in
  mkNodeView node_id advertise_addr role (ds_term status) (ds_commit_index status) (ds_last_applied status) true u64_0.

Definition standalone_node_view (node_id advertise_addr : string) : NodeView :=
  mkNodeView node_id advertise_addr RoleStandalone u64_0 u64_0 u64_0 true u64_0.

Definition unreachable_node_view (node_id advertise_addr : string) : NodeView :=
  mkNodeView node_id advertise_addr RoleUnknown u64_0 u64_0 u64_0 false u64_0.

Record WorkerView : Type := mkWorkerView {
  wv_worker_id : string;
  wv_hostname : string;
  wv_labels : gmap string string;
  wv_inflight : N;
  wv_last_seen_secs : N;
  wv_stale : bool;
  wv_owning_node : string
}.

Definition worker_le (a b : WorkerView) : Prop := String.le (wv_worker_id a) (wv_worker_id b).
#[export] Instance worker_le_dec : RelDecision worker_le.
Proof. intros a b. unfold worker_le. apply _. Defined.

Definition worker_views (reg : WorkerRegistry) (now : Instant) (owning_node : string) (inflight : WorkerId → N)
    : list WorkerView :=
  merge_sort worker_le
    ((λ p : WorkerId * WorkerRecord,
        mkWorkerView (id_str p.1) (hostname (capabilities p.2)) (labels (capabilities p.2))
          (if inflight p.1 <? 2 ^ 32 then inflight p.1 else 2 ^ 32 - 1)
          (duration_since now (last_seen p.2) / 1000000000)
          (is_stale now (reg_policy reg) p.2) owning_node) <$> map_to_list (reg_workers reg)).

Definition REASONS : list string :=
  ["trap"; "fuel_exhausted"; "deadline"; "bad_index"; "instantiate"; "memory"; "not_loaded"; "quarantined"].

Record PolicyView : Type := mkPolicyView {
  pv_loaded : bool;
  pv_quarantined : bool;
  pv_decided : u64;
  pv_declined : u64;
  pv_failures_by_reason : gmap string u64;
  pv_owning_node : string
}.

Definition policy_view `{Wasm} (strategy : option WasmStrategy) (owning_node : string) : PolicyView :=
  match strategy with
  | None => mkPolicyView false false u64_0 u64_0 ∅ owning_node
  | Some s =>
      mkPolicyView true (0 <? for_reason "quarantined" (ws_counts s)) (ws_decided s) (ws_declined s)
        (list_to_map ((λ r, (r, for_reason r (ws_counts s))) <$> REASONS)) owning_node
  end.

Record CasStatsView : Type := mkCasStatsView { cv_objects : u64; cv_bytes : u64; cv_owning_node : string }.

Definition cas_stats_view (st : CasStats) (owning_node : string) : CasStatsView :=
  mkCasStatsView (objects st) (cas_bytes st) owning_node.

Record NodeState : Type := mkNodeState {
  nd_node : NodeView;
  nd_workers : list WorkerView;
  nd_policy : PolicyView;
  nd_cas : CasStatsView;
  nd_jobs : list JobSummary
}.

(** ** Asking the peers *)

Record PeerAddr : Type := mkPeerAddr { pa_node_id : string; pa_advertise_addr : string }.

Inductive PeerOutcome : Type :=
| Answered (st : NodeState)
| Unreachable (node_id advertise_addr : string).

(** The answer of a peer within the deadline, if it gave one. *)
Definition poll_peers (probe : string → option NodeState) (peers : list PeerAddr) : list PeerOutcome :=
  (λ p, match probe (pa_advertise_addr p) with
        | Some st => Answered st
        | None => Unreachable (pa_node_id p) (pa_advertise_addr p)
        end) <$> peers.

(** ** The snapshot *)

Record ClusterSnapshot : Type := mkClusterSnapshot {
  cs_nodes : list NodeView;
  cs_workers : list WorkerView;
  cs_policies : list PolicyView;
  cs_cas : list CasStatsView;
  cs_jobs : list JobSummary;
  cs_leader_id : option string;
  cs_degraded : bool;
  cs_as_of : option N
}.

Definition ClusterSnapshot_default : ClusterSnapshot := mkClusterSnapshot [] [] [] [] [] None false None.

Definition node_le (a b : NodeView) : Prop := String.le (nv_node_id a) (nv_node_id b).
Definition policy_le (a b : PolicyView) : Prop := String.le (pv_owning_node a) (pv_owning_node b).
Definition cas_le (a b : CasStatsView) : Prop := String.le (cv_owning_node a) (cv_owning_node b).

(** The newest first, then by id. *)
Definition job_le (a b : JobSummary) : Prop :=
  u64_val (js_completed_at_unix_ms b) < js_completed_at_unix_ms a ∨
  u64_val (js_completed_at_unix_ms b) = js_completed_at_unix_ms a ∧ String.le (js_job_id a) (js_job_id b).

#[export] Instance node_le_dec : RelDecision node_le.
Proof. intros a b. unfold node_le. apply _. Defined.
#[export] Instance policy_le_dec : RelDecision policy_le.
Proof. intros a b. unfold policy_le. apply _. Defined.
#[export] Instance cas_le_dec : RelDecision cas_le.
Proof. intros a b. unfold cas_le. apply _. Defined.
#[export] Instance job_le_dec : RelDecision job_le.
Proof. intros a b. unfold job_le. apply _. Defined.

Definition highest_term (nodes : list NodeView) : N :=
  foldr N.max 0 ((λ n, u64_val (nv_term n)) <$> filter (λ n, nv_reachable n = true) nodes).

Definition claimants (nodes : list NodeView) : list NodeView :=
  filter (λ n, nv_reachable n = true ∧ nv_role n = RoleLeader ∧ u64_val (nv_term n) = highest_term nodes) nodes.

Definition elect (nodes : list NodeView) : option string :=
  match claimants nodes with
  | [only] => Some (nv_node_id only)
  | _ :: _ :: _ => None
  | [] => None
  end.

(** What is collected from the replies, before it is sorted. *)
Record Gathered : Type := mkGathered {
  ga_nodes : list NodeView;
  ga_workers : list WorkerView;
  ga_policies : list PolicyView;
  ga_cas : list CasStatsView;
  ga_jobs : list JobSummary;
  ga_any_silent : bool
}.

Definition gather_one (g : Gathered) (o : PeerOutcome) : Gathered :=
  match o with
  | Answered st =>
      mkGathered (ga_nodes g ++ [nd_node st]) (ga_workers g ++ nd_workers st) (ga_policies g ++ [nd_policy st])
        (ga_cas g ++ [nd_cas st]) (ga_jobs g ++ nd_jobs st) (ga_any_silent g)
  | Unreachable id addr =>
      mkGathered (ga_nodes g ++ [unreachable_node_view id addr]) (ga_workers g) (ga_policies g) (ga_cas g) (ga_jobs g) true
  end.

Definition gather (local : NodeState) (peers : list PeerOutcome) : Gathered :=
  foldl gather_one (mkGathered [nd_node local] (nd_workers local) [nd_policy local] [nd_cas local] (nd_jobs local) false) peers.

Definition merge_states (local : NodeState) (peers : list PeerOutcome) (as_of : N) : ClusterSnapshot :=
  let g := gather local peers in
  let nodes := merge_sort node_le (ga_nodes g) in
  let leader := elect nodes in
  let standalone := forallb (λ n, bool_decide (nv_role n = RoleStandalone)) (filter (λ n, nv_reachable n = true) nodes) in
  mkClusterSnapshot nodes (merge_sort worker_le (ga_workers g)) (merge_sort policy_le (ga_policies g))
    (merge_sort cas_le (ga_cas g)) (merge_sort job_le (ga_jobs g)) leader
    (ga_any_silent g || negb standalone && bool_decide (leader = None)) (Some as_of).

(** ** Events *)

Inductive ClusterEvent : Type :=
| EvSnapshot (s : ClusterSnapshot)
| NodeUnreachable (node_id : string)
| NodeRecovered (node_id : string)
| WorkerAdded (worker_id owning_node : string)
| WorkerRemoved (worker_id owning_node : string)
| WorkerStale (worker_id owning_node : string)
| PolicyQuarantined (owning_node : string)
| PolicyRecovered (owning_node : string)
| LeaderChanged (from to : option string).

(** [iter().find] by a key. *)
Definition find_by {A} (key : A → string) (k : string) (l : list A) : option A :=
  snd <$> list_find (λ a, key a = k) l.

Definition node_events (prev : ClusterSnapshot) (n : NodeView) : list ClusterEvent :=
  match find_by nv_node_id (nv_node_id n) (cs_nodes prev) with
  | Some p =>
      if nv_reachable p && negb (nv_reachable n) then [NodeUnreachable (nv_node_id n)]
      else if negb (nv_reachable p) && nv_reachable n then [NodeRecovered (nv_node_id n)]
      else []
  | None => []
  end.

Definition worker_events (prev : ClusterSnapshot) (w : WorkerView) : list ClusterEvent :=
  match find_by wv_worker_id (wv_worker_id w) (cs_workers prev) with
  | None => [WorkerAdded (wv_worker_id w) (wv_owning_node w)]
  | Some p => if negb (wv_stale p) && wv_stale w then [WorkerStale (wv_worker_id w) (wv_owning_node w)] else []
  end.

Definition removed_events (next : ClusterSnapshot) (w : WorkerView) : list ClusterEvent :=
  if existsb (λ n, String.eqb (wv_worker_id n) (wv_worker_id w)) (cs_workers next) then []
  else [WorkerRemoved (wv_worker_id w) (wv_owning_node w)].

Definition policy_events (prev : ClusterSnapshot) (p : PolicyView) : list ClusterEvent :=
  match find_by pv_owning_node (pv_owning_node p) (cs_policies prev) with
  | Some before =>
      if negb (pv_quarantined before) && pv_quarantined p then [PolicyQuarantined (pv_owning_node p)]
      else if pv_quarantined before && negb (pv_quarantined p) then [PolicyRecovered (pv_owning_node p)]
      else []
  | None => []
  end.

Definition diff (prev next : ClusterSnapshot) : list ClusterEvent :=
  flat_map (node_events prev) (cs_nodes next) ++
  flat_map (worker_events prev) (cs_workers next) ++
  flat_map (removed_events next) (cs_workers prev) ++
  flat_map (policy_events prev) (cs_policies next) ++
  (if decide (cs_leader_id prev = cs_leader_id next) then [] else [LeaderChanged (cs_leader_id prev) (cs_leader_id next)]).

(** ** The poller *)

(** The published snapshot, the time since the store was measured, and the events
    sent so far. *)
Record Poller : Type := mkPoller { po_shared : ClusterSnapshot; po_since_cas : N; po_events : list ClusterEvent }.

Definition poll_round (interval cas_interval : N) (local_state : bool → NodeState) (peers : list PeerAddr)
    (probe : string → option NodeState) (now : N) (p : Poller) : Poller :=
  let period := if interval =? 0 then 2 * 1000000000 else interval in
  let refresh_cas := cas_interval <=? po_since_cas p in
  let since_cas := if refresh_cas then 0 else N.min (po_since_cas p + period) DURATION_MAX in
  let snapshot := merge_states (local_state refresh_cas) (poll_peers probe peers) now in
  mkPoller snapshot since_cas (po_events p ++ diff (po_shared p) snapshot).
