(* ===== verification/ClusterTheorems.v ===== *)
(** * brokkr-control: theorems about the view of the cluster

    The leader a snapshot names is the leader of its term; the snapshot does not
    depend on the order of the replies; the events between two snapshots carry a
    client from the one to the other. *)

From stdpp Require Import prelude functions gmap strings sorting.
From Stdlib Require Import Lia.
From S2P Require Import Prelude Machine Bytes Common Redb Cas RaftTypes RaftProtocol RaftAgreement RaftRng RaftStore RaftStorage RaftConfig RaftNode RaftNodeSpec RaftLogRel RaftSim RaftDriver RaftCluster RaftSafety RaftDemo RaftConsensus Registry Scheduling Policy PolicyTheorems ClusterView.

Local Open Scope N_scope.

(** ** Lists with distinct keys *)

Lemma find_by_Some {A} (key : A → string) k l a :
  NoDup (key <$> l) → find_by key k l = Some a ↔ a ∈ l ∧ key a = k.
Proof.
  intros Hnd. unfold find_by. rewrite fmap_Some. split.
  - intros ([i b] & (Hi & Hk & _)%list_find_Some & ->). split; [by eapply list_elem_of_lookup_2|done].
  - intros [Hin Hk]. destruct (list_find (λ a, key a = k) l) as [[i b]|] eqn:Hf.
    + exists (i, b). split; [done|]. apply list_find_Some in Hf as (Hi & Hb & _). simpl.
      apply list_elem_of_lookup in Hin as [j Hj].
      assert (i = j) as ->.
      { eapply (NoDup_lookup _ _ _ (key a) Hnd); rewrite list_lookup_fmap; [rewrite Hi; simpl; congruence|by rewrite Hj]. }
      congruence.
    + apply list_find_None in Hf. rewrite Forall_forall in Hf. by apply Hf in Hin.
Qed.

Lemma find_by_None {A} (key : A → string) k l : find_by key k l = None ↔ k ∉ key <$> l.
Proof.
  unfold find_by. rewrite fmap_None, list_find_None, Forall_forall, list_elem_of_fmap. split.
  - intros Hall (a & -> & Hin). by apply (Hall a).
  - intros Hn a Hin Hk. apply Hn. by exists a.
Qed.

Lemma keys_inj {A} (key : A → string) l a b : NoDup (key <$> l) → a ∈ l → b ∈ l → key a = key b → a = b.
Proof.
  intros Hnd Ha Hb Hk. assert (find_by key (key a) l = Some a) as H1 by by apply find_by_Some.
  assert (find_by key (key a) l = Some b) as H2 by by apply find_by_Some. congruence.
Qed.

(** ** The leader *)

Lemma highest_term_ge nodes v : v ∈ nodes → nv_reachable v = true → u64_val (nv_term v) ≤ highest_term nodes.
Proof.
  intros Hv Hr. unfold highest_term. assert (v ∈ filter (λ n, nv_reachable n = true) nodes) as Hin by by apply list_elem_of_filter.
  induction (filter _ nodes) as [|w l IH]; [by apply elem_of_nil in Hin|]. rewrite fmap_cons. cbn [foldr]. apply elem_of_cons in Hin as [->|Hin]; [lia|].
  specialize (IH Hin). lia.
Qed.

Lemma max_reached (l : list N) : l ≠ [] → foldr N.max 0 l ∈ l.
Proof.
  induction l as [|x l IH]; [done|]. intros _. cbn [foldr]. destruct l as [|y l]; [simpl; rewrite N.max_0_r; left|].
  destruct (N.max_spec x (foldr N.max 0 (y :: l))) as [[_ ->]|[_ ->]]; [right; by apply IH|left].
Qed.

Lemma highest_term_reached nodes v :
  v ∈ nodes → nv_reachable v = true → ∃ w, w ∈ nodes ∧ nv_reachable w = true ∧ u64_val (nv_term w) = highest_term nodes.
Proof.
  intros Hv Hr. pose proof (max_reached ((λ n, u64_val (nv_term n)) <$> filter (λ n, nv_reachable n = true) nodes)) as Hm.
  fold (highest_term nodes) in Hm.
  apply list_elem_of_fmap in Hm as (w & Hw & [Hrw Hin]%list_elem_of_filter); [by exists w|].
  intros E%fmap_nil_inv. assert (v ∈ filter (λ n, nv_reachable n = true) nodes) as Hin by by apply list_elem_of_filter.
  rewrite E in Hin. by apply elem_of_nil in Hin.
Qed.

Lemma elem_of_claimants nodes v :
  v ∈ claimants nodes ↔ v ∈ nodes ∧ nv_reachable v = true ∧ nv_role v = RoleLeader ∧ u64_val (nv_term v) = highest_term nodes.
Proof. unfold claimants. rewrite list_elem_of_filter. tauto. Qed.

Lemma elect_Some nodes x : elect nodes = Some x → ∃ v, v ∈ claimants nodes ∧ nv_node_id v = x.
Proof.
  unfold elect. destruct (claimants nodes) as [|v [|w l]]; [done| |done]. intros [= <-]. exists v. split; [left|done].
Qed.

(** With one claim at most, no leader means no claim. *)
Lemma elect_None nodes :
  NoDup (nv_node_id <$> nodes) →
  (∀ v w, v ∈ claimants nodes → w ∈ claimants nodes → nv_node_id v = nv_node_id w) →
  elect nodes = None → claimants nodes = [].
Proof.
  intros Hnd Hone. unfold elect. pose proof (NoDup_filter (λ n, nv_reachable n = true ∧ nv_role n = RoleLeader ∧ u64_val (nv_term n) = highest_term nodes) nodes) as Hf.
  fold (claimants nodes) in Hf. assert (∀ v, v ∈ claimants nodes → v ∈ nodes) as Hsub by (intros v; by rewrite elem_of_claimants; intros [? _]).
  specialize (Hf (NoDup_fmap_1 _ _ Hnd)).
  destruct (claimants nodes) as [|v [|w l]]; [done|done|]. exfalso.
  assert (v = w) as ->. { eapply (keys_inj nv_node_id nodes); [done|apply Hsub; left|apply Hsub; right; left|apply Hone; [left|right; left]]. }
  apply NoDup_cons in Hf as [Hf _]. apply Hf. left.
Qed.

Definition outcome_node (o : PeerOutcome) : NodeView :=
  match o with Answered st => nd_node st | Unreachable id a => unreachable_node_view id a end.

Lemma gather_fold peers g : ga_nodes (foldl gather_one g peers) = ga_nodes g ++ (outcome_node <$> peers).
Proof.
  revert g. induction peers as [|o peers IH]; intros g; [by rewrite app_nil_r|]. cbn [foldl]. rewrite IH, fmap_cons.
  by destruct o; cbn; rewrite <-app_assoc.
Qed.

Lemma gather_nodes local peers :
  ga_nodes (gather local peers) =
    nd_node local :: (outcome_node <$> peers).
Proof.
  unfold gather. rewrite gather_fold. done.
Qed.

(** ** Reports of a running cluster *)

Section reports.
Context {L : Type} `{RaftStoreSpec L} `{!Compaction L}.
Context (boots : NodeId → Bootstrap) (vs : gset NodeId).
Context (same_voters : ∀ id, votes_of (@boot (boots id)) = (vs, None)).

(** The states of one run in which the nodes were asked. *)
Definition one_run (moments : list (Cluster L)) : Prop :=
  (∀ s, s ∈ moments → reachable boots s) ∧
  ∀ s s', s ∈ moments → s' ∈ moments → rtc (step boots) s s' ∨ rtc (step boots) s' s.

(** A node's report of itself, taken at one of them. *)
Definition reports (moments : list (Cluster L)) (v : NodeView) (s : Cluster L) (id : NodeId) (n : RaftNode L) : Prop :=
  s ∈ moments ∧ servers s !! id = Some (Up n) ∧
  ∃ addr st, v = node_view_from_status (as_str id) addr st ∧ ds_is_leader st = is_leader n ∧ ds_term st = node_term n.

Definition truthful (moments : list (Cluster L)) (v : NodeView) : Prop := ∃ s id n, reports moments v s id n.

Lemma reports_leader moments v s id n :
  reports moments v s id n → nv_role v = RoleLeader → is_leader n = true ∧ nv_term v = node_term n ∧ nv_node_id v = as_str id.
Proof.
  intros (_ & _ & addr & st & -> & Hl & Ht) Hr. simpl in *. rewrite Hl in Hr.
  destruct (is_leader n); [|by destruct (ds_leader st)]. by rewrite Ht.
Qed.

Lemma claims_agree moments nodes v w :
  one_run moments → (∀ v, v ∈ nodes → nv_reachable v = true → truthful moments v) →
  v ∈ claimants nodes → w ∈ claimants nodes → nv_node_id v = nv_node_id w.
Proof using same_voters.
  intros [Hreach Hrun] Htrue (Hv & Hrv & Hlv & Htv)%elem_of_claimants (Hw & Hrw & Hlw & Htw)%elem_of_claimants.
  destruct (Htrue v Hv Hrv) as (s & id & n & Hs), (Htrue w Hw Hrw) as (s' & id' & n' & Hs').
  destruct (reports_leader _ _ _ _ _ Hs Hlv) as (Hl & Ht & ->), (reports_leader _ _ _ _ _ Hs' Hlw) as (Hl' & Ht' & ->).
  destruct Hs as (Hin & Hid & _), Hs' as (Hin' & Hid' & _). f_equal.
  eapply (leaders_meet boots vs same_voters s s'); [by apply Hreach|by apply Hreach|by apply Hrun|done..|].
  apply u64_inj. rewrite <-Ht, <-Ht'. congruence.
Qed.

Lemma elect_reported moments nodes :
  one_run moments → (∀ v, v ∈ nodes → nv_reachable v = true → truthful moments v) → NoDup (nv_node_id <$> nodes) →
  match elect nodes with
  | Some x => ∃ v s id n, v ∈ nodes ∧ nv_reachable v = true ∧ reports moments v s id n ∧ as_str id = x ∧
                is_leader n = true ∧ ∀ w, w ∈ nodes → nv_reachable w = true → u64_val (nv_term w) ≤ node_term n
  | None => ∀ v, v ∈ nodes → nv_reachable v = true → nv_role v = RoleLeader →
              ∃ w, w ∈ nodes ∧ nv_reachable w = true ∧ u64_val (nv_term v) < nv_term w
  end.
Proof using same_voters.
  intros Hrun Htrue Hnd. destruct (elect nodes) as [x|] eqn:He.
  - apply elect_Some in He as (v & Hc & <-). pose proof Hc as (Hv & Hrv & Hlv & Htv)%elem_of_claimants.
    destruct (Htrue v Hv Hrv) as (s & id & n & Hs). destruct (reports_leader _ _ _ _ _ Hs Hlv) as (Hl & Ht & Hx).
    exists v, s, id, n. split_and!; [done..|]. intros w Hw Hrw. rewrite <-Ht, Htv. by apply highest_term_ge.
  - apply elect_None in He; [|done|by intros; eapply claims_agree]. intros v Hv Hrv Hlv.
    destruct (highest_term_reached nodes v Hv Hrv) as (w & Hw & Hrw & Htw). exists w. split_and!; [done..|].
    pose proof (highest_term_ge nodes v Hv Hrv). destruct (N.eq_dec (nv_term v) (highest_term nodes)) as [E|]; [|lia].
    exfalso. assert (v ∈ claimants nodes) as Hc by by apply elem_of_claimants. rewrite He in Hc. by apply elem_of_nil in Hc.
Qed.

Lemma merged_nodes local peers t :
  cs_nodes (merge_states local peers t) ≡ₚ nd_node local :: (outcome_node <$> peers).
Proof using. unfold merge_states. cbn [cs_nodes]. by rewrite merge_sort_Permutation, gather_nodes. Qed.

(** C37.  The leader a snapshot of the cluster names is the leader.  Where the nodes
    that answered reported their own state, each at some point of one run, the
    named node led, at the highest term any answer carries; and where no leader is
    named, every claim of leadership among the answers is of a term that another
    answer has overtaken.  In particular no two answers ever claim to lead at the
    highest term: the branch that reports an inconsistent view is not taken. *)
Theorem snapshot_leader_correct moments local peers as_of :
  let snap := merge_states local peers as_of in
  one_run moments → (∀ st, st = local ∨ Answered st ∈ peers → truthful moments (nd_node st)) →
  NoDup (nv_node_id (nd_node local) :: (nv_node_id ∘ outcome_node <$> peers)) →
  (∀ v w, v ∈ claimants (cs_nodes snap) → w ∈ claimants (cs_nodes snap) → v = w) ∧
  match cs_leader_id snap with
  | Some x => ∃ v s id n, v ∈ cs_nodes snap ∧ nv_reachable v = true ∧ reports moments v s id n ∧ as_str id = x ∧
                is_leader n = true ∧ ∀ w, w ∈ cs_nodes snap → nv_reachable w = true → u64_val (nv_term w) ≤ node_term n
  | None => ∀ v, v ∈ cs_nodes snap → nv_reachable v = true → nv_role v = RoleLeader →
              ∃ w, w ∈ cs_nodes snap ∧ nv_reachable w = true ∧ u64_val (nv_term v) < nv_term w
  end.
Proof using same_voters.
  intros snap Hrun Htrue Hnd. pose proof (merged_nodes local peers as_of) as Hp. fold snap in Hp.
  assert (∀ v, v ∈ cs_nodes snap → nv_reachable v = true → truthful moments v) as Htr.
  { intros v Hv Hr. rewrite Hp in Hv. apply elem_of_cons in Hv as [->|Hv]; [apply Htrue; by left|].
    apply list_elem_of_fmap in Hv as ([st|id a] & -> & Hin); [apply Htrue; by right|done]. }
  assert (NoDup (nv_node_id <$> cs_nodes snap)) as Hnd'.
  { rewrite Hp, fmap_cons, <-list_fmap_compose. done. }
  split; [|by apply elect_reported].
  intros v w Hv Hw. eapply (keys_inj nv_node_id (cs_nodes snap)); [done| | |by eapply claims_agree].
  - by apply elem_of_claimants in Hv as [? _].
  - by apply elem_of_claimants in Hw as [? _].
Qed.

End reports.

(** After a handover: the new leader asks; the old one answered before it, still
    claiming its term; the third node is silent. *)
Definition status_of (n : RaftNode RaftLog) : DriverStatus :=
  mkDriverStatus (is_leader n) (node_term n) (n_commit_index n) u64_0 u64_0 (n_leader_id n) None (@boot boot_three).

Definition state_of (id : NodeId) (n : RaftNode RaftLog) : NodeState :=
  mkNodeState (node_view_from_status (as_str id) "addr" (status_of n)) [] (mkPolicyView false false u64_0 u64_0 ∅ (as_str id))
    (mkCasStatsView u64_0 u64_0 (as_str id)) [].

Lemma state_truthful moments s id n :
  s ∈ moments → servers s !! id = Some (Up n) → truthful moments (nd_node (state_of id n)).
Proof. intros Hs Hn. exists s, id, n. split; [done|]. split; [done|]. by exists "addr", (status_of n). Qed.

Definition handover_moments : list (Cluster RaftLog) := [committed_cluster; handover_cluster].

Lemma handover_one_run : one_run (Compaction0 := any_snapshot) (λ _, boot_three) handover_moments.
Proof.
  pose proof (committed_reachable (Compaction0 := any_snapshot)) as Hc.
  pose proof (handover_run (Compaction0 := any_snapshot)) as Hr. split.
  - intros s [->| ->%list_elem_of_singleton]%elem_of_cons; [done|by eapply reachable_later].
  - intros s s' [->| ->%list_elem_of_singleton]%elem_of_cons [->| ->%list_elem_of_singleton]%elem_of_cons;
      [by left|by left|by right|by left].
Qed.

Definition handover_peers : list PeerOutcome := [Answered (state_of node_a old_leader); Unreachable "c" "addr"].

Lemma handover_truthful st :
  st = state_of node_b new_leader ∨ Answered st ∈ handover_peers → truthful handover_moments (nd_node st).
Proof.
  intros [->|Hin].
  - exact (state_truthful _ handover_cluster node_b new_leader (list_elem_of_further _ _ _ (list_elem_of_here _ _)) new_leader_up).
  - apply elem_of_cons in Hin as [E|Hin]; [|by apply list_elem_of_singleton in Hin]. injection E as ->.
    exact (state_truthful _ committed_cluster node_a old_leader (list_elem_of_here _ _) old_leader_up).
Qed.

Lemma handover_distinct :
  NoDup (nv_node_id (nd_node (state_of node_b new_leader)) :: (nv_node_id ∘ outcome_node <$> handover_peers)).
Proof. apply (bool_decide_unpack _). vm_compute. exact I. Qed.

Lemma snapshot_leader_correct_witness :
  cs_leader_id (merge_states (state_of node_b new_leader) handover_peers 0) = Some "b" ∧
  ∃ v s id n, reports handover_moments v s id n ∧ as_str id = "b" ∧ is_leader n = true.
Proof.
  assert (cs_leader_id (merge_states (state_of node_b new_leader) handover_peers 0) = Some "b") as Hl by (vm_compute; reflexivity).
  split; [done|].
  pose proof (snapshot_leader_correct (Compaction0 := any_snapshot) (λ _, boot_three) three three_share handover_moments
    (state_of node_b new_leader) handover_peers 0 handover_one_run handover_truthful handover_distinct) as Hw. cbv zeta in Hw.
  rewrite Hl in Hw. destruct Hw as (_ & v & s & id & n & _ & _ & Hr & Hx & Hn & _).
  exists v, s, id, n. exact (conj Hr (conj Hx Hn)).
Defined.

(** ** The order of the replies *)

(** Sorted by a key without ties, a list is determined by its elements. *)
Lemma sort_determined {A} (R : relation A) `{!RelDecision R, !Transitive R, !Total R} (key : A → string) l l' :
  (∀ a b, R a b → R b a → key a = key b) → NoDup (key <$> l) → l ≡ₚ l' → merge_sort R l = merge_sort R l'.
Proof.
  intros HR Hnd Hp. apply (StronglySorted_unique_strong R).
  - intros a b Ha Hb Hab Hba. rewrite merge_sort_Permutation in Ha. rewrite merge_sort_Permutation, <-Hp in Hb.
    eapply (keys_inj key l); [done..|]. by apply HR.
  - apply StronglySorted_merge_sort; apply _.
  - apply StronglySorted_merge_sort; apply _.
  - by rewrite !merge_sort_Permutation.
Qed.

#[export] Instance node_le_trans : Transitive node_le.
Proof. intros a b c. unfold node_le. apply transitivity. Qed.
#[export] Instance node_le_total : Total node_le.
Proof. intros a b. apply (total String.le). Qed.
#[export] Instance worker_le_trans : Transitive worker_le.
Proof. intros a b c. unfold worker_le. apply transitivity. Qed.
#[export] Instance worker_le_total : Total worker_le.
Proof. intros a b. apply (total String.le). Qed.
#[export] Instance policy_le_trans : Transitive policy_le.
Proof. intros a b c. unfold policy_le. apply transitivity. Qed.
#[export] Instance policy_le_total : Total policy_le.
Proof. intros a b. apply (total String.le). Qed.
#[export] Instance cas_le_trans : Transitive cas_le.
Proof. intros a b c. unfold cas_le. apply transitivity. Qed.
#[export] Instance cas_le_total : Total cas_le.
Proof. intros a b. apply (total String.le). Qed.
#[export] Instance job_le_trans : Transitive job_le.
Proof. intros a b c [?|[? Hab]] [?|[? Hbc]]; [left; lia..|]. right. split; [lia|by etrans]. Qed.
#[export] Instance job_le_total : Total job_le.
Proof.
  intros a b. unfold job_le. destruct (N.lt_trichotomy (js_completed_at_unix_ms a) (js_completed_at_unix_ms b)) as [?|[E|?]]; [tauto| |tauto].
  rewrite E. destruct (total String.le (js_job_id a) (js_job_id b)); [left|right]; by right.
Qed.

(** What each reply adds. *)
Definition outcome_state (o : PeerOutcome) : option NodeState := match o with Answered st => Some st | Unreachable _ _ => None end.

Lemma gather_fold_all peers g :
  let g' := foldl gather_one g peers in
  let answers := omap outcome_state peers in
  ga_workers g' = ga_workers g ++ (answers ≫= nd_workers) ∧ ga_policies g' = ga_policies g ++ (nd_policy <$> answers) ∧
  ga_cas g' = ga_cas g ++ (nd_cas <$> answers) ∧ ga_jobs g' = ga_jobs g ++ (answers ≫= nd_jobs) ∧
  ga_any_silent g' = ga_any_silent g || existsb (λ o, bool_decide (outcome_state o = None)) peers.
Proof.
  revert g. induction peers as [|o peers IH]; intros g; cbv zeta.
  { cbn. by rewrite !app_nil_r, orb_false_r. }
  cbn [foldl]. destruct (IH (gather_one g o)) as (-> & -> & -> & -> & ->).
  destruct o as [st|id a]; cbn; rewrite <-?app_assoc; [done|]. by rewrite !orb_true_r.
Qed.

Definition all_workers (local : NodeState) (peers : list PeerOutcome) : list WorkerView :=
  nd_workers local ++ (omap outcome_state peers ≫= nd_workers).
Definition all_jobs (local : NodeState) (peers : list PeerOutcome) : list JobSummary :=
  nd_jobs local ++ (omap outcome_state peers ≫= nd_jobs).
Definition owners (local : NodeState) (peers : list PeerOutcome) : list NodeState := local :: omap outcome_state peers.

Lemma existsb_perm {A} (f : A → bool) l l' : l ≡ₚ l' → existsb f l = existsb f l'.
Proof. induction 1 as [|x l l' _ IH|x y l|]; cbn; [done|by rewrite IH|by rewrite !orb_assoc, (orb_comm (f y))|congruence]. Qed.

(** A snapshot does not depend on the order in which the peers answered, as
    long as no two of them speak for the same node and no worker or job is
    reported twice. *)
Theorem snapshot_independent_of_order local peers peers' as_of :
  peers ≡ₚ peers' →
  NoDup (nv_node_id (nd_node local) :: (nv_node_id ∘ outcome_node <$> peers)) →
  NoDup (wv_worker_id <$> all_workers local peers) → NoDup (js_job_id <$> all_jobs local peers) →
  NoDup (pv_owning_node ∘ nd_policy <$> owners local peers) → NoDup (cv_owning_node ∘ nd_cas <$> owners local peers) →
  merge_states local peers as_of = merge_states local peers' as_of.
Proof.
  intros Hp Hn Hw Hj Hpo Hca. unfold merge_states.
  assert (merge_sort node_le (ga_nodes (gather local peers)) = merge_sort node_le (ga_nodes (gather local peers'))) as ->.
  { rewrite !gather_nodes. apply (sort_determined _ nv_node_id); [by intros a b; apply (anti_symm String.le)| |by rewrite Hp].
    by rewrite fmap_cons, <-list_fmap_compose. }
  unfold gather. destruct (gather_fold_all peers (mkGathered [nd_node local] (nd_workers local) [nd_policy local] [nd_cas local] (nd_jobs local) false))
    as (-> & -> & -> & -> & ->).
  destruct (gather_fold_all peers' (mkGathered [nd_node local] (nd_workers local) [nd_policy local] [nd_cas local] (nd_jobs local) false))
    as (-> & -> & -> & -> & ->). cbn [ga_workers ga_policies ga_cas ga_jobs ga_any_silent orb].
  assert (omap outcome_state peers ≡ₚ omap outcome_state peers') as Ho by by rewrite Hp.
  rewrite (existsb_perm _ _ _ Hp). f_equal.
  - apply (sort_determined _ wv_worker_id); [by intros a b; apply (anti_symm String.le)|done|by rewrite Ho].
  - apply (sort_determined _ pv_owning_node); [by intros a b; apply (anti_symm String.le)| |by rewrite Ho].
    unfold owners in Hpo. by rewrite fmap_cons, list_fmap_compose in Hpo.
  - apply (sort_determined _ cv_owning_node); [by intros a b; apply (anti_symm String.le)| |by rewrite Ho].
    unfold owners in Hca. by rewrite fmap_cons, list_fmap_compose in Hca.
  - apply (sort_determined _ js_job_id); [|done|by rewrite Ho].
    intros a b [?|[? Hab]] [?|[? Hba]]; [lia..|]. by apply (anti_symm String.le).
Qed.

(** Three nodes, of which one is silent; two have a worker and a job each. *)
Definition plain_state (id wid : string) (stale quarantined reachable : bool) (done_at : u64) : NodeState :=
  mkNodeState (if reachable then standalone_node_view id "addr" else unreachable_node_view id "addr")
    [mkWorkerView wid "host" ∅ 0 0 stale id] (mkPolicyView true quarantined u64_0 u64_0 ∅ id) (mkCasStatsView u64_0 u64_0 id)
    [mkJobSummary ("job-" +:+ wid) "tenant" "digest" Succeeded None None done_at id].

Definition two_replies : list PeerOutcome := [Answered (plain_state "b" "w2" false false true u64_1); Unreachable "c" "addr"].

Lemma snapshot_independent_of_order_witness :
  merge_states (plain_state "a" "w1" false false true u64_0) two_replies 7 =
    merge_states (plain_state "a" "w1" false false true u64_0) (reverse two_replies) 7 ∧
  two_replies ≠ reverse two_replies.
Proof.
  split; [|done]. apply snapshot_independent_of_order; [by rewrite reverse_Permutation|..];
    apply (bool_decide_unpack _); vm_compute; exact I.
Defined.

(** ** Following the events *)

(** What a client keeps up to date from the events: the nodes that are down, the
    workers, the quarantined policies and the leader. *)
Record Tracked : Type := mkTracked {
  tr_down : gset string;
  tr_workers : gset string;
  tr_quarantined : gset string;
  tr_leader : option string
}.

Definition tracked_of (s : ClusterSnapshot) : Tracked :=
  mkTracked (list_to_set (nv_node_id <$> filter (λ n, nv_reachable n = false) (cs_nodes s)))
    (list_to_set (wv_worker_id <$> cs_workers s))
    (list_to_set (pv_owning_node <$> filter (λ p, pv_quarantined p = true) (cs_policies s)))
    (cs_leader_id s).

Definition track (t : Tracked) (e : ClusterEvent) : Tracked :=
  match e with
  | EvSnapshot s => tracked_of s
  | NodeUnreachable n => mkTracked ({[n]} ∪ tr_down t) (tr_workers t) (tr_quarantined t) (tr_leader t)
  | NodeRecovered n => mkTracked (tr_down t ∖ {[n]}) (tr_workers t) (tr_quarantined t) (tr_leader t)
  | WorkerAdded w _ => mkTracked (tr_down t) ({[w]} ∪ tr_workers t) (tr_quarantined t) (tr_leader t)
  | WorkerRemoved w _ => mkTracked (tr_down t) (tr_workers t ∖ {[w]}) (tr_quarantined t) (tr_leader t)
  | WorkerStale _ _ => t
  | PolicyQuarantined n => mkTracked (tr_down t) (tr_workers t) ({[n]} ∪ tr_quarantined t) (tr_leader t)
  | PolicyRecovered n => mkTracked (tr_down t) (tr_workers t) (tr_quarantined t ∖ {[n]}) (tr_leader t)
  | LeaderChanged _ to => mkTracked (tr_down t) (tr_workers t) (tr_quarantined t) to
  end.

(** One pass over a list, each element putting its key into the set, taking it
    out, or leaving it. *)
Definition toggle {A} (key : A → string) (on off : A → bool) (S : gset string) (a : A) : gset string :=
  if on a then {[key a]} ∪ S else if off a then S ∖ {[key a]} else S.

Lemma elem_of_toggled {A} (key : A → string) on off l S x :
  NoDup (key <$> l) →
  x ∈ foldl (toggle key on off) S l ↔
    (∃ a, a ∈ l ∧ key a = x ∧ on a = true) ∨ x ∈ S ∧ ∀ a, a ∈ l → key a = x → on a = false → off a = false.
Proof.
  revert S. induction l as [|b l IH]; intros S Hnd; cbn [foldl].
  { split; [intros Hx; right; split; [done|]; intros a Ha; by apply elem_of_nil in Ha|].
    intros [(a & Ha & _)|[Hx _]]; [by apply elem_of_nil in Ha|done]. }
  rewrite fmap_cons in Hnd. apply NoDup_cons in Hnd as [Hb Hnd]. rewrite IH by done. clear IH.
  assert (∀ a, a ∈ l → key a ≠ key b) as Hne.
  { intros a Ha E. apply Hb. rewrite <-E. by apply list_elem_of_fmap_2. }
  assert (x ∈ toggle key on off S b ↔ key b = x ∧ on b = true ∨ x ∈ S ∧ (key b = x → on b = false → off b = false)) as ->.
  { unfold toggle. destruct (decide (key b = x)) as [<-|Hx], (on b) eqn:Hon, (off b) eqn:Hoff; set_unfold; intuition congruence. }
  split.
  - intros [(a & Ha & Hk & Hon)|[[[Hk Hon]|[HS Hbx]] Hall]].
    + left. exists a. split_and!; [by right|done..].
    + left. exists b. split_and!; [by left|done..].
    + right. split; [done|]. intros a [->|Ha]%elem_of_cons; [done|by apply Hall].
  - intros [(a & [->|Ha]%elem_of_cons & Hk & Hon)|[HS Hall]].
    + right. split; [by left|]. intros a Ha Hka. by destruct (Hne a Ha); congruence.
    + left. by exists a.
    + right. split; [right; split; [done|by apply Hall; left]|]. intros a Ha. apply Hall. by right.
Qed.

Lemma foldl_flat_map {A B C} (f : C → B → C) (g : A → list B) l c :
  foldl f c (flat_map g l) = foldl (λ c a, foldl f c (g a)) c l.
Proof. revert c. induction l as [|a l IH]; intros c; [done|]. cbn. by rewrite foldl_app. Qed.

(** A pass that only changes one part of a state. *)
Lemma foldl_part {T A X} (put : T → X → T) (get : T → X) (step : T → A → T) (f : X → A → X) :
  (∀ t a, step t a = put t (f (get t) a)) → (∀ t, put t (get t) = t) → (∀ t x, get (put t x) = x) →
  (∀ t x y, put (put t x) y = put t y) → ∀ l t, foldl step t l = put t (foldl f (get t) l).
Proof.
  intros Hs Hget Hput Hpp. induction l as [|a l IH]; intros t; cbn [foldl]; [done|]. by rewrite Hs, IH, Hput, Hpp.
Qed.

Definition put_down (t : Tracked) (x : gset string) : Tracked := mkTracked x (tr_workers t) (tr_quarantined t) (tr_leader t).
Definition put_workers (t : Tracked) (x : gset string) : Tracked := mkTracked (tr_down t) x (tr_quarantined t) (tr_leader t).
Definition put_quarantined (t : Tracked) (x : gset string) : Tracked := mkTracked (tr_down t) (tr_workers t) x (tr_leader t).

Section tracking.
Context (prev next : ClusterSnapshot).

Definition fell (n : NodeView) : bool :=
  match find_by nv_node_id (nv_node_id n) (cs_nodes prev) with Some p => nv_reachable p && negb (nv_reachable n) | None => false end.
Definition rose (n : NodeView) : bool :=
  match find_by nv_node_id (nv_node_id n) (cs_nodes prev) with Some p => negb (nv_reachable p) && nv_reachable n | None => false end.
Definition appeared (w : WorkerView) : bool :=
  bool_decide (find_by wv_worker_id (wv_worker_id w) (cs_workers prev) = None).
Definition vanished (w : WorkerView) : bool :=
  negb (existsb (λ n, String.eqb (wv_worker_id n) (wv_worker_id w)) (cs_workers next)).
Definition convicted (p : PolicyView) : bool :=
  match find_by pv_owning_node (pv_owning_node p) (cs_policies prev) with Some b => negb (pv_quarantined b) && pv_quarantined p | None => false end.
Definition acquitted (p : PolicyView) : bool :=
  match find_by pv_owning_node (pv_owning_node p) (cs_policies prev) with Some b => pv_quarantined b && negb (pv_quarantined p) | None => false end.

Lemma track_node t n :
  foldl track t (node_events prev n) =
    put_down t (toggle nv_node_id fell rose (tr_down t) n).
Proof.
  destruct t. unfold node_events, toggle, fell, rose. destruct (find_by _ _ _) as [p|]; [|done].
  by destruct (nv_reachable p), (nv_reachable n).
Qed.

Lemma track_worker t w :
  foldl track t (worker_events prev w) =
    put_workers t (toggle wv_worker_id appeared (const false) (tr_workers t) w).
Proof.
  destruct t. unfold worker_events, toggle, appeared. destruct (find_by _ _ _) as [p|]; [|done].
  by destruct (wv_stale p), (wv_stale w).
Qed.

Lemma track_removed t w :
  foldl track t (removed_events next w) =
    put_workers t (toggle wv_worker_id (const false) vanished (tr_workers t) w).
Proof. destruct t. unfold removed_events, toggle, vanished. by destruct (existsb _ _). Qed.

Lemma track_policy t p :
  foldl track t (policy_events prev p) =
    put_quarantined t (toggle pv_owning_node convicted acquitted (tr_quarantined t) p).
Proof.
  destruct t. unfold policy_events, toggle, convicted, acquitted. destruct (find_by _ _ _) as [b|]; [|done].
  by destruct (pv_quarantined b), (pv_quarantined p).
Qed.

(** The events, one kind after the other. *)
Lemma track_diff t :
  foldl track t (diff prev next) =
    mkTracked (foldl (toggle nv_node_id fell rose) (tr_down t) (cs_nodes next))
      (foldl (toggle wv_worker_id (const false) vanished)
         (foldl (toggle wv_worker_id appeared (const false)) (tr_workers t) (cs_workers next)) (cs_workers prev))
      (foldl (toggle pv_owning_node convicted acquitted) (tr_quarantined t) (cs_policies next))
      (if decide (cs_leader_id prev = cs_leader_id next) then tr_leader t else cs_leader_id next).
Proof.
  unfold diff. rewrite !foldl_app, !foldl_flat_map.
  rewrite (foldl_part _ _ _ _ track_node), (foldl_part _ _ _ _ track_worker), (foldl_part _ _ _ _ track_removed),
    (foldl_part _ _ _ _ track_policy) by by intros [].
  by destruct (decide _).
Qed.

End tracking.

(** A snapshot in which no node, worker or policy is listed twice. *)
Definition well_keyed (s : ClusterSnapshot) : Prop :=
  NoDup (nv_node_id <$> cs_nodes s) ∧ NoDup (wv_worker_id <$> cs_workers s) ∧ NoDup (pv_owning_node <$> cs_policies s).

(** The keys of a list that pass a test, after the changes between two lists of
    the same keys. *)
Lemma toggled_keys {A} (key : A → string) (test : A → bool) (l l' : list A) on off :
  NoDup (key <$> l) → NoDup (key <$> l') → key <$> l ≡ₚ key <$> l' →
  (∀ a b, a ∈ l → b ∈ l' → key a = key b → on b = negb (test a) && test b ∧ off b = test a && negb (test b)) →
  foldl (toggle key on off) (list_to_set (key <$> filter (λ a, test a = true) l)) l' =@{gset string}
    list_to_set (key <$> filter (λ a, test a = true) l').
Proof.
  intros Hnd Hnd' Hkeys Hev. apply set_eq. intros x. rewrite elem_of_toggled, !elem_of_list_to_set, !list_elem_of_fmap by done.
  assert (∀ b, b ∈ l' → ∃ a, a ∈ l ∧ key a = key b) as Hback.
  { intros b Hb. assert (key b ∈ key <$> l) as (a & Hk & Ha)%list_elem_of_fmap; [|by exists a].
    rewrite Hkeys. by apply list_elem_of_fmap_2. }
  split.
  - intros [(b & Hb & <- & Hon)|[(a & -> & [Ht Ha]%list_elem_of_filter) Hoff]].
    + exists b. split; [done|]. apply list_elem_of_filter. split; [|done].
      destruct (Hback b Hb) as (a & Ha & Hk). destruct (Hev a b Ha Hb Hk) as [E _]. rewrite E in Hon. by apply andb_true_iff in Hon as [_ ?].
    + assert (key a ∈ key <$> l') as (b & Hk & Hb)%list_elem_of_fmap by (rewrite <-Hkeys; by apply list_elem_of_fmap_2).
      exists b. split; [done|]. apply list_elem_of_filter. split; [|done].
      destruct (Hev a b Ha Hb Hk) as [E1 E2]. specialize (Hoff b Hb (eq_sym Hk)). rewrite E1, E2, Ht in Hoff. cbn in Hoff.
      destruct (test b); [done|]. by specialize (Hoff eq_refl).
  - intros (b & -> & [Ht Hb]%list_elem_of_filter). destruct (Hback b Hb) as (a & Ha & Hk). destruct (Hev a b Ha Hb Hk) as [E1 E2].
    destruct (test a) eqn:Hta.
    + right. split; [exists a; split; [done|]; by apply list_elem_of_filter|].
      intros b' Hb' Hkb _. rewrite (keys_inj key l' b' b) by done. by rewrite E2, Ht.
    + left. exists b. split_and!; [done..|]. by rewrite E1, Ht.
Qed.

Lemma appeared_spec prev w : appeared prev w = true ↔ wv_worker_id w ∉ wv_worker_id <$> cs_workers prev.
Proof. unfold appeared. by rewrite bool_decide_eq_true, find_by_None. Qed.

Lemma vanished_spec next w : vanished next w = true ↔ wv_worker_id w ∉ wv_worker_id <$> cs_workers next.
Proof.
  unfold vanished. rewrite negb_true_iff, <-not_true_iff_false, existsb_exists, list_elem_of_fmap.
  setoid_rewrite <-list_elem_of_In. setoid_rewrite String.eqb_eq. naive_solver.
Qed.

(** The events between two snapshots say what changed: a client that knows
    which nodes were down, which workers there were, which policies were
    quarantined and who led, and applies the events in the order they are sent,
    ends with exactly what the new snapshot says.  This takes that the same nodes
    and the same policies are listed in both. *)
Theorem diff_tracks prev next :
  well_keyed prev → well_keyed next →
  nv_node_id <$> cs_nodes prev ≡ₚ nv_node_id <$> cs_nodes next →
  pv_owning_node <$> cs_policies prev ≡ₚ pv_owning_node <$> cs_policies next →
  foldl track (tracked_of prev) (diff prev next) = tracked_of next.
Proof.
  intros (Hn & Hw & Hp) (Hn' & Hw' & Hp') Hnodes Hpols. rewrite track_diff. unfold tracked_of. cbn [tr_down tr_workers tr_quarantined tr_leader]. f_equal.
  - set (down := λ n, negb (nv_reachable n)).
    assert (∀ l : list NodeView, filter (λ n, nv_reachable n = false) l = filter (λ n, down n = true) l) as Hd.
    { intros l. apply list_filter_iff. intros n. unfold down. by rewrite negb_true_iff. }
    rewrite !Hd. apply toggled_keys; [done..|]. intros a b Ha Hb Hk. unfold fell, rose, down.
    assert (find_by nv_node_id (nv_node_id b) (cs_nodes prev) = Some a) as -> by by apply find_by_Some.
    by destruct (nv_reachable a), (nv_reachable b).
  - apply set_eq. intros x. rewrite elem_of_toggled, elem_of_toggled, !elem_of_list_to_set, !list_elem_of_fmap by done.
    setoid_rewrite appeared_spec. split.
    + intros [(a & _ & _ & ?)|[[(w & Hin & <- & _)|[(w & -> & Hin) _]] Hv]]; [done|by exists w|].
      specialize (Hv w Hin eq_refl eq_refl). destruct (decide (wv_worker_id w ∈ wv_worker_id <$> cs_workers next)) as [Hx|Hx].
      { apply list_elem_of_fmap in Hx as (w' & ? & ?). by exists w'. }
      apply vanished_spec in Hx. congruence.
    + intros (w & -> & Hin). right. split.
      * destruct (decide (wv_worker_id w ∈ wv_worker_id <$> cs_workers prev)) as [Hx|Hx]; [right|left; by exists w].
        split; [by apply list_elem_of_fmap in Hx as (w' & ? & ?); exists w'|done].
      * intros a Ha Hk _. apply not_true_iff_false. rewrite vanished_spec, Hk. intros Hx. apply Hx. by apply list_elem_of_fmap_2.
  - apply toggled_keys; [done..|]. intros a b Ha Hb Hk. unfold convicted, acquitted.
    assert (find_by pv_owning_node (pv_owning_node b) (cs_policies prev) = Some a) as -> by by apply find_by_Some.
    by destruct (pv_quarantined a), (pv_quarantined b).
  - destruct (decide _); done.
Qed.

Definition before : ClusterSnapshot :=
  merge_states (plain_state "a" "w1" false false true u64_0) [Answered (plain_state "b" "w2" false false true u64_1)] 7.
Definition after : ClusterSnapshot :=
  merge_states (plain_state "a" "w3" false true true u64_0) [Answered (plain_state "b" "w2" false false false u64_1)] 9.

Lemma diff_tracks_witness :
  diff before after = [NodeUnreachable "b"; WorkerAdded "w3" "a"; WorkerRemoved "w1" "a"; PolicyQuarantined "a"] ∧
  foldl track (tracked_of before) (diff before after) = tracked_of after.
Proof.
  split; [vm_compute; reflexivity|].
  apply diff_tracks; [split_and!; apply (bool_decide_unpack _); vm_compute; exact I..|vm_compute; done|vm_compute; done].
Defined.

(** A worker that is heard of again is not announced: [WorkerStale] has no event
    that takes it back. *)
Lemma fresh_again_silent prev w p :
  find_by wv_worker_id (wv_worker_id w) (cs_workers prev) = Some p → wv_stale p = true →
  wv_stale w = false → worker_events prev w = [].
Proof. intros Hf Hp Hw. unfold worker_events. rewrite Hf, Hp. done. Qed.

(** Nor is a policy that was quarantined while its node was silent: a silent node
    has no policy in the snapshot, and a policy that was not there before gives no
    event. *)
Lemma quarantined_in_silence :
  let silent := merge_states (plain_state "a" "w1" false false true u64_0) [Unreachable "b" "addr"] 8 in
  let back := merge_states (plain_state "a" "w1" false false true u64_0) [Answered (plain_state "b" "w2" false true true u64_1)] 9 in
  tr_quarantined (foldl track (tracked_of before) (diff before silent ++ diff silent back)) = ∅ ∧
  tr_quarantined (tracked_of back) = {["b"]}.
Proof. by vm_compute. Qed.

(** Loading a module ends a quarantine, and the view does not say so: it goes by
    the count of the calls the quarantine turned away, which loading keeps.  So
    [PolicyRecovered] is never sent. *)
Lemma quarantine_view_sticks `{Wasm, SnapshotCodec} wasm s s' node :
  wasm_load wasm s = (s', inr ()) → 0 < quarantine_threshold (limits (ws_engine s)) →
  is_quarantined (ws_engine s') = false ∧
  pv_quarantined (policy_view (Some s') node) = pv_quarantined (policy_view (Some s) node).
Proof.
  unfold wasm_load. pose proof (load_spec wasm (ws_engine s)) as Hl. destruct (load wasm (ws_engine s)) as [e r].
  intros [= <- ->] Ht. split; [|done]. cbn in *. destruct Hl as (Hlim & Hc & _). unfold is_quarantined. rewrite Hlim, Hc.
  by apply N.leb_gt.
Qed.
