(* ===== verification/Services.v ===== *)
(** * brokkr-control: the gRPC services

    Models [crates/brokkr-control/src/services/] ([mod.rs], [cas.rs],
    [action_cache.rs], [execution.rs], [capabilities.rs]), [auth.rs],
    [membership.rs] and [worker_service.rs]: a handler is a function of its request
    and an effect on the store behind it; the stream of a worker and the eviction
    task are the calls they make on the scheduler and the registry.  [tonic] and [http] are represented by what a handler sees
    of them: status codes, and the metadata of a request or status as a map whose
    values are those strings that parse as header values.  [jsonwebtoken] and the
    codec of [ExecuteResponse] are parameters.  Fields of a message that no
    handler reads are left out. *)

From stdpp Require Import prelude gmap strings pretty.
From Stdlib Require Import Lia.
From S2P Require Import Prelude Machine Bytes Common Redb Cas ActionCache FairQueue Lease Registry Scheduling Scheduler SchedulerSpec SchedulerRun Execute.

Local Open Scope N_scope.

(** ** tonic *)

Inductive Code : Type :=
| InvalidArgument
| DeadlineExceeded
| NotFound
| ResourceExhausted
| FailedPrecondition
| Unimplemented
| Internal
| Unavailable
| Unauthenticated
| OtherCode (n : N).

#[export] Instance Code_eq_dec : EqDecision Code.
Proof. solve_decision. Defined.

Definition Metadata : Type := gmap string string.

Record RpcStatus : Type := mkRpcStatus { rs_code : Code; rs_message : string; rs_metadata : Metadata }.

Definition status_new (code : Code) (message : string) : RpcStatus := mkRpcStatus code message ∅.

(** Which strings parse as a header value, and which values read back as text. *)
Class Headers : Type := { header_parses : string → bool; header_reads : string → bool }.

(** [metadata().get(key).and_then(|v| v.to_str().ok())]. *)
Definition metadata_get `{Headers} (key : string) (md : Metadata) : option string :=
  v ← md !! key; if header_reads v then Some v else None.

(** A request as a handler gets it: its metadata, and the tenant an interceptor
    put into its extensions. *)
Record Incoming : Type := mkIncoming { in_metadata : Metadata; in_tenant : option TenantId }.

(** [google.rpc.Status]. *)
Record pb_Status : Type := mkpbStatus { ps_code : Z; ps_message : string }.

(** How a string and a duration appear in a message. *)
Class RpcText : Type := { str_debug : string → string; duration_debug : Duration → string }.

(** ** [services/mod.rs] *)

Section helpers.
Context `{ErrText, RpcText}.

Definition proto_to_digest (d : pb_Digest) : outcome RpcStatus Digest :=
  match Digest_new (pd_hash d) (pd_size_bytes d) with
  | Ok digest => Ok digest
  | Err e => Err (status_new InvalidArgument ("invalid digest: " +:+ digest_error_text e))
  | Halt => Halt
  end.

Definition digest_to_proto (d : Digest) : pb_Digest := mkpbDigest (hash d) (size_bytes d).

Definition validate_instance_name (instance_name : string) : outcome RpcStatus () :=
  if String.eqb instance_name "" then Ok ()
  else Err (status_new InvalidArgument ("unknown instance_name " +:+ str_debug instance_name +:+
         ": this server has no multi-tenant support yet — only the default (empty) instance is served")).

End helpers.

(** ** [services/cas.rs] *)

Record BatchLimits : Type := mkBatchLimits { max_blobs_per_request : N; max_request_bytes : N }.

Definition BatchLimits_default : BatchLimits := mkBatchLimits 1000 (4 * 1024 * 1024).

(** An entry of [BatchUpdateBlobsRequest], of its response, and of
    [BatchReadBlobsResponse]. *)
Record UpdateRequest : Type := mkUpdateRequest { uq_digest : option pb_Digest; uq_data : bytes }.
Record UpdateResponse : Type := mkUpdateResponse { up_digest : option pb_Digest; up_status : option pb_Status }.
Record ReadResponse : Type := mkReadResponse { rd_digest : option pb_Digest; rd_data : bytes; rd_status : option pb_Status }.

Section cas_service.
Context {C : Type} `{Cas C, Sha256, ErrText, RpcText}.
Context (limits : BatchLimits).

Definition check_blob_count (count : nat) : outcome RpcStatus () :=
  if max_blobs_per_request limits <? N.of_nat count then
    Err (status_new InvalidArgument ("batch has " +:+ pretty count +:+ " blobs, exceeding the per-request limit of " +:+
           pretty (max_blobs_per_request limits)))
  else Ok ().

Definition backend_error (e : CasError) : RpcStatus := status_new Internal (cas_error_text e).

Definition svc_find_missing_blobs (instance_name : string) (blob_digests : list pb_Digest)
    : eff C RpcStatus (list pb_Digest) :=
  of_outcome (validate_instance_name instance_name);;
  of_outcome (check_blob_count (length blob_digests));;
  digests ← mapM (λ d, of_outcome (proto_to_digest d)) blob_digests;
  missing ← map_err backend_error (find_missing_blobs digests);
  mret (digest_to_proto <$> missing).

(** The entries of a batch, sorted into those to hand to the backend and those
    refused; [ag_indices] says which responses await the backend. *)
Record Accepting : Type := mkAccepting {
  ag_responses : list UpdateResponse;
  ag_blobs : list (Digest * bytes);
  ag_indices : list nat
}.

Definition accept_one (g : Accepting) (r : UpdateRequest) : outcome RpcStatus Accepting :=
  match uq_digest r with
  | None => Err (status_new InvalidArgument "missing digest")
  | Some d =>
      match proto_to_digest d with
      | Err e => Err e
      | Halt => Halt
      | Ok digest =>
          match Digest_verify digest (uq_data r) with
          | Ok _ =>
              Ok (mkAccepting (ag_responses g ++ [mkUpdateResponse (Some (digest_to_proto digest)) None])
                    (ag_blobs g ++ [(digest, uq_data r)]) (ag_indices g ++ [length (ag_responses g)]))
          | Err e =>
              Ok (mkAccepting (ag_responses g ++
                      [mkUpdateResponse (Some (digest_to_proto digest))
                         (Some (mkpbStatus 3 ("digest verification failed: " +:+ digest_error_text e)))])
                    (ag_blobs g) (ag_indices g))
          | Halt => Halt
          end
      end
  end.

Fixpoint accept_all (g : Accepting) (rs : list UpdateRequest) : outcome RpcStatus Accepting :=
  match rs with
  | [] => Ok g
  | r :: rs => match accept_one g r with Ok g => accept_all g rs | Err e => Err e | Halt => Halt end
  end.

Definition status_of_update (u : UpdateResult) : pb_Status :=
  match ur_status u with
  | Ok _ => mkpbStatus 0 ""
  | Err msg => mkpbStatus 3 msg
  | Halt => mkpbStatus 3 ""
  end.

(** [responses[idx].status = ...], which panics out of range. *)
Fixpoint fill_statuses (responses : list UpdateResponse) (l : list (nat * UpdateResult)) : outcome RpcStatus (list UpdateResponse) :=
  match l with
  | [] => Ok responses
  | (idx, u) :: l =>
      match responses !! idx with
      | Some r => fill_statuses (<[idx := mkUpdateResponse (up_digest r) (Some (status_of_update u))]> responses) l
      | None => Halt
      end
  end.

Definition total_bytes (requests : list UpdateRequest) : N := foldr (λ r n, N.of_nat (length (uq_data r)) + n) 0 requests.

Definition svc_batch_update_blobs (instance_name : string) (requests : list UpdateRequest)
    : eff C RpcStatus (list UpdateResponse) :=
  of_outcome (validate_instance_name instance_name);;
  of_outcome (check_blob_count (length requests));;
  if max_request_bytes limits <? total_bytes requests then
    throw (status_new InvalidArgument ("batch payload is " +:+ pretty (total_bytes requests) +:+
             " bytes, exceeding the per-request limit of " +:+ pretty (max_request_bytes limits)))
  else
    g ← of_outcome (accept_all (mkAccepting [] [] []) requests);
    results ← map_err backend_error (batch_update_blobs (ag_blobs g));
    of_outcome (fill_statuses (ag_responses g) (zip (ag_indices g) results)).

Definition read_response (p : Digest * outcome CasError bytes) : ReadResponse :=
  match p.2 with
  | Ok b => mkReadResponse (Some (digest_to_proto p.1)) b (Some (mkpbStatus 0 ""))
  | _ => mkReadResponse (Some (digest_to_proto p.1)) [] (Some (mkpbStatus 5 "blob not found"))
  end.

Definition svc_batch_read_blobs (instance_name : string) (ds : list pb_Digest) : eff C RpcStatus (list ReadResponse) :=
  of_outcome (validate_instance_name instance_name);;
  of_outcome (check_blob_count (length ds));;
  digests ← mapM (λ d, of_outcome (proto_to_digest d)) ds;
  results ← map_err backend_error (batch_read_blobs digests);
  mret (read_response <$> zip digests results).

End cas_service.

(** ** [services/action_cache.rs] *)

Definition LEADER_HINT_METADATA_KEY : string := "x-brokkr-leader".
Definition LEADER_ADDR_METADATA_KEY : string := "x-brokkr-leader-addr".

Section action_cache_service.
Context `{Headers, ErrText, RpcText}.

(** One of the hints: inserted if it parses, else left out. *)
Definition add_hint (status : RpcStatus) (p : string * option string) : RpcStatus :=
  match p.2 with
  | Some hint =>
      if header_parses hint then mkRpcStatus (rs_code status) (rs_message status) (<[p.1 := hint]> (rs_metadata status))
      else status
  | None => status
  end.

Definition cas_status (e : CasError) : RpcStatus :=
  match e with
  | CasNotLeader leader leader_addr =>
      foldl add_hint (status_new FailedPrecondition "not the metadata leader; retry against the leader")
        [(LEADER_HINT_METADATA_KEY, leader); (LEADER_ADDR_METADATA_KEY, leader_addr)]
  | other => status_new Internal (cas_error_text other)
  end.

Context {A : Type} `{ActionCache A}.

Definition action_digest_of (d : option pb_Digest) : outcome RpcStatus Digest :=
  match d with
  | None => Err (status_new InvalidArgument "missing action_digest")
  | Some d => proto_to_digest d
  end.

Definition svc_get_action_result (instance_name : string) (action_digest : option pb_Digest) : eff A RpcStatus ActionResult :=
  of_outcome (validate_instance_name instance_name);;
  digest ← of_outcome (action_digest_of action_digest);
  found ← map_err cas_status (get_action_result digest);
  match found with
  | Some r => mret r
  | None => throw (status_new NotFound "no cached action result")
  end.

(** The barrier the handler takes around the write is the subject of [GcBarrier]. *)
Definition svc_update_action_result (instance_name : string) (action_digest : option pb_Digest)
    (action_result : option ActionResult) : eff A RpcStatus ActionResult :=
  of_outcome (validate_instance_name instance_name);;
  digest ← of_outcome (action_digest_of action_digest);
  match action_result with
  | None => throw (status_new InvalidArgument "missing action_result")
  | Some r => map_err cas_status (update_action_result digest r);; mret r
  end.

End action_cache_service.

(** ** [services/execution.rs] *)

Record ExecuteResponse : Type := mkExecuteResponse {
  er_result : option ActionResult;
  er_cached_result : bool;
  er_status : option pb_Status;
  er_message : string
}.

Class ExecuteResponseCodec : Type := {
  enc_ExecuteResponse : ExecuteResponse → bytes;
  dec_ExecuteResponse : bytes → string + ExecuteResponse
}.

Class ExecuteResponseCodecSpec `{ExecuteResponseCodec} : Prop :=
  dec_enc_ExecuteResponse r : dec_ExecuteResponse (enc_ExecuteResponse r) = inr r.

Inductive OperationResult : Type := OpResponse (any : bytes) | OpError (s : pb_Status).

Record Operation : Type := mkOperation { op_name : string; op_done : bool; op_result : option OperationResult }.

Section execution_service.
Context `{Headers, ErrText, RpcText, IdText, ExecuteResponseCodec}.

Definition tenant_from_metadata (md : Metadata) : TenantId :=
  match metadata_get "x-brokkr-tenant" md with
  | Some s => match TenantId_new s with Ok t => t | _ => TenantId_default end
  | None => TenantId_default
  end.

Definition request_tenant (r : Incoming) : TenantId :=
  match in_tenant r with Some t => t | None => tenant_from_metadata (in_metadata r) end.

(** The handler up to the task it spawns: what the scheduler is asked for. *)
Definition svc_execute (r : Incoming) (instance_name : string) (action_digest : option pb_Digest) (skip_cache_lookup : bool)
    : outcome RpcStatus (Digest * bool * TenantId) :=
  match validate_instance_name instance_name with
  | Ok _ =>
      match action_digest_of action_digest with
      | Ok d => Ok (d, skip_cache_lookup, request_tenant r)
      | Err e => Err e
      | Halt => Halt
      end
  | Err e => Err e
  | Halt => Halt
  end.

Definition exec_error_text (e : ExecutionError) : string :=
  match e with
  | Timeout d => "worker did not report within " +:+ duration_debug d
  | NoEligibleWorker => "no eligible worker for the action's platform constraints"
  | QuotaExceeded limit => "tenant has reached its concurrent-jobs quota (" +:+ pretty limit +:+ ")"
  | Other chain => default "" (head chain)
  end.

(** The task: the one operation sent on the stream. *)
Definition operation_of (uuid : string) (outcome : ExecutionError + ExecutionOutcome) : Operation :=
  mkOperation ("operations/" +:+ uuid) true (Some
    match outcome with
    | inr o =>
        let message := if result_cached o then ""
          else "result not cached: this control-plane node is not the metadata leader; an identical action will re-execute" in
        OpResponse (enc_ExecuteResponse (mkExecuteResponse (Some (result o)) (cache_hit o) (Some (mkpbStatus 0 "")) message))
    | inl e => OpError (mkpbStatus (Z.of_N (exec_status e)) (exec_error_text e))
    end).

End execution_service.

(** ** [services/capabilities.rs] *)

Record ServerCapabilities : Type := mkServerCapabilities {
  update_enabled : bool;
  max_batch_total_size_bytes : N;
  exec_enabled : bool
}.

Definition get_capabilities `{RpcText} (instance_name : string) : outcome RpcStatus ServerCapabilities :=
  match validate_instance_name instance_name with
  | Ok _ => Ok (mkServerCapabilities true (4 * 1024 * 1024) true)
  | Err e => Err e
  | Halt => Halt
  end.

(** ** [auth.rs] *)

Inductive AuthError : Type :=
| MissingToken
| InvalidToken (msg : string)
| MissingTenantClaim (claim : string)
| InvalidTenant (e : IdError).

Inductive Algorithm : Type := HS256 | RS256.

Record Validation : Type := mkValidation {
  va_algorithm : Algorithm;
  va_validate_aud : bool;
  va_iss : option (list string);
  va_aud : option (list string)
}.

(** A claim as far as it is looked at. *)
Inductive Claim : Type := ClaimString (s : string) | ClaimOther.

Class Jwt : Type := {
  DecodingKey : Type;
  key_from_secret : bytes → DecodingKey;
  key_from_rsa_pem : bytes → string + DecodingKey;
  jwt_decode : string → DecodingKey → Validation → string + gmap string Claim
}.

Section auth.
Context `{Jwt, Headers, IdText}.

Record JwtAuth : Type := mkJwtAuth {
  decoding_key : DecodingKey;
  validation : Validation;
  tenant_claim : string
}.

Definition JwtAuth_new (key : DecodingKey) (alg : Algorithm) (claim : string) : JwtAuth :=
  mkJwtAuth key (mkValidation alg false None None) claim.

Definition JwtAuth_hmac (secret : bytes) (claim : string) : JwtAuth := JwtAuth_new (key_from_secret secret) HS256 claim.

Definition JwtAuth_rsa_pem (pem : bytes) (claim : string) : AuthError + JwtAuth :=
  match key_from_rsa_pem pem with
  | inl e => inl (InvalidToken ("bad RSA public key: " +:+ e))
  | inr key => inr (JwtAuth_new key RS256 claim)
  end.

Definition with_issuer (issuer : string) (j : JwtAuth) : JwtAuth :=
  let v := validation j in
  mkJwtAuth (decoding_key j) (mkValidation (va_algorithm v) (va_validate_aud v) (Some [issuer]) (va_aud v)) (tenant_claim j).

Definition with_audience (audience : string) (j : JwtAuth) : JwtAuth :=
  let v := validation j in
  mkJwtAuth (decoding_key j) (mkValidation (va_algorithm v) (va_validate_aud v) (va_iss v) (Some [audience])) (tenant_claim j).

Definition jwt_authenticate (j : JwtAuth) (token : string) : AuthError + TenantId :=
  match jwt_decode token (decoding_key j) (validation j) with
  | inl e => inl (InvalidToken e)
  | inr claims =>
      match claims !! tenant_claim j with
      | Some (ClaimString t) =>
          match TenantId_new t with Ok t => inr t | Err e => inl (InvalidTenant e) | Halt => inl MissingToken end
      | _ => inl (MissingTenantClaim (tenant_claim j))
      end
  end.

Inductive Authenticator : Type := AuthDisabled | AuthJwt (j : JwtAuth).

Definition auth_enabled (a : Authenticator) : bool := match a with AuthDisabled => false | AuthJwt _ => true end.

Definition authenticate (a : Authenticator) (bearer : option string) : AuthError + option TenantId :=
  match a with
  | AuthDisabled => inr None
  | AuthJwt j =>
      match bearer with
      | None => inl MissingToken
      | Some token => match jwt_authenticate j token with inl e => inl e | inr t => inr (Some t) end
      end
  end.

(** [str::strip_prefix]. *)
Fixpoint strip_prefix (p s : string) : option string :=
  match p, s with
  | EmptyString, _ => Some s
  | String a p, String b s => if Ascii.eqb a b then strip_prefix p s else None
  | String _ _, EmptyString => None
  end.

Definition strip_bearer (value : string) : option string :=
  match strip_prefix "Bearer " value with
  | Some token => Some token
  | None => strip_prefix "bearer " value
  end.

Definition auth_error_text (e : AuthError) : string :=
  match e with
  | MissingToken => "missing Authorization bearer token"
  | InvalidToken msg => "invalid token: " +:+ msg
  | MissingTenantClaim c => "token is missing the '" +:+ c +:+ "' tenant claim"
  | InvalidTenant e => "invalid tenant in token: " +:+ id_error_text e
  end.

Definition auth_interceptor (a : Authenticator) (r : Incoming) : outcome RpcStatus Incoming :=
  let bearer := v ← metadata_get "authorization" (in_metadata r); strip_bearer v in
  match authenticate a bearer with
  | inr (Some tenant) => Ok (mkIncoming (in_metadata r) (Some tenant))
  | inr None => Ok r
  | inl e => Err (status_new Unauthenticated (auth_error_text e))
  end.

End auth.

(** ** [membership.rs] *)

Section membership.
Context {Node : Type} `{EqDecision Node}.

Record TopologyView : Type := mkTopologyView {
  tv_generation : u64;
  tv_nodes : list Node;
  tv_replication_factor : N;
  tv_ring_secret : bytes
}.

Definition Membership_new (r : N) : TopologyView := mkTopologyView u64_1 [] r [].

(** [send_if_modified]: the view, and whether subscribers are woken; the
    generation returned is the view's. *)
Definition set_nodes (ns : list Node) (v : TopologyView) : TopologyView * bool :=
  if decide (tv_nodes v = ns) then (v, false)
  else (mkTopologyView (saturating_add (tv_generation v) u64_1) ns (tv_replication_factor v) (tv_ring_secret v), true).

Definition set_replication_factor (r : N) (v : TopologyView) : TopologyView * bool :=
  if decide (tv_replication_factor v = r) then (v, false)
  else (mkTopologyView (saturating_add (tv_generation v) u64_1) (tv_nodes v) r (tv_ring_secret v), true).

End membership.
Arguments TopologyView : clear implicits.

(** ** [worker_service.rs]: registration and heartbeats

    The stream of a worker is a sequence of the actions of [SchedulerRun]. *)

Section worker_service.
Context `{IdText}.

(** [uuid] is the fresh id; the reply has the id and the cadence in seconds. *)
Definition svc_register (uuid host : string) (ls : gmap string string) (now : Instant) (r : WorkerRegistry)
    : WorkerRegistry * outcome RpcStatus (string * N) :=
  match WorkerId_new uuid with
  | Err e => (r, Err (status_new Internal ("invalid worker id: " +:+ id_error_text e)))
  | Halt => (r, Halt)
  | Ok id =>
      let r := register id (mkWorkerCapabilities host ls) now r in
      (r, Ok (id_str id, interval (reg_policy r) / 1000000000 mod 2 ^ 32))
  end.

(** [renewed] is the id whose leases the scheduler is told to renew. *)
Definition svc_heartbeat (worker_id : option string) (now : Instant) (r : WorkerRegistry)
    : WorkerRegistry * outcome RpcStatus (bool * option WorkerId) :=
  match worker_id with
  | None => (r, Err (status_new InvalidArgument "HeartbeatRequest.worker_id missing"))
  | Some s =>
      match WorkerId_new s with
      | Err e => (r, Err (status_new InvalidArgument ("invalid worker id: " +:+ id_error_text e)))
      | Halt => (r, Halt)
      | Ok id =>
          match record_heartbeat id now r with
          | (r, Ok _) => (r, Ok (true, Some id))
          | (r, _) => (r, Ok (false, None))
          end
      end
  end.

End worker_service.

(** ** The stream of a worker

    As the calls it makes on the scheduler, the actions of [SchedulerRun].  What the
    pump of a stream forwards to the worker are the sends of the dispatch loop. *)

Inductive StreamPayload : Type := Hello (worker_id : option string) | Result_ (r : JobResult).

(** What [inbound.message()] comes to: a message, with its payload and the time it
    is handled at, the end of the stream, or its failure. *)
Inductive StreamItem : Type :=
| Message (payload : option StreamPayload) (unix_ms : u64)
| StreamClosed
| StreamFailed.

(** The inbound pump.  No more items: the stream is still open. *)
Fixpoint inbound_pump (w : WorkerId) (inbound : list StreamItem) : list SysAction :=
  match inbound with
  | [] => []
  | Message (Some (Result_ r)) ms :: inbound => AReport r ms :: inbound_pump w inbound
  | Message _ _ :: inbound => inbound_pump w inbound
  | (StreamClosed | StreamFailed) :: _ => [ADisconnect w]
  end.

Definition hello_id (i : StreamItem) : option WorkerId :=
  match i with
  | Message (Some (Hello (Some s))) _ => match WorkerId_new s with Ok w => Some w | _ => None end
  | _ => None
  end.

(** [tx] is the channel made for the worker. *)
Definition worker_stream (tx : ChannelId) (inbound : list StreamItem) : list SysAction :=
  match inbound with
  | [] => []
  | first :: inbound =>
      match hello_id first with
      | Some w => AConnect w tx :: inbound_pump w inbound
      | None => []
      end
  end.

Definition stream_over (i : StreamItem) : bool := match i with Message _ _ => false | _ => true end.

(** ** The eviction task

    [ticks] are the times its ticker fires at, the first of which is dropped. *)
Definition eviction_task (p : HeartbeatPolicy) (ticks : list Instant) : list SysAction :=
  if interval p =? 0 then [] else AEvict <$> tail ticks.

(** ** What a stream does *)

Lemma inbound_pump_reports w msgs e rest :
  Forall (λ i, stream_over i = false) msgs → stream_over e = true →
  ∃ reports : list (JobResult * u64), inbound_pump w (msgs ++ e :: rest) = ((λ p, AReport p.1 p.2) <$> reports) ++ [ADisconnect w].
Proof.
  intros Hm He. induction Hm as [|i msgs Hi _ (rs & IH)]; cbn; [by exists []; destruct e|].
  destruct i as [[[|r]|] ms| |]; try done; [by exists rs| |by exists rs].
  exists ((r, ms) :: rs). cbn. by rewrite IH.
Qed.

Lemma disconnect_releases w i :
  connected (disconnect_worker w i).2 !! w = None ∧ is_worker_busy w (leases (disconnect_worker w i).2) = false.
Proof.
  unfold disconnect_worker. destruct (take_worker_spec w (leases i)) as [_ Hrest]. cbn [set_connected leases].
  destruct (take_worker w (leases i)) as [taken ls]. cbn [fst snd] in *.
  destruct (requeue_taken taken _) as [[rq gu] i'] eqn:Hr. apply requeue_taken_spec in Hr as (Hc & Hl & _). cbn [snd].
  rewrite Hc, Hl. split; [apply (lookup_delete_eq (M := gmap WorkerId))|]. apply is_worker_busy_false. intros j l Hj. by apply Hrest in Hj as [_ ?].
Qed.

Section streams.
Context {St : Type} `{StrategySpec St} (cfg : Config St).

(** A stream that introduces itself and ends, by its close or by a failure, however
    its calls are interleaved with everything else: it connects the worker, makes
    the reports and ends in the one disconnect; and that leaves the worker neither
    connected nor holding a lease, every job that was queued or leased being queued
    or leased to another worker, or about to be failed. *)
Theorem stream_end_releases reg tx first w msgs e rest s s' :
  hello_id first = Some w → Forall (λ i, stream_over i = false) msgs → stream_over e = true →
  reachable cfg reg s → act cfg (ADisconnect w) s = Some s' →
  (∃ reports : list (JobResult * u64),
     worker_stream tx (first :: msgs ++ e :: rest) = AConnect w tx :: ((λ p, AReport p.1 p.2) <$> reports) ++ [ADisconnect w]) ∧
  connected (inner s') !! w = None ∧ is_worker_busy w (leases (inner s')) = false ∧
  ∀ j, queued j (inner s) ∨ held j (inner s) → queued j (inner s') ∨ held j (inner s') ∨ j ∈ failing s'.
Proof.
  intros Hw Hm He Hr Ha. cbn in Ha. pose proof (disconnect_releases w (inner s)) as Hd.
  pose proof (run_inv cfg reg s Hr) as (((_ & Hl & _) & _) & _).
  assert (∀ j, queued j (inner s) ∨ held j (inner s) →
    queued j (disconnect_worker w (inner s)).2 ∨ held j (disconnect_worker w (inner s)).2 ∨ j ∈ (disconnect_worker w (inner s)).1) as Hk.
  { intros j. by apply disconnect_worker_keeps. }
  destruct (disconnect_worker w (inner s)) as [dropped i']. cbn [fst snd] in *. injection Ha as <-. cbn.
  destruct Hd as [Hc Hb]. split_and!; [|done|done|].
  - rewrite Hw. destruct (inbound_pump_reports w msgs e rest Hm He) as [rs ->]. by exists rs.
  - intros j Hj. destruct (Hk j Hj) as [?|[?|?]]; [by left|by right; left|]. right. right. apply elem_of_app. by right.
Qed.

End streams.

(** A stream whose first message is not a good introduction does nothing. *)
Lemma no_hello_no_calls tx first inbound : hello_id first = None → worker_stream tx (first :: inbound) = [].
Proof. intros Hf. cbn. by rewrite Hf. Qed.
