(* ===== verification/Client.v ===== *)
(** * brokkr-sdk: the client

    Models [crates/brokkr-sdk/src/redirect.rs] and [client.rs]: connecting,
    following the leader, the action cache calls, reading a blob and running a
    command.  What is on the other side is a parameter ([Wire]): whether an
    endpoint parses, what reading a certificate and opening a channel come to,
    and how each call is answered.  An effect of the world [W] is everything such
    a call changes.  A stream is the list of the messages that arrive on it. *)

From stdpp Require Import prelude gmap strings pretty.
From Stdlib Require Import Lia.
From S2P Require Import Prelude Machine Bytes Common Redb Cas ActionCache Fs Tree FairQueue Lease Registry Scheduling Scheduler Execute Services.

Local Open Scope N_scope.

(** ** [redirect.rs] *)

Definition MAX_LEADER_HOPS : nat := 3.

Inductive Redirect : Type :=
| NoRedirect
| Follow (addr : string) (leader : option string)
| Unroutable (leader : option string)
| Exhausted.

Section redirect.
Context `{Headers}.

Definition metadata_str (status : RpcStatus) (key : string) : option string :=
  v ← metadata_get key (rs_metadata status); if String.eqb v "" then None else Some v.

Definition classify_redirect (status : RpcStatus) (hops : nat) : Redirect :=
  if decide (rs_code status = FailedPrecondition) then
    let leader := metadata_str status LEADER_HINT_METADATA_KEY in
    let addr := metadata_str status LEADER_ADDR_METADATA_KEY in
    if bool_decide (leader = None) && bool_decide (addr = None) then NoRedirect
    else if (MAX_LEADER_HOPS <=? hops)%nat then Exhausted
    else match addr with Some addr => Follow addr leader | None => Unroutable leader end
  else NoRedirect.

End redirect.

(** [split_once("://")]: what comes before the first occurrence. *)
Fixpoint scheme_of (s : string) : option string :=
  match strip_prefix "://" s with
  | Some _ => Some ""
  | None => match s with EmptyString => None | String a s => String a <$> scheme_of s end
  end.

Definition hint_to_url (addr current_endpoint : string) : string :=
  match scheme_of addr with
  | Some _ => addr
  | None =>
      match scheme_of current_endpoint with
      | Some scheme => scheme +:+ "://" +:+ addr
      | None => "http://" +:+ addr
      end
  end.

(** ** [client.rs] *)

Record TlsConfig : Type := mkTlsConfig { ca_cert : string; client_cert : option string; client_key : option string }.

Inductive ClientError : Type :=
| InvalidEndpoint (msg : string)
| CertificateRead (msg : string)
| TlsConfigError (msg : string)
| Transport (msg : string)
| Rpc (s : RpcStatus).

(** The certificate of the authority, and the identity of the client. *)
Definition TlsMaterial : Type := bytes * option (bytes * bytes).

Record Channel : Type := mkChannel { ch_endpoint : string; ch_tls : option TlsMaterial }.

Class Wire (W : Type) : Type := {
  endpoint_error : string → option string;
  read_pem : string → eff W string bytes;
  tls_error : TlsMaterial → option string;
  open_channel : Channel → eff W string ();
  rpc_get_action_result : Channel → Metadata → string → option pb_Digest → eff W RpcStatus ActionResult;
  rpc_update_action_result : Channel → Metadata → string → option pb_Digest → option ActionResult → eff W RpcStatus ActionResult;
  rpc_find_missing_blobs : Channel → Metadata → string → list pb_Digest → eff W RpcStatus (list pb_Digest);
  rpc_batch_update_blobs : Channel → Metadata → string → list UpdateRequest → eff W RpcStatus (list UpdateResponse);
  rpc_batch_read_blobs : Channel → Metadata → string → list pb_Digest → eff W RpcStatus (list ReadResponse);
  rpc_execute : Channel → Metadata → string → option pb_Digest → bool → eff W RpcStatus (list (RpcStatus + Operation))
}.

(** How an error of the client prints, and the last hint of a status, for a
    message. *)
Class ClientText : Type := { client_error_text : ClientError → string; hint_debug : option string → string }.

(** prost's encoding of the messages a client sends for execution. *)
Class ExecEncoder : Type := { enc_Action : Action → bytes; enc_Command : Command → bytes }.

Class ExecEncoderSpec `{ExecCodec, ExecEncoder} : Prop := {
  dec_enc_Action a : dec_Action (enc_Action a) = inr a;
  dec_enc_Command c : dec_Command (enc_Command c) = inr c
}.

Inductive ExecuteError : Type := ExecuteStatus (code : Z) (message : string) | MissingResult.

(** [anyhow::Error], by what it was made from. *)
Inductive RunError : Type :=
| RunRpc (s : RpcStatus)
| RunExecute (e : ExecuteError)
| RunMessage (chain : list string).

Record RunOutcome : Type := mkRunOutcome {
  ro_exit_code : Z;
  ro_stdout : bytes;
  ro_stderr : bytes;
  ro_cache_hit : bool;
  ro_message : string
}.

Section client.
Context {W : Type} `{Wire W, Headers, RpcText, ClientText}.

Record BrokkrClient : Type := mkBrokkrClient {
  bc_channel : Channel;
  bc_bearer : option string;
  bc_endpoint : string;
  bc_tls : option TlsConfig
}.

(** What the interceptor makes of the metadata of a call. *)
Definition bearer_interceptor (token : option string) (md : Metadata) : outcome RpcStatus Metadata :=
  match token with
  | None => Ok md
  | Some token =>
      let value := "Bearer " +:+ token in
      if header_parses value then Ok (<["authorization" := value]> md)
      else Err (status_new InvalidArgument "bearer token contains characters illegal in HTTP header values")
  end.

Definition from_parts (ch : Channel) (bearer : option string) (endpoint : string) (tls : option TlsConfig) : BrokkrClient :=
  mkBrokkrClient ch bearer endpoint tls.

Definition parse_endpoint (endpoint : string) : outcome ClientError () :=
  match endpoint_error endpoint with
  | Some e => Err (InvalidEndpoint ("invalid endpoint " +:+ str_debug endpoint +:+ ": " +:+ e))
  | None => Ok ()
  end.

Definition connect_plain (endpoint : string) : eff W ClientError Channel :=
  of_outcome (parse_endpoint endpoint);;
  map_err Transport (open_channel (mkChannel endpoint None));;
  mret (mkChannel endpoint None).

Definition connect_tls (endpoint : string) (cfg : TlsConfig) : eff W ClientError Channel :=
  match client_cert cfg, client_key cfg with
  | Some _, None | None, Some _ =>
      throw (TlsConfigError "both client_cert and client_key must be provided for client identity")
  | _, _ =>
      of_outcome (parse_endpoint endpoint);;
      ca_pem ← map_err CertificateRead (read_pem (ca_cert cfg));
      identity ← match client_cert cfg, client_key cfg with
                 | Some cert, Some key =>
                     cert_pem ← map_err CertificateRead (read_pem cert);
                     key_pem ← map_err CertificateRead (read_pem key);
                     mret (Some (cert_pem, key_pem))
                 | _, _ => mret None
                 end;
      match tls_error (ca_pem, identity) with
      | Some e => throw (Transport e)
      | None =>
          map_err Transport (open_channel (mkChannel endpoint (Some (ca_pem, identity))));;
          mret (mkChannel endpoint (Some (ca_pem, identity)))
      end
  end.

Definition connect (endpoint : string) : eff W ClientError BrokkrClient :=
  ch ← connect_plain endpoint; mret (from_parts ch None endpoint None).

Definition connect_with_tls (endpoint : string) (tls : TlsConfig) : eff W ClientError BrokkrClient :=
  ch ← connect_tls endpoint tls; mret (from_parts ch None endpoint (Some tls)).

Definition connect_with_bearer (endpoint bearer : string) : eff W ClientError BrokkrClient :=
  ch ← connect_plain endpoint; mret (from_parts ch (Some bearer) endpoint None).

Definition connect_with_tls_and_bearer (endpoint : string) (tls : TlsConfig) (bearer : string) : eff W ClientError BrokkrClient :=
  ch ← connect_tls endpoint tls; mret (from_parts ch (Some bearer) endpoint (Some tls)).

(** The endpoints in order; the error is the last one's. *)
Fixpoint connect_any_from (last_error : option ClientError) (endpoints : list string) : eff W ClientError BrokkrClient :=
  match endpoints with
  | [] => throw (default (InvalidEndpoint "no control-plane endpoints configured") last_error)
  | endpoint :: endpoints =>
      r ← attempt (connect endpoint);
      match r with
      | inr client => mret client
      | inl e => connect_any_from (Some e) endpoints
      end
  end.

Definition connect_any (endpoints : list string) : eff W ClientError BrokkrClient := connect_any_from None endpoints.

Definition reconnect_to (c : BrokkrClient) (url : string) : eff W ClientError BrokkrClient :=
  match bc_tls c, bc_bearer c with
  | Some tls, Some token => connect_with_tls_and_bearer url tls token
  | Some tls, None => connect_with_tls url tls
  | None, Some token => connect_with_bearer url token
  | None, None => connect url
  end.

Definition exhausted_status (status : RpcStatus) : RpcStatus :=
  status_new FailedPrecondition ("leader redirect not resolved within " +:+ pretty MAX_LEADER_HOPS +:+
    " hops; the cluster's leadership may be unstable (last hint: " +:+
    hint_debug (rs_metadata status !! LEADER_HINT_METADATA_KEY) +:+ ")").

(** [clone_status] keeps the code, the message and the metadata. *)
Definition follow_redirect (c : BrokkrClient) (status : RpcStatus) (hops : nat) : eff W RpcStatus BrokkrClient :=
  match classify_redirect status hops with
  | Follow addr _ =>
      let url := hint_to_url addr (bc_endpoint c) in
      map_err (λ e, status_new Unavailable ("redirect to leader " +:+ url +:+ ": " +:+ client_error_text e)) (reconnect_to c url)
  | Exhausted => throw (exhausted_status status)
  | Unroutable _ => throw status
  | NoRedirect => throw status
  end.

(** A call through the interceptor of the client. *)
Definition with_bearer {X} (c : BrokkrClient) (call : Metadata → eff W RpcStatus X) : eff W RpcStatus X :=
  md ← of_outcome (bearer_interceptor (bc_bearer c) ∅); call md.

(** A method that takes [&mut self]: the client, and the world. *)
Definition on_wire {E X} (m : eff W E X) : eff (BrokkrClient * W) E X := zoom snd (λ w s, (s.1, w)) m.

(** The loop both cache calls have: ask, and follow the leader. *)
Fixpoint ask_leader {X} (failure : string) (ask : BrokkrClient → eff W RpcStatus X) (miss : RpcStatus → option X)
    (hops : list nat) (client : BrokkrClient) : eff (BrokkrClient * W) RpcStatus X :=
  match hops with
  | [] => throw (status_new FailedPrecondition failure)
  | h :: hops =>
      r ← attempt (on_wire (ask client));
      match r with
      | inr x => mret x
      | inl status =>
          match miss status with
          | Some x => mret x
          | None =>
              client ← on_wire (follow_redirect client status h);
              modify (λ s, (client, s.2));;
              ask_leader failure ask miss hops client
          end
      end
  end.

Definition ask_hops : list nat := seq 0 (MAX_LEADER_HOPS + 1).

Definition client_get_action_result (action_digest : pb_Digest) : eff (BrokkrClient * W) RpcStatus (option ActionResult) :=
  client ← gets fst;
  ask_leader "leader redirect not resolved for GetActionResult"
    (λ c, with_bearer c (λ md, r ← rpc_get_action_result (bc_channel c) md "" (Some action_digest); mret (Some r)))
    (λ status, if decide (rs_code status = NotFound) then Some None else None) ask_hops client.

Definition client_update_action_result (action_digest : pb_Digest) (r : ActionResult) : eff (BrokkrClient * W) RpcStatus ActionResult :=
  client ← gets fst;
  ask_leader "leader redirect not resolved for UpdateActionResult"
    (λ c, with_bearer c (λ md, rpc_update_action_result (bc_channel c) md "" (Some action_digest) (Some r)))
    (λ _, None) ask_hops client.

Definition failed_status (s : option pb_Status) : bool :=
  match s with Some s => negb (ps_code s =? 0)%Z | None => false end.

Definition find_blob (c : BrokkrClient) (h : string) (size : Z) : eff W RpcStatus (option bytes) :=
  responses ← with_bearer c (λ md, rpc_batch_read_blobs (bc_channel c) md "" [mkpbDigest h size]);
  match responses with
  | r :: _ => if failed_status (rd_status r) then mret None else mret (Some (rd_data r))
  | [] => mret None
  end.

(** *** Running a command *)

Definition check_status (resp : ExecuteResponse) : ExecuteError + ActionResult :=
  match er_status resp with
  | Some s =>
      if negb (ps_code s =? 0)%Z then inl (ExecuteStatus (ps_code s) (ps_message s))
      else match er_result resp with Some r => inr r | None => inl MissingResult end
  | None => match er_result resp with Some r => inr r | None => inl MissingResult end
  end.

Definition operation_error (s : pb_Status) : ExecuteError := ExecuteStatus (ps_code s) (ps_message s).

Context `{Sha256, DirCodec, ExecEncoder, ExecuteResponseCodec}.

Definition sdk_digest_of (b : bytes) : pb_Digest := mkpbDigest (sha256_hex b) (as_i64 (N.of_nat (length b))).

(** The messages an invocation is made of, each with its digest: the action, the
    command and the empty input root. *)
Definition command_of (argv : list string) : Command := mkCommand argv [] None "" [].
Definition empty_root : Directory := mkDirectory [] [] [] [].
Definition action_of (argv : list string) : Action :=
  mkAction (Some (sdk_digest_of (enc_Command (command_of argv)))) (Some (sdk_digest_of (enc_dir empty_root))) None None [].

Definition command_blobs (argv : list string) : list bytes :=
  [enc_Action (action_of argv); enc_Command (command_of argv); enc_dir empty_root].

Definition blob_key (d : pb_Digest) : string * Z := (pd_hash d, pd_size_bytes d).

Definition rejection (r : UpdateResponse) : option string :=
  if failed_status (up_status r) then
    let digest := match up_digest r with Some d => pd_hash d +:+ "/" +:+ pretty (pd_size_bytes d) | None => "<no digest>" end in
    let '(code, message) := match up_status r with Some s => (ps_code s, ps_message s) | None => ((-1)%Z, "") end in
    Some ("CAS rejected blob " +:+ digest +:+ ": code=" +:+ pretty code +:+ " message=" +:+ str_debug message)
  else None.

Definition upload_missing (c : BrokkrClient) (blobs : list bytes) : eff W RunError () :=
  let candidates := (λ b, (sdk_digest_of b, b)) <$> blobs in
  missing ← map_err RunRpc (with_bearer c (λ md, rpc_find_missing_blobs (bc_channel c) md "" candidates.*1));
  let requests := (λ p : pb_Digest * bytes, mkUpdateRequest (Some p.1) p.2) <$>
                    filter (λ p : pb_Digest * bytes, blob_key p.1 ∈ blob_key <$> missing) candidates in
  match requests with
  | [] => mret ()
  | _ =>
      responses ← map_err RunRpc (with_bearer c (λ md, rpc_batch_update_blobs (bc_channel c) md "" requests));
      match omap rejection responses with
      | msg :: _ => throw (RunMessage [msg])
      | [] => mret ()
      end
  end.

(** The stream, up to the operation that is done. *)
Fixpoint read_operations (stream : list (RpcStatus + Operation)) : RunError + RunOutcome :=
  match stream with
  | [] => inl (RunMessage ["control plane closed stream before completion"])
  | inl status :: _ => inl (RunRpc status)
  | inr op :: stream =>
      if negb (op_done op) then read_operations stream
      else
        match op_result op with
        | Some (OpResponse any) =>
            match dec_ExecuteResponse any with
            | inl e => inl (RunMessage ["decoding ExecuteResponse"; e])
            | inr resp =>
                match check_status resp with
                | inl e => inl (RunExecute e)
                | inr r => inr (mkRunOutcome (exit_code r) (stdout_raw r) (stderr_raw r) (er_cached_result resp) (er_message resp))
                end
            end
        | Some (OpError s) => inl (RunExecute (operation_error s))
        | None => inl (RunMessage ["Operation done with no result"])
        end
  end.

Definition run_command (c : BrokkrClient) (argv : list string) (skip_cache_lookup : bool) : eff W RunError RunOutcome :=
  upload_missing c (command_blobs argv);;
  stream ← map_err RunRpc (with_bearer c (λ md,
             rpc_execute (bc_channel c) md "" (Some (sdk_digest_of (enc_Action (action_of argv)))) skip_cache_lookup));
  match read_operations stream with
  | inr o => mret o
  | inl e => throw e
  end.

End client.
