(* ===== verification/Worker.v ===== *)
(** * brokkr-worker: running jobs

    Models [crates/brokkr-worker/src/endpoint.rs] (which node to try next, and
    when), [runner.rs] (running a command, plainly or in the sandbox) and
    [worker.rs] (a job from its assignment to its report, and the loop that
    attaches to a node).  Processes and the sandbox are parameters; a pipe is the
    list of what the reads from it return. *)

From stdpp Require Import prelude gmap strings pretty.
From Stdlib Require Import Lia Ascii.
From S2P Require Import Prelude Machine Bytes Common Redb Cas ActionCache Fs Tree FairQueue Lease Registry Scheduling Scheduler Execute Services Client.

Local Open Scope N_scope.

(** ** [endpoint.rs] *)

Record ControlPlane : Type := mkControlPlane { cp_client : string; cp_worker : option string }.

Definition single_port (url : string) : ControlPlane := mkControlPlane url None.

Definition worker_url (p : ControlPlane) : string := default (cp_client p) (cp_worker p).

(** In milliseconds. *)
Definition BASE_BACKOFF : N := 250.
Definition MAX_BACKOFF : N := 30000.

(** [1u64.checked_shl(n)]. *)
Definition checked_shl_1 (n : N) : option N := if n <? 64 then Some (2 ^ n) else None.

(** The endpoint of an attempt, and the milliseconds to wait before it. *)
Definition rotation_plan (len attempt : N) : N * N :=
  if len =? 0 then (0, MAX_BACKOFF)
  else
    let index := attempt mod len in
    let completed_cycles := attempt / len in
    if completed_cycles =? 0 then (index, 0)
    else
      let shift := (completed_cycles mod 2 ^ 32 + (2 ^ 32 - 1)) mod 2 ^ 32 in
      let factor := default u64_max (checked_shl_1 shift) in
      let millis := N.min (N.min (BASE_BACKOFF * factor) (2 ^ 128 - 1)) MAX_BACKOFF in
      let jitter := (attempt * 37) mod 100 in
      (index, N.min (millis + jitter) MAX_BACKOFF).

(** ** [runner.rs] *)

(** A path as [std::path] sees it on Unix: the parts between its slashes. *)
Fixpoint path_parts_from (part : string) (s : string) : list string :=
  match s with
  | EmptyString => [part]
  | String a s => if Ascii.eqb a "/"%char then part :: path_parts_from "" s else path_parts_from (part +:+ String a "") s
  end.

Definition path_parts (s : string) : list string := path_parts_from "" s.

Definition path_is_absolute (s : string) : bool := match s with String a _ => Ascii.eqb a "/"%char | EmptyString => false end.

(** [components().any(|c| matches!(c, ParentDir))]. *)
Definition has_parent_dir (s : string) : bool := bool_decide (".." ∈ path_parts s).

Fixpoint ends_with_slash (s : string) : bool :=
  match s with EmptyString => false | String a EmptyString => Ascii.eqb a "/"%char | String _ s => ends_with_slash s end.

(** [base.join(p)]. *)
Definition path_join (base p : string) : string :=
  if path_is_absolute p then p
  else if String.eqb base "" || ends_with_slash base then base +:+ p
  else base +:+ "/" +:+ p.

(** What a read from a pipe returns; end of file is the end of the list, or a
    read of no bytes. *)
Inductive PipeRead : Type := ReadChunk (b : bytes) | ReadFailed.

Definition MAX_CAPTURED_OUTPUT_BYTES : nat := 50 * 1024 * 1024.

Fixpoint read_capped_from (cap : nat) (buf : bytes) (reads : list PipeRead) : bytes :=
  match reads with
  | [] => buf
  | ReadChunk [] :: _ => buf
  | ReadChunk chunk :: reads =>
      let buf := if (length buf <? cap)%nat then buf ++ take (min (cap - length buf) (length chunk)) chunk else buf in
      read_capped_from cap buf reads
  | ReadFailed :: _ => buf
  end.

Definition read_capped (cap : nat) (reads : list PipeRead) : bytes := read_capped_from cap [] reads.

(** A spawned child: its two pipes, and what waiting for it comes to. *)
Record Child : Type := mkChild {
  child_stdout : list PipeRead;
  child_stderr : list PipeRead;
  child_wait : string + option Z
}.

Inductive ExitStatus : Type := Exited (code : Z) | Signaled (signal : Z) | OutOfMemory | TimedOut.

Record SandboxOutcome : Type := mkSandboxOutcome { so_exit_status : ExitStatus; so_stdout : bytes; so_stderr : bytes }.

(** What a worker-level template fixes besides the working directory: root file
    system, limits, network and determinism. *)
Class SandboxSettings : Type := Settings : Type.

Record SandboxTemplate `{SandboxSettings} : Type := mkSandboxTemplate { tp_settings : Settings; tp_workdir : string }.

Record SandboxConfig `{SandboxSettings} : Type := mkSandboxConfig {
  sc_argv : list string;
  sc_env : list (string * string);
  sc_workdir : option string;
  sc_settings : Settings;
  sc_no_isolation : bool
}.

Arguments mkSandboxTemplate {_} _ _.
Arguments mkSandboxConfig {_} _ _ _ _ _.

Class Processes (W : Type) `{SandboxSettings} : Type := {
  spawn : string → list string → list (string * string) → eff W string Child;
  sandbox_run : SandboxConfig → eff W string SandboxOutcome
}.

Inductive Runner `{SandboxSettings} : Type := Plain | Sandboxed (template : SandboxTemplate).

Arguments Plain {_}.
Arguments Sandboxed {_} _.

Record RunnerOutcome : Type := mkRunnerOutcome { rn_exit_code : Z; rn_stdout : bytes; rn_stderr : bytes }.

Section runner.
Context {W : Type} `{Processes W, RpcText}.

Definition env_pairs (command : Command) : list (string * string) :=
  (λ ev, (ev_name ev, ev_value ev)) <$> cm_environment_variables command.

Definition run_plain (command : Command) : eff W string RunnerOutcome :=
  match cm_arguments command with
  | [] => throw "Command.arguments is empty"
  | argv0 :: args =>
      child ← map_err (λ e, "spawning " +:+ argv0 +:+ ": " +:+ e) (spawn argv0 args (env_pairs command));
      match child_wait child with
      | inl e => throw ("waiting for " +:+ argv0 +:+ ": " +:+ e)
      | inr code =>
          mret (mkRunnerOutcome (default (-1)%Z code) (read_capped MAX_CAPTURED_OUTPUT_BYTES (child_stdout child))
                  (read_capped MAX_CAPTURED_OUTPUT_BYTES (child_stderr child)))
      end
  end.

Definition resolve_workdir (base working_directory : string) : string + string :=
  if String.eqb working_directory "" then inr base
  else if path_is_absolute working_directory || has_parent_dir working_directory then
    inl ("invalid working_directory " +:+ str_debug working_directory +:+
           ": must be a relative path with no '..' components")
  else inr (path_join base working_directory).

Definition exit_code_of (s : ExitStatus) : Z :=
  match s with
  | Exited c => c
  | Signaled signal => 128 + signal
  | OutOfMemory => 137
  | TimedOut => 124
  end.

Definition run_sandboxed (template : SandboxTemplate) (command : Command) : eff W string RunnerOutcome :=
  match cm_arguments command with
  | [] => throw "Command.arguments is empty"
  | argv =>
      match resolve_workdir (tp_workdir template) (cm_working_directory command) with
      | inl e => throw e
      | inr workdir =>
          outcome ← map_err (λ e, "sandbox: " +:+ e)
            (sandbox_run (mkSandboxConfig argv (env_pairs command) (Some workdir) (tp_settings template) false));
          mret (mkRunnerOutcome (exit_code_of (so_exit_status outcome)) (so_stdout outcome) (so_stderr outcome))
      end
  end.

Definition worker_run_command (runner : Runner) (command : Command) : eff W string RunnerOutcome :=
  match runner with
  | Plain => run_plain command
  | Sandboxed template => run_sandboxed template command
  end.

(** ** [worker.rs] *)

Context `{Wire W, Sha256}.
Context (status_text : RpcStatus → string).

Definition proto_digest (b : bytes) : pb_Digest := mkpbDigest (sha256_hex b) (as_i64 (N.of_nat (length b))).

(** The answers to the upload are not looked at, only whether the call failed. *)
Definition handle_job (runner : Runner) (cas : Channel) (job : Job) : eff W string ActionResult :=
  match jb_command job with
  | None => throw "Job missing Command"
  | Some command =>
      o ← worker_run_command runner command;
      let out := proto_digest (rn_stdout o) in
      let err := proto_digest (rn_stderr o) in
      map_err status_text (rpc_batch_update_blobs cas ∅ ""
        [mkUpdateRequest (Some out) (rn_stdout o); mkUpdateRequest (Some err) (rn_stderr o)]);;
      mret (mkActionResult [] [] (rn_exit_code o) (rn_stdout o) (Some out) (rn_stderr o) (Some err) [])
  end.

(** The report of a job, whatever became of it. *)
Definition report_of (runner : Runner) (cas : Channel) (job : Job) {E} : eff W E JobResult :=
  r ← attempt (handle_job runner cas job);
  mret match r with
       | inr res => mkJobResult (jb_job_id job) (Some res) ""
       | inl e => mkJobResult (jb_job_id job) None e
       end.

(** The assignments of a stream up to its end or its failure, each job with
    whether the stream takes its report: the reports sent, and the failure. *)
Fixpoint serve_assignments (runner : Runner) (cas : Channel) (inbound : list (RpcStatus + option (Job * bool))) {E}
    : eff W E (list JobResult * option RpcStatus) :=
  match inbound with
  | [] => mret ([], None)
  | inl status :: _ => mret ([], Some status)
  | inr None :: inbound => serve_assignments runner cas inbound
  | inr (Some (job, taken)) :: inbound =>
      r ← report_of runner cas job;
      if taken : bool then
        rest ← serve_assignments runner cas inbound;
        mret (r :: rest.1, rest.2)
      else mret ([], None)
  end.

End runner.

(** The cadence of the heartbeats, in seconds, from the one registration replied. *)
Definition heartbeat_period (heartbeat_seconds : N) : N := N.max heartbeat_seconds 1.

(** The startup checks of [run_worker]: the error it returns with. *)
Definition worker_config_error (control_planes : list ControlPlane) (has_client_cert : bool) : option string :=
  match control_planes with
  | [] => Some "no control-plane endpoints configured"
  | _ =>
      match filter (λ p, match strip_prefix "https://" (worker_url p) with Some _ => true | None => false end && negb has_client_cert = true)
              control_planes with
      | p :: _ =>
          Some ("control plane worker endpoint " +:+ worker_url p +:+ " is https but no --client-cert/--client-key configured; " +:+
                "refusing to start (would fail every Register/Heartbeat/Stream with TLS handshake error — issue #139)")
      | [] => None
      end
  end.

(** The attempts of [run_worker]: [sessions] says of each session in turn whether
    it got as far as registering; the result is the endpoint and the wait of each
    session. *)
Fixpoint run_worker_from (len : N) (attempt : N) (sessions : list bool) : list (N * N) :=
  match sessions with
  | [] => []
  | registered :: sessions =>
      rotation_plan len attempt ::
      run_worker_from len (if registered then 0 else N.min (attempt + 1) (2 ^ 64 - 1)) sessions
  end.
