(* ===== verification/ServiceTheorems.v ===== *)
(** * brokkr-control: theorems about the services

    The content-addressable storage service answers for every entry of a batch
    and stores what it acknowledges; requests are authenticated before a handler
    sees them; the generation of a topology names its view; a worker that keeps
    the cadence it is told is not evicted. *)

From stdpp Require Import prelude gmap strings pretty.
From Stdlib Require Import Lia.
From S2P Require Import Prelude Machine Bytes Common Redb Cas CasBackends ActionCache CasDemo FairQueue Lease Registry Scheduling Scheduler Execute Services Client.

Local Open Scope N_scope.

(** ** Metadata *)

Lemma metadata_get_insert `{Headers} key v (md : Metadata) :
  metadata_get key (<[key := v]> md) = if header_reads v then Some v else None.
Proof. unfold metadata_get. by rewrite (lookup_insert_eq (M := gmap string) md key v). Qed.

Lemma metadata_get_insert_ne `{Headers} key key' v (md : Metadata) :
  key' ≠ key → metadata_get key (<[key' := v]> md) = metadata_get key md.
Proof. intros Hne. unfold metadata_get. by rewrite (lookup_insert_ne (M := gmap string) md key' key v). Qed.

(** ** Uploads *)

Section cas_service.
Context {C : Type} `{CasSpec C, ErrText, RpcText}.
Context (limits : BatchLimits).

Lemma proto_to_digest_inv pd d : proto_to_digest pd = Ok d → digest_to_proto d = pd ∧ d = mkDigest (pd_hash pd) (pd_size_bytes pd).
Proof using.
  unfold proto_to_digest, Digest_new. destruct (negb (_ =? _)%N); [done|]. destruct (negb (all_chars _ _)); [done|].
  destruct (_ <? 0)%Z; [done|]. intros [= <-]. by destruct pd.
Qed.

(** A refusal of the request itself is the client's fault. *)
Definition refused (s : RpcStatus) : Prop := rs_code s = InvalidArgument.

Lemma proto_to_digest_refused pd s : proto_to_digest pd = Err s → refused s.
Proof using. unfold proto_to_digest. destruct (Digest_new _ _); [done| |done]. by intros [= <-]. Qed.

Lemma proto_to_digest_returns pd : proto_to_digest pd ≠ Halt.
Proof using. unfold proto_to_digest, Digest_new. by repeat case_match. Qed.

(** An entry of the batch and its response before the backend is asked: no status
    yet, if its data has the declared digest, and else a refusal. *)
Definition sorted_entry (r : UpdateRequest) (resp : UpdateResponse) : Prop :=
  ∃ pd d, uq_digest r = Some pd ∧ proto_to_digest pd = Ok d ∧ up_digest resp = Some pd ∧
    match up_status resp with
    | None => d = Digest_of (uq_data r)
    | Some s => ps_code s = 3%Z ∧ d ≠ Digest_of (uq_data r)
    end.

(** The entries for the backend: those without a status, each once. *)
Definition sorted_batch (rs : list UpdateRequest) (g : Accepting) : Prop :=
  Forall2 sorted_entry rs (ag_responses g) ∧
  Forall2 (λ i p, ∃ r resp, rs !! i = Some r ∧ ag_responses g !! i = Some resp ∧ up_status resp = None ∧
                    p = (Digest_of (uq_data r), uq_data r)) (ag_indices g) (ag_blobs g) ∧
  NoDup (ag_indices g) ∧
  ∀ i resp, ag_responses g !! i = Some resp → up_status resp = None → i ∈ ag_indices g.

Lemma accept_one_sorted rs g r :
  sorted_batch rs g →
  match accept_one g r with Ok g' => sorted_batch (rs ++ [r]) g' | Err s => refused s | Halt => False end.
Proof using.
  intros (Hr & Hb & Hnd & Hall). unfold accept_one.
  destruct (uq_digest r) as [pd|] eqn:Hd; [|done]. pose proof (proto_to_digest_returns pd).
  destruct (proto_to_digest pd) as [d|s|] eqn:Hp; [|by eapply proto_to_digest_refused|done].
  pose proof (proto_to_digest_inv _ _ Hp) as [Hpd _]. pose proof (Forall2_length _ _ _ Hr) as Hlen.
  assert (∀ resp, Forall2 (λ i p, ∃ r0 resp0, (rs ++ [r]) !! i = Some r0 ∧ (ag_responses g ++ [resp]) !! i = Some resp0 ∧
            up_status resp0 = None ∧ p = (Digest_of (uq_data r0), uq_data r0)) (ag_indices g) (ag_blobs g)) as Hold.
  { intros resp. eapply Forall2_impl; [exact Hb|]. intros i p (r0 & resp0 & ? & ? & ? & ?).
    exists r0, resp0. split_and!; [by apply lookup_app_l_Some..|done|done]. }
  destruct (Digest_verify_total d (uq_data r)) as [Hv|[e Hv]]; rewrite Hv.
  - apply Digest_verify_ok in Hv. split_and!; cbn.
    + apply Forall2_app; [done|]. apply Forall2_cons; split; [|constructor]. exists pd, d. cbn. by rewrite Hpd.
    + apply Forall2_app; [apply Hold|]. apply Forall2_cons; split; [|constructor]. cbn.
      exists r, (mkUpdateResponse (Some (digest_to_proto d)) None). split_and!; [|by rewrite list_lookup_middle|done|by rewrite Hv].
      rewrite lookup_app_r by lia. by rewrite Hlen, Nat.sub_diag.
    + apply NoDup_app. split_and!; [done| |apply NoDup_singleton]. intros i Hi ->%list_elem_of_singleton.
      apply list_elem_of_lookup in Hi as [k Hk]. destruct (Forall2_lookup_l _ _ _ _ _ Hb Hk) as (p & _ & r0 & resp0 & _ & Hl & _).
      apply lookup_lt_Some in Hl. lia.
    + intros i resp Hi Hs. apply elem_of_app. apply lookup_app_Some in Hi as [Hi|[Hge Hi]]; [left; by eapply Hall|right].
      apply list_lookup_singleton_Some in Hi as [Hi _]. apply list_elem_of_singleton. lia.
  - split_and!; cbn; [|apply Hold|done|].
    + apply Forall2_app; [done|]. apply Forall2_cons; split; [|constructor]. exists pd, d. cbn. rewrite Hpd. split_and!; [done..|].
      intros E. apply Digest_verify_ok in E. congruence.
    + intros i resp Hi Hs. apply lookup_app_Some in Hi as [Hi|[Hge Hi]]; [by eapply Hall|].
      apply list_lookup_singleton_Some in Hi as [_ <-]. done.
Qed.

Lemma accept_all_sorted rest : ∀ rs g,
  sorted_batch rs g →
  match accept_all g rest with Ok g' => sorted_batch (rs ++ rest) g' | Err s => refused s | Halt => False end.
Proof using.
  induction rest as [|r rest IH]; intros rs g Hg; cbn [accept_all]; [by rewrite app_nil_r|].
  pose proof (accept_one_sorted rs g r Hg) as Hone. destruct (accept_one g r) as [g'|s|]; [|done..].
  specialize (IH (rs ++ [r]) g' Hone). by rewrite <-app_assoc in IH.
Qed.

Lemma fill_statuses_spec l : ∀ resps,
  NoDup l.*1 → (∀ i u, (i, u) ∈ l → is_Some (resps !! i)) →
  ∃ resps', fill_statuses resps l = Ok resps' ∧ length resps' = length resps ∧
    (∀ i u, (i, u) ∈ l → resps' !! i = (λ r, mkUpdateResponse (up_digest r) (Some (status_of_update u))) <$> resps !! i) ∧
    (∀ i, i ∉ l.*1 → resps' !! i = resps !! i).
Proof using.
  induction l as [|[i u] l IH]; intros resps Hnd Hin; cbn [fill_statuses].
  { exists resps. split_and!; [done..| |done]. intros i u Hi. by apply elem_of_nil in Hi. }
  rewrite fmap_cons in Hnd. apply NoDup_cons in Hnd as [Hi Hnd]. cbn in Hi.
  destruct (Hin i u) as [r Hr]; [left|]. rewrite Hr.
  destruct (IH (<[i:=mkUpdateResponse (up_digest r) (Some (status_of_update u))]> resps) Hnd) as (resps' & -> & Hlen & Hset & Hkeep).
  { intros j v Hj. destruct (decide (i = j)) as [->|Hne]; [by rewrite list_lookup_insert_eq by by eapply lookup_lt_Some|].
    rewrite list_lookup_insert_ne by done. apply (Hin j v). by right. }
  exists resps'. split_and!; [done|by rewrite Hlen, length_insert| |].
  - intros j v [[= -> ->]|Hj]%elem_of_cons.
    + rewrite Hkeep by done. rewrite list_lookup_insert_eq by by eapply lookup_lt_Some. by rewrite Hr.
    + rewrite (Hset j v Hj). destruct (decide (i = j)) as [->|Hne]; [|by rewrite list_lookup_insert_ne].
      destruct Hi. by apply (list_elem_of_fmap_2 fst _ _ Hj).
  - intros j Hj. rewrite fmap_cons in Hj. apply not_elem_of_cons in Hj as [Hne Hj]. rewrite Hkeep by done.
    by rewrite list_lookup_insert_ne.
Qed.

(** What a response says of its entry: a status of zero, only if the data has the
    digest and the store holds it; and otherwise a refusal of this entry. *)
Definition upload_answer (has : Digest → bool) (r : UpdateRequest) (resp : UpdateResponse) : Prop :=
  ∃ pd s, uq_digest r = Some pd ∧ up_digest resp = Some pd ∧ up_status resp = Some s ∧
    (ps_code s = 0%Z → pd = digest_to_proto (Digest_of (uq_data r)) ∧ has (Digest_of (uq_data r)) = true) ∧
    (ps_code s ≠ 0%Z → ps_code s = 3%Z) ∧
    (pd ≠ digest_to_proto (Digest_of (uq_data r)) → ps_code s = 3%Z).

Lemma status_of_update_code u : ps_code (status_of_update u) = if status_ok u then 0%Z else 3%Z.
Proof using. unfold status_of_update, status_ok. by destruct (ur_status u). Qed.

(** Every index is in range. *)
Lemma fill_in_range rs g results c c' :
  sorted_batch rs g → update_post cas_ok cas_has c (ag_blobs g) results c' →
  ∃ resps, fill_statuses (ag_responses g) (zip (ag_indices g) results) = Ok resps.
Proof using.
  intros (_ & Hb & Hnd & _) (_ & Hres & _). pose proof (Forall2_length _ _ _ Hb). pose proof (Forall2_length _ _ _ Hres).
  destruct (fill_statuses_spec (zip (ag_indices g) results) (ag_responses g)) as (resps & Hf & _); [|
    |by exists resps].
  - by rewrite fst_zip by lia.
  - intros i u Hi. apply list_elem_of_lookup in Hi as [k Hk]. apply lookup_zip_with_Some in Hk as (i' & u' & [= <- <-] & Hi & _).
    destruct (Forall2_lookup_l _ _ _ _ _ Hb Hi) as (p & _ & r & resp & _ & -> & _). by eexists.
Qed.

(** The responses once the backend has answered. *)
Lemma filled_answers rs g results c c' resps :
  sorted_batch rs g → update_post cas_ok cas_has c (ag_blobs g) results c' →
  fill_statuses (ag_responses g) (zip (ag_indices g) results) = Ok resps →
  Forall2 (upload_answer (cas_has c')) rs resps ∧
  ∀ d, cas_has c' d = true → cas_has c d = true ∨
    ∃ r resp, (r, resp) ∈ zip rs resps ∧ failed_status (up_status resp) = false ∧ sha256_hex (uq_data r) = hash d.
Proof using.
  intros (Hr & Hb & Hnd & Hall) (_ & Hres & _ & Hdown) Hfill.
  pose proof (Forall2_length _ _ _ Hb) as Hlb. pose proof (Forall2_length _ _ _ Hres) as Hlr. pose proof (Forall2_length _ _ _ Hr) as Hlen.
  assert ((zip (ag_indices g) results).*1 = ag_indices g) as Hfst by (apply fst_zip; lia).
  assert (∀ i u, (i, u) ∈ zip (ag_indices g) results → ∃ r resp, rs !! i = Some r ∧ ag_responses g !! i = Some resp ∧
            up_status resp = None ∧ (status_ok u = true → cas_has c' (Digest_of (uq_data r)) = true) ∧
            ((Digest_of (uq_data r), uq_data r), u) ∈ zip (ag_blobs g) results) as Hzip.
  { intros i u Hi. apply list_elem_of_lookup in Hi as [k Hk]. apply lookup_zip_with_Some in Hk as (i' & u' & [= <- <-] & Hi & Hu).
    destruct (Forall2_lookup_l _ _ _ _ _ Hb Hi) as (p & Hp & r & resp & Hri & Hresp & Hs & ->).
    destruct (Forall2_lookup_lr _ _ _ _ _ _ Hres Hp Hu) as [_ Hok]. exists r, resp. split_and!; [done..| |].
    - intros Hu'. by apply Hok in Hu' as [_ ?].
    - apply list_elem_of_lookup. exists k. apply lookup_zip_with_Some. by eexists _, _. }
  destruct (fill_statuses_spec (zip (ag_indices g) results) (ag_responses g)) as (resps' & Hf & Hl & Hset & Hkeep).
  { by rewrite Hfst. }
  { intros i u Hi. destruct (Hzip i u Hi) as (_ & resp & _ & -> & _). by eexists. }
  rewrite Hf in Hfill. injection Hfill as ->. split.
  - apply Forall2_same_length_lookup. split; [lia|]. intros i r resp Hi Hresp.
    destruct (Forall2_lookup_l _ _ _ _ _ Hr Hi) as (resp0 & Hresp0 & pd & d & Hpd & Hd & Hup & Hst).
    apply proto_to_digest_inv in Hd as Hinv. destruct Hinv as [Hback _].
    destruct (decide (i ∈ ag_indices g)) as [Hin|Hout].
    + rewrite <-Hfst in Hin. apply list_elem_of_fmap in Hin as ([i' u] & -> & Hin). cbn in *.
      destruct (Hzip _ _ Hin) as (r' & resp0' & Hr' & Hresp0' & Hnone & Hok & _). simplify_eq.
      rewrite (Hset _ _ Hin), Hresp0 in Hresp. injection Hresp as <-. rewrite Hnone in Hst. subst d.
      exists (digest_to_proto (Digest_of (uq_data r))), (status_of_update u). cbn. rewrite status_of_update_code.
      split_and!; [done..| | |done]; [|by destruct (status_ok u)].
      destruct (status_ok u); [by auto|done].
    + rewrite Hkeep in Hresp by by rewrite Hfst. simplify_eq. destruct (up_status resp) as [s|] eqn:Hs; [|by destruct Hout; eapply Hall].
      destruct Hst as [Hc Hne]. exists (digest_to_proto d), s. split_and!; [done..| |done|done]. rewrite Hc. done.
  - intros d Hd. destruct (Hdown d Hd) as [?|(p & u & Hpu & Hok & Hh)]; [by left|right].
    apply list_elem_of_lookup in Hpu as [k Hk]. apply lookup_zip_with_Some in Hk as (p' & u' & [= <- <-] & Hp & Hu).
    destruct (Forall2_lookup_r _ _ _ _ _ Hb Hp) as (i & Hi & r & resp & Hri & Hresp & Hs & ->).
    exists r, (mkUpdateResponse (up_digest resp) (Some (status_of_update u))). split_and!; [| |done].
    + apply list_elem_of_lookup. exists i. apply lookup_zip_with_Some. eexists _, _. split; [done|]. split; [done|].
      rewrite (Hset i u), Hresp; [done|]. apply list_elem_of_lookup. exists k. apply lookup_zip_with_Some. by eexists _, _.
    + cbn. rewrite status_of_update_code, Hok. done.
Qed.

(** A call that is refused, or whose store failed, has stored nothing. *)
Definition nothing_stored (c : C) (s : RpcStatus) (c' : C) : Prop :=
  cas_keeps c c' ∧ (refused s ∧ c' = c ∨ rs_code s = Internal).

Lemma keeps_refl c : cas_ok c → cas_keeps c c.
Proof using. done. Qed.

Lemma wp_validate {A} instance_name (k : eff C RpcStatus A) Q c :
  cas_ok c → wp k Q (nothing_stored c) c →
  wp (of_outcome (validate_instance_name instance_name);; k) Q (nothing_stored c) c.
Proof using.
  intros Hok Hk. apply wp_bind, wp_of_outcome. unfold validate_instance_name. destruct (String.eqb _ _); [done|].
  split; [by apply keeps_refl|]. by left.
Qed.

Lemma wp_check_count {A} count (k : eff C RpcStatus A) Q c :
  cas_ok c → wp k Q (nothing_stored c) c →
  wp (of_outcome (check_blob_count limits count);; k) Q (nothing_stored c) c.
Proof using.
  intros Hok Hk. apply wp_bind, wp_of_outcome. unfold check_blob_count. destruct (_ <? _); [|done].
  split; [by apply keeps_refl|]. by left.
Qed.

Lemma svc_batch_update_spec instance_name requests c :
  cas_ok c → Forall (λ r, blob_fits (uq_data r)) requests →
  wp (svc_batch_update_blobs limits instance_name requests)
    (λ resps c', cas_ok c' ∧ Forall2 (upload_answer (cas_has c')) requests resps ∧
       (∀ d, cas_has c d = true → cas_has c' d = true) ∧
       ∀ d, cas_has c' d = true → cas_has c d = true ∨
         ∃ r resp, (r, resp) ∈ zip requests resps ∧ failed_status (up_status resp) = false ∧ sha256_hex (uq_data r) = hash d)
    (nothing_stored c) c.
Proof using.
  intros Hok Hfit. apply wp_validate; [done|]. apply wp_check_count; [done|].
  destruct (_ <? _); [apply wp_throw; split; [by apply keeps_refl|by left]|].
  apply wp_bind, wp_of_outcome.
  pose proof (accept_all_sorted requests [] (mkAccepting [] [] [])) as Hs. cbn [app] in Hs.
  destruct (accept_all _ requests) as [g|st|].
  2:{ split; [by apply keeps_refl|left]. split; [|done]. apply Hs. by repeat split; try constructor. }
  2:{ apply Hs. by repeat split; try constructor. }
  assert (sorted_batch requests g) as Hg by (apply Hs; by repeat split; try constructor).
  apply wp_bind, wp_map_err. eapply wp_mono; [apply batch_update_spec; [done|]| |].
  - destruct Hg as (_ & Hb & _). apply Forall_forall. intros p Hp. apply list_elem_of_lookup in Hp as [k Hp].
    destruct (Forall2_lookup_r _ _ _ _ _ Hb Hp) as (i & _ & r & resp & Hr & _ & _ & ->). cbn.
    by eapply (Forall_lookup_1 (λ r, blob_fits (uq_data r))).
  - intros results c' Hpost. apply wp_of_outcome.
    destruct (fill_statuses (ag_responses g) (zip (ag_indices g) results)) as [resps| |] eqn:Hf.
    + pose proof Hpost as (Hok' & _ & Hup & _). destruct (filled_answers _ _ _ _ _ _ Hg Hpost Hf). done.
    + destruct (fill_in_range requests g results c c' Hg Hpost) as [? E]. congruence.
    + destruct (fill_in_range requests g results c c' Hg Hpost) as [? E]. congruence.
  - intros e c' Hk. split; [done|]. by right.
Qed.

Definition digest_at (pd : pb_Digest) : Digest := mkDigest (pd_hash pd) (pd_size_bytes pd).

Lemma digest_at_to_proto pd : digest_to_proto (digest_at pd) = pd.
Proof using. by destruct pd. Qed.

Lemma wp_digests {A} ds (k : list Digest → eff C RpcStatus A) Q c :
  cas_ok c → wp (k (digest_at <$> ds)) Q (nothing_stored c) c →
  wp (digests ← mapM (λ d, of_outcome (proto_to_digest d)) ds; k digests) Q (nothing_stored c) c.
Proof using.
  intros Hok Hk. apply wp_bind.
  eapply wp_mono; [apply (wp_mapM_pre _ (λ pre bs c', c' = c ∧ bs = digest_at <$> pre) (nothing_stored c))| |done].
  - done.
  - intros pre a bs c' [-> ->] _. apply wp_of_outcome. pose proof (proto_to_digest_returns a).
    destruct (proto_to_digest a) as [d|st|] eqn:Hd; [| |done].
    + apply proto_to_digest_inv in Hd as [_ ->]. by rewrite fmap_app.
    + split; [by apply keeps_refl|left]. split; [by eapply proto_to_digest_refused|done].
  - intros bs c' [-> ->]. done.
Qed.

Lemma svc_find_missing_spec instance_name ds c :
  cas_ok c →
  wp (svc_find_missing_blobs limits instance_name ds)
    (λ ms c', cas_keeps c c' ∧ ms ≡ₚ filter (λ pd, cas_has c (digest_at pd) = false) ds) (nothing_stored c) c.
Proof using.
  intros Hok. apply wp_validate; [done|]. apply wp_check_count; [done|]. apply wp_digests; [done|].
  apply wp_bind, wp_map_err. eapply wp_mono; [by apply find_missing_spec| |].
  - intros m c' [Hk Hm]. apply wp_ret. split; [done|]. rewrite Hm.
    clear. induction ds as [|pd ds IH]; [done|]. rewrite fmap_cons, !filter_cons. destruct (decide _); [|exact IH].
    by rewrite fmap_cons, digest_at_to_proto, IH.
  - intros e c' Hk. split; [done|by right].
Qed.

(** The answer to a read of one blob. *)
Definition read_reply (held : bool) (pd : pb_Digest) (resp : ReadResponse) : Prop :=
  rd_digest resp = Some pd ∧
  if held then sha256_hex (rd_data resp) = pd_hash pd ∧ failed_status (rd_status resp) = false
  else rd_data resp = [] ∧ rd_status resp = Some (mkpbStatus 5 "blob not found").

Lemma svc_batch_read_spec instance_name ds c :
  cas_ok c →
  wp (svc_batch_read_blobs limits instance_name ds)
    (λ resps c', cas_keeps c c' ∧ Forall2 (λ pd, read_reply (cas_has c (digest_at pd)) pd) ds resps) (nothing_stored c) c.
Proof using.
  intros Hok. apply wp_validate; [done|]. apply wp_check_count; [done|]. apply wp_digests; [done|].
  apply wp_bind, wp_map_err. eapply wp_mono; [by apply batch_read_spec| |].
  - intros rs c' [Hk Hrs]. apply wp_ret. split; [done|]. apply Forall2_fmap_l in Hrs.
    induction Hrs as [|pd r ds rs Hr _ IH]; [constructor|]. rewrite fmap_cons. cbn [zip zip_with]. rewrite fmap_cons.
    apply Forall2_cons. split; [|exact IH]. unfold read_response, read_reply, read_answer in *. cbn [fst snd].
    destruct r as [b|e|]; [| |done]; cbn; rewrite digest_at_to_proto.
    + destruct Hr as (-> & ? & _). done.
    + destruct Hr as (-> & _). done.
  - intros e c' Hk. split; [done|by right].
Qed.

(** A client's calls to the service, in any order and with any outcome. *)
Inductive StorageCall : Type :=
| SFind (instance_name : string) (ds : list pb_Digest)
| SUpdate (instance_name : string) (rs : list UpdateRequest)
| SRead (instance_name : string) (ds : list pb_Digest).

Definition storage_fits (op : StorageCall) : Prop :=
  match op with SUpdate _ rs => Forall (λ r, blob_fits (uq_data r)) rs | _ => True end.

Definition storage_call (op : StorageCall) (c : C) : C :=
  match op with
  | SFind i ds => (svc_find_missing_blobs limits i ds c).1
  | SUpdate i rs => (svc_batch_update_blobs limits i rs c).1
  | SRead i ds => (svc_batch_read_blobs limits i ds c).1
  end.

Definition keeps_all (c c' : C) : Prop := cas_ok c' ∧ ∀ d, cas_has c d = true → cas_has c' d = true.

Lemma wp_state {A} (m : eff C RpcStatus A) (P : C → Prop) c : wp m (λ _, P) (λ _, P) c → P (m c).1.
Proof using. unfold wp. by destruct (m c) as [c' [a|e|]]. Qed.

Lemma keeps_all_of c c' : cas_keeps c c' → keeps_all c c'.
Proof using. intros [Hok Hh]. split; [done|]. intros d. by rewrite Hh. Qed.

Lemma storage_call_keeps op c : cas_ok c → storage_fits op → keeps_all c (storage_call op c).
Proof using.
  intros Hok Hfit. destruct op as [i ds|i rs|i ds]; cbn [storage_call].
  - apply (wp_state _ (keeps_all c)). eapply wp_mono; [by apply svc_find_missing_spec|intros ? ? [? _]|intros ? ? [? _]]; by apply keeps_all_of.
  - apply (wp_state _ (keeps_all c)). eapply wp_mono; [by apply svc_batch_update_spec|by intros ? ? (? & _ & ? & _)|intros ? ? [? _]; by apply keeps_all_of].
  - apply (wp_state _ (keeps_all c)). eapply wp_mono; [by apply svc_batch_read_spec|intros ? ? [? _]|intros ? ? [? _]]; by apply keeps_all_of.
Qed.

Lemma storage_run_keeps ops : ∀ c, cas_ok c → Forall storage_fits ops → keeps_all c (foldl (λ c op, storage_call op c) c ops).
Proof using.
  induction ops as [|op ops IH]; intros c Hok Hf; cbn [foldl]; [done|]. apply Forall_cons in Hf as [Hop Hf].
  destruct (storage_call_keeps op c Hok Hop) as [Hok1 Hk1]. destruct (IH _ Hok1 Hf) as [? Hk2]. split; [done|]. auto.
Qed.

(** C18.  What the storage service acknowledges, it serves.  A batch that is
    refused, or on which the store fails, has stored nothing.  In a batch that is
    answered, an entry whose status is zero declared the digest of its data; and
    after any further calls, whatever their outcome, no search reports it missing
    and every read returns bytes of that hash. *)
Theorem acknowledged_upload_is_served instance_name requests c ops :
  cas_ok c → Forall (λ r, blob_fits (uq_data r)) requests → Forall storage_fits ops →
  match svc_batch_update_blobs limits instance_name requests c with
  | (c', Ok resps) => length resps = length requests ∧
      ∀ i r resp, requests !! i = Some r → resps !! i = Some resp → failed_status (up_status resp) = false →
        let pd := digest_to_proto (Digest_of (uq_data r)) in
        let c2 := foldl (λ c op, storage_call op c) c' ops in
        uq_digest r = Some pd ∧
        (∀ i2 ds ms, returned (svc_find_missing_blobs limits i2 ds c2) = Some ms → pd ∉ ms) ∧
        (∀ i2 ds reads j, returned (svc_batch_read_blobs limits i2 ds c2) = Some reads → ds !! j = Some pd →
           ∃ read, reads !! j = Some read ∧ sha256_hex (rd_data read) = sha256_hex (uq_data r) ∧ failed_status (rd_status read) = false)
  | (c', Err s) => nothing_stored c s c'
  | (_, Halt) => False
  end.
Proof using.
  intros Hok Hfit Hops. pose proof (svc_batch_update_spec instance_name requests c Hok Hfit) as Hs. unfold wp in Hs.
  destruct (svc_batch_update_blobs limits instance_name requests c) as [c' [resps|s|]]; [|done..].
  destruct Hs as (Hok' & Hans & _). split; [by eapply eq_sym, Forall2_length|]. intros i r resp Hi Hresp Hst pd c2.
  destruct (Forall2_lookup_lr _ _ _ _ _ _ Hans Hi Hresp) as (pd' & st & Hpd & _ & Hup & Hzero & _ & _).
  rewrite Hup in Hst. cbn in Hst. apply negb_false_iff, Z.eqb_eq in Hst. destruct (Hzero Hst) as [-> Hheld].
  destruct (storage_run_keeps ops c' Hok' Hops) as [Hok2 Hk2]. fold c2 in Hok2, Hk2. apply Hk2 in Hheld.
  assert (cas_has c2 (digest_at pd) = true) as Hat by by destruct (Digest_of (uq_data r)).
  split_and!; [done| |].
  - intros i2 ds ms Hms Hin. apply (wp_returned _ _ _ _ _ (svc_find_missing_spec i2 ds c2 Hok2)) in Hms as [_ Hms].
    rewrite Hms in Hin. apply list_elem_of_filter in Hin as [? _]. congruence.
  - intros i2 ds reads j Hreads Hj. apply (wp_returned _ _ _ _ _ (svc_batch_read_spec i2 ds c2 Hok2)) in Hreads as [_ Hreads].
    destruct (Forall2_lookup_l _ _ _ _ _ Hreads Hj) as (read & Hread & _ & Hreply). rewrite Hat in Hreply. by exists read.
Qed.

End cas_service.

(** ** Authentication *)

Lemma strip_prefix_app p s : strip_prefix p (p +:+ s) = Some s.
Proof. induction p as [|a p IH]; [done|]. change (strip_prefix (String a p) (String a (p +:+ s)) = Some s). cbn [strip_prefix]. by rewrite Ascii.eqb_refl. Qed.

Lemma strip_prefix_Some p s t : strip_prefix p s = Some t → s = p +:+ t.
Proof.
  revert s. induction p as [|a p IH]; intros s; cbn; [by intros [= ->]|]. destruct s as [|b s]; [done|].
  destruct (Ascii.eqb_spec a b) as [->|]; [|done]. intros Ht. by rewrite (IH s Ht).
Qed.

Lemma Ident_new_str s i : Ident_new s = Ok i → id_str i = s.
Proof.
  unfold Ident_new. generalize (eq_refl (ident_ok s)). generalize (ident_ok s) at 2 3 as b.
  intros [] E; [|done]. by intros [= <-].
Qed.

Section auth.
Context `{Jwt, Headers, ErrText, RpcText, IdText}.

Lemma strip_bearer_Some value token :
  strip_bearer value = Some token → value = "Bearer " +:+ token ∨ value = "bearer " +:+ token.
Proof using.
  unfold strip_bearer. destruct (strip_prefix "Bearer " value) as [t|] eqn:Hp.
  - intros [= ->]. left. by apply strip_prefix_Some.
  - intros Hb%strip_prefix_Some. by right.
Qed.

Lemma jwt_authenticate_inr j token t :
  jwt_authenticate j token = inr t →
  ∃ claims, jwt_decode token (decoding_key j) (validation j) = inr claims ∧ claims !! tenant_claim j = Some (ClaimString (id_str t)).
Proof using.
  unfold jwt_authenticate. destruct (jwt_decode _ _ _) as [e|claims]; [done|].
  destruct (claims !! tenant_claim j) as [[s|]|] eqn:Hc; [|done..].
  unfold TenantId_new. destruct (Ident_new s) as [i|e|] eqn:Hi; [|done..]. intros [= <-].
  exists claims. split; [done|]. by rewrite (Ident_new_str _ _ Hi), Hc.
Qed.

(** C32.  With authentication on, a request reaches its handler only with a valid
    token, and runs as the tenant the token names, whatever tenant the request
    itself claims in its header; any other request is answered as
    unauthenticated.  A token a client was given reaches the validator as it is. *)
Theorem tenant_is_authenticated j r instance_name d skip :
  match auth_interceptor (AuthJwt j) r with
  | Ok r' => ∃ token claims t,
      (metadata_get "authorization" (in_metadata r) = Some ("Bearer " +:+ token) ∨
       metadata_get "authorization" (in_metadata r) = Some ("bearer " +:+ token)) ∧
      jwt_decode token (decoding_key j) (validation j) = inr claims ∧
      claims !! tenant_claim j = Some (ClaimString (id_str t)) ∧
      ∀ q, svc_execute r' instance_name d skip = Ok q → q.2 = t
  | Err s => rs_code s = Unauthenticated
  | Halt => False
  end ∧
  ∀ token md, bearer_interceptor (Some token) (in_metadata r) = Ok md → header_reads ("Bearer " +:+ token) = true →
    auth_interceptor (AuthJwt j) (mkIncoming md None) =
      match jwt_authenticate j token with
      | inr t => Ok (mkIncoming md (Some t))
      | inl e => Err (status_new Unauthenticated (auth_error_text e))
      end.
Proof using.
  split.
  - unfold auth_interceptor, authenticate. destruct (metadata_get "authorization" (in_metadata r)) as [v|]; cbn; [|done].
    destruct (strip_bearer v) as [token|] eqn:Hb; [|done]. destruct (jwt_authenticate j token) as [e|t] eqn:Hj; [done|].
    destruct (jwt_authenticate_inr _ _ _ Hj) as (claims & Hd & Hc). exists token, claims, t. split_and!; [|done|done|].
    + apply strip_bearer_Some in Hb as [->| ->]; auto.
    + intros q. unfold svc_execute. destruct (validate_instance_name _); [|done..]. destruct (action_digest_of d); [|done..].
      by intros [= <-].
  - intros token md. unfold bearer_interceptor. destruct (header_parses _); [|done]. intros [= <-] Hread.
    unfold auth_interceptor. cbn [in_metadata]. rewrite metadata_get_insert, Hread. cbn [mbind option_bind].
    unfold strip_bearer, authenticate. rewrite strip_prefix_app. by destruct (jwt_authenticate j token).
Qed.

(** [with_audience] has no effect: [new] switched the check of audiences off, and
    naming one does not switch it on again.  The hypothesis is the documented
    behaviour of the decoder with the check off. *)
Lemma audience_not_required secret claim aud token :
  (∀ key v, va_validate_aud v = false →
     jwt_decode token key v = jwt_decode token key (mkValidation (va_algorithm v) false (va_iss v) None)) →
  jwt_authenticate (with_audience aud (JwtAuth_hmac secret claim)) token = jwt_authenticate (JwtAuth_hmac secret claim) token.
Proof using. intros Hoff. unfold jwt_authenticate, with_audience, JwtAuth_hmac, JwtAuth_new. cbn. by rewrite Hoff. Qed.

End auth.

(** ** Topologies *)

Section membership.
Context {Node : Type} `{EqDecision Node}.

Inductive MembershipCall : Type := SetNodes (ns : list Node) | SetReplicationFactor (r : N).

Definition membership_call (op : MembershipCall) (v : TopologyView Node) : TopologyView Node * bool :=
  match op with SetNodes ns => set_nodes ns v | SetReplicationFactor r => set_replication_factor r v end.

Definition membership_run (ops : list MembershipCall) (v : TopologyView Node) : TopologyView Node :=
  foldl (λ v op, (membership_call op v).1) v ops.

Lemma membership_call_generation op v :
  let '(v', woken) := membership_call op v in
  if woken then v' ≠ v ∧ u64_val (tv_generation v') = N.min (tv_generation v + 1) u64_max else v' = v.
Proof using.
  destruct op as [ns|r]; cbn; [unfold set_nodes|unfold set_replication_factor]; destruct (decide _); [done| |done|].
  all: split; [intros E; apply (f_equal tv_nodes) in E as E1; apply (f_equal tv_replication_factor) in E as E2; done|].
  all: cbn; by rewrite saturating_add_val.
Qed.

Lemma membership_run_generation ops : ∀ v, tv_generation v ≤ tv_generation (membership_run ops v).
Proof using.
  induction ops as [|op ops IH]; intros v; cbn [membership_run foldl]; [done|].
  pose proof (membership_call_generation op v) as Hop. specialize (IH (membership_call op v).1).
  destruct (membership_call op v) as [v' []]; cbn in *; [|by subst]. pose proof (u64_le_max (tv_generation v)). unfold membership_run in IH. lia.
Qed.

(** The generation names the view: two views of one run with the same generation
    are the same, as long as the counter has not reached its end. *)
Theorem generation_names_view ops v :
  tv_generation (membership_run ops v) = tv_generation v → tv_generation v < u64_max → membership_run ops v = v.
Proof using.
  revert v. induction ops as [|op ops IH]; intros v Hg Hmax; [done|]. cbn [membership_run foldl] in *.
  pose proof (membership_call_generation op v) as Hop. pose proof (membership_run_generation ops (membership_call op v).1) as Hle.
  destruct (membership_call op v) as [v' []]; cbn in *; [|subst v'; by apply IH].
  destruct Hop as [_ Hop]. unfold membership_run in Hle. rewrite Hg in Hle. lia.
Qed.

End membership.

(** ** Concrete requests *)

#[export] Instance demo_rpc_text : RpcText := {| str_debug s := s; duration_debug d := pretty d |}.
(** As [http] has it: no control characters but the tab in a value, and only ASCII in
    one that is read as text. *)
#[export] Instance demo_headers : Headers := {|
  header_parses s := forallb (λ c, let b := Ascii.N_of_ascii c in (b =? 9) || (32 <=? b) && negb (b =? 127)) (String.list_ascii_of_string s);
  header_reads s := forallb (λ c, let b := Ascii.N_of_ascii c in (b =? 9) || (32 <=? b) && (b <? 127)) (String.list_ascii_of_string s)
|}.
#[local] Instance plain_id_text : IdText := λ _, "invalid identifier".

(** One entry that declares its digest, and one that declares the other's. *)
Definition demo_uploads : list UpdateRequest :=
  [mkUpdateRequest (Some (digest_to_proto digest_a)) blob_a; mkUpdateRequest (Some (digest_to_proto digest_a)) blob_b].

Definition after_uploads : InMemoryCas :=
  storage_call BatchLimits_default (SFind "other" []) (svc_batch_update_blobs BatchLimits_default "" demo_uploads InMemoryCas_new).1.

Lemma acknowledged_upload_is_served_witness :
  ∃ ms, returned (svc_find_missing_blobs BatchLimits_default "" [digest_to_proto digest_a; digest_to_proto digest_b] after_uploads) = Some ms ∧
    digest_to_proto digest_a ∉ ms.
Proof.
  assert (cas_ok InMemoryCas_new) as Hok by (intros d b; cbn; by rewrite lookup_empty).
  pose proof (acknowledged_upload_is_served BatchLimits_default "" demo_uploads InMemoryCas_new [SFind "other" []] Hok) as Ht.
  destruct (svc_batch_update_blobs BatchLimits_default "" demo_uploads InMemoryCas_new) as [c' [resps'|s|]] eqn:E;
    [|apply (f_equal snd) in E; vm_compute in E; discriminate..].
  eexists. split; [vm_compute; reflexivity|]. destruct Ht as [_ Ht].
  - repeat constructor; vm_compute; done.
  - by repeat constructor.
  - assert (resps' !! 0%nat = Some (mkUpdateResponse (Some (digest_to_proto digest_a)) (Some (mkpbStatus 0 "")))) as Hresp.
    { assert (returned (svc_batch_update_blobs BatchLimits_default "" demo_uploads InMemoryCas_new) ≫= (.!! 0%nat) =
        Some (mkUpdateResponse (Some (digest_to_proto digest_a)) (Some (mkpbStatus 0 "")))) as Hv by (vm_compute; reflexivity).
      rewrite E in Hv. exact Hv. }
    destruct (Ht 0%nat _ _ eq_refl Hresp eq_refl) as (_ & Hfind & _).
    apply (Hfind "" [digest_to_proto digest_a; digest_to_proto digest_b]). apply (f_equal fst) in E. cbn [fst] in E. rewrite <-E.
    vm_compute. reflexivity.
Defined.

(** A validator that knows one token, and asks for its audience if it is told to. *)
#[local] Instance demo_jwt : Jwt := {|
  DecodingKey := unit;
  key_from_secret _ := tt;
  key_from_rsa_pem _ := inr tt;
  jwt_decode token _ v :=
    if negb (String.eqb token "good") then inl "InvalidSignature"
    else if va_validate_aud v && bool_decide (va_aud v ≠ Some ["brokkr"]) then inl "InvalidAudience"
    else inr {["tenant" := ClaimString "acme"]}
|}.

Lemma tenant_is_authenticated_witness :
  ∃ md r', bearer_interceptor (Some "good") ∅ = Ok md ∧
    auth_interceptor (AuthJwt (JwtAuth_hmac [] "tenant")) (mkIncoming md None) = Ok r' ∧
    in_tenant r' = Some (Ident_mk "acme" I).
Proof.
  destruct (tenant_is_authenticated (JwtAuth_hmac [] "tenant") (mkIncoming ∅ None) "" None false) as [_ Hc].
  pose proof (Hc "good" _ eq_refl eq_refl) as Hr. eexists _, _. split; [reflexivity|]. split; [exact Hr|]. vm_compute. reflexivity.
Defined.

Lemma audience_not_required_witness :
  jwt_authenticate (with_audience "someone else" (JwtAuth_hmac [] "tenant")) "good" = inr (Ident_mk "acme" I).
Proof.
  rewrite audience_not_required; [vm_compute; reflexivity|]. intros key v Hv. cbn. by rewrite Hv.
Defined.
