(* ===== verification/ClientTheorems.v ===== *)
(** * brokkr-sdk: theorems about following the leader

    A cache call asks at most four nodes and keeps the credentials of its client;
    a redirect keeps the scheme unless the hint brings its own; a client that asks
    a follower ends at the leader with the leader's answer. *)

From stdpp Require Import prelude gmap strings pretty.
From Stdlib Require Import Lia.
From S2P Require Import Prelude Machine Bytes Common Redb Cas CasBackends ActionCache CasDemo Fs Tree FairQueue Lease Registry Scheduling Scheduler Execute Services Client ServiceTheorems.

Local Open Scope N_scope.

(** ** Schemes *)

Lemma scheme_of_Some s c : scheme_of s = Some c → ∃ t, s = c +:+ "://" +:+ t.
Proof.
  revert c. induction s as [|a s IH]; intros c; [done|]. cbn [scheme_of].
  destruct (strip_prefix "://" (String a s)) as [t|] eqn:Hp.
  { intros [= <-]. exists t. by apply strip_prefix_Some in Hp. }
  destruct (scheme_of s) as [c'|]; [|done]. intros [= <-]. destruct (IH c' eq_refl) as [t ->]. by exists t.
Qed.

Lemma scheme_of_app s c t : scheme_of s = Some c → scheme_of (c +:+ "://" +:+ t) = Some c.
Proof.
  revert c. induction s as [|a s IH]; intros c; [done|]. cbn [scheme_of].
  destruct (strip_prefix "://" (String a s)) as [u|] eqn:Hp; [by intros [= <-]|].
  destruct (scheme_of s) as [c'|] eqn:Hs; [|done]. intros [= <-]. specialize (IH c' eq_refl).
  destruct (scheme_of_Some s c' Hs) as [u ->].
  change (scheme_of (String a (c' +:+ "://" +:+ t)) = Some (String a c')). cbn [scheme_of].
  assert (strip_prefix "://" (String a (c' +:+ "://" +:+ t)) = None) as ->; [|by rewrite IH].
  clear IH Hs. destruct c' as [|b [|b' c']]; unfold String.append in *; cbn -[Ascii.eqb] in *; destruct (Ascii.eqb _ a); [|done| |done| |done]; [done| |].
  - by destruct (Ascii.eqb _ b).
  - destruct (Ascii.eqb _ b); [|done]. by destruct (Ascii.eqb _ b').
Qed.

(** A redirect to a bare address stays on the scheme of the session. *)
Lemma redirect_keeps_scheme addr current scheme :
  scheme_of addr = None → scheme_of current = Some scheme → scheme_of (hint_to_url addr current) = Some scheme.
Proof. intros Ha Hc. unfold hint_to_url. rewrite Ha, Hc. by eapply scheme_of_app. Qed.

(** One with a scheme of its own does not, and so can take a client from [https]
    to [http]. *)
Lemma redirect_downgrades : hint_to_url "http://leader:7878" "https://control-0:7878" = "http://leader:7878".
Proof. vm_compute. reflexivity. Qed.

(** ** The loop *)

Lemma bind_Ok {S E A B} (m : eff S E A) (k : A → eff S E B) s s' b :
  (m ≫= k) s = (s', Ok b) → ∃ s1 a, m s = (s1, Ok a) ∧ k a s1 = (s', Ok b).
Proof. unfold mbind, eff_bind. destruct (m s) as [s1 [a|e|]]; [|done..]. intros Hk. by exists s1, a. Qed.

Section bounded.
Context {W : Type} `{Wire W, Headers, RpcText, ClientText}.
(** How many calls were made, and how many channels opened. *)
Context (calls opened : W → nat).
Context (get_calls : (∀ ch md i d w, calls (rpc_get_action_result ch md i d w).1 ≤ S (calls w) ∧ opened (rpc_get_action_result ch md i d w).1 = opened w)%nat).
Context (update_calls : (∀ ch md i d r w, calls (rpc_update_action_result ch md i d r w).1 ≤ S (calls w) ∧ opened (rpc_update_action_result ch md i d r w).1 = opened w)%nat).
Context (open_opens : (∀ ch w, calls (open_channel ch w).1 = calls w ∧ opened (open_channel ch w).1 ≤ S (opened w))%nat).
Context (reads_free : ∀ p w, calls (read_pem p w).1 = calls w ∧ opened (read_pem p w).1 = opened w).

(** What an effect may cost. *)
Definition costs {E X} (m : eff W E X) (k n : nat) : Prop :=
  ∀ w, (calls (m w).1 ≤ calls w + k ∧ opened (m w).1 ≤ opened w + n)%nat.

Lemma costs_ret {E X} (x : X) : costs (mret x : eff W E X) 0 0.
Proof using. intros w. cbn. lia. Qed.

Lemma costs_throw {E X} (e : E) : costs (throw e : eff W E X) 0 0.
Proof using. intros w. cbn. lia. Qed.

Lemma costs_of_outcome {E X} (r : outcome E X) : costs (of_outcome r) 0 0.
Proof using. intros w. cbn. lia. Qed.

Lemma costs_map_err {E E' X} (f : E → E') (m : eff W E X) k n : costs m k n → costs (map_err f m) k n.
Proof using. intros Hm w. specialize (Hm w). unfold map_err. by destruct (m w) as [w' []]. Qed.

Lemma costs_bind {E X Y} (m : eff W E X) (f : X → eff W E Y) k n k' n' :
  costs m k n → (∀ x, costs (f x) k' n') → costs (m ≫= f) (k + k') (n + n').
Proof using.
  intros Hm Hf w. specialize (Hm w). unfold mbind, eff_bind. destruct (m w) as [w' [x|e|]]; cbn in *; [|lia..].
  specialize (Hf x w'). lia.
Qed.

Lemma costs_connect_plain e : costs (connect_plain e) 0 1.
Proof using open_opens.
  unfold connect_plain. apply (costs_bind _ _ 0 0 0 1 (costs_of_outcome _)). intros _.
  eapply (costs_bind _ _ 0 1 0 0); [apply costs_map_err; intros w; pose proof (open_opens (mkChannel e None) w); lia|].
  intros _. apply costs_ret.
Qed.

Lemma costs_read p : costs (map_err CertificateRead (read_pem p)) 0 0.
Proof using reads_free. apply costs_map_err. intros w. pose proof (reads_free p w). lia. Qed.

Lemma costs_connect_tls e cfg : costs (connect_tls e cfg) 0 1.
Proof using open_opens reads_free.
  assert (∀ ca id, costs (match tls_error (ca, id) with
      | Some e => throw (Transport e)
      | None => map_err Transport (open_channel (mkChannel e (Some (ca, id))));; mret (mkChannel e (Some (ca, id)))
      end) 0 1) as Hend.
  { intros ca id. destruct (tls_error _); [intros w; cbn; lia|].
    eapply (costs_bind _ _ 0 1 0 0); [apply costs_map_err; intros w; pose proof (open_opens (mkChannel e (Some (ca, id))) w); lia|].
    intros _. apply costs_ret. }
  unfold connect_tls. destruct (client_cert cfg) as [cert|], (client_key cfg) as [key|].
  2,3: intros w; cbn; lia.
  all: apply (costs_bind _ _ 0 0 0 1 (costs_of_outcome _)); intros _; apply (costs_bind _ _ 0 0 0 1 (costs_read _)); intros ca.
  - eapply (costs_bind _ _ 0 0 0 1); [|intros id; apply Hend].
    apply (costs_bind _ _ 0 0 0 0 (costs_read _)). intros c. apply (costs_bind _ _ 0 0 0 0 (costs_read _)). intros k. apply costs_ret.
  - apply (costs_bind _ _ 0 0 0 1 (costs_ret _)). intros id. apply Hend.
Qed.

Lemma costs_reconnect c url : costs (reconnect_to c url) 0 1.
Proof using open_opens reads_free.
  unfold reconnect_to, connect, connect_with_tls, connect_with_bearer, connect_with_tls_and_bearer.
  destruct (bc_tls c), (bc_bearer c).
  all: eapply (costs_bind _ _ 0 1 0 0); [first [apply costs_connect_tls|apply costs_connect_plain]|intros ch; apply costs_ret].
Qed.

Lemma ask_leader_cons {X} failure (ask : BrokkrClient → eff W RpcStatus X) miss h hops c self w :
  ask_leader failure ask miss (h :: hops) c (self, w) =
    match ask c w with
    | (w1, Ok x) => ((self, w1), Ok x)
    | (w1, Err st) =>
        match miss st with
        | Some x => ((self, w1), Ok x)
        | None =>
            match follow_redirect c st h w1 with
            | (w2, Ok c2) => ask_leader failure ask miss hops c2 (c2, w2)
            | (w2, Err e) => ((self, w2), Err e)
            | (w2, Halt) => ((self, w2), Halt)
            end
        end
    | (w1, Halt) => ((self, w1), Halt)
    end.
Proof using.
  cbn [ask_leader]. unfold mbind at 1, eff_bind at 1, attempt, on_wire at 1, zoom at 1. cbn [fst snd].
  destruct (ask c w) as [w1 [x|st|]]; [done| |done]. destruct (miss st) as [x|]; [done|].
  unfold mbind at 1, eff_bind at 1, on_wire at 1, zoom at 1. cbn [fst snd].
  by destruct (follow_redirect c st h w1) as [w2 [c2|e|]].
Qed.

(** A redirect opens one channel, and none once the hops are used up. *)
Lemma costs_follow c status hops : costs (follow_redirect c status hops) 0 (if (hops <? MAX_LEADER_HOPS)%nat then 1 else 0)%nat.
Proof using open_opens reads_free.
  unfold follow_redirect, classify_redirect. destruct (decide _); [|intros w; cbn; lia].
  destruct (_ && _); [intros w; cbn; lia|]. destruct (Nat.leb_spec MAX_LEADER_HOPS hops); [intros w; cbn; lia|].
  destruct (Nat.ltb_spec hops MAX_LEADER_HOPS); [|lia].
  destruct (metadata_str status LEADER_ADDR_METADATA_KEY); [|intros w; cbn; lia].
  apply costs_map_err, costs_reconnect.
Qed.

Lemma reconnect_Ok c url w w' c' :
  reconnect_to c url w = (w', Ok c') →
  bc_tls c' = bc_tls c ∧ bc_bearer c' = bc_bearer c ∧ bc_endpoint c' = url.
Proof using.
  unfold reconnect_to, connect, connect_with_tls, connect_with_bearer, connect_with_tls_and_bearer.
  destruct (bc_tls c) as [t|] eqn:Ht, (bc_bearer c) as [b|] eqn:Hb; intros (w1 & ch & _ & [= _ <-])%bind_Ok; done.
Qed.

Lemma follow_Ok c status h w w' c' :
  follow_redirect c status h w = (w', Ok c') → bc_tls c' = bc_tls c ∧ bc_bearer c' = bc_bearer c.
Proof using.
  unfold follow_redirect. destruct (classify_redirect status h); [done| |done|done].
  unfold map_err. destruct (reconnect_to _ _ w) as [w1 [c1|e|]] eqn:Hr; [|done..]. intros [= <- <-].
  apply reconnect_Ok in Hr as (? & ? & _). done.
Qed.

(** The loop: so many calls as hops are left, and one reconnection less; the
    client it leaves has the credentials of the one it started with. *)
Lemma ask_leader_bounded {X} failure (ask : BrokkrClient → eff W RpcStatus X) miss n : ∀ h c s,
  (∀ c, costs (ask c) 1 0) → (h + S n = MAX_LEADER_HOPS + 1)%nat → bc_tls s.1 = bc_tls c → bc_bearer s.1 = bc_bearer c →
  let s' := (ask_leader failure ask miss (seq h (S n)) c s).1 in
  (calls s'.2 ≤ calls s.2 + S n ∧ opened s'.2 ≤ opened s.2 + n)%nat ∧ bc_tls s'.1 = bc_tls c ∧ bc_bearer s'.1 = bc_bearer c.
Proof using open_opens reads_free.
  induction n as [|n IH]; intros h c [self w] Hask Hh Htls Hb s'; unfold s'; clear s'; cbn [seq]; rewrite ask_leader_cons; cbn [fst snd] in *.
  all: pose proof (Hask c w) as Hc; destruct (ask c w) as [w1 [x|st|]]; cbn [fst snd] in *; [split; [lia|done]| |split; [lia|done]].
  all: destruct (miss st) as [x|]; [split; [cbn; lia|done]|].
  all: pose proof (costs_follow c st h w1) as Hf; destruct (follow_redirect c st h w1) as [w2 [c2|e|]] eqn:Hr; cbn [fst snd] in *.
  - exfalso. unfold follow_redirect, classify_redirect in Hr. unfold MAX_LEADER_HOPS in Hh.
    destruct (decide _); [|done]. destruct (_ && _); [done|]. destruct (Nat.leb_spec MAX_LEADER_HOPS h); [done|unfold MAX_LEADER_HOPS in *; lia].
  - destruct (Nat.ltb_spec h MAX_LEADER_HOPS); [lia|]. split; [lia|done].
  - destruct (Nat.ltb_spec h MAX_LEADER_HOPS); [lia|]. split; [lia|done].
  - apply follow_Ok in Hr as [Ht2 Hb2]. destruct (IH (S h) c2 (c2, w2) Hask ltac:(lia) eq_refl eq_refl) as [Hcost Hcred].
    cbn [seq fst snd] in Hcost, Hcred. destruct (Nat.ltb_spec h MAX_LEADER_HOPS); [|lia]. rewrite Ht2, Hb2 in Hcred. split; [lia|exact Hcred].
  - destruct (Nat.ltb_spec h MAX_LEADER_HOPS); (split; [lia|done]).
  - destruct (Nat.ltb_spec h MAX_LEADER_HOPS); (split; [lia|done]).
Qed.

Lemma costs_with_bearer {X} c (call : Metadata → eff W RpcStatus X) : (∀ md, costs (call md) 1 0) → costs (with_bearer c call) 1 0.
Proof using. intros Hc. apply (costs_bind _ _ 0 0 1 0 (costs_of_outcome _) Hc). Qed.

(** A cache call follows the leader only so far: whatever the nodes answer, a
    read and a write of the action cache each ask at most four nodes and open at
    most three channels, and the client ends with the credentials it had. *)
Theorem redirects_bounded d r c w :
  let get := (client_get_action_result d (c, w)).1 in
  let update := (client_update_action_result d r (c, w)).1 in
  (calls get.2 ≤ calls w + 4 ∧ opened get.2 ≤ opened w + 3)%nat ∧ bc_tls get.1 = bc_tls c ∧ bc_bearer get.1 = bc_bearer c ∧
  (calls update.2 ≤ calls w + 4 ∧ opened update.2 ≤ opened w + 3)%nat ∧ bc_tls update.1 = bc_tls c ∧ bc_bearer update.1 = bc_bearer c.
Proof using get_calls update_calls open_opens reads_free.
  intros get update.
  destruct (ask_leader_bounded "leader redirect not resolved for GetActionResult"
    (λ c, with_bearer c (λ md, r ← rpc_get_action_result (bc_channel c) md "" (Some d); mret (Some r)))
    (λ status, if decide (rs_code status = NotFound) then Some None else None) 3 0 c (c, w)) as (Hg & Hgt & Hgb); [|done..|].
  { intros c'. apply costs_with_bearer. intros md. eapply (costs_bind _ _ 1 0 0 0); [|intros x; apply costs_ret].
    intros w'. pose proof (get_calls (bc_channel c') md "" (Some d) w'). lia. }
  destruct (ask_leader_bounded "leader redirect not resolved for UpdateActionResult"
    (λ c, with_bearer c (λ md, rpc_update_action_result (bc_channel c) md "" (Some d) (Some r))) (λ _, None) 3 0 c (c, w)) as (Hu & Hut & Hub); [|done..|done].
  intros c'. apply costs_with_bearer. intros md w'. pose proof (update_calls (bc_channel c') md "" (Some d) (Some r) w'). lia.
Qed.

End bounded.

(** ** A cluster of nodes *)

(** The action cache of the node at each endpoint, the endpoints called so far,
    and the number of channels opened. *)
Record Nodes (A : Type) : Type := mkNodes { nn_caches : gmap string A; nn_called : list string; nn_opened : nat }.
Arguments mkNodes {A} _ _ _.
Arguments nn_caches {A} _.
Arguments nn_called {A} _.
Arguments nn_opened {A} _.

Section nodes.
Context {A : Type} `{ActionCache A, ErrText, Headers, RpcText, ClientText}.

Definition visit {X} (ep : string) (m : eff A RpcStatus X) : eff (Nodes A) RpcStatus X := λ w,
  match nn_caches w !! ep with
  | Some a => let '(a', r) := m a in (mkNodes (<[ep := a']> (nn_caches w)) (nn_called w ++ [ep]) (nn_opened w), r)
  | None => (mkNodes (nn_caches w) (nn_called w ++ [ep]) (nn_opened w), Err (status_new Unavailable "transport error"))
  end.

#[export] Instance nodes_wire : Wire (Nodes A) := {|
  endpoint_error _ := None;
  read_pem _ := mret [];
  tls_error _ := None;
  open_channel ch := λ w,
    (mkNodes (nn_caches w) (nn_called w) (S (nn_opened w)), if nn_caches w !! ch_endpoint ch then Ok () else Err "connection refused");
  rpc_get_action_result ch _ i d := visit (ch_endpoint ch) (svc_get_action_result i d);
  rpc_update_action_result ch _ i d r := visit (ch_endpoint ch) (svc_update_action_result i d r);
  rpc_find_missing_blobs _ _ _ _ := throw (status_new Unimplemented "");
  rpc_batch_update_blobs _ _ _ _ := throw (status_new Unimplemented "");
  rpc_batch_read_blobs _ _ _ _ := throw (status_new Unimplemented "");
  rpc_execute _ _ _ _ _ := throw (status_new Unimplemented "")
|}.

(** A follower's refusal is a redirect to the address it names. *)
Lemma refusal_redirects leader addr h :
  header_parses leader = true → header_parses addr = true → header_reads leader = true → header_reads addr = true →
  leader ≠ "" → addr ≠ "" → (h < MAX_LEADER_HOPS)%nat →
  classify_redirect (cas_status (CasNotLeader (Some leader) (Some addr))) h = Follow addr (Some leader).
Proof using.
  intros Hpl Hpa Hrl Hra Hl Ha Hh. unfold cas_status. cbn [foldl]. unfold add_hint at 2. cbn [snd fst]. rewrite Hpl.
  unfold add_hint. cbn [snd fst]. rewrite Hpa. unfold classify_redirect. cbn [rs_code rs_metadata].
  rewrite decide_True by done. unfold metadata_str. cbn [rs_metadata rs_code status_new].
  rewrite metadata_get_insert, metadata_get_insert_ne, metadata_get_insert, Hrl, Hra by done. cbn [mbind option_bind].
  destruct (String.eqb_spec leader ""); [done|]. destruct (String.eqb_spec addr ""); [done|].
  rewrite bool_decide_false by done. cbn [andb]. destruct (Nat.leb_spec MAX_LEADER_HOPS h); [lia|done].
Qed.

Definition opened_one (w : Nodes A) : Nodes A := mkNodes (nn_caches w) (nn_called w) (S (nn_opened w)).

Lemma open_nodes ch w : is_Some (nn_caches w !! ch_endpoint ch) → open_channel ch w = (opened_one w, Ok ()).
Proof using. intros [a Ha]. unfold open_channel, nodes_wire. by rewrite Ha. Qed.

Lemma parse_nodes e : parse_endpoint (W := Nodes A) e = Ok ().
Proof using. done. Qed.

Lemma connect_plain_nodes e w : is_Some (nn_caches w !! e) → connect_plain e w = (opened_one w, Ok (mkChannel e None)).
Proof using.
  intros Ha. unfold connect_plain. rewrite parse_nodes. unfold mbind, eff_bind, of_outcome, map_err. by rewrite open_nodes.
Qed.

Lemma connect_tls_nodes e cfg w :
  is_Some (nn_caches w !! e) → is_Some (client_cert cfg) ↔ is_Some (client_key cfg) →
  ∃ m, connect_tls e cfg w = (opened_one w, Ok (mkChannel e (Some m))).
Proof using.
  intros Ha Hid. destruct cfg as [ca [cert|] [key|]]; cbn in Hid.
  2: by destruct (proj1 Hid ltac:(by eexists)). 2: by destruct (proj2 Hid ltac:(by eexists)).
  - exists ([], Some ([], [])). transitivity ((map_err Transport (open_channel (mkChannel e (Some ([], Some ([], [])))));;
      mret (mkChannel e (Some ([], Some ([], []))))) w); [reflexivity|]. unfold mbind, eff_bind, map_err. by rewrite open_nodes.
  - exists ([], None). transitivity ((map_err Transport (open_channel (mkChannel e (Some ([], None))));;
      mret (mkChannel e (Some ([], None)))) w); [reflexivity|]. unfold mbind, eff_bind, map_err. by rewrite open_nodes.
Qed.

Lemma refusal_code leader addr : rs_code (cas_status (CasNotLeader leader addr)) = FailedPrecondition.
Proof using. unfold cas_status, add_hint. cbn. by destruct leader as [l|], addr as [a|]; repeat case_match. Qed.

Lemma reconnect_nodes c url w :
  is_Some (nn_caches w !! url) → (∀ t, bc_tls c = Some t → is_Some (client_cert t) ↔ is_Some (client_key t)) →
  ∃ c', reconnect_to c url w = (opened_one w, Ok c') ∧
    ch_endpoint (bc_channel c') = url ∧ bc_endpoint c' = url ∧ bc_tls c' = bc_tls c ∧ bc_bearer c' = bc_bearer c.
Proof using.
  intros Ha Htls. unfold reconnect_to, connect, connect_with_bearer, connect_with_tls_and_bearer, connect_with_tls, mbind, eff_bind.
  destruct (bc_tls c) as [t|] eqn:Ht, (bc_bearer c) eqn:Hb.
  1,2: destruct (connect_tls_nodes url t w Ha (Htls t eq_refl)) as [m ->]; eexists; done.
  all: rewrite connect_plain_nodes by done; eexists; done.
Qed.

(** One read of the action cache of a node. *)
Definition read_action (d : pb_Digest) (c : BrokkrClient) : eff (Nodes A) RpcStatus (option ActionResult) :=
  with_bearer c (λ md, r ← rpc_get_action_result (bc_channel c) md "" (Some d); mret (Some r)).

(** The token of the client, if it has one, goes into a header. *)
Definition token_fits (c : BrokkrClient) : Prop := ∀ t, bc_bearer c = Some t → header_parses ("Bearer " +:+ t) = true.

Lemma read_action_node d c w a :
  token_fits c → proto_to_digest d = Ok (digest_at d) →
  nn_caches w !! ch_endpoint (bc_channel c) = Some a →
  let after a' := mkNodes (<[ch_endpoint (bc_channel c) := a']> (nn_caches w)) (nn_called w ++ [ch_endpoint (bc_channel c)]) (nn_opened w) in
  read_action d c w =
    match get_action_result (digest_at d) a with
    | (a', Ok (Some r)) => (after a', Ok (Some r))
    | (a', Ok None) => (after a', Err (status_new NotFound "no cached action result"))
    | (a', Err e) => (after a', Err (cas_status e))
    | (a', Halt) => (after a', Halt)
    end.
Proof using.
  intros Hbear Hd Ha after. unfold read_action, with_bearer, bearer_interceptor.
  assert (∀ md : outcome RpcStatus Metadata, md = Ok match bc_bearer c with Some t => <["authorization" := "Bearer " +:+ t]> ∅ | None => ∅ end →
    (md0 ← of_outcome md; r ← rpc_get_action_result (bc_channel c) md0 "" (Some d); mret (Some r)) w =
    match get_action_result (digest_at d) a with
    | (a', Ok (Some r)) => (after a', Ok (Some r))
    | (a', Ok None) => (after a', Err (status_new NotFound "no cached action result"))
    | (a', Err e) => (after a', Err (cas_status e))
    | (a', Halt) => (after a', Halt)
    end) as Hgo; [|apply Hgo; destruct (bc_bearer c) eqn:Hb; [by rewrite (Hbear _ Hb)|done]].
  intros md ->. unfold mbind, eff_bind, of_outcome. cbn [rpc_get_action_result nodes_wire]. unfold visit. rewrite Ha.
  unfold svc_get_action_result, mbind, eff_bind, of_outcome, map_err, action_digest_of. cbn [validate_instance_name String.eqb]. rewrite Hd.
  by destruct (get_action_result (digest_at d) a) as [a' [[r|]|e|]].
Qed.

Definition visited (ep : string) (a : A) (w : Nodes A) : Nodes A :=
  mkNodes (<[ep := a]> (nn_caches w)) (nn_called w ++ [ep]) (nn_opened w).

Definition no_entry (status : RpcStatus) : option (option ActionResult) :=
  if decide (rs_code status = NotFound) then Some None else None.

Lemma client_get_ask d c w :
  client_get_action_result d (c, w) =
    ask_leader "leader redirect not resolved for GetActionResult" (read_action d) no_entry [0; 1; 2; 3]%nat c (c, w).
Proof using. done. Qed.

(** The node asked leads. *)
Lemma ask_leading d failure h hops c self w b b' found :
  token_fits c → proto_to_digest d = Ok (digest_at d) →
  nn_caches w !! ch_endpoint (bc_channel c) = Some b → get_action_result (digest_at d) b = (b', Ok found) →
  ask_leader failure (read_action d) no_entry (h :: hops) c (self, w) =
    ((self, visited (ch_endpoint (bc_channel c)) b' w), Ok found).
Proof using.
  intros Hbear Hd Hb Hg. rewrite ask_leader_cons, (read_action_node d c w b) by done. rewrite Hg. by destruct found.
Qed.

(** C39.  A client that asks a follower gets the leader's answer.  Where the node a
    client is connected to refuses because it does not lead, and names the leader
    and its address, a client whose token, if it has one, is fit for a header reads
    the action from the leader, having asked those two nodes and no other, and
    stays connected to the leader with its own credentials: the next read asks the
    leader alone. *)
Theorem follower_leads_to_leader d c w a a' b b' leader addr found :
  let e := bc_endpoint c in
  let url := hint_to_url addr e in
  let dd := digest_at d in
  proto_to_digest d = Ok dd → ch_endpoint (bc_channel c) = e → url ≠ e →
  (∀ t, bc_tls c = Some t → is_Some (client_cert t) ↔ is_Some (client_key t)) →
  token_fits c →
  header_parses leader = true → header_parses addr = true → header_reads leader = true → header_reads addr = true →
  leader ≠ "" → addr ≠ "" →
  nn_caches w !! e = Some a → get_action_result dd a = (a', Err (CasNotLeader (Some leader) (Some addr))) →
  nn_caches w !! url = Some b → get_action_result dd b = (b', Ok found) →
  ∃ c' w', client_get_action_result d (c, w) = ((c', w'), Ok found) ∧ nn_called w' = nn_called w ++ [e; url] ∧
    bc_endpoint c' = url ∧ bc_tls c' = bc_tls c ∧ bc_bearer c' = bc_bearer c ∧
    ∀ b2 b3 found2, nn_caches w' !! url = Some b2 → get_action_result dd b2 = (b3, Ok found2) →
      ∃ w2, client_get_action_result d (c', w') = ((c', w2), Ok found2) ∧ nn_called w2 = nn_called w' ++ [url].
Proof using.
  intros e url dd Hd Hch Hne Htls Hbear Hpl Hpa Hrl Hra Hl Ha Hca Hga Hcb Hgb.
  destruct (reconnect_nodes c url (mkNodes (<[e := a']> (nn_caches w)) (nn_called w ++ [e]) (nn_opened w)))
    as (c' & Hrec & Hch' & He' & Ht' & Hb'); [cbn; rewrite lookup_insert_ne by done; by eexists|done|].
  assert (token_fits c') as Hbear' by (unfold token_fits; by rewrite Hb').
  exists c', (visited url b' (opened_one (visited e a' w))).
  assert (client_get_action_result d (c, w) = ((c', visited url b' (opened_one (visited e a' w))), Ok found)) as Hget.
  { rewrite client_get_ask, ask_leader_cons, (read_action_node d c w a) by (done || by rewrite Hch).
    fold dd. rewrite Hga, Hch. unfold no_entry at 1. rewrite decide_False by (by rewrite refusal_code).
    unfold follow_redirect at 1. rewrite refusal_redirects by (done || unfold MAX_LEADER_HOPS; lia).
    unfold map_err at 1. cbv beta zeta. fold e url. unfold visited in *. rewrite Hrec.
    rewrite (ask_leading d _ _ _ c' c' _ b b' found); [by rewrite Hch'|done|done| |done].
    rewrite Hch'. cbn. by rewrite lookup_insert_ne. }
  split_and!; [done| |done|done|done|].
  - cbn. by rewrite <-app_assoc.
  - intros b2 b3 found2 Hb2 Hg2. eexists. rewrite client_get_ask. split; [by eapply ask_leading; rewrite ?Hch'|]. by rewrite Hch'.
Qed.

End nodes.

(** ** Two nodes *)

#[export] Instance demo_client_text : ClientText := {|
  client_error_text _ := "client error";
  hint_debug h := match h with Some s => s | None => "None" end
|}.

(** A cache that gives every read the same answer. *)
Definition FixedCache : Type := outcome CasError (option ActionResult).

#[local] Instance fixed_cache : ActionCache FixedCache := {|
  get_action_result _ := λ a, (a, a);
  update_action_result _ _ := mret ();
  list_entries := mret [];
  gc_window_locks := false
|}.

Definition names (id addr : string) : FixedCache := Err (CasNotLeader (Some id) (Some addr)).

Definition client_at (e : string) : BrokkrClient := mkBrokkrClient (mkChannel e None) (Some "token") e None.

Definition stale_hints : Nodes FixedCache :=
  mkNodes {["http://a:1" := names "b" "b:1"; "http://b:1" := names "a" "a:1"]} [] 0.

Definition one_leader : Nodes FixedCache :=
  mkNodes {["http://a:1" := names "b" "b:1"; "http://b:1" := Ok (Some demo_result)]} [] 0.

Lemma visit_counts {A X} ep (m : eff A RpcStatus X) (w : Nodes A) :
  (length (nn_called (visit ep m w).1) ≤ S (length (nn_called w)))%nat ∧ nn_opened (visit ep m w).1 = nn_opened w.
Proof. unfold visit. destruct (nn_caches w !! ep) as [a|]; [destruct (m a)|]; cbn; rewrite length_app; cbn; lia. Qed.

(** Two nodes that each take the other for the leader. *)
Lemma redirects_bounded_witness :
  nn_called (client_get_action_result (digest_to_proto digest_a) (client_at "http://a:1", stale_hints)).1.2 =
    ["http://a:1"; "http://b:1"; "http://a:1"; "http://b:1"] ∧
  (nn_opened (client_get_action_result (digest_to_proto digest_a) (client_at "http://a:1", stale_hints)).1.2 <= 3)%nat.
Proof.
  split; [vm_compute; reflexivity|].
  destruct (redirects_bounded (λ w, length (nn_called w)) nn_opened) with (d := digest_to_proto digest_a) (r := demo_result)
    (c := client_at "http://a:1") (w := stale_hints) as [[_ Hop] _]; [| | | |exact Hop].
  - intros ch md i d w. apply visit_counts.
  - intros ch md i d r w. apply visit_counts.
  - intros ch w. split; [done|]. cbn. lia.
  - intros p w. done.
Defined.

Lemma follower_leads_to_leader_witness :
  ∃ c' w', client_get_action_result (digest_to_proto digest_a) (client_at "http://a:1", one_leader) = ((c', w'), Ok (Some demo_result)) ∧
    bc_endpoint c' = "http://b:1" ∧ bc_bearer c' = Some "token" ∧ nn_called w' = ["http://a:1"; "http://b:1"].
Proof.
  destruct (follower_leads_to_leader (digest_to_proto digest_a) (client_at "http://a:1") one_leader (names "b" "b:1") (names "b" "b:1")
    (Ok (Some demo_result)) (Ok (Some demo_result)) "b" "b:1" (Some demo_result)) as (c' & w' & Hget & Hcalled & He & _ & Hb & _);
    try (vm_compute; first [reflexivity|discriminate]); [by intros t [= <-]|].
  exists c', w'. split_and!; [exact Hget|exact He|exact Hb|exact Hcalled].
Defined.
