(* ===== verification/WorkerTheorems.v ===== *)
(** * brokkr-worker: theorems about running jobs and staying attached

    Captured output is the start of what was written; the working directory of an
    action stays below the sandbox's; a worker that loses its node finds one that
    is up without waiting; one that keeps the cadence it was told stays
    registered. *)

From stdpp Require Import prelude gmap strings pretty.
From Stdlib Require Import Lia Ascii.
From S2P Require Import Prelude Machine Bytes Common Redb Cas ActionCache Fs Tree FairQueue Lease Registry Scheduling Scheduler Execute Services Client Worker ServiceTheorems.

Local Open Scope N_scope.

(** ** Captured output *)

(** What a pipe delivers before its end or its first failure. *)
Fixpoint delivered (reads : list PipeRead) : bytes :=
  match reads with
  | ReadChunk (b :: bs) :: reads => (b :: bs) ++ delivered reads
  | _ => []
  end.

Lemma read_capped_from_spec cap reads : ∀ buf,
  (length buf ≤ cap)%nat → read_capped_from cap buf reads = take cap (buf ++ delivered reads).
Proof.
  induction reads as [|[[|b bs]|] reads IH]; intros buf Hb; cbn [read_capped_from delivered].
  1,2,4: by rewrite app_nil_r, take_ge.
  set (chunk := b :: bs). destruct (Nat.ltb_spec (length buf) cap) as [Hlt|Hge].
  - rewrite IH by (rewrite length_app, length_take; lia). rewrite !take_app, !length_app, !length_take.
    rewrite take_ge with (l := buf) by lia. rewrite !app_assoc, <-!app_assoc. f_equal.
    destruct (Nat.le_gt_cases (length chunk) (cap - length buf)) as [Hc|Hc].
    + rewrite Nat.min_r, (take_ge chunk (length chunk)), (take_ge chunk) by lia. f_equal. f_equal. lia.
    + rewrite Nat.min_l by lia. rewrite take_take, Nat.min_id.
      replace (cap - (length buf + (cap - length buf) `min` length chunk))%nat with 0%nat by lia.
      replace (cap - length buf - length chunk)%nat with 0%nat by lia. done.
  - rewrite IH by lia. rewrite !(take_app_le buf) by lia. done.
Qed.

(** The capture is the first [cap] bytes of what the process wrote, however they
    were cut into reads. *)
Theorem read_capped_exact cap reads : read_capped cap reads = take cap (delivered reads).
Proof. unfold read_capped. rewrite read_capped_from_spec by (cbn; lia). done. Qed.

(** ** The working directory *)

(** Where a path leads, part by part, from a directory. *)
Definition walk_part (dir : list string) (part : string) : list string :=
  if String.eqb part "" || String.eqb part "." then dir
  else if String.eqb part ".." then removelast dir
  else dir ++ [part].

Definition located (start : list string) (p : string) : list string :=
  foldl walk_part (if path_is_absolute p then [] else start) (path_parts p).

Lemma append_nil (s : string) : s +:+ "" = s.
Proof. induction s as [|a s IH]; [done|]. change (String a (s +:+ "") = String a s). by rewrite IH. Qed.

Lemma append_assoc (s t u : string) : (s +:+ t) +:+ u = s +:+ (t +:+ u).
Proof. induction s as [|a s IH]; [done|]. change (String a ((s +:+ t) +:+ u) = String a (s +:+ (t +:+ u))). by rewrite IH. Qed.

Lemma path_parts_from_slash s t : ∀ part, path_parts_from part (s +:+ String "/" t) = path_parts_from part s ++ path_parts t.
Proof.
  induction s as [|a s IH]; intros part; [done|]. change (String a s +:+ String "/" t) with (String a (s +:+ String "/" t)).
  cbn [path_parts_from]. destruct (Ascii.eqb a "/"); by rewrite IH.
Qed.

Lemma ends_with_slash_inv s : ends_with_slash s = true → ∃ t, s = t +:+ "/".
Proof.
  induction s as [|a s IH]; [done|]. destruct s as [|b s].
  - cbn. destruct (Ascii.eqb_spec a "/") as [->|]; [|done]. by exists "".
  - intros Hs. destruct (IH Hs) as [t E]. exists (String a t). by rewrite E.
Qed.

Lemma absolute_app s t : s ≠ "" → path_is_absolute (s +:+ t) = path_is_absolute s.
Proof. by destruct s. Qed.

Lemma path_join_located start base p :
  path_is_absolute p = false → located start (path_join base p) = foldl walk_part (located start base) (path_parts p).
Proof.
  intros Hp. unfold path_join. rewrite Hp. destruct (String.eqb_spec base "") as [->|Hb]; cbn [orb].
  { change ("" +:+ p) with p. unfold located. by rewrite Hp. }
  unfold located. destruct (ends_with_slash base) eqn:He.
  - rewrite absolute_app by done. destruct (ends_with_slash_inv _ He) as [t ->].
    rewrite append_assoc. change ("/" +:+ p) with (String "/" p). unfold path_parts.
    rewrite !path_parts_from_slash. change (path_parts "") with [""]. rewrite !foldl_app. done.
  - rewrite absolute_app by done. change ("/" +:+ p) with (String "/" p). unfold path_parts.
    by rewrite path_parts_from_slash, foldl_app.
Qed.

Lemma walk_down parts : ∀ dir, ".." ∉ parts → dir `prefix_of` foldl walk_part dir parts.
Proof.
  induction parts as [|part parts IH]; intros dir Hn; [done|]. apply not_elem_of_cons in Hn as [Hp Hn]. cbn [foldl].
  etrans; [|by apply IH]. unfold walk_part. destruct (_ || _); [done|].
  destruct (String.eqb_spec part ".."); [done|]. by apply prefix_app_r.
Qed.

(** C35.  An action runs below its input root.  Whatever working directory a client
    asks for, it is refused, or it leads, from wherever the sandbox starts, to a
    directory below the one the worker configured. *)
Theorem workdir_confined `{RpcText} base working_directory start :
  match resolve_workdir base working_directory with
  | inr p => located start base `prefix_of` located start p
  | inl _ => path_is_absolute working_directory = true ∨ ".." ∈ path_parts working_directory
  end.
Proof.
  unfold resolve_workdir. destruct (String.eqb working_directory ""); [done|].
  destruct (path_is_absolute working_directory) eqn:Ha; cbn [orb]; [by left|].
  unfold has_parent_dir. destruct (bool_decide_reflect (".." ∈ path_parts working_directory)) as [Hin|Hno]; [by right|].
  rewrite path_join_located by done. by apply walk_down.
Qed.

(** ** Rotation *)

Lemma rotation_index len attempt : 0 < len → (rotation_plan len attempt).1 = attempt mod len.
Proof. intros Hl. unfold rotation_plan. destruct (N.eqb_spec len 0); [lia|]. by destruct (_ =? 0). Qed.

Lemma rotation_wait_max len attempt : (rotation_plan len attempt).2 ≤ MAX_BACKOFF.
Proof. unfold rotation_plan. destruct (len =? 0); [done|]. destruct (_ =? 0); cbn; unfold MAX_BACKOFF; lia. Qed.

(** No wait in the first round over the endpoints, and some in every later one. *)
Lemma rotation_wait_zero len attempt :
  0 < len → attempt / len < 2 ^ 32 → (rotation_plan len attempt).2 = 0 ↔ attempt < len.
Proof.
  intros Hl Hc. unfold rotation_plan. destruct (N.eqb_spec len 0); [lia|].
  destruct (N.eqb_spec (attempt / len) 0) as [Hz|Hz]; cbn.
  - split; [|done]. intros _. by apply N.div_small_iff in Hz.
  - split; [|intros Hs; by rewrite N.div_small in Hz].
    set (factor := default u64_max _). assert (1 ≤ factor) as Hf.
    { unfold factor, checked_shl_1. generalize (((attempt / len) mod 2 ^ 32 + (2 ^ 32 - 1)) mod 2 ^ 32). intros shift.
      destruct (_ <? 64); [|unfold u64_max; cbn; lia]. change (1 ≤ 2 ^ shift). pose proof (N.pow_nonzero 2 shift). lia. }
    unfold BASE_BACKOFF, MAX_BACKOFF. assert (250 ≤ N.min (250 * factor) (2 ^ 128 - 1)) by (apply N.min_glb; [lia|vm_compute; discriminate]).
    generalize dependent ((attempt * 37) mod 100). intros j. lia.
Qed.

(** As long as no session registers, the attempts count up. *)
Lemma run_worker_failing len sessions : ∀ attempt k,
  attempt + N.of_nat k < 2 ^ 64 → (k < length sessions)%nat → (∀ j, (j < k)%nat → sessions !! j = Some false) →
  run_worker_from len attempt sessions !! k = Some (rotation_plan len (attempt + N.of_nat k)).
Proof.
  induction sessions as [|r sessions IH]; intros attempt k Hmax Hk Hf; [cbn in Hk; lia|]. cbn [run_worker_from].
  destruct k as [|k]; cbn [lookup list_lookup]; [by rewrite N.add_0_r|].
  pose proof (Hf 0%nat ltac:(lia)) as H0. injection H0 as ->. rewrite N.min_l by lia.
  rewrite IH; [do 2 f_equal; lia|lia|cbn in Hk; lia|]. intros j Hj. apply (Hf (S j)). lia.
Qed.

(** A number of attempts after which the rotation is at a given endpoint. *)
Lemma rotation_reaches len attempt i : i < len → ∃ k, k < len ∧ (attempt + k) mod len = i.
Proof.
  intros Hi. set (r := attempt mod len). assert (r < len) by (apply N.mod_lt; lia).
  pose proof (N.div_mod attempt len ltac:(lia)) as Hd. fold r in Hd. set (q := attempt / len) in Hd.
  destruct (N.le_gt_cases r i) as [Hle|Hgt].
  - exists (i - r). split; [lia|]. symmetry. apply (N.mod_unique _ _ q); [done|]. lia.
  - exists (len - r + i). split; [lia|]. symmetry. apply (N.mod_unique _ _ (q + 1)); [done|]. lia.
Qed.

(** C34.  A worker finds a node that is up.  If some endpoint is up, and a session
    registers exactly where its endpoint is, then one of the next sessions, of
    which there are no more than endpoints, registers; no wait on the way is
    longer than the ceiling; and a worker that was attached until then does not
    wait at all. *)
Theorem worker_finds_node len up attempt sessions i :
  i < len → up i = true → attempt + len < 2 ^ 64 → len ≤ N.of_nat (length sessions) →
  (∀ k t, run_worker_from len attempt sessions !! k = Some t → sessions !! k = Some (up t.1)) →
  ∃ k, N.of_nat k < len ∧ sessions !! k = Some true ∧
    ∀ j, (j ≤ k)%nat → ∃ t, run_worker_from len attempt sessions !! j = Some t ∧ t.2 ≤ MAX_BACKOFF ∧ (attempt = 0 → t.2 = 0).
Proof.
  intros Hi Hup Hmax Hlen Hses.
  assert (∃ k, N.of_nat k < len ∧ sessions !! k = Some true ∧ ∀ j, (j < k)%nat → sessions !! j = Some false) as (k & Hk & Hreg & Hbefore).
  { destruct (list_find (λ b, b = true) (take (N.to_nat len) sessions)) as [[k b]|] eqn:Hf.
    - apply list_find_Some in Hf as (Hk & -> & Hmin). apply lookup_take_Some in Hk as [Hk Hlt]. exists k. split_and!; [lia|done|].
      intros j Hj. destruct (lookup_lt_is_Some_2 sessions j) as [b Hb]; [apply lookup_lt_Some in Hk; lia|].
      rewrite Hb. f_equal. apply not_true_is_false. apply (Hmin j b); [|done]. rewrite lookup_take_lt; [done|lia].
    - exfalso. apply list_find_None in Hf. rewrite Forall_forall in Hf. destruct (rotation_reaches len attempt i Hi) as (k & Hk & Hat).
      assert (∀ j, (j < N.to_nat len)%nat → sessions !! j = Some false) as Hall.
      { intros j Hj. destruct (lookup_lt_is_Some_2 sessions j ltac:(lia)) as [b Hb]. rewrite Hb. f_equal. apply not_true_is_false, Hf.
        apply list_elem_of_lookup. exists j. by rewrite lookup_take_lt. }
      pose proof (run_worker_failing len sessions attempt (N.to_nat k) ltac:(lia) ltac:(lia) ltac:(intros; apply Hall; lia)) as Hrun.
      apply Hses in Hrun. rewrite rotation_index, N2Nat.id, Hat, Hup in Hrun by lia. rewrite Hall in Hrun by lia. done. }
  exists k. split_and!; [done|done|]. intros j Hj. apply lookup_lt_Some in Hreg as Hlt. exists (rotation_plan len (attempt + N.of_nat j)). split_and!.
  - apply run_worker_failing; [lia|lia|]. intros j' Hj'. apply Hbefore. lia.
  - apply rotation_wait_max.
  - intros ->. apply rotation_wait_zero; [lia| |lia]. rewrite N.div_small; [done|lia].
Qed.

(** A session that registered starts the rotation anew: a worker whose sessions
    all register and end goes back to its first endpoint each time, at once. *)
Lemma first_node_retried len n : 0 < len → run_worker_from len 0 (replicate n true) = replicate n (0, 0).
Proof.
  intros Hl. induction n as [|n IH]; [done|]. cbn [replicate run_worker_from]. rewrite IH. f_equal.
  unfold rotation_plan. destruct (N.eqb_spec len 0); [lia|]. by rewrite N.Div0.div_0_l, N.Div0.mod_0_l.
Qed.

(** ** Heartbeats *)

(** A heartbeat of the worker, or a pass of the eviction task. *)
Inductive LivenessEvent : Type := Beat (t : Instant) | Sweep (t : Instant).

(** Every event comes at most [gap] after the heartbeat before it. *)
Fixpoint timely (gap : Duration) (last : Instant) (es : list LivenessEvent) : Prop :=
  match es with
  | [] => True
  | Beat t :: es => last ≤ t ≤ last + gap ∧ timely gap t es
  | Sweep t :: es => last ≤ t ≤ last + gap ∧ timely gap last es
  end.

Section heartbeats.
Context `{IdText}.

(** The registry after some events, and the answers to the heartbeats. *)
Fixpoint live (id : WorkerId) (es : list LivenessEvent) (r : WorkerRegistry) : WorkerRegistry * list bool :=
  match es with
  | [] => (r, [])
  | Beat t :: es =>
      let '(r, reply) := svc_heartbeat (Some (id_str id)) t r in
      let '(r, replies) := live id es r in
      (r, match reply with Ok (known, _) => known | _ => false end :: replies)
  | Sweep t :: es => live id es (evict_stale t r).2
  end.

Definition seen_at (id : WorkerId) (t : Instant) (r : WorkerRegistry) : Prop :=
  ∃ rec, reg_workers r !! id = Some rec ∧ last_seen rec = t.

Lemma heartbeat_seen id t last r :
  seen_at id last r →
  ∃ r', svc_heartbeat (Some (id_str id)) t r = (r', Ok (true, Some id)) ∧ seen_at id t r' ∧ reg_policy r' = reg_policy r.
Proof using.
  intros (rec & Hr & _). unfold svc_heartbeat, WorkerId_new. rewrite Ident_new_id_str. unfold record_heartbeat, gets, mbind, eff_bind.
  rewrite Hr. cbn. eexists. split; [done|]. split; [|done]. eexists. cbn. by rewrite lookup_insert_eq.
Qed.

Lemma sweep_seen id t last r :
  seen_at id last r → last ≤ t → t - last ≤ policy_deadline (reg_policy r) →
  seen_at id last (evict_stale t r).2 ∧ reg_policy (evict_stale t r).2 = reg_policy r.
Proof using.
  intros (rec & Hr & Hl) Ht Hd. split; [|done]. exists rec. split; [|done]. rewrite evict_stale_workers. unfold healthy.
  apply map_lookup_filter_Some. split; [done|]. cbn. unfold is_stale, duration_since. apply N.ltb_ge. rewrite Hl. lia.
Qed.

Lemma live_seen id gap es : ∀ last r,
  seen_at id last r → gap ≤ policy_deadline (reg_policy r) → timely gap last es →
  reg_contains id (live id es r).1 = true ∧ Forall (λ known, known = true) (live id es r).2.
Proof using.
  induction es as [|[t|t] es IH]; intros last r Hs Hg Ht; cbn [live timely] in *.
  - destruct Hs as (rec & Hr & _). split; [|constructor]. unfold reg_contains. apply bool_decide_eq_true. by exists rec.
  - destruct Ht as [Hb Ht]. destruct (heartbeat_seen id t last r Hs) as (r' & -> & Hs' & Hp).
    destruct (IH t r' Hs') as [Hc Hk]; [by rewrite Hp|done|]. destruct (live id es r') as [r2 ks]. cbn in *. split; [done|by constructor].
  - destruct Ht as [Hb Ht]. destruct (sweep_seen id t last r Hs) as [Hs' Hp]; [lia|lia|]. apply (IH last); [done|by rewrite Hp|done].
Qed.

(** C33.  A worker that keeps the cadence it was told stays registered.  Where the
    policy's interval is at least a second, a worker that registers and then
    sends heartbeats at the cadence of the reply, each delayed by no more than
    the missed heartbeats the policy allows, survives every pass of the eviction
    task, and every heartbeat is answered as known. *)
Theorem cadence_keeps_worker uuid host ls t0 r id secs late es :
  let p := reg_policy r in
  let r1 := (svc_register uuid host ls t0 r).1 in
  (svc_register uuid host ls t0 r).2 = Ok (id_str id, secs) →
  1000000000 ≤ interval p < 2 ^ 32 * 1000000000 → 1 ≤ max_missed p → interval p * max_missed p ≤ DURATION_MAX →
  late ≤ interval p * (max_missed p - 1) → timely (heartbeat_period secs * 1000000000 + late) t0 es →
  reg_contains id (live id es r1).1 = true ∧ Forall (λ known, known = true) (live id es r1).2.
Proof using.
  intros p r1 Hreg Hi Hm Hmax Hlate Ht. unfold svc_register in *. destruct (WorkerId_new uuid) as [w|e|] eqn:Hw; [|done..].
  cbn [fst snd] in *. injection Hreg as Hid Hsecs. apply Ident_inj in Hid as ->.
  eapply live_seen; [|cbn|exact Ht].
  - eexists. cbn. by rewrite lookup_insert_eq.
  - unfold policy_deadline, duration_saturating_mul. fold p. rewrite N.min_l by done.
    assert (heartbeat_period secs * 1000000000 ≤ interval p) as Hp.
    { rewrite <-Hsecs. cbn. fold p. rewrite N.mod_small by (apply N.Div0.div_lt_upper_bound; lia).
      pose proof (N.Div0.mul_div_le (interval p) 1000000000). unfold heartbeat_period.
      assert (1 ≤ interval p / 1000000000) by (apply N.div_le_lower_bound; lia). lia. }
    assert (interval p * max_missed p = interval p + interval p * (max_missed p - 1)) by nia. lia.
Qed.

End heartbeats.

(** ** Examples *)

Definition only_third (i : N) : bool := i =? 2.

Lemma worker_finds_node_witness :
  ∃ k, N.of_nat k < 3 ∧ [false; false; true] !! k = Some true ∧
    ∀ j, (j ≤ k)%nat → ∃ t, run_worker_from 3 0 [false; false; true] !! j = Some t ∧ t.2 ≤ MAX_BACKOFF ∧ ((0 : N) = 0 → t.2 = 0).
Proof.
  apply (worker_finds_node 3 only_third 0 [false; false; true] 2); [done|done|done|done|].
  intros [|[|[|k]]] t; vm_compute; [intros [= <-]; done..|done].
Defined.

#[local] Instance worker_id_text : IdText := λ _, "invalid identifier".

Definition demo_worker : WorkerId := Ident_mk "w" I.
Definition second : Duration := 1000000000.

(** Five seconds between heartbeats, the second one late by seven. *)
Lemma cadence_keeps_worker_witness :
  reg_contains demo_worker
    (live demo_worker [Beat (5 * second); Sweep (15 * second); Beat (17 * second); Sweep (20 * second)]
       (svc_register "w" "host" ∅ 0 WorkerRegistry_default).1).1 = true.
Proof.
  destruct (cadence_keeps_worker "w" "host" ∅ 0 WorkerRegistry_default demo_worker 5 (7 * second)
    [Beat (5 * second); Sweep (15 * second); Beat (17 * second); Sweep (20 * second)]) as [Hc _]; [..|exact Hc].
  - vm_compute. reflexivity.
  - vm_compute. split; [discriminate|reflexivity].
  - vm_compute. discriminate.
  - vm_compute. discriminate.
  - vm_compute. discriminate.
  - unfold timely. split_and!; vm_compute; (discriminate || exact I).
Defined.

(** With an interval below a second the cadence is a second, and a worker that
    keeps it is evicted before its first heartbeat is due. *)
Lemma subsecond_interval_evicts :
  let r := WorkerRegistry_new (mkHeartbeatPolicy 200000000 3) in
  let '(r1, reply) := svc_register "w" "host" ∅ 0 r in
  reply = Ok ("w", 0) ∧ heartbeat_period 0 * second = second ∧
  reg_contains demo_worker (live demo_worker [Sweep 800000000; Beat second] r1).1 = false.
Proof. by vm_compute. Qed.
