(* ===== verification/EndToEnd.v ===== *)
(** * A build from the client to the worker and back

    The parts of the other files put together: a client ([Client]) calls the
    services of a control plane ([Services]) over its stores; an execution looks
    the action up in the cache or becomes a job ([Execute]), which a worker runs
    and reports ([Worker]), uploading its output through the storage service.  In
    between, the scheduler hands the job to a worker and the report to the waiter
    ([SchedulerRun]); here this is the fate of the job. *)

From stdpp Require Import prelude gmap strings pretty.
From Stdlib Require Import Lia Ascii.
From S2P Require Import Prelude Machine Bytes Common Redb Cas CasBackends ActionCache CasDemo Fs Tree FairQueue Lease Registry Scheduling Scheduler Execute.
From S2P Require Import Services Client Worker ServiceTheorems.

Local Open Scope N_scope.

(** ** The world *)

(** What became of a queued job. *)
Inductive Fate : Type := Taken | Lost | Late.

Record Server (A C : Type) : Type := mkServer {
  sv_cache : A;
  sv_cas : C;
  sv_uncached : u64;
  (** The sandboxes run so far. *)
  sv_runs : list (list string)
}.
Arguments mkServer {A C} _ _ _ _.
Arguments sv_cache {A C} _.
Arguments sv_cas {A C} _.
Arguments sv_uncached {A C} _.
Arguments sv_runs {A C} _.

Section world.
Context {A C St : Type} `{ActionCache A, Cas C, Sha256, ErrText, RpcText, IdText, Headers, Jwt, ExecCodec, ExecuteResponseCodec, SandboxSettings}.
Context (limits : BatchLimits) (auth : Authenticator) (cfg : Config St) (reg : option WorkerRegistry).
Context (now : Instant) (job_uuid op_uuid : string).
Context (sandbox : SandboxConfig → string + SandboxOutcome) (template : SandboxTemplate) (job_fate : PendingJob → Fate).
Context (status_text : RpcStatus → string).

Notation World := (Server A C).

Definition on_storage {E X} (m : eff C E X) : eff World E X :=
  zoom sv_cas (λ c s, mkServer (sv_cache s) c (sv_uncached s) (sv_runs s)) m.
Definition on_action_cache {E X} (m : eff A E X) : eff World E X :=
  zoom sv_cache (λ a s, mkServer a (sv_cas s) (sv_uncached s) (sv_runs s)) m.
Definition on_stores {E X} (m : eff (A * C) E X) : eff World E X :=
  zoom (λ s, (sv_cache s, sv_cas s)) (λ p s, mkServer p.1 p.2 (sv_uncached s) (sv_runs s)) m.
Definition on_result {E X} (m : eff (A * u64) E X) : eff World E X :=
  zoom (λ s, (sv_cache s, sv_uncached s)) (λ p s, mkServer p.1 (sv_cas s) p.2 (sv_runs s)) m.

(** The worker's side: the storage service on the worker port, without tokens, and
    its sandbox. *)
Definition worker_wire : Wire World := {|
  endpoint_error _ := None;
  read_pem _ := mret [];
  tls_error _ := None;
  open_channel _ := mret ();
  rpc_get_action_result _ _ _ _ := throw (status_new Unimplemented "");
  rpc_update_action_result _ _ _ _ _ := throw (status_new Unimplemented "");
  rpc_find_missing_blobs _ _ i ds := on_storage (svc_find_missing_blobs limits i ds);
  rpc_batch_update_blobs _ _ i rs := on_storage (svc_batch_update_blobs limits i rs);
  rpc_batch_read_blobs _ _ i ds := on_storage (svc_batch_read_blobs limits i ds);
  rpc_execute _ _ _ _ _ := throw (status_new Unimplemented "")
|}.

Definition worker_processes : Processes World := {|
  spawn _ _ _ := throw "no plain processes";
  sandbox_run c := λ s,
    (mkServer (sv_cache s) (sv_cas s) (sv_uncached s) (sv_runs s ++ [sc_argv c]),
     match sandbox c with inr o => Ok o | inl e => Err e end)
|}.

Definition worker_channel : Channel := mkChannel "" None.

(** The job between its registration and its waiter. *)
Definition run_on_worker (job : PendingJob) : eff World ExecutionError Woken :=
  match job_fate job with
  | Taken =>
      r ← report_of (H0 := worker_processes) (H2 := worker_wire) status_text (Sandboxed template) worker_channel (pj_job job);
      mret (WReport r)
  | Lost => mret WDropped
  | Late => mret WTimeout
  end.

Definition execute_action (d : Digest) (skip_cache_lookup : bool) (t : TenantId) : eff World ExecutionError ExecutionOutcome :=
  p ← on_stores (prepare cfg reg now job_uuid d skip_cache_lookup t);
  match p with
  | inl o => mret o
  | inr (job, timeout) =>
      woken ← run_on_worker job;
      on_result (conclude d timeout woken)
  end.

(** The client's side: every service behind the authentication. *)
Definition authenticated {X} (md : Metadata) (k : Incoming → eff World RpcStatus X) : eff World RpcStatus X :=
  r ← of_outcome (auth_interceptor auth (mkIncoming md None)); k r.

Definition client_wire : Wire World := {|
  endpoint_error _ := None;
  read_pem _ := mret [];
  tls_error _ := None;
  open_channel _ := mret ();
  rpc_get_action_result _ md i d := authenticated md (λ _, on_action_cache (svc_get_action_result i d));
  rpc_update_action_result _ md i d r := authenticated md (λ _, on_action_cache (svc_update_action_result i d r));
  rpc_find_missing_blobs _ md i ds := authenticated md (λ _, on_storage (svc_find_missing_blobs limits i ds));
  rpc_batch_update_blobs _ md i rs := authenticated md (λ _, on_storage (svc_batch_update_blobs limits i rs));
  rpc_batch_read_blobs _ md i ds := authenticated md (λ _, on_storage (svc_batch_read_blobs limits i ds));
  rpc_execute _ md i d skip := authenticated md (λ r,
    q ← of_outcome (svc_execute r i d skip);
    outcome ← attempt (execute_action q.1.1 q.1.2 q.2);
    mret [inr (operation_of op_uuid outcome)])
|}.

End world.

(** ** Stores that are up *)

(** A store whose calls return, and that takes every blob under its own digest. *)
Class ServingCas (C : Type) `{CasSpec C} : Prop := {
  find_serves ds (c : C) : cas_ok c → is_Some (returned (find_missing_blobs ds c));
  read_serves ds (c : C) : cas_ok c → is_Some (returned (batch_read_blobs ds c));
  write_serves bs (c : C) : cas_ok c → Forall (λ p, p.1 = Digest_of p.2 ∧ blob_fits p.2) bs →
    ∃ c' rs, batch_update_blobs bs c = (c', Ok rs) ∧ Forall (λ r, status_ok r = true) rs
}.

(** A cache that is up, stays up, and answers. *)
Class ServingCache (A : Type) `{ActionCacheSpec A} : Type := {
  ac_up : A → Prop;
  get_serves d (a : A) : ac_ok a → ac_up a → is_Some (returned (get_action_result d a)) ∧ ac_up (get_action_result d a).1;
  update_serves d r (a : A) : ac_ok a → ac_up a → is_Some (returned (update_action_result d r a)) ∧ ac_up (update_action_result d r a).1
}.

Lemma wp_total {S E A} (m : eff S E A) Q X s : wp m Q X s → is_Some (returned (m s)) → wp m Q (λ _ _, False) s.
Proof. unfold wp, returned. destruct (m s) as [s' [a|e|]]; cbn; [done|by intros _ []|done]. Qed.

Lemma wp_total_True {S E A} (m : eff S E A) s : wp m (λ _ _, True) (λ _ _, False) s ↔ is_Some (returned (m s)).
Proof. unfold wp, returned. destruct (m s) as [s' [a|e|]]; cbn; split; (done || by intros []). Qed.

Section serving.
Context {C : Type} `{CasSpec C} {Hsha : Sha256Spec} {Hserve : ServingCas C} `{ErrText, RpcText}.
Context (limits : BatchLimits).

Lemma Digest_new_blob b : blob_fits b → Digest_new (sha256_hex b) (as_i64 (N.of_nat (length b))) = Ok (Digest_of b).
Proof using Hsha.
  intros Hb. apply Digest_new_ok; [|by split; [|apply Digest_of_ok]].
  destruct (Digest_of_ok b Hb) as (_ & _ & Hs). unfold Digest_of in Hs. cbn in Hs. unfold i64_ok. lia.
Qed.

(** The proto digest of a blob, as the client and the worker compute it. *)
Lemma proto_of_blob b : blob_fits b → proto_to_digest (sdk_digest_of b) = Ok (Digest_of b).
Proof using Hsha.
  intros Hb. unfold proto_to_digest, sdk_digest_of. cbn [pd_hash pd_size_bytes]. by rewrite Digest_new_blob.
Qed.

Lemma sdk_digest_proto b : sdk_digest_of b = digest_to_proto (Digest_of b).
Proof using. done. Qed.

Lemma count_ok n : N.of_nat n ≤ max_blobs_per_request limits → check_blob_count limits n = Ok ().
Proof using. intros Hn. unfold check_blob_count. destruct (N.ltb_spec (max_blobs_per_request limits) (N.of_nat n)); [lia|done]. Qed.

Lemma svc_find_serving blobs c :
  cas_ok c → Forall blob_fits blobs → N.of_nat (length blobs) ≤ max_blobs_per_request limits →
  wp (svc_find_missing_blobs limits "" (sdk_digest_of <$> blobs))
    (λ ms c', cas_keeps c c' ∧ ms ≡ₚ filter (λ pd, cas_has c (digest_at pd) = false) (sdk_digest_of <$> blobs)) (λ _ _, False) c.
Proof using Hsha Hserve.
  intros Hok Hfit Hn. eapply wp_total; [by apply svc_find_missing_spec|]. apply wp_total_True.
  apply wp_bind, wp_of_outcome. cbn. apply wp_bind, wp_of_outcome. rewrite count_ok by (by rewrite length_fmap).
  apply wp_bind. eapply wp_mono; [apply (wp_mapM _ (λ _ c', c' = c) (λ _ _, False))|intros ds c' ->|done]; [done| |].
  - intros pd pre c' Hin ->. apply list_elem_of_fmap in Hin as (b & -> & Hb). apply wp_of_outcome.
    rewrite proto_of_blob; [done|]. by eapply (proj1 (Forall_forall _ _) Hfit).
  - apply wp_bind, wp_map_err. apply wp_mono with (Q := λ _ _, True) (X := λ _ _, False); [|intros; by apply wp_ret|done].
    by apply wp_total_True, find_serves.
Qed.

(** Requests that declare their own digests. *)
Definition own_digest (r : UpdateRequest) : Prop := uq_digest r = Some (sdk_digest_of (uq_data r)) ∧ blob_fits (uq_data r).

Lemma accept_own rs : ∀ g,
  Forall own_digest rs → ∃ g', accept_all g rs = Ok g' ∧ ag_blobs g' = ag_blobs g ++ ((λ r, (Digest_of (uq_data r), uq_data r)) <$> rs) ∧
    (Forall (λ resp, up_status resp = None) (ag_responses g) → Forall (λ resp, up_status resp = None) (ag_responses g')).
Proof using Hsha.
  induction rs as [|r rs IH]; intros g Hrs; cbn [accept_all]; [exists g; by rewrite app_nil_r|].
  apply Forall_cons in Hrs as [[Hd Hb] Hrs]. unfold accept_one. rewrite Hd, proto_of_blob by done.
  rewrite (proj2 (Digest_verify_ok (Digest_of (uq_data r)) (uq_data r)) eq_refl).
  edestruct (IH (mkAccepting (ag_responses g ++ [mkUpdateResponse (Some (digest_to_proto (Digest_of (uq_data r)))) None])
                    (ag_blobs g ++ [(Digest_of (uq_data r), uq_data r)]) (ag_indices g ++ [length (ag_responses g)])) Hrs) as (g' & -> & Hbl & Hst).
  exists g'. split_and!; [done|by rewrite Hbl; cbn; rewrite <-app_assoc|]. intros Hg. apply Hst. cbn. apply Forall_app. split; [done|by repeat constructor].
Qed.

Lemma filled_zero rs g us c c' resps :
  sorted_batch rs g → Forall (λ resp, up_status resp = None) (ag_responses g) →
  update_post cas_ok cas_has c (ag_blobs g) us c' → Forall (λ u, status_ok u = true) us →
  fill_statuses (ag_responses g) (zip (ag_indices g) us) = Ok resps → Forall (λ resp, failed_status (up_status resp) = false) resps.
Proof using.
  intros (_ & Hb & Hnd & Hall) Hnone (_ & Hres & _) Hus Hf. pose proof (Forall2_length _ _ _ Hb). pose proof (Forall2_length _ _ _ Hres).
  assert ((zip (ag_indices g) us).*1 = ag_indices g) as Hfst by (apply fst_zip; lia).
  destruct (fill_statuses_spec (zip (ag_indices g) us) (ag_responses g)) as (resps' & Hf' & Hl & Hset & _).
  { by rewrite Hfst. }
  { intros i u Hi. apply list_elem_of_lookup in Hi as [k Hk]. apply lookup_zip_with_Some in Hk as (i' & u' & [= <- <-] & Hi & _).
    destruct (Forall2_lookup_l _ _ _ _ _ Hb Hi) as (p & _ & r & resp & _ & -> & _). by eexists. }
  rewrite Hf in Hf'. injection Hf' as <-. apply Forall_lookup. intros i resp Hi.
  destruct (lookup_lt_is_Some_2 (ag_responses g) i) as [resp0 Hr0]; [apply lookup_lt_Some in Hi; lia|].
  assert (i ∈ ag_indices g) as Hin by (eapply Hall; [done|]; by eapply (Forall_lookup_1 (λ resp, up_status resp = None))).
  rewrite <-Hfst in Hin. apply list_elem_of_fmap in Hin as ([i' u] & -> & Hin). cbn in *.
  rewrite (Hset _ _ Hin), Hr0 in Hi. injection Hi as <-. cbn. rewrite status_of_update_code.
  apply list_elem_of_lookup in Hin as [k Hk]. apply lookup_zip_with_Some in Hk as (? & ? & [= <- <-] & _ & Hu).
  by rewrite (Forall_lookup_1 (λ u, status_ok u = true) _ _ _ Hus Hu).
Qed.

Lemma svc_update_serving rs c :
  cas_ok c → Forall own_digest rs → N.of_nat (length rs) ≤ max_blobs_per_request limits → total_bytes rs ≤ max_request_bytes limits →
  wp (svc_batch_update_blobs limits "" rs)
    (λ resps c', cas_ok c' ∧ (∀ d, cas_has c d = true → cas_has c' d = true) ∧ Forall (λ r, cas_has c' (Digest_of (uq_data r)) = true) rs ∧
       Forall (λ resp, failed_status (up_status resp) = false) resps) (λ _ _, False) c.
Proof using Hsha Hserve.
  intros Hok Hrs Hn Hbytes. assert (Forall (λ r, blob_fits (uq_data r)) rs) as Hfit by (eapply Forall_impl; [exact Hrs|by intros r [_ ?]]).
  destruct (accept_own rs (mkAccepting [] [] []) Hrs) as (g & Hg & Hbl & Hnone). cbn in Hbl. specialize (Hnone ltac:(constructor)).
  pose proof (accept_all_sorted rs [] (mkAccepting [] [] [])) as Hs. rewrite Hg in Hs. cbn [app] in Hs.
  assert (sorted_batch rs g) as Hsort by (apply Hs; by repeat split; try constructor).
  destruct (write_serves (ag_blobs g) c Hok) as (c' & us & Hw & Hus).
  { rewrite Hbl. apply Forall_fmap. eapply Forall_impl; [exact Hfit|]. by intros r ?. }
  pose proof (batch_update_spec (ag_blobs g) c Hok) as Hspec. unfold wp in Hspec. rewrite Hw in Hspec.
  assert (update_post cas_ok cas_has c (ag_blobs g) us c') as Hpost.
  { apply Hspec. rewrite Hbl. apply Forall_fmap. exact Hfit. }
  destruct (fill_in_range rs g us c c' Hsort Hpost) as [resps Hf]. pose proof (filled_zero rs g us c c' resps Hsort Hnone Hpost Hus Hf) as Hz.
  apply wp_bind, wp_of_outcome. cbn. apply wp_bind, wp_of_outcome. rewrite count_ok by done.
  destruct (N.ltb_spec (max_request_bytes limits) (total_bytes rs)); [lia|].
  apply wp_bind, wp_of_outcome. rewrite Hg. apply wp_bind, wp_map_err. unfold wp at 1. rewrite Hw. apply wp_of_outcome. rewrite Hf.
  destruct Hpost as (Hok' & Hres & Hup & _). split_and!; [done|done| |done].
  rewrite Hbl in Hres. apply Forall2_fmap_l in Hres. apply Forall_lookup. intros i r Hi.
  destruct (Forall2_lookup_l _ _ _ _ _ Hres Hi) as (u & Hu & _ & Hstat). apply Hstat. by eapply (Forall_lookup_1 (λ r, status_ok r = true)).
Qed.

End serving.

(** ** A build *)

Section build.
Context {A C St : Type} `{ActionCacheSpec A} `{CasSpec C} {Hsha : Sha256Spec} {Hcas : ServingCas C} {Hcache : ServingCache A}.
Context `{ErrText, RpcText, IdText, Headers, Jwt, ExecEncoderSpec, ExecuteResponseCodecSpec, SandboxSettings, DirCodec}.
Context (limits : BatchLimits) (auth : Authenticator) (cfg : Config St) (reg : option WorkerRegistry).
Context (now : Instant) (job_uuid op_uuid : string).
Context (sandbox : SandboxConfig → string + SandboxOutcome) (template : SandboxTemplate) (job_fate : PendingJob → Fate).
Context (status_text : RpcStatus → string).
(** A client the control plane accepts. *)
Context (client : BrokkrClient) (md : Metadata) (accepted : Incoming).
Context (has_bearer : bearer_interceptor (bc_bearer client) ∅ = Ok md).
Context (is_accepted : auth_interceptor auth (mkIncoming md None) = Ok accepted).

Let wire : Wire (Server A C) := client_wire limits auth cfg reg now job_uuid op_uuid sandbox template job_fate status_text.
#[local] Existing Instance wire.

Definition with_cas (c : C) (s : Server A C) : Server A C := mkServer (sv_cache s) c (sv_uncached s) (sv_runs s).

Definition server_up (s : Server A C) : Prop := ac_ok (sv_cache s) ∧ ac_up (sv_cache s) ∧ cas_ok (sv_cas s).

(** A call of a client to the storage service. *)
Lemma wp_storage_call {X} (m : eff C RpcStatus X) Q s :
  wp m (λ x c, Q x (with_cas c s)) (λ _ _, False) (sv_cas s) →
  wp (with_bearer client (λ md, authenticated auth md (λ _, on_storage m))) Q (λ _ _, False) s.
Proof using has_bearer is_accepted.
  intros Hm. apply wp_bind, wp_of_outcome. rewrite has_bearer. apply wp_bind, wp_of_outcome. rewrite is_accepted.
  by apply wp_zoom.
Qed.

Definition sum_lengths (blobs : list bytes) : N := foldr (λ b n, N.of_nat (length b) + n) 0 blobs.

Lemma total_bytes_filter (P : pb_Digest * bytes → Prop) `{∀ p, Decision (P p)} blobs :
  total_bytes ((λ p : pb_Digest * bytes, mkUpdateRequest (Some p.1) p.2) <$> filter P ((λ b, (sdk_digest_of b, b)) <$> blobs)) ≤ sum_lengths blobs.
Proof using.
  induction blobs as [|b blobs IH]; [done|]. rewrite fmap_cons, filter_cons. destruct (decide _); cbn [fmap list_fmap total_bytes sum_lengths foldr] in *.
  - unfold total_bytes in IH. cbn. unfold sum_lengths in *. unfold fmap in *. lia.
  - unfold sum_lengths in *. unfold total_bytes, fmap in *. lia.
Qed.

(** After the upload the store holds every blob. *)
Lemma upload_missing_spec blobs s :
  cas_ok (sv_cas s) → Forall blob_fits blobs → N.of_nat (length blobs) ≤ max_blobs_per_request limits →
  sum_lengths blobs ≤ max_request_bytes limits →
  wp (upload_missing client blobs)
    (λ _ s', ∃ c', s' = with_cas c' s ∧ cas_ok c' ∧ (∀ d, cas_has (sv_cas s) d = true → cas_has c' d = true) ∧
       Forall (λ b, cas_has c' (Digest_of b) = true) blobs) (λ _ _, False) s.
Proof using Hsha Hcas has_bearer is_accepted.
  intros Hok Hfit Hn Hsum. unfold upload_missing. apply wp_bind, wp_map_err. eapply wp_mono; [apply wp_storage_call|intros ms s1 Hs1; exact Hs1|done].
  rewrite <-list_fmap_compose. eapply wp_mono; [by apply svc_find_serving| |done].
  intros ms c1 [[Hok1 Hk1] Hms]. set (requests := _ <$> filter _ _).
  assert (∀ b, b ∈ blobs → mkUpdateRequest (Some (sdk_digest_of b)) b ∈ requests ∨ cas_has c1 (Digest_of b) = true) as Hcase.
  { intros b Hb. destruct (cas_has c1 (Digest_of b)) eqn:Hh; [by right|left]. unfold requests.
    apply list_elem_of_fmap. exists (sdk_digest_of b, b). split; [done|]. apply list_elem_of_filter. split.
    - apply (list_elem_of_fmap_2 blob_key ms (sdk_digest_of b)). rewrite Hms. apply list_elem_of_filter. split; [by rewrite <-Hk1|by apply list_elem_of_fmap_2].
    - apply (list_elem_of_fmap_2 (λ b, (sdk_digest_of b, b))). done. }
  assert (Forall own_digest requests) as Hown.
  { apply Forall_forall. intros r Hr. apply list_elem_of_fmap in Hr as (p & -> & [_ Hp]%list_elem_of_filter).
    apply list_elem_of_fmap in Hp as (b & -> & Hb). split; [done|]. by eapply (proj1 (Forall_forall _ _) Hfit). }
  assert (N.of_nat (length requests) ≤ max_blobs_per_request limits) as Hlen.
  { unfold requests. rewrite length_fmap. etrans; [|exact Hn]. rewrite <-(length_fmap (λ b, (sdk_digest_of b, b)) blobs).
    pose proof (length_filter (λ p : pb_Digest * bytes, blob_key p.1 ∈ blob_key <$> ms) ((λ b, (sdk_digest_of b, b)) <$> blobs)). lia. }
  assert (total_bytes requests ≤ max_request_bytes limits) as Hbytes by (etrans; [apply total_bytes_filter|done]).
  clearbody requests. destruct requests as [|r requests].
  - apply wp_ret. exists c1. split_and!; [done|done|intros d; by rewrite Hk1|]. apply Forall_forall. intros b Hb.
    by destruct (Hcase b Hb) as [?%elem_of_nil|?].
  - apply wp_bind, wp_map_err. eapply wp_mono; [apply wp_storage_call|intros resps s2 Hs2; exact Hs2|done].
    eapply wp_mono; [by apply svc_update_serving| |done]. intros resps c2 (Hok2 & Hk2 & Hheld & Hz).
    assert (omap rejection resps = []) as ->.
    { clear -Hz. induction Hz as [|resp resps Hr _ IH]; [done|]. cbn. unfold rejection at 1. by rewrite Hr. }
    apply wp_ret. exists c2. split_and!; [done|done|intros d Hd; apply Hk2; by rewrite Hk1|]. apply Forall_forall. intros b Hb.
    destruct (Hcase b Hb) as [Hin|Hh]; [|by apply Hk2]. apply (proj1 (Forall_forall _ _) Hheld _ Hin).
Qed.

(** *** The execution *)

Definition no_collision (b : bytes) : Prop := ∀ b', sha256_hex b' = sha256_hex b → b' = b.

Lemma fetch_message_spec {M} (dec : bytes → string + M) b m c :
  cas_ok c → cas_has c (Digest_of b) = true → no_collision b → dec b = inr m →
  wp (fetch_message dec (Digest_of b)) (λ x c', x = m ∧ cas_keeps c c') (λ _ _, False) c.
Proof using Hcas.
  intros Hok Hh Hnc Hdec. apply wp_bind, wp_map_err. eapply wp_mono; [eapply wp_total; [by apply batch_read_spec|by apply read_serves]| |done].
  intros rs c' [Hk Hrs]. apply Forall2_cons_inv_l in Hrs as (r & rs' & Hr & _ & ->). rewrite Hh in Hr.
  destruct r as [b'|e|]; [|by destruct Hr|done]. destruct Hr as (_ & Hs & _). rewrite (Hnc b' Hs), Hdec. by apply wp_ret.
Qed.

(** What the messages of an invocation have to be. *)
Definition command_ready (argv : list string) : Prop :=
  Forall (λ b, blob_fits b ∧ no_collision b) (command_blobs argv) ∧ sum_lengths (command_blobs argv) ≤ max_request_bytes limits ∧
  3 ≤ max_blobs_per_request limits.

(** The control plane can run jobs: some worker is eligible, and takes them. *)
Definition workers_ready (argv : list string) : Prop :=
  match reg with Some r => eligible_workers r now [] ≠ ∅ | None => True end ∧ (∃ id, JobId_new job_uuid = Ok id) ∧
  ∀ job, jb_command (pj_job job) = Some (command_of argv) → job_fate job = Taken.

Definition action_digest (argv : list string) : Digest := Digest_of (enc_Action (action_of argv)).

Lemma build_job_spec argv t c :
  command_ready argv → workers_ready argv → cas_ok c → Forall (λ b, cas_has c (Digest_of b) = true) (command_blobs argv) →
  wp (build_job cfg reg now job_uuid (action_digest argv) t)
    (λ p c', cas_keeps c c' ∧ jb_command (pj_job p.1) = Some (command_of argv)) (λ _ _, False) c.
Proof.
  intros (Hb & _ & _) (Helig & [id Hid] & _) Hok Hheld. unfold command_blobs in Hb, Hheld.
  apply Forall_cons in Hb as [[_ Hna] Hb]. apply Forall_cons in Hb as [[Hfc Hnc] _].
  apply Forall_cons in Hheld as [Hha Hheld]. apply Forall_cons in Hheld as [Hhc _].
  unfold build_job, with_context. apply wp_bind, wp_map_err.
  eapply wp_mono; [apply (fetch_message_spec dec_Action (enc_Action (action_of argv)) (action_of argv)); [done|done|done|apply dec_enc_Action]| |done].
  intros ? c1 [-> [Hok1 Hk1]]. cbn [action_of ac_command_digest].
  change (Digest_new _ _) with (Digest_new (sha256_hex (enc_Command (command_of argv))) (as_i64 (N.of_nat (length (enc_Command (command_of argv)))))).
  rewrite (Digest_new_blob _ Hfc). apply wp_bind, wp_map_err.
  eapply wp_mono; [apply (fetch_message_spec dec_Command (enc_Command (command_of argv)) (command_of argv)); [done|by rewrite Hk1|done|apply dec_enc_Command]| |done].
  intros ? c2 [-> [Hok2 Hk2]]. cbn [platform_of action_of ac_platform command_of cm_platform default].
  assert (match reg with Some r => bool_decide (eligible_workers r now [] = ∅) | None => false end = false) as Hm.
  { destruct reg as [r|]; [|done]. by apply bool_decide_eq_false. }
  unfold platform_of. cbn. rewrite Hm, Hid. apply wp_ret. split; [|done]. split; [done|]. intros d. by rewrite Hk2, Hk1.
Qed.

(** *** The worker *)

Definition sandbox_config (argv : list string) : SandboxConfig :=
  mkSandboxConfig argv [] (Some (tp_workdir template)) (tp_settings template) false.

Definition result_of (o : SandboxOutcome) : ActionResult :=
  mkActionResult [] [] (exit_code_of (so_exit_status o)) (so_stdout o) (Some (proto_digest (so_stdout o)))
    (so_stderr o) (Some (proto_digest (so_stderr o))) [].

(** Output the storage service takes in one batch. *)
Definition output_fits (o : SandboxOutcome) : Prop :=
  blob_fits (so_stdout o) ∧ blob_fits (so_stderr o) ∧
  N.of_nat (length (so_stdout o)) + N.of_nat (length (so_stderr o)) ≤ max_request_bytes limits ∧ 2 ≤ max_blobs_per_request limits.

Definition ran (argv : list string) (c : C) (s : Server A C) : Server A C :=
  mkServer (sv_cache s) c (sv_uncached s) (sv_runs s ++ [argv]).

Definition output_uploads (o : SandboxOutcome) : list UpdateRequest :=
  (λ b, mkUpdateRequest (Some (proto_digest b)) b) <$> [so_stdout o; so_stderr o].

(** A taken job runs its command, and the report is that of the upload. *)
Lemma run_on_worker_wp job argv o Q s :
  argv ≠ [] → jb_command (pj_job job) = Some (command_of argv) → job_fate job = Taken → sandbox (sandbox_config argv) = inr o →
  wp (svc_batch_update_blobs limits "" (output_uploads o))
    (λ _ c', Q (WReport (mkJobResult (jb_job_id (pj_job job)) (Some (result_of o)) "")) (ran argv c' s))
    (λ e c', Q (WReport (mkJobResult (jb_job_id (pj_job job)) None (status_text e))) (ran argv c' s)) (sv_cas s) →
  wp (run_on_worker limits sandbox template job_fate status_text job) Q (λ _ _, False) s.
Proof.
  intros Hne Hcmd Hfate Hsb Hup. unfold run_on_worker. rewrite Hfate. apply wp_bind. unfold report_of. apply wp_bind, wp_attempt.
  unfold handle_job. rewrite Hcmd. apply wp_bind. unfold worker_run_command, run_sandboxed. destruct argv as [|a0 argv]; [done|].
  cbn [command_of cm_arguments cm_working_directory resolve_workdir String.eqb]. apply wp_bind, wp_map_err.
  unfold wp at 1. cbn [sandbox_run worker_processes].
  change (mkSandboxConfig _ _ _ _ _) with (sandbox_config (a0 :: argv)). rewrite Hsb. apply wp_ret. apply wp_bind, wp_map_err.
  apply wp_zoom. cbn [sv_cas rn_stdout rn_stderr].
  eapply wp_mono; [exact Hup| |]; intros x c' HQ; repeat apply wp_ret; exact HQ.
Qed.

Lemma run_on_worker_spec job argv o s :
  argv ≠ [] → jb_command (pj_job job) = Some (command_of argv) → job_fate job = Taken →
  sandbox (sandbox_config argv) = inr o → output_fits o → cas_ok (sv_cas s) →
  wp (run_on_worker limits sandbox template job_fate status_text job)
    (λ w s', ∃ c', w = WReport (mkJobResult (jb_job_id (pj_job job)) (Some (result_of o)) "") ∧ s' = ran argv c' s ∧ cas_ok c' ∧
       ∀ d, cas_has (sv_cas s) d = true → cas_has c' d = true) (λ _ _, False) s.
Proof.
  intros Hne Hcmd Hfate Hsb (Hfo & Hfe & Hsum & Hn) Hok. eapply run_on_worker_wp; [done..|].
  eapply wp_mono; [apply svc_update_serving; [done| | |]| |done].
  - repeat constructor; done.
  - cbn. lia.
  - unfold total_bytes. cbn. lia.
  - intros resps c' (Hok' & Hk & _ & _). by exists c'.
Qed.

(** Output over the batch limit, 4 MiB by default, fails the job after it ran,
    though the runner keeps up to 50 MiB of each stream. *)
Lemma large_output_fails_job job argv o s :
  argv ≠ [] → jb_command (pj_job job) = Some (command_of argv) → job_fate job = Taken →
  sandbox (sandbox_config argv) = inr o → 2 ≤ max_blobs_per_request limits →
  max_request_bytes limits < N.of_nat (length (so_stdout o)) + N.of_nat (length (so_stderr o)) →
  wp (run_on_worker limits sandbox template job_fate status_text job)
    (λ w s', (∃ e, w = WReport (mkJobResult (jb_job_id (pj_job job)) None e)) ∧ s' = ran argv (sv_cas s) s) (λ _ _, False) s.
Proof.
  intros Hne Hcmd Hfate Hsb Hn Hbig. eapply run_on_worker_wp; [done..|].
  unfold svc_batch_update_blobs. apply wp_bind, wp_of_outcome. cbn [validate_instance_name String.eqb].
  apply wp_bind, wp_of_outcome. unfold check_blob_count. rewrite (proj2 (N.ltb_ge _ _)) by (cbn; lia).
  rewrite (proj2 (N.ltb_lt _ _)); [|unfold total_bytes; cbn; lia]. split; [by eexists|done].
Qed.

Lemma lookup_cache_spec skip d a :
  ac_ok a → ac_up a →
  wp (lookup_cache skip d) (λ found a', found = (if skip then None else ac_view a (hash d)) ∧ ac_ok a' ∧ ac_up a' ∧ ∀ h, ac_view a' h = ac_view a h)
    (λ _ _, False) a.
Proof.
  intros Hok Hup. unfold lookup_cache, wp. destruct skip; [done|]. destruct (get_serves d a Hok Hup) as [[found Hf] Hup'].
  pose proof (get_action_result_spec d a Hok) as Hs. unfold wp in Hs. unfold returned in Hf.
  destruct (get_action_result d a) as [a' [f|e|]]; cbn in *; [|done..]. injection Hf as ->. by destruct Hs as [[? ?] ->].
Qed.

(** *** The execution as a whole *)

Definition cache_keeps (a a' : A) : Prop := ac_ok a' ∧ ac_up a' ∧ ∀ h, ac_view a' h = ac_view a h.

Lemma conclude_spec d timeout id o a n :
  ac_ok a → ac_up a → digest_ok d → ac_fits (result_of o) →
  wp (conclude d timeout (WReport (mkJobResult id (Some (result_of o)) "")))
    (λ out p, out = mkExecutionOutcome (result_of o) false true ∧ p.2 = n ∧ ac_ok p.1 ∧ ac_up p.1 ∧
       ∀ h, ac_view p.1 h = if decide (h = hash d ∧ exit_code_of (so_exit_status o) = 0%Z) then Some (result_of o) else ac_view a h)
    (λ _ _, False) (a, n).
Proof.
  intros Hok Hup Hd Hfits. unfold conclude, wp. cbn [jr_error_message String.eqb negb jr_result].
  destruct (Z.eqb_spec (exit_code (result_of o)) 0) as [He|He]; cbn [fst snd].
  - destruct (update_serves d (result_of o) a Hok Hup) as [[x Hx] Hup']. pose proof (update_action_result_spec d (result_of o) a Hok Hd Hfits) as Hs.
    unfold wp in Hs. unfold returned in Hx. destruct (update_action_result d (result_of o) a) as [a' [[]|e|]]; cbn in *; [|done..].
    destruct Hs as [Hok' Hv]. split_and!; [done..|]. intros h. rewrite Hv. repeat case_decide; naive_solver.
  - split_and!; [done..|]. intros h. rewrite decide_False; [done|]. by intros [_ ?].
Qed.

Definition holds_all (argv : list string) (c : C) : Prop := Forall (λ b, cas_has c (Digest_of b) = true) (command_blobs argv).

(** The action is in the cache. *)
Lemma execute_hit argv t s res :
  server_up s → ac_view (sv_cache s) (hash (action_digest argv)) = Some res →
  wp (execute_action limits cfg reg now job_uuid sandbox template job_fate status_text (action_digest argv) false t)
    (λ out s', out = mkExecutionOutcome res true true ∧ server_up s' ∧ sv_runs s' = sv_runs s) (λ _ _, False) s.
Proof.
  intros (Hok & Hup & Hcok) Hv. unfold execute_action. apply wp_bind, wp_zoom. unfold prepare. apply wp_bind. unfold Execute.on_cache. apply wp_zoom. cbn [fst].
  eapply wp_mono; [by apply lookup_cache_spec| |done]. intros found a' (-> & Hok' & Hup' & _). rewrite Hv. apply wp_ret, wp_ret. done.
Qed.

(** It is not, or the caller does not ask: a worker runs it. *)
Lemma execute_miss argv t skip o s :
  argv ≠ [] → command_ready argv → workers_ready argv → sandbox (sandbox_config argv) = inr o → output_fits o → ac_fits (result_of o) →
  server_up s → holds_all argv (sv_cas s) → (skip = true ∨ ac_view (sv_cache s) (hash (action_digest argv)) = None) →
  wp (execute_action limits cfg reg now job_uuid sandbox template job_fate status_text (action_digest argv) skip t)
    (λ out s', out = mkExecutionOutcome (result_of o) false true ∧ server_up s' ∧ sv_runs s' = sv_runs s ++ [argv] ∧
       (∀ d, cas_has (sv_cas s) d = true → cas_has (sv_cas s') d = true) ∧
       (exit_code_of (so_exit_status o) = 0%Z → ac_view (sv_cache s') (hash (action_digest argv)) = Some (result_of o))) (λ _ _, False) s.
Proof.
  intros Hne Hcmd Hw Hsb Hout Hfits (Hok & Hup & Hcok) Hheld Hskip.
  assert (digest_ok (action_digest argv)) as Hd. { destruct Hcmd as (Hb & _). apply Forall_cons in Hb as [[? _] _]. by apply Digest_of_ok. }
  unfold execute_action. apply wp_bind, wp_zoom. unfold prepare. apply wp_bind. unfold Execute.on_cache. apply wp_zoom. cbn [fst].
  eapply wp_mono; [by apply (lookup_cache_spec skip)| |done]. intros found a1 (Hf & Hok1 & Hup1 & Hv1).
  assert (found = None) as ->. { rewrite Hf. destruct Hskip as [->| ->]; [done|by destruct skip]. }
  apply wp_bind. unfold Execute.on_cas. apply wp_zoom. cbn [fst snd].
  eapply wp_mono; [by apply build_job_spec| |done]. intros [job timeout] c1 [[Hcok1 Hk1] Hjob]. apply wp_ret. cbn [fst snd] in Hjob |- *. apply wp_bind.
  eapply wp_mono; [apply (run_on_worker_spec job argv o); [done|done|by apply Hw|done|done|done]| |done].
  intros w s1 (c2 & -> & -> & Hcok2 & Hk2). cbn [sv_cas] in Hk2. apply wp_zoom. cbn [ran sv_cache sv_uncached sv_runs].
  eapply wp_mono; [by apply (conclude_spec _ _ _ o a1 (sv_uncached s))| |done].
  intros out [a3 n3] (-> & _ & Hok3 & Hup3 & Hv3). cbn in *. split_and!; [done|done|done| |].
  - intros d Hd'. apply Hk2. by rewrite Hk1.
  - intros He. by rewrite Hv3, decide_True.
Qed.

(** *** The command *)

Definition outcome_of (o : ExecutionOutcome) : RunOutcome :=
  mkRunOutcome (exit_code (result o)) (stdout_raw (result o)) (stderr_raw (result o)) (cache_hit o)
    (if result_cached o then ""
     else "result not cached: this control-plane node is not the metadata leader; an identical action will re-execute").

Lemma read_operation_of out : read_operations [inr (operation_of op_uuid (inr out))] = inr (outcome_of out).
Proof. cbn. rewrite dec_enc_ExecuteResponse. done. Qed.

Lemma run_command_wp argv skip Q s :
  command_ready argv → cas_ok (sv_cas s) →
  (∀ c, cas_ok c → (∀ d, cas_has (sv_cas s) d = true → cas_has c d = true) → holds_all argv c →
     wp (execute_action limits cfg reg now job_uuid sandbox template job_fate status_text (action_digest argv) skip (request_tenant accepted))
       (λ out s', Q (outcome_of out) s') (λ _ _, False) (with_cas c s)) →
  wp (run_command client argv skip) Q (λ _ _, False) s.
Proof.
  intros (Hb & Hsum & Hn) Hok Hexec. unfold run_command. apply wp_bind.
  eapply wp_mono; [apply upload_missing_spec; [done|by eapply Forall_impl; [exact Hb|by intros b [? _]]|cbn; lia|done]| |done].
  intros ? s1 (c1 & -> & Hok1 & Hk1 & Hheld). apply wp_bind, wp_map_err. apply wp_bind, wp_of_outcome. rewrite has_bearer.
  apply wp_bind, wp_of_outcome. rewrite is_accepted. apply wp_bind, wp_of_outcome.
  unfold svc_execute. cbn [validate_instance_name String.eqb action_digest_of].
  rewrite proto_of_blob by (apply Forall_cons in Hb as [[? _] _]; done). cbn [fst snd].
  apply wp_bind, wp_attempt. eapply wp_mono; [by apply (Hexec c1)| |done].
  intros out s2 HQ. apply wp_ret. rewrite read_operation_of. by apply wp_ret.
Qed.

(** C6.  A build, from the client to the worker and back, and again from the cache.
    Where the stores serve and a worker takes the job, running a command answers
    with the exit code and the output of the sandbox that ran exactly those
    arguments; and if it succeeded, running the same command again answers with
    the same from the cache, and no sandbox is run a second time. *)
Theorem build_end_to_end argv o s :
  argv ≠ [] → command_ready argv → workers_ready argv → sandbox (sandbox_config argv) = inr o → output_fits o → ac_fits (result_of o) →
  server_up s → ac_view (sv_cache s) (hash (action_digest argv)) = None →
  let first := run_command client argv false s in
  let again := run_command client argv false first.1 in
  let code := exit_code_of (so_exit_status o) in
  first.2 = Ok (mkRunOutcome code (so_stdout o) (so_stderr o) false "") ∧ sv_runs first.1 = sv_runs s ++ [argv] ∧
  (code = 0%Z → again.2 = Ok (mkRunOutcome code (so_stdout o) (so_stderr o) true "") ∧ sv_runs again.1 = sv_runs s ++ [argv]).
Proof.
  intros Hne Hcmd Hw Hsb Hout Hfits Hup Hmiss first again code.
  assert (wp (run_command client argv false)
    (λ r s', r = mkRunOutcome code (so_stdout o) (so_stderr o) false "" ∧ server_up s' ∧ sv_runs s' = sv_runs s ++ [argv] ∧
       (code = 0%Z → ac_view (sv_cache s') (hash (action_digest argv)) = Some (result_of o))) (λ _ _, False) s) as Hfirst.
  { apply run_command_wp; [done|apply Hup|]. intros c Hcok Hk Hheld.
    eapply wp_mono; [apply (execute_miss argv _ false o); [done..| |done|by right]| |done].
    - destruct Hup as (? & ? & _). done.
    - intros out s' (-> & Hup' & Hruns & _ & Hv). done. }
  unfold wp in Hfirst. unfold again, first. destruct (run_command client argv false s) as [s1 [r1|e|]]; cbn [fst snd]; [|done..].
  destruct Hfirst as (-> & Hup1 & Hruns1 & Hv1). split_and!; [done|done|]. intros He. specialize (Hv1 He).
  assert (wp (run_command client argv false)
    (λ r s', r = mkRunOutcome code (so_stdout o) (so_stderr o) true "" ∧ sv_runs s' = sv_runs s1) (λ _ _, False) s1) as Hagain.
  { apply run_command_wp; [done|apply Hup1|]. intros c Hcok Hk Hheld.
    eapply wp_mono; [apply (execute_hit argv _ _ (result_of o)); [|done]| |done].
    - destruct Hup1 as (? & ? & _). done.
    - intros out s' (-> & _ & Hruns). done. }
  unfold wp in Hagain. destruct (run_command client argv false s1) as [s2 [r2|e|]]; cbn [fst snd]; [|done..].
  destruct Hagain as [-> ->]. done.
Qed.

End build.

(** ** Stores that serve *)

Lemma bind_ok {S E X Y} (m : eff S E X) (k : X → eff S E Y) s s' x : m s = (s', Ok x) → (m ≫= k) s = k x s'.
Proof. intros Hm. unfold mbind, eff_bind. by rewrite Hm. Qed.

#[export] Instance InMemoryCas_serving `{Sha256, ErrText} : ServingCas InMemoryCas.
Proof.
  split.
  - intros ds c _. by eexists.
  - intros ds c _. by eexists.
  - intros bs c _ Hbs. cbn. unfold im_batch_update_blobs. revert c. induction Hbs as [|[d b] bs [Hd _] _ IH]; intros c; [by eexists _, []|].
    cbn in Hd. subst d. destruct (IH (mkInMemoryCas (<[Digest_of b := b]> (im_blobs c)))) as (c' & rs & Hm & Hrs).
    exists c', (mkUpdateResult (Digest_of b) (Ok ()) :: rs). split; [|by constructor].
    transitivity ((r ← im_update_one (Digest_of b, b); rs ← mapM im_update_one bs; mret (r :: rs)) c); [done|].
    assert (im_update_one (Digest_of b, b) c = (mkInMemoryCas (<[Digest_of b := b]> (im_blobs c)), Ok (mkUpdateResult (Digest_of b) (Ok ())))) as Hone.
    { unfold im_update_one. by rewrite (proj2 (Digest_verify_ok (Digest_of b) b) eq_refl). }
    by rewrite (bind_ok _ _ _ _ _ Hone), (bind_ok _ _ _ _ _ Hm).
Qed.

#[export] Instance RedbActionCache_serving `{ArCodecSpec} : ServingCache RedbActionCache.
Proof.
  refine {| ac_up := λ a : RedbActionCache, rt_faults a = [] |}.
  - intros d a Hok Hup. destruct a as [rows limit faults]. cbn in Hup. subst faults. cbn.
    unfold ra_get_action_result, redb_begin, fate, mbind, eff_bind, gets. cbn.
    destruct (rows !! hash d) as [b|] eqn:Hb; [|done]. destruct (Hok _ _ Hb) as (_ & r & -> & _). rewrite dec_enc_result. by split; [eexists|].
  - intros d r a _ Hup. destruct a as [rows limit faults]. cbn in Hup. subst faults. by split; [eexists|].
Defined.

(** ** A build of one command *)

Definition property_tuple (p : Property) : string * string := (prop_name p, prop_value p).
Definition tuple_property (t : string * string) : Property := mkProperty t.1 t.2.
Definition platform_tuple (p : option Platform) : option (list (string * string)) := map property_tuple <$> p.
Definition tuple_platform (p : option (list (string * string))) : option Platform := map tuple_property <$> p.

Definition action_tuple (a : Action) :=
  (pbd_tuple <$> ac_command_digest a, pbd_tuple <$> ac_input_root_digest a, (λ d, (pb_seconds d, pb_nanos d)) <$> ac_timeout a,
   platform_tuple (ac_platform a), ac_other a).
Definition tuple_action (t : option (string * Z) * option (string * Z) * option (Z * Z) * option (list (string * string)) * bytes) : Action :=
  let '(c, i, d, p, o) := t in
  mkAction (tuple_pbd <$> c) (tuple_pbd <$> i) ((λ d, mkpbDuration d.1 d.2) <$> d) (tuple_platform p) o.

Definition command_tuple (c : Command) :=
  (cm_arguments c, (λ e, (ev_name e, ev_value e)) <$> cm_environment_variables c,
   platform_tuple (cm_platform c), cm_working_directory c, cm_other c).
Definition tuple_command (t : list string * list (string * string) * option (list (string * string)) * string * bytes) : Command :=
  let '(a, e, p, w, o) := t in
  mkCommand a ((λ q, mkEnvironmentVariable q.1 q.2) <$> e) (tuple_platform p) w o.

Lemma tuple_platform_tuple p : tuple_platform (platform_tuple p) = p.
Proof. destruct p as [p|]; [|done]. cbn. f_equal. apply fmap_fmap_id. by intros []. Qed.

Lemma tuple_action_tuple a : tuple_action (action_tuple a) = a.
Proof.
  destruct a as [c i d p o]. unfold tuple_action, action_tuple. cbn [ac_command_digest ac_input_root_digest ac_timeout ac_platform ac_other].
  rewrite !tuple_pbd_tuple, tuple_platform_tuple. f_equal. by destruct d as [[]|].
Qed.

Lemma tuple_command_tuple c : tuple_command (command_tuple c) = c.
Proof.
  destruct c as [a e p w o]. unfold tuple_command, command_tuple. cbn [cm_arguments cm_environment_variables cm_platform cm_working_directory cm_other].
  rewrite tuple_platform_tuple. f_equal. apply fmap_fmap_id. by intros [].
Qed.

#[local] Instance build_codec : ExecCodec := {|
  dec_Action b := match decode (bytes_to_pos b) with Some t => inr (tuple_action t) | None => inl "malformed action" end;
  dec_Command b := match decode (bytes_to_pos b) with Some t => inr (tuple_command t) | None => inl "malformed command" end
|}.

#[local] Instance build_encoder : ExecEncoder := {|
  enc_Action a := pos_to_bytes (encode (action_tuple a));
  enc_Command c := pos_to_bytes (encode (command_tuple c))
|}.

#[local] Instance build_encoder_spec : ExecEncoderSpec.
Proof.
  split.
  - intros a. cbn. by rewrite bytes_to_pos_to_bytes, decode_encode, tuple_action_tuple.
  - intros c. cbn. by rewrite bytes_to_pos_to_bytes, decode_encode, tuple_command_tuple.
Qed.

Definition response_tuple (r : ExecuteResponse) :=
  (result_tuple <$> er_result r, er_cached_result r, (λ s, (ps_code s, ps_message s)) <$> er_status r, er_message r).

#[local] Instance build_response_codec : ExecuteResponseCodec := {|
  enc_ExecuteResponse r := pos_to_bytes (encode (response_tuple r));
  dec_ExecuteResponse b :=
    match decode (bytes_to_pos b) with
    | Some (r, c, s, m) => inr (mkExecuteResponse (tuple_result <$> r) c ((λ s, mkpbStatus s.1 s.2) <$> s) m)
    | None => inl "malformed response"
    end
|}.

#[local] Instance build_response_codec_spec : ExecuteResponseCodecSpec.
Proof.
  intros [r c s m]. unfold dec_ExecuteResponse, enc_ExecuteResponse, build_response_codec, response_tuple.
  rewrite bytes_to_pos_to_bytes, decode_encode. cbn [er_result er_cached_result er_status er_message]. do 2 f_equal.
  - destruct r as [r|]; [|done]. change (Some (tuple_result (result_tuple r)) = Some r). by rewrite tuple_result_tuple.
  - by destruct s as [[]|].
Qed.

(** The empty directory is the empty message. *)
#[local] Instance build_dir_codec : DirCodec := {|
  enc_dir _ := [];
  dec_dir _ := inr empty_root
|}.

#[local] Instance build_id_text : IdText := λ _, "invalid identifier".

#[local] Instance build_jwt : Jwt := {|
  DecodingKey := unit;
  key_from_secret _ := ();
  key_from_rsa_pem _ := inr ();
  jwt_decode _ _ _ := inl "not a token"
|}.

#[local] Instance build_settings : SandboxSettings := unit.

Definition digits (c : Ascii.ascii) : string := Nat.iter 64 (String c) EmptyString.

Definition build_argv : list string := ["cc"; "main.c"].
Definition build_command : bytes := enc_Command (command_of build_argv).
Definition build_action : bytes :=
  enc_Action (mkAction (Some (mkpbDigest (digits "2"%char) (as_i64 (N.of_nat (length build_command))))) (Some (mkpbDigest (digits "3"%char) 0)) None None []).

(** A hash that tells three messages, and nothing else, apart. *)
Definition sha_of_three (m1 m2 m3 b : bytes) : string :=
  if decide (b = m1) then digits "1"%char else if decide (b = m2) then digits "2"%char
  else if decide (b = m3) then digits "3"%char else digits "0"%char.

Lemma sha_of_three_shape m1 m2 m3 b :
  str_bytes (sha_of_three m1 m2 m3 b) = SHA256_HEX_LEN ∧ all_chars hex_char (sha_of_three m1 m2 m3 b) = true.
Proof. unfold sha_of_three. repeat case_decide; by vm_compute. Qed.

Lemma sha_of_three_inj m1 m2 m3 b b' :
  b ∈ [m1; m2; m3] → sha_of_three m1 m2 m3 b' = sha_of_three m1 m2 m3 b → b' = b.
Proof.
  unfold sha_of_three. rewrite !elem_of_cons, elem_of_nil.
  intros [->|[->|[->|[]]]]; repeat case_decide; intros Hd; first [discriminate Hd|congruence].
Qed.

#[local] Instance build_sha : Sha256 := sha_of_three build_action build_command [].
#[local] Instance build_sha_spec : Sha256Spec := sha_of_three_shape build_action build_command [].

Lemma build_blobs : command_blobs build_argv = [build_action; build_command; []].
Proof. by vm_compute. Qed.

Lemma build_blobs_fit : Forall blob_fits [build_action; build_command; []].
Proof. repeat constructor; by vm_compute. Qed.

Lemma build_no_collision : Forall no_collision [build_action; build_command; []].
Proof. apply Forall_forall. intros b Hb b'. by apply sha_of_three_inj. Qed.

Definition build_outcome : SandboxOutcome := mkSandboxOutcome (Exited 0) [Byte.x6f; Byte.x6b] [].
Definition build_limits : BatchLimits := BatchLimits_default.
Definition build_cfg : Config SimpleFifo := Scheduler_build mkSimpleFifo DEFAULT_EXECUTION_TIMEOUT None.
Definition build_client : BrokkrClient := mkBrokkrClient worker_channel None "http://localhost:7878" None.
Definition build_server : Server RedbActionCache InMemoryCas := mkServer (RedbActionCache_open ∅ []) InMemoryCas_new u64_0 [].
Definition build_uuid : string := "01890a5d-ac96-774b-bcce-b302099a8057".

#[local] Instance build_wire : Wire (Server RedbActionCache InMemoryCas) :=
  client_wire build_limits AuthDisabled build_cfg None 0 build_uuid build_uuid (λ _, inr build_outcome) (mkSandboxTemplate () "/work") (λ _, Taken)
    (λ _, "error").

Definition build_once := run_command build_client build_argv false build_server.
Definition build_twice := run_command build_client build_argv false build_once.1.

Lemma build_end_to_end_witness :
  build_once.2 = Ok (mkRunOutcome 0 [Byte.x6f; Byte.x6b] [] false "") ∧ sv_runs build_once.1 = [build_argv] ∧
  build_twice.2 = Ok (mkRunOutcome 0 [Byte.x6f; Byte.x6b] [] true "") ∧ sv_runs build_twice.1 = [build_argv].
Proof.
  destruct (build_end_to_end build_limits AuthDisabled build_cfg None 0 build_uuid build_uuid (λ _, inr build_outcome)
    (mkSandboxTemplate () "/work") (λ _, Taken) (λ _, "error") build_client ∅ (mkIncoming ∅ None) eq_refl eq_refl build_argv build_outcome build_server)
    as (H1 & H2 & H3).
  - done.
  - unfold command_ready. rewrite build_blobs. split_and!; [|by vm_compute..].
    apply Forall_and; split; [exact build_blobs_fit|exact build_no_collision].
  - split_and!; [done|by eexists|done].
  - done.
  - split_and!; by vm_compute.
  - by vm_compute.
  - split_and!.
    + by intros h b Hb.
    + done.
    + by intros d b Hb.
  - done.
  - destruct (H3 eq_refl) as [H4 H5]. exact (conj H1 (conj H2 (conj H4 H5))).
Defined.

(** A worker reports a result whose output the store did not take: the statuses of
    the blobs are not looked at. *)
Lemma worker_reports_lost_output job :
  jb_command (pj_job job) = Some (command_of build_argv) →
  ∃ s', run_on_worker build_limits (λ _, inr build_outcome) (mkSandboxTemplate () "/work") (λ _, Taken) (λ _, "error") job
      (mkServer (RedbActionCache_open ∅ []) (RedbCas_open ∅ [None; Some (TxnFailed "disk full"); Some (TxnFailed "disk full")]) u64_0 [])
    = (s', Ok (WReport (mkJobResult (jb_job_id (pj_job job)) (Some (result_of build_outcome)) ""))) ∧
    cas_has (sv_cas s') (Digest_of (so_stdout build_outcome)) = false.
Proof.
  intros Hcmd. eexists. split.
  - unfold run_on_worker, report_of, handle_job. rewrite Hcmd. vm_compute. reflexivity.
  - by vm_compute.
Qed.
