(* ===== verification/Seccomp.v ===== *)
(** * brokkr-sandbox: the system-call filters

    Models [crates/brokkr-sandbox/src/runner/seccomp.rs].  [libc]'s numbers are a
    parameter.  Of [seccompiler] and the kernel the model has what the source says
    and relies on: a filter has one action for calls that match a rule and one for
    the rest, and of several filters the most restrictive verdict counts. *)

From stdpp Require Import prelude gmap strings.
From Stdlib Require Import Lia.
From S2P Require Import Prelude.

Local Open Scope Z_scope.

(** ** libc *)

(** The constants of the target: [SYS_*], the options of [prctl] and the requests
    of [ioctl], by name. *)
Class Libc : Type := { SYS_ : string → Z; PR_ : string → Z; TIOC_ : string → Z }.

(** The options of [prctl] and the requests of [ioctl] that are denied. *)
Definition DENIED_PRCTL_OPTIONS : list string := ["PR_SET_KEEPCAPS"; "PR_CAPBSET_DROP"; "PR_SET_TSC"; "PR_GET_TSC"].
Definition DENIED_IOCTL_REQUESTS : list string := ["TIOCSTI"; "TIOCSWINSZ"; "TIOCGWINSZ"; "TIOCSBRK"; "TIOCCBRK"; "TIOCSPTLCK"].

(** Different calls have different numbers, the option that is needed to install a
    filter is not one of those denied, and options and requests are of 32 bits. *)
Class LibcSpec `{Libc} : Prop := {
  SYS_inj a b : SYS_ a = SYS_ b → a = b;
  PR_needed a : a ∈ DENIED_PRCTL_OPTIONS → PR_ a ≠ PR_ "PR_SET_NO_NEW_PRIVS";
  PR_width a : 0 ≤ PR_ a < 2 ^ 32;
  TIOC_width a : 0 ≤ TIOC_ a < 2 ^ 32
}.

Inductive Arch : Type := X86_64 | Aarch64 | Riscv64 | OtherArch.

#[export] Instance Arch_eq_dec : EqDecision Arch.
Proof. solve_decision. Defined.

(** ** Filters *)

Inductive SeccompAction : Type := SeccompAllow | SeccompErrno.

#[export] Instance SeccompAction_eq_dec : EqDecision SeccompAction.
Proof. solve_decision. Defined.

(** Argument [cond_arg], as 32 bits, equals [cond_value]. *)
Record SeccompCondition : Type := mkSeccompCondition { cond_arg : nat; cond_value : Z }.

Definition SeccompRule : Type := list SeccompCondition.

Record SeccompFilter : Type := mkSeccompFilter {
  rules : gmap Z (list SeccompRule);
  mismatch_action : SeccompAction;
  match_action : SeccompAction
}.

(** A system call: its number and arguments. *)
Record Syscall : Type := mkSyscall { sys_number : Z; sys_args : list Z }.

Definition cond_holds (args : list Z) (c : SeccompCondition) : bool :=
  bool_decide (nth (cond_arg c) args 0 mod 2 ^ 32 = cond_value c mod 2 ^ 32).

(** A number without rules matches unconditionally. *)
Definition filter_action (f : SeccompFilter) (c : Syscall) : SeccompAction :=
  match rules f !! sys_number c with
  | None => mismatch_action f
  | Some [] => match_action f
  | Some rs => if existsb (forallb (cond_holds (sys_args c))) rs then match_action f else mismatch_action f
  end.

Definition kernel_allows (fs : list SeccompFilter) (c : Syscall) : bool :=
  forallb (λ f, bool_decide (filter_action f c = SeccompAllow)) fs.

(** ** [seccomp.rs] *)

Definition DEFAULT_ALLOW : list string :=
  [
   "read"; "write"; "readv"; "writev"; "pread64"; "pwrite64"; "open"; "openat"; "openat2"; "close";
   "close_range"; "stat"; "fstat"; "lstat"; "newfstatat"; "statx"; "lseek"; "getdents"; "getdents64";
   "readlink"; "readlinkat"; "access"; "faccessat"; "faccessat2"; "fadvise64"; "fdatasync"; "fsync";
   "ftruncate"; "truncate"; "umask"; "rename"; "renameat"; "renameat2"; "unlink"; "unlinkat"; "rmdir";
   "mkdir"; "mkdirat"; "chmod"; "fchmod"; "fchmodat"; "chown"; "fchown"; "fchownat"; "lchown"; "symlink";
   "symlinkat"; "link"; "linkat"; "utimensat"; "futimesat"; "statfs"; "fstatfs"; "tgkill"; "tkill"; "kill";
   "rseq"; "membarrier"; "set_tid_address"; "mmap"; "mmap2"; "munmap"; "mremap"; "mprotect"; "madvise";
   "msync"; "brk"; "execve"; "execveat"; "wait4"; "waitid"; "exit"; "exit_group"; "rt_sigaction";
   "rt_sigprocmask"; "rt_sigreturn"; "rt_sigsuspend"; "sigaltstack"; "clone"; "clone3"; "fork"; "vfork";
   "pipe"; "pipe2"; "dup"; "dup2"; "dup3"; "getpid"; "getppid"; "gettid"; "getuid"; "geteuid"; "getgid";
   "getegid"; "getgroups"; "setgroups"; "getcwd"; "chdir"; "fchdir"; "fcntl"; "fcntl64"; "ioctl";
   "prlimit64"; "getrlimit"; "setrlimit"; "arch_prctl"; "prctl"; "sched_yield"; "sched_getaffinity";
   "nanosleep"; "clock_nanosleep"; "clock_gettime"; "clock_getres"; "futex"; "futex_waitv";
   "set_robust_list"; "get_robust_list"; "epoll_create"; "epoll_create1"; "epoll_ctl"; "epoll_wait";
   "epoll_pwait"; "poll"; "ppoll"; "select"; "pselect6"; "socket"; "socketpair"; "connect"; "bind";
   "listen"; "accept"; "accept4"; "shutdown"; "getsockname"; "getpeername"; "setsockopt"; "getsockopt";
   "sendto"; "recvfrom"; "sendmsg"; "recvmsg"; "sendmmsg"; "recvmmsg"; "uname"; "sysinfo"; "getrandom"].

(** The names [syscall_nr] resolves everywhere, and on [x86_64] only. *)
Definition COMMON_SYSCALLS : list string :=
  [
   "read"; "write"; "readv"; "writev"; "pread64"; "pwrite64"; "openat"; "openat2"; "close"; "close_range";
   "fstat"; "newfstatat"; "statx"; "lseek"; "getdents64"; "readlinkat"; "faccessat"; "faccessat2";
   "fdatasync"; "fsync"; "ftruncate"; "truncate"; "umask"; "renameat"; "renameat2"; "unlinkat"; "mkdirat";
   "fchmod"; "fchmodat"; "fchown"; "fchownat"; "symlinkat"; "linkat"; "utimensat"; "statfs"; "fstatfs";
   "tgkill"; "tkill"; "kill"; "rseq"; "membarrier"; "set_tid_address"; "mmap"; "munmap"; "mremap";
   "mprotect"; "madvise"; "msync"; "brk"; "execve"; "execveat"; "wait4"; "waitid"; "exit"; "exit_group";
   "rt_sigaction"; "rt_sigprocmask"; "rt_sigreturn"; "rt_sigsuspend"; "sigaltstack"; "clone"; "clone3";
   "pipe2"; "dup"; "dup3"; "getpid"; "getppid"; "gettid"; "getuid"; "geteuid"; "getgid"; "getegid";
   "getgroups"; "setgroups"; "getcwd"; "chdir"; "fchdir"; "fcntl"; "ioctl"; "prlimit64"; "setrlimit";
   "prctl"; "sched_yield"; "sched_getaffinity"; "nanosleep"; "clock_nanosleep"; "clock_gettime";
   "clock_getres"; "futex"; "set_robust_list"; "get_robust_list"; "epoll_create1"; "epoll_ctl";
   "epoll_pwait"; "ppoll"; "pselect6"; "socket"; "socketpair"; "connect"; "bind"; "listen"; "accept";
   "accept4"; "shutdown"; "getsockname"; "getpeername"; "setsockopt"; "getsockopt"; "sendto"; "recvfrom";
   "sendmsg"; "recvmsg"; "sendmmsg"; "recvmmsg"; "uname"; "sysinfo"; "getrandom"].

Definition X86_64_SYSCALLS : list string :=
  [
   "open"; "stat"; "lstat"; "fork"; "vfork"; "pipe"; "getrlimit"; "arch_prctl"; "epoll_create";
   "epoll_wait"; "poll"; "select"; "getdents"; "readlink"; "access"; "rename"; "unlink"; "rmdir"; "mkdir";
   "chmod"; "chown"; "lchown"; "symlink"; "link"; "futimesat"].

Section seccomp.
Context `{Libc} (arch : Arch).

Definition syscall_nr (name : string) : option Z :=
  if bool_decide (name ∈ COMMON_SYSCALLS) then Some (SYS_ name)
  else if bool_decide (name = "fadvise64" ∧ arch ∈ [X86_64; Riscv64]) then Some (SYS_ name)
  else if bool_decide (arch = X86_64 ∧ name ∈ X86_64_SYSCALLS) then Some (SYS_ name)
  else if bool_decide (arch ∈ [X86_64; Aarch64] ∧ name = "futex_waitv") then Some (SYS_ name)
  else None.

Definition host_target_arch : outcome string () := if decide (arch = OtherArch) then Err "seccomp: unsupported arch" else Ok ().

(** The numbers of [extra_allow], which must all be known. *)
Fixpoint resolve_extra (numbers : gset Z) (extra : list string) : outcome string (gset Z) :=
  match extra with
  | [] => Ok numbers
  | name :: extra =>
      if String.eqb name "" then resolve_extra numbers extra
      else
        match syscall_nr name with
        | Some nr => resolve_extra ({[nr]} ∪ numbers) extra
        | None => Err ("seccomp: unknown syscall in extra_allow: " +:+ name)
        end
  end.

Definition default_numbers : gset Z := list_to_set (omap syscall_nr DEFAULT_ALLOW).

Definition build_filter (extra_allow : list string) : outcome string SeccompFilter :=
  match host_target_arch with
  | Ok _ =>
      match resolve_extra default_numbers extra_allow with
      | Ok numbers => Ok (mkSeccompFilter (gset_to_gmap [] numbers) SeccompErrno SeccompAllow)
      | Err e => Err e
      | Halt => Halt
      end
  | Err e => Err e
  | Halt => Halt
  end.

Definition prctl_deny_rules : list SeccompRule := (λ opt, [mkSeccompCondition 0 (PR_ opt)]) <$> DENIED_PRCTL_OPTIONS.
Definition ioctl_deny_rules : list SeccompRule := (λ req, [mkSeccompCondition 1 (TIOC_ req)]) <$> DENIED_IOCTL_REQUESTS.

Definition build_deny_filter : outcome string SeccompFilter :=
  match host_target_arch with
  | Ok _ =>
      Ok (mkSeccompFilter (<[SYS_ "ioctl" := ioctl_deny_rules]> {[SYS_ "prctl" := prctl_deny_rules]}) SeccompAllow SeccompErrno)
  | Err e => Err e
  | Halt => Halt
  end.

(** ** What the pair of filters lets through *)

Definition denied_call (c : Syscall) : Prop :=
  (sys_number c = SYS_ "prctl" ∧ ∃ opt, opt ∈ DENIED_PRCTL_OPTIONS ∧ nth 0 (sys_args c) 0 mod 2 ^ 32 = PR_ opt) ∨
  (sys_number c = SYS_ "ioctl" ∧ ∃ req, req ∈ DENIED_IOCTL_REQUESTS ∧ nth 1 (sys_args c) 0 mod 2 ^ 32 = TIOC_ req).

Definition listed_call (extra : list string) (c : Syscall) : Prop :=
  ∃ name, (name ∈ DEFAULT_ALLOW ∨ name ∈ extra ∧ name ≠ "") ∧ syscall_nr name = Some (sys_number c).

Lemma resolve_extra_spec extra numbers :
  match resolve_extra numbers extra with
  | Ok ns => ∀ n, n ∈ ns ↔ n ∈ numbers ∨ ∃ name, name ∈ extra ∧ name ≠ "" ∧ syscall_nr name = Some n
  | Err _ => ∃ name, name ∈ extra ∧ name ≠ "" ∧ syscall_nr name = None
  | Halt => False
  end.
Proof.
  revert numbers. induction extra as [|name extra IH]; intros numbers; cbn [resolve_extra]; [set_solver|].
  destruct (String.eqb_spec name "") as [->|Hne].
  { specialize (IH numbers). destruct (resolve_extra numbers extra); set_solver. }
  destruct (syscall_nr name) as [nr|] eqn:Hnr; [|exists name; set_solver].
  specialize (IH ({[nr]} ∪ numbers)). destruct (resolve_extra _ extra); [|set_solver..]. intros n. rewrite IH. set_solver.
Qed.

Lemma elem_of_resolved (names : list string) n :
  n ∈ (list_to_set (omap syscall_nr names) : gset Z) ↔ ∃ name, name ∈ names ∧ syscall_nr name = Some n.
Proof. by rewrite elem_of_list_to_set, list_elem_of_omap. Qed.

Lemma elem_of_default n : n ∈ default_numbers ↔ ∃ name, name ∈ DEFAULT_ALLOW ∧ syscall_nr name = Some n.
Proof. exact (elem_of_resolved DEFAULT_ALLOW n). Qed.

Lemma base_filter_allows extra f c :
  build_filter extra = Ok f → filter_action f c = SeccompAllow ↔ listed_call extra c.
Proof.
  unfold build_filter. destruct host_target_arch; [|done..]. pose proof (resolve_extra_spec extra default_numbers) as Hr.
  destruct (resolve_extra default_numbers extra) as [ns| |]; [|done..]. intros [= <-].
  unfold filter_action. cbn [rules mismatch_action match_action]. destruct (gset_to_gmap [] ns !! sys_number c) as [rs|] eqn:Hl.
  - apply lookup_gset_to_gmap_Some in Hl as [Hn <-]. split; [intros _|done]. apply Hr in Hn as [Hn|(name & ? & ? & ?)].
    + apply elem_of_default in Hn as (name & ? & ?). exists name. auto.
    + exists name. auto.
  - apply lookup_gset_to_gmap_None in Hl. split; [done|]. intros (name & [Hd|[He Hne]] & Hnr); destruct Hl; apply Hr; [left|right; by exists name].
    apply elem_of_default. by exists name.
Qed.

Lemma rule_matches args (n : nat) (val : string → Z) (names : list string) :
  (∀ a, 0 ≤ val a < 2 ^ 32) →
  existsb (forallb (cond_holds args)) ((λ a, [mkSeccompCondition n (val a)]) <$> names) = true ↔
  ∃ a, a ∈ names ∧ nth n args 0 mod 2 ^ 32 = val a.
Proof.
  intros Hw. rewrite existsb_exists. split.
  - intros (r & Hr & Hc). apply list_elem_of_In, list_elem_of_fmap in Hr as (a & -> & Ha). exists a. split; [done|].
    cbn in Hc. rewrite andb_true_r in Hc. apply bool_decide_eq_true in Hc. cbn in Hc. by rewrite (Z.mod_small (val a)) in Hc.
  - intros (a & Ha & Hc). eexists. split; [apply list_elem_of_In, list_elem_of_fmap; by exists a|]. cbn. rewrite andb_true_r.
    apply bool_decide_eq_true. cbn. by rewrite (Z.mod_small (val a)).
Qed.

Lemma filter_action_rules f c rs :
  rules f !! sys_number c = Some rs → rs ≠ [] →
  filter_action f c = if existsb (forallb (cond_holds (sys_args c))) rs then match_action f else mismatch_action f.
Proof. intros Hl Hne. unfold filter_action. rewrite Hl. by destruct rs. Qed.

Lemma deny_filter_allows `{!LibcSpec} f c : build_deny_filter = Ok f → filter_action f c = SeccompAllow ↔ ¬ denied_call c.
Proof.
  unfold build_deny_filter. destruct host_target_arch; [|done..]. intros [= <-]. unfold denied_call.
  assert (SYS_ "ioctl" ≠ SYS_ "prctl") as Hne. { intros E%SYS_inj. done. }
  destruct (decide (sys_number c = SYS_ "ioctl")) as [Hc|Hi]; [|destruct (decide (sys_number c = SYS_ "prctl")) as [Hc|Hp]].
  - rewrite (filter_action_rules _ _ ioctl_deny_rules); [|cbn; rewrite Hc; apply lookup_insert_eq|done]. cbn [mismatch_action match_action].
    pose proof (rule_matches (sys_args c) 1 TIOC_ DENIED_IOCTL_REQUESTS TIOC_width) as Hm. fold ioctl_deny_rules in Hm.
    destruct (existsb (forallb (cond_holds (sys_args c))) ioctl_deny_rules); naive_solver congruence.
  - rewrite (filter_action_rules _ _ prctl_deny_rules); [|cbn; rewrite Hc, lookup_insert_ne by done; apply lookup_singleton_eq|done].
    cbn [mismatch_action match_action].
    pose proof (rule_matches (sys_args c) 0 PR_ DENIED_PRCTL_OPTIONS PR_width) as Hm. fold prctl_deny_rules in Hm.
    destruct (existsb (forallb (cond_holds (sys_args c))) prctl_deny_rules); naive_solver congruence.
  - unfold filter_action. cbn [rules]. rewrite lookup_insert_ne, lookup_singleton_ne by done. naive_solver.
Qed.

End seccomp.
