(* ===== verification/Sandbox.v ===== *)
(** * brokkr-sandbox: the runner of an action

    Models [crates/brokkr-sandbox/src/config.rs] and [src/runner/]: the process
    that enters its namespaces, builds a root file system, drops its privileges and
    executes the action.  What it is at any moment is a [Process]; each system call
    may fail, on an arbitrary schedule, and otherwise does to the process what its
    manual page says, as far as the runner relies on it.  What the host's file
    system holds is a parameter. *)

From stdpp Require Import prelude gmap strings pretty.
From Stdlib Require Import Lia Ascii.
From S2P Require Import Prelude Machine Bytes Common Scheduler Execute Services Worker Seccomp.

Local Open Scope N_scope.

(** ** [config.rs] *)

Record RootfsSpec : Type := mkRootfsSpec {
  ro_binds : list (string * string);
  tmpfs : list (string * N);
  symlinks : list (string * string);
  (** Not read by the runner. *)
  input_root : option string
}.

Definition rootfs_is_empty (r : RootfsSpec) : bool :=
  match ro_binds r, tmpfs r, symlinks r with [], [], [] => true | _, _, _ => false end.

Inductive NetworkPolicy : Type := NetNone | NetLoopback.

Record ResourceLimits : Type := mkResourceLimits {
  cpu_milli : option u64;
  memory_bytes : option u64;
  pids_max : option u64;
  io_read_bytes_per_sec : option u64;
  io_write_bytes_per_sec : option u64;
  wall_clock_secs : option u64
}.

Record DeterminismPolicy : Type := mkDeterminismPolicy {
  hostname : option string;
  timezone_utc : bool;
  source_date_epoch : option Z;
  strip_ld_preload : bool;
  strip_path : bool
}.

Definition brokkr_defaults : DeterminismPolicy := mkDeterminismPolicy (Some "brokkr-sandbox") true None true true.

(** The fields of [SandboxConfig] besides the command, its environment and
    directory, and the opt-out from isolation. *)
Record SandboxPolicy : Type := mkSandboxPolicy {
  rootfs : RootfsSpec;
  limits : ResourceLimits;
  network : NetworkPolicy;
  determinism : DeterminismPolicy;
  retained_caps : list string;
  extra_seccomp_allow : list string
}.

#[export] Instance runner_settings : SandboxSettings := SandboxPolicy.

Definition policy (cfg : SandboxConfig) : SandboxPolicy := sc_settings cfg.

(** ** The process *)

Inductive CapSet : Type := Bounding | Effective | Permitted | Inheritable | Ambient.

#[export] Instance CapSet_eq_dec : EqDecision CapSet.
Proof. solve_decision. Defined.

Inductive MountKind : Type :=
| MTmpfs (options : string)
| MProc
| MBind (source : string)
(** A mount below the source of a recursive bind, which comes with it. *)
| MBelow (source : string).

Record Mounted : Type := mkMounted {
  mn_target : string;
  mn_kind : MountKind;
  mn_rdonly : bool;
  mn_nosuid : bool;
  mn_nodev : bool
}.

(** The file system of the host; the new root with the host's below it; the new
    root alone. *)
Inductive Root : Type := HostRoot | PivotedRoot | SandboxRoot.

Record Process : Type := mkProcess {
  (** In the new user, mount, process, network and host-name namespaces. *)
  pr_namespaces : bool;
  (** What it wrote to its files of [/proc/self]. *)
  pr_maps : list (string * string);
  pr_private : bool;
  (** The newest first. *)
  pr_mounts : list Mounted;
  pr_root : Root;
  pr_loopback : bool;
  pr_hostname : option string;
  (** Its id in the new process namespace, zero before it has one. *)
  pr_pid : N;
  pr_caps : CapSet → gset string;
  pr_no_new_privs : bool;
  pr_tsc_faults : bool;
  pr_filters : list SeccompFilter;
  pr_cwd : string;
  (** For each call to come, its failure or none. *)
  pr_faults : list (option string)
}.

Definition set_namespaces b p := mkProcess b (pr_maps p) (pr_private p) (pr_mounts p) (pr_root p) (pr_loopback p) (pr_hostname p) (pr_pid p) (pr_caps p) (pr_no_new_privs p) (pr_tsc_faults p) (pr_filters p) (pr_cwd p) (pr_faults p).
Definition set_maps l p := mkProcess (pr_namespaces p) l (pr_private p) (pr_mounts p) (pr_root p) (pr_loopback p) (pr_hostname p) (pr_pid p) (pr_caps p) (pr_no_new_privs p) (pr_tsc_faults p) (pr_filters p) (pr_cwd p) (pr_faults p).
Definition set_private b p := mkProcess (pr_namespaces p) (pr_maps p) b (pr_mounts p) (pr_root p) (pr_loopback p) (pr_hostname p) (pr_pid p) (pr_caps p) (pr_no_new_privs p) (pr_tsc_faults p) (pr_filters p) (pr_cwd p) (pr_faults p).
Definition set_mounts l p := mkProcess (pr_namespaces p) (pr_maps p) (pr_private p) l (pr_root p) (pr_loopback p) (pr_hostname p) (pr_pid p) (pr_caps p) (pr_no_new_privs p) (pr_tsc_faults p) (pr_filters p) (pr_cwd p) (pr_faults p).
Definition set_root r p := mkProcess (pr_namespaces p) (pr_maps p) (pr_private p) (pr_mounts p) r (pr_loopback p) (pr_hostname p) (pr_pid p) (pr_caps p) (pr_no_new_privs p) (pr_tsc_faults p) (pr_filters p) (pr_cwd p) (pr_faults p).
Definition set_loopback b p := mkProcess (pr_namespaces p) (pr_maps p) (pr_private p) (pr_mounts p) (pr_root p) b (pr_hostname p) (pr_pid p) (pr_caps p) (pr_no_new_privs p) (pr_tsc_faults p) (pr_filters p) (pr_cwd p) (pr_faults p).
Definition set_hostname h p := mkProcess (pr_namespaces p) (pr_maps p) (pr_private p) (pr_mounts p) (pr_root p) (pr_loopback p) h (pr_pid p) (pr_caps p) (pr_no_new_privs p) (pr_tsc_faults p) (pr_filters p) (pr_cwd p) (pr_faults p).
Definition set_pid n p := mkProcess (pr_namespaces p) (pr_maps p) (pr_private p) (pr_mounts p) (pr_root p) (pr_loopback p) (pr_hostname p) n (pr_caps p) (pr_no_new_privs p) (pr_tsc_faults p) (pr_filters p) (pr_cwd p) (pr_faults p).
Definition set_caps c p := mkProcess (pr_namespaces p) (pr_maps p) (pr_private p) (pr_mounts p) (pr_root p) (pr_loopback p) (pr_hostname p) (pr_pid p) c (pr_no_new_privs p) (pr_tsc_faults p) (pr_filters p) (pr_cwd p) (pr_faults p).
Definition set_no_new_privs p := mkProcess (pr_namespaces p) (pr_maps p) (pr_private p) (pr_mounts p) (pr_root p) (pr_loopback p) (pr_hostname p) (pr_pid p) (pr_caps p) true (pr_tsc_faults p) (pr_filters p) (pr_cwd p) (pr_faults p).
Definition set_tsc_faults p := mkProcess (pr_namespaces p) (pr_maps p) (pr_private p) (pr_mounts p) (pr_root p) (pr_loopback p) (pr_hostname p) (pr_pid p) (pr_caps p) (pr_no_new_privs p) true (pr_filters p) (pr_cwd p) (pr_faults p).
Definition push_filter f p := mkProcess (pr_namespaces p) (pr_maps p) (pr_private p) (pr_mounts p) (pr_root p) (pr_loopback p) (pr_hostname p) (pr_pid p) (pr_caps p) (pr_no_new_privs p) (pr_tsc_faults p) (f :: pr_filters p) (pr_cwd p) (pr_faults p).
Definition set_cwd d p := mkProcess (pr_namespaces p) (pr_maps p) (pr_private p) (pr_mounts p) (pr_root p) (pr_loopback p) (pr_hostname p) (pr_pid p) (pr_caps p) (pr_no_new_privs p) (pr_tsc_faults p) (pr_filters p) d (pr_faults p).
Definition set_faults l p := mkProcess (pr_namespaces p) (pr_maps p) (pr_private p) (pr_mounts p) (pr_root p) (pr_loopback p) (pr_hostname p) (pr_pid p) (pr_caps p) (pr_no_new_privs p) (pr_tsc_faults p) (pr_filters p) (pr_cwd p) l.

(** ** System calls *)

(** The next call fails, or goes on. *)
Definition attempted : eff Process string () := λ p,
  match pr_faults p with
  | [] => (p, Ok ())
  | None :: l => (set_faults l p, Ok ())
  | Some e :: l => (set_faults l p, Err e)
  end.

Definition syscall (f : Process → Process) : eff Process string () := attempted;; modify f.

(** A call of the file system that changes nothing the model follows. *)
Definition fs_call : eff Process string () := attempted.

Definition set_current_dir (d : string) : eff Process string () := syscall (set_cwd d).

Inductive MsFlag : Type := MS_REC | MS_PRIVATE | MS_NOSUID | MS_NODEV | MS_NOEXEC | MS_BIND | MS_REMOUNT | MS_RDONLY.

#[export] Instance MsFlag_eq_dec : EqDecision MsFlag.
Proof. solve_decision. Defined.

Definition flagged (f : MsFlag) (fs : list MsFlag) : bool := bool_decide (f ∈ fs).

Definition reflag (fs : list MsFlag) (m : Mounted) : Mounted :=
  mkMounted (mn_target m) (mn_kind m) (flagged MS_RDONLY fs) (flagged MS_NOSUID fs) (flagged MS_NODEV fs).

(** The topmost mount at a place, and no mount below it. *)
Fixpoint remount (target : string) (fs : list MsFlag) (ms : list Mounted) : option (list Mounted) :=
  match ms with
  | [] => None
  | m :: ms =>
      if String.eqb (mn_target m) target then Some (reflag fs m :: ms)
      else match remount target fs ms with Some ms => Some (m :: ms) | None => None end
  end.

(** What the host's file system holds: whether a path exists and is a directory,
    seen from the process, and the mounts below a path of the host, each with
    whether it is read-only. *)
Class HostFs : Type := {
  path_exists : Process → string → bool;
  path_is_dir : Process → string → bool;
  mounts_below : string → list (string * bool);
  (** The name [mkdtemp] makes up. *)
  bootstrap_name : string
}.

Section mounts.
Context `{HostFs}.

(** The flags of a new bind are ignored: it has those of its source. *)
Definition bind_mounts (source target : string) (fs : list MsFlag) : list Mounted :=
  mkMounted target (MBind source) false false false ::
  (if flagged MS_REC fs then (λ p, mkMounted (target +:+ p.1) (MBelow source) p.2 false false) <$> mounts_below source else []).

Definition mount (source : option string) (target : string) (fstype : option string) (fs : list MsFlag) (data : option string)
    : eff Process string () :=
  attempted;;
  ms ← gets pr_mounts;
  if flagged MS_PRIVATE fs then modify (set_private true)
  else if flagged MS_REMOUNT fs then
    match remount target fs ms with
    | Some ms => modify (set_mounts ms)
    | None => throw "EINVAL"
    end
  else if flagged MS_BIND fs then modify (set_mounts (bind_mounts (default "" source) target fs ++ ms))
  else
    modify (set_mounts (mkMounted target (if bool_decide (fstype = Some "proc") then MProc else MTmpfs (default "" data))
      (flagged MS_RDONLY fs) (flagged MS_NOSUID fs) (flagged MS_NODEV fs) :: ms)).

(** ** [userns.rs] *)

Context (all_caps : gset string) (host_uid host_gid : N).

(** A process is given every capability in the user namespace it makes. *)
Definition fresh_caps (s : CapSet) : gset string := match s with Inheritable | Ambient => ∅ | _ => all_caps end.

Definition unshare : eff Process string () := syscall (λ p, set_caps fresh_caps (set_namespaces true p)).

(** Opening the file and writing to it. *)
Definition write_self (file content : string) : eff Process string () :=
  attempted;; syscall (λ p, set_maps (pr_maps p ++ [(file, content)]) p).

Definition id_map (host : N) : string := "0 " +:+ pretty host +:+ " 1" +:+ String "010" EmptyString.

Definition setup_namespaces : eff Process string () :=
  unshare;;
  write_self "setgroups" "deny";;
  write_self "uid_map" (id_map host_uid);;
  write_self "gid_map" (id_map host_gid).

(** ** [mount.rs] *)

(** [strip_prefix("/")] of an absolute path: what is left after its first slash and
    any empty or [.] part that follows. *)
Fixpoint trim_left (fuel : nat) (s : string) : string :=
  match fuel with
  | O => s
  | S fuel =>
      match s with
      | String "/" s => trim_left fuel s
      | String "." (String "/" s) => trim_left fuel s
      | String "." EmptyString => ""
      | s => s
      end
  end.

Definition inside (new_root sandbox_path : string) : string :=
  path_join new_root
    (if path_is_absolute sandbox_path then trim_left (String.length sandbox_path) sandbox_path else sandbox_path).

(** [create_dir_all], or the parent's and [File::create] unless the file exists. *)
Definition ensure_target_dir (host target : string) : eff Process string () :=
  attempted;;
  d ← gets (λ p, path_is_dir p host);
  if d : bool then fs_call
  else
    fs_call;;
    e ← gets (λ p, path_exists p target);
    if e : bool then mret () else fs_call.

Definition bind_one (new_root : string) (b : string * string) : eff Process string () :=
  e ← gets (λ p, path_exists p b.1);
  if negb e then mret ()
  else
    let target := inside new_root b.2 in
    ensure_target_dir b.1 target;;
    mount (Some b.1) target None [MS_BIND; MS_REC] None;;
    mount None target None [MS_REMOUNT; MS_BIND; MS_REC; MS_RDONLY; MS_NOSUID; MS_NODEV] None.

Definition tmpfs_options (size : string) : string := "size=" +:+ size +:+ ",mode=0755".

Definition tmpfs_one (new_root : string) (t : string * N) : eff Process string () :=
  fs_call;;
  mount (Some "brokkr-tmpfs") (inside new_root t.1) (Some "tmpfs") [MS_NOSUID; MS_NODEV] (Some (tmpfs_options (pretty t.2))).

Definition symlink_one (new_root : string) (l : string * string) : eff Process string () :=
  fs_call;;
  e ← gets (λ p, path_exists p (inside new_root l.1));
  if e : bool then mret () else fs_call.

Definition setup_rootfs (spec : RootfsSpec) : eff Process string () :=
  mount None "/" None [MS_REC; MS_PRIVATE] None;;
  fs_call;;
  let new_root := bootstrap_name in
  mount (Some "brokkr-rootfs") new_root (Some "tmpfs") [MS_NOSUID; MS_NODEV] (Some (tmpfs_options "64M"));;
  each (bind_one new_root) (ro_binds spec);;
  each (tmpfs_one new_root) (tmpfs spec);;
  fs_call;;
  each (symlink_one new_root) (symlinks spec);;
  set_current_dir new_root;;
  e ← gets (λ p, path_exists p "old_root");
  (if e : bool then mret () else fs_call);;
  syscall (set_root PivotedRoot);;
  set_current_dir "/";;
  syscall (set_root SandboxRoot);;
  fs_call.

(** ** [netns.rs] *)

(** A message on the netlink socket: its length, who sent it, its type, sequence
    number and error field; or a failed receive. *)
Inductive NlRecv : Type :=
| NlMessage (len sender ty seq : N) (errno : Z)
| NlFailed (e : string).

Definition NLMSG_ERROR : N := 2.
Definition REQ_SEQ : N := 1.

(** Sizes of a header, of a header with an error, and of the request. *)
Definition NL_HEADER : N := 16.
Definition NL_REQUEST : N := 32.

(** The loop that waits for the acknowledgement; the receive timeout ends it. *)
Fixpoint read_ack (inbox : list NlRecv) : outcome string () :=
  match inbox with
  | [] => Err "receive timed out"
  | NlFailed e :: _ => Err e
  | NlMessage len sender ty seq errno :: inbox =>
      if len <? NL_HEADER + 4 then read_ack inbox
      else if negb (sender =? 0) then read_ack inbox
      else if negb (ty =? NLMSG_ERROR) || negb (seq =? REQ_SEQ) then read_ack inbox
      else if (errno =? 0)%Z then Ok () else Err "kernel error"
  end.

(** The index of [lo], the bytes [sendto] takes, and the messages that arrive.  The
    kernel brings the interface up when it acknowledges the request. *)
Context (lo_index : N) (sent : N) (inbox : list NlRecv).

Definition bring_loopback_up : eff Process string () :=
  if lo_index =? 0 then throw "no interface lo"
  else
    attempted;;
    attempted;;
    attempted;;
    if negb (sent =? NL_REQUEST) then throw "short netlink send"
    else of_outcome (read_ack inbox);; modify (set_loopback true).

Definition apply_policy (n : NetworkPolicy) : eff Process string () :=
  match n with NetNone => mret () | NetLoopback => bring_loopback_up end.

(** ** [determinism.rs] *)

Definition apply_pre_fork (d : DeterminismPolicy) : eff Process string () :=
  match hostname d with
  | Some h => if String.eqb h "" then mret () else syscall (set_hostname (Some h))
  | None => mret ()
  end;;
  if timezone_utc d then attempt fs_call;; fs_call else mret ().

Fixpoint upsert (env : list (string * string)) (key val : string) : list (string * string) :=
  match env with
  | [] => [(key, val)]
  | e :: env => if String.eqb e.1 key then (e.1, val) :: env else e :: upsert env key val
  end.

Definition kept (d : DeterminismPolicy) (k : string) : bool :=
  negb (strip_ld_preload d && (String.eqb k "LD_PRELOAD" || String.eqb k "LD_LIBRARY_PATH")) &&
  negb (strip_path d && String.eqb k "PATH").

Definition scrub_env (env : list (string * string)) (d : DeterminismPolicy) : list (string * string) :=
  let out := filter (λ e, kept d e.1 = true) env in
  let out := if strip_path d then out ++ [("PATH", "/usr/bin:/bin")] else out in
  let out := if timezone_utc d then upsert out "TZ" "UTC0" else out in
  match source_date_epoch d with Some e => upsert out "SOURCE_DATE_EPOCH" (pretty e) | None => out end.

(** ** [caps.rs] *)

(** [Capability::from_str]. *)
Context (known_cap : string → bool).

Fixpoint parse_retained (retained : list string) : outcome string (gset string) :=
  match retained with
  | [] => Ok ∅
  | name :: retained =>
      if known_cap name then
        match parse_retained retained with Ok s => Ok ({[name]} ∪ s) | Err e => Err e | Halt => Halt end
      else Err ("unknown capability: " +:+ name)
  end.

Definition with_cap (s : CapSet) (new : gset string) (caps : CapSet → gset string) : CapSet → gset string :=
  λ t, if decide (s = t) then new else caps t.

(** An ambient capability is permitted and inheritable, or is lost. *)
Definition lower_ambient (caps : CapSet → gset string) : CapSet → gset string :=
  with_cap Ambient (caps Ambient ∩ caps Permitted ∩ caps Inheritable) caps.

Definition caps_read (s : CapSet) : eff Process string (gset string) := attempted;; gets (λ p, pr_caps p s).

(** [PR_CAPBSET_DROP]. *)
Definition bounding_drop (c : string) : eff Process string () :=
  attempted;;
  caps ← gets pr_caps;
  if bool_decide ("CAP_SETPCAP" ∈ caps Effective) then modify (set_caps (with_cap Bounding (caps Bounding ∖ {[c]}) caps))
  else throw "EPERM".

(** [capset], given the sets it is to leave. *)
Definition capset_allowed (old new : CapSet → gset string) : bool :=
  bool_decide (new Effective ⊆ new Permitted) && bool_decide (new Permitted ⊆ old Permitted) &&
  (bool_decide (new Inheritable ⊆ old Inheritable ∪ old Permitted) || bool_decide ("CAP_SETPCAP" ∈ old Effective)) &&
  bool_decide (new Inheritable ⊆ old Inheritable ∪ old Bounding).

Definition caps_set (s : CapSet) (new : gset string) : eff Process string () :=
  attempted;;
  caps ← gets pr_caps;
  let caps' := with_cap s new caps in
  if capset_allowed caps caps' then modify (set_caps (lower_ambient caps')) else throw "EPERM".

(** [PR_CAP_AMBIENT]. *)
Definition ambient_set (new : gset string) : eff Process string () :=
  attempted;;
  caps ← gets pr_caps;
  if bool_decide (new ⊆ caps Permitted ∩ caps Inheritable) then modify (set_caps (with_cap Ambient new caps)) else throw "EPERM".

Definition shrink_set (keep : gset string) (s : CapSet) : eff Process string () :=
  current ← caps_read s;
  let new := current ∩ keep in
  if decide (new = current) then mret () else caps_set s new.

Definition drop_all_except (retained : list string) : eff Process string () :=
  keep ← of_outcome (parse_retained retained);
  bounding ← caps_read Bounding;
  each (λ c, if bool_decide (c ∈ keep) then mret () else bounding_drop c) (elements bounding);;
  each (shrink_set keep) [Effective; Permitted; Inheritable];;
  ambient ← attempt (caps_read Ambient);
  match ambient with
  | inr current =>
      let new := current ∩ keep in
      if decide (new = current) then mret () else ambient_set new
  | inl _ => mret ()
  end;;
  syscall set_no_new_privs.

(** ** [seccomp.rs]: [install] *)

Context `{Libc} (arch : Arch).

Definition allowed_here (name : string) (args : list Z) (p : Process) : bool := kernel_allows (pr_filters p) (mkSyscall (SYS_ name) args).

(** [apply_filter]: [prctl(PR_SET_NO_NEW_PRIVS)] and [seccomp], both subject to the
    filters already there. *)
Definition apply_filter (f : SeccompFilter) : eff Process string () :=
  attempted;;
  ok ← gets (λ p, allowed_here "prctl" [PR_ "PR_SET_NO_NEW_PRIVS"; 1; 0; 0; 0]%Z p && allowed_here "seccomp" [1; 0]%Z p);
  if ok : bool then modify (λ p, push_filter f (set_no_new_privs p)) else throw "EPERM".

Definition install_seccomp (extra_allow : list string) : eff Process string () :=
  base ← of_outcome (build_filter arch extra_allow);
  deny ← of_outcome (build_deny_filter arch);
  apply_filter deny;;
  apply_filter base.

(** ** [pidns.rs] and [exec.rs] *)

(** A step that failed: the process has printed it and exited with 127. *)
Record Died : Type := mkDied { died_step : string; died_message : string }.

(** What a process was replaced by. *)
Record Executed : Type := mkExecuted { ex_argv : list string; ex_env : list string }.

Definition step {X} (name : string) (m : eff Process string X) : eff Process Died X := map_err (mkDied name) m.

Definition mount_proc : eff Process string () := mount (Some "proc") "/proc" (Some "proc") [MS_NOSUID; MS_NODEV; MS_NOEXEC] None.

(** The child of a fork, which is the one that goes on. *)
Definition fork : eff Process string () := syscall (λ p, set_pid (pr_pid p + 1) p).

Definition has_char (c : ascii) (s : string) : bool := negb (all_chars (λ a, negb (Ascii.eqb a c)) s).

Definition NUL : ascii := "000"%char.

Fixpoint c_strings (l : list string) : outcome string (list string) :=
  match l with
  | [] => Ok []
  | s :: l =>
      if has_char NUL s then Err "argv entry contains NUL"
      else match c_strings l with Ok l => Ok (s :: l) | Err e => Err e | Halt => Halt end
  end.

Definition build_argv (argv : list string) : outcome string (list string) :=
  match argv with [] => Err "argv is empty" | _ => c_strings argv end.

Fixpoint build_env (env : list (string * string)) : outcome string (list string) :=
  match env with
  | [] => Ok []
  | (k, v) :: env =>
      if has_char "=" k || has_char NUL k || has_char NUL v then Err "env entry contains NUL or '='"
      else match build_env env with Ok l => Ok ((k +:+ "=" +:+ v) :: l) | Err e => Err e | Halt => Halt end
  end.

(** [execvpe], under the filters. *)
Definition execvpe (argv env : list string) : eff Process string Executed :=
  attempted;;
  ok ← gets (allowed_here "execve" []);
  if ok : bool then mret (mkExecuted argv env) else throw "EPERM".

Definition chdir_and_exec (cfg : SandboxConfig) : eff Process Died Executed :=
  match sc_workdir cfg with
  | Some d => step "failed to chdir into workdir" (set_current_dir d)
  | None => mret ()
  end;;
  (if rootfs_is_empty (rootfs (policy cfg)) then mret ()
   else
     step "drop capabilities" (drop_all_except (retained_caps (policy cfg)));;
     step "prctl(PR_SET_TSC)" (syscall set_tsc_faults);;
     step "install seccomp" (install_seccomp (extra_seccomp_allow (policy cfg))));;
  argv ← step "invalid argv" (of_outcome (build_argv (sc_argv cfg)));
  env ← step "invalid env" (of_outcome (build_env (scrub_env (sc_env cfg) (determinism (policy cfg)))));
  step "execvpe failed" (execvpe argv env).

Definition run_init_then_exec (cfg : SandboxConfig) : eff Process Died Executed :=
  step "mount /proc inside pidns" mount_proc;;
  step "fork action" fork;;
  chdir_and_exec cfg.

Definition empty_rootfs_without_opt_in (cfg : SandboxConfig) : bool :=
  rootfs_is_empty (rootfs (policy cfg)) && negb (sc_no_isolation cfg).

(** [cfg] is what reading the configuration came to. *)
Definition runner_main (cfg : string + SandboxConfig) : eff Process Died Executed :=
  match cfg with
  | inl e => throw (mkDied "failed to read config" e)
  | inr cfg =>
      if rootfs_is_empty (rootfs (policy cfg)) then
        if empty_rootfs_without_opt_in cfg then
          throw (mkDied "refusing to run without isolation" "empty rootfs requires the explicit `no_isolation` opt-in")
        else chdir_and_exec cfg
      else
        step "setup namespaces" setup_namespaces;;
        step "setup rootfs" (setup_rootfs (rootfs (policy cfg)));;
        step "apply network policy" (apply_policy (network (policy cfg)));;
        step "apply determinism" (apply_pre_fork (determinism (policy cfg)));;
        step "fork init" fork;;
        run_init_then_exec cfg
  end.

End mounts.

(** *** The status of the action, handed up *)

Inductive WaitStatus : Type :=
| WExited (pid code : N)
| WSignaled (pid signal : N)
| WOther.

(** How a process ended. *)
Inductive ProcEnd : Type := EndExit (code : N) | EndSignal (signal : N).

(** A raised signal ends any process but the first of its namespace, which it does
    not reach. *)
Definition exit_with (is_init : bool) (s : WaitStatus) : ProcEnd :=
  match s with
  | WExited _ code => EndExit code
  | WSignaled _ sig => if is_init then EndExit (128 + sig) else EndSignal sig
  | WOther => EndExit 127
  end.

Definition wait_of (pid : N) (e : ProcEnd) : WaitStatus :=
  match e with EndExit c => WExited pid (c mod 256) | EndSignal s => WSignaled pid s end.

(** The first process reaps what it is handed until the action has ended; [None]: it
    still waits. *)
Fixpoint reap_until (target : N) (reaped : list (string + WaitStatus)) : option ProcEnd :=
  match reaped with
  | [] => None
  | inl _ :: _ => Some (EndExit 127)
  | inr s :: reaped =>
      match s with
      | WExited p _ | WSignaled p _ => if p =? target then Some (exit_with true s) else reap_until target reaped
      | WOther => reap_until target reaped
      end
  end.
