(* ===== verification/SandboxTheorems.v ===== *)
(** * brokkr-sandbox: theorems about the runner

    The runner executes an action isolated as its configuration asks, or not at
    all, whichever of its calls fail; and where none fails, it does execute it.
    Both come from one set of specifications, in which [excuse] says whether a
    call may fail. *)

From stdpp Require Import prelude gmap strings pretty.
From Stdlib Require Import Lia Ascii.
From S2P Require Import Prelude Machine Bytes Common Scheduler Execute Services Worker Seccomp Sandbox.

Local Open Scope N_scope.

Section specs.
Context (excuse : Prop).

(** Calls may fail, or there are no failures to come. *)
Definition ready (p : Process) : Prop := excuse ∨ pr_faults p = [].

Notation "'run' m {{ Q }} p" := (wp m Q (λ _ _, excuse) p) (at level 20, m at level 9, Q at level 200, p at level 9).

Lemma wp_attempted (Q : () → Process → Prop) p :
  ready p → (∀ l, ready (set_faults l p) → Q () (set_faults l p)) → wp attempted Q (λ _ _, excuse) p.
Proof.
  intros Hr HQ. unfold wp, attempted. destruct (pr_faults p) as [|[e|] l] eqn:Hf.
  - specialize (HQ []). destruct p; cbn in *; subst. apply HQ. by right.
  - destruct Hr as [?|Hr]; [done|by rewrite Hf in Hr].
  - destruct Hr as [?|Hr]; [|by rewrite Hf in Hr]. apply HQ. by left.
Qed.

Lemma wp_syscall f (Q : () → Process → Prop) p :
  ready p → (∀ l, ready (set_faults l p) → Q () (f (set_faults l p))) → wp (syscall f) Q (λ _ _, excuse) p.
Proof. intros Hr HQ. apply wp_bind, wp_attempted; [done|]. intros l Hl. apply wp_modify, HQ, Hl. Qed.

(** What the steps before the last change, and what they leave alone. *)
Definition confined (p : Process) :=
  (pr_namespaces p, pr_maps p, pr_private p, pr_mounts p, pr_root p, pr_loopback p, pr_pid p).
Definition privileges (p : Process) := (pr_caps p, pr_no_new_privs p, pr_tsc_faults p, pr_filters p).

(** ** Namespaces *)

Lemma setup_namespaces_spec all_caps uid gid p :
  ready p →
  run (setup_namespaces all_caps uid gid) {{ λ _ q, ready q ∧
    confined q = (true, pr_maps p ++ [("setgroups", "deny"); ("uid_map", id_map uid); ("gid_map", id_map gid)],
      pr_private p, pr_mounts p, pr_root p, pr_loopback p, pr_pid p) ∧
    privileges q = (fresh_caps all_caps, pr_no_new_privs p, pr_tsc_faults p, pr_filters p) }} p.
Proof.
  intros Hr. unfold setup_namespaces, unshare, write_self. apply wp_bind, wp_syscall; [done|]. intros l1 Hr1.
  do 2 (apply wp_bind, wp_bind, wp_attempted; [done|]; intros ? ?; apply wp_syscall; [done|]; intros ? ?).
  apply wp_bind, wp_attempted; [done|]. intros ? ?. apply wp_syscall; [done|]. intros ? ?.
  split_and!; [done| |done]. unfold confined. cbn. by rewrite <-!app_assoc.
Qed.

(** ** The root file system *)

Section rootfs.
Context `{HostFs} (spec : RootfsSpec).

Definition mount_ok (m : Mounted) : Prop :=
  match mn_kind m with
  | MProc => mn_nosuid m = true ∧ mn_nodev m = true
  | MTmpfs options => mn_nosuid m = true ∧ mn_nodev m = true ∧
      (options = tmpfs_options "64M" ∨ ∃ t, t ∈ tmpfs spec ∧ options = tmpfs_options (pretty t.2))
  | MBind src => mn_rdonly m = true ∧ mn_nosuid m = true ∧ mn_nodev m = true ∧ src ∈ (ro_binds spec).*1
  | MBelow src => src ∈ (ro_binds spec).*1
  end.

Definition mounting (p q : Process) : Prop :=
  ready q ∧ Forall mount_ok (pr_mounts q) ∧ privileges q = privileges p ∧
  (pr_namespaces q, pr_maps q, pr_private q, pr_root q, pr_loopback q, pr_pid q) =
  (pr_namespaces p, pr_maps p, pr_private p, pr_root p, pr_loopback p, pr_pid p).

Lemma mounting_faults p q l : mounting p q → ready (set_faults l q) → mounting p (set_faults l q).
Proof. intros (_ & ?) ?. split; done. Qed.

Lemma wp_fs p q (Q : () → Process → Prop) : mounting p q → (∀ q', mounting p q' → Q () q') → wp fs_call Q (λ _ _, excuse) q.
Proof. intros Hm HQ. apply wp_attempted; [apply Hm|]. intros l Hl. by apply HQ, mounting_faults. Qed.

Lemma ensure_target_spec host target p q : mounting p q → run (ensure_target_dir host target) {{ λ _, mounting p }} q.
Proof.
  intros Hm. unfold ensure_target_dir. apply wp_bind, (wp_fs p); [done|]. intros q1 Hq1. apply wp_bind, wp_gets.
  destruct (path_is_dir q1 host); [by apply (wp_fs p)|]. apply wp_bind, (wp_fs p); [done|].
  intros q2 Hq2. apply wp_bind, wp_gets. destruct (path_exists q2 target); [by apply wp_ret|by apply (wp_fs p)].
Qed.

Lemma bind_one_spec root b p q : b ∈ ro_binds spec → mounting p q → run (bind_one root b) {{ λ _, mounting p }} q.
Proof.
  intros Hb Hm. unfold bind_one. apply wp_bind, wp_gets. destruct (path_exists q b.1); cbn [negb]; [|by apply wp_ret].
  assert (b.1 ∈ (ro_binds spec).*1) as Hin. { apply list_elem_of_fmap. by exists b. }
  apply wp_bind. eapply wp_mono; [by apply (ensure_target_spec _ _ p)| |done]. intros ? q1 (Hr & Hms & Hq).
  apply wp_bind. unfold mount at 1. apply wp_bind, wp_attempted; [done|]. intros l1 Hr1. apply wp_bind, wp_gets. apply wp_modify.
  unfold mount. apply wp_bind, wp_attempted; [done|]. intros l2 Hr2. apply wp_bind, wp_gets. cbn. rewrite String.eqb_refl. apply wp_modify.
  split; [done|]. split; [|exact Hq]. cbn. constructor; [done|]. apply Forall_app. split; [|done].
  apply Forall_fmap, Forall_forall. intros x _. exact Hin.
Qed.

Lemma tmpfs_one_spec root t p q : t ∈ tmpfs spec → mounting p q → run (tmpfs_one root t) {{ λ _, mounting p }} q.
Proof.
  intros Ht Hm. unfold tmpfs_one. apply wp_bind, (wp_fs p); [done|]. intros q1 (Hr & Hms & Hq).
  unfold mount. apply wp_bind, wp_attempted; [done|]. intros l Hl. apply wp_bind, wp_gets. apply wp_modify.
  split; [done|]. split; [|exact Hq]. constructor; [|done]. split_and!; [done|done|]. right. by exists t.
Qed.

Lemma symlink_one_spec root t p q : mounting p q → run (symlink_one root t) {{ λ _, mounting p }} q.
Proof.
  intros Hm. unfold symlink_one. apply wp_bind, (wp_fs p); [done|]. intros q1 Hq1. apply wp_bind, wp_gets.
  destruct (path_exists q1 _); [by apply wp_ret|by apply (wp_fs p)].
Qed.

Lemma setup_rootfs_spec p :
  ready p → Forall mount_ok (pr_mounts p) →
  run (setup_rootfs spec) {{ λ _ q, ready q ∧ Forall mount_ok (pr_mounts q) ∧ privileges q = privileges p ∧
    (pr_namespaces q, pr_maps q, pr_private q, pr_root q, pr_loopback q, pr_pid q) =
    (pr_namespaces p, pr_maps p, true, SandboxRoot, pr_loopback p, pr_pid p) }} p.
Proof.
  intros Hr Hms. unfold setup_rootfs. apply wp_bind. unfold mount at 1. apply wp_bind, wp_attempted; [done|]. intros l1 Hr1.
  apply wp_bind, wp_gets, wp_modify.
  set (p1 := set_private true (set_faults l1 p)). assert (mounting p1 p1) as Hm1 by done.
  apply wp_bind, (wp_fs p1); [done|]. intros q2 (Hr2 & Hms2 & Hq2).
  apply wp_bind. unfold mount at 1. apply wp_bind, wp_attempted; [done|]. intros l3 Hr3. apply wp_bind, wp_gets, wp_modify.
  match goal with |- wp _ _ _ ?q => set (q3 := q) end.
  assert (mounting p1 q3) as Hm3. { split; [done|]. split; [|exact Hq2]. constructor; [|done]. split_and!; [done|done|by left]. }
  apply wp_bind. eapply wp_mono; [apply (wp_each _ (λ _, mounting p1) (λ _ _, excuse)); [done|]| |done].
  { intros pre b post q Hb Hq. apply bind_one_spec; [|done]. rewrite Hb. set_solver. }
  intros ? q4 Hm4. apply wp_bind. eapply wp_mono; [apply (wp_each _ (λ _, mounting p1) (λ _ _, excuse)); [done|]| |done].
  { intros pre t post q Ht Hq. apply tmpfs_one_spec; [|done]. rewrite Ht. set_solver. }
  intros ? q5 Hm5. apply wp_bind, (wp_fs p1); [done|]. intros q6 Hm6.
  apply wp_bind. eapply wp_mono; [apply (wp_each _ (λ _, mounting p1) (λ _ _, excuse)); [done|]| |done].
  { intros. by apply symlink_one_spec. }
  intros ? q7 (Hr7 & Hms7 & Hp7 & Hq7). apply wp_bind, wp_syscall; [done|]. intros l8 Hr8. apply wp_bind, wp_gets.
  set (q8 := set_cwd bootstrap_name (set_faults l8 q7)). apply wp_bind.
  apply (wp_mono _ (λ _, mounting p1) _ (λ _ _, excuse)); [destruct (path_exists q8 "old_root"); [by apply wp_ret|by apply (wp_fs p1)]| |done].
  intros ? q9 (Hr9 & Hms9 & Hp9 & Hq9). apply wp_bind, wp_syscall; [done|]. intros l10 Hr10.
  apply wp_bind, wp_syscall; [done|]. intros l11 Hr11. apply wp_bind, wp_syscall; [done|]. intros l12 Hr12.
  apply wp_attempted; [done|]. intros l13 Hr13. cbn. injection Hq9 as -> -> -> _ -> ->. done.
Qed.

End rootfs.

(** ** Network and host name *)

Definition loopback_works (lo_index sent : N) (inbox : list NlRecv) : Prop :=
  lo_index ≠ 0 ∧ sent = NL_REQUEST ∧ read_ack inbox = Ok ().

Lemma read_ack_returns inbox : read_ack inbox ≠ Halt.
Proof.
  induction inbox as [|[len sender ty seq errno|e] inbox IH]; [done| |done]. cbn.
  repeat match goal with |- context [if ?b then _ else _] => destruct b end; done.
Qed.

Lemma apply_policy_spec lo_index sent inbox n p :
  ready p → (n = NetLoopback → excuse ∨ loopback_works lo_index sent inbox) →
  run (apply_policy lo_index sent inbox n) {{ λ _ q, ready q ∧ privileges q = privileges p ∧
    confined q = (pr_namespaces p, pr_maps p, pr_private p, pr_mounts p, pr_root p,
      match n with NetNone => pr_loopback p | NetLoopback => true end, pr_pid p) }} p.
Proof.
  intros Hr Hn. destruct n; [by apply wp_ret|]. specialize (Hn eq_refl). unfold apply_policy, bring_loopback_up.
  destruct (N.eqb_spec lo_index 0) as [->|_]; [apply wp_throw; by destruct Hn as [?|[? _]]|].
  do 3 (apply wp_bind, wp_attempted; [done|]; intros ? ?).
  destruct (N.eqb_spec sent NL_REQUEST) as [_|Hs]; cbn [negb]; [|apply wp_throw; by destruct Hn as [?|(_ & ? & _)]].
  apply wp_bind, wp_of_outcome. destruct (read_ack inbox) eqn:Ha; [by apply wp_modify| |by apply read_ack_returns in Ha].
  destruct Hn as [?|(_ & _ & Hok)]; [done|]. by rewrite Hok in Ha.
Qed.

Lemma apply_pre_fork_spec d p :
  ready p → run (apply_pre_fork d) {{ λ _ q, ready q ∧ privileges q = privileges p ∧ confined q = confined p }} p.
Proof.
  intros Hr. unfold apply_pre_fork. apply wp_bind.
  apply (wp_mono _ (λ _ q, ready q ∧ privileges q = privileges p ∧ confined q = confined p) _ (λ _ _, excuse)); [| |done].
  { destruct (hostname d) as [h|]; [|by apply wp_ret]. destruct (String.eqb h ""); [by apply wp_ret|]. by apply wp_syscall. }
  intros _ q (Hrq & Hq). destruct (timezone_utc d); [|by apply wp_ret]. apply wp_bind, wp_attempt. unfold fs_call.
  unfold wp at 1, attempted. destruct (pr_faults q) as [|[e|] l] eqn:Hf.
  - by apply wp_attempted.
  - destruct Hrq as [Hx|Hrq]; [|by rewrite Hf in Hrq]. apply wp_attempted; [by left|]. done.
  - destruct Hrq as [Hx|Hrq]; [|by rewrite Hf in Hrq]. apply wp_attempted; [by left|]. done.
Qed.

(** ** Capabilities *)

Definition caps_wf (c : CapSet → gset string) : Prop := c Effective ⊆ c Permitted ∧ c Ambient ⊆ c Permitted ∩ c Inheritable.

Definition other_privileges (p : Process) := (pr_no_new_privs p, pr_tsc_faults p, pr_filters p).

(** Nothing but capabilities changes, and those only by losing some. *)
Definition lowered (p q : Process) : Prop :=
  ready q ∧ confined q = confined p ∧ other_privileges q = other_privileges p ∧ ∀ s, pr_caps q s ⊆ pr_caps p s.

Lemma lowered_trans p q r : lowered p q → lowered q r → lowered p r.
Proof. intros (_ & Hc & Ho & Hs) (Hr & Hc' & Ho' & Hs'). split_and!; [done|by rewrite Hc'|by rewrite Ho'|]. intros s. etrans; [apply Hs'|apply Hs]. Qed.

Lemma bounding_drop_spec c p :
  ready p → excuse ∨ "CAP_SETPCAP" ∈ pr_caps p Effective →
  run (bounding_drop c) {{ λ _ q, lowered p q ∧ pr_caps q = with_cap Bounding (pr_caps p Bounding ∖ {[c]}) (pr_caps p) }} p.
Proof.
  intros Hr Hcap. unfold bounding_drop. apply wp_bind, wp_attempted; [done|]. intros l Hl. apply wp_bind, wp_gets. cbn.
  case_bool_decide as Hin; [|apply wp_throw; by destruct Hcap]. apply wp_modify. split; [|done]. split_and!; [done..|].
  intros s. cbn. unfold with_cap. case_decide; [subst; set_solver|done].
Qed.

Lemma shrink_set_spec keep s p :
  ready p → caps_wf (pr_caps p) → s ∈ [Effective; Permitted; Inheritable] → (s = Permitted → pr_caps p Effective ⊆ keep) →
  run (shrink_set keep s) {{ λ _ q, lowered p q ∧ caps_wf (pr_caps q) ∧ pr_caps q s ⊆ keep ∧ pr_caps q Bounding = pr_caps p Bounding }} p.
Proof.
  intros Hr (He & Ha) Hs Hp. unfold shrink_set, caps_read. apply wp_bind, wp_bind, wp_attempted; [done|]. intros l Hl. apply wp_gets. cbn [set_faults pr_caps].
  destruct (decide (pr_caps p s ∩ keep = pr_caps p s)) as [Hk|_].
  { apply wp_ret. split; [by split_and!|]. split; [done|]. split; [cbn; set_solver|done]. }
  unfold caps_set. apply wp_bind, wp_attempted; [done|]. intros l' Hl'. apply wp_bind, wp_gets. cbn [set_faults pr_caps].
  assert (capset_allowed (pr_caps p) (with_cap s (pr_caps p s ∩ keep) (pr_caps p)) = true) as ->.
  { unfold capset_allowed, with_cap. rewrite !andb_true_iff, orb_true_iff, !bool_decide_eq_true.
    rewrite !elem_of_cons in Hs. destruct Hs as [->|[->|[->|Hs%not_elem_of_nil]]]; [..|done]; cbn [decide decide_rel]; repeat case_decide; try done; set_solver. }
  apply wp_modify. cbn. unfold lowered, caps_wf, lower_ambient, with_cap. cbn.
  rewrite !elem_of_cons in Hs. destruct Hs as [->|[->|[->|Hs%not_elem_of_nil]]]; [..|done];
    (split_and!; [done..| | | | |]); try (intros t; repeat case_decide); repeat case_decide; try done; set_solver.
Qed.

Lemma parse_retained_spec known retained :
  match parse_retained known retained with
  | Ok keep => keep = list_to_set retained
  | Err _ => ∃ name, name ∈ retained ∧ known name = false
  | Halt => False
  end.
Proof.
  induction retained as [|name retained IH]; cbn; [done|]. destruct (known name) eqn:Hk; [|exists name; set_solver].
  destruct (parse_retained known retained); [by subst|set_solver|done].
Qed.

Definition caps_known (known : string → bool) (retained : list string) : Prop := ∀ name, name ∈ retained → known name = true.

(** Of the bounding set, what was looked at so far is gone or kept. *)
Definition draining (p : Process) (keep : gset string) (seen : list string) (q : Process) : Prop :=
  lowered p q ∧ (∀ s, s ≠ Bounding → pr_caps q s = pr_caps p s) ∧ ∀ x, x ∈ seen → x ∈ pr_caps q Bounding → x ∈ keep.

Lemma drain_bounding keep l p :
  ready p → excuse ∨ "CAP_SETPCAP" ∈ pr_caps p Effective →
  run (each (λ c, if bool_decide (c ∈ keep) then mret () else bounding_drop c) l) {{ λ _, draining p keep l }} p.
Proof.
  intros Hr Hcap. apply (wp_each _ (draining p keep) (λ _ _, excuse)).
  { split_and!; [done..|]. by intros x Hx%not_elem_of_nil. }
  intros pre c post q _ (Hl & Hsame & Hseen). case_bool_decide as Hk.
  { apply wp_ret. split_and!; [done..|]. intros x. rewrite elem_of_app, list_elem_of_singleton. intros [?| ->]; [by apply Hseen|done]. }
  eapply wp_mono; [apply bounding_drop_spec; [apply Hl|by rewrite (Hsame Effective)]| |done].
  intros _ r (Hl' & Hc). split; [by eapply lowered_trans|]. rewrite Hc. unfold with_cap. split.
  - intros s Hs. rewrite decide_False by done. by apply Hsame.
  - intros x. rewrite elem_of_app, list_elem_of_singleton. cbn. intros [Hx| ->]; set_solver.
Qed.

Lemma shrink_all keep p :
  ready p → caps_wf (pr_caps p) → pr_caps p Bounding ⊆ keep →
  run (each (shrink_set keep) [Effective; Permitted; Inheritable]) {{ λ _ q, lowered p q ∧ ∀ s, pr_caps q s ⊆ keep }} p.
Proof.
  intros Hr Hwf Hb. cbn [each]. apply wp_bind. eapply wp_mono; [apply (shrink_set_spec keep Effective); [done..|set_solver|done]| |done].
  intros _ q1 (Hl1 & Hw1 & He1 & Hb1). apply wp_bind. eapply wp_mono; [apply (shrink_set_spec keep Permitted); [apply Hl1|done|set_solver|done]| |done].
  intros _ q2 (Hl2 & Hw2 & Hp2 & Hb2). apply wp_bind. eapply wp_mono; [apply (shrink_set_spec keep Inheritable); [apply Hl2|done|set_solver|done]| |done].
  intros _ q3 (Hl3 & Hw3 & Hi3 & Hb3). apply wp_ret. split; [by eapply lowered_trans, lowered_trans|].
  destruct Hl3 as (_ & _ & _ & Hs3), Hl2 as (_ & _ & _ & Hs2). destruct Hw3 as [He3 Ha3].
  intros []; [rewrite Hb3, Hb2, Hb1; done|set_solver..].
Qed.

Lemma wp_attempt_read s (Q : string + gset string → Process → Prop) (X : string → Process → Prop) p :
  ready p → (∀ l, ready (set_faults l p) → Q (inr (pr_caps p s)) (set_faults l p)) →
  (∀ e l, ready (set_faults l p) → Q (inl e) (set_faults l p)) → wp (attempt (caps_read s)) Q X p.
Proof.
  intros Hr Hok Herr. unfold wp, attempt, caps_read, mbind, eff_bind, attempted, gets. destruct (pr_faults p) as [|[e|] l] eqn:Hf.
  - specialize (Hok []). destruct p; cbn in *; subst. apply Hok. by right.
  - destruct Hr as [?|Hr]; [|by rewrite Hf in Hr]. apply Herr. by left.
  - destruct Hr as [?|Hr]; [|by rewrite Hf in Hr]. apply Hok. by left.
Qed.

Lemma drop_all_except_spec known retained p :
  ready p → caps_wf (pr_caps p) → excuse ∨ "CAP_SETPCAP" ∈ pr_caps p Effective → excuse ∨ caps_known known retained →
  run (drop_all_except known retained) {{ λ _ q, ready q ∧ confined q = confined p ∧
    other_privileges q = (true, pr_tsc_faults p, pr_filters p) ∧ ∀ s, pr_caps q s ⊆ list_to_set retained }} p.
Proof.
  intros Hr Hwf Hcap Hkn. unfold drop_all_except. apply wp_bind, wp_of_outcome. pose proof (parse_retained_spec known retained) as Hp.
  destruct (parse_retained known retained) as [keep|e|]; [|destruct Hkn as [?|Hkn]; [done|]; destruct Hp as (n & Hn & Hf); by rewrite Hkn in Hf|done].
  rewrite <-Hp. clear Hp Hkn. apply wp_bind. unfold caps_read at 1. apply wp_bind, wp_attempted; [done|]. intros l Hl. apply wp_gets. cbn [set_faults pr_caps].
  apply wp_bind. eapply wp_mono; [by apply (drain_bounding keep _ (set_faults l p))| |done].
  intros _ q1 (Hl1 & Hsame & Hseen). apply wp_bind. eapply wp_mono; [apply (shrink_all keep); [apply Hl1| |]| |done].
  { unfold caps_wf. by rewrite !Hsame. }
  { intros x Hx. apply Hseen; [|done]. apply elem_of_elements. by apply (proj2 (proj2 (proj2 Hl1))) in Hx. }
  intros _ q2 (Hl2 & Hk2). apply wp_bind.
  assert (∀ q, lowered q2 q → pr_caps q = pr_caps q2 →
    wp (syscall set_no_new_privs) (λ _ q, ready q ∧ confined q = confined p ∧
      other_privileges q = (true, pr_tsc_faults p, pr_filters p) ∧ ∀ s, pr_caps q s ⊆ keep) (λ (_ : string) _, excuse) q) as Hend.
  { intros q Hlq Hq. pose proof (lowered_trans _ _ _ (lowered_trans _ _ _ Hl1 Hl2) Hlq) as (Hrq & Hc & Ho & _).
    apply wp_syscall; [done|]. intros l' Hl'. split; [done|]. split; [exact Hc|]. cbn. rewrite Hq. injection Ho as _ Ht Hf.
    split; [|done]. unfold other_privileges. cbn. by rewrite Ht, Hf. }
  destruct Hl2 as (Hr2 & Hl2). apply wp_attempt_read; [done| |].
  - intros l' Hr'. cbn [set_faults pr_caps]. apply wp_bind. rewrite decide_True by set_solver. by apply wp_ret, Hend.
  - intros e l' Hr'. by apply wp_bind, wp_ret, Hend.
Qed.

(** ** Filters *)

Section filters.
Context `{Libc} {Hlibc : LibcSpec} (arch : Arch).

Definition calls_known (extra : list string) : Prop :=
  arch ≠ OtherArch ∧ ∀ name, name ∈ extra → name ≠ "" → is_Some (syscall_nr arch name).

(** What the filters are to let through. *)
Definition filtered (extra : list string) (fs : list SeccompFilter) : Prop :=
  ∀ c, kernel_allows fs c = true ↔ listed_call arch extra c ∧ ¬ denied_call c.

Lemma build_filter_ok extra :
  match build_filter arch extra with Ok _ => True | Err _ => ¬ calls_known extra | Halt => False end.
Proof.
  unfold build_filter, host_target_arch. destruct (decide (arch = OtherArch)) as [->|Ha]; [by intros [? _]|].
  pose proof (resolve_extra_spec arch extra (default_numbers arch)) as Hr. destruct (resolve_extra _ _ extra); [done| |done].
  destruct Hr as (name & Hin & Hne & Hnone). intros [_ Hk]. destruct (Hk name Hin Hne). congruence.
Qed.

Lemma build_deny_ok extra :
  match build_deny_filter arch with Ok _ => True | Err _ => ¬ calls_known extra | Halt => False end.
Proof. unfold build_deny_filter, host_target_arch. destruct (decide (arch = OtherArch)) as [->|Ha]; [by intros [? _]|done]. Qed.

Lemma not_denied name args : name ≠ "prctl" → name ≠ "ioctl" → ¬ denied_call (mkSyscall (SYS_ name) args).
Proof using Hlibc. intros Hp Hi [[E%SYS_inj _]|[E%SYS_inj _]]; done. Qed.

Lemma no_new_privs_not_denied args : ¬ denied_call (mkSyscall (SYS_ "prctl") (PR_ "PR_SET_NO_NEW_PRIVS" :: args)).
Proof using Hlibc.
  intros [(_ & opt & Hopt & E)|[E%SYS_inj _]]; [|done]. cbn in E. rewrite Z.mod_small in E by apply PR_width. by apply (PR_needed opt).
Qed.

Lemma install_seccomp_spec extra p :
  ready p → pr_filters p = [] → excuse ∨ calls_known extra →
  run (install_seccomp arch extra) {{ λ _ q, ready q ∧ confined q = confined p ∧ pr_caps q = pr_caps p ∧
    pr_no_new_privs q = true ∧ pr_tsc_faults q = pr_tsc_faults p ∧ filtered extra (pr_filters q) }} p.
Proof using Hlibc.
  intros Hr Hf Hk. unfold install_seccomp. apply wp_bind, wp_of_outcome. pose proof (build_filter_ok extra) as Hb.
  destruct (build_filter arch extra) as [base| |] eqn:Hbase; [|destruct Hk; done|done]. apply wp_bind, wp_of_outcome.
  pose proof (build_deny_ok extra) as Hd. destruct (build_deny_filter arch) as [deny| |] eqn:Hdeny; [|destruct Hk; done|done].
  apply wp_bind. unfold apply_filter at 1. apply wp_bind, wp_attempted; [done|]. intros l1 Hr1. apply wp_bind, wp_gets.
  unfold allowed_here. cbn [set_faults pr_filters]. rewrite Hf. cbn [kernel_allows forallb andb]. apply wp_modify.
  unfold apply_filter. apply wp_bind, wp_attempted; [done|]. intros l2 Hr2. apply wp_bind, wp_gets. unfold allowed_here. cbn. rewrite Hf.
  cbn [kernel_allows forallb]. rewrite !(bool_decide_true (filter_action deny _ = _)); cbn [andb].
  - apply wp_modify. split_and!; [done..|]. cbn. rewrite Hf. intros c. cbn. rewrite !andb_true_iff, !bool_decide_eq_true.
    rewrite (base_filter_allows arch _ _ c Hbase), (deny_filter_allows arch _ c Hdeny). tauto.
  - apply (deny_filter_allows arch _ _ Hdeny). by apply not_denied.
  - apply (deny_filter_allows arch _ _ Hdeny). apply no_new_privs_not_denied.
Qed.

Lemma execve_listed extra args : listed_call arch extra (mkSyscall (SYS_ "execve") args).
Proof.
  exists "execve". split; [left; by_vm|]. unfold syscall_nr. rewrite bool_decide_true; [done|by_vm].
Qed.

End filters.

(** ** The whole *)

Definition c_text (s : string) : Prop := has_char NUL s = false.

Lemma c_strings_spec l : match c_strings l with Ok l' => l' = l | Err _ => ¬ Forall c_text l | Halt => False end.
Proof.
  induction l as [|s l IH]; [done|]. cbn. destruct (has_char NUL s) eqn:Hs; [by intros [? _]%Forall_cons; unfold c_text in *; congruence|].
  destruct (c_strings l); [by subst|by intros [_ ?]%Forall_cons|done].
Qed.

Definition argv_fine (argv : list string) : Prop := argv ≠ [] ∧ Forall c_text argv.

Lemma build_argv_spec argv : match build_argv argv with Ok l => l = argv | Err _ => ¬ argv_fine argv | Halt => False end.
Proof.
  destruct argv as [|a argv]; [by intros [? _]|]. unfold build_argv. pose proof (c_strings_spec (a :: argv)) as Hc.
  destruct (c_strings (a :: argv)); [done|by intros [_ ?]|done].
Qed.

Definition env_fine (env : list (string * string)) : Prop := Forall (λ e, has_char "=" e.1 = false ∧ c_text e.1 ∧ c_text e.2) env.

Definition env_text (e : string * string) : string := e.1 +:+ "=" +:+ e.2.

Lemma build_env_spec env : match build_env env with Ok l => l = env_text <$> env | Err _ => ¬ env_fine env | Halt => False end.
Proof.
  induction env as [|[k v] env IH]; [done|]. cbn. destruct (has_char "=" k || has_char NUL k || has_char NUL v) eqn:Hh.
  - intros [(Hk & Hk0 & Hv) _]%Forall_cons. cbn in *. unfold c_text in *. by rewrite Hk, Hk0, Hv in Hh.
  - destruct (build_env env); [by subst|by intros [_ ?]%Forall_cons|done].
Qed.

Section runner.
Context `{HostFs, Libc} {Hlibc : LibcSpec} (all_caps : gset string) (host_uid host_gid : N).
Context (lo_index sent : N) (inbox : list NlRecv) (known_cap : string → bool) (arch : Arch).

Notation runner := (runner_main all_caps host_uid host_gid lo_index sent inbox known_cap arch).

(** A process as the host starts it. *)
Definition started (p : Process) : Prop :=
  confined p = (false, [], false, [], HostRoot, false, 0) ∧ pr_filters p = [].

(** How an action is isolated: its namespaces, its root, its mounts, its
    capabilities and its system calls. *)
Definition isolated (c : SandboxPolicy) (p : Process) : Prop :=
  (∃ ms, confined p =
     (true, [("setgroups", "deny"); ("uid_map", id_map host_uid); ("gid_map", id_map host_gid)], true, ms,
      SandboxRoot, match network c with NetNone => false | NetLoopback => true end, 2) ∧ Forall (mount_ok (rootfs c)) ms) ∧
  (∀ s, pr_caps p s ⊆ list_to_set (retained_caps c)) ∧ pr_no_new_privs p = true ∧ pr_tsc_faults p = true ∧
  filtered arch (extra_seccomp_allow c) (pr_filters p).

Definition executes (cfg : SandboxConfig) (x : Executed) : Prop :=
  ex_argv x = sc_argv cfg ∧ ex_env x = env_text <$> scrub_env (sc_env cfg) (determinism (policy cfg)).

(** What a configuration can be run with. *)
Definition config_fine (cfg : SandboxConfig) : Prop :=
  argv_fine (sc_argv cfg) ∧ env_fine (scrub_env (sc_env cfg) (determinism (policy cfg))) ∧
  caps_known known_cap (retained_caps (policy cfg)) ∧ calls_known arch (extra_seccomp_allow (policy cfg)) ∧
  (network (policy cfg) = NetLoopback → loopback_works lo_index sent inbox) ∧ "CAP_SETPCAP" ∈ all_caps.

Lemma exec_spec cfg (p : Process) (Q : Executed → Process → Prop) :
  ready p → excuse ∨ config_fine cfg → (∀ args, kernel_allows (pr_filters p) (mkSyscall (SYS_ "execve") args) = true) →
  (∀ x l, executes cfg x → Q x (set_faults l p)) →
  wp (argv ← step "invalid argv" (of_outcome (build_argv (sc_argv cfg)));
      env ← step "invalid env" (of_outcome (build_env (scrub_env (sc_env cfg) (determinism (policy cfg)))));
      step "execvpe failed" (execvpe argv env)) Q (λ _ _, excuse) p.
Proof using.
  intros Hr Hfine Hok HQ. pose proof (build_argv_spec (sc_argv cfg)) as Ha.
  pose proof (build_env_spec (scrub_env (sc_env cfg) (determinism (policy cfg)))) as He.
  apply wp_bind, wp_map_err, wp_of_outcome.
  destruct (build_argv (sc_argv cfg)) as [argv| |]; [|by destruct Hfine as [?|(? & _)]|done].
  apply wp_bind, wp_map_err, wp_of_outcome.
  destruct (build_env _) as [env| |]; [|by destruct Hfine as [?|(_ & ? & _)]|done].
  apply wp_map_err. unfold execvpe. apply wp_bind, wp_attempted; [done|]. intros l Hl. apply wp_bind, wp_gets.
  unfold allowed_here. cbn [set_faults pr_filters]. rewrite Hok. apply wp_ret, HQ. by subst.
Qed.

Lemma chdir_spec cfg p (Q : () → Process → Prop) :
  ready p → (∀ q, ready q → confined q = confined p → privileges q = privileges p → Q () q) →
  wp (match sc_workdir cfg with Some d => step "failed to chdir into workdir" (set_current_dir d) | None => mret () end) Q (λ _ _, excuse) p.
Proof using.
  intros Hr HQ. destruct (sc_workdir cfg) as [d|]; [|by apply wp_ret, HQ]. apply wp_map_err, wp_syscall; [done|]. intros l Hl. by apply HQ.
Qed.

Lemma chdir_and_exec_spec cfg ms p :
  ready p → excuse ∨ config_fine cfg → rootfs_is_empty (rootfs (policy cfg)) = false →
  confined p = (true, [("setgroups", "deny"); ("uid_map", id_map host_uid); ("gid_map", id_map host_gid)],
    true, ms, SandboxRoot, match network (policy cfg) with NetNone => false | NetLoopback => true end, 2) →
  Forall (mount_ok (rootfs (policy cfg))) ms → pr_caps p = fresh_caps all_caps → pr_filters p = [] →
  wp (chdir_and_exec known_cap arch cfg) (λ x q, executes cfg x ∧ isolated (policy cfg) q) (λ _ _, excuse) p.
Proof using Hlibc.
  intros Hr Hfine Hne Hconf Hms Hcaps Hfil. unfold chdir_and_exec. apply wp_bind, chdir_spec; [done|]. intros q1 Hr1 Hc1 Hp1.
  injection Hp1 as Hcap1 _ _ Hfil1. rewrite Hne. apply wp_bind, wp_bind, wp_map_err.
  eapply wp_mono; [apply drop_all_except_spec; [done| | |]| |done].
  { rewrite Hcap1, Hcaps. split; [done|]. cbn. set_solver. }
  { rewrite Hcap1, Hcaps. destruct Hfine as [?|(_ & _ & _ & _ & _ & ?)]; auto. }
  { destruct Hfine as [?|(_ & _ & ? & _)]; auto. }
  intros _ q2 (Hr2 & Hc2 & Ho2 & Hk2). injection Ho2 as _ _ Hfil2. apply wp_bind, wp_map_err, wp_syscall; [done|]. intros l3 Hr3. apply wp_map_err.
  eapply wp_mono; [apply (install_seccomp_spec arch (extra_seccomp_allow (policy cfg))); [done|by cbn; rewrite Hfil2, Hfil1|]| |done].
  { destruct Hfine as [?|(_ & _ & _ & ? & _)]; auto. }
  intros _ q4 (Hr4 & Hc4 & Hcap4 & Hnnp & Htsc & Hf4). apply exec_spec; [done|done| |].
  - intros args. apply Hf4. split; [apply execve_listed|by apply not_denied].
  - intros x l Hx. split; [done|]. split_and!; [|intros t; cbn; rewrite Hcap4; apply Hk2|done..]. exists ms. split; [|done].
    change (confined (set_faults l q4)) with (confined q4). rewrite Hc4. change (confined (set_tsc_faults _)) with (confined q2).
    by rewrite Hc2, Hc1.
Qed.

Lemma runner_main_spec cfg p :
  ready p → started p → excuse ∨ config_fine cfg → excuse ∨ empty_rootfs_without_opt_in cfg = false →
  wp (runner (inr cfg)) (λ x q, executes cfg x ∧
    if rootfs_is_empty (rootfs (policy cfg)) then sc_no_isolation cfg = true else isolated (policy cfg) q) (λ _ _, excuse) p.
Proof using Hlibc.
  intros Hr [Hconf Hfil] Hfine Hopt. cbn [runner_main]. unfold empty_rootfs_without_opt_in in *.
  destruct (rootfs_is_empty (rootfs (policy cfg))) eqn:Hne; cbn [andb] in *.
  - destruct (sc_no_isolation cfg) eqn:Hno; cbn [negb] in *; [|apply wp_throw; by destruct Hopt].
    unfold chdir_and_exec. apply wp_bind, chdir_spec; [done|]. intros q Hrq _ Hpq. injection Hpq as _ _ _ Hf. rewrite Hne. apply wp_bind, wp_ret.
    apply exec_spec; [done|done| |done]. intros args. by rewrite Hf, Hfil.
  - injection Hconf as Hns Hmaps Hpriv Hmts Hroot Hlo Hpid. apply wp_bind, wp_map_err. eapply wp_mono; [by apply setup_namespaces_spec| |done].
    intros _ q1 (Hr1 & Hc1 & Hp1). injection Hc1 as Hns1 Hmaps1 Hpriv1 Hmts1 Hroot1 Hlo1 Hpid1. apply wp_bind, wp_map_err.
    eapply wp_mono; [apply (setup_rootfs_spec (rootfs (policy cfg))); [done|by rewrite Hmts1, Hmts]| |done].
    intros _ q2 (Hr2 & Hms2 & Hp2 & Hc2). injection Hc2 as Hns2 Hmaps2 Hpriv2 Hroot2 Hlo2 Hpid2. apply wp_bind, wp_map_err.
    eapply wp_mono; [apply apply_policy_spec; [done|destruct Hfine as [?|(_ & _ & _ & _ & ? & _)]; auto]| |done].
    intros _ q3 (Hr3 & Hp3 & Hc3). injection Hc3 as Hns3 Hmaps3 Hpriv3 Hmts3 Hroot3 Hlo3 Hpid3. apply wp_bind, wp_map_err. eapply wp_mono; [by apply apply_pre_fork_spec| |done].
    intros _ q4 (Hr4 & Hp4 & Hc4). injection Hc4 as Hns4 Hmaps4 Hpriv4 Hmts4 Hroot4 Hlo4 Hpid4. apply wp_bind, wp_map_err, wp_syscall; [done|]. intros l5 Hr5.
    unfold run_init_then_exec. apply wp_bind, wp_map_err. unfold mount_proc, mount. apply wp_bind, wp_attempted; [done|]. intros l6 Hr6.
    apply wp_bind, wp_gets, wp_modify. apply wp_bind, wp_map_err, wp_syscall; [done|]. intros l7 Hr7.
    assert (privileges q4 = (fresh_caps all_caps, pr_no_new_privs p, pr_tsc_faults p, pr_filters p)) as Hp by congruence.
    injection Hp as Hcap _ _ Hfil4. eapply (chdir_and_exec_spec cfg); [done|done|done| | |exact Hcap|by rewrite <-Hfil].
    + unfold confined. cbn. rewrite Hns4, Hns3, Hns2, Hns1, Hmaps4, Hmaps3, Hmaps2, Hmaps1, Hmaps, Hpriv4, Hpriv3, Hpriv2, Hroot4, Hroot3, Hroot2,
        Hlo4, Hlo3, Hlo2, Hlo1, Hlo, Hpid4, Hpid3, Hpid2, Hpid1, Hpid. reflexivity.
    + constructor; [done|]. cbn. by rewrite Hmts4, Hmts3.
Qed.

End runner.

End specs.

(** ** The theorem *)

(** C7.  An action runs isolated, or not at all.  Whichever of its calls fail, the
    runner executes the arguments and the scrubbed environment it was given, and
    only once it is in its own namespaces, on a root without the host's, with
    nothing mounted but temporary file systems and read-only binds without set-id
    and device files, and what the host has mounted below a bound path; with no
    capability that is not to be retained, unable to gain any, and under filters
    that let through exactly the listed system calls save the denied ones; without
    a root to build it executes only for a caller that asked for no isolation.
    Where no call fails and the configuration is in order, it does execute. *)
Theorem sandbox_isolates `{HostFs, Libc, !LibcSpec} all_caps uid gid lo_index sent inbox known_cap arch cfg p :
  started p →
  let r := runner_main all_caps uid gid lo_index sent inbox known_cap arch (inr cfg) p in
  match r with
  | (q, Ok x) => executes cfg x ∧
      if rootfs_is_empty (rootfs (policy cfg)) then sc_no_isolation cfg = true else isolated uid gid arch (policy cfg) q
  | (_, Err _) => True
  | (_, Halt) => False
  end ∧
  (pr_faults p = [] → config_fine all_caps lo_index sent inbox known_cap arch cfg → empty_rootfs_without_opt_in cfg = false →
   is_Some (returned r)).
Proof.
  intros Hp r. split.
  - refine (runner_main_spec True all_caps uid gid lo_index sent inbox known_cap arch cfg p _ Hp _ _); by left.
  - intros Hf Hfine Hopt.
    pose proof (runner_main_spec False all_caps uid gid lo_index sent inbox known_cap arch cfg p (or_intror Hf) Hp (or_intror Hfine) (or_intror Hopt)) as Hw.
    unfold wp in Hw. fold r in Hw. destruct r as [q [x|e|]]; [by eexists|done..].
Qed.

(** ** What the runner does not do *)

(** [dup2] is on the list of allowed calls, but has no number: on [x86_64], where the
    call exists, it is denied. *)
Lemma dup2_denied `{Libc, !LibcSpec} args : "dup2" ∈ DEFAULT_ALLOW ∧ ¬ listed_call X86_64 [] (mkSyscall (SYS_ "dup2") args).
Proof.
  split; [by_vm|]. intros (name & _ & Hn). cbn [sys_number] in Hn.
  assert (name = "dup2") as ->; [|vm_compute in Hn; discriminate Hn].
  unfold syscall_nr in Hn. repeat case_bool_decide; try discriminate Hn; injection Hn as Hn; by apply SYS_inj.
Qed.

(** A repeated variable is replaced only where it comes first. *)
Lemma repeated_variable_survives :
  scrub_env [("TZ", "Asia/Tokyo"); ("TZ", "Europe/Oslo")] brokkr_defaults
  = [("TZ", "UTC0"); ("TZ", "Europe/Oslo"); ("PATH", "/usr/bin:/bin")].
Proof. by vm_compute. Qed.

Section demo.

#[local] Instance demo_libc : Libc := {|
  SYS_ s := Zpos (encode s);
  PR_ s := if String.eqb s "PR_SET_NO_NEW_PRIVS" then 38%Z else 8%Z;
  TIOC_ _ := 21522%Z
|}.

#[local] Instance demo_libc_spec : LibcSpec.
Proof.
  split.
  - intros a b [= E]. by apply (inj encode).
  - intros a Ha. cbn. destruct (String.eqb_spec a "PR_SET_NO_NEW_PRIVS") as [->|]; [|done]. exfalso. revert Ha. by_vm.
  - intros a. cbn. destruct (String.eqb a _); done.
  - done.
Qed.

#[local] Instance demo_host_fs : HostFs := {|
  path_exists _ s := String.eqb s "/usr";
  path_is_dir _ _ := true;
  mounts_below _ := [("/local", false)];
  bootstrap_name := "/tmp/brokkr-rootfs-a1b2c3"
|}.

Definition demo_policy : SandboxPolicy :=
  mkSandboxPolicy (mkRootfsSpec [("/usr", "/usr"); ("/lib64", "/lib64")] [("/tmp", 1048576)] [("/bin", "usr/bin")] None)
    (mkResourceLimits None None None None None None) NetNone brokkr_defaults [] [].

Definition demo_config : SandboxConfig := mkSandboxConfig ["cc"; "main.c"] [("LD_PRELOAD", "/evil.so")] (Some "/tmp") demo_policy false.

Definition demo_process : Process :=
  mkProcess false [] false [] HostRoot false None 0 (λ _, ∅) false false [] "/" [].

Lemma demo_config_fine : config_fine {["CAP_SETPCAP"]} 1 32 [] (λ _, true) X86_64 demo_config.
Proof.
  split_and!.
  - split; [done|by_vm].
  - by_vm.
  - by intros ? ?%not_elem_of_nil.
  - split; [done|]. by intros ? ?%not_elem_of_nil.
  - done.
  - set_solver.
Qed.

Lemma sandbox_isolates_witness :
  ∃ x q, runner_main {["CAP_SETPCAP"]} 1000 1000 1 32 [] (λ _, true) X86_64 (inr demo_config) demo_process = (q, Ok x) ∧
    ex_argv x = ["cc"; "main.c"] ∧ ex_env x = ["PATH=/usr/bin:/bin"; "TZ=UTC0"] ∧ pr_root q = SandboxRoot ∧ pr_caps q Permitted = ∅.
Proof.
  destruct (sandbox_isolates {["CAP_SETPCAP"]} 1000 1000 1 32 [] (λ _, true) X86_64 demo_config demo_process (conj eq_refl eq_refl)) as [Hm Hs].
  destruct (Hs eq_refl demo_config_fine eq_refl) as [x Hx]. clear Hs.
  destruct (runner_main _ _ _ _ _ _ _ _ _ demo_process) as [q [y|e|]]; [|discriminate Hx..]. injection Hx as ->. exists x, q.
  destruct Hm as [[Ha He] (Hc & Hcaps & _)]. split; [reflexivity|]. split; [exact Ha|]. split; [rewrite He; vm_compute; reflexivity|].
  destruct Hc as (ms & Hc & _). injection Hc as _ _ _ _ Hr _ _. split; [exact Hr|].
  specialize (Hcaps Permitted). cbn in Hcaps. set_solver.
Defined.

(** A mount the host has below a bound path stays writable: making a bind read-only
    reaches only the bind itself. *)
Lemma mount_below_stays_writable :
  pr_mounts (bind_one "/new" ("/usr", "/usr") demo_process).1 =
  [mkMounted "/new/usr" (MBind "/usr") true true true; mkMounted "/new/usr/local" (MBelow "/usr") false false false].
Proof. by vm_compute. Qed.

End demo.
