(* ===== verification/SandboxHost.v ===== *)
(** * brokkr-sandbox: the host side

    Models [crates/brokkr-sandbox/src/host/] ([mod.rs], [linux.rs], [cgroup.rs]) and
    [outcome.rs]: starting the runner, placing it in a cgroup with its limits,
    handing it its configuration, waiting for it or stopping it, and reading what
    the kernel counted.  Calls may fail on an arbitrary schedule; what the runner
    does is a parameter, and a process that has been killed counts as gone. *)

From stdpp Require Import prelude gmap strings pretty.
From Stdlib Require Import Lia Ascii.
From S2P Require Import Prelude Machine Bytes Common Scheduler Execute Services Worker WorkerTheorems Seccomp Sandbox.

Local Open Scope N_scope.

(** ** Text *)

Definition is_whitespace (c : ascii) : bool := existsb (Ascii.eqb c) [" "; "009"; "010"; "011"; "012"; "013"]%char.
Definition NEWLINE : ascii := "010"%char.

Definition flush (s : string) : list string := if String.eqb s "" then [] else [s].

(** [split_whitespace]. *)
Fixpoint words_from (word s : string) : list string :=
  match s with
  | EmptyString => flush word
  | String c s => if is_whitespace c then flush word ++ words_from "" s else words_from (word +:+ String c "") s
  end.
Definition split_whitespace (s : string) : list string := words_from "" s.

(** [lines]. *)
Fixpoint lines_from (line s : string) : list string :=
  match s with
  | EmptyString => flush line
  | String c s => if Ascii.eqb c NEWLINE then line :: lines_from "" s else lines_from (line +:+ String c "") s
  end.
Definition lines (s : string) : list string := lines_from "" s.

(** [parse::<u64>]. *)
Definition parse_u64 (s : string) : option N :=
  n ← parse_N (match s with String "+" t => t | _ => s end);
  if n <=? u64_max then Some n else None.

(** ** [cgroup.rs] *)

(** [cpu_user] and [cpu_system] in microseconds. *)
Record ResourceAccounting : Type := mkResourceAccounting {
  cpu_user : N;
  cpu_system : N;
  memory_peak_bytes : N;
  io_read_bytes : N;
  io_write_bytes : N;
  max_pids : N
}.

Definition accounting_default : ResourceAccounting := mkResourceAccounting 0 0 0 0 0 0.

Section cgroup.
(** What a file of the cgroup holds, if it can be read. *)
Context (files : string → option string).

Definition cpu_line (acc : ResourceAccounting) (line : string) : ResourceAccounting :=
  match split_whitespace line with
  | key :: val :: _ =>
      match parse_u64 val with
      | Some v =>
          if String.eqb key "user_usec" then mkResourceAccounting v (cpu_system acc) (memory_peak_bytes acc) (io_read_bytes acc) (io_write_bytes acc) (max_pids acc)
          else if String.eqb key "system_usec" then mkResourceAccounting (cpu_user acc) v (memory_peak_bytes acc) (io_read_bytes acc) (io_write_bytes acc) (max_pids acc)
          else acc
      | None => acc
      end
  | _ => acc
  end.

Definition saturating (n : N) : N := N.min n u64_max.

Definition io_token (acc : ResourceAccounting) (token : string) : ResourceAccounting :=
  match strip_prefix "rbytes=" token ≫= parse_u64 with
  | Some v => mkResourceAccounting (cpu_user acc) (cpu_system acc) (memory_peak_bytes acc) (saturating (io_read_bytes acc + v)) (io_write_bytes acc) (max_pids acc)
  | None =>
      match strip_prefix "wbytes=" token ≫= parse_u64 with
      | Some v => mkResourceAccounting (cpu_user acc) (cpu_system acc) (memory_peak_bytes acc) (io_read_bytes acc) (saturating (io_write_bytes acc + v)) (max_pids acc)
      | None => acc
      end
  end.

(** The one number of a file, zero if it is not one. *)
Definition single_value (s : string) : N :=
  match split_whitespace s with [w] => default 0 (parse_u64 w) | _ => 0 end.

Definition accounting : ResourceAccounting :=
  let acc := match files "cpu.stat" with Some s => foldl cpu_line accounting_default (lines s) | None => accounting_default end in
  let acc :=
    match files "memory.peak" with
    | Some s => mkResourceAccounting (cpu_user acc) (cpu_system acc) (single_value s) (io_read_bytes acc) (io_write_bytes acc) (max_pids acc)
    | None => acc
    end in
  let acc :=
    match files "pids.peak" with
    | Some s => mkResourceAccounting (cpu_user acc) (cpu_system acc) (memory_peak_bytes acc) (io_read_bytes acc) (io_write_bytes acc) (single_value s)
    | None => acc
    end in
  match files "io.stat" with
  | Some s => foldl (λ acc line, foldl io_token acc (tail (split_whitespace line))) acc (lines s)
  | None => acc
  end.

Fixpoint oom_lines (ls : list string) : bool :=
  match ls with
  | [] => false
  | line :: ls =>
      match split_whitespace line with
      | key :: rest =>
          if String.eqb key "oom_kill" then match rest with val :: _ => match parse_u64 val with Some n => 0 <? n | None => false end | [] => false end
          else oom_lines ls
      | [] => oom_lines ls
      end
  end.

Definition was_oom_killed : bool := match files "memory.events" with Some s => oom_lines (lines s) | None => false end.

End cgroup.

(** ** The host *)

(** Which processes are running, neither ended nor killed: the runner, the others of
    its process group, and those that have left the group and do not end with it.
    (In a PID namespace there are none of the last: its first process is of the
    group.) *)
Record Procs : Type := mkProcs { ps_runner : bool; ps_family : bool; ps_strays : bool }.

Definition nobody : Procs := mkProcs false false false.
Definition running (p : Procs) : bool := ps_runner p || ps_family p || ps_strays p.
Definition in_group (p : Procs) : bool := ps_runner p || ps_family p.
Definition without_runner (p : Procs) : Procs := mkProcs false (ps_family p) (ps_strays p).
Definition without_group (p : Procs) : Procs := mkProcs false false (ps_strays p).
Definition spared_of (p q : Procs) : Procs :=
  mkProcs (ps_runner p && ps_runner q) (ps_family p && ps_family q) (ps_strays p && ps_strays q).

Record Host : Type := mkHost {
  ho_procs : Procs;
  (** The runner has been waited for. *)
  ho_reaped : bool;
  (** The leaf cgroup exists; the runner, and with it all it starts, is in it. *)
  ho_leaf : bool;
  ho_attached : bool;
  (** The attributes written to the leaf, in order. *)
  ho_attrs : list (string * string);
  (** What they were when the runner was let go on. *)
  ho_released : option (list (string * string));
  (** The group could not be killed when the host was done with it; the leaf could
      not be removed, for another reason than a process running in it. *)
  ho_refused : bool;
  ho_kept : bool;
  ho_faults : list (option string)
}.

Definition with_procs p h := mkHost p (ho_reaped h) (ho_leaf h) (ho_attached h) (ho_attrs h) (ho_released h) (ho_refused h) (ho_kept h) (ho_faults h).
Definition with_reaped h := mkHost (ho_procs h) true (ho_leaf h) (ho_attached h) (ho_attrs h) (ho_released h) (ho_refused h) (ho_kept h) (ho_faults h).
Definition with_leaf b h := mkHost (ho_procs h) (ho_reaped h) b (ho_attached h) (ho_attrs h) (ho_released h) (ho_refused h) (ho_kept h) (ho_faults h).
Definition with_attached h := mkHost (ho_procs h) (ho_reaped h) (ho_leaf h) true (ho_attrs h) (ho_released h) (ho_refused h) (ho_kept h) (ho_faults h).
Definition with_attr a h := mkHost (ho_procs h) (ho_reaped h) (ho_leaf h) (ho_attached h) (ho_attrs h ++ [a]) (ho_released h) (ho_refused h) (ho_kept h) (ho_faults h).
Definition with_released h := mkHost (ho_procs h) (ho_reaped h) (ho_leaf h) (ho_attached h) (ho_attrs h) (Some (ho_attrs h)) (ho_refused h) (ho_kept h) (ho_faults h).
Definition with_refused h := mkHost (ho_procs h) (ho_reaped h) (ho_leaf h) (ho_attached h) (ho_attrs h) (ho_released h) true (ho_kept h) (ho_faults h).
Definition with_kept h := mkHost (ho_procs h) (ho_reaped h) (ho_leaf h) (ho_attached h) (ho_attrs h) (ho_released h) (ho_refused h) true (ho_faults h).
Definition with_faults l h := mkHost (ho_procs h) (ho_reaped h) (ho_leaf h) (ho_attached h) (ho_attrs h) (ho_released h) (ho_refused h) (ho_kept h) l.

Definition h_call : eff Host string () := λ h,
  match ho_faults h with
  | [] => (h, Ok ())
  | None :: l => (with_faults l h, Ok ())
  | Some e :: l => (with_faults l h, Err e)
  end.

(** Leaving a scope: what is dropped when it is left by an error, and in any way. *)
Definition on_err {E X} (cleanup : Host → Host) (m : eff Host E X) : eff Host E X := λ h,
  match m h with (h, Err e) => (cleanup h, Err e) | r => r end.

Definition guarded {E X} (cleanup : Host → Host) (m : eff Host E X) : eff Host E X := λ h,
  match m h with (h, Halt) => (h, Halt) | (h, r) => (cleanup h, r) end.

(** *** What the runner does *)

Inductive WriteResult : Type := Written | BrokenPipe | WriteFailed (e : string).

(** What waiting for the runner comes to; [Elapsed]: not within the deadline. *)
Inductive WaitResult : Type :=
| Ended (code signal : option Z)
| WaitFailed (e : string)
| Elapsed.

(** A task that reads an output stream: it fails, or it reads until no process has
    the other end.  [held]: the processes the runner leaves behind have it. *)
Inductive Pump : Type := PumpFailed | PumpReads (held : bool) (reads : list PipeRead).

Record RunnerRun : Type := mkRunnerRun {
  rr_pid : N;
  rr_write : WriteResult;
  rr_wait : WaitResult;
  rr_wait_killed : WaitResult;
  (** Whether it has processes in its group and strays once it goes on, and whether
      the former are left when it has ended. *)
  rr_family : bool;
  rr_strays : bool;
  rr_family_left : bool;
  (** It ends when it alone is killed; what is left when each process the cgroup
      lists has been sent the signal. *)
  rr_dies : bool;
  rr_spared : Procs;
  rr_stdout : Pump;
  rr_stderr : Pump;
  rr_files : string → option string
}.

(** *** The cgroup of an action *)

Definition write_attr (name content : string) : eff Host string () := h_call;; modify (with_attr (name, content)).

Definition PERIOD_US : N := 100000.

Definition apply_limits (l : ResourceLimits) : eff Host string () :=
  match memory_bytes l with
  | Some mem =>
      write_attr "memory.max" (pretty (u64_val mem));;
      r ← attempt (write_attr "memory.swap.max" "0");
      match r with
      | inl e => if String.eqb e "ENOENT" then mret () else throw e
      | inr _ => mret ()
      end
  | None => mret ()
  end;;
  match pids_max l with Some n => write_attr "pids.max" (pretty (u64_val n)) | None => mret () end;;
  match cpu_milli l with
  | Some c => write_attr "cpu.max" (pretty (saturating (u64_val c * PERIOD_US) / 1000) +:+ " " +:+ pretty PERIOD_US)
  | None => mret ()
  end.

(** Dropping a cgroup: [rmdir], whose failure is ignored, and which the kernel
    refuses while a process is in it. *)
Definition drop_cgroup (h : Host) : Host :=
  match h_call h with
  | (h, Ok _) => with_leaf (ho_attached h && running (ho_procs h)) h
  | (h, _) => with_kept h
  end.

Definition cgroup_create (l : ResourceLimits) : eff Host string () :=
  h_call;; modify (with_leaf true);; on_err drop_cgroup (apply_limits l).

Definition attach (pid : N) : eff Host string () := write_attr "cgroup.procs" (pretty pid);; modify with_attached.

(** [parse::<i32>]. *)
Definition parse_i32 (s : string) : option Z :=
  match s with
  | String "-" t => n ← parse_N t; if n <=? 2 ^ 31 then Some (- Z.of_N n)%Z else None
  | _ => n ← parse_N (match s with String "+" t => t | _ => s end); if n <? 2 ^ 31 then Some (Z.of_N n) else None
  end.

(** [cgroup.kill], or, where there is none, a signal to each process of the list,
    whatever comes of it. *)
Definition kill_all (rr : RunnerRun) : eff Host string () :=
  or_else (write_attr "cgroup.kill" "1";; modify (with_procs nobody))
    (λ e,
       if String.eqb e "ENOENT" then
         h_call;;
         match rr_files rr "cgroup.procs" with
         | None => throw "EIO"
         | Some procs =>
             each (λ w, match parse_i32 w with Some _ => attempt h_call;; mret () | None => mret () end) (split_whitespace procs);;
             modify (λ h, with_procs (spared_of (ho_procs h) (rr_spared rr)) h)
         end
       else throw e).

(** ** [linux.rs] *)

Inductive SandboxError : Type :=
| SetupFailed (step message : string)
| RunnerCrashed (stderr : bytes)
| CgroupFailed (message : string).

Definition setup_step {X} (name : string) (m : eff Host string X) : eff Host SandboxError X := map_err (SetupFailed name) m.

Definition join_capture (joined : option (list PipeRead)) : bytes :=
  match joined with Some reads => read_capped MAX_CAPTURED_OUTPUT_BYTES reads | None => [] end.

(** Awaiting the task: without end while a process that is running has the pipe. *)
Definition join_pump (p : Pump) : eff Host SandboxError bytes := λ h,
  match p with
  | PumpFailed => (h, Ok (join_capture None))
  | PumpReads held reads => if held && running (ho_procs h) then (h, Halt) else (h, Ok (join_capture (Some reads)))
  end.

Definition group_gone (h : Host) : Host := with_procs (without_group (ho_procs h)) h.
Definition runner_ended (h : Host) : Host := with_reaped (with_procs (without_runner (ho_procs h)) h).

(** The deadline has passed: kill the cgroup, then the group, or else the runner,
    which is then waited for. *)
Definition stop_runner (rr : RunnerRun) (has_cgroup : bool) : eff Host SandboxError () :=
  cgroup_killed ← (if has_cgroup then r ← attempt (kill_all rr); mret (match r with inr _ => true | inl _ => false end) else mret false);
  r ← attempt h_call;
  match r with
  | inr _ => modify group_gone
  | inl e =>
      if String.eqb e "ESRCH" then modify group_gone
      else if cgroup_killed : bool then mret ()
      else
        k ← attempt h_call;
        match k with
        | inl _ => mret ()
        | inr _ => if rr_dies rr then modify runner_ended else halt
        end
  end.

(** The wait, with whether the deadline was hit; without a deadline, a runner that
    does not end is waited for without end. *)
Definition wait_runner (rr : RunnerRun) (has_cgroup : bool) (wall_clock : option u64) : eff Host SandboxError (option Z * option Z * bool) :=
  match rr_wait rr with
  | Ended c s =>
      modify (λ h, with_reaped (with_procs (mkProcs false (ps_family (ho_procs h) && rr_family_left rr) (ps_strays (ho_procs h))) h));;
      mret (c, s, false)
  | WaitFailed e => throw (SetupFailed "wait for runner" e)
  | Elapsed =>
      match wall_clock with
      | None => halt
      | Some _ =>
          stop_runner rr has_cgroup;;
          match rr_wait_killed rr with
          | Ended c s => modify runner_ended;; mret (c, s, true)
          | WaitFailed e => throw (SetupFailed "wait for runner after timeout" e)
          | Elapsed => throw (SetupFailed "wait for runner after timeout kill" "runner did not exit after timeout SIGKILL")
          end
      end
  end.

Definition exit_status_of (code signal : option Z) (hit_timeout oom : bool) : ExitStatus :=
  if hit_timeout then TimedOut
  else if oom then OutOfMemory
  else match code, signal with
       | Some c, _ => Exited c
       | None, Some s => Signaled s
       | None, None => Signaled (-1)
       end.

(** [kill_on_drop]: a child that has not been waited for is killed. *)
Definition kill_on_drop (h : Host) : Host :=
  if ho_reaped h then h
  else match h_call h with (h, Ok _) => with_procs (without_runner (ho_procs h)) h | (h, _) => h end.

Definition note_refused (h : Host) : Host := if in_group (ho_procs h) then with_refused h else h.

(** Dropping the wrapper: the child goes first, then the group is killed. *)
Definition drop_child (h : Host) : Host :=
  match h_call (kill_on_drop h) with
  | (h, Ok _) => group_gone h
  | (h, Err e) => if String.eqb e "ESRCH" then group_gone h else note_refused h
  | (h, Halt) => h
  end.

Section run_action.
Context (has_cgroup : bool) (l : ResourceLimits) (rr : RunnerRun).

(** From where the cgroup is there. *)
Definition run_body : eff Host SandboxError (SandboxOutcome * ResourceAccounting) :=
  (if has_cgroup then map_err CgroupFailed (attach (rr_pid rr)) else mret ());;
  setup_step "take stdout" h_call;;
  setup_step "take stderr" h_call;;
  modify (λ h, with_released (with_procs (mkProcs (ps_runner (ho_procs h)) (rr_family rr) (rr_strays rr)) h));;
  match rr_write rr with WriteFailed e => throw (SetupFailed "write config payload" e) | _ => mret () end;;
  w ← wait_runner rr has_cgroup (wall_clock_secs l);
  let '(code, signal, hit_timeout) := w in
  stdout ← join_pump (rr_stdout rr);
  stderr ← join_pump (rr_stderr rr);
  match rr_write rr with
  | BrokenPipe =>
      if negb (bool_decide (code = Some 0%Z)) && negb (bool_decide (stderr = [])) then throw (RunnerCrashed stderr) else mret ()
  | _ => mret ()
  end;;
  let oom := has_cgroup && was_oom_killed (rr_files rr) in
  mret (mkSandboxOutcome (exit_status_of code signal hit_timeout oom) stdout stderr,
        if has_cgroup then accounting (rr_files rr) else accounting_default).

(** However it ends, the cgroup is dropped first and the child after it, which is
    the reverse of the order they were made in. *)
Definition run_action : eff Host SandboxError (SandboxOutcome * ResourceAccounting) :=
  setup_step "create config pipe" h_call;;
  setup_step "spawn runner" (h_call;; modify (λ h, with_procs (mkProcs true false false) h));;
  on_err (λ h, note_refused (kill_on_drop h)) (setup_step "read runner pid" h_call);;
  guarded drop_child
    (setup_step "read runner pid" h_call;;
     (if has_cgroup then map_err CgroupFailed (cgroup_create l) else mret ());;
     guarded (if has_cgroup then drop_cgroup else id) run_body).

(** [Sandbox::run]. *)
Definition sandbox_run_host (argv : list string) : eff Host SandboxError (SandboxOutcome * ResourceAccounting) :=
  match argv with
  | [] => throw (SetupFailed "validate config" "argv must not be empty")
  | _ => run_action
  end.

End run_action.

(** ** What holds of a run *)

(** [wp], with a say on the state in which a run does not go on. *)
Definition wph {E A} (m : eff Host E A) (Q : A → Host → Prop) (X : E → Host → Prop) (H : Host → Prop) (h : Host) : Prop :=
  match m h with (h', Ok a) => Q a h' | (h', Err e) => X e h' | (h', Halt) => H h' end.

Lemma wp_wph {E A} (m : eff Host E A) Q X H h : wp m Q X h → wph m Q X H h.
Proof. unfold wp, wph. by destruct (m h) as [h' [a|e|]]. Qed.

Lemma wph_mono {E A} (m : eff Host E A) Q Q' (X X' : E → Host → Prop) (H H' : Host → Prop) h :
  wph m Q X H h → (∀ a h', Q a h' → Q' a h') → (∀ e h', X e h' → X' e h') → (∀ h', H h' → H' h') → wph m Q' X' H' h.
Proof. unfold wph. destruct (m h) as [h' [a|e|]]; auto. Qed.

Lemma wph_bind {E A B} (m : eff Host E A) (f : A → eff Host E B) Q X H h :
  wph m (λ a, wph (f a) Q X H) X H h → wph (m ≫= f) Q X H h.
Proof. unfold wph, mbind, eff_bind. by destruct (m h) as [h' [a|e|]]. Qed.

Lemma wph_guarded {E A} cleanup (m : eff Host E A) Q X H h :
  wph m (λ a h', Q a (cleanup h')) (λ e h', X e (cleanup h')) H h → wph (guarded cleanup m) Q X H h.
Proof. unfold wph, guarded. by destruct (m h) as [h' [a|e|]]. Qed.

Lemma wp_on_err {E A} cleanup (m : eff Host E A) Q X h : wp m Q (λ e h', X e (cleanup h')) h → wp (on_err cleanup m) Q X h.
Proof. unfold wp, on_err. by destruct (m h) as [h' [a|e|]]. Qed.

Lemma wp_h_call (Q : () → Host → Prop) (X : string → Host → Prop) h :
  (∀ l, Q () (with_faults l h)) → (∀ e l, X e (with_faults l h)) → wp h_call Q X h.
Proof.
  intros HQ HX. unfold wp, h_call. destruct (ho_faults h) as [|[e|] l] eqn:Hf; [|apply HX|apply HQ].
  specialize (HQ []). destruct h; cbn in *; subst. apply HQ.
Qed.

(** *** The limits *)

(** The limits that are written: of memory, processes and processor. *)
Definition limits_written (l : ResourceLimits) (attrs : list (string * string)) : Prop :=
  (∀ mem, memory_bytes l = Some mem → ("memory.max", pretty (u64_val mem)) ∈ attrs) ∧
  (∀ n, pids_max l = Some n → ("pids.max", pretty (u64_val n)) ∈ attrs) ∧
  (∀ c, cpu_milli l = Some c → ("cpu.max", pretty (saturating (u64_val c * PERIOD_US) / 1000) +:+ " " +:+ pretty PERIOD_US) ∈ attrs).

Definition setup_attr (a : string * string) : Prop := a.1 ∈ ["memory.max"; "memory.swap.max"; "pids.max"; "cpu.max"; "cgroup.procs"].

(** Nothing is let go on yet, and the attributes grow by some of those. *)
Definition held_back (h h' : Host) : Prop :=
  ho_released h' = None ∧ ∃ k, ho_attrs h' = ho_attrs h ++ k ∧ Forall setup_attr k.

Lemma held_back_refl h : ho_released h = None → held_back h h.
Proof. intros Hr. split; [done|]. exists []. by rewrite app_nil_r. Qed.

Lemma held_back_trans h1 h2 h3 : held_back h1 h2 → held_back h2 h3 → held_back h1 h3.
Proof.
  intros [_ (k1 & Hk1 & Hf1)] [Hr (k2 & Hk2 & Hf2)]. split; [done|]. exists (k1 ++ k2). rewrite Hk2, Hk1, app_assoc.
  split; [done|]. by apply Forall_app.
Qed.

Lemma held_back_elem h1 h2 a : held_back h1 h2 → a ∈ ho_attrs h1 → a ∈ ho_attrs h2.
Proof. intros [_ (k & -> & _)] Ha. set_solver. Qed.

Lemma write_attr_spec name content h :
  setup_attr (name, content) → ho_released h = None →
  wp (write_attr name content) (λ _ h', held_back h h' ∧ (name, content) ∈ ho_attrs h') (λ _ h', held_back h h') h.
Proof.
  intros Hs Hr. unfold write_attr. apply wp_bind, wp_h_call; [|intros e l; by apply (held_back_refl (with_faults l h))]. intros l. apply wp_modify. split.
  - split; [done|]. exists [(name, content)]. by split; [|apply Forall_singleton].
  - cbn. set_solver.
Qed.

Lemma write_opt_spec {V} (o : option V) name (f : V → string) h h0 :
  (∀ v, setup_attr (name, f v)) → held_back h0 h →
  wp (match o with Some v => write_attr name (f v) | None => mret () end)
    (λ _ h', held_back h h' ∧ ∀ v, o = Some v → (name, f v) ∈ ho_attrs h') (λ _ h', held_back h0 h') h.
Proof.
  intros Hs Hh. destruct o as [v|]; [|apply wp_ret; split; [by apply held_back_refl, Hh|done]].
  eapply wp_mono; [apply write_attr_spec; [done|apply Hh]| |].
  - intros _ h' [? ?]. split; [done|]. by intros ? [= <-].
  - intros e h' Hh'. exact (held_back_trans _ _ _ Hh Hh').
Qed.

Lemma apply_limits_spec l h :
  ho_released h = None → wp (apply_limits l) (λ _ h', held_back h h' ∧ limits_written l (ho_attrs h')) (λ _ h', held_back h h') h.
Proof.
  intros Hr. unfold apply_limits. apply wp_bind.
  apply (wp_mono _ (λ _ h', held_back h h' ∧ ∀ mem, memory_bytes l = Some mem → ("memory.max", pretty (u64_val mem)) ∈ ho_attrs h') _ (λ _, held_back h)); [| |done].
  { destruct (memory_bytes l) as [mem|]; [|apply wp_ret; split; [by apply held_back_refl|done]].
    apply wp_bind. eapply wp_mono; [apply write_attr_spec; [unfold setup_attr; cbn; set_solver|done]| |done].
    intros _ h1 [Hh1 Hin]. apply wp_bind, wp_attempt. eapply wp_mono; [apply write_attr_spec; [unfold setup_attr; cbn; set_solver|apply Hh1]| |].
    - intros _ h2 [Hh2 _]. apply wp_ret. split; [exact (held_back_trans _ _ _ Hh1 Hh2)|]. intros ? [= <-]. exact (held_back_elem _ _ _ Hh2 Hin).
    - intros e h2 Hh2. destruct (String.eqb e "ENOENT"); [|exact (held_back_trans _ _ _ Hh1 Hh2)]. apply wp_ret.
      split; [exact (held_back_trans _ _ _ Hh1 Hh2)|]. intros ? [= <-]. exact (held_back_elem _ _ _ Hh2 Hin). }
  intros _ h1 [Hh1 Hmem]. apply wp_bind.
  eapply wp_mono; [apply (write_opt_spec (pids_max l) "pids.max" (λ n, pretty (u64_val n)) h1 h); [intros v; unfold setup_attr; cbn; set_solver|exact Hh1]| |done].
  intros _ h2 [Hh2 Hpids]. pose proof (held_back_trans _ _ _ Hh1 Hh2) as Hh02.
  eapply wp_mono; [apply (write_opt_spec (cpu_milli l) "cpu.max" (λ c, pretty (saturating (u64_val c * PERIOD_US) / 1000) +:+ " " +:+ pretty PERIOD_US) h2 h);
    [intros v; unfold setup_attr; cbn; set_solver|exact Hh02]| |done].
  intros _ h3 [Hh3 Hcpu]. split; [exact (held_back_trans _ _ _ Hh02 Hh3)|]. split_and!; [| |done].
  - intros mem Hm. eapply held_back_elem; [exact Hh3|]. eapply held_back_elem; [exact Hh2|]. by apply Hmem.
  - intros n Hn. eapply held_back_elem; [exact Hh3|]. by apply Hpids.
Qed.

(** Dropping the cgroup changes nothing but whether it is there. *)
Lemma drop_cgroup_spec h :
  ho_procs (drop_cgroup h) = ho_procs h ∧ ho_attrs (drop_cgroup h) = ho_attrs h ∧ ho_released (drop_cgroup h) = ho_released h ∧
  (running (ho_procs h) = false → ho_leaf (drop_cgroup h) = false ∨ ho_kept (drop_cgroup h) = true).
Proof.
  unfold drop_cgroup, h_call. destruct (ho_faults h) as [|[e|] fs]; cbn; split_and!; try done; intros Hr;
    [left|by right|left]; by rewrite Hr, andb_false_r.
Qed.

(** Dropping the child leaves nothing of its group running, unless it may not be
    killed. *)
Lemma kill_on_drop_spec h :
  ho_attrs (kill_on_drop h) = ho_attrs h ∧ ho_released (kill_on_drop h) = ho_released h ∧ ho_leaf (kill_on_drop h) = ho_leaf h ∧
  ho_kept (kill_on_drop h) = ho_kept h ∧ (running (ho_procs h) = false → running (ho_procs (kill_on_drop h)) = false).
Proof.
  unfold kill_on_drop, h_call. destruct (ho_reaped h); [done|].
  destruct (ho_faults h) as [|[e|] fs]; cbn; split_and!; try done; unfold running; cbn; destruct (ho_procs h) as [[] [] []]; done.
Qed.

Lemma note_refused_spec h :
  ho_attrs (note_refused h) = ho_attrs h ∧ ho_released (note_refused h) = ho_released h ∧
  (in_group (ho_procs (note_refused h)) = false ∨ ho_refused (note_refused h) = true).
Proof. unfold note_refused. destruct (in_group (ho_procs h)) eqn:Hg; cbn; split_and!; try done; [by right|by left]. Qed.

Lemma drop_child_spec h :
  ho_attrs (drop_child h) = ho_attrs h ∧ ho_released (drop_child h) = ho_released h ∧ ho_leaf (drop_child h) = ho_leaf h ∧
  ho_kept (drop_child h) = ho_kept h ∧ (running (ho_procs h) = false → running (ho_procs (drop_child h)) = false) ∧
  (in_group (ho_procs (drop_child h)) = false ∨ ho_refused (drop_child h) = true).
Proof.
  destruct (kill_on_drop_spec h) as (Ha & Hr & Hl & Hk & Hrun). unfold drop_child. set (h1 := kill_on_drop h) in *.
  assert (∀ fs, ho_attrs (group_gone (with_faults fs h1)) = ho_attrs h ∧ ho_released (group_gone (with_faults fs h1)) = ho_released h ∧
    ho_leaf (group_gone (with_faults fs h1)) = ho_leaf h ∧ ho_kept (group_gone (with_faults fs h1)) = ho_kept h ∧
    (running (ho_procs h) = false → running (ho_procs (group_gone (with_faults fs h1))) = false) ∧
    (in_group (ho_procs (group_gone (with_faults fs h1))) = false ∨ ho_refused (group_gone (with_faults fs h1)) = true)) as Hgone.
  { intros fs. split_and!; try done; [|by left]. intros Hp. specialize (Hrun Hp). revert Hrun. unfold running. cbn.
    by destruct (ho_procs h1) as [[] [] []]. }
  unfold h_call. destruct (ho_faults h1) as [|[e|] fs] eqn:Hf; [|destruct (String.eqb e "ESRCH"); [apply Hgone|]|apply Hgone].
  - specialize (Hgone []). by replace (with_faults [] h1) with h1 in Hgone by (destruct h1; cbn in *; by subst).
  - unfold note_refused. cbn [ho_procs with_faults]. destruct (in_group (ho_procs h1)) eqn:Hg; cbn; split_and!; try done; [by right|by left].
Qed.

(** *** Stopping and waiting *)

Definition cgroup_kill : string * string := ("cgroup.kill", "1").

(** Once [cgroup.kill] is written, nothing is running. *)
Definition kill_works (h : Host) : Prop := cgroup_kill ∈ ho_attrs h → running (ho_procs h) = false.

Lemma setup_no_kill h : Forall setup_attr (ho_attrs h) → cgroup_kill ∉ ho_attrs h.
Proof. intros Hf Hin. rewrite Forall_forall in Hf. specialize (Hf _ Hin). unfold setup_attr in Hf. cbn in Hf. set_solver. Qed.

Lemma kill_all_spec rr h :
  cgroup_kill ∉ ho_attrs h →
  wp (kill_all rr) (λ _ h', ho_released h' = ho_released h ∧ kill_works h')
    (λ _ h', ho_released h' = ho_released h ∧ cgroup_kill ∉ ho_attrs h') h.
Proof.
  intros Hno. unfold kill_all. apply wp_or_else, wp_bind. unfold write_attr. apply wp_bind, wp_h_call.
  { intros l. apply wp_modify, wp_modify. by split. }
  intros e l. destruct (String.eqb e "ENOENT"); [|by apply wp_throw]. apply wp_bind, wp_h_call; [|done]. intros l2.
  destruct (rr_files rr "cgroup.procs") as [procs|]; [|by apply wp_throw]. apply wp_bind.
  eapply wp_mono; [apply (wp_each _ (λ _ h', ho_released h' = ho_released h ∧ cgroup_kill ∉ ho_attrs h')
    (λ _ h', ho_released h' = ho_released h ∧ cgroup_kill ∉ ho_attrs h')); [done|]| |done].
  - intros pre w post h2 _ Hh2. destruct (parse_i32 w); [|by apply wp_ret]. apply wp_bind, wp_attempt, wp_h_call; intros; by apply wp_ret.
  - intros [] h2 [Hr2 Hk2]. apply wp_modify. split; [done|]. by intros ?.
Qed.

Lemma running_shrinks p : running p = false → running (without_group p) = false ∧ running (without_runner p) = false.
Proof. unfold running. by destruct p as [[] [] []]. Qed.

Lemma stop_runner_spec rr has_cgroup h :
  cgroup_kill ∉ ho_attrs h →
  wph (stop_runner rr has_cgroup) (λ _ h', ho_released h' = ho_released h ∧ kill_works h') (λ _ _, False)
    (λ h', ho_released h' = ho_released h ∧ cgroup_kill ∉ ho_attrs h' ∧ rr_dies rr = false) h.
Proof.
  intros Hno. unfold stop_runner. apply wph_bind, wp_wph.
  apply (wp_mono _ (λ killed h', ho_released h' = ho_released h ∧ if killed : bool then kill_works h' else cgroup_kill ∉ ho_attrs h') _ (λ _ _, False)); [| |done].
  { destruct has_cgroup; [|by apply wp_ret]. apply wp_bind, wp_attempt. eapply wp_mono; [by apply kill_all_spec|..]; intros ? h1 Hh1; by apply wp_ret. }
  intros killed h1 [Hr1 Hk1].
  assert (kill_works h1) as Hw1 by (destruct killed; [done|by intros ?]).
  assert (∀ fs, ho_released (group_gone (with_faults fs h1)) = ho_released h ∧ kill_works (group_gone (with_faults fs h1))) as Hgone.
  { intros fs. split; [done|]. intros Hin. exact (proj1 (running_shrinks _ (Hw1 Hin))). }
  apply wph_bind, wp_wph, wp_attempt, wp_h_call; intros; [by apply wp_wph, wp_modify|].
  destruct (String.eqb e "ESRCH"); [by apply wp_wph, wp_modify|]. destruct killed; [by apply wp_wph, wp_ret|].
  apply wph_bind, wp_wph, wp_attempt, wp_h_call; intros; [|by apply wp_wph, wp_ret; split; [|intros ?]].
  destruct (rr_dies rr) eqn:Hd; [apply wp_wph, wp_modify; by split; [|intros ?]|done].
Qed.

Section run_spec.
Context (has_cgroup : bool) (l : ResourceLimits) (rr : RunnerRun).

(** If the runner was let go on, it was in its cgroup with its limits set. *)
Definition released_limited (h : Host) : Prop :=
  ∀ attrs, ho_released h = Some attrs → has_cgroup = true → limits_written l attrs ∧ ("cgroup.procs", pretty (rr_pid rr)) ∈ attrs.

Lemma released_same h h' : ho_released h' = ho_released h → released_limited h → released_limited h'.
Proof. intros Hr Hl. unfold released_limited. by rewrite Hr. Qed.

(** A process the runner leaves behind has an output pipe. *)
Definition pipe_held : Prop := ∃ p reads, p ∈ [rr_stdout rr; rr_stderr rr] ∧ p = PumpReads true reads.

(** What is left running when the runner has ended by itself. *)
Definition left_over : bool := rr_strays rr || rr_family rr && rr_family_left rr.

(** Where a run does not go on. *)
Definition stuck (h : Host) : Prop :=
  rr_wait rr = Elapsed ∧ cgroup_kill ∉ ho_attrs h ∧ (wall_clock_secs l = None ∨ rr_dies rr = false) ∨
  pipe_held ∧ running (ho_procs h) = true.

Definition at_rest (h : Host) : Prop := released_limited h ∧ kill_works h.

Lemma wait_runner_spec h :
  released_limited h → cgroup_kill ∉ ho_attrs h → (ps_family (ho_procs h), ps_strays (ho_procs h)) = (rr_family rr, rr_strays rr) →
  wph (wait_runner rr has_cgroup (wall_clock_secs l))
    (λ w h', at_rest h' ∧ (w.2 = true ↔ rr_wait rr = Elapsed) ∧ (rr_wait rr ≠ Elapsed → running (ho_procs h') = left_over))
    (λ _, at_rest) (λ h', at_rest h' ∧ stuck h') h.
Proof.
  intros Hrel Hno [= Hf Hs]. unfold wait_runner. destruct (rr_wait rr) as [c s|e|] eqn:Hw.
  - apply wph_bind, wp_wph, wp_modify, wp_wph, wp_ret. split_and!; [by split; [|intros ?]|done|]. intros _. unfold running, left_over. cbn.
    rewrite Hf, Hs. apply orb_comm.
  - apply wp_wph, wp_throw. by split; [|intros ?].
  - destruct (wall_clock_secs l) as [d|] eqn:Hd.
    + apply wph_bind. eapply wph_mono; [by apply stop_runner_spec| |done|].
      * intros [] h1 [Hr1 Hk1]. assert (at_rest h1) as Hrest by (split; [by eapply released_same|done]).
        destruct (rr_wait_killed rr); [|by apply wp_wph, wp_throw..]. apply wph_bind, wp_wph, wp_modify, wp_wph, wp_ret.
        split_and!; [|done|done]. destruct Hrest as [Hl1 _]. split; [done|]. intros Hin. exact (proj2 (running_shrinks _ (Hk1 Hin))).
      * intros h1 (Hr1 & Hk1 & Hdies). split; [split; [by eapply released_same|by intros ?]|]. left. split_and!; [done|done|by right].
    + split; [by split; [|intros ?]|]. left. split_and!; [done|done|by left].
Qed.

Lemma join_pump_spec p h (Q : bytes → Host → Prop) X :
  p ∈ [rr_stdout rr; rr_stderr rr] → at_rest h → (∀ b, Q b h) → wph (join_pump p) Q X (λ h', at_rest h' ∧ stuck h') h.
Proof.
  intros Hp Hrest HQ. unfold wph, join_pump. destruct p as [|held reads]; [apply HQ|]. destruct (held && _) eqn:Hh; [|apply HQ].
  apply andb_true_iff in Hh as [-> Hrun]. split; [done|]. right. split; [|done]. by eexists _, _.
Qed.

Lemma run_body_spec h :
  ho_released h = None → Forall setup_attr (ho_attrs h) → (has_cgroup = true → limits_written l (ho_attrs h)) →
  wph (run_body has_cgroup l rr)
    (λ x h', at_rest h' ∧ (so_exit_status x.1 = TimedOut ↔ rr_wait rr = Elapsed) ∧ (rr_wait rr ≠ Elapsed → running (ho_procs h') = left_over))
    (λ _, at_rest) (λ h', at_rest h' ∧ stuck h') h.
Proof.
  intros Hr Hset Hlim.
  assert (∀ h', held_back h h' → at_rest h') as Hearly.
  { intros h' [Hr' (k & Hk & Hf)]. split; [intros ? ?; congruence|]. intros Hin. exfalso. revert Hin. apply setup_no_kill. rewrite Hk. by apply Forall_app. }
  unfold run_body, setup_step. apply wph_bind, wp_wph.
  apply (wp_mono _ (λ _ h', held_back h h' ∧ (has_cgroup = true → ("cgroup.procs", pretty (rr_pid rr)) ∈ ho_attrs h')) _ (λ _, at_rest)); [| |done].
  { destruct has_cgroup; [|apply wp_ret; split; [by apply held_back_refl|done]]. apply wp_map_err. unfold attach. apply wp_bind.
    eapply wp_mono; [apply write_attr_spec; [unfold setup_attr; cbn; set_solver|done]| |].
    - intros _ h1 [Hh1 Hin]. by apply wp_modify.
    - intros e h1 Hh1. by apply Hearly. }
  intros _ h1 [Hh1 Hin]. do 2 (apply wph_bind, wp_wph, wp_map_err, wp_h_call; [intros ?|intros; by apply Hearly]).
  apply wph_bind, wp_wph, wp_modify.
  match goal with |- wph _ _ _ _ ?g => set (h2 := g) end.
  assert (released_limited h2) as Hrel.
  { intros attrs [= <-] Hc. destruct Hh1 as [_ (k & Hk & _)]. cbn. split; [|by apply Hin]. rewrite Hk.
    destruct (Hlim Hc) as (Hm & Hp & Hcpu). split_and!; intros; set_solver. }
  assert (cgroup_kill ∉ ho_attrs h2) as Hno.
  { apply setup_no_kill. destruct Hh1 as [_ (k & Hk & Hf)]. cbn. rewrite Hk. by apply Forall_app. }
  assert (at_rest h2) as Hrest by (split; [done|by intros ?]).
  apply wph_bind. apply (wph_mono _ (λ _ h', h' = h2) _ (λ _, at_rest) _ (λ _, False)); [destruct (rr_write rr); by apply wp_wph| |done|done].
  intros [] ? ->. apply wph_bind. eapply wph_mono; [by apply wait_runner_spec| |done|done].
  intros [[code sig] hit] h3 (Hrest3 & Hhit & Hleft). apply wph_bind, join_pump_spec; [set_solver|done|]. intros out.
  apply wph_bind, join_pump_spec; [set_solver|done|]. intros err. apply wph_bind.
  apply (wph_mono _ (λ _ h', h' = h3) _ (λ _, at_rest) _ (λ _, False)); [| |done|done].
  { destruct (rr_write rr); [by apply wp_wph| |by apply wp_wph]. destruct (_ && _); by apply wp_wph. }
  intros [] ? ->. apply wp_wph, wp_ret. split_and!; [done| |done]. cbn in *. rewrite <-Hhit. unfold exit_status_of.
  destruct hit; [done|]. destruct (_ && _); [done|]. destruct code; [done|]. by destruct sig.
Qed.

(** What the two cleanups leave. *)
Definition cleaned (h : Host) : Prop := at_rest h ∧ (in_group (ho_procs h) = false ∨ ho_refused h = true).

Definition concluded (x : SandboxOutcome * ResourceAccounting) (h : Host) : Prop :=
  cleaned h ∧ (so_exit_status x.1 = TimedOut ↔ rr_wait rr = Elapsed) ∧
  (has_cgroup = true → rr_wait rr ≠ Elapsed ∧ left_over = false ∨ cgroup_kill ∈ ho_attrs h → ho_leaf h = false ∨ ho_kept h = true).

End run_spec.

Definition fresh_host (faults : list (option string)) : Host := mkHost nobody false false false [] None false false faults.

(** The run from where the child is wrapped. *)
Lemma run_guarded_spec (has_cgroup : bool) l rr h :
  ho_released h = None → ho_attrs h = [] →
  wph (guarded drop_child
    (setup_step "read runner pid" h_call;;
     (if has_cgroup then map_err CgroupFailed (cgroup_create l) else mret ());;
     guarded (if has_cgroup then drop_cgroup else id) (run_body has_cgroup l rr)))
    (concluded has_cgroup l rr) (λ _, cleaned has_cgroup l rr)
    (λ h', at_rest has_cgroup l rr h' ∧ stuck l rr h') h.
Proof.
  intros Hr Ha. apply wph_guarded.
  assert (∀ h', at_rest has_cgroup l rr h' → at_rest has_cgroup l rr (drop_child h') ∧
    (in_group (ho_procs (drop_child h')) = false ∨ ho_refused (drop_child h') = true)) as Hdrop.
  { intros h' [Hl Hk]. destruct (drop_child_spec h') as (Hat & Hre & _ & _ & Hrun & Hg). split; [|done].
    split; [by eapply released_same|]. intros Hin. apply Hrun, Hk. by rewrite <-Hat. }
  assert (∀ h', ho_released h' = None → Forall setup_attr (ho_attrs h') → at_rest has_cgroup l rr h') as Hearly.
  { intros h' Hr' Hf. split; [intros ? ?; congruence|]. intros Hin. by apply setup_no_kill in Hf. }
  unfold setup_step. apply wph_bind, wp_wph, wp_map_err, wp_h_call; [|intros; apply Hdrop, Hearly; [done|by cbn; rewrite Ha]].
  intros fs. apply wph_bind, wp_wph.
  apply (wp_mono _ (λ _ h', ho_released h' = None ∧ Forall setup_attr (ho_attrs h') ∧ (has_cgroup = true → limits_written l (ho_attrs h'))) _
    (λ _ h', ho_released h' = None ∧ Forall setup_attr (ho_attrs h'))); [| |intros e h' []; by apply Hdrop, Hearly].
  { destruct has_cgroup; [|apply wp_ret; split_and!; [done|by cbn; rewrite Ha|done]]. apply wp_map_err. unfold cgroup_create.
    apply wp_bind, wp_h_call; [|intros; cbn; rewrite Ha; by split]. intros fs2. apply wp_bind, wp_modify, wp_on_err.
    eapply wp_mono; [by apply apply_limits_spec|..].
    - intros _ h2 [[Hr2 (k & Hk & Hf)] Hl2]. cbn in Hk. rewrite Ha in Hk. split_and!; [done|by rewrite Hk|done].
    - intros e h2 [Hr2 (k & Hk & Hf)]. destruct (drop_cgroup_spec h2) as (_ & -> & -> & _). cbn in Hk. rewrite Ha in Hk. split; [done|by rewrite Hk]. }
  intros _ h1 (Hr1 & Hf1 & Hl1). apply wph_guarded. eapply wph_mono; [by apply run_body_spec| | |done].
  - intros x h2 (Hrest & Hto & Hleft).
    assert (at_rest has_cgroup l rr ((if has_cgroup then drop_cgroup else id) h2)) as Hrest2.
    { destruct has_cgroup; [|done]. destruct (drop_cgroup_spec h2) as (Hp & Hat & Hre & _). destruct Hrest as [Hl Hk].
      split; [by eapply released_same|]. unfold kill_works. by rewrite Hp, Hat. }
    destruct (Hdrop _ Hrest2) as [Hrest3 Hg]. do 2 (split; [done|]). intros -> Hwhy.
    destruct (drop_child_spec (drop_cgroup h2)) as (Hat & _ & -> & -> & _). destruct (drop_cgroup_spec h2) as (Hp & Hat2 & _ & Hleaf).
    apply Hleaf. destruct Hwhy as [[Hne Hno]|Hin]; [by rewrite Hleft|]. apply Hrest. by rewrite <-Hat2, <-Hat.
  - intros e h2 Hrest. apply Hdrop. destruct has_cgroup; [|done]. destruct (drop_cgroup_spec h2) as (Hp & Hat & Hre & _). destruct Hrest as [Hl Hk].
    split; [by eapply released_same|]. unfold kill_works. by rewrite Hp, Hat.
Qed.

(** C8.  The host neither lets an action run without its limits nor leaves it behind,
    whichever calls fail and whatever the runner does.  A run fails to return in
    three cases only: it has no deadline and the runner does not end; the deadline
    has passed, neither the cgroup nor the group could be killed, and the runner
    does not end when it is killed itself; or a process that is still running holds
    one of the output pipes.  Where the cgroup was killed, it returns, and nothing
    of the action is running.  The runner is handed its configuration only when it
    is in its cgroup and its limits of memory, processes and processor are set.
    When the call returns, no process of the runner's group is running unless the
    kernel refused to kill it.  A result says timed out exactly when the deadline
    passed; and one whose runner left no process behind, or whose cgroup was
    killed, leaves no cgroup, unless removing it failed of itself. *)
Theorem host_run_safe has_cgroup l rr faults :
  let '(h', r) := run_action has_cgroup l rr (fresh_host faults) in
  (r = Halt →
     rr_wait rr = Elapsed ∧ cgroup_kill ∉ ho_attrs h' ∧ (wall_clock_secs l = None ∨ rr_dies rr = false) ∨
     pipe_held rr ∧ running (ho_procs h') = true) ∧
  (cgroup_kill ∈ ho_attrs h' → r ≠ Halt ∧ running (ho_procs h') = false) ∧
  (∀ attrs, ho_released h' = Some attrs → has_cgroup = true → limits_written l attrs ∧ ("cgroup.procs", pretty (rr_pid rr)) ∈ attrs) ∧
  (r ≠ Halt → in_group (ho_procs h') = false ∨ ho_refused h' = true) ∧
  ∀ o acc, r = Ok (o, acc) →
    (so_exit_status o = TimedOut ↔ rr_wait rr = Elapsed) ∧
    (has_cgroup = true → rr_wait rr ≠ Elapsed ∧ left_over rr = false ∨ cgroup_kill ∈ ho_attrs h' → ho_leaf h' = false ∨ ho_kept h' = true).
Proof.
  assert (wph (run_action has_cgroup l rr)
    (concluded has_cgroup l rr) (λ _, cleaned has_cgroup l rr)
    (λ h', at_rest has_cgroup l rr h' ∧ stuck l rr h') (fresh_host faults)) as Hrun.
  { unfold run_action, setup_step. apply wph_bind, wp_wph, wp_map_err, wp_h_call.
    2:{ intros. split; [split; [by intros ? ?|by intros ?%elem_of_nil]|by left]. }
    intros l1. apply wph_bind, wp_wph, wp_map_err, wp_bind, wp_h_call; [|intros; split; [split; [by intros ? ?|by intros ?%elem_of_nil]|by left]].
    intros l2. apply wp_modify. apply wph_bind, wp_wph, wp_on_err, wp_map_err, wp_h_call; [intros; by apply run_guarded_spec|].
    intros e l3. match goal with |- context [kill_on_drop ?g] => set (h1 := g) end.
    assert (ho_attrs h1 = [] ∧ ho_released h1 = None) as [Ha1 Hr1] by done.
    destruct (kill_on_drop_spec h1) as (Ha & Hr & _), (note_refused_spec (kill_on_drop h1)) as (Ha' & Hr' & Hg).
    split; [|exact Hg]. split; [intros ? ?; congruence|]. intros Hin. rewrite Ha', Ha, Ha1 in Hin. by apply elem_of_nil in Hin. }
  unfold wph in Hrun. destruct (run_action has_cgroup l rr (fresh_host faults)) as [h' [[o acc]|e|]]; cbn [fst] in Hrun.
  - destruct Hrun as ([[Hl Hk] Hg] & Hto & Hleaf). split_and!; [done|by intros Hin; split; [|apply Hk]|done|done|]. intros ? ? [= <- <-]. done.
  - destruct Hrun as ([Hl Hk] & Hg). by split_and!; [|intros Hin; split; [|apply Hk]|..].
  - destruct Hrun as ([Hl Hk] & Hst). split_and!; [by intros _| |done|done|done]. intros Hin. exfalso.
    destruct Hst as [(_ & Hno & _)|[_ Hrun]]; [done|]. by rewrite (Hk Hin) in Hrun.
Qed.

Definition demo_limits : ResourceLimits :=
  mkResourceLimits (Some (u64_sat 1500)) (Some (u64_sat 1048576)) (Some (u64_sat 64)) None None (Some (u64_sat 30)).

(** A runner that outlives its deadline, with a process that has left its group and
    has its output, and dies when it is killed. *)
Definition slow_runner : RunnerRun :=
  mkRunnerRun 4242 Written Elapsed (Ended None (Some 9%Z)) true true false true nobody (PumpReads true []) PumpFailed (λ _, None).

Lemma host_run_safe_witness :
  (∃ h acc, run_action true demo_limits slow_runner (fresh_host []) = (h, Ok (mkSandboxOutcome TimedOut [] [], acc)) ∧
     running (ho_procs h) = false ∧ ho_leaf h = false) ∧
  (∃ attrs, ho_released (run_action true demo_limits slow_runner (fresh_host [])).1 = Some attrs ∧
     ("cpu.max", "150000 100000") ∈ attrs ∧ ("cgroup.procs", "4242") ∈ attrs).
Proof.
  pose proof (host_run_safe true demo_limits slow_runner []) as Hs.
  destruct (run_action true demo_limits slow_runner (fresh_host [])) as [h r] eqn:Hrun. cbn [fst]. vm_compute in Hrun. injection Hrun as <- <-.
  destruct Hs as (_ & Hkill & Hrel & _ & Hok). split.
  - do 2 eexists. split; [reflexivity|]. split; [apply Hkill; vm_compute; set_solver|].
    destruct (proj2 (Hok _ _ eq_refl) eq_refl) as [Hleaf|Hkept]; [right; vm_compute; set_solver|exact Hleaf|discriminate Hkept].
  - eexists. split; [reflexivity|]. destruct (Hrel _ eq_refl eq_refl) as [(_ & _ & Hc) Hp]. split; [exact (Hc _ eq_refl)|exact Hp].
Defined.

(** Where the configuration cannot be written, the cgroup is dropped while the runner
    is still in it, and stays. *)
Lemma cgroup_left_behind :
  let rr := mkRunnerRun 4242 (WriteFailed "EIO") Elapsed Elapsed false false false true nobody PumpFailed PumpFailed (λ _, None) in
  let '(h, r) := run_action true demo_limits rr (fresh_host []) in
  (∃ e, r = Err e) ∧ running (ho_procs h) = false ∧ ho_leaf h = true.
Proof. vm_compute. split; [by eexists|done]. Qed.

(** The deadline covers the wait for the runner and not that for its output: a runner
    that ends in time and leaves a process behind that has its output is waited for
    for as long as that process runs. *)
Lemma left_over_process_hangs_run :
  let rr := mkRunnerRun 4242 Written (Ended (Some 0%Z) None) Elapsed false true false true nobody (PumpReads true []) PumpFailed (λ _, None) in
  is_Some (wall_clock_secs demo_limits) ∧ (run_action true demo_limits rr (fresh_host [])).2 = Halt.
Proof. split; [by eexists|]. vm_compute. reflexivity. Qed.

(** The limits of input and output are not applied. *)
Lemma io_limits_ignored l r w :
  apply_limits (mkResourceLimits (cpu_milli l) (memory_bytes l) (pids_max l) r w (wall_clock_secs l)) = apply_limits l.
Proof. reflexivity. Qed.

(** ** The status of the action *)

(** The code a client sees of the way an action ended: its own, or 128 and the
    signal.  The first process of the namespace, which a signal of its own does not
    reach, exits with that code; so the host sees an exit where the action was
    killed. *)
Definition status_of_runner (s : WaitStatus) : option (WaitResult) :=
  match reap_until 2 [inr s] with
  | Some e =>
      match exit_with false (wait_of 1 e) with
      | EndExit c => Some (Ended (Some (Z.of_N (c mod 256))) None)
      | EndSignal g => Some (Ended None (Some (Z.of_N g)))
      end
  | None => None
  end.

Definition action_code (s : WaitStatus) : Z :=
  match s with WExited _ c => Z.of_N (c mod 256) | WSignaled _ g => 128 + Z.of_N g | WOther => 127 end.

Theorem action_code_preserved orphans s :
  (∀ o, o ∈ orphans → match o with inr (WExited p _ | WSignaled p _) => p ≠ 2 | inr WOther => True | inl _ => False end) →
  match s with WExited p _ => p = 2 | WSignaled p g => p = 2 ∧ g < 128 | WOther => False end →
  reap_until 2 (orphans ++ [inr s]) = reap_until 2 [inr s] ∧
  ∃ c, status_of_runner s = Some (Ended (Some c) None) ∧ exit_code_of (exit_status_of (Some c) None false false) = action_code s.
Proof.
  intros Ho Hs. split.
  - induction orphans as [|o orphans IH]; [done|]. pose proof (Ho o ltac:(set_solver)) as Hfirst.
    etrans; [|apply IH; intros; apply Ho; set_solver]. cbn [app]. destruct o as [|[p c|p g|]]; cbn [reap_until]; [done|..|done];
      by rewrite (proj2 (N.eqb_neq _ _) Hfirst).
  - unfold status_of_runner. destruct s as [p c|p g|]; [subst p| |done]; cbn [reap_until].
    + cbn. eexists. split; [reflexivity|]. cbn. by rewrite !N.Div0.mod_mod.
    + destruct Hs as [-> Hg]. cbn [N.eqb Pos.eqb exit_with wait_of]. eexists. split; [reflexivity|]. cbn [exit_status_of exit_code_of action_code].
      rewrite !(N.mod_small (128 + g)) by lia. lia.
Qed.

(** ** What the kernel counted *)

Definition word (s : string) : Prop := s ≠ "" ∧ all_chars (λ c, negb (is_whitespace c)) s = true.

(** A file of counters, as the kernel prints it. *)
Definition print_counters (l : list (string * N)) : string :=
  foldr (λ p s, p.1 +:+ " " +:+ pretty p.2 +:+ String NEWLINE s) "" l.

Lemma words_from_app w t s : all_chars (λ c, negb (is_whitespace c)) t = true → words_from w (t +:+ s) = words_from (w +:+ t) s.
Proof.
  revert w. induction t as [|c t IH]; intros w Ht; [by rewrite append_nil|]. cbn [all_chars] in Ht. apply andb_true_iff in Ht as [Hc%negb_true_iff Ht].
  change (String c t +:+ s) with (String c (t +:+ s)). cbn [words_from]. rewrite Hc, IH, append_assoc by done. done.
Qed.

Lemma lines_from_app w t s : all_chars (λ c, negb (Ascii.eqb c NEWLINE)) t = true → lines_from w (t +:+ s) = lines_from (w +:+ t) s.
Proof.
  revert w. induction t as [|c t IH]; intros w Ht; [by rewrite append_nil|]. cbn [all_chars] in Ht. apply andb_true_iff in Ht as [Hc%negb_true_iff Ht].
  change (String c t +:+ s) with (String c (t +:+ s)). cbn [lines_from]. rewrite Hc, IH, append_assoc by done. done.
Qed.

Lemma all_chars_mono (f g : ascii → bool) s : (∀ c, f c = true → g c = true) → all_chars f s = true → all_chars g s = true.
Proof. intros Hfg. induction s as [|c s IH]; [done|]. cbn. rewrite !andb_true_iff. intros [? ?]. auto. Qed.

Lemma all_chars_app f a b : all_chars f (a +:+ b) = all_chars f a && all_chars f b.
Proof. induction a as [|c a IH]; [done|]. change (f c && all_chars f (a +:+ b) = f c && all_chars f a && all_chars f b). by rewrite IH, andb_assoc. Qed.

Lemma digits_chars acc s n : digits acc s = Some n → all_chars (λ c, bool_decide (is_Some (digit_val c))) s = true.
Proof.
  revert acc. induction s as [|c s IH]; intros acc; [done|]. cbn. destruct (digit_val c) as [d|]; [|done]. intros Hs. rewrite (IH _ Hs). done.
Qed.

Lemma digit_not_whitespace c : is_Some (digit_val c) → is_whitespace c = false.
Proof. destruct c as [[] [] [] [] [] [] [] []]; vm_compute; by intros [? [=]]. Qed.

Lemma pretty_word (n : N) : word (pretty n).
Proof.
  destruct (pretty_N_first n) as (c & s & Hp & _). split; [by rewrite Hp|]. pose proof (parse_pretty n) as Hd. unfold parse_N in Hd. rewrite Hp in Hd.
  apply digits_chars in Hd. rewrite Hp. eapply all_chars_mono; [|exact Hd]. intros x Hx%bool_decide_eq_true. by rewrite digit_not_whitespace.
Qed.

Lemma not_whitespace_not_newline c : negb (is_whitespace c) = true → negb (Ascii.eqb c NEWLINE) = true.
Proof. destruct c as [[] [] [] [] [] [] [] []]; by vm_compute. Qed.

Lemma lines_counters p l :
  word p.1 → lines (print_counters (p :: l)) = (p.1 +:+ " " +:+ pretty p.2) :: lines (print_counters l).
Proof.
  intros [_ Hw]. unfold lines. change (print_counters (p :: l)) with (p.1 +:+ " " +:+ pretty p.2 +:+ String NEWLINE (print_counters l)).
  rewrite <-!append_assoc, lines_from_app; [by rewrite append_assoc|]. rewrite !all_chars_app, !andb_true_iff. split_and!; [|done|].
  - by apply (all_chars_mono _ _ _ not_whitespace_not_newline).
  - destruct (pretty_word p.2) as [_ ?]. by apply (all_chars_mono _ _ _ not_whitespace_not_newline).
Qed.

Lemma words_counter (p : string * N) : word p.1 → split_whitespace (p.1 +:+ " " +:+ pretty p.2) = [p.1; pretty p.2].
Proof.
  intros [Hne Hw]. unfold split_whitespace. rewrite words_from_app by done. change (" " +:+ pretty p.2) with (String " " (pretty p.2)). cbn [words_from is_whitespace].
  change (existsb _ _) with true. destruct (pretty_word p.2) as [Hne' Hw']. rewrite <-(append_nil (pretty p.2)) at 1. rewrite words_from_app by done.
  cbn [words_from]. change ("" +:+ ?s) with s. unfold flush. by rewrite !(proj2 (String.eqb_neq _ _)).
Qed.

Lemma parse_u64_pretty n : n ≤ u64_max → parse_u64 (pretty n) = Some n.
Proof.
  intros Hn. unfold parse_u64. destruct (pretty_N_first n) as (c & t & Hp & Hc). 
  assert (match pretty n with String "+" t => t | _ => pretty n end = pretty n) as ->.
  { rewrite Hp. destruct c as [[] [] [] [] [] [] [] []]; try done. by destruct Hc. }
  rewrite parse_pretty. cbn. by rewrite (proj2 (N.leb_le _ _) Hn).
Qed.

Definition counters (l : list (string * N)) : Prop := Forall (λ p, word p.1 ∧ p.2 ≤ u64_max) l.

Lemma oom_lines_counters l :
  counters l → oom_lines (lines (print_counters l)) = match list_find (λ p, p.1 = "oom_kill") l with Some (_, p) => 0 <? p.2 | None => false end.
Proof.
  induction 1 as [|p l [Hw Hv] _ IH]; [done|]. rewrite lines_counters by done. cbn [oom_lines list_find]. rewrite words_counter by done.
  destruct (String.eqb_spec p.1 "oom_kill") as [Hk|Hk].
  - by rewrite parse_u64_pretty, decide_True.
  - rewrite IH, decide_False by done. destruct (list_find _ l) as [[]|]; done.
Qed.

Lemma cpu_line_counter acc (p : string * N) :
  word p.1 → p.2 ≤ u64_max →
  cpu_user (cpu_line acc (p.1 +:+ " " +:+ pretty p.2)) = (if decide (p.1 = "user_usec") then p.2 else cpu_user acc) ∧
  cpu_system (cpu_line acc (p.1 +:+ " " +:+ pretty p.2)) = (if decide (p.1 = "system_usec") then p.2 else cpu_system acc).
Proof.
  intros Hw Hv. unfold cpu_line. rewrite words_counter, parse_u64_pretty by done.
  destruct (String.eqb_spec p.1 "user_usec") as [->|Hu]; [done|]. rewrite (decide_False (P := p.1 = "user_usec")) by done.
  by destruct (String.eqb_spec p.1 "system_usec") as [->|Hs]; [|rewrite decide_False].
Qed.

Lemma cpu_lines_counters l acc :
  counters l → NoDup l.*1 →
  let acc' := foldl cpu_line acc (lines (print_counters l)) in
  (∀ v, ("user_usec", v) ∈ l → cpu_user acc' = v) ∧ ("user_usec" ∉ l.*1 → cpu_user acc' = cpu_user acc) ∧
  (∀ v, ("system_usec", v) ∈ l → cpu_system acc' = v) ∧ ("system_usec" ∉ l.*1 → cpu_system acc' = cpu_system acc).
Proof.
  intros Hc. revert acc. induction Hc as [|p l [Hw Hv] _ IH]; intros acc Hnd.
  { split_and!; [by intros ? ?%not_elem_of_nil|done|by intros ? ?%not_elem_of_nil|done]. }
  rewrite lines_counters by done. cbn [foldl]. rewrite fmap_cons in Hnd. apply NoDup_cons in Hnd as [Hk Hnd].
  destruct (cpu_line_counter acc p Hw Hv) as [Hlu Hls]. destruct (IH (cpu_line acc (p.1 +:+ " " +:+ pretty p.2)) Hnd) as (Hu & Hu' & Hs & Hs').
  rewrite Hlu in Hu'. rewrite Hls in Hs'. rewrite fmap_cons, !not_elem_of_cons. split_and!.
  - intros v [<-|Hin]%elem_of_cons; [|by apply Hu]. by rewrite Hu'.
  - intros [Hne Hno]. by rewrite Hu', decide_False.
  - intros v [<-|Hin]%elem_of_cons; [|by apply Hs]. by rewrite Hs'.
  - intros [Hne Hno]. by rewrite Hs', decide_False.
Qed.

Lemma io_tokens_cpu ts acc : cpu_user (foldl io_token acc ts) = cpu_user acc ∧ cpu_system (foldl io_token acc ts) = cpu_system acc.
Proof.
  revert acc. induction ts as [|t ts IH]; intros acc; [done|]. cbn [foldl]. destruct (IH (io_token acc t)) as [-> ->]. unfold io_token.
  destruct (_ ≫= parse_u64); [done|]. by destruct (_ ≫= parse_u64).
Qed.

Lemma io_lines_cpu ls acc :
  let acc' := foldl (λ acc line, foldl io_token acc (tail (split_whitespace line))) acc ls in
  cpu_user acc' = cpu_user acc ∧ cpu_system acc' = cpu_system acc.
Proof.
  revert acc. induction ls as [|line ls IH]; intros acc; [done|]. cbn [foldl].
  destruct (IH (foldl io_token acc (tail (split_whitespace line)))) as [-> ->]. apply io_tokens_cpu.
Qed.

(** The counters the kernel prints are read as they are: an action counts as killed
    for memory exactly when its cgroup counts a kill, and its processor times are
    those of its cgroup. *)
Theorem counters_read files events cpu :
  counters events → counters cpu → NoDup cpu.*1 →
  files "memory.events" = Some (print_counters events) → files "cpu.stat" = Some (print_counters cpu) →
  was_oom_killed files = match list_find (λ p, p.1 = "oom_kill") events with Some (_, p) => 0 <? p.2 | None => false end ∧
  ∀ u s, ("user_usec", u) ∈ cpu → ("system_usec", s) ∈ cpu → cpu_user (accounting files) = u ∧ cpu_system (accounting files) = s.
Proof.
  intros He Hc Hnd Hfe Hfc. split; [unfold was_oom_killed; rewrite Hfe; by apply oom_lines_counters|].
  intros u s Hu Hs. destruct (cpu_lines_counters cpu accounting_default Hc Hnd) as (Hu1 & _ & Hs1 & _). unfold accounting. rewrite Hfc.
  destruct (files "io.stat") as [io|]; [|destruct (files "memory.peak"), (files "pids.peak"); cbn; by rewrite (Hu1 _ Hu), (Hs1 _ Hs)].
  match goal with |- context [foldl ?f ?a (lines io)] => destruct (io_lines_cpu (lines io) a) as [-> ->] end.
  destruct (files "memory.peak"), (files "pids.peak"); cbn; by rewrite (Hu1 _ Hu), (Hs1 _ Hs).
Qed.
